(* ===== verification/_CoqProject ===== *)
-Q . S2P
Prelude.v
Loops.v
BTree.v
SimArith.v
SimTrig.v
SimKernels.v
SimDamage.v
SimCombat.v
SimCombatSpec.v
SimRandom.v
SimContainer.v
SimChecksum.v
SimDeaths.v
SimObjects.v
SimSparse.v
SimSparseSpec.v
SimReader.v
SimPayload.v
SimOrder.v
SimCols.v
SimLayout.v
SimWorld.v
SimWorldSpec.v
SimWorldTick.v
SimWorldMain.v
SimDigest.v
SimPlay.v
SimSave.v
SimSaveSpec.v
SimSaveMain.v
SimBatch.v
SimLanes.v
NetObfuscate.v
NetCommand.v
NetStream.v
NetText.v
NetMsg.v
NetInternal.v
NetExtension.v
NetRetail.v
NetLockstep.v
NetTransport.v
NetSession.v
BhsOpcode.v
BhsDisasm.v
BhsStd.v
SimEconomy.v
CcLex.v
CcLexSpec.v
CcAst.v
CcParse.v
CcParseSpec.v
CcPrint.v
CcSource.v
BhsValue.v
BhsOps.v
BhsProgram.v
BhsChunk.v
BhsVm.v
BhsBuiltins.v
BhsHeapSafety.v
BhsVmSafety.v
BhsVmRefs.v
BhsChunkSafety.v
BhsBuiltinSpec.v
CcSema.v
CcCodegen.v
CcCodegenSpec.v
CcCodeWf.v
CcRun.v
CcEval.v
CcMachine.v
CcLink.v
CcFollow.v
CcCorrectExpr.v
CcCorrectStmt.v
CcCorrectFlow.v
CcCorrectScript.v
CcCorrect.v
CcQuirks.v
