(* ===== verification/Prelude.v ===== *)
(** * Descent of Nations: a verification library

    The repository rebuilds the deterministic core of a lockstep strategy
    game.  This library models the parts that make two peers agree, from the
    Rust sources under [src/crates], and proves the theorems they rest on.

    ** The program and its model

    The simulation kernel ([crates/don-sim]) draws every random number from
    one congruential generator, keeps its objects in per-owner bands visited
    in an order that rotates with the frame, stores them in containers whose
    capacity words are part of the state, and digests that state into sixteen
    Adler-32 channels.  The network layer ([crates/don-net]) carries the
    players' commands and those channels: commands are tiled into a payload
    with drawn padding and an XOR key derived from the game key, framed as
    records of a recorded game or as network messages; the session keeps the
    roster, the host's authority, readiness and the store of packages over a
    datagram transport; the lockstep runner admits one package per participant
    and stamp, compares their checksums and commits the turn.  The script
    machine ([crates/don-bhs]) runs the bytecode of compiled scenario scripts
    on a shared run stack: aggregates are shared by reference, [ref]
    parameters alias slots of other frames, statics survive between runs, and
    builtin calls leave the machine through one host method.  Its programs are
    read from a chunked container, and come from a compiler
    ([crates/don-bhs-cc]): a lexer, a recursive-descent parser, an analysis
    that loads includes and builds the tables of structs, labels and scripts,
    and a code generator that emits bytecode with labels it patches at the end
    of each script.  The combat and economy rules of the simulation are
    arithmetic on wrapping thirty-two-bit integers, step for step that of the
    engine.  A world joins these parts: unit columns laid out by a descriptor
    table, order lists, generational handles, a dense and a sparse registry of
    object addresses that every spawn and despawn keeps in step, the frame, and
    a digest; batches of worlds are run by threads or transposed into lanes.

    - [SimRandom.v]: [don-sim/src/rng.rs], [Random] (reseed, advance, get).
    - [SimContainer.v]: [don-sim/src/container.rs], [EngineArray] and
      [EngineStack], a Rust [Vec] with the engine's capacity and growth words.
    - [SimChecksum.v]: [don-sim/src/checksum.rs], [adler32] with its chunk
      schedule, the [DataWalk] interface (a class) and its two visitors.
    - [SimObjects.v]: [don-sim/src/objects.rs], [ObjectRegistry]; indexing
      outside the ten owner slots, a panic in Rust, is [None].
    - [SimArith.v], [SimDamage.v]: [don-sim/src/mechanics.rs], wrapping
      arithmetic and the damage pipeline with its trace (module [Mechanics]).
    - [SimEconomy.v]: the rest of [mechanics.rs], income, caps, cost ramps and
      attrition (module [Economy]).
    - [SimCombat.v], [SimCombatSpec.v]: [don-sim/src/systems/combat.rs],
      sections 1 to 10 (module [Combat]), and the theorems about them.
    - [SimDeaths.v]: its sections 11 and 12, the corpse ring, the deaths
      channel and the combat-owned bytes of a unit (module [Deaths]).
    - [SimTrig.v]: [don-sim/src/trig.rs], the integer sine, cosine and angle.
    - [SimKernels.v]: [don-sim/src/simd.rs], the scalar, portable, NEON and SSE2
      forms of the two element-wise kernels.
    - [SimSparse.v], [SimSparseSpec.v]: the sparse object bands of
      [systems/sparse_object_bands_authority_frontier.rs] and their invariant.
    - [SimReader.v], [SimPayload.v]: the record reader and the strafe, air
      patrol, scenario and economy order payloads of [systems] (modules
      [Strafe], [Air], [Economy]).
    - [SimOrder.v]: [don-sim/src/order.rs], orders, their list, dispatch counts.
    - [SimCols.v], [SimLayout.v]: the unit class of [generated/state.rs], its
      columns (module [UnitCols]) and its descriptor table.
    - [SimWorld.v]: [don-sim/src/world.rs] (module [World]); [SimWorldSpec.v]:
      the invariant [world_wf] and spawning and despawning under it;
      [SimWorldTick.v]: the frame under it; [SimWorldMain.v]: the theorems.
    - [SimDigest.v]: the digest of [world.rs].
    - [SimSave.v]: save and load of [world.rs]; [SimSaveSpec.v]: the
      registries and the rebuild; [SimPlay.v]: worlds that play alike, for
      the theorems of [SimSaveMain.v].
    - [SimBatch.v], [SimLanes.v]: [don-sim/src/batch.rs] and [interleave.rs],
      batches, their threads as interleavings (module [Threads]), and lanes.
    - [NetObfuscate.v]: [don-net/src/obfuscate.rs], pads, XOR, key recovery.
    - [NetCommand.v]: [don-net/src/lib.rs] and [opcodes.rs], command lengths,
      command lists, both package framings, the checksum command.
    - [NetStream.v]: [don-net/src/stream.rs], the backward dynamic program
      that locates a command stream in a recorded game.
    - [NetText.v], [NetMsg.v]: [don-net/src/msg.rs], the fixed-width string
      arrays and every game message.
    - [NetInternal.v]: [don-net/src/internal.rs], the control packets.
    - [NetExtension.v]: [don-net/src/extension.rs], game key and match start.
    - [NetRetail.v]: [don-net/src/retail.rs], the checksum package.
    - [NetLockstep.v]: [don-net/src/lockstep.rs], [LockstepRunner].
    - [NetTransport.v]: [don-net/src/transport.rs], the [Transport] trait as a
      class with its laws, [LoopTransport], of [TcpTransport] the framing and a
      round of [poll] over what its reads return.
    - [NetSession.v]: [don-net/src/session.rs], [Session] over any transport.
    - [BhsOpcode.v], [BhsDisasm.v]: [don-bhs/src/opcode.rs] and [disasm.rs],
      the opcode table, the linear sweep, the assembler, variable references.
    - [BhsStd.v]: the [f32], integer and text routines of Rust's standard
      library the machine uses; [powf], [to_lowercase] and the printing of a
      float are the class [StdLib].
    - [BhsValue.v], [BhsOps.v]: [don-bhs/src/value.rs] and [ops.rs], values
      over a heap of shared cells and aggregates, and [do_operator].
    - [BhsProgram.v]: [don-bhs/src/program.rs], scripts, files, links.
    - [BhsVm.v]: [don-bhs/src/vm.rs] and the boundary of [host.rs], the machine
      with a definition per arm of the dispatch, the run loop and its entries.
    - [BhsHeapSafety.v], [BhsVmSafety.v], [BhsVmRefs.v]: the theorems about it.
    - [BhsChunk.v], [BhsChunkSafety.v]: [don-bhs/src/chunk.rs], the container
      reader, that it is total, and that what it loads the machine can run.
    - [BhsBuiltins.v], [BhsBuiltinSpec.v]: [don-bhs/src/builtins.rs], the
      utility builtins and their host, an instance of the machine's [Host];
      the trigonometric functions are the class [Trig].
    - [CcLex.v], [CcLexSpec.v]: [don-bhs-cc/src/lex.rs], the lexer.
    - [CcAst.v], [CcParse.v], [CcParseSpec.v]: [don-bhs-cc/src/ast.rs] and
      [parse.rs], the syntax tree, the parser (module [Parser]), totality.
    - [CcPrint.v], [CcSource.v]: a printer of expressions, the round trip
      through the parser, and with the lexer the one from source text.
    - [CcSema.v], [CcCodegen.v]: [don-bhs-cc/src/sema.rs] and [codegen.rs],
      the analysis over a class of file systems, and the code generator.
    - [CcCodegenSpec.v], [CcCodeWf.v]: what the generator emits, as lists of
      instructions with labels, and that compiled code is well formed.
    - [CcRun.v]: runs of compiled code by the machine stay on its instructions.
    - [CcEval.v]: a reference semantics for scripts over scalars, independent
      of bytecode; [CcMachine.v]: the machine's instructions on such scripts;
      [CcLink.v], [CcFollow.v]: the generator and the machine side by side;
      [CcCorrectExpr.v], [CcCorrectStmt.v], [CcCorrectFlow.v],
      [CcCorrectScript.v], [CcCorrect.v]: the compiler is
      correct on them, from expressions to whole programs.
    - [CcQuirks.v]: scripts on which the compiler goes wrong.
    - [Loops.v]: bounded iteration, shared by the loops without a structural
      measure.
    - [BTree.v]: what the sources use of [BTreeMap], a list sorted by key.
    - this file: results and the [?] operator, machine integers, bytes and
      little-endian fields, the [WireCodec] interface, shared lemmas.

    ** Conventions

    A Rust integer is a [Z] in the range of its type and every wrapping
    operation is written out ([u32], [i32], ...); a [usize] is a [nat].
    [Result] is [result], a panic is [None], a [&mut self] method returns the
    new state beside its result.  Session operations are computations of a
    state and error monad in which an early return keeps the changes made
    before it.  Loops that are not structural take fuel: the length of the
    payload for command lists and deframing (every iteration consumes a byte
    or stops) and the number of pending datagrams for the receive loop; each
    has a lemma that more fuel changes nothing.  A computation of the script
    machine returns a result with the state after it, panics, or exhausts the
    machine stack: its routines that recurse over references and aggregates
    take the number of nested calls the stack holds, and its run loop takes
    three iterations more than the budget, which always suffices
    ([run_loop_total]).  The machine's counters of bytecodes and errors and the
    lexer's lines and columns are unbounded, and memory is never exhausted
    ([Vec::with_capacity] succeeds).  The lexer's loops take one round per
    character, which is proved enough ([lex_total]).  The parser has no limit on
    nesting but the native stack: its functions take the number of nested calls
    and loop rounds the stack has room for and return nothing when it overflows;
    sixteen per character of the source and thirty-two more are proved enough,
    and that any stack that suffices gives the same result
    ([parse_file_total]).  Parser arithmetic is that of a release build.  The
    carry loop of [credit_resource]
    takes [2 ^ 32] rounds, more than an accumulator has values.  The code
    generator recurs over syntax trees, which fit the stack, and over types,
    which need not: [emit_default_value] takes the number of nested calls the
    stack holds.  The reference semantics takes fuel for loops and nesting; a
    result is one for every larger fuel, and the correctness theorem asks only
    that some fuel gives it.

    ** What the theorems show

    - Lockstep: every reachable runner satisfies the turn invariant and never
      panics; a commit succeeds exactly when it should; arrival order does not
      matter; a missed deadline latches.
    - Packages: the command decoder accepts exactly the tilings, commands and
      packages round trip, a checksum package is accepted exactly when it
      holds one valid checksum command.
    - Session: roster invariant, host authority over key and start, refusals
      change nothing, control and game traffic stay apart, sending is atomic,
      polling drains the transport; the handshake of any two peers over the loop
      transport completes, whatever their ids, names and order of readying, when
      they are polled within the first second.
    - Wire formats: every codec round trips and the strict decoders accept
      nothing else; the two framings of a package agree; game keys equal under
      the wire mask are indistinguishable and others are not.
    - Transport: delivery in order, once, whole, however the stream of a peer
      that begins with a hello is cut into reads and polls; a stream that begins
      with another frame is cut off, and the cut is visible.
    - Kernel: the range draw stays in range and the generator has full
      period; the scheduled Adler-32 equals the textbook one and detects every
      single-byte change; the frame traversal visits once each registered unit
      of the active slots and each building and wall of the first eight, and
      nothing else; removal keeps bands dense; the array refines a list and its
      capacity is a function of its peak length.
    - Scripts: no bytecode makes the machine panic; a run executes at most one
      bytecode more than its budget and keeps the machine well formed, or
      overflows the native stack by a chain of references; when it ends by [Ok]
      it leaves no frame, and the stack balanced if there was no runtime error
      and no frame before; statics stay
      initialised and their guard is exact; what is written through a
      reference is read through it; copies of aggregates are deep; operators
      do not promote and integers stay in range; the disassembler accepts
      exactly the assembled programs; trigger bits and the merging of
      programs are exact.  Two lemmas of [BhsVmRefs.v] record behaviours a
      user should know: a local that refers to itself exhausts the stack, and
      the frames of a failed run are resumed by the next one.

    - Containers and builtins: a container loads exactly when it is a root
      over whole leaves whose payloads load; loading never panics; includes go
      to earlier files; loaded bytes run safely over any lawful host, and over
      the utility host when [add(array, value)] is left out, the one builtin
      that can panic; the array builtins are list operations; script dice are
      the simulation's.
    - Compiler front end: lexing ends on every text, and parsing given the
      stack for its nesting, without which it overflows; token
      positions are right; operators are read by maximal munch; tokens in any of
      their spellings and printed expressions read back as themselves, which
      fixes precedence and associativity; a plain file-scope variable is never accepted.
    - Compiler back end: compiled code of at most [2 ^ 32] bytes disassembles
      and jumps to its own instructions, or is the refusal; a file with a script
      that has a body ends in a return and such scripts start at instructions, a
      file without is empty; runs never leave the instructions but by starting a
      script of an empty file; a script over integers, floats and
      strings with assignments, declarations, conditionals, loops, jumps out
      of them and returns, run by the machine, returns the value of the
      reference semantics or stops with its error.
    - Combat and economy: the damage pipeline is total on data the engine
      survives, floors direct hits and traces every deviation; the combat
      rules agree with it; the integer distance is within an eighth of
      Euclid's in the square and the scan table's rings are exact; hit points
      and income are conserved; attrition fires once per period; the corpse
      ring evicts the oldest that may go, and the deaths channel is the
      checksum of the occupied records.

    - World: whatever is spawned, despawned, ordered, registered and stepped,
      columns, handles and both registries agree; handles are never reused
      while stale; a frame neither panics nor moves a unit off the map; the
      sparse registry is sound under all its operations and survives its
      snapshot; the order payloads round trip; the descriptor table is
      consistent; the kernels are bit-identical.  Threads and lanes compute what
      the serial loop does, whatever the interleaving.  The digest does not
      depend on rows, nor, against its purpose, on positions.
    - Save and load: a load never panics and accepts only well-formed worlds; a
      saved world loads back, and the two cannot be told apart by any sequence
      of operations.

    ** Not modelled

    The sockets of [TcpTransport] (accepting, retrying writes, the deadline of
    [poll]), the JSON printer of the lockstep evidence, display code, and the
    rest of the repository: the movement, dispatch and production systems of
    the simulation and the tick that joins them to the world, the scenario
    builtins, the loading of script files for the game, content loaders,
    replays, the save file's bytes and the world's item runtime, the
    environment, the AI and the tools that inspect the retail executable.  The
    correctness theorem of the compiler leaves out calls, switches, triggers,
    statics, arrays, structs and reference parameters; the well-formedness
    theorems cover them. *)

From stdpp Require Export base list numbers gmap sorting.
From Stdlib Require Export ZArith Lia.

#[global] Open Scope Z_scope.

(* ------------------------------------------------------------------ *)
(** ** Results: Rust's [Result<A, E>] and the [?] operator *)

Inductive result (E A : Type) : Type :=
| Ok (a : A)
| Err (e : E).
Arguments Ok {E A} a.
Arguments Err {E A} e.

#[export] Instance result_eq_dec {E A} `{EqDecision E, EqDecision A} :
  EqDecision (result E A).
Proof. solve_decision. Defined.

Definition rbind {E A B} (c : result E A) (k : A -> result E B) : result E B :=
  match c with Ok a => k a | Err e => Err e end.

Definition map_err {E F A} (f : E -> F) (c : result E A) : result F A :=
  match c with Ok a => Ok a | Err e => Err (f e) end.

(** [ok_or o e] is Rust's [o.ok_or(e)]. *)
Definition ok_or {E A} (o : option A) (e : E) : result E A :=
  match o with Some a => Ok a | None => Err e end.

Definition is_ok {E A} (c : result E A) : bool :=
  match c with Ok _ => true | Err _ => false end.

Declare Scope don_scope.
Delimit Scope don_scope with don.
#[global] Open Scope don_scope.

Notation "'let?' x := c 'in' k" := (rbind c (fun x => k))
  (at level 10, x name, c at level 100, k at level 200) : don_scope.
Notation "'let?' ' p := c 'in' k" := (rbind c (fun p => k))
  (at level 10, p strict pattern, c at level 100, k at level 200) : don_scope.
Notation "'guard' b 'else' e ;; k" := (if b then k else Err e)
  (at level 10, b at level 100, e at level 100, k at level 200) : don_scope.

Lemma rbind_Ok {E A B} (c : result E A) (k : A -> result E B) b :
  rbind c k = Ok b -> exists a, c = Ok a /\ k a = Ok b.
Proof. destruct c; [by eauto | done]. Qed.

Lemma rbind_Err {E A B} (c : result E A) (k : A -> result E B) e :
  rbind c k = Err e -> c = Err e \/ exists a, c = Ok a /\ k a = Err e.
Proof. destruct c; simpl; naive_solver. Qed.

(* ------------------------------------------------------------------ *)
(** ** Machine integers: a [w]-bit integer is a [Z], wrap-around explicit *)

Definition wrap_u (w z : Z) : Z := z mod 2 ^ w.
Definition wrap_s (w z : Z) : Z := (z + 2 ^ (w - 1)) mod 2 ^ w - 2 ^ (w - 1).

Abbreviation u8 := (wrap_u 8).
Abbreviation u16 := (wrap_u 16).
Abbreviation u32 := (wrap_u 32).
Abbreviation u64 := (wrap_u 64).
Abbreviation i8 := (wrap_s 8).
Abbreviation i16 := (wrap_s 16).
Abbreviation i32 := (wrap_s 32).
Abbreviation i64 := (wrap_s 64).

Definition in_u (w z : Z) : Prop := 0 <= z < 2 ^ w.
Definition in_s (w z : Z) : Prop := - 2 ^ (w - 1) <= z < 2 ^ (w - 1).

Abbreviation is_u8 := (in_u 8).
Abbreviation is_u16 := (in_u 16).
Abbreviation is_u32 := (in_u 32).
Abbreviation is_u64 := (in_u 64).
Abbreviation is_i8 := (in_s 8).
Abbreviation is_i16 := (in_s 16).
Abbreviation is_i32 := (in_s 32).

#[export] Instance in_u_dec w z : Decision (in_u w z).
Proof. unfold in_u. apply _. Defined.
#[export] Instance in_s_dec w z : Decision (in_s w z).
Proof. unfold in_s. apply _. Defined.

(** Limits of the widths the sources name. *)
Definition U16_MAX : Z := 65535.
Definition U32_MAX : Z := 4294967295.
Definition U64_MAX : Z := 18446744073709551615.
Definition I32_MAX : Z := 2147483647.
Definition I32_MIN : Z := -2147483648.

Definition saturating_add_u64 (a b : Z) : Z := Z.min (a + b) U64_MAX.
Definition saturating_sub (a b : Z) : Z := Z.max 0 (a - b).
Definition checked_add_u32 (a b : Z) : option Z :=
  if a + b <=? U32_MAX then Some (a + b) else None.

Lemma wrap_u_range w z : 0 <= w -> in_u w (wrap_u w z).
Proof. intros. apply Z.mod_pos_bound. lia. Qed.

Lemma wrap_u_id w z : in_u w z -> wrap_u w z = z.
Proof. intros. by apply Z.mod_small. Qed.

Lemma wrap_s_range w z : 0 < w -> in_s w (wrap_s w z).
Proof.
  intros Hw. unfold in_s, wrap_s.
  assert (2 ^ w = 2 * 2 ^ (w - 1)) as ->.
  { rewrite <- Z.pow_succ_r by lia. f_equal; lia. }
  pose proof (Z.mod_pos_bound (z + 2 ^ (w - 1)) (2 * 2 ^ (w - 1))). lia.
Qed.

Lemma wrap_s_id w z : 0 < w -> in_s w z -> wrap_s w z = z.
Proof.
  unfold in_s, wrap_s. intros Hw Hz.
  assert (2 ^ w = 2 * 2 ^ (w - 1)) as ->.
  { rewrite <- Z.pow_succ_r by lia. f_equal; lia. }
  rewrite Z.mod_small; lia.
Qed.

Lemma wrap_s_mod w z : 0 < w -> wrap_s w z mod 2 ^ w = z mod 2 ^ w.
Proof.
  intros. unfold wrap_s. rewrite Zminus_mod_idemp_l. f_equal. lia.
Qed.

Lemma wrap_s_congr w a b : a mod 2 ^ w = b mod 2 ^ w -> wrap_s w a = wrap_s w b.
Proof.
  intros H. unfold wrap_s.
  rewrite <- (Zplus_mod_idemp_l a), <- (Zplus_mod_idemp_l b). by rewrite H.
Qed.

Lemma wrap_s_wrap_u w z : wrap_s w (wrap_u w z) = wrap_s w z.
Proof. unfold wrap_s, wrap_u. by rewrite Zplus_mod_idemp_l. Qed.

Lemma wrap_u_wrap_s w z : 0 < w -> wrap_u w (wrap_s w z) = wrap_u w z.
Proof. apply wrap_s_mod. Qed.

Lemma wrap_s_of_u w z : 0 < w -> in_s w z -> wrap_s w (wrap_u w z) = z.
Proof. intros. rewrite wrap_s_wrap_u. by apply wrap_s_id. Qed.

(* ------------------------------------------------------------------ *)
(** ** Bytes: [Vec<u8>] and [&[u8]] are lists of [Z] in [0, 256) *)

Abbreviation bytes := (list Z).
Definition bytes_ok (bs : bytes) : Prop := Forall is_u8 bs.

#[export] Instance bytes_ok_dec bs : Decision (bytes_ok bs).
Proof. unfold bytes_ok. apply _. Defined.

(** [to_le n z]: the [n] little-endian bytes of [z] (Rust's [to_le_bytes]). *)
Fixpoint to_le (n : nat) (z : Z) : bytes :=
  match n with
  | O => []
  | S n => z mod 256 :: to_le n (z / 256)
  end.

(** [from_le bs]: Rust's [from_le_bytes] at an unsigned type. *)
Fixpoint from_le (bs : bytes) : Z :=
  match bs with
  | [] => 0
  | b :: bs => b + 256 * from_le bs
  end.

(** [buf[o]] and [u32::from_le_bytes(buf[o..o+n])] under a bounds check that
    the caller has already made (the default is never observed). *)
Definition byte_at (buf : bytes) (o : nat) : Z := nth o buf 0.
Definition le_at (n : nat) (buf : bytes) (o : nat) : Z := from_le (take n (drop o buf)).
Abbreviation u16le := (le_at 2).
Abbreviation u32le := (le_at 4).
Definition i32le (buf : bytes) (o : nat) : Z := i32 (u32le buf o).

(** [bytes.get(a..b)]. *)
Definition get_range (buf : bytes) (a b : nat) : option bytes :=
  if decide (a <= b <= length buf)%nat then Some (take (b - a) (drop a buf)) else None.

Lemma length_to_le n z : length (to_le n z) = n.
Proof. revert z; induction n; simpl; auto. Qed.

Lemma to_le_ok n z : bytes_ok (to_le n z).
Proof.
  revert z; induction n; simpl; constructor; [|apply IHn].
  apply Z.mod_pos_bound; lia.
Qed.

Lemma from_le_to_le n z : from_le (to_le n z) = z mod 2 ^ (8 * Z.of_nat n).
Proof.
  revert z; induction n; intros z.
  { simpl. by rewrite Z.mod_1_r. }
  cbn [to_le from_le]. rewrite IHn.
  replace (8 * Z.of_nat (S n)) with (8 + 8 * Z.of_nat n) by lia.
  rewrite Z.pow_add_r by lia. change (2 ^ 8) with 256.
  rewrite (Z.rem_mul_r z 256) by lia. lia.
Qed.

Lemma from_le_bound bs : bytes_ok bs -> 0 <= from_le bs < 2 ^ (8 * Z.of_nat (length bs)).
Proof.
  induction 1 as [|b bs Hb Hbs IH]; simpl; [lia|].
  replace (8 * Z.of_nat (S (length bs))) with (8 + 8 * Z.of_nat (length bs)) by lia.
  rewrite Z.pow_add_r by lia. change (2 ^ 8) with 256.
  unfold in_u in Hb. change (2 ^ 8) with 256 in Hb. nia.
Qed.

Lemma to_le_from_le bs : bytes_ok bs -> to_le (length bs) (from_le bs) = bs.
Proof.
  induction 1 as [|b bs Hb Hbs IH]; [done|]; cbn [length from_le to_le].
  unfold in_u in Hb. change (2 ^ 8) with 256 in Hb.
  rewrite (Z.mul_comm 256), Z.div_add, Z_mod_plus_full by lia.
  rewrite Z.div_small, Z.mod_small, Z.add_0_l by lia. by rewrite IH.
Qed.

Lemma from_le_to_le_id n w z :
  w = 8 * Z.of_nat n -> in_u w z -> from_le (to_le n z) = z.
Proof. intros -> Hz. rewrite from_le_to_le. by apply Z.mod_small. Qed.

Lemma le_at_app n pre z post :
  le_at n (pre ++ to_le n z ++ post) (length pre) = z mod 2 ^ (8 * Z.of_nat n).
Proof.
  unfold le_at. rewrite drop_app_length.
  rewrite take_app_length' by (by rewrite length_to_le). apply from_le_to_le.
Qed.

(** Reading at an offset behind a known prefix. *)
Lemma byte_at_app pre b post : byte_at (pre ++ b :: post) (length pre) = b.
Proof. unfold byte_at. rewrite app_nth2, Nat.sub_diag by lia. done. Qed.

Lemma le_at_app' n pre z post o :
  o = length pre -> in_u (8 * Z.of_nat n) z ->
  le_at n (pre ++ to_le n z ++ post) o = z.
Proof. intros -> Hz. rewrite le_at_app. by apply Z.mod_small. Qed.

Lemma byte_at_app_l a b o : (o < length a)%nat -> byte_at (a ++ b) o = byte_at a o.
Proof. intros. unfold byte_at. by apply app_nth1. Qed.

Lemma byte_at_drop l i : byte_at (drop i l) 0 = byte_at l i.
Proof. unfold byte_at. by rewrite nth_skipn, Nat.add_0_r. Qed.

Lemma le_at_drop n l i o : le_at n (drop i l) o = le_at n l (i + o).
Proof. unfold le_at. by rewrite drop_drop. Qed.

Lemma le_at_app_l n a b o : (o + n <= length a)%nat -> le_at n (a ++ b) o = le_at n a o.
Proof.
  intros. unfold le_at. rewrite drop_app_le by lia. by rewrite take_app_le by (rewrite length_drop; lia).
Qed.

Lemma bytes_ok_app a b : bytes_ok (a ++ b) <-> bytes_ok a /\ bytes_ok b.
Proof. apply Forall_app. Qed.

Lemma bytes_ok_take n a : bytes_ok a -> bytes_ok (take n a).
Proof. apply Forall_take. Qed.

Lemma bytes_ok_drop n a : bytes_ok a -> bytes_ok (drop n a).
Proof. apply Forall_drop. Qed.

(** Re-encoding a field that was read gives back the bytes it was read from. *)
Lemma to_le_le_at n buf o :
  bytes_ok buf -> (o + n <= length buf)%nat -> to_le n (le_at n buf o) = take n (drop o buf).
Proof.
  intros H Hl. unfold le_at. rewrite <- (to_le_from_le (take n (drop o buf))) at 2
    by (by apply bytes_ok_take, bytes_ok_drop).
  by rewrite length_take, length_drop, Nat.min_l by lia.
Qed.

Lemma to_le_congr n a b : a mod 2 ^ (8 * Z.of_nat n) = b mod 2 ^ (8 * Z.of_nat n) -> to_le n a = to_le n b.
Proof.
  intros H. rewrite <- (to_le_from_le (to_le n a)), <- (to_le_from_le (to_le n b)) by apply to_le_ok.
  by rewrite !length_to_le, !from_le_to_le, H.
Qed.

(** A signed field has the encoding of its unsigned image. *)
Lemma to_le_wrap_s n w z : w = 8 * Z.of_nat n -> (0 < n)%nat -> to_le n (wrap_s w z) = to_le n z.
Proof. intros -> Hn. apply to_le_congr, wrap_s_mod. lia. Qed.

Lemma from_le_signed n w z :
  w = 8 * Z.of_nat n -> (0 < n)%nat -> in_s w z -> wrap_s w (from_le (to_le n z)) = z.
Proof. intros -> Hn Hz. rewrite from_le_to_le. apply (wrap_s_of_u (8 * Z.of_nat n)); [lia|done]. Qed.

Lemma take_cut {A} (k n m : nat) (l : list A) :
  k = (n + m)%nat -> take k l = take n l ++ take m (drop n l).
Proof. intros ->. by rewrite take_take_drop. Qed.

Lemma byte_drop_cons buf o : (o < length buf)%nat -> [byte_at buf o] = take 1 (drop o buf).
Proof.
  intros H. unfold byte_at. destruct (drop o buf) as [|b l] eqn:E.
  { apply (f_equal length) in E. rewrite length_drop in E. simpl in E. lia. }
  rewrite <- (Nat.add_0_r o), <- nth_skipn, E. done.
Qed.

Lemma byte_at_ok bs o : bytes_ok bs -> is_u8 (byte_at bs o).
Proof.
  intros H. unfold byte_at. destruct (decide (o < length bs)%nat).
  - eapply (proj1 (List.Forall_forall _ _) H), nth_In. lia.
  - rewrite nth_overflow by lia. unfold in_u. lia.
Qed.

Lemma le_at_ok n bs o : bytes_ok bs -> in_u (8 * Z.of_nat n) (le_at n bs o).
Proof.
  intros H. unfold le_at, in_u.
  pose proof (from_le_bound (take n (drop o bs))) as B.
  destruct B as [B1 B2]; [by apply bytes_ok_take, bytes_ok_drop|].
  split; [done|]. eapply Z.lt_le_trans; [exact B2|].
  apply Z.pow_le_mono_r; [lia|]. rewrite length_take. lia.
Qed.

Lemma list_delete_ge {A} (l : list A) i : (length l <= i)%nat -> delete i l = l.
Proof.
  revert i; induction l as [|x l IH]; intros [|i] H; simpl in *; try done; [lia|].
  f_equal. apply IH. lia.
Qed.

(** Bit masks over unsigned words. *)
Lemma land_mask w z : 0 <= w -> Z.land z (Z.ones w) = z mod 2 ^ w.
Proof. apply Z.land_ones. Qed.

Lemma lxor_range w a b : 0 <= w -> in_u w a -> in_u w b -> in_u w (Z.lxor a b).
Proof.
  unfold in_u. intros Hw Ha Hb.
  assert (Z.lxor a b mod 2 ^ w = Z.lxor a b) as <-; [|apply Z.mod_pos_bound; lia].
  rewrite <- Z.land_ones by done. apply Z.bits_inj'. intros n Hn.
  rewrite Z.land_spec, Z.lxor_spec.
  destruct (Z.ltb_spec n w).
  - rewrite Z.ones_spec_low by lia. by rewrite andb_true_r.
  - rewrite Z.ones_spec_high, andb_false_r by lia.
    rewrite <- (Z.mod_small a (2 ^ w)), <- (Z.mod_small b (2 ^ w)) by done.
    by rewrite !Z.mod_pow2_bits_high by lia.
Qed.

(** Joining a high and a low field. *)
Lemma lor_join n hi lo :
  0 <= n -> 0 <= lo < 2 ^ n -> Z.lor (hi * 2 ^ n) lo = hi * 2 ^ n + lo.
Proof.
  intros Hn Hlo. rewrite <- Z.lxor_lor, <- Z.add_nocarry_lxor; [done| |];
    rewrite <- Z.shiftl_mul_pow2 by done; apply Z.bits_inj'; intros i Hi;
    rewrite Z.land_spec, Z.bits_0;
    (destruct (Z.ltb_spec i n);
     [by rewrite Z.shiftl_spec_low by lia
     |rewrite <- (Z.mod_small lo (2 ^ n)), Z.mod_pow2_bits_high by lia; apply andb_false_r]).
Qed.

(* ------------------------------------------------------------------ *)
(** ** Interfaces: a wire codec and its law *)

(** A type with a byte encoding, a fallible decoder and the set of values
    the encoding can carry.  Clients are proved against [decode_encode]. *)
Class WireCodec (A E : Type) := {
  wire_encode : A -> bytes;
  wire_decode : bytes -> result E A;
  wire_wf : A -> Prop;
  wire_decode_encode : forall a, wire_wf a -> wire_decode (wire_encode a) = Ok a;
}.

Lemma wire_encode_inj {A E} `{WireCodec A E} (a b : A) :
  wire_wf a -> wire_wf b -> wire_encode a = wire_encode b -> a = b.
Proof.
  intros Ha Hb Heq. pose proof (wire_decode_encode a Ha) as Da.
  rewrite Heq, (wire_decode_encode b Hb) in Da. by injection Da.
Qed.

(* ------------------------------------------------------------------ *)
(** ** Proof automation shared by the components *)

Create HintDb don discriminated.
Create Rewrite HintDb don.
#[export] Hint Resolve to_le_ok byte_at_ok le_at_ok bytes_ok_take bytes_ok_drop : don.
#[export] Hint Rewrite @length_app @length_to_le @length_take @length_drop
  @length_replicate @length_fmap @length_insert : don.

(** Invert one layer of a successful (or failed) monadic computation. *)
Ltac rinv H :=
  lazymatch type of H with
  | rbind _ _ = Ok _ =>
      let a := fresh "r" in let Ha := fresh "Hr" in
      apply rbind_Ok in H as (a & Ha & H)
  | Ok _ = Ok _ => injection H as H
  | Err _ = Err _ => injection H as H
  | Ok _ = Err _ => discriminate H
  | Err _ = Ok _ => discriminate H
  | ok_or ?o _ = _ => destruct o eqn:?; simpl in H
  | map_err _ ?o = _ => destruct o eqn:?; simpl in H
  | (if ?b then _ else _) = _ => destruct b eqn:?
  | match ?x with _ => _ end = _ => destruct x eqn:?
  end.
Ltac rinv_all H := repeat (rinv H; try discriminate).

(** Turn boolean comparisons in the context into propositions. *)
Ltac bool_hyps :=
  repeat match goal with
  | H : (_ && _)%bool = true |- _ => apply andb_true_iff in H as [? ?]
  | H : (_ || _)%bool = false |- _ => apply orb_false_iff in H as [? ?]
  | H : negb _ = true |- _ => apply negb_true_iff in H
  | H : negb _ = false |- _ => apply negb_false_iff in H
  | H : (_ <? _) = true |- _ => apply Z.ltb_lt in H
  | H : (_ <? _) = false |- _ => apply Z.ltb_ge in H
  | H : (_ <=? _) = true |- _ => apply Z.leb_le in H
  | H : (_ <=? _) = false |- _ => apply Z.leb_gt in H
  | H : (_ =? _) = true |- _ => apply Z.eqb_eq in H
  | H : (_ =? _) = false |- _ => apply Z.eqb_neq in H
  | H : bool_decide _ = true |- _ => apply bool_decide_eq_true in H
  | H : bool_decide _ = false |- _ => apply bool_decide_eq_false in H
  end.

(** Expose the numeric bounds of the machine-integer predicates. *)
Ltac ranges :=
  unfold in_u, in_s, U16_MAX, U32_MAX, U64_MAX, I32_MAX, I32_MIN in *;
  repeat match goal with
  | H : context [2 ^ ?n] |- _ => progress (let v := eval vm_compute in (2 ^ n) in change (2 ^ n) with v in H)
  | |- context [2 ^ ?n] => progress (let v := eval vm_compute in (2 ^ n) in change (2 ^ n) with v)
  end.
