(* ===== verification/Loops.v ===== *)
(** * Loops that stop by themselves

    A Rust [loop] or [while] whose body is a step from the state to the next
    state or to the result, run for at most a binary number of iterations, so
    that a large bound costs nothing. *)

From S2P Require Import Prelude.

(** At most [p] iterations of a loop that stops by itself. *)
Fixpoint iter_until {S R} (p : positive) (f : S -> S + R) (s : S) : S + R :=
  let twice p s := match iter_until p f s with inl s => iter_until p f s | inr r => inr r end in
  match p with
  | xH => f s
  | xO p => twice p s
  | xI p => match f s with inl s => twice p s | inr r => inr r end
  end.

(** A loop that stops by itself, with a count of its iterations. *)
Lemma iter_until_count {X R} (I : Z -> X -> Prop) (J : R -> Prop) f p :
  (forall n (s : X), I n s -> match f s with inl s' => I (n + 1) s' | inr r => J r end) ->
  forall n (s : X), I n s -> match iter_until p f s with inl s' => I (n + Z.pos p) s' | inr r => J r end.
Proof.
  intros Hf. induction p as [p IH|p IH|]; intros n s Hs; cbn [iter_until].
  - pose proof (Hf n s Hs) as F. destruct (f s) as [s1|r]; [|done].
    specialize (IH _ _ F) as F1. destruct (iter_until p f s1) as [s2|r]; [|done].
    specialize (IH _ _ F1) as F2. destruct (iter_until p f s2); [|done].
    by replace (n + Z.pos p~1) with (n + 1 + Z.pos p + Z.pos p) by lia.
  - specialize (IH _ _ Hs) as F1. destruct (iter_until p f s) as [s2|r]; [|done].
    specialize (IH _ _ F1) as F2. destruct (iter_until p f s2); [|done].
    by replace (n + Z.pos p~0) with (n + Z.pos p + Z.pos p) by lia.
  - by apply Hf.
Qed.

(** Runs of the loop that end agree. *)
Definition advance {X R} (f : X -> X + R) (y : X + R) : X + R := match y with inl x => f x | inr r => inr r end.

Lemma advance_done {X R} (f : X -> X + R) r p : Pos.iter (advance f) (inr r) p = inr r.
Proof. apply Pos.iter_invariant; [|done]. by intros y ->. Qed.

Lemma iter_until_iter {X R} (f : X -> X + R) p x : iter_until p f x = Pos.iter (advance f) (inl x) p.
Proof.
  revert x. induction p as [p IH|p IH|]; intros x; cbn [iter_until Pos.iter]; [| |done].
  - rewrite <- Pos.iter_swap, <- Pos.iter_swap. cbn [advance]. destruct (f x) as [x1|r]; [|by rewrite !advance_done].
    rewrite IH. destruct (Pos.iter _ (inl x1) p) as [x2|r]; [by rewrite IH|by rewrite advance_done].
  - rewrite IH. destruct (Pos.iter _ (inl x) p) as [x2|r]; [by rewrite IH|by rewrite advance_done].
Qed.

Lemma iter_until_more {X R} (f : X -> X + R) p q x r :
  (p < q)%positive -> iter_until p f x = inr r -> iter_until q f x = inr r.
Proof.
  rewrite !iter_until_iter. intros [d <-]%Pos.lt_iff_add Hp.
  by rewrite Pos.add_comm, Pos.iter_add, Hp, advance_done.
Qed.

Lemma iter_until_agree {X R} (f : X -> X + R) p q x r r' :
  iter_until p f x = inr r -> iter_until q f x = inr r' -> r' = r.
Proof.
  intros Hp Hq. destruct (Pos.lt_total p q) as [L|[->|L]]; [|congruence|].
  - apply (iter_until_more _ _ _ _ _ L) in Hp. congruence.
  - apply (iter_until_more _ _ _ _ _ L) in Hq. congruence.
Qed.
