(* ===== verification/BTree.v ===== *)
(** * Ordered maps

    What the sources use of [std::collections::BTreeMap] with an integer key:
    an association list sorted by key, so iteration order is key order. *)

From S2P Require Import Prelude.

Abbreviation btree V := (list (Z * V)).

Section BTree.
Context {V : Type}.
Implicit Types m : btree V.

Fixpoint bt_get (k : Z) (m : btree V) : option V :=
  match m with
  | [] => None
  | (k', v) :: m => if k =? k' then Some v else bt_get k m
  end.

(** [insert]: replaces the value of a key that is present. *)
Fixpoint bt_insert (k : Z) (v : V) (m : btree V) : btree V :=
  match m with
  | [] => [(k, v)]
  | (k', v') :: m' =>
      if k =? k' then (k, v) :: m'
      else if k <? k' then (k, v) :: m
      else (k', v') :: bt_insert k v m'
  end.

Fixpoint bt_remove (k : Z) (m : btree V) : btree V :=
  match m with
  | [] => []
  | (k', v') :: m' => if k =? k' then m' else (k', v') :: bt_remove k m'
  end.

Definition bt_keys (m : btree V) : list Z := map fst m.
Definition bt_values (m : btree V) : list V := map snd m.
Definition bt_contains (k : Z) (m : btree V) : bool :=
  match bt_get k m with Some _ => true | None => false end.
Definition bt_retain (f : Z -> bool) (m : btree V) : btree V :=
  List.filter (fun kv => f (fst kv)) m.

Definition bt_sorted (m : btree V) : Prop := StronglySorted Z.lt (bt_keys m).

Lemma bt_sorted_cons k v m :
  bt_sorted ((k, v) :: m) <-> bt_sorted m /\ Forall (fun k' => k < k') (bt_keys m).
Proof.
  unfold bt_sorted. simpl. split; [apply StronglySorted_inv|]. intros [? ?]. by constructor.
Qed.

Lemma bt_get_keys k m : is_Some (bt_get k m) <-> k ∈ bt_keys m.
Proof.
  induction m as [|[k' v] m IH]; simpl; [split; [by intros [? [=]]|by intros ?%elem_of_nil]|].
  rewrite elem_of_cons. destruct (Z.eqb_spec k k') as [->|Hne]; [split; [by left|by eexists]|].
  rewrite IH. tauto.
Qed.

Lemma bt_get_above k m : Forall (fun k' => k < k') (bt_keys m) -> bt_get k m = None.
Proof.
  intros H. destruct (bt_get k m) eqn:E; [exfalso|done].
  assert (Hk : k ∈ bt_keys m) by (apply bt_get_keys; eauto).
  rewrite Forall_forall in H. specialize (H k Hk). lia.
Qed.

Lemma bt_keys_insert k v m x : x ∈ bt_keys (bt_insert k v m) <-> x = k \/ x ∈ bt_keys m.
Proof.
  induction m as [|[k' v'] m IH]; simpl; [rewrite elem_of_cons; tauto|].
  destruct (Z.eqb_spec k k') as [->|Hne]; simpl; [rewrite !elem_of_cons; tauto|].
  destruct (Z.ltb_spec k k'); simpl; rewrite !elem_of_cons; [tauto|].
  rewrite IH. tauto.
Qed.

Lemma bt_insert_sorted k v m : bt_sorted m -> bt_sorted (bt_insert k v m).
Proof.
  induction m as [|[k' v'] m IH]; intros H; [by repeat constructor|].
  apply bt_sorted_cons in H as [Hm Hk]. simpl. destruct (Z.eqb_spec k k') as [->|Hne].
  - by apply bt_sorted_cons.
  - destruct (Z.ltb_spec k k'); apply bt_sorted_cons.
    + split; [by apply bt_sorted_cons|]. simpl. constructor; [done|].
      eapply Forall_impl; [exact Hk|]. intros. simpl in *. lia.
    + split; [by apply IH|]. apply Forall_forall. intros x Hx.
      apply bt_keys_insert in Hx as [->|Hx]; [lia|]. rewrite Forall_forall in Hk. by apply Hk.
Qed.

Lemma bt_get_insert k v m j : bt_sorted m ->
  bt_get j (bt_insert k v m) = if j =? k then Some v else bt_get j m.
Proof.
  induction m as [|[k' v'] m IH]; intros H; [done|].
  apply bt_sorted_cons in H as [Hm Hk]. simpl. destruct (Z.eqb_spec k k') as [->|Hne]; simpl.
  - by destruct (Z.eqb_spec j k').
  - destruct (Z.ltb_spec k k'); simpl; [done|]. rewrite IH by done.
    destruct (Z.eqb_spec j k'), (Z.eqb_spec j k); subst; done || lia.
Qed.

(** Sorted maps with the same bindings are the same list. *)
Lemma bt_ext m1 m2 : bt_sorted m1 -> bt_sorted m2 ->
  (forall k, bt_get k m1 = bt_get k m2) -> m1 = m2.
Proof.
  revert m2; induction m1 as [|[k v] m1 IH]; intros [|[k2 v2] m2] H1 H2 H.
  - done.
  - specialize (H k2). simpl in H. by rewrite Z.eqb_refl in H.
  - specialize (H k). simpl in H. by rewrite Z.eqb_refl in H.
  - apply bt_sorted_cons in H1 as [H1 F1], H2 as [H2 F2].
    assert (k = k2) as ->.
    { destruct (Z.lt_trichotomy k k2) as [Hlt|[|Hlt]]; [|done|].
      - specialize (H k). simpl in H. rewrite Z.eqb_refl in H.
        destruct (Z.eqb_spec k k2); [lia|]. rewrite bt_get_above in H; [done|].
        eapply Forall_impl; [exact F2|]. intros; simpl in *; lia.
      - specialize (H k2). simpl in H. rewrite Z.eqb_refl in H.
        destruct (Z.eqb_spec k2 k); [lia|]. rewrite bt_get_above in H; [done|].
        eapply Forall_impl; [exact F1|]. intros; simpl in *; lia. }
    pose proof (H k2) as Hv. simpl in Hv. rewrite Z.eqb_refl in Hv. injection Hv as ->.
    f_equal. apply IH; [done..|]. intros j. specialize (H j). simpl in H.
    destruct (Z.eqb_spec j k2) as [E|_]; [rewrite E; by rewrite !bt_get_above|done].
Qed.

Lemma bt_insert_comm a b va vb m : a <> b -> bt_sorted m ->
  bt_insert a va (bt_insert b vb m) = bt_insert b vb (bt_insert a va m).
Proof.
  intros Hab Hm. apply bt_ext; [by repeat apply bt_insert_sorted..|]. intros k.
  rewrite !bt_get_insert by (repeat apply bt_insert_sorted; done).
  destruct (Z.eqb_spec k a), (Z.eqb_spec k b); congruence.
Qed.

Lemma bt_length_insert k v m :
  bt_get k m = None -> length (bt_insert k v m) = S (length m).
Proof.
  induction m as [|[k' v'] m IH]; simpl; [done|]. destruct (Z.eqb_spec k k'); [done|].
  intros H. destruct (k <? k'); simpl; [done|]. by rewrite IH.
Qed.

Lemma bt_get_in k v m : bt_get k m = Some v -> (k, v) ∈ m.
Proof.
  induction m as [|[k' v'] m IH]; simpl; [done|].
  destruct (Z.eqb_spec k k') as [->|]; [intros [= ->]; left|]. intros H. right. auto.
Qed.

Lemma bt_in_get k v m : bt_sorted m -> (k, v) ∈ m -> bt_get k m = Some v.
Proof.
  induction m as [|[k' v'] m IH]; intros Hs Hin; [by apply elem_of_nil in Hin|].
  apply bt_sorted_cons in Hs as [Hs F]. simpl. apply elem_of_cons in Hin as [[= -> ->]|Hin].
  - by rewrite Z.eqb_refl.
  - destruct (Z.eqb_spec k k') as [->|]; [|by apply IH].
    assert (k' ∈ bt_keys m) by (apply (list_elem_of_fmap_2 fst) in Hin; done).
    rewrite Forall_forall in F. specialize (F k' ltac:(done)). lia.
Qed.

Lemma bt_retain_sorted f m : bt_sorted m -> bt_sorted (bt_retain f m).
Proof.
  induction m as [|[k v] m IH]; intros H; [constructor|]. apply bt_sorted_cons in H as [Hm F].
  simpl. destruct (f k); [|by apply IH]. apply bt_sorted_cons. split; [by apply IH|].
  apply Forall_forall. intros x Hx. rewrite Forall_forall in F. apply F.
  apply list_elem_of_fmap in Hx as ([y w] & -> & Hy). apply list_elem_of_In in Hy.
  apply filter_In in Hy as [Hy _]. apply list_elem_of_In in Hy.
  by apply (list_elem_of_fmap_2 fst) in Hy.
Qed.

Lemma bt_get_retain f m k : bt_get k (bt_retain f m) = if f k then bt_get k m else None.
Proof.
  induction m as [|[k' v] m IH]; simpl; [by destruct (f k)|].
  destruct (f k') eqn:Ef; simpl; rewrite IH; destruct (Z.eqb_spec k k') as [->|]; try done.
  - by rewrite Ef.
  - by rewrite Ef.
Qed.

Lemma bt_get_remove k m j : bt_sorted m ->
  bt_get j (bt_remove k m) = if j =? k then None else bt_get j m.
Proof.
  induction m as [|[k' v] m IH]; intros H; simpl; [by destruct (j =? k)|].
  apply bt_sorted_cons in H as [Hm F]. destruct (Z.eqb_spec k k') as [->|Hne].
  - destruct (Z.eqb_spec j k') as [E|_]; [rewrite E; by apply bt_get_above|done].
  - simpl. rewrite IH by done. destruct (Z.eqb_spec j k') as [E|_]; [|done].
    destruct (Z.eqb_spec j k); [lia|done].
Qed.

Lemma bt_remove_sorted k m : bt_sorted m -> bt_sorted (bt_remove k m).
Proof.
  induction m as [|[k' v] m IH]; intros H; [done|]. pose proof H as H'.
  apply bt_sorted_cons in H as [Hm F]. simpl. destruct (k =? k'); [done|].
  apply bt_sorted_cons. split; [by apply IH|]. apply Forall_forall. intros x Hx.
  rewrite Forall_forall in F. apply F. apply bt_get_keys in Hx as [w Hw].
  rewrite bt_get_remove in Hw by done. apply bt_get_keys. destruct (x =? k); [done|eauto].
Qed.

(** Two strictly increasing lists with the same elements are equal. *)
Lemma sorted_keys_ext (l1 l2 : list Z) :
  StronglySorted Z.lt l1 -> StronglySorted Z.lt l2 -> (forall x, x ∈ l1 <-> x ∈ l2) -> l1 = l2.
Proof.
  revert l2; induction l1 as [|a l1 IH]; intros [|b l2] H1 H2 H; [done| | |].
  - exfalso. apply (elem_of_nil b), H. left.
  - exfalso. apply (elem_of_nil a), H. left.
  - apply StronglySorted_inv in H1 as [H1 F1], H2 as [H2 F2]. rewrite Forall_forall in F1, F2.
    assert (a = b) as ->.
    { destruct (proj1 (elem_of_cons _ _ _) (proj1 (H a) ltac:(left))) as [|Ha]; [done|].
      destruct (proj1 (elem_of_cons _ _ _) (proj2 (H b) ltac:(left))) as [|Hb]; [done|].
      specialize (F1 _ Hb). specialize (F2 _ Ha). lia. }
    f_equal. apply IH; [done..|]. intros x. specialize (H x). rewrite !elem_of_cons in H.
    split; intros Hx; destruct H as [Ha Hb].
    + destruct (Ha (or_intror Hx)) as [->|]; [|done]. specialize (F1 _ Hx). lia.
    + destruct (Hb (or_intror Hx)) as [->|]; [|done]. specialize (F2 _ Hx). lia.
Qed.

Lemma sorted_lt_NoDup (l : list Z) : StronglySorted Z.lt l -> NoDup l.
Proof.
  induction 1 as [|a l Hl IH F]; constructor; [|done]. intros Hin.
  rewrite Forall_forall in F. specialize (F a Hin). lia.
Qed.
End BTree.
