(* ===== verification/SimArith.v ===== *)
(** * Thirty-two-bit arithmetic of the simulation

    The wrapping and truncating operations of [i32] the mechanics of
    [crates/don-sim] are written with, their ranges, and the shift idioms for
    division toward zero. *)

From S2P Require Import Prelude.

(** [wrapping_add], [wrapping_sub], [wrapping_mul], [wrapping_neg],
    [wrapping_abs] and [wrapping_shl] on [i32]. *)
Definition wadd (a b : Z) : Z := i32 (a + b).
Definition wsub (a b : Z) : Z := i32 (a - b).
Definition wmul (a b : Z) : Z := i32 (a * b).
Definition wneg (a : Z) : Z := i32 (- a).
Definition wabs (a : Z) : Z := i32 (Z.abs a).
Definition wshl (a k : Z) : Z := i32 (Z.shiftl a k).

Declare Scope i32_scope.
Delimit Scope i32_scope with I32.
Infix "+w" := wadd (at level 50, left associativity) : i32_scope.
Infix "-w" := wsub (at level 50, left associativity) : i32_scope.
Infix "*w" := wmul (at level 40, left associativity) : i32_scope.
Infix "/t" := Z.quot (at level 40, left associativity) : i32_scope.

Create HintDb i32.

Lemma i32_wrap z : is_i32 (i32 z).
Proof. by apply wrap_s_range. Qed.
Lemma wadd_i32 a b : is_i32 (wadd a b).
Proof. apply i32_wrap. Qed.
Lemma wsub_i32 a b : is_i32 (wsub a b).
Proof. apply i32_wrap. Qed.
Lemma wmul_i32 a b : is_i32 (wmul a b).
Proof. apply i32_wrap. Qed.
Lemma wneg_i32 a : is_i32 (wneg a).
Proof. apply i32_wrap. Qed.
Lemma wabs_i32 a : is_i32 (wabs a).
Proof. apply i32_wrap. Qed.

(** Operations that do not wrap. *)
Lemma wadd_small a b : is_i32 (a + b) -> wadd a b = a + b.
Proof. intros. by apply wrap_s_id. Qed.
Lemma wsub_small a b : is_i32 (a - b) -> wsub a b = a - b.
Proof. intros. by apply wrap_s_id. Qed.
Lemma wmul_small a b : is_i32 (a * b) -> wmul a b = a * b.
Proof. intros. by apply wrap_s_id. Qed.

(** Truncating division stays in range, but for [i32::MIN / -1]. *)
Lemma quot_abs a b : b <> 0 -> Z.abs (Z.quot a b) <= Z.abs a.
Proof.
  intros Hb. rewrite <- Z.quot_abs by done.
  destruct (Z.eq_dec (Z.abs b) 1) as [->|]; [rewrite Z.quot_1_r; lia|].
  rewrite Z.quot_div_nonneg by lia. apply Z.div_le_upper_bound; [lia|]. nia.
Qed.

Lemma quot_i32 a b : is_i32 a -> b <> 0 -> (b = -1 -> a <> I32_MIN) -> is_i32 (Z.quot a b).
Proof.
  intros Ha Hb Hm. unfold in_s, I32_MIN in *. destruct (Z.eq_dec b (-1)) as [->|].
  { change (-1) with (- (1)). rewrite Z.quot_opp_r, Z.quot_1_r by lia. specialize (Hm eq_refl). lia. }
  destruct (Z.eq_dec b 1) as [->|]; [rewrite Z.quot_1_r; lia|].
  assert (Z.abs (Z.quot a b) * 2 <= Z.abs a).
  { rewrite <- Z.quot_abs, Z.quot_div_nonneg by lia.
    assert (Z.abs a / Z.abs b <= Z.abs a / 2) by (apply Z.div_le_compat_l; lia).
    pose proof (Z.mul_div_le (Z.abs a) 2). lia. }
  lia.
Qed.

Lemma quot_i32_pos a b : is_i32 a -> 0 < b -> is_i32 (Z.quot a b).
Proof. intros. apply quot_i32; [done|lia|lia]. Qed.

#[export] Hint Resolve i32_wrap wadd_i32 wsub_i32 wmul_i32 wneg_i32 wabs_i32 quot_i32_pos : i32.
#[export] Hint Extern 0 (0 < _) => lia : i32.

(** [(x + ((x >> 31) & (2^k - 1))) >> k]: the bias-then-shift idiom is
    division toward zero. *)
Definition bias_shift (k x : Z) : Z := Z.shiftr (x + Z.land (Z.shiftr x 31) (2 ^ k - 1)) k.

Lemma bias_shift_quot k x : 0 <= k <= 31 -> is_i32 x -> bias_shift k x = Z.quot x (2 ^ k).
Proof.
  intros Hk Hx. unfold bias_shift, in_s in *. rewrite (Z.shiftr_div_pow2 x) by lia.
  assert (0 < 2 ^ k) by (apply Z.pow_pos_nonneg; lia).
  rewrite Z.shiftr_div_pow2 by lia.
  destruct (Z.lt_ge_cases x 0).
  - assert (x / 2 ^ 31 = -1) as -> by (symmetry; apply Z.div_unique with (x + 2 ^ 31); lia).
    rewrite Z.land_m1_l. rewrite <- (Z.opp_involutive x), Z.quot_opp_l by lia.
    rewrite Z.quot_div_nonneg by lia. Z.div_mod_to_equations. nia.
  - assert (x / 2 ^ 31 = 0) as -> by (apply Z.div_small; lia).
    rewrite Z.land_0_l, Z.add_0_r. by rewrite Z.quot_div_nonneg by lia.
Qed.

(** [idiv] of the engine: [None] where it raises [#DE]. *)
Definition idiv (num den : Z) : option Z :=
  if (den =? 0) || ((num =? I32_MIN) && (den =? -1)) then None else Some (Z.quot num den).

Lemma idiv_Some num den q : is_i32 num -> idiv num den = Some q -> q = Z.quot num den /\ is_i32 q.
Proof.
  intros Hn. unfold idiv. destruct ((den =? 0) || _) eqn:E; [done|]. intros [= <-]. split; [done|].
  apply quot_i32; [done|lia|]. intros ->. lia.
Qed.

Lemma idiv_None num den : idiv num den = None <-> den = 0 \/ (num = I32_MIN /\ den = -1).
Proof. unfold idiv. destruct ((den =? 0) || _) eqn:E; split; try done; lia. Qed.

Lemma idiv_nonneg num den : 0 <= num -> 0 < den -> idiv num den = Some (num / den).
Proof.
  intros Hn Hd. unfold idiv, I32_MIN. replace ((den =? 0) || ((num =? -2147483648) && (den =? -1))) with false by lia.
  by rewrite Z.quot_div_nonneg by lia.
Qed.
