(* ===== verification/SimTrig.v ===== *)
(** * Integer trigonometry

    [crates/don-sim/src/trig.rs] and the folded sine and cosine of
    [crates/don-sim/src/systems/groups_guys.rs]: binary angles (a full turn is
    [2^32], north is zero, clockwise), a table sine with linear interpolation
    and the integer arc tangent.  All arithmetic is [i32] with the wrap-around
    the sources write. *)

From S2P Require Import Prelude SimArith.
#[local] Open Scope i32_scope.
#[local] Open Scope Z_scope.

Definition QUARTER_TURN : Z := 0x40000000.
Definition HALF_TURN : Z := -0x80000000.

(** [generated/state.rs]: [trunc(sin(i * (pi/2) / 255) * 65535)]. *)
Definition SINE_TABLE : list Z :=
  [0; 403; 807; 1211; 1614; 2018; 2421; 2824; 3228; 3631; 4034; 4437; 4839; 5242; 5644; 6046;
   6448; 6850; 7251; 7652; 8053; 8453; 8854; 9253; 9653; 10052; 10451; 10849; 11247; 11644; 12042; 12438;
   12834; 13230; 13625; 14020; 14414; 14807; 15200; 15593; 15984; 16376; 16766; 17156; 17545; 17934; 18322; 18709;
   19096; 19482; 19867; 20251; 20634; 21017; 21399; 21780; 22161; 22540; 22919; 23297; 23673; 24049; 24425; 24799;
   25172; 25544; 25915; 26286; 26655; 27023; 27391; 27757; 28122; 28486; 28849; 29211; 29572; 29931; 30290; 30647;
   31004; 31359; 31713; 32065; 32417; 32767; 33116; 33464; 33810; 34155; 34499; 34842; 35183; 35523; 35862; 36199;
   36535; 36869; 37202; 37534; 37864; 38193; 38520; 38846; 39170; 39493; 39815; 40134; 40453; 40770; 41085; 41399;
   41711; 42021; 42330; 42638; 42944; 43248; 43550; 43851; 44150; 44448; 44743; 45038; 45330; 45621; 45910; 46197;
   46482; 46766; 47048; 47328; 47606; 47883; 48158; 48430; 48701; 48971; 49238; 49504; 49767; 50029; 50289; 50547;
   50802; 51057; 51309; 51559; 51807; 52053; 52298; 52540; 52780; 53018; 53255; 53489; 53721; 53951; 54180; 54406;
   54630; 54852; 55071; 55289; 55505; 55718; 55930; 56139; 56346; 56552; 56754; 56955; 57154; 57350; 57545; 57737;
   57927; 58114; 58300; 58483; 58664; 58843; 59019; 59194; 59366; 59536; 59703; 59869; 60032; 60193; 60351; 60507;
   60661; 60813; 60962; 61109; 61254; 61396; 61536; 61674; 61809; 61942; 62073; 62201; 62327; 62451; 62572; 62691;
   62807; 62921; 63033; 63142; 63249; 63353; 63455; 63555; 63652; 63747; 63840; 63930; 64017; 64102; 64185; 64265;
   64343; 64419; 64492; 64562; 64630; 64696; 64759; 64820; 64878; 64934; 64987; 65038; 65086; 65132; 65175; 65216;
   65255; 65291; 65324; 65356; 65384; 65410; 65434; 65455; 65474; 65490; 65503; 65515; 65523; 65530; 65533; 65535].

(** [x as i32] of an [u32] literal. *)
Definition west : Z := -0x40000000.

(** [x & mask] and [x >> k] on [i32]: two's complement on [Z]. *)
Definition sin_table (angle mag : Z) : Z :=
  let m := if 0 <=? angle then mag else wneg mag in
  let a := Z.land angle 0x3FFFFFFF in
  let quarter := Z.land angle 0x40000000 in
  let idx := u8 (Z.shiftr (u32 a) 22) in
  let frac := Z.land a 0x003FFFFF in
  let '(m, shift) :=
    if m <? 0xFFFF then (m, 16)
    else if m <? 0x00FFFFFF then (Z.shiftr m 8, 8)
    else (Z.shiftr m 16, 0) in
  let t0 := nth (Z.to_nat idx) SINE_TABLE 0 in
  let t1 := nth (Z.to_nat (u8 (idx + 1))) SINE_TABLE 0 in
  let delta := Z.shiftr ((t1 -w t0) *w frac) 22 in
  let v := if quarter =? 0 then delta +w t0 else delta -w t0 +w 0xFFFF in
  Z.shiftr (v *w m) shift.

Definition cos_table (angle mag : Z) : Z := sin_table (angle +w 0x3FFFFFFF) mag.

(** [sinx]: the subtraction cannot overflow, [a] being non-negative. *)
Definition sinx (angle mag : Z) : Z :=
  if mag =? 0 then 0
  else
    let '(a, m) := if angle <? 0 then (Z.land angle 0x7FFFFFFF, wneg mag) else (angle, mag) in
    let folded := if negb (Z.land a 0x40000000 =? 0) then 0x7FFFFFFF - a else a in
    sin_table folded m.

Definition cosx (angle mag : Z) : Z := sinx (angle +w 0x40000000) mag.

Definition angle_diff (a b : Z) : Z :=
  let d := u32 (a - b) in if 0x80000000 <? d then U32_MAX - d else d.

(** The [r]-dependent part of [find_angle]. *)
Definition arc_base (r : Z) : Z :=
  let err := wabs (0x1333 -w r) in
  let c := Z.shiftr (err *w 0xB00) 14 in
  wshl (Z.land ((0x2800 -w c) *w r) (-0x4000)) 2.

Definition find_angle (dx dy : Z) : Z :=
  let ny := wneg dy in
  if dx =? 0 then (if 0 <? ny then 0 else HALF_TURN)
  else if ny =? 0 then (if 0 <? dx then QUARTER_TURN else - QUARTER_TURN)
  else
    let adx := wabs dx in
    let any := wabs ny in
    let '(num, den, horizontal) :=
      if any <? adx then (wshl any 14, adx, true) else (wshl adx 14, any, false) in
    let base := arc_base (num /t den) in
    if 0 <? dx then
      if 0 <? ny then (if horizontal then QUARTER_TURN -w base else base)
      else (if horizontal then base +w QUARTER_TURN else HALF_TURN -w base)
    else if 0 <? ny then (if horizontal then base +w west else wneg base)
    else (if horizontal then west -w base else base -w HALF_TURN).

(** ** The sine *)

(** The interpolated table value at a position inside the first quarter. *)
Definition lerp (a : Z) : Z :=
  let idx := Z.to_nat (Z.shiftr a 22) in
  let t0 := nth idx SINE_TABLE 0 in
  let t1 := nth (if decide (idx = 255%nat) then 0%nat else S idx) SINE_TABLE 0 in
  Z.shiftr ((t1 -w t0) *w Z.land a 0x003FFFFF) 22 +w t0.

Lemma table_steps : forallb (fun k => let t0 := nth k SINE_TABLE 0 in let t1 := nth (S k) SINE_TABLE 0 in
  (0 <=? t0) && (t0 <=? t1) && (t1 <=? t0 + 404) && (t1 <=? 65535)) (seq 0 255) = true.
Proof. reflexivity. Qed.

Lemma table_step k :
  (k < 255)%nat -> let t0 := nth k SINE_TABLE 0 in let t1 := nth (S k) SINE_TABLE 0 in 0 <= t0 <= t1 /\ t1 <= t0 + 404 /\ t1 <= 65535.
Proof.
  intros Hk. pose proof (proj1 (forallb_forall _ _) table_steps k) as E.
  cbv zeta in *. rewrite in_seq in E. specialize (E ltac:(lia)). bool_hyps. lia.
Qed.

Lemma frac_range a : 0 <= Z.land a 0x003FFFFF < 4194304.
Proof. change 0x003FFFFF with (Z.ones 22). rewrite Z.land_ones by lia. apply Z.mod_pos_bound. lia. Qed.

(** Near a right angle the interpolation runs towards entry 0 and overflows: the
    value stays within 512 of the table's maximum, on either side. *)
Lemma lerp_range a : 0 <= a < 2 ^ 30 -> 0 <= lerp a <= 66046.
Proof.
  intros Ha. unfold lerp. pose proof (frac_range a) as Hf. set (f := Z.land a 0x003FFFFF) in *.
  rewrite (Z.shiftr_div_pow2 a) by lia. change (2 ^ 22) with 4194304. change (2 ^ 30) with 1073741824 in Ha.
  set (k := Z.to_nat (a / 4194304)).
  assert (Hk : (k <= 255)%nat). { unfold k. assert (a / 4194304 < 256) by (apply Z.div_lt_upper_bound; lia). lia. }
  case_decide as D.
  - rewrite D. change (nth 0 SINE_TABLE 0) with 0. change (nth 255 SINE_TABLE 0) with 65535.
    assert (is_i32 ((0 -w 65535) *w f)) as Hi by apply wmul_i32. ranges.
    rewrite Z.shiftr_div_pow2 by lia. change (2 ^ 22) with 4194304.
    set (p := (0 -w 65535) *w f) in *.
    assert (-512 <= p / 4194304 <= 511).
    { split; [apply Z.div_le_lower_bound; lia|]. apply Z.lt_succ_r, Z.div_lt_upper_bound; lia. }
    rewrite wadd_small by (ranges; lia). lia.
  - destruct (table_step k) as (H1 & H2 & H3); [lia|]. set (t0 := nth k SINE_TABLE 0) in *. set (t1 := nth (S k) SINE_TABLE 0) in *.
    rewrite (wsub_small t1 t0) by (ranges; lia). rewrite (wmul_small (t1 - t0) f) by (ranges; nia).
    rewrite Z.shiftr_div_pow2 by lia. change (2 ^ 22) with 4194304.
    assert (0 <= (t1 - t0) * f / 4194304 <= t1 - t0).
    { split; [apply Z.div_pos; nia|]. apply Z.div_le_upper_bound; nia. }
    rewrite wadd_small by (ranges; lia). lia.
Qed.

Lemma sin_table_lerp a m :
  0 <= a < 2 ^ 30 -> -32514 <= m <= 32514 -> sin_table a m = Z.shiftr (lerp a * m) 16.
Proof.
  intros Ha Hm. unfold sin_table. assert ((0 <=? a) = true) as -> by lia.
  assert ((m <? 0xFFFF) = true) as -> by lia. change 0x3FFFFFFF with (Z.ones 30). rewrite Z.land_ones by lia.
  rewrite Z.mod_small by lia.
  assert (Z.land a 0x40000000 = 0) as ->.
  { apply Z.bits_inj'. intros n Hn. rewrite Z.land_spec, Z.bits_0. destruct (decide (n = 30)) as [->|].
    - assert (Z.testbit a 30 = false) as ->; [|done]. apply Z.testbit_false; [lia|]. by rewrite Z.div_small by lia.
    - change 0x40000000 with (2 ^ 30). rewrite Z.pow2_bits_false by lia. apply andb_false_r. }
  cbn [Z.eqb]. rewrite (wrap_u_id 32 a) by (ranges; change (2 ^ 30) with 1073741824 in *; lia).
  pose proof (lerp_range a Ha) as Hl. rewrite <- (wmul_small (lerp a) m) by (ranges; nia).
  unfold lerp. change (2 ^ 30) with 1073741824 in Ha. rewrite (Z.shiftr_div_pow2 a) by lia. change (2 ^ 22) with 4194304.
  assert (Hd : 0 <= a / 4194304 <= 255).
  { split; [apply Z.div_pos; lia|]. apply Z.lt_succ_r, Z.div_lt_upper_bound; lia. }
  rewrite (wrap_u_id 8 (a / 4194304)) by (ranges; lia).
  assert (Z.to_nat (u8 (a / 4194304 + 1)) = if decide (Z.to_nat (a / 4194304) = 255%nat) then 0%nat else S (Z.to_nat (a / 4194304))) as ->; [|done].
  unfold wrap_u. change (2 ^ 8) with 256. case_decide.
  - replace (a / 4194304 + 1) with 256 by lia. done.
  - rewrite Z.mod_small by lia. lia.
Qed.

(** The position inside the quarter [sinx] folds an angle to. *)
Definition fold_angle (a : Z) : Z := if decide (a < 2 ^ 30) then a else 2 ^ 31 - 1 - a.

Lemma bit30 a : 0 <= a < 2 ^ 31 -> (Z.land a 0x40000000 =? 0) = bool_decide (a < 2 ^ 30).
Proof.
  intros Ha. change 0x40000000 with (2 ^ 30).
  assert (Hb : Z.testbit a 30 = bool_decide (2 ^ 30 <= a)).
  { change (2 ^ 31) with 2147483648 in Ha. destruct (bool_decide_reflect (2 ^ 30 <= a)); change (2 ^ 30) with 1073741824 in *.
    - apply Z.testbit_true; [lia|]. change (2 ^ 30) with 1073741824.
      assert (a / 1073741824 = 1) as -> by (symmetry; apply (Z.div_unique _ _ _ (a - 1073741824)); lia). done.
    - apply Z.testbit_false; [lia|]. rewrite Z.div_small by (change (2 ^ 30) with 1073741824; lia). done. }
  destruct (decide (a < 2 ^ 30)) as [Hlt|Hge].
  - rewrite bool_decide_eq_true_2 by done. rewrite bool_decide_eq_false_2 in Hb by lia. apply Z.eqb_eq, Z.bits_inj'.
    intros n Hn. rewrite Z.land_spec, Z.bits_0. destruct (decide (n = 30)) as [->|]; [by rewrite Hb|].
    rewrite Z.pow2_bits_false by lia. apply andb_false_r.
  - rewrite bool_decide_eq_false_2 by done. rewrite bool_decide_eq_true_2 in Hb by lia. apply Z.eqb_neq. intros E.
    apply (f_equal (fun z => Z.testbit z 30)) in E. by rewrite Z.land_spec, Hb, Z.pow2_bits_true in E by lia.
Qed.

Lemma fold_range a : 0 <= a < 2 ^ 31 -> 0 <= fold_angle a < 2 ^ 30.
Proof. intros Ha. unfold fold_angle. change (2 ^ 31) with 2147483648 in *. change (2 ^ 30) with 1073741824 in *. case_decide; lia. Qed.

Lemma sinx_lerp angle m :
  is_i32 angle -> -32514 <= m <= 32514 ->
  sinx angle m = Z.shiftr (lerp (fold_angle (angle mod 2 ^ 31)) * (if angle <? 0 then - m else m)) 16.
Proof.
  intros Ha Hm. unfold sinx. destruct (m =? 0) eqn:E0; bool_hyps.
  { subst. destruct (angle <? 0); by rewrite Z.mul_0_r. }
  assert (Hr : 0 <= angle mod 2 ^ 31 < 2 ^ 31) by (apply Z.mod_pos_bound; lia).
  destruct (angle <? 0) eqn:En; bool_hyps.
  - assert (Z.land angle 0x7FFFFFFF = angle mod 2 ^ 31) as -> by (change 0x7FFFFFFF with (Z.ones 31); by apply Z.land_ones).
    rewrite bit30 by done.
    assert (wneg m = - m) as -> by (apply wrap_s_id; [done|ranges; lia]).
    rewrite <- sin_table_lerp by (try apply fold_range; done || lia). unfold fold_angle. repeat case_decide; case_bool_decide; done.
  - assert (angle mod 2 ^ 31 = angle) as E by (apply Z.mod_small; ranges; lia). rewrite E in *. rewrite bit30 by done.
    rewrite <- sin_table_lerp by (try apply fold_range; done || lia). unfold fold_angle. repeat case_decide; case_bool_decide; done.
Qed.

Lemma shiftr16_bound v m :
  0 <= v <= 66046 -> 65536 * Z.abs (Z.shiftr (v * m) 16) <= 66046 * Z.abs m + 65535.
Proof.
  intros Hv. rewrite Z.shiftr_div_pow2 by lia. change (2 ^ 16) with 65536.
  pose proof (Z.div_mod (v * m) 65536 ltac:(lia)). pose proof (Z.mod_pos_bound (v * m) 65536 ltac:(lia)).
  assert (Z.abs (v * m) <= 66046 * Z.abs m) by (rewrite Z.abs_mul; nia). lia.
Qed.

Lemma sinx_bound angle m :
  is_i32 angle -> -32514 <= m <= 32514 -> 65536 * Z.abs (sinx angle m) <= 66046 * Z.abs m + 65535.
Proof.
  intros Ha Hm. rewrite sinx_lerp by done. assert (Hr : 0 <= angle mod 2 ^ 31 < 2 ^ 31) by (apply Z.mod_pos_bound; lia).
  pose proof (lerp_range _ (fold_range _ Hr)) as Hl.
  pose proof (shiftr16_bound _ (if angle <? 0 then - m else m) Hl). destruct (angle <? 0); lia.
Qed.

Lemma cosx_bound angle m : -32514 <= m <= 32514 -> 65536 * Z.abs (cosx angle m) <= 66046 * Z.abs m + 65535.
Proof. intros. apply sinx_bound; [apply wadd_i32|done]. Qed.

(** The sign is the half-turn's: a positive magnitude points east of the
    north-south axis exactly when the angle is non-negative. *)
Lemma sinx_sign angle m :
  is_i32 angle -> 0 <= m <= 32514 -> (0 <= angle -> 0 <= sinx angle m) /\ (angle < 0 -> sinx angle m <= 0).
Proof.
  intros Ha Hm. rewrite sinx_lerp by (done || lia). assert (Hr : 0 <= angle mod 2 ^ 31 < 2 ^ 31) by (apply Z.mod_pos_bound; lia).
  pose proof (lerp_range _ (fold_range _ Hr)) as Hl. rewrite Z.shiftr_div_pow2 by lia. change (2 ^ 16) with 65536.
  destruct (angle <? 0) eqn:En; bool_hyps; (split; [intros|intros]; [|]); try lia.
  - apply Z.lt_succ_r, Z.div_lt_upper_bound; nia.
  - apply Z.div_pos; nia.
Qed.

(** ** The arc tangent *)

(** The image of the ratio of the legs stays below a quarter turn. *)
Lemma arc_base_range r : 0 <= r <= 16384 -> 0 <= arc_base r <= 671088640.
Proof.
  intros Hr. unfold arc_base. rewrite (wsub_small 0x1333 r) by (ranges; lia).
  assert (wabs (0x1333 - r) = Z.abs (0x1333 - r)) as -> by (apply wrap_s_id; [done|ranges; lia]).
  rewrite (wmul_small (Z.abs (0x1333 - r))) by (ranges; lia). rewrite (Z.shiftr_div_pow2 _ 14) by lia. change (2 ^ 14) with 16384.
  set (c := Z.abs (0x1333 - r) * 0xB00 / 16384).
  assert (Hc : 0 <= c <= 2000). { unfold c. split; [apply Z.div_pos; lia|apply Z.div_le_upper_bound; lia]. }
  rewrite (wsub_small 0x2800 c) by (ranges; lia). rewrite (wmul_small (0x2800 - c) r) by (ranges; nia).
  set (p := (0x2800 - c) * r). assert (Hp : 0 <= p <= 167772160) by (unfold p; nia).
  assert (Z.land p (-0x4000) = p / 16384 * 16384) as ->.
  { change (-0x4000) with (Z.lnot (Z.ones 14)). rewrite <- Z.ldiff_land, Z.ldiff_ones_r by lia.
    rewrite Z.shiftl_mul_pow2, Z.shiftr_div_pow2 by lia. done. }
  pose proof (Z.mul_div_le p 16384 ltac:(lia)). pose proof (Z.div_pos p 16384 ltac:(lia) ltac:(lia)).
  unfold wshl. rewrite Z.shiftl_mul_pow2 by lia. change (2 ^ 2) with 4. rewrite wrap_s_id by (try lia; ranges; lia). lia.
Qed.

(** Whether the vector lies nearer the east-west axis, and the ratio of its legs. *)
Definition wider (dx dy : Z) : bool := Z.abs dy <? Z.abs dx.
Definition ratio (dx dy : Z) : Z :=
  if wider dx dy then Z.abs dy * 16384 /t Z.abs dx else Z.abs dx * 16384 /t Z.abs dy.

Definition legs_ok (dx dy : Z) : Prop :=
  is_i32 dx /\ is_i32 dy /\ dx <> I32_MIN /\ dy <> I32_MIN /\ Z.min (Z.abs dx) (Z.abs dy) < 131072.

Lemma ratio_range dx dy : dx <> 0 -> dy <> 0 -> 0 <= ratio dx dy <= 16384.
Proof.
  intros Hx Hy. unfold ratio, wider. destruct (_ <? _) eqn:E; bool_hyps;
    (rewrite Z.quot_div_nonneg by lia; split; [apply Z.div_pos; lia|apply Z.div_le_upper_bound; lia]).
Qed.

Lemma find_angle_shape dx dy :
  legs_ok dx dy -> dx <> 0 -> dy <> 0 ->
  let b := arc_base (ratio dx dy) in
  find_angle dx dy =
    if 0 <? dx then
      if dy <? 0 then (if wider dx dy then QUARTER_TURN -w b else b)
      else (if wider dx dy then b +w QUARTER_TURN else HALF_TURN -w b)
    else if dy <? 0 then (if wider dx dy then b +w west else wneg b)
    else (if wider dx dy then west -w b else b -w HALF_TURN).
Proof.
  intros (Hx & Hy & Hx' & Hy' & Hmin) Hx0 Hy0 b. unfold find_angle. ranges.
  assert (wneg dy = - dy) as -> by (apply wrap_s_id; [done|ranges; lia]).
  assert ((dx =? 0) = false) as -> by lia. assert ((- dy =? 0) = false) as -> by lia.
  assert (wabs dx = Z.abs dx) as -> by (apply wrap_s_id; [done|ranges; lia]).
  assert (wabs (- dy) = Z.abs dy) as -> by (unfold wabs; rewrite Z.abs_opp; apply wrap_s_id; [done|ranges; lia]).
  assert ((0 <? - dy) = (dy <? 0)) as -> by lia. fold (wider dx dy).
  assert (Hs : forall z, 0 <= z < 131072 -> wshl z 14 = z * 16384).
  { intros z Hz. unfold wshl. rewrite Z.shiftl_mul_pow2 by lia. change (2 ^ 14) with 16384. apply wrap_s_id; [done|ranges; lia]. }
  unfold b, ratio. destruct (wider dx dy) eqn:E; unfold wider in E; bool_hyps; rewrite Hs by lia; done.
Qed.

Lemma wneg_wrap z : wneg (i32 z) = i32 (- z).
Proof.
  apply wrap_s_congr. change (- i32 z) with (0 - i32 z). change (- z) with (0 - z).
  by rewrite <- Zminus_mod_idemp_r, wrap_s_mod, Zminus_mod_idemp_r.
Qed.

(** The mirror image of a vector across the north-south axis has the opposite
    angle. *)
Lemma find_angle_mirror dx dy : legs_ok dx dy -> dx <> 0 -> find_angle (- dx) dy = wneg (find_angle dx dy).
Proof.
  intros H Hx. destruct (decide (dy = 0)) as [->|Hy].
  - unfold find_angle. assert ((- dx =? 0) = false) as -> by lia. assert ((dx =? 0) = false) as -> by lia.
    change (wneg 0 =? 0) with true. cbv beta match.
    destruct (0 <? dx) eqn:E; bool_hyps; [assert ((0 <? - dx) = false) as -> by lia|assert ((0 <? - dx) = true) as -> by lia]; done.
  - assert (H' : legs_ok (- dx) dy) by (unfold legs_ok in *; ranges; lia).
    rewrite !find_angle_shape by (done || lia). pose proof (arc_base_range (ratio dx dy) (ratio_range _ _ Hx Hy)) as Hb.
    assert (Er : ratio (- dx) dy = ratio dx dy) by (unfold ratio, wider; by rewrite Z.abs_opp).
    assert (Ew : wider (- dx) dy = wider dx dy) by (unfold wider; by rewrite Z.abs_opp). rewrite Er, Ew.
    set (b := arc_base (ratio dx dy)) in *. assert (Hw : wneg (wneg b) = b).
    { unfold wneg at 2. rewrite wneg_wrap, Z.opp_involutive. apply wrap_s_id; [done|ranges; lia]. }
    unfold wadd, wsub, west, QUARTER_TURN, HALF_TURN.
    destruct (0 <? dx) eqn:E; bool_hyps; [assert ((0 <? - dx) = false) as -> by lia|assert ((0 <? - dx) = true) as -> by lia];
      destruct (dy <? 0), (wider dx dy); rewrite ?wneg_wrap; [f_equal; lia|done|f_equal; lia..|done|f_equal; lia|f_equal; lia].
Qed.

(** The angle of a vector lies in the vector's quadrant, and mirror-image
    vectors have opposite angles, as long as the shorter leg is below [2^17]. *)
Theorem find_angle_quadrant (dx dy : Z) (H : legs_ok dx dy) :
  let a := u32 (find_angle dx dy) in
  (0 < dx -> 0 <= a <= 0x80000000) /\ (dx < 0 -> 0x80000000 <= a \/ a = 0) /\
  (dy < 0 -> a <= 0x40000000 \/ 0xC0000000 <= a) /\ (0 < dy -> 0x40000000 <= a <= 0xC0000000) /\
  (dx <> 0 -> find_angle (- dx) dy = wneg (find_angle dx dy)).
Proof.
  intros a. cut ((0 < dx -> 0 <= a <= 0x80000000) /\ (dx < 0 -> 0x80000000 <= a \/ a = 0) /\
    (dy < 0 -> a <= 0x40000000 \/ 0xC0000000 <= a) /\ (0 < dy -> 0x40000000 <= a <= 0xC0000000)).
  { intros (? & ? & ? & ?). pose proof (find_angle_mirror dx dy H). tauto. }
  unfold a.
  destruct (decide (dx = 0)) as [->|Hx].
  { unfold find_angle. cbn [Z.eqb]. destruct H as (_ & Hy & _ & Hy' & _). ranges.
    assert (wneg dy = - dy) as -> by (apply wrap_s_id; [done|ranges; lia]).
    destruct (0 <? - dy) eqn:E; bool_hyps; [change (u32 0) with 0|change (u32 HALF_TURN) with 0x80000000]; lia. }
  destruct (decide (dy = 0)) as [->|Hy].
  { unfold find_angle. assert ((dx =? 0) = false) as -> by lia. change (wneg 0 =? 0) with true. cbv beta match.
    destruct (0 <? dx) eqn:E; bool_hyps; [change (u32 QUARTER_TURN) with 0x40000000|change (u32 (- QUARTER_TURN)) with 0xC0000000]; lia. }
  rewrite find_angle_shape by done. pose proof (arc_base_range (ratio dx dy) (ratio_range _ _ Hx Hy)) as Hb.
  set (b := arc_base (ratio dx dy)) in *. unfold wadd, wsub, wneg, west, QUARTER_TURN, HALF_TURN.
  destruct (0 <? dx) eqn:E1, (dy <? 0) eqn:E2, (wider dx dy); bool_hyps; rewrite ?wrap_u_wrap_s by done;
    unfold wrap_u; change (2 ^ 32) with 4294967296; Z.div_mod_to_equations; lia.
Qed.

Lemma find_angle_quadrant_witness :
  find_angle 3000 (-1000) = 852099072 /\
  let a := u32 (find_angle 3000 (-1000)) in
  (0 < 3000 -> 0 <= a <= 0x80000000) /\ (3000 < 0 -> 0x80000000 <= a \/ a = 0) /\
  (-1000 < 0 -> a <= 0x40000000 \/ 0xC0000000 <= a) /\ (0 < -1000 -> 0x40000000 <= a <= 0xC0000000) /\
  (3000 <> 0 -> find_angle (-3000) (-1000) = wneg (find_angle 3000 (-1000))).
Proof.
  split; [reflexivity|]. apply (find_angle_quadrant 3000 (-1000)). unfold legs_ok. ranges. lia.
Defined.

(** Beyond that bound the shift by 14 wraps: a vector to the north-east whose
    legs are 150000 (the default map is 196608 wide) is given an angle in the
    north-western quadrant. *)
Theorem find_angle_wraps : u32 (find_angle 150000 (-150000)) = 3937730560 /\ 0xC0000000 < 3937730560.
Proof. split; reflexivity. Qed.

(** Near a right angle the folded sine exceeds the magnitude it scales. *)
Theorem sinx_overshoots : sinx 0x3FC08001 1000 = 1007.
Proof. reflexivity. Qed.
