(* ===== verification/SimKernels.v ===== *)
(** * The element-wise kernels

    [crates/don-sim/src/simd.rs]: the position integrator and the counter decay
    in their three forms (scalar reference, branchless, and the explicit NEON
    and SSE2 vectors with their unrolled loops and scalar tails).  A 128-bit
    vector is the list of its lanes; a slice is a list of [i32] or [i16]; a
    [while] loop runs on fuel, and the lemmas show the fuel is enough.  The
    contract of the module, that every form is bit-identical to the scalar one
    on every input, is [kernels_agree]. *)

From S2P Require Import Prelude SimArith.
#[local] Open Scope i32_scope.
#[local] Open Scope Z_scope.

(** ** Scalar and branchless forms *)

(** [for (p, v) in pos.iter_mut().zip(vel.iter())]: entries past the shorter
    slice are left alone. *)
Fixpoint for_zip (f : Z -> Z -> Z) (pos vel : list Z) : list Z :=
  match pos, vel with
  | p :: pos, v :: vel => f p v :: for_zip f pos vel
  | _, _ => pos
  end.

Definition wrap_scalar (span p v : Z) : Z :=
  let x := p +w v in
  if x <? 0 then x +w span else if span <=? x then x -w span else x.

Definition integrate_wrap_scalar (pos vel : list Z) (span : Z) : list Z := for_zip (wrap_scalar span) pos vel.

Definition down_scalar (c : Z) : Z := if 0 <? c then c - 1 else c.

Definition tick_down_scalar (counters : list Z) : list Z := map down_scalar counters.

Definition wrap_portable (span p v : Z) : Z :=
  let x := p +w v in
  let lt := Z.shiftr x 31 in
  let ge := - (if span <=? x then 1 else 0) in
  x +w Z.land span lt -w Z.land span ge.

Definition integrate_wrap_portable (pos vel : list Z) (span : Z) : list Z := for_zip (wrap_portable span) pos vel.

Definition down_portable (c : Z) : Z := c - (if 0 <? c then 1 else 0).

Definition tick_down_portable (counters : list Z) : list Z := map down_portable counters.

(** The shipped forms. *)
Definition integrate_wrap (pos vel : list Z) (span : Z) : list Z := integrate_wrap_portable pos vel span.
Definition tick_down (counters : list Z) : list Z := tick_down_portable counters.

(** ** Vectors *)

(** [n] lanes loaded from, and stored to, a slice at index [i]. *)
Definition load (n i : nat) (l : list Z) : list Z := take n (drop i l).
Definition store (i : nat) (v l : list Z) : list Z := take i l ++ v ++ drop (i + length v) l.

(** [while i < bound { body(i); i += stride }]. *)
Fixpoint while_lt (fuel i bound stride : nat) (body : nat -> list Z -> list Z) (l : list Z) : nat * list Z :=
  match fuel with
  | O => (i, l)
  | S fuel => if decide (i < bound)%nat then while_lt fuel (i + stride) bound stride body (body i l) else (i, l)
  end.

(** Lane-wise instructions at a width: wrapping addition and subtraction, and
    comparisons that give all-ones or all-zeros lanes. *)
Definition lanes_add (w : Z) : list Z -> list Z -> list Z := zip_with (fun a b => wrap_s w (a + b)).
Definition lanes_sub (w : Z) : list Z -> list Z -> list Z := zip_with (fun a b => wrap_s w (a - b)).
Definition lanes_and : list Z -> list Z -> list Z := zip_with Z.land.
Definition lanes_lt : list Z -> list Z -> list Z := zip_with (fun a b => if a <? b then -1 else 0).
Definition lanes_ge : list Z -> list Z -> list Z := zip_with (fun a b => if b <=? a then -1 else 0).
Definition lanes_gt : list Z -> list Z -> list Z := zip_with (fun a b => if b <? a then -1 else 0).
Definition dup (n : nat) (z : Z) : list Z := replicate n z.

Module neon.

Definition quad (vel : list Z) (span : Z) (i : nat) (pos : list Z) : list Z :=
  let vspan := dup 4 span in
  let x := lanes_add 32 (load 4 i pos) (load 4 i vel) in
  let lt := lanes_lt x (dup 4 0) in
  let ge := lanes_ge x vspan in
  let x := lanes_add 32 x (lanes_and vspan lt) in
  let x := lanes_sub 32 x (lanes_and vspan ge) in
  store i x pos.

Definition quads (vel : list Z) (span : Z) (i : nat) (pos : list Z) : list Z :=
  quad vel span (i + 12) (quad vel span (i + 8) (quad vel span (i + 4) (quad vel span i pos))).

Definition integrate_wrap (pos vel : list Z) (span : Z) : list Z :=
  let n := length pos in
  let wide := (16 * (n / 16))%nat in
  let '(i, pos) := while_lt n 0 wide 16 (quads vel span) pos in
  let body := (4 * (n / 4))%nat in
  let '(_, pos) := while_lt n i body 4 (quad vel span) pos in
  take body pos ++ integrate_wrap_scalar (drop body pos) (drop body vel) span.

Definition octet (i : nat) (c : list Z) : list Z :=
  let v := load 8 i c in
  store i (lanes_add 16 v (lanes_gt v (dup 8 0))) c.

Definition octets (i : nat) (c : list Z) : list Z := octet (i + 24) (octet (i + 16) (octet (i + 8) (octet i c))).

Definition tick_down (counters : list Z) : list Z :=
  let n := length counters in
  let wide := (32 * (n / 32))%nat in
  let '(i, c) := while_lt n 0 wide 32 octets counters in
  let body := (8 * (n / 8))%nat in
  let '(_, c) := while_lt n i body 8 octet c in
  take body c ++ tick_down_scalar (drop body c).

End neon.

Module sse2.

(** [x >= span] is written [x > span - 1]. *)
Definition quad (vel : list Z) (span : Z) (i : nat) (pos : list Z) : list Z :=
  let vspan := dup 4 span in
  let vspan_m1 := dup 4 (span - 1) in
  let x := lanes_add 32 (load 4 i pos) (load 4 i vel) in
  let lt := lanes_lt x (dup 4 0) in
  let ge := lanes_gt x vspan_m1 in
  let x := lanes_add 32 x (lanes_and vspan lt) in
  let x := lanes_sub 32 x (lanes_and vspan ge) in
  store i x pos.

Definition integrate_wrap (pos vel : list Z) (span : Z) : list Z :=
  let n := length pos in
  let body := (4 * (n / 4))%nat in
  let '(_, pos) := while_lt n 0 body 4 (quad vel span) pos in
  take body pos ++ integrate_wrap_scalar (drop body pos) (drop body vel) span.

Definition tick_down (counters : list Z) : list Z :=
  let n := length counters in
  let body := (8 * (n / 8))%nat in
  let '(_, c) := while_lt n 0 body 8 neon.octet counters in
  take body c ++ tick_down_scalar (drop body c).

End sse2.

(** The targets [mod hand] selects between by [cfg]. *)
Inductive target := Aarch64 | X86_64 | OtherTarget.

Module hand.

Definition integrate_wrap (t : target) (pos vel : list Z) (span : Z) : list Z :=
  match t with
  | Aarch64 => neon.integrate_wrap pos vel span
  | X86_64 => sse2.integrate_wrap pos vel span
  | OtherTarget => integrate_wrap_portable pos vel span
  end.

Definition tick_down (t : target) (counters : list Z) : list Z :=
  match t with
  | Aarch64 => neon.tick_down counters
  | X86_64 => sse2.tick_down counters
  | OtherTarget => tick_down_portable counters
  end.

End hand.

(** ** One lane *)

Lemma land_all z : Z.land z (-1) = z.
Proof. apply Z.land_m1_r. Qed.

Lemma wsub_0 x : is_i32 x -> x -w 0 = x.
Proof. intros. unfold wsub. rewrite Z.sub_0_r. by apply wrap_s_id. Qed.

Lemma wadd_0 x : is_i32 x -> x +w 0 = x.
Proof. intros. unfold wadd. rewrite Z.add_0_r. by apply wrap_s_id. Qed.

Lemma shiftr31 x : is_i32 x -> Z.shiftr x 31 = if x <? 0 then -1 else 0.
Proof.
  intros Hx. rewrite Z.shiftr_div_pow2 by lia. ranges. change (2 ^ 31) with 2147483648.
  destruct (x <? 0) eqn:E; bool_hyps; [|by rewrite Z.div_small by lia].
  symmetry. apply (Z.div_unique _ _ _ (x + 2147483648)); lia.
Qed.

(** The two masked additions are the if/else chain, for a positive span. *)
Lemma masked_wrap span p v (b : Z -> bool) :
  0 < span -> (forall x, is_i32 x -> b x = (span <=? x)) ->
  let x := p +w v in
  x +w Z.land span (if x <? 0 then -1 else 0) -w Z.land span (if b x then -1 else 0) = wrap_scalar span p v.
Proof.
  intros Hs Hb x. assert (Hx : is_i32 x) by apply wadd_i32. rewrite Hb by done. unfold wrap_scalar. fold x.
  destruct (x <? 0) eqn:E1, (span <=? x) eqn:E2; bool_hyps; rewrite ?land_all, ?Z.land_0_r; try lia.
  - apply wsub_0, wadd_i32.
  - by rewrite wadd_0.
  - rewrite wadd_0 by done. by apply wsub_0.
Qed.

Lemma wrap_portable_scalar span p v : 0 < span -> wrap_portable span p v = wrap_scalar span p v.
Proof.
  intros Hs. rewrite <- (masked_wrap span p v (fun x => span <=? x)) by done. unfold wrap_portable.
  rewrite shiftr31 by apply wadd_i32. by destruct (span <=? p +w v).
Qed.

Lemma down_portable_scalar c : down_portable c = down_scalar c.
Proof. unfold down_portable, down_scalar. destruct (0 <? c); lia. Qed.

(** ** Blocks *)

Implicit Types (f g : Z -> Z -> Z) (pos vel l : list Z) (i w : nat).

Lemma for_zip_ext f g pos vel : (forall p v, f p v = g p v) -> for_zip f pos vel = for_zip g pos vel.
Proof. intros E. revert vel. induction pos as [|p pos IH]; intros [|v vel]; simpl; try done. by rewrite E, IH. Qed.

Lemma length_for_zip f pos vel : length (for_zip f pos vel) = length pos.
Proof. revert vel. induction pos; intros [|]; simpl; auto. Qed.

Lemma for_zip_zip_with f pos vel : length pos = length vel -> for_zip f pos vel = zip_with f pos vel.
Proof. revert vel. induction pos as [|p pos IH]; intros [|v vel] E; simplify_eq/=; f_equal; auto. Qed.

(** The first [i] entries are done, the others are as they were. *)
Definition done_upto (f : Z -> Z -> Z) (pos vel : list Z) (i : nat) : list Z :=
  zip_with f (take i pos) (take i vel) ++ drop i pos.

(** A body that does the [w] entries from [i]. *)
Definition advances (f : Z -> Z -> Z) (pos vel : list Z) (w : nat) (body : nat -> list Z -> list Z) : Prop :=
  forall i, (i + w <= length pos)%nat -> body i (done_upto f pos vel i) = done_upto f pos vel (i + w).

Lemma length_done_upto f pos vel i :
  length pos = length vel -> length (done_upto f pos vel i) = length pos.
Proof. intros E. unfold done_upto. rewrite length_app, length_zip_with, !length_take, length_drop. lia. Qed.

Lemma length_prefix f pos vel i :
  length pos = length vel -> (i <= length pos)%nat -> length (zip_with f (take i pos) (take i vel)) = i.
Proof. intros. rewrite length_zip_with, !length_take. lia. Qed.

Lemma load_done f pos vel w i :
  length pos = length vel -> (i + w <= length pos)%nat -> load w i (done_upto f pos vel i) = load w i pos.
Proof. intros E Hi. unfold load, done_upto. by rewrite drop_app_length' by (by rewrite length_prefix by lia). Qed.

Lemma store_done f pos vel w i :
  length pos = length vel -> (i + w <= length pos)%nat ->
  store i (zip_with f (load w i pos) (load w i vel)) (done_upto f pos vel i) = done_upto f pos vel (i + w).
Proof.
  intros E Hi. unfold store. assert (Hp : length (zip_with f (take i pos) (take i vel)) = i) by (apply length_prefix; lia).
  assert (Hl : length (zip_with f (load w i pos) (load w i vel)) = w).
  { unfold load. rewrite length_zip_with, !length_take, !length_drop. lia. }
  rewrite Hl. unfold done_upto at 1 2. rewrite take_app_length' by done.
  rewrite <- drop_drop, drop_app_length', drop_drop by done. unfold done_upto. rewrite app_assoc. f_equal.
  rewrite <- zip_with_app by (rewrite !length_take; lia). unfold load. by rewrite !take_take_drop.
Qed.

(** A lane-wise body that agrees with [f] does its entries. *)
Lemma lanes_advance f pos vel w body :
  length pos = length vel ->
  (forall i l, (i + w <= length pos)%nat -> body i l = store i (zip_with f (load w i l) (load w i vel)) l) ->
  advances f pos vel w body.
Proof. intros E Hb i Hi. rewrite Hb by done. rewrite load_done by done. by apply store_done. Qed.

Lemma advances_seq f pos vel w w' body body' :
  advances f pos vel w body -> advances f pos vel w' body' ->
  advances f pos vel (w + w') (fun i l => body' (i + w) (body i l))%nat.
Proof. intros H1 H2 i Hi. rewrite H1, H2 by lia. f_equal. lia. Qed.

Lemma while_done f pos vel w body bound fuel i :
  advances f pos vel w body -> (0 < w)%nat -> (exists k, bound = i + k * w)%nat -> (bound <= length pos)%nat -> (bound <= i + fuel)%nat ->
  while_lt fuel i bound w body (done_upto f pos vel i) = (bound, done_upto f pos vel bound).
Proof.
  intros Hb Hw. revert i. induction fuel as [|fuel IH]; intros i [k Hk] Hl Hf; simpl.
  - assert (bound = i) as E by nia. clear Hk. by rewrite E.
  - case_decide as D; [|assert (bound = i) as E by nia; clear Hk; by rewrite E].
    destruct k as [|k]; [lia|]. rewrite Hb by (rewrite Nat.mul_succ_l in Hk; lia). apply IH; [|lia|lia].
    exists k. lia.
Qed.

Lemma done_0 f pos vel : done_upto f pos vel 0 = pos.
Proof. done. Qed.

(** The scalar tail completes a done prefix. *)
Lemma tail_done f pos vel body :
  length pos = length vel -> (body <= length pos)%nat ->
  take body (done_upto f pos vel body) ++ for_zip f (drop body (done_upto f pos vel body)) (drop body vel) = for_zip f pos vel.
Proof.
  intros E Hb. assert (Hp : length (zip_with f (take body pos) (take body vel)) = body) by (by apply length_prefix).
  unfold done_upto at 1 2. rewrite take_app_length', drop_app_length' by done.
  rewrite !for_zip_zip_with by (rewrite ?length_drop; lia). rewrite <- zip_with_app by (rewrite !length_take; lia).
  by rewrite !take_drop.
Qed.

(** ** The forms agree *)

Lemma lanes_dup_l f (g : Z -> Z) n z l : length l = n -> (forall x, f z x = g x) -> zip_with f (dup n z) l = map g l.
Proof.
  intros <- E. unfold dup. induction l as [|x l IH]; [done|]. simpl. by rewrite E, IH.
Qed.

Lemma lanes_dup_r f (g : Z -> Z) n z l : length l = n -> (forall x, f x z = g x) -> zip_with f l (dup n z) = map g l.
Proof.
  intros <- E. unfold dup. induction l as [|x l IH]; [done|]. simpl. by rewrite E, IH.
Qed.

Lemma zip_map_r f (g : Z -> Z) l : zip_with f l (map g l) = map (fun x => f x (g x)) l.
Proof. induction l as [|x l IH]; [done|]. simpl. by rewrite IH. Qed.

Lemma map_zip_with (h : Z -> Z) f l vel : map h (zip_with f l vel) = zip_with (fun a b => h (f a b)) l vel.
Proof. revert vel. induction l as [|x l IH]; intros [|v vel]; simpl; try done. by rewrite IH. Qed.

Lemma length_load n i l : (i + n <= length l)%nat -> length (load n i l) = n.
Proof. intros. unfold load. rewrite length_take, length_drop. lia. Qed.

Lemma zip_masked span a v (b : Z -> bool) :
  0 < span -> (forall x, is_i32 x -> b x = (span <=? x)) -> length v = length a ->
  zip_with (fun x y => wrap_s 32 (x - y))
    (zip_with (fun x y => wrap_s 32 (wrap_s 32 (x + y) + Z.land span (if wrap_s 32 (x + y) <? 0 then -1 else 0))) a v)
    (zip_with (fun x y => Z.land span (if b (wrap_s 32 (x + y)) then -1 else 0)) a v) = zip_with (wrap_scalar span) a v.
Proof.
  intros Hs Hb. revert v. induction a as [|p a IH]; intros [|q v] E; simpl in *; try done.
  rewrite IH by lia. f_equal. apply (masked_wrap span p q b Hs Hb).
Qed.

(** The lane arithmetic shared by the two integrators. *)
Lemma quad_lanes span a v (ge : list Z -> list Z) (b : Z -> bool) :
  length a = 4%nat -> length v = 4%nat -> 0 < span ->
  (forall x, length x = 4%nat -> ge x = map (fun z => if b z then -1 else 0) x) ->
  (forall x, is_i32 x -> b x = (span <=? x)) ->
  let x := lanes_add 32 a v in
  lanes_sub 32 (lanes_add 32 x (lanes_and (dup 4 span) (lanes_lt x (dup 4 0)))) (lanes_and (dup 4 span) (ge x)) = zip_with (wrap_scalar span) a v.
Proof.
  intros Ha Hv Hs Hge Hb x.
  assert (Hx : length x = 4%nat) by (unfold x, lanes_add; rewrite length_zip_with; lia).
  unfold lanes_lt, lanes_and. rewrite Hge by done.
  rewrite (lanes_dup_r _ (fun z => if z <? 0 then -1 else 0)) by done.
  rewrite (lanes_dup_l Z.land (Z.land span) 4 span) by (by rewrite ?length_map).
  rewrite (lanes_dup_l Z.land (Z.land span) 4 span) by (by rewrite ?length_map).
  rewrite !map_map. unfold lanes_add at 1. rewrite zip_map_r. unfold lanes_sub.
  unfold x at 1 2, lanes_add. rewrite !map_zip_with.
  apply zip_masked; [done|done|]. by rewrite Ha.
Qed.

Lemma neon_quad_advances span pos vel :
  0 < span -> length pos = length vel -> advances (wrap_scalar span) pos vel 4 (neon.quad vel span).
Proof.
  intros Hs E i Hi. unfold neon.quad. rewrite load_done by done.
  rewrite (quad_lanes span _ _ (fun x => lanes_ge x (dup 4 span)) (fun x => span <=? x));
    [by apply store_done|by apply length_load|apply length_load; lia|done| |done].
  intros x Hx. by apply lanes_dup_r.
Qed.

Lemma sse2_quad_advances span pos vel :
  0 < span -> length pos = length vel -> advances (wrap_scalar span) pos vel 4 (sse2.quad vel span).
Proof.
  intros Hs E i Hi. unfold sse2.quad. rewrite load_done by done.
  rewrite (quad_lanes span _ _ (fun x => lanes_gt x (dup 4 (span - 1))) (fun x => span - 1 <? x));
    [by apply store_done|by apply length_load|apply length_load; lia|done| |].
  - intros x Hx. by apply lanes_dup_r.
  - intros x _. lia.
Qed.

Lemma neon_quads_advances span pos vel :
  0 < span -> length pos = length vel -> advances (wrap_scalar span) pos vel 16 (neon.quads vel span).
Proof.
  intros Hs E i Hi. pose proof (neon_quad_advances span pos vel Hs E) as A. unfold neon.quads.
  rewrite A by lia. rewrite (A (i + 4)%nat) by lia. replace (i + 4 + 4)%nat with (i + 8)%nat by lia.
  rewrite A by lia. replace (i + 8 + 4)%nat with (i + 12)%nat by lia. rewrite A by lia. f_equal. lia.
Qed.

(** Two loops, or one, do the whole blocks. *)
Lemma unrolled f pos vel w k quads quad :
  length pos = length vel -> (0 < w)%nat -> (0 < k)%nat ->
  advances f pos vel (k * w) quads -> advances f pos vel w quad ->
  let n := length pos in
  let body := (w * (n / w))%nat in
  let r := while_lt n 0 (k * w * (n / (k * w))) (k * w) quads pos in
  while_lt n r.1 body w quad r.2 = (body, done_upto f pos vel body).
Proof.
  intros E Hw Hk A1 A2 n body.
  assert (Hkw : (0 < k * w)%nat) by nia.
  pose proof (Nat.Div0.mul_div_le n (k * w)) as H1. pose proof (Nat.Div0.mul_div_le n w) as H2.
  pose proof (while_done f pos vel (k * w) quads (k * w * (n / (k * w))) n 0 A1 Hkw) as W. rewrite done_0 in W.
  rewrite W; [|exists (n / (k * w))%nat; lia|done|lia]. cbn [fst snd].
  apply while_done; [done|done| |done|lia].
  exists (n / w - k * (n / (k * w)))%nat. unfold body. rewrite Nat.mul_sub_distr_r.
  assert (k * (n / (k * w)) <= n / w)%nat.
  { apply Nat.div_le_lower_bound; [lia|]. nia. }
  nia.
Qed.

Lemma rolled f pos vel w quad :
  length pos = length vel -> (0 < w)%nat -> advances f pos vel w quad ->
  let n := length pos in
  let body := (w * (n / w))%nat in
  while_lt n 0 body w quad pos = (body, done_upto f pos vel body).
Proof.
  intros E Hw A n body. pose proof (Nat.Div0.mul_div_le n w) as H2.
  pose proof (while_done f pos vel w quad body n 0 A Hw) as W. rewrite done_0 in W. rewrite W; [done| |done|lia].
  exists (n / w)%nat. unfold body. lia.
Qed.

Lemma neon_integrate span pos vel :
  0 < span -> length pos = length vel -> neon.integrate_wrap pos vel span = integrate_wrap_scalar pos vel span.
Proof.
  intros Hs E. pose proof (unrolled (wrap_scalar span) pos vel 4 4 (neon.quads vel span) (neon.quad vel span) E
    ltac:(lia) ltac:(lia) (neon_quads_advances span pos vel Hs E) (neon_quad_advances span pos vel Hs E)) as U.
  unfold neon.integrate_wrap. cbv zeta in *. change (4 * 4)%nat with 16%nat in U.
  destruct (while_lt (length pos) 0 _ 16 _ pos) as [i l]. cbn [fst snd] in U. rewrite U.
  apply tail_done; [done|apply Nat.Div0.mul_div_le].
Qed.

Lemma sse2_integrate span pos vel :
  0 < span -> length pos = length vel -> sse2.integrate_wrap pos vel span = integrate_wrap_scalar pos vel span.
Proof.
  intros Hs E. pose proof (rolled (wrap_scalar span) pos vel 4 (sse2.quad vel span) E ltac:(lia) (sse2_quad_advances span pos vel Hs E)) as U.
  unfold sse2.integrate_wrap. cbv zeta in *. rewrite U. apply tail_done; [done|apply Nat.Div0.mul_div_le].
Qed.

(** The counters are a slice zipped with itself. *)
Definition down2 (c _ : Z) : Z := down_scalar c.

Lemma down2_zip l : for_zip down2 l l = tick_down_scalar l.
Proof. unfold tick_down_scalar. induction l as [|c l IH]; [done|]. simpl. by rewrite IH. Qed.

Lemma down2_for_zip l l' : length l = length l' -> for_zip down2 l l' = tick_down_scalar l.
Proof. unfold tick_down_scalar. revert l'. induction l as [|c l IH]; intros [|c' l'] E; simplify_eq/=; [done|]. by rewrite IH. Qed.

Lemma down_lane c : is_i16 c -> wrap_s 16 (c + (if 0 <? c then -1 else 0)) = down_scalar c.
Proof.
  intros Hc. unfold down_scalar. ranges. destruct (0 <? c) eqn:E; bool_hyps; rewrite wrap_s_id by (try done; ranges; lia); lia.
Qed.

Lemma octet_advances c : Forall is_i16 c -> advances down2 c c 8 neon.octet.
Proof.
  intros Hc i Hi. unfold neon.octet. rewrite load_done by done.
  rewrite <- store_done by done. f_equal. unfold lanes_gt, lanes_add.
  rewrite (lanes_dup_r _ (fun z => if 0 <? z then -1 else 0)) by (done || by apply length_load).
  rewrite zip_map_r. assert (Hl : Forall is_i16 (load 8 i c)) by (unfold load; by apply Forall_take, Forall_drop).
  induction Hl as [|x l Hx Hl IH]; [done|]. simpl. rewrite IH. f_equal. by apply down_lane.
Qed.

Lemma octets_advances c : Forall is_i16 c -> advances down2 c c 32 neon.octets.
Proof.
  intros Hc i Hi. pose proof (octet_advances c Hc) as A. unfold neon.octets.
  rewrite A by lia. rewrite (A (i + 8)%nat) by lia. replace (i + 8 + 8)%nat with (i + 16)%nat by lia.
  rewrite A by lia. replace (i + 16 + 8)%nat with (i + 24)%nat by lia. rewrite A by lia. f_equal. lia.
Qed.

Lemma down_tail c body :
  (body <= length c)%nat ->
  take body (done_upto down2 c c body) ++ tick_down_scalar (drop body (done_upto down2 c c body)) = tick_down_scalar c.
Proof.
  intros Hb. rewrite <- (down2_zip c), <- (tail_done down2 c c body) by done. f_equal. symmetry. apply down2_for_zip.
  by rewrite !length_drop, length_done_upto.
Qed.

Lemma neon_tick_down c : Forall is_i16 c -> neon.tick_down c = tick_down_scalar c.
Proof.
  intros Hc. pose proof (unrolled down2 c c 8 4 neon.octets neon.octet eq_refl ltac:(lia) ltac:(lia)
    (octets_advances c Hc) (octet_advances c Hc)) as U.
  unfold neon.tick_down. cbv zeta in *. change (4 * 8)%nat with 32%nat in U.
  destruct (while_lt (length c) 0 _ 32 _ c) as [i l]. cbn [fst snd] in U. rewrite U.
  apply down_tail, Nat.Div0.mul_div_le.
Qed.

Lemma sse2_tick_down c : Forall is_i16 c -> sse2.tick_down c = tick_down_scalar c.
Proof.
  intros Hc. pose proof (rolled down2 c c 8 neon.octet eq_refl ltac:(lia) (octet_advances c Hc)) as U.
  unfold sse2.tick_down. cbv zeta in *. rewrite U. apply down_tail, Nat.Div0.mul_div_le.
Qed.

Lemma integrate_wrap_is_scalar pos vel span : 0 < span -> integrate_wrap pos vel span = integrate_wrap_scalar pos vel span.
Proof. intros Hs. apply for_zip_ext. intros p v. by apply wrap_portable_scalar. Qed.

Lemma tick_down_is_scalar c : tick_down c = tick_down_scalar c.
Proof. apply map_ext, down_portable_scalar. Qed.

(** (C24) The contract of the module: every form of a kernel, on every target, gives
    exactly what the scalar reference gives, on every [i32] position and velocity
    and every [i16] counter, wrapping sums included, at every length. *)
Theorem kernels_agree (t : target) (pos vel counters : list Z) (span : Z)
  (Hlen : length pos = length vel) (Hspan : 0 < span) (Hc : Forall is_i16 counters) :
  integrate_wrap pos vel span = integrate_wrap_scalar pos vel span /\
  hand.integrate_wrap t pos vel span = integrate_wrap_scalar pos vel span /\
  tick_down counters = tick_down_scalar counters /\
  hand.tick_down t counters = tick_down_scalar counters.
Proof.
  split; [by apply integrate_wrap_is_scalar|]. split; [|split; [apply tick_down_is_scalar|]].
  - destruct t; [by apply neon_integrate|by apply sse2_integrate|by apply integrate_wrap_is_scalar].
  - destruct t; [by apply neon_tick_down|by apply sse2_tick_down|apply tick_down_is_scalar].
Qed.

Definition demo_pos : list Z := [0; -1; 49151; 49152; I32_MIN; I32_MAX; 7; 100; 5].
Definition demo_vel : list Z := [0; 1; 1; -1; -1; 1; I32_MIN; I32_MAX; -6].

Lemma kernels_agree_witness :
  integrate_wrap_scalar demo_pos demo_vel 49152 = [0; 0; 0; 49151; 2147434495; -2147434496; -2147434489; -2147434397; 49151] /\
  integrate_wrap demo_pos demo_vel 49152 = integrate_wrap_scalar demo_pos demo_vel 49152 /\
  hand.integrate_wrap Aarch64 demo_pos demo_vel 49152 = integrate_wrap_scalar demo_pos demo_vel 49152 /\
  tick_down [-32768; 0; 1; 32767] = tick_down_scalar [-32768; 0; 1; 32767] /\
  hand.tick_down Aarch64 [-32768; 0; 1; 32767] = tick_down_scalar [-32768; 0; 1; 32767].
Proof.
  split; [reflexivity|].
  apply (kernels_agree Aarch64 demo_pos demo_vel [-32768; 0; 1; 32767] 49152); [reflexivity|lia|].
  repeat constructor; ranges; lia.
Defined.

(** On coordinates of the map the integrator is addition modulo the span. *)
Lemma wrap_scalar_mod span p v :
  0 < span <= 2 ^ 30 -> 0 <= p < span -> - span <= v <= span -> wrap_scalar span p v = (p + v) mod span.
Proof.
  intros Hs Hp Hv. unfold wrap_scalar. change (2 ^ 30) with 1073741824 in Hs. rewrite wadd_small by (ranges; lia).
  destruct (p + v <? 0) eqn:E1; bool_hyps; [|destruct (span <=? p + v) eqn:E2; bool_hyps].
  - rewrite wadd_small by (ranges; lia). apply (Z.mod_unique _ _ (-1)); lia.
  - rewrite wsub_small by (ranges; lia). apply (Z.mod_unique _ _ 1); lia.
  - by rewrite Z.mod_small by lia.
Qed.
