(* ===== verification/SimDamage.v ===== *)
(** * The damage pipeline

    [crates/don-sim/src/mechanics.rs], first half: [hash_into_range], the
    direction classifiers and the thirty-one steps of [damage_traced].  The
    local variables the steps update are the record [St]; each step is one
    function, in the order of the source, and [None] is the panic of
    [idiv_trapping]. *)

From S2P Require Import Prelude SimArith.
#[local] Open Scope i32_scope.
#[local] Open Scope Z_scope.

Module Mechanics.

Definition hash_into_range (a b lo hi : Z) : Z :=
  let divisor := wabs (hi -w lo) +w 1 in
  Z.rem (a *w a *w b) divisor +w lo.

Definition div100 (x : Z) : Z := x /t 100.
Definition div256 (x : Z) : Z := x /t 256.

(** [struct CombatRules]. *)
Record CombatRules := mkCombatRules {
  height_increment : Z; height_bonus : Z; flank_bonus : Z; cavalry_flank_bonus : Z; vehicle_flank_bonus : Z;
  rocky_modifier : Z; overkill_frames : Z; overkill_damage : Z; entrenchment_modifier : Z; river_modifier : Z;
  recapture_city_modifier : Z; red_fort_air_defense : Z; rule_0x558 : Z; rule_0x76c : Z; rule_0xb98 : Z }.

(** [struct DamageInput]. *)
Record DamageInput := mkDamageInput {
  balance_pct : Z; attack : Z; armor : Z; attacker_masks : Z; defender_masks : Z;
  attack_dir : Z; splash_flag : Z; overkill_gate : Z;
  attacker_player : Z; attacker_type_id : Z; attacker_domain : Z; attacker_splash_percent : Z;
  attacker_type_0x40 : Z; attacker_z : Z; attacker_flag8_bit5 : bool;
  defender_type_id : Z; defender_domain : Z; defender_type_0x2b8_bit2 : bool; defender_splash_divisor : Z;
  defender_flags_0x68 : Z; defender_flags_0x6c_bit12 : bool; defender_z : Z; defender_facing : Z;
  defender_facing_entrench : Z; defender_overkill_stamp : Z; defender_word_0xa4 : Z; attacker_vf_0xe4 : Z;
  current_frame : Z; game_flag_0x821_bit1 : bool; tile_rocky : bool; tile_owner : Z }.

(** [struct DamagePredicates]. *)
Record DamagePredicates := mkDamagePredicates {
  mask_fixup_authorised : bool;
  attacker_vf_0x18 : bool; attacker_vf_0x1c : bool; attacker_vf_0x20 : bool; attacker_vf_0x130 : bool;
  attacker_type_vf_0x10c : bool; attacker_table_vf_0x20 : bool;
  defender_vf_0x18 : bool; defender_vf_0x1c : bool; defender_vf_0x20 : bool; defender_vf_0x120 : bool;
  defender_vf_0xcc : bool; defender_vf_0xd0 : bool; defender_vf_0xd8 : bool; defender_type_vf_0x10c : bool;
  defender_build_flag : bool; defender_build_0x20 : bool; recapture_owner_matches : bool;
  defender_carrier_vf_0x184 : bool; defender_carrier_vf_0x20 : bool; defender_mount_attack_is_zero : bool;
  attacker_tech_0x42 : bool; attacker_tech_0x139 : bool; attacker_tech_0x83 : bool;
  defender_tech_0x216 : bool; defender_tech_0x143 : bool; defender_tech_0x109 : bool;
  step10_bonus_applies : bool; step11_player_prop_0xf : bool; step27_player_prop_0xd : bool;
  step12_team_differs : bool; game_mode_is_2 : bool }.

(** [struct UnreachedTerms]. *)
Record UnreachedTerms := mkUnreachedTerms { rule_0xbbc : Z; rule_0x794 : Z; step11_player_level : Z }.

Definition flank_level (delta : Z) : Z :=
  if 0xD5555555 <? delta then 0
  else if 0x40000000 <? u32 (delta - 0x60000000) then 2
  else 1.

Definition entrench_dir_level (delta : Z) : Z :=
  if 0xAAAAAAAB <? u32 (delta - 0x2AAAAAAA) then 0
  else if 0x40000000 <? u32 (delta - 0x60000000) then 2
  else 1.

Definition balance_index (attacker_type_id defender_type_id : Z) : Z := attacker_type_id *w 493 +w defender_type_id.

Definition get_attack (type_attack : Z) (upgrade_applies : bool) (military_level rules_0x8b8 : Z) : Z :=
  if upgrade_applies then type_attack +w (military_level *w rules_0x8b8 *w 10) else type_attack.
Definition get_armor (type_armor : Z) (upgrade_applies : bool) (military_level rules_0x8b8 : Z) : Z :=
  if upgrade_applies then type_armor +w (military_level *w rules_0x8b8) else type_armor.

(** [facing as u32 - attack_dir as u32 - 0x8000_0000]. *)
Definition half_turn_delta (facing attack_dir : Z) : Z := u32 (u32 (u32 facing - u32 attack_dir) - 0x80000000).

(** Some bit of [mask] is set in [m]. *)
Definition any (m mask : Z) : bool := negb (Z.land m mask =? 0).

(** ** The steps *)

(** The locals [d], [arm], [am] and the trace [t]. *)
Record St := mkSt { d : Z; arm : Z; am : Z; t : Z }.
Definition set_d (x : Z) (s : St) : St := mkSt x (arm s) (am s) (t s).
Definition set_arm (x : Z) (s : St) : St := mkSt (d s) x (am s) (t s).
Definition trace (k : Z) (s : St) : St := mkSt (d s) (arm s) (am s) (Z.lor (t s) (Z.shiftl 1 k)).
(** [d = x; t |= 1 << k]. *)
Definition put (k x : Z) (s : St) : St := trace k (set_d x s).

Section Chain.
Context (i : DamageInput) (p : DamagePredicates) (r : CombatRules) (u : UnreachedTerms).

Definition dm : Z := defender_masks i.

Definition step0 : St :=
  let s := mkSt 0 (armor i) (attacker_masks i) 0 in
  if ((attacker_type_id i =? 0x1BC) || (attacker_type_id i =? 0x1BB) || attacker_flag8_bit5 i) && mask_fixup_authorised p
  then trace 0 (mkSt (d s) (arm s) (Z.lor (Z.land (am s) 0xFFFDFFFF) 0x40) (t s))
  else s.

Definition step1 (s : St) : St := set_d (div100 (attack i *w balance_pct i)) s.

Definition step2 (s : St) : St :=
  if any (am s) 0x8 then trace 1 (set_arm (div100 (arm s *w 133)) s) else s.

Definition step3 (s : St) : St :=
  if attacker_table_vf_0x20 p && any dm 0x00040000 && defender_vf_0x18 p && defender_type_0x2b8_bit2 i
     && negb (any (defender_flags_0x68 i) 0x00080000)
  then put 2 (d s /t 3) s else s.

Definition step4 (s : St) : St :=
  if attacker_vf_0x20 p && defender_vf_0x18 p && defender_vf_0x120 p && defender_vf_0xd8 p then
    if any dm 0x20 then put 3 (d s *w 3 /t 4) s
    else if defender_type_vf_0x10c p || defender_vf_0xcc p || defender_vf_0xd0 p then put 4 (d s /t 2) s
    else s
  else s.

Definition step5 (s : St) : St :=
  if attacker_vf_0x20 p && defender_vf_0x20 p && negb (defender_build_flag p) then put 5 (d s *w 4) s else s.

Definition step6 (s : St) : St :=
  if defender_vf_0x20 p then
    let id_hit := (attacker_type_id i =? 0x32) || (attacker_type_id i =? 0x33)
                  || (attacker_type_id i =? 0x34) || (attacker_type_id i =? 0x35) in
    if (id_hit || attacker_tech_0x42 p) && negb (tile_owner i =? i32 (attacker_player i)) then put 6 (d s /t 2) s
    else s
  else s.

Definition step7 (s : St) : St :=
  if attacker_tech_0x139 p && defender_vf_0x20 p && negb (defender_build_flag p) then put 7 (d s /t 2) s else s.

Definition step8 (s : St) : St :=
  if attacker_vf_0x18 p && (attacker_domain i =? 2) && negb (any (attacker_masks i) 0x08000000)
     && defender_tech_0x216 p
  then put 8 (div100 (d s *w (100 -w red_fort_air_defense r))) s else s.

Definition step9 (s : St) : St :=
  if defender_vf_0x18 p then
    let c := any (defender_flags_0x68 i) 0x00080000 in
    let s := if c then put 9 (d s +w d s) s else s in
    if defender_type_0x2b8_bit2 i && negb c then trace 10 (set_arm (arm s +w 1) s) else s
  else s.

Definition step10 (s : St) : St :=
  if step10_bonus_applies p then put 11 (d s +w rule_0xbbc u) s else s.

Definition step11 (s : St) : St :=
  if step11_player_prop_0xf p && (attacker_type_0x40 i =? 0x1AB) then
    let m := if rule_0x794 u <? 0 then wneg (rule_0x794 u *w step11_player_level u) else rule_0x794 u in
    put 12 (div100 ((m +w 100) *w d s)) s
  else s.

Definition step12 (s : St) : St :=
  if (attacker_vf_0x20 p || ((attacker_domain i =? 0) && negb (defender_domain i =? 0))) && defender_vf_0x18 p then
    let by_flag := any (defender_flags_0x68 i) 0x00400000 in
    let by_team := (defender_domain i =? 1) && game_mode_is_2 p && step12_team_differs p in
    if by_flag || by_team then put 13 (d s +w d s) s else s
  else s.

(** Steps 13 to 16, the splash block. *)
Definition step13 (s : St) : option St :=
  if defender_vf_0x18 p then q ← idiv (d s) (defender_splash_divisor i); Some (put 14 q s) else Some s.
Definition step14 (s : St) : St := put 15 (div100 (attacker_splash_percent i *w d s)) s.
Definition step15 (s : St) : St :=
  if defender_type_vf_0x10c p && defender_type_0x2b8_bit2 i && negb (any (defender_flags_0x68 i) 0x00080000)
  then put 16 (d s *w 3) s else s.
Definition step16 (s : St) : St :=
  if defender_tech_0x143 p then put 17 (div100 (d s *w 25)) s else s.
Definition splash_block (s : St) : option St :=
  if negb (splash_flag i =? 0) then
    s ← step13 s;
    let s := step14 s in
    Some (if defender_vf_0x18 p then step16 (step15 s) else s)
  else Some s.

Definition step17 (s : St) : St :=
  if defender_vf_0x18 p && (defender_z i <? 0) then put 18 (div256 (river_modifier r *w d s)) s else s.

Definition step18 (s : St) : St :=
  if defender_vf_0x18 p && any (defender_flags_0x68 i) 1 then
    put 19 (Z.max (d s) (attack i) *w 1000) (set_arm 0 s)
  else s.

Definition step19 (s : St) : St :=
  if defender_vf_0x1c p && defender_carrier_vf_0x184 p && negb (game_flag_0x821_bit1 i) then
    let s := set_arm 0 s in
    if negb (defender_carrier_vf_0x20 p) || defender_mount_attack_is_zero p then put 20 (d s *w 4) s else s
  else s.

Definition step20_guard (am : Z) : bool :=
  attacker_vf_0x18 p && defender_vf_0x18 p && negb (any am 4) && negb (any dm 4)
  && negb (any am 0x10000000) && negb (any dm 0x10000000)
  && (Z.land am 0x2000 =? Z.land dm 0x2000) && negb (any dm 0x2000).
Definition step20_pct : Z :=
  if any dm 0x00200000 then div256 (vehicle_flank_bonus r *w flank_bonus r)
  else if any dm 0x1000 then div256 (cavalry_flank_bonus r *w flank_bonus r)
  else flank_bonus r.
Definition step20 (s : St) : St :=
  if step20_guard (am s) then
    let delta := half_turn_delta (defender_facing i) (attack_dir i) in
    if 0x2AAAAAAA <=? delta then
      let lvl := flank_level delta in
      if negb (lvl =? 0) then put 21 (div100 ((step20_pct *w lvl +w 100) *w d s)) s else s
    else s
  else s.

Definition step21 (s : St) : St := set_d ((d s +w 5) /t 10) s.
Definition step22 (s : St) : St := set_d (d s -w arm s) s.

Definition step23 (s : St) : St :=
  if negb (overkill_gate i =? 0) && attacker_vf_0x130 p && attacker_vf_0x18 p && defender_vf_0x18 p then
    let stamp := defender_overkill_stamp i in
    if negb (stamp =? 0) && (current_frame i -w stamp <? overkill_frames r)
       && negb (attacker_vf_0xe4 i =? defender_word_0xa4 i)
    then
      let s := put 22 (div256 (overkill_damage r *w d s)) s in
      if defender_tech_0x109 p && negb (attacker_type_vf_0x10c p) then put 23 (d s /t 2) s else s
    else s
  else s.

Definition step24 (s : St) : St :=
  if any dm 0x00010108 && tile_rocky i then put 24 (div256 (rocky_modifier r *w d s)) s else s.

Definition step25_guard : bool :=
  negb (defender_domain i =? 2) && negb (attacker_domain i =? 2) && negb (attacker_type_vf_0x10c p)
  && (defender_z i <? attacker_z i).
Definition step25 (s : St) : option St :=
  if step25_guard then
    let dz := attacker_z i -w defender_z i in
    let num := dz *w height_bonus r *w d s in
    let den := height_increment r *w 100 in
    q ← idiv num den;
    Some (put 25 (d s +w q) s)
  else Some s.

Definition step26 (s : St) : St :=
  if defender_vf_0x18 p && any (defender_flags_0x68 i) 0x02000000 && negb (attacker_tech_0x83 p) then
    let dir := entrench_dir_level (half_turn_delta (defender_facing_entrench i) (attack_dir i)) in
    if negb (splash_flag i =? 0) || (dir =? 0) then
      let s := put 26 (div256 (entrenchment_modifier r *w d s)) s in
      if defender_flags_0x6c_bit12 i then set_d (div256 (rule_0xb98 r *w d s)) s else s
    else s
  else s.

Definition step27 (s : St) : St :=
  if negb (rule_0x76c r =? 0) && step27_player_prop_0xd p && attacker_vf_0x18 p
     && (attacker_type_0x40 i =? 0x1AC) && (defender_vf_0xcc p || defender_type_vf_0x10c p)
  then set_d (div100 ((rule_0x76c r +w 100) *w d s)) s else s.

Definition floored (am : Z) : bool :=
  let masks_agree := Z.land dm 0x10000000 =? Z.land (Z.shiftr am 3) 0x10000000 in
  let land_vs_sea := (attacker_domain i =? 0) && (defender_domain i =? 1) in
  negb land_vs_sea && masks_agree && (splash_flag i =? 0).
Definition step28 (s : St) : St :=
  if (d s <? 1) && floored (am s) then put 27 1 s else s.

Definition immune : bool := (defender_type_id i =? 0x21D) && (attacker_domain i =? 2) && negb (rule_0x558 r =? 0).
Definition step29 (s : St) : St := if immune then put 28 0 s else s.

Definition recapture : bool :=
  defender_vf_0x20 p && defender_build_flag p && defender_build_0x20 p && recapture_owner_matches p.
Definition step30 (s : St) : St :=
  if recapture then put 29 (div256 (recapture_city_modifier r *w d s)) s else s.

(** Before and after the two places that can trap. *)
Definition before_splash : St :=
  step12 (step11 (step10 (step9 (step8 (step7 (step6 (step5 (step4 (step3 (step2 (step1 step0))))))))))).
Definition to_height (s : St) : St := step24 (step23 (step22 (step21 (step20 (step19 (step18 (step17 s))))))).
Definition after_height (s : St) : St := step30 (step29 (step28 (step27 (step26 s)))).

Definition damage_traced : option (Z * Z) :=
  s ← splash_block before_splash;
  s ← step25 (to_height s);
  let s := after_height s in
  Some (d s, t s).

Definition damage : option Z := fst <$> damage_traced.

End Chain.

(** ** Ranges *)

Lemma div100_i32 x : is_i32 x -> is_i32 (div100 x).
Proof. intros. by apply quot_i32_pos. Qed.
Lemma div256_i32 x : is_i32 x -> is_i32 (div256 x).
Proof. intros. by apply quot_i32_pos. Qed.
#[local] Hint Resolve div100_i32 div256_i32 : i32.

(** The fields that reach [d] and [arm] without an operation are [i32]s. *)
Definition input_ok (i : DamageInput) : Prop := is_i32 (armor i) /\ is_i32 (attack i).
Definition st_ok (s : St) : Prop := is_i32 (d s) /\ is_i32 (arm s).

Ltac step_cases := repeat case_match; cbn [d arm am t put trace set_d set_arm] in *.
Ltac ranges_of_step :=
  intros [? ?]; step_cases; split; cbn [d arm am t put trace set_d set_arm] in *; auto with i32.

Ltac head t := match t with ?f _ => head f | _ => t end.
(** Each step keeps the ranges: peel the steps off one by one. *)
Ltac keep_ranges :=
  repeat lazymatch goal with
  | |- st_ok (?f ?s) =>
      cut (st_ok s); [generalize s; intros ?; let h := head f in unfold h; solve [ranges_of_step]|]
  end.

Lemma zero_i32 : is_i32 0.
Proof. unfold in_s. lia. Qed.
Lemma one_i32 : is_i32 1.
Proof. unfold in_s. lia. Qed.
#[local] Hint Resolve zero_i32 one_i32 : i32.

Section Chain.
Context (i : DamageInput) (p : DamagePredicates) (r : CombatRules) (u : UnreachedTerms).

Lemma before_splash_ok : input_ok i -> st_ok (before_splash i p r u).
Proof.
  intros [Ha Hk]. unfold before_splash.
  assert (S1 : st_ok (step1 i (step0 i p))) by (unfold step1, step0; case_match; split; cbn; auto with i32).
  revert S1. generalize (step1 i (step0 i p)). intros s Hs. by keep_ranges.
Qed.

(** The two divisors the engine does not check. *)
Definition divisors_ok : Prop :=
  (splash_flag i <> 0 -> defender_vf_0x18 p = true -> defender_splash_divisor i <> 0 /\ defender_splash_divisor i <> -1) /\
  (step25_guard i p = true -> height_increment r *w 100 <> 0 /\ height_increment r *w 100 <> -1).

Lemma idiv_defined num den : den <> 0 -> den <> -1 -> idiv num den = Some (num /t den).
Proof. intros H0 H1. destruct (idiv num den) eqn:E; [|apply idiv_None in E; lia]. unfold idiv in E. by case_match. Qed.

Lemma splash_block_ok s : divisors_ok -> st_ok s -> exists s', splash_block i p s = Some s' /\ st_ok s'.
Proof.
  intros [Hs _] Hok. unfold splash_block. destruct (Z.eqb_spec (splash_flag i) 0) as [|Hne]; [by eexists|]. cbn [negb].
  assert (exists s', step13 i p s = Some s' /\ st_ok s') as (s1 & -> & H1).
  { unfold step13. destruct (defender_vf_0x18 p) eqn:E; [|by eexists]. destruct (Hs Hne eq_refl) as [? ?].
    rewrite idiv_defined by done. eexists. split; [reflexivity|]. destruct Hok. split; cbn; [|done].
    apply quot_i32; [done|done|lia]. }
  cbn [mbind option_bind]. eexists. split; [reflexivity|].
  destruct (defender_vf_0x18 p); by keep_ranges.
Qed.

Lemma to_height_ok s : input_ok i -> st_ok s -> st_ok (to_height i p r s).
Proof.
  intros [_ Hk] H. unfold to_height.
  by keep_ranges.
Qed.

Lemma after_height_ok s : st_ok s -> st_ok (after_height i p r s).
Proof.
  intros H. unfold after_height.
  by keep_ranges.
Qed.

(** The pipeline is total on data the engine can survive: with divisors that
    are neither 0 nor -1 it does not trap, and the damage is an [i32]. *)
Theorem damage_defined : input_ok i -> divisors_ok -> exists x, damage i p r u = Some x /\ is_i32 x.
Proof.
  intros Hi Hd. unfold damage, damage_traced.
  destruct (splash_block_ok _ Hd (before_splash_ok Hi)) as (s & -> & Hs). cbn [mbind option_bind].
  pose proof (to_height_ok s Hi Hs) as Hh.
  assert (exists s', step25 i p r (to_height i p r s) = Some s' /\ st_ok s') as (s' & -> & Hs').
  { unfold step25. destruct (step25_guard i p) eqn:E; [|by eexists]. destruct Hd as [_ Hd].
    destruct (Hd E). rewrite idiv_defined by done. eexists. split; [reflexivity|].
    destruct Hh. split; cbn; auto with i32. }
  cbn. eexists. split; [reflexivity|]. by apply after_height_ok.
Qed.

(** The attacker's masks are only changed at the start. *)
Ltac keep_masks :=
  repeat lazymatch goal with
  | |- am (?f ?s) = _ =>
      transitivity (am s); [generalize s; intros ?; let h := head f in unfold h; step_cases; reflexivity|]
  end.

Lemma before_splash_am : am (before_splash i p r u) = am (step0 i p).
Proof. unfold before_splash. generalize (step0 i p). intros s. by keep_masks. Qed.

Lemma splash_block_am s s' : splash_block i p s = Some s' -> am s' = am s.
Proof.
  unfold splash_block, step13. destruct (negb _); [|by intros [= <-]].
  destruct (defender_vf_0x18 p); [destruct (idiv _ _); [|done]|]; cbn [mbind option_bind]; intros [= <-]; by keep_masks.
Qed.

Lemma step25_am s s' : step25 i p r s = Some s' -> am s' = am s.
Proof.
  unfold step25. destruct (step25_guard i p); [|by intros [= <-]]. destruct (idiv _ _); [|done]. by intros [= <-].
Qed.

Lemma to_height_am s : am (to_height i p r s) = am s.
Proof. unfold to_height. by keep_masks. Qed.

Lemma last_steps s x :
  d (after_height i p r s) = x -> floored i (am s) = true -> immune i r = false -> recapture p = false -> 1 <= x.
Proof.
  intros <- Hf Hi Hr. unfold after_height, step30, step29. rewrite Hi, Hr.
  assert (Ha : am (step27 i p r (step26 i p r s)) = am s) by by keep_masks.
  revert Ha. generalize (step27 i p r (step26 i p r s)). intros s' Ha. unfold step28. rewrite Ha, Hf.
  destruct (Z.ltb_spec (d s') 1); cbn; lia.
Qed.

(** Every ordinary direct hit lands: unless the target is immune or a city
    being recaptured, a hit that is not splash, not land against sea, and
    between matching mask classes does at least one point, whatever the
    modifiers did before. *)
Theorem direct_hit_floor x tr :
  damage_traced i p r u = Some (x, tr) ->
  floored i (am (step0 i p)) = true -> immune i r = false -> recapture p = false -> 1 <= x.
Proof.
  unfold damage_traced. intros H Hf Hi Hr.
  destruct (splash_block i p _) as [s1|] eqn:E1; [|done]. cbn [mbind option_bind] in H.
  destruct (step25 i p r _) as [s2|] eqn:E2; [|done]. cbn in H. injection H as Hx _.
  apply (last_steps s2); try done.
  by rewrite (step25_am _ _ E2), to_height_am, (splash_block_am _ _ E1), before_splash_am.
Qed.

(** ** The trace is complete *)

Lemma lor_bit a k : 0 <= k -> Z.lor a (Z.shiftl 1 k) <> 0.
Proof.
  intros Hk E. assert (Z.testbit (Z.lor a (Z.shiftl 1 k)) k = true).
  { rewrite Z.lor_spec, Z.shiftl_1_l, Z.pow2_bits_true by lia. apply orb_true_r. }
  by rewrite E, Z.bits_0 in H.
Qed.

(** A step that left no trace changed nothing. *)
Ltac untraced_step :=
  step_cases; let Hz := fresh "Hz" in intros Hz; try reflexivity;
  try (exfalso; revert Hz; apply lor_bit; lia).

(** The plain formula: ten times the attack, scaled by the balance percent,
    rounded to points, less the armour. *)
Definition plain : Z := (div100 (attack i *w balance_pct i) +w 5) /t 10 -w armor i.

Ltac peel H :=
  lazymatch type of H with
  | t (?f ?s) = 0 =>
      let E := fresh "E" in
      assert (E : f s = s);
      [revert H; generalize s; let s' := fresh "s" in intros s'; let h := head f in unfold h; untraced_step
      |rewrite E in *; clear E]
  end.

Lemma splash_untraced s s' : splash_block i p s = Some s' -> t s' = 0 -> s' = s.
Proof.
  unfold splash_block. destruct (negb _); [|by intros [= <-]].
  destruct (step13 i p s) as [s1|]; [|done]. cbn [mbind option_bind]. intros [= <-] H.
  assert (t (step14 i s1) = 0) as C by (destruct (defender_vf_0x18 p); [do 2 peel H|]; exact H).
  exfalso. revert C. apply lor_bit. lia.
Qed.

Lemma height_untraced s s' : step25 i p r s = Some s' -> t s' = 0 -> s' = s.
Proof.
  unfold step25. destruct (step25_guard i p); [|by intros [= <-]]. destruct (idiv _ _) as [q|]; [|done].
  intros [= <-] H. exfalso. revert H. apply lor_bit. lia.
Qed.

(** The two modifiers that leave no bit. *)
Definition unmarked : bool :=
  (defender_vf_0x1c p && defender_carrier_vf_0x184 p && negb (game_flag_0x821_bit1 i)) ||
  (negb (rule_0x76c r =? 0) && step27_player_prop_0xd p && attacker_vf_0x18 p && (attacker_type_0x40 i =? 0x1AC)
   && (defender_vf_0xcc p || defender_type_vf_0x10c p)).

(** The trace accounts for the result: when no bit is set, and neither of the
    two modifiers that have no bit applies, the damage is the plain formula,
    so every deviation from it is reported. *)
Theorem trace_complete x :
  damage_traced i p r u = Some (x, 0) -> unmarked = false -> x = plain.
Proof.
  unfold damage_traced, unmarked. intros H [U19 U27]%orb_false_iff.
  destruct (splash_block i p _) as [s1|] eqn:E1; [|done]. cbn [mbind option_bind] in H.
  destruct (step25 i p r _) as [s2|] eqn:E2; [|done]. cbn in H. injection H as <- Ht.
  unfold after_height in *. do 3 peel Ht.
  assert (E27 : step27 i p r (step26 i p r s2) = step26 i p r s2) by (unfold step27; by rewrite U27).
  rewrite E27 in *. peel Ht. apply height_untraced in E2; [|done]. subst s2.
  unfold to_height in *. do 2 peel Ht. cbn [t step22 step21 set_d] in Ht. peel Ht.
  assert (E19 : forall s, step19 i p s = s) by (intros; unfold step19; by rewrite U19).
  rewrite E19 in *. do 2 peel Ht. apply splash_untraced in E1; [|done]. subst s1.
  unfold before_splash in *. do 11 peel Ht. unfold step1, step0 in *. step_cases; [|done].
  exfalso. revert Ht. apply (lor_bit 0). lia.
Qed.
End Chain.

(** ** Directions and the range hash *)

(** The flank arcs of the pipeline: behind the guard [delta >= 0x2AAAAAAA],
    the tier is 2 on the two outer arcs, 1 on the middle one and 0 above. *)
Theorem flank_arcs delta :
  is_u32 delta -> 0x2AAAAAAA <= delta ->
  flank_level delta =
    (if delta <? 0x60000000 then 2 else if delta <=? 0xA0000000 then 1 else if delta <=? 0xD5555555 then 2 else 0).
Proof.
  unfold in_u. intros Hd Hg. unfold flank_level, wrap_u.
  destruct (Z.ltb_spec 0xD5555555 delta).
  - destruct (Z.ltb_spec delta 0x60000000), (Z.leb_spec delta 0xA0000000), (Z.leb_spec delta 0xD5555555); lia.
  - destruct (Z.ltb_spec delta 0x60000000).
    + replace ((delta - 1610612736) mod 2 ^ 32) with (delta - 1610612736 + 2 ^ 32) by (Z.div_mod_to_equations; lia).
      destruct (Z.ltb_spec 0x40000000 (delta - 1610612736 + 2 ^ 32)); lia.
    + rewrite Z.mod_small by lia.
      destruct (Z.ltb_spec 0x40000000 (delta - 1610612736)), (Z.leb_spec delta 0xA0000000), (Z.leb_spec delta 0xD5555555); lia.
Qed.

(** The entrenchment classifier is the flank one but for the arc ahead: they
    agree from [0x2AAAAAAA] on, and below it the former is 0. *)
Lemma entrench_flank delta :
  is_u32 delta ->
  entrench_dir_level delta = (if (delta <? 0x2AAAAAAA) || (0xD5555555 <? delta) then 0 else flank_level delta).
Proof.
  unfold in_u. intros Hd. unfold entrench_dir_level.
  assert (E : (0xAAAAAAAB <? u32 (delta - 0x2AAAAAAA)) = (delta <? 0x2AAAAAAA) || (0xD5555555 <? delta)).
  { unfold wrap_u. destruct (Z.ltb_spec delta 0x2AAAAAAA).
    - replace ((delta - 0x2AAAAAAA) mod 2 ^ 32) with (delta - 0x2AAAAAAA + 2 ^ 32) by (Z.div_mod_to_equations; lia). lia.
    - rewrite Z.mod_small by lia. lia. }
  rewrite E. destruct ((delta <? 0x2AAAAAAA) || _) eqn:Eb; [done|].
  unfold flank_level. destruct (Z.ltb_spec 0xD5555555 delta); [lia|done].
Qed.

(** [hash_into_range] never divides by zero, and falls in the range when the
    wrapped product is not negative. *)
Lemma hash_into_range_spec a b lo hi :
  is_i32 lo -> is_i32 hi -> lo <= hi -> hi - lo < I32_MAX ->
  0 < wabs (hi -w lo) +w 1 /\
  (0 <= a *w a *w b -> lo <= hash_into_range a b lo hi <= hi).
Proof.
  unfold in_s, I32_MAX. intros Hlo Hhi Hle Hr. unfold hash_into_range.
  rewrite (wsub_small hi lo) by (unfold in_s; lia). unfold wabs. rewrite Z.abs_eq, wrap_s_id by (unfold in_s; lia).
  rewrite (wadd_small (hi - lo) 1) by (unfold in_s; lia). split; [lia|]. intros Hp.
  pose proof (Z.rem_bound_pos (a *w a *w b) (hi - lo + 1) Hp ltac:(lia)).
  rewrite wadd_small by (unfold in_s; lia). lia.
Qed.

(** ** An example *)

Definition shipped : CombatRules := mkCombatRules 200 10 50 40 33 170 30 85 170 512 512 33 0 25 204.
Definition no_terms : UnreachedTerms := mkUnreachedTerms 0 0 0.
(** No predicate holds. *)
Definition nothing : DamagePredicates :=
  mkDamagePredicates false false false false false false false false false false false false false false false
    false false false false false false false false false false false false false false false false false.
(** Two units. *)
Definition units : DamagePredicates :=
  mkDamagePredicates false true false false false false false true false false false false false false false
    false false false false false false false false false false false false false false false false false.
(** Attack 20.0 at 150 percent against armour 4, from [attack_dir]. *)
Definition hit (attack_dir : Z) : DamageInput :=
  mkDamageInput 150 200 4 0 0 attack_dir 0 0 0 1 0 0 0 0 false 2 0 false 0 0 false 0 0 0 0 0 0 100 false false 0.

Lemma damage_defined_witness : exists x, damage (hit 0) units shipped no_terms = Some x /\ is_i32 x /\ x = 41.
Proof.
  destruct (damage_defined (hit 0) units shipped no_terms) as (x & E & Hx).
  - split; unfold in_s; cbn; lia.
  - split; [done|]. intros _. vm_compute. done.
  - exists x. split; [done|]. split; [done|]. vm_compute in E. by injection E.
Defined.

Lemma direct_hit_floor_witness :
  exists x tr, damage_traced (hit 0) units shipped no_terms = Some (x, tr) /\ 1 <= x.
Proof.
  eexists _, _. split; [vm_compute; reflexivity|].
  eapply (direct_hit_floor (hit 0) units shipped no_terms); [vm_compute; reflexivity|reflexivity..].
Defined.

Lemma trace_complete_witness :
  exists x, damage_traced (hit 0) nothing shipped no_terms = Some (x, 0) /\ x = plain (hit 0) /\ x = 26.
Proof.
  eexists. split; [vm_compute; reflexivity|]. split; [|reflexivity].
  apply (trace_complete (hit 0) nothing shipped no_terms); [vm_compute; reflexivity|reflexivity].
Defined.

Lemma flank_arcs_witness : flank_level 0x60000000 = 1 /\ flank_level 0x5FFFFFFF = 2.
Proof.
  split; [apply (flank_arcs 0x60000000)|apply (flank_arcs 0x5FFFFFFF)]; unfold in_u; lia.
Defined.
End Mechanics.
