(* ===== verification/SimCombat.v ===== *)
(** * Combat: geometry, the attack clock, overkill, splash and hit points

    [crates/don-sim/src/systems/combat.rs], sections 1 to 10; the corpse ring
    and the checksum channels are in [SimDeaths.v].  [None] is a panic, and a
    [DivideError] is the [Err] the scaling functions return where the engine's
    [idiv] would fault. *)

From S2P Require Import Prelude SimArith SimDamage.
From Stdlib Require String.
Import (notations) String.
#[local] Open Scope string_scope.
#[local] Open Scope list_scope.
#[local] Open Scope i32_scope.
#[local] Open Scope Z_scope.

Module Combat.

(** [struct CombatConstants] and the shipped values. *)
Record CombatConstants := mkCombatConstants {
  unit_respond_range : Z; unit_defensive_respond_range : Z; unit_guard_respond_range : Z;
  unit_build_respond_range : Z; unit_gather_respond_range : Z; aircraft_respond_range : Z;
  bomber_respond_range : Z; ship_defensive_respond_range : Z;
  target_radius : Z; range_inaccuracy : Z;
  height_increment : Z; height_bonus : Z; flank_bonus : Z; cavalry_flank_bonus : Z; vehicle_flank_bonus : Z;
  rocky_modifier : Z; overkill_frames : Z; overkill_damage : Z; entrenchment_modifier : Z; river_modifier : Z;
  recapture_city_modifier : Z;
  red_fort_air_defense : Z; super_immune : Z; russian_cossack_damage : Z; japanese_damage : Z;
  dutch_attack_bonus : Z; antipater_entrench_bonus : Z; wellington_siege_attack : Z;
  artillery_under_attack_fires_slowly : Z;
  commando_min_damage : Z; special_min_damage : Z; elite_min_damage : Z }.

Definition shipped : CombatConstants :=
  mkCombatConstants 12 4 8 12 32 10 12 8 96 2 200 10 50 40 33 170 30 85 170 512 512 33 0 25 (-5) 1 204 1 1 200 400 800.

Definition RANGE_UNITS_PER_TILE : Z := 192.
Definition SPLASH_MIN_RANGE_RADIUS : Z := 0x180.

(** ** Geometry *)

Definition vector_dist (dx dy : Z) : option Z :=
  let a := u32 (wabs dx) in
  let b := u32 (wabs dy) in
  let '(big, small) := if b <? a then (a, b) else (b, a) in
  if big =? 0 then Some 0
  else if 60000 <=? small then Some (i32 (Z.shiftr (u32 (small + u32 (big * 2))) 1))
  else if u32 (big * 2) =? 0 then None
  else Some (i32 (u32 (u32 (small * small) / u32 (big * 2) + big))).

Definition vector_dist_between (ax ay bx by_ : Z) : option Z :=
  vector_dist (wabs (ax -w bx)) (wabs (ay -w by_)).

Definition CIRCLE_MAX_RING : nat := 0x40.
Definition CIRCLE_MAX_ENTRIES : Z := 0x3248.

(** [struct CircleTable]; the offsets are [i8]s. *)
Record CircleTable := mkCircleTable { cx : list Z; cy : list Z; ring_end : list Z }.

(** [-r..=r]. *)
Definition span (r : nat) : list Z := map (fun k => Z.of_nat k - Z.of_nat r) (seq 0 (2 * r + 1)).
(** The cells in the order of the two inner loops. *)
Definition square (r : nat) : list (Z * Z) := flat_map (fun x => map (pair x) (span r)) (span r).

Definition at_dist (r : Z) (c : Z * Z) : bool := match vector_dist c.1 c.2 with Some z => z =? r | None => false end.

(** The inner loops of ring [r] from count [n]: the cells pushed, the count,
    and whether the entry cap was passed. *)
Fixpoint emit (r : nat) (cs : list (Z * Z)) (n : nat) : list (Z * Z) * nat * bool :=
  match cs with
  | [] => ([], n, false)
  | c :: cs =>
      if at_dist (Z.of_nat r) c then
        if CIRCLE_MAX_ENTRIES <? Z.of_nat (S n) then ([c], S n, true)
        else let '(out, n, over) := emit r cs (S n) in (c :: out, n, over)
      else emit r cs n
  end.

(** The ring loop: on overflow the remaining ring ends are the count. *)
Fixpoint rings (rs : list nat) (n : nat) : list (Z * Z) * list Z :=
  match rs with
  | [] => ([], [])
  | r :: rs' =>
      let '(cells, n, over) := emit r (square r) n in
      if over then (cells, replicate (length rs) (Z.of_nat n))
      else let '(more, ends) := rings rs' n in (cells ++ more, Z.of_nat n :: ends)
  end.

Definition cells_of (c : list (Z * Z) * list Z) : CircleTable :=
  mkCircleTable (map (fun p => i8 (fst p)) (fst c)) (map (fun p => i8 (snd p)) (fst c)) (snd c).
Definition circle_table : CircleTable := cells_of (rings (seq 0 (S CIRCLE_MAX_RING)) 0).

(** ** Type-level stats *)

(** [struct TypeCombatStats]. *)
Record TypeCombatStats := mkTypeCombatStats {
  obj_masks : Z; attack_x10 : Z; to_hit : Z; attenuate : Z; recharge : Z; min_range : Z; max_range : Z;
  splash_area : Z; splash_percent : Z; ammo_per_att : Z; hits : Z; armor : Z; domain : Z; x_size : Z; y_size : Z;
  block_radius : Z; uber_size : Z; crew_size : Z; is_siege : bool; blocks_while_dead : bool }.

Definition DOMAIN_LAND : Z := 0.
Definition DOMAIN_SEA : Z := 1.
Definition DOMAIN_AIR : Z := 2.

(** [balance_percent]; the ids are below 493, so the index does not wrap. *)
Definition balance_percent (table : list Z) (attacker_type_id defender_type_id : Z) : option Z :=
  if negb ((0 <=? attacker_type_id) && (attacker_type_id <? 493)) ||
     negb ((0 <=? defender_type_id) && (defender_type_id <? 493)) then None
  else table !! Z.to_nat (attacker_type_id * 493 + defender_type_id).

(** ** The attack cycle *)

Record RechargeInput := mkRechargeInput {
  base_recharge : Z; ri_is_siege : bool; unit_masks2_bit0 : bool; in_supply : bool; is_bombard : bool }.

Definition recharge_frames (i : RechargeInput) (r : CombatConstants) : Z :=
  let base := base_recharge i in
  if negb (ri_is_siege i) then base
  else
    let rule_off_or_not_flagged := (artillery_under_attack_fires_slowly r =? 0) || negb (unit_masks2_bit0 i) in
    if rule_off_or_not_flagged && in_supply i then base
    else if is_bombard i then base *w 2
    else base *w 3 /t 2.

Record AttackCycle := mkAttackCycle { recharging : Z }.
Definition ready (c : AttackCycle) : bool := recharging c =? 0.
Definition fire (recharge : Z) (c : AttackCycle) : AttackCycle := mkAttackCycle (u8 recharge).
Definition tick (c : AttackCycle) : AttackCycle := mkAttackCycle (saturating_sub (recharging c) 1).

(** ** Range and target gating *)

Definition in_attack_range (attack_dist max_range_tiles : Z) : bool :=
  attack_dist <=? max_range_tiles *w RANGE_UNITS_PER_TILE.
Definition below_min_range (attack_dist min_range_tiles : Z) : bool :=
  (0 <? min_range_tiles) && (attack_dist <? min_range_tiles *w RANGE_UNITS_PER_TILE).

Record PoorTargetInput := mkPoorTargetInput {
  both_are_units : bool; target_guy_flag_0x40 : bool; attacker_has_objmask_high : bool; target_speed_here : Z;
  attacker_speed_here : Z; flank_level_from_behind : Z; attack_dist : Z; attacker_role_0x400 : bool;
  max_range_tiles : Z }.

Definition poor_target (i : PoorTargetInput) (flank_level : Z -> Z) : bool :=
  if negb (both_are_units i) then false
  else if target_guy_flag_0x40 i then
    if negb (attacker_has_objmask_high i) then true
    else max_range_tiles i *w RANGE_UNITS_PER_TILE <? attack_dist i
  else if target_speed_here i <=? attacker_speed_here i then false
  else if flank_level_from_behind i <=? 0x2AAAAAA9 then false
  else if flank_level (flank_level_from_behind i) <=? 1 then false
  else if attacker_role_0x400 i then max_range_tiles i *w RANGE_UNITS_PER_TILE <? attack_dist i
  else RANGE_UNITS_PER_TILE <? attack_dist i.

(** ** Overkill *)

Record OverkillState := mkOverkillState { damage_frame : Z; damage_o : Z; damage_who : Z }.

Definition overkill_should_stamp (st : OverkillState) (frame : Z) (r : CombatConstants) : bool :=
  (damage_frame st =? 0) || (overkill_frames r <=? frame -w damage_frame st).
Definition overkill_stamp (frame attacker_captain attacker_who : Z) (st : OverkillState) : OverkillState :=
  mkOverkillState frame attacker_captain attacker_who.
Definition overkill_block_runs (defender_is_unit suppress_arg8 : bool) : bool := defender_is_unit && negb suppress_arg8.
Definition double_on_unit_mask_0x10 (damage defender_unit_masks : Z) : Z :=
  if Mechanics.any defender_unit_masks 0x10 then damage +w damage else damage.

Definition overkill_attenuates (overkill_gate : bool) (attacker_max_range : Z) (attacker_is_unit defender_is_unit : bool)
    (attacker_captain : Z) (st : OverkillState) (frame : Z) (r : CombatConstants) : bool :=
  overkill_gate && negb (attacker_max_range =? 0) && attacker_is_unit && defender_is_unit
  && negb (damage_frame st =? 0) && (frame -w damage_frame st <? overkill_frames r)
  && negb (attacker_captain =? damage_o st).

Definition overkill_apply (damage : Z) (defender_is_catapult attacker_type_is_siege : bool) (r : CombatConstants) : Z :=
  let d := overkill_damage r *w damage /t 256 in
  if defender_is_catapult && negb attacker_type_is_siege then d /t 2 else d.

(** ** Scaling to points and sixteenths *)

Record ScaledDamage := mkScaledDamage { whole : Z; sixteenths : Z }.
(** [struct DivideError]. *)
Inductive DivideError := Divide (site : String.string).

Definition in_sixteenths (q : Z) : ScaledDamage :=
  let q16 := bias_shift 4 q in
  mkScaledDamage (bias_shift 4 q16) (i8 (Z.rem q16 16)).

Definition checked_div (num den : Z) (site : String.string) : result DivideError Z := ok_or (idiv num den) (Divide site).

Definition scale_damage_unit (damage scale_8_8 ammo_index ammo_per_att uber_size : Z) : result DivideError ScaledDamage :=
  let d := damage *w scale_8_8 in
  let d := if d <=? 0x100 then 0x100 else d in
  let? d := if 0 <=? ammo_index then checked_div d ammo_per_att "0x0064A735" else Ok d in
  let? q := checked_div d uber_size "0x0064A766" in
  Ok (in_sixteenths q).

Definition scale_damage_build (damage scale_8_8 ammo_per_att : Z) : result DivideError ScaledDamage :=
  let d := damage *w scale_8_8 in
  let? q := checked_div d ammo_per_att "0x0064A7CB" in
  Ok (in_sixteenths q).

(** ** Splash *)

Definition SPLASH_RING : nat := 1.

Record SplashCandidate := mkSplashCandidate {
  passes_search_filters : bool; owner_has_splash_immunity : bool; dist_to_primary_target : Z; dist_to_attacker : Z }.
Record SplashRadii := mkSplashRadii { target_footprint : Z; attacker_reach : Z }.

Definition splash_radii (primary_target_x_size primary_target_y_size attacker_max_range_tiles : Z) : SplashRadii :=
  let bigger := Z.max primary_target_x_size primary_target_y_size in
  let reach := attacker_max_range_tiles *w RANGE_UNITS_PER_TILE in
  mkSplashRadii (bigger *w RANGE_UNITS_PER_TILE)
    (if reach <? SPLASH_MIN_RANGE_RADIUS then SPLASH_MIN_RANGE_RADIUS else reach).

Definition splash_scale (scale_8_8 : Z) (attacker_is_siege : bool) (attacker_domain : Z) : Z :=
  if attacker_is_siege && (attacker_domain =? DOMAIN_LAND) then bias_shift 2 scale_8_8 else bias_shift 3 scale_8_8.

Definition splash_enabled (attacker_domain : Z) (attacker_is_siege : bool) : bool :=
  if attacker_domain =? DOMAIN_AIR then false
  else negb ((attacker_domain =? DOMAIN_SEA) && attacker_is_siege).

Definition splash_hits (c : SplashCandidate) (radii : SplashRadii) (attacker_is_siege_land : bool) : bool :=
  if negb (passes_search_filters c) || owner_has_splash_immunity c then false
  else if target_footprint radii <? dist_to_primary_target c then false
  else if attacker_is_siege_land then true
  else dist_to_attacker c <=? attacker_reach radii.

(** [struct SplashScan] and its tiles; an index past the table panics.  The
    origin is a tile of the map, far from the ends of [i32]. *)
Record SplashScan := mkSplashScan { scan_circle : CircleTable; origin_tile : Z * Z }.
Definition tiles (s : SplashScan) : option (list (Z * Z)) :=
  n ← ring_end (scan_circle s) !! SPLASH_RING;
  mapM (fun k => x ← cx (scan_circle s) !! k; y ← cy (scan_circle s) !! k;
                 Some (fst (origin_tile s) + x, snd (origin_tile s) + y)) (seq 0 (Z.to_nat n)).

(** ** Inputs of the damage chain *)

Definition flank_gate (attacker_is_unit defender_is_unit : bool) (am dm : Z) : bool :=
  attacker_is_unit && defender_is_unit && (Z.land am 4 =? 0) && (Z.land dm 4 =? 0)
  && (Z.land am 0x10000000 =? 0) && (Z.land dm 0x10000000 =? 0)
  && (Z.land am 0x2000 =? Z.land dm 0x2000) && (Z.land dm 0x2000 =? 0).

Definition flank_delta (defender_facing attack_dir : Z) : Z :=
  u32 (u32 (u32 defender_facing - u32 attack_dir) - 0x80000000).

Definition flank_percent (level defender_masks : Z) (r : CombatConstants) : Z :=
  let pct :=
    if Mechanics.any defender_masks 0x00200000 then vehicle_flank_bonus r *w flank_bonus r /t 256
    else if Mechanics.any defender_masks 0x1000 then cavalry_flank_bonus r *w flank_bonus r /t 256
    else flank_bonus r in
  pct *w level +w 100.

Definition height_bonus_add (damage attacker_z defender_z : Z) (r : CombatConstants) : result DivideError Z :=
  let dz := attacker_z -w defender_z in
  let num := dz *w height_bonus r *w damage in
  let den := height_increment r *w 100 in
  checked_div num den "0x00644D78".

Definition height_applies (attacker_domain defender_domain : Z) (attacker_type_is_siege : bool) (attacker_z defender_z : Z) : bool :=
  negb (defender_domain =? DOMAIN_AIR) && negb (attacker_domain =? DOMAIN_AIR) && negb attacker_type_is_siege
  && (defender_z <? attacker_z).

Definition COORD_XOR : Z := 0x00063637.
(** [raw ^ COORD_XOR] on [i32]. *)
Definition coord_unmask (raw : Z) : Z := Z.lxor raw COORD_XOR.

Definition entrench_applies (defender_is_unit : bool) (defender_unit_masks : Z) (attacker_is_flamethrower : bool) : bool :=
  defender_is_unit && Mechanics.any defender_unit_masks 0x02000000 && negb attacker_is_flamethrower.
Definition entrench_delta (defender_trench_angle attack_dir : Z) : Z :=
  u32 (u32 (u32 defender_trench_angle - u32 attack_dir) - 0x80000000).

(** ** Hit points and death *)

Record HitPoints := mkHitPoints { myhits : Z; damage : Z; damage_frac : Z }.

Definition hits_left (h : HitPoints) : Z :=
  let left := myhits h -w damage h in
  if (0 <=? left) && (0 <=? myhits h) then Z.min left (myhits h) else 0.

Definition accumulate (dmg frac : Z) (h : HitPoints) : Z * HitPoints :=
  let frac := if (dmg <? 1) && (frac <? 1) then 1 else frac in
  let u := i8 (damage_frac h + frac) in
  let dmg := dmg +w bias_shift 4 u in
  (dmg, mkHitPoints (myhits h) (damage h +w dmg) (i8 (Z.rem u 16))).

Inductive UberBranch := Even | Remainder.
Definition effective_max_hits (max_hits uber_size : Z) (branch : UberBranch) : Z :=
  if uber_size <=? 1 then max_hits
  else match branch with
       | Even => max_hits /t uber_size
       | Remainder => max_hits -w ((uber_size -w 1) *w max_hits /t uber_size)
       end.

Inductive DamageOutcome := Survived | Disbanded | Died (overflow : Z).
Definition resolve_damage (h : HitPoints) (effective_max : Z) : DamageOutcome :=
  if damage h <? effective_max then Survived else Died (damage h -w effective_max).

(** The loop keeps the largest candidate; the result is stored as a [u16]. *)
Definition hold_frames_after_death (current_hold : Z) (type_has_range : bool) (inbound_ammo_remaining : list Z)
    (global_pad : Z) : Z :=
  let hold :=
    if type_has_range then
      fold_left (fun hold remaining =>
        let candidate := remaining +w 1 +w global_pad in if hold <? candidate then candidate else hold)
        inbound_ammo_remaining 1
    else 1 in
  if hold <? current_hold then current_hold else u16 hold.

(** The gate at the top of [Object::do_damage]. *)
Definition do_damage_runs (scale_8_8 : Z) (attacker_is_unit : bool) (attacker_unit_masks : Z) : bool :=
  if scale_8_8 <=? 0 then false else negb (attacker_is_unit && Mechanics.any attacker_unit_masks 1).

End Combat.
