(* ===== verification/SimCombatSpec.v ===== *)
(** * What the combat rules guarantee

    Accuracy of the integer distance and exactness of the scan order built
    from it; the attack clock and the overkill window over sequences of
    frames and hits; conservation of damage through scaling and hit points;
    and agreement of these rules with the damage pipeline of [SimDamage.v]. *)

From S2P Require Import Prelude SimArith SimDamage SimCombat.
From Stdlib Require String.
Import (notations) String.
#[local] Open Scope string_scope.
#[local] Open Scope list_scope.
#[local] Open Scope i32_scope.
#[local] Open Scope Z_scope.

Import Combat.

(** ** The integer distance *)

Lemma u32_wabs z : is_i32 z -> u32 (wabs z) = Z.abs z.
Proof.
  intros Hz. unfold wabs. rewrite wrap_u_wrap_s by lia. apply wrap_u_id. unfold in_s, in_u in *. lia.
Qed.

(** The larger and the smaller leg. *)
Definition longer (dx dy : Z) : Z := Z.max (Z.abs dx) (Z.abs dy).
Definition shorter (dx dy : Z) : Z := Z.min (Z.abs dx) (Z.abs dy).

Lemma vector_dist_legs dx dy :
  is_i32 dx -> is_i32 dy ->
  vector_dist dx dy =
    (if longer dx dy =? 0 then Some 0
     else if 60000 <=? shorter dx dy then Some (i32 (Z.shiftr (u32 (shorter dx dy + u32 (longer dx dy * 2))) 1))
     else if u32 (longer dx dy * 2) =? 0 then None
     else Some (i32 (u32 (u32 (shorter dx dy * shorter dx dy) / u32 (longer dx dy * 2) + longer dx dy)))).
Proof.
  intros Hx Hy. unfold vector_dist. rewrite !u32_wabs by done.
  assert ((if Z.abs dy <? Z.abs dx then (Z.abs dx, Z.abs dy) else (Z.abs dy, Z.abs dx)) = (longer dx dy, shorter dx dy)) as ->.
  { unfold longer, shorter. destruct (Z.ltb_spec (Z.abs dy) (Z.abs dx)); f_equal; lia. }
  done.
Qed.

(** Closed form within the map: no operation wraps. *)
Lemma vector_dist_eq dx dy :
  longer dx dy <= 2 ^ 30 ->
  vector_dist dx dy = Some (
    if longer dx dy =? 0 then 0
    else if 60000 <=? shorter dx dy then longer dx dy + shorter dx dy / 2
    else longer dx dy + shorter dx dy * shorter dx dy / (2 * longer dx dy)).
Proof.
  intros Hl. rewrite vector_dist_legs by (unfold longer, in_s in *; lia).
  assert (0 <= shorter dx dy <= longer dx dy) by (unfold longer, shorter; lia).
  destruct (Z.eqb_spec (longer dx dy) 0); [done|].
  rewrite (wrap_u_id 32 (longer dx dy * 2)) by (unfold in_u; lia).
  destruct (Z.leb_spec 60000 (shorter dx dy)).
  - rewrite wrap_u_id by (unfold in_u; lia). rewrite Z.shiftr_div_pow2 by lia. change (2 ^ 1) with 2.
    rewrite Z.div_add by lia. rewrite wrap_s_id; [f_equal; lia|lia|]. unfold in_s. Z.div_mod_to_equations. lia.
  - destruct (Z.eqb_spec (longer dx dy * 2) 0); [lia|].
    rewrite (wrap_u_id 32 (shorter dx dy * shorter dx dy)) by (unfold in_u; nia).
    assert (0 <= shorter dx dy * shorter dx dy / (longer dx dy * 2) <= shorter dx dy).
    { split; [apply Z.div_pos; nia|]. apply Z.div_le_upper_bound; nia. }
    rewrite wrap_u_id by (unfold in_u; lia). rewrite wrap_s_id by (unfold in_s; lia).
    f_equal. rewrite (Z.mul_comm 2). lia.
Qed.

(** The arithmetic of the two forms. *)
Lemma linear_form b s q :
  60000 <= s <= b -> 0 <= s - 2 * q < 2 ->
  b <= b + q /\ b * b + s * s < (b + q + 1) * (b + q + 1) /\ 4 * ((b + q) * (b + q)) <= 5 * (b * b + s * s) /\
  (s < 60000 -> 8 * ((b + q) * (b + q)) <= 9 * (b * b + s * s)).
Proof.
  intros Hs Hq. split; [lia|]. split; [|split; [|lia]].
  - assert (s * (s + 1) <= b * (2 * (q + 1))) by (apply Z.mul_le_mono_nonneg; lia). nia.
  - assert ((2 * b + 2 * q) * (2 * b + 2 * q) <= (2 * b + s) * (2 * b + s)) by (apply Z.mul_le_mono_nonneg; lia).
    pose proof (Z.square_nonneg (b - 2 * s)). lia.
Qed.

Lemma quadratic_form b s q :
  0 <= s <= b -> 0 < b -> 2 * b * q <= s * s < 2 * b * (q + 1) ->
  b <= b + q /\ b * b + s * s < (b + q + 1) * (b + q + 1) /\ 4 * ((b + q) * (b + q)) <= 5 * (b * b + s * s) /\
  (s < 60000 -> 8 * ((b + q) * (b + q)) <= 9 * (b * b + s * s)).
Proof.
  intros Hs Hb Hq. assert (0 <= q) by nia. assert (s * s <= b * s) by (apply Z.mul_le_mono_nonneg; lia).
  assert (b * (2 * q) <= b * s) by lia. assert (2 * q <= s) by (by apply (Z.mul_le_mono_pos_l _ _ b)).
  assert ((2 * q) * (2 * q) <= s * s) by (apply Z.mul_le_mono_nonneg; lia).
  assert (s * s <= b * b) by (apply Z.mul_le_mono_nonneg; lia).
  split; [lia|]. split; [pose proof (Z.square_nonneg (q + 1)); lia|]. split; lia.
Qed.

(** The bounds behind [vector_dist_accuracy]: the distance approximates Euclid's: it never falls a whole unit
    short, it is at most an eighth over in the square (a quarter when both
    legs are long), it is at least the longer leg, and zero only at zero. *)
Lemma vector_dist_bounds dx dy :
  longer dx dy <= 2 ^ 30 ->
  exists v, vector_dist dx dy = Some v /\ longer dx dy <= v /\
    dx * dx + dy * dy < (v + 1) * (v + 1) /\ 4 * (v * v) <= 5 * (dx * dx + dy * dy) /\
    (shorter dx dy < 60000 -> 8 * (v * v) <= 9 * (dx * dx + dy * dy)).
Proof.
  intros Hl. eexists. split; [by apply vector_dist_eq|].
  assert (E : dx * dx + dy * dy = longer dx dy * longer dx dy + shorter dx dy * shorter dx dy).
  { unfold longer, shorter. destruct (Z.max_spec (Z.abs dx) (Z.abs dy)) as [[? ->]|[? ->]],
      (Z.min_spec (Z.abs dx) (Z.abs dy)) as [[? ->]|[? ->]]; nia. }
  rewrite E. clear E. assert (Hs : 0 <= shorter dx dy <= longer dx dy) by (unfold longer, shorter; lia).
  revert Hl Hs. generalize (longer dx dy) (shorter dx dy). clear dx dy. intros b s Hb Hs.
  destruct (Z.eqb_spec b 0) as [->|Hne]; [assert (s = 0) as -> by lia; lia|].
  destruct (Z.leb_spec 60000 s).
  - pose proof (Z.div_mod s 2 ltac:(lia)). pose proof (Z.mod_pos_bound s 2 ltac:(lia)). apply linear_form; lia.
  - pose proof (Z.div_mod (s * s) (2 * b) ltac:(lia)). pose proof (Z.mod_pos_bound (s * s) (2 * b) ltac:(lia)).
    apply quadratic_form; lia.
Qed.

(** (C39) For legs up to 2^30, far above a map's size, the integer distance
    approximates Euclid's: it never falls a whole unit short, it is at most an
    eighth over in the square (a quarter when both legs are long), it is at least
    the longer leg, it is symmetric in the legs and blind to their signs. *)
Theorem vector_dist_accuracy dx dy :
  longer dx dy <= 2 ^ 30 ->
  exists v, vector_dist dx dy = Some v /\ longer dx dy <= v /\
    dx * dx + dy * dy < (v + 1) * (v + 1) /\ 4 * (v * v) <= 5 * (dx * dx + dy * dy) /\
    (shorter dx dy < 60000 -> 8 * (v * v) <= 9 * (dx * dx + dy * dy)) /\
    vector_dist dy dx = Some v /\ vector_dist (- dx) dy = Some v.
Proof.
  intros Hl. destruct (vector_dist_bounds dx dy Hl) as (v & E & ? & ? & ? & ?). exists v. do 5 (split; [done|]).
  rewrite vector_dist_eq in E by done. split; rewrite <- E, vector_dist_eq; unfold longer, shorter in *; rewrite ?Z.abs_opp; try done.
  - by rewrite Z.max_comm, Z.min_comm.
  - by rewrite Z.max_comm.
Qed.

(** The distance panics exactly on the extreme leg: one difference is
    [i32::MIN] and the other is shorter than the switch to the linear form. *)
Theorem vector_dist_panics dx dy :
  is_i32 dx -> is_i32 dy ->
  vector_dist dx dy = None <-> longer dx dy = 2 ^ 31 /\ shorter dx dy < 60000.
Proof.
  intros Hx Hy. rewrite vector_dist_legs by done. unfold in_s in *.
  assert (0 <= shorter dx dy <= longer dx dy /\ longer dx dy <= 2 ^ 31) as [? ?] by (unfold longer, shorter; lia).
  destruct (Z.eqb_spec (longer dx dy) 0); [split; [done|lia]|].
  destruct (Z.leb_spec 60000 (shorter dx dy)); [split; [done|lia]|].
  assert (u32 (longer dx dy * 2) = 0 <-> longer dx dy = 2 ^ 31).
  { unfold wrap_u. split; intros; [|by replace (longer dx dy * 2) with (2 ^ 32) by lia].
    Z.div_mod_to_equations. lia. }
  destruct (Z.eqb_spec (u32 (longer dx dy * 2)) 0); split; try done; lia.
Qed.

Lemma vector_dist_accuracy_witness :
  exists v, vector_dist 3 4 = Some v /\ v = 5 /\ 3 * 3 + 4 * 4 < (v + 1) * (v + 1).
Proof.
  destruct (vector_dist_accuracy 3 4) as (v & E & _ & H & _); [done|]. exists v. split; [done|]. split; [|done].
  vm_compute in E. by injection E.
Defined.
Lemma vector_dist_panics_witness : vector_dist (-2147483648) 5 = None.
Proof. apply vector_dist_panics; [unfold in_s; lia|unfold in_s; lia|]. vm_compute. done. Defined.

(** ** The scan order *)

(** The cells of ring [r], in the order of the inner loops. *)
Definition ring_cells (r : nat) : list (Z * Z) := List.filter (at_dist (Z.of_nat r)) (square r).
Definition cells_upto (rs : list nat) : list (Z * Z) := flat_map ring_cells rs.

Lemma emit_filter r cs n :
  Z.of_nat (n + length (List.filter (at_dist (Z.of_nat r)) cs)) <= CIRCLE_MAX_ENTRIES ->
  emit r cs n = (List.filter (at_dist (Z.of_nat r)) cs, (n + length (List.filter (at_dist (Z.of_nat r)) cs))%nat, false).
Proof.
  revert n. induction cs as [|c cs IH]; intros n H; cbn [emit List.filter]; [by rewrite Nat.add_0_r|].
  cbn [List.filter] in H. destruct (at_dist (Z.of_nat r) c); [|by apply IH]. cbn [length] in H |- *.
  destruct (Z.ltb_spec CIRCLE_MAX_ENTRIES (Z.of_nat (S n))); [lia|]. rewrite IH by lia.
  by replace (n + S _)%nat with (S n + length (List.filter (at_dist (Z.of_nat r)) cs))%nat by lia.
Qed.

(** Rings that fit the entry cap are emitted whole. *)
Lemma rings_app rs1 rs2 n :
  Z.of_nat (n + length (cells_upto rs1)) <= CIRCLE_MAX_ENTRIES ->
  fst (rings (rs1 ++ rs2) n) = cells_upto rs1 ++ fst (rings rs2 (n + length (cells_upto rs1))) /\
  forall k, (k < length rs1)%nat ->
    snd (rings (rs1 ++ rs2) n) !! k = Some (Z.of_nat (n + length (cells_upto (take (S k) rs1)))).
Proof.
  revert n. induction rs1 as [|r rs1 IH]; intros n H.
  { cbn. rewrite Nat.add_0_r. split; [done|lia]. }
  unfold cells_upto in *. cbn [flat_map app] in *. rewrite length_app in *. cbn [rings].
  rewrite emit_filter by (unfold ring_cells in H; lia). fold (ring_cells r).
  destruct (IH (n + length (ring_cells r))%nat) as [E1 E2]; [lia|].
  destruct (rings (rs1 ++ rs2) (n + length (ring_cells r))) as [more ends]. cbn [fst snd] in *. split.
  - rewrite E1, <- app_assoc, Nat.add_assoc. done.
  - intros [|k] Hk; cbn [lookup list_lookup]; cbn [take flat_map length] in *.
    + by rewrite app_nil_r.
    + rewrite E2 by lia. cbn. f_equal. rewrite length_app. lia.
Qed.

Lemma span_spec r z : In z (span r) <-> Z.abs z <= Z.of_nat r.
Proof.
  unfold span. rewrite in_map_iff. split.
  - intros (k & <- & Hk). apply in_seq in Hk. lia.
  - intros Hz. exists (Z.to_nat (z + Z.of_nat r)). split; [lia|]. apply in_seq. lia.
Qed.

Lemma square_spec r x y : (x, y) ∈ square r <-> Z.abs x <= Z.of_nat r /\ Z.abs y <= Z.of_nat r.
Proof.
  rewrite list_elem_of_In. unfold square. rewrite in_flat_map. split.
  - intros (a & Ha & Hb). apply in_map_iff in Hb as (b & [= <- <-] & Hb). by apply span_spec in Ha, Hb.
  - intros [Hx Hy]. exists x. split; [by apply span_spec|]. apply in_map_iff. exists y. split; [done|by apply span_spec].
Qed.

(** The first sixty-four rings fit.  They are counted with a test that does
    not divide. *)
Definition dist_eq (r x y : Z) : bool :=
  let a := Z.abs x in let b := Z.abs y in
  let '(l, s) := if a <=? b then (b, a) else (a, b) in
  let k := r - l in
  if 2 * k <=? s then (l =? 0) || ((2 * l * k <=? s * s) && (s * s <? 2 * l * (k + 1))) else false.

Definition count_line (r x : Z) (ys : list Z) (n : Z) : Z :=
  fold_left (fun n y => if dist_eq r x y then Z.succ n else n) ys n.
Definition count_ring (r : nat) (n : Z) : Z :=
  let ys := span r in let r := Z.of_nat r in fold_left (fun n x => count_line r x ys n) ys n.

Lemma dist_eq_spec r x y :
  Z.abs x <= r -> Z.abs y <= r -> r < 60000 -> dist_eq r x y = at_dist r (x, y).
Proof.
  intros Hx Hy Hr. unfold dist_eq, at_dist. cbn [fst snd]. rewrite vector_dist_eq by (unfold longer; lia).
  assert ((if Z.abs x <=? Z.abs y then (Z.abs y, Z.abs x) else (Z.abs x, Z.abs y)) = (longer x y, shorter x y)) as ->.
  { unfold longer, shorter. destruct (Z.leb_spec (Z.abs x) (Z.abs y)); f_equal; lia. }
  assert (Hs : 0 <= shorter x y <= longer x y /\ longer x y <= r) by (unfold longer, shorter; lia).
  revert Hs. generalize (longer x y) (shorter x y). clear x y Hx Hy. intros l s Hs.
  destruct (Z.eqb_spec l 0) as [->|Hl].
  { assert (s = 0) as -> by lia. destruct (Z.leb_spec (2 * (r - 0)) 0); symmetry; [apply Z.eqb_eq|apply Z.eqb_neq]; lia. }
  destruct (Z.leb_spec 60000 s); [lia|]. cbn [orb].
  pose proof (Z.div_mod (s * s) (2 * l) ltac:(lia)). pose proof (Z.mod_pos_bound (s * s) (2 * l) ltac:(lia)).
  set (q := s * s / (2 * l)) in *. assert (s * s <= l * s) by (apply Z.mul_le_mono_nonneg_r; lia).
  assert (2 * q <= s) by nia.
  destruct (Z.eqb_spec (l + q) r) as [<-|Hne].
  - replace (l + q - l) with q by lia. destruct (Z.leb_spec (2 * q) s); [|lia].
    apply andb_true_iff. split; [apply Z.leb_le|apply Z.ltb_lt]; nia.
  - destruct (Z.leb_spec (2 * (r - l)) s); [|done].
    apply andb_false_iff. destruct (Z.lt_ge_cases q (r - l)); [left; apply Z.leb_gt; nia|right; apply Z.ltb_ge; nia].
Qed.

Lemma count_cells : fold_left (fun n r => count_ring r n) (seq 0 64) 0 = 12573.
Proof. vm_compute. reflexivity. Qed.
Lemma count_line_spec r x ys n :
  Z.abs x <= r -> r < 60000 -> (forall y, In y ys -> Z.abs y <= r) ->
  count_line r x ys n = n + Z.of_nat (length (List.filter (at_dist r) (map (pair x) ys))).
Proof.
  intros Hx Hr. unfold count_line. revert n. induction ys as [|y ys IH]; intros n Hy; cbn [fold_left map List.filter]; [cbn; lia|].
  rewrite IH by (intros; apply Hy; by right). rewrite dist_eq_spec by (done || apply Hy; by left).
  destruct (at_dist r (x, y)); cbn [length]; lia.
Qed.

Lemma count_ring_spec r n : Z.of_nat r < 60000 -> count_ring r n = n + Z.of_nat (length (ring_cells r)).
Proof.
  intros Hr. unfold count_ring, ring_cells, square.
  assert (S : forall x, In x (span r) -> Z.abs x <= Z.of_nat r) by (intros x; apply span_spec).
  revert n S. generalize (span r) at 1 3 5. intros xs. induction xs as [|x xs IH]; intros n S; cbn [fold_left flat_map]; [cbn; lia|].
  rewrite IH by (intros; apply S; by right).
  rewrite count_line_spec; [|apply S; by left|done|intros y; apply span_spec].
  rewrite List.filter_app, length_app. lia.
Qed.

Lemma cells_count : length (cells_upto (seq 0 64)) = Z.to_nat 12573.
Proof.
  assert (C : forall rs n, Forall (fun r => Z.of_nat r < 60000) rs ->
    fold_left (fun n r => count_ring r n) rs n = n + Z.of_nat (length (cells_upto rs))).
  { intros rs n H. revert n. induction H as [|r rs Hr _ IH]; intros n; cbn [fold_left]; [cbn; lia|].
    rewrite IH, count_ring_spec by done. unfold cells_upto. cbn [flat_map]. rewrite length_app. lia. }
  pose proof count_cells as E. rewrite C in E; [lia|]. apply Forall_seq. lia.
Qed.

(** Ring [r] of a table: the entries between its end and the previous one. *)
Definition table_cells (c : CircleTable) : list (Z * Z) := zip (cx c) (cy c).
Definition ring_start (c : CircleTable) (r : nat) : Z := match r with O => 0 | S k => default 0 (ring_end c !! k) end.
Definition table_ring (c : CircleTable) (r : nat) : list (Z * Z) :=
  take (Z.to_nat (default 0 (ring_end c !! r) - ring_start c r)) (drop (Z.to_nat (ring_start c r)) (table_cells c)).

Lemma span_NoDup r : NoDup (span r).
Proof.
  unfold span. apply NoDup_ListNoDup, Finite.Injective_map_NoDup; [intros a b H; lia|apply seq_NoDup].
Qed.

Lemma square_NoDup r : NoDup (square r).
Proof.
  unfold square. generalize (span_NoDup r). generalize (span r) at 1 3. intros l Hl.
  induction Hl as [|x l Hx Hl IH]; cbn [flat_map]; [constructor|]. apply NoDup_app. split; [|split; [|done]].
  - apply (NoDup_fmap_2 (pair x)), span_NoDup.
  - intros [a b] H1 H2. apply list_elem_of_fmap in H1 as (? & [= -> ->] & _).
    apply list_elem_of_In, in_flat_map in H2 as (y & Hy & Hb). apply in_map_iff in Hb as (? & [= -> _] & _).
    by apply Hx, list_elem_of_In.
Qed.

Lemma ring_cells_spec r x y :
  Z.of_nat r <= 2 ^ 30 -> Z.abs x <= 2 ^ 30 -> Z.abs y <= 2 ^ 30 ->
  (x, y) ∈ ring_cells r <-> vector_dist x y = Some (Z.of_nat r).
Proof.
  intros Hr Hx Hy. unfold ring_cells. rewrite list_elem_of_In, filter_In, <- list_elem_of_In, square_spec. unfold at_dist. cbn [fst snd].
  destruct (vector_dist_bounds x y) as (v & E & Hl & _); [unfold longer; lia|]. rewrite E, Z.eqb_eq. unfold longer in Hl.
  split; [by intros [_ ->]|]. intros [= ->]. split; [lia|done].
Qed.

Lemma ring_cells_NoDup r : NoDup (ring_cells r).
Proof. apply NoDup_ListNoDup, List.NoDup_filter, NoDup_ListNoDup, square_NoDup. Qed.

(** The table's offsets are [i8]s as they are. *)
Lemma zip_offsets (l : list (Z * Z)) :
  Forall (fun c => is_i8 (fst c) /\ is_i8 (snd c)) l ->
  zip (map (fun p => i8 (fst p)) l) (map (fun p => i8 (snd p)) l) = l.
Proof.
  induction 1 as [|[x y] l [Hx Hy] _ IH]; [done|]. cbn in *. rewrite !wrap_s_id by done. by rewrite IH.
Qed.

Lemma emit_members r cs n c : c ∈ fst (fst (emit r cs n)) -> c ∈ cs.
Proof.
  revert n. induction cs as [|e cs IH]; intros n; cbn [emit]; [done|].
  destruct (at_dist _ e); [|by intros H; right; eapply IH]. destruct (_ <? _); [by intros ->%list_elem_of_singleton; left|].
  destruct (emit r cs (S n)) as [[out m] over] eqn:E. cbn [fst]. intros [->|H]%elem_of_cons; [by left|].
  right. apply (IH (S n)). by rewrite E.
Qed.

Lemma rings_members rs n c : c ∈ fst (rings rs n) -> exists r, r ∈ rs /\ c ∈ square r.
Proof.
  revert n. induction rs as [|r rs IH]; intros n; cbn [rings]; [by intros ?%elem_of_nil|].
  pose proof (emit_members r (square r) n c) as M. destruct (emit r (square r) n) as [[cells m] over]. cbn [fst] in M.
  destruct over; cbn [fst]; [intros H; exists r; split; [left|by apply M]|].
  specialize (IH m). destruct (rings rs m) as [more ends]. cbn [fst] in *. intros [H|H]%elem_of_app.
  - exists r. split; [left|by apply M].
  - destruct (IH H) as (k & ? & ?). exists k. split; [by right|done].
Qed.

(** Cutting one ring out of the concatenation. *)
Lemma ring_slice r rest :
  (r < 64)%nat ->
  take (length (cells_upto (seq 0 (S r))) - length (cells_upto (seq 0 r)))
    (drop (length (cells_upto (seq 0 r))) (cells_upto (seq 0 64) ++ rest)) = ring_cells r.
Proof.
  intros Hr. assert (Eq : cells_upto (seq 0 (S r)) = cells_upto (seq 0 r) ++ ring_cells r).
  { rewrite seq_S, Nat.add_0_l. unfold cells_upto. rewrite flat_map_app. cbn. by rewrite app_nil_r. }
  assert (Eall : cells_upto (seq 0 64) = cells_upto (seq 0 r) ++ ring_cells r ++ cells_upto (seq (S r) (63 - r))).
  { replace 64%nat with (r + S (63 - r))%nat by lia. rewrite seq_app. unfold cells_upto. by rewrite flat_map_app. }
  rewrite Eall, Eq, length_app, <- !app_assoc, drop_app_length.
  replace (_ + _ - _)%nat with (length (ring_cells r)) by lia. apply take_app_length.
Qed.

Lemma circle_table_eq : circle_table = cells_of (rings (seq 0 64 ++ [64%nat]) 0).
Proof. unfold circle_table. f_equal. Qed.

(** A table of small cells reads back as those cells. *)
Lemma cells_of_small (t : list (Z * Z) * list Z) :
  Forall (fun c => is_i8 (fst c) /\ is_i8 (snd c)) (fst t) ->
  table_cells (cells_of t) = fst t /\
  forall k c, fst t !! k = Some c -> cx (cells_of t) !! k = Some c.1 /\ cy (cells_of t) !! k = Some c.2.
Proof.
  intros Small. split; [by apply zip_offsets|]. intros k c Hc.
  pose proof (Forall_lookup_1 _ _ _ _ Small Hc) as [H1 H2]. cbn [cx cy cells_of].
  change (@map (Z * Z) Z) with (@fmap list _ (Z * Z) Z). rewrite !list_lookup_fmap, Hc.
  cbn. rewrite !wrap_s_id by (done || lia). by split.
Qed.

(** The shape of the table: sixty-four whole rings, then the rest. *)
Lemma circle_shape :
  exists rest, table_cells circle_table = cells_upto (seq 0 64) ++ rest /\
    (forall k c, table_cells circle_table !! k = Some c -> cx circle_table !! k = Some c.1 /\ cy circle_table !! k = Some c.2) /\
    forall k, (k < 64)%nat -> ring_end circle_table !! k = Some (Z.of_nat (length (cells_upto (seq 0 (S k))))).
Proof.
  rewrite circle_table_eq.
  destruct (rings_app (seq 0 64) [64%nat] 0) as [E1 E2]; [rewrite cells_count; unfold CIRCLE_MAX_ENTRIES; lia|].
  assert (Small : Forall (fun c => is_i8 (fst c) /\ is_i8 (snd c)) (fst (rings (seq 0 64 ++ [64%nat]) 0))).
  { apply Forall_forall. intros [a b] Hin. apply rings_members in Hin as (k & Hk & Hsq). apply square_spec in Hsq. cbn [fst snd].
    assert (k <= 64)%nat by (apply elem_of_app in Hk as [Hk%elem_of_seq|Hk%list_elem_of_singleton]; lia).
    unfold in_s. lia. }
  destruct (cells_of_small _ Small) as [Ec El]. eexists. split; [etransitivity; [exact Ec|exact E1]|].
  split; [intros k c; rewrite Ec; apply El|].
  intros k Hk. cbn [cells_of ring_end]. rewrite E2 by (by rewrite length_seq). rewrite take_seq, Nat.min_l by lia. reflexivity.
Qed.

(** The scan order is exact: each of the first sixty-four rings of the table
    holds every tile offset at that distance, once, and nothing else. *)
Theorem circle_rings_exact r x y :
  (r < 64)%nat -> Z.abs x <= 2 ^ 30 -> Z.abs y <= 2 ^ 30 ->
  ((x, y) ∈ table_ring circle_table r <-> vector_dist x y = Some (Z.of_nat r)) /\ NoDup (table_ring circle_table r).
Proof.
  intros Hr Hx Hy. assert (E : table_ring circle_table r = ring_cells r).
  2: { rewrite E. split; [apply ring_cells_spec; lia|apply ring_cells_NoDup]. }
  destruct circle_shape as (rest & Ec & _ & Ends). unfold table_ring. rewrite Ec.
  assert (Start : ring_start circle_table r = Z.of_nat (length (cells_upto (seq 0 r)))).
  { destruct r as [|k]; [done|]. cbn [ring_start]. by rewrite Ends by lia. }
  rewrite Start, Ends by lia. cbn [default id]. rewrite Nat2Z.id, <- Nat2Z.inj_sub, Nat2Z.id; [by apply ring_slice|].
  rewrite seq_S. unfold cells_upto. rewrite flat_map_app, length_app. lia.
Qed.

Lemma circle_rings_exact_witness : (1, -1) ∈ table_ring circle_table 1.
Proof. apply (circle_rings_exact 1 1 (-1)); [lia|lia|lia|reflexivity]. Defined.

(** The last ring is cut off by the entry cap. *)
Lemma emit_capped r cs n :
  Z.of_nat n <= CIRCLE_MAX_ENTRIES -> Z.of_nat (n + length (fst (fst (emit r cs n)))) <= CIRCLE_MAX_ENTRIES + 1.
Proof.
  revert n. induction cs as [|c cs IH]; intros n Hn; cbn [emit]; [cbn; lia|].
  destruct (at_dist _ c); [|by apply IH]. destruct (Z.ltb_spec CIRCLE_MAX_ENTRIES (Z.of_nat (S n))); [cbn; lia|].
  specialize (IH (S n) ltac:(lia)). destruct (emit r cs (S n)) as [[out m] over]. cbn [fst length] in *. lia.
Qed.

Lemma last_capped r n :
  Z.of_nat n <= CIRCLE_MAX_ENTRIES -> Z.of_nat (n + length (fst (rings [r] n))) <= CIRCLE_MAX_ENTRIES + 1.
Proof.
  intros Hn. pose proof (emit_capped r (square r) n Hn) as K. cbn [rings].
  destruct (emit r (square r) n) as [[out m] []]; cbn [fst] in *; rewrite ?app_nil_r; done.
Qed.

Lemma count_64 : 300 < count_ring 64 0.
Proof. vm_compute. reflexivity. Qed.

Lemma last_ring_large : 300 < Z.of_nat (length (ring_cells 64)).
Proof. pose proof (count_ring_spec 64 0 eq_refl) as R. rewrite Z.add_0_l in R. rewrite <- R. exact count_64. Qed.

Lemma last_ring_cut : (length (table_cells circle_table) < length (cells_upto (seq 0 64 ++ [64%nat])))%nat.
Proof.
  rewrite circle_table_eq. unfold cells_upto at 1. rewrite flat_map_app, length_app. fold (cells_upto (seq 0 64)).
  cbn [flat_map]. rewrite app_nil_r. pose proof last_ring_large as B.
  destruct (rings_app (seq 0 64) [64%nat] 0) as [E1 _]; [rewrite cells_count; unfold CIRCLE_MAX_ENTRIES; lia|].
  assert (Len : (length (table_cells (cells_of (rings (seq 0 64 ++ [64%nat]) 0))) <= length (fst (rings (seq 0 64 ++ [64%nat]) 0)))%nat).
  { unfold table_cells, cells_of. cbn [cx cy]. rewrite length_zip_with, !length_map. apply Nat.le_min_l. }
  rewrite E1, length_app, Nat.add_0_l in Len. pose proof cells_count as C. revert Len B C.
  generalize (length (ring_cells 64)) (length (cells_upto (seq 0 64))). intros a n Len B C.
  pose proof (last_capped 64 n) as K. unfold CIRCLE_MAX_ENTRIES in K. lia.
Qed.

(** The target's tile and its eight neighbours, in scan order. *)
Definition neighbours : list (Z * Z) := [(0, 0); (-1, -1); (-1, 0); (-1, 1); (0, -1); (0, 1); (1, -1); (1, 0); (1, 1)].

Lemma first_rings : cells_upto (seq 0 2) = neighbours.
Proof. vm_compute. reflexivity. Qed.

(** The splash pass visits the target's tile and its eight neighbours, each
    once and in the scan order, and its indexing never fails. *)
Theorem splash_tiles_3x3 ox oy :
  tiles (mkSplashScan circle_table (ox, oy)) = Some (map (fun c => (ox + c.1, oy + c.2)) neighbours).
Proof.
  destruct circle_shape as (rest & Ec & El & Ends). unfold tiles. cbn [scan_circle origin_tile fst snd].
  rewrite (Ends SPLASH_RING) by (unfold SPLASH_RING; lia). cbn [mbind option_bind]. unfold SPLASH_RING.
  rewrite first_rings, Nat2Z.id. apply mapM_Some.
  assert (Cells : forall k c, neighbours !! k = Some c -> cx circle_table !! k = Some c.1 /\ cy circle_table !! k = Some c.2).
  { intros k c Hc. apply El. rewrite Ec. change (seq 0 64) with (seq 0 2 ++ seq 2 62). unfold cells_upto. rewrite flat_map_app.
    fold (cells_upto (seq 0 2)). rewrite first_rings, <- app_assoc. by apply lookup_app_l_Some. }
  apply Forall2_same_length_lookup. split; [by rewrite length_seq, length_map|].
  intros k a b Ha Hb. apply lookup_seq in Ha as [-> Hk]. change (@map (Z * Z) (Z * Z)) with (@fmap list _ (Z * Z) (Z * Z)) in Hb.
  apply list_lookup_fmap_Some in Hb as (c & -> & Hc). cbn beta. rewrite Nat.add_0_l. destruct (Cells k c Hc) as [-> ->]. done.
Qed.

(** ** The attack clock *)

Fixpoint ticks (n : nat) (c : AttackCycle) : AttackCycle := match n with O => c | S n => tick (ticks n c) end.

Lemma ticks_spec n c : 0 <= recharging c -> recharging (ticks n c) = Z.max 0 (recharging c - Z.of_nat n).
Proof.
  intros Hc. induction n as [|n IH]; cbn [ticks]; [lia|]. unfold tick. cbn [recharging].
  rewrite IH. unfold saturating_sub. lia.
Qed.

(** After firing with a reload of [r] frames the unit can fire again after
    exactly [r mod 256] frames, because the clock is a byte: a reload of 256
    frames is none. *)
Theorem reload_wraps r c n : ready (ticks n (fire r c)) = true <-> r mod 256 <= Z.of_nat n.
Proof.
  assert (Hr : recharging (fire r c) = r mod 256) by done. pose proof (Z.mod_pos_bound r 256 ltac:(lia)).
  unfold ready. rewrite Z.eqb_eq, ticks_spec, Hr by (rewrite Hr; lia). lia.
Qed.

(** ** The overkill window *)

(** One hit of a unit on a unit: whether it is attenuated, then the stamp. *)
Definition overkill_hit (r : CombatConstants) (max_range : Z) (hit : Z * Z * Z) (st : OverkillState) : bool * OverkillState :=
  let '(frame, captain, who) := hit in
  (overkill_attenuates true max_range true true captain st frame r,
   if overkill_should_stamp st frame r then overkill_stamp frame captain who st else st).

(** The window is anchored to its first hit: while it lasts, later hits keep
    the stamp and are attenuated exactly when they come from another
    captain, so a single unit firing on is never attenuated. *)
Theorem overkill_window_anchored r max_range st hits :
  damage_frame st <> 0 -> max_range <> 0 ->
  Forall (fun h => let '(frame, _, _) := h in is_i32 (frame - damage_frame st) /\ frame - damage_frame st < overkill_frames r) hits ->
  Forall (fun h => overkill_hit r max_range h st = (negb (snd (fst h) =? damage_o st), st)) hits.
Proof.
  intros Hne Hmr Hh. eapply Forall_impl; [exact Hh|]. intros [[frame captain] who] [Hr Hlt]. cbn [fst snd].
  unfold overkill_hit, overkill_attenuates, overkill_should_stamp. rewrite (wsub_small frame) by done.
  destruct (Z.eqb_spec (damage_frame st) 0); [done|]. destruct (Z.eqb_spec max_range 0); [done|].
  destruct (Z.ltb_spec (frame - damage_frame st) (overkill_frames r)); [|lia].
  destruct (Z.leb_spec (overkill_frames r) (frame - damage_frame st)); [lia|]. done.
Qed.

(** A hit after the window stamps anew and is not attenuated. *)
Lemma overkill_window_ends r max_range st frame captain who :
  damage_frame st <> 0 -> is_i32 (frame - damage_frame st) -> overkill_frames r <= frame - damage_frame st ->
  overkill_hit r max_range (frame, captain, who) st = (false, mkOverkillState frame captain who).
Proof.
  intros Hne Hr Hge. unfold overkill_hit, overkill_attenuates, overkill_should_stamp. rewrite wsub_small by done.
  destruct (Z.ltb_spec (frame - damage_frame st) (overkill_frames r)); [lia|].
  destruct (Z.leb_spec (overkill_frames r) (frame - damage_frame st)); [|lia]. rewrite orb_true_r.
  by rewrite !andb_false_r, !andb_false_l.
Qed.

(** ** Conservation of damage *)

(** Damage in sixteenths of a point. *)
Definition sixteenths_taken (h : HitPoints) : Z := 16 * damage h + damage_frac h.
(** What a hit adds: at least one sixteenth. *)
Definition added (hit : Z * Z) : Z :=
  let '(dmg, frac) := hit in 16 * dmg + (if (dmg <? 1) && (frac <? 1) then 1 else frac).

Lemma bias4_quot x : is_i32 x -> bias_shift 4 x = x /t 16.
Proof. intros. by apply bias_shift_quot. Qed.

Definition hp_ok (h : HitPoints) : Prop := 0 <= damage h /\ 0 <= damage_frac h < 16.
Definition hit_ok (hit : Z * Z) : Prop := 0 <= fst hit /\ 0 <= snd hit < 16.

Lemma accumulate_exact hit h :
  hp_ok h -> hit_ok hit -> sixteenths_taken h + added hit <= 16 * I32_MAX ->
  let '(w, h') := accumulate (fst hit) (snd hit) h in
  sixteenths_taken h' = sixteenths_taken h + added hit /\ hp_ok h' /\ myhits h' = myhits h /\ damage h' = damage h + w.
Proof.
  destruct hit as [dmg frac]. intros [Hd Hf] [Hh Hs]. unfold sixteenths_taken, added, accumulate, I32_MAX. cbn [fst snd] in *.
  set (f := if (dmg <? 1) && (frac <? 1) then 1 else frac).
  assert (0 <= f < 16) by (unfold f; destruct ((dmg <? 1) && (frac <? 1)); lia). intros Hmax.
  rewrite (wrap_s_id 8 (damage_frac h + f)) by (unfold in_s; lia). rewrite bias4_quot by (unfold in_s; lia).
  rewrite Z.quot_div_nonneg, Z.rem_mod_nonneg by lia.
  pose proof (Z.div_mod (damage_frac h + f) 16 ltac:(lia)). pose proof (Z.mod_pos_bound (damage_frac h + f) 16 ltac:(lia)).
  assert (0 <= (damage_frac h + f) / 16 <= 1) by (Z.div_mod_to_equations; lia).
  rewrite wrap_s_id by (unfold in_s; lia). rewrite (wadd_small dmg) by (unfold in_s; lia).
  rewrite wadd_small by (unfold in_s; lia). cbn [damage damage_frac myhits]. unfold hp_ok. cbn [damage damage_frac]. lia.
Qed.

Definition take_hits (hits : list (Z * Z)) (h : HitPoints) : HitPoints :=
  fold_left (fun h hit => snd (accumulate (fst hit) (snd hit) h)) hits h.
Definition total_added (hits : list (Z * Z)) : Z := fold_right (fun hit n => added hit + n) 0 hits.

Lemma added_pos hit : hit_ok hit -> 1 <= added hit.
Proof. destruct hit as [d f]. intros [? ?]. cbn in *. destruct (Z.ltb_spec d 1), (Z.ltb_spec f 1); cbn; lia. Qed.

Lemma total_added_nonneg hits : Forall hit_ok hits -> Z.of_nat (length hits) <= total_added hits.
Proof. induction 1 as [|x l Hx _ IH]; [done|]. apply added_pos in Hx. cbn [length total_added fold_right]. fold (total_added l). lia. Qed.

(** (C34) Damage is conserved: over any sequence of hits, each of a damage that is
    not negative and a fraction below sixteen, as long as the damage taken stays
    within an [i32], the sixteenths carried between hits lose and invent nothing,
    and every hit counts for at least one, so [n] hits take at least [n]
    sixteenths. *)
Theorem damage_conserved hits h :
  hp_ok h -> Forall hit_ok hits -> sixteenths_taken h + total_added hits <= 16 * I32_MAX ->
  sixteenths_taken (take_hits hits h) = sixteenths_taken h + total_added hits /\ hp_ok (take_hits hits h) /\
  Z.of_nat (length hits) <= total_added hits.
Proof.
  intros Hh Hs. revert h Hh. induction Hs as [|x l Hx Hl IH]; intros h Hh Hm; cbn [take_hits fold_left total_added fold_right length] in *.
  { split; [lia|]. done. }
  fold (total_added l) in *. pose proof (added_pos x Hx). pose proof (total_added_nonneg l Hl).
  pose proof (accumulate_exact x h Hh Hx ltac:(lia)) as A. destruct (accumulate (fst x) (snd x) h) as [w h']. cbn [snd].
  destruct A as (A1 & A2 & _). destruct (IH h' A2 ltac:(lia)) as (I1 & I2 & I3). unfold take_hits in I1, I2.
  split; [lia|]. split; [done|lia].
Qed.

(** Scaling is exact division: the product (at least 1.0), divided by the
    rounds and by the unit's size, in 256ths, is reported as whole points and
    sixteenths, and only what is below a sixteenth is dropped. *)
Theorem scale_damage_exact dmg scale ammo_index per_att size :
  is_i32 (dmg * scale) -> 0 < per_att -> 0 < size ->
  let q := Z.max 0x100 (dmg * scale) / (if 0 <=? ammo_index then per_att else 1) / size in
  scale_damage_unit dmg scale ammo_index per_att size = Ok (mkScaledDamage (q / 256) (q / 16 mod 16)) /\
  0 <= q - 16 * (16 * (q / 256) + q / 16 mod 16) < 16.
Proof.
  intros Hp Ha Hs q. unfold scale_damage_unit. rewrite wmul_small by done.
  assert ((if dmg * scale <=? 0x100 then 0x100 else dmg * scale) = Z.max 0x100 (dmg * scale)) as -> by (destruct (Z.leb_spec (dmg * scale) 0x100); lia).
  set (m := Z.max 0x100 (dmg * scale)) in *. assert (Hm : 0 <= m /\ is_i32 m) by (unfold in_s in *; lia).
  assert (D : forall a b site, 0 <= a -> is_i32 a -> 0 < b -> checked_div a b site = Ok (a / b) /\ 0 <= a / b /\ is_i32 (a / b)).
  { intros a b site Ha0 Ha1 Hb. unfold checked_div. rewrite idiv_nonneg by done. split; [done|].
    pose proof (Z.div_pos a b Ha0 Hb). pose proof (Z.div_le_upper_bound a b a Hb ltac:(nia)). unfold in_s in *. lia. }
  assert (E : (if 0 <=? ammo_index then checked_div m per_att "0x0064A735" else Ok m) = Ok (m / (if 0 <=? ammo_index then per_att else 1))).
  { destruct Hm as [H0 H1]. destruct (0 <=? ammo_index); [exact (proj1 (D m per_att _ H0 H1 Ha))|by rewrite Z.div_1_r]. }
  rewrite E. cbn [rbind].
  assert (Hq : 0 <= m / (if 0 <=? ammo_index then per_att else 1) /\ is_i32 (m / (if 0 <=? ammo_index then per_att else 1))).
  { destruct Hm as [H0 H1]. destruct (0 <=? ammo_index); [exact (proj2 (D m per_att "0x0064A735" H0 H1 Ha))|by rewrite Z.div_1_r]. }
  destruct (D _ size "0x0064A766" (proj1 Hq) (proj2 Hq) Hs) as (-> & Hq0 & Hq1). cbn [rbind]. fold q in Hq0, Hq1 |- *.
  unfold in_sixteenths. rewrite (bias4_quot q) by done. rewrite Z.quot_div_nonneg by lia.
  pose proof (Z.div_pos q 16 Hq0 ltac:(lia)). pose proof (Z.div_le_upper_bound q 16 q ltac:(lia) ltac:(lia)).
  rewrite bias4_quot by (unfold in_s in *; lia). rewrite Z.quot_div_nonneg, Z.rem_mod_nonneg, Z.div_div by lia.
  pose proof (Z.mod_pos_bound (q / 16) 16 ltac:(lia)). rewrite wrap_s_id by (unfold in_s; lia). split; [done|].
  change 256 with (16 * 16). rewrite <- Z.div_div by lia. Z.div_mod_to_equations. lia.
Qed.

Lemma overkill_window_anchored_witness :
  overkill_hit shipped 5 (110, 7, 1) (mkOverkillState 100 3 1) = (true, mkOverkillState 100 3 1) /\
  overkill_hit shipped 5 (120, 3, 1) (mkOverkillState 100 3 1) = (false, mkOverkillState 100 3 1).
Proof.
  assert (H : Forall (fun h => overkill_hit shipped 5 h (mkOverkillState 100 3 1) = (negb (snd (fst h) =? 3), mkOverkillState 100 3 1))
    [(110, 7, 1); (120, 3, 1)]).
  { apply (overkill_window_anchored shipped 5 (mkOverkillState 100 3 1)); [done|done|].
    repeat (apply Forall_cons; split); try apply Forall_nil; unfold in_s; cbn; try lia; done. }
  inversion H as [|? ? H1 H2]; subst. inversion H2 as [|? ? H3 H4]; subst. split; [exact H1|exact H3].
Defined.

Lemma damage_conserved_witness :
  let h := take_hits [(2, 15); (0, 0); (0, 15)] (mkHitPoints 100 0 0) in damage h = 3 /\ damage_frac h = 15 /\
  sixteenths_taken h = 63.
Proof.
  split; [reflexivity|]. split; [reflexivity|].
  refine (eq_trans (proj1 (damage_conserved [(2, 15); (0, 0); (0, 15)] (mkHitPoints 100 0 0) _ _ _)) _); try reflexivity.
  - split; cbn; lia.
  - repeat (apply Forall_cons; split); try apply Forall_nil; unfold hit_ok; cbn; lia.
  - vm_compute. discriminate.
Defined.

Lemma scale_damage_exact_witness : scale_damage_unit 25 0x100 0 3 2 = Ok (mkScaledDamage 4 2).
Proof. apply (scale_damage_exact 25 0x100 0 3 2); [unfold in_s; lia|lia|lia]. Defined.

(** ** Death *)

(** The two divisions of an uber unit's hit points bracket the exact share:
    one rounds it down, the other up, so they differ by one exactly when the
    hit points are not a multiple of the size. *)
Theorem uber_shares_bracket max_hits size :
  1 < size -> 0 <= max_hits -> is_i32 ((size - 1) * max_hits) -> is_i32 size -> is_i32 max_hits ->
  effective_max_hits max_hits size Even = max_hits / size /\
  effective_max_hits max_hits size Remainder = - (- max_hits / size) /\
  effective_max_hits max_hits size Remainder - effective_max_hits max_hits size Even =
    (if max_hits mod size =? 0 then 0 else 1).
Proof.
  intros Hs Hm Hp Hsi Hmi. unfold effective_max_hits. destruct (Z.leb_spec size 1); [lia|].
  rewrite (wsub_small size) by (unfold in_s in *; lia). rewrite wmul_small by done.
  rewrite !Z.quot_div_nonneg by nia.
  assert ((size - 1) * max_hits / size = max_hits + (- max_hits / size)) as ->.
  { rewrite <- Z.div_add_l by lia. f_equal. lia. }
  assert (E : max_hits = size * (max_hits / size) + max_hits mod size) by (apply Z.div_mod; lia).
  pose proof (Z.mod_pos_bound max_hits size ltac:(lia)). pose proof (Z.div_pos max_hits size Hm ltac:(lia)).
  assert (F : - max_hits / size = - (max_hits / size) - (if max_hits mod size =? 0 then 0 else 1)).
  { symmetry. destruct (Z.eqb_spec (max_hits mod size) 0); [apply Z.div_unique with 0|apply Z.div_unique with (size - max_hits mod size)]; nia. }
  assert (max_hits / size <= max_hits) by nia. rewrite wsub_small.
  - split; [done|]. split; lia.
  - rewrite F. unfold in_s in *. destruct (max_hits mod size =? 0); lia.
Qed.

Lemma uber_shares_bracket_witness : effective_max_hits 100 3 Even = 33 /\ effective_max_hits 100 3 Remainder = 34.
Proof.
  destruct (uber_shares_bracket 100 3) as (-> & -> & _); [lia|lia|unfold in_s; lia|unfold in_s; lia|unfold in_s; lia|]. done.
Defined.

Lemma hold_fold_spec pad rs acc :
  Forall (fun x => is_i32 (x + 1) /\ is_i32 (x + 1 + pad)) rs ->
  fold_left (fun hold remaining => let c := remaining +w 1 +w pad in if hold <? c then c else hold) rs acc =
  fold_left Z.max (map (fun x => x + 1 + pad) rs) acc.
Proof.
  intros H. revert acc. induction H as [|x l [Hx Hx'] _ IH]; intros acc; [done|]. cbn [fold_left map].
  rewrite (wadd_small x 1), wadd_small by done. rewrite IH. f_equal. destruct (Z.ltb_spec acc (x + 1 + pad)); lia.
Qed.

Lemma fold_max_bound l acc : acc <= fold_left Z.max l acc /\ Forall (fun x => x <= fold_left Z.max l acc) l.
Proof.
  revert acc. induction l as [|x l IH]; intros acc; cbn [fold_left]; [split; [lia|done]|].
  destruct (IH (Z.max acc x)) as [H1 H2]. split; [lia|]. apply Forall_cons. split; [lia|done].
Qed.

(** A corpse's slot outlives every projectile in flight toward it: while the
    hold fits its sixteen bits it is never shortened, it is at least a
    frame, and it covers each inbound round's remaining flight. *)
Theorem corpse_outlives_ammo hold pad inbound :
  is_u16 hold -> Forall (fun x => 0 <= x /\ 0 <= x + 1 + pad < 2 ^ 16) inbound -> 0 <= pad < 2 ^ 16 ->
  let h := hold_frames_after_death hold true inbound pad in
  1 <= h /\ hold <= h /\ Forall (fun x => x + 1 + pad <= h) inbound.
Proof.
  intros Hh Hi Hp. unfold hold_frames_after_death. rewrite hold_fold_spec.
  2: { eapply Forall_impl; [exact Hi|]. intros x [? ?]. unfold in_s. lia. }
  set (m := fold_left Z.max _ 1). destruct (fold_max_bound (map (fun x => x + 1 + pad) inbound) 1) as [M1 M2]. fold m in M1, M2.
  rewrite List.Forall_map in M2. assert (M3 : m < 2 ^ 16).
  { unfold m. clear M1 M2 m. cut (forall acc, acc < 2 ^ 16 -> fold_left Z.max (map (fun x => x + 1 + pad) inbound) acc < 2 ^ 16); [intros C; apply C; lia|].
    induction Hi as [|x l [? ?] _ IH]; intros acc Ha; cbn [map fold_left]; [done|]. apply IH. lia. }
  destruct (Z.ltb_spec m hold); [|rewrite wrap_u_id by (unfold in_u; lia)]; (split; [lia|split; [lia|]]);
    apply (Forall_impl _ _ _ M2); intros x Hx; cbn in Hx; lia.
Qed.

Lemma corpse_outlives_ammo_witness : 8 <= hold_frames_after_death 3 true [2; 6] 1.
Proof.
  destruct (corpse_outlives_ammo 3 1 [2; 6]) as (_ & _ & H);
    [unfold in_u; lia|repeat (apply Forall_cons; split); try apply Forall_nil; lia|lia|].
  apply Forall_cons in H as [_ H]. apply Forall_cons in H as [H _]. exact H.
Defined.

(** ** Agreement with the damage pipeline *)

(** The rules of the pipeline, read from the combat constants. *)
Record rules_of (c : CombatConstants) (r : Mechanics.CombatRules) : Prop := {
  r_increment : Mechanics.height_increment r = height_increment c;
  r_bonus : Mechanics.height_bonus r = height_bonus c;
  r_flank : Mechanics.flank_bonus r = flank_bonus c;
  r_cavalry : Mechanics.cavalry_flank_bonus r = cavalry_flank_bonus c;
  r_vehicle : Mechanics.vehicle_flank_bonus r = vehicle_flank_bonus c;
  r_frames : Mechanics.overkill_frames r = overkill_frames c;
  r_damage : Mechanics.overkill_damage r = overkill_damage c;
  r_entrench : Mechanics.entrenchment_modifier r = entrenchment_modifier c }.

Section Agreement.
Context (c : CombatConstants) (r : Mechanics.CombatRules) (Hr : rules_of c r).
Context (i : Mechanics.DamageInput) (p : Mechanics.DamagePredicates).
#[local] Abbreviation dmg := Mechanics.d.

(** The flank term from the combat rules. *)
Definition flanked (am dmg : Z) : Z :=
  let delta := flank_delta (Mechanics.defender_facing i) (Mechanics.attack_dir i) in
  let lvl := Mechanics.flank_level delta in
  if flank_gate (Mechanics.attacker_vf_0x18 p) (Mechanics.defender_vf_0x18 p) am (Mechanics.defender_masks i)
     && (0x2AAAAAAA <=? delta) && negb (lvl =? 0)
  then flank_percent lvl (Mechanics.defender_masks i) c *w dmg /t 100 else dmg.

Lemma flank_agrees s : dmg (Mechanics.step20 i p r s) = flanked (Mechanics.am s) (dmg s).
Proof.
  destruct Hr. unfold Mechanics.step20, flanked, flank_delta, Mechanics.half_turn_delta.
  assert (Mechanics.step20_guard i p (Mechanics.am s) =
    flank_gate (Mechanics.attacker_vf_0x18 p) (Mechanics.defender_vf_0x18 p) (Mechanics.am s) (Mechanics.defender_masks i)) as ->.
  { unfold Mechanics.step20_guard, flank_gate, Mechanics.any, Mechanics.dm. by rewrite !negb_involutive. }
  destruct (flank_gate _ _ _ _); [|done]. rewrite andb_true_l. destruct (0x2AAAAAAA <=? _); [|done]. rewrite andb_true_l.
  destruct (Mechanics.flank_level _ =? 0); cbn [negb]; [done|]. cbn [Mechanics.put Mechanics.set_d Mechanics.trace dmg].
  unfold Mechanics.div100, Mechanics.step20_pct, flank_percent, Mechanics.div256, Mechanics.dm.
  by rewrite r_flank0, r_cavalry0, r_vehicle0.
Qed.

(** The stamp of the defender, as the pipeline sees it. *)
Definition stamped (st : OverkillState) (max_range : Z) : Prop :=
  Mechanics.defender_overkill_stamp i = damage_frame st /\ Mechanics.defender_word_0xa4 i = damage_o st /\
  Mechanics.attacker_vf_0x130 p = negb (max_range =? 0).

Lemma overkill_agrees s st max_range :
  stamped st max_range ->
  dmg (Mechanics.step23 i p r s) =
    (if overkill_attenuates (negb (Mechanics.overkill_gate i =? 0)) max_range (Mechanics.attacker_vf_0x18 p) (Mechanics.defender_vf_0x18 p)
          (Mechanics.attacker_vf_0xe4 i) st (Mechanics.current_frame i) c
     then overkill_apply (dmg s) (Mechanics.defender_tech_0x109 p) (Mechanics.attacker_type_vf_0x10c p) c else dmg s).
Proof.
  destruct Hr. intros (E1 & E2 & E3). unfold Mechanics.step23, overkill_attenuates. rewrite E1, E2, E3, r_frames0.
  unfold overkill_apply, Mechanics.div256. rewrite <- r_damage0.
  destruct (Mechanics.overkill_gate i =? 0), (max_range =? 0), (Mechanics.attacker_vf_0x18 p), (Mechanics.defender_vf_0x18 p); try done.
  destruct (damage_frame st =? 0), (_ <? overkill_frames c), (_ =? damage_o st); try done.
  cbn [negb andb Mechanics.put Mechanics.set_d Mechanics.trace dmg]. by destruct (_ && negb _).
Qed.

Lemma height_agrees s :
  option_map dmg (Mechanics.step25 i p r s) =
    (if height_applies (Mechanics.attacker_domain i) (Mechanics.defender_domain i) (Mechanics.attacker_type_vf_0x10c p)
          (Mechanics.attacker_z i) (Mechanics.defender_z i)
     then match height_bonus_add (dmg s) (Mechanics.attacker_z i) (Mechanics.defender_z i) c with
          | Ok b => Some (dmg s +w b)
          | Err _ => None
          end
     else Some (dmg s)).
Proof.
  destruct Hr. unfold Mechanics.step25, height_applies, height_bonus_add, checked_div.
  change (Mechanics.step25_guard i p) with (height_applies (Mechanics.attacker_domain i) (Mechanics.defender_domain i)
    (Mechanics.attacker_type_vf_0x10c p) (Mechanics.attacker_z i) (Mechanics.defender_z i)).
  unfold height_applies, DOMAIN_AIR. destruct (_ && _ && _ && _); [|done]. rewrite r_increment0, r_bonus0. by destruct (idiv _ _).
Qed.

(** The combat rules and the damage pipeline are the same rules: the flank,
    overkill and height terms written for the combat system, with their
    gates and their divisions by zero, are those of steps 20, 23 and 25 of
    the pipeline on every input. *)
Theorem combat_rules_agree s st max_range :
  stamped st max_range ->
  dmg (Mechanics.step20 i p r s) = flanked (Mechanics.am s) (dmg s) /\
  dmg (Mechanics.step23 i p r s) =
    (if overkill_attenuates (negb (Mechanics.overkill_gate i =? 0)) max_range (Mechanics.attacker_vf_0x18 p) (Mechanics.defender_vf_0x18 p)
          (Mechanics.attacker_vf_0xe4 i) st (Mechanics.current_frame i) c
     then overkill_apply (dmg s) (Mechanics.defender_tech_0x109 p) (Mechanics.attacker_type_vf_0x10c p) c else dmg s) /\
  option_map dmg (Mechanics.step25 i p r s) =
    (if height_applies (Mechanics.attacker_domain i) (Mechanics.defender_domain i) (Mechanics.attacker_type_vf_0x10c p)
          (Mechanics.attacker_z i) (Mechanics.defender_z i)
     then match height_bonus_add (dmg s) (Mechanics.attacker_z i) (Mechanics.defender_z i) c with
          | Ok b => Some (dmg s +w b)
          | Err _ => None
          end
     else Some (dmg s)).
Proof. intros H. split; [apply flank_agrees|]. split; [by apply overkill_agrees|apply height_agrees]. Qed.
End Agreement.

(** A second captain's hit ten frames into the window. *)
Definition late_hit : Mechanics.DamageInput :=
  Mechanics.mkDamageInput 150 200 4 0 0 0 0 1 0 1 0 0 0 0 false 2 0 false 0 0 false 0 0 0 90 3 7 100 false false 0.
Definition ranged_units : Mechanics.DamagePredicates :=
  Mechanics.mkDamagePredicates false true false false true false false true false false false false false false false
    false false false false false false false false false false false false false false false false false.

Lemma combat_rules_agree_witness :
  Mechanics.d (Mechanics.step23 late_hit ranged_units Mechanics.shipped (Mechanics.mkSt 100 0 0 0)) = 33.
Proof.
  destruct (combat_rules_agree shipped Mechanics.shipped ltac:(by constructor) late_hit ranged_units (Mechanics.mkSt 100 0 0 0)
    (mkOverkillState 90 3 1) 5) as (_ & H & _); [by repeat split|]. rewrite H. reflexivity.
Defined.
