(* ===== verification/SimRandom.v ===== *)
(** * The simulation random stream

    [crates/don-sim/src/rng.rs]: the engine's [Random], one [i32] of state
    stepped by a linear congruential generator, and the half-open range draw
    every simulation call site uses. *)

From S2P Require Import Prelude.

Module Random.

(** [struct Random { state: i32 }]. *)
Record t := new { state : Z }.

Definition MUL : Z := 0x0019660D.
Definition ADD : Z := 0x3C6EF35F.

(** [Random::reseed]: install the seed, return the previous one. *)
Definition reseed (seed : Z) (r : t) : Z * t := (r.(state), new seed).

(** [Random::advance]: [state.wrapping_mul(MUL).wrapping_add(ADD)]. *)
Definition advance (r : t) : Z * t :=
  let s := i32 (i32 (r.(state) * MUL) + ADD) in (s, new s).

(** [Random::get(lo, hi)]. *)
Definition get (lo hi : Z) (r : t) : Z * t :=
  if lo =? hi then (lo, r)
  else
    let '(lo, hi) := if hi <? lo then (hi, lo) else (lo, hi) in
    let '(s, r') := advance r in
    let span := i32 (hi - lo) in
    let r16 := Z.land (u32 s) 0xFFFF in
    let scaled := i32 (Z.shiftr (u32 (i32 (r16 * span))) 16) in
    (i32 (scaled + lo), r').

(** ** One step is an affine map modulo [2^32] *)

Definition step (s : Z) : Z := (s * MUL + ADD) mod 2 ^ 32.

Lemma advance_step r :
  u32 (fst (advance r)) = step (r.(state)) /\ fst (advance r) = i32 (step r.(state)).
Proof.
  unfold advance, step. cbn [fst]. split.
  - rewrite wrap_u_wrap_s by lia. unfold wrap_u.
    rewrite <- Zplus_mod_idemp_l, wrap_s_mod, Zplus_mod_idemp_l by lia. done.
  - apply wrap_s_congr. rewrite Zmod_mod.
    rewrite <- Zplus_mod_idemp_l, wrap_s_mod, Zplus_mod_idemp_l by lia. done.
Qed.

Lemma step_mod s : step (s mod 2 ^ 32) = step s.
Proof.
  unfold step. rewrite <- Zplus_mod_idemp_l, Zmult_mod_idemp_l, Zplus_mod_idemp_l. done.
Qed.

(** [n] steps of the stream, on the state read modulo [2^32]. *)
Fixpoint iter_step (n : nat) (s : Z) : Z :=
  match n with O => s mod 2 ^ 32 | S n => iter_step n (step s) end.

(** [n] draws: the state after [n] calls of [advance]. *)
Fixpoint advance_n (n : nat) (r : t) : t :=
  match n with O => r | S n => advance_n n (snd (advance r)) end.

Lemma advance_n_iter n r : u32 (advance_n n r).(state) = iter_step n r.(state).
Proof.
  revert r; induction n; intros r; [done|]. simpl. rewrite IHn.
  destruct (advance_step r) as [H _]. unfold advance in *. cbn [fst snd state] in *.
  assert (Hit : forall n a, iter_step n (a mod 2 ^ 32) = iter_step n a).
  { clear. induction n; intros a; simpl; [apply Zmod_mod|]. by rewrite step_mod. }
  rewrite <- Hit. unfold wrap_u in H. rewrite H. unfold step. by rewrite Hit.
Qed.

(** Composition of affine maps, by repeated doubling: after [2^k] steps the
    state is [fst (dbl k) * s + snd (dbl k)]. *)
Fixpoint dbl (k : nat) : Z * Z :=
  match k with
  | O => (MUL, ADD)
  | S k => let '(a, c) := dbl k in ((a * a) mod 2 ^ 32, (a * c + c) mod 2 ^ 32)
  end.

Lemma iter_step_add n m s : iter_step (n + m) s = iter_step m (iter_step n s).
Proof.
  revert s; induction n; intros s; simpl; [|apply IHn].
  destruct m; simpl; [by rewrite Zmod_mod|]. by rewrite step_mod.
Qed.

Lemma iter_step_dbl k s :
  iter_step (2 ^ k) s = (fst (dbl k) * s + snd (dbl k)) mod 2 ^ 32.
Proof.
  revert s; induction k as [|k IH]; intros s.
  { simpl. unfold step. rewrite Zmod_mod. f_equal. lia. }
  replace (2 ^ S k)%nat with (2 ^ k + 2 ^ k)%nat by (simpl; lia).
  rewrite iter_step_add, !IH. simpl. destruct (dbl k) as [a c]. cbn [fst snd].
  rewrite (Z.add_comm (a * _)), <- (Zplus_mod_idemp_r (a * _)), Zmult_mod_idemp_r.
  rewrite Zplus_mod_idemp_r.
  rewrite <- (Zplus_mod_idemp_l (_ * s)), Zmult_mod_idemp_l, Zplus_mod_idemp_l.
  rewrite Zplus_mod_idemp_r. f_equal. lia.
Qed.

Lemma dbl_31 : dbl 31 = (1, 2 ^ 31).
Proof. vm_compute. reflexivity. Qed.

Lemma dbl_32 : dbl 32 = (1, 0).
Proof. vm_compute. reflexivity. Qed.

Lemma iter_step_mul n k s : iter_step n s = s mod 2 ^ 32 -> iter_step (k * n) s = s mod 2 ^ 32.
Proof.
  intros H. induction k; simpl; [done|].
  rewrite iter_step_add, H.
  destruct (k * n)%nat eqn:E; simpl in *; [apply Zmod_mod|]. by rewrite step_mod.
Qed.

Lemma iter_step_pow31 s : iter_step (2 ^ 31) s <> s mod 2 ^ 32.
Proof.
  rewrite iter_step_dbl, dbl_31. cbn [fst snd]. intros H.
  pose proof (Z.mod_pos_bound s (2 ^ 32)) as Hb.
  rewrite Z.mul_1_l, <- Zplus_mod_idemp_l in H. ranges.
  destruct (decide (s mod 4294967296 + 2147483648 < 4294967296)).
  - rewrite Z.mod_small in H; lia.
  - rewrite <- (Z_mod_plus_full _ (-1)), Z.mod_small in H; lia.
Qed.

Lemma iter_step_pow32 s : iter_step (2 ^ 32) s = s mod 2 ^ 32.
Proof. rewrite iter_step_dbl, dbl_32. cbn [fst snd]. f_equal. lia. Qed.

Lemma iter_step_return s n k :
  (k <= 32)%nat -> iter_step n s = s mod 2 ^ 32 -> exists m, n = (2 ^ k * m)%nat.
Proof.
  intros Hk Hn. induction k as [|k IH]; [exists n; simpl; lia|].
  destruct IH as [m ->]; [lia|].
  destruct (Nat.Even_or_Odd m) as [[q ->]|[q ->]]; [exists q; rewrite Nat.pow_succ_r'; lia|].
  exfalso. apply (iter_step_pow31 s).
  apply (iter_step_mul _ (2 ^ (31 - k))) in Hn.
  assert (E : (2 ^ (31 - k) * (2 ^ k * (2 * q + 1)) = q * 2 ^ 32 + 2 ^ 31)%nat).
  { rewrite Nat.mul_assoc, <- Nat.pow_add_r.
    replace (31 - k + k)%nat with 31%nat by lia.
    assert (P : (2 ^ 32 = 2 * 2 ^ 31)%nat) by apply (Nat.pow_succ_r' 2 31).
    rewrite P. generalize (2 ^ 31)%nat. intros p. lia. }
  rewrite E, iter_step_add in Hn. revert Hn.
  rewrite (iter_step_mul (2 ^ 32) q s (iter_step_pow32 s)).
  intros Hn. rewrite <- Hn.
  pose proof (iter_step_dbl 31 (s mod 2 ^ 32)) as D.
  rewrite D, iter_step_dbl, <- (Zplus_mod_idemp_l (_ * (s mod _))), Zmult_mod_idemp_r.
  by rewrite Zplus_mod_idemp_l.
Qed.

(** ** Bounds of a draw *)

Lemma get_scaled_range r16 span :
  0 <= r16 < 65536 -> in_s 32 span ->
  0 <= Z.shiftr (u32 (i32 (r16 * span))) 16 < 65536.
Proof.
  intros Hr Hs. rewrite Z.shiftr_div_pow2 by lia.
  pose proof (wrap_u_range 32 (i32 (r16 * span))) as B. ranges.
  split; [apply Z.div_pos; lia|]. apply Z.div_lt_upper_bound; lia.
Qed.

Lemma get_scaled_lt r16 span :
  0 <= r16 < 65536 -> 0 < span <= 65536 ->
  Z.shiftr (u32 (i32 (r16 * span))) 16 = r16 * span / 65536 /\ r16 * span / 65536 < span.
Proof.
  intros Hr Hs. rewrite wrap_u_wrap_s by lia. rewrite wrap_u_id.
  2:{ ranges. nia. }
  rewrite Z.shiftr_div_pow2 by lia. change (2 ^ 16) with 65536.
  split; [done|]. apply Z.div_lt_upper_bound; nia.
Qed.

Lemma low16_range s : 0 <= Z.land (u32 s) 0xFFFF < 65536.
Proof.
  change 0xFFFF with (Z.ones 16). rewrite land_mask by lia.
  apply (Z.mod_pos_bound _ 65536). lia.
Qed.

(** [get] on an ordered, non-empty range: the closed form of the draw. *)
Definition draw (lo hi : Z) (s : Z) : Z :=
  i32 (i32 (Z.shiftr (u32 (i32 (Z.land (u32 s) 0xFFFF * i32 (hi - lo)))) 16) + lo).

Lemma get_ordered lo hi r :
  lo < hi -> get lo hi r = (draw lo hi (fst (advance r)), snd (advance r)).
Proof.
  intros H. unfold get, draw.
  replace (lo =? hi) with false by (symmetry; apply Z.eqb_neq; lia).
  replace (hi <? lo) with false by (symmetry; apply Z.ltb_ge; lia).
  destruct (advance r) as [s r']. done.
Qed.

Lemma get_swapped lo hi r : hi < lo -> get lo hi r = get hi lo r.
Proof.
  intros H. unfold get.
  replace (lo =? hi) with false by (symmetry; apply Z.eqb_neq; lia).
  replace (hi =? lo) with false by (symmetry; apply Z.eqb_neq; lia).
  replace (hi <? lo) with true by (symmetry; apply Z.ltb_lt; lia).
  replace (lo <? hi) with false by (symmetry; apply Z.ltb_ge; lia). done.
Qed.

Lemma draw_range lo hi s :
  in_s 32 lo -> in_s 32 hi -> lo < hi ->
  lo <= draw lo hi s < hi /\ draw lo hi s < lo + 65536.
Proof.
  intros Hlo Hhi Hlt. unfold draw.
  set (r16 := Z.land (u32 s) 0xFFFF).
  pose proof (low16_range s) as Hr. fold r16 in Hr.
  pose proof (wrap_s_range 32 (hi - lo)) as Hsp.
  pose proof (get_scaled_range r16 (i32 (hi - lo)) Hr) as Hsc.
  set (x := Z.shiftr _ 16) in *.
  assert (Hx : x < hi - lo).
  { destruct (decide (hi - lo <= 65536)).
    - subst x. rewrite (wrap_s_id 32 (hi - lo)) by (ranges; lia).
      destruct (get_scaled_lt r16 (hi - lo)) as [-> ?]; lia.
    - ranges. lia. }
  rewrite (wrap_s_id 32 x) by (ranges; lia).
  rewrite wrap_s_id by (ranges; lia). ranges. lia.
Qed.

(** [Random::get] is half-open on every range of [i32] arguments: between
    two distinct bounds, in either order and with no restriction on their
    distance (the span may wrap), the value drawn lies in [[min, max)] and
    within [65536] of the lower bound, and the state advances exactly once. *)
Theorem get_half_open (lo hi : Z) (r : t)
  (Hlo : is_i32 lo) (Hhi : is_i32 hi) (Hne : lo <> hi) :
  let '(v, r') := get lo hi r in
  Z.min lo hi <= v < Z.max lo hi /\ v < Z.min lo hi + 65536 /\ r' = snd (advance r).
Proof.
  destruct (decide (lo < hi)) as [Hlt|Hge].
  - rewrite get_ordered by done.
    pose proof (draw_range lo hi (fst (advance r)) Hlo Hhi Hlt). split; [lia|]. split; [lia|done].
  - rewrite get_swapped, get_ordered by lia.
    pose proof (draw_range hi lo (fst (advance r)) Hhi Hlo ltac:(lia)).
    split; [lia|]. split; [lia|done].
Qed.

Lemma get_half_open_witness :
  let '(v, r') := get 100 (-2147483648) (new 12345) in
  -2147483648 <= v < 100 /\ v < -2147483648 + 65536 /\ r' = snd (advance (new 12345)).
Proof.
  apply (get_half_open 100 (-2147483648) (new 12345)); [ranges; lia|ranges; lia|lia].
Defined.

(** The generator has full period: from any state, [n] draws return to
    that state exactly when [2^32] divides [n]; so every one of the [2^32]
    states is visited once per period. *)
Theorem advance_full_period (n : nat) (r : t) :
  u32 (advance_n n r).(state) = u32 r.(state) <-> (2 ^ 32 | Z.of_nat n).
Proof.
  rewrite advance_n_iter. split.
  - intros H. destruct (iter_step_return _ _ 32 ltac:(lia) H) as [m ->].
    exists (Z.of_nat m). rewrite Nat2Z.inj_mul, Nat2Z.inj_pow. lia.
  - intros [m Hm].
    assert (n = Z.to_nat m * 2 ^ 32)%nat as ->.
    { apply Nat2Z.inj. rewrite Nat2Z.inj_mul, Nat2Z.inj_pow, Z2Nat.id by lia. lia. }
    apply iter_step_mul, iter_step_pow32.
Qed.

End Random.
