(* ===== verification/SimContainer.v ===== *)
(** * The engine's growable containers

    [crates/don-sim/src/container.rs]: [EngineArray] and [EngineStack] carry
    the engine's own capacity ([size]) and growth hint ([increment]) because
    both words are walked into the lockstep checksum.  The Rust [Vec] behind
    them is a list; [Vec::reserve] has no observable effect and is left out. *)

From S2P Require Import Prelude.

Definition INCREMENT_DOUBLE : Z := -1.
Definition ARRAY_INITIAL_SIZE : Z := 5.
Definition STACK_INITIAL_SIZE : Z := 10.
Definition EMPTY_GROWTH : Z := 4.
Definition FLAG_LENGTH_TRACKS_SIZE : Z := 0x80.

(** [increase_by(hint, size)]: the sizing decision of [increase_size]. *)
Definition increase_by (hint size : Z) : Z :=
  if hint =? 0 then 0
  else if hint <? 0 then (if negb (size =? 0) then size else EMPTY_GROWTH)
  else hint.

Module EngineArray.
Section array.
Context {T : Type} (default : T).

Record t := mk { items : list T; size : Z; increment : Z; flags : Z }.

Definition new : t := mk [] ARRAY_INITIAL_SIZE INCREMENT_DOUBLE 0.
Definition with_size (size increment : Z) : t := mk [] size increment 0.
Definition len (a : t) : nat := length a.(items).
Definition is_empty (a : t) : bool := bool_decide (a.(items) = []).
Definition set_flags (f : Z) (a : t) : t := mk a.(items) a.(size) a.(increment) f.

(** [Vec::resize(n, T::default())]. *)
Definition vec_resize (n : nat) (l : list T) : list T :=
  take n l ++ replicate (n - length l) default.

Definition increase_size (hint : Z) (a : t) : t :=
  let by_ := increase_by hint a.(size) in
  if by_ =? 0 then a
  else
    let size' := i32 (a.(size) + by_) in
    let items' :=
      if negb (Z.land a.(flags) FLAG_LENGTH_TRACKS_SIZE =? 0)
      then vec_resize (Z.to_nat (Z.max size' 0)) a.(items)
      else a.(items) in
    mk items' size' a.(increment) a.(flags).

Definition add (v : T) (a : t) : nat * t :=
  let a' := if a.(size) <=? i32 (Z.of_nat (len a))
            then increase_size a.(increment) a else a in
  let items' := a'.(items) ++ [v] in
  (length items' - 1, mk items' a'.(size) a'.(increment) a'.(flags))%nat.

Definition get (i : nat) (a : t) : option T := a.(items) !! i.

Definition remove (i : nat) (a : t) : option T * t :=
  match a.(items) !! i with
  | Some v => (Some v, mk (delete i a.(items)) a.(size) a.(increment) a.(flags))
  | None => (None, a)
  end.

Definition clear (a : t) : t := mk [] a.(size) a.(increment) a.(flags).

(** [checksum_header]: length, size, increment, flags in walk order. *)
Definition checksum_header (a : t) : Z * Z * Z * Z :=
  (i32 (Z.of_nat (len a)), a.(size), a.(increment), a.(flags)).

(** ** Operation sequences *)

Inductive op := Add (v : T) | Remove (i : nat) | Clear.

Definition exec (o : op) (a : t) : t :=
  match o with
  | Add v => snd (add v a)
  | Remove i => snd (remove i a)
  | Clear => clear a
  end.

Definition run (ops : list op) (a : t) : t := fold_left (fun a o => exec o a) ops a.

(** What the operations mean on a plain list. *)
Definition list_exec (l : list T) (o : op) : list T :=
  match o with
  | Add v => l ++ [v]
  | Remove i => delete i l
  | Clear => []
  end.

(** The doubling regime: the default hint, no length pinning, a capacity
    of the form [5 * 2^k] below the [i32] limit that holds the elements. *)
Definition doubling (k : nat) (a : t) : Prop :=
  a.(size) = 5 * 2 ^ Z.of_nat k /\ a.(increment) = INCREMENT_DOUBLE /\ a.(flags) = 0 /\
  Z.of_nat (len a) <= a.(size) /\ a.(size) <= 5 * 2 ^ 28.

Lemma doubling_new : doubling 0 new.
Proof. unfold doubling, new, len. simpl. by repeat split; vm_compute. Qed.

Lemma pow_bound k : 5 * 2 ^ Z.of_nat k <= 5 * 2 ^ 28 -> (k <= 28)%nat.
Proof.
  intros H. destruct (decide (k <= 28)%nat); [done|].
  assert (2 ^ 29 <= 2 ^ Z.of_nat k) by (apply Z.pow_le_mono_r; lia).
  ranges. lia.
Qed.

(** One [add] in the doubling regime: the element lands at the end, and the
    capacity doubles exactly when it was full. *)
Lemma add_doubling k v a :
  doubling k a -> Z.of_nat (len a) < 5 * 2 ^ 28 ->
  let '(i, a') := add v a in
  i = len a /\ a'.(items) = a.(items) ++ [v] /\
  ((Z.of_nat (len a) < a.(size) /\ doubling k a') \/
   (Z.of_nat (len a) = a.(size) /\ doubling (S k) a')).
Proof.
  intros (Hs & Hi & Hf & Hl & Hb) Hn. unfold add.
  pose proof (pow_bound k ltac:(lia)) as Hk.
  assert (0 < 2 ^ Z.of_nat k) by (apply Z.pow_pos_nonneg; lia).
  rewrite wrap_s_id by (try lia; ranges; lia).
  destruct (a.(size) <=? Z.of_nat (len a)) eqn:E; bool_hyps.
  - assert (Z.of_nat (len a) = a.(size)) as Heq by lia.
    assert (Hk' : (k < 28)%nat).
    { destruct (decide (k = 28%nat)) as [->|]; [|lia]. ranges. lia. }
    unfold increase_size, increase_by. rewrite Hi, Hf. simpl.
    replace (a.(size) =? 0) with false by (symmetry; apply Z.eqb_neq; lia). simpl.
    replace (a.(size) =? 0) with false by (symmetry; apply Z.eqb_neq; lia). simpl.
    assert (2 ^ Z.of_nat (S k) = 2 * 2 ^ Z.of_nat k) as Hp
      by (rewrite Nat2Z.inj_succ, Z.pow_succ_r; lia).
    assert (2 ^ Z.of_nat (S k) <= 2 ^ 28) by (apply Z.pow_le_mono_r; lia).
    rewrite wrap_s_id by (try lia; ranges; lia).
    rewrite length_app. simpl. split; [unfold len; lia|]. split; [done|].
    right. split; [done|]. unfold doubling, len; simpl. rewrite length_app. simpl.
    unfold len in *. repeat split; try done; lia.
  - rewrite length_app. simpl. split; [unfold len; lia|]. split; [done|].
    left. split; [lia|]. unfold doubling, len in *; simpl. rewrite length_app. simpl.
    repeat split; try done; lia.
Qed.

Lemma exec_doubling k o a :
  doubling k a -> (forall v, o = Add v -> Z.of_nat (len a) < 5 * 2 ^ 28) ->
  (exec o a).(items) = list_exec a.(items) o /\
  exists k', (k <= k' <= S k)%nat /\ doubling k' (exec o a) /\
    (k' = S k -> Z.of_nat (len a) = 5 * 2 ^ Z.of_nat k /\ exists v, o = Add v).
Proof.
  intros Hd Hn. destruct o as [v|i|]; cbn [exec list_exec].
  - pose proof (add_doubling k v a Hd (Hn v eq_refl)) as H.
    destruct (add v a) as [j a'] eqn:E; cbn [snd].
    destruct H as (_ & -> & [[? ?]|[? ?]]); (split; [done|]).
    + exists k. split; [lia|]. split; [done|]. intros; lia.
    + exists (S k). split; [lia|]. split; [done|]. intros _.
      destruct Hd as (<- & _). split; [done|by eauto].
  - unfold remove. destruct (a.(items) !! i) eqn:E; simpl.
    + split; [done|]. exists k. split; [lia|]. split; [|intros; lia].
      destruct Hd as (? & ? & ? & ? & ?). unfold doubling, len in *; simpl.
      pose proof (lookup_lt_Some _ _ _ E).
      rewrite length_delete by eauto. repeat split; try done; lia.
    + split; [by rewrite list_delete_ge by (by apply lookup_ge_None)|].
      exists k. split; [lia|]. split; [done|]. intros; lia.
  - split; [done|]. exists k. split; [lia|]. split; [|intros; lia].
    destruct Hd as (? & ? & ? & ? & ?). unfold doubling, len in *; simpl. repeat split; try done; lia.
Qed.

(** The longest prefix of an operation sequence the array ever held. *)
Fixpoint peak (l : list T) (ops : list op) : nat :=
  match ops with
  | [] => length l
  | o :: ops => Nat.max (length l) (peak (list_exec l o) ops)
  end.

Lemma peak_ge_length l ops : (length l <= peak l ops)%nat.
Proof. destruct ops; simpl; lia. Qed.

Lemma run_doubling ops k a :
  doubling k a -> Z.of_nat (peak a.(items) ops) <= 5 * 2 ^ 28 ->
  (run ops a).(items) = fold_left list_exec ops a.(items) /\
  exists k', (k <= k')%nat /\ doubling k' (run ops a) /\
    Z.of_nat (peak a.(items) ops) <= 5 * 2 ^ Z.of_nat k' /\
    (k' = k \/ 5 * 2 ^ Z.of_nat (k' - 1) < Z.of_nat (peak a.(items) ops)).
Proof.
  revert k a; induction ops as [|o ops IH]; intros k a Hd Hp.
  { simpl. split; [done|]. exists k. split; [lia|]. split; [done|].
    split; [|by left]. destruct Hd as (<- & _ & _ & ? & _). done. }
  cbn [run fold_left] in *. fold (run ops (exec o a)).
  assert (Hlen : Z.of_nat (len a) <= 5 * 2 ^ 28) by (unfold len; simpl in Hp; lia).
  destruct (exec_doubling k o a Hd) as (Hi & k1 & Hk1 & Hd1 & Hgrow).
  { intros v ->. simpl in Hp. pose proof (peak_ge_length (a.(items) ++ [v]) ops) as Hpk.
    rewrite length_app in Hpk. simpl in Hpk. unfold len. lia. }
  destruct (IH k1 (exec o a) Hd1) as (Hi2 & k2 & Hk2 & Hd2 & Hpk & Hmin).
  { rewrite Hi. simpl in Hp. lia. }
  rewrite Hi in *. split; [done|]. exists k2. split; [lia|]. split; [done|].
  simpl. assert (5 * 2 ^ Z.of_nat k <= 5 * 2 ^ Z.of_nat k2).
  { apply Z.mul_le_mono_nonneg_l; [lia|]. apply Z.pow_le_mono_r; lia. }
  split. { destruct Hd as (? & _ & _ & ? & _). unfold len in *. lia. }
  destruct Hmin as [->|Hmin]; [|right; lia].
  destruct (decide (k1 = k)) as [->|]; [by left|]. right.
  assert (k1 = S k) as -> by lia. destruct (Hgrow eq_refl) as (Hfull & v & ->).
  simpl. replace (k - 0)%nat with k by lia.
  pose proof (peak_ge_length (a.(items) ++ [v]) ops) as Hpk2.
  rewrite length_app in Hpk2. simpl in *. unfold len in *. lia.
Qed.
End array.
Arguments t T : clear implicits.
Arguments op T : clear implicits.

(** An array built by the default constructor refines a list and its
    checksummed capacity is a function of the longest length it ever had:
    after any sequence of [add], [remove] and [clear] the elements are those
    of the plain list, and the capacity is the least [5 * 2^k] that holds the
    peak length (never reduced by a removal), up to the [i32] limit. *)
Theorem run_refines_list {T} (d : T) (ops : list (op T))
  (Hpeak : Z.of_nat (peak [] ops) <= 5 * 2 ^ 28) :
  (run d ops new).(items) = fold_left list_exec ops [] /\
  exists k, (run d ops new).(size) = 5 * 2 ^ Z.of_nat k /\
    Z.of_nat (peak [] ops) <= 5 * 2 ^ Z.of_nat k /\
    (k = 0%nat \/ 5 * 2 ^ Z.of_nat (k - 1) < Z.of_nat (peak [] ops)).
Proof.
  destruct (run_doubling d ops 0 new doubling_new Hpeak) as (? & k & ? & (? & _) & ? & ?).
  split; [done|]. exists k. auto.
Qed.

Definition demo_ops : list (op Z) :=
  [Add 1; Add 2; Add 3; Add 4; Add 5; Add 6; Add 7; Remove 2; Clear; Add 9].

Lemma run_refines_list_witness :
  Z.of_nat (peak [] demo_ops) = 7 /\
  (run 0 demo_ops new).(items) = fold_left list_exec demo_ops [] /\
  exists k, (run 0 demo_ops new).(size) = 5 * 2 ^ Z.of_nat k /\
    Z.of_nat (peak [] demo_ops) <= 5 * 2 ^ Z.of_nat k /\
    (k = 0%nat \/ 5 * 2 ^ Z.of_nat (k - 1) < Z.of_nat (peak [] demo_ops)).
Proof.
  split; [reflexivity|]. apply (run_refines_list 0 demo_ops). vm_compute. discriminate.
Defined.

End EngineArray.

Module EngineStack.
Section stack.
Context {T : Type}.

Record t := mk { items : list T; size : Z; increment : Z }.

Definition new (increment : Z) : t := mk [] STACK_INITIAL_SIZE increment.

(** [push]: [None] is the panic of a full stack whose hint is zero. *)
Definition push (v : T) (s : t) : option (nat * t) :=
  if s.(size) <=? i32 (Z.of_nat (length s.(items))) then
    let by_ := increase_by s.(increment) s.(size) in
    if by_ =? 0 then None
    else Some (length s.(items), mk (s.(items) ++ [v]) (i32 (s.(size) + by_)) s.(increment))
  else Some (length s.(items), mk (s.(items) ++ [v]) s.(size) s.(increment)).

Definition pop (s : t) : option T * t :=
  match last s.(items) with
  | Some v => (Some v, mk (take (length s.(items) - 1) s.(items)) s.(size) s.(increment))
  | None => (None, s)
  end.

Definition peek (s : t) : option T := last s.(items).
Definition clear (s : t) : t := mk [] s.(size) s.(increment).

(** [checksum_header]: size, length, increment. *)
Definition checksum_header (s : t) : Z * Z * Z :=
  (s.(size), i32 (Z.of_nat (length s.(items))), s.(increment)).

Lemma push_items v s i s' : push v s = Some (i, s') ->
  i = length s.(items) /\ s'.(items) = s.(items) ++ [v] /\ s'.(increment) = s.(increment).
Proof. unfold push. intros H. repeat case_match; naive_solver. Qed.

Lemma push_pop v s i s' : push v s = Some (i, s') ->
  pop s' = (Some v, mk s.(items) s'.(size) s.(increment)).
Proof.
  intros H. apply push_items in H as (_ & Hi & Hn).
  unfold pop. rewrite Hi, last_snoc, length_app. simpl.
  rewrite Nat.add_sub, take_app_length. by rewrite Hn.
Qed.
End stack.
Arguments t T : clear implicits.

(** A [push] fails only where the engine would overrun its buffer (a full
    stack with a zero growth hint); otherwise it returns the index written,
    the next [pop] gives the value back and restores the elements, and the
    capacity grows by the hint (or doubles, or becomes [4] from empty) exactly
    when the stack was full. *)
Theorem push_spec {T} (v : T) (s : t T) :
  match push v s with
  | None => s.(increment) = 0 /\ s.(size) <= i32 (Z.of_nat (length s.(items)))
  | Some (i, s') =>
      i = length s.(items) /\
      pop s' = (Some v, mk s.(items) s'.(size) s.(increment)) /\
      s'.(size) = if s.(size) <=? i32 (Z.of_nat (length s.(items)))
                  then i32 (s.(size) + increase_by s.(increment) s.(size)) else s.(size)
  end.
Proof.
  destruct (push v s) as [[i s']|] eqn:E.
  - split; [by apply push_items in E as (? & _)|]. split; [by eapply push_pop|].
    unfold push in E. repeat case_match; naive_solver.
  - unfold push, increase_by, EMPTY_GROWTH in E. repeat case_match; bool_hyps; naive_solver.
Qed.

End EngineStack.
