(* ===== verification/SimChecksum.v ===== *)
(** * The lockstep checksum primitive

    [crates/don-sim/src/checksum.rs]: [adler32] with the engine's reduction
    schedule (a modulus every [NMAX] bytes, sixteen bytes per unrolled block),
    the [DataWalk] visitor interface and its two implementations, the
    [Adler32] accumulator and the [ByteSink]. *)

From S2P Require Import Prelude.

Definition ADLER_BASE : Z := 65521.
Definition ADLER_NMAX : nat := Z.to_nat 5552.

(** The body of both inner loops: [s1 += b; s2 += s1], at [u32]. *)
Definition adler_byte (s : Z * Z) (b : Z) : Z * Z :=
  let s1 := u32 (s.1 + b) in (s1, u32 (s.2 + s1)).

(** [slice.chunks_exact(n)]. *)
Fixpoint chunks_exact (fuel n : nat) (l : list Z) : list (list Z) :=
  match fuel with
  | O => []
  | S fuel => if decide (n <= length l)%nat
              then take n l :: chunks_exact fuel n (drop n l) else []
  end.

(** One iteration of the outer loop: blocks of sixteen, the remainder, then
    both moduli. *)
Definition adler_chunk (s : Z * Z) (chunk : list Z) : Z * Z :=
  let k := length chunk in
  let split := (k - k mod 16)%nat in
  let blocks := take split chunk in
  let tail := drop split chunk in
  let s := fold_left (fun s b16 => fold_left adler_byte b16 s)
             (chunks_exact (length blocks) 16 blocks) s in
  let s := fold_left adler_byte tail s in
  (s.1 mod ADLER_BASE, s.2 mod ADLER_BASE).

(** [while i < buf.len()]; the argument is [&buf[i..]].  Every iteration
    consumes a byte, so [length buf] iterations are enough. *)
Fixpoint adler_loop (fuel : nat) (s : Z * Z) (buf : list Z) : Z * Z :=
  match fuel with
  | O => s
  | S fuel =>
      match buf with
      | [] => s
      | _ => let k := Nat.min ADLER_NMAX (length buf) in
             adler_loop fuel (adler_chunk s (take k buf)) (drop k buf)
      end
  end.

Definition adler32 (adler : Z) (buf : bytes) : Z :=
  let s := adler_loop (length buf) (Z.land adler 0xFFFF, Z.shiftr adler 16) buf in
  Z.lor (u32 (Z.shiftl s.2 16)) s.1.

Definition adler32_or_null (adler : Z) (buf : option bytes) : Z :=
  match buf with None => 1 | Some b => adler32 adler b end.

(** The [DataWalk] visitor: state passing, with the trait's default methods. *)
Class DataWalk (W : Type) := {
  walk : W -> bytes -> W;
  walk_tag : W -> Z -> W;
  is_checksum : W -> bool;
  mask : W -> Z;
}.

Module Adler32.
Record t := mk { checksum : Z; walked : nat }.
Definition new : t := mk 1 0.
Definition with_seed (seed : Z) : t := mk seed 0.
Definition update (a : t) (bs : bytes) : t :=
  mk (adler32 a.(checksum) bs) (a.(walked) + length bs).
Definition finish (a : t) : Z := a.(checksum).
End Adler32.

#[export] Instance Adler32_DataWalk : DataWalk Adler32.t := {
  walk := Adler32.update;
  walk_tag := fun a _ => a;
  is_checksum := fun _ => true;
  mask := fun _ => U32_MAX;
}.

Module ByteSink.
Definition t : Type := bytes.
Definition new : t := [].
Definition checksum (s : t) : Z := adler32 1 s.

(** [(0..n).find(..)] over the common prefix, then the length test. *)
Fixpoint find_diff (i n : nat) (a b : t) : option nat :=
  match n with
  | O => None
  | S n => if negb (byte_at a i =? byte_at b i) then Some i else find_diff (S i) n a b
  end.
Definition first_difference (a b : t) : option nat :=
  let n := Nat.min (length a) (length b) in
  match find_diff 0 n a b with
  | Some i => Some i
  | None => if decide (length a = length b) then None else Some n
  end.
End ByteSink.

#[export] Instance ByteSink_DataWalk : DataWalk ByteSink.t := {
  walk := fun s bs => (s ++ bs : bytes);
  walk_tag := fun s _ => s;
  is_checksum := fun _ => true;
  mask := fun _ => U32_MAX;
}.

(** A traversal offers the visitor a sequence of byte spans. *)
Definition walk_all {W} `{DataWalk W} (spans : list bytes) (w : W) : W :=
  fold_left walk spans w.

(** ** Reference definition: Adler-32 with a modulus at every byte *)

Definition adler_step (s : Z * Z) (b : Z) : Z * Z :=
  let s1 := (s.1 + b) mod ADLER_BASE in (s1, (s.2 + s1) mod ADLER_BASE).
Definition adler_ref (s : Z * Z) (buf : bytes) : Z * Z := fold_left adler_step buf s.
Definition adler_join (s : Z * Z) : Z := s.2 * 65536 + s.1.
Definition adler_split (a : Z) : Z * Z := (a mod 65536, a / 65536).

(** Unbounded sums, the bridge between the two. *)
Definition adler_exact (s : Z * Z) (b : Z) : Z * Z := (s.1 + b, s.2 + (s.1 + b)).

Lemma NMAX_val : Z.of_nat ADLER_NMAX = 5552.
Proof. reflexivity. Qed.

Lemma concat_chunks_exact fuel n l :
  (0 < n)%nat -> (length l <= fuel * n)%nat -> (n | length l)%nat ->
  concat (chunks_exact fuel n l) = l.
Proof.
  intros Hn. revert l; induction fuel as [|fuel IH]; intros l Hl Hd; simpl.
  { destruct l; [done|simpl in Hl; lia]. }
  destruct (decide (n <= length l)%nat) as [Hle|Hgt]; simpl.
  - rewrite IH; [by rewrite take_drop|rewrite length_drop; lia|].
    rewrite length_drop. by apply Nat.divide_sub_r.
  - destruct l; [done|]. destruct Hd as [q Hq]. simpl in *. destruct q; simpl in *; lia.
Qed.

Lemma fold_left_concat {A B} (f : A -> B -> A) ls s :
  fold_left (fun s l => fold_left f l s) ls s = fold_left f (concat ls) s.
Proof. revert s; induction ls as [|l ls IH]; intros s; simpl; [done|]. by rewrite IH, fold_left_app. Qed.

Lemma adler_chunk_flat s chunk :
  adler_chunk s chunk =
  let s' := fold_left adler_byte chunk s in (s'.1 mod ADLER_BASE, s'.2 mod ADLER_BASE).
Proof.
  unfold adler_chunk. set (k := length chunk). set (sp := (k - k mod 16)%nat).
  assert (Hlen : length (take sp chunk) = sp) by (rewrite length_take; unfold sp, k; lia).
  rewrite fold_left_concat, concat_chunks_exact.
  - by rewrite <- fold_left_app, take_drop.
  - lia.
  - rewrite Hlen. lia.
  - rewrite Hlen. exists (k / 16)%nat. unfold sp. pose proof (Nat.div_mod_eq k 16). lia.
Qed.

(** No addition of a chunk wraps: from halves below [2^16], [NMAX] bytes stay
    below [2^32].  This is what fixes the chunk size. *)
Lemma adler_byte_exact bs a b :
  bytes_ok bs -> 0 <= a -> 0 <= b ->
  a + 255 * Z.of_nat (length bs) < 2 ^ 32 ->
  2 * b + 2 * Z.of_nat (length bs) * a
    + 255 * Z.of_nat (length bs) * (Z.of_nat (length bs) + 1) < 2 * 2 ^ 32 ->
  fold_left adler_byte bs (a, b) = fold_left adler_exact bs (a, b).
Proof.
  intros Hbs. revert a b; induction Hbs as [|x bs Hx Hbs IH]; intros a b Ha Hb H1 H2; [done|].
  cbn [fold_left length] in *. rewrite Nat2Z.inj_succ in *.
  set (n := Z.of_nat (length bs)) in *. assert (0 <= n) by (unfold n; lia).
  unfold adler_byte at 2, adler_exact at 2; cbn [fst snd].
  ranges. rewrite (wrap_u_id 32 (a + x)) by (ranges; nia).
  rewrite (wrap_u_id 32) by (ranges; nia).
  apply IH; ranges; nia.
Qed.

Lemma adler_exact_ref bs a b :
  let e := fold_left adler_exact bs (a, b) in
  (e.1 mod ADLER_BASE, e.2 mod ADLER_BASE) =
  adler_ref (a mod ADLER_BASE, b mod ADLER_BASE) bs.
Proof.
  revert a b; induction bs as [|x bs IH]; intros a b; [done|].
  cbn [fold_left]. unfold adler_exact at 2; cbn [fst snd]. rewrite IH.
  unfold adler_ref; cbn [fold_left]. f_equal. unfold adler_step; cbn [fst snd].
  rewrite Zplus_mod_idemp_l. f_equal. by rewrite <- Zplus_mod.
Qed.

Lemma adler_ref_mod bs a b :
  bs <> [] -> adler_ref (a mod ADLER_BASE, b mod ADLER_BASE) bs = adler_ref (a, b) bs.
Proof.
  destruct bs as [|x bs]; [done|]. intros _. unfold adler_ref; cbn [fold_left]. f_equal.
  unfold adler_step; cbn [fst snd]. rewrite Zplus_mod_idemp_l. f_equal.
  by rewrite Zplus_mod_idemp_l.
Qed.

Lemma adler_ref_range bs s :
  bs <> [] -> 0 <= (adler_ref s bs).1 < ADLER_BASE /\ 0 <= (adler_ref s bs).2 < ADLER_BASE.
Proof.
  intros Hne. destruct (exists_last Hne) as (l & x & ->).
  unfold adler_ref. rewrite fold_left_app. cbn [fold_left].
  unfold adler_step at 1 3; cbn [fst snd]. split; apply Z.mod_pos_bound; unfold ADLER_BASE; lia.
Qed.

Lemma adler_chunk_ref bs a b :
  bytes_ok bs -> bs <> [] -> (length bs <= ADLER_NMAX)%nat ->
  0 <= a < 65536 -> 0 <= b < 65536 ->
  adler_chunk (a, b) bs = adler_ref (a, b) bs.
Proof.
  intros Hok Hne Hlen Ha Hb. rewrite adler_chunk_flat. cbn zeta.
  pose proof NMAX_val.
  rewrite adler_byte_exact by (try done; ranges; nia).
  pose proof (adler_exact_ref bs a b) as E. cbn zeta in E. rewrite E.
  by apply adler_ref_mod.
Qed.

Lemma adler_loop_ref fuel bs s :
  bytes_ok bs -> bs <> [] -> (length bs <= fuel)%nat ->
  0 <= s.1 < 65536 -> 0 <= s.2 < 65536 ->
  adler_loop fuel s bs = adler_ref s bs.
Proof.
  revert bs s; induction fuel as [|fuel IH]; intros bs [a b] Hok Hne Hf Ha Hb.
  { destruct bs; simpl in Hf; [done|lia]. }
  cbn [adler_loop]. destruct bs as [|x bs]; [done|]. set (l := x :: bs) in *.
  set (k := Nat.min ADLER_NMAX (length l)).
  assert (Hk : (0 < k <= ADLER_NMAX)%nat) by (pose proof NMAX_val; unfold k, l; cbn [length]; lia).
  assert (Ht : take k l <> []) by (unfold l; destruct k; [lia|done]).
  rewrite adler_chunk_ref; try done; [|by apply bytes_ok_take|rewrite length_take; lia].
  destruct (decide (drop k l = [])) as [E|Hd].
  - rewrite E. destruct fuel; cbn [adler_loop];
      rewrite <- (take_drop k l) at 2; by rewrite E, app_nil_r.
  - pose proof (adler_ref_range (take k l) (a, b) Ht) as [H1 H2].
    rewrite IH; [|by apply bytes_ok_drop|done| |unfold ADLER_BASE in *; lia..].
    + unfold adler_ref. by rewrite <- fold_left_app, take_drop.
    + rewrite length_drop. lia.
Qed.

Lemma adler_join_lor s :
  0 <= s.1 < 65536 -> 0 <= s.2 < 65536 ->
  Z.lor (u32 (Z.shiftl s.2 16)) s.1 = adler_join s.
Proof.
  intros H1 H2. unfold adler_join.
  rewrite Z.shiftl_mul_pow2 by lia. change (2 ^ 16) with 65536.
  rewrite wrap_u_id by (ranges; lia). by apply (lor_join 16).
Qed.

Lemma adler_split_halves a : in_u 32 a ->
  (Z.land a 0xFFFF, Z.shiftr a 16) = adler_split a /\
  0 <= (adler_split a).1 < 65536 /\ 0 <= (adler_split a).2 < 65536.
Proof.
  intros Ha. unfold adler_split. change 0xFFFF with (Z.ones 16).
  rewrite land_mask, Z.shiftr_div_pow2 by lia. split; [done|].
  change (2 ^ 16) with 65536. ranges. split; [apply Z.mod_pos_bound; lia|]. cbn [snd].
  split; [apply Z.div_pos; lia|apply Z.div_lt_upper_bound; lia].
Qed.

Lemma adler_split_join s : 0 <= s.1 < 65536 -> adler_split (adler_join s) = s.
Proof.
  intros H. unfold adler_split, adler_join. destruct s as [a b]; cbn [fst snd] in *.
  rewrite Z.add_comm, Z_mod_plus_full, Z.mod_small, Z.div_add, Z.div_small by lia. done.
Qed.

Lemma adler_join_split a : adler_join (adler_split a) = a.
Proof. unfold adler_join, adler_split. cbn [fst snd]. pose proof (Z.div_mod a 65536). lia. Qed.

Lemma adler32_nil a : in_u 32 a -> adler32 a [] = a.
Proof.
  intros Ha. unfold adler32. cbn [length adler_loop].
  destruct (adler_split_halves a Ha) as (-> & ? & ?).
  rewrite adler_join_lor by done. apply adler_join_split.
Qed.

Lemma adler32_ref a buf : in_u 32 a -> bytes_ok buf -> buf <> [] ->
  adler32 a buf = adler_join (adler_ref (adler_split a) buf).
Proof.
  intros Ha Hb Hne. unfold adler32.
  destruct (adler_split_halves a Ha) as (-> & ? & ?).
  rewrite adler_loop_ref by done.
  destruct (adler_ref_range buf (adler_split a) Hne). unfold ADLER_BASE in *.
  apply adler_join_lor; lia.
Qed.

Lemma adler32_range a buf : in_u 32 a -> bytes_ok buf -> in_u 32 (adler32 a buf).
Proof.
  intros Ha Hb. destruct (decide (buf = [])) as [->|Hne]; [by rewrite adler32_nil|].
  rewrite adler32_ref by done.
  destruct (adler_ref_range buf (adler_split a) Hne). unfold ADLER_BASE, adler_join in *.
  ranges. lia.
Qed.

Lemma adler32_app a x y : in_u 32 a -> bytes_ok x -> bytes_ok y ->
  adler32 (adler32 a x) y = adler32 a (x ++ y).
Proof.
  intros Ha Hx Hy.
  destruct (decide (x = [])) as [->|Hnx]; [by rewrite adler32_nil|].
  destruct (decide (y = [])) as [->|Hny].
  { rewrite app_nil_r, adler32_nil; [done|by apply adler32_range]. }
  assert (bytes_ok (x ++ y)) by (by apply bytes_ok_app).
  assert (x ++ y <> []) by (by destruct x).
  assert (in_u 32 (adler32 a x)) by (by apply adler32_range).
  rewrite (adler32_ref (adler32 a x) y), (adler32_ref a (x ++ y)), (adler32_ref a x) by done.
  destruct (adler_ref_range x (adler_split a) Hnx). unfold ADLER_BASE in *.
  rewrite adler_split_join by lia. unfold adler_ref. by rewrite fold_left_app.
Qed.

(** (C35) [adler32] with the engine's schedule (no reduction inside a chunk of
    [5552] bytes, sixteen-byte blocks, [u32] additions) never wraps and equals
    the textbook Adler-32 that reduces at every byte, from any incoming value;
    an empty buffer returns the incoming value. *)
Theorem adler32_correct (adler : Z) (buf : bytes)
  (Ha : is_u32 adler) (Hb : bytes_ok buf) :
  adler32 adler buf =
    if decide (buf = []) then adler else adler_join (adler_ref (adler_split adler) buf).
Proof.
  case_decide as E; [subst; by apply adler32_nil | by apply adler32_ref].
Qed.

Lemma adler32_correct_witness :
  adler32 1 [119; 105; 107; 105] = 0x045A01B5 /\
  adler32 1 [119; 105; 107; 105] = adler_join (adler_ref (adler_split 1) [119; 105; 107; 105]).
Proof.
  split; [reflexivity|].
  apply (adler32_correct 1 [119; 105; 107; 105]);
    [ranges; lia | repeat (constructor; [ranges; lia|]); constructor].
Defined.

(** Walking the same spans into both visitors. *)
Lemma walk_all_sink spans (s : ByteSink.t) : walk_all spans s = s ++ concat spans.
Proof.
  revert s; induction spans as [|x l IH]; intros s; simpl; [by rewrite app_nil_r|].
  rewrite IH. by rewrite <- app_assoc.
Qed.

Lemma walk_all_adler spans (a : Adler32.t) :
  in_u 32 a.(Adler32.checksum) -> Forall bytes_ok spans ->
  walk_all spans a = Adler32.mk (adler32 a.(Adler32.checksum) (concat spans))
                                (a.(Adler32.walked) + length (concat spans)).
Proof.
  intros Ha Hs. revert a Ha; induction Hs as [|x l Hx Hl IH]; intros a Ha; simpl.
  { rewrite adler32_nil, Nat.add_0_r by done. by destruct a. }
  rewrite IH by (by apply adler32_range). unfold Adler32.update; cbn.
  rewrite adler32_app; try done.
  - f_equal. rewrite length_app. lia.
  - clear -Hl. induction Hl; simpl; [constructor|by apply bytes_ok_app].
Qed.

(** One traversal, two visitors: whatever spans a [walk_data] offers and
    however it cuts them, the [Adler32] accumulator ends with the checksum of
    the bytes a [ByteSink] collects from the same traversal, and its byte
    count is the number of bytes collected. *)
Theorem walk_adler_sink (spans : list bytes) (Hs : Forall bytes_ok spans) :
  Adler32.finish (walk_all spans Adler32.new)
    = ByteSink.checksum (walk_all spans ByteSink.new) /\
  Adler32.walked (walk_all spans Adler32.new) = length (walk_all spans ByteSink.new).
Proof.
  rewrite walk_all_adler by (done || (simpl; ranges; lia)).
  rewrite walk_all_sink. done.
Qed.

Lemma walk_adler_sink_witness :
  Adler32.finish (walk_all [[1;2;3]; []; [255;0]] Adler32.new)
    = ByteSink.checksum (walk_all [[1;2;3]; []; [255;0]] ByteSink.new) /\
  Adler32.walked (walk_all [[1;2;3]; []; [255;0]] Adler32.new)
    = length (walk_all [[1;2;3]; []; [255;0]] ByteSink.new).
Proof.
  apply (walk_adler_sink [[1;2;3]; []; [255;0]]).
  repeat (constructor; [by apply (bool_decide_unpack _); vm_compute|]); constructor.
Defined.

Lemma adler_ref_fst bs s :
  (adler_ref s bs).1 mod ADLER_BASE = (s.1 + foldr Z.add 0 bs) mod ADLER_BASE.
Proof.
  unfold adler_ref. revert s; induction bs as [|x bs IH]; intros s; cbn [fold_left foldr].
  { f_equal. lia. }
  rewrite IH. unfold adler_step; cbn [fst]. rewrite Zplus_mod_idemp_l. f_equal. lia.
Qed.

Lemma foldr_add_app (xs ys : list Z) : foldr Z.add 0 (xs ++ ys) = foldr Z.add 0 xs + foldr Z.add 0 ys.
Proof. induction xs; simpl; lia. Qed.

(** A channel checksum detects every single-byte difference: two buffers
    of equal length that differ in exactly one byte have different
    [adler32] values, whatever the position, the length and the seed. *)
Theorem adler32_detects_byte (adler : Z) (pre post : bytes) (x y : Z)
  (Ha : is_u32 adler) (Hpre : bytes_ok pre) (Hpost : bytes_ok post)
  (Hx : is_u8 x) (Hy : is_u8 y) (Hne : x <> y) :
  adler32 adler (pre ++ x :: post) <> adler32 adler (pre ++ y :: post).
Proof.
  assert (Hok : forall z, is_u8 z -> bytes_ok (pre ++ z :: post))
    by (intros; apply bytes_ok_app; split; [done|by constructor]).
  assert (Hnn : forall z, pre ++ z :: post <> []) by (intros z E; by destruct pre).
  rewrite !adler32_ref by auto. intros E.
  apply (f_equal adler_split) in E.
  rewrite !adler_split_join in E
    by (pose proof (adler_ref_range _ (adler_split adler) (Hnn x));
        pose proof (adler_ref_range _ (adler_split adler) (Hnn y)); unfold ADLER_BASE in *; lia).
  apply (f_equal (fun s => s.1 mod ADLER_BASE)) in E. rewrite !adler_ref_fst in E.
  rewrite !foldr_add_app in E. cbn [foldr] in E.
  apply (f_equal (fun v => (v - ((adler_split adler).1 + foldr Z.add 0 pre
     + foldr Z.add 0 post)) mod ADLER_BASE)) in E.
  rewrite !Zminus_mod_idemp_l in E.
  replace (_ - _) with x in E by lia.
  match type of E with _ = ?t mod _ => replace t with y in E by lia end.
  unfold ADLER_BASE in E. ranges. rewrite !Z.mod_small in E by lia. done.
Qed.

Lemma adler32_detects_byte_witness :
  adler32 7 ([1;2] ++ 255 :: [9]) <> adler32 7 ([1;2] ++ 0 :: [9]).
Proof.
  apply (adler32_detects_byte 7 [1;2] [9] 255 0);
    first [by apply (bool_decide_unpack _); vm_compute | discriminate].
Defined.

Lemma find_diff_spec n i a b :
  match ByteSink.find_diff i n a b with
  | Some j => (i <= j < i + n)%nat /\ byte_at a j <> byte_at b j /\
              (forall k, (i <= k < j)%nat -> byte_at a k = byte_at b k)
  | None => forall k, (i <= k < i + n)%nat -> byte_at a k = byte_at b k
  end.
Proof.
  revert i; induction n as [|n IH]; intros i; simpl; [intros; lia|].
  destruct (byte_at a i =? byte_at b i) eqn:E; bool_hyps; simpl.
  - specialize (IH (S i)). destruct (ByteSink.find_diff _ _ _ _).
    + destruct IH as (? & ? & H). split; [lia|]. split; [done|].
      intros k Hk. destruct (decide (k = i)) as [->|]; [done|]. apply H. lia.
    + intros k Hk. destruct (decide (k = i)) as [->|]; [done|]. apply IH. lia.
  - split; [lia|]. split; [done|]. intros; lia.
Qed.

Lemma byte_at_ext (a b : bytes) :
  length a = length b -> (forall k, (k < length a)%nat -> byte_at a k = byte_at b k) -> a = b.
Proof. intros Hl H. apply (nth_ext _ _ 0 0); [done|]. intros n Hn. by apply H. Qed.

(** [first_difference] is the length of the longest common prefix, and [None]
    exactly on identical streams. *)
Lemma first_difference_spec a b :
  match ByteSink.first_difference a b with
  | None => a = b
  | Some i => a <> b /\ (i <= length a)%nat /\ (i <= length b)%nat /\
              (forall k, (k < i)%nat -> byte_at a k = byte_at b k)
  end.
Proof.
  unfold ByteSink.first_difference.
  pose proof (find_diff_spec (Nat.min (length a) (length b)) 0 a b) as H.
  destruct (ByteSink.find_diff _ _ _ _) as [i|].
  - destruct H as (? & Hd & H). split; [by intros ->|]. repeat split; try lia.
    intros k Hk. apply H. lia.
  - case_decide as E.
    + apply byte_at_ext; [done|]. intros k Hk. apply H. lia.
    + split; [by intros ->|]. repeat split; try lia. intros k Hk. apply H. lia.
Qed.
