(* ===== verification/SimDeaths.v ===== *)
(** * The corpse ring and the combat checksum channels

    [crates/don-sim/src/systems/combat.rs], sections 11 and 12: the record of
    a dead object and its walked bytes, the ring that recycles slots, one
    checksum channel and the deaths channel over it, and the combat-owned
    bytes of a live unit's walked ranges. *)

From S2P Require Import Prelude SimArith SimChecksum SimDamage SimCombat.
#[local] Open Scope i32_scope.
#[local] Open Scope Z_scope.

(** ** Writing into a byte array *)

(** [b[off..off + v.len()].copy_from_slice(v)] in range, and a sequence of
    such writes. *)
Definition put (b : bytes) (w : nat * bytes) : bytes := take w.1 b ++ w.2 ++ drop (w.1 + length w.2) b.
Definition writes (ws : list (nat * bytes)) (b : bytes) : bytes := fold_left put ws b.

Definition inside (n : nat) (w : nat * bytes) : Prop := (w.1 + length w.2 <= n)%nat.
Definition apart (w w' : nat * bytes) : Prop := (w.1 + length w.2 <= w'.1 \/ w'.1 + length w'.2 <= w.1)%nat.
Definition covers (w : nat * bytes) (i : nat) : Prop := (w.1 <= i < w.1 + length w.2)%nat.

Lemma length_put b w : inside (length b) w -> length (put b w) = length b.
Proof. unfold inside, put. intros. rewrite !length_app, length_take, length_drop. lia. Qed.

Lemma put_lookup_out b w i : inside (length b) w -> ~ covers w i -> put b w !! i = b !! i.
Proof.
  unfold inside, put, covers. intros Hi Hc. destruct (decide (i < w.1)%nat).
  - rewrite lookup_app_l by (rewrite length_take; lia). by rewrite lookup_take_lt by lia.
  - rewrite lookup_app_r by (rewrite length_take; lia). rewrite length_take, Nat.min_l by lia.
    rewrite lookup_app_r by lia. rewrite lookup_drop. f_equal. lia.
Qed.

Lemma put_same b w : inside (length b) w -> take (length w.2) (drop w.1 (put b w)) = w.2.
Proof.
  unfold inside, put. intros Hi. rewrite drop_app_length' by (rewrite length_take; lia). by rewrite take_app_length.
Qed.

Lemma length_writes ws b : Forall (inside (length b)) ws -> length (writes ws b) = length b.
Proof.
  revert b. induction ws as [|w ws IH]; intros b H; [done|]. apply Forall_cons in H as [Hw H]. cbn [writes fold_left].
  fold (writes ws (put b w)). rewrite IH, length_put; rewrite ?length_put by done; done.
Qed.

Lemma writes_lookup_out ws b i :
  Forall (inside (length b)) ws -> Forall (fun w => ~ covers w i) ws -> writes ws b !! i = b !! i.
Proof.
  revert b. induction ws as [|w ws IH]; intros b H Hc; [done|]. apply Forall_cons in H as [Hw H]. apply Forall_cons in Hc as [Hn Hc].
  cbn [writes fold_left]. fold (writes ws (put b w)). rewrite IH, put_lookup_out; rewrite ?length_put by done; done.
Qed.

Lemma range_ext (n o : nat) (a b : bytes) :
  (forall i, (o <= i < o + n)%nat -> a !! i = b !! i) -> take n (drop o a) = take n (drop o b).
Proof.
  intros H. apply list_eq. intros k. destruct (decide (k < n)%nat).
  - rewrite !lookup_take_lt, !lookup_drop by done. apply H. lia.
  - rewrite !lookup_take_ge by lia. done.
Qed.

(** A range no later write touches keeps what was written to it. *)
Lemma writes_read ws1 w ws2 b :
  Forall (inside (length b)) (ws1 ++ w :: ws2) -> Forall (apart w) ws2 ->
  take (length w.2) (drop w.1 (writes (ws1 ++ w :: ws2) b)) = w.2.
Proof.
  intros H Ha. apply Forall_app in H as [H1 H2]. apply Forall_cons in H2 as [Hw H2].
  unfold writes. rewrite fold_left_app. cbn [fold_left]. fold (writes ws1 b). fold (writes ws2 (put (writes ws1 b) w)).
  pose proof (length_writes ws1 b H1) as L. assert (Hw' : inside (length (writes ws1 b)) w) by (unfold inside in *; lia).
  etransitivity; [|apply (put_same (writes ws1 b)); done]. apply range_ext. intros i Hi. apply writes_lookup_out.
  - rewrite length_put by done. by rewrite L.
  - eapply Forall_impl; [exact Ha|]. unfold apart, covers. lia.
Qed.

Lemma bytes_ok_put b w : bytes_ok b -> bytes_ok w.2 -> bytes_ok (put b w).
Proof. intros. unfold put. apply bytes_ok_app. split; [by apply bytes_ok_take|]. apply bytes_ok_app. split; [done|by apply bytes_ok_drop]. Qed.

Lemma bytes_ok_writes ws b : bytes_ok b -> Forall (fun w => bytes_ok w.2) ws -> bytes_ok (writes ws b).
Proof.
  revert b. induction ws as [|w ws IH]; intros b Hb H; [done|]. apply Forall_cons in H as [? ?]. apply IH; [by apply bytes_ok_put|done].
Qed.

(** A layout: writes inside [n] bytes that do not overlap. *)
Definition layout (n : nat) (ws : list (nat * bytes)) : Prop := Forall (inside n) ws /\ ForallOrdPairs apart ws.

Lemma layout_apart ws1 w ws2 : ForallOrdPairs apart (ws1 ++ w :: ws2) -> Forall (apart w) ws2.
Proof. induction ws1 as [|v ws1 IH]; cbn; intros H; inversion H; subst; [done|by apply IH]. Qed.

(** Each field of a layout reads back, whatever the bytes were before. *)
Lemma layout_read ws n o z b :
  layout (length b) ws -> (o, to_le n z) ∈ ws -> le_at n (writes ws b) o = z mod 2 ^ (8 * Z.of_nat n).
Proof.
  intros [Hi Ha] Hw. apply list_elem_of_split in Hw as (ws1 & ws2 & ->). apply layout_apart in Ha.
  pose proof (writes_read ws1 (o, to_le n z) ws2 b Hi Ha) as R. cbn [fst snd] in R. rewrite length_to_le in R.
  unfold le_at. rewrite R. apply from_le_to_le.
Qed.

Lemma layout_read_s ws n w o z b :
  layout (length b) ws -> (o, to_le n z) ∈ ws -> w = 8 * Z.of_nat n -> 0 < w -> in_s w z -> wrap_s w (le_at n (writes ws b) o) = z.
Proof. intros. erewrite layout_read by done. subst w. by apply wrap_s_of_u. Qed.

Lemma layout_read_u ws n w o z b :
  layout (length b) ws -> (o, to_le n z) ∈ ws -> w = 8 * Z.of_nat n -> in_u w z -> le_at n (writes ws b) o = z.
Proof. intros. erewrite layout_read by done. subst w. by apply Z.mod_small. Qed.

(** Closed layouts, up to the values written. *)
Ltac layout_of :=
  repeat first [apply FOP_cons | apply FOP_nil | apply Forall_cons; split | apply Forall_nil]; unfold inside, apart; cbn; lia.

Module Deaths.
Import Combat.

(** ** The deaths channel *)

Definition DEATH_OBJ_STRIDE : nat := 164.
Definition DEATH_OBJ_DATA_SIZE : nat := 76.
Definition DEATH_WALKED_BYTES : nat := 75.

(** [struct DeathRecord]; [ammo_angle] is the bit pattern of its [f32], the
    only thing read from it. *)
Record DeathRecord := mkDeathRecord {
  valid : Z; first_frame : Z; cur_anim : Z; x : Z; y : Z; z : Z; who : Z; o : Z; gpiece : Z; ammo_gpiece : Z;
  ammo_angle : Z; new_angle : Z; turret_angles : Z * Z * Z * Z; cur_frame : Z; skel_gpiece : Z; node_flags : Z; unit_crew : Z }.
Definition default : DeathRecord := mkDeathRecord 0 0 0 0 0 0 0 0 0 0 0 0 (0, 0, 0, 0) 0 0 0 0.

(** The [put] calls of [walked_bytes], in order. *)
Definition record_writes (r : DeathRecord) : list (nat * bytes) :=
  let '(t0, t1, t2, t3) := turret_angles r in
  [(0x00, to_le 4 (valid r)); (0x04, to_le 4 (first_frame r)); (0x08, to_le 4 (cur_anim r)); (0x0C, to_le 4 (x r));
   (0x10, to_le 4 (y r)); (0x14, to_le 4 (z r)); (0x18, to_le 4 (who r)); (0x1C, to_le 4 (o r));
   (0x20, to_le 4 (gpiece r)); (0x24, to_le 4 (ammo_gpiece r)); (0x28, to_le 4 (ammo_angle r)); (0x2C, to_le 4 (new_angle r));
   (0x30, to_le 4 t0); (0x34, to_le 4 t1); (0x38, to_le 4 t2); (0x3C, to_le 4 t3);
   (0x40, to_le 4 (cur_frame r)); (0x44, to_le 4 (skel_gpiece r)); (0x48, to_le 2 (node_flags r)); (0x4A, to_le 1 (unit_crew r))]%nat.
Definition walked_bytes (r : DeathRecord) : bytes := writes (record_writes r) (replicate DEATH_WALKED_BYTES 0).

(** [struct DeathRing]: its slots. *)
Abbreviation DeathRing := (list DeathRecord).
Definition with_capacity (n : nat) : DeathRing := replicate n default.

(** The loop of [choose_slot] from slot [i]. *)
Fixpoint choose_from (blocks : DeathRecord -> bool) (slots : list DeathRecord) (i best : nat) (best_frame : Z) : nat :=
  match slots with
  | [] => best
  | rec :: slots =>
      if valid rec =? 0 then i
      else if negb (blocks rec) && (first_frame rec <? best_frame) then choose_from blocks slots (S i) i (first_frame rec)
      else choose_from blocks slots (S i) best best_frame
  end.
Definition choose_slot (ring : DeathRing) (frame : Z) (blocks_while_dead : DeathRecord -> bool) : nat :=
  choose_from blocks_while_dead ring 0 0 (frame +w 1).

(** Indexing an empty ring panics. *)
Definition add_death (frame : Z) (rec : DeathRecord) (blocks_while_dead : DeathRecord -> bool) (ring : DeathRing)
    : option (nat * bool * DeathRing) :=
  let slot := choose_slot ring frame blocks_while_dead in
  evicted ← ring !! slot;
  let needs_clear := negb (valid evicted =? 0) && blocks_while_dead evicted in
  Some (slot, needs_clear, <[slot := rec]> ring).

(** ** Checksum channels *)

Record CheckSumChannel := mkChannel { accum : Adler32.t; size : Z }.
Definition new : CheckSumChannel := mkChannel Adler32.new 0.
Definition walk (ch : CheckSumChannel) (bs : bytes) : CheckSumChannel :=
  mkChannel (Adler32.update (accum ch) bs) (u32 (size ch + u32 (Z.of_nat (length bs)))).
Definition value (ch : CheckSumChannel) : Z := Adler32.finish (accum ch).

Definition check_deaths (ring : DeathRing) : CheckSumChannel :=
  fold_left (fun ch rec =>
    if valid rec =? 0 then ch
    else let b := walked_bytes rec in walk (walk ch (take 4 b)) (take (0x4B - 4) (drop 4 b))) ring new.

(** ** The combat-owned bytes of a live unit *)

Record UnitCombatState := mkUnitCombatState {
  hp : HitPoints; hold_frames : Z; targeted : Z; overkill : OverkillState; angle : Z; trench_angle : Z;
  unit_masks : Z; unit_masks2 : Z; cycle : AttackCycle }.

Definition OBJECT_WALK_BEGIN : nat := 32.
Definition OBJECT_WALK_LEN : nat := 34.
Definition UNIT_WALK_BEGIN : nat := 72.
Definition UNIT_WALK_LEN : nat := 111.

Definition object_writes (s : UnitCombatState) : list (nat * bytes) :=
  map (fun w => (w.1 - OBJECT_WALK_BEGIN, w.2)%nat)
  [(0x20, to_le 4 (myhits (hp s))); (0x24, to_le 4 (damage (hp s))); (0x32, to_le 2 (hold_frames s));
   (0x3B, to_le 1 (damage_frac (hp s))); (0x3D, to_le 1 (targeted s))]%nat.
Definition patch_object_range (s : UnitCombatState) (buf : bytes) : bytes := writes (object_writes s) buf.

Definition unit_writes (s : UnitCombatState) : list (nat * bytes) :=
  map (fun w => (w.1 - UNIT_WALK_BEGIN, w.2)%nat)
  [(0x4C, to_le 4 (damage_frame (overkill s))); (0x50, to_le 4 (angle s)); (0x5C, to_le 4 (trench_angle s));
   (0x68, to_le 4 (unit_masks s)); (0x6C, to_le 4 (unit_masks2 s)); (0xA4, to_le 2 (damage_o (overkill s)));
   (0xA9, to_le 1 (damage_who (overkill s))); (0xAE, to_le 1 (recharging (cycle s)))]%nat.
Definition patch_unit_range (s : UnitCombatState) (buf : bytes) : bytes := writes (unit_writes s) buf.

(** ** Which slot a corpse takes *)

Definition free (r : DeathRecord) : Prop := valid r = 0.
(** A corpse that may be evicted: non-blocking and older than [bound]. *)
Definition evictable (blocks : DeathRecord -> bool) (bound : Z) (r : DeathRecord) : Prop :=
  blocks r = false /\ first_frame r < bound.

(** The three outcomes of the scan of [slots], from slot [i]. *)
Inductive chosen (blocks : DeathRecord -> bool) (slots : list DeathRecord) (i best : nat) (bound : Z) : nat -> Prop :=
  | chosen_free k r :
      slots !! k = Some r -> free r -> Forall (fun r => ~ free r) (take k slots) -> chosen blocks slots i best bound (i + k)
  | chosen_oldest k r :
      slots !! k = Some r -> Forall (fun r => ~ free r) slots -> evictable blocks bound r ->
      Forall (fun r' => blocks r' = false -> first_frame r < first_frame r') (take k slots) ->
      Forall (fun r' => blocks r' = false -> first_frame r <= first_frame r') slots ->
      chosen blocks slots i best bound (i + k)
  | chosen_none :
      Forall (fun r => ~ free r) slots -> Forall (fun r => ~ evictable blocks bound r) slots -> chosen blocks slots i best bound best.

Lemma choose_from_spec blocks slots i best bound : chosen blocks slots i best bound (choose_from blocks slots i best bound).
Proof.
  revert i best bound. induction slots as [|r slots IH]; intros i best bound; cbn [choose_from]; [by apply chosen_none|].
  destruct (Z.eqb_spec (valid r) 0) as [Hv|Hv].
  { replace i with (i + 0)%nat at 2 by lia. by apply chosen_free with r. }
  destruct (blocks r) eqn:Hb; cbn [negb andb].
  - destruct (IH (S i) best bound) as [k s Hk Hf Hl|k s Hk Hf He Hl Ha|Hf He].
    + rewrite Nat.add_succ_comm. apply chosen_free with s; [done|done|]. by apply Forall_cons.
    + rewrite Nat.add_succ_comm. apply chosen_oldest with s; try done; cbn [take]; apply Forall_cons; (split; [|done]); try done; congruence.
    + apply chosen_none; apply Forall_cons; (split; [|done]); [done|]. intros [? ?]. congruence.
  - destruct (Z.ltb_spec (first_frame r) bound).
    + destruct (IH (S i) i (first_frame r)) as [k s Hk Hf Hl|k s Hk Hf [He1 He2] Hl Ha|Hf He].
      * rewrite Nat.add_succ_comm. apply chosen_free with s; [done|done|]. by apply Forall_cons.
      * rewrite Nat.add_succ_comm. apply chosen_oldest with s; try done; cbn [take]; try (apply Forall_cons; split); try done; try (split; [done|lia]); lia.
      * replace i with (i + 0)%nat at 2 by lia. apply chosen_oldest with r; try done.
        -- by apply Forall_cons.
        -- apply Forall_cons. split; [lia|]. eapply Forall_impl; [exact He|]. intros s Hs Hbs. unfold evictable in Hs.
           destruct (Z.le_gt_cases (first_frame r) (first_frame s)); [done|]. exfalso. apply Hs. split; [done|lia].
    + destruct (IH (S i) best bound) as [k s Hk Hf Hl|k s Hk Hf [He1 He2] Hl Ha|Hf He].
      * rewrite Nat.add_succ_comm. apply chosen_free with s; [done|done|]. by apply Forall_cons.
      * rewrite Nat.add_succ_comm. apply chosen_oldest with s; try done; cbn [take]; try (apply Forall_cons; split); try done; try (split; [done|lia]); lia.
      * apply chosen_none; apply Forall_cons; (split; [|done]); [done|]. unfold evictable. lia.
Qed.

(** A corpse takes the first free slot; in a full ring it evicts the oldest
    non-blocking corpse of this frame or earlier, the first of several as
    old; and slot 0 only when there is none. *)
Theorem choose_slot_spec ring frame blocks :
  chosen blocks ring 0 0 (frame +w 1) (choose_slot ring frame blocks).
Proof. apply choose_from_spec. Qed.

Lemma choose_slot_in ring frame blocks : ring <> [] -> (choose_slot ring frame blocks < length ring)%nat.
Proof.
  intros Hr. unfold choose_slot. destruct (choose_from_spec blocks ring 0 0 (frame +w 1)) as [k r Hk|k r Hk|].
  - by apply lookup_lt_Some in Hk.
  - by apply lookup_lt_Some in Hk.
  - destruct ring; [done|cbn; lia].
Qed.

(** Recording a death is total on a ring with slots, keeps their number,
    changes the chosen slot alone, and a blocking corpse loses its slot, and
    is reported for clearing, only in a ring with no free slot and nothing
    else to evict. *)
Theorem add_death_spec frame rec blocks ring :
  ring <> [] ->
  exists slot clear, add_death frame rec blocks ring = Some (slot, clear, <[slot := rec]> ring) /\ (slot < length ring)%nat /\
    (clear = true -> Forall (fun r => ~ free r) ring /\ Forall (fun r => ~ evictable blocks (frame +w 1) r) ring /\ slot = 0%nat).
Proof.
  intros Hr. pose proof (choose_slot_in ring frame blocks Hr) as Hl. unfold add_death.
  destruct (lookup_lt_is_Some_2 ring _ Hl) as [e He]. rewrite He. cbn. eexists _, _. split; [reflexivity|]. split; [done|].
  rewrite andb_true_iff, negb_true_iff, Z.eqb_neq. intros [Hv Hb]. revert Hv Hb. revert He. unfold choose_slot.
  destruct (choose_from_spec blocks ring 0 0 (frame +w 1)) as [k r Hk Hf _|k r Hk Hf [Hev _]|Hf He].
  - rewrite Nat.add_0_l. intros He. simplify_eq. by intros ? _.
  - rewrite Nat.add_0_l. intros He. simplify_eq. congruence.
  - done.
Qed.

(** ** What the deaths channel hashes *)

Lemma record_layout r : layout DEATH_WALKED_BYTES (record_writes r).
Proof.
  destruct r as [? ? ? ? ? ? ? ? ? ? ? ? [[[? ?] ?] ?] ? ? ? ?]. unfold layout, record_writes, DEATH_WALKED_BYTES. cbn [turret_angles].
  split; layout_of.
Qed.

Lemma length_walked r : length (walked_bytes r) = 75%nat.
Proof. unfold walked_bytes. by rewrite length_writes by (rewrite length_replicate; apply record_layout). Qed.

Lemma walked_ok r : bytes_ok (walked_bytes r).
Proof.
  apply bytes_ok_writes.
  - apply Forall_replicate. unfold in_u. lia.
  - destruct r as [? ? ? ? ? ? ? ? ? ? ? ? [[[? ?] ?] ?] ? ? ? ?]. unfold record_writes. cbn [turret_angles].
    repeat (apply Forall_cons; split; [apply to_le_ok|]). by apply Forall_nil.
Qed.

Definition occupied (ring : DeathRing) : list DeathRecord := List.filter (fun r => negb (valid r =? 0)) ring.

Lemma check_from ring ch :
  in_u 32 (Adler32.checksum (accum ch)) -> is_u32 (size ch) ->
  let ch' := fold_left (fun ch rec =>
    if valid rec =? 0 then ch
    else let b := walked_bytes rec in walk (walk ch (take 4 b)) (take (0x4B - 4) (drop 4 b))) ring ch in
  value ch' = adler32 (Adler32.checksum (accum ch)) (concat (map walked_bytes (occupied ring))) /\
  size ch' = u32 (size ch + 75 * Z.of_nat (length (occupied ring))).
Proof.
  revert ch. induction ring as [|r ring IH]; intros ch Ha Hs; cbn [fold_left occupied List.filter].
  { cbn [map concat length]. rewrite adler32_nil by done. split; [done|]. by rewrite Z.add_0_r, wrap_u_id. }
  fold (occupied ring). destruct (valid r =? 0); cbn [negb]; [by apply IH|].
  pose proof (walked_ok r) as Hw. pose proof (length_walked r) as Hl.
  assert (W : take (0x4B - 4) (drop 4 (walked_bytes r)) = drop 4 (walked_bytes r)).
  { apply take_ge. rewrite length_drop, Hl. cbn. lia. }
  rewrite W. unfold walk at 1 2 3 4. cbn [accum size].
  assert (T1 : bytes_ok (take 4 (walked_bytes r))) by by apply bytes_ok_take.
  assert (T2 : bytes_ok (drop 4 (walked_bytes r))) by by apply bytes_ok_drop.
  assert (L1 : length (take 4 (walked_bytes r)) = 4%nat) by (rewrite length_take, Hl; lia).
  assert (L2 : length (drop 4 (walked_bytes r)) = 71%nat) by (rewrite length_drop, Hl; lia).
  assert (A : adler32 (adler32 (Adler32.checksum (accum ch)) (take 4 (walked_bytes r))) (drop 4 (walked_bytes r)) =
              adler32 (Adler32.checksum (accum ch)) (walked_bytes r)).
  { rewrite adler32_app by done. by rewrite take_drop. }
  destruct (IH (mkChannel (Adler32.update (Adler32.update (accum ch) (take 4 (walked_bytes r))) (drop 4 (walked_bytes r)))
    (u32 (u32 (size ch + u32 (Z.of_nat (length (take 4 (walked_bytes r)))))
        + u32 (Z.of_nat (length (drop 4 (walked_bytes r)))))))) as [I1 I2].
  { cbn [accum Adler32.update Adler32.checksum]. rewrite A. by apply adler32_range. }
  { cbn [size]. apply wrap_u_range. lia. }
  split.
  - etransitivity; [exact I1|]. cbn [accum Adler32.update Adler32.checksum map concat]. rewrite A. apply adler32_app; [done|done|].
    clear. induction (occupied ring) as [|a l IH]; cbn; [constructor|]. apply bytes_ok_app. split; [apply walked_ok|done].
  - etransitivity; [exact I2|]. cbn [size length]. rewrite L1, L2. unfold wrap_u. rewrite Nat2Z.inj_succ.
    change (Z.of_nat 4 mod 2 ^ 32) with 4. change (Z.of_nat 71 mod 2 ^ 32) with 71.
    rewrite (Zplus_mod_idemp_l (size ch + 4)), Zplus_mod_idemp_l. f_equal. lia.
Qed.

(** The deaths channel is the checksum of the occupied records' walked bytes
    in slot order, 75 bytes each: how a record is cut into spans and where
    the free slots lie do not show. *)
Theorem check_deaths_spec ring :
  value (check_deaths ring) = adler32 1 (concat (map walked_bytes (occupied ring))) /\
  size (check_deaths ring) = u32 (75 * Z.of_nat (length (occupied ring))).
Proof. apply (check_from ring new); unfold in_u; cbn; lia. Qed.
(** A record whose fields are in the ranges of their types. *)
Definition record_ok (r : DeathRecord) : Prop :=
  let '(t0, t1, t2, t3) := turret_angles r in
  Forall is_i32 [valid r; first_frame r; cur_anim r; x r; y r; z r; who r; o r; gpiece r; ammo_gpiece r; new_angle r;
                 t0; t1; t2; t3; cur_frame r; skel_gpiece r] /\
  is_u32 (ammo_angle r) /\ is_i16 (node_flags r) /\ is_i8 (unit_crew r).

(** The record at the engine's offsets of a byte range. *)
Definition read_record (b : bytes) : DeathRecord :=
  let w (k : Z) := i32 (le_at 4 b (Z.to_nat k)) in
  mkDeathRecord (w 0x00) (w 0x04) (w 0x08) (w 0x0C) (w 0x10) (w 0x14) (w 0x18) (w 0x1C) (w 0x20) (w 0x24)
    (le_at 4 b 0x28%nat) (w 0x2C) (w 0x30, w 0x34, w 0x38, w 0x3C) (w 0x40) (w 0x44)
    (i16 (le_at 2 b 0x48%nat)) (i8 (le_at 1 b 0x4A%nat)).

(** The walked bytes determine the record: every field reads back at its
    offset, so the deaths channel sees all of it. *)
Theorem walked_bytes_roundtrip r : record_ok r -> read_record (walked_bytes r) = r.
Proof.
  intros Hr. pose proof (record_layout r) as L. unfold walked_bytes.
  destruct r as [? ? ? ? ? ? ? ? ? ? ? ? [[[? ?] ?] ?] ? ? ? ?]. destruct Hr as (Hw & Ha & Hn & Hc).
  cbn [valid first_frame cur_anim x y z who o gpiece ammo_gpiece ammo_angle new_angle turret_angles cur_frame skel_gpiece node_flags unit_crew] in *.
  repeat (apply Forall_cons in Hw as [? Hw]). clear Hw.
  set (ws := record_writes _) in *. unfold read_record.
  assert (L' : layout (length (replicate DEATH_WALKED_BYTES 0)) ws) by (rewrite length_replicate; exact L).
  f_equal; [..|repeat f_equal| | | | ];
    first [ eapply layout_read_s; [exact L'|unfold ws; cbn; repeat constructor|done|done|done]
          | eapply layout_read_u; [exact L'|unfold ws; cbn; repeat constructor|done|done] ].
Qed.

(** ** The patched ranges *)

Lemma object_layout s : layout OBJECT_WALK_LEN (object_writes s).
Proof. split; unfold object_writes, OBJECT_WALK_LEN; cbn [map]; layout_of. Qed.
Lemma unit_layout s : layout UNIT_WALK_LEN (unit_writes s).
Proof. split; unfold unit_writes, UNIT_WALK_LEN; cbn [map]; layout_of. Qed.

(** The object offsets combat owns, [myhits], [damage], [hold_frames],
    [damage_frac] and [targeted]. *)
Definition owned_object (i : nat) : Prop :=
  (0 <= i < 8 \/ 18 <= i < 20 \/ i = 27 \/ i = 29)%nat.

(** Patching a unit's object range writes the five combat fields at their
    offsets and no other byte, so the lanes that own the rest compose with it
    in either order. *)
Theorem patch_object_exact s buf :
  length buf = OBJECT_WALK_LEN ->
  is_i32 (myhits (hp s)) -> is_i32 (damage (hp s)) -> is_u16 (hold_frames s) -> is_i8 (damage_frac (hp s)) -> is_i8 (targeted s) ->
  let b := patch_object_range s buf in
  length b = OBJECT_WALK_LEN /\
  i32 (le_at 4 b 0) = myhits (hp s) /\ i32 (le_at 4 b 4) = damage (hp s) /\ le_at 2 b 18 = hold_frames s /\
  i8 (le_at 1 b 27) = damage_frac (hp s) /\ i8 (le_at 1 b 29) = targeted s /\
  (forall i, ~ owned_object i -> b !! i = buf !! i).
Proof.
  intros Hb H1 H2 H3 H4 H5. pose proof (object_layout s) as L. rewrite <- Hb in L. cbv zeta. unfold patch_object_range.
  split; [rewrite length_writes by apply L; done|].
  repeat split;
    try first [ eapply layout_read_s; [exact L|cbn; repeat constructor|done|done|done]
              | eapply layout_read_u; [exact L|cbn; repeat constructor|done|done] ].
  intros i Hi. apply writes_lookup_out; [apply L|]. unfold owned_object in Hi. unfold object_writes. cbn [map fst snd].
  repeat (apply Forall_cons; split); try apply Forall_nil; unfold covers; cbn; lia.
Qed.

(** The bytes of the unit range combat leaves alone. *)
Definition owned_unit (i : nat) : Prop :=
  (4 <= i < 12 \/ 20 <= i < 24 \/ 32 <= i < 40 \/ 92 <= i < 94 \/ i = 97 \/ i = 102)%nat.

Lemma patch_unit_frame s buf i :
  length buf = UNIT_WALK_LEN -> ~ owned_unit i -> patch_unit_range s buf !! i = buf !! i.
Proof.
  intros Hb Hi. pose proof (unit_layout s) as L. rewrite <- Hb in L. apply writes_lookup_out; [apply L|].
  unfold owned_unit in Hi. unfold unit_writes. cbn [map fst snd].
  repeat (apply Forall_cons; split); try apply Forall_nil; unfold covers; cbn; lia.
Qed.

(** ** Concrete runs *)

Definition corpse (v f : Z) : DeathRecord := mkDeathRecord v f 0 0 0 0 0 0 0 0 0 0 (0, 0, 0, 0) 0 0 0 0.

Lemma add_death_spec_witness :
  add_death 10 (corpse 1 10) (fun _ => true) [corpse 1 4; corpse 1 2] = Some (0%nat, true, [corpse 1 10; corpse 1 2]).
Proof.
  destruct (add_death_spec 10 (corpse 1 10) (fun _ => true) [corpse 1 4; corpse 1 2]) as (s & c & E & _ & _); [done|].
  rewrite E. vm_compute in E. injection E as <- <-. reflexivity.
Defined.

Lemma walked_bytes_roundtrip_witness : read_record (walked_bytes (corpse 1 (-5))) = corpse 1 (-5).
Proof. apply walked_bytes_roundtrip. repeat split; repeat (apply Forall_cons; split); try apply Forall_nil; unfold in_s, in_u; cbn; lia. Defined.

Lemma patch_object_exact_witness :
  i32 (le_at 4 (patch_object_range (mkUnitCombatState (mkHitPoints 100 7 3) 1 (-1) (mkOverkillState 0 0 0) 0 0 0 0 (mkAttackCycle 0))
                 (replicate 34 9)) 4) = 7.
Proof.
  apply (patch_object_exact (mkUnitCombatState (mkHitPoints 100 7 3) 1 (-1) (mkOverkillState 0 0 0) 0 0 0 0 (mkAttackCycle 0)) (replicate 34 9));
    unfold in_s, in_u; cbn; lia || done.
Defined.

End Deaths.
