(* ===== verification/SimObjects.v ===== *)
(** * The per-owner object registry and the frame traversal

    [crates/don-sim/src/objects.rs]: ten owner slots, each with a unit, a
    building and a wall band, and the visiting order of
    [Objects::process_all], which rotates with the frame counter. *)

From S2P Require Import Prelude.

Definition OWNER_SLOTS : nat := 10.
Definition BANDED_SLOTS : nat := 8.
Definition BUILD_BAND_BASE : Z := 2000.
Definition WALL_BAND_BASE : Z := 3000.

Inductive Band := Unit | Build | Wall.

#[export] Instance Band_eq_dec : EqDecision Band.
Proof. solve_decision. Defined.

Definition base (b : Band) : Z :=
  match b with Unit => 0 | Build => BUILD_BAND_BASE | Wall => WALL_BAND_BASE end.

(** [struct Slot]: the three bands of one owner, rows as [u32]. *)
Record Slot := mkSlot { units : list Z; builds : list Z; walls : list Z }.

Definition empty_slot : Slot := mkSlot [] [] [].

#[export] Instance Slot_inhabited : Inhabited Slot := populate empty_slot.

Definition band (s : Slot) (b : Band) : list Z :=
  match b with Unit => s.(units) | Build => s.(builds) | Wall => s.(walls) end.

(** [let v = match band { .. => &mut s.units, .. }] followed by an update of [*v]. *)
Definition set_band (s : Slot) (b : Band) (v : list Z) : Slot :=
  match b with
  | Unit => mkSlot v s.(builds) s.(walls)
  | Build => mkSlot s.(units) v s.(walls)
  | Wall => mkSlot s.(units) s.(builds) v
  end.

Definition mark (s : Slot) (b : Band) : Z := base b + Z.of_nat (length (band s b)).

Module ObjectRegistry.

Record t := mk { slots : list Slot; active : list bool }.

Definition new : t := mk (replicate OWNER_SLOTS empty_slot) (replicate OWNER_SLOTS false).

Definition slot (s : nat) (r : t) : option Slot := r.(slots) !! s.
Definition is_active (s : nat) (r : t) : bool := default false (r.(active) !! s).
Definition set_active (s : nat) (on : bool) (r : t) : t :=
  mk r.(slots) (<[s := on]> r.(active)).

Definition active_slots (r : t) : list nat :=
  filter (fun s => is_active s r = true) (seq 0 OWNER_SLOTS).

(** [insert]: [None] is the out-of-range panic of [self.slots[who]]. *)
Definition insert (who : nat) (b : Band) (row : Z) (r : t) : option (Z * t) :=
  s ← r.(slots) !! who;
  let v := band s b ++ [row] in
  Some (base b + (Z.of_nat (length v) - 1),
        mk (<[who := set_band s b v]> r.(slots)) (<[who := true]> r.(active))).

(** [v.swap(idx, last); v.pop()]. *)
Definition swap_remove (idx : nat) (v : list Z) : list Z :=
  let last := (length v - 1)%nat in
  match v !! last with
  | Some x => take last (<[idx := x]> v)
  | None => v
  end.

(** [remove]: the outer [option] is the panic, the inner one the Rust result. *)
Definition remove (who : nat) (b : Band) (o : Z) (r : t) : option (option (Z * Z) * t) :=
  s ← r.(slots) !! who;
  let v := band s b in
  if o <? base b then Some (None, r)
  else
    let idx := Z.to_nat (o - base b) in
    if decide (length v <= idx)%nat then Some (None, r)
    else
      let last := (length v - 1)%nat in
      let v' := swap_remove idx v in
      let r' := mk (<[who := set_band s b v']> r.(slots)) r.(active) in
      if decide (idx = last) then Some (None, r')
      else Some (Some (nth idx v' 0, base b + Z.of_nat idx), r').

Definition repoint (who : nat) (b : Band) (o row : Z) (r : t) : option t :=
  s ← r.(slots) !! who;
  if o <? base b then Some r
  else Some (mk (<[who := set_band s b (<[Z.to_nat (o - base b) := row]> (band s b))]> r.(slots))
                r.(active)).

Definition band_len (who : nat) (b : Band) (r : t) : option nat :=
  s ← r.(slots) !! who; Some (length (band s b)).

(** [rotation(frame)]: [(frame.wrapping_add(i)).rem_euclid(10)]. *)
Definition rotation (frame : Z) : list nat :=
  map (fun i => Z.to_nat (i32 (frame + Z.of_nat i) mod 10)) (seq 0 OWNER_SLOTS).

(** The entries one band of one slot contributes, with their [o] index. *)
Definition band_entries (s : nat) (b : Band) (rows : list Z) : list (nat * Band * Z * Z) :=
  imap (fun k row => (s, b, base b + Z.of_nat k, row)) rows.

Definition traversal (frame : Z) (r : t) : list (nat * Band * Z * Z) :=
  (s ← rotation frame;
     if is_active s r then band_entries s Unit (r.(slots) !!! s).(units) else []) ++
  (s ← seq 0 BANDED_SLOTS;
     if is_active s r
     then band_entries s Build (r.(slots) !!! s).(builds)
          ++ band_entries s Wall (r.(slots) !!! s).(walls)
     else []).

Definition total_objects (r : t) : nat :=
  sum_list_with (fun s => length s.(units) + length s.(builds) + length s.(walls))%nat r.(slots).

(** Well-formed registries: the two arrays have their Rust lengths. *)
Definition wf (r : t) : Prop :=
  length r.(slots) = OWNER_SLOTS /\ length r.(active) = OWNER_SLOTS.

(** The row registered at the engine address [(who, o)] of a band. *)
Definition row_at (r : t) (who : nat) (b : Band) (o : Z) : option Z :=
  s ← r.(slots) !! who;
  if decide (base b <= o) then band s b !! Z.to_nat (o - base b) else None.

(** ** Structural lemmas *)

Lemma band_set_band s b v : band (set_band s b v) b = v.
Proof. by destruct b. Qed.

Lemma band_set_band_ne s b b' v : b <> b' -> band (set_band s b v) b' = band s b'.
Proof. by destruct b, b'. Qed.

Lemma new_wf : wf new.
Proof. done. Qed.

Lemma insert_wf who b row r o r' : insert who b row r = Some (o, r') -> wf r -> wf r'.
Proof.
  unfold insert. intros H [H1 H2]. destruct (slots r !! who); simplify_eq/=.
  split; simpl; by rewrite length_insert.
Qed.

Lemma remove_wf who b o r x r' : remove who b o r = Some (x, r') -> wf r -> wf r'.
Proof.
  unfold remove. intros H [H1 H2]. destruct (slots r !! who); simplify_eq/=.
  repeat case_match; simplify_eq/=; split; simpl; by rewrite ?length_insert.
Qed.

Lemma row_at_update r who b v act b' o' who' s :
  r.(slots) !! who = Some s ->
  row_at (mk (<[who := set_band s b v]> r.(slots)) act) who' b' o' =
    if decide (who' = who /\ b' = b)
    then (if decide (base b <= o') then v !! Z.to_nat (o' - base b) else None)
    else row_at r who' b' o'.
Proof.
  intros Hs. unfold row_at; simpl.
  destruct (decide (who' = who)) as [->|Hw].
  - rewrite list_lookup_insert_eq by (by eapply lookup_lt_Some). simpl. rewrite Hs. simpl.
    destruct (decide (b' = b)) as [->|Hb].
    + rewrite band_set_band. destruct (decide (who = who /\ b = b)); [done|tauto].
    + rewrite band_set_band_ne by done. destruct (decide (who = who /\ b' = b)); [tauto|done].
  - rewrite list_lookup_insert_ne by done.
    destruct (decide (who' = who /\ b' = b)); [tauto|done].
Qed.

Lemma length_swap_remove i v : (i < length v)%nat -> length (swap_remove i v) = (length v - 1)%nat.
Proof.
  intros Hi. unfold swap_remove.
  destruct (lookup_lt_is_Some_2 v (length v - 1)) as [x Hx]; [lia|]. rewrite Hx.
  rewrite length_take, length_insert. lia.
Qed.

Lemma lookup_swap_remove i v k :
  (i < length v)%nat ->
  swap_remove i v !! k =
    if decide (k < length v - 1)%nat
    then (if decide (k = i) then v !! (length v - 1)%nat else v !! k) else None.
Proof.
  intros Hi. unfold swap_remove.
  destruct (lookup_lt_is_Some_2 v (length v - 1)) as [x Hx]; [lia|]. rewrite Hx.
  case_decide.
  - rewrite lookup_take_lt by lia. case_decide as E; subst.
    + by rewrite list_lookup_insert_eq.
    + by rewrite list_lookup_insert_ne.
  - apply lookup_ge_None. rewrite length_take, length_insert. lia.
Qed.

Lemma swap_remove_perm i v x :
  v !! i = Some x -> x :: swap_remove i v ≡ₚ v.
Proof.
  intros Hi. pose proof (lookup_lt_Some _ _ _ Hi) as Hlt.
  destruct (exists_last (l := v)) as (w & y & ->); [by destruct v|].
  unfold swap_remove. rewrite length_app; simpl. rewrite Nat.add_sub.
  rewrite lookup_app_r, Nat.sub_diag by lia. simpl.
  rewrite length_app in Hlt; simpl in Hlt.
  destruct (decide (i = length w)) as [->|].
  - rewrite insert_app_r_alt, Nat.sub_diag by lia. simpl.
    rewrite take_app_length. rewrite lookup_app_r, Nat.sub_diag in Hi by lia.
    simplify_eq/=. by rewrite Permutation_cons_append.
  - rewrite insert_app_l by lia. rewrite take_app_length' by (by rewrite length_insert).
    rewrite lookup_app_l in Hi by lia.
    rewrite <- (take_drop_middle _ _ _ Hi) at 2.
    rewrite insert_take_drop by lia.
    rewrite <- app_assoc. simpl. rewrite <- !Permutation_middle.
    by rewrite app_nil_r.
Qed.

(** ** The visiting order *)

Lemma rotation_val frame :
  in_s 32 frame -> frame + 9 <= I32_MAX ->
  rotation frame = map (fun i => Z.to_nat ((frame + Z.of_nat i) mod 10)) (seq 0 OWNER_SLOTS).
Proof.
  intros Hf Hb. unfold rotation. apply map_ext_in. intros i Hi.
  apply in_seq in Hi. unfold OWNER_SLOTS in Hi.
  rewrite wrap_s_id by (try lia; ranges; lia). done.
Qed.

Lemma rotation_NoDup frame : in_s 32 frame -> frame + 9 <= I32_MAX -> NoDup (rotation frame).
Proof.
  intros Hf Hb. rewrite rotation_val by done.
  apply NoDup_fmap_2_strong; [|apply NoDup_seq].
  intros x y Hx Hy E. apply elem_of_seq in Hx, Hy. unfold OWNER_SLOTS in *.
  pose proof (Z.mod_pos_bound (frame + Z.of_nat x) 10).
  pose proof (Z.mod_pos_bound (frame + Z.of_nat y) 10).
  apply Z2Nat.inj in E; [|lia..].
  pose proof (Z.div_mod (frame + Z.of_nat x) 10). pose proof (Z.div_mod (frame + Z.of_nat y) 10).
  lia.
Qed.

Lemma elem_of_rotation_lt frame s : s ∈ rotation frame -> (s < OWNER_SLOTS)%nat.
Proof.
  unfold rotation. intros H. apply list_elem_of_fmap in H as (i & -> & _).
  pose proof (Z.mod_pos_bound (i32 (frame + Z.of_nat i)) 10). unfold OWNER_SLOTS. lia.
Qed.

Lemma rotation_perm frame :
  in_s 32 frame -> frame + 9 <= I32_MAX -> rotation frame ≡ₚ seq 0 OWNER_SLOTS.
Proof.
  intros Hf Hb. apply submseteq_length_Permutation.
  - apply NoDup_submseteq; [by apply rotation_NoDup|]. intros s Hs.
    apply elem_of_seq. apply elem_of_rotation_lt in Hs. lia.
  - unfold rotation. rewrite length_seq, length_map, length_seq. done.
Qed.

Lemma elem_of_band_entries s b rows e :
  e ∈ band_entries s b rows <->
  exists k row, e = (s, b, base b + Z.of_nat k, row) /\ rows !! k = Some row.
Proof.
  unfold band_entries. rewrite elem_of_lookup_imap. naive_solver.
Qed.

Definition entry_key (e : nat * Band * Z * Z) : nat * Band * Z := e.1.

Lemma band_entries_keys s b rows :
  map entry_key (band_entries s b rows)
  = map (fun k => (s, b, base b + Z.of_nat k)) (seq 0 (length rows)).
Proof.
  unfold band_entries. apply list_eq. intros i. rewrite !list_lookup_fmap, list_lookup_imap.
  destruct (rows !! i) eqn:E; simpl.
  - rewrite lookup_seq_lt by (by eapply lookup_lt_Some). done.
  - rewrite lookup_seq_ge by (by apply lookup_ge_None). done.
Qed.

Lemma band_entries_NoDup s b rows : NoDup (map entry_key (band_entries s b rows)).
Proof.
  rewrite band_entries_keys. apply NoDup_fmap_2; [|apply NoDup_seq].
  intros x y E. simplify_eq. lia.
Qed.

(** Keys of a per-slot contribution name their slot, so contributions of
    distinct slots do not collide. *)
Lemma bind_keys_NoDup (l : list nat) (f : nat -> list (nat * Band * Z * Z)) :
  NoDup l ->
  (forall s, NoDup (map entry_key (f s))) ->
  (forall s e, e ∈ f s -> e.1.1.1 = s) ->
  NoDup (map entry_key (l ≫= f)).
Proof.
  intros Hl Hf Hs. induction Hl as [|s l Hn Hl IH]; simpl; [constructor|].
  rewrite map_app. apply NoDup_app. split; [done|]. split; [|done].
  intros k Hk1 Hk2. apply list_elem_of_fmap in Hk1 as (e1 & -> & He1).
  apply list_elem_of_fmap in Hk2 as (e2 & Hk & He2).
  apply list_elem_of_bind in He2 as (s' & He2 & Hs').
  apply Hs in He1. apply Hs in He2. apply Hn.
  unfold entry_key in Hk. by rewrite <- He1, Hk, He2.
Qed.

Lemma elem_of_traversal frame r s b o row :
  wf r -> in_s 32 frame -> frame + 9 <= I32_MAX ->
  (s, b, o, row) ∈ traversal frame r <->
  is_active s r = true /\ (b <> Unit -> (s < BANDED_SLOTS)%nat) /\ row_at r s b o = Some row.
Proof.
  intros [Hw1 Hw2] Hf Hb. unfold traversal, row_at.
  assert (Hperm := rotation_perm frame Hf Hb).
  assert (Hent : forall b' rows, (s, b, o, row) ∈ band_entries s b' rows <->
    b = b' /\ base b' <= o /\ rows !! Z.to_nat (o - base b') = Some row).
  { intros b' rows. rewrite elem_of_band_entries. split.
    - intros (k & row' & E & Hk). simplify_eq. split; [done|]. split; [lia|].
      by replace (Z.to_nat _) with k by lia.
    - intros (-> & Hle & Hk). eexists _, _. split; [|exact Hk].
      rewrite Z2Nat.id by lia. do 2 f_equal. lia. }
  assert (Hin : is_active s r = true -> (s < OWNER_SLOTS)%nat).
  { unfold is_active. intros Ha. destruct (active r !! s) eqn:E; [|done].
    apply lookup_lt_Some in E. lia. }
  rewrite elem_of_app, !list_elem_of_bind. split.
  - intros [(s' & He & Hs')|(s' & He & Hs')].
    + destruct (is_active s' r) eqn:Ea; [|by apply elem_of_nil in He].
      pose proof He as He'. apply elem_of_band_entries in He' as (? & ? & ? & _); simplify_eq.
      apply Hent in He as (_ & Hle & Hrow). split; [done|]. split; [done|].
      apply elem_of_rotation_lt in Hs'.
      destruct (lookup_lt_is_Some_2 (slots r) s') as [sl Hsl]; [lia|].
      rewrite Hsl. erewrite list_lookup_total_correct in Hrow by done. simpl.
      by rewrite decide_True by done.
    + destruct (is_active s' r) eqn:Ea; [|by apply elem_of_nil in He].
      apply elem_of_seq in Hs'.
      destruct (lookup_lt_is_Some_2 (slots r) s') as [sl Hsl]; [unfold BANDED_SLOTS, OWNER_SLOTS in *; lia|].
      erewrite list_lookup_total_correct in He by done.
      apply elem_of_app in He as [He|He]; pose proof He as He';
        apply elem_of_band_entries in He' as (? & ? & ? & _); simplify_eq;
        apply Hent in He as (_ & Hle & Hrow);
        (split; [done|]; split; [intros; lia|]; rewrite Hsl; simpl; by rewrite decide_True by done).
  - intros (Ha & Hbs & Hrow). pose proof (Hin Ha) as Hlt.
    destruct (slots r !! s) as [sl|] eqn:Hsl; [|done]. simpl in Hrow.
    case_decide as Hle; [|done].
    assert (slots r !!! s = sl) as Hst by (by apply list_lookup_total_correct).
    destruct b.
    + left. exists s. rewrite Ha, Hst. split; [by apply Hent|].
      rewrite Hperm. apply elem_of_seq. lia.
    + right. exists s. rewrite Ha, Hst. split; [apply elem_of_app; left; by apply Hent|].
      apply elem_of_seq. specialize (Hbs ltac:(done)). lia.
    + right. exists s. rewrite Ha, Hst. split; [apply elem_of_app; right; by apply Hent|].
      apply elem_of_seq. specialize (Hbs ltac:(done)). lia.
Qed.

Lemma traversal_NoDup frame r :
  in_s 32 frame -> frame + 9 <= I32_MAX -> NoDup (map entry_key (traversal frame r)).
Proof.
  intros Hf Hb. unfold traversal. rewrite map_app. apply NoDup_app. split; [|split].
  - apply bind_keys_NoDup; [by apply rotation_NoDup| |].
    + intros s. destruct (is_active s r); [apply band_entries_NoDup|constructor].
    + intros s e. destruct (is_active s r); [|by intros ?%elem_of_nil].
      intros (? & ? & -> & _)%elem_of_band_entries. done.
  - intros k Hk1 Hk2.
    apply list_elem_of_fmap in Hk1 as (e1 & -> & He1). apply list_elem_of_fmap in Hk2 as (e2 & Hk & He2).
    apply list_elem_of_bind in He1 as (s1 & He1 & _). apply list_elem_of_bind in He2 as (s2 & He2 & _).
    destruct (is_active s1 r); [|by apply elem_of_nil in He1].
    destruct (is_active s2 r); [|by apply elem_of_nil in He2].
    apply elem_of_band_entries in He1 as (? & ? & -> & _).
    apply elem_of_app in He2 as [He2|He2];
      apply elem_of_band_entries in He2 as (? & ? & -> & _); unfold entry_key in Hk; simplify_eq.
  - apply bind_keys_NoDup; [apply NoDup_seq| |].
    + intros s. destruct (is_active s r); [|constructor].
      rewrite map_app. apply NoDup_app. split; [apply band_entries_NoDup|].
      split; [|apply band_entries_NoDup]. intros k Hk1 Hk2.
      apply list_elem_of_fmap in Hk1 as (e1 & -> & He1). apply list_elem_of_fmap in Hk2 as (e2 & Hk & He2).
      apply elem_of_band_entries in He1 as (? & ? & -> & _).
      apply elem_of_band_entries in He2 as (? & ? & -> & _). unfold entry_key in Hk. simplify_eq.
    + intros s e. destruct (is_active s r); [|by intros ?%elem_of_nil].
      intros [(? & ? & -> & _)%elem_of_band_entries|(? & ? & -> & _)%elem_of_band_entries]%elem_of_app; done.
Qed.

(** Buildings and walls of the two slots past the banded ones are never visited,
    whatever the frame, although [insert] accepts them there. *)
Lemma unbanded_never_visited frame r s b o row :
  b <> Unit -> (BANDED_SLOTS <= s)%nat -> (s, b, o, row) ∉ traversal frame r.
Proof.
  intros Hb Hs. unfold traversal. rewrite elem_of_app. intros [H|H]; apply list_elem_of_bind in H as (s' & He & Hs');
    (destruct (is_active s' r); [|by apply elem_of_nil in He]).
  - apply elem_of_band_entries in He as (? & ? & ? & _). by simplify_eq.
  - apply elem_of_seq in Hs'. apply elem_of_app in He as [He|He]; apply elem_of_band_entries in He as (? & ? & ? & _); simplify_eq; lia.
Qed.

(** (C36) What a frame visits, exactly: in a well-formed registry and for every
    frame counter up to [i32::MAX - 9], the owner order is a permutation of the
    ten slots, no engine address [(slot, band, o)] occurs twice in the
    traversal, and an entry occurs in it iff its slot is active, the row is
    registered at that address, and the slot is one of the first eight when the
    band is that of the buildings or of the walls.  So a unit of any active
    slot, and a building or wall of an active slot below eight, is visited
    exactly once; nothing of an inactive slot is, and no building or wall of
    slots eight and nine ([unbanded_never_visited]). *)
Theorem traversal_exactly_once (frame : Z) (r : t)
  (Hwf : wf r) (Hf : is_i32 frame) (Hb : frame + 9 <= I32_MAX) :
  rotation frame ≡ₚ seq 0 OWNER_SLOTS /\
  NoDup (map entry_key (traversal frame r)) /\
  forall s b o row, (s, b, o, row) ∈ traversal frame r <->
    is_active s r = true /\ (b <> Unit -> (s < BANDED_SLOTS)%nat) /\ row_at r s b o = Some row.
Proof.
  split; [by apply rotation_perm|]. split; [by apply traversal_NoDup|].
  intros. by apply elem_of_traversal.
Qed.

Definition demo_registry : t :=
  mk (<[2%nat := mkSlot [7; 8] [40] []]> (<[9%nat := mkSlot [5] [6] []]> (replicate OWNER_SLOTS empty_slot)))
     (<[2%nat := true]> (<[9%nat := true]> (replicate OWNER_SLOTS false))).

(** The building 6 of slot 9 is registered, its slot is active, and it is not in
    the traversal. *)
Lemma traversal_exactly_once_witness :
  traversal 19 demo_registry =
    [(9%nat, Unit, 0, 5); (2%nat, Unit, 0, 7); (2%nat, Unit, 1, 8); (2%nat, Build, 2000, 40)] /\
  rotation 19 ≡ₚ seq 0 OWNER_SLOTS /\
  NoDup (map entry_key (traversal 19 demo_registry)) /\
  forall s b o row, (s, b, o, row) ∈ traversal 19 demo_registry <->
    is_active s demo_registry = true /\ (b <> Unit -> (s < BANDED_SLOTS)%nat) /\
    row_at demo_registry s b o = Some row.
Proof.
  split; [reflexivity|].
  apply (traversal_exactly_once 19 demo_registry); [done|ranges; lia|ranges; lia].
Defined.

(** ** Insertion and removal *)

Lemma insert_spec who b row r o r' :
  insert who b row r = Some (o, r') ->
  o = base b + Z.of_nat (default 0%nat (band_len who b r)) /\
  row_at r who b o = None /\
  forall who' b' o', row_at r' who' b' o' =
    if decide (who' = who /\ b' = b /\ o' = o) then Some row else row_at r who' b' o'.
Proof.
  unfold insert, band_len. intros H. destruct (slots r !! who) as [s|] eqn:Hs; [|done].
  simpl in *. injection H as <- <-. rewrite length_app. simpl.
  split; [lia|]. split.
  { unfold row_at. rewrite Hs. simpl. rewrite decide_True by lia. apply lookup_ge_None. lia. }
  intros who' b' o'. rewrite (row_at_update r who b _ _ b' o' who' s Hs).
  destruct (decide (who' = who /\ b' = b)) as [[-> ->]|Hne].
  - unfold row_at. rewrite Hs. simpl. case_decide as Hle.
    + rewrite lookup_app. destruct (band s b !! Z.to_nat (o' - base b)) eqn:E.
      * apply lookup_lt_Some in E. rewrite decide_False by (intros (_ & _ & ?); lia).
        done.
      * apply lookup_ge_None in E. case_decide as Ho.
        -- destruct Ho as (_ & _ & ->). by replace (_ - _)%nat with 0%nat by lia.
        -- assert (Z.to_nat (o' - base b) <> length (band s b)) by (intros ?; apply Ho; repeat split; lia).
           destruct (_ - length _)%nat as [|n] eqn:En; [lia|done].
    + rewrite decide_False by (intros (_ & _ & ?); lia). done.
  - rewrite decide_False by tauto. done.
Qed.

Lemma remove_spec who b o row r x r' :
  remove who b o r = Some (x, r') -> row_at r who b o = Some row ->
  exists s v', r.(slots) !! who = Some s /\ band s b !! Z.to_nat (o - base b) = Some row /\
    v' = swap_remove (Z.to_nat (o - base b)) (band s b) /\
    r' = mk (<[who := set_band s b v']> r.(slots)) r.(active) /\
    x = if decide (o = mark s b - 1) then None
        else Some (default 0 (row_at r who b (mark s b - 1)), o).
Proof.
  unfold remove, row_at. intros H Hrow.
  destruct (slots r !! who) as [s|] eqn:Hs; [|done]. simpl in *.
  case_decide as Hle; [|done]. pose proof (lookup_lt_Some _ _ _ Hrow) as Hlt.
  exists s, (swap_remove (Z.to_nat (o - base b)) (band s b)).
  replace (o <? base b) with false in H by (symmetry; apply Z.ltb_ge; lia).
  rewrite decide_False in H by lia. unfold mark.
  case_decide as Hl; injection H as <- <-; repeat (split; [done|]).
  - by rewrite decide_True by lia.
  - rewrite decide_False by lia. f_equal. f_equal; [|lia].
    rewrite decide_True by lia.
    replace (Z.to_nat (base b + Z.of_nat (length (band s b)) - 1 - base b))
      with (length (band s b) - 1)%nat by lia.
    rewrite (nth_lookup _ _ _). rewrite lookup_swap_remove by lia.
    repeat case_decide; done || lia.
Qed.

(** Removing a registered object keeps the band dense and every address
    correct: the band loses exactly the removed row, the last row of the band
    is the one that moves (and it moves to the removed address, which the call
    reports so that its owner can be repaired), and every other address of the
    whole registry keeps its row. *)
Theorem remove_dense (who : nat) (b : Band) (o row : Z) (r : t) (x : option (Z * Z)) (r' : t)
  (Hrem : remove who b o r = Some (x, r')) (Hrow : row_at r who b o = Some row) :
  exists s s', r.(slots) !! who = Some s /\ r'.(slots) !! who = Some s' /\
    row :: band s' b ≡ₚ band s b /\
    x = (if decide (o = mark s b - 1) then None
         else Some (default 0 (row_at r who b (mark s b - 1)), o)) /\
    forall who' b' o', row_at r' who' b' o' =
      if decide (who' = who /\ b' = b /\ o' = mark s b - 1) then None
      else if decide (who' = who /\ b' = b /\ o' = o) then row_at r who b (mark s b - 1)
      else row_at r who' b' o'.
Proof.
  destruct (remove_spec _ _ _ _ _ _ _ Hrem Hrow) as (s & v' & Hs & Hrw & Hv' & -> & ->).
  pose proof (lookup_lt_Some _ _ _ Hrw) as Hlt.
  exists s, (set_band s b v'). split; [done|]. split.
  { simpl. by rewrite list_lookup_insert_eq by (by eapply lookup_lt_Some). }
  rewrite band_set_band. split; [subst; by apply swap_remove_perm|]. split; [done|].
  intros who' b' o'. rewrite (row_at_update r who b _ _ b' o' who' s Hs).
  destruct (decide (who' = who /\ b' = b)) as [[-> ->]|Hne].
  2:{ by rewrite decide_False, decide_False by tauto. }
  unfold row_at, mark. rewrite Hs. simpl. unfold row_at in Hrow. rewrite Hs in Hrow. simpl in Hrow.
  case_decide as Hbo; [clear Hrow|done].
  destruct (decide (base b <= o')) as [Hle|Hgt].
  2:{ by rewrite decide_False, decide_False by (intros (_ & _ & ?); lia). }
  subst v'. rewrite lookup_swap_remove by lia.
  destruct (decide (Z.to_nat (o' - base b) < length (band s b) - 1)%nat) as [H1|H1].
  - destruct (decide (who = who /\ b = b /\ o' = _ - 1)) as [(_ & _ & ?)|_]; [lia|].
    destruct (decide (who = who /\ b = b /\ o' = o)) as [(_ & _ & ->)|Hno].
    + rewrite !decide_True by lia. f_equal. lia.
    + rewrite decide_False; [done|]. intros E. apply Hno. repeat split; lia.
  - destruct (decide (who = who /\ b = b /\ o' = _ - 1)) as [_|Hn]; [done|].
    destruct (decide (who = who /\ b = b /\ o' = o)) as [(_ & _ & ->)|_].
    + rewrite decide_True by lia. symmetry. apply lookup_ge_None.
      assert (o <> base b + Z.of_nat (length (band s b)) - 1) by tauto. lia.
    + symmetry. apply lookup_ge_None.
      assert (o' <> base b + Z.of_nat (length (band s b)) - 1) by tauto. lia.
Qed.

Lemma remove_dense_witness :
  exists s s', demo_registry.(slots) !! 2%nat = Some s /\
    (mk (<[2%nat := mkSlot [8] [40] []]> demo_registry.(slots)) demo_registry.(active)).(slots) !! 2%nat = Some s' /\
    7 :: band s' Unit ≡ₚ band s Unit /\
    Some (8, 0) = (if decide (0 = mark s Unit - 1) then None
         else Some (default 0 (row_at demo_registry 2 Unit (mark s Unit - 1)), 0)) /\
    forall who' b' o',
      row_at (mk (<[2%nat := mkSlot [8] [40] []]> demo_registry.(slots)) demo_registry.(active)) who' b' o' =
      if decide (who' = 2%nat /\ b' = Unit /\ o' = mark s Unit - 1) then None
      else if decide (who' = 2%nat /\ b' = Unit /\ o' = 0) then row_at demo_registry 2 Unit (mark s Unit - 1)
      else row_at demo_registry who' b' o'.
Proof.
  apply (remove_dense 2 Unit 0 7 demo_registry (Some (8, 0))); reflexivity.
Defined.

End ObjectRegistry.
