(* ===== verification/SimSparse.v ===== *)
(** * The sparse registry of retail object addresses

    [crates/don-sim/src/systems/sparse_object_bands_authority_frontier.rs]: for
    each of ten owners three index bands, each band a high-water mark over slots
    that are live, reserved or tombstones, with a reverse map from stable
    identities to addresses.  Owners are numbered by [nat] (the [u8] of the
    source is range checked before use), object indices are [Z] ([i32]), and
    the identity type is any countable type with decidable equality (the source
    asks for [Copy + Ord]).  [None] around a result is an out-of-range slice. *)

From S2P Require Import Prelude.

(** ** Bands and addresses *)

Module RetailBand.

Definition UNIT_BAND_BASE : Z := 0.
Definition UNIT_BAND_LIMIT : Z := 2000.
Definition BUILD_BAND_BASE : Z := 2000.
Definition BUILD_BAND_LIMIT : Z := 3000.
Definition WALL_BAND_BASE : Z := 3000.
Definition WALL_BAND_LIMIT : Z := 32768.

Inductive t := Unit | Build | Wall.

#[global] Instance t_eq_dec : EqDecision t.
Proof. solve_decision. Defined.

Definition ALL : list t := [Unit; Build; Wall].

Definition base (b : t) : Z :=
  match b with Unit => UNIT_BAND_BASE | Build => BUILD_BAND_BASE | Wall => WALL_BAND_BASE end.

Definition limit (b : t) : Z :=
  match b with Unit => UNIT_BAND_LIMIT | Build => BUILD_BAND_LIMIT | Wall => WALL_BAND_LIMIT end.

Definition index (b : t) : nat := match b with Unit => 0 | Build => 1 | Wall => 2 end.

Definition contains (b : t) (o : Z) : bool := (base b <=? o) && (o <? limit b).

Lemma base_limit b : 0 <= base b < limit b.
Proof. by destruct b. Qed.

End RetailBand.

Definition OWNER_SLOTS : nat := 10.
Definition BANDED_OWNER_SLOTS : nat := 8.

Record RetailObjectAddress := mkAddress { a_owner : nat; a_band : RetailBand.t; a_o : Z }.

#[export] Instance RetailObjectAddress_eq_dec : EqDecision RetailObjectAddress.
Proof. solve_decision. Defined.

Definition is_well_formed (a : RetailObjectAddress) : bool :=
  bool_decide (a_owner a < OWNER_SLOTS)%nat && RetailBand.contains (a_band a) (a_o a).

(** The derived [Ord] of an address: owner, then band, then index. *)
Definition address_le (a b : RetailObjectAddress) : bool :=
  if decide (a_owner a = a_owner b) then
    if decide (a_band a = a_band b) then a_o a <=? a_o b
    else bool_decide (RetailBand.index (a_band a) <= RetailBand.index (a_band b))%nat
  else bool_decide (a_owner a <= a_owner b)%nat.

(** ** Slots *)

Inductive ObjectStorageClass := ClassUnit | ClassAnimal | ClassBuild | ClassWall.

Record ParallelStorage := mkStorage { object : Z; class : ObjectStorageClass; unit_projection : option Z }.

Record TombstoneFacts := mkFacts { flags : Z; hold_frames : Z; is_unit : bool; o_up : Z }.

#[export] Instance ObjectStorageClass_eq_dec : EqDecision ObjectStorageClass.
Proof. solve_decision. Defined.
#[export] Instance ParallelStorage_eq_dec : EqDecision ParallelStorage.
Proof. solve_decision. Defined.
#[export] Instance TombstoneFacts_eq_dec : EqDecision TombstoneFacts.
Proof. solve_decision. Defined.

Definition fresh_for (b : RetailBand.t) : TombstoneFacts :=
  mkFacts 0 0 (match b with RetailBand.Unit => true | _ => false end) (-1).

Definition is_reusable (f : TombstoneFacts) : bool :=
  (Z.land (flags f) 1 =? 0) && (hold_frames f =? 0) && (negb (is_unit f) || (o_up f <? 0)).

Inductive SparseSlotLifecycle (I : Type) :=
| Tombstone (facts : TombstoneFacts)
| Reserved (ticket : Z) (prior : TombstoneFacts)
| Live (identity : I).
Arguments Tombstone {I} facts.
Arguments Reserved {I} ticket prior.
Arguments Live {I} identity.

#[export] Instance SparseSlotLifecycle_eq_dec {I : Type} `{EqDecision I} : EqDecision (SparseSlotLifecycle I).
Proof. solve_decision. Defined.

Record SparseSlot (I : Type) := mkSlot { storage : ParallelStorage; lifecycle : SparseSlotLifecycle I }.
Arguments mkSlot {I} storage lifecycle.
Arguments storage {I} _.
Arguments lifecycle {I} _.

Record SparseBand (I : Type) := mkBand { mark : Z; slots : list (SparseSlot I) }.
Arguments mkBand {I} mark slots.
Arguments mark {I} _.
Arguments slots {I} _.

Definition new_band {I} (b : RetailBand.t) : SparseBand I := mkBand (RetailBand.base b) [].

(** [bands: [SparseBand<I>; 3]], indexed by [RetailBand::index]. *)
Record SparseOwner (I : Type) := mkOwner { unit_band : SparseBand I; build_band : SparseBand I; wall_band : SparseBand I }.
Arguments mkOwner {I} unit_band build_band wall_band.
Arguments unit_band {I} _.
Arguments build_band {I} _.
Arguments wall_band {I} _.

Definition new_owner {I} : SparseOwner I :=
  mkOwner (new_band RetailBand.Unit) (new_band RetailBand.Build) (new_band RetailBand.Wall).

#[export] Instance SparseOwner_inhabited I : Inhabited (SparseOwner I) := populate new_owner.

Definition get_band {I} (b : RetailBand.t) (w : SparseOwner I) : SparseBand I :=
  match b with RetailBand.Unit => unit_band w | RetailBand.Build => build_band w | RetailBand.Wall => wall_band w end.

(** [band_mut]: replace the band. *)
Definition set_band {I} (b : RetailBand.t) (x : SparseBand I) (w : SparseOwner I) : SparseOwner I :=
  match b with
  | RetailBand.Unit => mkOwner x (build_band w) (wall_band w)
  | RetailBand.Build => mkOwner (unit_band w) x (wall_band w)
  | RetailBand.Wall => mkOwner (unit_band w) (build_band w) x
  end.

(** ** Requests, receipts and errors *)

Record FindFreeRequest := mkRequest { request_owner : nat; request_band : RetailBand.t }.
Record Reservation := mkReservation { reserved_address : RetailObjectAddress; reserved_ticket : Z }.

Inductive StorageDisposition :=
| ReusedTombstone
| ExtendedRetainedStorage
| ConstructedAndRegistered (storage : ParallelStorage).

Inductive FindFreeOutcome :=
| OutcomeReserved (r : Reservation)
| CapacityFailure (code : Z).

Record FindFreeReceipt := mkFindFreeReceipt {
  request : FindFreeRequest; mark_before : Z; mark_after : Z; ineligible_prefix : Z;
  disposition : option StorageDisposition; outcome : FindFreeOutcome }.

Record CommitReceipt (I : Type) := mkCommitReceipt { reservation : Reservation; committed : I; commit_storage : ParallelStorage }.
Arguments mkCommitReceipt {I} reservation committed commit_storage.

Record RetireReceipt (I : Type) := mkRetireReceipt {
  retired_address : RetailObjectAddress; retired : I; retained_storage : ParallelStorage; tombstone : TombstoneFacts }.
Arguments mkRetireReceipt {I} retired_address retired retained_storage tombstone.

Record MarkReceipt := mkMarkReceipt {
  mark_owner : nat; mark_band : RetailBand.t; before : Z; after : Z; retained : nat }.

Record DenseMirrorInsertReceipt (I : Type) := mkInsertReceipt {
  inserted_address : RetailObjectAddress; inserted_identity : I; inserted_storage : ParallelStorage }.
Arguments mkInsertReceipt {I} inserted_address inserted_identity inserted_storage.
Arguments inserted_address {I} _.

Record DenseMirrorRemoveReceipt (I : Type) := mkRemoveReceipt {
  removed_address : RetailObjectAddress; removed_identity : I; moved : option (I * RetailObjectAddress) }.
Arguments mkRemoveReceipt {I} removed_address removed_identity moved.
Arguments moved {I} _.

Inductive SparseRegistryError :=
| InvalidOwner | InvalidObjectIndex | InvalidMark | MissingStorage | LiveTailBelowMark
| ReservationMismatch | DuplicateIdentity | IdentityMismatch | SlotNotLive | SlotNotTombstone
| OutstandingReservation | DenseBandGap | DuplicateAddress | DenseMirrorMismatch.

(** ** Traversal entries, snapshots and dense entries *)

Record TraversalEntry (I : Type) := mkEntry {
  entry_address : RetailObjectAddress; entry_storage : ParallelStorage; entry_lifecycle : SparseSlotLifecycle I }.
Arguments mkEntry {I} entry_address entry_storage entry_lifecycle.
Arguments entry_address {I} _.
Arguments entry_storage {I} _.
Arguments entry_lifecycle {I} _.

Inductive SnapshotLifecycle (I : Type) := SnapTombstone (facts : TombstoneFacts) | SnapLive (identity : I).
Arguments SnapTombstone {I} facts.
Arguments SnapLive {I} identity.

Record SparseBandSnapshot (I : Type) := mkBandSnapshot { snap_mark : Z; snap_slots : list (SnapshotLifecycle I) }.
Arguments mkBandSnapshot {I} snap_mark snap_slots.
Arguments snap_mark {I} _.
Arguments snap_slots {I} _.

(** [SparseOwnerSnapshot { bands }] is the list of its bands. *)
Record SparseRegistrySnapshot (I : Type) := mkSnapshot {
  snap_active : list bool; snap_owners : list (list (SparseBandSnapshot I)) }.
Arguments mkSnapshot {I} snap_active snap_owners.
Arguments snap_active {I} _.
Arguments snap_owners {I} _.

#[export] Instance SnapshotLifecycle_eq_dec {I : Type} `{EqDecision I} : EqDecision (SnapshotLifecycle I).
Proof. solve_decision. Defined.
#[export] Instance SparseBandSnapshot_eq_dec {I : Type} `{EqDecision I} : EqDecision (SparseBandSnapshot I).
Proof. solve_decision. Defined.
#[export] Instance SparseRegistrySnapshot_eq_dec {I : Type} `{EqDecision I} : EqDecision (SparseRegistrySnapshot I).
Proof. solve_decision. Defined.

Record DenseRegistryEntry (I : Type) := mkDense { dense_address : RetailObjectAddress; dense_identity : I }.
Arguments mkDense {I} dense_address dense_identity.
Arguments dense_address {I} _.
Arguments dense_identity {I} _.

Record OwnerMarks := mkOwnerMarks { unit_mark : Z; build_mark : Z; wall_mark : Z }.
Record DenseConversionReceipt := mkConversion {
  converted_live_entries : nat; marks : list OwnerMarks; stores_stable_identity_not_row : bool }.

(** ** The registry *)

Module SparseObjectBands.

Section ops.
Context {I : Type} `{Countable I}.

Record t := mk {
  owners : list (SparseOwner I);
  active : list bool;
  reverse : gmap I RetailObjectAddress;
  next_storage : Z;
  next_ticket : Z }.

Abbreviation R A := (result SparseRegistryError (A * t)).

Definition new : t := mk (replicate OWNER_SLOTS new_owner) (replicate OWNER_SLOTS false) ∅ 1 1.

Definition set_owners (x : list (SparseOwner I)) (s : t) : t := mk x (active s) (reverse s) (next_storage s) (next_ticket s).
Definition set_actives (x : list bool) (s : t) : t := mk (owners s) x (reverse s) (next_storage s) (next_ticket s).
Definition set_reverse (x : gmap I RetailObjectAddress) (s : t) : t := mk (owners s) (active s) x (next_storage s) (next_ticket s).
Definition set_next_storage (x : Z) (s : t) : t := mk (owners s) (active s) (reverse s) x (next_ticket s).
Definition set_next_ticket (x : Z) (s : t) : t := mk (owners s) (active s) (reverse s) (next_storage s) x.

(** [self.owners[owner].band(b)] and writing it back. *)
Definition band_of (w : nat) (b : RetailBand.t) (s : t) : SparseBand I := get_band b (owners s !!! w).
Definition put_band (w : nat) (b : RetailBand.t) (x : SparseBand I) (s : t) : t :=
  set_owners (<[w := set_band b x (owners s !!! w)]> (owners s)) s.

(** [band.slots[index].lifecycle = l]. *)
Definition set_lifecycle (w : nat) (b : RetailBand.t) (index : nat) (l : SparseSlotLifecycle I) (s : t) : t :=
  let x := band_of w b s in
  put_band w b (mkBand (mark x) (alter (fun sl => mkSlot (storage sl) l) index (slots x))) s.

Definition is_active (w : nat) (s : t) : option bool := active s !! w.

Definition set_active (w : nat) (on : bool) (s : t) : result SparseRegistryError t :=
  match active s !! w with
  | None => Err InvalidOwner
  | Some _ => Ok (set_actives (<[w := on]> (active s)) s)
  end.

Definition get_mark (w : nat) (b : RetailBand.t) (s : t) : option Z := (fun x => mark (get_band b x)) <$> owners s !! w.
Definition retained_slots (w : nat) (b : RetailBand.t) (s : t) : option nat :=
  (fun x => length (slots (get_band b x))) <$> owners s !! w.

Definition slot_index (a : RetailObjectAddress) : result SparseRegistryError nat :=
  if decide (OWNER_SLOTS <= a_owner a)%nat then Err InvalidOwner
  else if negb (RetailBand.contains (a_band a) (a_o a)) then Err InvalidObjectIndex
  else Ok (Z.to_nat (a_o a - RetailBand.base (a_band a))).

Definition slot (a : RetailObjectAddress) (s : t) : option (SparseSlot I) :=
  match slot_index a with
  | Ok index => slots (band_of (a_owner a) (a_band a) s) !! index
  | Err _ => None
  end.

Definition address_of (i : I) (s : t) : option RetailObjectAddress := reverse s !! i.

Definition live_identity (a : RetailObjectAddress) (s : t) : option I :=
  sl ← slot a s;
  match lifecycle sl with Live i => Some i | Tombstone _ | Reserved _ _ => None end.

Definition resolve_dense_row (a : RetailObjectAddress) (resolve : I -> option Z) (s : t) : option Z :=
  i ← live_identity a s; resolve i.

(** [self.next_storage.wrapping_add(1).max(1)]. *)
Definition bump (n : Z) : Z := Z.max (u64 (n + 1)) 1.

Definition allocate_storage (w : nat) (b : RetailBand.t) (s : t) : ParallelStorage * t :=
  let object := next_storage s in
  let n := bump object in
  match b with
  | RetailBand.Unit =>
      (mkStorage object (if decide (BANDED_OWNER_SLOTS <= w)%nat then ClassAnimal else ClassUnit) (Some n),
       set_next_storage (bump n) s)
  | RetailBand.Build => (mkStorage object ClassBuild None, set_next_storage n s)
  | RetailBand.Wall => (mkStorage object ClassWall None, set_next_storage n s)
  end.

(** [band.slots.push(slot); band.mark += 1]. *)
Definition push_slot (w : nat) (b : RetailBand.t) (sl : SparseSlot I) (s : t) : t :=
  let x := band_of w b s in put_band w b (mkBand (mark x + 1) (slots x ++ [sl])) s.

Definition activate (w : nat) (s : t) : t := set_actives (<[w := true]> (active s)) s.

Definition mirror_dense_append (w : nat) (b : RetailBand.t) (i : I) (s : t) : R (DenseMirrorInsertReceipt I) :=
  if decide (OWNER_SLOTS <= w)%nat then Err InvalidOwner
  else if decide (is_Some (reverse s !! i)) then Err DuplicateIdentity
  else
    let x := band_of w b s in
    if negb (mark x =? RetailBand.base b + Z.of_nat (length (slots x))) || (RetailBand.limit b <=? mark x)
    then Err DenseMirrorMismatch
    else
      let a := mkAddress w b (mark x) in
      let '(st, s) := allocate_storage w b s in
      let s := push_slot w b (mkSlot st (Live i)) s in
      let s := set_reverse (<[i := a]> (reverse s)) s in
      Ok (mkInsertReceipt a i st, activate w s).

(** The tail that [swap_remove] moves into the hole, when there is one. *)
Definition moved_tail (index : nat) (a : RetailObjectAddress) (x : SparseBand I)
  : result SparseRegistryError (option (I * RetailObjectAddress)) :=
  let last := (length (slots x) - 1)%nat in
  if decide (index = last) then Ok None
  else match lifecycle <$> slots x !! last with
       | Some (Live m) => Ok (Some (m, a))
       | _ => Err DenseMirrorMismatch
       end.

Definition mirror_dense_swap_remove (a : RetailObjectAddress) (i : I) (s : t) : R (DenseMirrorRemoveReceipt I) :=
  let? index := slot_index a in
  if negb (bool_decide (reverse s !! i = Some a)) then Err IdentityMismatch
  else
    let w := a_owner a in
    let b := a_band a in
    let x := band_of w b s in
    if negb (mark x =? RetailBand.base b + Z.of_nat (length (slots x)))
       || negb (bool_decide (lifecycle <$> slots x !! index = Some (Live i)))
    then Err DenseMirrorMismatch
    else
      let? mv := moved_tail index a x in
      let s := match mv with Some (m, _) => set_lifecycle w b index (Live m) s | None => s end in
      let x := band_of w b s in
      let s := put_band w b (mkBand (mark x - 1) (take (length (slots x) - 1) (slots x))) s in
      let rev := delete i (reverse s) in
      let rev := match mv with Some (m, ma) => <[m := ma]> rev | None => rev end in
      Ok (mkRemoveReceipt a i mv, set_reverse rev s).

Definition slot_reusable (sl : SparseSlot I) : bool :=
  match lifecycle sl with Tombstone f => is_reusable f | _ => false end.

(** [iter().position(p)]. *)
Definition position {A} (p : A -> bool) (l : list A) : option nat := fst <$> list_find (fun x => p x = true) l.

(** The slot [find_free] settles on: index, new mark, disposition and the facts
    it displaces, with the registry after a possible storage allocation; [None]
    is the capacity failure.  The error of the first branch stands for the
    source's [unreachable!]: the predicate of [position] fixed the lifecycle. *)
Definition choose_free (w : nat) (b : RetailBand.t) (s : t)
  : result SparseRegistryError (option (nat * Z * StorageDisposition * TombstoneFacts * t)) :=
  let x := band_of w b s in
  let marked_len := Z.to_nat (mark x - RetailBand.base b) in
  match position slot_reusable (take marked_len (slots x)) with
  | Some k =>
      match lifecycle <$> slots x !! k with
      | Some (Tombstone prior) => Ok (Some (k, mark x, ReusedTombstone, prior, s))
      | _ => Err MissingStorage
      end
  | None =>
      if RetailBand.limit b <=? mark x then Ok None
      else if decide (marked_len < length (slots x))%nat then
        match lifecycle <$> slots x !! marked_len with
        | Some (Tombstone prior) => Ok (Some (marked_len, mark x + 1, ExtendedRetainedStorage, prior, s))
        | _ => Err LiveTailBelowMark
        end
      else if decide (marked_len = length (slots x)) then
        let '(st, s) := allocate_storage w b s in
        Ok (Some (marked_len, mark x + 1, ConstructedAndRegistered st, fresh_for b, s))
      else Err MissingStorage
  end.

Definition find_free (q : FindFreeRequest) (s : t) : R FindFreeReceipt :=
  let w := request_owner q in
  let b := request_band q in
  if decide (OWNER_SLOTS <= w)%nat then Err InvalidOwner
  else
    let x := band_of w b s in
    let mb := mark x in
    if (mb <? RetailBand.base b) || (RetailBand.limit b <? mb) then Err InvalidMark
    else
      let marked_len := Z.to_nat (mb - RetailBand.base b) in
      if decide (length (slots x) < marked_len)%nat then Err MissingStorage
      else
        let? c := choose_free w b s in
        match c with
        | None => Ok (mkFindFreeReceipt q mb mb (Z.of_nat marked_len) None (CapacityFailure (-1)), s)
        | Some (k, ma, d, prior, s) =>
            let ticket := next_ticket s in
            let s := set_next_ticket (bump ticket) s in
            let a := mkAddress w b (RetailBand.base b + Z.of_nat k) in
            let x := band_of w b s in
            let l := Reserved ticket prior in
            let sls := match d with
                       | ConstructedAndRegistered st => slots x ++ [mkSlot st l]
                       | _ => alter (fun sl => mkSlot (storage sl) l) k (slots x)
                       end in
            let s := put_band w b (mkBand ma sls) s in
            Ok (mkFindFreeReceipt q mb ma (Z.of_nat k) (Some d) (OutcomeReserved (mkReservation a ticket)), s)
        end.

(** [.get_mut(index).ok_or(MissingStorage)?] after [slot_index]. *)
Definition slot_at (a : RetailObjectAddress) (s : t) : result SparseRegistryError (nat * SparseSlot I) :=
  let? index := slot_index a in
  let? sl := ok_or (slots (band_of (a_owner a) (a_band a) s) !! index) MissingStorage in
  Ok (index, sl).

Definition commit (r : Reservation) (i : I) (s : t) : R (CommitReceipt I) :=
  if decide (is_Some (reverse s !! i)) then Err DuplicateIdentity
  else
    let a := reserved_address r in
    let? ' (index, sl) := slot_at a s in
    match lifecycle sl with
    | Reserved ticket _ =>
        if ticket =? reserved_ticket r then
          let s := set_lifecycle (a_owner a) (a_band a) index (Live i) s in
          let s := set_reverse (<[i := a]> (reverse s)) s in
          Ok (mkCommitReceipt r i (storage sl), activate (a_owner a) s)
        else Err ReservationMismatch
    | _ => Err ReservationMismatch
    end.

Definition cancel (r : Reservation) (s : t) : result SparseRegistryError t :=
  let a := reserved_address r in
  let? ' (index, sl) := slot_at a s in
  match lifecycle sl with
  | Reserved ticket prior =>
      if ticket =? reserved_ticket r then Ok (set_lifecycle (a_owner a) (a_band a) index (Tombstone prior) s)
      else Err ReservationMismatch
  | _ => Err ReservationMismatch
  end.

Definition retire (a : RetailObjectAddress) (i : I) (f : TombstoneFacts) (s : t) : R (RetireReceipt I) :=
  if negb (bool_decide (reverse s !! i = Some a)) then Err IdentityMismatch
  else
    let? ' (index, sl) := slot_at a s in
    if negb (bool_decide (lifecycle sl = Live i)) then Err SlotNotLive
    else
      let s := set_lifecycle (a_owner a) (a_band a) index (Tombstone f) s in
      Ok (mkRetireReceipt a i (storage sl) f, set_reverse (delete i (reverse s)) s).

Definition tick_tombstone_hold (a : RetailObjectAddress) (s : t) : R Z :=
  let? ' (index, sl) := slot_at a s in
  match lifecycle sl with
  | Tombstone f =>
      let f := mkFacts (flags f) (saturating_sub (hold_frames f) 1) (is_unit f) (o_up f) in
      Ok (hold_frames f, set_lifecycle (a_owner a) (a_band a) index (Tombstone f) s)
  | _ => Err SlotNotTombstone
  end.

Definition is_tombstone (sl : SparseSlot I) : bool := match lifecycle sl with Tombstone _ => true | _ => false end.

(** [None]: the slice [band.slots[new_len..old_len]] is out of range. *)
Definition lower_mark (w : nat) (b : RetailBand.t) (new_mark : Z) (s : t) : option (R MarkReceipt) :=
  if decide (OWNER_SLOTS <= w)%nat then Some (Err InvalidOwner)
  else
    let x := band_of w b s in
    if (new_mark <? RetailBand.base b) || (mark x <? new_mark) then Some (Err InvalidMark)
    else
      let new_len := Z.to_nat (new_mark - RetailBand.base b) in
      let old_len := Z.to_nat (mark x - RetailBand.base b) in
      if decide (length (slots x) < old_len)%nat then None
      else if negb (forallb is_tombstone (take (old_len - new_len) (drop new_len (slots x))))
      then Some (Err LiveTailBelowMark)
      else Some (Ok (mkMarkReceipt w b (mark x) new_mark (length (slots x)),
                     put_band w b (mkBand new_mark (slots x)) s)).

Definition live_count (s : t) : nat := size (reverse s).

Definition bands (w : SparseOwner I) : list (SparseBand I) := (fun b => get_band b w) <$> RetailBand.ALL.

Definition total_retained_storage (s : t) : nat :=
  sum_list_with (fun w => sum_list_with (fun x => length (slots x)) (bands w)) (owners s).

Definition append_marked (w : nat) (b : RetailBand.t) (s : t) : option (list (TraversalEntry I)) :=
  let x := band_of w b s in
  let marked_len := Z.to_nat (mark x - RetailBand.base b) in
  if decide (length (slots x) < marked_len)%nat then None
  else Some (imap (fun k sl => mkEntry (mkAddress w b (RetailBand.base b + Z.of_nat k)) (storage sl) (lifecycle sl))
                  (take marked_len (slots x))).

Definition rotation (frame : Z) : list nat :=
  (fun k => Z.to_nat (i32 (frame + Z.of_nat k) mod Z.of_nat OWNER_SLOTS)) <$> seq 0 OWNER_SLOTS.

(** One part of the walk: the listed bands of an owner that is active. *)
Definition walk_owner (bs : list RetailBand.t) (w : nat) (s : t) : option (list (TraversalEntry I)) :=
  if default false (active s !! w) then (@concat _) <$> mapM (fun b => append_marked w b s) bs else Some [].

Definition traversal (frame : Z) (s : t) : option (list (TraversalEntry I)) :=
  us ← mapM (fun w => walk_owner [RetailBand.Unit] w s) (rotation frame);
  bs ← mapM (fun w => walk_owner [RetailBand.Build; RetailBand.Wall] w s) (seq 0 BANDED_OWNER_SLOTS);
  Some (concat us ++ concat bs).

(** ** Snapshots *)

Definition snap_lifecycle (l : SparseSlotLifecycle I) : result SparseRegistryError (SnapshotLifecycle I) :=
  match l with
  | Tombstone f => Ok (SnapTombstone f)
  | Live i => Ok (SnapLive i)
  | Reserved _ _ => Err OutstandingReservation
  end.

Fixpoint try_map {A B} (f : A -> result SparseRegistryError B) (l : list A) : result SparseRegistryError (list B) :=
  match l with
  | [] => Ok []
  | x :: l => let? y := f x in let? ys := try_map f l in Ok (y :: ys)
  end.

Definition snap_band (x : SparseBand I) : result SparseRegistryError (SparseBandSnapshot I) :=
  let? sls := try_map (fun sl => snap_lifecycle (lifecycle sl)) (slots x) in
  Ok (mkBandSnapshot (mark x) sls).

Definition snapshot (s : t) : result SparseRegistryError (SparseRegistrySnapshot I) :=
  let? ws := try_map (fun w => try_map snap_band (bands w)) (owners s) in
  Ok (mkSnapshot (active s) ws).

(** The slots of one band of a snapshot, offsets counted from [k]. *)
Fixpoint restore_slots (w : nat) (b : RetailBand.t) (k : nat) (l : list (SnapshotLifecycle I)) (s : t)
  : result SparseRegistryError (list (SparseSlot I) * t) :=
  match l with
  | [] => Ok ([], s)
  | c :: l =>
      let '(st, s) := allocate_storage w b s in
      let? ' (y, s) :=
        (match c with
         | SnapTombstone f => Ok (Tombstone f, s)
         | SnapLive i =>
             let a := mkAddress w b (RetailBand.base b + Z.of_nat k) in
             if decide (is_Some (reverse s !! i)) then Err DuplicateIdentity
             else Ok (Live i, set_reverse (<[i := a]> (reverse s)) s)
         end) in
      let? ' (sls, s) := restore_slots w b (S k) l s in
      Ok (mkSlot st y :: sls, s)
  end.

Definition band_snapshot_ok (b : RetailBand.t) (x : SparseBandSnapshot I) : bool :=
  negb ((snap_mark x <? RetailBand.base b) || (RetailBand.limit b <? snap_mark x)
        || bool_decide (length (snap_slots x) < Z.to_nat (snap_mark x - RetailBand.base b))%nat
        || bool_decide (Z.to_nat (RetailBand.limit b - RetailBand.base b) < length (snap_slots x))%nat).

Definition restore_band (w : nat) (b : RetailBand.t) (x : SparseBandSnapshot I) (s : t) : result SparseRegistryError t :=
  if negb (band_snapshot_ok b x) then Err InvalidMark
  else
    let? ' (sls, s) := restore_slots w b 0 (snap_slots x) s in
    Ok (put_band w b (mkBand (snap_mark x) sls) s).

Fixpoint restore_bands (w : nat) (l : list (RetailBand.t * SparseBandSnapshot I)) (s : t) : result SparseRegistryError t :=
  match l with
  | [] => Ok s
  | (b, x) :: l => let? s := restore_band w b x s in restore_bands w l s
  end.

Fixpoint restore_owners (w : nat) (l : list (list (SparseBandSnapshot I))) (s : t) : result SparseRegistryError t :=
  match l with
  | [] => Ok s
  | ow :: l =>
      if negb (bool_decide (length ow = 3%nat)) then Err InvalidMark
      else let? s := restore_bands w (zip RetailBand.ALL ow) s in restore_owners (S w) l s
  end.

Definition from_snapshot (x : SparseRegistrySnapshot I) : result SparseRegistryError t :=
  if negb (bool_decide (length (snap_owners x) = OWNER_SLOTS)) then Err InvalidOwner
  else restore_owners 0 (snap_owners x) (set_actives (snap_active x) new).

(** ** Conversion of the dense bands *)

(** [sort_by_key(address)]: a stable insertion sort. *)
Fixpoint insert_sorted (e : DenseRegistryEntry I) (l : list (DenseRegistryEntry I)) : list (DenseRegistryEntry I) :=
  match l with
  | [] => [e]
  | x :: l' => if address_le (dense_address e) (dense_address x) then e :: l else x :: insert_sorted e l'
  end.

Definition sort_entries (l : list (DenseRegistryEntry I)) : list (DenseRegistryEntry I) := foldr insert_sorted [] l.

Definition convert_entry (previous : option RetailObjectAddress) (e : DenseRegistryEntry I) (s : t) : result SparseRegistryError t :=
  let a := dense_address e in
  let i := dense_identity e in
  if negb (is_well_formed a) then Err InvalidObjectIndex
  else if bool_decide (previous = Some a) then Err DuplicateAddress
  else if decide (is_Some (reverse s !! i)) then Err DuplicateIdentity
  else if negb (a_o a =? mark (band_of (a_owner a) (a_band a) s)) then Err DenseBandGap
  else
    let '(st, s) := allocate_storage (a_owner a) (a_band a) s in
    let s := push_slot (a_owner a) (a_band a) (mkSlot st (Live i)) s in
    Ok (set_reverse (<[i := a]> (reverse s)) s).

Fixpoint convert_entries (previous : option RetailObjectAddress) (l : list (DenseRegistryEntry I)) (s : t)
  : result SparseRegistryError t :=
  match l with
  | [] => Ok s
  | e :: l => let? s := convert_entry previous e s in convert_entries (Some (dense_address e)) l s
  end.

Definition owner_marks (w : nat) (s : t) : OwnerMarks :=
  mkOwnerMarks (mark (band_of w RetailBand.Unit s)) (mark (band_of w RetailBand.Build s)) (mark (band_of w RetailBand.Wall s)).

Definition from_dense_entries (act : list bool) (entries : list (DenseRegistryEntry I)) : R DenseConversionReceipt :=
  let? s := convert_entries None (sort_entries entries) (set_actives act new) in
  Ok (mkConversion (length entries) ((fun w => owner_marks w s) <$> seq 0 OWNER_SLOTS) true, s).

End ops.
Arguments t I {_ _}.
End SparseObjectBands.
