(* ===== verification/SimSparseSpec.v ===== *)
(** * The sparse registry: invariant, allocation and snapshots

    Over [SimSparse]: the reverse map is exactly the live slots and every band
    stays within its limits, whatever sequence of operations is applied;
    [find_free] settles on the lowest eligible index; a snapshot restores a
    registry with the same addresses, marks and tombstones. *)

From S2P Require Import Prelude SimSparse.
Import SparseObjectBands.

Section spec.
Context {I : Type} `{Countable I}.
Abbreviation registry := (SparseObjectBands.t I).
Implicit Types (s : registry) (i : I) (x : SparseBand I) (b : RetailBand.t) (w k : nat).

(** ** Addresses and live slots *)

(** The address of slot [k] of a band. *)
Definition at_ w b k : RetailObjectAddress := mkAddress w b (RetailBand.base b + Z.of_nat k).

Definition life x k : option (SparseSlotLifecycle I) := lifecycle <$> slots x !! k.

Definition live_at s w b k i : Prop := (w < OWNER_SLOTS)%nat /\ life (band_of w b s) k = Some (Live i).

Definition marked_len b x : nat := Z.to_nat (mark x - RetailBand.base b).

(** The bounds of one band. *)
Definition band_wf b x : Prop :=
  RetailBand.base b <= mark x <= RetailBand.limit b /\
  (marked_len b x <= length (slots x))%nat /\
  RetailBand.base b + Z.of_nat (length (slots x)) <= RetailBand.limit b.

(** Above the mark only tombstones are retained. *)
Definition band_settled b x : Prop :=
  forall k l, life x k = Some l -> (marked_len b x <= k)%nat -> exists f, l = Tombstone f.

Definition rev_ok s : Prop :=
  forall i a, reverse s !! i = Some a <-> exists w b k, a = at_ w b k /\ live_at s w b k i.

Record wf s : Prop := {
  wf_owners : length (owners s) = OWNER_SLOTS;
  wf_active : length (active s) = OWNER_SLOTS;
  wf_band w b : (w < OWNER_SLOTS)%nat -> band_wf b (band_of w b s);
  wf_rev : rev_ok s }.

Definition settled s : Prop := forall w b, (w < OWNER_SLOTS)%nat -> band_settled b (band_of w b s).

Lemma wf_reverse s i a :
  wf s -> reverse s !! i = Some a <-> exists w b k, a = at_ w b k /\ live_at s w b k i.
Proof. intros Hwf. apply (wf_rev _ Hwf). Qed.

(** ** Structural lemmas *)

Lemma at_inj w b k w' b' k' : at_ w b k = at_ w' b' k' -> w = w' /\ b = b' /\ k = k'.
Proof. unfold at_. intros E. simplify_eq. split; [done|]. split; [done|]. lia. Qed.

Lemma get_set_band b b' x (ow : SparseOwner I) :
  get_band b' (set_band b x ow) = if decide (b' = b) then x else get_band b' ow.
Proof. by destruct b, b'. Qed.

Lemma band_of_put w b x w' b' s :
  (w < length (owners s))%nat ->
  band_of w' b' (put_band w b x s) = if decide (w' = w /\ b' = b) then x else band_of w' b' s.
Proof.
  intros Hw. unfold band_of, put_band; simpl. destruct (decide (w' = w)) as [->|Hn].
  - rewrite list_lookup_total_insert_eq by done. rewrite get_set_band.
    destruct (decide (b' = b)) as [->|]; [by rewrite decide_True|by rewrite decide_False by tauto].
  - rewrite list_lookup_total_insert_ne by done. by rewrite decide_False by tauto.
Qed.

Lemma slot_index_Ok a k :
  slot_index a = Ok k -> (a_owner a < OWNER_SLOTS)%nat /\ a = at_ (a_owner a) (a_band a) k /\
    RetailBand.base (a_band a) + Z.of_nat k < RetailBand.limit (a_band a).
Proof.
  unfold slot_index, RetailBand.contains. intros E. repeat case_match; simplify_eq.
  bool_hyps. split; [lia|]. destruct a as [w b o0]; unfold at_; simpl in *.
  split; [f_equal; lia|lia].
Qed.

Lemma slot_index_at w b k :
  (w < OWNER_SLOTS)%nat -> RetailBand.base b + Z.of_nat k < RetailBand.limit b -> slot_index (at_ w b k) = Ok k.
Proof.
  intros Hw Hk. unfold slot_index, at_, RetailBand.contains; simpl.
  rewrite decide_False by lia.
  assert ((RetailBand.base b <=? RetailBand.base b + Z.of_nat k) = true) as -> by lia.
  assert ((RetailBand.base b + Z.of_nat k <? RetailBand.limit b) = true) as -> by lia.
  simpl. f_equal. lia.
Qed.

Lemma life_lt x k l : life x k = Some l -> (k < length (slots x))%nat.
Proof. unfold life. intros E. apply fmap_Some in E as (sl & E & _). by eapply lookup_lt_Some. Qed.

(** Reading an address of a well-formed registry is reading the band. *)
Lemma slot_at_lookup w b k s :
  wf s -> (w < OWNER_SLOTS)%nat -> slot (at_ w b k) s = slots (band_of w b s) !! k.
Proof.
  intros Hwf Hw. unfold slot. destruct (slot_index (at_ w b k)) as [k'|] eqn:E.
  - apply slot_index_Ok in E as (_ & E & _). apply at_inj in E as (_ & _ & <-). done.
  - symmetry. apply lookup_ge_None. destruct (wf_band _ Hwf w b Hw) as (_ & _ & Hlen).
    destruct (decide (k < length (slots (band_of w b s)))%nat); [|lia].
    rewrite slot_index_at in E; [done|done|lia].
Qed.

(** The reverse map of a well-formed registry is the inverse of [live_identity]. *)
Lemma reverse_live_identity s i a : wf s -> reverse s !! i = Some a <-> live_identity a s = Some i.
Proof.
  intros Hwf. rewrite wf_reverse by done. unfold live_identity. split.
  - intros (w & b & k & -> & Hw & Hl). rewrite slot_at_lookup by done.
    unfold life in Hl. destruct (slots (band_of w b s) !! k) as [sl|]; simplify_eq/=. by rewrite Hl.
  - destruct (slot a s) as [sl|] eqn:E; [|done]. simpl. intros El.
    unfold slot in E. destruct (slot_index a) as [k|] eqn:Ek; [|done].
    apply slot_index_Ok in Ek as (Hw & -> & _). exists (a_owner a), (a_band a), k. split; [done|]. split; [done|].
    unfold life. simpl in E. rewrite E. simpl. by repeat case_match; simplify_eq.
Qed.

Lemma live_identity_inj s i a a' :
  wf s -> live_identity a s = Some i -> live_identity a' s = Some i -> a = a'.
Proof. intros Hwf H1 H2. apply reverse_live_identity in H1, H2; [|done..]. congruence. Qed.

Lemma live_at_inj s i w b k w' b' k' :
  wf s -> live_at s w b k i -> live_at s w' b' k' i -> w = w' /\ b = b' /\ k = k'.
Proof.
  intros Hwf H1 H2. apply at_inj.
  assert (reverse s !! i = Some (at_ w b k)) as E1 by (apply (wf_rev _ Hwf); eauto 6).
  assert (reverse s !! i = Some (at_ w' b' k')) as E2 by (apply (wf_rev _ Hwf); eauto 6).
  congruence.
Qed.

(** ** One band is replaced *)

Lemma live_at_put w b x s w' b' k i :
  length (owners s) = OWNER_SLOTS -> (w < OWNER_SLOTS)%nat ->
  live_at (put_band w b x s) w' b' k i <->
    if decide (w' = w /\ b' = b) then life x k = Some (Live i) else live_at s w' b' k i.
Proof.
  intros Ho Hw. unfold live_at. rewrite band_of_put by (by rewrite Ho).
  destruct (decide (w' = w /\ b' = b)) as [[-> ->]|]; tauto.
Qed.

Lemma put_band_wf w b x rev act s :
  wf s -> (w < OWNER_SLOTS)%nat -> length act = OWNER_SLOTS -> band_wf b x ->
  (forall i a, rev !! i = Some a <-> exists w' b' k, a = at_ w' b' k /\
     if decide (w' = w /\ b' = b) then life x k = Some (Live i) else live_at s w' b' k i) ->
  forall n m, wf (mk (owners (put_band w b x s)) act rev n m).
Proof.
  intros Hwf Hw Ha Hx Hr n m. pose proof (wf_owners _ Hwf) as Ho. split; simpl.
  - by rewrite length_insert.
  - done.
  - intros w' b' Hw'. change (band_of w' b' _) with (band_of w' b' (put_band w b x s)).
    rewrite band_of_put by (by rewrite Ho). case_decide as D; [by destruct D as [-> ->]|]. by apply wf_band.
  - intros i a. simpl. rewrite Hr. apply exist_proper. intros w'. apply exist_proper. intros b'.
    apply exist_proper. intros k. rewrite <- live_at_put by done. done.
Qed.

Lemma put_band_settled w b x s :
  (w < OWNER_SLOTS)%nat -> length (owners s) = OWNER_SLOTS -> band_settled b x -> settled s -> settled (put_band w b x s).
Proof.
  intros Hw Ho Hx Hs w' b' Hw'. rewrite band_of_put by (by rewrite Ho).
  case_decide as D; [by destruct D as [-> ->]|by apply Hs].
Qed.

(** The tokens are no part of the invariant. *)
Lemma wf_tokens n m s : wf s -> wf (set_next_ticket m (set_next_storage n s)).
Proof. intros [? ? ? ?]. by split. Qed.

Lemma allocate_storage_shape w b s st s' :
  allocate_storage w b s = (st, s') -> exists n, s' = set_next_storage n s.
Proof. unfold allocate_storage. destruct b; intros E; simplify_eq; eauto. Qed.

Definition same_live x x' k : Prop := forall i, life x' k = Some (Live i) <-> life x k = Some (Live i).

(** No slot becomes or stops being live. *)
Lemma put_same_live w b x s :
  wf s -> (w < OWNER_SLOTS)%nat -> band_wf b x -> (forall k, same_live (band_of w b s) x k) -> wf (put_band w b x s).
Proof.
  intros Hwf Hw Hx Hsame.
  apply (put_band_wf w b x (reverse s) (active s) s); [done|done|by apply wf_active|done|].
  intros i a. rewrite wf_reverse by done. apply exist_proper; intros w'. apply exist_proper; intros b'. apply exist_proper; intros k'.
  case_decide as D; [|done]. destruct D as [-> ->]. rewrite (Hsame _ i). unfold live_at. tauto.
Qed.

(** One slot becomes live, with an identity that was not. *)
Lemma put_live w b x k i act s :
  wf s -> (w < OWNER_SLOTS)%nat -> length act = OWNER_SLOTS -> band_wf b x -> reverse s !! i = None ->
  life x k = Some (Live i) -> (forall j, life (band_of w b s) k <> Some (Live j)) ->
  (forall k', k' <> k -> same_live (band_of w b s) x k') ->
  forall n m, wf (mk (owners (put_band w b x s)) act (<[i := at_ w b k]> (reverse s)) n m).
Proof.
  intros Hwf Hw Ha Hx Hi Hk Hold Hsame n m. apply put_band_wf; [done..|]. intros j a.
  destruct (decide (j = i)) as [->|Hj].
  - rewrite lookup_insert_eq. split.
    + intros E; simplify_eq. exists w, b, k. by rewrite decide_True.
    + intros (w' & b' & k' & -> & Hl). case_decide as D.
      * destruct D as [-> ->]. destruct (decide (k' = k)) as [->|Hn]; [done|].
        rewrite (Hsame k' Hn i) in Hl. assert (reverse s !! i = Some (at_ w b k')) by (apply wf_reverse; [done|]; by exists w, b, k').
        congruence.
      * assert (reverse s !! i = Some (at_ w' b' k')) by (apply wf_reverse; [done|]; by exists w', b', k'). congruence.
  - rewrite lookup_insert_ne by done. rewrite wf_reverse by done. apply exist_proper; intros w'. apply exist_proper; intros b'. apply exist_proper; intros k'.
    case_decide as D; [|done]. destruct D as [-> ->]. unfold live_at. destruct (decide (k' = k)) as [->|Hn].
    + split; [intros (_ & _ & E); by apply Hold in E|intros (_ & E); congruence].
    + rewrite (Hsame k' Hn j). tauto.
Qed.

(** One live slot dies. *)
Lemma put_dead w b x k i s :
  wf s -> live_at s w b k i -> band_wf b x -> (forall j, life x k <> Some (Live j)) ->
  (forall k', k' <> k -> same_live (band_of w b s) x k') ->
  forall act n m, length act = OWNER_SLOTS -> wf (mk (owners (put_band w b x s)) act (delete i (reverse s)) n m).
Proof.
  intros Hwf [Hw Hl] Hx Hk Hsame act n m Ha. apply put_band_wf; [done..|]. intros j a.
  destruct (decide (j = i)) as [->|Hj].
  - rewrite lookup_delete_eq. split; [done|]. intros (w' & b' & k' & -> & Hl'). exfalso.
    case_decide as D.
    + destruct D as [-> ->]. destruct (decide (k' = k)) as [->|Hn]; [by apply Hk in Hl'|].
      rewrite (Hsame k' Hn i) in Hl'. destruct (live_at_inj s i w b k w b k') as (_ & _ & ?); [done|done|done|]. done.
    + destruct (live_at_inj s i w b k w' b' k') as (-> & -> & _); [done|done|done|]. tauto.
  - rewrite lookup_delete_ne by done. rewrite wf_reverse by done. apply exist_proper; intros w'. apply exist_proper; intros b'. apply exist_proper; intros k'.
    case_decide as D; [|done]. destruct D as [-> ->]. unfold live_at. destruct (decide (k' = k)) as [->|Hn].
    + split; [intros (_ & _ & E); congruence|intros (_ & E); by apply Hk in E].
    + rewrite (Hsame k' Hn j). tauto.
Qed.

(** ** Reading an updated band *)

Lemma life_push m x sl k :
  life (mkBand m (slots x ++ [sl])) k =
    if decide (k = length (slots x)) then Some (lifecycle sl) else life x k.
Proof.
  unfold life; simpl. case_decide as D; [subst|].
  - rewrite lookup_app_r, Nat.sub_diag by done. done.
  - destruct (decide (k < length (slots x))%nat).
    + by rewrite lookup_app_l.
    + rewrite lookup_app_r by lia. rewrite (lookup_ge_None_2 (slots x)) by lia.
      by rewrite lookup_ge_None_2 by (simpl; lia).
Qed.

Lemma life_alter m x l k k' :
  (k < length (slots x))%nat ->
  life (mkBand m (alter (fun sl => mkSlot (storage sl) l) k (slots x))) k' = if decide (k' = k) then Some l else life x k'.
Proof.
  intros Hk. unfold life; simpl. case_decide as D; [subst|].
  - rewrite list_lookup_alter_eq. destruct (lookup_lt_is_Some_2 (slots x) k Hk) as [sl ->]. done.
  - by rewrite list_lookup_alter_ne.
Qed.

Lemma life_take m x n k :
  life (mkBand m (take n (slots x))) k = if decide (k < n)%nat then life x k else None.
Proof.
  unfold life; simpl. case_decide; [by rewrite lookup_take_lt|by rewrite lookup_take_ge by lia].
Qed.

(** ** Each operation keeps the invariant *)

Definition keeps s s' : Prop := wf s' /\ (settled s -> settled s').

Lemma set_active_keeps w on s s' : wf s -> set_active w on s = Ok s' -> keeps s s'.
Proof.
  intros [Ho Ha Hb Hr] E. unfold set_active in E. case_match; simplify_eq. split; [|done].
  split; simpl; [done|by rewrite length_insert|done|done].
Qed.

(** Appending a live slot at a band whose mark is its length. *)
Lemma push_live_keeps w b i st n s :
  wf s -> (w < OWNER_SLOTS)%nat -> reverse s !! i = None ->
  mark (band_of w b s) = RetailBand.base b + Z.of_nat (length (slots (band_of w b s))) ->
  mark (band_of w b s) < RetailBand.limit b ->
  forall act m, length act = OWNER_SLOTS ->
  let a := mkAddress w b (mark (band_of w b s)) in
  keeps s (mk (owners (push_slot w b (mkSlot st (Live i)) s)) act (<[i := a]> (reverse s)) n m).
Proof.
  intros Hwf Hw Hi Hm Hl act m Ha a. set (x := band_of w b s) in *.
  assert (a = at_ w b (length (slots x))) as -> by (unfold a, at_; by rewrite Hm).
  split.
  - apply put_live.
    + done.
    + done.
    + done.
    + unfold band_wf, marked_len; simpl. rewrite length_app; simpl. fold x. lia.
    + done.
    + rewrite life_push. by rewrite decide_True.
    + intros j E. apply life_lt in E. fold x in E. lia.
    + intros k' Hk' j. rewrite life_push. by rewrite decide_False.
  - intros Hs. apply (put_band_settled w b (mkBand (mark x + 1) (slots x ++ [mkSlot st (Live i)])) s);
      [done|exact (wf_owners _ Hwf)| |done].
    intros k l E Hk. apply life_lt in E. unfold marked_len in Hk; simpl in *. rewrite length_app in E; simpl in E. lia.
Qed.

Lemma mirror_dense_append_keeps w b i s r s' :
  wf s -> mirror_dense_append w b i s = Ok (r, s') -> keeps s s'.
Proof.
  intros Hwf E. unfold mirror_dense_append in E. repeat case_decide; [done..|].
  case_match eqn:Eg; [done|]. bool_hyps.
  destruct (allocate_storage w b s) as [st s1] eqn:Ea. apply allocate_storage_shape in Ea as [n ->]. simplify_eq.
  refine (push_live_keeps w b i st (n) s Hwf _ _ _ _ (<[w := true]> (active s)) (next_ticket s) _);
    [lia|by rewrite eq_None_not_Some|done|done|]. rewrite length_insert. by apply wf_active.
Qed.

(** Changing the lifecycle of one slot. *)
Lemma set_lifecycle_wf_band w b k l s :
  wf s -> (w < OWNER_SLOTS)%nat ->
  band_wf b (mkBand (mark (band_of w b s)) (alter (fun sl => mkSlot (storage sl) l) k (slots (band_of w b s)))).
Proof. intros Hwf Hw. unfold band_wf, marked_len; simpl. rewrite length_alter. by apply (wf_band _ Hwf w b Hw). Qed.

Lemma set_lifecycle_settled w b k l s :
  wf s -> (w < OWNER_SLOTS)%nat -> (k < length (slots (band_of w b s)))%nat ->
  ((marked_len b (band_of w b s) <= k)%nat -> settled s -> exists f, l = Tombstone f) ->
  settled s -> settled (set_lifecycle w b k l s).
Proof.
  intros Hwf Hw Hk Hl Hs. apply put_band_settled; [done|exact (wf_owners _ Hwf)| |done].
  intros k' l' E Hk'. rewrite life_alter in E by done. case_decide as D; [simplify_eq; by apply Hl|].
  by apply (Hs w b Hw k' l').
Qed.

Lemma slot_at_Ok a s k sl :
  slot_at a s = Ok (k, sl) -> (a_owner a < OWNER_SLOTS)%nat /\ a = at_ (a_owner a) (a_band a) k /\
    slots (band_of (a_owner a) (a_band a) s) !! k = Some sl /\
    life (band_of (a_owner a) (a_band a) s) k = Some (lifecycle sl) /\
    (k < length (slots (band_of (a_owner a) (a_band a) s)))%nat.
Proof.
  unfold slot_at. intros E. rinv E. apply slot_index_Ok in Hr as (Hw & Ha & _).
  destruct (slots _ !! r) eqn:Es; simplify_eq/=. unfold life. rewrite Es.
  repeat split; try done. by eapply lookup_lt_Some.
Qed.

(** A slot that is not live stays not live. *)
Lemma set_dead_keeps w b k l l' s :
  wf s -> (w < OWNER_SLOTS)%nat -> life (band_of w b s) k = Some l ->
  (forall i, l <> Live i) -> (forall i, l' <> Live i) ->
  ((marked_len b (band_of w b s) <= k)%nat -> (exists f, l = Tombstone f) -> exists f, l' = Tombstone f) ->
  keeps s (set_lifecycle w b k l' s).
Proof.
  intros Hwf Hw Hl Hnl Hnl' Ht. pose proof (life_lt _ _ _ Hl) as Hk. split.
  - apply put_same_live; [done|done|by apply set_lifecycle_wf_band|]. intros k' i. rewrite life_alter by done.
    case_decide; [subst|done]. split; intros E; [|congruence]. simplify_eq. by destruct (Hnl' i).
  - apply set_lifecycle_settled; [done|done|done|]. intros Hm Hs. apply Ht; [done|]. by apply (Hs w b Hw k l).
Qed.

Lemma cancel_keeps r s s' : wf s -> cancel r s = Ok s' -> keeps s s'.
Proof.
  intros Hwf E. unfold cancel in E. rinv E. destruct r0 as [k sl].
  apply slot_at_Ok in Hr as (Hw & _ & _ & Hl & _). repeat case_match; simplify_eq.
  eapply set_dead_keeps; [done|done|exact Hl|done|done|]. intros _ [f ?]. done.
Qed.

Lemma tick_tombstone_hold_keeps a s h s' : wf s -> tick_tombstone_hold a s = Ok (h, s') -> keeps s s'.
Proof.
  intros Hwf E. unfold tick_tombstone_hold in E. rinv E. destruct r as [k sl].
  apply slot_at_Ok in Hr as (Hw & _ & _ & Hl & _). repeat case_match; simplify_eq.
  eapply set_dead_keeps; [done|done|exact Hl|done|done|]. by eauto.
Qed.

Lemma commit_keeps r i s c s' : wf s -> commit r i s = Ok (c, s') -> keeps s s'.
Proof.
  intros Hwf E. unfold commit in E. case_decide as Hi; [done|]. rinv E. destruct r0 as [k sl].
  apply slot_at_Ok in Hr as (Hw & Ha & _ & Hl & Hk). repeat case_match; simplify_eq.
  set (w := a_owner (reserved_address r)) in *. set (b := a_band (reserved_address r)) in *.
  split.
  - rewrite Ha. apply put_live.
    + done.
    + done.
    + rewrite length_insert. exact (wf_active _ Hwf).
    + by apply set_lifecycle_wf_band.
    + by rewrite eq_None_not_Some.
    + rewrite life_alter by done. by rewrite decide_True.
    + intros j. congruence.
    + intros k' Hk' j. rewrite life_alter by done. by rewrite decide_False.
  - intros Hs. apply (set_lifecycle_settled w b k (Live i) s); [done..| |done].
    intros Hm _. destruct (Hs w b Hw k _ Hl Hm). congruence.
Qed.

Lemma retire_keeps a i f s r s' : wf s -> retire a i f s = Ok (r, s') -> keeps s s'.
Proof.
  intros Hwf E. unfold retire in E. case_match; [done|]. rinv E. destruct r0 as [k sl].
  apply slot_at_Ok in Hr as (Hw & Ha & _ & Hl & Hk). case_match; [done|]. simplify_eq. bool_hyps.
  split.
  - apply (put_dead _ _ _ k).
    + done.
    + split; [done|]. congruence.
    + by apply set_lifecycle_wf_band.
    + intros j. rewrite life_alter by done. by rewrite decide_True.
    + intros k' Hk' j. rewrite life_alter by done. by rewrite decide_False.
    + exact (wf_active _ Hwf).
  - intros Hs. apply (set_lifecycle_settled _ _ k (Tombstone f) s); [done..| |done]. by eauto.
Qed.

Lemma lower_mark_keeps w b m s r s' : wf s -> lower_mark w b m s = Some (Ok (r, s')) -> keeps s s'.
Proof.
  intros Hwf E. unfold lower_mark in E. repeat (case_decide || case_match); simplify_eq; bool_hyps.
  destruct (wf_band _ Hwf w b) as (H1' & H2' & H3'); [lia|]. unfold marked_len in H2'. split.
  - apply put_same_live; [done|lia| |done]. unfold band_wf, marked_len; simpl. lia.
  - intros Hs. apply put_band_settled; [lia|by apply wf_owners| |done]. intros k l El Hk. unfold marked_len in Hk; simpl in Hk.
    destruct (decide (marked_len b (band_of w b s) <= k)%nat) as [Hge|Hlt]; [apply (Hs w b ltac:(lia) k l El Hge)|].
    unfold marked_len in Hlt. change (life (mkBand m _)) with (life (band_of w b s)) in El.
    apply fmap_Some in El as (sl & El & ->).
    assert (is_tombstone sl = true) as Ht.
    { apply (proj1 (forallb_forall _ _) (ltac:(eassumption))). apply list_elem_of_In, list_elem_of_lookup.
      exists (k - Z.to_nat (m - RetailBand.base b))%nat. rewrite lookup_take_lt by lia. rewrite lookup_drop. by replace (_ + _)%nat with k by lia. }
    unfold is_tombstone in Ht. by destruct (lifecycle sl); eauto.
Qed.

(** ** Swap-removal *)

Lemma set_band_twice b x y (ow : SparseOwner I) : set_band b x (set_band b y ow) = set_band b x ow.
Proof. by destruct b. Qed.

Lemma put_band_twice w b x y s : put_band w b x (put_band w b y s) = put_band w b x s.
Proof.
  unfold put_band, set_owners; simpl. f_equal. rewrite list_insert_insert_eq.
  destruct (decide (w < length (owners s))%nat).
  - by rewrite list_lookup_total_insert_eq, set_band_twice.
  - by rewrite !list_insert_ge by lia.
Qed.

(** The band after a swap-removal of slot [k]. *)
Definition swapped k (mv : option (I * RetailObjectAddress)) x : SparseBand I :=
  mkBand (mark x - 1)
    (take (length (slots x) - 1)
       (match mv with Some (m, _) => alter (fun sl => mkSlot (storage sl) (Live m)) k (slots x) | None => slots x end)).

Lemma life_swapped k mv x k' :
  (k < length (slots x))%nat ->
  life (swapped k mv x) k' =
    if decide (k' < length (slots x) - 1)%nat
    then (if decide (k' = k) then (match mv with Some (m, _) => Some (Live m) | None => life x k end) else life x k')
    else None.
Proof.
  intros Hk. unfold swapped. destruct mv as [[m a]|].
  - pose proof (life_take (mark x - 1) (mkBand (mark x) (alter (fun sl => mkSlot (storage sl) (Live m)) k (slots x))) (length (slots x) - 1) k') as E.
    simpl in E. rewrite E. case_decide; [|done]. rewrite life_alter by done. done.
  - rewrite life_take. repeat case_decide; by subst.
Qed.

Lemma length_swapped k mv x : length (slots (swapped k mv x)) = (length (slots x) - 1)%nat.
Proof. unfold swapped; simpl. rewrite length_take. destruct mv as [[]|]; rewrite ?length_alter; lia. Qed.

Lemma swap_remove_shape a i s r s' :
  mirror_dense_swap_remove a i s = Ok (r, s') ->
  exists k mv, let x := band_of (a_owner a) (a_band a) s in
    slot_index a = Ok k /\ reverse s !! i = Some a /\
    mark x = RetailBand.base (a_band a) + Z.of_nat (length (slots x)) /\
    life x k = Some (Live i) /\ moved_tail k a x = Ok mv /\ r = mkRemoveReceipt a i mv /\
    s' = mk (owners (put_band (a_owner a) (a_band a) (swapped k mv x) s)) (active s)
            (match mv with Some (m, ma) => <[m := ma]> (delete i (reverse s)) | None => delete i (reverse s) end)
            (next_storage s) (next_ticket s).
Proof.
  intros E. unfold mirror_dense_swap_remove in E. rinv E. rename r0 into k. case_match eqn:E1; [done|].
  case_match eqn:E2; [done|]. rinv E. rename r0 into mv, Hr0 into Hmv. simplify_eq. bool_hyps.
  exists k, mv. split; [done|]. split; [done|]. split; [done|]. split; [done|]. split; [done|]. split; [done|].
  pose proof (slot_index_Ok _ _ Hr) as (Hw & _ & _). destruct mv as [[m ma]|]; [|done].
  unfold set_lifecycle. simpl. unfold set_reverse; simpl. f_equal.
  set (w := a_owner a) in *. set (b := a_band a) in *.
  set (y := mkBand (mark (band_of w b s)) (alter _ k (slots (band_of w b s)))).
  destruct (decide (w < length (owners s))%nat) as [Hlt|Hge].
  - assert (band_of w b (put_band w b y s) = y) as -> by (rewrite band_of_put, decide_True by done; done).
    pose proof (put_band_twice w b (swapped k (Some (m, ma)) (band_of w b s)) y s) as P.
    apply (f_equal owners) in P. simpl in P. rewrite <- P. unfold swapped; simpl. by rewrite length_alter.
  - by rewrite !list_insert_ge by (rewrite ?list_insert_ge; lia).
Qed.

Lemma moved_tail_Some k a x m ma :
  moved_tail k a x = Ok (Some (m, ma)) -> ma = a /\ k <> (length (slots x) - 1)%nat /\ life x (length (slots x) - 1) = Some (Live m).
Proof. unfold moved_tail, life. intros E. repeat case_match; simplify_eq. done. Qed.

Lemma moved_tail_None k a x : moved_tail k a x = Ok None -> k = (length (slots x) - 1)%nat.
Proof. unfold moved_tail. intros E. repeat case_match; by simplify_eq. Qed.

Lemma swapped_wf b k mv x :
  band_wf b x -> mark x = RetailBand.base b + Z.of_nat (length (slots x)) -> (k < length (slots x))%nat -> band_wf b (swapped k mv x).
Proof.
  intros (H1 & H2 & H3) Hm Hk. unfold band_wf, marked_len in *. rewrite length_swapped. simpl. lia.
Qed.

Lemma swapped_settled b k mv x :
  mark x = RetailBand.base b + Z.of_nat (length (slots x)) -> (k < length (slots x))%nat -> band_settled b (swapped k mv x).
Proof.
  intros Hm Hk k' l E Hk'. apply life_lt in E. rewrite length_swapped in E. unfold marked_len in Hk'; simpl in Hk'. lia.
Qed.

(** The reverse map after the tail took the removed address. *)
Lemma swapped_moved_wf w b k i m s :
  wf s -> (w < OWNER_SLOTS)%nat -> let x := band_of w b s in
  mark x = RetailBand.base b + Z.of_nat (length (slots x)) -> life x k = Some (Live i) ->
  k <> (length (slots x) - 1)%nat -> life x (length (slots x) - 1) = Some (Live m) ->
  forall ma n t, wf (mk (owners (put_band w b (swapped k (Some (m, ma)) x) s)) (active s) (<[m := at_ w b k]> (delete i (reverse s))) n t).
Proof.
  intros Hwf Hw x Hm Hl Hk Hlast ma n t0. pose proof (life_lt _ _ _ Hl) as Hlt. set (last := (length (slots x) - 1)%nat) in *.
  assert (Hmi : m <> i). { intros ->. destruct (live_at_inj s i w b k w b last) as (_ & _ & ?); done. }
  apply put_band_wf; [done|done|by apply wf_active|by apply swapped_wf; [by apply wf_band|..]|].
  intros j a. destruct (decide (j = m)) as [->|Hjm].
  - rewrite lookup_insert_eq. split.
    + intros E; simplify_eq. exists w, b, k. split; [done|]. rewrite decide_True by done.
      rewrite life_swapped, !decide_True by (done || lia). done.
    + intros (w' & b' & k' & -> & E). case_decide as D.
      * destruct D as [-> ->]. rewrite life_swapped in E by done. case_decide; [|done]. case_decide as Dk; [by subst|].
        destruct (live_at_inj s m w b k' w b last) as (_ & _ & ?); [done|done|done|]. fold last in H0. lia.
      * destruct (live_at_inj s m w' b' k' w b last) as (-> & -> & _); [done|done|done|]. tauto.
  - rewrite lookup_insert_ne by done. destruct (decide (j = i)) as [->|Hji].
    + rewrite lookup_delete_eq. split; [done|]. intros (w' & b' & k' & -> & E). exfalso. case_decide as D.
      * destruct D as [-> ->]. rewrite life_swapped in E by done. case_decide; [|done]. case_decide as Dk; [congruence|].
        destruct (live_at_inj s i w b k' w b k) as (_ & _ & ?); done.
      * destruct (live_at_inj s i w' b' k' w b k) as (-> & -> & _); [done|done|done|]. tauto.
    + rewrite lookup_delete_ne by done. rewrite wf_reverse by done.
      apply exist_proper; intros w'. apply exist_proper; intros b'. apply exist_proper; intros k'.
      case_decide as D; [|done]. destruct D as [-> ->]. unfold live_at. fold x. rewrite life_swapped by done. fold last.
      repeat case_decide; subst; (split; [intros (-> & _ & E)|intros (-> & E)]); try done; try congruence.
      exfalso. assert (k' <> last) by congruence. apply life_lt in E. unfold last in *. lia.
Qed.

Lemma mirror_dense_swap_remove_keeps a i s r s' :
  wf s -> mirror_dense_swap_remove a i s = Ok (r, s') -> keeps s s'.
Proof.
  intros Hwf E. apply swap_remove_shape in E as (k & mv & Hk & Hi & Hm & Hl & Hmv & -> & ->).
  pose proof (slot_index_Ok _ _ Hk) as (Hw & Ha & _). pose proof (life_lt _ _ _ Hl) as Hlt. split.
  - destruct mv as [[m ma]|].
    + apply moved_tail_Some in Hmv as (-> & Hn & Hlast). rewrite Ha at 6.
      by apply (swapped_moved_wf (a_owner a) (a_band a) k i m s).
    + apply moved_tail_None in Hmv. apply (put_dead _ _ _ k); [done|done| | | |by apply wf_active].
      * by apply swapped_wf; [apply wf_band|..].
      * intros j. rewrite life_swapped by done. case_decide; [lia|done].
      * intros k' Hk' j. rewrite life_swapped by done. repeat case_decide; [done|done|].
        split; [done|]. intros E%life_lt. lia.
  - intros Hs. apply (put_band_settled (a_owner a) (a_band a) (swapped k mv (band_of (a_owner a) (a_band a) s)) s);
      [done|by apply wf_owners|by apply swapped_settled|done].
Qed.

(** ** Allocation *)

(** Slot [k] of a band may be handed out again. *)
Definition eligible x k : Prop := exists f, life x k = Some (Tombstone f) /\ is_reusable f = true.

Lemma slot_reusable_eligible x k sl : slots x !! k = Some sl -> slot_reusable sl = true <-> eligible x k.
Proof.
  intros E. unfold slot_reusable, eligible, life. rewrite E; simpl. destruct (lifecycle sl);
    (split; [intros E'; first [discriminate E'|by eexists]|intros (f & ? & ?); by simplify_eq]).
Qed.

Lemma position_marked_Some x n k :
  position slot_reusable (take n (slots x)) = Some k ->
  (k < n)%nat /\ eligible x k /\ forall k', (k' < k)%nat -> ~ eligible x k'.
Proof.
  unfold position. intros E. apply fmap_Some in E as ([k0 sl] & E & ->). simpl.
  apply list_find_Some in E as (E & Hp & Hmin).
  apply lookup_take_Some in E as [E Hn]. split; [done|]. split; [by eapply slot_reusable_eligible|].
  intros k' Hk' (f & Hl & Hf). apply fmap_Some in Hl as (sl' & Hsl & Hlf).
  apply (Hmin k' sl'); [rewrite lookup_take_lt by lia; done|done|]. unfold slot_reusable. by rewrite <- Hlf.
Qed.

Lemma position_marked_None x n :
  position slot_reusable (take n (slots x)) = None -> forall k, (k < n)%nat -> ~ eligible x k.
Proof.
  unfold position. intros E k Hk (f & Hl & Hf). apply fmap_None in E.
  apply fmap_Some in Hl as (sl & Hsl & Hlf). apply list_find_None in E.
  apply (proj1 (Forall_lookup _ _) E k sl); [by rewrite lookup_take_lt|]. unfold slot_reusable. by rewrite <- Hlf.
Qed.

(** What [choose_free] settled on. *)
Definition chosen b x k ma (d : StorageDisposition) (prior : TombstoneFacts) : Prop :=
  (forall k', (k' < k)%nat -> (k' < marked_len b x)%nat -> ~ eligible x k') /\
  match d with
  | ReusedTombstone => (k < marked_len b x)%nat /\ eligible x k /\ life x k = Some (Tombstone prior) /\ ma = mark x
  | ExtendedRetainedStorage => k = marked_len b x /\ life x k = Some (Tombstone prior) /\ ma = mark x + 1 /\ mark x < RetailBand.limit b
  | ConstructedAndRegistered _ =>
      k = marked_len b x /\ k = length (slots x) /\ prior = fresh_for b /\ ma = mark x + 1 /\ mark x < RetailBand.limit b
  end.

Lemma choose_free_total w b s :
  wf s -> settled s -> (w < OWNER_SLOTS)%nat -> let x := band_of w b s in
  (choose_free w b s = Ok None /\ mark x = RetailBand.limit b /\ forall k, (k < marked_len b x)%nat -> ~ eligible x k) \/
  exists k ma d prior n, choose_free w b s = Ok (Some (k, ma, d, prior, set_next_storage n s)) /\ chosen b x k ma d prior.
Proof.
  intros Hwf Hs Hw x. destruct (wf_band _ Hwf w b Hw) as (H1 & H2 & H3). fold x in H1, H2, H3.
  unfold choose_free. fold x. fold (marked_len b x). destruct (position _ _) as [k|] eqn:Ep.
  - apply position_marked_Some in Ep as (Hk & (f & Hl & Hf) & Hmin). right. unfold life in Hl. rewrite Hl.
    exists k, (mark x), ReusedTombstone, f, (next_storage s). split; [by destruct s|].
    split; [by auto|]. by repeat split; [|exists f|].
  - pose proof (position_marked_None _ _ Ep) as Hmin. destruct (RetailBand.limit b <=? mark x) eqn:El; bool_hyps.
    { left. split; [done|]. split; [lia|done]. }
    right. case_decide as Dlt.
    + destruct (lookup_lt_is_Some_2 _ _ Dlt) as [sl Hsl].
      assert (Hl : life x (marked_len b x) = Some (lifecycle sl)) by (unfold life; by rewrite Hsl).
      destruct (Hs w b Hw _ _ Hl ltac:(done)) as [f Hf]. rewrite Hsl. simpl. rewrite Hf.
      exists (marked_len b x), (mark x + 1), ExtendedRetainedStorage, f, (next_storage s).
      split; [by destruct s|]. split; [by auto|]. repeat split; [congruence|lia].
    + rewrite decide_True by lia. destruct (allocate_storage w b s) as [st s1] eqn:Ea.
      apply allocate_storage_shape in Ea as [n ->].
      exists (marked_len b x), (mark x + 1), (ConstructedAndRegistered st), (fresh_for b), n.
      split; [done|]. split; [by auto|]. repeat split; lia.
Qed.

(** The band with slot [k] reserved. *)
Definition reserve k ma (d : StorageDisposition) (l : SparseSlotLifecycle I) x : SparseBand I :=
  mkBand ma (match d with
             | ConstructedAndRegistered st => slots x ++ [mkSlot st l]
             | _ => alter (fun sl => mkSlot (storage sl) l) k (slots x)
             end).

Lemma life_reserve b k ma d prior l x k' :
  chosen b x k ma d prior -> life (reserve k ma d l x) k' = if decide (k' = k) then Some l else life x k'.
Proof.
  intros [_ Hd]. unfold reserve. destruct d.
  - destruct Hd as (_ & _ & Hl & _). by apply life_alter, (life_lt _ _ _ Hl).
  - destruct Hd as (_ & Hl & _). by apply life_alter, (life_lt _ _ _ Hl).
  - destruct Hd as (_ & -> & _). apply life_push.
Qed.

Lemma reserve_wf b k ma d prior l x : band_wf b x -> chosen b x k ma d prior -> band_wf b (reserve k ma d l x).
Proof.
  intros (H1 & H2 & H3) [_ Hd]. unfold band_wf, marked_len in *; simpl.
  destruct d; rewrite ?length_alter, ?length_app; simpl.
  - destruct Hd as (_ & _ & _ & ->). lia.
  - destruct Hd as (Hk & Hl & -> & ?). apply life_lt in Hl. unfold marked_len in Hk. lia.
  - destruct Hd as (Hk & Hk' & _ & -> & ?). unfold marked_len in Hk. lia.
Qed.

Lemma chosen_marked b k ma d prior x :
  band_wf b x -> chosen b x k ma d prior -> (k < Z.to_nat (ma - RetailBand.base b))%nat /\ (marked_len b x <= Z.to_nat (ma - RetailBand.base b))%nat.
Proof.
  intros (H1 & H2 & H3) [_ Hd]. unfold marked_len in *. destruct d; destruct_and?; subst; lia.
Qed.

Lemma chosen_not_live b k ma d prior x : chosen b x k ma d prior -> forall i, life x k <> Some (Live i).
Proof.
  intros [_ Hd] i. destruct d; destruct_and?; try congruence. subst k. intros E%life_lt. congruence || lia.
Qed.

Lemma find_free_shape q s :
  wf s -> settled s -> (request_owner q < OWNER_SLOTS)%nat ->
  let w := request_owner q in let b := request_band q in let x := band_of w b s in
  (find_free q s = Ok (mkFindFreeReceipt q (mark x) (mark x) (Z.of_nat (marked_len b x)) None (CapacityFailure (-1)), s) /\
   mark x = RetailBand.limit b /\ forall k, (k < marked_len b x)%nat -> ~ eligible x k) \/
  exists k ma d prior n, chosen b x k ma d prior /\
    find_free q s = Ok (mkFindFreeReceipt q (mark x) ma (Z.of_nat k) (Some d) (OutcomeReserved (mkReservation (at_ w b k) (next_ticket s))),
      mk (owners (put_band w b (reserve k ma d (Reserved (next_ticket s) prior) x) s)) (active s) (reverse s) n (bump (next_ticket s))).
Proof.
  intros Hwf Hs Hw w b x. destruct (wf_band _ Hwf w b Hw) as (H1 & H2 & H3). fold x in H1, H2, H3.
  unfold find_free. rewrite decide_False by lia. fold w b x.
  assert ((mark x <? RetailBand.base b) || (RetailBand.limit b <? mark x) = false) as -> by lia.
  fold (marked_len b x). rewrite decide_False by lia.
  destruct (choose_free_total w b s Hwf Hs Hw) as [(-> & Hm & Hn)|(k & ma & d & prior & n & -> & Hc)].
  - left. done.
  - right. exists k, ma, d, prior, n. split; [done|]. simpl. done.
Qed.

Lemma find_free_keeps q s r s' : wf s -> settled s -> find_free q s = Ok (r, s') -> keeps s s'.
Proof.
  intros Hwf Hs E. assert (Hw : (request_owner q < OWNER_SLOTS)%nat).
  { unfold find_free in E. case_decide; [done|lia]. }
  destruct (find_free_shape q s Hwf Hs Hw) as [(E' & _)|(k & ma & d & prior & n & Hc & E')]; rewrite E in E'; simplify_eq; [done|].
  set (w := request_owner q) in *. set (b := request_band q) in *. set (x := band_of w b s) in *.
  set (y := reserve k ma d (Reserved (next_ticket s) prior) x).
  assert (Hy : band_wf b y) by (eapply reserve_wf; [by apply wf_band|done]). split.
  - apply put_band_wf; [done|done|by apply wf_active|done|]. intros i a. rewrite wf_reverse by done.
    apply exist_proper; intros w'. apply exist_proper; intros b'. apply exist_proper; intros k'.
    case_decide as D; [|done]. destruct D as [-> ->]. unfold live_at, y. fold x. erewrite life_reserve by done.
    case_decide; [subst k'|tauto]. split; [intros (_ & _ & E1); by destruct (chosen_not_live _ _ _ _ _ _ Hc i)|intros (_ & ?); done].
  - intros _. apply (put_band_settled w b y s); [done|by apply wf_owners| |done].
    intros k' l El Hk'. unfold y in El. erewrite life_reserve in El by done. unfold marked_len in Hk'; simpl in Hk'.
    destruct (chosen_marked b k ma d prior x) as [Hc1 Hc2]; [by apply wf_band|done|].
    case_decide; [subst; lia|]. apply (Hs w b Hw k' l El). fold x. lia.
Qed.

(** ** Snapshots *)

Definition restore_life (c : SnapshotLifecycle I) : SparseSlotLifecycle I :=
  match c with SnapTombstone f => Tombstone f | SnapLive i => Live i end.

Lemma try_map_Ok {A B} (f : A -> result SparseRegistryError B) l l' :
  try_map f l = Ok l' <-> Forall2 (fun a c => f a = Ok c) l l'.
Proof.
  revert l'. induction l as [|a l IH]; intros l'; simpl; split.
  - intros E. simplify_eq. constructor.
  - intros E. by inv E.
  - intros E. rinv E. rinv E. simplify_eq. constructor; [done|]. by apply IH.
  - intros E. inversion E as [|? y ? l1 Hf Hl]; subst. rewrite Hf. simpl. by rewrite (proj2 (IH l1) Hl).
Qed.

Lemma snap_lifecycle_Ok l c : snap_lifecycle l = Ok c <-> l = restore_life c.
Proof. destruct l, c; simpl; split; intros E; by simplify_eq. Qed.

(** Restoring the slots of one band. *)
Lemma restore_slots_spec w b l k s sls s' :
  restore_slots w b k l s = Ok (sls, s') ->
  lifecycle <$> sls = restore_life <$> l /\ owners s' = owners s /\ active s' = active s /\
  (forall i a, reverse s' !! i = Some a <->
     reverse s !! i = Some a \/ exists j, l !! j = Some (SnapLive i) /\ a = at_ w b (k + j)).
Proof.
  revert k s sls s'. induction l as [|c l IH]; intros k s sls s' E; simpl in E.
  - simplify_eq. split; [done|]. split; [done|]. split; [done|]. intros i a. split; [by left|].
    intros [?|(j & Hj & _)]; [done|]. by rewrite lookup_nil in Hj.
  - destruct (allocate_storage w b s) as [st s1] eqn:Ea. apply allocate_storage_shape in Ea as [n ->].
    rinv E. destruct r as [y s2]. rinv E. destruct r as [sls1 s3]. simplify_eq.
    apply IH in Hr0 as (H1 & H2 & H3 & H4).
    assert (y = restore_life c /\ owners s2 = owners s /\ active s2 = active s /\
      (forall i a, reverse s2 !! i = Some a <-> reverse s !! i = Some a \/ (c = SnapLive i /\ a = at_ w b k))) as (-> & Ho & Hac & Hrev).
    { destruct c as [f|i0]; simpl in Hr.
      - simplify_eq. repeat split; try done; [by left|]. intros [?|[? _]]; done.
      - case_decide as Hn; [done|]. simplify_eq. repeat split; try done.
        + simpl. destruct (decide (i = i0)) as [->|]; [rewrite lookup_insert_eq|rewrite lookup_insert_ne by done]; intros E; simplify_eq; by auto.
        + simpl. intros [E|[E ->]].
          * rewrite lookup_insert_ne; [done|]. intros ->. apply Hn. by eexists.
          * simplify_eq. by rewrite lookup_insert_eq. }
    split; [csimpl; by rewrite H1|]. split; [congruence|]. split; [congruence|]. intros i a. rewrite H4, Hrev. split.
    + intros [[?|[-> ->]]|(j & Hj & ->)]; [by left| |].
      * right. exists 0%nat. split; [done|]. f_equal. lia.
      * right. exists (S j). split; [done|]. f_equal. lia.
    + intros [?|([|j] & Hj & ->)]; [by auto| |].
      * left. right. simplify_eq/=. split; [done|]. f_equal. lia.
      * right. exists j. split; [done|]. f_equal. lia.
Qed.

Lemma restore_slots_total w b l k s :
  (forall j i, l !! j = Some (SnapLive i) -> reverse s !! i = None) ->
  (forall j j' i, l !! j = Some (SnapLive i) -> l !! j' = Some (SnapLive i) -> j = j') ->
  exists r, restore_slots w b k l s = Ok r.
Proof.
  revert k s. induction l as [|c l IH]; intros k s Hnew Hinj; simpl; [by eexists|].
  destruct (allocate_storage w b s) as [st s1] eqn:Ea. apply allocate_storage_shape in Ea as [n ->].
  assert (Hinj' : forall j j' i, l !! j = Some (SnapLive i) -> l !! j' = Some (SnapLive i) -> j = j').
  { intros j j' i H1 H2. specialize (Hinj (S j) (S j') i H1 H2). lia. }
  destruct c as [f|i0]; simpl.
  - destruct (IH (S k) (set_next_storage n s)) as [[sls s'] ->]; [|done|by eexists].
    intros j i Hj. by apply (Hnew (S j)).
  - rewrite decide_False by (rewrite <- eq_None_not_Some; by apply (Hnew 0%nat)). simpl.
    edestruct (IH (S k)) as [[sls s'] ->]; [|done|by eexists].
    intros j i Hj. simpl. rewrite lookup_insert_ne; [by apply (Hnew (S j))|].
    intros ->. specialize (Hinj 0%nat (S j) i eq_refl Hj). lia.
Qed.

(** The band of a registry is the restored image of a band snapshot. *)
Definition restores (xs : SparseBandSnapshot I) x : Prop :=
  mark x = snap_mark xs /\ lifecycle <$> slots x = restore_life <$> snap_slots xs.

Lemma life_restores xs x k : restores xs x -> life x k = restore_life <$> snap_slots xs !! k.
Proof. intros [_ E]. unfold life. rewrite <- !list_lookup_fmap. by rewrite E. Qed.

Lemma band_snapshot_ok_wf b xs x : band_snapshot_ok b xs = true -> restores xs x -> band_wf b x.
Proof.
  unfold band_snapshot_ok, band_wf, marked_len. intros E [Hm Hl]. bool_hyps.
  apply (f_equal length) in Hl. rewrite !length_fmap in Hl. rewrite Hm, Hl.
  pose proof (RetailBand.base_limit b). lia.
Qed.

Lemma restore_band_spec w b xs s s' :
  wf s -> (w < OWNER_SLOTS)%nat -> slots (band_of w b s) = [] -> restore_band w b xs s = Ok s' ->
  wf s' /\ active s' = active s /\ band_snapshot_ok b xs = true /\ restores xs (band_of w b s') /\
  forall w' b', ~ (w' = w /\ b' = b) -> band_of w' b' s' = band_of w' b' s.
Proof.
  intros Hwf Hw Hempty E. unfold restore_band in E. case_match eqn:Eok; [done|]. bool_hyps.
  rinv E. destruct r as [sls s1]. simplify_eq. apply restore_slots_spec in Hr as (Hl & Ho & Hac & Hrev).
  pose proof (wf_owners _ Hwf) as Hlen.
  assert (Hres : restores xs (mkBand (snap_mark xs) sls)) by done.
  assert (Hbands : forall w' b', band_of w' b' s1 = band_of w' b' s) by (intros; unfold band_of; by rewrite Ho).
  split; [|split; [done|split; [done|split]]].
  - assert (owners (put_band w b (mkBand (snap_mark xs) sls) s1) = owners (put_band w b (mkBand (snap_mark xs) sls) s)) as Eo
      by (unfold put_band; simpl; by rewrite Ho).
    destruct s1 as [o1 a1 r1 n1 t1]; simpl in *. unfold put_band, set_owners in *; simpl in *. rewrite Eo.
    apply put_band_wf; [done|done|by rewrite Hac; apply wf_active|by eapply band_snapshot_ok_wf|].
    intros i a. rewrite Hrev, wf_reverse by done. split.
    + intros [(w' & b' & k & -> & Hlive)|(j & Hj & ->)].
      * exists w', b', k. split; [done|]. case_decide as D; [|done]. destruct D as [-> ->]. destruct Hlive as [_ Hlive].
        apply life_lt in Hlive. rewrite Hempty in Hlive. simpl in Hlive. lia.
      * exists w, b, j. split; [done|]. rewrite decide_True by done. rewrite (life_restores _ _ _ Hres), Hj. done.
    + intros (w' & b' & k & -> & Hlive). case_decide as D.
      * destruct D as [-> ->]. right. exists k. split; [|done]. rewrite (life_restores _ _ _ Hres) in Hlive.
        destruct (snap_slots xs !! k) as [[]|]; by simplify_eq/=.
      * left. eauto.
  - rewrite band_of_put, decide_True by (try (rewrite Ho, Hlen); done). done.
  - intros w' b' D. rewrite band_of_put, decide_False by (try (rewrite Ho, Hlen); done). done.
Qed.

(** Well-formed snapshots: the shapes and bounds [from_snapshot] checks, and
    no identity live at two addresses. *)
Definition snap_band_at (z : SparseRegistrySnapshot I) w b : option (SparseBandSnapshot I) :=
  snap_owners z !! w ≫= fun ow => ow !! RetailBand.index b.

Definition snap_live (z : SparseRegistrySnapshot I) w b k i : Prop :=
  exists xs, snap_band_at z w b = Some xs /\ snap_slots xs !! k = Some (SnapLive i).

Record snap_ok (z : SparseRegistrySnapshot I) : Prop := {
  so_owners : length (snap_owners z) = OWNER_SLOTS;
  so_bands w ow : snap_owners z !! w = Some ow -> length ow = 3%nat;
  so_limits w b xs : snap_band_at z w b = Some xs -> band_snapshot_ok b xs = true;
  so_inj w b k w' b' k' i : snap_live z w b k i -> snap_live z w' b' k' i -> (w, b, k) = (w', b', k') }.

(** Every band is still empty or is the image of its snapshot. *)
Definition progress (z : SparseRegistrySnapshot I) s : Prop :=
  forall w b, (w < OWNER_SLOTS)%nat -> slots (band_of w b s) = [] \/
    exists xs, snap_band_at z w b = Some xs /\ restores xs (band_of w b s).

Lemma restore_band_total z w b xs s :
  snap_ok z -> wf s -> progress z s -> (w < OWNER_SLOTS)%nat -> slots (band_of w b s) = [] -> snap_band_at z w b = Some xs ->
  exists s', restore_band w b xs s = Ok s' /\ progress z s'.
Proof.
  intros Hz Hwf Hp Hw Hempty Hxs. unfold restore_band. rewrite (so_limits _ Hz w b xs Hxs). simpl.
  destruct (restore_slots_total w b (snap_slots xs) 0 s) as [[sls s1] Er].
  - intros k i Hk. destruct (reverse s !! i) as [a|] eqn:Ea; [|done]. exfalso.
    apply wf_reverse in Ea as (w' & b' & k' & -> & Hw' & Hl); [|done].
    destruct (Hp w' b' Hw') as [He|(xs' & Hxs' & Hres)]; [apply life_lt in Hl; rewrite He in Hl; simpl in Hl; lia|].
    pose proof (life_lt _ _ _ Hl) as Hlt.
    rewrite (life_restores _ _ _ Hres) in Hl. destruct (snap_slots xs' !! k') as [[]|] eqn:Ek'; simplify_eq/=.
    pose proof (so_inj _ Hz w b k w' b' k' i ltac:(by exists xs) ltac:(by exists xs')) as E. simplify_eq.
    rewrite Hempty in Hlt. simpl in Hlt. lia.
  - intros k k' i H1 H2. pose proof (so_inj _ Hz w b k w b k' i ltac:(by exists xs) ltac:(by exists xs)). congruence.
  - rewrite Er. simpl. eexists. split; [done|].
    assert (E : restore_band w b xs s = Ok (put_band w b (mkBand (snap_mark xs) sls) s1)).
    { unfold restore_band. rewrite (so_limits _ Hz w b xs Hxs). simpl. by rewrite Er. }
    apply restore_band_spec in E as (_ & _ & _ & Hres & Hother); [|done..].
    intros w' b' Hw'. destruct (decide (w' = w /\ b' = b)) as [[-> ->]|D]; [right; by exists xs|].
    rewrite Hother by done. by apply Hp.
Qed.

Definition owner_restored (s : registry) w (ow : list (SparseBandSnapshot I)) : Prop :=
  length ow = 3%nat /\ forall b xs, ow !! RetailBand.index b = Some xs -> band_snapshot_ok b xs = true /\ restores xs (band_of w b s).

Lemma restore_owner_spec w ow s s' :
  wf s -> (w < OWNER_SLOTS)%nat -> (forall b, slots (band_of w b s) = []) -> length ow = 3%nat ->
  restore_bands w (zip RetailBand.ALL ow) s = Ok s' ->
  wf s' /\ active s' = active s /\ owner_restored s' w ow /\ forall w' b, w' <> w -> band_of w' b s' = band_of w' b s.
Proof.
  intros Hwf Hw Hempty H3 E. destruct ow as [|x1 [|x2 [|x3 [|]]]]; try done. simpl in E. rinv E. rinv E. rinv E. simplify_eq.
  apply restore_band_spec in Hr as (W1 & A1 & O1 & R1 & B1); [|done..].
  apply restore_band_spec in Hr0 as (W2 & A2 & O2 & R2 & B2); [|done|done|by rewrite B1 by (intros [_ ?]; done)].
  apply restore_band_spec in Hr1 as (W3 & A3 & O3 & R3 & B3);
    [|done|done|by rewrite B2, B1 by (intros [_ ?]; done)].
  split; [done|]. split; [congruence|]. split.
  - split; [done|]. intros [] xs Hx; simpl in Hx; simplify_eq.
    + split; [done|]. by rewrite B3, B2 by (intros [_ ?]; done).
    + split; [done|]. by rewrite B3 by (intros [_ ?]; done).
    + done.
  - intros w' b Hn. by rewrite B3, B2, B1 by tauto.
Qed.

Lemma restore_owners_spec w l s s' :
  wf s -> (w + length l <= OWNER_SLOTS)%nat -> (forall w' b, (w <= w')%nat -> slots (band_of w' b s) = []) ->
  restore_owners w l s = Ok s' ->
  wf s' /\ active s' = active s /\ (forall j ow, l !! j = Some ow -> owner_restored s' (w + j) ow) /\
  forall w' b, (w' < w)%nat -> band_of w' b s' = band_of w' b s.
Proof.
  revert w s. induction l as [|ow l IH]; intros w s Hwf Hlen Hempty E; simpl in *.
  - simplify_eq. split; [done|]. split; [done|]. split; [|done]. intros j ow Hj. by rewrite lookup_nil in Hj.
  - case_match eqn:E3; [done|]. bool_hyps. rinv E.
    apply restore_owner_spec in Hr as (W1 & A1 & R1 & B1); [|done|lia|intros b; by apply Hempty|done].
    apply IH in E as (W2 & A2 & R2 & B2); [|done|lia|intros w' b Hw'; rewrite B1 by lia; apply Hempty; lia].
    split; [done|]. split; [congruence|]. split.
    + intros [|j] ow' Hj; simplify_eq/=.
      * rewrite Nat.add_0_r. destruct R1 as [H3 R1]. split; [done|]. intros b xs Hx. rewrite B2 by lia. by apply R1.
      * replace (w + S j)%nat with (S w + j)%nat by lia. by apply R2.
    + intros w' b Hw'. rewrite B2, B1 by lia. done.
Qed.

Lemma restore_owner_total z w ow s :
  snap_ok z -> wf s -> progress z s -> (w < OWNER_SLOTS)%nat -> (forall b, slots (band_of w b s) = []) ->
  snap_owners z !! w = Some ow ->
  exists s', restore_bands w (zip RetailBand.ALL ow) s = Ok s' /\ progress z s'.
Proof.
  intros Hz Hwf Hp Hw Hempty How. pose proof (so_bands _ Hz _ _ How) as H3.
  destruct ow as [|x1 [|x2 [|x3 [|]]]]; try done. simpl.
  assert (Hx : forall b, snap_band_at z w b = [x1; x2; x3] !! RetailBand.index b) by (intros; unfold snap_band_at; by rewrite How).
  destruct (restore_band_total z w RetailBand.Unit x1 s) as (s1 & E1 & P1); [done..|]. rewrite E1. simpl.
  apply restore_band_spec in E1 as (W1 & _ & _ & _ & B1); [|done..].
  destruct (restore_band_total z w RetailBand.Build x2 s1) as (s2 & E2 & P2); [done|done|done|done|by rewrite B1 by (intros [_ ?]; done)|done|].
  rewrite E2. simpl.
  apply restore_band_spec in E2 as (W2 & _ & _ & _ & B2); [|done|done|by rewrite B1 by (intros [_ ?]; done)].
  destruct (restore_band_total z w RetailBand.Wall x3 s2) as (s3 & E3 & P3); [done|done|done|done|by rewrite B2, B1 by (intros [_ ?]; done)|done|].
  rewrite E3. simpl. by exists s3.
Qed.

Lemma restore_owners_total z l w s :
  snap_ok z -> wf s -> progress z s -> l = drop w (snap_owners z) ->
  (forall w' b, (w <= w')%nat -> slots (band_of w' b s) = []) -> exists s', restore_owners w l s = Ok s'.
Proof.
  revert w s. induction l as [|ow l IH]; intros w s Hz Hwf Hp Hl Hempty; [by eexists|]. cbn [restore_owners].
  assert (How : snap_owners z !! w = Some ow).
  { rewrite <- (Nat.add_0_r w), <- lookup_drop, <- Hl. done. }
  assert (Hw : (w < OWNER_SLOTS)%nat) by (rewrite <- (so_owners _ Hz); by eapply lookup_lt_Some).
  pose proof (so_bands _ Hz _ _ How) as H3. rewrite bool_decide_eq_true_2 by done. cbn [negb].
  destruct (restore_owner_total z w ow s) as (s1 & E1 & P1); [done|done|done|done|by intros; apply Hempty|done|].
  rewrite E1. simpl. apply restore_owner_spec in E1 as (W1 & _ & _ & B1); [|done|done|by intros; apply Hempty|done].
  apply IH; [done|done|done| |].
  - rewrite <- (Nat.add_1_r w), <- drop_drop, <- Hl. done.
  - intros w' b Hw'. rewrite B1 by lia. apply Hempty. lia.
Qed.

(** ** A registry and its snapshot *)

Lemma snap_band_Ok x xs : snap_band x = Ok xs <-> restores xs x.
Proof.
  unfold snap_band, restores. split.
  - intros E. rinv E. simplify_eq. split; [done|]. simpl. apply try_map_Ok in Hr.
    induction Hr as [|sl c l l' Hc _ IH]; [done|]. csimpl. apply snap_lifecycle_Ok in Hc. by rewrite Hc, IH.
  - intros [Hm Hl]. destruct xs as [m cs], x as [m' sls]; simpl in *. subst m'.
    assert (try_map (fun sl => snap_lifecycle (lifecycle sl)) sls = Ok cs) as ->; [|done].
    apply try_map_Ok. revert cs Hl. induction sls as [|sl sls IH]; intros [|c cs] Hl; csimpl in *; simplify_eq; constructor.
    + by apply snap_lifecycle_Ok.
    + by apply IH.
Qed.

Definition image (z : SparseRegistrySnapshot I) s : Prop :=
  active s = snap_active z /\ length (owners s) = length (snap_owners z) /\
  forall w ow, snap_owners z !! w = Some ow ->
    length ow = 3%nat /\ forall b xs, ow !! RetailBand.index b = Some xs -> restores xs (band_of w b s).

Lemma snap_owner_Ok (o' : SparseOwner I) ow :
  try_map snap_band (bands o') = Ok ow <->
  length ow = 3%nat /\ forall b xs, ow !! RetailBand.index b = Some xs -> restores xs (get_band b o').
Proof.
  rewrite try_map_Ok. unfold bands. simpl. split.
  - intros E. inversion E as [|? x1 ? l1 E1 T1]; subst. inversion T1 as [|? x2 ? l2 E2 T2]; subst.
    inversion T2 as [|? x3 ? l3 E3 T3]; subst. inversion T3; subst. split; [done|].
    intros [] xs Hx; simpl in Hx; simplify_eq; by apply snap_band_Ok.
  - intros [H3 Hb]. destruct ow as [|x1 [|x2 [|x3 [|]]]]; try done.
    repeat constructor; apply snap_band_Ok.
    + by apply (Hb RetailBand.Unit).
    + by apply (Hb RetailBand.Build).
    + by apply (Hb RetailBand.Wall).
Qed.

Lemma snapshot_image s z : snapshot s = Ok z <-> image z s.
Proof.
  unfold snapshot, image, band_of. destruct z as [act ows]; cbn [snap_active snap_owners]. split.
  - intros E. rinv E. simplify_eq. split; [done|]. apply try_map_Ok in Hr. split; [by eapply Forall2_length|].
    intros w ow How. destruct (Forall2_lookup_r _ _ _ _ _ Hr How) as (o' & Ho & Eo). simpl in Eo.
    rewrite (list_lookup_total_correct _ _ _ Ho). by apply snap_owner_Ok.
  - intros (Ha & Hl & Hb).
    assert (try_map (fun o' => try_map snap_band (bands o')) (owners s) = Ok ows) as ->; [|cbn [rbind]; by rewrite Ha].
    apply try_map_Ok. apply Forall2_same_length_lookup. split; [done|]. intros w o' ow Ho How.
    apply snap_owner_Ok. destruct (Hb w ow How) as [H3 H4]. rewrite (list_lookup_total_correct _ _ _ Ho) in H4. done.
Qed.

Lemma new_band_of w b : band_of w b (new : registry) = new_band b.
Proof. do 10 (destruct w as [|w]; [by destruct b|]). by destruct b. Qed.

Lemma empty_wf : wf (new : registry).
Proof.
  split; [done|done| |].
  - intros w b Hw. rewrite new_band_of. unfold band_wf, marked_len; simpl. pose proof (RetailBand.base_limit b). lia.
  - intros i a. change (reverse (new : registry)) with (∅ : gmap I RetailObjectAddress). rewrite lookup_empty. split; [done|].
    intros (w & b & k & -> & Hw & Hl). apply life_lt in Hl. rewrite new_band_of in Hl. simpl in Hl. lia.
Qed.

Lemma new_settled : settled (new : registry).
Proof. intros w b Hw k l E. apply life_lt in E. rewrite new_band_of in E. simpl in E. lia. Qed.

Lemma start_wf act : length act = OWNER_SLOTS -> wf (set_actives act new).
Proof. intros Ha. destruct empty_wf as [? ? ? ?]. by split. Qed.

(** [from_snapshot] restores exactly the snapshot. *)
Lemma from_snapshot_image z s :
  length (snap_active z) = OWNER_SLOTS -> from_snapshot z = Ok s -> wf s /\ image z s /\ snap_ok z.
Proof.
  intros Hact E. unfold from_snapshot in E. case_match eqn:E10; [done|]. bool_hyps.
  apply restore_owners_spec in E as (Hwf & Ha & Hr & _);
    [|by apply start_wf|by rewrite E10|intros w' b _; change (band_of w' b _) with (band_of w' b (new : registry)); by rewrite new_band_of].
  simpl in Hr. assert (Him : forall w b xs, snap_band_at z w b = Some xs -> band_snapshot_ok b xs = true /\ restores xs (band_of w b s)).
  { intros w b xs Hx. unfold snap_band_at in Hx. apply bind_Some in Hx as (ow & How & Hb). by apply (Hr w ow How). }
  split; [done|]. split; [|split].
  - split; [done|]. split; [by rewrite (wf_owners _ Hwf), E10|]. intros w ow How. destruct (Hr w ow How) as [H3 Hb].
    split; [done|]. intros b xs Hx. by apply Hb.
  - done.
  - intros w ow How. by apply (Hr w ow How).
  - intros w b xs Hx. by apply (Him w b xs Hx).
  - assert (Hlv : forall w b k i, snap_live z w b k i -> live_at s w b k i).
    { intros w b k i (xs & Hx & Hk). split.
      - unfold snap_band_at in Hx. apply bind_Some in Hx as (ow & How & _). rewrite <- E10. by eapply lookup_lt_Some.
      - destruct (Him w b xs Hx) as [_ Hres]. by rewrite (life_restores _ _ _ Hres), Hk. }
    intros w b k w' b' k' i H1%Hlv H2%Hlv. destruct (live_at_inj s i w b k w' b' k') as (-> & -> & ->); done.
Qed.

Lemma from_snapshot_total z : snap_ok z -> length (snap_active z) = OWNER_SLOTS -> exists s, from_snapshot z = Ok s.
Proof.
  intros Hz Hact. unfold from_snapshot. rewrite bool_decide_eq_true_2 by (by apply so_owners). simpl.
  apply (restore_owners_total z); [done|by apply start_wf| |done|].
  - intros w b Hw. left. change (band_of w b _) with (band_of w b (new : registry)). by rewrite new_band_of.
  - intros w b _. change (band_of w b _) with (band_of w b (new : registry)). by rewrite new_band_of.
Qed.

(** The snapshot of a well-formed registry is well formed. *)
Lemma image_snap_ok z s : wf s -> image z s -> snap_ok z.
Proof.
  intros Hwf (Ha & Hl & Hb).
  assert (Him : forall w b xs, snap_band_at z w b = Some xs -> (w < OWNER_SLOTS)%nat /\ restores xs (band_of w b s)).
  { intros w b xs Hx. unfold snap_band_at in Hx. apply bind_Some in Hx as (ow & How & Hx).
    split; [rewrite <- (wf_owners _ Hwf), Hl; by eapply lookup_lt_Some|]. by apply (Hb w ow How). }
  split.
  - by rewrite <- Hl, (wf_owners _ Hwf).
  - intros w ow How. by apply (Hb w ow How).
  - intros w b xs Hx. destruct (Him w b xs Hx) as [Hw [Hm Hs]]. destruct (wf_band _ Hwf w b Hw) as (H1 & H2 & H3).
    unfold marked_len in H2. apply (f_equal length) in Hs. rewrite !length_fmap in Hs. rewrite Hm, Hs in *.
    unfold band_snapshot_ok. repeat (rewrite bool_decide_eq_false_2 by lia). lia.
  - assert (Hlv : forall w b k i, snap_live z w b k i -> live_at s w b k i).
    { intros w b k i (xs & Hx & Hk). destruct (Him w b xs Hx) as [Hw Hres]. split; [done|].
      by rewrite (life_restores _ _ _ Hres), Hk. }
    intros w b k w' b' k' i H1%Hlv H2%Hlv. destruct (live_at_inj s i w b k w' b' k') as (-> & -> & ->); done.
Qed.

(** Two registries with the same snapshot agree on everything but tokens. *)
Lemma same_image z s s' :
  wf s -> wf s' -> image z s -> image z s' ->
  active s' = active s /\ reverse s' = reverse s /\
  forall w b, (w < OWNER_SLOTS)%nat -> mark (band_of w b s') = mark (band_of w b s) /\ forall k, life (band_of w b s') k = life (band_of w b s) k.
Proof.
  intros Hwf Hwf' (Ha & Hl & Hb) (Ha' & Hl' & Hb').
  assert (Hband : forall w b, (w < OWNER_SLOTS)%nat -> mark (band_of w b s') = mark (band_of w b s) /\ forall k, life (band_of w b s') k = life (band_of w b s) k).
  { intros w b Hw. destruct (lookup_lt_is_Some_2 (snap_owners z) w) as [ow How]; [by rewrite <- Hl, (wf_owners _ Hwf)|].
    destruct (Hb w ow How) as [H3 R1], (Hb' w ow How) as [_ R2].
    destruct (lookup_lt_is_Some_2 ow (RetailBand.index b)) as [xs Hx]; [rewrite H3; destruct b; simpl; lia|].
    specialize (R1 b xs Hx). specialize (R2 b xs Hx). split; [destruct R1, R2; congruence|].
    intros k. by rewrite (life_restores _ _ _ R1), (life_restores _ _ _ R2). }
  split; [congruence|]. split; [|done]. apply map_eq. intros i. apply option_eq. intros a.
  rewrite !wf_reverse by done. apply exist_proper; intros w. apply exist_proper; intros b. apply exist_proper; intros k.
  unfold live_at. split; intros (-> & Hw & E); (split; [done|]; split; [done|]); destruct (Hband w b Hw) as [_ Hk]; by rewrite Hk in *.
Qed.

(** ** The registry as a state machine *)

(** One successful operation, in any order. *)
Inductive step : registry -> registry -> Prop :=
| step_active w on s s' : set_active w on s = Ok s' -> step s s'
| step_append w b i s r s' : mirror_dense_append w b i s = Ok (r, s') -> step s s'
| step_swap_remove a i s r s' : mirror_dense_swap_remove a i s = Ok (r, s') -> step s s'
| step_find_free q s r s' : find_free q s = Ok (r, s') -> step s s'
| step_commit q i s r s' : commit q i s = Ok (r, s') -> step s s'
| step_cancel q s s' : cancel q s = Ok s' -> step s s'
| step_retire a i f s r s' : retire a i f s = Ok (r, s') -> step s s'
| step_tick a s h s' : tick_tombstone_hold a s = Ok (h, s') -> step s s'
| step_lower w b m s r s' : lower_mark w b m s = Some (Ok (r, s')) -> step s s'.

Lemma step_keeps s s' : step s s' -> wf s -> settled s -> wf s' /\ settled s'.
Proof.
  intros E Hwf Hs. assert (keeps s s') as [? ?]; [|by auto]. destruct E.
  - by eapply set_active_keeps.
  - by eapply mirror_dense_append_keeps.
  - by eapply mirror_dense_swap_remove_keeps.
  - by eapply find_free_keeps.
  - by eapply commit_keeps.
  - by eapply cancel_keeps.
  - by eapply retire_keeps.
  - by eapply tick_tombstone_hold_keeps.
  - by eapply lower_mark_keeps.
Qed.

Lemma steps_keep s s' : rtc step s s' -> wf s -> settled s -> wf s' /\ settled s'.
Proof. induction 1 as [|s s1 s' E _ IH]; [done|]. intros Hwf Hs. destruct (step_keeps _ _ E Hwf Hs). by apply IH. Qed.

Lemma append_marked_total w b s :
  wf s -> (w < OWNER_SLOTS)%nat ->
  append_marked w b s = Some (imap (fun k sl => mkEntry (at_ w b k) (storage sl) (lifecycle sl))
                                   (take (marked_len b (band_of w b s)) (slots (band_of w b s)))).
Proof.
  intros Hwf Hw. unfold append_marked. fold (marked_len b (band_of w b s)).
  destruct (wf_band _ Hwf w b Hw) as (_ & H2 & _). by rewrite decide_False by lia.
Qed.

Lemma walk_owner_total bs w s : wf s -> (w < OWNER_SLOTS)%nat -> is_Some (walk_owner bs w s).
Proof.
  intros Hwf Hw. unfold walk_owner. destruct (default false _); [|done]. apply fmap_is_Some, mapM_is_Some.
  apply Forall_forall. intros b _. eexists. by apply append_marked_total.
Qed.

Lemma rotation_lt frame w : w ∈ rotation frame -> (w < OWNER_SLOTS)%nat.
Proof.
  unfold rotation. intros H1. apply list_elem_of_fmap in H1 as (k & -> & _).
  pose proof (Z.mod_pos_bound (i32 (frame + Z.of_nat k)) (Z.of_nat OWNER_SLOTS)). unfold OWNER_SLOTS in *. lia.
Qed.

Lemma traversal_total frame s : wf s -> is_Some (traversal frame s).
Proof.
  intros Hwf. unfold traversal.
  assert (is_Some (mapM (fun w => walk_owner [RetailBand.Unit] w s) (rotation frame))) as [us ->].
  { apply mapM_is_Some, Forall_forall. intros w Hw. apply walk_owner_total; [done|by eapply rotation_lt]. }
  assert (is_Some (mapM (fun w => walk_owner [RetailBand.Build; RetailBand.Wall] w s) (seq 0 BANDED_OWNER_SLOTS))) as [ws ->]; [|by eexists].
  apply mapM_is_Some, Forall_forall. intros w Hw. apply walk_owner_total; [done|].
  apply elem_of_seq in Hw. unfold BANDED_OWNER_SLOTS, OWNER_SLOTS in *. lia.
Qed.

Lemma lower_mark_total w b m s : wf s -> is_Some (lower_mark w b m s).
Proof.
  intros Hwf. unfold lower_mark. repeat case_decide; [by eexists| |repeat case_match; by eexists].
  destruct (wf_band _ Hwf w b) as (_ & H2 & _); [lia|]. unfold marked_len in H2. case_match; [by eexists|lia].
Qed.

(** (C22) In every registry reached from the empty one by successful operations, in
    any order: an identity is looked up at an address exactly when the slot
    there is live with it (so no identity is live at two addresses); each band
    keeps its mark and its slots inside the retail range of the band; above the
    mark only tombstones are retained; and neither the frame walk nor a mark
    change slices out of range. *)
Theorem registry_invariant s :
  rtc step new s ->
  (forall i a, address_of i s = Some a <-> live_identity a s = Some i) /\
  (forall w b, (w < OWNER_SLOTS)%nat -> band_wf b (band_of w b s) /\ band_settled b (band_of w b s)) /\
  (forall frame, is_Some (traversal frame s)) /\ (forall w b m, is_Some (lower_mark w b m s)).
Proof.
  intros Hsteps. destruct (steps_keep _ _ Hsteps empty_wf new_settled) as [Hwf Hs].
  split; [|split; [|split]].
  - intros i a. by apply reverse_live_identity.
  - intros w b Hw. split; [by apply wf_band|by apply Hs].
  - intros frame. by apply traversal_total.
  - intros w b m. by apply lower_mark_total.
Qed.

(** Allocation never fails on a well-formed registry and is lowest-first: it
    reserves the least index that is a reusable tombstone below the mark, or the
    mark itself when there is none, and reports the capacity failure only when
    the mark stands at the band's limit and no tombstone is reusable.  Every
    other slot and the identities are untouched. *)
Theorem find_free_lowest q s :
  wf s -> settled s -> (request_owner q < OWNER_SLOTS)%nat ->
  let w := request_owner q in let b := request_band q in let x := band_of w b s in
  (exists r, find_free q s = Ok (r, s) /\ outcome r = CapacityFailure (-1) /\
     mark x = RetailBand.limit b /\ forall k, (k < marked_len b x)%nat -> ~ eligible x k) \/
  (exists k r s' t0, find_free q s = Ok (r, s') /\ outcome r = OutcomeReserved (mkReservation (at_ w b k) t0) /\
     (eligible x k \/ k = marked_len b x) /\ (k <= marked_len b x)%nat /\
     (forall k', (k' < k)%nat -> ~ eligible x k') /\
     mark (band_of w b s') = Z.max (mark x) (RetailBand.base b + Z.of_nat k + 1) /\
     (exists f, lifecycle <$> slot (at_ w b k) s' = Some (Reserved t0 f)) /\
     (forall a, a <> at_ w b k -> lifecycle <$> slot a s' = lifecycle <$> slot a s) /\
     forall i, address_of i s' = address_of i s).
Proof.
  intros Hwf Hs Hw w b x.
  destruct (find_free_shape q s Hwf Hs Hw) as [(E & Hm & Hn)|(k & ma & d & prior & n & Hc & E)]; [left; by eexists|]. right.
  fold w b x in Hc, E.
  pose proof (find_free_keeps q s _ _ Hwf Hs E) as [Hwf' _].
  destruct (wf_band _ Hwf w b Hw) as (H1 & H2 & H3). fold x in H1, H2, H3. unfold marked_len in H2.
  eexists k, _, _, _. split; [exact E|]. split; [done|].
  match type of E with _ = Ok (_, ?s1) => set (s' := s1) in * end.
  assert (Hb : forall w' b', band_of w' b' s' = if decide (w' = w /\ b' = b) then reserve k ma d (Reserved (next_ticket s) prior) x else band_of w' b' s).
  { intros w' b'. apply (band_of_put w b _ w' b' s). by rewrite (wf_owners _ Hwf). }
  destruct (chosen_marked b k ma d prior x (conj H1 (conj H2 H3)) Hc) as [Hk1 Hk2].
  pose proof Hc as [Hmin Hd]. split; [|split; [|split; [|split; [|split; [|split]]]]].
  - destruct d; destruct_and?; auto.
  - destruct d; destruct_and?; subst; lia.
  - intros k' Hk' He. apply (Hmin k' Hk'); [|done]. destruct d; destruct_and?; subst; lia.
  - rewrite Hb, decide_True by done. simpl. unfold marked_len in Hd, Hk2. destruct d; destruct_and?; subst; lia.
  - exists prior. rewrite slot_at_lookup by done. rewrite Hb, decide_True by done.
    change (life (reserve k ma d (Reserved (next_ticket s) prior) x) k = Some (Reserved (next_ticket s) prior)).
    erewrite life_reserve by done. by rewrite decide_True.
  - intros a Ha. unfold slot. destruct (slot_index a) as [k'|] eqn:Ek; [|done]. apply slot_index_Ok in Ek as (_ & Ea & _).
    rewrite Hb. case_decide as D; [|done]. destruct D as [Dw Db].
    change (life (reserve k ma d (Reserved (next_ticket s) prior) x) k' = life (band_of (a_owner a) (a_band a) s) k').
    erewrite life_reserve by done. rewrite decide_False; [by rewrite Dw, Db|]. intros ->. apply Ha. by rewrite Ea, Dw, Db.
  - done.
Qed.

(** (C23) Save and load: the snapshot of a well-formed registry without an outstanding
    reservation is accepted by [from_snapshot], and the restored registry has the
    same activity bits, the same addresses, the same marks and the same slot
    lifecycles, and the same snapshot again. *)
Theorem snapshot_roundtrip s z :
  wf s -> snapshot s = Ok z ->
  exists s', from_snapshot z = Ok s' /\ snapshot s' = Ok z /\ wf s' /\
    active s' = active s /\ (forall i, address_of i s' = address_of i s) /\
    forall w b, (w < OWNER_SLOTS)%nat ->
      mark (band_of w b s') = mark (band_of w b s) /\ forall k, life (band_of w b s') k = life (band_of w b s) k.
Proof.
  intros Hwf E. apply snapshot_image in E. pose proof (image_snap_ok _ _ Hwf E) as Hz.
  assert (Hact : length (snap_active z) = OWNER_SLOTS) by (destruct E as [<- _]; by apply wf_active).
  destruct (from_snapshot_total z Hz Hact) as [s' E']. exists s'. split; [done|].
  destruct (from_snapshot_image z s' Hact E') as (Hwf' & Him & _).
  destruct (same_image z s s' Hwf Hwf' E Him) as (Ha & Hr & Hb).
  split; [by apply snapshot_image|]. split; [done|]. split; [done|]. split; [|done].
  intros i. unfold address_of. by rewrite Hr.
Qed.

End spec.

(** ** A small registry *)

Module Demo.

Definition ok_state {A} (c : result SparseRegistryError (A * SparseObjectBands.t nat)) : SparseObjectBands.t nat :=
  match c with Ok (_, s) => s | Err _ => new end.

Definition r1 := ok_state (mirror_dense_append 2 RetailBand.Unit 7%nat new).
Definition r2 := ok_state (mirror_dense_append 2 RetailBand.Unit 8%nat r1).
Definition r3 := ok_state (retire (at_ 2 RetailBand.Unit 0) 7%nat (fresh_for RetailBand.Unit) r2).
Definition ask := mkRequest 2 RetailBand.Unit.
Definition r4 := ok_state (find_free ask r3).
Definition r5 := ok_state (commit (mkReservation (at_ 2 RetailBand.Unit 0) 1) 9%nat r4).

Lemma reached : rtc step new r3.
Proof.
  eapply rtc_l; [refine (step_append 2 RetailBand.Unit 7%nat new _ r1 _); reflexivity|].
  eapply rtc_l; [refine (step_append 2 RetailBand.Unit 8%nat r1 _ r2 _); reflexivity|].
  eapply rtc_l; [refine (step_retire (at_ 2 RetailBand.Unit 0) 7%nat (fresh_for RetailBand.Unit) r2 _ r3 _); reflexivity|]. apply rtc_refl.
Qed.

Lemma reached_commit : rtc step new r5.
Proof.
  transitivity r3; [exact reached|].
  eapply rtc_l; [refine (step_find_free ask r3 _ r4 _); reflexivity|].
  eapply rtc_l; [refine (step_commit (mkReservation (at_ 2 RetailBand.Unit 0) 1) 9%nat r4 _ r5 _); reflexivity|]. apply rtc_refl.
Qed.

Lemma registry_invariant_witness :
  address_of 9%nat r5 = Some (at_ 2 RetailBand.Unit 0) /\ address_of 7%nat r5 = None /\
  forall i a, address_of i r5 = Some a <-> live_identity a r5 = Some i.
Proof.
  split; [reflexivity|]. split; [reflexivity|]. apply (registry_invariant r5 reached_commit).
Defined.

Lemma reached_ok : wf r3 /\ settled r3.
Proof. exact (steps_keep _ _ reached empty_wf new_settled). Qed.

Lemma find_free_lowest_witness :
  exists k r s' t0, find_free ask r3 = Ok (r, s') /\ outcome r = OutcomeReserved (mkReservation (at_ 2 RetailBand.Unit k) t0) /\ k = 0%nat.
Proof.
  destruct (find_free_lowest ask r3 (proj1 reached_ok) (proj2 reached_ok)) as [(r & E & Ho & _)|(k & r & s' & t0 & E & Ho & _)].
  - apply Nat.ltb_lt. reflexivity.
  - exfalso. vm_compute in E. injection E as E. subst r. vm_compute in Ho. discriminate Ho.
  - exists k, r, s', t0. split; [exact E|]. split; [exact Ho|].
    assert (E2 := E). vm_compute in E2. injection E2 as E2 _. subst r. vm_compute in Ho. injection Ho as Hk _. by destruct k.
Defined.

Lemma snapshot_roundtrip_witness :
  exists z s', snapshot r3 = Ok z /\ from_snapshot z = Ok s' /\ snapshot s' = Ok z.
Proof.
  destruct (snapshot r3) as [z|] eqn:E; [|discriminate E].
  destruct (snapshot_roundtrip r3 z (proj1 reached_ok) E) as (s' & E1 & E2 & _).
  exists z, s'. split; [reflexivity|]. split; [exact E1|exact E2].
Defined.

End Demo.
