(* ===== verification/SimReader.v ===== *)
(** * A cursor over a byte slice

    The [struct Reader] that [systems/strafe_runtime_authority.rs] and
    [systems/air_runtime_authority.rs] of [crates/don-sim/src] each declare with
    the same body and their own error type: a slice and a cursor, with reads
    that fail when the slice is short.  [bytes] is a slice in memory, so the
    [checked_add] of [take] cannot fail and is not a case of the model.

    Two laws carry the codecs built on it.  [reads m out a]: on a slice that
    has [out] at the cursor, [m] gives [a] and steps over [out].  [spells m R]:
    whenever [m] succeeds, the bytes it stepped over are related by [R] to
    what it gave. *)

From S2P Require Import Prelude.

Section reader.
Context {E : Type} (Truncated : E) (TrailingBytes : nat -> nat -> E).

Definition Reader (A : Type) : Type := bytes -> nat -> result E (A * nat).

Definition rd_ret {A} (a : A) : Reader A := fun _ p => Ok (a, p).
Definition rd_fail {A} (e : E) : Reader A := fun _ _ => Err e.
Definition rd_bind {A B} (m : Reader A) (k : A -> Reader B) : Reader B :=
  fun bs p => let? '(a, q) := m bs p in k a bs q.

Definition rd_take (count : nat) : Reader bytes :=
  fun bs p => let? b := ok_or (get_range bs p (p + count)) Truncated in Ok (b, p + count)%nat.

Definition rd_u8 : Reader Z := rd_bind (rd_take 1) (fun b => rd_ret (byte_at b 0)).
Definition rd_i16 : Reader Z := rd_bind (rd_take 2) (fun b => rd_ret (i16 (from_le b))).
Definition rd_u32 : Reader Z := rd_bind (rd_take 4) (fun b => rd_ret (from_le b)).
Definition rd_i32 : Reader Z := rd_bind (rd_take 4) (fun b => rd_ret (i32 (from_le b))).

Definition rd_finish (bs : bytes) (p : nat) : result E unit :=
  if decide (p = length bs) then Ok tt else Err (TrailingBytes p (length bs)).

(** [for _ in 0..n { values.push(item()?) }]. *)
Fixpoint rd_many {A} (n : nat) (item : Reader A) : Reader (list A) :=
  match n with
  | O => rd_ret []
  | S n => rd_bind item (fun a => rd_bind (rd_many n item) (fun l => rd_ret (a :: l)))
  end.

(** ** Reading what was written *)

Definition reads {A} (m : Reader A) (out : bytes) (a : A) : Prop :=
  forall pre post, m (pre ++ out ++ post) (length pre) = Ok (a, length pre + length out)%nat.

Lemma reads_ret {A} (a : A) : reads (rd_ret a) [] a.
Proof. intros pre post. unfold rd_ret. by rewrite Nat.add_0_r. Qed.

Lemma rd_reads_bind {A B} (m : Reader A) (k : A -> Reader B) o1 o2 a b :
  reads m o1 a -> reads (k a) o2 b -> reads (rd_bind m k) (o1 ++ o2) b.
Proof.
  intros H1 H2 pre post. unfold rd_bind. rewrite <- (assoc_L app), H1. simpl.
  specialize (H2 (pre ++ o1) post). rewrite <- (assoc_L app), length_app in H2. rewrite H2.
  by rewrite length_app, Nat.add_assoc.
Qed.

Lemma reads_bind_ret {A B} (m : Reader A) (k : A -> Reader B) o a b :
  reads m o a -> k a = rd_ret b -> reads (rd_bind m k) o b.
Proof. intros H1 H2. rewrite <- (app_nil_r o). eapply rd_reads_bind; [done|]. rewrite H2. apply reads_ret. Qed.

Lemma reads_take out : reads (rd_take (length out)) out out.
Proof.
  intros pre post. unfold rd_take, get_range. rewrite decide_True by (rewrite !length_app; lia). simpl.
  by rewrite drop_app_length, Nat.add_comm, Nat.add_sub, take_app_length.
Qed.

Lemma reads_u8 z : reads rd_u8 [z] z.
Proof. eapply reads_bind_ret; [apply (reads_take [z])|done]. Qed.

Lemma reads_le {A} n z (f : bytes -> A) :
  reads (rd_bind (rd_take n) (fun b => rd_ret (f b))) (to_le n z) (f (to_le n z)).
Proof. eapply reads_bind_ret; [|done]. pose proof (reads_take (to_le n z)) as H. by rewrite length_to_le in H. Qed.

Lemma reads_i16 z : is_i16 z -> reads rd_i16 (to_le 2 z) z.
Proof. intros Hz. rewrite <- (from_le_signed 2 16 z) at 2 by (done || lia). apply (reads_le 2 z (fun b => i16 (from_le b))). Qed.
Lemma reads_u32 z : is_u32 z -> reads rd_u32 (to_le 4 z) z.
Proof. intros Hz. rewrite <- (from_le_to_le_id 4 32 z) at 2 by done. apply (reads_le 4 z from_le). Qed.
Lemma reads_i32 z : is_i32 z -> reads rd_i32 (to_le 4 z) z.
Proof. intros Hz. rewrite <- (from_le_signed 4 32 z) at 2 by (done || lia). apply (reads_le 4 z (fun b => i32 (from_le b))). Qed.

Lemma reads_many {A} (item : Reader A) (enc : A -> bytes) l :
  Forall (fun a => reads item (enc a) a) l -> reads (rd_many (length l) item) (concat (enc <$> l)) l.
Proof.
  induction 1 as [|a l Ha _ IH]; [apply reads_ret|]. cbn [length rd_many fmap list_fmap concat].
  eapply rd_reads_bind; [done|]. by eapply reads_bind_ret.
Qed.

(** A reader run over the whole slice. *)
Lemma reads_all {A} (m : Reader A) out a : reads m out a -> m out 0%nat = Ok (a, length out).
Proof. intros H. specialize (H [] []). by rewrite app_nil_r in H. Qed.

Lemma finish_all out : rd_finish out (length out) = Ok tt.
Proof. unfold rd_finish. by rewrite decide_True. Qed.

(** ** Writing what was read *)

Definition span (bs : bytes) (p q : nat) : bytes := take (q - p) (drop p bs).

Definition spells {A} (m : Reader A) (R : bytes -> A -> Prop) : Prop :=
  forall bs p a q, bytes_ok bs -> (p <= length bs)%nat -> m bs p = Ok (a, q) ->
    (p <= q <= length bs)%nat /\ R (span bs p q) a.

Lemma span_nil bs p : span bs p p = [].
Proof. unfold span. by rewrite Nat.sub_diag. Qed.

Lemma span_app bs p q r : (p <= q <= r)%nat -> (r <= length bs)%nat -> span bs p q ++ span bs q r = span bs p r.
Proof.
  intros Hq Hr. unfold span. replace (drop q bs) with (drop (q - p) (drop p bs)) by (rewrite drop_drop; f_equal; lia).
  rewrite take_take_drop. f_equal. lia.
Qed.

Lemma spells_ret {A} (a : A) (R : bytes -> A -> Prop) : R [] a -> spells (rd_ret a) R.
Proof. intros H bs p b q _ Hp [= <- <-]. rewrite span_nil. done. Qed.

Lemma spells_fail {A} e (R : bytes -> A -> Prop) : spells (rd_fail e) R.
Proof. by intros bs p b q. Qed.

Lemma spells_bind {A B} (m : Reader A) (k : A -> Reader B) R1 (R : bytes -> B -> Prop) :
  spells m R1 -> (forall o1 a, R1 o1 a -> spells (k a) (fun o2 b => R (o1 ++ o2) b)) -> spells (rd_bind m k) R.
Proof.
  intros H1 H2 bs p b r Hb Hp H. unfold rd_bind in H. apply rbind_Ok in H as ([a q] & E1 & E2).
  destruct (H1 _ _ _ _ Hb Hp E1) as [Hq Ra]. destruct (H2 _ _ Ra bs q b r Hb (proj2 Hq) E2) as [Hr Rb].
  split; [lia|]. by rewrite span_app in Rb by lia.
Qed.

Lemma spells_take n : spells (rd_take n) (fun o b => o = b /\ length b = n /\ bytes_ok b).
Proof.
  intros bs p b q Hb Hp H. unfold rd_take, get_range in H. case_decide as D; [|done]. simpl in H. injection H as <- <-.
  unfold span. replace (p + n - p)%nat with n in * by lia. split; [lia|]. split; [done|].
  rewrite length_take, length_drop. split; [lia|]. by apply bytes_ok_take, bytes_ok_drop.
Qed.

Lemma spells_u8 : spells rd_u8 (fun o a => o = [a] /\ is_u8 a).
Proof.
  eapply spells_bind; [apply spells_take|]. intros o b (-> & Hl & Hb). apply spells_ret. rewrite app_nil_r.
  destruct b as [|z [|? ?]]; try done. split; [done|]. by inversion Hb.
Qed.

Lemma to_le_signed n w b : w = 8 * Z.of_nat n -> (0 < n)%nat -> length b = n -> bytes_ok b -> to_le n (wrap_s w (from_le b)) = b.
Proof. intros -> Hn <- Hb. rewrite to_le_wrap_s by done. by apply to_le_from_le. Qed.

Lemma spells_i16 : spells rd_i16 (fun o a => o = to_le 2 a /\ is_i16 a).
Proof.
  eapply spells_bind; [apply spells_take|]. intros o b (-> & Hl & Hb). apply spells_ret. rewrite app_nil_r.
  split; [symmetry; apply to_le_signed; (done || lia)|apply wrap_s_range; lia].
Qed.
Lemma spells_i32 : spells rd_i32 (fun o a => o = to_le 4 a /\ is_i32 a).
Proof.
  eapply spells_bind; [apply spells_take|]. intros o b (-> & Hl & Hb). apply spells_ret. rewrite app_nil_r.
  split; [symmetry; apply to_le_signed; (done || lia)|apply wrap_s_range; lia].
Qed.
Lemma spells_u32 : spells rd_u32 (fun o a => o = to_le 4 a /\ is_u32 a).
Proof.
  eapply spells_bind; [apply spells_take|]. intros o b (-> & Hl & Hb). apply spells_ret. rewrite app_nil_r.
  split; [rewrite <- Hl; symmetry; by apply to_le_from_le|]. pose proof (from_le_bound b Hb) as H. by rewrite Hl in H.
Qed.

Lemma spells_many {A} (item : Reader A) (enc : A -> bytes) (P : A -> Prop) n :
  spells item (fun o a => o = enc a /\ P a) ->
  spells (rd_many n item) (fun o l => o = concat (enc <$> l) /\ length l = n /\ Forall P l).
Proof.
  intros Hi. induction n as [|n IH]; [by apply spells_ret|]. eapply spells_bind; [done|]. intros o1 a [-> Pa].
  eapply spells_bind; [apply IH|]. intros o2 l (-> & Hl & Pl). apply spells_ret. rewrite app_nil_r.
  split; [done|]. split; [by simpl; f_equal|]. by constructor.
Qed.

(** A reader that consumed the whole slice. *)
Lemma spells_all {A} (m : Reader A) (R : bytes -> A -> Prop) bs a q :
  spells m R -> bytes_ok bs -> m bs 0%nat = Ok (a, q) -> rd_finish bs q = Ok tt -> R bs a.
Proof.
  intros H Hb E1 E2. destruct (H bs 0%nat a q Hb ltac:(lia) E1) as [_ Ra]. unfold rd_finish in E2. case_decide as D; [|done].
  subst q. unfold span in Ra. by rewrite drop_0, Nat.sub_0_r, firstn_all in Ra.
Qed.

End reader.

Arguments Reader : clear implicits.

Declare Scope reader_scope.
Delimit Scope reader_scope with reader.
Notation "x <~ m ; k" := (rd_bind m (fun x => k)) (at level 60, m at level 59, k at level 200, right associativity) : reader_scope.

(** Follow the reads of a reader one by one. *)
Ltac spell_step :=
  lazymatch goal with
  | |- spells (rd_bind (rd_u8 _) _) _ => eapply spells_bind; [apply spells_u8 | intros ? ? [-> ?]]
  | |- spells (rd_bind (rd_i16 _) _) _ => eapply spells_bind; [apply spells_i16 | intros ? ? [-> ?]]
  | |- spells (rd_bind (rd_u32 _) _) _ => eapply spells_bind; [apply spells_u32 | intros ? ? [-> ?]]
  | |- spells (rd_bind (rd_i32 _) _) _ => eapply spells_bind; [apply spells_i32 | intros ? ? [-> ?]]
  | |- spells (if decide ?P then rd_fail _ else _) _ => destruct (decide P); [apply spells_fail | cbv beta]
  | |- spells (rd_ret _) _ => apply spells_ret
  end.
