(* ===== verification/SimPayload.v ===== *)
(** * Concrete order payloads and their save leaves

    [crates/don-sim/src/order.rs] flattens the thirty-odd retail order classes
    into one record with a typed payload per class.  This file models the
    payloads the [systems] modules own and the leaf each of them contributes
    to a save: [strafe_runtime_authority.rs] ([Module Strafe]),
    [air_runtime_authority.rs] ([Module Air], the AIR_PATROL payload and the
    scenario's ignored-object lists) and [economy_order_payload_authority.rs]
    ([Module Economy]); with them [OrderIndex] of [order.rs] and [Handle] of
    [world.rs], which the payloads mention.

    Each leaf is a codec in both directions: what is encoded decodes to the
    same payload, and a leaf that decodes is the encoding of what it decoded
    to, so no two leaves mean the same order. *)

From stdpp Require Import strings.
From S2P Require Import Prelude SimReader.

(** [enum OrderIndex]. *)
Inductive OrderIndex :=
| NoOrder | MoveTo | AttackTo | ExploreTo | FleeTo | Patrol | BuildAt | Gather | BoardShip | AwaitBoard | Attack
| Follow | Guard | Repair | CastSpell | TradeRoute | Strafe | AirPatrol | ChangeForm | GroupMove | GroupAttack
| GroupAttackTo | GroupPatrol | AttackGround | AirAttackGround | SpecialAnim | Garrison | Think.

#[export] Instance OrderIndex_eq_dec : EqDecision OrderIndex.
Proof. solve_decision. Defined.

Definition OrderIndex_ALL : list OrderIndex :=
  [NoOrder; MoveTo; AttackTo; ExploreTo; FleeTo; Patrol; BuildAt; Gather; BoardShip; AwaitBoard; Attack;
   Follow; Guard; Repair; CastSpell; TradeRoute; Strafe; AirPatrol; ChangeForm; GroupMove; GroupAttack;
   GroupAttackTo; GroupPatrol; AttackGround; AirAttackGround; SpecialAnim; Garrison; Think].

(** The discriminant of a variant, [self as usize]. *)
Definition OrderIndex_index (k : OrderIndex) : nat :=
  match k with
  | NoOrder => 0 | MoveTo => 1 | AttackTo => 2 | ExploreTo => 3 | FleeTo => 4 | Patrol => 5 | BuildAt => 6 | Gather => 7
  | BoardShip => 8 | AwaitBoard => 9 | Attack => 10 | Follow => 11 | Guard => 12 | Repair => 13 | CastSpell => 14
  | TradeRoute => 15 | Strafe => 16 | AirPatrol => 17 | ChangeForm => 18 | GroupMove => 19 | GroupAttack => 20
  | GroupAttackTo => 21 | GroupPatrol => 22 | AttackGround => 23 | AirAttackGround => 24 | SpecialAnim => 25
  | Garrison => 26 | Think => 27
  end%nat.

Definition OrderIndex_from_index (i : nat) : option OrderIndex := OrderIndex_ALL !! i.

Lemma from_index_index k : OrderIndex_from_index (OrderIndex_index k) = Some k.
Proof. by destruct k. Qed.

(** [struct Handle] of [world.rs]: two [u32]. *)
Record Handle := mkHandle { id : Z; generation : Z }.

#[export] Instance Handle_eq_dec : EqDecision Handle.
Proof. solve_decision. Defined.

Definition Handle_wf (h : Handle) : Prop := is_u32 (id h) /\ is_u32 (generation h).

(** ** STRAFE *)

Module Strafe.

(** [air::AirOrderWalk]. *)
Record AirOrderWalk := mkAirOrderWalk { oxx : Z; whose : Z; cruising_alt : Z; sharp_turn : Z; old : Z; returning : Z }.

(** [patrol::StrafeOrder]. *)
Record StrafeOrder := mkStrafeOrder {
  target_o : Z; target_who : Z; target_uid : Z; def_x : Z; def_y : Z;
  mandatory : Z; defensive : Z; in_range : Z; ever_in_range : Z; new_ord : Z;
  air : AirOrderWalk; xx : Z; yy : Z }.

Record StrafeTargetIdentity := mkIdentity { t_o : Z; t_who : Z; t_uid : Z }.

#[export] Instance AirOrderWalk_eq_dec : EqDecision AirOrderWalk.
Proof. solve_decision. Defined.
#[export] Instance StrafeOrder_eq_dec : EqDecision StrafeOrder.
Proof. solve_decision. Defined.

Inductive StrafeAuthorityError :=
| WrongPayloadTag (tag : Z)
| WrongPayloadVersion (v : Z)
| Truncated
| TrailingBytes (expected actual : nat)
| IncoherentTargetAddress (o who : Z)
| IncoherentHomeAddress (o who : Z)
| NonCanonicalFlag (field : string) (value : Z).

Definition DON_SAVE_STRAFE_TAG : Z := 8.
Definition STRAFE_PAYLOAD_VERSION : Z := 1.
Definition STRAFE_LEAF_BYTES : nat := 47.
Definition STRAFE_RETAIL_WALK_BYTES : nat := 57.

Definition target_identity (order : StrafeOrder) : StrafeTargetIdentity :=
  mkIdentity (target_o order) (target_who order) (target_uid order).

Definition validate_pair (o who : Z) : bool :=
  match 0 <=? o, 0 <=? who with true, true | false, false => true | _, _ => false end.

Definition validate_flag (field : string) (value : Z) : result StrafeAuthorityError unit :=
  if value <=? 1 then Ok tt else Err (NonCanonicalFlag field value).

Definition validate_strafe_order (order : StrafeOrder) : result StrafeAuthorityError unit :=
  if negb (validate_pair (target_o order) (target_who order))
  then Err (IncoherentTargetAddress (target_o order) (target_who order)) else
  if negb (validate_pair (oxx (air order)) (whose (air order)))
  then Err (IncoherentHomeAddress (oxx (air order)) (whose (air order))) else
  let? _ := validate_flag "mandatory" (mandatory order) in
  let? _ := validate_flag "defensive" (defensive order) in
  let? _ := validate_flag "in_range" (in_range order) in
  let? _ := validate_flag "ever_in_range" (ever_in_range order) in
  let? _ := validate_flag "new_ord" (new_ord order) in
  Ok tt.

(** [put_i32] over a list of words. *)
Definition put_i32s (l : list Z) : bytes := concat (to_le 4 <$> l).

Definition attack_flags (order : StrafeOrder) : bytes :=
  [mandatory order; defensive order; in_range order; ever_in_range order; new_ord order].

Definition air_words (order : StrafeOrder) : list Z :=
  [oxx (air order); whose (air order); cruising_alt (air order); sharp_turn (air order); old (air order);
   returning (air order); xx order; yy order].

Definition append_attack_and_air (out : bytes) (order : StrafeOrder) : bytes :=
  out ++ to_le 4 (def_x order) ++ to_le 4 (def_y order) ++ attack_flags order ++ put_i32s (air_words order).

Definition retail_walk_bytes (order_flags : Z) (order : StrafeOrder) : result StrafeAuthorityError bytes :=
  let? _ := validate_strafe_order order in
  Ok ([order_flags] ++ to_le 4 (target_o order) ++ to_le 4 (target_who order) ++ to_le 2 (target_uid order) ++
      to_le 4 (def_x order) ++ to_le 4 (def_y order) ++ attack_flags order ++
      [order_flags] ++ put_i32s (air_words order)).

Definition encode_strafe_leaf (order : StrafeOrder) : result StrafeAuthorityError bytes :=
  let? _ := validate_strafe_order order in
  Ok (append_attack_and_air [DON_SAVE_STRAFE_TAG; STRAFE_PAYLOAD_VERSION] order).

Abbreviation u8_ := (rd_u8 Truncated).
Abbreviation i32_ := (rd_i32 Truncated).

(** The reads of [decode_strafe_leaf], up to [reader.finish()]. *)
Definition read_strafe (target : StrafeTargetIdentity) : Reader StrafeAuthorityError StrafeOrder :=
  (tag <~ u8_ ;
   if decide (tag <> DON_SAVE_STRAFE_TAG) then rd_fail (WrongPayloadTag tag) else
   version <~ u8_ ;
   if decide (version <> STRAFE_PAYLOAD_VERSION) then rd_fail (WrongPayloadVersion version) else
   def_x <~ i32_ ; def_y <~ i32_ ;
   mandatory <~ u8_ ; defensive <~ u8_ ; in_range <~ u8_ ; ever_in_range <~ u8_ ; new_ord <~ u8_ ;
   oxx <~ i32_ ; whose <~ i32_ ; cruising_alt <~ i32_ ; sharp_turn <~ i32_ ; old <~ i32_ ; returning <~ i32_ ;
   xx <~ i32_ ; yy <~ i32_ ;
   rd_ret (mkStrafeOrder (t_o target) (t_who target) (t_uid target) def_x def_y mandatory defensive in_range ever_in_range
             new_ord (mkAirOrderWalk oxx whose cruising_alt sharp_turn old returning) xx yy))%reader.

Definition decode_strafe_leaf (target : StrafeTargetIdentity) (bs : bytes) : result StrafeAuthorityError StrafeOrder :=
  let? '(order, at_) := read_strafe target bs 0%nat in
  let? _ := rd_finish TrailingBytes bs at_ in
  let? _ := validate_strafe_order order in
  Ok order.

(** The widths of the fields. *)
Definition AirOrderWalk_wf (a : AirOrderWalk) : Prop :=
  is_i32 (oxx a) /\ is_i32 (whose a) /\ is_i32 (cruising_alt a) /\ is_i32 (sharp_turn a) /\ is_i32 (old a) /\ is_i32 (returning a).

Definition StrafeOrder_wf (s : StrafeOrder) : Prop :=
  is_i32 (def_x s) /\ is_i32 (def_y s) /\ is_u8 (mandatory s) /\ is_u8 (defensive s) /\ is_u8 (in_range s) /\
  is_u8 (ever_in_range s) /\ is_u8 (new_ord s) /\ AirOrderWalk_wf (air s) /\ is_i32 (xx s) /\ is_i32 (yy s).

Lemma reads_strafe s : StrafeOrder_wf s ->
  reads (read_strafe (target_identity s)) (append_attack_and_air [DON_SAVE_STRAFE_TAG; STRAFE_PAYLOAD_VERSION] s) s.
Proof.
  intros (? & ? & ? & ? & ? & ? & ? & (? & ? & ? & ? & ? & ?) & ? & ?). destruct s as [? ? ? ? ? ? ? ? ? ? [] ? ?]; simpl in *.
  cbn [read_strafe append_attack_and_air put_i32s air_words attack_flags target_identity air def_x def_y mandatory defensive
       in_range ever_in_range new_ord oxx whose cruising_alt sharp_turn old returning xx yy fmap list_fmap concat app].
  unfold read_strafe. rewrite app_nil_r.
  apply (rd_reads_bind _ _ [_] _ _ _ (reads_u8 _ _)). rewrite decide_False by tauto.
  apply (rd_reads_bind _ _ [_] _ _ _ (reads_u8 _ _)). rewrite decide_False by tauto.
  do 2 (eapply rd_reads_bind; [by apply reads_i32|]).
  do 5 (apply (rd_reads_bind _ _ [_] _ _ _ (reads_u8 _ _))).
  do 7 (eapply rd_reads_bind; [by apply reads_i32|]). eapply reads_bind_ret; [by apply reads_i32|done].
Qed.

Lemma spells_strafe target :
  spells (read_strafe target) (fun o s =>
    o = append_attack_and_air [DON_SAVE_STRAFE_TAG; STRAFE_PAYLOAD_VERSION] s /\ target_identity s = target).
Proof.
  unfold read_strafe. repeat spell_step. destruct target. split; [|done].
  cbn [append_attack_and_air put_i32s air_words attack_flags air def_x def_y mandatory defensive in_range ever_in_range new_ord
       oxx whose cruising_alt sharp_turn old returning xx yy fmap list_fmap concat app].
  rewrite !app_nil_r. repeat match goal with H : ~ (_ <> _) |- _ => apply dec_stable in H; subst end. done.
Qed.

Lemma length_put_i32s l : length (put_i32s l) = (4 * length l)%nat.
Proof. induction l as [|z l IH]; [done|]. unfold put_i32s in *. cbn [fmap list_fmap concat]. rewrite length_app, IH, length_to_le. simpl; lia. Qed.

(** The STRAFE leaf is exact in both directions, and both images have their
    fixed size. *)
Theorem strafe_leaf_codec :
  (forall order bs, StrafeOrder_wf order -> encode_strafe_leaf order = Ok bs ->
     length bs = STRAFE_LEAF_BYTES /\ decode_strafe_leaf (target_identity order) bs = Ok order) /\
  (forall target bs order, bytes_ok bs -> decode_strafe_leaf target bs = Ok order ->
     target_identity order = target /\ encode_strafe_leaf order = Ok bs) /\
  (forall flags order bs, retail_walk_bytes flags order = Ok bs -> length bs = STRAFE_RETAIL_WALK_BYTES).
Proof.
  split_and!.
  - intros order bs Hwf H. unfold encode_strafe_leaf in H. apply rbind_Ok in H as ([] & Hv & [= <-]).
    split; [unfold append_attack_and_air; autorewrite with don; by rewrite length_put_i32s|].
    unfold decode_strafe_leaf. rewrite (reads_all _ _ _ (reads_strafe _ Hwf)). cbn [rbind]. rewrite finish_all. cbn [rbind]. by rewrite Hv.
  - intros target bs order Hb H. unfold decode_strafe_leaf in H. apply rbind_Ok in H as ([s p] & E1 & H).
    apply rbind_Ok in H as ([] & E2 & H). apply rbind_Ok in H as ([] & Hv & [= <-]).
    destruct (spells_all _ _ _ _ _ _ (spells_strafe target) Hb E1 E2) as [-> ->]. unfold encode_strafe_leaf. by rewrite Hv.
  - intros flags order bs H. unfold retail_walk_bytes in H. apply rbind_Ok in H as ([] & _ & [= <-]).
    cbn [length]. by rewrite length_put_i32s.
Qed.

End Strafe.

(** ** AIR_PATROL and the scenario's ignored objects *)

Module Air.

Definition DON_SAVE_AIR_PATROL_TAG : Z := 6.
Definition AIR_PATROL_PAYLOAD_VERSION : Z := 1.
Definition SCENARIO_IGNORES_PAYLOAD_VERSION : Z := 1.
Definition SCENARIO_OWNER_SLOTS : nat := 8.
Definition MAX_DECODED_PATROL_POINTS : Z := Z.shiftl 1 20.
Definition MAX_DECODED_IGNORED_OBJECTS_PER_OWNER : Z := Z.shiftl 1 20.

Inductive AirRuntimeAuthorityError :=
| WrongPayloadTag (tag : Z)
| WrongPayloadVersion (v : Z)
| WrongScenarioPayloadVersion (v : Z)
| InvalidBoolean (b : Z)
| Truncated
| TrailingBytes (expected actual : nat)
| PointCountLimit (n : Z)
| PointCountOutOfRange (n : Z)
| WaypointArrayLengthMismatch (x y : Z)
| EmptyPatrolRoute
| UnnormalizedArrayFlags (flags : Z)
| IncoherentHomeAddress
| MissingCompositionDigest
| NegativeTypeId (t : Z)
| DuplicateTypeId (t : Z)
| MissingTypeRow (t : Z)
| ScenarioOwnerOutOfRange (owner : nat)
| IgnoredObjectLimit (owner : nat) (len : Z)
| IgnoredObjectOutOfRange (owner : nat) (object : Z).

Abbreviation E := AirRuntimeAuthorityError.

Record WalkedCoordArray := mkArray { increment : Z; flags : Z; values : list Z }.

(** [Default for WalkedCoordArray]. *)
Definition array_default : WalkedCoordArray := mkArray (-1) 0 [].

Definition len {A} (l : list A) : Z := Z.of_nat (length l).

Definition array_validate (a : WalkedCoordArray) : result E unit :=
  if decide (Z.land (flags a) 64 <> 0) then Err (UnnormalizedArrayFlags (flags a)) else Ok tt.

(** [i32::try_from] of a length. *)
Definition i32_of_len {A} (l : list A) : result E Z :=
  if len l <=? I32_MAX then Ok (len l) else Err (PointCountOutOfRange (len l)).

Definition array_append_walk_bytes (a : WalkedCoordArray) (out : bytes) : result E bytes :=
  let? _ := array_validate a in
  let? n := i32_of_len (values a) in
  Ok (out ++ to_le 4 n ++ to_le 2 (increment a) ++ [flags a] ++ concat (to_le 4 <$> values a)).

Record AirOrderPayload := mkAir { home_o : Z; home_who : Z; cruising_alt : Z; sharp_turn : Z; old : Z; returning : Z }.

Definition air_words (a : AirOrderPayload) : list Z :=
  [home_o a; home_who a; cruising_alt a; sharp_turn a; old a; returning a].
Definition air_append_bytes (a : AirOrderPayload) (out : bytes) : bytes := out ++ concat (to_le 4 <$> air_words a).

Record AirPatrolOrderPayload := mkPatrol { x : WalkedCoordArray; y : WalkedCoordArray; waypoint : Z; air : AirOrderPayload }.

#[export] Instance WalkedCoordArray_eq_dec : EqDecision WalkedCoordArray.
Proof. solve_decision. Defined.
#[export] Instance AirOrderPayload_eq_dec : EqDecision AirOrderPayload.
Proof. solve_decision. Defined.
#[export] Instance AirPatrolOrderPayload_eq_dec : EqDecision AirPatrolOrderPayload.
Proof. solve_decision. Defined.

(** [AirPatrolOrderPayload::one]. *)
Definition one (target_x target_y o who : Z) : AirPatrolOrderPayload :=
  mkPatrol (mkArray (increment array_default) (flags array_default) [target_x])
    (mkArray (increment array_default) (flags array_default) [target_y]) 0 (mkAir o who 1600 0 0 0).

Definition validate (p : AirPatrolOrderPayload) : result E unit :=
  let? _ := array_validate (x p) in
  let? _ := array_validate (y p) in
  if decide (length (values (x p)) <> length (values (y p)))
  then Err (WaypointArrayLengthMismatch (len (values (x p))) (len (values (y p)))) else
  if decide (values (x p) = []) then Err EmptyPatrolRoute else
  let? _ := i32_of_len (values (x p)) in
  match 0 <=? home_o (air p), 0 <=? home_who (air p) with
  | true, true | false, false => Ok tt
  | _, _ => Err IncoherentHomeAddress
  end.

Definition retail_walk_bytes (order_flags : Z) (p : AirPatrolOrderPayload) : result E bytes :=
  let? _ := validate p in
  let out := [order_flags] ++ to_le 4 (waypoint p) in
  let? out := array_append_walk_bytes (x p) out in
  let? out := array_append_walk_bytes (y p) out in
  Ok (air_append_bytes (air p) (out ++ [order_flags])).

(** [patrol::PatrolPoints] and [patrol::AirPatrolOrder], and the conversions. *)
Record PatrolPoints := mkPoints {
  p_x : list Z; x_increment : Z; x_flags : Z; p_y : list Z; y_increment : Z; y_flags : Z; p_waypoint : Z }.
Record AirPatrolOrder := mkAirPatrolOrder { points : PatrolPoints; walk : Strafe.AirOrderWalk }.

Definition from_order (o : AirPatrolOrder) : AirPatrolOrderPayload :=
  let q := points o in let a := walk o in
  mkPatrol (mkArray (x_increment q) (x_flags q) (p_x q)) (mkArray (y_increment q) (y_flags q) (p_y q)) (p_waypoint q)
    (mkAir (Strafe.oxx a) (Strafe.whose a) (Strafe.cruising_alt a) (Strafe.sharp_turn a) (Strafe.old a) (Strafe.returning a)).

Definition try_from (p : AirPatrolOrderPayload) : result E AirPatrolOrder :=
  let? _ := validate p in
  Ok (mkAirPatrolOrder
        (mkPoints (values (x p)) (increment (x p)) (flags (x p)) (values (y p)) (increment (y p)) (flags (y p)) (waypoint p))
        (Strafe.mkAirOrderWalk (home_o (air p)) (home_who (air p)) (cruising_alt (air p)) (sharp_turn (air p)) (old (air p))
           (returning (air p)))).

Definition write_coord_array (out : bytes) (a : WalkedCoordArray) : result E bytes :=
  let? _ := array_validate a in
  if MAX_DECODED_PATROL_POINTS <? len (values a) then Err (PointCountLimit (len (values a))) else
  let? n := (if len (values a) <=? U32_MAX then Ok (len (values a)) else Err (PointCountOutOfRange (len (values a)))) in
  Ok (out ++ to_le 4 n ++ to_le 2 (increment a) ++ [flags a] ++ concat (to_le 4 <$> values a)).

Definition encode_air_patrol_leaf (p : AirPatrolOrderPayload) : result E bytes :=
  let? _ := validate p in
  let? out := write_coord_array [DON_SAVE_AIR_PATROL_TAG; AIR_PATROL_PAYLOAD_VERSION] (x p) in
  let? out := write_coord_array out (y p) in
  Ok (air_append_bytes (air p) (out ++ to_le 4 (waypoint p))).

Abbreviation u8_ := (rd_u8 Truncated).
Abbreviation i16_ := (rd_i16 Truncated).
Abbreviation u32_ := (rd_u32 Truncated).
Abbreviation i32_ := (rd_i32 Truncated).

Definition read_coord_array : Reader E WalkedCoordArray :=
  (n <~ u32_ ;
   if decide (MAX_DECODED_PATROL_POINTS < n) then rd_fail (PointCountLimit n) else
   inc <~ i16_ ; fl <~ u8_ ; vs <~ rd_many (Z.to_nat n) i32_ ;
   match array_validate (mkArray inc fl vs) with Ok _ => rd_ret (mkArray inc fl vs) | Err e => rd_fail e end)%reader.

Definition read_air_patrol : Reader E AirPatrolOrderPayload :=
  (tag <~ u8_ ;
   if decide (tag <> DON_SAVE_AIR_PATROL_TAG) then rd_fail (WrongPayloadTag tag) else
   version <~ u8_ ;
   if decide (version <> AIR_PATROL_PAYLOAD_VERSION) then rd_fail (WrongPayloadVersion version) else
   ax <~ read_coord_array ; ay <~ read_coord_array ; w <~ i32_ ;
   o <~ i32_ ; who <~ i32_ ; alt <~ i32_ ; turn <~ i32_ ; od <~ i32_ ; re <~ i32_ ;
   rd_ret (mkPatrol ax ay w (mkAir o who alt turn od re)))%reader.

Definition decode_air_patrol_leaf (bs : bytes) : result E AirPatrolOrderPayload :=
  let? '(p, at_) := read_air_patrol bs 0%nat in
  let? _ := rd_finish TrailingBytes bs at_ in
  let? _ := validate p in
  Ok p.

(** [struct ScenarioIgnoreOrdersAuthority]; eight lists. *)
Record ScenarioIgnoreOrdersAuthority := mkIgnores { revision : Z; ignore_orders : bool; ignored_by_owner : list (list Z) }.

(** [i16::try_from(object).is_ok()]. *)
Definition fits_i16 (z : Z) : bool := (-32768 <=? z) && (z <=? 32767).

(** The loops of [validate], one list and then all of them from slot [owner] on. *)
Fixpoint ignored_validate (owner : nat) (l : list Z) : result E unit :=
  match l with
  | [] => Ok tt
  | object :: l => if negb (fits_i16 object) then Err (IgnoredObjectOutOfRange owner object) else ignored_validate owner l
  end.
Fixpoint ignores_validate (owner : nat) (ls : list (list Z)) : result E unit :=
  match ls with
  | [] => Ok tt
  | l :: ls => let? _ := ignored_validate owner l in ignores_validate (S owner) ls
  end.

Definition ignored_for_owner (a : ScenarioIgnoreOrdersAuthority) (owner : nat) : result E (list Z) :=
  let? _ := ignores_validate 0 (ignored_by_owner a) in
  ok_or (ignored_by_owner a !! owner) (ScenarioOwnerOutOfRange owner).

Fixpoint encode_ignored (owner : nat) (ls : list (list Z)) : result E bytes :=
  match ls with
  | [] => Ok []
  | l :: ls =>
      if MAX_DECODED_IGNORED_OBJECTS_PER_OWNER <? len l then Err (IgnoredObjectLimit owner (len l)) else
      let? n := (if len l <=? U32_MAX then Ok (len l) else Err (IgnoredObjectLimit owner (len l))) in
      let? out := encode_ignored (S owner) ls in
      Ok (to_le 4 n ++ concat (to_le 4 <$> l) ++ out)
  end.

Definition encode_scenario_ignores (a : ScenarioIgnoreOrdersAuthority) : result E bytes :=
  let? _ := ignores_validate 0 (ignored_by_owner a) in
  let? out := encode_ignored 0 (ignored_by_owner a) in
  Ok ([SCENARIO_IGNORES_PAYLOAD_VERSION; if ignore_orders a then 1 else 0] ++ out).

Definition read_object (owner : nat) : Reader E Z :=
  (object <~ i32_ ;
   if decide (fits_i16 object = false) then rd_fail (IgnoredObjectOutOfRange owner object) else rd_ret object)%reader.

(** The loop over the [slots] owners that are left. *)
Fixpoint read_ignored (owner slots : nat) : Reader E (list (list Z)) :=
  match slots with
  | O => rd_ret []
  | S slots =>
      (n <~ u32_ ;
       if decide (MAX_DECODED_IGNORED_OBJECTS_PER_OWNER < n) then rd_fail (IgnoredObjectLimit owner n) else
       l <~ rd_many (Z.to_nat n) (read_object owner) ; ls <~ read_ignored (S owner) slots ; rd_ret (l :: ls))%reader
  end.

Definition read_ignores : Reader E ScenarioIgnoreOrdersAuthority :=
  (version <~ u8_ ;
   if decide (version <> SCENARIO_IGNORES_PAYLOAD_VERSION) then rd_fail (WrongScenarioPayloadVersion version) else
   b <~ u8_ ;
   if decide (b <> 0 /\ b <> 1) then rd_fail (InvalidBoolean b) else
   ls <~ read_ignored 0 SCENARIO_OWNER_SLOTS ;
   rd_ret (mkIgnores 0 (bool_decide (b = 1)) ls))%reader.

Definition decode_scenario_ignores (bs : bytes) : result E ScenarioIgnoreOrdersAuthority :=
  let? '(a, at_) := read_ignores bs 0%nat in
  let? _ := rd_finish TrailingBytes bs at_ in
  Ok a.

(** [struct AirTypeRow] and [struct AirTypeAuthority]. *)
Record TypeRelations := mkRelations { biplane_nonstrict : bool; bomber_nonstrict : bool; helicopter_nonstrict : bool }.
Record AirTypeRow := mkRow { type_id : Z; domain : Z; object_masks : Z; unit_flags : Z; relations : TypeRelations }.
Record AirTypeAuthority := mkTypes { t_revision : Z; composition_digest : bytes; rows : gmap Z AirTypeRow }.

Definition TYPE_BIPLANE : Z := 287.
Definition TYPE_BOMBER : Z := 304.
Definition TYPE_HELICOPTER : Z := 310.
Definition AIR_DOMAIN : Z := 2.
Definition MISSILE_OBJECT_MASK : Z := 134217728.
Definition HELICOPTER_UNIT_FLAG : Z := 32.

Definition launch_common_eligible (r : AirTypeRow) : bool :=
  (domain r =? AIR_DOMAIN) && (Z.land (object_masks r) MISSILE_OBJECT_MASK =? 0).
Definition is_helicopter_runtime (r : AirTypeRow) : bool := negb (Z.land (unit_flags r) HELICOPTER_UNIT_FLAG =? 0).
Definition authoritative_relation (r : AirTypeRow) (queried : Z) : option bool :=
  if queried =? TYPE_BIPLANE then Some (biplane_nonstrict (relations r))
  else if queried =? TYPE_BOMBER then Some (bomber_nonstrict (relations r))
  else if queried =? TYPE_HELICOPTER then Some (helicopter_nonstrict (relations r))
  else None.

Fixpoint index_rows (indexed : gmap Z AirTypeRow) (rs : list AirTypeRow) : result E (gmap Z AirTypeRow) :=
  match rs with
  | [] => Ok indexed
  | r :: rs =>
      if type_id r <? 0 then Err (NegativeTypeId (type_id r)) else
      match indexed !! type_id r with
      | Some _ => Err (DuplicateTypeId (type_id r))
      | None => index_rows (<[type_id r := r]> indexed) rs
      end
  end.
Definition new_types (revision : Z) (digest : bytes) (rs : list AirTypeRow) : result E AirTypeAuthority :=
  if decide (digest = replicate 32 0) then Err MissingCompositionDigest else
  let? indexed := index_rows ∅ rs in
  Ok (mkTypes revision digest indexed).
Definition row (t : AirTypeAuthority) (ty : Z) : result E AirTypeRow := ok_or (rows t !! ty) (MissingTypeRow ty).

(** ** The leaf of a patrol *)

Definition array_wf (a : WalkedCoordArray) : Prop := is_i16 (increment a) /\ is_u8 (flags a) /\ Forall (in_s 32) (values a).
Definition air_wf (a : AirOrderPayload) : Prop := Forall (in_s 32) (air_words a).
Definition patrol_wf (p : AirPatrolOrderPayload) : Prop :=
  array_wf (x p) /\ array_wf (y p) /\ is_i32 (waypoint p) /\ air_wf (air p).

(** The bytes of an array, apart from what precedes them. *)
Definition array_bytes (a : WalkedCoordArray) : bytes :=
  to_le 4 (len (values a)) ++ to_le 2 (increment a) ++ [flags a] ++ concat (to_le 4 <$> values a).
Definition array_fits (a : WalkedCoordArray) : Prop := array_validate a = Ok tt /\ len (values a) <= MAX_DECODED_PATROL_POINTS.

Lemma max_points : MAX_DECODED_PATROL_POINTS = 1048576.
Proof. done. Qed.

Lemma write_coord_array_Ok out a out' : write_coord_array out a = Ok out' <-> array_fits a /\ out' = out ++ array_bytes a.
Proof.
  unfold write_coord_array, array_fits, array_bytes. rewrite max_points. destruct (array_validate a) as [[]|]; simpl; [|by split; [|intros [[? ?] ?]]].
  destruct (1048576 <? _) eqn:L; bool_hyps; [split; [done|lia]|].
  rewrite (proj2 (Z.leb_le (len (values a)) U32_MAX)) by (unfold U32_MAX; lia). simpl. split; [intros [= <-]|intros [_ ->]]; by repeat split.
Qed.

Lemma reads_array a : array_wf a -> array_fits a -> reads read_coord_array (array_bytes a) a.
Proof.
  intros (Hi & Hf & Hv) [Ha Hn]. rewrite max_points in Hn. unfold read_coord_array, array_bytes.
  assert (0 <= len (values a)) by (unfold len; lia). eapply rd_reads_bind; [apply reads_u32; ranges; lia|].
  rewrite decide_False by (rewrite max_points; lia). eapply rd_reads_bind; [by apply reads_i16|].
  apply (rd_reads_bind _ _ [_] _ _ _ (reads_u8 _ _)). unfold len. rewrite Nat2Z.id.
  eapply reads_bind_ret; [apply reads_many; eapply Forall_impl; [exact Hv|]; intros z; apply reads_i32|].
  destruct a. simpl in *. by rewrite Ha.
Qed.

Lemma spells_array : spells read_coord_array (fun o a => o = array_bytes a /\ array_fits a).
Proof.
  unfold read_coord_array. repeat spell_step. eapply spells_bind; [apply (spells_many _ (to_le 4) (in_s 32)), spells_i32|].
  intros o l (-> & Hl & _). destruct (array_validate _) as [[]|] eqn:V; [|apply spells_fail]. apply spells_ret.
  assert (Hn : len l = a) by (unfold len; ranges; lia). unfold array_bytes, array_fits. cbn [values increment flags].
  rewrite V, Hn, app_nil_r. split; [done|]. split; [done|lia].
Qed.

Definition leaf_bytes (p : AirPatrolOrderPayload) : bytes :=
  [DON_SAVE_AIR_PATROL_TAG; AIR_PATROL_PAYLOAD_VERSION] ++ array_bytes (x p) ++ array_bytes (y p) ++
  to_le 4 (waypoint p) ++ concat (to_le 4 <$> air_words (air p)).

Lemma encode_air_patrol_leaf_Ok p bs :
  encode_air_patrol_leaf p = Ok bs <-> validate p = Ok tt /\ array_fits (x p) /\ array_fits (y p) /\ bs = leaf_bytes p.
Proof.
  unfold encode_air_patrol_leaf, leaf_bytes, air_append_bytes. destruct (validate p) as [[]|e]; [|by split; [|intros [? _]]]. cbn [rbind].
  split.
  - intros H. apply rbind_Ok in H as (o1 & H1 & H). apply rbind_Ok in H as (o2 & H2 & [= <-]).
    apply write_coord_array_Ok in H1 as [F1 ->]. apply write_coord_array_Ok in H2 as [F2 ->].
    by rewrite <- !(assoc_L app).
  - intros (_ & F1 & F2 & ->). rewrite (proj2 (write_coord_array_Ok _ (x p) _) (conj F1 eq_refl)). cbn [rbind].
    rewrite (proj2 (write_coord_array_Ok _ (y p) _) (conj F2 eq_refl)). cbn [rbind]. by rewrite <- !(assoc_L app).
Qed.

Lemma reads_patrol p : patrol_wf p -> array_fits (x p) -> array_fits (y p) -> reads read_air_patrol (leaf_bytes p) p.
Proof.
  intros (Hx & Hy & Hw & Ha) Fx Fy. unfold read_air_patrol, leaf_bytes. destruct p as [ax ay w [o who alt turn od re]].
  unfold air_wf, air_words in *. cbn [x y waypoint air air_words home_o home_who cruising_alt sharp_turn old returning fmap list_fmap concat app] in *.
  rewrite app_nil_r. rewrite !Forall_cons in Ha. destruct Ha as (? & ? & ? & ? & ? & ? & _).
  do 2 (apply (rd_reads_bind _ _ [_] _ _ _ (reads_u8 _ _)); rewrite decide_False by tauto).
  do 2 (eapply rd_reads_bind; [by apply reads_array|]).
  do 6 (eapply rd_reads_bind; [by apply reads_i32|]). eapply reads_bind_ret; [by apply reads_i32|done].
Qed.

Lemma spells_patrol : spells read_air_patrol (fun o p => o = leaf_bytes p /\ array_fits (x p) /\ array_fits (y p)).
Proof.
  unfold read_air_patrol. do 4 spell_step. do 2 (eapply spells_bind; [apply spells_array|intros ? ? [-> ?]]). repeat spell_step.
  unfold leaf_bytes, air_words. cbn [x y waypoint air air_words home_o home_who cruising_alt sharp_turn old returning fmap list_fmap concat app].
  rewrite !app_nil_r. repeat match goal with H : ~ (_ <> _) |- _ => apply dec_stable in H; subst end. done.
Qed.

(** The AIR_PATROL leaf is exact in both directions. *)
Theorem air_patrol_leaf_codec :
  (forall p bs, patrol_wf p -> encode_air_patrol_leaf p = Ok bs -> decode_air_patrol_leaf bs = Ok p) /\
  (forall bs p, bytes_ok bs -> decode_air_patrol_leaf bs = Ok p -> encode_air_patrol_leaf p = Ok bs).
Proof.
  split.
  - intros p bs Hwf (Hv & Fx & Fy & ->)%encode_air_patrol_leaf_Ok. unfold decode_air_patrol_leaf.
    rewrite (reads_all _ _ _ (reads_patrol _ Hwf Fx Fy)). cbn [rbind]. rewrite finish_all. cbn [rbind]. by rewrite Hv.
  - intros bs p Hb H. unfold decode_air_patrol_leaf in H. apply rbind_Ok in H as ([q at_] & E1 & H).
    apply rbind_Ok in H as ([] & E2 & H). apply rbind_Ok in H as ([] & Hv & [= <-]).
    destruct (spells_all _ _ _ _ _ _ spells_patrol Hb E1 E2) as (-> & Fx & Fy). by apply encode_air_patrol_leaf_Ok.
Qed.

(** ** The scenario's lists *)

Definition list_fits (l : list Z) : Prop := len l <= MAX_DECODED_IGNORED_OBJECTS_PER_OWNER /\ Forall (fun z => fits_i16 z = true) l.
Definition list_bytes (l : list Z) : bytes := to_le 4 (len l) ++ concat (to_le 4 <$> l).

Lemma ignored_validate_Ok owner l : ignored_validate owner l = Ok tt <-> Forall (fun z => fits_i16 z = true) l.
Proof.
  induction l as [|z l IH]; [by split|]. rewrite Forall_cons. cbn [ignored_validate]. destruct (fits_i16 z); simpl; [rewrite IH; tauto|].
  split; [done|intros [? _]; done].
Qed.

Lemma encode_ignored_Ok owner ls bs :
  (ignores_validate owner ls = Ok tt /\ encode_ignored owner ls = Ok bs) <-> (Forall list_fits ls /\ bs = concat (list_bytes <$> ls)).
Proof.
  revert owner bs. induction ls as [|l ls IH]; intros owner bs.
  { simpl. split; [intros [_ [= <-]]|intros [_ ->]]; done. }
  rewrite Forall_cons. cbn [ignores_validate encode_ignored fmap list_fmap concat]. unfold list_fits at 1, list_bytes at 1.
  change MAX_DECODED_IGNORED_OBJECTS_PER_OWNER with 1048576. rewrite <- (ignored_validate_Ok owner).
  destruct (ignored_validate owner l) as [[]|e]; [|split; [intros [? _]; done|intros [[[_ ?] _] _]; done]]. cbn [rbind].
  destruct (1048576 <? len l) eqn:L; bool_hyps; [split; [intros [_ ?]; done|intros [[[? _] _] _]; lia]|].
  rewrite (proj2 (Z.leb_le (len l) U32_MAX)) by (unfold U32_MAX; lia). cbn [rbind]. rewrite <- (assoc_L app). split.
  - intros [H1 H2]. apply rbind_Ok in H2 as (out & H2 & [= <-]). destruct (proj1 (IH (S owner) out) (conj H1 H2)) as [? ->]. done.
  - intros [[_ H] ->]. destruct (proj2 (IH (S owner) _) (conj H eq_refl)) as [-> ->]. done.
Qed.

Lemma reads_object owner z : fits_i16 z = true -> reads (read_object owner) (to_le 4 z) z.
Proof.
  intros H. unfold read_object. eapply reads_bind_ret; [apply reads_i32; unfold fits_i16 in H; bool_hyps; ranges; lia|].
  by rewrite decide_False by (rewrite H; done).
Qed.

Lemma reads_ignored owner ls : Forall list_fits ls -> reads (read_ignored owner (length ls)) (concat (list_bytes <$> ls)) ls.
Proof.
  intros H. revert owner. induction H as [|l ls [Hn Hl] _ IH]; intros owner; [apply reads_ret|].
  change MAX_DECODED_IGNORED_OBJECTS_PER_OWNER with 1048576 in Hn. assert (0 <= len l) by (unfold len; lia).
  cbn [length read_ignored fmap list_fmap concat]. unfold list_bytes at 1. rewrite <- (assoc_L app).
  eapply rd_reads_bind; [apply reads_u32; ranges; lia|]. rewrite decide_False by (change MAX_DECODED_IGNORED_OBJECTS_PER_OWNER with 1048576; lia).
  unfold len. rewrite Nat2Z.id. eapply rd_reads_bind; [|by eapply reads_bind_ret].
  apply (reads_many _ (to_le 4)). eapply Forall_impl; [exact Hl|]. intros z. apply reads_object.
Qed.

Lemma spells_object owner : spells (read_object owner) (fun o z => o = to_le 4 z /\ fits_i16 z = true).
Proof.
  unfold read_object. repeat spell_step. rewrite app_nil_r. split; [done|]. by destruct (fits_i16 _).
Qed.

Lemma spells_ignored slots owner :
  spells (read_ignored owner slots) (fun o ls => o = concat (list_bytes <$> ls) /\ length ls = slots /\ Forall list_fits ls).
Proof.
  revert owner. induction slots as [|slots IH]; intros owner; [by apply spells_ret|]. cbn [read_ignored]. do 2 spell_step.
  eapply spells_bind; [apply (spells_many _ (to_le 4) (fun z => fits_i16 z = true)), spells_object|]. intros o l (-> & Hl & Fl).
  eapply spells_bind; [apply IH|]. intros o ls (-> & Hls & Fls). spell_step.
  assert (Hn : len l = a) by (unfold len; ranges; lia). cbn [fmap list_fmap concat length]. unfold list_bytes at 2. rewrite Hn, app_nil_r, (assoc_L app).
  split; [done|]. split; [by f_equal|]. constructor; [|done]. split; [lia|done].
Qed.

Lemma reads_ignores a :
  length (ignored_by_owner a) = SCENARIO_OWNER_SLOTS -> Forall list_fits (ignored_by_owner a) ->
  reads read_ignores (SCENARIO_IGNORES_PAYLOAD_VERSION :: (if ignore_orders a then 1 else 0) :: concat (list_bytes <$> ignored_by_owner a))
    (mkIgnores 0 (ignore_orders a) (ignored_by_owner a)).
Proof.
  intros Hl Hf. unfold read_ignores. apply (rd_reads_bind _ _ [_] _ _ _ (reads_u8 _ _)). rewrite decide_False by tauto.
  apply (rd_reads_bind _ _ [_] _ _ _ (reads_u8 _ _)). rewrite decide_False by (destruct (ignore_orders a); lia).
  eapply reads_bind_ret; [rewrite <- Hl; by apply reads_ignored|]. by destruct (ignore_orders a).
Qed.

(** The scenario's lists come back with their order and duplicates, the
    revision is not part of the image, and an accepted image is the one that
    would be written. *)
Theorem scenario_ignores_codec :
  (forall a bs, length (ignored_by_owner a) = SCENARIO_OWNER_SLOTS -> encode_scenario_ignores a = Ok bs ->
     decode_scenario_ignores bs = Ok (mkIgnores 0 (ignore_orders a) (ignored_by_owner a))) /\
  (forall bs a, bytes_ok bs -> decode_scenario_ignores bs = Ok a ->
     length (ignored_by_owner a) = SCENARIO_OWNER_SLOTS /\ encode_scenario_ignores a = Ok bs).
Proof.
  split.
  - intros a bs Hl H. unfold encode_scenario_ignores in H. apply rbind_Ok in H as ([] & H1 & H). apply rbind_Ok in H as (out & H2 & [= <-]).
    destruct (proj1 (encode_ignored_Ok 0 _ out) (conj H1 H2)) as [Hf ->]. unfold decode_scenario_ignores.
    rewrite (reads_all _ _ _ (reads_ignores _ Hl Hf)). cbn [rbind]. by rewrite finish_all.
  - intros bs a Hb H. unfold decode_scenario_ignores in H. apply rbind_Ok in H as ([q at_] & E1 & H).
    apply rbind_Ok in H as ([] & E2 & [= <-]). revert E1. intros E1.
    refine (spells_all _ _ (fun bs a => _ /\ encode_scenario_ignores a = Ok bs) _ _ _ _ Hb E1 E2).
    unfold read_ignores. do 4 spell_step. eapply spells_bind; [apply spells_ignored|]. intros o ls (-> & Hl & Hf). spell_step.
    split; [done|]. unfold encode_scenario_ignores. cbn [ignored_by_owner ignore_orders].
    destruct (proj2 (encode_ignored_Ok 0 ls _) (conj Hf eq_refl)) as [-> ->]. cbn [rbind]. rewrite app_nil_r. f_equal.
    match goal with H : ~ (_ <> _) |- _ => apply dec_stable in H; subst end. cbn [app]. do 2 f_equal.
    case_bool_decide; lia.
Qed.

End Air.

(** ** The economy and containment orders *)

Module Economy.

Definition DON_SAVE_V13 : Z := 13.
Definition ECONOMY_PAYLOAD_VERSION : Z := 1.
Definition RETAIL_OWNER_SLOTS : Z := 10.
Definition GATHER_SUFFIX_BYTES : nat := 20.
Definition CAST_SUFFIX_BYTES : nat := 8.
Definition TRADE_SUFFIX_BYTES : nat := 18.
Definition TARGET_ORDER_WALKED_BYTES : nat := 11.
Definition GATHER_ORDER_WALKED_BYTES : nat := 31.
Definition CAST_ORDER_WALKED_BYTES : nat := 27.
Definition TRADE_ORDER_WALKED_BYTES : nat := 29.
Definition ORDER_LIST_NODE_PREFIX_BYTES : nat := 5.

Inductive EconomyPayloadTag := TagNone | TagGather | TagCastSpell | TagTradeRoute.

#[export] Instance EconomyPayloadTag_eq_dec : EqDecision EconomyPayloadTag.
Proof. solve_decision. Defined.

(** [self as u8]. *)
Definition tag_raw (t : EconomyPayloadTag) : Z :=
  match t with TagNone => 0 | TagGather => 2 | TagCastSpell => 3 | TagTradeRoute => 4 end.
Definition tag_from_raw (raw : Z) : option EconomyPayloadTag :=
  if raw =? 0 then Some TagNone else if raw =? 2 then Some TagGather
  else if raw =? 3 then Some TagCastSpell else if raw =? 4 then Some TagTradeRoute else None.
Definition tag_version (t : EconomyPayloadTag) : Z := match t with TagNone => 0 | _ => ECONOMY_PAYLOAD_VERSION end.

Record StableTargetIdentity := mkStable { o : Z; who : Z; uid : Z; handle : option Handle }.

Definition NONE : StableTargetIdentity := mkStable (-1) (-1) U16_MAX None.
Definition live (o who uid : Z) (h : Handle) : StableTargetIdentity := mkStable o who uid (Some h).
Definition banded (o who uid : Z) : StableTargetIdentity := mkStable o who uid None.
Definition is_live (t : StableTargetIdentity) : bool := (0 <=? o t) && (0 <=? who t).

Record GatherOrderPayload := mkGather {
  tx : Z; ty : Z; build_type : Z; wait : Z; goto_build : Z; non_flat_gather : Z; dist_mod : Z; been_there : Z }.
Record CastOrderPayload := mkCast { paid : Z; spell : Z }.
Record TradeOrderPayload := mkTrade { second : StableTargetIdentity; started : Z; loaded : Z }.

Inductive EconomyOrderPayload :=
| TargetOnly
| GatherPayload (p : GatherOrderPayload)
| CastSpellPayload (p : CastOrderPayload)
| TradeRoutePayload (p : TradeOrderPayload).

Definition payload_tag (p : EconomyOrderPayload) : EconomyPayloadTag :=
  match p with
  | TargetOnly => TagNone | GatherPayload _ => TagGather | CastSpellPayload _ => TagCastSpell | TradeRoutePayload _ => TagTradeRoute
  end.

Record EconomyOrderHeader := mkHeader { kind : OrderIndex; h_flags : Z; hx : Z; hy : Z; primary : StableTargetIdentity }.
Record EconomyOrderNode := mkNode { metric : Z; header : EconomyOrderHeader; payload : EconomyOrderPayload }.

Inductive EconomyOrderAuthorityError :=
| UnsupportedDoNSaveVersion (v : Z)
| UnsupportedOrderKind (k : OrderIndex)
| PayloadDoesNotMatchKind (k : OrderIndex) (t : EconomyPayloadTag)
| IncoherentTargetIdentity
| HeaderTargetOutOfRange (o who : Z)
| MissingRequiredPrimaryTarget (k : OrderIndex)
| UnknownPayloadTag (raw : Z)
| UnknownPayloadVersion (t : EconomyPayloadTag) (version : Z)
| ForeignPayloadTag (k : OrderIndex) (expected actual : EconomyPayloadTag)
| InvalidHandlePresence (raw : Z)
| WrongLeafSize (expected actual : nat).

Abbreviation E := EconomyOrderAuthorityError.

#[export] Instance StableTargetIdentity_eq_dec : EqDecision StableTargetIdentity.
Proof. solve_decision. Defined.
#[export] Instance GatherOrderPayload_eq_dec : EqDecision GatherOrderPayload.
Proof. solve_decision. Defined.
#[export] Instance CastOrderPayload_eq_dec : EqDecision CastOrderPayload.
Proof. solve_decision. Defined.
#[export] Instance TradeOrderPayload_eq_dec : EqDecision TradeOrderPayload.
Proof. solve_decision. Defined.
#[export] Instance EconomyOrderPayload_eq_dec : EqDecision EconomyOrderPayload.
Proof. solve_decision. Defined.

Definition identity_validate (t : StableTargetIdentity) : result E unit :=
  match 0 <=? o t, 0 <=? who t, handle t with
  | true, true, Some _ => Ok tt
  | true, true, None =>
      if ((2000 <=? o t) && (o t <=? 32767)) && ((0 <=? who t) && (who t <? RETAIL_OWNER_SLOTS))
      then Ok tt else Err IncoherentTargetIdentity
  | false, false, None =>
      if (o t =? -1) && (who t =? -1) && (uid t =? U16_MAX) then Ok tt else Err IncoherentTargetIdentity
  | _, _, _ => Err IncoherentTargetIdentity
  end.

Definition expected_payload_tag (k : OrderIndex) : option EconomyPayloadTag :=
  match k with
  | BoardShip | AwaitBoard | Repair => Some TagNone
  | Gather => Some TagGather
  | CastSpell => Some TagCastSpell
  | TradeRoute => Some TagTradeRoute
  | _ => None
  end.

Definition needs_primary (k : OrderIndex) : bool :=
  match k with BoardShip | AwaitBoard | Repair | Gather | TradeRoute => true | _ => false end.

Definition node_validate (n : EconomyOrderNode) : result E unit :=
  let k := kind (header n) in
  match expected_payload_tag k with
  | None => Err (UnsupportedOrderKind k)
  | Some expected =>
      let actual := payload_tag (payload n) in
      if decide (actual <> expected) then Err (PayloadDoesNotMatchKind k actual) else
      let? _ := identity_validate (primary (header n)) in
      if needs_primary k && negb (is_live (primary (header n))) then Err (MissingRequiredPrimaryTarget k) else
      match payload n with TradeRoutePayload p => identity_validate (second p) | _ => Ok tt end
  end.

Definition retail_walked_bytes (n : EconomyOrderNode) : nat :=
  match payload n with
  | TargetOnly => TARGET_ORDER_WALKED_BYTES
  | GatherPayload _ => GATHER_ORDER_WALKED_BYTES
  | CastSpellPayload _ => CAST_ORDER_WALKED_BYTES
  | TradeRoutePayload _ => TRADE_ORDER_WALKED_BYTES
  end.

Definition push_primary_identity (out : bytes) (t : StableTargetIdentity) : bytes :=
  out ++ to_le 4 (o t) ++ to_le 4 (who t) ++ to_le 2 (uid t).
Definition push_gather_suffix (out : bytes) (p : GatherOrderPayload) : bytes :=
  out ++ to_le 4 (tx p) ++ to_le 4 (ty p) ++ to_le 4 (build_type p) ++ to_le 4 (wait p) ++
  [goto_build p; non_flat_gather p; dist_mod p; been_there p].
Definition push_trade_suffix (out : bytes) (p : TradeOrderPayload) : bytes :=
  out ++ to_le 4 (o (second p)) ++ to_le 4 (who (second p)) ++ to_le 4 (started p) ++ to_le 4 (loaded p) ++
  to_le 2 (uid (second p)).

Definition retail_walk_image (n : EconomyOrderNode) : result E bytes :=
  let? _ := node_validate n in
  let out := push_primary_identity [h_flags (header n)] (primary (header n)) in
  Ok (match payload n with
      | TargetOnly => out
      | GatherPayload p => push_gather_suffix out p
      | CastSpellPayload p => out ++ to_le 4 (hx (header n)) ++ to_le 4 (hy (header n)) ++ to_le 4 (paid p) ++ to_le 4 (spell p)
      | TradeRoutePayload p => push_trade_suffix out p
      end).

Definition retail_node_image (n : EconomyOrderNode) : result E bytes :=
  let? walk := retail_walk_image n in
  Ok (to_le 4 (Z.of_nat (OrderIndex_index (kind (header n)))) ++ [metric n] ++ walk).

Definition require_v13 (v : Z) : result E unit := if DON_SAVE_V13 <=? v then Ok tt else Err (UnsupportedDoNSaveVersion v).

Record EncodedEconomyOrderLeaf := mkLeaf { l_metric : Z; typed_payload : bytes }.

Definition put_handle (h : option Handle) : bytes :=
  match h with None => [0] | Some h => 1 :: to_le 4 (id h) ++ to_le 4 (generation h) end.

Definition encode_v13_leaf (format_version : Z) (n : EconomyOrderNode) : result E EncodedEconomyOrderLeaf :=
  let? _ := require_v13 format_version in
  let? _ := node_validate n in
  let tag := payload_tag (payload n) in
  let out := [tag_raw tag; tag_version tag] in
  Ok (mkLeaf (metric n)
       (match payload n with
        | TargetOnly => out
        | GatherPayload p => push_gather_suffix out p
        | CastSpellPayload p => out ++ to_le 4 (paid p) ++ to_le 4 (spell p)
        | TradeRoutePayload p => push_trade_suffix out p ++ put_handle (handle (second p))
        end)).

(** [read_i32], [read_u16] and [read_u32] of a leaf whose size was checked. *)
Definition read_i32 (bs : bytes) (at_ : nat) : Z := i32le bs at_.
Definition read_u16 (bs : bytes) (at_ : nat) : Z := u16le bs at_.
Definition read_u32 (bs : bytes) (at_ : nat) : Z := u32le bs at_.

Definition require_size (bs : bytes) (expected : nat) : result E unit :=
  if decide (length bs = expected) then Ok tt else Err (WrongLeafSize expected (length bs)).

Definition decode_payload (tag : EconomyPayloadTag) (bs : bytes) : result E EconomyOrderPayload :=
  match tag with
  | TagNone => let? _ := require_size bs 2 in Ok TargetOnly
  | TagGather =>
      let? _ := require_size bs (2 + GATHER_SUFFIX_BYTES) in
      Ok (GatherPayload (mkGather (read_i32 bs 2) (read_i32 bs 6) (read_i32 bs 10) (read_i32 bs 14)
            (byte_at bs 18) (byte_at bs 19) (byte_at bs 20) (byte_at bs 21)))
  | TagCastSpell =>
      let? _ := require_size bs (2 + CAST_SUFFIX_BYTES) in
      Ok (CastSpellPayload (mkCast (read_i32 bs 2) (read_i32 bs 6)))
  | TagTradeRoute =>
      let FIXED := (2 + TRADE_SUFFIX_BYTES + 1)%nat in
      if decide (length bs < FIXED)%nat then Err (WrongLeafSize FIXED (length bs)) else
      let present := byte_at bs (2 + TRADE_SUFFIX_BYTES) in
      let? '(expected_size, h) :=
        (if present =? 0 then Ok (FIXED, None)
         else if present =? 1 then
           let expected := (FIXED + 8)%nat in
           if decide (length bs < expected)%nat then Err (WrongLeafSize expected (length bs)) else
           Ok (expected, Some (mkHandle (read_u32 bs FIXED) (read_u32 bs (FIXED + 4))))
         else Err (InvalidHandlePresence present)) in
      let? _ := require_size bs expected_size in
      Ok (TradeRoutePayload (mkTrade (mkStable (read_i32 bs 2) (read_i32 bs 6) (read_u16 bs 18) h) (read_i32 bs 10) (read_i32 bs 14)))
  end.

Definition decode_v13_leaf (format_version metric : Z) (header : EconomyOrderHeader) (bs : bytes) : result E EconomyOrderNode :=
  let? _ := require_v13 format_version in
  if decide (length bs < 2)%nat then Err (WrongLeafSize 2 (length bs)) else
  let? tag := ok_or (tag_from_raw (byte_at bs 0)) (UnknownPayloadTag (byte_at bs 0)) in
  match expected_payload_tag (kind header) with
  | None => Err (UnsupportedOrderKind (kind header))
  | Some expected =>
      if decide (tag <> expected) then Err (ForeignPayloadTag (kind header) expected tag) else
      if decide (byte_at bs 1 <> tag_version tag) then Err (UnknownPayloadVersion tag (byte_at bs 1)) else
      let? p := decode_payload tag bs in
      let n := mkNode metric header p in
      let? _ := node_validate n in
      Ok n
  end.

Definition identity_wf (t : StableTargetIdentity) : Prop :=
  is_i32 (o t) /\ is_i32 (who t) /\ is_u16 (uid t) /\ (forall h, handle t = Some h -> Handle_wf h).

Definition payload_wf (p : EconomyOrderPayload) : Prop :=
  match p with
  | TargetOnly => True
  | GatherPayload p => is_i32 (tx p) /\ is_i32 (ty p) /\ is_i32 (build_type p) /\ is_i32 (wait p)
  | CastSpellPayload p => is_i32 (paid p) /\ is_i32 (spell p)
  | TradeRoutePayload p => identity_wf (second p) /\ is_i32 (started p) /\ is_i32 (loaded p)
  end.

(** The typed payload of a leaf. *)
Definition leaf_of (p : EconomyOrderPayload) : bytes :=
  let out := [tag_raw (payload_tag p); tag_version (payload_tag p)] in
  match p with
  | TargetOnly => out
  | GatherPayload p => push_gather_suffix out p
  | CastSpellPayload p => out ++ to_le 4 (paid p) ++ to_le 4 (spell p)
  | TradeRoutePayload p => push_trade_suffix out p ++ put_handle (handle (second p))
  end.

Lemma tag_from_raw_raw t : tag_from_raw (tag_raw t) = Some t.
Proof. by destruct t. Qed.

Lemma tag_raw_from_raw z t : tag_from_raw z = Some t -> z = tag_raw t.
Proof. unfold tag_from_raw. intros. repeat case_match; bool_hyps; by simplify_eq. Qed.

Lemma signed4 z : is_i32 z -> i32 (from_le (to_le 4 z)) = z.
Proof. intros. apply (from_le_signed 4 32); (done || lia). Qed.

Lemma to_le_split4 a b c d : bytes_ok [a; b; c; d] -> to_le 4 (i32 (from_le [a; b; c; d])) = [a; b; c; d].
Proof. intros. apply (to_le_signed 4 32); (done || lia). Qed.

Lemma to_le4_split a b c d : bytes_ok [a; b; c; d] -> to_le 4 (from_le [a; b; c; d]) = [a; b; c; d].
Proof. apply (to_le_from_le [a; b; c; d]). Qed.
Lemma to_le2_split a b : bytes_ok [a; b] -> to_le 2 (from_le [a; b]) = [a; b].
Proof. apply (to_le_from_le [a; b]). Qed.

Lemma to_le4_shape z : exists a b c d, to_le 4 z = [a; b; c; d].
Proof. by do 4 eexists. Qed.
Lemma to_le2_shape z : exists a b, to_le 2 z = [a; b].
Proof. by do 2 eexists. Qed.

(** Name the bytes of a word that was written. *)
Ltac split_word z :=
  let E := fresh "Eword" in destruct (to_le4_shape z) as (? & ? & ? & ? & E);
  let S := fresh "Sword" in
  first [assert (S : i32 (from_le (to_le 4 z)) = z) by (by apply signed4) | assert (S : from_le (to_le 4 z) = z) by (by apply (from_le_to_le_id 4 32))];
  rewrite E in *.

(** Evaluate the reads of a leaf whose bytes are named. *)
Ltac read_leaf :=
  unfold decode_payload, leaf_of, push_gather_suffix, push_trade_suffix, put_handle, require_size, read_i32, read_u16, read_u32, i32le, le_at, byte_at;
  cbn [payload_tag tag_raw tag_version tx ty build_type wait goto_build non_flat_gather dist_mod been_there paid spell second started loaded
       o who uid handle id generation].

Ltac trade_reads :=
  change TRADE_SUFFIX_BYTES with 18%nat; cbn [Nat.add app take drop nth];
  repeat (first [rewrite decide_True by (simpl; lia) | rewrite decide_False by (simpl; lia)]; cbn [Z.eqb Pos.eqb rbind]).

Lemma decode_leaf_of p : payload_wf p -> decode_payload (payload_tag p) (leaf_of p) = Ok p.
Proof.
  destruct p as [|[a b c d e f g h]|[a b]|[[a b u [[i g]|]] c d]]; cbn [payload_wf tx ty build_type wait paid spell second started loaded];
    intros Hwf; [done|..]; destruct_and?; read_leaf.
  - split_word a. split_word b. split_word c. split_word d.
    rewrite decide_True by done. cbn [rbind app take drop nth]. congruence.
  - split_word a. split_word b. rewrite decide_True by done. cbn [rbind app take drop nth]. congruence.
  - destruct H as (? & ? & Hu & Hh); cbn [o who uid handle] in *. destruct (Hh _ eq_refl) as [Hi Hg]; cbn [id generation] in *. clear Hh.
    destruct (to_le2_shape u) as (? & ? & Eu). assert (Su : from_le (to_le 2 u) = u) by (by apply (from_le_to_le_id 2 16)). rewrite Eu in *.
    split_word a. split_word b. split_word c. split_word d. split_word i. split_word g.
    trade_reads. congruence.
  - destruct H as (? & ? & Hu & _); cbn [o who uid handle] in *.
    destruct (to_le2_shape u) as (? & ? & Eu). assert (Su : from_le (to_le 2 u) = u) by (by apply (from_le_to_le_id 2 16)). rewrite Eu in *.
    split_word a. split_word b. split_word c. split_word d. trade_reads. congruence.
Qed.

(** Name the bytes of a leaf of a known length. *)
Ltac split_bytes bs :=
  repeat (destruct bs as [|? bs]; [done|]); destruct bs; [|done].

Ltac spell_bytes Hb :=
  unfold bytes_ok in Hb; rewrite !Forall_cons in Hb; destruct_and?;
  rewrite ?to_le_split4 by (repeat (apply Forall_cons_2; [assumption|]); apply Forall_nil_2).

Lemma leaf_of_decode tag bs p :
  bytes_ok bs -> byte_at bs 0 = tag_raw tag -> byte_at bs 1 = tag_version tag -> decode_payload tag bs = Ok p ->
  payload_tag p = tag /\ leaf_of p = bs.
Proof.
  intros Hb H0 H1 H. destruct tag; unfold decode_payload, require_size in H.
  - case_decide as L; [|done]. injection H as <-. split; [done|].
    do 2 (destruct bs as [|? bs]; [done|]). destruct bs; [|done]. by cbn [byte_at nth] in H0, H1; subst.
  - case_decide as L; [|done]. injection H as <-. split; [done|]. change (2 + GATHER_SUFFIX_BYTES)%nat with 22%nat in L.
    do 22 (destruct bs as [|? bs]; [done|]). destruct bs; [|done]. cbn [byte_at nth] in H0, H1. subst.
    unfold leaf_of, push_gather_suffix, read_i32, i32le, le_at, byte_at.
    cbn [payload_tag tag_raw tag_version tx ty build_type wait goto_build non_flat_gather dist_mod been_there take drop nth].
    by spell_bytes Hb.
  - case_decide as L; [|done]. injection H as <-. split; [done|]. change (2 + CAST_SUFFIX_BYTES)%nat with 10%nat in L.
    do 10 (destruct bs as [|? bs]; [done|]). destruct bs; [|done]. cbn [byte_at nth] in H0, H1. subst.
    unfold leaf_of, read_i32, i32le, le_at. cbn [payload_tag tag_raw tag_version paid spell take drop]. by spell_bytes Hb.
  - change (2 + TRADE_SUFFIX_BYTES + 1)%nat with 21%nat in H. cbv zeta in H. case_decide as L; [done|].
    do 21 (destruct bs as [|? bs]; [simpl in L; lia|]). cbn [byte_at nth] in H0, H1. subst. change (2 + TRADE_SUFFIX_BYTES)%nat with 20%nat in H.
    unfold byte_at in H. cbn [nth] in H. apply rbind_Ok in H as ([sz h] & Hh & H). case_decide as Ls; [|done]. injection H as <-.
    split; [done|]. unfold leaf_of, push_trade_suffix, read_i32, read_u16, i32le, le_at. 
    match type of Hh with context [?p =? 0] => destruct (p =? 0) eqn:P0; [|destruct (p =? 1) eqn:P1; [|done]] end.
    + injection Hh as Hs <-. subst sz. destruct bs; [|done]. bool_hyps. subst.
      cbn [payload_tag tag_raw tag_version second started loaded o who uid handle take drop put_handle].
      spell_bytes Hb. rewrite to_le2_split by (repeat (apply Forall_cons_2; [assumption|]); apply Forall_nil_2). done.
    + cbn [Nat.add] in Hh. case_decide as L2; [done|]. injection Hh as Hs <-. subst sz. do 8 (destruct bs as [|? bs]; [simpl in L2; lia|]).
      destruct bs; [|done]. bool_hyps. subst. unfold read_u32, le_at.
      cbn [payload_tag tag_raw tag_version second started loaded o who uid handle take drop put_handle id generation].
      spell_bytes Hb. rewrite to_le2_split, !to_le4_split by (repeat (apply Forall_cons_2; [assumption|]); apply Forall_nil_2). done.
Qed.

Definition node_wf (n : EconomyOrderNode) : Prop := payload_wf (payload n).

Lemma node_tag n : node_validate n = Ok tt -> expected_payload_tag (kind (header n)) = Some (payload_tag (payload n)).
Proof. unfold node_validate. intros H. destruct (expected_payload_tag _) as [e|]; [|done]. case_decide as D; [done|]. by rewrite D. Qed.

(** (C25) The version 13 leaf of an economy order is exact in both directions: it
    decodes, against the header it was written with, to the node, and a leaf
    that is accepted is the one the node would write. *)
Theorem economy_leaf_codec :
  (forall v n leaf, node_wf n -> encode_v13_leaf v n = Ok leaf -> decode_v13_leaf v (l_metric leaf) (header n) (typed_payload leaf) = Ok n) /\
  (forall v m h bs n, bytes_ok bs -> decode_v13_leaf v m h bs = Ok n ->
     header n = h /\ encode_v13_leaf v n = Ok (mkLeaf m bs)).
Proof.
  split.
  - intros v n leaf Hwf H. unfold encode_v13_leaf in H. apply rbind_Ok in H as ([] & Hv & H). apply rbind_Ok in H as ([] & Hn & H).
    change (@Ok E _ (mkLeaf (metric n) (leaf_of (payload n))) = Ok leaf) in H. injection H as <-. unfold decode_v13_leaf. rewrite Hv. cbn [rbind l_metric typed_payload].
    assert (Hs : exists l, leaf_of (payload n) = tag_raw (payload_tag (payload n)) :: tag_version (payload_tag (payload n)) :: l)
      by (destruct (payload n) as [| | |[[? ? ? []] ? ?]]; by eexists).
    pose proof (decode_leaf_of _ Hwf) as Hd. destruct Hs as [l El]. rewrite El in *. rewrite decide_False by (simpl; lia).
    change (byte_at (?a :: _) 0) with a. change (byte_at (_ :: ?a :: _) 1) with a. rewrite tag_from_raw_raw, (node_tag _ Hn). cbn [ok_or rbind].
    rewrite !decide_False by tauto. rewrite Hd. cbn [rbind]. replace (mkNode (metric n) (header n) (payload n)) with n by by destruct n.
    by rewrite Hn.
  - intros v m h bs n Hb H. unfold decode_v13_leaf in H. apply rbind_Ok in H as ([] & Hv & H). case_decide as L; [done|].
    apply rbind_Ok in H as (tag & Ht & H). destruct (tag_from_raw _) as [t|] eqn:Et; [|done]. injection Ht as ->. apply tag_raw_from_raw in Et.
    destruct (expected_payload_tag _) as [e|]; [|done]. case_decide as D1; [done|]. case_decide as D2; [done|]. subst e.
    apply rbind_Ok in H as (p & Hp & H). apply rbind_Ok in H as ([] & Hn & H). injection H as <-.
    destruct (leaf_of_decode _ _ _ Hb Et D2 Hp) as [Hpt <-]. split; [done|]. unfold encode_v13_leaf. rewrite Hv. cbn [rbind]. by rewrite Hn.
Qed.

(** A trade route between two buildings, the second one with its handle. *)
Definition route : EconomyOrderNode :=
  mkNode 3 (mkHeader TradeRoute 0 100 200 (banded 2001 1 7)) (TradeRoutePayload (mkTrade (live 2005 2 9 (mkHandle 12 3)) 1 (-1))).

Lemma economy_leaf_codec_witness :
  exists leaf, encode_v13_leaf 13 route = Ok leaf /\ decode_v13_leaf 13 (l_metric leaf) (header route) (typed_payload leaf) = Ok route.
Proof.
  assert (W : node_wf route).
  { split; [|split; split; vm_compute; congruence]. split; [split; vm_compute; congruence|]. split; [split; vm_compute; congruence|].
    split; [split; vm_compute; congruence|]. intros h [= <-]. split; split; vm_compute; congruence. }
  destruct (encode_v13_leaf 13 route) as [leaf|e] eqn:E; [|vm_compute in E; discriminate E]. exists leaf. split; [reflexivity|].
  exact (proj1 economy_leaf_codec 13 route leaf W E).
Defined.

(** The retail images have the sizes the walk states. *)
Lemma walk_image_length n bs : retail_walk_image n = Ok bs -> length bs = retail_walked_bytes n.
Proof.
  unfold retail_walk_image. intros H. apply rbind_Ok in H as ([] & _ & H). injection H as <-.
  unfold retail_walked_bytes, push_primary_identity, push_gather_suffix, push_trade_suffix. destruct (payload n); autorewrite with don; done.
Qed.

End Economy.
