(* ===== verification/SimOrder.v ===== *)
(** * Unit orders

    [crates/don-sim/src/order.rs]: the flattened order record with its typed
    payloads, the constructors, the fixed retail image of a movement order,
    the per-unit order list, and the dispatch table of [Unit::do_job] with its
    coverage counters.  The payloads the [systems] modules own are those of
    [SimPayload].  [covered_fraction] and [hot] (a float and a report) and the
    strings of the tables are not modelled. *)

From stdpp Require Import strings.
From S2P Require Import Prelude SimPayload.

Definition NUM_UNIT_ORDERS : nat := 28.

Definition ORDER_PATHED : Z := 1.
Definition ORDER_FLEEING : Z := 2.
Definition ORDER_GROUP : Z := 4.
Definition ORDER_DEFENSIVE : Z := 8.
Definition ORDER_MORE_WORK : Z := 16.
Definition ORDER_DISEMBARK : Z := 32.
Definition ORDER_PUSHED : Z := 64.
Definition ORDER_FACING_TARGET : Z := 128.

(** ** Payloads declared in [order.rs] *)

Record FollowOrderPayload := mkFollow { fo_ox : Z; fo_whom : Z; fo_uid : Z; fo_oxx : Z; fo_whose : Z; fo_uid2 : Z }.

Inductive SpecialAnimType := Enter | Exit | Unit_.

Definition SpecialAnimType_from_raw (v : Z) : option SpecialAnimType :=
  if v =? 0 then Some Enter else if v =? 1 then Some Exit else if v =? 2 then Some Unit_ else None.
Definition type_is_entering_or_exiting (t : SpecialAnimType) : bool := match t with Enter | Exit => true | Unit_ => false end.

Record SpecialAnimOrderState := mkSpecialAnim {
  special_type : SpecialAnimType; sa_started : Z; sa_frames : Z; data1 : Z; data2 : Z; data3 : Z; data4 : Z; sa_ox : Z; sa_whom : Z }.

(** [Default for SpecialAnimOrderState]. *)
Definition special_anim_default : SpecialAnimOrderState := mkSpecialAnim Unit_ 0 0 (-1) (-1) (-1) (-1) (-1) (-1).

Record FormOrderState := mkForm { fm_angle : Z; new_form : Z; delay : Z }.

Record MoveOrderState := mkMove {
  angle : Z; dest : Z; pause : Z; retry : Z; attempts : Z; timer : Z; facing : Z; dest_x : Z; dest_y : Z; last_x : Z;
  last_y : Z; coll_x : Z; coll_y : Z; orig_x : Z; orig_y : Z; off_x : Z; off_y : Z; group_oxx : Z; group_whose : Z;
  group_id : Z; group_form_id : Z; group_angle : Z; in_group : Z }.

(** [Default for MoveOrderState], at a given facing and destination: the two
    struct updates the constructors make. *)
Definition move_default_with (a dx dy : Z) : MoveOrderState :=
  mkMove a 0 0 0 0 0 0 dx dy (-1) (-1) 0 0 0 0 0 0 (-1) (-1) (-1) 0 0 0.
Definition move_default : MoveOrderState := move_default_with 0 0 0.
(** [MoveOrderState::fresh]. *)
Definition move_fresh (dx dy : Z) : MoveOrderState := move_default_with (angle move_default) dx dy.

Record AttackOrderState := mkAttack {
  def_x : Z; def_y : Z; mandatory : Z; defensive : Z; in_range : Z; ever_in_range : Z; new_ord : Z }.

Record OrderTargetIdentity := mkTarget { ti_handle : Handle; ti_who : Z; ti_o : Z; ti_uid : Z }.

(** [guard_order::GuardOrderState]. *)
Record GuardIdentity := mkGuardIdentity { gi_o : Z; gi_who : Z; gi_uid : Z }.
Record GuardOrderState := mkGuard {
  g_target : GuardIdentity; g_dx : Z; g_dy : Z; guard_x : Z; guard_y : Z; g_idle : Z; g_retry : Z }.

(** [targeted_order_plans::AttackGroundOrderState]. *)
Record AttackGroundOrderState := mkAttackGround { att_x : Z; att_y : Z; accuracy : Z; attack_unit : Z }.

#[export] Instance FollowOrderPayload_eq_dec : EqDecision FollowOrderPayload.
Proof. solve_decision. Defined.
#[export] Instance SpecialAnimType_eq_dec : EqDecision SpecialAnimType.
Proof. solve_decision. Defined.
#[export] Instance SpecialAnimOrderState_eq_dec : EqDecision SpecialAnimOrderState.
Proof. solve_decision. Defined.
#[export] Instance FormOrderState_eq_dec : EqDecision FormOrderState.
Proof. solve_decision. Defined.
#[export] Instance MoveOrderState_eq_dec : EqDecision MoveOrderState.
Proof. solve_decision. Defined.
#[export] Instance AttackOrderState_eq_dec : EqDecision AttackOrderState.
Proof. solve_decision. Defined.
#[export] Instance GuardIdentity_eq_dec : EqDecision GuardIdentity.
Proof. solve_decision. Defined.
#[export] Instance GuardOrderState_eq_dec : EqDecision GuardOrderState.
Proof. solve_decision. Defined.
#[export] Instance AttackGroundOrderState_eq_dec : EqDecision AttackGroundOrderState.
Proof. solve_decision. Defined.

(** ** The order *)

(** [struct Order]; the source's names, [kind] and the payloads. *)
Record Order := mkOrder {
  node_metric : Z; okind : OrderIndex; oflags : Z; ox : Z; oy : Z; target_who : Z; target_o : Z; target_uid : Z;
  target_handle : option Handle; attack : option AttackOrderState; tolerance : Z; move_state : option MoveOrderState;
  follow : option FollowOrderPayload; special_anim : option SpecialAnimOrderState; form_order : option FormOrderState;
  air_patrol : option Air.AirPatrolOrderPayload; strafe : option Strafe.StrafeOrder; guard_state : option GuardOrderState;
  attack_ground : option AttackGroundOrderState; economy : option Economy.EconomyOrderPayload }.

(** [Default for Order] with the header fields a constructor writes; every
    payload is [None]. *)
Definition plain (k : OrderIndex) (fl x y who o uid : Z) : Order :=
  mkOrder 0 k fl x y who o uid None None 0 None None None None None None None None None.
Definition order_default : Order := plain NoOrder 0 0 0 (-1) (-1) 0.

(** Struct updates, one per payload. *)
Definition with_move (m : MoveOrderState) (q : Order) : Order :=
  mkOrder (node_metric q) (okind q) (oflags q) (ox q) (oy q) (target_who q) (target_o q) (target_uid q) (target_handle q) (attack q)
    (tolerance q) (Some m) (follow q) (special_anim q) (form_order q) (air_patrol q) (strafe q) (guard_state q) (attack_ground q) (economy q).
Definition with_tolerance (t : Z) (q : Order) : Order :=
  mkOrder (node_metric q) (okind q) (oflags q) (ox q) (oy q) (target_who q) (target_o q) (target_uid q) (target_handle q) (attack q)
    t (move_state q) (follow q) (special_anim q) (form_order q) (air_patrol q) (strafe q) (guard_state q) (attack_ground q) (economy q).
Definition with_attack (h : option Handle) (a : option AttackOrderState) (q : Order) : Order :=
  mkOrder (node_metric q) (okind q) (oflags q) (ox q) (oy q) (target_who q) (target_o q) (target_uid q) h a
    (tolerance q) (move_state q) (follow q) (special_anim q) (form_order q) (air_patrol q) (strafe q) (guard_state q) (attack_ground q) (economy q).
Definition with_payloads (fo : option FollowOrderPayload) (sa : option SpecialAnimOrderState) (fm : option FormOrderState)
    (ap : option Air.AirPatrolOrderPayload) (st : option Strafe.StrafeOrder) (gu : option GuardOrderState)
    (ag : option AttackGroundOrderState) (q : Order) : Order :=
  mkOrder (node_metric q) (okind q) (oflags q) (ox q) (oy q) (target_who q) (target_o q) (target_uid q) (target_handle q) (attack q)
    (tolerance q) (move_state q) fo sa fm ap st gu ag (economy q).

(** [i8::try_from] and [i16::try_from]. *)
Definition try_i8 (z : Z) : option Z := if (-128 <=? z) && (z <=? 127) then Some z else None.
Definition try_i16 (z : Z) : option Z := if (-32768 <=? z) && (z <=? 32767) then Some z else None.
Definition clamp (lo hi z : Z) : Z := Z.max lo (Z.min hi z).

Definition move_to (x y tol : Z) : Order := with_tolerance tol (with_move (move_fresh x y) (plain MoveTo 0 x y (-1) (-1) 0)).
Definition attack_order (who o : Z) : Order := plain Attack 0 0 0 who o 0.
Definition attack_exact (t : OrderTargetIdentity) : Order :=
  with_attack (Some (ti_handle t)) None (plain Attack 0 0 0 (ti_who t) (ti_o t) (ti_uid t)).
Definition attack_with_state (t : OrderTargetIdentity) (a : AttackOrderState) : Order :=
  with_attack (Some (ti_handle t)) (Some a) (plain Attack 0 0 0 (ti_who t) (ti_o t) (ti_uid t)).
Definition exact_target_identity (q : Order) : option OrderTargetIdentity :=
  h ← target_handle q; Some (mkTarget h (target_who q) (target_o q) (target_uid q)).
Definition follow_order (p : FollowOrderPayload) : Order :=
  with_payloads (Some p) None None None None None None
    (plain Follow ORDER_GROUP 0 0 (clamp (-128) 127 (fo_whom p)) (clamp (-32768) 32767 (fo_ox p)) (fo_uid p)).
Definition guard_order (p : GuardOrderState) : result unit Order :=
  let? who := ok_or (try_i8 (gi_who (g_target p))) tt in
  let? o := ok_or (try_i16 (gi_o (g_target p))) tt in
  Ok (with_payloads None None None None None (Some p) None (plain Guard ORDER_GROUP 0 0 who o (gi_uid (g_target p)))).
Definition attack_ground_order (p : AttackGroundOrderState) : Order :=
  with_payloads None None None None None None (Some p) (plain AttackGround ORDER_GROUP (att_x p) (att_y p) (-1) (-1) 0).
Definition special_anim_order (t : SpecialAnimType) (d1 d2 : Z) : Order :=
  let z := special_anim_default in
  with_payloads None (Some (mkSpecialAnim t (sa_started z) (sa_frames z) d1 d2 (data3 z) (data4 z) (sa_ox z) (sa_whom z)))
    None None None None None (plain SpecialAnim ORDER_GROUP 0 0 (-1) (-1) 0).
Definition change_form (a nf dl : Z) : Order :=
  with_payloads None None (Some (mkForm a nf dl)) None None None None
    (with_move (move_default_with a (dest_x move_default) (dest_y move_default)) (plain ChangeForm 0 0 0 (-1) (-1) 0)).
Definition air_patrol_order (p : Air.AirPatrolOrderPayload) (group : bool) : result Air.AirRuntimeAuthorityError Order :=
  let? _ := Air.validate p in
  Ok (with_payloads None None None (Some p) None None None (plain AirPatrol (if group then ORDER_GROUP else 0) 0 0 (-1) (-1) 0)).

Inductive StrafeOrderAdoptionError := Authority (e : Strafe.StrafeAuthorityError) | TargetOutOfRange (o who : Z).

Definition strafe_order (p : Strafe.StrafeOrder) (group : bool) : result StrafeOrderAdoptionError Order :=
  let? _ := map_err Authority (Strafe.validate_strafe_order p) in
  let out_of_range := TargetOutOfRange (Strafe.target_o p) (Strafe.target_who p) in
  let? who := ok_or (try_i8 (Strafe.target_who p)) out_of_range in
  let? o := ok_or (try_i16 (Strafe.target_o p)) out_of_range in
  Ok (with_payloads None None None None (Some p) None None
        (plain Strafe (if group then ORDER_GROUP else 0) 0 0 who o (Strafe.target_uid p))).

Definition economy_order (n : Economy.EconomyOrderNode) : result Economy.EconomyOrderAuthorityError Order :=
  let? _ := Economy.node_validate n in
  let h := Economy.header n in let t := Economy.primary h in
  let out_of_range := Economy.HeaderTargetOutOfRange (Economy.o t) (Economy.who t) in
  let? who := ok_or (try_i8 (Economy.who t)) out_of_range in
  let? o := ok_or (try_i16 (Economy.o t)) out_of_range in
  Ok (mkOrder (Economy.metric n) (Economy.kind h) (Economy.h_flags h) (Economy.hx h) (Economy.hy h) who o (Economy.uid t)
        (Economy.handle t) None 0 None None None None None None None None (Some (Economy.payload n))).

Definition is_entering_or_exiting (q : Order) : option bool :=
  if decide (okind q = SpecialAnim) then s ← special_anim q; Some (type_is_entering_or_exiting (special_type s)) else Some false.

Definition has (bit : Z) (q : Order) : bool := negb (Z.land (oflags q) bit =? 0).

(** ** The retail image of a movement order *)

Definition RETAIL_MOVE_ORDER_WALKED_BYTES : nat := 77.
Definition RETAIL_MOVE_ORDER_NODE_BYTES : nat := 5 + RETAIL_MOVE_ORDER_WALKED_BYTES.

Inductive RetailMoveOrderImageError := UnsupportedKind (k : OrderIndex) | MissingMoveState.

Definition is_move_kind (k : OrderIndex) : bool := match k with MoveTo | AttackTo | ExploreTo | FleeTo => true | _ => false end.

(** The eighteen words of the loop. *)
Definition move_words (q : Order) (m : MoveOrderState) : list Z :=
  [ox q; oy q; angle m; dest m; tolerance q; pause m; retry m; attempts m; timer m; facing m; dest_x m; dest_y m; last_x m;
   last_y m; coll_x m; coll_y m; orig_x m; orig_y m].

Definition retail_move_walk_image (q : Order) : result RetailMoveOrderImageError bytes :=
  if negb (is_move_kind (okind q)) then Err (UnsupportedKind (okind q)) else
  let? m := ok_or (move_state q) MissingMoveState in
  Ok ([oflags q] ++ concat (to_le 4 <$> move_words q m) ++ to_le 2 (off_x m) ++ to_le 2 (off_y m)).

Definition retail_move_node_image (q : Order) : result RetailMoveOrderImageError bytes :=
  let? payload := retail_move_walk_image q in
  Ok (to_le 4 (Z.of_nat (OrderIndex_index (okind q))) ++ [node_metric q] ++ payload).

(** ** The order list *)

Module OrderList.

Definition t : Type := list Order.

Definition new : t := [].
Definition current (l : t) : option Order := head l.
Definition order_type (l : t) : OrderIndex := match l with [] => NoOrder | q :: _ => okind q end.
Definition push (q : Order) (l : t) : t := l ++ [q].
Definition push_front (q : Order) (l : t) : t := q :: l.
Definition replace (q : Order) (l : t) : t := [q].
(** The order dropped, and the list that is left. *)
Definition kill_current (l : t) : option Order * t := match l with [] => (None, []) | q :: l => (Some q, l) end.
Definition clear (l : t) : t := [].

Definition is_attack (q : Order) : bool := bool_decide (okind q = Attack).
Definition set_mandatory (v : Z) (a : AttackOrderState) : AttackOrderState :=
  mkAttack (def_x a) (def_y a) v (defensive a) (in_range a) (ever_in_range a) (new_ord a).

(** The loop of [clear_attack_mandatory], after its preflight; [None] is the
    [expect]. *)
Fixpoint clear_mandatory (l : t) : option (t * nat) :=
  match l with
  | [] => Some ([], 0%nat)
  | q :: l =>
      if is_attack q then
        a ← attack q; '(l', n) ← clear_mandatory l;
        Some (with_attack (target_handle q) (Some (set_mandatory 0 a)) q :: l', S n)
      else '(l', n) ← clear_mandatory l; Some (q :: l', n)
  end.

(** [None] is a panic. *)
Definition clear_attack_mandatory (l : t) : option (result unit (t * nat)) :=
  if existsb (fun q => is_attack q && bool_decide (attack q = None)) l then Some (Err tt)
  else '(l', n) ← clear_mandatory l; Some (Ok (l', n)).

End OrderList.

(** ** The dispatch table *)

Inductive ArmStatus := Implemented | FaithfullyEmpty | Unimplemented.

#[export] Instance ArmStatus_eq_dec : EqDecision ArmStatus.
Proof. solve_decision. Defined.

(** [struct Executor], the order and the status of an arm. *)
Record Executor := mkExecutor { ex_order : OrderIndex; ex_status : ArmStatus }.

Definition EXECUTORS : list Executor :=
  [mkExecutor NoOrder Implemented; mkExecutor MoveTo Implemented; mkExecutor AttackTo Implemented; mkExecutor ExploreTo Implemented;
   mkExecutor FleeTo Implemented; mkExecutor Patrol FaithfullyEmpty; mkExecutor BuildAt Implemented; mkExecutor Gather Unimplemented;
   mkExecutor BoardShip Implemented; mkExecutor AwaitBoard Implemented; mkExecutor Attack Implemented; mkExecutor Follow Implemented;
   mkExecutor Guard Implemented; mkExecutor Repair Implemented; mkExecutor CastSpell Unimplemented; mkExecutor TradeRoute Unimplemented;
   mkExecutor Strafe Unimplemented; mkExecutor AirPatrol Implemented; mkExecutor ChangeForm Implemented; mkExecutor GroupMove Implemented;
   mkExecutor GroupAttack Implemented; mkExecutor GroupAttackTo Implemented; mkExecutor GroupPatrol Implemented;
   mkExecutor AttackGround Implemented; mkExecutor AirAttackGround Implemented; mkExecutor SpecialAnim Unimplemented;
   mkExecutor Garrison Implemented; mkExecutor Think Implemented].

(** [struct OrderCoverage]; the counters are [u64] and never near their bound. *)
Record OrderCoverage := mkOrderCoverage { dispatches : list Z; unimplemented : Z; total : Z }.
Definition OrderCoverage_default : OrderCoverage := mkOrderCoverage (replicate NUM_UNIT_ORDERS 0) 0 0.

(** [self.dispatches[i] += 1] and the like; [None] is an index out of range. *)
Definition record_order (k : OrderIndex) (c : OrderCoverage) : option (ArmStatus * OrderCoverage) :=
  let i := OrderIndex_index k in
  d ← dispatches c !! i; e ← EXECUTORS !! i;
  Some (ex_status e,
        mkOrderCoverage (<[i := d + 1]> (dispatches c))
          (if decide (ex_status e = Unimplemented) then unimplemented c + 1 else unimplemented c) (total c + 1)).

Definition OrderCoverage_merge (a b : OrderCoverage) : OrderCoverage :=
  mkOrderCoverage (zip_with Z.add (dispatches a) (dispatches b)) (unimplemented a + unimplemented b) (total a + total b).

(** ** Facts *)

Lemma executors_aligned k : exists e, EXECUTORS !! OrderIndex_index k = Some e /\ ex_order e = k.
Proof. destruct k; by eexists. Qed.

Definition coverage_wf (c : OrderCoverage) : Prop :=
  length (dispatches c) = NUM_UNIT_ORDERS /\ foldr Z.add 0 (dispatches c) = total c.

Lemma foldr_add_insert (l : list Z) i d v : l !! i = Some d -> foldr Z.add 0 (<[i := v]> l) = foldr Z.add 0 l + v - d.
Proof.
  revert i. induction l as [|z l IH]; intros [|i] H; try done; simpl in *; [simplify_eq; lia|]. rewrite (IH i H). lia.
Qed.

Lemma index_lt_orders k : (OrderIndex_index k < NUM_UNIT_ORDERS)%nat.
Proof. destruct k; unfold NUM_UNIT_ORDERS; simpl; lia. Qed.

(** Every dispatch is recorded, once, and under its own arm. *)
Lemma record_order_wf k c : coverage_wf c -> exists st c', record_order k c = Some (st, c') /\ coverage_wf c' /\ total c' = total c + 1.
Proof.
  intros [Hl Hs]. destruct (executors_aligned k) as (e & He & _).
  destruct (lookup_lt_is_Some_2 (dispatches c) (OrderIndex_index k)) as [d Hd]; [rewrite Hl; apply index_lt_orders|].
  unfold record_order. rewrite Hd, He. simpl. do 2 eexists. split; [done|]. split; [|done]. split; simpl.
  - by rewrite length_insert.
  - rewrite (foldr_add_insert _ _ d) by done. lia.
Qed.

Module OrderListSpec.
Import OrderList.

Definition has_suffix (q : Order) : Prop := okind q = Attack -> is_Some (attack q).

(** What the pass does to one order. *)
Definition cleared (q q' : Order) : Prop :=
  match attack q with
  | Some a => if is_attack q then q' = with_attack (target_handle q) (Some (set_mandatory 0 a)) q else q' = q
  | None => q' = q
  end.

Lemma clear_mandatory_spec l : Forall has_suffix l ->
  exists l', clear_mandatory l = Some (l', length (filter (fun q => okind q = Attack) l)) /\ Forall2 cleared l l'.
Proof.
  induction 1 as [|q l Hq _ (l' & E & IH)]; [by exists []|]. cbn [clear_mandatory]. rewrite E. simpl.
  destruct (decide (okind q = Attack)) as [K|K].
  - assert (Ha : is_attack q = true) by by apply bool_decide_eq_true. destruct (Hq K) as [a Ea]. rewrite filter_cons_True by done. rewrite Ha, Ea. simpl. eexists. split; [done|].
    constructor; [|done]. unfold cleared. by rewrite Ha, Ea.
  - assert (Ha : is_attack q = false) by by apply bool_decide_eq_false. rewrite filter_cons_False, Ha by done. simpl. eexists. split; [done|].
    constructor; [|done]. unfold cleared. rewrite Ha. by destruct (attack q).
Qed.

(** [clear_attack_mandatory] never panics; it refuses exactly when some ATTACK
    lacks its suffix, and otherwise clears the flag of every ATTACK, touches
    nothing else, keeps the order of the list and counts what it cleared. *)
Theorem clear_attack_mandatory_spec l :
  (clear_attack_mandatory l = Some (Err tt) /\ exists q, q ∈ l /\ okind q = Attack /\ attack q = None) \/
  (exists l', clear_attack_mandatory l = Some (Ok (l', length (filter (fun q => okind q = Attack) l))) /\
     Forall has_suffix l /\ Forall2 cleared l l').
Proof.
  unfold clear_attack_mandatory. destruct (existsb _ l) eqn:X.
  - left. split; [done|]. apply existsb_exists in X as (q & Hq & X). bool_hyps. exists q. apply list_elem_of_In in Hq.
    unfold is_attack in *. by bool_hyps.
  - right. assert (Hs : Forall has_suffix l).
    { apply Forall_forall. intros q Hq K. destruct (attack q) eqn:Ea; [by eexists|]. exfalso.
      assert (existsb (fun q => is_attack q && bool_decide (attack q = None)) l = true); [|congruence].
      apply existsb_exists. exists q. split; [by apply list_elem_of_In|]. unfold is_attack. rewrite Ea, !bool_decide_true by done. done. }
    destruct (clear_mandatory_spec l Hs) as (l' & -> & H). by exists l'.
Qed.

End OrderListSpec.

(** *** The movement image *)

Lemma words_length (l : list Z) : length (concat (to_le 4 <$> l)) = (4 * length l)%nat.
Proof. apply Strafe.length_put_i32s. Qed.

Lemma Ok_inj {E A} (a b : A) : @Ok E A a = Ok b -> a = b.
Proof. by intros [= ->]. Qed.

Lemma move_image_sizes q bs :
  (retail_move_walk_image q = Ok bs -> length bs = RETAIL_MOVE_ORDER_WALKED_BYTES) /\
  (retail_move_node_image q = Ok bs -> length bs = RETAIL_MOVE_ORDER_NODE_BYTES).
Proof.
  assert (W : forall bs, retail_move_walk_image q = Ok bs -> length bs = RETAIL_MOVE_ORDER_WALKED_BYTES).
  { clear bs. intros bs H. unfold retail_move_walk_image in H. destruct (is_move_kind _); [|done]. cbn [negb] in H.
    apply rbind_Ok in H as (m & _ & H). apply Ok_inj in H as <-. by rewrite !length_app, words_length, !length_to_le. }
  split; [apply W|]. intros H. unfold retail_move_node_image in H. apply rbind_Ok in H as (p & Hp & H). apply Ok_inj in H as <-.
  by rewrite !length_app, length_to_le, (W _ Hp).
Qed.

Definition move_wf (q : Order) : Prop :=
  exists m, move_state q = Some m /\ Forall (in_s 32) (move_words q m) /\ is_i16 (off_x m) /\ is_i16 (off_y m).

Lemma to_le_inj_s n w a b : w = 8 * Z.of_nat n -> (0 < n)%nat -> in_s w a -> in_s w b -> to_le n a = to_le n b -> a = b.
Proof. intros Hw Hn Ha Hb E. rewrite <- (from_le_signed n w a), <- (from_le_signed n w b) by done. by rewrite E. Qed.

Lemma words_inj l1 l2 r1 r2 :
  length l1 = length l2 -> Forall (in_s 32) l1 -> Forall (in_s 32) l2 ->
  concat (to_le 4 <$> l1) ++ r1 = concat (to_le 4 <$> l2) ++ r2 -> l1 = l2 /\ r1 = r2.
Proof.
  revert l2. induction l1 as [|a l1 IH]; intros [|b l2] Hl H1 H2 E; try done.
  apply Forall_cons in H1 as [Ha H1], H2 as [Hb H2]. cbn [fmap list_fmap concat] in E. rewrite <- !(assoc_L app) in E.
  apply app_inj_1 in E as [Ew E]; [|by rewrite !length_to_le]. apply (to_le_inj_s 4 32) in Ew as ->; [|done|lia|done|done].
  destruct (IH l2) as [-> ->]; [by injection Hl|done|done|done|done].
Qed.

(** The node image of a movement order tells its kind, metric, flags, words
    and offsets: two orders with the same image differ at most in fields the
    walk does not visit (the group identity and the target header). *)
Theorem move_image_complete q1 q2 bs :
  move_wf q1 -> move_wf q2 -> retail_move_node_image q1 = Ok bs -> retail_move_node_image q2 = Ok bs ->
  okind q1 = okind q2 /\ node_metric q1 = node_metric q2 /\ oflags q1 = oflags q2 /\
  exists m1 m2, move_state q1 = Some m1 /\ move_state q2 = Some m2 /\
    move_words q1 m1 = move_words q2 m2 /\ off_x m1 = off_x m2 /\ off_y m1 = off_y m2.
Proof.
  intros (m1 & E1 & W1 & X1 & Y1) (m2 & E2 & W2 & X2 & Y2) H1 H2. unfold retail_move_node_image, retail_move_walk_image in *.
  destruct (negb (is_move_kind (okind q1))); [done|]. destruct (negb (is_move_kind (okind q2))); [done|]. rewrite E1 in H1. rewrite E2 in H2. cbn [ok_or rbind] in *.
  apply Ok_inj in H1. apply Ok_inj in H2. rewrite <- H2 in H1. clear H2.
  apply app_inj_1 in H1 as [Hk H]; [|by rewrite !length_to_le].
  apply app_inj_1 in H as [Hm H]; [|done]. apply app_inj_1 in H as [Hf H]; [|done]. apply words_inj in H as [Hw H]; [|done|done|done].
  apply app_inj_1 in H as [Hx Hy]; [|by rewrite !length_to_le].
  assert (K : okind q1 = okind q2). { apply (f_equal from_le) in Hk. by destruct (okind q1), (okind q2). }
  split; [done|]. split; [by injection Hm|]. split; [by injection Hf|]. exists m1, m2. repeat split; [done|done|done|..].
  - by apply (to_le_inj_s 2 16) in Hx; [|done|lia|..].
  - by apply (to_le_inj_s 2 16) in Hy; [|done|lia|..].
Qed.

Lemma move_image_complete_witness : retail_move_node_image (move_to 100 (-200) 48) = retail_move_node_image (move_to 100 (-200) 48) /\
  okind (move_to 100 (-200) 48) = MoveTo.
Proof.
  assert (W : move_wf (move_to 100 (-200) 48)) by (eexists; repeat split; simpl; repeat constructor; done).
  destruct (retail_move_node_image (move_to 100 (-200) 48)) as [bs|] eqn:E; [|vm_compute in E; discriminate].
  destruct (move_image_complete _ _ bs W W E E) as [H _]. split; [reflexivity|exact H].
Defined.
