(* ===== verification/SimCols.v ===== *)
(** * The unit columns

    [crates/don-sim/src/generated/state.rs], [mod unit]: the structure-of-arrays
    store of the [UnitData] fields.  One allocation per width, cut into planes
    of [cap] entries; a scalar field is a plane, and row [r] of plane [p] is
    entry [p * cap + r].  There are no [f32] planes.  An access out of the live
    rows is a panic, [None]. *)

From S2P Require Import Prelude.

(** [enum Pool], less the two pools no unit field lives in. *)
Inductive Pool := W4 | W2 | W1.

#[export] Instance Pool_eq_dec : EqDecision Pool.
Proof. solve_decision. Defined.

Definition W4_PLANES : nat := 33.
Definition W2_PLANES : nat := 30.
Definition W1_PLANES : nat := 26.

Definition planes (w : Pool) : nat := match w with W4 => W4_PLANES | W2 => W2_PLANES | W1 => W1_PLANES end.

(** A field is a plane of a pool. *)
Definition field : Type := Pool * nat.

(** The accessors: [flags()] is [w1_slice(0)], and so on.  Members of a union
    share their plane. *)
Definition f_flags : field := (W1, 0%nat).
Definition f_who : field := (W1, 1%nat).
Definition f_o : field := (W2, 0%nat).
Definition f_z_internal : field := (W4, 0%nat).
Definition f_x_internal : field := (W4, 1%nat).
Definition f_y_internal : field := (W4, 2%nat).
Definition f_on_screen : field := (W1, 2%nat).
Definition f_myhits : field := (W4, 3%nat).
Definition f_damage : field := (W4, 4%nat).
Definition f_inside_down : field := (W2, 1%nat).
Definition f_up : field := (W2, 2%nat).
Definition f_down : field := (W2, 3%nat).
Definition f_down_who : field := (W2, 4%nat).
Definition f_uid : field := (W2, 5%nat).
Definition f_hold_frames : field := (W2, 6%nat).
Definition f_near_o : field := (W2, 7%nat).
Definition f_near_who : field := (W2, 8%nat).
Definition f_healing : field := (W2, 9%nat).
Definition f_infiltrated : field := (W1, 3%nat).
Definition f_damage_frac : field := (W1, 4%nat).
Definition f_mylos : field := (W1, 5%nat).
Definition f_targeted : field := (W1, 6%nat).
Definition f_inside_down_who : field := (W1, 7%nat).
Definition f_up_who : field := (W1, 8%nat).
Definition f_visible : field := (W1, 9%nat).
Definition f_launch_frames : field := (W1, 10%nat).
Definition f_collide_frame : field := (W4, 5%nat).
Definition f_damage_frame : field := (W4, 6%nat).
Definition f_angle : field := (W4, 7%nat).
Definition f_air_alt : field := (W4, 8%nat).
Definition f_former_type : field := (W4, 8%nat).
Definition f_rare : field := (W4, 8%nat).
Definition f_dest_angle : field := (W4, 9%nat).
Definition f_trench_angle : field := (W4, 10%nat).
Definition f_tolerance : field := (W4, 11%nat).
Definition f_queue_time : field := (W4, 12%nat).
Definition f_unit_masks : field := (W4, 13%nat).
Definition f_unit_masks2 : field := (W4, 14%nat).
Definition f_orders_x : field := (W4, 15%nat).
Definition f_orders_y : field := (W4, 16%nat).
Definition f_los_x : field := (W4, 17%nat).
Definition f_los_y : field := (W4, 18%nat).
Definition f_group : field := (W2, 10%nat).
Definition f_inside_up : field := (W2, 11%nat).
Definition f_supply : field := (W2, 12%nat).
Definition f_cara : field := (W2, 13%nat).
Definition f_doober : field := (W2, 13%nat).
Definition f_herd : field := (W2, 13%nat).
Definition f_hero : field := (W2, 13%nat).
Definition f_special : field := (W2, 13%nat).
Definition f_collide : field := (W2, 14%nat).
Definition f_collide_o : field := (W2, 15%nat).
Definition f_collide_guy : field := (W2, 16%nat).
Definition f_o_up : field := (W2, 17%nat).
Definition f_o_down : field := (W2, 18%nat).
Definition f_gather_down : field := (W2, 19%nat).
Definition f_good_obj : field := (W2, 20%nat).
Definition f_mana_burn : field := (W2, 21%nat).
Definition f_spell_time : field := (W2, 22%nat).
Definition f_myspeed : field := (W2, 23%nat).
Definition f_myarmor : field := (W2, 24%nat).
Definition f_attrition : field := (W2, 25%nat).
Definition f_num_queued : field := (W2, 26%nat).
Definition f_cavarch_o : field := (W2, 27%nat).
Definition f_damage_o : field := (W2, 28%nat).
Definition f_cavarch_uid : field := (W2, 29%nat).
Definition f_cavarch_who : field := (W1, 11%nat).
Definition f_damage_who : field := (W1, 12%nat).
Definition f_form : field := (W1, 13%nat).
Definition f_form_mod : field := (W1, 14%nat).
Definition f_full : field := (W1, 15%nat).
Definition f_waiting : field := (W1, 16%nat).
Definition f_recharging : field := (W1, 17%nat).
Definition f_path_recursion : field := (W1, 18%nat).
Definition f_idle : field := (W1, 19%nat).
Definition f_stance : field := (W1, 20%nat).
Definition f_safe : field := (W1, 21%nat).
Definition f_collide_who : field := (W1, 22%nat).
Definition f_inside_up_who : field := (W1, 23%nat).
Definition f_guy_mark : field := (W1, 24%nat).
Definition f_play : field := (W1, 25%nat).
Definition f_temp_x : field := (W4, 19%nat).
Definition f_temp_y : field := (W4, 20%nat).
Definition f_avoid_x : field := (W4, 21%nat).
Definition f_avoid_y : field := (W4, 22%nat).
Definition f_tol : field := (W4, 23%nat).
Definition f_offset : field := (W4, 24%nat).
Definition f_start_dist : field := (W4, 25%nat).
Definition f_valid_hit : field := (W4, 26%nat).
Definition f_avoid_land : field := (W4, 27%nat).
Definition f_avoid_sea : field := (W4, 28%nat).
Definition f_endx : field := (W4, 29%nat).
Definition f_endy : field := (W4, 30%nat).
Definition f_traversed : field := (W4, 31%nat).
Definition f_announce_frame : field := (W4, 32%nat).

Definition is_field (f : field) : Prop := (f.2 < planes f.1)%nat.

#[export] Instance is_field_dec f : Decision (is_field f).
Proof. unfold is_field. apply _. Defined.

Module UnitCols.

Record t := mk { cap : nat; len : nat; w4 : list Z; w2 : list Z; w1 : list Z }.

Definition with_capacity (c : nat) : t :=
  mk c 0 (replicate (c * W4_PLANES) 0) (replicate (c * W2_PLANES) 0) (replicate (c * W1_PLANES) 0).

Definition pool (w : Pool) (u : t) : list Z := match w with W4 => w4 u | W2 => w2 u | W1 => w1 u end.
Definition set_pool (w : Pool) (l : list Z) (u : t) : t :=
  match w with
  | W4 => mk (cap u) (len u) l (w2 u) (w1 u)
  | W2 => mk (cap u) (len u) (w4 u) l (w1 u)
  | W1 => mk (cap u) (len u) (w4 u) (w2 u) l
  end.
Definition set_len (n : nat) (u : t) : t := mk (cap u) n (w4 u) (w2 u) (w1 u).

Definition bytes_reserved (u : t) : nat := cap u * (W4_PLANES * 4 + W2_PLANES * 2 + W1_PLANES).

(** [w4_slice(p)], [w4_plane(p)] and the like: the live rows of a plane. *)
Definition slice (f : field) (u : t) : list Z := take (len u) (drop (f.2 * cap u) (pool f.1 u)).

(** The live rows of a plane overwritten (a kernel run on [..._slice_mut]). *)
Definition put_slice (f : field) (l : list Z) (u : t) : t :=
  set_pool f.1 (take (f.2 * cap u) (pool f.1 u) ++ l ++ drop (f.2 * cap u + length l) (pool f.1 u)) u.

(** [field()[row]] and [field_mut()[row] = v]. *)
Definition get (f : field) (row : nat) (u : t) : option Z := slice f u !! row.
Definition set (f : field) (row : nat) (v : Z) (u : t) : option t :=
  if decide (row < len u)%nat then Some (set_pool f.1 (<[(f.2 * cap u + row)%nat := v]> (pool f.1 u)) u) else None.

(** A sequence of [field_mut()[row] = v]. *)
Fixpoint writes (row : nat) (l : list (field * Z)) (u : t) : option t :=
  match l with [] => Some u | (f, v) :: l => u ← set f row v u; writes row l u end.

(** The unsigned accessors of a field stored signed. *)
Definition get_u8 (f : field) (row : nat) (u : t) : option Z := u8 <$> get f row u.
Definition set_u8 (f : field) (row : nat) (v : Z) (u : t) : option t := set f row (i8 v) u.
Definition get_u16 (f : field) (row : nat) (u : t) : option Z := u16 <$> get f row u.
Definition set_u16 (f : field) (row : nat) (v : Z) (u : t) : option t := set f row (i16 v) u.

(** [for p in 0..PLANES { pool[p * cap + row] = 0 }]. *)
Definition zero_plane (c row : nat) (l : list Z) (p : nat) : list Z := <[(p * c + row)%nat := 0]> l.
Definition zero_pool (c row n : nat) (l : list Z) : list Z := fold_left (zero_plane c row) (seq 0 n) l.
Definition zero_row (row : nat) (u : t) : t :=
  let c := cap u in
  mk c (len u) (zero_pool c row W4_PLANES (w4 u)) (zero_pool c row W2_PLANES (w2 u)) (zero_pool c row W1_PLANES (w1 u)).

Definition push_zeroed (u : t) : option (nat * t) :=
  if decide (cap u <= len u)%nat then None
  else Some (len u, zero_row (len u) (set_len (S (len u)) u)).

Definition copy_plane (c dst src : nat) (l : list Z) (p : nat) : list Z :=
  <[(p * c + dst)%nat := nth (p * c + src) l 0]> l.
Definition copy_pool (c dst src n : nat) (l : list Z) : list Z := fold_left (copy_plane c dst src) (seq 0 n) l.
Definition copy_row (dst src : nat) (u : t) : t :=
  if decide (dst = src) then u
  else
    let c := cap u in
    mk c (len u) (copy_pool c dst src W4_PLANES (w4 u)) (copy_pool c dst src W2_PLANES (w2 u)) (copy_pool c dst src W1_PLANES (w1 u)).

Definition pop (u : t) : t := if decide (0 < len u)%nat then set_len (len u - 1) u else u.
Definition truncate (n : nat) (u : t) : t := if decide (n < len u)%nat then set_len n u else u.

(** ** Well-formed stores *)

Record wf (u : t) : Prop := {
  wf_len : (len u <= cap u)%nat;
  wf_pool w : length (pool w u) = (cap u * planes w)%nat }.

(** The entry of a row, live or not. *)
Definition cell (f : field) (row : nat) (u : t) : Z := nth (f.2 * cap u + row) (pool f.1 u) 0.

Lemma pool_set_pool w w' l u : pool w' (set_pool w l u) = if decide (w' = w) then l else pool w' u.
Proof. by destruct w, w'. Qed.

Lemma cap_set_pool w l u : cap (set_pool w l u) = cap u.
Proof. by destruct w. Qed.
Lemma len_set_pool w l u : len (set_pool w l u) = len u.
Proof. by destruct w. Qed.

Lemma index_lt (c n p row : nat) : (p < n)%nat -> (row < c)%nat -> (p * c + row < c * n)%nat.
Proof. intros. nia. Qed.

Lemma index_inj (c p p' row row' : nat) :
  (row < c)%nat -> (row' < c)%nat -> (p * c + row = p' * c + row')%nat -> p = p' /\ row = row'.
Proof. intros. assert (p = p') as -> by nia. split; [done|lia]. Qed.

Lemma length_slice f u : wf u -> is_field f -> length (slice f u) = len u.
Proof.
  intros Hwf Hf. unfold slice. rewrite length_take, length_drop, (wf_pool _ Hwf). unfold is_field in Hf.
  pose proof (wf_len _ Hwf). nia.
Qed.

Lemma get_cell f row u : wf u -> is_field f -> get f row u = if decide (row < len u)%nat then Some (cell f row u) else None.
Proof.
  intros Hwf Hf. unfold get, slice, cell. case_decide as D.
  - rewrite lookup_take_lt, lookup_drop by done.
    assert (Hlt : (f.2 * cap u + row < length (pool f.1 u))%nat).
    { rewrite (wf_pool _ Hwf). apply index_lt; [done|]. pose proof (wf_len _ Hwf). lia. }
    destruct (lookup_lt_is_Some_2 _ _ Hlt) as [z Hz]. rewrite Hz. f_equal. symmetry. by apply nth_lookup_Some.
  - by rewrite lookup_take_ge by lia.
Qed.

Lemma with_capacity_wf c : wf (with_capacity c).
Proof. split; simpl; [lia|]. intros []; simpl; apply length_replicate. Qed.

(** ** Writing one entry *)

Lemma set_pool_wf w l u : wf u -> length l = length (pool w u) -> wf (set_pool w l u).
Proof.
  intros [H1 H2] Hl. split; rewrite ?len_set_pool, ?cap_set_pool; [done|]. intros w'. rewrite pool_set_pool.
  case_decide; [subst; rewrite Hl|]; apply H2.
Qed.

Lemma set_wf f row v u u' : wf u -> set f row v u = Some u' -> wf u'.
Proof. unfold set. intros Hwf E. case_decide; simplify_eq. apply set_pool_wf; [done|apply length_insert]. Qed.

Lemma set_dims f row v u u' : set f row v u = Some u' -> cap u' = cap u /\ len u' = len u.
Proof. unfold set. intros E. case_decide; simplify_eq. by rewrite cap_set_pool, len_set_pool. Qed.

Lemma set_Some f row v u : (row < len u)%nat -> is_Some (set f row v u).
Proof. intros. unfold set. rewrite decide_True by done. by eexists. Qed.

Lemma cell_set f row v u u' f' row' :
  wf u -> is_field f -> is_field f' -> (row' < cap u)%nat -> set f row v u = Some u' ->
  cell f' row' u' = if decide (f' = f /\ row' = row) then v else cell f' row' u.
Proof.
  intros Hwf Hf Hf' Hr E. unfold set in E. case_decide as Hlt; simplify_eq. pose proof (wf_len _ Hwf).
  unfold cell. rewrite cap_set_pool, pool_set_pool. destruct f as [w p], f' as [w' p']; simpl in *. unfold is_field in *; simpl in *.
  case_decide as Dw; [subst w'|by rewrite decide_False by (intros [? _]; simplify_eq)].
  destruct (decide ((w, p') = (w, p) /\ row' = row)) as [[Ep ->]|D].
  - simplify_eq. rewrite ?decide_True by done. apply nth_lookup_Some, list_lookup_insert_eq. rewrite (wf_pool _ Hwf). by apply index_lt; [|lia].
  - assert (Hi : (p' * cap u + row' <> p * cap u + row)%nat).
    { intros Ei. apply D. destruct (index_inj (cap u) p' p row' row) as [-> ->]; [done|lia|done|done]. }
    rewrite ?decide_False by done. rewrite !nth_lookup, list_lookup_insert_ne by done. done.
Qed.

Lemma get_live f row u : wf u -> is_field f -> (row < len u)%nat -> get f row u = Some (cell f row u).
Proof. intros. rewrite get_cell by done. by rewrite decide_True. Qed.

Lemma get_Some f row u v : wf u -> is_field f -> get f row u = Some v -> (row < len u)%nat /\ v = cell f row u.
Proof. intros Hw Hf. rewrite get_cell by done. case_decide; [|done]. by intros [= <-]. Qed.

(** The value a sequence of writes leaves in a field. *)
Definition written (f : field) (l : list (field * Z)) (d : Z) : Z :=
  fold_left (fun d fv => if decide (fv.1 = f) then fv.2 else d) l d.

Lemma writes_spec row l u :
  wf u -> (row < len u)%nat -> Forall (fun fv => is_field fv.1) l ->
  exists u', writes row l u = Some u' /\ wf u' /\ cap u' = cap u /\ len u' = len u /\
    forall f r, is_field f -> (r < cap u)%nat -> cell f r u' = if decide (r = row) then written f l (cell f r u) else cell f r u.
Proof.
  revert u. induction l as [|[f v] l IH]; intros u Hu Hr Hl.
  { exists u. split_and!; try done. intros. by case_decide. }
  apply Forall_cons in Hl as [Hf Hl]; simpl in Hf. destruct (set_Some f row v u Hr) as [u1 E1]. cbn [writes]. rewrite E1. simpl.
  pose proof (set_dims _ _ _ _ _ E1) as [Hc Hn]. destruct (IH u1) as (u' & E & Hw & Hc' & Hn' & Hcell); [by eapply set_wf|by rewrite Hn|done|].
  exists u'. split_and!; [done|done|congruence|congruence|]. intros f' r Hf' Hr'. rewrite Hcell by (done || by rewrite Hc).
  rewrite (cell_set f row v u u1) by done. cbn [written fold_left]. simpl. destruct (decide (r = row)) as [->|Hn1].
  - destruct (decide (f' = f /\ row = row)) as [[-> _]|D]; [by rewrite decide_True|]. rewrite decide_False; [done|]. intros ->. by apply D.
  - by rewrite decide_False by tauto.
Qed.

(** ** Whole rows *)

Lemma fold_planes_length (g : list Z -> nat -> list Z) ps l :
  (forall l p, length (g l p) = length l) -> length (fold_left g ps l) = length l.
Proof. intros Hg. revert l. induction ps as [|p ps IH]; intros l; [done|]. simpl. by rewrite IH. Qed.

(** A sweep over planes that writes entry [row] of each with a value read from
    the same plane at a row it does not write. *)
Lemma fold_planes_nth (c row n : nat) (v : list Z -> nat -> Z) (l : list Z) (p' row' : nat) :
  (row < c)%nat -> (row' < c)%nat -> length l = (c * n)%nat -> (p' < n)%nat ->
  (forall l1 l2 p, (p < n)%nat -> (forall q k, (q < n)%nat -> (k < c)%nat -> k <> row -> nth (q * c + k) l1 0 = nth (q * c + k) l2 0) -> v l1 p = v l2 p) ->
  nth (p' * c + row') (fold_left (fun l p => <[(p * c + row)%nat := v l p]> l) (seq 0 n) l) 0 =
    if decide (row' = row) then v l p' else nth (p' * c + row') l 0.
Proof.
  intros Hr Hr' Hl Hp' Hv.
  assert (G : forall m, (m <= n)%nat ->
    let l' := fold_left (fun l p => <[(p * c + row)%nat := v l p]> l) (seq 0 m) l in
    length l' = length l /\ forall q k, (q < n)%nat -> (k < c)%nat ->
      nth (q * c + k) l' 0 = if decide (k = row /\ (q < m)%nat) then v l q else nth (q * c + k) l 0).
  { induction m as [|m IH]; intros Hm.
    - simpl. split; [done|]. intros q k _ _. by rewrite decide_False by lia.
    - rewrite seq_S, fold_left_app. simpl. destruct IH as [L IH]; [lia|].
      set (l1 := fold_left _ (seq 0 m) l) in *. split; [by rewrite length_insert|]. intros q k Hq Hk.
      rewrite nth_lookup. destruct (decide (q * c + k = m * c + row)%nat) as [E|E].
      + destruct (index_inj c q m k row) as [-> ->]; [done|done|done|].
        rewrite list_lookup_insert_eq by (rewrite L, Hl; by apply index_lt; [lia|]). simpl.
        rewrite decide_True by lia. apply Hv; [lia|]. intros q k Hq' Hk' Hn. rewrite IH by done. by rewrite decide_False by tauto.
      + rewrite list_lookup_insert_ne by done. rewrite <- nth_lookup, IH by done.
        destruct (decide (k = row /\ (q < m)%nat)), (decide (k = row /\ (q < S m)%nat)); try done; [lia|].
        exfalso. apply E. assert (q = m) by lia. destruct_and?. by subst. }
  destruct (G n ltac:(lia)) as [_ G']. rewrite G' by done. repeat case_decide; try done; tauto.
Qed.

Lemma pool_zero_row w row u : pool w (zero_row row u) = zero_pool (cap u) row (planes w) (pool w u).
Proof. by destruct w. Qed.

Lemma pool_copy_row w dst src u : dst <> src -> pool w (copy_row dst src u) = copy_pool (cap u) dst src (planes w) (pool w u).
Proof. intros. unfold copy_row. rewrite decide_False by done. by destruct w. Qed.

Lemma cell_zero_row f row row' u :
  wf u -> is_field f -> (row < cap u)%nat -> (row' < cap u)%nat ->
  cell f row' (zero_row row u) = if decide (row' = row) then 0 else cell f row' u.
Proof.
  intros Hwf Hf Hr Hr'. unfold cell. rewrite pool_zero_row. change (cap (zero_row row u)) with (cap u).
  apply (fold_planes_nth (cap u) row (planes f.1) (fun _ _ => 0)); try done. apply (wf_pool _ Hwf).
Qed.

Lemma zero_row_wf row u : wf u -> wf (zero_row row u).
Proof.
  intros Hwf. split; [apply (wf_len _ Hwf)|]. intros w. rewrite pool_zero_row. unfold zero_pool.
  rewrite fold_planes_length by (intros; apply length_insert). apply (wf_pool _ Hwf).
Qed.

Lemma cap_copy_row dst src u : cap (copy_row dst src u) = cap u.
Proof. unfold copy_row. by case_decide. Qed.
Lemma len_copy_row dst src u : len (copy_row dst src u) = len u.
Proof. unfold copy_row. by case_decide. Qed.

(** Every field of the copied row, and only that row. *)
Lemma cell_copy_row f dst src row' u :
  wf u -> is_field f -> (dst < cap u)%nat -> (src < cap u)%nat -> (row' < cap u)%nat ->
  cell f row' (copy_row dst src u) = if decide (row' = dst) then cell f src u else cell f row' u.
Proof.
  intros Hwf Hf Hd Hs Hr. destruct (decide (dst = src)) as [->|Hn].
  { unfold copy_row. rewrite decide_True by done. case_decide; by subst. }
  unfold cell. rewrite pool_copy_row, cap_copy_row by done.
  apply (fold_planes_nth (cap u) dst (planes f.1) (fun l p => nth (p * cap u + src) l 0)); try done; [apply (wf_pool _ Hwf)|].
  intros l1 l2 p Hp E. apply E; [done|done|congruence].
Qed.

Lemma copy_row_wf dst src u : wf u -> wf (copy_row dst src u).
Proof.
  intros Hwf. destruct (decide (dst = src)) as [->|Hn]; [unfold copy_row; by rewrite decide_True|].
  split; [rewrite len_copy_row, cap_copy_row; apply (wf_len _ Hwf)|]. intros w. rewrite pool_copy_row, cap_copy_row by done.
  unfold copy_pool. rewrite fold_planes_length by (intros; apply length_insert). apply (wf_pool _ Hwf).
Qed.

Lemma set_len_wf n u : wf u -> (n <= cap u)%nat -> wf (set_len n u).
Proof. intros [H1 H2] Hn. split; [done|]. intros w. by rewrite <- H2. Qed.

Lemma cell_set_len f row n u : cell f row (set_len n u) = cell f row u.
Proof. by destruct f as [[] ?]. Qed.

Lemma pop_wf u : wf u -> wf (pop u).
Proof. intros Hwf. unfold pop. case_decide; [|done]. apply set_len_wf; [done|]. pose proof (wf_len _ Hwf). lia. Qed.

Lemma push_zeroed_spec u row u' :
  wf u -> push_zeroed u = Some (row, u') ->
  row = len u /\ (len u < cap u)%nat /\ wf u' /\ len u' = S (len u) /\ cap u' = cap u /\
  forall f r, is_field f -> (r < cap u)%nat -> cell f r u' = if decide (r = row) then 0 else cell f r u.
Proof.
  intros Hwf E. unfold push_zeroed in E. case_decide; simplify_eq. split; [done|]. split; [lia|].
  split; [apply zero_row_wf, set_len_wf; [done|lia]|]. split; [done|]. split; [done|]. intros f r Hf Hr.
  rewrite cell_zero_row; [by rewrite cell_set_len|apply set_len_wf; [done|lia]|done|simpl; lia|done].
Qed.

(** ** Kernels over a plane *)

Lemma length_put_plane f l u : wf u -> is_field f -> (length l <= cap u)%nat -> length (pool f.1 (put_slice f l u)) = (cap u * planes f.1)%nat.
Proof.
  intros Hwf Hf Hl. unfold put_slice. rewrite pool_set_pool, decide_True by done. rewrite !length_app, length_take, length_drop, (wf_pool _ Hwf).
  unfold is_field in Hf. nia.
Qed.

Lemma cap_put_slice f l u : cap (put_slice f l u) = cap u.
Proof. apply cap_set_pool. Qed.
Lemma len_put_slice f l u : len (put_slice f l u) = len u.
Proof. apply len_set_pool. Qed.

Lemma put_slice_wf f l u : wf u -> is_field f -> (length l <= cap u)%nat -> wf (put_slice f l u).
Proof. intros Hwf Hf Hl. apply set_pool_wf; [done|]. pose proof (length_put_plane f l u Hwf Hf Hl) as E. unfold put_slice in E. rewrite pool_set_pool, decide_True in E by done. rewrite E. symmetry. apply Hwf. Qed.

Lemma cell_put_slice f l u f' row :
  wf u -> is_field f -> is_field f' -> (length l <= cap u)%nat -> (row < cap u)%nat ->
  cell f' row (put_slice f l u) = if decide (f' = f /\ (row < length l)%nat) then nth row l 0 else cell f' row u.
Proof.
  intros Hwf Hf Hf' Hl Hr. unfold cell. rewrite cap_put_slice. unfold put_slice. rewrite pool_set_pool. destruct f as [p k], f' as [p' k']; simpl in *.
  unfold is_field in *; simpl in *. case_decide as Dp; [subst p'|by rewrite decide_False by (intros [? _]; congruence)].
  assert (Hlen : length (pool p u) = (cap u * planes p)%nat) by apply Hwf.
  assert (Hdrop : (k * cap u + cap u <= cap u * planes p)%nat) by nia. assert (Ht : length (take (k * cap u) (pool p u)) = (k * cap u)%nat) by (rewrite length_take; lia).
  rewrite !nth_lookup. destruct (decide (k' = k)) as [->|Hk].
  - rewrite lookup_app_r by (rewrite Ht; lia). rewrite Ht. replace (k * cap u + row - k * cap u)%nat with row by lia.
    destruct (decide (row < length l)%nat) as [Hrl|Hrl].
    + rewrite decide_True by done. by rewrite lookup_app_l by done.
    + rewrite decide_False by tauto. rewrite lookup_app_r by lia. rewrite lookup_drop. do 2 f_equal. lia.
  - rewrite decide_False by (intros [? _]; congruence). destruct (decide (k' < k)%nat) as [Hlt|Hge].
    + assert ((k' * cap u + row < k * cap u)%nat) by nia. rewrite lookup_app_l by (rewrite Ht; done). by rewrite lookup_take_lt.
    + assert ((k * cap u + cap u <= k' * cap u)%nat) by nia. rewrite lookup_app_r by (rewrite Ht; lia). rewrite lookup_app_r by (rewrite Ht; lia).
      rewrite lookup_drop, Ht. do 2 f_equal. lia.
Qed.

Lemma slice_lookup f u row : wf u -> is_field f -> (row < len u)%nat -> slice f u !! row = Some (cell f row u).
Proof. apply get_live. Qed.

End UnitCols.
