(* ===== verification/SimLayout.v ===== *)
(** * The unit's layout

    [crates/don-sim/src/generated/state.rs]: the descriptor table of
    [UnitData], one [FieldDesc] per field of the engine's class, with its
    column, the byte range the class's [walk_data] visits, and the queries on a
    class.  The digest reads its field set from this table.

    A field that has no column ([Pool::None]) has [None] here; [Pool::WF] holds
    no field of the class. *)

From stdpp Require Import strings.
From S2P Require Import Prelude SimCols.
#[local] Open Scope Z_scope.

(** [enum Repr]. *)
Inductive Repr := RI32 | RU32 | RI16 | RU16 | RI8 | RU8 | RF32 | RAggregate | RDeferred | RBitfield.

Definition materialised (r : Repr) : bool := match r with RAggregate | RDeferred | RBitfield => false | _ => true end.

Record FieldDesc := mkField {
  fname : string; offset : Z; size : Z; ctype : string; declared_in : string; repr : Repr; fcount : Z;
  walked : option bool; alias_of : option string; fpool : option Pool; plane : nat }.

Record WalkOp := mkWalkOp { op_begin : Z; op_end : Z; guard_depth : Z; in_loop : bool }.

Record ClassDesc := mkClass {
  cname : string; sizeof : Z; fields : list FieldDesc; walk_class : option string; walk_va : option string; walk_ops : list WalkOp }.

Definition field_named (name : string) (c : ClassDesc) : option FieldDesc :=
  snd <$> list_find (fun f => fname f = name) (fields c).

Definition unaliased (f : FieldDesc) : bool := match alias_of f with None => true | Some _ => false end.
Definition is_walked (f : FieldDesc) : bool := match walked f with Some true => true | _ => false end.
Definition sizes (l : list FieldDesc) : Z := fold_right Z.add 0 (size <$> l).

(** [ClassDesc::coverage]: materialised fields, fields, materialised bytes, [sizeof]. *)
Definition coverage (c : ClassDesc) : nat * nat * Z * Z :=
  let l := List.filter unaliased (fields c) in
  let m := List.filter (fun f => materialised (repr f)) l in
  (length m, length l, sizes m, sizeof c).

Definition walked_materialised_bytes (c : ClassDesc) : Z :=
  sizes (List.filter (fun f => unaliased f && materialised (repr f) && is_walked f) (fields c)).

(** ** [mod unit] *)

Definition SUB_OBJECT_FIELDS : list FieldDesc :=
  [mkField "flags" 8 1 "unsigned char" "SubObjectData" RU8 1 (Some false) None (Some W1) 0;
   mkField "who" 9 1 "unsigned char" "SubObjectData" RU8 1 (Some false) None (Some W1) 1;
   mkField "o" 10 2 "short" "SubObjectData" RI16 1 (Some false) None (Some W2) 0;
   mkField "z_internal" 12 4 "Coord" "SubObjectData" RI32 1 (Some false) None (Some W4) 0;
   mkField "x_internal" 16 4 "Coord" "SubObjectData" RI32 1 (Some false) None (Some W4) 1;
   mkField "y_internal" 20 4 "Coord" "SubObjectData" RI32 1 (Some false) None (Some W4) 2;
   mkField "ptype" 24 4 "ObjectType*" "SubObjectData" RAggregate 0 (Some false) None None 0;
   mkField "on_screen" 28 1 "unsigned char" "SubObjectOut" RU8 1 (Some false) None (Some W1) 2]%string.

Definition OBJECT_FIELDS : list FieldDesc :=
  [mkField "myhits" 32 4 "int" "ObjectData" RI32 1 (Some false) None (Some W4) 3;
   mkField "damage" 36 4 "int" "ObjectData" RI32 1 (Some false) None (Some W4) 4;
   mkField "inside_down" 40 2 "short" "ObjectData" RI16 1 (Some false) None (Some W2) 1;
   mkField "up" 42 2 "short" "ObjectData" RI16 1 (Some false) None (Some W2) 2;
   mkField "down" 44 2 "short" "ObjectData" RI16 1 (Some false) None (Some W2) 3;
   mkField "down_who" 46 2 "short" "ObjectData" RI16 1 (Some false) None (Some W2) 4;
   mkField "uid" 48 2 "unsigned short" "ObjectData" RU16 1 (Some false) None (Some W2) 5;
   mkField "hold_frames" 50 2 "unsigned short" "ObjectData" RU16 1 (Some false) None (Some W2) 6;
   mkField "near_o" 52 2 "short" "ObjectData" RI16 1 (Some false) None (Some W2) 7;
   mkField "near_who" 54 2 "short" "ObjectData" RI16 1 (Some false) None (Some W2) 8;
   mkField "healing" 56 2 "short" "ObjectData" RI16 1 (Some false) None (Some W2) 9;
   mkField "infiltrated" 58 1 "char" "ObjectData" RI8 1 (Some false) None (Some W1) 3;
   mkField "damage_frac" 59 1 "char" "ObjectData" RI8 1 (Some false) None (Some W1) 4;
   mkField "mylos" 60 1 "char" "ObjectData" RI8 1 (Some false) None (Some W1) 5;
   mkField "targeted" 61 1 "char" "ObjectData" RI8 1 (Some false) None (Some W1) 6;
   mkField "inside_down_who" 62 1 "char" "ObjectData" RI8 1 (Some false) None (Some W1) 7;
   mkField "up_who" 63 1 "char" "ObjectData" RI8 1 (Some false) None (Some W1) 8;
   mkField "visible" 64 1 "char" "ObjectData" RI8 1 (Some false) None (Some W1) 9;
   mkField "launch_frames" 65 1 "char" "ObjectData" RI8 1 (Some false) None (Some W1) 10;
   mkField "launching" 68 4 "SimpleArray<int>*" "ObjectData" RAggregate 0 (Some false) None None 0]%string.

Definition UNIT_WALKED_FIELDS : list FieldDesc :=
  [mkField "collide_frame" 72 4 "int" "UnitData" RI32 1 (Some true) None (Some W4) 5;
   mkField "damage_frame" 76 4 "int" "UnitData" RI32 1 (Some true) None (Some W4) 6;
   mkField "angle" 80 4 "int" "UnitData" RI32 1 (Some true) None (Some W4) 7;
   mkField "air_alt" 84 4 "int" "UnitData" RI32 1 (Some true) None (Some W4) 8;
   mkField "former_type" 84 4 "int" "UnitData" RI32 1 (Some true) (Some "air_alt") (Some W4) 8;
   mkField "rare" 84 4 "int" "UnitData" RI32 1 (Some true) (Some "air_alt") (Some W4) 8;
   mkField "dest_angle" 88 4 "int" "UnitData" RI32 1 (Some true) None (Some W4) 9;
   mkField "trench_angle" 92 4 "int" "UnitData" RI32 1 (Some true) None (Some W4) 10;
   mkField "tolerance" 96 4 "int" "UnitData" RI32 1 (Some true) None (Some W4) 11;
   mkField "queue_time" 100 4 "int" "UnitData" RI32 1 (Some true) None (Some W4) 12;
   mkField "unit_masks" 104 4 "unsigned long" "UnitData" RU32 1 (Some true) None (Some W4) 13;
   mkField "unit_masks2" 108 4 "unsigned long" "UnitData" RU32 1 (Some true) None (Some W4) 14;
   mkField "orders_x" 112 4 "Coord" "UnitData" RI32 1 (Some true) None (Some W4) 15;
   mkField "orders_y" 116 4 "Coord" "UnitData" RI32 1 (Some true) None (Some W4) 16;
   mkField "los_x" 120 4 "Coord" "UnitData" RI32 1 (Some true) None (Some W4) 17;
   mkField "los_y" 124 4 "Coord" "UnitData" RI32 1 (Some true) None (Some W4) 18;
   mkField "group" 128 2 "short" "UnitData" RI16 1 (Some true) None (Some W2) 10;
   mkField "inside_up" 130 2 "short" "UnitData" RI16 1 (Some true) None (Some W2) 11;
   mkField "supply" 132 2 "short" "UnitData" RI16 1 (Some true) None (Some W2) 12;
   mkField "cara" 134 2 "short" "UnitData" RI16 1 (Some true) None (Some W2) 13;
   mkField "doober" 134 2 "short" "UnitData" RI16 1 (Some true) (Some "cara") (Some W2) 13;
   mkField "herd" 134 2 "short" "UnitData" RI16 1 (Some true) (Some "cara") (Some W2) 13;
   mkField "hero" 134 2 "short" "UnitData" RI16 1 (Some true) (Some "cara") (Some W2) 13;
   mkField "special" 134 2 "short" "UnitData" RI16 1 (Some true) (Some "cara") (Some W2) 13;
   mkField "collide" 136 2 "short" "UnitData" RI16 1 (Some true) None (Some W2) 14;
   mkField "collide_o" 138 2 "short" "UnitData" RI16 1 (Some true) None (Some W2) 15;
   mkField "collide_guy" 140 2 "short" "UnitData" RI16 1 (Some true) None (Some W2) 16;
   mkField "o_up" 142 2 "short" "UnitData" RI16 1 (Some true) None (Some W2) 17;
   mkField "o_down" 144 2 "short" "UnitData" RI16 1 (Some true) None (Some W2) 18;
   mkField "gather_down" 146 2 "short" "UnitData" RI16 1 (Some true) None (Some W2) 19;
   mkField "good_obj" 148 2 "short" "UnitData" RI16 1 (Some true) None (Some W2) 20;
   mkField "mana_burn" 150 2 "short" "UnitData" RI16 1 (Some true) None (Some W2) 21;
   mkField "spell_time" 152 2 "short" "UnitData" RI16 1 (Some true) None (Some W2) 22;
   mkField "myspeed" 154 2 "short" "UnitData" RI16 1 (Some true) None (Some W2) 23;
   mkField "myarmor" 156 2 "short" "UnitData" RI16 1 (Some true) None (Some W2) 24;
   mkField "attrition" 158 2 "short" "UnitData" RI16 1 (Some true) None (Some W2) 25;
   mkField "num_queued" 160 2 "short" "UnitData" RI16 1 (Some true) None (Some W2) 26;
   mkField "cavarch_o" 162 2 "short" "UnitData" RI16 1 (Some true) None (Some W2) 27;
   mkField "damage_o" 164 2 "short" "UnitData" RI16 1 (Some true) None (Some W2) 28;
   mkField "cavarch_uid" 166 2 "unsigned short" "UnitData" RU16 1 (Some true) None (Some W2) 29;
   mkField "cavarch_who" 168 1 "char" "UnitData" RI8 1 (Some true) None (Some W1) 11;
   mkField "damage_who" 169 1 "char" "UnitData" RI8 1 (Some true) None (Some W1) 12;
   mkField "form" 170 1 "char" "UnitData" RI8 1 (Some true) None (Some W1) 13;
   mkField "form_mod" 171 1 "char" "UnitData" RI8 1 (Some true) None (Some W1) 14;
   mkField "full" 172 1 "char" "UnitData" RI8 1 (Some true) None (Some W1) 15;
   mkField "waiting" 173 1 "char" "UnitData" RI8 1 (Some true) None (Some W1) 16;
   mkField "recharging" 174 1 "unsigned char" "UnitData" RU8 1 (Some true) None (Some W1) 17;
   mkField "path_recursion" 175 1 "unsigned char" "UnitData" RU8 1 (Some true) None (Some W1) 18;
   mkField "idle" 176 1 "unsigned char" "UnitData" RU8 1 (Some true) None (Some W1) 19;
   mkField "stance" 177 1 "char" "UnitData" RI8 1 (Some true) None (Some W1) 20;
   mkField "safe" 178 1 "char" "UnitData" RI8 1 (Some true) None (Some W1) 21;
   mkField "collide_who" 179 1 "char" "UnitData" RI8 1 (Some true) None (Some W1) 22;
   mkField "inside_up_who" 180 1 "char" "UnitData" RI8 1 (Some true) None (Some W1) 23;
   mkField "guy_mark" 181 1 "char" "UnitData" RI8 1 (Some true) None (Some W1) 24;
   mkField "play" 182 1 "char" "UnitData" RI8 1 (Some true) None (Some W1) 25]%string.

Definition UNIT_REST_FIELDS : list FieldDesc :=
  [mkField "path" 184 16 "Stack<PathData>" "UnitData" RAggregate 0 (Some false) None None 0;
   mkField "orderlist" 200 28 "OrderList" "UnitData" RAggregate 0 (Some false) None None 0;
   mkField "guys" 228 28 "PtrArray<Guy>" "UnitData" RAggregate 0 (Some false) None None 0;
   mkField "const_guys" 256 4 "ConstPtrArray<Guy const >&" "UnitData" RAggregate 0 (Some false) None None 0;
   mkField "openlist" 260 4 "Tree<PathNode *,int>*" "UnitData" RAggregate 0 (Some false) None None 0;
   mkField "openlistrefs" 264 4 "BRTree<TreeNode<PathNode *,int> *,unsigned long>*" "UnitData" RAggregate 0 (Some false) None None 0;
   mkField "closedlist" 268 4 "BRTree<PathNode *,unsigned long>*" "UnitData" RAggregate 0 (Some false) None None 0;
   mkField "validlist" 272 4 "BRTree<int,unsigned long>*" "UnitData" RAggregate 0 (Some false) None None 0;
   mkField "blocklist" 276 4 "Tree<CollBlock *,int>*" "UnitData" RAggregate 0 (Some false) None None 0;
   mkField "temp_x" 280 4 "Coord" "UnitData" RI32 1 (Some false) None (Some W4) 19;
   mkField "temp_y" 284 4 "Coord" "UnitData" RI32 1 (Some false) None (Some W4) 20;
   mkField "avoid_x" 288 4 "Coord" "UnitData" RI32 1 (Some false) None (Some W4) 21;
   mkField "avoid_y" 292 4 "Coord" "UnitData" RI32 1 (Some false) None (Some W4) 22;
   mkField "tol" 296 4 "int" "UnitData" RI32 1 (Some false) None (Some W4) 23;
   mkField "offset" 300 4 "int" "UnitData" RI32 1 (Some false) None (Some W4) 24;
   mkField "start_dist" 304 4 "int" "UnitData" RI32 1 (Some false) None (Some W4) 25;
   mkField "valid_hit" 308 4 "int" "UnitData" RI32 1 (Some false) None (Some W4) 26;
   mkField "avoid_land" 312 4 "int" "UnitData" RI32 1 (Some false) None (Some W4) 27;
   mkField "avoid_sea" 316 4 "int" "UnitData" RI32 1 (Some false) None (Some W4) 28;
   mkField "endx" 320 4 "Coord" "UnitData" RI32 1 (Some false) None (Some W4) 29;
   mkField "endy" 324 4 "Coord" "UnitData" RI32 1 (Some false) None (Some W4) 30;
   mkField "traversed" 328 4 "int" "UnitData" RI32 1 (Some false) None (Some W4) 31;
   mkField "announce_frame" 332 4 "int" "UnitData" RI32 1 (Some false) None (Some W4) 32]%string.

Definition FIELDS : list FieldDesc := SUB_OBJECT_FIELDS ++ OBJECT_FIELDS ++ UNIT_WALKED_FIELDS ++ UNIT_REST_FIELDS.
Definition WALK_OPS : list WalkOp := [mkWalkOp 72 183 3 true].

Definition DESC : ClassDesc := mkClass "UnitData" 344 FIELDS (Some "Unit") (Some "0x0060cf40") WALK_OPS.

(** Every accessor, in the order of the source. *)
Definition UNIT_FIELDS : list (string * field) :=
  [("flags", f_flags); ("who", f_who); ("o", f_o); ("z_internal", f_z_internal); ("x_internal", f_x_internal);
   ("y_internal", f_y_internal); ("on_screen", f_on_screen); ("myhits", f_myhits); ("damage", f_damage);
   ("inside_down", f_inside_down); ("up", f_up); ("down", f_down); ("down_who", f_down_who); ("uid", f_uid);
   ("hold_frames", f_hold_frames); ("near_o", f_near_o); ("near_who", f_near_who); ("healing", f_healing);
   ("infiltrated", f_infiltrated); ("damage_frac", f_damage_frac); ("mylos", f_mylos); ("targeted", f_targeted);
   ("inside_down_who", f_inside_down_who); ("up_who", f_up_who); ("visible", f_visible); ("launch_frames", f_launch_frames);
   ("collide_frame", f_collide_frame); ("damage_frame", f_damage_frame); ("angle", f_angle); ("air_alt", f_air_alt);
   ("former_type", f_former_type); ("rare", f_rare); ("dest_angle", f_dest_angle); ("trench_angle", f_trench_angle);
   ("tolerance", f_tolerance); ("queue_time", f_queue_time); ("unit_masks", f_unit_masks); ("unit_masks2", f_unit_masks2);
   ("orders_x", f_orders_x); ("orders_y", f_orders_y); ("los_x", f_los_x); ("los_y", f_los_y); ("group", f_group);
   ("inside_up", f_inside_up); ("supply", f_supply); ("cara", f_cara); ("doober", f_doober); ("herd", f_herd); ("hero", f_hero);
   ("special", f_special); ("collide", f_collide); ("collide_o", f_collide_o); ("collide_guy", f_collide_guy); ("o_up", f_o_up);
   ("o_down", f_o_down); ("gather_down", f_gather_down); ("good_obj", f_good_obj); ("mana_burn", f_mana_burn);
   ("spell_time", f_spell_time); ("myspeed", f_myspeed); ("myarmor", f_myarmor); ("attrition", f_attrition);
   ("num_queued", f_num_queued); ("cavarch_o", f_cavarch_o); ("damage_o", f_damage_o); ("cavarch_uid", f_cavarch_uid);
   ("cavarch_who", f_cavarch_who); ("damage_who", f_damage_who); ("form", f_form); ("form_mod", f_form_mod); ("full", f_full);
   ("waiting", f_waiting); ("recharging", f_recharging); ("path_recursion", f_path_recursion); ("idle", f_idle);
   ("stance", f_stance); ("safe", f_safe); ("collide_who", f_collide_who); ("inside_up_who", f_inside_up_who);
   ("guy_mark", f_guy_mark); ("play", f_play); ("temp_x", f_temp_x); ("temp_y", f_temp_y); ("avoid_x", f_avoid_x);
   ("avoid_y", f_avoid_y); ("tol", f_tol); ("offset", f_offset); ("start_dist", f_start_dist); ("valid_hit", f_valid_hit);
   ("avoid_land", f_avoid_land); ("avoid_sea", f_avoid_sea); ("endx", f_endx); ("endy", f_endy); ("traversed", f_traversed);
   ("announce_frame", f_announce_frame)]%string.

(** ** The table is consistent *)

(** The column of a field. *)
Definition column (d : FieldDesc) : option field := p ← fpool d; Some (p, plane d).
Definition width (p : Pool) : Z := match p with W4 => 4 | W2 => 2 | W1 => 1 end.
Definition repr_pool (r : Repr) : option Pool :=
  match r with RI32 | RU32 => Some W4 | RI16 | RU16 => Some W2 | RI8 | RU8 => Some W1 | _ => None end.

#[export] Instance Repr_eq_dec : EqDecision Repr.
Proof. solve_decision. Defined.
#[export] Instance FieldDesc_eq_dec : EqDecision FieldDesc.
Proof. solve_decision. Defined.

(** A field lies inside the class, and its column has its width. *)
Definition fits (d : FieldDesc) : Prop :=
  0 <= offset d /\ 0 < size d /\ offset d + size d <= sizeof DESC /\ fpool d = repr_pool (repr d) /\
  (if fpool d is Some p then size d = width p * fcount d else fcount d = 0).
Definition disjoint_bytes (d e : FieldDesc) : Prop := offset d + size d <= offset e \/ offset e + size e <= offset d.
(** Neither bytes nor a column in common. *)
Definition separate (d e : FieldDesc) : Prop := disjoint_bytes d e /\ (column d = None \/ column d <> column e).
Definition visits (d : FieldDesc) (op : WalkOp) : Prop := op_begin op <= offset d /\ offset d + size d <= op_end op.

#[local] Instance fits_dec d : Decision (fits d).
Proof. unfold fits. destruct (fpool d); apply _. Defined.
#[local] Instance separate_dec : RelDecision separate.
Proof. intros d e. unfold separate, disjoint_bytes. apply (and_dec _ _). Defined.
#[local] Instance visits_dec d op : Decision (visits d op).
Proof. unfold visits. apply _. Defined.

Ltac by_evaluation := lazymatch goal with |- ?P => refine (bool_decide_eq_true_1 P _); vm_cast_no_check (eq_refl true) end.

Lemma fields_fit : Forall fits FIELDS.
Proof. by_evaluation. Qed.

Definition bases : list FieldDesc := List.filter unaliased FIELDS.

Fixpoint pairwise {A} (R : A -> A -> Prop) (l : list A) : Prop :=
  match l with [] => True | x :: l => Forall (R x) l /\ pairwise R l end.
#[local] Instance pairwise_dec {A} (R : A -> A -> Prop) `{!RelDecision R} l : Decision (pairwise R l).
Proof. induction l; simpl; apply _. Defined.

Lemma pairwise_spec {A} (R : A -> A -> Prop) l i j x y :
  pairwise R l -> l !! i = Some x -> l !! j = Some y -> (i < j)%nat -> R x y.
Proof.
  revert i j. induction l as [|z l IH]; intros i j P Hi Hj Hlt; [done|]. destruct P as [F P]. destruct i as [|i], j as [|j]; simpl in *; [lia| |lia|].
  - simplify_eq. rewrite Forall_lookup in F. by eapply F.
  - eapply IH; [done..|lia].
Qed.

Lemma bases_separate : pairwise separate bases.
Proof. by_evaluation. Qed.

Lemma walked_visits : Forall (fun d => is_walked d = true <-> Exists (visits d) WALK_OPS) FIELDS.
Proof. by_evaluation. Qed.

Lemma accessors_listed : Forall (fun nf => Exists (fun d => fname d = nf.1 /\ column d = Some nf.2) FIELDS) UNIT_FIELDS.
Proof. by_evaluation. Qed.
Lemma columns_accessed : Forall (fun d => column d = None \/ Exists (fun nf => nf.1 = fname d /\ column d = Some nf.2) UNIT_FIELDS) FIELDS.
Proof. by_evaluation. Qed.

Definition all_planes : list field := ((W4,.) <$> seq 0 W4_PLANES) ++ ((W2,.) <$> seq 0 W2_PLANES) ++ ((W1,.) <$> seq 0 W1_PLANES).

Lemma all_planes_spec f : is_field f <-> f ∈ all_planes.
Proof.
  unfold is_field, all_planes. rewrite !elem_of_app, !list_elem_of_fmap. setoid_rewrite elem_of_seq. destruct f as [p k]; simpl. split.
  - intros H. destruct p; [left|right; left|right; right]; exists k; (split; [done|]); simpl in H; lia.
  - intros [(? & [= -> ->] & ?)|[(? & [= -> ->] & ?)|(? & [= -> ->] & ?)]]; simpl; lia.
Qed.

(** Every plane is the column of exactly one field that is not an alias. *)
Lemma base_columns : omap column bases ≡ₚ all_planes.
Proof. by_evaluation. Qed.

Lemma aliases_point : Forall (fun d => alias_of d = None \/
    Exists (fun e => alias_of d = Some (fname e) /\ alias_of e = None /\ column d = column e /\ offset d = offset e /\ size d = size e) FIELDS) FIELDS.
Proof. by_evaluation. Qed.

Lemma names_unique : NoDup (fname <$> FIELDS).
Proof. by_evaluation. Qed.

Lemma bases_spec d : d ∈ bases <-> d ∈ FIELDS /\ alias_of d = None.
Proof. unfold bases. rewrite !list_elem_of_In, filter_In. unfold unaliased. destruct (alias_of d); (split; intros [? ?]; done). Qed.

Lemma separate_bases d e : d ∈ bases -> e ∈ bases -> d <> e -> separate d e.
Proof.
  intros (i & Hi)%list_elem_of_lookup (j & Hj)%list_elem_of_lookup Hne. destruct (Nat.lt_trichotomy i j) as [H|[->|H]].
  - exact (pairwise_spec _ _ _ _ _ _ bases_separate Hi Hj H).
  - congruence.
  - destruct (pairwise_spec _ _ _ _ _ _ bases_separate Hj Hi H) as [D C]. unfold separate, disjoint_bytes in *. split; [tauto|].
    destruct C as [C|C]; [|right; congruence]. destruct (column d); [right; congruence|by left].
Qed.

(** The descriptor table of the unit class is consistent.  The accessors are
    the columns it lists, name by name; a field lies inside the class and its
    column has its width; no two fields share a byte unless one is declared an
    alias of the other, and an alias has the place and the column of what it
    names; every plane of the store is the column of one field that is no
    alias, so writing one field changes no other; and a field is marked walked
    exactly when the walker's byte range contains it, the fields so marked
    filling that range. *)
Theorem unit_table_consistent :
  (forall n f, (n, f) ∈ UNIT_FIELDS <-> exists d, d ∈ FIELDS /\ fname d = n /\ column d = Some f) /\
  (forall d, d ∈ FIELDS -> fits d) /\
  (forall d e, d ∈ FIELDS -> e ∈ FIELDS -> alias_of d = None -> alias_of e = None -> d <> e ->
     separate d e) /\
  (forall d n, d ∈ FIELDS -> alias_of d = Some n ->
     exists e, e ∈ FIELDS /\ fname e = n /\ alias_of e = None /\ column d = column e /\ offset d = offset e /\ size d = size e) /\
  (forall f, is_field f <-> exists d, d ∈ FIELDS /\ alias_of d = None /\ column d = Some f) /\
  (forall d, d ∈ FIELDS -> is_walked d = true <-> exists op, op ∈ WALK_OPS /\ visits d op) /\
  walked_materialised_bytes DESC = fold_right Z.add 0 ((fun op => op_end op - op_begin op) <$> WALK_OPS).
Proof.
  split_and!.
  - intros n f. split.
    + intros H. pose proof (proj1 (Forall_forall _ _) accessors_listed _ H) as (d & Hd & E)%Exists_exists. by exists d.
    + intros (d & Hd & <- & E). destruct (proj1 (Forall_forall _ _) columns_accessed _ Hd) as [E'|E']; [congruence|].
      apply Exists_exists in E' as ([n f'] & Hin & <- & E'). rewrite E in E'. simpl in *. by simplify_eq.
  - apply Forall_forall, fields_fit.
  - intros d e Hd He Ad Ae. apply separate_bases; by apply bases_spec.
  - intros d n Hd A. destruct (proj1 (Forall_forall _ _) aliases_point _ Hd) as [E|E]; [congruence|].
    apply Exists_exists in E as (e & He & E1 & E2). exists e. split; [done|]. split; [congruence|done].
  - intros f. rewrite all_planes_spec, <- base_columns, list_elem_of_omap. split.
    + intros (d & [Hd A]%bases_spec & C). by exists d.
    + intros (d & Hd & A & C). exists d. by rewrite bases_spec.
  - intros d Hd. rewrite (proj1 (Forall_forall _ _) walked_visits _ Hd). apply Exists_exists.
  - reflexivity.
Qed.
