(* ===== verification/SimWorld.v ===== *)
(** * The simulation world and its frame

    [crates/don-sim/src/world.rs] (with [schedule.rs] for the frame's step
    counters and [balance.rs]/[balance_path.rs] for the table the attack
    reads): the unit columns of [SimCols] with one order list, type and
    movement step per row; the dense registry of [SimObjects] and the sparse
    one of [SimSparse], which every spawn and despawn keeps in step; the
    generational handles; the frame.

    Rows, handle counts and owners are [nat]; ids, generations, coordinates and
    counters are [Z] of their width.  [None] from an operation is a panic.  The
    traversal buffer is scratch that every frame overwrites, and
    [item_runtime] is never read or written by an operation modelled here;
    neither is a field.  Counters of the coverage record are [u64] and are not
    wrapped. *)

From stdpp Require Import strings.
From S2P Require Import Prelude SimArith SimTrig SimKernels SimDamage SimRandom SimObjects SimSparse SimCols SimPayload SimOrder.
#[local] Open Scope i32_scope.
#[local] Open Scope Z_scope.

Definition COORD_PER_TILE : Z := 0x300.
Definition SUBTILE : Z := COORD_PER_TILE / 4.
Definition MAX_UNITS : nat := 4096.
Definition MAP_SPAN : Z := 256 * COORD_PER_TILE.
Definition NO_ROW : Z := U32_MAX.
Definition OBJ_FLAG_ACTIVE : Z := 1.
Definition FRAMES_PER_SECOND : Z := 15.
Definition WILDLIFE_PERIOD : Z := 32.
(** [DO_FRAME.len()]. *)
Definition DO_FRAME_STEPS : nat := 29.

(** [enum WorldObjectIdentity]. *)
Inductive WorldObjectIdentity := IdUnit (id generation : Z) | BuildRow (row : Z) | WallRow (row : Z).

#[export] Instance WorldObjectIdentity_eq_dec : EqDecision WorldObjectIdentity.
Proof. solve_decision. Defined.
#[export] Instance WorldObjectIdentity_countable : Countable WorldObjectIdentity.
Proof.
  refine (inj_countable'
    (fun i => match i with IdUnit a b => inl (a, b) | BuildRow r => inr (inl r) | WallRow r => inr (inr r) end)
    (fun s => match s with inl (a, b) => IdUnit a b | inr (inl r) => BuildRow r | inr (inr r) => WallRow r end) _).
  by intros [].
Defined.

Definition identity_of (h : Handle) : WorldObjectIdentity := IdUnit (id h) (generation h).

(** [struct Coverage], with [ScheduleCoverage] as the list of its counters. *)
Record Coverage := mkCoverage {
  schedule : list Z; orders : OrderCoverage; unit_process_n : Z; unit_work_n : Z; guy_move_n : Z; hold_decrements : Z;
  build_process : Z; wall_process : Z; wildlife_draws_skipped : Z; damage_applied : Z; damage_skipped_no_tables : Z }.

Definition Coverage_default : Coverage :=
  mkCoverage (replicate DO_FRAME_STEPS 0) OrderCoverage_default 0 0 0 0 0 0 0 0 0.

(** [ScheduleCoverage::enter]. *)
Definition enter (s : nat) (c : Coverage) : option Coverage :=
  n ← schedule c !! s;
  Some (mkCoverage (<[s := n + 1]> (schedule c)) (orders c) (unit_process_n c) (unit_work_n c) (guy_move_n c) (hold_decrements c)
          (build_process c) (wall_process c) (wildlife_draws_skipped c) (damage_applied c) (damage_skipped_no_tables c)).
Fixpoint enter_all (ss : list nat) (c : Coverage) : option Coverage :=
  match ss with [] => Some c | s :: ss => c ← enter s c; enter_all ss c end.

(** [coverage.x += 1]. *)
Definition set_order_coverage (o : OrderCoverage) (c : Coverage) : Coverage :=
  mkCoverage (schedule c) o (unit_process_n c) (unit_work_n c) (guy_move_n c) (hold_decrements c) (build_process c) (wall_process c)
    (wildlife_draws_skipped c) (damage_applied c) (damage_skipped_no_tables c).
Definition count (up uw gm hd bp wp wd da ds : Z) (c : Coverage) : Coverage :=
  mkCoverage (schedule c) (orders c) (unit_process_n c + up) (unit_work_n c + uw) (guy_move_n c + gm) (hold_decrements c + hd)
    (build_process c + bp) (wall_process c + wp) (wildlife_draws_skipped c + wd) (damage_applied c + da) (damage_skipped_no_tables c + ds).
Definition count_unit_process : Coverage -> Coverage := count 1 0 0 0 0 0 0 0 0.
Definition count_unit_work : Coverage -> Coverage := count 0 1 0 0 0 0 0 0 0.
Definition count_guy_move : Coverage -> Coverage := count 0 0 1 0 0 0 0 0 0.
Definition count_hold : Coverage -> Coverage := count 0 0 0 1 0 0 0 0 0.
Definition count_build : Coverage -> Coverage := count 0 0 0 0 1 0 0 0 0.
Definition count_wall : Coverage -> Coverage := count 0 0 0 0 0 1 0 0 0.
Definition count_wildlife : Coverage -> Coverage := count 0 0 0 0 0 0 1 0 0.
Definition count_damage : Coverage -> Coverage := count 0 0 0 0 0 0 0 1 0.
Definition count_no_tables : Coverage -> Coverage := count 0 0 0 0 0 0 0 0 1.

Definition Coverage_merge (a b : Coverage) : Coverage :=
  mkCoverage (zip_with Z.add (schedule a) (schedule b)) (OrderCoverage_merge (orders a) (orders b))
    (unit_process_n a + unit_process_n b) (unit_work_n a + unit_work_n b) (guy_move_n a + guy_move_n b)
    (hold_decrements a + hold_decrements b) (build_process a + build_process b) (wall_process a + wall_process b)
    (wildlife_draws_skipped a + wildlife_draws_skipped b) (damage_applied a + damage_applied b)
    (damage_skipped_no_tables a + damage_skipped_no_tables b).

(** [struct UnitTypeStats] and [struct SharedRules]. *)
Record UnitTypeStats := mkStats {
  type_id : Z; st_attack : Z; st_armor : Z; st_hits : Z; st_recharge : Z; st_max_range : Z; st_min_range : Z }.

(** [struct BalanceTable]: [493 * 493] entries. *)
Record BalanceTable := mkBalance { data : list Z }.

Definition FIRST_TYPE : Z := 50.
Definition LAST_TYPE : Z := 542.
Definition DIM : Z := 493.
Definition balance_row (t : Z) : option Z := if (FIRST_TYPE <=? t) && (t <=? LAST_TYPE) then Some (t - FIRST_TYPE) else None.
Definition table_index (a d : Z) : option Z := x ← balance_row a; y ← balance_row d; Some (x * DIM + y).
Definition BalanceTable_get (a d : Z) (t : BalanceTable) : option Z := i ← table_index a d; data t !! Z.to_nat i.

Record SharedRules := mkRules { balance : option BalanceTable; unit_stats : list UnitTypeStats; combat : Mechanics.CombatRules }.

(** [CombatRules::default()]: every field zero. *)
Definition CombatRules_default : Mechanics.CombatRules := Mechanics.mkCombatRules 0 0 0 0 0 0 0 0 0 0 0 0 0 0 0.
Definition SharedRules_default : SharedRules := mkRules None [] CombatRules_default.

(** [enum WorldSaveError]. *)
Inductive WorldSaveError :=
| SaveCapacity
| SaveLength (name : string)
| HandlePermutation
| SaveOrderTarget (row order : nat) (handle : Handle)
| SaveOwner (row : nat) (owner : Z)
| SaveObjectIndex (row : nat) (index : Z)
| DuplicateObjectIndex (owner index : nat)
| RegistryMismatch
| UnsupportedObjectBand.

Module World.

Record t := mk {
  units : UnitCols.t; unit_orders : list OrderList.t; unit_type_id : list Z; move_step_x : list Z; move_step_y : list Z;
  objects : ObjectRegistry.t; object_bands : SparseObjectBands.t WorldObjectIdentity;
  handle_of_row : list Z; row_of_handle : list Z; generations : list Z; live : nat; capacity : nat;
  frame : Z; seconds : Z; random : Random.t; rules : SharedRules; coverage : Coverage }.

Definition with_capacity (c : nat) (seed : Z) : t :=
  let n := Nat.min c MAX_UNITS in
  mk (UnitCols.with_capacity n) [] [] [] [] ObjectRegistry.new SparseObjectBands.new
     (Z.of_nat <$> seq 0 n) (replicate n NO_ROW) (replicate n 0) 0 n 0 0 (Random.new (i32 seed)) SharedRules_default Coverage_default.

Definition set_units (x : UnitCols.t) (w : t) : t :=
  mk x (unit_orders w) (unit_type_id w) (move_step_x w) (move_step_y w) (objects w) (object_bands w) (handle_of_row w)
     (row_of_handle w) (generations w) (live w) (capacity w) (frame w) (seconds w) (random w) (rules w) (coverage w).
Definition set_unit_orders (x : list OrderList.t) (w : t) : t :=
  mk (units w) x (unit_type_id w) (move_step_x w) (move_step_y w) (objects w) (object_bands w) (handle_of_row w)
     (row_of_handle w) (generations w) (live w) (capacity w) (frame w) (seconds w) (random w) (rules w) (coverage w).
Definition set_steps (x y : list Z) (w : t) : t :=
  mk (units w) (unit_orders w) (unit_type_id w) x y (objects w) (object_bands w) (handle_of_row w)
     (row_of_handle w) (generations w) (live w) (capacity w) (frame w) (seconds w) (random w) (rules w) (coverage w).
Definition set_registries (x : ObjectRegistry.t) (y : SparseObjectBands.t WorldObjectIdentity) (w : t) : t :=
  mk (units w) (unit_orders w) (unit_type_id w) (move_step_x w) (move_step_y w) x y (handle_of_row w)
     (row_of_handle w) (generations w) (live w) (capacity w) (frame w) (seconds w) (random w) (rules w) (coverage w).
Definition set_clock (f s : Z) (w : t) : t :=
  mk (units w) (unit_orders w) (unit_type_id w) (move_step_x w) (move_step_y w) (objects w) (object_bands w) (handle_of_row w)
     (row_of_handle w) (generations w) (live w) (capacity w) f s (random w) (rules w) (coverage w).
Definition set_coverage (c : Coverage) (w : t) : t :=
  mk (units w) (unit_orders w) (unit_type_id w) (move_step_x w) (move_step_y w) (objects w) (object_bands w) (handle_of_row w)
     (row_of_handle w) (generations w) (live w) (capacity w) (frame w) (seconds w) (random w) (rules w) c.
Definition count_in (f : Coverage -> Coverage) (w : t) : t := set_coverage (f (coverage w)) w.

(** ** Lookups *)

(** [type_stats]. *)
Definition type_stats (ty : Z) (w : t) : option UnitTypeStats :=
  if ty <=? 0 then None else snd <$> list_find (fun s => type_id s = ty) (unit_stats (rules w)).

(** [row_of].  The tables have [capacity] entries, so the indexing is in range. *)
Definition row_of (h : Handle) (w : t) : option nat :=
  if decide (Z.of_nat (capacity w) <= id h) then None
  else
    g ← generations w !! Z.to_nat (id h);
    if decide (g <> generation h) then None
    else
      row ← row_of_handle w !! Z.to_nat (id h);
      if decide (Z.of_nat (live w) <= row) then None
      else
        i ← handle_of_row w !! Z.to_nat row;
        if decide (i <> id h) then None else Some (Z.to_nat row).

Definition is_alive (h : Handle) (w : t) : bool := bool_decide (is_Some (row_of h w)).

Definition handle_at_row (row : nat) (w : t) : option Handle :=
  if decide (live w <= row)%nat then None
  else i ← handle_of_row w !! row; g ← generations w !! Z.to_nat i; Some (mkHandle i g).

Definition unit_row_at (who o : Z) (w : t) : option nat :=
  if (who <? 0) || bool_decide (SimSparse.OWNER_SLOTS <= Z.to_nat who)%nat || negb (RetailBand.contains RetailBand.Unit o) then None
  else match SparseObjectBands.live_identity (mkAddress (Z.to_nat who) RetailBand.Unit o) (object_bands w) with
       | Some (IdUnit i g) => row_of (mkHandle i g) w
       | _ => None
       end.

Definition unit_mark (owner : nat) (w : t) : option Z := SparseObjectBands.get_mark owner RetailBand.Unit (object_bands w).

(** ** Spawning *)

(** The header writes, in order, of a new row. *)
Definition fresh_fields (owner : nat) (i o x y ang speed : Z) (stats : option UnitTypeStats) : list (field * Z) :=
  [(f_x_internal, x); (f_y_internal, y); (f_angle, ang); (f_myspeed, i16 speed); (f_flags, i8 OBJ_FLAG_ACTIVE);
   (f_who, i8 (Z.of_nat owner)); (f_o, i16 o); (f_uid, i16 (u16 (Z.land i 0xFFFF))); (f_o_up, -1); (f_inside_up, -1);
   (f_inside_up_who, -1); (f_tolerance, SUBTILE);
   (f_myhits, match stats with Some s => Z.max (st_hits s) 1 | None => 100 end);
   (f_myarmor, match stats with Some s => i16 (clamp (-32768) 32767 (st_armor s)) | None => 0 end)].

(** What both allocators do once the position is known: the row's fields, the
    side vectors, the handle, and the mirror of the dense append with its
    assertion. *)
Definition allocate (owner : nat) (ty : Z) (row : nat) (u : UnitCols.t) (i o : Z) (objs : ObjectRegistry.t)
    (x y ang speed : Z) (rnd : Random.t) (w : t) : option (option Handle * t) :=
  u ← UnitCols.writes row (fresh_fields owner i o x y ang speed (type_stats ty w)) u;
  if decide (length (row_of_handle w) <= Z.to_nat i)%nat then None
  else
    g ← generations w !! Z.to_nat i;
    match SparseObjectBands.mirror_dense_append owner RetailBand.Unit (IdUnit i g) (object_bands w) with
    | Err _ => None
    | Ok (mirror, bands) =>
        if decide (a_o (inserted_address mirror) <> o) then None
        else
          Some (Some (mkHandle i g),
                mk u (unit_orders w ++ [OrderList.new]) (unit_type_id w ++ [ty]) (move_step_x w ++ [0]) (move_step_y w ++ [0])
                   objs bands (handle_of_row w) (<[Z.to_nat i := Z.of_nat row]> (row_of_handle w)) (generations w)
                   (S (live w)) (capacity w) (frame w) (seconds w) rnd (rules w) (coverage w))
    end.

(** [self.live >= self.capacity || owner as usize >= OWNER_SLOTS]. *)
Definition refuses (owner : nat) (w : t) : bool :=
  bool_decide (capacity w <= live w)%nat || bool_decide (OWNER_SLOTS <= owner)%nat.

Definition spawn_typed (owner : nat) (ty : Z) (w : t) : option (option Handle * t) :=
  if refuses owner w then Some (None, w)
  else match UnitCols.push_zeroed (units w) with
       | None => Some (None, w)
       | Some (row, u) =>
           i ← handle_of_row w !! row;
           '(o, objs) ← ObjectRegistry.insert owner Unit (Z.of_nat row) (objects w);
           let '(x, r) := Random.get 0 MAP_SPAN (random w) in
           let '(y, r) := Random.get 0 MAP_SPAN r in
           let '(a, r) := Random.get 0 0xFFFF r in
           let ang := wshl a 16 in
           let '(speed, r) := Random.get 8 64 r in
           allocate owner ty row u i o objs x y ang speed r w
       end.

Definition spawn (owner : nat) (w : t) : option (option Handle * t) := spawn_typed owner 0 w.

Definition allocate_typed_at (owner : nat) (ty x y : Z) (w : t) : option (option Handle * t) :=
  if refuses owner w then Some (None, w)
  else match UnitCols.push_zeroed (units w) with
       | None => Some (None, w)
       | Some (row, u) =>
           i ← handle_of_row w !! row;
           '(o, objs) ← ObjectRegistry.insert owner Unit (Z.of_nat row) (objects w);
           allocate owner ty row u i o objs x y 0 0 (random w) w
       end.

(** ** Despawning *)

(** [Vec::swap_remove]; [None] past the end. *)
Definition swap_remove {A} (i : nat) (l : list A) : option (list A) :=
  if decide (i < length l)%nat then x ← last l; Some (take (length l - 1) (<[i := x]> l)) else None.
(** [Vec::pop], its value dropped. *)
Definition pop {A} (l : list A) : list A := take (length l - 1) l.

(** The assertions on the two removal receipts. *)
Definition receipts_agree (dense : option (Z * Z)) (sparse : option (WorldObjectIdentity * RetailObjectAddress)) (w : t) : bool :=
  match dense, sparse with
  | None, None => true
  | Some (mr, new_o), Some (mi, ma) =>
      bool_decide ((i ← handle_of_row w !! Z.to_nat mr; g ← generations w !! Z.to_nat i; Some (IdUnit i g)) = Some mi)
      && (a_o ma =? new_o)
  | _, _ => false
  end.

(** Step 1: unregister.  The columns, both registries. *)
Definition unregister (h : Handle) (row : nat) (w : t)
  : option (UnitCols.t * ObjectRegistry.t * SparseObjectBands.t WorldObjectIdentity) :=
  who ← UnitCols.get_u8 f_who row (units w);
  o ← UnitCols.get f_o row (units w);
  '(dense_moved, objs) ← ObjectRegistry.remove (Z.to_nat who) Unit (u32 o) (objects w);
  u ← (match dense_moved with
       | Some (mr, new_o) => UnitCols.set f_o (Z.to_nat mr) (i16 new_o) (units w)
       | None => Some (units w)
       end);
  match SparseObjectBands.mirror_dense_swap_remove (mkAddress (Z.to_nat who) RetailBand.Unit (i32 (u32 o))) (identity_of h) (object_bands w) with
  | Err _ => None
  | Ok (removed, bands) => if receipts_agree dense_moved (moved removed) w then Some (u, objs, bands) else None
  end.

(** Step 2: the last row moves into the hole. *)
Definition compact (row last_ : nat) (u : UnitCols.t) (objs : ObjectRegistry.t) (w : t)
  : option (UnitCols.t * ObjectRegistry.t * list OrderList.t * list Z * list Z * list Z * list Z * list Z) :=
  if decide (row <> last_) then
    let u := UnitCols.copy_row row last_ u in
    os ← swap_remove row (unit_orders w);
    ts ← swap_remove row (unit_type_id w);
    xs ← swap_remove row (move_step_x w);
    ys ← swap_remove row (move_step_y w);
    mwho ← UnitCols.get_u8 f_who row u;
    mo ← UnitCols.get f_o row u;
    objs ← ObjectRegistry.repoint (Z.to_nat mwho) Unit (u32 mo) (Z.of_nat row) objs;
    m ← handle_of_row w !! last_;
    Some (u, objs, os, ts, xs, ys, <[row := m]> (handle_of_row w), <[Z.to_nat m := Z.of_nat row]> (row_of_handle w))
  else Some (u, objs, pop (unit_orders w), pop (unit_type_id w), pop (move_step_x w), pop (move_step_y w), handle_of_row w, row_of_handle w).

Definition despawn (h : Handle) (w : t) : option (bool * t) :=
  match row_of h w with
  | None => Some (false, w)
  | Some row =>
      let last_ := (live w - 1)%nat in
      '(u, objs, bands) ← unregister h row w;
      '(u, objs, os, ts, xs, ys, hs, rs) ← compact row last_ u objs w;
      g ← generations w !! Z.to_nat (id h);
      Some (true,
            mk (UnitCols.pop u) os ts xs ys objs bands (<[last_ := id h]> hs) rs
               (<[Z.to_nat (id h) := u32 (g + 1)]> (generations w)) (live w - 1) (capacity w)
               (frame w) (seconds w) (random w) (rules w) (coverage w))
  end.

(** ** Orders and views *)

Definition issue (h : Handle) (q : Order) (w : t) : bool * t :=
  match row_of h w with
  | None => (false, w)
  | Some row => (true, set_unit_orders (alter (OrderList.replace q) row (unit_orders w)) w)
  end.

Definition set_pos (row : nat) (x y : Z) (w : t) : option t :=
  u ← UnitCols.set f_x_internal row x (units w); u ← UnitCols.set f_y_internal row y u; Some (set_units u w).
Definition set_move_step (row : nat) (sx sy : Z) (w : t) : option t :=
  if decide (row < length (move_step_x w) /\ row < length (move_step_y w))%nat
  then Some (set_steps (<[row := sx]> (move_step_x w)) (<[row := sy]> (move_step_y w)) w) else None.
Definition advance_frames (n : Z) (w : t) : t := set_clock (frame w +w n) (seconds w) w.

Definition set_object_owner_active (owner : nat) (on : bool) (w : t) : option (bool * t) :=
  if decide (OWNER_SLOTS <= owner)%nat then Some (false, w)
  else match SparseObjectBands.set_active owner on (object_bands w) with
       | Ok bands => Some (true, set_registries (ObjectRegistry.set_active owner on (objects w)) bands w)
       | Err _ => None
       end.

Definition mirror_dense_non_unit_append (owner : nat) (b : Band) (row expected_o : Z) (w : t) : result WorldSaveError t :=
  let? '(rb, i) := (match b with
                    | Build => Ok (RetailBand.Build, BuildRow row)
                    | Wall => Ok (RetailBand.Wall, WallRow row)
                    | Unit => Err RegistryMismatch
                    end) in
  let? '(receipt, bands) := map_err (fun _ => RegistryMismatch) (SparseObjectBands.mirror_dense_append owner rb i (object_bands w)) in
  if negb (a_o (inserted_address receipt) =? expected_o) then Err RegistryMismatch
  else Ok (set_registries (objects w) bands w).

(** The registry part of [Sim::spawn_build] and [Sim::spawn_wall] of [tick.rs]:
    the dense insertion and its mirror, under an [expect]. *)
Definition register_non_unit (owner : nat) (b : Band) (row : Z) (w : t) : option t :=
  '(o, objs) ← ObjectRegistry.insert owner b row (objects w);
  match mirror_dense_non_unit_append owner b row o (set_registries objs (object_bands w) w) with Ok w => Some w | Err _ => None end.

(** ** The frame *)

Definition set_move (row : nat) (sx sy : Z) (w : t) : option t := set_move_step row sx sy w.

(** [self.unit_orders[row].kill_current()]. *)
Definition kill_current (row : nat) (w : t) : option t :=
  l ← unit_orders w !! row; Some (set_unit_orders (<[row := (OrderList.kill_current l).2]> (unit_orders w)) w).

Definition get_z (f : field) (row : nat) (w : t) : option Z := UnitCols.get f row (units w).
Definition set_z (f : field) (row : nat) (v : Z) (w : t) : option t := u ← UnitCols.set f row v (units w); Some (set_units u w).

(** [(dx as i64) * (dx as i64) + (dy as i64) * (dy as i64)]. *)
Definition dist2 (dx dy : Z) : Z := i64 (dx * dx + dy * dy).

Definition do_move (row : nat) (w : t) : option t :=
  l ← unit_orders w !! row;
  match OrderList.current l with
  | None => set_move row 0 0 w
  | Some ord =>
      x ← get_z f_x_internal row w;
      y ← get_z f_y_internal row w;
      let dx := ox ord -w x in
      let dy := oy ord -w y in
      tol ← (if 0 <? tolerance ord then Some (tolerance ord) else get_z f_tolerance row w);
      if dist2 dx dy <=? tol * tol then
        w ← kill_current row w; w ← set_move row 0 0 w; set_z f_idle row 1 w
      else
        let a := find_angle dx dy in
        w ← set_z f_angle row a w;
        w ← set_z f_idle row 0 w;
        speed ← get_z f_myspeed row w;
        set_move row (sinx a speed) (wneg (cosx a speed)) w
  end.

(** The [DamageInput] of an attack, the rest default. *)
Definition damage_input (pct atk arm dir player at_ dt facing fr : Z) : Mechanics.DamageInput :=
  Mechanics.mkDamageInput pct atk arm 0 0 dir 0 0 player at_ 0 0 0 0 false dt 0 false 0 0 false 0 facing facing 0 0 0 fr false false 0.

(** In range: the blow, the recharge, and the flag of a target with no hits left. *)
Definition strike (row trow : nat) (atk def : UnitTypeStats) (pct dx dy : Z) (w : t) : option t :=
  who ← UnitCols.get_u8 f_who row (units w);
  facing ← get_z f_angle trow w;
  d ← Mechanics.damage
        (damage_input pct (Mechanics.get_attack (st_attack atk) false 0 0) (Mechanics.get_armor (st_armor def) false 0 0)
           (find_angle dx dy) who (type_id atk) (type_id def) facing (frame w))
        Mechanics.nothing (combat (rules w)) Mechanics.no_terms;
  hits ← get_z f_myhits trow w;
  let hp := hits -w d in
  w ← set_z f_myhits trow hp w;
  w ← set_z f_recharging row (i8 (clamp 0 255 (st_recharge atk))) w;
  let w := count_in count_damage w in
  if hp <=? 0 then
    f ← UnitCols.get_u8 f_flags trow (units w);
    set_z f_flags trow (i8 (Z.land f (u8 (Z.lnot OBJ_FLAG_ACTIVE)))) w
  else Some w.

(** The target is known: the range gate. *)
Definition engage (row trow : nat) (b : BalanceTable) (w : t) : option t :=
  atk_type ← unit_type_id w !! row;
  def_type ← unit_type_id w !! trow;
  match type_stats atk_type w, type_stats def_type w with
  | Some atk, Some def =>
      tx ← get_z f_x_internal trow w; x ← get_z f_x_internal row w;
      ty ← get_z f_y_internal trow w; y ← get_z f_y_internal row w;
      let dx := tx -w x in
      let dy := ty -w y in
      let r := st_max_range atk in
      if r * r <? dist2 dx dy then
        let a := find_angle dx dy in
        w ← set_z f_angle row a w;
        speed ← get_z f_myspeed row w;
        set_move row (sinx a speed) (wneg (cosx a speed)) w
      else
        w ← set_move row 0 0 w;
        match BalanceTable_get (type_id atk) (type_id def) b with
        | None => Some (count_in count_no_tables w)
        | Some pct => strike row trow atk def pct dx dy w
        end
  | _, _ => Some (count_in count_no_tables w)
  end.

Definition do_attack (row : nat) (w : t) : option t :=
  l ← unit_orders w !! row;
  match OrderList.current l with
  | None => Some w
  | Some ord =>
      if (target_who ord <? 0) || (target_o ord <? 0) then kill_current row w
      else
        recharging ← UnitCols.get_u8 f_recharging row (units w);
        if 0 <? recharging then set_z f_recharging row (i8 (recharging - 1)) w
        else
          match balance (rules w) with
          | None => Some (count_in count_no_tables w)
          | Some b =>
              match unit_row_at (target_who ord) (target_o ord) w with
              | None => kill_current row w
              | Some trow =>
                  if decide (live w <= trow \/ trow = row)%nat then kill_current row w else engage row trow b w
              end
          end
  end.

Definition unit_work (row : nat) (w : t) : option t :=
  let w := count_in count_unit_work w in
  l ← unit_orders w !! row;
  let kind := OrderList.order_type l in
  '(status, oc) ← record_order kind (orders (coverage w));
  let w := set_coverage (set_order_coverage oc (coverage w)) w in
  if decide (status = Unimplemented) then Some w
  else match kind with
       | NoOrder => set_move row 0 0 w
       | MoveTo | FleeTo => do_move row w
       | Attack => do_attack row w
       | _ => Some w
       end.

Definition guy_process (row : nat) (w : t) : option t :=
  let w := count_in count_guy_move w in
  x ← get_z f_x_internal row w; sx ← move_step_x w !! row;
  y ← get_z f_y_internal row w; sy ← move_step_y w !! row;
  w ← set_z f_x_internal row ((x +w sx) mod MAP_SPAN) w;
  set_z f_y_internal row ((y +w sy) mod MAP_SPAN) w.

Definition unit_process (row : nat) (w : t) : option t :=
  let w := count_in count_unit_process w in
  w ← unit_work row w; guy_process row w.

Definition tick_unit_tombstone_hold (a : RetailObjectAddress) (w : t) : result SparseRegistryError (Z * t) :=
  if negb (bool_decide (a_band a = RetailBand.Unit)) then Err InvalidObjectIndex
  else let? '(h, bands) := SparseObjectBands.tick_tombstone_hold a (object_bands w) in Ok (h, set_registries (objects w) bands w).

(** One entry of the walk. *)
Definition process_entry (e : TraversalEntry WorldObjectIdentity) (w : t) : option t :=
  match a_band (entry_address e), entry_lifecycle e with
  | RetailBand.Unit, Live (IdUnit i g) =>
      match row_of (mkHandle i g) w with
      | None => Some w
      | Some row =>
          fl ← UnitCols.get_u8 f_flags row (units w);
          if negb (Z.land fl OBJ_FLAG_ACTIVE =? 0) then unit_process row w
          else
            hf ← UnitCols.get_u16 f_hold_frames row (units w);
            if negb (hf =? 0) then w ← set_z f_hold_frames row (i16 (hf - 1)) w; Some (count_in count_hold w) else Some w
      end
  | RetailBand.Unit, Tombstone facts =>
      if (Z.land (flags facts) OBJ_FLAG_ACTIVE =? 0) && negb (hold_frames facts =? 0) then
        match tick_unit_tombstone_hold (entry_address e) w with
        | Ok (_, w) => Some (count_in count_hold w)
        | Err _ => None
        end
      else Some w
  | RetailBand.Build, Live (BuildRow _) => Some (count_in count_build w)
  | RetailBand.Wall, Live (WallRow _) => Some (count_in count_wall w)
  | _, Reserved _ _ => None
  | _, _ => Some w
  end.

Fixpoint process_entries (es : list (TraversalEntry WorldObjectIdentity)) (w : t) : option t :=
  match es with [] => Some w | e :: es => w ← process_entry e w; process_entries es w end.

Definition objects_process_all (w : t) : option t :=
  let fr := frame w in
  order ← SparseObjectBands.traversal fr (object_bands w);
  w ← process_entries order w;
  Some (if Z.rem fr WILDLIFE_PERIOD =? 0 then count_in count_wildlife w else w).

Definition enter_steps (ss : list nat) (w : t) : option t := c ← enter_all ss (coverage w); Some (set_coverage c w).

Definition step (w : t) : option t :=
  w ← enter_steps (seq 0 14) w;
  w ← enter_steps [14%nat] w;
  w ← objects_process_all w;
  w ← enter_steps (seq 15 5) w;
  w ← enter_steps [20%nat] w;
  let w := set_clock (frame w +w 1) (seconds w) w in
  w ← enter_steps [21%nat; 22%nat] w;
  w ← enter_steps [23%nat] w;
  let w := if Z.rem (frame w) FRAMES_PER_SECOND =? 0 then set_clock (frame w) (seconds w +w 1) w else w in
  enter_steps (seq 24 (DO_FRAME_STEPS - 24)) w.

(** ** The element-wise subset *)

(** The three kernels over the live rows of the two positions and the hold
    counters, with the frame counter. *)
Definition hot (integrate : list Z -> list Z -> Z -> list Z) (down : list Z -> list Z) (w : t) : t :=
  let n := live w in
  let u := units w in
  let u := UnitCols.put_slice f_x_internal (integrate (UnitCols.slice f_x_internal u) (take n (move_step_x w)) MAP_SPAN) u in
  let u := UnitCols.put_slice f_y_internal (integrate (UnitCols.slice f_y_internal u) (take n (move_step_y w)) MAP_SPAN) u in
  let u := UnitCols.put_slice f_hold_frames (down (UnitCols.slice f_hold_frames u)) u in
  set_clock (frame w +w 1) (seconds w) (set_units u w).

Definition step_hot : t -> t := hot integrate_wrap tick_down.
Definition step_scalar_reference : t -> t := hot integrate_wrap_scalar tick_down_scalar.
Definition step_hand_simd (tgt : target) : t -> t := hot (hand.integrate_wrap tgt) (hand.tick_down tgt).

End World.
