(* ===== verification/SimWorldSpec.v ===== *)
(** * The world: its invariant, spawning and despawning

    Over [SimWorld].  The invariant ties four views of a unit together: its
    dense row, its generational handle, its entry in the dense registry and its
    slot in the sparse one.  Every operation keeps it and, but for one case the
    theorems name, none of them panics; a handle resolves to its own unit for as
    long as the unit lives and to nothing afterwards. *)

From S2P Require Import Prelude SimArith SimTrig SimKernels SimDamage SimRandom SimObjects SimSparse SimSparseSpec SimCols SimPayload SimOrder SimWorld.
#[local] Open Scope Z_scope.

(** ** The sparse registry as a mirror of dense bands *)

Section mirror.
Context {I : Type} `{Countable I}.
Import SparseObjectBands.
Implicit Types (s : SparseObjectBands.t I) (i : I).

(** Every mark is at the end of its slots. *)
Definition dense_marks s : Prop :=
  forall w b, (w < SimSparse.OWNER_SLOTS)%nat -> mark (band_of w b s) = RetailBand.base b + Z.of_nat (length (slots (band_of w b s))).

Definition slots_of s (w : nat) (b : RetailBand.t) : nat := length (slots (band_of w b s)).

Lemma band_of_mk w b (x : SparseBand I) s act rev n m w' b' :
  (w < length (owners s))%nat ->
  band_of w' b' (mk (owners (put_band w b x s)) act rev n m) = if decide (w' = w /\ b' = b) then x else band_of w' b' s.
Proof. intros Hw. pose proof (band_of_put w b x w' b' s) as E. unfold band_of in *; simpl in *. by rewrite E. Qed.

Lemma mirror_append_dense w b i s :
  SimSparseSpec.wf s -> dense_marks s -> (w < SimSparse.OWNER_SLOTS)%nat -> reverse s !! i = None ->
  RetailBand.base b + Z.of_nat (slots_of s w b) < RetailBand.limit b ->
  exists r s', mirror_dense_append w b i s = Ok (r, s') /\ inserted_address r = at_ w b (slots_of s w b) /\
    SimSparseSpec.wf s' /\ dense_marks s' /\ active s' = <[w := true]> (active s) /\
    (forall w' b', slots_of s' w' b' = if decide (w' = w /\ b' = b) then S (slots_of s w b) else slots_of s w' b') /\
    (forall w' b' k, life (band_of w' b' s') k =
       if decide ((w' = w /\ b' = b) /\ k = slots_of s w b) then Some (Live i) else life (band_of w' b' s) k).
Proof.
  intros Hwf Hd Hw Hi Hlim. pose proof (Hd w b Hw) as Hm. unfold slots_of in *.
  destruct (mirror_dense_append w b i s) as [[r s']|e] eqn:E.
  2: { exfalso. unfold mirror_dense_append in E. rewrite decide_False in E by lia. rewrite decide_False in E by (rewrite Hi; by intros [? ?]).
       rewrite Hm, Z.eqb_refl in E. simpl in E. rewrite (proj2 (Z.leb_gt _ _)) in E by lia. destruct (allocate_storage w b s); discriminate. }
  pose proof (mirror_dense_append_keeps _ _ _ _ _ _ Hwf E) as [Hwf' _]. exists r, s'. split; [done|].
  unfold mirror_dense_append in E. repeat (case_decide; [done|]). case_match eqn:Eg; [done|].
  destruct (allocate_storage w b s) as [st s1] eqn:Ea. apply allocate_storage_shape in Ea as [n ->]. simplify_eq.
  assert (Hlen : (w < length (owners s))%nat) by by rewrite (wf_owners _ Hwf).
  set (x := band_of w b s) in *. simpl.
  assert (B : forall w' b', band_of w' b' (activate w (set_reverse (<[i := mkAddress w b (mark x)]> (reverse s)) (push_slot w b (mkSlot st (Live i)) (set_next_storage n s)))) =
    if decide (w' = w /\ b' = b) then mkBand (mark x + 1) (slots x ++ [mkSlot st (Live i)]) else band_of w' b' s).
  { intros w' b'. apply (band_of_mk w b (mkBand (mark x + 1) (slots x ++ [mkSlot st (Live i)])) s _ _ _ _ w' b' Hlen). }
  split_and!.
  - unfold at_. by rewrite Hm.
  - done.
  - intros w' b' Hw'. rewrite B. case_decide as D; [|by apply Hd]. destruct D as [-> ->]. simpl. rewrite length_app. simpl. fold x in Hm. lia.
  - done.
  - intros w' b'. rewrite B. case_decide; [|done]. simpl. rewrite length_app. simpl. lia.
  - intros w' b' k. rewrite B. case_decide as D; [|by rewrite decide_False by tauto]. destruct D as [-> ->].
    rewrite life_push. fold x. destruct (decide (k = length (slots x))); [by rewrite decide_True by tauto|by rewrite decide_False by tauto].
Qed.

(** The same, from its success. *)
Lemma mirror_append_ok w b i s r s' :
  SimSparseSpec.wf s -> dense_marks s -> mirror_dense_append w b i s = Ok (r, s') ->
  SimSparseSpec.wf s' /\ dense_marks s' /\ active s' = <[w := true]> (active s) /\
  (forall w' b', slots_of s' w' b' = if decide (w' = w /\ b' = b) then S (slots_of s w b) else slots_of s w' b') /\
  (forall w' b' k, life (band_of w' b' s') k =
     if decide ((w' = w /\ b' = b) /\ k = slots_of s w b) then Some (Live i) else life (band_of w' b' s) k).
Proof.
  intros Hwf Hd E. pose proof E as E0. unfold mirror_dense_append in E0. case_decide as D1; [done|]. case_decide as D2; [done|]. case_match eqn:Eg; [done|]. bool_hyps.
  destruct (mirror_append_dense w b i s) as (r2 & s2 & E2 & _ & R); [done|done|lia|by apply eq_None_not_Some|unfold slots_of; lia|]. rewrite E in E2. by simplify_eq.
Qed.

(** A swap-removal over live slots. *)
Lemma mirror_remove_dense w b k i s :
  SimSparseSpec.wf s -> dense_marks s -> (w < SimSparse.OWNER_SLOTS)%nat -> life (band_of w b s) k = Some (Live i) ->
  (forall k', (k' < slots_of s w b)%nat -> exists j, life (band_of w b s) k' = Some (Live j)) ->
  let last := (slots_of s w b - 1)%nat in
  exists r s' mv, mirror_dense_swap_remove (at_ w b k) i s = Ok (r, s') /\ moved r = mv /\
    (mv = None /\ k = last \/ exists j, mv = Some (j, at_ w b k) /\ k <> last /\ life (band_of w b s) last = Some (Live j)) /\
    SimSparseSpec.wf s' /\ dense_marks s' /\ active s' = active s /\
    (forall w' b', slots_of s' w' b' = if decide (w' = w /\ b' = b) then last else slots_of s w' b') /\
    (forall w' b' k', life (band_of w' b' s') k' =
       if decide (w' = w /\ b' = b)
       then (if decide (k' < last)%nat then life (band_of w b s) (if decide (k' = k) then last else k') else None)
       else life (band_of w' b' s) k').
Proof.
  intros Hwf Hd Hw Hl Hall last. pose proof (Hd w b Hw) as Hm. pose proof (life_lt _ _ _ Hl) as Hk. unfold slots_of in *.
  pose proof (wf_band _ Hwf w b Hw) as (_ & _ & Hlim).
  assert (Hi : reverse s !! i = Some (at_ w b k)) by (apply (wf_rev _ Hwf); eexists _, _, _; by split; [|split]).
  assert (Hx : slot_index (at_ w b k) = Ok k) by (apply slot_index_at; [done|lia]).
  destruct (mirror_dense_swap_remove (at_ w b k) i s) as [[r s']|e] eqn:E.
  2: { exfalso. unfold mirror_dense_swap_remove in E. rewrite Hx in E. cbn [rbind] in E. rewrite bool_decide_true in E by done. cbn [negb] in E.
       simpl a_owner in E. simpl a_band in E. rewrite Hm, Z.eqb_refl in E. unfold life in Hl. rewrite Hl, bool_decide_true in E by done. cbn [negb orb] in E.
       unfold moved_tail in E. case_decide as D; [done|]. destruct (Hall last) as [j Hj]; [unfold last; lia|]. unfold last, life in Hj. rewrite Hj in E. done. }
  pose proof (mirror_dense_swap_remove_keeps _ _ _ _ _ Hwf E) as [Hwf' _]. apply swap_remove_shape in E as (k0 & mv & Hk0 & _ & _ & _ & Hmv & -> & ->).
  rewrite Hx in Hk0. injection Hk0 as <-. simpl a_owner in *. simpl a_band in *.
  assert (Hlen : (w < length (owners s))%nat) by by rewrite (wf_owners _ Hwf).
  exists (mkRemoveReceipt (at_ w b k) i mv), (mk (owners (put_band w b (swapped k mv (band_of w b s)) s)) (active s)
            (match mv with Some (m, ma) => <[m := ma]> (delete i (reverse s)) | None => delete i (reverse s) end) (next_storage s) (next_ticket s)), mv.
  split; [done|]. split; [done|]. split.
  { destruct mv as [[m ma]|]; [right|left; split; [done|by apply moved_tail_None in Hmv]].
    apply moved_tail_Some in Hmv as (-> & Hn & Hlast). by exists m. }
  split; [done|]. split; [|split; [done|split]].
  - intros w' b' Hw'. rewrite band_of_mk by done. case_decide as D; [|by apply Hd]. destruct D as [-> ->]. rewrite length_swapped. simpl. lia.
  - intros w' b'. rewrite band_of_mk by done. case_decide; [|done]. by rewrite length_swapped.
  - intros w' b' k'. rewrite band_of_mk by done. case_decide as D; [|done]. destruct D as [-> ->]. rewrite life_swapped by done. fold last.
    case_decide as D1; [|done]. case_decide as D2; [|done]. subst k'. destruct mv as [[m ma]|].
    + apply moved_tail_Some in Hmv as (_ & _ & Hlast). by rewrite <- Hlast.
    + apply moved_tail_None in Hmv. unfold last in D1. lia.
Qed.

End mirror.

(** ** The dense registry, by owner, band and position *)

Module Dense.
Import ObjectRegistry.

Definition at_ (r : t) (who : nat) (b : Band) (k : nat) : option Z := s ← slots r !! who; band s b !! k.
Definition len (r : t) (who : nat) (b : Band) : nat := match slots r !! who with Some s => length (band s b) | None => 0 end.

Lemma at_lt r who b k v : at_ r who b k = Some v -> (k < len r who b)%nat /\ (who < length (slots r))%nat.
Proof. unfold at_, len. intros E. destruct (slots r !! who) eqn:Es; [|done]. simpl in E. split; by eapply lookup_lt_Some. Qed.

Lemma at_Some r who b k : (k < len r who b)%nat -> exists v, at_ r who b k = Some v.
Proof. unfold at_, len. intros Hk. destruct (slots r !! who); [|lia]. simpl. by apply lookup_lt_is_Some_2. Qed.

Lemma at_None r who b k : (len r who b <= k)%nat -> at_ r who b k = None.
Proof. intros H. destruct (at_ r who b k) eqn:E; [|done]. apply at_lt in E as [? _]. lia. Qed.

Lemma at_update r who b v act who' b' k s :
  slots r !! who = Some s ->
  at_ (mk (<[who := SimObjects.set_band s b v]> (slots r)) act) who' b' k = if decide (who' = who /\ b' = b) then v !! k else at_ r who' b' k.
Proof.
  intros Hs. unfold at_; simpl. destruct (decide (who' = who)) as [->|Hw].
  - rewrite list_lookup_insert_eq by (by eapply lookup_lt_Some). simpl. rewrite Hs. simpl. destruct (decide (b' = b)) as [->|Hb].
    + rewrite band_set_band. by rewrite decide_True.
    + rewrite band_set_band_ne by done. by rewrite decide_False by tauto.
  - rewrite list_lookup_insert_ne by done. by rewrite decide_False by tauto.
Qed.

Lemma len_update r who b v act who' b' s :
  slots r !! who = Some s ->
  len (mk (<[who := SimObjects.set_band s b v]> (slots r)) act) who' b' = if decide (who' = who /\ b' = b) then length v else len r who' b'.
Proof.
  intros Hs. unfold len; simpl. destruct (decide (who' = who)) as [->|Hw].
  - rewrite list_lookup_insert_eq by (by eapply lookup_lt_Some). rewrite Hs. destruct (decide (b' = b)) as [->|Hb].
    + rewrite band_set_band. by rewrite decide_True.
    + rewrite band_set_band_ne by done. by rewrite decide_False by tauto.
  - rewrite list_lookup_insert_ne by done. by rewrite decide_False by tauto.
Qed.

Lemma slot_of r who : wf r -> (who < SimObjects.OWNER_SLOTS)%nat -> exists s, slots r !! who = Some s.
Proof. intros [H _] Hw. apply lookup_lt_is_Some_2. lia. Qed.

Lemma insert_dense who b row r : wf r -> (who < SimObjects.OWNER_SLOTS)%nat ->
  exists r', insert who b row r = Some (base b + Z.of_nat (len r who b), r') /\ wf r' /\ active r' = <[who := true]> (active r) /\
    (forall w' b', len r' w' b' = if decide (w' = who /\ b' = b) then S (len r who b) else len r w' b') /\
    (forall w' b' k, at_ r' w' b' k = if decide ((w' = who /\ b' = b) /\ k = len r who b) then Some row else at_ r w' b' k).
Proof.
  intros Hwf Hw. destruct (slot_of r who Hwf Hw) as [s Hs]. unfold insert. rewrite Hs. simpl.
  assert (Hl : len r who b = length (band s b)) by (unfold len; by rewrite Hs). eexists. split.
  { rewrite length_app. simpl. do 2 f_equal. rewrite Hl. lia. }
  split; [destruct Hwf; split; simpl; by rewrite length_insert|]. split; [done|]. split.
  - intros w' b'. rewrite len_update by done. case_decide; [|done]. rewrite length_app, Hl. simpl. lia.
  - intros w' b' k. rewrite at_update by done. case_decide as D; [|by rewrite decide_False by tauto]. destruct D as [-> ->].
    assert (Ha : at_ r who b k = band s b !! k) by (unfold at_; by rewrite Hs). rewrite Ha, Hl. case_decide as D.
    + destruct D as [_ ->]. by rewrite lookup_app_r, Nat.sub_diag by lia.
    + destruct (decide (k < length (band s b))%nat); [by rewrite lookup_app_l|]. rewrite lookup_app_r by lia.
      rewrite (lookup_ge_None_2 (band s b)) by lia. apply lookup_ge_None_2. simpl. destruct (decide (k = length (band s b))); [tauto|lia].
Qed.

Lemma remove_dense_at who b k row r : wf r -> at_ r who b k = Some row ->
  let last := (len r who b - 1)%nat in
  exists mv r', remove who b (base b + Z.of_nat k) r = Some (mv, r') /\ wf r' /\ active r' = active r /\
    (mv = None /\ k = last \/ exists m, mv = Some (m, base b + Z.of_nat k) /\ k <> last /\ at_ r who b last = Some m) /\
    (forall w' b', len r' w' b' = if decide (w' = who /\ b' = b) then last else len r w' b') /\
    (forall w' b' k', at_ r' w' b' k' =
       if decide (w' = who /\ b' = b)
       then (if decide (k' < last)%nat then at_ r who b (if decide (k' = k) then last else k') else None)
       else at_ r w' b' k').
Proof.
  intros Hwf Ha last. pose proof (at_lt _ _ _ _ _ Ha) as [Hk Hw]. destruct (lookup_lt_is_Some_2 _ _ Hw) as [s Hs].
  assert (Hat : forall k, at_ r who b k = band s b !! k) by (intros; unfold at_; by rewrite Hs).
  assert (Hl : len r who b = length (band s b)) by (unfold len; by rewrite Hs).
  set (r' := mk (<[who := SimObjects.set_band s b (swap_remove k (band s b))]> (slots r)) (active r)).
  assert (Hr : exists mv, remove who b (base b + Z.of_nat k) r = Some (mv, r') /\
    (mv = None /\ k = last \/ exists m, mv = Some (m, base b + Z.of_nat k) /\ k <> last /\ at_ r who b last = Some m)).
  { unfold remove. rewrite Hs. cbn [mbind option_bind]. rewrite (proj2 (Z.ltb_ge _ _)) by lia.
    replace (Z.to_nat (base b + Z.of_nat k - base b)) with k by lia. rewrite decide_False by lia.
    fold r'. unfold last. rewrite Hl. case_decide as D; [exists None; split; [done|by left]|].
    destruct (at_Some r who b (length (band s b) - 1)) as [m Hm]; [lia|]. exists (Some (m, base b + Z.of_nat k)).
    assert (Hn : nth k (swap_remove k (band s b)) 0 = m).
    { apply nth_lookup_Some. rewrite lookup_swap_remove by lia. rewrite decide_True, decide_True by lia. by rewrite <- Hat. }
    rewrite Hn. split; [done|]. right. by exists m. }
  destruct Hr as (mv & Hr & Hmv). exists mv, r'. split; [done|]. split; [by eapply remove_wf|]. split; [done|]. split; [done|]. split.
  - intros w' b'. unfold r'. rewrite len_update by done. case_decide; [|done]. rewrite length_swap_remove by lia. unfold last. lia.
  - intros w' b' k'. unfold r'. rewrite at_update by done. case_decide as D; [|done]. destruct D as [-> ->].
    rewrite lookup_swap_remove by lia. unfold last. rewrite !Hat, <- Hl. by repeat case_decide.
Qed.

Lemma repoint_dense who b k row old r : wf r -> at_ r who b k = Some old ->
  exists r', repoint who b (base b + Z.of_nat k) row r = Some r' /\ wf r' /\ active r' = active r /\
    (forall w' b', len r' w' b' = len r w' b') /\
    (forall w' b' k', at_ r' w' b' k' = if decide ((w' = who /\ b' = b) /\ k' = k) then Some row else at_ r w' b' k').
Proof.
  intros Hwf Ha. pose proof (at_lt _ _ _ _ _ Ha) as [Hk Hw]. destruct (lookup_lt_is_Some_2 _ _ Hw) as [s Hs].
  assert (Hl : len r who b = length (band s b)) by (unfold len; by rewrite Hs).
  unfold repoint. rewrite Hs. cbn [mbind option_bind]. rewrite (proj2 (Z.ltb_ge _ _)) by lia.
  replace (Z.to_nat (base b + Z.of_nat k - base b)) with k by lia. eexists. split; [done|].
  split; [destruct Hwf; split; simpl; by rewrite ?length_insert|]. split; [done|]. split.
  - intros w' b'. rewrite len_update by done. case_decide as D; [|done]. destruct D as [-> ->]. by rewrite length_insert.
  - intros w' b' k'. rewrite at_update by done. case_decide as D; [|by rewrite decide_False by tauto]. destruct D as [-> ->].
    assert (at_ r who b k' = band s b !! k') as -> by (unfold at_; by rewrite Hs).
    destruct (decide (k' = k)) as [->|]; [rewrite decide_True by tauto; apply list_lookup_insert_eq; lia|].
    rewrite decide_False by tauto. by apply list_lookup_insert_ne.
Qed.

End Dense.

(** ** The invariant *)

Import World.

Definition who_of (u : UnitCols.t) (row : nat) : Z := u8 (UnitCols.cell f_who row u).
Definition o_of (u : UnitCols.t) (row : nat) : Z := UnitCols.cell f_o row u.

(** The dense unit bands list the rows of [P], each at its own address. *)
Definition registered (P : nat -> Prop) (u : UnitCols.t) (r : ObjectRegistry.t) : Prop :=
  (forall who k v, Dense.at_ r who Unit k = Some v ->
     exists row, v = Z.of_nat row /\ P row /\ who_of u row = Z.of_nat who /\ o_of u row = Z.of_nat k) /\
  (forall row, P row -> exists who k, Dense.at_ r who Unit k = Some (Z.of_nat row)).

(** The identity behind a row. *)
Definition ident (hs gs : list Z) (row : nat) : option WorldObjectIdentity :=
  i ← hs !! row; g ← gs !! Z.to_nat i; Some (IdUnit i g).

Definition rb (b : Band) : RetailBand.t := match b with Unit => RetailBand.Unit | Build => RetailBand.Build | Wall => RetailBand.Wall end.
Definition ident_in (hs gs : list Z) (b : Band) (v : Z) : option WorldObjectIdentity :=
  match b with Unit => ident hs gs (Z.to_nat v) | Build => Some (BuildRow v) | Wall => Some (WallRow v) end.

(** The sparse registry holds, live, the identity of every dense entry. *)
Definition mirrored (hs gs : list Z) (r : ObjectRegistry.t) (s : SparseObjectBands.t WorldObjectIdentity) : Prop :=
  (forall who b, (who < OWNER_SLOTS)%nat -> slots_of s who (rb b) = Dense.len r who b) /\
  (forall who b k, (who < OWNER_SLOTS)%nat ->
     life (SparseObjectBands.band_of who (rb b) s) k = v ← Dense.at_ r who b k; Live <$> ident_in hs gs b v).

Definition coverage_ok (c : Coverage) : Prop := length (schedule c) = DO_FRAME_STEPS /\ coverage_wf (orders c).
Definition stats_ok (s : UnitTypeStats) : Prop := is_i32 (st_attack s) /\ is_i32 (st_armor s).

Record world_wf (w : t) : Prop := {
  w_cols : UnitCols.wf (units w);
  w_cap : UnitCols.cap (units w) = capacity w;
  w_len : UnitCols.len (units w) = live w;
  w_orders : length (unit_orders w) = live w;
  w_types : length (unit_type_id w) = live w;
  w_step_x : length (move_step_x w) = live w;
  w_step_y : length (move_step_y w) = live w;
  w_max : (capacity w <= MAX_UNITS)%nat;
  w_handles : length (handle_of_row w) = capacity w;
  w_nodup : NoDup (handle_of_row w);
  w_ids : Forall (fun i => 0 <= i < Z.of_nat (capacity w)) (handle_of_row w);
  w_rows : length (row_of_handle w) = capacity w;
  w_rows_u : Forall (fun z => 0 <= z) (row_of_handle w);
  w_inverse row i : (row < live w)%nat -> handle_of_row w !! row = Some i -> row_of_handle w !! Z.to_nat i = Some (Z.of_nat row);
  w_gens : length (generations w) = capacity w;
  w_objects : ObjectRegistry.wf (objects w);
  w_registered : registered (fun row => (row < live w)%nat) (units w) (objects w);
  w_sparse : SimSparseSpec.wf (object_bands w);
  w_marks : dense_marks (object_bands w);
  w_mirror : mirrored (handle_of_row w) (generations w) (objects w) (object_bands w);
  w_active : SparseObjectBands.active (object_bands w) = ObjectRegistry.active (objects w);
  w_coverage : coverage_ok (coverage w);
  w_rules : Forall stats_ok (unit_stats (rules w)) }.

Lemma live_le w : world_wf w -> (live w <= capacity w)%nat.
Proof. intros H. rewrite <- (w_len _ H), <- (w_cap _ H). apply (UnitCols.wf_len _ (w_cols _ H)). Qed.

(** ** Handles *)

Lemma handle_id w row : world_wf w -> (row < capacity w)%nat -> exists i, handle_of_row w !! row = Some i /\ 0 <= i < Z.of_nat (capacity w).
Proof.
  intros H Hr. destruct (lookup_lt_is_Some_2 (handle_of_row w) row) as [i Hi]; [by rewrite (w_handles _ H)|].
  exists i. split; [done|]. by apply (proj1 (Forall_lookup _ _) (w_ids _ H) row).
Qed.

Lemma id_range w row i : world_wf w -> handle_of_row w !! row = Some i -> 0 <= i < Z.of_nat (capacity w).
Proof. intros H Hi. by apply (proj1 (Forall_lookup _ _) (w_ids _ H) row). Qed.

Lemma gen_Some w row i : world_wf w -> handle_of_row w !! row = Some i -> exists g, generations w !! Z.to_nat i = Some g.
Proof. intros H Hi. apply id_range in Hi; [|done]. apply lookup_lt_is_Some_2. rewrite (w_gens _ H). lia. Qed.

Lemma row_of_Some h w row : world_wf w ->
  row_of h w = Some row <->
  (row < live w)%nat /\ handle_of_row w !! row = Some (id h) /\ generations w !! Z.to_nat (id h) = Some (generation h).
Proof.
  intros H. unfold row_of. split.
  - intros E. case_decide as D1; [done|]. destruct (generations w !! Z.to_nat (id h)) as [g|] eqn:Eg; [|done]. simpl in E.
    case_decide as D2; [done|]. destruct (row_of_handle w !! _) as [z|] eqn:Ez; [|done]. simpl in E. case_decide as D3; [done|].
    destruct (handle_of_row w !! _) as [i|] eqn:Ei; [|done]. simpl in E. case_decide as D4; [done|]. simplify_eq. split; [|done].
    pose proof (proj1 (Forall_lookup _ _) (w_rows_u _ H) _ _ Ez) as Hz. simpl in Hz. lia.
  - intros (Hr & Hi & Hg). pose proof (id_range _ _ _ H Hi) as Hid. rewrite decide_False by lia. rewrite Hg. simpl.
    rewrite decide_False by tauto. rewrite (w_inverse _ H row) by done. simpl. rewrite decide_False by lia. rewrite Nat2Z.id, Hi. simpl.
    by rewrite decide_False by tauto.
Qed.

Lemma ident_row h w row : world_wf w -> row_of h w = Some row -> ident (handle_of_row w) (generations w) row = Some (identity_of h).
Proof. intros H (_ & Hi & Hg)%row_of_Some; [|done]. unfold ident. rewrite Hi. simpl. by rewrite Hg. Qed.

Lemma ident_Some w row : world_wf w -> (row < capacity w)%nat -> exists i g, ident (handle_of_row w) (generations w) row = Some (IdUnit i g).
Proof.
  intros H Hr. destruct (handle_id _ _ H Hr) as (i & Hi & _). destruct (gen_Some _ _ _ H Hi) as [g Hg]. exists i, g. unfold ident. rewrite Hi. simpl. by rewrite Hg.
Qed.

(** Two rows hold two handles. *)
Lemma row_of_inj h w row row' : world_wf w -> row_of h w = Some row -> handle_of_row w !! row' = Some (id h) -> row = row'.
Proof. intros H (_ & Hi & _)%row_of_Some Hi'; [|done]. by eapply NoDup_lookup; [apply (w_nodup _ H)|..]. Qed.

(** ** Addresses *)

Lemma registered_row P u r row : registered P u r -> P row ->
  exists who k, who_of u row = Z.of_nat who /\ o_of u row = Z.of_nat k /\ Dense.at_ r who Unit k = Some (Z.of_nat row).
Proof.
  intros [H1 H2] Hp. destruct (H2 row Hp) as (who & k & E). destruct (H1 _ _ _ E) as (row' & E' & _ & Hw & Hk).
  apply Nat2Z.inj in E' as <-. by exists who, k.
Qed.

(** Unit bands fit in the sixteen bits of the column. *)
Lemma band_short w who b : world_wf w -> (who < OWNER_SLOTS)%nat ->
  RetailBand.base (rb b) + Z.of_nat (Dense.len (objects w) who b) <= RetailBand.limit (rb b).
Proof.
  intros H Hw. destruct (w_mirror _ H) as [Hl _]. rewrite <- (Hl who b Hw).
  pose proof (wf_band _ (w_sparse _ H) who (rb b) Hw) as (_ & _ & ?). done.
Qed.

Lemma unit_band_short w who : world_wf w -> (Dense.len (objects w) who Unit <= 2000)%nat.
Proof.
  intros H. destruct (decide (who < OWNER_SLOTS)%nat) as [Hw|Hw].
  - pose proof (band_short w who Unit H Hw) as B. change (RetailBand.base (rb Unit)) with 0 in B. change (RetailBand.limit (rb Unit)) with 2000 in B. lia.
  - unfold Dense.len. rewrite lookup_ge_None_2; [lia|]. destruct (w_objects _ H) as [-> _]. unfold OWNER_SLOTS, SimObjects.OWNER_SLOTS in *. lia.
Qed.

(** The sparse slot of a live unit. *)
Lemma unit_slot w row who k : world_wf w -> (row < live w)%nat -> Dense.at_ (objects w) who Unit k = Some (Z.of_nat row) ->
  (who < OWNER_SLOTS)%nat /\ life (SparseObjectBands.band_of who RetailBand.Unit (object_bands w)) k = Live <$> ident (handle_of_row w) (generations w) row.
Proof.
  intros H Hr E. pose proof (Dense.at_lt _ _ _ _ _ E) as [_ Hw]. destruct (w_objects _ H) as [Hs _]. rewrite Hs in Hw. split; [done|].
  destruct (w_mirror _ H) as [_ M]. specialize (M who Unit k Hw). simpl rb in M. rewrite M, E. simpl. by rewrite Nat2Z.id.
Qed.

(** ** Spawning *)

(** A unit keeps everything but its address index. *)
Definition same_unit (w : t) (row : nat) (w' : t) (row' : nat) : Prop :=
  (forall f, is_field f -> f <> f_o -> UnitCols.cell f row' (units w') = UnitCols.cell f row (units w)) /\
  unit_orders w' !! row' = unit_orders w !! row /\ unit_type_id w' !! row' = unit_type_id w !! row /\
  move_step_x w' !! row' = move_step_x w !! row /\ move_step_y w' !! row' = move_step_y w !! row.

Lemma fresh_fields_are owner i o x y a sp st : Forall (fun fv => is_field fv.1) (fresh_fields owner i o x y a sp st).
Proof. unfold fresh_fields. repeat (apply Forall_cons_2; [unfold is_field; simpl; unfold W4_PLANES, W2_PLANES, W1_PLANES; lia|]). apply Forall_nil_2. Qed.

Lemma fresh_who owner i o x y a sp st d : UnitCols.written f_who (fresh_fields owner i o x y a sp st) d = i8 (Z.of_nat owner).
Proof. done. Qed.
Lemma fresh_o owner i o x y a sp st d : UnitCols.written f_o (fresh_fields owner i o x y a sp st) d = i16 o.
Proof. done. Qed.

Lemma who_field : is_field f_who.
Proof. unfold is_field; simpl; unfold W1_PLANES; lia. Qed.
Lemma o_field : is_field f_o.
Proof. unfold is_field; simpl; unfold W2_PLANES; lia. Qed.

Lemma u8_small n : (n < OWNER_SLOTS)%nat -> u8 (i8 (Z.of_nat n)) = Z.of_nat n.
Proof. intros Hn. unfold OWNER_SLOTS in Hn. rewrite (wrap_s_id 8) by (lia || (ranges; lia)). apply wrap_u_id. ranges; lia. Qed.
Lemma i16_small k : (k <= 2000)%nat -> i16 (Z.of_nat k) = Z.of_nat k.
Proof. intros Hk. apply wrap_s_id; [lia|]. ranges; lia. Qed.

(** The registry after an append at the end of a band. *)
Lemma registered_insert P u u' r r' who row :
  registered P u r -> ~ P row -> (Dense.len r who Unit <= 2000)%nat -> (who < OWNER_SLOTS)%nat ->
  (forall row', P row' -> who_of u' row' = who_of u row' /\ o_of u' row' = o_of u row') ->
  who_of u' row = Z.of_nat who -> o_of u' row = Z.of_nat (Dense.len r who Unit) ->
  (forall w' b' k, Dense.at_ r' w' b' k = if decide ((w' = who /\ b' = Unit) /\ k = Dense.len r who Unit) then Some (Z.of_nat row) else Dense.at_ r w' b' k) ->
  registered (fun x => P x \/ x = row) u' r'.
Proof.
  intros [H1 H2] Hn Hlen Hw Hsame Hwho Ho Hat. split.
  - intros w' k v E. rewrite Hat in E. case_decide as D.
    + destruct D as [[-> _] ->]. simplify_eq. exists row. split; [done|]. split; [by right|done].
    + destruct (H1 _ _ _ E) as (row' & -> & Hp & E1 & E2). exists row'. destruct (Hsame row' Hp) as [-> ->]. split; [done|]. split; [by left|done].
  - intros x [Hp| ->].
    + destruct (H2 x Hp) as (w' & k & E). exists w', k. rewrite Hat, decide_False; [done|]. intros [[-> _] ->].
      by rewrite Dense.at_None in E.
    + exists who, (Dense.len r who Unit). rewrite Hat. by rewrite decide_True.
Qed.

Lemma registered_ext P Q u r : (forall x, P x <-> Q x) -> registered P u r -> registered Q u r.
Proof.
  intros HPQ [H1 H2]. split.
  - intros who k v E. destruct (H1 _ _ _ E) as (row & ? & Hp & ?). exists row. by rewrite <- HPQ.
  - intros row Hq. apply H2. by apply HPQ.
Qed.

Lemma mirrored_insert hs gs r r' s s' who b v i :
  mirrored hs gs r s -> ident_in hs gs b v = Some i -> (who < OWNER_SLOTS)%nat ->
  (forall w' b', Dense.len r' w' b' = if decide (w' = who /\ b' = b) then S (Dense.len r who b) else Dense.len r w' b') ->
  (forall w' b' k, Dense.at_ r' w' b' k = if decide ((w' = who /\ b' = b) /\ k = Dense.len r who b) then Some v else Dense.at_ r w' b' k) ->
  (forall w' b', slots_of s' w' b' = if decide (w' = who /\ b' = rb b) then S (slots_of s who (rb b)) else slots_of s w' b') ->
  (forall w' b' k, life (SparseObjectBands.band_of w' b' s') k =
     if decide ((w' = who /\ b' = rb b) /\ k = slots_of s who (rb b)) then Some (Live i) else life (SparseObjectBands.band_of w' b' s) k) ->
  mirrored hs gs r' s'.
Proof.
  intros [M1 M2] Hi Hw L1 A1 L2 A2.
  assert (Hrb : forall b', rb b' = rb b <-> b' = b) by (intros b'; split; [by destruct b, b'|by intros ->]).
  split.
  - intros w' b' Hw'. rewrite L1, L2. destruct (decide (w' = who /\ b' = b)) as [[-> ->]|D].
    + rewrite decide_True by done. by rewrite M1.
    + rewrite decide_False by (rewrite Hrb; done). by apply M1.
  - intros w' b' k Hw'. rewrite A1, A2, (M1 who b Hw). destruct (decide ((w' = who /\ b' = b) /\ k = _)) as [[[-> ->] ->]|D].
    + rewrite decide_True by done. simpl. by rewrite Hi.
    + rewrite decide_False by (rewrite Hrb; done). by apply M2.
Qed.

(** A unit identity in the sparse registry is that of a live row. *)
Lemma reverse_unit_row w i g a : world_wf w -> SparseObjectBands.reverse (object_bands w) !! IdUnit i g = Some a ->
  exists row, (row < live w)%nat /\ handle_of_row w !! row = Some i /\ generations w !! Z.to_nat i = Some g.
Proof.
  intros H E. apply (wf_rev _ (w_sparse _ H)) in E as (who & b & k & _ & Hw & E). destruct (w_mirror _ H) as [_ M].
  assert (exists b', b = rb b') as [b' ->] by (destruct b; [exists Unit|exists Build|exists Wall]; done).
  rewrite (M who b' k Hw) in E. destruct (Dense.at_ (objects w) who b' k) as [v|] eqn:Ev; [|done]. simpl in E.
  destruct b'; simpl in E; [|done|done]. destruct (w_registered _ H) as [R _]. destruct (R _ _ _ Ev) as (row & -> & Hr & _).
  rewrite Nat2Z.id in E. unfold ident in E. destruct (handle_of_row w !! row) as [i'|] eqn:Ei; [|done]. simpl in E.
  destruct (generations w !! Z.to_nat i') eqn:Eg; [|done]. simpl in E. simplify_eq. by exists row.
Qed.

(** What a successful allocation gives. *)
Record spawned (w : t) (owner : nat) (ty : Z) (h : Handle) (w' : t) : Prop := {
  s_wf : world_wf w';
  s_live : live w' = S (live w);
  s_cap : capacity w' = capacity w;
  s_band who : Dense.len (objects w') who Unit = if decide (who = owner) then S (Dense.len (objects w) owner Unit) else Dense.len (objects w) who Unit;
  s_row : row_of h w' = Some (live w);
  s_fresh : row_of h w = None;
  s_owner : who_of (units w') (live w) = Z.of_nat owner;
  s_type : unit_type_id w' !! live w = Some ty;
  s_orders : unit_orders w' !! live w = Some OrderList.new;
  s_frame : frame w' = frame w;
  s_others h' row : row_of h' w = Some row -> row_of h' w' = Some row /\ o_of (units w') row = o_of (units w) row /\ same_unit w row w' row }.

Lemma allocate_spec owner ty w row u i o objs x y a sp rnd :
  world_wf w -> (live w < capacity w)%nat -> (owner < OWNER_SLOTS)%nat -> (Dense.len (objects w) owner Unit < 2000)%nat ->
  UnitCols.push_zeroed (units w) = Some (row, u) -> handle_of_row w !! row = Some i ->
  ObjectRegistry.insert owner Unit (Z.of_nat row) (objects w) = Some (o, objs) ->
  exists h w', allocate owner ty row u i o objs x y a sp rnd w = Some (Some h, w') /\ spawned w owner ty h w' /\
    (forall f, is_field f -> UnitCols.cell f (live w) (units w') = UnitCols.written f (fresh_fields owner i o x y a sp (type_stats ty w)) 0).
Proof.
  intros H Hcap Hown Hband Hpush Hi Hins.
  destruct (UnitCols.push_zeroed_spec _ _ _ (w_cols _ H) Hpush) as (Erow & _ & Uw & Ul & Uc & Ucell). rewrite (w_len _ H) in Erow, Ul. rewrite (w_cap _ H) in Uc, Ucell. subst row.
  destruct (Dense.insert_dense owner Unit (Z.of_nat (live w)) (objects w) (w_objects _ H) Hown) as (r' & Er & Rw & Ract & Rlen & Rat).
  rewrite Hins in Er. injection Er as -> ->. rewrite Z.add_0_l in *.
  pose proof (id_range _ _ _ H Hi) as Hid. destruct (gen_Some _ _ _ H Hi) as [g Hg].
  destruct (UnitCols.writes_spec (live w) (fresh_fields owner i (Z.of_nat (Dense.len (objects w) owner Unit)) x y a sp (type_stats ty w)) u)
    as (u' & Ew & Vw & Vc & Vl & Vcell); [done|lia|apply fresh_fields_are|]. rewrite Uc in Vc, Vcell.
  assert (Hrev : SparseObjectBands.reverse (object_bands w) !! IdUnit i g = None).
  { destruct (_ !! IdUnit i g) as [ad|] eqn:E; [|done]. exfalso. destruct (reverse_unit_row _ _ _ _ H E) as (row & Hr & Hi' & _).
    assert (row = live w) by (eapply NoDup_lookup; [apply (w_nodup _ H)|done|done]). lia. }
  destruct (w_mirror _ H) as [Ml Mat].
  destruct (mirror_append_dense owner RetailBand.Unit (IdUnit i g) (object_bands w)) as (rc & s' & Em & Ea & Sw & Sd & Sact & Slen & Slife);
    [apply (w_sparse _ H)|apply (w_marks _ H)|done|done|rewrite (Ml owner Unit Hown : slots_of _ owner RetailBand.Unit = _); cbv [RetailBand.base RetailBand.limit RetailBand.UNIT_BAND_BASE RetailBand.UNIT_BAND_LIMIT]; lia|].
  unfold allocate. rewrite Ew. cbn [mbind option_bind]. rewrite decide_False by (rewrite (w_rows _ H); lia). rewrite Hg. cbn [mbind option_bind]. rewrite Em.
  assert (Eo : a_o (inserted_address rc) = Z.of_nat (Dense.len (objects w) owner Unit)).
  { rewrite Ea. simpl. by rewrite (Ml owner Unit Hown : slots_of _ owner RetailBand.Unit = _). }
  rewrite decide_False by (rewrite Eo; tauto). eexists _, _. split; [done|].
  assert (Cold : forall f r, is_field f -> (r < live w)%nat -> UnitCols.cell f r u' = UnitCols.cell f r (units w)).
  { intros f r Hf Hr. rewrite Vcell by (done || lia). rewrite decide_False by lia. rewrite Ucell by (done || lia). by rewrite decide_False by lia. }
  assert (Cnew : forall f, is_field f -> UnitCols.cell f (live w) u' =
    UnitCols.written f (fresh_fields owner i (Z.of_nat (Dense.len (objects w) owner Unit)) x y a sp (type_stats ty w)) 0).
  { intros f Hf. rewrite Vcell by (done || lia). rewrite decide_True by done. rewrite Ucell by (done || lia). by rewrite decide_True. }
  assert (Wwf : world_wf (mk u' (unit_orders w ++ [OrderList.new]) (unit_type_id w ++ [ty]) (move_step_x w ++ [0]) (move_step_y w ++ [0])
                   r' s' (handle_of_row w) (<[Z.to_nat i := Z.of_nat (live w)]> (row_of_handle w)) (generations w)
                   (S (live w)) (capacity w) (frame w) (seconds w) rnd (rules w) (coverage w))).
  { split; cbn [units unit_orders unit_type_id move_step_x move_step_y objects object_bands handle_of_row row_of_handle generations live capacity frame seconds random rules coverage];
      try apply H; try (rewrite length_app; simpl; rewrite ?(w_orders _ H), ?(w_types _ H), ?(w_step_x _ H), ?(w_step_y _ H); lia).
    - done.
    - done.
    - lia.
    - rewrite length_insert. apply H.
    - apply Forall_insert; [apply H|lia].
    - intros row j Hr Hj. destruct (decide (row = live w)) as [->|Hn].
      + rewrite Hi in Hj. injection Hj as <-. apply list_lookup_insert_eq. rewrite (w_rows _ H). lia.
      + rewrite list_lookup_insert_ne; [apply (w_inverse _ H); [lia|done]|]. pose proof (id_range _ _ _ H Hj). intros E.
        apply Z2Nat.inj in E; [|lia|lia]. subst j. apply Hn. by eapply NoDup_lookup; [apply (w_nodup _ H)|..].
    - done.
    - eapply registered_ext; [|eapply (registered_insert (fun x => x < live w)%nat (units w) u' (objects w) r' owner (live w))]; [intros; simpl; lia|apply H|lia|lia|done| | | |].
      + intros row Hr. unfold who_of, o_of. rewrite !Cold by (apply who_field || apply o_field || done). done.
      + unfold who_of. rewrite Cnew by apply who_field. rewrite fresh_who. by apply u8_small.
      + unfold o_of. rewrite Cnew by apply o_field. rewrite fresh_o. apply i16_small. lia.
      + apply Rat.
    - done.
    - done.
    - eapply (mirrored_insert _ _ (objects w) r' (object_bands w) s' owner Unit (Z.of_nat (live w)) (IdUnit i g)); [by split|simpl|done|done|done|done|done].
      rewrite Nat2Z.id. unfold ident. rewrite Hi. simpl. by rewrite Hg.
    - rewrite Sact, Ract. by rewrite (w_active _ H). }
  split; [|done]. split.
  - done.
  - done.
  - done.
  - intros who. simpl. rewrite Rlen. destruct (decide (who = owner)); [by rewrite decide_True|by rewrite decide_False by tauto].
  - apply row_of_Some; [done|]. simpl. split; [lia|done].
  - destruct (row_of _ w) as [row|] eqn:E; [|done]. exfalso. pose proof (row_of_inj _ _ _ _ H E Hi). apply row_of_Some in E as [? _]; [|done]. lia.
  - unfold who_of. simpl. rewrite Cnew by apply who_field. rewrite fresh_who. by apply u8_small.
  - simpl. by rewrite lookup_app_r, (w_types _ H), Nat.sub_diag by (rewrite (w_types _ H); lia).
  - simpl. by rewrite lookup_app_r, (w_orders _ H), Nat.sub_diag by (rewrite (w_orders _ H); lia).
  - done.
  - intros h' row E. pose proof E as (Hr & Hi' & Hg')%row_of_Some; [|done]. split; [apply row_of_Some; [done|]; simpl; split; [lia|done]|].
    split; [unfold o_of; simpl; by apply Cold; [apply o_field|]|]. unfold same_unit; simpl. split; [intros f Hf _; by apply Cold|].
    rewrite !lookup_app_l by (rewrite ?(w_orders _ H), ?(w_types _ H), ?(w_step_x _ H), ?(w_step_y _ H); lia). done.
Qed.

Lemma push_room w : world_wf w -> (live w < capacity w)%nat -> exists u, UnitCols.push_zeroed (units w) = Some (live w, u).
Proof. intros H Hc. unfold UnitCols.push_zeroed. rewrite decide_False by (rewrite (w_cap _ H), (w_len _ H); lia). rewrite (w_len _ H). by eexists. Qed.

Lemma accepts owner w : (live w < capacity w)%nat -> (owner < OWNER_SLOTS)%nat -> refuses owner w = false.
Proof. intros. unfold refuses. by rewrite !bool_decide_false by lia. Qed.

Lemma new_row w owner : world_wf w -> (live w < capacity w)%nat -> (owner < OWNER_SLOTS)%nat ->
  exists u i objs, UnitCols.push_zeroed (units w) = Some (live w, u) /\ handle_of_row w !! live w = Some i /\
    ObjectRegistry.insert owner Unit (Z.of_nat (live w)) (objects w) = Some (Z.of_nat (Dense.len (objects w) owner Unit), objs).
Proof.
  intros H Hc Ho. destruct (push_room _ H Hc) as [u Eu]. destruct (handle_id _ _ H Hc) as (i & Hi & _).
  destruct (Dense.insert_dense owner Unit (Z.of_nat (live w)) (objects w) (w_objects _ H) Ho) as (r' & Er & _). exists u, i, r'. done.
Qed.

(** A spawn with room in the world and in the owner's band. *)
Lemma spawn_typed_total owner ty w :
  world_wf w -> (live w < capacity w)%nat -> (owner < OWNER_SLOTS)%nat -> (Dense.len (objects w) owner Unit < 2000)%nat ->
  exists h w', spawn_typed owner ty w = Some (Some h, w') /\ spawned w owner ty h w'.
Proof.
  intros H Hc Ho Hb. destruct (new_row w owner H Hc Ho) as (u & i & objs & Eu & Hi & Er). unfold spawn_typed.
  rewrite accepts, Eu, Hi by done. cbn [mbind option_bind]. rewrite Er. cbn [mbind option_bind].
  destruct (Random.get 0 MAP_SPAN (random w)) as [x r1]. destruct (Random.get 0 MAP_SPAN r1) as [y r2].
  destruct (Random.get 0 65535 r2) as [a r3]. destruct (Random.get 8 64 r3) as [sp r4].
  destruct (allocate_spec owner ty w (live w) u i _ objs x y (wshl a 16) sp r4 H Hc Ho Hb Eu Hi Er) as (h & w' & E & S & _). by exists h, w'.
Qed.

Lemma allocate_typed_at_total owner ty x y w :
  world_wf w -> (live w < capacity w)%nat -> (owner < OWNER_SLOTS)%nat -> (Dense.len (objects w) owner Unit < 2000)%nat ->
  exists h w', allocate_typed_at owner ty x y w = Some (Some h, w') /\ spawned w owner ty h w' /\
    UnitCols.cell f_x_internal (live w) (units w') = x /\ UnitCols.cell f_y_internal (live w) (units w') = y.
Proof.
  intros H Hc Ho Hb. destruct (new_row w owner H Hc Ho) as (u & i & objs & Eu & Hi & Er). unfold allocate_typed_at.
  rewrite accepts, Eu, Hi by done. cbn [mbind option_bind]. rewrite Er. cbn [mbind option_bind].
  destruct (allocate_spec owner ty w (live w) u i _ objs x y 0 0 (random w) H Hc Ho Hb Eu Hi Er) as (h & w' & E & S & C). exists h, w'. split; [done|].
  split; [done|]. by rewrite !C by (unfold is_field; simpl; unfold W4_PLANES; lia).
Qed.

(** With a full band the append to the mirror is refused, and the [expect]
    after it panics. *)
Lemma allocate_full owner ty row u i o objs x y a sp rnd w :
  world_wf w -> (owner < OWNER_SLOTS)%nat -> Dense.len (objects w) owner Unit = 2000%nat -> allocate owner ty row u i o objs x y a sp rnd w = None.
Proof.
  intros H Ho Hb. unfold allocate. destruct (UnitCols.writes _ _ u) as [u'|]; [|done]. cbn [mbind option_bind]. case_decide; [done|].
  destruct (generations w !! _) as [g|]; [|done]. cbn [mbind option_bind]. unfold SparseObjectBands.mirror_dense_append. rewrite decide_False by lia. case_decide; [done|].
  destruct (w_mirror _ H) as [Ml _]. pose proof (w_marks _ H owner RetailBand.Unit Ho) as Hm. pose proof (Ml owner Unit Ho) as Hs. simpl rb in Hs. unfold slots_of in Hs.
  rewrite Hs, Hb in Hm. by rewrite Hs, Hb, Hm.
Qed.

Lemma spawn_full_band owner ty w :
  world_wf w -> (live w < capacity w)%nat -> (owner < OWNER_SLOTS)%nat -> Dense.len (objects w) owner Unit = 2000%nat ->
  spawn_typed owner ty w = None.
Proof.
  intros H Hc Ho Hb. destruct (new_row w owner H Hc Ho) as (u & i & objs & Eu & Hi & Er). unfold spawn_typed.
  rewrite accepts, Eu, Hi by done. cbn [mbind option_bind]. rewrite Er. cbn [mbind option_bind].
  destruct (Random.get 0 MAP_SPAN (random w)) as [x r1]. destruct (Random.get 0 MAP_SPAN r1) as [y r2].
  destruct (Random.get 0 65535 r2) as [a r3]. destruct (Random.get 8 64 r3) as [sp r4]. by apply allocate_full.
Qed.

Lemma allocate_at_full_band owner ty x y w :
  world_wf w -> (live w < capacity w)%nat -> (owner < OWNER_SLOTS)%nat -> Dense.len (objects w) owner Unit = 2000%nat ->
  allocate_typed_at owner ty x y w = None.
Proof.
  intros H Hc Ho Hb. destruct (new_row w owner H Hc Ho) as (u & i & objs & Eu & Hi & Er). unfold allocate_typed_at.
  rewrite accepts, Eu, Hi by done. cbn [mbind option_bind]. rewrite Er. cbn [mbind option_bind]. by apply allocate_full.
Qed.

Lemma new_at who b k : Dense.at_ ObjectRegistry.new who b k = None.
Proof.
  unfold Dense.at_. destruct (ObjectRegistry.slots ObjectRegistry.new !! who) as [s|] eqn:E; [|done].
  apply (lookup_replicate_1 SimObjects.OWNER_SLOTS empty_slot) in E as [-> _]. by destruct b.
Qed.
Lemma new_len who b : Dense.len ObjectRegistry.new who b = 0%nat.
Proof.
  unfold Dense.len. destruct (ObjectRegistry.slots ObjectRegistry.new !! who) as [s|] eqn:E; [|done].
  apply (lookup_replicate_1 SimObjects.OWNER_SLOTS empty_slot) in E as [-> _]. by destruct b.
Qed.

Lemma with_capacity_world_wf c seed : world_wf (with_capacity c seed).
Proof.
  set (n := Nat.min c MAX_UNITS). split; simpl; fold n; try done.
  - apply UnitCols.with_capacity_wf.
  - lia.
  - by rewrite length_fmap, length_seq.
  - apply NoDup_fmap_2; [intros ? ?; lia|apply NoDup_seq].
  - apply Forall_fmap, Forall_seq. intros j Hj. simpl. lia.
  - apply length_replicate.
  - apply Forall_replicate. done.
  - intros row i Hr. lia.
  - apply length_replicate.
  - split; [intros who k v; by rewrite new_at|intros row Hr; lia].
  - apply empty_wf.
  - intros w b Hw. rewrite new_band_of. simpl. lia.
  - split; [intros who b Hw; unfold slots_of; by rewrite new_band_of, new_len|].
    intros who b k Hw. rewrite new_band_of, new_at. done.
Qed.

(** ** Despawning *)

(** The rows of [P] without one of them: the swap-removal of the unit's entry,
    with the address index of the entry that moved rewritten. *)
Lemma registered_remove P u u' r r' mv row who k :
  let last := (Dense.len r who Unit - 1)%nat in
  registered P u r -> P row -> Dense.at_ r who Unit k = Some (Z.of_nat row) ->
  (mv = None /\ k = last \/ exists m, mv = Some (m, base Unit + Z.of_nat k) /\ k <> last /\ Dense.at_ r who Unit last = Some m) ->
  (forall w' b' k', Dense.at_ r' w' b' k' =
     if decide (w' = who /\ b' = Unit) then (if decide (k' < last)%nat then Dense.at_ r who Unit (if decide (k' = k) then last else k') else None)
     else Dense.at_ r w' b' k') ->
  (forall x, P x -> who_of u' x = who_of u x) ->
  (forall x, P x -> o_of u' x = match mv with Some (m, o) => if decide (x = Z.to_nat m) then o else o_of u x | None => o_of u x end) ->
  registered (fun x => P x /\ x <> row) u' r'.
Proof.
  intros last [H1 H2] Hp Hk Hmv Hat Hwho Ho.
  assert (Hinj : forall w1 k1 w2 k2 v, Dense.at_ r w1 Unit k1 = Some v -> Dense.at_ r w2 Unit k2 = Some v -> w1 = w2 /\ k1 = k2).
  { intros w1 k1 w2 k2 v E1 E2. destruct (H1 _ _ _ E1) as (x & -> & _ & A1 & B1). destruct (H1 _ _ _ E2) as (x2 & Ex & _ & A2 & B2).
    apply Nat2Z.inj in Ex as <-. split; apply Nat2Z.inj; congruence. }
  pose proof (proj1 (Dense.at_lt _ _ _ _ _ Hk)) as Hlt.
  assert (Hmk : forall m o x, mv = Some (m, o) -> m = Z.of_nat x <-> Dense.at_ r who Unit last = Some (Z.of_nat x)).
  { intros m o x ->. destruct Hmv as [[? _]|(m' & E & _ & Hm)]; [done|]. simplify_eq. rewrite Hm. split; congruence. }
  split.
  - intros w' k' v E. rewrite Hat in E. case_decide as D.
    + destruct D as [-> _]. case_decide as D1; [|done]. destruct (decide (k' = k)) as [->|Dk].
      * destruct Hmv as [[-> ?]|(m & -> & Hn & Hm)]; [lia|]. rewrite E in Hm. injection Hm as ->. destruct (H1 _ _ _ E) as (x & -> & Px & A & B).
        exists x. split; [done|]. rewrite Hwho, Ho by done. rewrite decide_True by lia. split; [|split; [done|simpl; lia]].
        split; [done|]. intros ->. destruct (Hinj _ _ _ _ _ E Hk) as [_ ?]. lia.
      * destruct (H1 _ _ _ E) as (x & -> & Px & A & B). exists x. split; [done|]. rewrite Hwho, Ho by done. split.
        { split; [done|]. intros ->. destruct (Hinj _ _ _ _ _ E Hk) as [_ ?]. done. }
        split; [done|]. destruct mv as [[m o]|]; [|done]. case_decide as D2; [|done]. exfalso. subst x.
        destruct Hmv as [[? _]|(m' & E' & _ & Hm)]; [done|]. simplify_eq. destruct (H1 _ _ _ Hm) as (x & -> & _). rewrite Nat2Z.id in E.
        destruct (Hinj _ _ _ _ _ E Hm) as [_ ?]. lia.
    + destruct (H1 _ _ _ E) as (x & -> & Px & A & B). exists x. split; [done|]. rewrite Hwho, Ho by done.
      assert (Hw' : w' <> who) by tauto. split.
      { split; [done|]. intros ->. by destruct (Hinj _ _ _ _ _ E Hk) as [? _]. }
      split; [done|]. destruct mv as [[m o]|]; [|done]. case_decide as D2; [|done]. exfalso. subst x.
      destruct Hmv as [[? _]|(m' & E' & _ & Hm)]; [done|]. simplify_eq. destruct (H1 _ _ _ Hm) as (x & -> & _). rewrite Nat2Z.id in E.
      by destruct (Hinj _ _ _ _ _ E Hm) as [? _].
  - intros x [Px Hx]. destruct (H2 x Px) as (w' & k' & E). destruct (decide (w' = who)) as [->|Hw].
    + assert (k' <> k) by (intros ->; rewrite Hk in E; simplify_eq; lia). pose proof (proj1 (Dense.at_lt _ _ _ _ _ E)).
      destruct (decide (k' = last)) as [->|].
      * exists who, k. rewrite Hat, decide_True by done. rewrite decide_True by lia. by rewrite decide_True.
      * exists who, k'. rewrite Hat, decide_True by done. rewrite decide_True by lia. by rewrite decide_False.
    + exists w', k'. by rewrite Hat, decide_False by tauto.
Qed.

(** The last row takes the place of a row that is not listed. *)
Lemma registered_move Q u u' r r' last row who k :
  registered Q u r -> Q last -> ~ Q row -> Dense.at_ r who Unit k = Some (Z.of_nat last) ->
  (forall w' b' k', Dense.at_ r' w' b' k' = if decide ((w' = who /\ b' = Unit) /\ k' = k) then Some (Z.of_nat row) else Dense.at_ r w' b' k') ->
  (forall x, Q x -> who_of u' x = who_of u x /\ o_of u' x = o_of u x) -> who_of u' row = who_of u last -> o_of u' row = o_of u last ->
  registered (fun x => (Q x /\ x <> last) \/ x = row) u' r'.
Proof.
  intros [H1 H2] Hl Hn Hk Hat Hsame Hw Ho. split.
  - intros w' k' v E. rewrite Hat in E. case_decide as D.
    + destruct D as [[-> _] ->]. simplify_eq. exists row. split; [done|]. destruct (H1 _ _ _ Hk) as (x & Ex & _ & A & B).
      apply Nat2Z.inj in Ex as <-. rewrite Hw, Ho. split; [by right|done].
    + destruct (H1 _ _ _ E) as (x & -> & Qx & A & B). exists x. destruct (Hsame x Qx) as [-> ->]. split; [done|]. split; [|done]. left.
      split; [done|]. intros ->. apply D. destruct (H1 _ _ _ Hk) as (y & Ey & _ & A' & B'). apply Nat2Z.inj in Ey as <-.
      split; [split; [|done]|]; apply Nat2Z.inj; congruence.
  - intros x [[Qx Hx]| ->].
    + destruct (H2 x Qx) as (w' & k' & E). exists w', k'. rewrite Hat, decide_False; [done|]. intros [[-> _] ->]. rewrite Hk in E. injection E as E. lia.
    + exists who, k. rewrite Hat. by rewrite decide_True.
Qed.

Lemma mirrored_remove hs gs r r' s s' who b k :
  let last := (Dense.len r who b - 1)%nat in
  mirrored hs gs r s -> (who < OWNER_SLOTS)%nat ->
  (forall w' b', Dense.len r' w' b' = if decide (w' = who /\ b' = b) then last else Dense.len r w' b') ->
  (forall w' b' k', Dense.at_ r' w' b' k' =
     if decide (w' = who /\ b' = b) then (if decide (k' < last)%nat then Dense.at_ r who b (if decide (k' = k) then last else k') else None)
     else Dense.at_ r w' b' k') ->
  (forall w' b', slots_of s' w' b' = if decide (w' = who /\ b' = rb b) then (slots_of s who (rb b) - 1)%nat else slots_of s w' b') ->
  (forall w' b' k', life (SparseObjectBands.band_of w' b' s') k' =
     if decide (w' = who /\ b' = rb b)
     then (if decide (k' < slots_of s who (rb b) - 1)%nat then life (SparseObjectBands.band_of who (rb b) s) (if decide (k' = k) then slots_of s who (rb b) - 1 else k')%nat else None)
     else life (SparseObjectBands.band_of w' b' s) k') ->
  mirrored hs gs r' s'.
Proof.
  intros last [M1 M2] Hw L1 A1 L2 A2.
  assert (Hrb : forall b', rb b' = rb b <-> b' = b) by (intros b'; split; [by destruct b, b'|by intros ->]).
  rewrite (M1 who b Hw) in *. fold last in L2, A2. split.
  - intros w' b' Hw'. rewrite L1, L2. destruct (decide (w' = who /\ b' = b)) as [[-> ->]|D]; [by rewrite decide_True|].
    rewrite decide_False by (rewrite Hrb; done). by apply M1.
  - intros w' b' k' Hw'. rewrite A1, A2. destruct (decide (w' = who /\ b' = b)) as [[-> ->]|D].
    + rewrite decide_True by done. case_decide; [|done]. by apply M2.
    + rewrite decide_False by (rewrite Hrb; done). by apply M2.
Qed.

(** A re-pointed entry whose identity did not change. *)
Lemma mirrored_repoint hs gs hs' gs' r r' s :
  mirrored hs gs r s -> (forall w' b', Dense.len r' w' b' = Dense.len r w' b') ->
  (forall w' b' k, (v ← Dense.at_ r' w' b' k; ident_in hs' gs' b' v) = (v ← Dense.at_ r w' b' k; ident_in hs gs b' v)) ->
  mirrored hs' gs' r' s.
Proof.
  intros [M1 M2] L E. split; [intros; by rewrite M1, L|]. intros w' b' k Hw. rewrite M2 by done. specialize (E w' b' k).
  destruct (Dense.at_ r w' b' k), (Dense.at_ r' w' b' k); simpl in *; first [by rewrite E|by rewrite <- E|done].
Qed.

(** ** Step 1 of a despawn *)

Record unregistered (w : t) (h : Handle) (row : nat) (u : UnitCols.t) (r : ObjectRegistry.t) (s : SparseObjectBands.t WorldObjectIdentity) : Prop := {
  u_cols : UnitCols.wf u;
  u_cap : UnitCols.cap u = capacity w;
  u_len : UnitCols.len u = live w;
  u_cells f x : is_field f -> f <> f_o -> (x < capacity w)%nat -> UnitCols.cell f x u = UnitCols.cell f x (units w);
  u_objects : ObjectRegistry.wf r;
  u_registered : registered (fun x => (x < live w)%nat /\ x <> row) u r;
  u_sparse : SimSparseSpec.wf s;
  u_marks : dense_marks s;
  u_mirror : mirrored (handle_of_row w) (generations w) r s;
  u_active : SparseObjectBands.active s = ObjectRegistry.active r }.

Lemma live_field w f row : world_wf w -> is_field f -> (row < live w)%nat -> UnitCols.get f row (units w) = Some (UnitCols.cell f row (units w)).
Proof. intros H Hf Hr. apply UnitCols.get_live; [apply H|done|]. by rewrite (w_len _ H). Qed.

(** The index column after the moved entry is rewritten. *)
Lemma set_moved_o w (mv : option (Z * Z)) m o :
  world_wf w -> (mv = None \/ mv = Some (Z.of_nat m, Z.of_nat o) /\ (m < live w)%nat /\ (o <= 2000)%nat) ->
  exists u, (match mv with Some (mr, new_o) => UnitCols.set f_o (Z.to_nat mr) (i16 new_o) (units w) | None => Some (units w) end) = Some u /\
    UnitCols.wf u /\ UnitCols.cap u = capacity w /\ UnitCols.len u = live w /\
    (forall f x, is_field f -> f <> f_o -> (x < capacity w)%nat -> UnitCols.cell f x u = UnitCols.cell f x (units w)) /\
    (forall x, (x < live w)%nat -> o_of u x = match mv with Some (m, o) => if decide (x = Z.to_nat m) then o else o_of (units w) x | None => o_of (units w) x end).
Proof.
  intros H [->|(-> & Hm & Ho)].
  { exists (units w). split_and!; try done; apply H. }
  destruct (UnitCols.set_Some f_o m (i16 (Z.of_nat o)) (units w)) as [u E]; [by rewrite (w_len _ H)|]. rewrite Nat2Z.id. exists u.
  pose proof (UnitCols.set_dims _ _ _ _ _ E) as [Hc Hl]. pose proof (live_le _ H). rewrite (w_cap _ H) in Hc. rewrite (w_len _ H) in Hl.
  split_and!; [done|by eapply UnitCols.set_wf; [apply H|]|done|done| |].
  - intros f x Hf Hn Hx. rewrite (UnitCols.cell_set f_o m _ _ _ f x (w_cols _ H) o_field Hf) by (done || by rewrite (w_cap _ H)). by rewrite decide_False by tauto.
  - intros x Hx. unfold o_of. rewrite (UnitCols.cell_set f_o m _ _ _ f_o x (w_cols _ H) o_field o_field) by (done || rewrite (w_cap _ H); lia).
    destruct (decide (x = m)); [rewrite decide_True by done; by apply i16_small|by rewrite decide_False by tauto].
Qed.

Lemma unregister_total h row w : world_wf w -> row_of h w = Some row -> exists u r s, unregister h row w = Some (u, r, s) /\ unregistered w h row u r s.
Proof.
  intros H Hrow. pose proof Hrow as (Hr & Hi & Hg)%row_of_Some; [|done]. pose proof (live_le _ H) as Hlive.
  destruct (registered_row _ _ _ _ (w_registered _ H) Hr) as (who & k & Hwho & Ho & Hat).
  destruct (unit_slot _ _ _ _ H Hr Hat) as [Hw Hlife]. rewrite (ident_row _ _ _ H Hrow) in Hlife. simpl in Hlife.
  pose proof (Dense.at_lt _ _ _ _ _ Hat) as [Hk _]. pose proof (unit_band_short w who H) as Hshort.
  destruct (Dense.remove_dense_at who Unit k (Z.of_nat row) (objects w) (w_objects _ H) Hat) as (mv & r' & Er & Rw & Ract & Rmv & Rlen & Rat).
  destruct (w_mirror _ H) as [Ml Mat]. pose proof (Ml who Unit Hw) as Hlen. simpl rb in Hlen.
  assert (Hdense : forall k', (k' < Dense.len (objects w) who Unit)%nat -> exists x, Dense.at_ (objects w) who Unit k' = Some (Z.of_nat x) /\ (x < live w)%nat).
  { intros k' Hk'. destruct (Dense.at_Some _ _ _ _ Hk') as [v Ev]. destruct (proj1 (w_registered _ H) _ _ _ Ev) as (x & -> & Hx & _). by exists x. }
  assert (Hlast : exists m, (mv = None \/ mv = Some (Z.of_nat m, Z.of_nat k) /\ (m < live w)%nat /\ (k <= 2000)%nat)).
  { destruct Rmv as [[-> _]|(m & -> & Hn & Hm)]; [exists 0%nat; by left|]. destruct (proj1 (w_registered _ H) _ _ _ Hm) as (x & -> & Hx & _).
    exists x. right. split; [done|]. lia. }
  destruct Hlast as [m Hmv]. destruct (set_moved_o w mv m k H Hmv) as (u & Eu & Uw & Uc & Ul & Ucells & Uo).
  destruct (mirror_remove_dense who RetailBand.Unit k (identity_of h) (object_bands w)) as (rc & s' & sm & Es & Esm & Hsm & Sw & Sd & Sact & Slen & Slife);
    [apply H|apply H|done|done| |].
  { intros k' Hk'. rewrite Hlen in Hk'. destruct (Hdense k' Hk') as (x & Ex & Hx). destruct (unit_slot _ _ _ _ H Hx Ex) as [_ ->].
    destruct (ident_Some w x H) as (i & g & ->); [lia|]. by eexists. }
  exists u, r', s'.
  assert (Hou : u32 (Z.of_nat k) = Z.of_nat k) by (apply wrap_u_id; ranges; lia).
  assert (Hoi : i32 (Z.of_nat k) = Z.of_nat k) by (apply wrap_s_id; [lia|ranges; lia]).
  split.
  - unfold unregister, UnitCols.get_u8. rewrite !(live_field w _ row H) by (apply who_field || apply o_field || done). cbn [mbind option_bind fmap option_fmap option_map].
    fold (who_of (units w) row). fold (o_of (units w) row). rewrite Hwho, Ho, Nat2Z.id, Hou, Hoi.
    change (ObjectRegistry.remove who Unit (Z.of_nat k) (objects w) = Some (mv, r')) in Er. rewrite Er. cbn [mbind option_bind]. rewrite Eu. cbn [mbind option_bind].
    change (mkAddress who RetailBand.Unit (Z.of_nat k)) with (SimSparseSpec.at_ who RetailBand.Unit k). rewrite Es, Esm.
    assert (Ha : receipts_agree mv sm w = true); [|by rewrite Ha].
    unfold receipts_agree. rewrite Hlen in Hsm.
    destruct Rmv as [[-> Hkl]|(m' & -> & Hn & Hm)], Hsm as [[-> Hkl']|(j & -> & Hn' & Hj)]; [done|lia|lia|].
    destruct (proj1 (w_registered _ H) _ _ _ Hm) as (x & -> & Hx & _). destruct (unit_slot _ _ _ _ H Hx Hm) as [_ Hxl]. rewrite Hj in Hxl. rewrite Nat2Z.id.
    fold (ident (handle_of_row w) (generations w) x). destruct (ident _ _ x) as [j'|]; [|done]. simpl in Hxl. injection Hxl as <-.
    rewrite bool_decide_true by done. simpl. apply Z.eqb_refl.
  - split; try done.
    + apply (registered_remove (fun x => x < live w)%nat (units w) u (objects w) r' mv row who k); try done; [apply H|].
      intros x Hx. unfold who_of. rewrite Ucells by (apply who_field || done || lia). done.
    + apply (mirrored_remove _ _ (objects w) r' (object_bands w) s' who Unit k); try done.
    + rewrite Sact, Ract. apply H.
Qed.

(** ** Step 2 of a despawn *)

(** The transposition of the removed row and the last one. *)
Definition swapped_row (row last x : nat) : nat := if decide (x = row) then last else if decide (x = last) then row else x.

Lemma swapped_row_inj row last x y : swapped_row row last x = swapped_row row last y -> x = y.
Proof. unfold swapped_row. repeat case_decide; lia. Qed.
Lemma swapped_row_self row last x : (row <= last)%nat -> (x < last)%nat -> swapped_row row last x <> row.
Proof. unfold swapped_row. repeat case_decide; lia. Qed.
Lemma swapped_row_lt row last x : (row <= last)%nat -> (x < last)%nat -> (swapped_row row last x <= last)%nat.
Proof. unfold swapped_row. repeat case_decide; lia. Qed.

Lemma swap_remove_total {A} (i : nat) (l : list A) :
  (i < length l)%nat -> exists l', swap_remove i l = Some l' /\ length l' = (length l - 1)%nat /\
    forall x, (x < length l - 1)%nat -> l' !! x = l !! swapped_row i (length l - 1) x.
Proof.
  intros Hi. unfold swap_remove. rewrite decide_True by done. rewrite last_lookup.
  destruct (lookup_lt_is_Some_2 l (length l - 1)) as [z Hz]; [lia|]. replace (pred (length l)) with (length l - 1)%nat by lia. rewrite Hz. simpl.
  eexists. split; [done|]. split; [rewrite length_take, length_insert; lia|]. intros x Hx. rewrite lookup_take_lt by done. unfold swapped_row.
  case_decide as D; [subst; by rewrite list_lookup_insert_eq by done|]. rewrite decide_False by lia. by rewrite list_lookup_insert_ne.
Qed.

Lemma pop_total {A} (l : list A) : length (pop l) = (length l - 1)%nat /\ forall x, (x < length l - 1)%nat -> pop l !! x = l !! swapped_row (length l - 1) (length l - 1) x.
Proof.
  unfold pop. split; [rewrite length_take; lia|]. intros x Hx. rewrite lookup_take_lt by done. unfold swapped_row. by rewrite !decide_False by lia.
Qed.

Record compacted (w : t) (row : nat) (u1 : UnitCols.t) (r1 : ObjectRegistry.t) (u : UnitCols.t) (r : ObjectRegistry.t)
    (os : list OrderList.t) (ts xs ys hs rs : list Z) : Prop := {
  c_cols : UnitCols.wf u;
  c_cap : UnitCols.cap u = capacity w;
  c_len : UnitCols.len u = live w;
  c_cells f x : is_field f -> (x < live w - 1)%nat -> UnitCols.cell f x u = UnitCols.cell f (swapped_row row (live w - 1) x) u1;
  c_lengths : length os = (live w - 1)%nat /\ length ts = (live w - 1)%nat /\ length xs = (live w - 1)%nat /\ length ys = (live w - 1)%nat;
  c_sides x : (x < live w - 1)%nat -> let y := swapped_row row (live w - 1) x in
    os !! x = unit_orders w !! y /\ ts !! x = unit_type_id w !! y /\ xs !! x = move_step_x w !! y /\ ys !! x = move_step_y w !! y;
  c_handles : length hs = capacity w /\ forall x, x <> (live w - 1)%nat -> hs !! x = handle_of_row w !! swapped_row row (live w - 1) x;
  c_rows : length rs = capacity w /\ Forall (fun z => 0 <= z) rs /\
    forall x i, (x < live w - 1)%nat -> handle_of_row w !! swapped_row row (live w - 1) x = Some i -> rs !! Z.to_nat i = Some (Z.of_nat x);
  c_objects : ObjectRegistry.wf r;
  c_active : ObjectRegistry.active r = ObjectRegistry.active r1;
  c_registered : registered (fun x => x < live w - 1)%nat u r;
  c_band who b : Dense.len r who b = Dense.len r1 who b;
  c_entries who b k : Dense.at_ r1 who b k =
    if decide (b = Unit) then (fun v => Z.of_nat (swapped_row row (live w - 1) (Z.to_nat v))) <$> Dense.at_ r who b k else Dense.at_ r who b k }.

Lemma compact_last h w u1 r1 s1 :
  world_wf w -> row_of h w = Some (live w - 1)%nat -> unregistered w h (live w - 1) u1 r1 s1 ->
  exists u r os ts xs ys hs rs, compact (live w - 1) (live w - 1) u1 r1 w = Some (u, r, os, ts, xs, ys, hs, rs) /\
    compacted w (live w - 1) u1 r1 u r os ts xs ys hs rs.
Proof.
  intros H Hrow U. pose proof Hrow as (Hr & Hi & Hg)%row_of_Some; [|done]. unfold compact. rewrite decide_False by tauto. do 8 eexists. split; [done|].
  assert (Hid : forall x, x <> (live w - 1)%nat -> swapped_row (live w - 1) (live w - 1) x = x) by (intros; unfold swapped_row; by rewrite !decide_False).
  split; try apply U.
  - intros f x Hf Hx. by rewrite Hid by lia.
  - rewrite <- (w_orders _ H) at 1. rewrite <- (w_types _ H) at 1. rewrite <- (w_step_x _ H) at 1. rewrite <- (w_step_y _ H) at 1. split_and!; apply pop_total.
  - intros x Hx. destruct (pop_total (unit_orders w)) as [_ P1], (pop_total (unit_type_id w)) as [_ P2], (pop_total (move_step_x w)) as [_ P3], (pop_total (move_step_y w)) as [_ P4].
    rewrite (w_orders _ H) in P1. rewrite (w_types _ H) in P2. rewrite (w_step_x _ H) in P3. rewrite (w_step_y _ H) in P4. by rewrite P1, P2, P3, P4.
  - split; [apply H|]. intros x Hx. by rewrite Hid.
  - split; [apply H|]. split; [apply H|]. intros x i Hx Hxi. rewrite Hid in Hxi by lia. apply (w_inverse _ H); [lia|done].
  - done.
  - eapply registered_ext; [|apply U]. intros x. simpl. lia.
  - done.
  - intros who b k. case_decide as D; [|done]. subst b. destruct (Dense.at_ r1 who Unit k) as [v|] eqn:E; [|done]. simpl.
    destruct (proj1 (u_registered _ _ _ _ _ _ U) _ _ _ E) as (x & -> & [Hx Hn] & _). rewrite Nat2Z.id. by rewrite Hid.
Qed.

Lemma compact_swap h row w u1 r1 s1 :
  world_wf w -> row_of h w = Some row -> row <> (live w - 1)%nat -> unregistered w h row u1 r1 s1 ->
  exists u r os ts xs ys hs rs, compact row (live w - 1) u1 r1 w = Some (u, r, os, ts, xs, ys, hs, rs) /\
    compacted w row u1 r1 u r os ts xs ys hs rs.
Proof.
  intros H Hrow Hn U. pose proof Hrow as (Hr & Hi & Hg)%row_of_Some; [|done]. pose proof (live_le _ H) as Hlive.
  set (last := (live w - 1)%nat) in *. unfold compact. rewrite decide_True by done.
  destruct (swap_remove_total row (unit_orders w)) as (os & Eos & Los & Kos); [rewrite (w_orders _ H); lia|].
  destruct (swap_remove_total row (unit_type_id w)) as (ts & Ets & Lts & Kts); [rewrite (w_types _ H); lia|].
  destruct (swap_remove_total row (move_step_x w)) as (xs & Exs & Lxs & Kxs); [rewrite (w_step_x _ H); lia|].
  destruct (swap_remove_total row (move_step_y w)) as (ys & Eys & Lys & Kys); [rewrite (w_step_y _ H); lia|].
  rewrite (w_orders _ H) in Los, Kos. rewrite (w_types _ H) in Lts, Kts. rewrite (w_step_x _ H) in Lxs, Kxs. rewrite (w_step_y _ H) in Lys, Kys.
  fold last in Los, Kos, Lts, Kts, Lxs, Kxs, Lys, Kys. rewrite Eos, Ets, Exs, Eys. cbn [mbind option_bind].
  set (u := UnitCols.copy_row row last u1).
  assert (Uw : UnitCols.wf u) by apply UnitCols.copy_row_wf, U.
  assert (Ucap : UnitCols.cap u = capacity w) by (unfold u; rewrite UnitCols.cap_copy_row; apply U).
  assert (Ulen : UnitCols.len u = live w) by (unfold u; rewrite UnitCols.len_copy_row; apply U).
  assert (Ucell : forall f x, is_field f -> (x < capacity w)%nat -> UnitCols.cell f x u = UnitCols.cell f (if decide (x = row) then last else x) u1).
  { intros f x Hf Hx. unfold u. rewrite UnitCols.cell_copy_row by (apply U || rewrite ?(u_cap _ _ _ _ _ _ U); (done || lia)). by case_decide. }
  destruct (registered_row _ _ _ last (u_registered _ _ _ _ _ _ U)) as (who & k & Hwho & Ho & Hat); [split; [lia|done]|].
  assert (Hwr : who_of u row = Z.of_nat who) by (unfold who_of; rewrite Ucell, decide_True by (apply who_field || done || lia); done).
  assert (Hor : o_of u row = Z.of_nat k) by (unfold o_of; rewrite Ucell, decide_True by (apply o_field || done || lia); done).
  unfold UnitCols.get_u8. rewrite !UnitCols.get_live by (apply who_field || apply o_field || done || rewrite Ulen; lia). cbn [mbind option_bind fmap option_fmap option_map].
  fold (who_of u row). fold (o_of u row). rewrite Hwr, Hor, Nat2Z.id.
  assert (Hk : Z.of_nat k < 32768).
  { pose proof (Dense.at_lt _ _ _ _ _ Hat) as [Hk Hw]. destruct (u_mirror _ _ _ _ _ _ U) as [M _]. rewrite (proj1 (u_objects _ _ _ _ _ _ U)) in Hw.
    pose proof (wf_band _ (u_sparse _ _ _ _ _ _ U) who RetailBand.Unit Hw) as (_ & _ & Hb). pose proof (M who Unit Hw) as Hl. simpl rb in Hl. unfold slots_of in Hl.
    rewrite Hl in Hb. cbv [RetailBand.base RetailBand.limit RetailBand.UNIT_BAND_BASE RetailBand.UNIT_BAND_LIMIT] in Hb. lia. }
  rewrite (wrap_u_id 32) by (ranges; lia).
  destruct (Dense.repoint_dense who Unit k (Z.of_nat row) _ _ (u_objects _ _ _ _ _ _ U) Hat) as (r & Er & Rw & Ract & Rlen & Rat).
  change (ObjectRegistry.repoint who Unit (Z.of_nat k) (Z.of_nat row) r1 = Some r) in Er. rewrite Er. cbn [mbind option_bind].
  destruct (handle_id w last H) as (m & Hm & Hmr); [lia|]. rewrite Hm. cbn [mbind option_bind]. do 8 eexists. split; [done|].
  split; try done.
  - intros f x Hf Hx. fold last in Hx |- *. rewrite Ucell by (done || lia). unfold swapped_row. repeat case_decide; (done || lia).
  - intros x Hx. by rewrite Kos, Kts, Kxs, Kys.
  - split; [by rewrite length_insert; apply H|]. fold last. intros x Hx. unfold swapped_row. case_decide as D.
    + subst x. rewrite Hm. apply list_lookup_insert_eq. rewrite (w_handles _ H). lia.
    + rewrite decide_False by done. by rewrite list_lookup_insert_ne.
  - split; [by rewrite length_insert; apply H|]. split; [apply Forall_insert; [apply H|lia]|]. fold last. intros x i Hx Hxi. unfold swapped_row in Hxi. case_decide as D.
    + subst x. rewrite Hm in Hxi. injection Hxi as <-. apply list_lookup_insert_eq. rewrite (w_rows _ H). lia.
    + rewrite decide_False in Hxi by lia. rewrite list_lookup_insert_ne; [apply (w_inverse _ H); [lia|done]|]. pose proof (id_range _ _ _ H Hxi). intros E.
      apply Z2Nat.inj in E; [|lia|lia]. subst i. assert (x = last) by (eapply NoDup_lookup; [apply (w_nodup _ H)|done|done]). lia.
  - eapply registered_ext; [|eapply (registered_move (fun x => (x < live w)%nat /\ x <> row) u1 u r1 r last row who k)]; [intros x; simpl; fold last; lia|apply U|lia|tauto|done|done| | |].
    + intros x [Hx Hxn]. unfold who_of, o_of. rewrite !Ucell by (apply who_field || apply o_field || lia). by rewrite decide_False.
    + by rewrite Hwr, Hwho.
    + by rewrite Hor, Ho.
  - intros who' b k'. rewrite Rat. fold last. destruct (decide (b = Unit)) as [->|Hb].
    + destruct (decide ((who' = who /\ Unit = Unit) /\ k' = k)) as [[[-> _] ->]|D]; simpl.
      * rewrite Nat2Z.id, Hat. unfold swapped_row. by rewrite decide_True.
      * destruct (Dense.at_ r1 who' Unit k') as [v|] eqn:E; [|done]. simpl. destruct (proj1 (u_registered _ _ _ _ _ _ U) _ _ _ E) as (x & -> & [Hx Hxn] & A & B).
        rewrite Nat2Z.id. unfold swapped_row. rewrite decide_False by done. rewrite decide_False; [done|]. intros ->. apply D. split; [split; [|done]|]; apply Nat2Z.inj; congruence.
    + by rewrite decide_False by tauto.
Qed.

(** ** The two steps together *)

Lemma compact_total h row w u1 r1 s1 :
  world_wf w -> row_of h w = Some row -> unregistered w h row u1 r1 s1 ->
  exists u r os ts xs ys hs rs, compact row (live w - 1) u1 r1 w = Some (u, r, os, ts, xs, ys, hs, rs) /\
    compacted w row u1 r1 u r os ts xs ys hs rs.
Proof.
  intros H Hrow U. destruct (decide (row = live w - 1)%nat) as [->|Hn]; [by eapply compact_last|by eapply compact_swap].
Qed.

(** The identities behind the rows that are left. *)
Lemma ident_after w h row hs g x :
  world_wf w -> row_of h w = Some row -> (forall x, x <> (live w - 1)%nat -> hs !! x = handle_of_row w !! swapped_row row (live w - 1) x) ->
  (x < live w - 1)%nat ->
  ident (<[(live w - 1)%nat := id h]> hs) (<[Z.to_nat (id h) := g]> (generations w)) x =
  ident (handle_of_row w) (generations w) (swapped_row row (live w - 1) x).
Proof.
  intros H Hrow Hhs Hx. pose proof Hrow as (Hr & Hi & _)%row_of_Some; [|done]. unfold ident. rewrite list_lookup_insert_ne by lia. rewrite Hhs by lia.
  destruct (handle_of_row w !! swapped_row _ _ x) as [i|] eqn:E; [|done]. simpl. rewrite list_lookup_insert_ne; [done|]. intros E'.
  pose proof (id_range _ _ _ H E). pose proof (id_range _ _ _ H Hi). apply Z2Nat.inj in E'; [|lia|lia]. subst i.
  apply (swapped_row_self row (live w - 1) x); [lia|lia|]. by eapply NoDup_lookup; [apply (w_nodup _ H)|..].
Qed.

Lemma handles_after w h row hs :
  world_wf w -> row_of h w = Some row -> length hs = capacity w ->
  (forall x, x <> (live w - 1)%nat -> hs !! x = handle_of_row w !! swapped_row row (live w - 1) x) ->
  forall x, <[(live w - 1)%nat := id h]> hs !! x = handle_of_row w !! swapped_row row (live w - 1) x.
Proof.
  intros H Hrow Hl Hhs x. pose proof Hrow as (Hr & Hi & _)%row_of_Some; [|done]. pose proof (live_le _ H). destruct (decide (x = live w - 1)%nat) as [->|Hx].
  - rewrite list_lookup_insert_eq by lia. unfold swapped_row. case_decide as D; [by rewrite D|]. by rewrite decide_True.
  - rewrite list_lookup_insert_ne by done. by apply Hhs.
Qed.

(** What a despawn leaves. *)
Record despawned (w : t) (h : Handle) (row : nat) (w' : t) : Prop := {
  d_wf : world_wf w';
  d_live : live w = S (live w');
  d_clock : frame w' = frame w /\ seconds w' = seconds w /\ random w' = random w /\ capacity w' = capacity w;
  d_handle x : (x < live w')%nat -> handle_of_row w' !! x = handle_of_row w !! swapped_row row (live w') x;
  d_gens : generations w' = <[Z.to_nat (id h) := u32 (generation h + 1)]> (generations w);
  d_unit x : (x < live w')%nat -> same_unit w (swapped_row row (live w') x) w' x }.

Lemma despawn_total h row w : world_wf w -> row_of h w = Some row -> exists w', despawn h w = Some (true, w') /\ despawned w h row w'.
Proof.
  intros H Hrow. pose proof Hrow as (Hr & Hi & Hg)%row_of_Some; [|done]. pose proof (live_le _ H) as Hlive.
  destruct (unregister_total _ _ _ H Hrow) as (u1 & r1 & s1 & E1 & U). destruct (compact_total _ _ _ _ _ _ H Hrow U) as (u & r & os & ts & xs & ys & hs & rs & E2 & C).
  unfold despawn. rewrite Hrow, E1. cbn [mbind option_bind]. rewrite E2. cbn [mbind option_bind]. rewrite Hg. cbn [mbind option_bind]. eexists. split; [done|].
  destruct (c_lengths _ _ _ _ _ _ _ _ _ _ _ _ C) as (L1 & L2 & L3 & L4). destruct (c_handles _ _ _ _ _ _ _ _ _ _ _ _ C) as [Lh Hhs].
  destruct (c_rows _ _ _ _ _ _ _ _ _ _ _ _ C) as (Lr & Hr0 & Hinv).
  pose proof (handles_after _ _ _ _ H Hrow Lh Hhs) as Hha.
  assert (Hpop : UnitCols.pop u = UnitCols.set_len (live w - 1) u).
  { unfold UnitCols.pop. rewrite (c_len _ _ _ _ _ _ _ _ _ _ _ _ C), decide_True by lia. done. }
  split; cbn [units unit_orders unit_type_id move_step_x move_step_y objects object_bands handle_of_row row_of_handle generations live capacity frame seconds random rules coverage].
  - split; cbn [units unit_orders unit_type_id move_step_x move_step_y objects object_bands handle_of_row row_of_handle generations live capacity frame seconds random rules coverage];
      try apply H; try apply U; try apply C; try done.
    + apply UnitCols.pop_wf, C.
    + rewrite Hpop. apply C.
    + rewrite Hpop. done.
    + by rewrite length_insert.
    + apply NoDup_alt. intros x y i Hx Hy. rewrite Hha in Hx, Hy. apply (swapped_row_inj row (live w - 1)). by eapply NoDup_lookup; [apply (w_nodup _ H)|..].
    + apply Forall_lookup. intros x i Hx. rewrite Hha in Hx. by eapply id_range.
    + intros x i Hx Hxi. rewrite Hha in Hxi. by apply Hinv.
    + rewrite length_insert. apply H.
    + rewrite Hpop. destruct (c_registered _ _ _ _ _ _ _ _ _ _ _ _ C) as [R1 R2]. split; [|done]. intros who k v E. destruct (R1 _ _ _ E) as (x & ? & ? & ? & ?).
      exists x. unfold who_of, o_of. by rewrite !UnitCols.cell_set_len.
    + eapply mirrored_repoint; [apply U|intros; apply C|]. intros who b k. rewrite (c_entries _ _ _ _ _ _ _ _ _ _ _ _ C). case_decide as D; [|by destruct b].
      subst b. destruct (Dense.at_ r who Unit k) as [v|] eqn:E; [|done]. simpl. destruct (proj1 (c_registered _ _ _ _ _ _ _ _ _ _ _ _ C) _ _ _ E) as (x & -> & Hx & _).
      rewrite !Nat2Z.id. by eapply ident_after.
    + rewrite (c_active _ _ _ _ _ _ _ _ _ _ _ _ C). apply U.
  - lia.
  - done.
  - intros x Hx. apply Hha.
  - done.
  - intros x Hx. pose proof (c_sides _ _ _ _ _ _ _ _ _ _ _ _ C x Hx) as Hs. split; [|exact Hs]. intros f Hf Hn. cbn [units].
    rewrite Hpop, UnitCols.cell_set_len, (c_cells _ _ _ _ _ _ _ _ _ _ _ _ C) by done.
    apply (u_cells _ _ _ _ _ _ U); [done|done|]. pose proof (swapped_row_lt row (live w - 1) x). lia.
Qed.

Lemma u32_succ_ne g : u32 (g + 1) <> g.
Proof.
  unfold wrap_u. intros E. pose proof (Z.mod_pos_bound (g + 1) (2 ^ 32)) as B. rewrite E in B. ranges.
  destruct (decide (g = 4294967295)) as [->|]; [vm_compute in E; discriminate|]. rewrite Z.mod_small in E; lia.
Qed.

(** The removed handle is dead, and every other one still names its unit. *)
Lemma despawned_handles w h row w' : world_wf w -> row_of h w = Some row -> despawned w h row w' ->
  row_of h w' = None /\
  forall h' x, h' <> h -> row_of h' w = Some x ->
    let x' := if decide (x = live w') then row else x in row_of h' w' = Some x' /\ same_unit w x w' x'.
Proof.
  intros H Hrow D. pose proof (d_wf _ _ _ _ D) as H'. pose proof Hrow as (Hr & Hi & Hg)%row_of_Some; [|done]. pose proof (d_live _ _ _ _ D) as Hl.
  pose proof (id_range _ _ _ H Hi) as Hid. split.
  - destruct (row_of h w') as [x|] eqn:E; [|done]. exfalso. apply row_of_Some in E as (_ & _ & E); [|done]. rewrite (d_gens _ _ _ _ D) in E.
    rewrite list_lookup_insert_eq in E by (rewrite (w_gens _ H); lia). injection E as E. by apply u32_succ_ne in E.
  - intros h' x Hn Hx x'. pose proof Hx as (Hxl & Hxi & Hxg)%row_of_Some; [|done].
    assert (Hxr : x <> row). { intros ->. rewrite Hi in Hxi. injection Hxi as Hxi. apply Hn. destruct h, h'; simpl in *. subst. congruence. }
    assert (Hx' : (x' < live w')%nat /\ swapped_row row (live w') x' = x) by (unfold x', swapped_row; repeat case_decide; lia). destruct Hx' as [Hlt Hsw].
    split; [|rewrite <- Hsw at 1; by apply (d_unit _ _ _ _ D)]. apply row_of_Some; [done|]. rewrite (d_handle _ _ _ _ D), Hsw, (d_gens _ _ _ _ D) by done.
    split; [done|]. split; [done|]. rewrite list_lookup_insert_ne; [done|]. intros E. pose proof (id_range _ _ _ H Hxi). apply Z2Nat.inj in E; [|lia|lia].
    apply Hxr. symmetry. eapply NoDup_lookup; [apply (w_nodup _ H)|exact Hi|by rewrite E].
Qed.
