(* ===== verification/SimWorldTick.v ===== *)
(** * The frame of a world

    Over [SimWorld] and its invariant: [World::step] never panics, keeps every
    view of every unit in step, advances the clock by one frame and a second
    every fifteen, and leaves every unit that was on the map on the map.  The
    element-wise frame agrees with its scalar and vector forms. *)

From S2P Require Import Prelude SimArith SimTrig SimKernels SimDamage SimRandom SimObjects SimSparse SimSparseSpec SimCols SimPayload SimOrder SimWorld SimWorldSpec.
Import World.
#[local] Open Scope Z_scope.

(** ** What a frame may touch *)

Definition on_map (z : Z) : Prop := 0 <= z < MAP_SPAN.
Definition is_pos (f : field) : Prop := f = f_x_internal \/ f = f_y_internal.

Record quiet (w w' : t) : Prop := {
  q_cols : UnitCols.wf (units w');
  q_cap : UnitCols.cap (units w') = UnitCols.cap (units w);
  q_len : UnitCols.len (units w') = UnitCols.len (units w);
  q_addr row : (row < live w)%nat -> who_of (units w') row = who_of (units w) row /\ o_of (units w') row = o_of (units w) row;
  q_pos f row : is_pos f -> (row < live w)%nat ->
    UnitCols.cell f row (units w') = UnitCols.cell f row (units w) \/ on_map (UnitCols.cell f row (units w'));
  q_orders : length (unit_orders w') = length (unit_orders w);
  q_step_x : length (move_step_x w') = length (move_step_x w);
  q_step_y : length (move_step_y w') = length (move_step_y w);
  q_types : unit_type_id w' = unit_type_id w;
  q_objects : objects w' = objects w;
  q_bands : object_bands w' = object_bands w;
  q_handles : handle_of_row w' = handle_of_row w;
  q_rows : row_of_handle w' = row_of_handle w;
  q_gens : generations w' = generations w;
  q_live : live w' = live w;
  q_capacity : capacity w' = capacity w;
  q_clock : frame w' = frame w /\ seconds w' = seconds w;
  q_random : random w' = random w;
  q_rules : rules w' = rules w;
  q_coverage : coverage_ok (coverage w) -> coverage_ok (coverage w') }.

Lemma quiet_wf w w' : world_wf w -> quiet w w' -> world_wf w'.
Proof.
  intros H Q. split; rewrite ?(q_objects _ _ Q), ?(q_bands _ _ Q), ?(q_handles _ _ Q), ?(q_rows _ _ Q), ?(q_gens _ _ Q), ?(q_live _ _ Q),
    ?(q_capacity _ _ Q), ?(q_rules _ _ Q), ?(q_types _ _ Q), ?(q_cap _ _ Q), ?(q_len _ _ Q), ?(q_orders _ _ Q), ?(q_step_x _ _ Q), ?(q_step_y _ _ Q);
    try apply H; try apply Q.
  - destruct (w_registered _ H) as [R1 R2]. split; [|done]. intros who k v E. destruct (R1 _ _ _ E) as (row & -> & Hr & A & B). exists row.
    destruct (q_addr _ _ Q row Hr) as [-> ->]. done.
  - apply H.
Qed.

Lemma quiet_refl w : world_wf w -> quiet w w.
Proof. intros H. split; try done; [apply H|]. intros. by left. Qed.

Lemma unit_quiet_trans w1 w2 w3 : quiet w1 w2 -> quiet w2 w3 -> quiet w1 w3.
Proof.
  intros A B. destruct (q_clock _ _ A) as [F1 S1], (q_clock _ _ B) as [F2 S2].
  split; try (first [apply B | etrans; [apply B|apply A]]).
  - intros row Hr. pose proof (q_addr _ _ A row Hr) as [A1 A2]. rewrite <- (q_live _ _ A) in Hr. pose proof (q_addr _ _ B row Hr) as [B1 B2]. split; congruence.
  - intros f row Hf Hr. pose proof (q_pos _ _ A f row Hf Hr) as PA. rewrite <- (q_live _ _ A) in Hr. destruct (q_pos _ _ B f row Hf Hr) as [->|]; [done|by right].
  - split; congruence.
  - intros Hc. by apply (q_coverage _ _ B), (q_coverage _ _ A).
Qed.

(** A step that succeeds and stays within bounds. *)
Definition runs (w : t) (m : option t) : Prop := exists w', m = Some w' /\ quiet w w'.

Lemma runs_ret w : world_wf w -> runs w (Some w).
Proof. intros H. exists w. split; [done|by apply quiet_refl]. Qed.

Lemma runs_quiet w w' : quiet w w' -> runs w (Some w').
Proof. intros. by exists w'. Qed.

Lemma runs_bind w m k : world_wf w -> runs w m -> (forall w', world_wf w' -> quiet w w' -> runs w' (k w')) -> runs w (m ≫= k).
Proof.
  intros H (w1 & -> & Q1) Hk. destruct (Hk w1 (quiet_wf _ _ H Q1) Q1) as (w2 & E & Q2). exists w2. split; [done|by eapply unit_quiet_trans].
Qed.

Lemma runs_step w w1 m : quiet w w1 -> runs w1 m -> runs w m.
Proof. intros Q (w2 & E & Q2). exists w2. split; [done|by eapply unit_quiet_trans]. Qed.

(** ** Primitive updates *)

Lemma set_z_runs f row v w :
  world_wf w -> is_field f -> f <> f_who -> f <> f_o -> (is_pos f -> on_map v) -> (row < live w)%nat -> runs w (set_z f row v w).
Proof.
  intros H Hf Hw Ho Hp Hr. unfold set_z. pose proof (live_le _ H) as Hlive. destruct (UnitCols.set_Some f row v (units w)) as [u E]; [by rewrite (w_len _ H)|].
  rewrite E. cbn [mbind option_bind]. pose proof (UnitCols.set_dims _ _ _ _ _ E) as [Hc Hl]. exists (set_units u w). split; [done|].
  assert (C : forall f' r, is_field f' -> (r < live w)%nat -> UnitCols.cell f' r u = if decide (f' = f /\ r = row) then v else UnitCols.cell f' r (units w)).
  { intros f' r Hf' Hr'. apply (UnitCols.cell_set f row v (units w) u f' r); try done; [apply H|]. rewrite (w_cap _ H). lia. }
  split; try done.
  - eapply UnitCols.set_wf; [apply H|done].
  - intros r Hr'. unfold who_of, o_of. cbn [set_units units]. rewrite !C by (apply who_field || apply o_field || done). by rewrite !decide_False by (intros [? _]; congruence).
  - intros f' r Hf' Hr'. assert (is_field f') by (destruct Hf' as [->| ->]; unfold is_field; simpl; unfold W4_PLANES; lia). cbn [set_units units]. rewrite C by done.
    case_decide as D; [|by left]. destruct D as [-> ->]. right. by apply Hp.
Qed.

Lemma set_move_runs row x y w : world_wf w -> (row < live w)%nat -> runs w (set_move row x y w).
Proof.
  intros H Hr. unfold set_move, set_move_step. rewrite decide_True by (rewrite (w_step_x _ H), (w_step_y _ H); done). apply runs_quiet.
  split; try done; [apply H|intros; by left|..]; simpl; by rewrite length_insert.
Qed.

Lemma kill_current_runs row w : world_wf w -> (row < live w)%nat -> runs w (kill_current row w).
Proof.
  intros H Hr. unfold kill_current. destruct (lookup_lt_is_Some_2 (unit_orders w) row) as [l E]; [by rewrite (w_orders _ H)|]. rewrite E. cbn [mbind option_bind].
  apply runs_quiet. split; try done; [apply H|intros; by left|]. simpl. by rewrite length_insert.
Qed.

Lemma set_coverage_quiet c w : world_wf w -> (coverage_ok (coverage w) -> coverage_ok c) -> quiet w (set_coverage c w).
Proof. intros H Hc. split; try done; [apply H|]. intros; by left. Qed.

Lemma count_quiet up uw gm hd bp wp wd da ds w : world_wf w -> quiet w (count_in (count up uw gm hd bp wp wd da ds) w).
Proof. intros H. by apply set_coverage_quiet. Qed.

Lemma get_z_live f row w : world_wf w -> is_field f -> (row < live w)%nat -> get_z f row w = Some (UnitCols.cell f row (units w)).
Proof. apply live_field. Qed.

Ltac field_tac := unfold is_field; simpl; unfold W4_PLANES, W2_PLANES, W1_PLANES; lia.
Ltac not_pos := intros [?|?]; discriminate.
(** Step into [x ← get_z f row w; ...] and [get_u8]. *)
Ltac read := rewrite ?get_z_live by (done || field_tac || lia); cbn [mbind option_bind].
Ltac read8 := unfold UnitCols.get_u8, UnitCols.get_u16; rewrite ?live_field by (done || field_tac || lia); cbn [mbind option_bind fmap option_fmap option_map].
(** Step over a write. *)
Ltac write :=
  lazymatch goal with
  | |- runs _ (set_z _ _ _ _) => apply set_z_runs; [done|field_tac|discriminate|discriminate|not_pos|lia]
  | |- runs _ (set_move _ _ _ _) => apply set_move_runs; [done|lia]
  | |- runs _ (kill_current _ _) => apply kill_current_runs; [done|lia]
  | |- runs _ (_ ≫= _) => apply runs_bind; [done| |intros ? ? ?]
  end.
Ltac lives := repeat match goal with Q : quiet ?a ?b |- _ => lazymatch goal with _ : live b = live a |- _ => fail | _ => pose proof (q_live _ _ Q) end end.

(** ** Orders *)

Lemma do_move_runs row w : world_wf w -> (row < live w)%nat -> runs w (do_move row w).
Proof.
  intros H Hr. unfold do_move. destruct (lookup_lt_is_Some_2 (unit_orders w) row) as [l E]; [by rewrite (w_orders _ H)|]. rewrite E. cbn [mbind option_bind].
  destruct (OrderList.current l) as [ord|]; [|write]. read.
  set (tol := if 0 <? tolerance ord then _ else _). assert (exists z, tol = Some z) as [z ->] by (unfold tol; destruct (0 <? _); by eexists).
  cbn [mbind option_bind]. destruct (_ <=? _).
  - write; [write|]. lives. write; [write|]. lives. write.
  - write; [write|]. lives. write; [write|]. lives. read. write.
Qed.

Lemma type_stats_ok ty w s : world_wf w -> type_stats ty w = Some s -> stats_ok s.
Proof.
  intros H E. unfold type_stats in E. destruct (ty <=? 0); [done|]. destruct (list_find _ _) as [[k x]|] eqn:F; [|done]. simpl in E. injection E as <-.
  apply list_find_Some in F as (F & _ & _). by eapply (proj1 (Forall_lookup _ _) (w_rules _ H)).
Qed.

Lemma strike_runs row trow atk def pct dx dy w :
  world_wf w -> (row < live w)%nat -> (trow < live w)%nat -> stats_ok atk -> stats_ok def -> runs w (strike row trow atk def pct dx dy w).
Proof.
  intros H Hr Ht [Ha _] [_ Hd]. unfold strike. read8. read.
  destruct (Mechanics.damage_defined (damage_input pct (Mechanics.get_attack (st_attack atk) false 0 0) (Mechanics.get_armor (st_armor def) false 0 0)
    (find_angle dx dy) (u8 (UnitCols.cell f_who row (units w))) (type_id atk) (type_id def) (UnitCols.cell f_angle trow (units w)) (frame w))
    Mechanics.nothing (combat (rules w)) Mechanics.no_terms) as (d & Ed & _); [by split|by split|]. rewrite Ed. cbn [mbind option_bind]. read.
  write; [write|]. lives. write; [write|]. lives.
  eapply runs_step; [by apply count_quiet|]. match goal with |- runs ?w _ => assert (world_wf w) by (eapply quiet_wf; [|by apply count_quiet]; done) end.
  case_match; [|by apply runs_ret].
  read8. apply set_z_runs; [done|field_tac|discriminate|discriminate|not_pos|]. simpl. lia.
Qed.

Lemma engage_runs row trow b w : world_wf w -> (row < live w)%nat -> (trow < live w)%nat -> runs w (engage row trow b w).
Proof.
  intros H Hr Ht. unfold engage. destruct (lookup_lt_is_Some_2 (unit_type_id w) row) as [a ->]; [by rewrite (w_types _ H)|].
  destruct (lookup_lt_is_Some_2 (unit_type_id w) trow) as [d ->]; [by rewrite (w_types _ H)|]. cbn [mbind option_bind].
  destruct (type_stats a w) as [atk|] eqn:Ea; [|by apply runs_quiet, count_quiet]. destruct (type_stats d w) as [def|] eqn:Ed; [|by apply runs_quiet, count_quiet].
  apply type_stats_ok in Ea, Ed; [|done..]. read. destruct (_ <? _).
  - write; [write|]. lives. read. write.
  - write; [write|]. lives. destruct (BalanceTable_get _ _ b); [apply strike_runs; (done || lia)|by apply runs_quiet, count_quiet].
Qed.

Lemma do_attack_runs row w : world_wf w -> (row < live w)%nat -> runs w (do_attack row w).
Proof.
  intros H Hr. unfold do_attack. destruct (lookup_lt_is_Some_2 (unit_orders w) row) as [l ->]; [by rewrite (w_orders _ H)|]. cbn [mbind option_bind].
  destruct (OrderList.current l) as [ord|]; [|by apply runs_ret]. destruct (_ || _)%bool; [write|]. read8. destruct (0 <? _); [write|].
  destruct (balance (rules w)) as [b|]; [|by apply runs_quiet, count_quiet]. destruct (unit_row_at _ _ w) as [trow|]; [|write].
  case_decide as D; [write|]. apply engage_runs; (done || lia).
Qed.

Lemma unit_work_runs row w : world_wf w -> (row < live w)%nat -> runs w (unit_work row w).
Proof.
  intros H Hr. unfold unit_work. apply (runs_step w (count_in count_unit_work w)); [by apply count_quiet|]. set (w1 := count_in count_unit_work w).
  assert (H1 : world_wf w1) by (eapply quiet_wf; [exact H|by apply count_quiet]). assert (Hr1 : (row < live w1)%nat) by done. clearbody w1. clear H Hr w.
  destruct (lookup_lt_is_Some_2 (unit_orders w1) row) as [l ->]; [by rewrite (w_orders _ H1)|]. cbn [mbind option_bind].
  destruct (w_coverage _ H1) as [Hs Hc]. destruct (record_order_wf (OrderList.order_type l) _ Hc) as (st & c' & -> & Hc' & _). cbn [mbind option_bind].
  apply (runs_step w1 (set_coverage (set_order_coverage c' (coverage w1)) w1)); [apply set_coverage_quiet; [done|by split]|]. set (w2 := set_coverage _ w1).
  assert (H2 : world_wf w2) by (eapply quiet_wf; [exact H1|apply set_coverage_quiet; [done|by split]]). assert (Hr2 : (row < live w2)%nat) by done. clearbody w2.
  case_decide; [by apply runs_ret|]. destruct (OrderList.order_type l); try (by apply runs_ret); [write|by apply do_move_runs|by apply do_move_runs|by apply do_attack_runs].
Qed.

Lemma mod_on_map z : on_map (z mod MAP_SPAN).
Proof. apply Z.mod_pos_bound. done. Qed.

(** The integrator always ends on the map. *)
Lemma guy_process_runs row w : world_wf w -> (row < live w)%nat -> runs w (guy_process row w).
Proof.
  intros H Hr. unfold guy_process. apply (runs_step w (count_in count_guy_move w)); [by apply count_quiet|]. set (w1 := count_in count_guy_move w).
  assert (H1 : world_wf w1) by (eapply quiet_wf; [exact H|by apply count_quiet]). assert (Hr1 : (row < live w1)%nat) by done. clearbody w1. clear H Hr w.
  read. destruct (lookup_lt_is_Some_2 (move_step_x w1) row) as [sx ->]; [by rewrite (w_step_x _ H1)|].
  destruct (lookup_lt_is_Some_2 (move_step_y w1) row) as [sy ->]; [by rewrite (w_step_y _ H1)|]. cbn [mbind option_bind].
  apply runs_bind; [done|apply set_z_runs; try done; [field_tac|intros; apply mod_on_map]|]. intros w' H' Q. lives.
  apply set_z_runs; try done; [field_tac|intros; apply mod_on_map|lia].
Qed.

Lemma unit_process_runs row w : world_wf w -> (row < live w)%nat -> runs w (unit_process row w).
Proof.
  intros H Hr. unfold unit_process. apply (runs_step w (count_in count_unit_process w)); [by apply count_quiet|].
  assert (H1 : world_wf (count_in count_unit_process w)) by (eapply quiet_wf; [exact H|by apply count_quiet]).
  apply runs_bind; [done|by apply unit_work_runs|]. intros w' H' Q. apply guy_process_runs; [done|]. rewrite (q_live _ _ Q). done.
Qed.

(** ** The walk *)

Lemma process_entry_runs e i w : world_wf w -> entry_lifecycle e = Live i -> runs w (process_entry e w).
Proof.
  intros H E. unfold process_entry. rewrite E. destruct (a_band (entry_address e)), i; try (by apply runs_ret); try (by apply runs_quiet, count_quiet).
  destruct (row_of _ w) as [row|] eqn:Er; [|by apply runs_ret]. apply row_of_Some in Er as (Hr & _); [|done]. read8.
  case_match; [by apply unit_process_runs|]. case_match; [|by apply runs_ret]. write; [write|]. by apply runs_quiet, count_quiet.
Qed.

(** In a mirrored registry every entry of the walk is live. *)
Definition all_live (es : list (TraversalEntry WorldObjectIdentity)) : Prop := Forall (fun e => exists i, entry_lifecycle e = Live i) es.

Lemma append_marked_live who b l w : world_wf w -> (who < OWNER_SLOTS)%nat -> SparseObjectBands.append_marked who b (object_bands w) = Some l -> all_live l.
Proof.
  intros H Hw El. unfold SparseObjectBands.append_marked in El. case_decide as D; [done|]. injection El as <-. apply Forall_lookup. intros k e Ek.
  rewrite list_lookup_imap in Ek. destruct (take _ _ !! k) as [sl|] eqn:Es; [|done]. simpl in Ek. injection Ek as <-. simpl. apply lookup_take_Some in Es as [Es _].
  assert (exists b', b = rb b') as [b' ->] by (destruct b; [exists Unit|exists Build|exists Wall]; done). destruct (w_mirror _ H) as [_ M]. specialize (M who b' k Hw).
  unfold life in M. rewrite Es in M. simpl in M. destruct (Dense.at_ _ who b' k) as [v|]; [|done]. simpl in M. destruct (ident_in _ _ b' v) as [j|]; [|done].
  simpl in M. injection M as M. by exists j.
Qed.

Lemma mapM_live {A} (f : A -> option (list (TraversalEntry WorldObjectIdentity))) l ls :
  (forall x es, x ∈ l -> f x = Some es -> all_live es) -> mapM f l = Some ls -> all_live (concat ls).
Proof.
  intros Hf Em. apply mapM_Some in Em. apply Forall_concat, Forall_forall. intros es Hes. apply list_elem_of_lookup in Hes as [n Hn].
  destruct (Forall2_lookup_r _ _ _ _ _ Em Hn) as (x & Hx & Hb). eapply Hf; [|done]. by eapply list_elem_of_lookup_2.
Qed.

Lemma walk_owner_live bs who l w : world_wf w -> (who < OWNER_SLOTS)%nat -> SparseObjectBands.walk_owner bs who (object_bands w) = Some l -> all_live l.
Proof.
  intros H Hw El. unfold SparseObjectBands.walk_owner in El. destruct (default _ _); [|injection El as <-; by apply Forall_nil_2].
  destruct (mapM _ bs) as [ls|] eqn:Em; [|done]. injection El as <-. eapply mapM_live; [|exact Em]. simpl. intros b es _ Eb. by eapply append_marked_live.
Qed.

Lemma traversal_live fr w es : world_wf w -> SparseObjectBands.traversal fr (object_bands w) = Some es -> all_live es.
Proof.
  intros H E. unfold SparseObjectBands.traversal in E. destruct (mapM _ (SparseObjectBands.rotation fr)) as [us|] eqn:E1; [|done]. cbn [mbind option_bind] in E.
  destruct (mapM _ (seq 0 _)) as [bs|] eqn:E2; [|done]. cbn [mbind option_bind] in E. injection E as <-.
  apply Forall_app_2; (eapply mapM_live; [|eassumption]); intros x l Hx El; cbv beta in El; (eapply walk_owner_live; [done| |done]); [by eapply rotation_lt|].
  apply elem_of_seq in Hx. unfold OWNER_SLOTS, BANDED_OWNER_SLOTS in *. lia.
Qed.

Lemma process_entries_runs es w : world_wf w -> all_live es -> runs w (process_entries es w).
Proof.
  intros H Hes. revert w H. induction Hes as [|e es [i He] _ IH]; intros w H; [by apply runs_ret|]. cbn [process_entries].
  apply runs_bind; [done|by eapply process_entry_runs|]. intros w' H' _. by apply IH.
Qed.

Lemma objects_process_all_runs w : world_wf w -> runs w (objects_process_all w).
Proof.
  intros H. unfold objects_process_all. destruct (traversal_total (frame w) (object_bands w) (w_sparse _ H)) as [es Ees]. rewrite Ees. cbn [mbind option_bind].
  pose proof (traversal_live _ _ _ H Ees) as Hl. apply (runs_bind w); [done|by apply process_entries_runs|]. intros w' H' _. case_match; [by apply runs_quiet, count_quiet|by apply runs_ret].
Qed.

(** ** The frame *)

Lemma enter_ok s c : (s < DO_FRAME_STEPS)%nat -> coverage_ok c -> exists c', enter s c = Some c' /\ coverage_ok c'.
Proof.
  intros Hs [Hl Hc]. unfold enter. destruct (lookup_lt_is_Some_2 (schedule c) s) as [n ->]; [by rewrite Hl|]. simpl. eexists. split; [done|].
  split; simpl; [by rewrite length_insert|done].
Qed.

Lemma enter_steps_runs ss w : world_wf w -> Forall (fun s => s < DO_FRAME_STEPS)%nat ss -> runs w (enter_steps ss w).
Proof.
  intros H Hs. unfold enter_steps. assert (exists c, enter_all ss (coverage w) = Some c /\ coverage_ok c) as (c & -> & Hc).
  { pose proof (w_coverage _ H) as Hc. revert Hc. generalize (coverage w). induction Hs as [|s ss Hs _ IH]; intros c Hc; [by exists c|]. cbn [enter_all].
    destruct (enter_ok s c Hs Hc) as (c' & -> & Hc'). by apply IH. }
  cbn [mbind option_bind]. by apply runs_quiet, set_coverage_quiet.
Qed.

Lemma set_clock_wf f s w : world_wf w -> world_wf (set_clock f s w).
Proof. intros []. by split. Qed.

(** The effect of a frame on what the other views see. *)
Record framed (w w' : t) : Prop := {
  f_wf : world_wf w';
  f_frame : frame w' = i32 (frame w + 1);
  f_seconds : seconds w' = if Z.rem (frame w') FRAMES_PER_SECOND =? 0 then i32 (seconds w + 1) else seconds w;
  f_live : live w' = live w;
  f_random : random w' = random w;
  f_rows h : row_of h w' = row_of h w;
  f_addr row : (row < live w)%nat -> who_of (units w') row = who_of (units w) row /\ o_of (units w') row = o_of (units w) row;
  f_pos f row : is_pos f -> (row < live w)%nat -> on_map (UnitCols.cell f row (units w)) -> on_map (UnitCols.cell f row (units w')) }.

Lemma quiet_rows w w' h : quiet w w' -> row_of h w' = row_of h w.
Proof. intros Q. unfold row_of. by rewrite (q_handles _ _ Q), (q_rows _ _ Q), (q_gens _ _ Q), (q_live _ _ Q), (q_capacity _ _ Q). Qed.

(** A part of the frame that is within bounds, before the rest. *)
Lemma runs_then w m :
  world_wf w -> runs w m -> exists w', world_wf w' /\ quiet w w' /\ forall B (k : t -> option B), (m ≫= k) = k w'.
Proof. intros H (w' & -> & Q). exists w'. split; [by eapply quiet_wf|]. done. Qed.

Lemma step_framed w : world_wf w -> exists w', step w = Some w' /\ framed w w'.
Proof.
  intros H. unfold step.
  destruct (runs_then w (enter_steps (seq 0 14) w)) as (w1 & H1 & Q1 & K); [done|apply enter_steps_runs; [done|apply Forall_seq; unfold DO_FRAME_STEPS; lia]|]; rewrite K; clear K.
  destruct (runs_then w1 (enter_steps [14%nat] w1)) as (w2 & H2 & Q2 & K); [done|apply enter_steps_runs; [done|repeat constructor; unfold DO_FRAME_STEPS; lia]|]; rewrite K; clear K.
  destruct (runs_then w2 (objects_process_all w2)) as (w3 & H3 & Q3 & K); [done|by apply objects_process_all_runs|]; rewrite K; clear K.
  destruct (runs_then w3 (enter_steps (seq 15 5) w3)) as (w4 & H4 & Q4 & K); [done|apply enter_steps_runs; [done|apply Forall_seq; unfold DO_FRAME_STEPS; lia]|]; rewrite K; clear K.
  destruct (runs_then w4 (enter_steps [20%nat] w4)) as (w5 & H5 & Q5 & K); [done|apply enter_steps_runs; [done|repeat constructor; unfold DO_FRAME_STEPS; lia]|]; rewrite K; clear K.
  pose proof (unit_quiet_trans _ _ _ Q1 (unit_quiet_trans _ _ _ Q2 (unit_quiet_trans _ _ _ Q3 (unit_quiet_trans _ _ _ Q4 Q5)))) as QA. clear Q1 Q2 Q3 Q4 Q5.
  cbv zeta. set (w6 := set_clock (wadd (frame w5) 1) (seconds w5) w5). assert (H6 : world_wf w6) by by apply set_clock_wf.
  destruct (runs_then w6 (enter_steps [21%nat; 22%nat] w6)) as (w7 & H7 & Q7 & K); [done|apply enter_steps_runs; [done|repeat constructor; unfold DO_FRAME_STEPS; lia]|]; rewrite K; clear K.
  destruct (runs_then w7 (enter_steps [23%nat] w7)) as (w8 & H8 & Q8 & K); [done|apply enter_steps_runs; [done|repeat constructor; unfold DO_FRAME_STEPS; lia]|]; rewrite K; clear K.
  pose proof (unit_quiet_trans _ _ _ Q7 Q8) as QB. clear Q7 Q8.
  set (w9 := if Z.rem (frame w8) FRAMES_PER_SECOND =? 0 then set_clock (frame w8) (wadd (seconds w8) 1) w8 else w8).
  assert (H9 : world_wf w9) by (unfold w9; case_match; [by apply set_clock_wf|done]).
  destruct (enter_steps_runs (seq 24 (DO_FRAME_STEPS - 24)) w9) as (w' & E & QC); [done|apply Forall_seq; unfold DO_FRAME_STEPS; lia|]. exists w'. split; [done|].
  destruct (q_clock _ _ QA) as [FA SA], (q_clock _ _ QB) as [FB SB], (q_clock _ _ QC) as [FC SC].
  assert (E9 : units w9 = units w8 /\ live w9 = live w8 /\ random w9 = random w8 /\ frame w9 = frame w8 /\ forall h, row_of h w9 = row_of h w8) by (unfold w9; by case_match).
  destruct E9 as (U9 & L9 & R9 & F9 & W9). pose proof (q_live _ _ QA) as LA. pose proof (q_live _ _ QB) as LB. pose proof (q_live _ _ QC) as LC. change (live w6) with (live w5) in LB.
  split.
  - by eapply quiet_wf.
  - rewrite FC, F9, FB. simpl. by rewrite FA.
  - rewrite SC, FC, F9. unfold w9. case_match; simpl; rewrite SB; simpl; by rewrite SA.
  - congruence.
  - rewrite (q_random _ _ QC), R9, (q_random _ _ QB). apply (q_random _ _ QA).
  - intros h. rewrite (quiet_rows _ _ h QC), W9, (quiet_rows _ _ h QB). apply (quiet_rows _ _ h QA).
  - intros row Hr. pose proof (q_addr _ _ QA row Hr) as A. pose proof (q_addr _ _ QB row ltac:(simpl; lia)) as B. pose proof (q_addr _ _ QC row ltac:(lia)) as C.
    rewrite U9 in C. simpl in B. split; [by rewrite (proj1 C), (proj1 B), (proj1 A)|by rewrite (proj2 C), (proj2 B), (proj2 A)].
  - intros f row Hf Hr Hm. pose proof (q_pos _ _ QA f row Hf Hr) as A. pose proof (q_pos _ _ QB f row Hf ltac:(simpl; lia)) as B. pose proof (q_pos _ _ QC f row Hf ltac:(lia)) as C.
    rewrite U9 in C. simpl in B. destruct C as [-> |?]; [|done]. destruct B as [-> |?]; [|done]. destruct A as [-> |?]; done.
Qed.
