(* ===== verification/SimWorldMain.v ===== *)
(** * The world: its theorems

    Whatever sequence of spawns, despawns, orders, frames and host writes a
    world goes through, its views stay in step ([world_invariant]); spawning
    and despawning behave as their contracts say on every branch
    ([spawn_contract], [despawn_contract]); a frame is total and keeps units on
    the map ([frame_contract]); and one owner's two-thousand-and-first unit
    panics instead of being refused ([spawn_2001_panics]). *)

From S2P Require Import Prelude SimArith SimKernels SimRandom SimObjects SimSparse SimSparseSpec SimCols SimPayload SimOrder SimWorld SimWorldSpec SimWorldTick.
Import World.
#[local] Open Scope Z_scope.

(** ** Addresses resolve *)

Lemma row_address w row : world_wf w -> (row < live w)%nat ->
  exists who k, who_of (units w) row = Z.of_nat who /\ o_of (units w) row = Z.of_nat k /\ (who < OWNER_SLOTS)%nat /\ (k < 2000)%nat /\
    SparseObjectBands.live_identity (SimSparseSpec.at_ who RetailBand.Unit k) (object_bands w) = ident (handle_of_row w) (generations w) row.
Proof.
  intros H Hr. destruct (registered_row _ _ _ _ (w_registered _ H) Hr) as (who & k & Hwho & Ho & Hat). exists who, k.
  destruct (unit_slot _ _ _ _ H Hr Hat) as [Hw Hl]. pose proof (live_le _ H). destruct (ident_Some w row H) as (i & g & Ei); [lia|]. rewrite Ei in Hl |- *. simpl in Hl.
  pose proof (Dense.at_lt _ _ _ _ _ Hat) as [Hk _]. pose proof (unit_band_short w who H). split_and!; [done|done|done|lia|].
  apply reverse_live_identity; [apply H|]. apply (wf_rev _ (w_sparse _ H)). exists who, RetailBand.Unit, k. split; [done|]. by split.
Qed.

Lemma unit_row_at_row w row : world_wf w -> (row < live w)%nat -> unit_row_at (who_of (units w) row) (o_of (units w) row) w = Some row.
Proof.
  intros H Hr. destruct (row_address w row H Hr) as (who & k & -> & -> & Hw & Hk & El). unfold unit_row_at. rewrite Nat2Z.id.
  rewrite (proj2 (Z.ltb_ge _ _)) by lia. rewrite bool_decide_false by lia.
  assert (RetailBand.contains RetailBand.Unit (Z.of_nat k) = true) as ->.
  { apply andb_true_iff. split; [apply Z.leb_le|apply Z.ltb_lt]; cbv [RetailBand.base RetailBand.limit RetailBand.UNIT_BAND_BASE RetailBand.UNIT_BAND_LIMIT]; lia. }
  cbn [orb negb]. change (mkAddress who RetailBand.Unit (Z.of_nat k)) with (SimSparseSpec.at_ who RetailBand.Unit k). rewrite El.
  pose proof (live_le _ H). destruct (handle_id w row H) as (i & Hi & _); [lia|]. destruct (gen_Some _ _ _ H Hi) as [g Hg]. unfold ident. rewrite Hi. simpl. rewrite Hg. simpl.
  by apply row_of_Some.
Qed.

Lemma handle_at_row_of w row h : world_wf w -> handle_at_row row w = Some h <-> row_of h w = Some row.
Proof.
  intros H. rewrite row_of_Some by done. unfold handle_at_row. split.
  - case_decide as D; [done|]. destruct (handle_of_row w !! row) as [i|]; [|done]. simpl. destruct (generations w !! _) as [g|] eqn:Eg; [|done].
    simpl. intros [= <-]. split; [lia|]. done.
  - intros (Hr & Hi & Hg). rewrite decide_False by lia. rewrite Hi. simpl. rewrite Hg. simpl. by destruct h.
Qed.

(** ** Every operation keeps the invariant *)

Lemma spawn_typed_wf owner ty w r w' : world_wf w -> spawn_typed owner ty w = Some (r, w') -> world_wf w'.
Proof.
  intros H E. destruct (refuses owner w) eqn:Er; [unfold spawn_typed in E; rewrite Er in E; by simplify_eq|]. unfold refuses in Er. bool_hyps.
  pose proof (unit_band_short w owner H). destruct (decide (Dense.len (objects w) owner Unit = 2000)%nat) as [Hb|Hb].
  - rewrite spawn_full_band in E by (done || lia). done.
  - destruct (spawn_typed_total owner ty w) as (h & w2 & E2 & S); [done|lia|lia|lia|]. rewrite E in E2. simplify_eq. apply S.
Qed.

Lemma allocate_typed_at_wf owner ty x y w r w' : world_wf w -> allocate_typed_at owner ty x y w = Some (r, w') -> world_wf w'.
Proof.
  intros H E. destruct (refuses owner w) eqn:Er; [unfold allocate_typed_at in E; rewrite Er in E; by simplify_eq|]. unfold refuses in Er. bool_hyps.
  pose proof (unit_band_short w owner H). destruct (decide (Dense.len (objects w) owner Unit = 2000)%nat) as [Hb|Hb].
  - rewrite allocate_at_full_band in E by (done || lia). done.
  - destruct (allocate_typed_at_total owner ty x y w) as (h & w2 & E2 & S & _); [done|lia|lia|lia|]. rewrite E in E2. simplify_eq. apply S.
Qed.

Lemma despawn_wf h w b w' : world_wf w -> despawn h w = Some (b, w') -> world_wf w'.
Proof.
  intros H E. destruct (row_of h w) as [row|] eqn:Er; [|unfold despawn in E; rewrite Er in E; by simplify_eq].
  destruct (despawn_total h row w H Er) as (w2 & E2 & D). rewrite E in E2. simplify_eq. apply D.
Qed.

Lemma issue_wf h q w : world_wf w -> world_wf (issue h q w).2.
Proof. intros H. unfold issue. destruct (row_of h w); [|done]. simpl. destruct H. split; simpl; try done. by rewrite length_alter. Qed.

Lemma set_active_wf owner on w b w' : world_wf w -> set_object_owner_active owner on w = Some (b, w') -> world_wf w'.
Proof.
  intros H E. unfold set_object_owner_active in E. case_decide as D; [by simplify_eq|]. destruct (SparseObjectBands.set_active owner on (object_bands w)) as [s|] eqn:Es; [|done].
  simplify_eq. destruct (set_active_keeps _ _ _ _ (w_sparse _ H) Es) as [Hs _]. unfold SparseObjectBands.set_active in Es. case_match; [|done]. simplify_eq.
  destruct H. split; simpl; try done.
  - destruct w_objects as [? ?]. split; simpl; [done|by rewrite length_insert].
  - by rewrite w_active.
Qed.

Lemma set_pos_wf row x y w w' : world_wf w -> set_pos row x y w = Some w' -> world_wf w'.
Proof.
  intros H E. unfold set_pos in E. destruct (UnitCols.set f_x_internal row x (units w)) as [u1|] eqn:E1; [|done]. cbn [mbind option_bind] in E.
  destruct (UnitCols.set f_y_internal row y u1) as [u2|] eqn:E2; [|done]. cbn [mbind option_bind] in E. simplify_eq. pose proof (live_le _ H).
  destruct (UnitCols.set_dims _ _ _ _ _ E1) as [C1 L1]. destruct (UnitCols.set_dims _ _ _ _ _ E2) as [C2 L2].
  pose proof (UnitCols.set_wf _ _ _ _ _ (w_cols _ H) E1) as W1. pose proof (UnitCols.set_wf _ _ _ _ _ W1 E2) as W2.
  assert (A : forall f r, is_field f -> (r < live w)%nat -> f <> f_x_internal -> f <> f_y_internal -> UnitCols.cell f r u2 = UnitCols.cell f r (units w)).
  { intros f r Hf Hr Hx Hy. pose proof (w_cap _ H). rewrite (UnitCols.cell_set f_y_internal row y u1 u2 f r) by (done || field_tac || lia).
    rewrite decide_False by tauto. rewrite (UnitCols.cell_set f_x_internal row x (units w) u1 f r) by (apply H || done || field_tac || lia). by rewrite decide_False by tauto. }
  pose proof (w_registered _ H) as [R1 R2]. destruct H. split; simpl; try done; try congruence. split; [|done]. intros who k v E.
  destruct (R1 _ _ _ E) as (r & -> & Hr & <- & <-). exists r. unfold who_of, o_of. by rewrite !A by (done || field_tac).
Qed.

Lemma set_move_step_wf row x y w w' : world_wf w -> set_move_step row x y w = Some w' -> world_wf w'.
Proof. intros H E. unfold set_move_step in E. case_decide; simplify_eq. destruct H. split; simpl; try done; by rewrite length_insert. Qed.

Definition set_rules (r : SharedRules) (w : t) : t :=
  mk (units w) (unit_orders w) (unit_type_id w) (move_step_x w) (move_step_y w) (objects w) (object_bands w) (handle_of_row w)
     (row_of_handle w) (generations w) (live w) (capacity w) (frame w) (seconds w) (random w) r (coverage w).

Lemma set_rules_wf r w : world_wf w -> Forall stats_ok (unit_stats r) -> world_wf (set_rules r w).
Proof. intros [] Hr. by split. Qed.

Lemma registered_non_unit owner b row i r' rc s w :
  world_wf w -> (owner < OWNER_SLOTS)%nat -> b <> Unit -> ident_in (handle_of_row w) (generations w) b row = Some i ->
  ObjectRegistry.insert owner b row (objects w) = Some (base b + Z.of_nat (Dense.len (objects w) owner b), r') ->
  SparseObjectBands.mirror_dense_append owner (rb b) i (object_bands w) = Ok (rc, s) -> world_wf (set_registries r' s w).
Proof.
  intros H Ho Hb Hi Ei Em. destruct (Dense.insert_dense owner b row (objects w) (w_objects _ H) Ho) as (r2 & Er & Rw & Ract & Rlen & Rat). rewrite Ei in Er. simplify_eq.
  destruct (mirror_append_ok _ _ _ _ _ _ (w_sparse _ H) (w_marks _ H) Em) as (Sw & Sd & Sact & Slen & Slife). pose proof (w_registered _ H) as [R1 R2].
  pose proof (mirrored_insert _ _ _ _ _ _ owner b row i (w_mirror _ H) Hi Ho Rlen Rat Slen Slife) as M.
  destruct H. split; simpl; try done; [|by rewrite Sact, Ract, w_active]. split.
  - intros who k v. rewrite Rat, decide_False by (intros [[_ ?] _]; congruence). apply R1.
  - intros x Hx. destruct (R2 x Hx) as (who & k & Ek). exists who, k. by rewrite Rat, decide_False by (intros [[_ ?] _]; congruence).
Qed.

Lemma register_non_unit_wf owner b row w w' : world_wf w -> (owner < OWNER_SLOTS)%nat -> register_non_unit owner b row w = Some w' -> world_wf w'.
Proof.
  intros H Ho E. unfold register_non_unit in E. destruct (Dense.insert_dense owner b row (objects w) (w_objects _ H) Ho) as (r' & Er & _).
  rewrite Er in E. cbn [mbind option_bind] in E. unfold mirror_dense_non_unit_append in E. cbn [set_registries object_bands] in E.
  destruct b; [done|..]; cbn [rbind] in E;
    (destruct (SparseObjectBands.mirror_dense_append _ _ _ _) as [[rc s]|] eqn:Em; [|done]; cbn [map_err rbind] in E; destruct (negb _); [done|]; simplify_eq).
  - by eapply (registered_non_unit owner Build row _ r' rc s w).
  - by eapply (registered_non_unit owner Wall row _ r' rc s w).
Qed.

Lemma hot_wf integrate down w :
  (forall p v z, length (integrate p v z) = length p) -> (forall l, length (down l) = length l) -> world_wf w -> world_wf (hot integrate down w).
Proof.
  intros Hi Hd H. unfold hot. cbv zeta. pose proof (live_le _ H) as Hlive. pose proof (w_cap _ H) as Hcap. pose proof (w_len _ H) as Hlen.
  assert (P : forall f l u, is_field f -> f <> f_who -> f <> f_o -> UnitCols.wf u -> UnitCols.cap u = capacity w -> UnitCols.len u = live w -> length l = live w ->
    UnitCols.wf (UnitCols.put_slice f l u) /\ UnitCols.cap (UnitCols.put_slice f l u) = capacity w /\ UnitCols.len (UnitCols.put_slice f l u) = live w /\
    (forall r, (r < live w)%nat -> who_of (UnitCols.put_slice f l u) r = who_of u r /\ o_of (UnitCols.put_slice f l u) r = o_of u r)).
  { intros f l u Hf Hw Ho Uw Uc Ul Hl. rewrite UnitCols.cap_put_slice, UnitCols.len_put_slice. split_and!; [apply UnitCols.put_slice_wf; (done || lia)|done|done|].
    intros r Hr. unfold who_of, o_of. rewrite !UnitCols.cell_put_slice by (done || field_tac || lia). by rewrite !decide_False by (intros [? _]; congruence). }
  set (u1 := UnitCols.put_slice f_x_internal _ (units w)). destruct (P f_x_internal (integrate (UnitCols.slice f_x_internal (units w)) (take (live w) (move_step_x w)) MAP_SPAN) (units w)) as (W1 & C1 & L1 & A1);
    [field_tac|done|done|apply H|done|done|rewrite Hi, UnitCols.length_slice by (apply H || field_tac); done|]. fold u1 in W1, C1, L1, A1.
  set (u2 := UnitCols.put_slice f_y_internal _ u1). destruct (P f_y_internal (integrate (UnitCols.slice f_y_internal u1) (take (live w) (move_step_y w)) MAP_SPAN) u1) as (W2 & C2 & L2 & A2);
    [field_tac|done|done|done|done|done|rewrite Hi, UnitCols.length_slice by (done || field_tac); done|]. fold u2 in W2, C2, L2, A2.
  set (u3 := UnitCols.put_slice f_hold_frames _ u2). destruct (P f_hold_frames (down (UnitCols.slice f_hold_frames u2)) u2) as (W3 & C3 & L3 & A3);
    [field_tac|done|done|done|done|done|rewrite Hd, UnitCols.length_slice by (done || field_tac); done|]. fold u3 in W3, C3, L3, A3.
  clearbody u1 u2 u3. pose proof (w_registered _ H) as [R1 R2]. destruct H. split; simpl; try done. split; [|done]. intros who k v E.
  destruct (R1 _ _ _ E) as (r & -> & Hr & <- & <-). exists r. destruct (A1 r Hr) as [A1w A1o], (A2 r Hr) as [A2w A2o], (A3 r Hr) as [A3w A3o].
  rewrite A3w, A2w, A1w, A3o, A2o, A1o. done.
Qed.

(** One operation of the world or of its host. *)
Inductive world_step : t -> t -> Prop :=
| ws_spawn owner ty r w w' : spawn_typed owner ty w = Some (r, w') -> world_step w w'
| ws_allocate owner ty x y r w w' : allocate_typed_at owner ty x y w = Some (r, w') -> world_step w w'
| ws_despawn h b w w' : despawn h w = Some (b, w') -> world_step w w'
| ws_issue h q w : world_step w (issue h q w).2
| ws_active owner on b w w' : set_object_owner_active owner on w = Some (b, w') -> world_step w w'
| ws_register owner b row w w' : (owner < OWNER_SLOTS)%nat -> register_non_unit owner b row w = Some w' -> world_step w w'
| ws_set_pos row x y w w' : set_pos row x y w = Some w' -> world_step w w'
| ws_set_move row x y w w' : set_move_step row x y w = Some w' -> world_step w w'
| ws_rules r w : Forall stats_ok (unit_stats r) -> world_step w (set_rules r w)
| ws_frames n w : world_step w (advance_frames n w)
| ws_hot w : world_step w (step_hot w)
| ws_scalar w : world_step w (step_scalar_reference w)
| ws_step w w' : step w = Some w' -> world_step w w'.

Lemma integrate_length p v z : length (integrate_wrap p v z) = length p.
Proof. apply length_for_zip. Qed.
Lemma integrate_scalar_length p v z : length (integrate_wrap_scalar p v z) = length p.
Proof. apply length_for_zip. Qed.

Lemma world_step_wf w w' : world_step w w' -> world_wf w -> world_wf w'.
Proof.
  intros S H. destruct S.
  - by eapply spawn_typed_wf.
  - by eapply allocate_typed_at_wf.
  - by eapply despawn_wf.
  - by apply issue_wf.
  - by eapply set_active_wf.
  - by eapply register_non_unit_wf.
  - by eapply set_pos_wf.
  - by eapply set_move_step_wf.
  - by apply set_rules_wf.
  - by apply set_clock_wf.
  - apply hot_wf; [apply integrate_length|intros; apply length_map|done].
  - apply hot_wf; [apply integrate_scalar_length|intros; apply length_map|done].
  - destruct (step_framed w H) as (w2 & E & F). rewrite H0 in E. simplify_eq. apply F.
Qed.

Lemma reachable_wf c seed w : rtc world_step (with_capacity c seed) w -> world_wf w.
Proof.
  intros R. assert (H : world_wf (with_capacity c seed)) by apply with_capacity_world_wf. revert H. induction R as [|w1 w2 w3 S _ IH]; [done|].
  intros H. apply IH. by eapply world_step_wf.
Qed.

Lemma unit_row_at_address who o row w : world_wf w -> unit_row_at who o w = Some row -> who_of (units w) row = who /\ o_of (units w) row = o.
Proof.
  intros H E. unfold unit_row_at in E. destruct (_ || _ || _)%bool eqn:G; [done|]. bool_hyps.
  destruct (SparseObjectBands.live_identity _ _) as [[i g| |]|] eqn:El; try done. pose proof E as (Hr & Hi & Hg)%row_of_Some; [|done]. simpl in Hi, Hg.
  destruct (row_address w row H Hr) as (w' & k & -> & -> & Hw & Hk & El'). unfold ident in El'. rewrite Hi in El'. simpl in El'. rewrite Hg in El'. simpl in El'.
  pose proof (live_identity_inj _ _ _ _ (w_sparse _ H) El El') as Ea. unfold SimSparseSpec.at_ in Ea. injection Ea as E1 E2. split; [lia|]. rewrite E2.
  cbv [RetailBand.base RetailBand.UNIT_BAND_BASE]. lia.
Qed.

(** ** Theorems *)

(** (C5) Along every sequence of operations the columns, the handles, the dense
    registry and the sparse registry stay in step: a handle and the row it
    resolves to name each other, and so do a row and its engine address. *)
Theorem world_invariant (c : nat) (seed : Z) (w : t) (R : rtc world_step (with_capacity c seed) w) :
  world_wf w /\
  (forall row h, handle_at_row row w = Some h <-> row_of h w = Some row) /\
  (forall row, (row < live w)%nat -> unit_row_at (who_of (units w) row) (o_of (units w) row) w = Some row) /\
  (forall who o row, unit_row_at who o w = Some row -> who_of (units w) row = who /\ o_of (units w) row = o).
Proof.
  pose proof (reachable_wf _ _ _ R) as H. split; [done|]. split; [intros; by apply handle_at_row_of|]. split; [intros; by apply unit_row_at_row|].
  intros. by apply unit_row_at_address.
Qed.

(** (C12) A despawn through a stale handle changes nothing.  Through a live one it
    succeeds, kills that handle and no other: every other handle still names a
    unit with the same fields, orders, type and movement step. *)
Theorem despawn_contract (h : Handle) (w : t) (H : world_wf w) :
  match row_of h w with
  | None => despawn h w = Some (false, w)
  | Some _ =>
      exists w', despawn h w = Some (true, w') /\ world_wf w' /\ live w = S (live w') /\ row_of h w' = None /\
        forall h' x, h' <> h -> row_of h' w = Some x -> exists x', row_of h' w' = Some x' /\ same_unit w x w' x'
  end.
Proof.
  destruct (row_of h w) as [row|] eqn:E; [|unfold despawn; by rewrite E]. destruct (despawn_total h row w H E) as (w' & Ed & D).
  destruct (despawned_handles _ _ _ _ H E D) as [Hn Ho]. exists w'. split_and!; [done|apply D|apply D|done|].
  intros h' x Hne Hx. eexists. by apply Ho.
Qed.

(** (C21) A spawn is refused, without a trace, when the world is full or the owner
    is not a slot.  Otherwise, while the owner's band has room, it gives a
    handle that no live unit had, to a unit of that owner and type with no
    orders, and leaves every other unit and handle as they were; with the band
    full it panics. *)
Theorem spawn_contract (owner : nat) (ty : Z) (w : t) (H : world_wf w) :
  if refuses owner w then spawn_typed owner ty w = Some (None, w)
  else if decide (Dense.len (objects w) owner Unit < 2000)%nat
       then exists h w', spawn_typed owner ty w = Some (Some h, w') /\ spawned w owner ty h w'
       else spawn_typed owner ty w = None.
Proof.
  destruct (refuses owner w) eqn:Er; [unfold spawn_typed; by rewrite Er|]. unfold refuses in Er. bool_hyps. pose proof (unit_band_short w owner H).
  case_decide; [apply spawn_typed_total|apply spawn_full_band]; (done || lia).
Qed.

(** (C13) A frame is total: no panic, every view kept in step, one frame and, every
    fifteen, one second more, no unit moved to another row or address, no draw
    from the random stream, and every unit that was on the map still on it. *)
Theorem frame_contract (w : t) (H : world_wf w) : exists w', step w = Some w' /\ framed w w'.
Proof. by apply step_framed. Qed.

(** ** One owner's two-thousand-and-first unit *)

(** [n] spawns that all give a handle. *)
Fixpoint spawn_n (n : nat) (owner : nat) (w : t) : option t :=
  match n with
  | O => Some w
  | S n => match spawn owner w with Some (Some _, w') => spawn_n n owner w' | _ => None end
  end.

Lemma spawn_n_total n owner w :
  world_wf w -> (owner < OWNER_SLOTS)%nat -> (live w + n <= capacity w)%nat -> (Dense.len (objects w) owner Unit + n <= 2000)%nat ->
  exists w', spawn_n n owner w = Some w' /\ world_wf w' /\ capacity w' = capacity w /\ live w' = (live w + n)%nat /\
    Dense.len (objects w') owner Unit = (Dense.len (objects w) owner Unit + n)%nat.
Proof.
  revert w. induction n as [|n IH]; intros w H Ho Hc Hb; [exists w; split_and!; (done || lia)|]. cbn [spawn_n]. unfold spawn.
  destruct (spawn_typed_total owner 0 w) as (h & w1 & -> & S); [done|lia|done|lia|]. pose proof (s_band _ _ _ _ _ S owner) as Sb. rewrite decide_True in Sb by done.
  pose proof (s_live _ _ _ _ _ S). pose proof (s_cap _ _ _ _ _ S). destruct (IH w1) as (w' & E & H' & C' & L' & B'); [apply S|done|lia|lia|].
  exists w'. split_and!; [done|done|congruence|lia|lia].
Qed.

(** A world of the default size takes two thousand units of one owner, and has
    room for as many again, but the next spawn for that owner panics. *)
Theorem spawn_2001_panics (seed : Z) :
  exists w, spawn_n 2000 0 (with_capacity MAX_UNITS seed) = Some w /\ live w = 2000%nat /\ capacity w = MAX_UNITS /\ spawn 0 w = None.
Proof.
  destruct (spawn_n_total 2000 0 (with_capacity MAX_UNITS seed)) as (w & E & H & C & L & B).
  { apply with_capacity_world_wf. }
  { unfold OWNER_SLOTS. lia. }
  { simpl. unfold MAX_UNITS. lia. }
  { cbn [with_capacity objects]. rewrite new_len. lia. }
  exists w. cbn [with_capacity objects capacity live] in *. rewrite new_len in B. split_and!; [done|done|by rewrite C, Nat.min_id|].
  apply spawn_full_band; [done| |unfold OWNER_SLOTS; lia|done]. rewrite L, C, Nat.min_id. unfold MAX_UNITS. lia.
Qed.

(** ** The theorems on a small world *)

Module Skirmish.

Definition spawned_at (owner : nat) (w : t) : t := match spawn owner w with Some (_, w') => w' | None => w end.
Definition framed_at (w : t) : t := match step w with Some w' => w' | None => w end.

Lemma spawned_reach owner w : rtc world_step w (spawned_at owner w).
Proof. unfold spawned_at, spawn. destruct (spawn_typed owner 0 w) as [[r w']|] eqn:E; [|done]. apply rtc_once. by eapply ws_spawn. Qed.
Lemma framed_reach w : rtc world_step w (framed_at w).
Proof. unfold framed_at. destruct (step w) as [w'|] eqn:E; [|done]. apply rtc_once. by apply ws_step. Qed.

Definition start : t := with_capacity 4 7.
(** Two units of player two, one of player three; the first walks. *)
Definition three : t := spawned_at 3 (spawned_at 2 (spawned_at 2 start)).
Definition marching : t := (issue (mkHandle 0 0) (move_to 500 600 2) three).2.

Lemma marching_reach : rtc world_step start (framed_at marching).
Proof.
  transitivity (spawned_at 2 start); [apply spawned_reach|]. transitivity (spawned_at 2 (spawned_at 2 start)); [apply spawned_reach|].
  transitivity three; [apply spawned_reach|]. transitivity marching; [apply rtc_once; apply ws_issue|]. apply framed_reach.
Qed.

Lemma marching_wf : world_wf marching.
Proof. apply issue_wf. apply (reachable_wf 4 7). transitivity (spawned_at 2 start); [apply spawned_reach|]. transitivity (spawned_at 2 (spawned_at 2 start)); apply spawned_reach. Qed.

Lemma world_invariant_witness :
  row_of (mkHandle 2 0) (framed_at marching) = Some 2%nat /\ handle_at_row 2 (framed_at marching) = Some (mkHandle 2 0) /\
  unit_row_at 2 1 (framed_at marching) = Some 1%nat /\ o_of (units (framed_at marching)) 1 = 1.
Proof.
  destruct (world_invariant 4 7 _ marching_reach) as (_ & Hh & _ & Ha).
  assert (E : row_of (mkHandle 2 0) (framed_at marching) = Some 2%nat) by (vm_compute; reflexivity).
  assert (A : unit_row_at 2 1 (framed_at marching) = Some 1%nat) by (vm_compute; reflexivity).
  split; [exact E|]. split; [exact (proj2 (Hh 2%nat _) E)|]. split; [exact A|]. exact (proj2 (Ha 2 1 1%nat A)).
Defined.

Lemma despawn_contract_witness :
  exists w', despawn (mkHandle 0 0) marching = Some (true, w') /\ live w' = 2%nat /\ row_of (mkHandle 0 0) w' = None /\
    exists x, row_of (mkHandle 2 0) w' = Some x /\ same_unit marching 2 w' x.
Proof.
  pose proof (despawn_contract (mkHandle 0 0) marching marching_wf) as D.
  assert (E : row_of (mkHandle 0 0) marching = Some 0%nat) by (vm_compute; reflexivity). rewrite E in D.
  assert (L : live marching = 3%nat) by (vm_compute; reflexivity).
  destruct D as (w' & Ed & _ & Hl & Hn & Ho). exists w'. split; [exact Ed|]. split; [rewrite L in Hl; lia|]. split; [exact Hn|].
  apply (Ho (mkHandle 2 0) 2%nat); [discriminate|vm_compute; reflexivity].
Defined.

Lemma spawn_contract_witness :
  spawn_typed 10 0 marching = Some (None, marching) /\
  exists h w', spawn_typed 4 0 marching = Some (Some h, w') /\ row_of h marching = None /\ row_of h w' = Some 3%nat.
Proof.
  pose proof (spawn_contract 10 0 marching marching_wf) as R. pose proof (spawn_contract 4 0 marching marching_wf) as S.
  assert (E : refuses 10 marching = true) by (vm_compute; reflexivity). assert (E' : refuses 4 marching = false) by (vm_compute; reflexivity).
  assert (L : live marching = 3%nat) by (vm_compute; reflexivity).
  assert (B : Dense.len (objects marching) 4 Unit = 0%nat) by (vm_compute; reflexivity). rewrite E in R. rewrite E', B in S. split; [exact R|].
  rewrite decide_True in S by lia. destruct S as (h & w' & Es & S). exists h, w'. split; [exact Es|]. split; [apply S|]. rewrite <- L. apply S.
Defined.

Lemma frame_contract_witness : exists w', step marching = Some w' /\ frame w' = 1 /\ row_of (mkHandle 2 0) w' = Some 2%nat.
Proof.
  destruct (frame_contract marching marching_wf) as (w' & E & F). exists w'. split; [exact E|]. rewrite (f_frame _ _ F), (f_rows _ _ F). split; vm_compute; reflexivity.
Defined.

End Skirmish.
