(* ===== verification/SimDigest.v ===== *)
(** * The world's digest

    [World::digest], [object_bands_digest] and [digest_field_coverage] of
    [crates/don-sim/src/world.rs]: one hash per live unit over the fields the
    descriptor table of [SimLayout] marks as walked, the head of its order list
    and its handle, summed; with the hash of the sparse registry's snapshot, the
    frame and the number of units.

    The digest does not see in which rows the units are ([digest_row_order]),
    and despawning a unit takes out exactly its own share ([despawn_share]).  It
    does not see where the units are either ([digest_sees_no_position]): the
    table marks neither the coordinates nor the hold counters. *)

From S2P Require Import Prelude SimArith SimKernels SimRandom SimObjects SimSparse SimSparseSpec SimCols SimLayout SimPayload SimOrder SimWorld SimWorldSpec SimWorldTick SimWorldMain.
Import World.
#[local] Open Scope Z_scope.

Definition FNV_BASIS : Z := 0xcbf29ce484222325.
Definition FNV_PRIME : Z := 0x000001000001B3.
Definition mix (h v : Z) : Z := u64 (Z.lxor h v * FNV_PRIME).
Definition hash (words : list Z) : Z := foldl mix FNV_BASIS words.

(** [w4_arr(p, row, n)] and the like. *)
Definition arr (p : Pool) (q row n : nat) (u : UnitCols.t) : option (list Z) :=
  let b := (q * UnitCols.cap u + row * n)%nat in
  if decide (b + n <= length (UnitCols.pool p u))%nat then Some (take n (drop b (UnitCols.pool p u))) else None.

(** The field set: neither an alias nor unwalked. *)
Definition digested : list FieldDesc := List.filter (fun d => unaliased d && is_walked d) FIELDS.

Definition field_words (u : UnitCols.t) (row : nat) (d : FieldDesc) : option (list Z) :=
  match fpool d with
  | None => Some []
  | Some p =>
      vs ← (if fcount d =? 1 then (fun v => [v]) <$> UnitCols.get (p, plane d) row u else arr p (plane d) row (Z.to_nat (fcount d)) u);
      Some (wrap_u (8 * width p) <$> (vs : list Z))
  end.

Fixpoint all_words (u : UnitCols.t) (row : nat) (ds : list FieldDesc) : option (list Z) :=
  match ds with
  | [] => Some []
  | d :: ds => ws ← field_words u row d; rest ← all_words u row ds; Some (ws ++ rest)
  end.

Definition order_words (l : OrderList.t) : list Z :=
  u32 (Z.of_nat (length l)) ::
  match OrderList.current l with
  | Some q => [u32 (Z.of_nat (OrderIndex_index (okind q))); u32 (ox q); u32 (oy q); oflags q]
  | None => []
  end.

(** What a unit contributes. *)
Definition row_words (w : t) (row : nat) : option (list Z) :=
  i ← handle_of_row w !! row;
  cs ← all_words (units w) row digested;
  l ← unit_orders w !! row;
  Some (i :: cs ++ order_words l).

Fixpoint collect {A} (l : list (option A)) : option (list A) :=
  match l with [] => Some [] | x :: l => y ← x; ys ← collect l; Some (y :: ys) end.
Definition sum_hashes (l : list (option (list Z))) : option Z :=
  ws ← collect l; Some (foldl (fun acc h => u64 (acc + h)) 0 (hash <$> ws)).
Definition unit_sum (w : t) : option Z := sum_hashes (row_words w <$> seq 0 (live w)).

(** ** [object_bands_digest] *)

Definition OBJSPARS : Z := 0x4f424a5350415253.

Definition lifecycle_words (c : SnapshotLifecycle WorldObjectIdentity) : list Z :=
  match c with
  | SnapTombstone f => [0; flags f; hold_frames f; if is_unit f then 1 else 0; u16 (o_up f)]
  | SnapLive (IdUnit i g) => [1; i; g]
  | SnapLive (BuildRow r) => [2; r]
  | SnapLive (WallRow r) => [3; r]
  end.
Definition band_words (owner band : nat) (b : SparseBandSnapshot WorldObjectIdentity) : list Z :=
  [Z.of_nat owner; Z.of_nat band; u32 (snap_mark b); Z.of_nat (length (snap_slots b))] ++ concat (lifecycle_words <$> snap_slots b).
Definition snapshot_words (z : SparseRegistrySnapshot WorldObjectIdentity) : list Z :=
  OBJSPARS :: concat (imap (fun owner on => [Z.of_nat owner; if on : bool then 1 else 0]) (snap_active z)) ++
  concat (imap (fun owner bs => concat (imap (band_words owner) bs)) (snap_owners z)).

Definition object_bands_digest (w : t) : option Z :=
  match SparseObjectBands.snapshot (object_bands w) with Ok z => Some (hash (snapshot_words z)) | Err _ => None end.

Definition rotate_left (k x : Z) : Z := Z.lor (u64 (Z.shiftl x k)) (Z.shiftr x (64 - k)).

Definition digest (w : t) : option Z :=
  acc ← unit_sum w;
  b ← object_bands_digest w;
  Some (Z.lxor (u64 (Z.lxor (Z.lxor acc (rotate_left 23 b)) (u32 (frame w)) * FNV_PRIME)) (Z.of_nat (live w))).

(** [digest_field_coverage]: materialised walked fields, walked fields, and
    their bytes. *)
Definition digest_field_coverage : nat * nat * Z * Z :=
  let m := List.filter (fun d => materialised (repr d)) digested in
  (length m, length digested, sizes m, sizes digested).

(** ** What is hashed of a unit *)

(** Every digested field is one column, and none of them holds a coordinate, a
    hold counter or the unit's address. *)
Definition is_digested (f : field) : Prop := f ∈ omap column digested.

Lemma digested_scalar : Forall (fun d => fcount d = 1 /\ Exists (fun f => column d = Some f) all_planes) digested.
Proof. by_evaluation. Qed.

Definition unseen : list field := [f_x_internal; f_y_internal; f_hold_frames; f_o; f_myhits; f_flags; f_who].
Lemma not_digested : Forall (fun f => f ∉ omap column digested) unseen.
Proof. by_evaluation. Qed.

Lemma not_digested_o : ~ is_digested f_o.
Proof. apply (proj1 (Forall_forall _ _) not_digested). by_evaluation. Qed.

Lemma field_words_cell u row d : UnitCols.wf u -> (row < UnitCols.len u)%nat -> d ∈ digested ->
  exists f, column d = Some f /\ is_digested f /\ is_field f /\ field_words u row d = Some [wrap_u (8 * width f.1) (UnitCols.cell f row u)].
Proof.
  intros Hu Hr Hd. destruct (proj1 (Forall_forall _ _) digested_scalar _ Hd) as [Ec (f & Hf & Ef)%Exists_exists]. exists f.
  split; [done|]. split; [apply list_elem_of_omap; by exists d|]. apply all_planes_spec in Hf. split; [done|]. unfold field_words, column in *.
  destruct (fpool d) as [p|]; [|done]. simpl in Ef. simplify_eq. rewrite Ec. simpl. by rewrite UnitCols.get_live.
Qed.

Lemma all_words_ext u row u' row' ds :
  Forall (fun d => field_words u' row' d = field_words u row d) ds -> all_words u' row' ds = all_words u row ds.
Proof. induction 1 as [|d ds E _ IH]; [done|]. cbn [all_words]. by rewrite E, IH. Qed.

Lemma all_words_total u row ds : Forall (fun d => is_Some (field_words u row d)) ds -> is_Some (all_words u row ds).
Proof. induction 1 as [|d ds [ws E] _ [rest IH]]; [by eexists|]. cbn [all_words]. rewrite E, IH. by eexists. Qed.

(** Rows that agree on the handle, the orders and the digested cells contribute
    the same. *)
Lemma row_words_ext w row w' row' :
  world_wf w -> world_wf w' -> (row < live w)%nat -> (row' < live w')%nat -> handle_of_row w' !! row' = handle_of_row w !! row ->
  unit_orders w' !! row' = unit_orders w !! row ->
  (forall f, is_digested f -> is_field f -> UnitCols.cell f row' (units w') = UnitCols.cell f row (units w)) ->
  row_words w' row' = row_words w row.
Proof.
  intros H H' Hr Hr' Eh Eo Ec. unfold row_words. rewrite Eh, Eo.
  rewrite (all_words_ext (units w) row (units w') row' digested); [done|]. apply Forall_forall. intros d Hd.
  destruct (field_words_cell (units w) row d) as (f & Ef & Df & Ff & ->); [apply H|by rewrite (w_len _ H)|done|].
  destruct (field_words_cell (units w') row' d) as (f' & Ef' & _ & _ & ->); [apply H'|by rewrite (w_len _ H')|done|].
  rewrite Ef in Ef'. simplify_eq. by rewrite Ec.
Qed.

Lemma row_words_total w row : world_wf w -> (row < live w)%nat -> is_Some (row_words w row).
Proof.
  intros H Hr. pose proof (live_le _ H). destruct (handle_id w row H) as (i & Ei & _); [lia|].
  destruct (lookup_lt_is_Some_2 (unit_orders w) row) as [l El]; [by rewrite (w_orders _ H)|].
  assert (is_Some (all_words (units w) row digested)) as [cs Ec].
  { apply all_words_total, Forall_forall. intros d Hd. destruct (field_words_cell (units w) row d) as (f & _ & _ & _ & ->); [apply H|by rewrite (w_len _ H)|done|]. by eexists. }
  exists (i :: cs ++ order_words l). unfold row_words. rewrite Ec, El, Ei. reflexivity.
Qed.

(** ** Sums of hashes *)

Lemma sum_hashes_Some ws : sum_hashes (Some <$> ws) = Some (foldl (fun acc h => u64 (acc + h)) 0 (hash <$> ws)).
Proof.
  unfold sum_hashes. assert (collect (Some <$> ws) = Some ws) as ->; [|done].
  induction ws as [|w ws IH]; [done|]. cbn [fmap list_fmap collect]. by rewrite IH.
Qed.

Lemma sum_from acc hs : foldl (fun acc h => u64 (acc + h)) (u64 acc) hs = u64 (acc + fold_right Z.add 0 hs).
Proof.
  revert acc. induction hs as [|h hs IH]; intros acc; cbn [foldl fold_right]; [by rewrite Z.add_0_r|].
  assert (u64 (u64 acc + h) = u64 (acc + h)) as -> by apply Zplus_mod_idemp_l. rewrite IH. f_equal. lia.
Qed.

Definition total_of (ws : list (list Z)) : Z := u64 (fold_right Z.add 0 (hash <$> ws)).

Lemma sum_hashes_total ws : sum_hashes (Some <$> ws) = Some (total_of ws).
Proof. rewrite sum_hashes_Some. f_equal. exact (sum_from 0 (hash <$> ws)). Qed.

Lemma total_of_Permutation ws ws' : ws ≡ₚ ws' -> total_of ws = total_of ws'.
Proof. intros P. unfold total_of. f_equal. assert (Q : hash <$> ws ≡ₚ hash <$> ws') by by rewrite P. induction Q; simpl in *; lia. Qed.

Lemma Some_Permutation {A} (l l' : list A) : Some <$> l ≡ₚ Some <$> l' -> l ≡ₚ l'.
Proof. intros P. apply Permutation_map_inv in P as (l3 & E & P). symmetry. apply (inj (fmap Some)) in E. by subst. Qed.

Lemma total_of_cons x ws : total_of (x :: ws) = u64 (total_of ws + hash x).
Proof. unfold total_of. cbn [fmap list_fmap fold_right]. unfold wrap_u. rewrite Zplus_mod_idemp_l. f_equal. lia. Qed.

(** The units' words, as a list. *)
Lemma unit_words w : world_wf w -> exists ws, row_words w <$> seq 0 (live w) = Some <$> ws /\ unit_sum w = Some (total_of ws).
Proof.
  intros H. assert (exists ws, row_words w <$> seq 0 (live w) = Some <$> ws) as [ws E].
  { assert (F : Forall (fun r => r < live w)%nat (seq 0 (live w))) by (apply Forall_seq; lia). induction F as [|r l Hr _ [ws IH]]; [by exists []|].
    destruct (row_words_total w r H Hr) as [x Ex]. exists (x :: ws). cbn [fmap list_fmap]. by rewrite Ex, <- IH. }
  exists ws. split; [done|]. unfold unit_sum. rewrite E. apply sum_hashes_total.
Qed.

(** ** The registry's part *)

Lemma try_map_total {A B} (f : A -> result SparseRegistryError B) l :
  Forall (fun x => exists y, f x = Ok y) l -> exists ys, SparseObjectBands.try_map f l = Ok ys.
Proof. induction 1 as [|x l [y E] _ [ys IH]]; [by exists []|]. cbn [SparseObjectBands.try_map]. rewrite E. cbn [rbind]. rewrite IH. by eexists. Qed.

Lemma slot_live w who b k sl : world_wf w -> (who < OWNER_SLOTS)%nat ->
  slots (SparseObjectBands.band_of who b (object_bands w)) !! k = Some sl -> exists i, lifecycle sl = Live i.
Proof.
  intros H Hw Es. assert (exists b', b = rb b') as [b' ->] by (destruct b; [exists Unit|exists Build|exists Wall]; done).
  destruct (w_mirror _ H) as [_ M]. specialize (M who b' k Hw). unfold life in M. rewrite Es in M. simpl in M.
  destruct (Dense.at_ _ who b' k) as [v|]; [|done]. simpl in M. destruct (ident_in _ _ b' v) as [j|]; [|done]. simpl in M. injection M as M. by exists j.
Qed.

Lemma snap_band_total w who b : world_wf w -> (who < OWNER_SLOTS)%nat -> exists x, SparseObjectBands.snap_band (SparseObjectBands.band_of who b (object_bands w)) = Ok x.
Proof.
  intros H Hw. unfold SparseObjectBands.snap_band.
  destruct (try_map_total (fun sl => SparseObjectBands.snap_lifecycle (lifecycle sl)) (slots (SparseObjectBands.band_of who b (object_bands w)))) as [ys ->]; [|by eexists].
  apply Forall_lookup. intros k sl Hk. destruct (slot_live _ _ _ _ _ H Hw Hk) as [i ->]. by eexists.
Qed.

Lemma bands_total w : world_wf w -> is_Some (object_bands_digest w).
Proof.
  intros H. unfold object_bands_digest, SparseObjectBands.snapshot.
  destruct (try_map_total (fun o => SparseObjectBands.try_map SparseObjectBands.snap_band (SparseObjectBands.bands o)) (SparseObjectBands.owners (object_bands w))) as [ys ->]; [|by eexists].
  apply Forall_lookup. intros who o Ho. assert (Hw : (who < OWNER_SLOTS)%nat).
  { apply lookup_lt_Some in Ho. rewrite (wf_owners _ (w_sparse _ H)) in Ho. exact Ho. }
  apply try_map_total. unfold SparseObjectBands.bands. apply Forall_fmap, Forall_forall. intros b _. simpl.
  destruct (snap_band_total w who b H Hw) as [x E]. exists x. rewrite <- E. unfold SparseObjectBands.band_of. by rewrite (list_lookup_total_correct _ _ _ Ho).
Qed.

(** ** Theorems *)

Lemma digest_eq w w' a : unit_sum w = Some a -> unit_sum w' = Some a -> object_bands w' = object_bands w -> frame w' = frame w -> live w' = live w ->
  digest w' = digest w.
Proof. intros E E' Eb Ef El. unfold digest, object_bands_digest. by rewrite E, E', Eb, Ef, El. Qed.

(** Rows in any order: two well-formed worlds whose units contribute the same
    words, in whatever rows they are, with the same registry and frame, have the
    same digest; and there is one. *)
Theorem digest_row_order (w w' : t) (H : world_wf w) (H' : world_wf w')
  (P : row_words w <$> seq 0 (live w) ≡ₚ row_words w' <$> seq 0 (live w')) (Hb : object_bands w' = object_bands w) (Hf : frame w' = frame w) :
  is_Some (digest w) /\ digest w' = digest w.
Proof.
  destruct (unit_words w H) as (ws & E & S). destruct (unit_words w' H') as (ws' & E' & S'). destruct (bands_total w H) as [b Eb]. split.
  - unfold digest. rewrite S, Eb. by eexists.
  - apply (digest_eq _ _ (total_of ws)); [done| |done|done|].
    + rewrite S'. f_equal. apply total_of_Permutation. rewrite E, E' in P. symmetry. by apply Some_Permutation.
    + apply Permutation_length in P. rewrite !length_fmap, !length_seq in P. by symmetry.
Qed.

(** The rows after a despawn are the rows before it less the removed one. *)
Lemma despawned_rows row n : (row <= n)%nat -> seq 0 (S n) ≡ₚ row :: (swapped_row row n <$> seq 0 n).
Proof.
  intros Hr. apply NoDup_Permutation; [apply NoDup_seq|..].
  - apply NoDup_cons. split; [|apply NoDup_fmap_2; [intros x y; apply swapped_row_inj|apply NoDup_seq]].
    intros (x & E & Hx)%list_elem_of_fmap. apply elem_of_seq in Hx. symmetry in E. by apply swapped_row_self in E; [|lia..].
  - intros x. rewrite elem_of_seq, elem_of_cons, list_elem_of_fmap. setoid_rewrite elem_of_seq. split.
    + intros Hx. destruct (decide (x = row)) as [->|Hne]; [by left|right]. exists (if decide (x = n) then row else x).
      unfold swapped_row. repeat case_decide; lia.
    + intros [->|(y & -> & Hy)]; [lia|]. unfold swapped_row. repeat case_decide; lia.
Qed.

(** A despawn takes out of the units' sum exactly the removed unit's share: the
    row that moves into the hole, its new index in the owner's band and the
    bumped generation leave no trace in it. *)
Theorem despawn_share (h : Handle) (row : nat) (w w' : t) (H : world_wf w) (Hr : row_of h w = Some row) (E : despawn h w = Some (true, w')) :
  exists a x, unit_sum w' = Some a /\ row_words w row = Some x /\ unit_sum w = Some (u64 (a + hash x)).
Proof.
  destruct (despawn_total h row w H Hr) as (w2 & E2 & D). rewrite E in E2. simplify_eq. rename w2 into w'. pose proof (d_wf _ _ _ _ D) as H'.
  pose proof (d_live _ _ _ _ D) as L. pose proof Hr as (Hlt & _)%row_of_Some; [|done]. destruct (row_words_total w row H Hlt) as [x Ex].
  destruct (unit_words w' H') as (ws & Ew & Es). destruct (unit_words w H) as (ws0 & Ew0 & Es0). exists (total_of ws), x. split_and!; [done|done|].
  rewrite Es0, <- total_of_cons. f_equal. apply total_of_Permutation, Some_Permutation. rewrite <- Ew0, L, (despawned_rows row (live w')) by lia.
  cbn [fmap list_fmap]. rewrite Ex. apply Permutation_skip. fold (Some <$> ws). rewrite <- Ew.
  assert (row_words w <$> (swapped_row row (live w') <$> seq 0 (live w')) = row_words w' <$> seq 0 (live w')) as ->; [|done].
  rewrite <- list_fmap_compose. apply list_fmap_ext. intros k y (-> & Hy)%lookup_seq. simpl. destruct (d_unit _ _ _ _ D _ Hy) as (Hc & Ho & _).
  symmetry. apply row_words_ext; [done|done| |done| |done|].
  - pose proof (swapped_row_lt row (live w') k). lia.
  - by apply (d_handle _ _ _ _ D).
  - intros f Hd Hf. apply Hc; [done|]. intros ->. by apply not_digested_o.
Qed.

(** Worlds that agree on all that is hashed. *)
Lemma digest_ext w w' :
  world_wf w -> world_wf w' -> live w' = live w -> frame w' = frame w -> object_bands w' = object_bands w -> handle_of_row w' = handle_of_row w ->
  unit_orders w' = unit_orders w ->
  (forall f row, is_digested f -> is_field f -> (row < live w)%nat -> UnitCols.cell f row (units w') = UnitCols.cell f row (units w)) ->
  digest w' = digest w.
Proof.
  intros H H' L F B Eh Eo Ec. destruct (unit_words w H) as (ws & E & S). apply (digest_eq _ _ (total_of ws)); try done. rewrite <- S. unfold unit_sum. f_equal.
  rewrite L. apply list_fmap_ext. intros k y (-> & Hy)%lookup_seq. simpl. apply row_words_ext; try done; [by rewrite L|by rewrite Eh|by rewrite Eo|].
  intros f Hd Hf. by apply Ec.
Qed.

Lemma not_digested_in f g : f ∈ unseen -> is_digested g -> g <> f.
Proof. intros Hf Hg ->. by apply (proj1 (Forall_forall _ _) not_digested _ Hf). Qed.

Lemma cell_put f l u g row :
  UnitCols.wf u -> is_field f -> is_field g -> g <> f -> (length l <= UnitCols.cap u)%nat -> (row < UnitCols.cap u)%nat ->
  UnitCols.cell g row (UnitCols.put_slice f l u) = UnitCols.cell g row u.
Proof. intros Hu Hf Hg Hn Hl Hr. rewrite UnitCols.cell_put_slice by done. by rewrite decide_False by (intros [? _]; congruence). Qed.

Lemma set_cols_digest f row v u w :
  world_wf w -> f ∈ unseen -> is_field f -> UnitCols.set f row v (units w) = Some u -> world_wf (set_units u w) -> digest (set_units u w) = digest w.
Proof.
  intros H Hf Ff E H'. apply digest_ext; try done. intros g r Hg Fg Hr. simpl. pose proof (live_le _ H).
  rewrite (UnitCols.cell_set f row v (units w) u g r); [|apply H|done|done|rewrite (w_cap _ H); lia|done].
  rewrite decide_False; [done|]. intros [-> _]. by apply (not_digested_in f f).
Qed.

Lemma hot_cells integrate down w g row :
  (forall p v z, length (integrate p v z) = length p) -> (forall l, length (down l) = length l) -> world_wf w ->
  is_digested g -> is_field g -> (row < live w)%nat -> UnitCols.cell g row (units (hot integrate down w)) = UnitCols.cell g row (units w).
Proof.
  intros Hi Hd H Dg Fg Hr. pose proof (live_le _ H) as Hl. pose proof (w_cap _ H) as Hc. pose proof (w_len _ H) as Hn.
  assert (P : forall f l u, f ∈ unseen -> is_field f -> UnitCols.wf u -> UnitCols.cap u = capacity w -> length l = live w ->
    UnitCols.wf (UnitCols.put_slice f l u) /\ UnitCols.cell g row (UnitCols.put_slice f l u) = UnitCols.cell g row u).
  { intros f l u Uf Ff Wu Cu Lu. split; [apply UnitCols.put_slice_wf; (done || lia)|]. apply cell_put; try done; [|lia..]. by apply not_digested_in. }
  unfold hot. cbv zeta. cbn [set_clock set_units units].
  set (u1 := UnitCols.put_slice f_x_internal _ (units w)).
  destruct (P f_x_internal (integrate (UnitCols.slice f_x_internal (units w)) (take (live w) (move_step_x w)) MAP_SPAN) (units w)) as [W1 C1];
    [by_evaluation|field_tac|apply H|done|rewrite Hi, UnitCols.length_slice by (apply H || field_tac); done|]. fold u1 in W1, C1.
  assert (K1 : UnitCols.cap u1 = capacity w) by (unfold u1; by rewrite UnitCols.cap_put_slice). assert (N1 : UnitCols.len u1 = live w) by (unfold u1; by rewrite UnitCols.len_put_slice).
  clearbody u1. set (u2 := UnitCols.put_slice f_y_internal _ u1).
  destruct (P f_y_internal (integrate (UnitCols.slice f_y_internal u1) (take (live w) (move_step_y w)) MAP_SPAN) u1) as [W2 C2];
    [by_evaluation|field_tac|done|done|rewrite Hi, UnitCols.length_slice by (done || field_tac); done|]. fold u2 in W2, C2.
  assert (K2 : UnitCols.cap u2 = capacity w) by (unfold u2; by rewrite UnitCols.cap_put_slice). assert (N2 : UnitCols.len u2 = live w) by (unfold u2; by rewrite UnitCols.len_put_slice).
  clearbody u2. destruct (P f_hold_frames (down (UnitCols.slice f_hold_frames u2)) u2) as [W3 C3];
    [by_evaluation|field_tac|done|done|rewrite Hd, UnitCols.length_slice by (done || field_tac); done|]. by rewrite C3, C2, C1.
Qed.

(** The digest does not depend on where the units are: moving one, taking hits
    from one, or running the whole element-wise frame (which moves every unit
    and counts every hold down) changes nothing but the frame number in it. *)
Theorem digest_sees_no_position (w : t) (H : world_wf w) :
  (forall row x y w', set_pos row x y w = Some w' -> digest w' = digest w) /\
  (forall row v w', set_z f_myhits row v w = Some w' -> digest w' = digest w) /\
  digest (step_hot w) = digest (advance_frames 1 w).
Proof.
  split_and!.
  - intros row x y w' E. pose proof (set_pos_wf _ _ _ _ _ H E) as H'. unfold set_pos in E.
    destruct (UnitCols.set f_x_internal row x (units w)) as [u1|] eqn:E1; [|done]. cbn [mbind option_bind] in E.
    destruct (UnitCols.set f_y_internal row y u1) as [u2|] eqn:E2; [|done]. cbn [mbind option_bind] in E. simplify_eq. apply digest_ext; try done.
    intros g r Hg Fg Hr. simpl. pose proof (live_le _ H). pose proof (w_cap _ H). destruct (UnitCols.set_dims _ _ _ _ _ E1) as [C1 _].
    rewrite (UnitCols.cell_set f_y_internal row y u1 u2 g r); [|exact (UnitCols.set_wf _ _ _ _ _ (w_cols _ H) E1)|field_tac|done|lia|done].
    rewrite decide_False by (intros [-> _]; by apply (not_digested_in f_y_internal f_y_internal); [by_evaluation|done|done]).
    rewrite (UnitCols.cell_set f_x_internal row x (units w) u1 g r); [|apply H|field_tac|done|lia|done].
    by rewrite decide_False by (intros [-> _]; by apply (not_digested_in f_x_internal f_x_internal); [by_evaluation|done|done]).
  - intros row v w' E. unfold set_z in E. destruct (UnitCols.set f_myhits row v (units w)) as [u|] eqn:Eu; [|done]. cbn [mbind option_bind] in E. simplify_eq.
    apply (set_cols_digest f_myhits row v); [done|by_evaluation|field_tac|done|].
    assert (Hr : (row < live w)%nat) by (unfold UnitCols.set in Eu; case_decide; [|done]; by rewrite <- (w_len _ H)).
    destruct (set_z_runs f_myhits row v w H) as (w' & E & Q); [field_tac|done|done|by intros [|]|done|]. unfold set_z in E. rewrite Eu in E. injection E as <-. by eapply quiet_wf.
  - apply digest_ext; try done.
    + by apply set_clock_wf.
    + apply hot_wf; [apply integrate_length|intros; apply length_map|done].
    + intros f row Df Ff Hr. apply (hot_cells _ _ w); [apply integrate_length|intros; apply length_map|done..].
Qed.

(** ** The theorems on a small world *)

Module Hashed.
Import Skirmish.

(** The marching unit of [Skirmish], elsewhere. *)
Definition elsewhere : t := match set_pos 0 5 6 marching with Some w => w | None => marching end.

Lemma elsewhere_set : set_pos 0 5 6 marching = Some elsewhere.
Proof. unfold elsewhere. destruct (set_pos 0 5 6 marching) eqn:E; [done|]. vm_compute in E. discriminate. Qed.

Lemma digest_row_order_witness : is_Some (digest marching) /\ digest elsewhere = digest marching.
Proof.
  apply (digest_row_order marching elsewhere marching_wf (set_pos_wf _ _ _ _ _ marching_wf elsewhere_set)).
  - assert (E : row_words marching <$> seq 0 (live marching) = row_words elsewhere <$> seq 0 (live elsewhere)) by (vm_compute; reflexivity).
    rewrite E. reflexivity.
  - vm_compute; reflexivity.
  - vm_compute; reflexivity.
Defined.

Lemma despawn_share_witness :
  exists w' a x, despawn (mkHandle 0 0) marching = Some (true, w') /\ unit_sum w' = Some a /\ row_words marching 0 = Some x /\
    unit_sum marching = Some (u64 (a + hash x)).
Proof.
  assert (E : row_of (mkHandle 0 0) marching = Some 0%nat) by (vm_compute; reflexivity).
  destruct (despawn_total _ _ _ marching_wf E) as (w' & Ed & _). destruct (despawn_share _ _ _ _ marching_wf E Ed) as (a & x & Ea & Ex & Es).
  exists w', a, x. split; [exact Ed|]. split; [exact Ea|]. split; [exact Ex|exact Es].
Defined.

Lemma digest_sees_no_position_witness : digest elsewhere = digest marching /\ digest (step_hot marching) = digest (advance_frames 1 marching).
Proof.
  destruct (digest_sees_no_position marching marching_wf) as (P & _ & S). split; [exact (P _ _ _ _ elsewhere_set)|exact S].
Defined.

End Hashed.
