(* ===== verification/SimPlay.v ===== *)
(** * Worlds that play alike

    Two well-formed worlds that agree on everything but storage tokens, stale
    row entries and coverage counters ([same_game]) answer every operation
    alike and stay so: spawning, despawning, orders, host writes and frames. *)

From S2P Require Import Prelude SimArith SimTrig SimKernels SimDamage SimRandom SimObjects SimSparse SimSparseSpec SimCols SimPayload SimOrder SimWorld SimWorldSpec SimWorldTick SimWorldMain.
Import World.
#[local] Open Scope Z_scope.

(** ** Registries that differ in tokens *)

Abbreviation Bands := (SparseObjectBands.t WorldObjectIdentity).

Record same_bands (s s' : Bands) : Prop := {
  sb_active : SparseObjectBands.active s' = SparseObjectBands.active s;
  sb_reverse : SparseObjectBands.reverse s' = SparseObjectBands.reverse s;
  sb_owners : length (SparseObjectBands.owners s') = length (SparseObjectBands.owners s);
  sb_mark w b : SimSparse.mark (SparseObjectBands.band_of w b s') = SimSparse.mark (SparseObjectBands.band_of w b s);
  sb_slots w b : lifecycle <$> SimSparse.slots (SparseObjectBands.band_of w b s') = lifecycle <$> SimSparse.slots (SparseObjectBands.band_of w b s) }.

#[export] Instance same_bands_equiv : Equivalence same_bands.
Proof.
  split.
  - by intros s.
  - intros s s' []. by split.
  - intros s1 s2 s3 [A1 A2 A3 A4 A5] [B1 B2 B3 B4 B5]. split; intros; (etrans; [eauto|eauto]).
Qed.

Lemma sb_length s s' w b : same_bands s s' -> length (SimSparse.slots (SparseObjectBands.band_of w b s')) = length (SimSparse.slots (SparseObjectBands.band_of w b s)).
Proof. intros B. rewrite <- (length_fmap lifecycle (SimSparse.slots (SparseObjectBands.band_of w b s'))), (sb_slots _ _ B). apply length_fmap. Qed.

Lemma sb_life s s' w b k : same_bands s s' -> lifecycle <$> SimSparse.slots (SparseObjectBands.band_of w b s') !! k = lifecycle <$> SimSparse.slots (SparseObjectBands.band_of w b s) !! k.
Proof. intros B. rewrite <- !list_lookup_fmap. by rewrite (sb_slots _ _ B). Qed.

Lemma live_identity_same a s s' : same_bands s s' -> SparseObjectBands.live_identity a s' = SparseObjectBands.live_identity a s.
Proof.
  intros B. unfold SparseObjectBands.live_identity, SparseObjectBands.slot. destruct (SparseObjectBands.slot_index a) as [k|]; [|done].
  pose proof (sb_life s s' (a_owner a) (a_band a) k B) as E. destruct (_ !! k) as [x|], (SimSparse.slots (SparseObjectBands.band_of (a_owner a) (a_band a) s) !! k) as [y|]; try done. simpl in *.
  injection E as E. by rewrite E.
Qed.

(** Replacing a band by two that agree. *)
Lemma same_put s s' w b x x' act act' rev rev' n m n' m' :
  same_bands s s' -> (w < length (SparseObjectBands.owners s))%nat -> SimSparse.mark x' = SimSparse.mark x -> lifecycle <$> SimSparse.slots x' = lifecycle <$> SimSparse.slots x ->
  act' = act -> rev' = rev ->
  same_bands (SparseObjectBands.mk (SparseObjectBands.owners (SparseObjectBands.put_band w b x s)) act rev n m)
             (SparseObjectBands.mk (SparseObjectBands.owners (SparseObjectBands.put_band w b x' s')) act' rev' n' m').
Proof.
  intros B Hw Hm Hs -> ->. pose proof (sb_owners _ _ B) as Ho. split; [done|done| | |].
  - simpl. rewrite !length_insert. done.
  - intros w' b'. rewrite !band_of_mk by lia. case_decide; [done|apply B].
  - intros w' b'. rewrite !band_of_mk by lia. case_decide; [done|apply B].
Qed.

(** Both succeed, with related values and registries, or both fail. *)
Definition same_result {A B} (P : A -> B -> Prop) (r : result SparseRegistryError (A * Bands)) (r' : result SparseRegistryError (B * Bands)) : Prop :=
  match r, r' with Ok (a, s), Ok (a', s') => P a a' /\ same_bands s s' | Err _, Err _ => True | _, _ => False end.

Lemma append_same w b i s s' : SimSparseSpec.wf s -> same_bands s s' ->
  same_result (fun r r' => inserted_address r' = inserted_address r) (SparseObjectBands.mirror_dense_append w b i s) (SparseObjectBands.mirror_dense_append w b i s').
Proof.
  intros Hwf B. unfold SparseObjectBands.mirror_dense_append. case_decide as Hw; [done|]. rewrite (sb_reverse _ _ B). case_decide; [done|].
  rewrite (sb_mark _ _ B), (sb_length _ _ _ _ B). case_match; [done|].
  destruct (SparseObjectBands.allocate_storage w b s) as [st s1] eqn:E1, (SparseObjectBands.allocate_storage w b s') as [st' s1'] eqn:E2.
  apply allocate_storage_shape in E1 as [n ->], E2 as [n' ->]. split; [done|].
  refine (same_put s s' w b (mkBand (SimSparse.mark (SparseObjectBands.band_of w b s) + 1) (SimSparse.slots (SparseObjectBands.band_of w b s) ++ [mkSlot st (Live i)]))
    (mkBand (SimSparse.mark (SparseObjectBands.band_of w b s') + 1) (SimSparse.slots (SparseObjectBands.band_of w b s') ++ [mkSlot st' (Live i)]))
    (<[w := true]> (SparseObjectBands.active s)) (<[w := true]> (SparseObjectBands.active s')) _ _ _ _ _ _ B _ _ _ _ _).
  - rewrite (wf_owners _ Hwf). lia.
  - simpl. by rewrite (sb_mark _ _ B).
  - simpl. rewrite !fmap_app. by rewrite (sb_slots _ _ B).
  - by rewrite (sb_active _ _ B).
  - simpl. by rewrite (sb_reverse _ _ B).
Qed.

Lemma moved_tail_same k a x x' : lifecycle <$> SimSparse.slots x' = lifecycle <$> SimSparse.slots x -> SparseObjectBands.moved_tail k a x' = SparseObjectBands.moved_tail (I := WorldObjectIdentity) k a x.
Proof.
  intros E. unfold SparseObjectBands.moved_tail. assert (El : length (SimSparse.slots x') = length (SimSparse.slots x)) by (rewrite <- (length_fmap lifecycle (SimSparse.slots x')), E; apply length_fmap).
  rewrite El. case_decide; [done|]. rewrite <- !list_lookup_fmap. by rewrite E.
Qed.

Lemma swapped_same k mv (x x' : SparseBand WorldObjectIdentity) : lifecycle <$> SimSparse.slots x' = lifecycle <$> SimSparse.slots x ->
  lifecycle <$> SimSparse.slots (swapped k mv x') = lifecycle <$> SimSparse.slots (swapped k mv x).
Proof.
  intros E. assert (El : length (SimSparse.slots x') = length (SimSparse.slots x)) by (rewrite <- (length_fmap lifecycle (SimSparse.slots x')), E; apply length_fmap).
  unfold swapped; simpl. rewrite El, !fmap_take. f_equal. destruct mv as [[m ma]|]; [|done]. apply list_eq. intros j. rewrite !list_lookup_fmap. apply (f_equal (lookup j)) in E.
  rewrite !list_lookup_fmap in E. destruct (decide (j = k)) as [->|Hj]; [|by rewrite !list_lookup_alter_ne]. rewrite !list_lookup_alter_eq.
  by destruct (SimSparse.slots x' !! k), (SimSparse.slots x !! k).
Qed.

Lemma swap_remove_transfers a i s s' r s1 : same_bands s s' -> SparseObjectBands.mirror_dense_swap_remove a i s = Ok (r, s1) ->
  exists r' s1', SparseObjectBands.mirror_dense_swap_remove a i s' = Ok (r', s1').
Proof.
  intros B E. unfold SparseObjectBands.mirror_dense_swap_remove in *. rinv E. rewrite Hr. cbn [rbind]. rewrite (sb_reverse _ _ B). case_match; [done|].
  rewrite (sb_mark _ _ B), (sb_length _ _ _ _ B), (sb_life _ _ _ _ _ B). case_match; [done|]. rewrite (moved_tail_same _ _ _ _ (sb_slots _ _ B _ _)). rinv E. rewrite Hr0. cbn [rbind]. by do 2 eexists.
Qed.

Lemma swap_remove_same a i s s' : SimSparseSpec.wf s -> same_bands s s' ->
  same_result (fun r r' => moved r' = moved r) (SparseObjectBands.mirror_dense_swap_remove a i s) (SparseObjectBands.mirror_dense_swap_remove a i s').
Proof.
  intros Hwf B. destruct (SparseObjectBands.mirror_dense_swap_remove a i s) as [[r s1]|e] eqn:E.
  - destruct (swap_remove_transfers _ _ _ _ _ _ B E) as (r' & s1' & E'). rewrite E'. apply swap_remove_shape in E as (k & mv & Hk & _ & _ & _ & Hmv & -> & ->).
    apply swap_remove_shape in E' as (k' & mv' & Hk' & _ & _ & _ & Hmv' & -> & ->). rewrite Hk in Hk'. injection Hk' as <-. rewrite (moved_tail_same _ _ _ _ (sb_slots _ _ B _ _)) in Hmv'.
    rewrite Hmv in Hmv'. injection Hmv' as <-. split; [done|]. apply same_put; [done| | |by apply swapped_same, B|apply B|by rewrite (sb_reverse _ _ B)].
    + rewrite (wf_owners _ Hwf). apply slot_index_Ok in Hk as (? & _). done.
    + simpl. by rewrite (sb_mark _ _ B).
  - destruct (SparseObjectBands.mirror_dense_swap_remove a i s') as [[r' s1']|e'] eqn:E'; [|done]. symmetry in B. destruct (swap_remove_transfers _ _ _ _ _ _ B E') as (r & s1 & E2). congruence.
Qed.

(** ** The walk *)

Definition same_entry (e e' : TraversalEntry WorldObjectIdentity) : Prop := entry_address e' = entry_address e /\ entry_lifecycle e' = entry_lifecycle e.

Definition same_walk (o o' : option (list (TraversalEntry WorldObjectIdentity))) : Prop := option_Forall2 (Forall2 same_entry) o o'.

Lemma append_marked_same w b s s' : same_bands s s' -> same_walk (SparseObjectBands.append_marked w b s) (SparseObjectBands.append_marked w b s').
Proof.
  intros B. unfold SparseObjectBands.append_marked. rewrite (sb_mark _ _ B), (sb_length _ _ _ _ B). case_decide; constructor. apply Forall2_same_length_lookup. split.
  - rewrite !length_imap, !length_take. by rewrite (sb_length _ _ _ _ B).
  - intros k e e' E E'. rewrite !list_lookup_imap in E, E'. destruct (take _ (SimSparse.slots (SparseObjectBands.band_of w b s)) !! k) as [x|] eqn:X; [|done].
    destruct (take _ (SimSparse.slots (SparseObjectBands.band_of w b s')) !! k) as [x'|] eqn:X'; [|done]. simpl in E, E'. injection E as <-. injection E' as <-. split; [done|]. simpl.
    apply lookup_take_Some in X as [X _], X' as [X' _]. pose proof (sb_life _ _ w b k B) as L. rewrite X, X' in L. simpl in L. by injection L.
Qed.

Lemma mapM_same {A} (f f' : A -> option (list (TraversalEntry WorldObjectIdentity))) l :
  (forall x, same_walk (f x) (f' x)) -> same_walk ((@concat _) <$> mapM f l) ((@concat _) <$> mapM f' l).
Proof.
  intros Hf. induction l as [|x l IH]; [repeat constructor|]. cbn [mapM]. specialize (Hf x). destruct Hf as [es es' He|]; [|constructor]. cbn [mbind option_bind].
  destruct (mapM f l) as [ls|], (mapM f' l) as [ls'|]; try (inversion IH; fail); [|constructor]. cbn [mbind option_bind]. inversion IH as [? ? Hl|]; subst. simpl. constructor. by apply Forall2_app.
Qed.

Lemma walk_owner_same bs w s s' : same_bands s s' -> same_walk (SparseObjectBands.walk_owner bs w s) (SparseObjectBands.walk_owner bs w s').
Proof.
  intros B. unfold SparseObjectBands.walk_owner. rewrite (sb_active _ _ B). destruct (default _ _); [|repeat constructor]. apply mapM_same. intros b. by apply append_marked_same.
Qed.

Lemma traversal_same fr s s' : same_bands s s' -> same_walk (SparseObjectBands.traversal fr s) (SparseObjectBands.traversal fr s').
Proof.
  intros B. unfold SparseObjectBands.traversal.
  pose proof (mapM_same (fun w => SparseObjectBands.walk_owner [RetailBand.Unit] w s) (fun w => SparseObjectBands.walk_owner [RetailBand.Unit] w s') (SparseObjectBands.rotation fr) (fun w => walk_owner_same _ w _ _ B)) as U.
  pose proof (mapM_same (fun w => SparseObjectBands.walk_owner [RetailBand.Build; RetailBand.Wall] w s) (fun w => SparseObjectBands.walk_owner [RetailBand.Build; RetailBand.Wall] w s') (seq 0 BANDED_OWNER_SLOTS)
    (fun w => walk_owner_same _ w _ _ B)) as V.
  destruct (mapM _ (SparseObjectBands.rotation fr)) as [us|], (mapM _ (SparseObjectBands.rotation fr)) as [us'|]; try (inversion U; fail); [|constructor]. cbn [mbind option_bind].
  destruct (mapM _ (seq 0 BANDED_OWNER_SLOTS)) as [bs|], (mapM _ (seq 0 BANDED_OWNER_SLOTS)) as [bs'|]; try (inversion V; fail); [|constructor]. cbn [mbind option_bind].
  inversion U as [? ? U1|]; inversion V as [? ? V1|]; subst. constructor. by apply Forall2_app.
Qed.

(** ** Worlds that differ in tokens, stale rows and counters *)

Record same_game (w w' : t) : Prop := {
  sg_units : units w' = units w;
  sg_orders : unit_orders w' = unit_orders w;
  sg_types : unit_type_id w' = unit_type_id w;
  sg_step_x : move_step_x w' = move_step_x w;
  sg_step_y : move_step_y w' = move_step_y w;
  sg_objects : objects w' = objects w;
  sg_bands : same_bands (object_bands w) (object_bands w');
  sg_handles : handle_of_row w' = handle_of_row w;
  sg_gens : generations w' = generations w;
  sg_live : live w' = live w;
  sg_capacity : capacity w' = capacity w;
  sg_frame : frame w' = frame w;
  sg_seconds : seconds w' = seconds w;
  sg_random : random w' = random w;
  sg_rules : rules w' = rules w }.

#[export] Instance same_game_equiv : Equivalence same_game.
Proof.
  split.
  - intros w. by split.
  - intros w w' []. split; by symmetry.
  - intros w1 w2 w3 A B. split; try (etrans; [apply B|apply A]). etrans; [apply A|apply B].
Qed.

(** Handles resolve alike. *)
Lemma same_rows w w' h : world_wf w -> world_wf w' -> same_game w w' -> row_of h w' = row_of h w.
Proof.
  intros H H' S. apply option_eq. intros row. rewrite !row_of_Some by done. by rewrite (sg_live _ _ S), (sg_handles _ _ S), (sg_gens _ _ S).
Qed.

(** Inside a frame: the row table never changes. *)
Record twin (w w' : t) : Prop := {
  tw_same : same_game w w';
  tw_rows h : row_of h w' = row_of h w;
  tw_cov : coverage_ok (coverage w);
  tw_cov' : coverage_ok (coverage w') }.

Lemma twin_wf w w' : world_wf w -> world_wf w' -> same_game w w' -> twin w w'.
Proof. intros H H' S. split; [done|intros; by apply same_rows|apply H|apply H']. Qed.

Definition sim (m m' : option t) : Prop := option_Forall2 twin m m'.

Lemma sim_bind m m' k k' : sim m m' -> (forall v v', twin v v' -> sim (k v) (k' v')) -> sim (m ≫= k) (m' ≫= k').
Proof. intros [v v' Hv|] Hk; [by apply Hk|constructor]. Qed.
Lemma sim_bind_eq m m' k k' : sim m m' -> (forall v v', m = Some v -> twin v v' -> sim (k v) (k' v')) -> sim (m ≫= k) (m' ≫= k').
Proof. intros [v v' Hv|] Hk; [by apply Hk|constructor]. Qed.
Lemma sim_read {A} (o o' : option A) k k' : o' = o -> (forall a, sim (k a) (k' a)) -> sim (o ≫= k) (o' ≫= k').
Proof. intros -> Hk. destruct o; [by apply Hk|constructor]. Qed.
Lemma sim_ret w w' : twin w w' -> sim (Some w) (Some w').
Proof. intros. by constructor. Qed.

Lemma twin_units u w w' : twin w w' -> twin (set_units u w) (set_units u w').
Proof. intros [[] Hr ? ?]. split; [by split|exact Hr|done|done]. Qed.
Lemma twin_orders l w w' : twin w w' -> twin (set_unit_orders l w) (set_unit_orders l w').
Proof. intros [[] Hr ? ?]. split; [by split|exact Hr|done|done]. Qed.
Lemma twin_steps x y w w' : twin w w' -> twin (set_steps x y w) (set_steps x y w').
Proof. intros [[] Hr ? ?]. split; [by split|exact Hr|done|done]. Qed.
Lemma twin_clock f s w w' : twin w w' -> twin (set_clock f s w) (set_clock f s w').
Proof. intros [[] Hr ? ?]. split; [by split|exact Hr|done|done]. Qed.
Lemma twin_coverage c c' w w' : twin w w' -> coverage_ok c -> coverage_ok c' -> twin (set_coverage c w) (set_coverage c' w').
Proof. intros [[] Hr ? ?] ? ?. split; [by split|exact Hr|done|done]. Qed.
Lemma twin_count up uw gm hd bp wp wd da ds w w' : twin w w' -> twin (count_in (count up uw gm hd bp wp wd da ds) w) (count_in (count up uw gm hd bp wp wd da ds) w').
Proof. intros T. apply twin_coverage; [done|apply T|apply T]. Qed.

Lemma set_z_sim f row v w w' : twin w w' -> sim (set_z f row v w) (set_z f row v w').
Proof. intros T. unfold set_z. rewrite (sg_units _ _ (tw_same _ _ T)). apply sim_read; [done|]. intros u. by apply sim_ret, twin_units. Qed.
Lemma set_move_sim row x y w w' : twin w w' -> sim (set_move row x y w) (set_move row x y w').
Proof.
  intros T. unfold set_move, set_move_step. rewrite (sg_step_x _ _ (tw_same _ _ T)), (sg_step_y _ _ (tw_same _ _ T)). case_decide; [by apply sim_ret, twin_steps|constructor].
Qed.
Lemma kill_current_sim row w w' : twin w w' -> sim (kill_current row w) (kill_current row w').
Proof. intros T. unfold kill_current. rewrite (sg_orders _ _ (tw_same _ _ T)). apply sim_read; [done|]. intros l. by apply sim_ret, twin_orders. Qed.
Lemma get_z_same f row w w' : twin w w' -> get_z f row w' = get_z f row w.
Proof. intros T. unfold get_z. by rewrite (sg_units _ _ (tw_same _ _ T)). Qed.
Lemma type_stats_same ty w w' : twin w w' -> type_stats ty w' = type_stats ty w.
Proof. intros T. unfold type_stats. by rewrite (sg_rules _ _ (tw_same _ _ T)). Qed.
Lemma unit_row_at_same who o w w' : twin w w' -> unit_row_at who o w' = unit_row_at who o w.
Proof.
  intros T. unfold unit_row_at. case_match; [done|]. rewrite (live_identity_same _ _ _ (sg_bands _ _ (tw_same _ _ T))). case_match; [|done]. case_match; [apply T|done..].
Qed.

Create HintDb twins.
#[export] Hint Resolve set_z_sim set_move_sim kill_current_sim twin_count sim_ret : twins.
(** Step through two runs of the same code. *)
Ltac twinned T := rewrite ?(sg_units _ _ (tw_same _ _ T)), ?(sg_orders _ _ (tw_same _ _ T)), ?(sg_types _ _ (tw_same _ _ T)), ?(sg_step_x _ _ (tw_same _ _ T)), ?(sg_step_y _ _ (tw_same _ _ T)),
  ?(sg_rules _ _ (tw_same _ _ T)), ?(sg_frame _ _ (tw_same _ _ T)), ?(sg_live _ _ (tw_same _ _ T)), ?(get_z_same _ _ _ _ T).
Ltac both :=
  lazymatch goal with
  | |- sim (@mbind option _ t t _ ?m) (@mbind option _ t t _ _) => apply sim_bind; [solve [eauto with twins]|]; let v := fresh "v" in let v' := fresh "v'" in let T := fresh "T" in intros v v' T
  | |- sim (@mbind option _ _ _ _ ?m) (@mbind option _ _ _ _ _) => apply sim_read; [reflexivity|]; intros ?
  | |- _ => solve [eauto with twins]
  end.

Lemma do_move_sim row w w' : twin w w' -> sim (do_move row w) (do_move row w').
Proof.
  intros T. unfold do_move. twinned T. both. destruct (OrderList.current _) as [ord|]; [|both]. both. both. apply sim_read; [done|]. intros tol. destruct (_ <=? _).
  - both. both. both.
  - both. both. twinned T1. both. both.
Qed.

Lemma strike_sim row trow atk def pct dx dy w w' : twin w w' -> sim (strike row trow atk def pct dx dy w) (strike row trow atk def pct dx dy w').
Proof.
  intros T. unfold strike. twinned T. both. both. both. both. both. both. cbv zeta. assert (T2 : twin (count_in count_damage v0) (count_in count_damage v'0)) by by apply twin_count.
  destruct (_ <=? 0); [|both]. twinned T2. both. both.
Qed.

Lemma engage_sim row trow b w w' : twin w w' -> sim (engage row trow b w) (engage row trow b w').
Proof.
  intros T. unfold engage. twinned T. both. both. rewrite !(type_stats_same _ _ _ T). destruct (type_stats _ w); [|both]. destruct (type_stats _ w); [|both]. both. both. both. both. destruct (_ <? _).
  - both. twinned T0. both. both.
  - both. destruct (BalanceTable_get _ _ b); [by apply strike_sim|both].
Qed.

Lemma do_attack_sim row w w' : twin w w' -> sim (do_attack row w) (do_attack row w').
Proof.
  intros T. unfold do_attack. twinned T. both. destruct (OrderList.current _); [|both]. destruct (_ || _)%bool; [both|]. both. destruct (0 <? _); [both|].
  destruct (balance (rules w)); [|both]. rewrite (unit_row_at_same _ _ _ _ T). destruct (unit_row_at _ _ w); [|both]. case_decide; [both|by apply engage_sim].
Qed.

Lemma unit_work_sim row w w' : twin w w' -> sim (unit_work row w) (unit_work row w').
Proof.
  intros T0. unfold unit_work. cbv zeta. assert (T : twin (count_in count_unit_work w) (count_in count_unit_work w')) by by apply twin_count.
  generalize dependent (count_in count_unit_work w'). generalize (count_in count_unit_work w). clear w w' T0. intros w w' T. twinned T. both.
  destruct (tw_cov _ _ T) as [S1 C1], (tw_cov' _ _ T) as [S2 C2].
  destruct (record_order_wf (OrderList.order_type a) _ C1) as (st & c & E1 & W1 & _), (record_order_wf (OrderList.order_type a) _ C2) as (st' & c' & E2 & W2 & _).
  assert (st' = st) as ->. { unfold record_order in E1, E2. destruct (dispatches (orders (coverage w)) !! _); [|done]. destruct (dispatches (orders (coverage w')) !! _); [|done].
    cbn [mbind option_bind] in E1, E2. destruct (EXECUTORS !! _) as [x|]; [|done]. cbn [mbind option_bind] in E1, E2. congruence. }
  rewrite E1, E2. cbn [mbind option_bind]. assert (T2 : twin (set_coverage (set_order_coverage c (coverage w)) w) (set_coverage (set_order_coverage c' (coverage w')) w')) by (apply twin_coverage; [done|by split|by split]).
  case_decide; [both|]. destruct (OrderList.order_type a); try both; [by apply do_move_sim|by apply do_move_sim|by apply do_attack_sim].
Qed.

Lemma guy_process_sim row w w' : twin w w' -> sim (guy_process row w) (guy_process row w').
Proof.
  intros T0. unfold guy_process. cbv zeta. assert (T : twin (count_in count_guy_move w) (count_in count_guy_move w')) by by apply twin_count.
  twinned T. both. both. both. both. both. both.
Qed.

Lemma unit_process_sim row w w' : twin w w' -> sim (unit_process row w) (unit_process row w').
Proof.
  intros T. unfold unit_process. cbv zeta. apply sim_bind; [apply unit_work_sim; by apply twin_count|]. intros v v' Tv. by apply guy_process_sim.
Qed.

Lemma process_entry_sim e e' i w w' : same_entry e e' -> entry_lifecycle e = Live i -> twin w w' -> sim (process_entry e w) (process_entry e' w').
Proof.
  intros [Ea El] E T. unfold process_entry. rewrite Ea, El, E. destruct (a_band (entry_address e)), i; try both.
  rewrite (tw_rows _ _ T). destruct (row_of _ w) as [row|]; [|both]. twinned T. both. case_match; [by apply unit_process_sim|]. both. case_match; [|both]. both. both.
Qed.

Lemma process_entries_sim es es' : Forall2 same_entry es es' -> all_live es -> forall w w', twin w w' -> sim (process_entries es w) (process_entries es' w').
Proof.
  induction 1 as [|e e' es es' He _ IH]; intros Hl w w' T; [both|]. apply Forall_cons in Hl as [[i Hi] Hl]. cbn [process_entries].
  apply sim_bind; [by eapply process_entry_sim|]. intros v v' Tv. by apply IH.
Qed.

Lemma objects_process_all_sim w w' : (forall es, SparseObjectBands.traversal (frame w) (object_bands w) = Some es -> all_live es) -> twin w w' -> sim (objects_process_all w) (objects_process_all w').
Proof.
  intros Hl T. unfold objects_process_all. cbv zeta. rewrite (sg_frame _ _ (tw_same _ _ T)). pose proof (traversal_same (frame w) _ _ (sg_bands _ _ (tw_same _ _ T))) as Hw.
  destruct Hw as [es es' Hes|]; [|constructor]. cbn [mbind option_bind]. apply sim_bind; [apply process_entries_sim; [done|by apply Hl|done]|]. intros v v' Tv. case_match; both.
Qed.

Lemma enter_all_ok ss c : Forall (fun s => s < DO_FRAME_STEPS)%nat ss -> coverage_ok c -> exists c', enter_all ss c = Some c' /\ coverage_ok c'.
Proof.
  intros Hs. revert c. induction Hs as [|s ss Hs _ IH]; intros c Hc; [by exists c|]. cbn [enter_all]. destruct (enter_ok s c Hs Hc) as (c' & -> & Hc'). by apply IH.
Qed.

Lemma enter_steps_sim ss w w' : Forall (fun s => s < DO_FRAME_STEPS)%nat ss -> twin w w' -> sim (enter_steps ss w) (enter_steps ss w').
Proof.
  intros Hs T. unfold enter_steps. destruct (enter_all_ok ss _ Hs (tw_cov _ _ T)) as (c & -> & Hc), (enter_all_ok ss _ Hs (tw_cov' _ _ T)) as (c' & -> & Hc'). cbn [mbind option_bind].
  by apply sim_ret, twin_coverage.
Qed.

Lemma enter_bands ss w v : enter_steps ss w = Some v -> object_bands v = object_bands w /\ frame v = frame w.
Proof. unfold enter_steps. destruct (enter_all ss (coverage w)); [|done]. simpl. by intros [= <-]. Qed.

Lemma step_sim w w' : (forall es, SparseObjectBands.traversal (frame w) (object_bands w) = Some es -> all_live es) -> twin w w' -> sim (step w) (step w').
Proof.
  intros Hl T. unfold step.
  assert (D : forall l : list nat, forallb (fun s => Nat.ltb s DO_FRAME_STEPS) l = true -> Forall (fun s => s < DO_FRAME_STEPS)%nat l).
  { intros l E. apply Forall_forall. intros s Hs. apply Nat.ltb_lt. by apply (proj1 (forallb_forall _ _) E), list_elem_of_In. }
  apply sim_bind_eq; [by apply enter_steps_sim, T; apply D|]. intros w1 w1' [B1 F1]%enter_bands T1.
  apply sim_bind_eq; [by apply enter_steps_sim, T1; apply D|]. intros w2 w2' [B2 F2]%enter_bands T2.
  apply sim_bind; [apply objects_process_all_sim; [|done]; intros es; rewrite B2, F2, B1, F1; apply Hl|]. intros w3 w3' T3.
  apply sim_bind; [by apply enter_steps_sim, T3; apply D|]. intros w4 w4' T4.
  apply sim_bind; [by apply enter_steps_sim, T4; apply D|]. intros w5 w5' T5. cbv zeta. rewrite (sg_frame _ _ (tw_same _ _ T5)), (sg_seconds _ _ (tw_same _ _ T5)).
  apply sim_bind; [apply enter_steps_sim; [by apply D|by apply twin_clock]|]. intros w7 w7' T7.
  apply sim_bind; [by apply enter_steps_sim, T7; apply D|]. intros w8 w8' T8. rewrite (sg_frame _ _ (tw_same _ _ T8)), (sg_seconds _ _ (tw_same _ _ T8)).
  apply enter_steps_sim; [by apply D|]. case_match; [by apply twin_clock|done].
Qed.

(** ** Operations on two such worlds *)

(** Both panic, or both answer alike and leave such worlds. *)
Definition alike {A} (m m' : option (A * t)) : Prop := option_Forall2 (fun x x' => x'.1 = x.1 /\ same_game x.2 x'.2) m m'.

Lemma alike_read {A B} (o o' : option A) (k k' : A -> option (B * t)) : o' = o -> (forall a, alike (k a) (k' a)) -> alike (o ≫= k) (o' ≫= k').
Proof. intros -> Hk. destruct o; [by apply Hk|constructor]. Qed.
Lemma alike_ret {A} (a : A) w w' : same_game w w' -> alike (Some (a, w)) (Some (a, w')).
Proof. intros. by constructor. Qed.

Section alike.
Context (w w' : t) (H : world_wf w) (H' : world_wf w') (S : same_game w w').

Ltac rows := rewrite ?(sg_units _ _ S), ?(sg_orders _ _ S), ?(sg_types _ _ S), ?(sg_step_x _ _ S), ?(sg_step_y _ _ S), ?(sg_objects _ _ S), ?(sg_handles _ _ S), ?(sg_gens _ _ S),
  ?(sg_live _ _ S), ?(sg_capacity _ _ S), ?(sg_frame _ _ S), ?(sg_seconds _ _ S), ?(sg_random _ _ S), ?(sg_rules _ _ S).

Lemma allocate_alike owner ty row u i o objs x y ang speed rnd : alike (allocate owner ty row u i o objs x y ang speed rnd w) (allocate owner ty row u i o objs x y ang speed rnd w').
Proof.
  unfold allocate. assert (type_stats ty w' = type_stats ty w) as -> by (unfold type_stats; by rows). apply alike_read; [done|]. intros u1.
  rewrite (w_rows _ H), (w_rows _ H'). rows. case_decide; [constructor|]. apply alike_read; [done|]. intros g.
  pose proof (append_same owner RetailBand.Unit (IdUnit i g) _ _ (w_sparse _ H) (sg_bands _ _ S)) as A.
  destruct (SparseObjectBands.mirror_dense_append owner RetailBand.Unit (IdUnit i g) (object_bands w)) as [[r s]|e],
           (SparseObjectBands.mirror_dense_append owner RetailBand.Unit (IdUnit i g) (object_bands w')) as [[r' s']|e']; try (destruct A; fail); [|constructor].
  destruct A as [-> B]. case_decide; [constructor|]. apply alike_ret. by split.
Qed.

Lemma spawn_alike owner ty : alike (spawn_typed owner ty w) (spawn_typed owner ty w').
Proof.
  unfold spawn_typed, refuses. rows. case_match; [by apply alike_ret|]. destruct (UnitCols.push_zeroed (units w)) as [[row u]|]; [|by apply alike_ret].
  apply alike_read; [done|]. intros i. apply alike_read; [done|]. intros [o objs]. destruct (Random.get 0 MAP_SPAN (random w)) as [x r1]. destruct (Random.get 0 MAP_SPAN r1) as [y r2].
  destruct (Random.get 0 0xFFFF r2) as [a r3]. destruct (Random.get 8 64 r3) as [sp r4]. apply allocate_alike.
Qed.

Lemma allocate_at_alike owner ty x y : alike (allocate_typed_at owner ty x y w) (allocate_typed_at owner ty x y w').
Proof.
  unfold allocate_typed_at, refuses. rows. case_match; [by apply alike_ret|]. destruct (UnitCols.push_zeroed (units w)) as [[row u]|]; [|by apply alike_ret].
  apply alike_read; [done|]. intros i. apply alike_read; [done|]. intros [o objs]. apply allocate_alike.
Qed.

(** The two steps of a removal. *)
Lemma unregister_alike h row : option_Forall2 (fun x x' => x'.1 = x.1 /\ same_bands x.2 x'.2) (unregister h row w) (unregister h row w').
Proof.
  unfold unregister. rows. destruct (UnitCols.get_u8 f_who row (units w)) as [who|]; [|constructor]. cbn [mbind option_bind].
  destruct (UnitCols.get f_o row (units w)) as [o|]; [|constructor]. cbn [mbind option_bind]. destruct (ObjectRegistry.remove _ _ _ _) as [[mv objs]|]; [|constructor]. cbn [mbind option_bind].
  match goal with |- option_Forall2 _ (?x ≫= _) _ => destruct x as [u|]; [|constructor] end. cbn [mbind option_bind].
  pose proof (swap_remove_same (mkAddress (Z.to_nat who) RetailBand.Unit (i32 (u32 o))) (identity_of h) _ _ (w_sparse _ H) (sg_bands _ _ S)) as A.
  destruct (SparseObjectBands.mirror_dense_swap_remove _ _ (object_bands w)) as [[r s]|e], (SparseObjectBands.mirror_dense_swap_remove _ _ (object_bands w')) as [[r' s']|e'];
    try (destruct A; fail); [|constructor]. destruct A as [-> B].
  assert (receipts_agree mv (moved r) w' = receipts_agree mv (moved r) w) as -> by (unfold receipts_agree; by rows). case_match; [|constructor]. by constructor.
Qed.

Lemma compact_alike row last_ u objs : option_Forall2 (fun x x' => x'.1 = x.1) (compact row last_ u objs w) (compact row last_ u objs w').
Proof.
  unfold compact. rows. case_decide; [|by constructor].
  repeat match goal with |- option_Forall2 _ (?x ≫= _) (?x ≫= _) => destruct x; [|constructor]; cbn [mbind option_bind] end. by constructor.
Qed.

Lemma despawn_alike h : alike (despawn h w) (despawn h w').
Proof.
  unfold despawn. rewrite (same_rows _ _ h H H' S). destruct (row_of h w) as [row|]; [|by apply alike_ret]. cbv zeta. pose proof (unregister_alike h row) as U.
  destruct (unregister h row w) as [[[u objs] s]|], (unregister h row w') as [[[u' objs'] s']|]; try (inversion U; fail); [|constructor]. cbn [mbind option_bind].
  inversion U as [? ? HU|]; subst. destruct HU as [EU B]. simpl in EU, B. injection EU as -> ->. rows. pose proof (compact_alike row (live w - 1) u objs) as C.
  destruct (compact row (live w - 1) u objs w) as [[x rs]|], (compact row (live w - 1) u objs w') as [[x' rs']|]; try (inversion C; fail); [|constructor].
  inversion C as [? ? E|]; subst. simpl in E. subst x'. destruct x as [[[[[[u1 r1] os] ts] xs] ys] hs]. cbn [mbind option_bind]. apply alike_read; [done|]. intros g.
  apply alike_ret. by split.
Qed.

Lemma issue_alike h q : (issue h q w').1 = (issue h q w).1 /\ same_game (issue h q w).2 (issue h q w').2.
Proof. unfold issue. rewrite (same_rows _ _ h H H' S). destruct (row_of h w); [|done]. rows. split; [done|]. destruct S. by split. Qed.

Lemma set_active_alike owner on : alike (set_object_owner_active owner on w) (set_object_owner_active owner on w').
Proof.
  unfold set_object_owner_active. case_decide; [by apply alike_ret|]. unfold SparseObjectBands.set_active. rewrite (sb_active _ _ (sg_bands _ _ S)).
  destruct (SparseObjectBands.active (object_bands w) !! owner); [|constructor]. rows. apply alike_ret. destruct S as [? ? ? ? ? ? B]. split; try done. cbn [object_bands set_registries].
  destruct B. by split.
Qed.

Lemma register_alike owner b row : option_Forall2 same_game (register_non_unit owner b row w) (register_non_unit owner b row w').
Proof.
  unfold register_non_unit. rows. destruct (ObjectRegistry.insert owner b row (objects w)) as [[o objs]|]; [|constructor]. cbn [mbind option_bind].
  unfold mirror_dense_non_unit_append. destruct b; cbn [rbind]; [constructor|..];
    cbn [set_registries object_bands];
    lazymatch goal with |- context [SparseObjectBands.mirror_dense_append owner ?b ?i (object_bands w)] => pose proof (append_same owner b i _ _ (w_sparse _ H) (sg_bands _ _ S)) as A;
      destruct (SparseObjectBands.mirror_dense_append owner b i (object_bands w)) as [[r s]|e], (SparseObjectBands.mirror_dense_append owner b i (object_bands w')) as [[r' s']|e'] end;
    try (destruct A; fail); cbn [map_err rbind]; try constructor; destruct A as [-> B]; (destruct (negb _); [constructor|]); constructor; destruct S; by split.
Qed.

Lemma step_alike : option_Forall2 same_game (step w) (step w').
Proof.
  pose proof (step_sim w w' (fun es => traversal_live _ _ es H) (twin_wf _ _ H H' S)) as T. inversion T as [v v' Tv E E'|E E']; constructor. apply Tv.
Qed.

End alike.

(** ** A game that goes on *)

Lemma option_left {A B} (P : A -> B -> Prop) (m : option A) (m' : option B) a : option_Forall2 P m m' -> m = Some a -> exists b, m' = Some b /\ P a b.
Proof. intros [x y Hxy|] E; [|done]. injection E as <-. by exists y. Qed.

Lemma set_pos_sim row x y w w' : twin w w' -> sim (set_pos row x y w) (set_pos row x y w').
Proof.
  intros T. unfold set_pos. rewrite (sg_units _ _ (tw_same _ _ T)). apply sim_read; [done|]. intros u. apply sim_read; [done|]. intros u'. by apply sim_ret, twin_units.
Qed.

Lemma hot_same integrate down w w' : same_game w w' -> same_game (hot integrate down w) (hot integrate down w').
Proof. intros []. unfold hot. split; simpl; congruence. Qed.

Lemma same_game_step w w' v : world_wf w -> world_wf w' -> same_game w w' -> world_step w v -> exists v', world_step w' v' /\ same_game v v'.
Proof.
  intros H H' S St. pose proof (twin_wf _ _ H H' S) as T. destruct St as [owner ty r w v E|owner ty x y r w v E|h b w v E|h q w|owner on b w v E|owner b row w v Ho E|row x y w v E|row x y w v E|r w Hr|n w|w|w|w v E].
  - destruct (option_left _ _ _ _ (spawn_alike _ _ H H' S owner ty) E) as ([r' v'] & E' & _ & Sv). exists v'. split; [by eapply ws_spawn|done].
  - destruct (option_left _ _ _ _ (allocate_at_alike _ _ H H' S owner ty x y) E) as ([r' v'] & E' & _ & Sv). exists v'. split; [by eapply ws_allocate|done].
  - destruct (option_left _ _ _ _ (despawn_alike _ _ H H' S h) E) as ([r' v'] & E' & _ & Sv). exists v'. split; [by eapply ws_despawn|done].
  - eexists. split; [apply (ws_issue h q)|]. apply (issue_alike _ _ H H' S).
  - destruct (option_left _ _ _ _ (set_active_alike _ _ S owner on) E) as ([r' v'] & E' & _ & Sv). exists v'. split; [by eapply ws_active|done].
  - destruct (option_left _ _ _ _ (register_alike _ _ H S owner b row) E) as (v' & E' & Sv). exists v'. split; [by eapply ws_register|done].
  - destruct (option_left _ _ _ _ (set_pos_sim row x y _ _ T) E) as (v' & E' & Tv). exists v'. split; [by eapply ws_set_pos|apply Tv].
  - destruct (option_left _ _ _ _ (set_move_sim row x y _ _ T) E) as (v' & E' & Tv). exists v'. split; [by eapply ws_set_move|apply Tv].
  - eexists. split; [by apply ws_rules|]. destruct S. by split.
  - eexists. split; [apply (ws_frames n)|]. unfold advance_frames. rewrite (sg_frame _ _ S), (sg_seconds _ _ S). apply (twin_clock _ _ _ _ T).
  - eexists. split; [apply ws_hot|]. by apply hot_same.
  - eexists. split; [apply ws_scalar|]. by apply hot_same.
  - destruct (option_left _ _ _ _ (step_alike _ _ H H' S) E) as (v' & E' & Sv). exists v'. split; [by apply ws_step|done].
Qed.

Lemma same_game_steps w w' v : world_wf w -> world_wf w' -> same_game w w' -> rtc world_step w v -> exists v', rtc world_step w' v' /\ same_game v v'.
Proof.
  intros H H' S R. revert w' H' S. induction R as [|w1 w2 w3 St _ IH]; intros w' H' S; [exists w'; by split|].
  destruct (same_game_step _ _ _ H H' S St) as (v' & St' & S'). destruct (IH (world_step_wf _ _ St H) v' (world_step_wf _ _ St' H') S') as (v2 & R2 & S2).
  exists v2. split; [by eapply rtc_l|done].
Qed.

Lemma steps_wf w v : rtc world_step w v -> world_wf w -> world_wf v.
Proof. induction 1 as [|w1 w2 w3 St _ IH]; [done|]. intros H. apply IH. by eapply world_step_wf. Qed.
