(* ===== verification/SimSave.v ===== *)
(** * Saving and loading a world

    [WorldSaveState], [validate_and_rebuild], [export_save_state],
    [import_save_state] and [derive_object_bands_from_dense] of
    [crates/don-sim/src/world.rs].  A save carries the unit columns, orders,
    handles and the sparse registry's snapshot; the dense registry and the row
    table are rebuilt, and the two registries must agree.

    A computation panics ([None]), is refused ([Some (Err _)]) or succeeds.
    [[_; OWNER_SLOTS]] arrays are lists of that length.  [item_runtime], which a
    load drops, is no part of the modelled world. *)

From stdpp Require Import strings.
From S2P Require Import Prelude SimArith SimKernels SimRandom SimObjects SimSparse SimSparseSpec SimCols SimPayload SimOrder SimWorld SimWorldSpec SimWorldTick SimWorldMain.
Import World.
#[local] Open Scope Z_scope.

(** ** Checks *)

Definition chk (A : Type) : Type := option (result WorldSaveError A).
Definition good {A} (a : A) : chk A := Some (Ok a).
Definition refuse {A} (e : WorldSaveError) : chk A := Some (Err e).
Definition chk_bind {A B} (m : chk A) (k : A -> chk B) : chk B :=
  match m with Some (Ok a) => k a | Some (Err e) => Some (Err e) | None => None end.
(** An index that panics. *)
Definition at_index {A} (o : option A) : chk A := Ok <$> o.
(** [map_err(|_| RegistryMismatch)?]. *)
Definition mismatch {E A} (r : result E A) : chk A := match r with Ok a => good a | Err _ => refuse RegistryMismatch end.

Declare Scope save_scope.
Delimit Scope save_scope with save.
Notation "'let*' x := m 'in' k" := (chk_bind m (fun x => k)) (at level 10, x name, m at level 100, k at level 200) : save_scope.
Notation "'let*' ' x := m 'in' k" := (chk_bind m (fun x => k)) (at level 10, x strict pattern, m at level 100, k at level 200) : save_scope.
#[local] Open Scope save_scope.

Record WorldSaveState := mkSave {
  s_units : UnitCols.t; s_orders : list OrderList.t; s_types : list Z; s_step_x : list Z; s_step_y : list Z; s_handles : list Z; s_gens : list Z;
  active_slots : list bool; build_rows : list (list Z); s_bands : option (SparseRegistrySnapshot WorldObjectIdentity);
  s_live : nat; s_capacity : nat; s_frame : Z; s_seconds : Z; random_state : Z }.

Definition check_length (name : string) (len expected : nat) : chk unit := if decide (len <> expected) then refuse (SaveLength name) else good tt.

Definition check_lengths (s : WorldSaveState) : chk unit :=
  let cap := s_capacity s in let live := s_live s in
  if decide (MAX_UNITS < cap \/ cap < live)%nat then refuse SaveCapacity
  else if decide (UnitCols.cap (s_units s) <> cap \/ UnitCols.len (s_units s) <> live) then refuse (SaveLength "unit columns")
  else
    let* ' tt := check_length "order lists" (length (s_orders s)) live in
    let* ' tt := check_length "unit type ids" (length (s_types s)) live in
    let* ' tt := check_length "move step x" (length (s_step_x s)) live in
    let* ' tt := check_length "move step y" (length (s_step_y s)) live in
    let* ' tt := check_length "handle permutation" (length (s_handles s)) cap in
    check_length "handle generations" (length (s_gens s)) cap.

(** [mem::replace(&mut seen[i], true)]. *)
Fixpoint check_handles (cap : nat) (seen : list bool) (ids : list Z) : chk unit :=
  match ids with
  | [] => good tt
  | i :: ids =>
      if decide (Z.of_nat cap <= i) then refuse HandlePermutation
      else
        let* was := at_index (seen !! Z.to_nat i) in
        if was : bool then refuse HandlePermutation else check_handles cap (<[Z.to_nat i := true]> seen) ids
  end.

Fixpoint check_orders (cap row order : nat) (l : OrderList.t) : chk unit :=
  match l with
  | [] => good tt
  | q :: l =>
      match target_handle q with
      | Some h =>
          if (Z.of_nat cap <=? id h) || (target_who q <? 0) || (target_o q <? 0) then refuse (SaveOrderTarget row order h) else check_orders cap row (S order) l
      | None => check_orders cap row (S order) l
      end
  end.
Fixpoint check_targets (cap row : nat) (ls : list OrderList.t) : chk unit :=
  match ls with [] => good tt | l :: ls => let* ' tt := check_orders cap row 0 l in check_targets cap (S row) ls end.

(** ** The dense registry *)

(** One row entered in its owner's table. *)
Definition place_row (u : UnitCols.t) (live : nat) (tables : list (list (option Z))) (row : nat) : chk (list (list (option Z))) :=
  let* owner := at_index (UnitCols.get_u8 f_who row u) in
  if decide (OWNER_SLOTS <= Z.to_nat owner)%nat then refuse (SaveOwner row owner)
  else
    let* index := at_index (UnitCols.get f_o row u) in
    if index <? 0 then refuse (SaveObjectIndex row index)
    else
      let k := Z.to_nat index in
      let* entries := at_index (tables !! Z.to_nat owner) in
      if decide (live <= k)%nat then refuse (SaveObjectIndex row index)
      else
        let entries := if decide (length entries <= k)%nat then entries ++ replicate (S k - length entries) None else entries in
        let* was := at_index (entries !! k) in
        match was : option Z with
        | Some _ => refuse (DuplicateObjectIndex (Z.to_nat owner) k)
        | None => good (<[Z.to_nat owner := <[k := Some (Z.of_nat row)]> entries]> tables)
        end.
Fixpoint place_rows (u : UnitCols.t) (live : nat) (rows : list nat) (tables : list (list (option Z))) : chk (list (list (option Z))) :=
  match rows with [] => good tables | row :: rows => let* tables := place_row u live tables row in place_rows u live rows tables end.

Definition Entries : Type := list (DenseRegistryEntry WorldObjectIdentity).

Fixpoint insert_units (hs gs : list Z) (owner index : nat) (rows : list Z) (r : ObjectRegistry.t) (es : Entries) : chk (ObjectRegistry.t * Entries) :=
  match rows with
  | [] => good (r, es)
  | row :: rows =>
      let* ' (o, r) := at_index (ObjectRegistry.insert owner Unit row r) in
      if decide (o <> Z.of_nat index) then refuse RegistryMismatch
      else
        let* i := at_index (hs !! Z.to_nat row) in
        let* g := at_index (gs !! Z.to_nat i) in
        insert_units hs gs owner (S index) rows r (es ++ [mkDense (mkAddress owner RetailBand.Unit (Z.of_nat index)) (IdUnit i g)])
  end.
Fixpoint insert_tables (hs gs : list Z) (owner : nat) (tables : list (list (option Z))) (r : ObjectRegistry.t) (es : Entries) : chk (ObjectRegistry.t * Entries) :=
  match tables with
  | [] => good (r, es)
  | entries :: tables =>
      if existsb (fun x => match x with None => true | Some _ => false end) entries then refuse RegistryMismatch
      else let* ' (r, es) := insert_units hs gs owner 0 (omap Datatypes.id entries) r es in insert_tables hs gs (S owner) tables r es
  end.

Fixpoint insert_builds (count owner index : nat) (rows : list Z) (seen : list bool) (r : ObjectRegistry.t) (es : Entries)
  : chk (list bool * ObjectRegistry.t * Entries) :=
  match rows with
  | [] => good (seen, r, es)
  | row :: rows =>
      if decide (Z.of_nat count <= row) then refuse RegistryMismatch
      else
        let* was := at_index (seen !! Z.to_nat row) in
        if was : bool then refuse RegistryMismatch
        else
          let* ' (o, r) := at_index (ObjectRegistry.insert owner Build row r) in
          if decide (o <> BUILD_BAND_BASE + Z.of_nat index) then refuse RegistryMismatch
          else
            insert_builds count owner (S index) rows (<[Z.to_nat row := true]> seen) r
              (es ++ [mkDense (mkAddress owner RetailBand.Build (BUILD_BAND_BASE + Z.of_nat index)) (BuildRow row)])
  end.
Fixpoint insert_all_builds (count owner : nat) (bs : list (list Z)) (seen : list bool) (r : ObjectRegistry.t) (es : Entries) : chk (ObjectRegistry.t * Entries) :=
  match bs with
  | [] => good (r, es)
  | rows :: bs =>
      if decide (BANDED_SLOTS <= owner /\ rows <> [])%nat then refuse UnsupportedObjectBand
      else let* ' (seen, r, es) := insert_builds count owner 0 rows seen r es in insert_all_builds count (S owner) bs seen r es
  end.

Fixpoint set_actives (owner : nat) (on : list bool) (r : ObjectRegistry.t) : ObjectRegistry.t :=
  match on with [] => r | b :: on => set_actives (S owner) on (ObjectRegistry.set_active owner b r) end.

(** The ids were range checked. *)
Fixpoint index_handles (row : nat) (ids : list Z) (rs : list Z) : list Z :=
  match ids with [] => rs | i :: ids => index_handles (S row) ids (<[Z.to_nat i := Z.of_nat row]> rs) end.

(** ** [validate_and_rebuild] *)

Definition choose_bands (saved : option (SparseRegistrySnapshot WorldObjectIdentity)) (derived : SparseObjectBands.t WorldObjectIdentity)
  : chk (SparseObjectBands.t WorldObjectIdentity) :=
  match saved with
  | None => good derived
  | Some z =>
      let* restored := mismatch (SparseObjectBands.from_snapshot z) in
      let* a := mismatch (SparseObjectBands.snapshot restored) in
      let* b := mismatch (SparseObjectBands.snapshot derived) in
      if decide (a <> b) then refuse RegistryMismatch else good restored
  end.

Definition rebuild_dense (s : WorldSaveState) : chk (ObjectRegistry.t * Entries) :=
  let* tables := place_rows (s_units s) (s_live s) (seq 0 (s_live s)) (replicate OWNER_SLOTS []) in
  let* ' (r, es) := insert_tables (s_handles s) (s_gens s) 0 tables ObjectRegistry.new [] in
  let count := sum_list_with length (build_rows s) in
  let* ' (r, es) := insert_all_builds count 0 (build_rows s) (replicate count false) r es in
  good (set_actives 0 (active_slots s) r, es).

Definition validate_and_rebuild (s : WorldSaveState) : chk (ObjectRegistry.t * SparseObjectBands.t WorldObjectIdentity * list Z) :=
  let* ' tt := check_lengths s in
  let* ' tt := check_handles (s_capacity s) (replicate (s_capacity s) false) (s_handles s) in
  let* ' tt := check_targets (s_capacity s) 0 (s_orders s) in
  let* ' (objs, es) := rebuild_dense s in
  let rows := index_handles 0 (take (s_live s) (s_handles s)) (replicate (s_capacity s) NO_ROW) in
  let* ' (_, derived) := mismatch (SparseObjectBands.from_dense_entries (active_slots s) es) in
  let* bands := choose_bands (s_bands s) derived in
  good (objs, bands, rows).

(** ** Export and import *)

(** [import_save_state]: a refused save leaves the world as it was. *)
Definition import_save_state (s : WorldSaveState) (w : t) : option (result WorldSaveError unit * t) :=
  match validate_and_rebuild s with
  | None => None
  | Some (Err e) => Some (Err e, w)
  | Some (Ok (objs, bands, rows)) =>
      Some (Ok tt, mk (s_units s) (s_orders s) (s_types s) (s_step_x s) (s_step_y s) objs bands (s_handles s) rows (s_gens s) (s_live s)
                      (s_capacity s) (s_frame s) (s_seconds s) (Random.new (random_state s)) (rules w) Coverage_default)
  end.

Definition dense_band (r : ObjectRegistry.t) (owner : nat) (b : Band) : chk (list Z) := at_index ((fun s => band s b) <$> ObjectRegistry.slot owner r).
Fixpoint check_supported (owners : list nat) (r : ObjectRegistry.t) : chk unit :=
  match owners with
  | [] => good tt
  | o :: owners =>
      let* walls := dense_band r o Wall in
      let* builds := dense_band r o Build in
      if decide (walls <> [] \/ (BANDED_SLOTS <= o)%nat /\ builds <> []) then refuse UnsupportedObjectBand else check_supported owners r
  end.
Fixpoint check_same (owners : list nat) (r r' : ObjectRegistry.t) : chk unit :=
  match owners with
  | [] => good tt
  | o :: owners =>
      let* u := dense_band r o Unit in let* u' := dense_band r' o Unit in
      let* b := dense_band r o Build in let* b' := dense_band r' o Build in
      if decide (ObjectRegistry.is_active o r <> ObjectRegistry.is_active o r' \/ u <> u' \/ b <> b') then refuse RegistryMismatch else check_same owners r r'
  end.

Definition save_of (w : t) (z : SparseRegistrySnapshot WorldObjectIdentity) : WorldSaveState :=
  mkSave (units w) (unit_orders w) (unit_type_id w) (move_step_x w) (move_step_y w) (handle_of_row w) (generations w)
    ((fun o => ObjectRegistry.is_active o (objects w)) <$> seq 0 OWNER_SLOTS)
    ((fun o => default [] ((fun s => band s Build) <$> ObjectRegistry.slot o (objects w))) <$> seq 0 OWNER_SLOTS)
    (Some z) (live w) (capacity w) (frame w) (seconds w) (Random.state (random w)).

Definition export_save_state (w : t) : chk WorldSaveState :=
  let* ' tt := check_supported (seq 0 OWNER_SLOTS) (objects w) in
  let* z := mismatch (SparseObjectBands.snapshot (object_bands w)) in
  let s := save_of w z in
  let* ' (rebuilt, bands, _) := validate_and_rebuild s in
  let* ' tt := check_same (seq 0 OWNER_SLOTS) rebuilt (objects w) in
  let* a := mismatch (SparseObjectBands.snapshot bands) in
  let* b := mismatch (SparseObjectBands.snapshot (object_bands w)) in
  if decide (a <> b) then refuse RegistryMismatch
  else if decide (ObjectRegistry.total_objects (objects w) <> live w + sum_list_with length (build_rows s))%nat then refuse RegistryMismatch
  else good s.

(** ** The dense view as a sparse registry *)

(** The identity of one dense entry; a unit's row must carry the entry's address. *)
Definition dense_identity_of (w : t) (owner : nat) (b : Band) (o row : Z) : chk WorldObjectIdentity :=
  match b with
  | Unit =>
      if decide (Z.of_nat (live w) <= row) then refuse RegistryMismatch
      else
        let* who := at_index (UnitCols.get_u8 f_who (Z.to_nat row) (units w)) in
        if decide (who <> Z.of_nat owner) then refuse RegistryMismatch
        else
          let* index := at_index (UnitCols.get f_o (Z.to_nat row) (units w)) in
          if decide (index <> i32 o) then refuse RegistryMismatch
          else
            let* i := at_index (handle_of_row w !! Z.to_nat row) in
            let* g := at_index (generations w !! Z.to_nat i) in
            good (IdUnit i g)
  | Build => good (BuildRow row)
  | Wall => good (WallRow row)
  end.
Fixpoint band_identities (w : t) (owner : nat) (b : Band) (rbnd : RetailBand.t) (offset : nat) (rows : list Z) : chk Entries :=
  match rows with
  | [] => good []
  | row :: rows =>
      let o := base b + Z.of_nat offset in
      let* i := dense_identity_of w owner b o row in
      let* es := band_identities w owner b rbnd (S offset) rows in
      good (mkDense (mkAddress owner rbnd (i32 o)) i :: es)
  end.
Fixpoint owner_identities (w : t) (owner : nat) (bs : list (Band * RetailBand.t)) : chk Entries :=
  match bs with
  | [] => good []
  | (b, rbnd) :: bs =>
      let* rows := dense_band (objects w) owner b in
      let* es := band_identities w owner b rbnd 0 rows in
      let* es' := owner_identities w owner bs in
      good (es ++ es')
  end.
Fixpoint all_identities (w : t) (owners : list nat) : chk Entries :=
  match owners with
  | [] => good []
  | o :: owners =>
      let* es := owner_identities w o [(Unit, RetailBand.Unit); (Build, RetailBand.Build); (Wall, RetailBand.Wall)] in
      let* es' := all_identities w owners in
      good (es ++ es')
  end.

Definition derive_object_bands_from_dense (w : t) : chk (SparseObjectBands.t WorldObjectIdentity) :=
  let* es := all_identities w (seq 0 OWNER_SLOTS) in
  let* ' (_, bands) := mismatch (SparseObjectBands.from_dense_entries ((fun o => ObjectRegistry.is_active o (objects w)) <$> seq 0 OWNER_SLOTS) es) in
  good bands.

(** [Result::ok]. *)
Definition ok {E A} (r : result E A) : option A := match r with Ok a => Some a | Err _ => None end.

Definition object_bands_are_dense_equivalent (w : t) : option bool :=
  match derive_object_bands_from_dense w with
  | None => None
  | Some (Err _) => Some false
  | Some (Ok derived) => Some (bool_decide (ok (SparseObjectBands.snapshot (object_bands w)) = ok (SparseObjectBands.snapshot derived)))
  end.
