(* ===== verification/SimSaveSpec.v ===== *)
(** * Saving and loading a world: registries and the rebuild

    Over [SimSave] and [SimSparse]: converting dense entries into a sparse
    registry succeeds on gap-free bands of distinct identities, in whatever
    order they come, and yields the registry that holds exactly them; the
    entries of a well-formed world are such a list.  The checks of
    [validate_and_rebuild] pass exactly on the states they describe; the rebuilt
    dense registry lists every row at its own address, so an accepted save is a
    well-formed world ([accepted_wf]); and no step of the validation panics
    ([validate_safe]). *)

From stdpp Require Import strings.
From S2P Require Import Prelude SimArith SimKernels SimRandom SimObjects SimSparse SimSparseSpec SimCols SimPayload SimOrder SimWorld SimWorldSpec SimWorldTick SimWorldMain SimDigest SimSave.
Import World.
#[local] Open Scope Z_scope.

(** ** Addresses in order *)

Lemma band_index_inj (x y : RetailBand.t) : RetailBand.index x = RetailBand.index y <-> x = y.
Proof. split; [by destruct x, y|by intros ->]. Qed.

Lemma address_le_spec a b :
  address_le a b = true <->
  (a_owner a < a_owner b)%nat \/ a_owner a = a_owner b /\
    ((RetailBand.index (a_band a) < RetailBand.index (a_band b))%nat \/ a_band a = a_band b /\ a_o a <= a_o b).
Proof.
  assert (Hi : forall x y, RetailBand.index x = RetailBand.index y -> x = y) by (intros [] []; done).
  unfold address_le. case_decide as D1; [case_decide as D2|].
  - rewrite Z.leb_le. rewrite D2. split; [tauto|]. intros [?|[_ [?|?]]]; [lia|lia|tauto].
  - rewrite bool_decide_eq_true. split.
    + intros ?. right. split; [done|]. left. assert (RetailBand.index (a_band a) <> RetailBand.index (a_band b)) by (intros E; by apply Hi in E). lia.
    + intros [?|[_ [?|[? _]]]]; [lia|lia|done].
  - rewrite bool_decide_eq_true. split; [intros; left; lia|]. intros [?|[? _]]; [lia|done].
Qed.

Lemma address_le_antisym a b : address_le a b = true -> address_le b a = true -> a = b.
Proof.
  rewrite !address_le_spec. setoid_rewrite <- band_index_inj. destruct a as [w x o], b as [w' x' o']; simpl. intros H1 H2.
  assert (w = w') as -> by lia. assert (x = x') as -> by (apply band_index_inj; lia). f_equal. lia.
Qed.

Lemma address_le_total a b : address_le a b = false -> address_le b a = true.
Proof. rewrite <- not_true_iff_false, !address_le_spec. setoid_rewrite <- band_index_inj. lia. Qed.

Section convert.
Context {I : Type} `{Countable I}.
Import SparseObjectBands.
Implicit Types (s : SparseObjectBands.t I) (i : I) (e : DenseRegistryEntry I) (es : list (DenseRegistryEntry I)).

Definition entry_le e e' : Prop := address_le (dense_address e) (dense_address e') = true.

Lemma entry_le_trans e1 e2 e3 : entry_le e1 e2 -> entry_le e2 e3 -> entry_le e1 e3.
Proof.
  unfold entry_le. rewrite !address_le_spec. setoid_rewrite <- band_index_inj. lia.
Qed.

Lemma insert_sorted_perm e es : insert_sorted e es ≡ₚ e :: es.
Proof. induction es as [|x es IH]; [done|]. simpl. case_match; [done|]. rewrite IH. apply Permutation_swap. Qed.

Lemma sort_entries_perm es : sort_entries es ≡ₚ es.
Proof. induction es as [|e es IH]; [done|]. simpl. unfold sort_entries in IH. rewrite insert_sorted_perm. by rewrite IH. Qed.

Lemma insert_sorted_sorted e es : StronglySorted entry_le es -> StronglySorted entry_le (insert_sorted e es).
Proof.
  induction 1 as [|x es Hs IH Hx]; [repeat constructor|]. simpl. case_match eqn:E.
  - constructor; [by constructor|]. constructor; [done|]. eapply Forall_impl; [exact Hx|]. intros y Hy. by eapply entry_le_trans.
  - constructor; [done|]. rewrite insert_sorted_perm. constructor; [|done]. by apply address_le_total.
Qed.

Lemma sort_entries_sorted es : StronglySorted entry_le (sort_entries es).
Proof. induction es as [|e es IH]; [constructor|]. simpl. by apply insert_sorted_sorted. Qed.

(** ** The registry that holds a list of entries *)

Record holds (act : list bool) (es : list (DenseRegistryEntry I)) s : Prop := {
  h_wf : SimSparseSpec.wf s;
  h_marks : dense_marks s;
  h_live w b k : (w < SimSparse.OWNER_SLOTS)%nat -> (k < slots_of s w b)%nat -> exists i, life (band_of w b s) k = Some (Live i);
  h_active : active s = act;
  h_entries w b k i : live_at s w b k i <-> mkDense (at_ w b k) i ∈ es }.

Lemma holds_perm act es es' s : es ≡ₚ es' -> holds act es s -> holds act es' s.
Proof. intros Hp [Hw Hm Hl Ha He]. split; try done. intros w b k i. rewrite He. by rewrite Hp. Qed.

Lemma holds_new act : length act = SimSparse.OWNER_SLOTS -> holds act [] (set_actives act new).
Proof.
  intros Ha. assert (B : forall w b, (w < SimSparse.OWNER_SLOTS)%nat -> band_of w b (set_actives act (new : SparseObjectBands.t I)) = new_band b).
  { intros w b Hw. change (band_of w b (new : SparseObjectBands.t I) = new_band b). apply new_band_of. }
  split; [by apply start_wf| | |done|].
  - intros w b Hw. rewrite B by done. simpl. lia.
  - intros w b k Hw Hk. unfold slots_of in Hk. rewrite B in Hk by done. simpl in Hk. lia.
  - intros w b k i. unfold live_at. split; [|by intros E%elem_of_nil]. intros [Hw E]. rewrite B in E by done. done.
Qed.

(** The conversion of one entry is the mirrored append, its owner's activity apart. *)
Lemma convert_entry_append previous e s s' :
  SimSparseSpec.wf s -> dense_marks s -> convert_entry previous e s = Ok s' ->
  let a := dense_address e in exists r, a = at_ (a_owner a) (a_band a) (slots_of s (a_owner a) (a_band a)) /\ (a_owner a < SimSparse.OWNER_SLOTS)%nat /\
  active s' = active s /\ mirror_dense_append (a_owner a) (a_band a) (dense_identity e) s = Ok (r, activate (a_owner a) s').
Proof.
  intros Hwf Hd E a. unfold convert_entry in E. fold a in E. case_match eqn:Ew; [done|]. case_match eqn:Ep; [done|]. case_decide as Ei; [done|].
  case_match eqn:Eo; [done|]. destruct (allocate_storage (a_owner a) (a_band a) s) as [st s1] eqn:Ea. bool_hyps. unfold is_well_formed, RetailBand.contains in Ew. bool_hyps.
  assert (Hw : (a_owner a < SimSparse.OWNER_SLOTS)%nat) by lia. pose proof (Hd (a_owner a) (a_band a) Hw) as Hm.
  assert (Haa : a = at_ (a_owner a) (a_band a) (slots_of s (a_owner a) (a_band a))). { unfold at_, slots_of. rewrite <- Hm. destruct a; simpl in *; by subst. }
  unfold mirror_dense_append. rewrite decide_False by lia. rewrite decide_False by done. rewrite Hm, Z.eqb_refl. cbn [negb orb].
  rewrite (proj2 (Z.leb_gt _ _)) by lia. rewrite Ea. eexists. split; [done|]. split; [done|].
  assert (Has : mkAddress (a_owner a) (a_band a) (RetailBand.base (a_band a) + Z.of_nat (length (slots (band_of (a_owner a) (a_band a) s)))) = a) by (symmetry; exact Haa).
  rewrite Has. apply allocate_storage_shape in Ea as [n ->]. injection E as <-. split; [done|reflexivity].
Qed.

Lemma convert_entry_holds act es previous e s s' :
  holds act es s -> convert_entry previous e s = Ok s' -> holds act (es ++ [e]) s'.
Proof.
  intros H0 E. destruct (convert_entry_append _ _ _ _ (h_wf _ _ _ H0) (h_marks _ _ _ H0) E) as (r & Ha & Hw & Hact & Em).
  destruct (mirror_append_ok _ _ _ _ _ _ (h_wf _ _ _ H0) (h_marks _ _ _ H0) Em) as (Sw & Sd & _ & Sl & Slife).
  set (w0 := a_owner (dense_address e)) in *. set (b0 := a_band (dense_address e)) in *.
  assert (Hlen : length (active s') = SimSparse.OWNER_SLOTS) by (rewrite Hact; apply (wf_active _ (h_wf _ _ _ H0))).
  split.
  - destruct Sw as [So _ Sb Sr]. split; [exact So|exact Hlen|exact Sb|exact Sr].
  - exact Sd.
  - intros w b k Hw1 Hk. change (slots_of s' w b) with (slots_of (activate w0 s') w b) in Hk. change (band_of w b s') with (band_of w b (activate w0 s')).
    rewrite Slife. destruct (decide ((w = w0 /\ b = b0) /\ k = slots_of s w0 b0)) as [D|D]; [by eexists|]. apply (h_live _ _ _ H0); [done|].
    rewrite Sl in Hk. case_decide as D2; [|done]. destruct D2 as [-> ->]. destruct (decide (k = slots_of s w0 b0)); [tauto|lia].
  - by rewrite Hact, (h_active _ _ _ H0).
  - intros w b k i. unfold live_at. change (band_of w b s') with (band_of w b (activate w0 s')). rewrite Slife, elem_of_app, list_elem_of_singleton.
    rewrite <- (h_entries _ _ _ H0). unfold live_at. case_decide as D.
    + destruct D as [[-> ->] ->]. split.
      * intros [_ Ei]. right. injection Ei as Ei. rewrite <- Ha, <- Ei. by destruct e.
      * intros [[_ El]|Ee]; [exfalso; apply life_lt in El; unfold slots_of in El; lia|]. split; [done|]. by rewrite <- Ee.
    + split; [tauto|]. intros [?|Ee]; [done|]. exfalso. apply D. assert (Hx : dense_address e = at_ w b k) by by rewrite <- Ee. rewrite Ha in Hx. by apply at_inj in Hx as (-> & -> & ->).
Qed.

Lemma convert_entries_holds act l : forall es previous s s',
  holds act es s -> convert_entries previous l s = Ok s' -> holds act (es ++ l) s'.
Proof.
  induction l as [|e l IH]; intros es previous s s' H0 E; simpl in E; [injection E as <-; by rewrite app_nil_r|].
  rinv E. rewrite cons_middle, app_assoc. eapply IH; [|exact E]. by eapply convert_entry_holds.
Qed.

Lemma from_dense_entries_holds act es r s :
  length act = SimSparse.OWNER_SLOTS -> from_dense_entries act es = Ok (r, s) -> holds act es s.
Proof.
  intros Ha E. unfold from_dense_entries in E. rinv E. simplify_eq. eapply holds_perm; [apply sort_entries_perm|].
  apply (convert_entries_holds _ _ [] _ _ _ (holds_new act Ha) Hr).
Qed.

(** ** Gap-free entries convert *)

Record gapfree (es : list (DenseRegistryEntry I)) : Prop := {
  g_ids : NoDup (dense_identity <$> es);
  g_addresses : NoDup (dense_address <$> es);
  g_range e : e ∈ es -> exists w b k, dense_address e = at_ w b k /\ (w < SimSparse.OWNER_SLOTS)%nat /\ RetailBand.base b + Z.of_nat k < RetailBand.limit b;
  g_prefix w b k k' : at_ w b k ∈ dense_address <$> es -> (k' < k)%nat -> at_ w b k' ∈ dense_address <$> es }.

Lemma gapfree_perm es es' : es ≡ₚ es' -> gapfree es -> gapfree es'.
Proof.
  intros Hp [H1 H2 H3 H4]. split.
  - by rewrite <- Hp.
  - by rewrite <- Hp.
  - intros e. rewrite <- Hp. apply H3.
  - intros w b k k'. rewrite <- Hp. apply H4.
Qed.

Lemma NoDup_middle {A B} (f : A -> B) (es1 es2 : list A) (e e' : A) : NoDup (f <$> es1 ++ e :: es2) -> e' ∈ es1 -> f e' <> f e.
Proof.
  rewrite fmap_app, fmap_cons. intros (_ & Hd & _)%NoDup_app He' E. apply (Hd (f e')); [by apply list_elem_of_fmap_2|]. rewrite E. left.
Qed.

Lemma next_slot act es1 e es2 s w b k :
  holds act es1 s -> gapfree (es1 ++ e :: es2) -> Forall (entry_le e) es2 -> dense_address e = at_ w b k -> (w < SimSparse.OWNER_SLOTS)%nat -> slots_of s w b = k.
Proof.
  intros H0 G Hs Ha Hw. destruct (Nat.lt_trichotomy (slots_of s w b) k) as [Hlt|[?|Hlt]]; [exfalso|done|exfalso].
  - assert (Hin : at_ w b (slots_of s w b) ∈ dense_address <$> es1 ++ e :: es2).
    { apply (g_prefix _ G w b k); [|done]. rewrite <- Ha. apply list_elem_of_fmap_2, elem_of_app. right. left. }
    apply list_elem_of_fmap in Hin as (e' & He' & Hin). apply elem_of_app in Hin as [Hin|[->|Hin]%elem_of_cons].
    + assert (Hl : live_at s w b (slots_of s w b) (dense_identity e')) by (apply (h_entries _ _ _ H0); rewrite He'; by destruct e').
      destruct Hl as [_ Hl]. apply life_lt in Hl. unfold slots_of in Hl. lia.
    + rewrite Ha in He'. apply at_inj in He'. lia.
    + rewrite Forall_forall in Hs. specialize (Hs e' Hin). unfold entry_le in Hs. rewrite Ha, <- He', address_le_spec in Hs. simpl in Hs. lia.
  - destruct (h_live _ _ _ H0 w b k Hw Hlt) as [i Hi]. assert (Hin : mkDense (at_ w b k) i ∈ es1) by (apply (h_entries _ _ _ H0); by split).
    by apply (NoDup_middle _ _ _ _ _ (g_addresses _ G) Hin).
Qed.

Lemma convert_entry_total act es1 e es2 s previous :
  holds act es1 s -> gapfree (es1 ++ e :: es2) -> Forall (entry_le e) es2 -> (previous = None \/ exists e', e' ∈ es1 /\ previous = Some (dense_address e')) ->
  exists s', convert_entry previous e s = Ok s'.
Proof.
  intros H0 G Hs Hp. destruct (g_range _ G e) as (w & b & k & Ha & Hw & Hk); [apply elem_of_app; right; left|].
  pose proof (next_slot _ _ _ _ _ _ _ _ H0 G Hs Ha Hw) as Hn. unfold convert_entry. rewrite Ha. unfold is_well_formed, RetailBand.contains. simpl.
  rewrite bool_decide_true by done. rewrite (proj2 (Z.leb_le _ _)), (proj2 (Z.ltb_lt _ _)) by lia. cbn [andb negb]. rewrite bool_decide_false.
  2: { intros ->. destruct Hp as [?|(e' & Hin & [= E])]; [done|]. rewrite <- Ha in E. by apply (NoDup_middle _ _ _ _ _ (g_addresses _ G) Hin). }
  rewrite decide_False.
  2: { intros [a E]. apply (wf_rev _ (h_wf _ _ _ H0)) in E as (w' & b' & k' & -> & Hl). apply (h_entries _ _ _ H0) in Hl.
       by apply (NoDup_middle _ _ _ _ _ (g_ids _ G) Hl). }
  rewrite (h_marks _ _ _ H0 w b Hw). unfold slots_of in Hn. rewrite Hn, Z.eqb_refl. cbn [negb]. destruct (allocate_storage w b s). by eexists.
Qed.

Lemma convert_entries_total act l : forall es s previous,
  holds act es s -> gapfree (es ++ l) -> StronglySorted entry_le l -> (previous = None \/ exists e', e' ∈ es /\ previous = Some (dense_address e')) ->
  exists s', convert_entries previous l s = Ok s'.
Proof.
  induction l as [|e l IH]; intros es s previous H0 G Hs Hp; [by eexists|]. apply StronglySorted_inv in Hs as [Hs He].
  destruct (convert_entry_total _ _ _ _ _ _ H0 G He Hp) as [s1 E1]. simpl. rewrite E1. cbn [rbind].
  apply (IH (es ++ [e])); [by eapply convert_entry_holds|by rewrite <- app_assoc|done|]. right. exists e. split; [|done]. apply elem_of_app. right. left.
Qed.

Lemma from_dense_entries_total act es :
  length act = SimSparse.OWNER_SLOTS -> gapfree es -> exists r s, from_dense_entries act es = Ok (r, s) /\ holds act es s.
Proof.
  intros Ha G. destruct (convert_entries_total act (sort_entries es) [] (set_actives act new) None) as [s E].
  - by apply holds_new.
  - eapply gapfree_perm; [|exact G]. by rewrite sort_entries_perm.
  - apply sort_entries_sorted.
  - by left.
  - assert (Ef : from_dense_entries act es = Ok (mkConversion (length es) ((fun w => owner_marks w s) <$> seq 0 SimSparse.OWNER_SLOTS) true, s)).
    { unfold from_dense_entries. by rewrite E. }
    do 2 eexists. split; [exact Ef|]. by eapply from_dense_entries_holds.
Qed.

(** ** Two registries that hold the same entries *)

Lemma holds_same act es s s' w b : holds act es s -> holds act es s' -> (w < SimSparse.OWNER_SLOTS)%nat ->
  mark (band_of w b s') = mark (band_of w b s) /\ lifecycle <$> slots (band_of w b s') = lifecycle <$> slots (band_of w b s).
Proof.
  intros H1 H2 Hw.
  assert (HL : forall s1 s2, holds act es s1 -> holds act es s2 -> forall k l, life (band_of w b s1) k = Some l -> life (band_of w b s2) k = Some l).
  { intros s1 s2 A1 A2 k l El. destruct (h_live _ _ _ A1 w b k Hw) as [i Ei]; [unfold slots_of; by eapply life_lt|]. rewrite Ei in El. injection El as <-.
    apply (h_entries _ _ _ A2). apply (h_entries _ _ _ A1). by split. }
  assert (E : lifecycle <$> slots (band_of w b s') = lifecycle <$> slots (band_of w b s)).
  { apply list_eq. intros k. rewrite !list_lookup_fmap. fold (life (band_of w b s') k). fold (life (band_of w b s) k).
    apply option_eq. intros l. split; by apply HL. }
  split; [|done]. rewrite (h_marks _ _ _ H1), (h_marks _ _ _ H2) by done. f_equal. f_equal. rewrite <- (length_fmap lifecycle (slots (band_of w b s'))), E. by rewrite length_fmap.
Qed.

(** A registry with no reservation has a snapshot. *)
Lemma holds_snapshot act es s : holds act es s -> exists z, snapshot s = Ok z.
Proof.
  intros H0. unfold snapshot. destruct (try_map_total (fun w => try_map snap_band (bands w)) (owners s)) as [ws ->]; [|by eexists].
  apply Forall_lookup. intros w ow Hw. assert (Hlt : (w < SimSparse.OWNER_SLOTS)%nat) by (rewrite <- (wf_owners _ (h_wf _ _ _ H0)); by eapply lookup_lt_Some).
  apply try_map_total. unfold bands. apply Forall_fmap, Forall_forall. intros b _. unfold compose, snap_band.
  destruct (try_map_total (fun sl => snap_lifecycle (lifecycle sl)) (slots (get_band b ow))) as [sls ->]; [|by eexists].
  apply Forall_lookup. intros k sl Hk. assert (Hb : band_of w b s = get_band b ow) by (unfold band_of; by rewrite (list_lookup_total_correct _ _ _ Hw)).
  destruct (h_live _ _ _ H0 w b k Hlt) as [i Hi]; [unfold slots_of; rewrite Hb; by eapply lookup_lt_Some|].
  unfold life in Hi. rewrite Hb, Hk in Hi. injection Hi as ->. by eexists.
Qed.

Lemma holds_image act es s s' z : holds act es s -> holds act es s' -> snapshot s = Ok z -> snapshot s' = Ok z.
Proof.
  intros H1 H2 (Ha & Hl & Hb)%snapshot_image. apply snapshot_image. split; [by rewrite (h_active _ _ _ H2), <- (h_active _ _ _ H1)|].
  rewrite (wf_owners _ (h_wf _ _ _ H1)) in Hl. split; [by rewrite (wf_owners _ (h_wf _ _ _ H2))|].
  intros w ow How. destruct (Hb w ow How) as [H3 R]. split; [done|]. intros b xs Hx. destruct (R b xs Hx) as [R1 R2].
  destruct (holds_same _ _ _ _ w b H1 H2) as [E1 E2]; [rewrite Hl; by eapply lookup_lt_Some|]. split; [by rewrite E1|by rewrite E2].
Qed.

(** A registry with the snapshot of one that holds the entries holds them too. *)
Lemma holds_of_image act es s s' z : holds act es s -> SimSparseSpec.wf s' -> snapshot s = Ok z -> snapshot s' = Ok z -> holds act es s'.
Proof.
  intros H0 Hwf' E1%snapshot_image E2%snapshot_image. destruct (same_image z s s' (h_wf _ _ _ H0) Hwf' E1 E2) as (Ha & _ & Hb).
  assert (Hlen : forall w b, (w < SimSparse.OWNER_SLOTS)%nat -> slots_of s' w b = slots_of s w b).
  { intros w b Hw. destruct (Hb w b Hw) as [_ Hk]. unfold slots_of. unfold life in Hk. rewrite <- (length_fmap lifecycle (slots (band_of w b s'))), <- (length_fmap lifecycle (slots (band_of w b s))).
    f_equal. apply list_eq. intros k. by rewrite !list_lookup_fmap. }
  split; [done| | | |].
  - intros w b Hw. destruct (Hb w b Hw) as [-> _]. rewrite (h_marks _ _ _ H0) by done. pose proof (Hlen w b Hw) as E. unfold slots_of in E. by rewrite E.
  - intros w b k Hw Hk. rewrite Hlen in Hk by done. destruct (Hb w b Hw) as [_ ->]. by apply (h_live _ _ _ H0).
  - by rewrite Ha, (h_active _ _ _ H0).
  - intros w b k i. rewrite <- (h_entries _ _ _ H0). unfold live_at. split; intros [Hw E]; (split; [done|]); destruct (Hb w b Hw) as [_ Hk]; [by rewrite <- Hk|by rewrite Hk].
Qed.

End convert.

(** ** Lists of dense entries *)

Section listing.
Context (hs gs : list Z).
Implicit Types (r : ObjectRegistry.t) (es : Entries).

Lemma rb_inj b b' : rb b = rb b' <-> b = b'.
Proof. split; [by destruct b, b'|by intros ->]. Qed.
Lemma rb_surj x : exists b, x = rb b.
Proof. destruct x; [by exists Unit|by exists Build|by exists Wall]. Qed.

(** The entries are those of the dense bands, each at its own address. *)
Record listing r es : Prop := {
  l_entries e : e ∈ es <-> exists who b k v i, Dense.at_ r who b k = Some v /\ ident_in hs gs b v = Some i /\ e = mkDense (SimSparseSpec.at_ who (rb b) k) i;
  l_addresses : NoDup (dense_address <$> es);
  l_idents who b k v : Dense.at_ r who b k = Some v -> is_Some (ident_in hs gs b v) }.

Lemma listing_ext r r' es : (forall who b k, Dense.at_ r' who b k = Dense.at_ r who b k) -> listing r es -> listing r' es.
Proof. intros Hat [L1 L2 L3]. split; [|done|]. - intros e. rewrite L1. by setoid_rewrite Hat. - intros who b k v. rewrite Hat. apply L3. Qed.

Lemma listing_new : listing ObjectRegistry.new [].
Proof.
  assert (Hn : forall who b k, Dense.at_ ObjectRegistry.new who b k = None).
  { intros who b k. unfold Dense.at_. destruct (ObjectRegistry.slots ObjectRegistry.new !! who) as [x|] eqn:E; [|done]. apply lookup_replicate in E as [-> _]. by destruct b. }
  split; [|constructor|]; [|by intros who b k v; rewrite Hn]. intros e. rewrite elem_of_nil. split; [done|]. intros (who & b & k & v & i & E & _). by rewrite Hn in E.
Qed.

(** The rows appended to one band. *)
Definition filled owner b (rows : list Z) r r' : Prop :=
  (forall w' b', Dense.len r' w' b' = if decide (w' = owner /\ b' = b) then (Dense.len r w' b' + length rows)%nat else Dense.len r w' b') /\
  (forall w' b' k, Dense.at_ r' w' b' k =
     if decide ((w' = owner /\ b' = b) /\ (Dense.len r owner b <= k)%nat) then rows !! (k - Dense.len r owner b)%nat else Dense.at_ r w' b' k).

Lemma filled_nil owner b r : filled owner b [] r r.
Proof.
  split; [intros w' b'; by case_decide; [rewrite Nat.add_0_r|]|]. intros w' b' k. case_decide as D; [|done]. destruct D as [[-> ->] D]. by rewrite Dense.at_None.
Qed.

Lemma filled_cons owner b v rows r r1 r2 : filled owner b [v] r r1 -> filled owner b rows r1 r2 -> filled owner b (v :: rows) r r2.
Proof.
  intros [L1 A1] [L2 A2]. assert (Hl : Dense.len r1 owner b = S (Dense.len r owner b)) by (rewrite L1, decide_True by done; simpl; lia). split.
  - intros w' b'. rewrite L2, L1. case_decide; simpl; lia.
  - intros w' b' k. rewrite A2, A1, Hl. destruct (decide ((w' = owner /\ b' = b) /\ (Dense.len r owner b <= k)%nat)) as [[D1 D2]|D].
    + destruct (decide (k = Dense.len r owner b)) as [->|Hk].
      * rewrite decide_False by lia. by rewrite Nat.sub_diag.
      * rewrite decide_True by (split; [done|lia]). replace (k - Dense.len r owner b)%nat with (S (k - S (Dense.len r owner b))) by lia. done.
    + by rewrite decide_False by (intros [? ?]; apply D; split; [done|lia]).
Qed.

Lemma insert_one owner b v r : ObjectRegistry.wf r -> (owner < OWNER_SLOTS)%nat ->
  exists r', ObjectRegistry.insert owner b v r = Some (base b + Z.of_nat (Dense.len r owner b), r') /\ ObjectRegistry.wf r' /\ filled owner b [v] r r'.
Proof.
  intros Hwf Ho. destruct (Dense.insert_dense owner b v r Hwf Ho) as (r' & E & Hw & _ & Hl & Ha). exists r'. split; [done|]. split; [done|]. split.
  - intros w' b'. rewrite Hl. case_decide as D; [|done]. destruct D as [-> ->]. simpl. lia.
  - intros w' b' k. rewrite Ha. destruct (decide ((w' = owner /\ b' = b) /\ k = _)) as [[D ->]|D].
    + rewrite decide_True by (split; [done|lia]). by rewrite Nat.sub_diag.
    + case_decide as D2; [|done]. destruct D2 as [[-> ->] D2]. rewrite Dense.at_None by done. symmetry. apply lookup_ge_None_2. simpl.
      destruct (decide (k = Dense.len r owner b)); [exfalso; tauto|lia].
Qed.

Lemma listing_insert owner b v i r r' es :
  listing r es -> filled owner b [v] r r' -> ident_in hs gs b v = Some i ->
  listing r' (es ++ [mkDense (SimSparseSpec.at_ owner (rb b) (Dense.len r owner b)) i]).
Proof.
  intros [L1 L2 L3] [_ A] Hi.
  assert (A' : forall w' b' k v', Dense.at_ r' w' b' k = Some v' <-> Dense.at_ r w' b' k = Some v' \/ (w' = owner /\ b' = b) /\ k = Dense.len r owner b /\ v' = v).
  { intros w' b' k v'. rewrite A. case_decide as D.
    - destruct D as [[-> ->] D]. rewrite (Dense.at_None r owner b k) by done. destruct (decide (k = Dense.len r owner b)) as [->|Hk].
      + rewrite Nat.sub_diag. simpl. split; [intros [= ->]; tauto|]. intros [?|(_ & _ & ->)]; done.
      + rewrite lookup_ge_None_2 by (simpl; lia). split; [done|]. intros [?|(_ & ? & _)]; done.
    - split; [tauto|]. intros [?|(? & -> & ->)]; [done|]. exfalso. apply D. split; [done|lia]. }
  split.
  - intros e. rewrite elem_of_app, list_elem_of_singleton, L1. split.
    + intros [(who & b' & k & v' & i' & E & Ei & Ee)| ->]; [exists who, b', k, v', i'; rewrite A'; tauto|].
      exists owner, b, (Dense.len r owner b), v, i. rewrite A'. tauto.
    + intros (who & b' & k & v' & i' & E & Ei & Ee). apply A' in E as [E|((-> & ->) & -> & ->)]; [left; by exists who, b', k, v', i'|].
      right. rewrite Hi in Ei. by injection Ei as ->.
  - rewrite fmap_app. apply NoDup_app. split; [done|]. split; [|apply NoDup_singleton]. intros a Ha Hx%list_elem_of_singleton. subst a.
    apply list_elem_of_fmap in Ha as (e & Ea & (who & b' & k & v' & i' & E & _ & ->)%L1). simpl in Ea. apply at_inj in Ea as (<- & Eb & <-). apply rb_inj in Eb as <-.
    by rewrite Dense.at_None in E.
  - intros who b' k v' [E|((-> & ->) & -> & ->)]%A'; [by eapply L3|by eexists].
Qed.

(** ** A listing and the registry that mirrors it *)

Lemma holds_mirrored act r es s : ObjectRegistry.wf r -> listing r es -> holds act es s -> mirrored hs gs r s.
Proof.
  intros Hwf L H0. assert (Hlife : forall who b k, (who < OWNER_SLOTS)%nat -> life (SparseObjectBands.band_of who (rb b) s) k = v ← Dense.at_ r who b k; Live <$> ident_in hs gs b v).
  { intros who b k Hw. destruct (Dense.at_ r who b k) as [v|] eqn:E; simpl.
    - destruct (l_idents _ _ L _ _ _ _ E) as [i Hi]. rewrite Hi. simpl. apply (h_entries _ _ _ H0). apply (l_entries _ _ L). by exists who, b, k, v, i.
    - destruct (life _ k) as [l|] eqn:El; [exfalso|done]. destruct (h_live _ _ _ H0 who (rb b) k Hw) as [i Hi]; [unfold slots_of; by eapply life_lt|].
      assert (Hin : mkDense (SimSparseSpec.at_ who (rb b) k) i ∈ es) by (apply (h_entries _ _ _ H0); by split).
      apply (l_entries _ _ L) in Hin as (who' & b' & k' & v & i' & E' & _ & [= E1 E2 E3 _]). apply rb_inj in E2. subst. assert (k = k') as -> by lia. congruence. }
  split; [|done]. intros who b Hw. destruct (Nat.lt_trichotomy (slots_of s who (rb b)) (Dense.len r who b)) as [Hlt|[?|Hlt]]; [exfalso|done|exfalso].
  - destruct (Dense.at_Some _ _ _ _ Hlt) as [v E]. specialize (Hlife who b (slots_of s who (rb b)) Hw). rewrite E in Hlife. simpl in Hlife. destruct (l_idents _ _ L _ _ _ _ E) as [i Hi]. rewrite Hi in Hlife.
    apply life_lt in Hlife. unfold slots_of in Hlife. lia.
  - destruct (h_live _ _ _ H0 who (rb b) _ Hw Hlt) as [i Hi]. rewrite Hlife in Hi by done. rewrite Dense.at_None in Hi by lia. done.
Qed.

Lemma mirrored_holds r es s : SimSparseSpec.wf s -> dense_marks s -> ObjectRegistry.wf r -> mirrored hs gs r s -> listing r es ->
  holds (SparseObjectBands.active s) es s.
Proof.
  intros Hs Hd Hwf [M1 M2] L. split; [done|done| |done|].
  - intros w x k Hw Hk. destruct (rb_surj x) as [b ->]. rewrite M1 in Hk by done. destruct (Dense.at_Some _ _ _ _ Hk) as [v E]. rewrite M2, E by done. simpl.
    destruct (l_idents _ _ L _ _ _ _ E) as [i ->]. by eexists.
  - intros w x k i. destruct (rb_surj x) as [b ->]. rewrite (l_entries _ _ L). unfold live_at. split.
    + intros [Hw E]. rewrite M2 in E by done. destruct (Dense.at_ r w b k) as [v|] eqn:Ev; [|done]. simpl in E. destruct (ident_in hs gs b v) as [i'|] eqn:Ei; [|done].
      simpl in E. injection E as ->. by exists w, b, k, v, i.
    + intros (who & b' & k' & v & i' & E & Ei & [= -> E2 E3 ->]). apply rb_inj in E2. subst. assert (k = k') as -> by lia. pose proof (Dense.at_lt _ _ _ _ _ E) as [_ Hw].
      rewrite (proj1 Hwf) in Hw. split; [done|]. rewrite M2, E by done. simpl. by rewrite Ei.
Qed.

Lemma mirrored_gapfree r es s : SimSparseSpec.wf s -> dense_marks s -> ObjectRegistry.wf r -> mirrored hs gs r s -> listing r es -> gapfree es.
Proof.
  intros Hs Hd Hwf M L. pose proof (mirrored_holds _ _ _ Hs Hd Hwf M L) as H0. destruct M as [M1 _]. split.
  - apply NoDup_fmap_2_strong; [|by eapply NoDup_fmap_1, L]. intros [a1 i1] [a2 i2] E1 E2 Ei. simpl in Ei. subst i2. f_equal.
    apply (l_entries _ _ L) in E1 as (w1 & b1 & k1 & v1 & j1 & A1 & I1 & [= -> ->]), E2 as (w2 & b2 & k2 & v2 & j2 & A2 & I2 & [= -> ->]).
    destruct (live_at_inj s j2 w1 (rb b1) k1 w2 (rb b2) k2 Hs) as (-> & -> & ->); [..|done]; apply (h_entries _ _ _ H0), (l_entries _ _ L);
      [by exists w1, b1, k1, v1, j2|by exists w2, b2, k2, v2, j2].
  - apply L.
  - intros e (who & b & k & v & i & E & _ & ->)%(l_entries _ _ L). exists who, (rb b), k. pose proof (Dense.at_lt _ _ _ _ _ E) as [Hk Hw]. rewrite (proj1 Hwf) in Hw.
    split; [done|]. split; [done|]. pose proof (wf_band _ Hs who (rb b) Hw) as (_ & _ & Hb). pose proof (M1 who b Hw) as Hl. unfold slots_of in Hl. rewrite Hl in Hb. lia.
  - intros w x k k' (e & Ea & (who & b & k0 & v & i & E & _ & ->)%(l_entries _ _ L))%list_elem_of_fmap Hk. simpl in Ea. apply at_inj in Ea as (-> & -> & ->).
    pose proof (Dense.at_lt _ _ _ _ _ E) as [Hlt _]. destruct (Dense.at_Some r who b k') as [v' E']; [lia|]. destruct (l_idents _ _ L _ _ _ _ E') as [i' Hi'].
    apply list_elem_of_fmap. exists (mkDense (SimSparseSpec.at_ who (rb b) k') i'). split; [done|]. apply (l_entries _ _ L). by exists who, b, k', v', i'.
Qed.

End listing.

(** ** The entries of a world *)

Section derive.
Context (w : t) (H : world_wf w).
Abbreviation hs := (handle_of_row w).
Abbreviation gs := (generations w).

Definition entry_in (P : nat -> Band -> Prop) (e : DenseRegistryEntry WorldObjectIdentity) : Prop :=
  exists who b k v i, P who b /\ Dense.at_ (objects w) who b k = Some v /\ ident_in hs gs b v = Some i /\ e = mkDense (SimSparseSpec.at_ who (rb b) k) i.

(** The entries of the bands in [P]. *)
Definition covers (P : nat -> Band -> Prop) (es : Entries) : Prop := (forall e, e ∈ es <-> entry_in P e) /\ NoDup (dense_address <$> es).

Lemma covers_app P Q R es es' :
  covers P es -> covers Q es' -> (forall who b, P who b -> Q who b -> False) -> (forall who b, R who b <-> P who b \/ Q who b) -> covers R (es ++ es').
Proof.
  intros [H1 N1] [H2 N2] HPQ HR. split.
  - intros e. rewrite elem_of_app, H1, H2. unfold entry_in. split.
    + intros [(who & b & k & v & i & Hp & ?)|(who & b & k & v & i & Hp & ?)]; exists who, b, k, v, i; rewrite HR; tauto.
    + intros (who & b & k & v & i & Hr & ?). apply HR in Hr as [Hp|Hp]; [left|right]; by exists who, b, k, v, i.
  - rewrite fmap_app. apply NoDup_app. split; [done|]. split; [|done]. intros a (e & -> & (who & b & k & v & i & Hp & _ & _ & ->)%H1)%list_elem_of_fmap.
    intros (e' & Ea & (who' & b' & k' & v' & i' & Hq & _ & _ & ->)%H2)%list_elem_of_fmap. simpl in Ea. apply at_inj in Ea as (<- & Eb & _). apply rb_inj in Eb as <-.
    by apply (HPQ who b).
Qed.

Lemma dense_identity_total owner b k v : Dense.at_ (objects w) owner b k = Some v ->
  exists i, dense_identity_of w owner b (base b + Z.of_nat k) v = good i /\ ident_in hs gs b v = Some i /\ i32 (base b + Z.of_nat k) = base b + Z.of_nat k.
Proof.
  intros E. pose proof (Dense.at_lt _ _ _ _ _ E) as [Hk Hw]. rewrite (proj1 (w_objects _ H)) in Hw.
  assert (Hi : i32 (base b + Z.of_nat k) = base b + Z.of_nat k).
  { pose proof (band_short w owner b H Hw) as B. apply wrap_s_id; [lia|]. ranges. destruct b; simpl in *;
      cbv [RetailBand.base RetailBand.limit RetailBand.UNIT_BAND_BASE RetailBand.UNIT_BAND_LIMIT RetailBand.BUILD_BAND_BASE RetailBand.BUILD_BAND_LIMIT RetailBand.WALL_BAND_BASE RetailBand.WALL_BAND_LIMIT BUILD_BAND_BASE WALL_BAND_BASE] in *; lia. }
  destruct b; [|by eexists..]. destruct (proj1 (w_registered _ H) _ _ _ E) as (row & -> & Hr & Hwho & Ho). pose proof (live_le _ H).
  destruct (handle_id w row H) as (i & Eh & _); [lia|]. destruct (gen_Some w row i H Eh) as [g Eg]. exists (IdUnit i g). simpl. rewrite Nat2Z.id. unfold ident. rewrite Eh. simpl.
  rewrite Eg. simpl. split; [|done]. rewrite decide_False by lia. unfold UnitCols.get_u8. rewrite !UnitCols.get_live by (apply H || apply who_field || apply o_field || by rewrite (w_len _ H)).
  cbn [at_index chk_bind fmap option_fmap option_map]. rewrite decide_False by (intros D; by apply D). rewrite decide_False; [done|]. intros D. apply D. unfold o_of in Ho. rewrite Ho. symmetry. exact Hi.
Qed.

Lemma band_identities_total owner b rows : forall off, (forall j, rows !! j = Dense.at_ (objects w) owner b (off + j)) ->
  exists es, band_identities w owner b (rb b) off rows = good es /\
    (forall e, e ∈ es <-> exists k v i, (off <= k)%nat /\ Dense.at_ (objects w) owner b k = Some v /\ ident_in hs gs b v = Some i /\ e = mkDense (SimSparseSpec.at_ owner (rb b) k) i) /\
    dense_address <$> es = SimSparseSpec.at_ owner (rb b) <$> seq off (length rows).
Proof.
  induction rows as [|v rows IH]; intros off Hrows.
  - exists []. split; [done|]. split; [|done]. intros e. rewrite elem_of_nil. split; [done|]. intros (k & v & i & Hk & E & _).
    specialize (Hrows (k - off)%nat). replace (off + (k - off))%nat with k in Hrows by lia. by rewrite E in Hrows.
  - assert (E0 : Dense.at_ (objects w) owner b off = Some v) by (specialize (Hrows 0%nat); by rewrite Nat.add_0_r in Hrows).
    destruct (dense_identity_total _ _ _ _ E0) as (i & Ei & Hi & Hw). destruct (IH (S off)) as (es & Ees & Hes & Ha); [intros j; specialize (Hrows (S j)); by rewrite Nat.add_succ_r in Hrows|].
    exists (mkDense (SimSparseSpec.at_ owner (rb b) off) i :: es). split; [|split].
    + simpl. rewrite Ei. cbn [chk_bind good]. rewrite Ees. cbn [chk_bind good]. rewrite Hw. unfold SimSparseSpec.at_. by destruct b.
    + intros e. rewrite elem_of_cons, Hes. split.
      * intros [->|(k & v' & i' & Hk & ?)]; [by exists off, v, i|]. exists k, v', i'. split; [lia|done].
      * intros (k & v' & i' & Hk & E & Ei' & ->). destruct (decide (k = off)) as [->|Hn]; [left; by simplify_eq|right]. exists k, v', i'. split; [lia|done].
    + rewrite !fmap_cons. cbn [seq length]. by rewrite fmap_cons, Ha.
Qed.

Lemma dense_band_at owner b : (owner < OWNER_SLOTS)%nat -> exists rows, dense_band (objects w) owner b = good rows /\ forall j, rows !! j = Dense.at_ (objects w) owner b j.
Proof.
  intros Ho. destruct (Dense.slot_of (objects w) owner (w_objects _ H) Ho) as [sl Hsl]. exists (band sl b). unfold dense_band, ObjectRegistry.slot. rewrite Hsl. split; [done|].
  intros j. unfold Dense.at_. by rewrite Hsl.
Qed.

Lemma owner_identities_total owner bs : (owner < OWNER_SLOTS)%nat -> NoDup bs ->
  exists es, owner_identities w owner ((fun b => (b, rb b)) <$> bs) = good es /\ covers (fun who b => who = owner /\ b ∈ bs) es.
Proof.
  intros Ho. induction bs as [|b bs IH]; intros Hnd.
  - exists []. split; [done|]. split; [|constructor]. intros e. rewrite elem_of_nil. split; [done|]. by intros (who & b & k & v & i & [_ []%elem_of_nil] & _).
  - apply NoDup_cons in Hnd as [Hb Hnd]. destruct (IH Hnd) as (es' & E' & C'). destruct (dense_band_at owner b Ho) as (rows & Er & Hrows).
    destruct (band_identities_total owner b rows 0 Hrows) as (es & Ees & Hes & Ha). exists (es ++ es'). split.
    + rewrite fmap_cons. cbn [owner_identities]. rewrite Er. cbn [chk_bind good]. rewrite Ees. cbn [chk_bind good]. by rewrite E'.
    + apply (covers_app (fun who b' => who = owner /\ b' = b) (fun who b => who = owner /\ b ∈ bs)); [|done| |].
      * split; [|rewrite Ha; apply NoDup_fmap_2_strong; [intros x y _ _ E%at_inj; by destruct E as (_ & _ & ?)|apply NoDup_seq]].
        intros e. rewrite Hes. unfold entry_in. split.
        -- intros (k & v & i & _ & ?). by exists owner, b, k, v, i.
        -- intros (who & b' & k & v & i & [-> ->] & ?). exists k, v, i. split; [lia|done].
      * intros who b' [_ ->] [_ ?]. done.
      * intros who b'. rewrite elem_of_cons. tauto.
Qed.

Lemma all_identities_total owners : Forall (fun o => (o < OWNER_SLOTS)%nat) owners -> NoDup owners ->
  exists es, all_identities w owners = good es /\ covers (fun who _ => who ∈ owners) es.
Proof.
  induction owners as [|o owners IH]; intros Ho Hnd.
  - exists []. split; [done|]. split; [|constructor]. intros e. rewrite elem_of_nil. split; [done|]. by intros (who & b & k & v & i & []%elem_of_nil & _).
  - apply Forall_cons in Ho as [Ho Hos]. apply NoDup_cons in Hnd as [Hn Hnd]. destruct (IH Hos Hnd) as (es' & E' & C').
    destruct (owner_identities_total o [Unit; Build; Wall] Ho) as (es & E & C); [by apply (bool_decide_unpack _)|]. exists (es ++ es'). split.
    + cbn [all_identities]. change [(Unit, RetailBand.Unit); (Build, RetailBand.Build); (Wall, RetailBand.Wall)] with ((fun b => (b, rb b)) <$> [Unit; Build; Wall]).
      rewrite E. cbn [chk_bind good]. by rewrite E'.
    + eapply covers_app; [exact C|exact C'| |]; simpl.
      * intros who b [-> _] ?. done.
      * intros who b. rewrite elem_of_cons. assert (b ∈ [Unit; Build; Wall]) by (rewrite !elem_of_cons; destruct b; tauto). tauto.
Qed.

Lemma dense_listing : exists es, all_identities w (seq 0 OWNER_SLOTS) = good es /\ listing hs gs (objects w) es.
Proof.
  destruct (all_identities_total (seq 0 OWNER_SLOTS)) as (es & E & C1 & C2); [apply Forall_seq; lia|apply NoDup_seq|]. exists es. split; [done|]. split; [|done|].
  - intros e. rewrite C1. unfold entry_in. split; intros (who & b & k & v & i & Hx); exists who, b, k, v, i; [tauto|]. destruct Hx as (E1 & ?). split; [|done].
    pose proof (Dense.at_lt _ _ _ _ _ E1) as [_ Hw]. rewrite (proj1 (w_objects _ H)) in Hw. apply elem_of_seq. unfold SimObjects.OWNER_SLOTS, OWNER_SLOTS in *. lia.
  - intros who b k v E1. destruct (dense_identity_total _ _ _ _ E1) as (i & _ & Ei & _). by exists i.
Qed.

End derive.

Lemma actives_listed r : ObjectRegistry.wf r -> (fun o => ObjectRegistry.is_active o r) <$> seq 0 OWNER_SLOTS = ObjectRegistry.active r.
Proof.
  intros [_ Ha]. apply list_eq. intros k. rewrite list_lookup_fmap. destruct (decide (k < OWNER_SLOTS)%nat) as [Hk|Hk].
  - rewrite lookup_seq_lt by done. simpl. unfold ObjectRegistry.is_active. destruct (lookup_lt_is_Some_2 (ObjectRegistry.active r) k) as [x ->]; [by rewrite Ha|done].
  - rewrite (lookup_ge_None_2 (seq _ _)) by (rewrite length_seq; lia). symmetry. apply lookup_ge_None_2. unfold SimObjects.OWNER_SLOTS, OWNER_SLOTS in *. lia.
Qed.

(** ** Computations that succeed *)

Lemma chk_bind_good {A B} (m : chk A) (k : A -> chk B) b : chk_bind m k = good b <-> exists a, m = good a /\ k a = good b.
Proof. unfold good. destruct m as [[a|e]|]; simpl; split; try done; [by exists a|intros (a' & [= ->] & ?); done|by intros (? & ? & _)..]. Qed.
Lemma at_index_good {A} (o : option A) a : at_index o = good a <-> o = Some a.
Proof. unfold at_index, good. destruct o; simpl; split; congruence. Qed.
Lemma mismatch_good {E A} (r : result E A) a : mismatch r = good a <-> r = Ok a.
Proof. destruct r; simpl; unfold good, refuse; split; congruence. Qed.

(** Open the next step of a computation that succeeded. *)
Ltac cinv H :=
  lazymatch type of H with
  | chk_bind _ _ = good _ => let a := fresh "c" in let Ha := fresh "Hc" in apply chk_bind_good in H as (a & Ha & H); first [apply (proj1 (at_index_good _ _)) in Ha|apply (proj1 (mismatch_good _ _)) in Ha|idtac]
  end.

(** ** The checks *)

Lemma check_length_good name len n : check_length name len n = good tt <-> len = n.
Proof. unfold check_length. case_decide; split; (done || lia). Qed.

Lemma check_lengths_good s :
  check_lengths s = good tt <->
  (s_live s <= s_capacity s <= MAX_UNITS)%nat /\ UnitCols.cap (s_units s) = s_capacity s /\ UnitCols.len (s_units s) = s_live s /\
  length (s_orders s) = s_live s /\ length (s_types s) = s_live s /\ length (s_step_x s) = s_live s /\ length (s_step_y s) = s_live s /\
  length (s_handles s) = s_capacity s /\ length (s_gens s) = s_capacity s.
Proof.
  unfold check_lengths. destruct (decide (MAX_UNITS < s_capacity s \/ s_capacity s < s_live s)%nat); [split; [done|lia]|].
  destruct (decide (UnitCols.cap _ <> _ \/ _)); [split; [done|lia]|].
  assert (T : forall m (k : unit -> chk unit), chk_bind m k = good tt <-> m = good tt /\ k tt = good tt).
  { intros m k. rewrite chk_bind_good. split; [by intros ([] & ? & ?)|]. intros [? ?]. by exists tt. }
  rewrite !T, !check_length_good. split; [intros; split_and!; (lia || tauto)|tauto].
Qed.

Lemma check_handles_good cap ids : forall seen, length seen = cap -> Forall (fun i => 0 <= i) ids ->
  check_handles cap seen ids = good tt <-> NoDup ids /\ Forall (fun i => i < Z.of_nat cap /\ seen !! Z.to_nat i = Some false) ids.
Proof.
  induction ids as [|i ids IH]; intros seen Hl Hp; [simpl; split; [split; constructor|done]|]. apply Forall_cons in Hp as [Hi Hp]. simpl.
  rewrite NoDup_cons, Forall_cons. case_decide as D; [split; [done|lia]|].
  destruct (lookup_lt_is_Some_2 seen (Z.to_nat i)) as [[] E]; [lia|rewrite E..]; simpl.
  - split; [done|]. intros [_ [[_ ?] _]]. done.
  - rewrite IH by (by rewrite ?length_insert). rewrite !Forall_forall. split.
    + intros [Hn Hf]. split; [split; [|done]|split; [split; [lia|done]|]].
      * intros Hin. destruct (Hf i Hin) as [_ E2]. by rewrite list_lookup_insert_eq in E2 by lia.
      * intros j Hj. destruct (Hf j Hj) as [? E2]. split; [done|]. rewrite list_lookup_insert_ne in E2; [done|]. intros E3. rewrite <- E3, list_lookup_insert_eq in E2 by lia. done.
    + intros [[Hn Hnd] [_ Hf]]. split; [done|]. intros j Hj. destruct (Hf j Hj). split; [done|]. rewrite list_lookup_insert_ne; [done|].
      rewrite Forall_forall in Hp. specialize (Hp j Hj). simpl in Hp. intros E3. apply Hn. replace i with j by lia. done.
Qed.

Definition target_ok (cap : nat) (q : Order) : Prop := forall h, target_handle q = Some h -> id h < Z.of_nat cap /\ 0 <= target_who q /\ 0 <= target_o q.

Lemma check_orders_good cap row l : forall n, check_orders cap row n l = good tt <-> Forall (target_ok cap) l.
Proof.
  induction l as [|q l IH]; intros n; simpl; [by split|]. rewrite Forall_cons. unfold target_ok at 1. destruct (target_handle q) as [h|].
  - case_match eqn:E.
    + split; [done|]. intros [Hq _]. specialize (Hq h eq_refl). lia.
    + rewrite IH. split; [|tauto]. intros ?. split; [|done]. intros h' [= <-]. bool_hyps. lia.
  - rewrite IH. split; [|tauto]. by split.
Qed.
Lemma check_targets_good cap ls : forall row, check_targets cap row ls = good tt <-> Forall (Forall (target_ok cap)) ls.
Proof.
  induction ls as [|l ls IH]; intros row; simpl; [by split|]. rewrite Forall_cons, chk_bind_good, <- IH, <- check_orders_good.
  split; [by intros ([] & ? & ?)|]. intros [? ?]. by exists tt.
Qed.

(** ** Rows placed in their owners' tables *)

Abbreviation Tables := (list (list (option Z))).
Definition cell_at (ts : Tables) (who k : nat) : option (option Z) := e ← ts !! who; e !! k.

Record placed (u : UnitCols.t) (n : nat) (ts : Tables) : Prop := {
  p_owners : length ts = OWNER_SLOTS;
  p_cells who k v : cell_at ts who k = Some (Some v) <-> exists row, v = Z.of_nat row /\ (row < n)%nat /\ who_of u row = Z.of_nat who /\ o_of u row = Z.of_nat k;
  p_last who e : ts !! who = Some e -> e <> [] -> exists v, e !! (length e - 1)%nat = Some (Some v);
  p_range row : (row < n)%nat -> exists who k, who_of u row = Z.of_nat who /\ o_of u row = Z.of_nat k /\ (who < OWNER_SLOTS)%nat }.

Lemma placed_0 u : placed u 0 (replicate OWNER_SLOTS []).
Proof.
  split; [by rewrite length_replicate| | |lia].
  - intros who k v. split; [|intros (row & _ & ? & _); lia]. unfold cell_at. intros E. apply bind_Some in E as (e & [-> _]%lookup_replicate & E). done.
  - intros who e [-> _]%lookup_replicate. done.
Qed.

(** The table with room for an index. *)
Definition widened (k : nat) (e : list (option Z)) : list (option Z) := if decide (length e <= k)%nat then e ++ replicate (S k - length e) None else e.

Lemma widened_length k e : (k < length (widened k e))%nat.
Proof. unfold widened. case_decide; [rewrite length_app, length_replicate|]; lia. Qed.
Lemma widened_Some k e j v : widened k e !! j = Some (Some v) <-> e !! j = Some (Some v).
Proof.
  unfold widened. case_decide; [|done]. rewrite lookup_app. destruct (e !! j) as [x|] eqn:E; [done|]. split; [|done]. intros [E2 _]%lookup_replicate. done.
Qed.
Lemma widened_last k e : k <> (length (widened k e) - 1)%nat -> widened k e = e.
Proof. unfold widened. case_decide; [|done]. rewrite length_app, length_replicate. lia. Qed.

Lemma place_row_good u live ts row ts' who o :
  (row < UnitCols.len u)%nat -> UnitCols.wf u -> who_of u row = who -> o_of u row = o ->
  place_row u live ts row = good ts' <->
  exists e, (Z.to_nat who < OWNER_SLOTS)%nat /\ 0 <= o < Z.of_nat live /\ ts !! Z.to_nat who = Some e /\
    (forall v, e !! Z.to_nat o <> Some (Some v)) /\ ts' = <[Z.to_nat who := <[Z.to_nat o := Some (Z.of_nat row)]> (widened (Z.to_nat o) e)]> ts.
Proof.
  intros Hr Hu Hw Ho. unfold place_row, UnitCols.get_u8. rewrite !UnitCols.get_live by (done || apply who_field || apply o_field).
  cbn [fmap option_fmap option_map at_index chk_bind]. fold (who_of u row). fold (o_of u row). rewrite Hw, Ho.
  case_decide as D1; [split; [done|]; intros (e & ? & _); lia|]. destruct (o <? 0) eqn:D2; [split; [done|]; intros (e & ? & ? & _); lia|]. bool_hyps.
  destruct (ts !! Z.to_nat who) as [e|] eqn:Ee; [|split; [done|]; by intros (e & _ & _ & ? & _)]. cbn [fmap option_fmap option_map at_index chk_bind].
  case_decide as D3; [split; [done|]; intros (e' & _ & ? & _); lia|]. fold (widened (Z.to_nat o) e).
  destruct (lookup_lt_is_Some_2 (widened (Z.to_nat o) e) (Z.to_nat o)) as [x Ex]; [apply widened_length|]. rewrite Ex. cbn [fmap option_fmap option_map at_index chk_bind].
  destruct x as [v|].
  - split; [done|]. intros (e' & _ & _ & [= <-] & Hn & _). apply widened_Some in Ex. by apply Hn in Ex.
  - split.
    + intros [= <-]. exists e. split; [lia|]. split; [lia|]. split; [done|]. split; [|done]. intros v Hv. apply (widened_Some (Z.to_nat o)) in Hv. congruence.
    + intros (e' & _ & _ & [= <-] & _ & ->). done.
Qed.

Lemma who_of_nonneg u row : 0 <= who_of u row.
Proof. unfold who_of, wrap_u. pose proof (Z.mod_pos_bound (UnitCols.cell f_who row u) (2 ^ 8)). lia. Qed.

Lemma place_row_placed u live n ts ts' :
  (n < UnitCols.len u)%nat -> UnitCols.wf u -> placed u n ts -> place_row u live ts n = good ts' -> placed u (S n) ts'.
Proof.
  intros Hn Hu P E. pose proof (who_of_nonneg u n) as Hw0. apply (place_row_good _ _ _ _ _ _ _ Hn Hu eq_refl eq_refl) in E as (e & Hw & Ho & Ee & Hfree & ->).
  set (w0 := Z.to_nat (who_of u n)) in *. set (k0 := Z.to_nat (o_of u n)) in *. pose proof (widened_length k0 e) as Hlen.
  assert (Hcell : forall who k v, cell_at (<[w0 := <[k0 := Some (Z.of_nat n)]> (widened k0 e)]> ts) who k = Some (Some v) <->
    cell_at ts who k = Some (Some v) \/ who = w0 /\ k = k0 /\ v = Z.of_nat n).
  { intros who k v. unfold cell_at. destruct (decide (who = w0)) as [->|Hne].
    - rewrite list_lookup_insert_eq by (rewrite (p_owners _ _ _ P); done). rewrite Ee. simpl. destruct (decide (k = k0)) as [->|Hk].
      + rewrite list_lookup_insert_eq by done. split; [intros [= <-]; tauto|]. intros [?|(_ & _ & ->)]; [exfalso; by eapply Hfree|done].
      + rewrite list_lookup_insert_ne by done. rewrite widened_Some. split; [tauto|]. by intros [?|(_ & ? & _)].
    - rewrite list_lookup_insert_ne by done. split; [tauto|]. by intros [?|(? & _)]. }
  split.
  - rewrite length_insert. apply P.
  - intros who k v. rewrite Hcell, (p_cells _ _ _ P). split.
    + intros [(row & ? & ? & ?)|(-> & -> & ->)]; [exists row; split; [done|]; split; [lia|done]|]. exists n. split; [done|]. split; [lia|]. split; lia.
    + intros (row & -> & Hr & E1 & E2). destruct (decide (row = n)) as [->|]; [right; split; [lia|]; split; [lia|done]|left]. exists row. split; [done|]. split; [lia|done].
  - intros who e' He' Hne. destruct (decide (who = w0)) as [->|Hw1].
    + rewrite list_lookup_insert_eq in He' by (rewrite (p_owners _ _ _ P); done). injection He' as <-. rewrite length_insert.
      destruct (decide (k0 = length (widened k0 e) - 1)%nat) as [<-|Hk]; [rewrite list_lookup_insert_eq by done; by eexists|].
      rewrite list_lookup_insert_ne by done. rewrite (widened_last _ _ Hk). apply (p_last _ _ _ P w0); [done|]. intros ->. rewrite (widened_last _ _ Hk) in Hlen. simpl in Hlen. lia.
    + rewrite list_lookup_insert_ne in He' by done. by eapply (p_last _ _ _ P).
  - intros row Hr. destruct (decide (row = n)) as [->|]; [|apply (p_range _ _ _ P); lia]. exists w0, k0. split_and!; [lia|lia|done].
Qed.

Lemma place_rows_placed u live m : forall n ts ts',
  (n + m <= UnitCols.len u)%nat -> UnitCols.wf u -> placed u n ts -> place_rows u live (seq n m) ts = good ts' -> placed u (n + m) ts'.
Proof.
  induction m as [|m IH]; intros n ts ts' Hn Hu P E; simpl in E; [injection E as <-; by rewrite Nat.add_0_r|].
  cinv E. rewrite <- Nat.add_succ_comm. eapply IH; [lia|done| |exact E]. eapply place_row_placed; [lia|done|done|done].
Qed.

(** Rows at distinct addresses below the population are all placed. *)
Lemma place_rows_total u live m : forall n ts,
  (n + m <= UnitCols.len u)%nat -> UnitCols.wf u -> placed u n ts ->
  (forall row, (row < n + m)%nat -> exists who k, who_of u row = Z.of_nat who /\ o_of u row = Z.of_nat k /\ (who < OWNER_SLOTS)%nat /\ (k < live)%nat) ->
  (forall row row', (row < n + m)%nat -> (row' < n + m)%nat -> who_of u row = who_of u row' -> o_of u row = o_of u row' -> row = row') ->
  exists ts', place_rows u live (seq n m) ts = good ts'.
Proof.
  induction m as [|m IH]; intros n ts Hn Hu P Hr Hinj; [by eexists|]. destruct (Hr n) as (who & k & E1 & E2 & Hw & Hk); [lia|].
  destruct (lookup_lt_is_Some_2 ts who) as [e Ee]; [by rewrite (p_owners _ _ _ P)|].
  assert (Ep : place_row u live ts n = good (<[who := <[k := Some (Z.of_nat n)]> (widened k e)]> ts)).
  { apply (place_row_good u live ts n _ (Z.of_nat who) (Z.of_nat k)); [lia|done|done|done|]. exists e. rewrite !Nat2Z.id. split_and!; [done|lia|lia|done| |done].
    intros v Hv. assert (Hc : cell_at ts who k = Some (Some v)) by (unfold cell_at; by rewrite Ee). apply (p_cells _ _ _ P) in Hc as (row & _ & Hlt & A & B).
    assert (row = n) by (apply Hinj; (lia || congruence)). lia. }
  cbn [seq place_rows]. rewrite Ep. cbn [chk_bind good]. apply IH; [lia|done| |intros; apply Hr; lia|intros; apply Hinj; (lia || done)].
  eapply place_row_placed; [lia|done|done|done].
Qed.

(** ** Inserting the tables *)

(** The rows of a full table. *)
Definition unwrapped (e : list (option Z)) : list Z := omap Datatypes.id e.

Section insert.
Context (hs gs : list Z).

(** Bands [owner], [owner + 1], ... of kind [b] hold the rows of [rowss]. *)
Definition laid (b : Band) (owner : nat) (rowss : list (list Z)) (r r' : ObjectRegistry.t) : Prop :=
  forall w' b' k, Dense.at_ r' w' b' k = if decide (b' = b /\ (owner <= w')%nat) then rows ← rowss !! (w' - owner)%nat; rows !! k else Dense.at_ r w' b' k.

Lemma laid_nil b owner r : (forall w', (owner <= w')%nat -> Dense.len r w' b = 0%nat) -> laid b owner [] r r.
Proof. intros He w' b' k. case_decide as D; [|done]. destruct D as [-> D]. rewrite Dense.at_None; [done|]. rewrite He by done. lia. Qed.

Lemma laid_cons b owner rows rowss r r1 r2 :
  Dense.len r owner b = 0%nat -> filled owner b rows r r1 -> laid b (S owner) rowss r1 r2 -> laid b owner (rows :: rowss) r r2.
Proof.
  intros Hl [_ A] L w' b' k. rewrite L, A, Hl. destruct (decide (b' = b /\ (owner <= w')%nat)) as [[-> D]|D].
  - destruct (decide (w' = owner)) as [->|Hw].
    + rewrite decide_False by lia. rewrite decide_True by (split; [done|lia]). by rewrite Nat.sub_diag, Nat.sub_0_r.
    + rewrite decide_True by (split; [done|lia]). by replace (w' - owner)%nat with (S (w' - S owner)) by lia.
  - rewrite decide_False by (intros [? ?]; apply D; split; [done|lia]). rewrite decide_False by (intros [[-> ?] ?]; apply D; split; [done|lia]). done.
Qed.

Lemma filled_len owner b rows r r' : filled owner b rows r r' -> Dense.len r' owner b = (Dense.len r owner b + length rows)%nat.
Proof. intros [L _]. by rewrite L, decide_True. Qed.

(** What an insertion leaves. *)
Definition inserted (r : ObjectRegistry.t) (es : Entries) : Prop := ObjectRegistry.wf r /\ listing hs gs r es.

Lemma insert_units_sound owner rows : forall index r es r' es',
  (owner < OWNER_SLOTS)%nat -> inserted r es -> insert_units hs gs owner index rows r es = good (r', es') -> inserted r' es' /\ filled owner Unit rows r r'.
Proof.
  induction rows as [|v rows IH]; intros index r es r' es' Ho [Hwf L] E; cbn [insert_units] in E; [injection E as <- <-; split; [done|apply filled_nil]|].
  cinv E. destruct c as [o r1]. destruct (insert_one owner Unit v r Hwf Ho) as (r2 & E2 & Hw2 & F). rewrite E2 in Hc. simplify_eq. case_decide as D; [done|].
  cinv E. cinv E. assert (Hi : ident_in hs gs Unit v = Some (IdUnit c c0)) by (simpl; unfold ident; rewrite Hc; simpl; by rewrite Hc0).
  change (base Unit) with 0 in D. rewrite Z.add_0_l in D. assert (index = Dense.len r owner Unit) as -> by lia.
  apply IH in E as [I2 F2]; [|done|split; [done|by apply (listing_insert hs gs owner Unit v (IdUnit c c0) r)]]. split; [done|]. by eapply filled_cons.
Qed.

Lemma insert_units_total owner rows : forall r es,
  (owner < OWNER_SLOTS)%nat -> ObjectRegistry.wf r -> Forall (fun v => is_Some (ident_in hs gs Unit v)) rows ->
  exists r' es', insert_units hs gs owner (Dense.len r owner Unit) rows r es = good (r', es').
Proof.
  induction rows as [|v rows IH]; intros r es Ho Hwf Hi; [by do 2 eexists|]. apply Forall_cons in Hi as [[i Hi] His].
  destruct (insert_one owner Unit v r Hwf Ho) as (r1 & E1 & Hw1 & F). cbn [insert_units]. rewrite E1. cbn [at_index fmap option_fmap option_map chk_bind].
  rewrite decide_False by (intros D; apply D; done). simpl in Hi. unfold ident in Hi. destruct (hs !! Z.to_nat v) as [h|]; [|done]. simpl in Hi. cbn [at_index fmap option_fmap option_map chk_bind].
  destruct (gs !! Z.to_nat h) as [g|]; [|done]. cbn [at_index fmap option_fmap option_map chk_bind].
  assert (El : S (Dense.len r owner Unit) = Dense.len r1 owner Unit) by (rewrite (filled_len _ _ _ _ _ F); simpl; lia). rewrite El. by apply IH.
Qed.

Lemma insert_builds_sound count owner rows : forall index seen r es seen' r' es',
  (owner < OWNER_SLOTS)%nat -> inserted r es -> insert_builds count owner index rows seen r es = good (seen', r', es') -> inserted r' es' /\ filled owner Build rows r r'.
Proof.
  induction rows as [|v rows IH]; intros index seen r es seen' r' es' Ho [Hwf L] E; cbn [insert_builds] in E; [injection E as <- <- <-; split; [done|apply filled_nil]|].
  case_decide; [done|]. cinv E. destruct c; [done|]. cinv E. destruct c as [o r1]. destruct (insert_one owner Build v r Hwf Ho) as (r2 & E2 & Hw2 & F). rewrite E2 in Hc0. simplify_eq.
  case_decide as D; [done|]. change (base Build) with BUILD_BAND_BASE in D.
  assert (index = Dense.len r owner Build) as -> by lia.
  apply IH in E as [I2 F2]; [|done|split; [done|by apply (listing_insert hs gs owner Build v (BuildRow v) r)]]. split; [done|]. by eapply filled_cons.
Qed.

Lemma insert_builds_total count owner rows : forall seen r es,
  (owner < OWNER_SLOTS)%nat -> ObjectRegistry.wf r -> length seen = count -> NoDup rows -> Forall (fun v => 0 <= v < Z.of_nat count /\ seen !! Z.to_nat v = Some false) rows ->
  exists seen' r' es', insert_builds count owner (Dense.len r owner Build) rows seen r es = good (seen', r', es') /\ length seen' = count /\
    forall v, 0 <= v -> v ∉ rows -> seen' !! Z.to_nat v = seen !! Z.to_nat v.
Proof.
  induction rows as [|v rows IH]; intros seen r es Ho Hwf Hl Hnd Hf; [by do 3 eexists|]. apply Forall_cons in Hf as [[Hv Hs] Hf]. apply NoDup_cons in Hnd as [Hnv Hnd].
  destruct (insert_one owner Build v r Hwf Ho) as (r1 & E1 & Hw1 & F). cbn [insert_builds]. rewrite decide_False by lia. rewrite Hs. cbn [at_index fmap option_fmap option_map chk_bind].
  rewrite E1. cbn [at_index fmap option_fmap option_map chk_bind]. rewrite decide_False by (intros D; apply D; done).
  assert (El : S (Dense.len r owner Build) = Dense.len r1 owner Build) by (rewrite (filled_len _ _ _ _ _ F); simpl; lia). rewrite El.
  edestruct (IH (<[Z.to_nat v := true]> seen) r1) as (seen' & r' & es' & E & Hl' & Hkeep); [done|done|by rewrite length_insert|done| |].
  { rewrite Forall_forall in Hf |- *. intros x Hx. destruct (Hf x Hx) as [Hx1 Hx2]. split; [done|]. rewrite list_lookup_insert_ne; [done|]. intros E. apply Hnv. replace v with x by lia. done. }
  exists seen', r', es'. split; [exact E|]. split; [done|]. intros x Hx [Hne Hni]%not_elem_of_cons. rewrite Hkeep by done. rewrite list_lookup_insert_ne; [done|]. intros E2. lia.
Qed.

Lemma len_ext r r' w' b : (forall k, Dense.at_ r' w' b k = Dense.at_ r w' b k) -> Dense.len r' w' b = Dense.len r w' b.
Proof.
  intros Hat. destruct (Nat.lt_trichotomy (Dense.len r' w' b) (Dense.len r w' b)) as [Hlt|[?|Hlt]]; [|done|]; destruct (Dense.at_Some _ _ _ _ Hlt) as [v E].
  - by rewrite <- Hat, Dense.at_None in E by lia.
  - by rewrite Hat, Dense.at_None in E by lia.
Qed.
Lemma filled_len_ne owner b rows r r' w' b' : filled owner b rows r r' -> ~ (w' = owner /\ b' = b) -> Dense.len r' w' b' = Dense.len r w' b'.
Proof. intros [L _] Hn. by rewrite L, decide_False. Qed.

Lemma insert_tables_sound tables : forall owner r es r' es',
  (owner + length tables <= OWNER_SLOTS)%nat -> inserted r es -> (forall w', (owner <= w')%nat -> Dense.len r w' Unit = 0%nat) ->
  insert_tables hs gs owner tables r es = good (r', es') ->
  inserted r' es' /\ laid Unit owner (unwrapped <$> tables) r r' /\ Forall (fun e => None ∉ e) tables.
Proof.
  induction tables as [|e tables IH]; intros owner r es r' es' Ho I He E; cbn [insert_tables] in E; [injection E as <- <-; split; [done|]; split; [by apply laid_nil|done]|].
  cbn [length] in Ho. case_match eqn:En; [done|]. cinv E. destruct c as [r1 es1]. apply insert_units_sound in Hc as [I1 F]; [|lia|done].
  apply IH in E as (I2 & L2 & N2); [|lia|done|]. 2: { intros w' Hw'. rewrite (filled_len_ne _ _ _ _ _ _ _ F) by lia. apply He. lia. }
  split; [done|]. split; [by eapply laid_cons; [apply He|..]|]. constructor; [|done]. intros Hin. apply not_true_iff_false in En. apply En. apply existsb_exists. exists None. split; [by apply list_elem_of_In|done].
Qed.

Lemma insert_tables_total tables : forall owner r es,
  (owner + length tables <= OWNER_SLOTS)%nat -> ObjectRegistry.wf r -> (forall w', (owner <= w')%nat -> Dense.len r w' Unit = 0%nat) ->
  Forall (fun e => None ∉ e) tables -> Forall (fun e => forall v, Some v ∈ e -> is_Some (ident_in hs gs Unit v)) tables ->
  listing hs gs r es -> exists r' es', insert_tables hs gs owner tables r es = good (r', es').
Proof.
  induction tables as [|e tables IH]; intros owner r es Ho Hwf He Hn Hi L; [by do 2 eexists|]. cbn [length] in Ho. apply Forall_cons in Hn as [Hn Hns]. apply Forall_cons in Hi as [Hi His].
  cbn [insert_tables]. assert (existsb (fun x : option Z => match x with None => true | Some _ => false end) e = false) as ->.
  { apply not_true_iff_false. intros ([v|] & Hin & ?)%existsb_exists; [done|]. apply Hn. by apply list_elem_of_In. }
  destruct (insert_units_total owner (omap Datatypes.id e) r es) as (r1 & es1 & E1); [lia|done| |].
  { apply Forall_forall. intros v (x & Hx & Ev)%list_elem_of_omap. simpl in Ev. unfold Datatypes.id in Ev. subst x. by apply Hi. }
  rewrite He in E1 by lia. rewrite E1. cbn [chk_bind good]. apply insert_units_sound in E1 as [[W1 L1] F]; [|lia|by split].
  apply IH; [lia|done| |done|done|done]. intros w' Hw'. rewrite (filled_len_ne _ _ _ _ _ _ _ F) by lia. apply He. lia.
Qed.

Lemma insert_all_builds_sound count bs : forall owner seen r es r' es',
  (owner + length bs <= OWNER_SLOTS)%nat -> inserted r es -> (forall w', (owner <= w')%nat -> Dense.len r w' Build = 0%nat) ->
  insert_all_builds count owner bs seen r es = good (r', es') -> inserted r' es' /\ laid Build owner bs r r'.
Proof.
  induction bs as [|rows bs IH]; intros owner seen r es r' es' Ho I He E; cbn [insert_all_builds] in E; [injection E as <- <-; split; [done|by apply laid_nil]|].
  cbn [length] in Ho. case_decide; [done|]. cinv E. destruct c as [[seen1 r1] es1]. apply insert_builds_sound in Hc as [I1 F]; [|lia|done].
  apply IH in E as (I2 & L2); [|lia|done|]. 2: { intros w' Hw'. rewrite (filled_len_ne _ _ _ _ _ _ _ F) by lia. apply He. lia. }
  split; [done|]. by eapply laid_cons; [apply He|..].
Qed.

Lemma insert_all_builds_total count bs : forall owner seen r es,
  (owner + length bs <= OWNER_SLOTS)%nat -> inserted r es -> (forall w', (owner <= w')%nat -> Dense.len r w' Build = 0%nat) -> length seen = count ->
  (forall w' rows, bs !! w' = Some rows -> (BANDED_SLOTS <= owner + w')%nat -> rows = []) ->
  NoDup (concat bs) -> Forall (fun v => 0 <= v < Z.of_nat count /\ seen !! Z.to_nat v = Some false) (concat bs) ->
  exists r' es', insert_all_builds count owner bs seen r es = good (r', es').
Proof.
  induction bs as [|rows bs IH]; intros owner seen r es Ho [Hwf L] He Hl Hb Hnd Hf; [by do 2 eexists|]. cbn [length] in Ho. cbn [concat] in Hnd, Hf.
  apply NoDup_app in Hnd as (N1 & N2 & N3). apply Forall_app in Hf as [F1 F2]. cbn [insert_all_builds]. rewrite decide_False.
  2: { intros [D1 D2]. apply D2. apply (Hb 0%nat); [done|lia]. }
  destruct (insert_builds_total count owner rows seen r es) as (seen1 & r1 & es1 & E1 & Hl1 & Hk); [lia|done|done|done|done|]. rewrite He in E1 by lia. rewrite E1. cbn [chk_bind good].
  apply insert_builds_sound in E1 as [I1 F]; [|lia|by split]. apply IH; [lia|done| |done| |done|].
  - intros w' Hw'. rewrite (filled_len_ne _ _ _ _ _ _ _ F) by lia. apply He. lia.
  - intros w' rows' Hr' Hs. apply (Hb (S w')); [done|lia].
  - rewrite Forall_forall in F2 |- *. intros v Hv. destruct (F2 v Hv) as [? E]. split; [done|]. rewrite Hk; [done|lia|]. intros Hv'. by apply (N2 v).
Qed.

End insert.

Lemma set_actives_spec on : forall owner r, length (ObjectRegistry.active r) = (owner + length on)%nat ->
  ObjectRegistry.slots (set_actives owner on r) = ObjectRegistry.slots r /\ ObjectRegistry.active (set_actives owner on r) = take owner (ObjectRegistry.active r) ++ on.
Proof.
  induction on as [|b on IH]; intros owner r Hl; cbn [set_actives length] in *; [rewrite Nat.add_0_r in Hl; split; [done|]; by rewrite app_nil_r, take_ge by lia|].
  destruct (IH (S owner) (ObjectRegistry.set_active owner b r)) as [-> ->]; [simpl; rewrite length_insert; lia|]. split; [done|]. simpl.
  rewrite (take_S_r _ _ b) by (rewrite list_lookup_insert_eq; [done|lia]). rewrite take_insert_ge by lia. by rewrite <- app_assoc.
Qed.

(** ** The rebuilt registry *)

(** The array and column types of a save. *)
Record typed (s : WorldSaveState) : Prop := {
  t_cols : UnitCols.wf (s_units s);
  t_active : length (active_slots s) = OWNER_SLOTS;
  t_builds : length (build_rows s) = OWNER_SLOTS;
  t_handles : Forall (fun i => 0 <= i) (s_handles s);
  t_bands z : s_bands s = Some z -> length (snap_active z) = OWNER_SLOTS }.

Record rebuilt (s : WorldSaveState) (r : ObjectRegistry.t) (es : Entries) : Prop := {
  r_wf : ObjectRegistry.wf r;
  r_listing : listing (s_handles s) (s_gens s) r es;
  r_active : ObjectRegistry.active r = active_slots s;
  r_registered : registered (fun row => (row < s_live s)%nat) (s_units s) r;
  r_builds who k : Dense.at_ r who Build k = rows ← build_rows s !! who; rows !! k;
  r_walls who k : Dense.at_ r who Wall k = None }.

Lemma unwrapped_lookup e k v : None ∉ e -> unwrapped e !! k = Some v <-> e !! k = Some (Some v).
Proof.
  revert k. induction e as [|[x|] e IH]; intros k Hn; [done| |exfalso; apply Hn; left]. apply not_elem_of_cons in Hn as [_ Hn]. destruct k as [|k]; simpl; [|by apply IH].
  split; by intros [= ->].
Qed.

Lemma placed_laid u n ts r who k v : placed u n ts -> Forall (fun e => None ∉ e) ts -> laid Unit 0 (unwrapped <$> ts) ObjectRegistry.new r ->
  Dense.at_ r who Unit k = Some v <-> cell_at ts who k = Some (Some v).
Proof.
  intros P Hn L. rewrite (L who Unit k), decide_True by (split; [done|lia]). rewrite Nat.sub_0_r, list_lookup_fmap. unfold cell_at. destruct (ts !! who) as [e|] eqn:E; [|done]. simpl.
  apply unwrapped_lookup. by apply (proj1 (Forall_lookup _ _) Hn who).
Qed.

Lemma at_slots r r' who b k : ObjectRegistry.slots r' = ObjectRegistry.slots r -> Dense.at_ r' who b k = Dense.at_ r who b k.
Proof. intros E. unfold Dense.at_. by rewrite E. Qed.

Lemma rebuild_sound s r es : typed s -> UnitCols.len (s_units s) = s_live s -> rebuild_dense s = good (r, es) -> rebuilt s r es.
Proof.
  intros T Hlen E. unfold rebuild_dense in E. cinv E. rename c into ts. cinv E. destruct c as [r1 es1]. cinv E. destruct c as [r2 es2]. injection E as <- <-.
  apply place_rows_placed in Hc as P; [|lia|apply T|apply placed_0]. cbn [Nat.add] in P.
  apply insert_tables_sound in Hc0 as (I1 & L1 & N1); [|rewrite (p_owners _ _ _ P); lia|split; [apply ObjectRegistry.new_wf|apply listing_new]|intros; apply new_len].
  apply insert_all_builds_sound with (hs := s_handles s) (gs := s_gens s) in Hc1 as (I2 & L2); [|rewrite (t_builds _ T); lia|done|].
  2: { intros w' _. rewrite (len_ext ObjectRegistry.new); [apply new_len|]. intros k. rewrite (L1 w' Build k). by rewrite decide_False by (intros [? _]; done). }
  destruct I2 as [W2 Li2]. destruct (set_actives_spec (active_slots s) 0 r2) as [Es Ea]; [by rewrite (t_active _ T), (proj2 W2)|]. simpl in Ea.
  assert (Hat : forall who b k, Dense.at_ (set_actives 0 (active_slots s) r2) who b k = Dense.at_ r2 who b k) by (intros; by apply at_slots).
  assert (Hu : forall who k, Dense.at_ r2 who Unit k = Dense.at_ r1 who Unit k) by (intros; rewrite (L2 who Unit k); by rewrite decide_False by (intros [? _]; done)).
  split.
  - destruct W2 as [W2 _]. split; [by rewrite Es|by rewrite Ea, (t_active _ T)].
  - by eapply listing_ext.
  - done.
  - split.
    + intros who k v. rewrite Hat, Hu, (placed_laid _ _ _ _ _ _ _ P N1 L1), (p_cells _ _ _ P). intros (row & ? & ? & ? & ?). by exists row.
    + intros row Hr. destruct (p_range _ _ _ P row Hr) as (who & k & E1 & E2 & _). exists who, k. rewrite Hat, Hu, (placed_laid _ _ _ _ _ _ _ P N1 L1), (p_cells _ _ _ P). by exists row.
  - intros who k. rewrite Hat, (L2 who Build k), decide_True by (split; [done|lia]). by rewrite Nat.sub_0_r.
  - intros who k. rewrite Hat, (L2 who Wall k), decide_False by (intros [? _]; done). rewrite (L1 who Wall k), decide_False by (intros [? _]; done). apply Dense.at_None. rewrite new_len. lia.
Qed.

(** ** The row table *)

Lemma index_handles_spec ids : forall row rs,
  NoDup ids -> Forall (fun i => 0 <= i < Z.of_nat (length rs)) ids -> Forall (fun z => 0 <= z) rs ->
  let rs' := index_handles row ids rs in
  length rs' = length rs /\ Forall (fun z => 0 <= z) rs' /\
  (forall i, 0 <= i -> i ∉ ids -> rs' !! Z.to_nat i = rs !! Z.to_nat i) /\
  (forall j i, ids !! j = Some i -> rs' !! Z.to_nat i = Some (Z.of_nat (row + j))).
Proof.
  induction ids as [|i ids IH]; intros row rs Hnd Hf Hp; [done|]. apply NoDup_cons in Hnd as [Hi Hnd]. apply Forall_cons in Hf as [Hi0 Hf].
  destruct (IH (S row) (<[Z.to_nat i := Z.of_nat row]> rs)) as (L & P & K & J); [done|by rewrite length_insert|by apply Forall_insert; [|lia]|]. cbn [index_handles]. rewrite length_insert in L.
  split; [done|]. split; [done|]. split.
  - intros j Hj [Hne Hni]%not_elem_of_cons. rewrite K by done. rewrite list_lookup_insert_ne; [done|lia].
  - intros [|j] i' E; simpl in E.
    + injection E as <-. rewrite K by (done || lia). rewrite list_lookup_insert_eq by lia. by rewrite Nat.add_0_r.
    + rewrite (J _ _ E). f_equal. lia.
Qed.

(** ** An accepted save *)

Record accepted (s : WorldSaveState) (r : ObjectRegistry.t) (bands : SparseObjectBands.t WorldObjectIdentity) (rows : list Z) : Prop := {
  a_lengths : check_lengths s = good tt;
  a_nodup : NoDup (s_handles s);
  a_ids : Forall (fun i => 0 <= i < Z.of_nat (s_capacity s)) (s_handles s);
  a_targets : Forall (Forall (target_ok (s_capacity s))) (s_orders s);
  a_rebuilt : exists es, rebuilt s r es /\ holds (active_slots s) es bands;
  a_rows : rows = index_handles 0 (take (s_live s) (s_handles s)) (replicate (s_capacity s) NO_ROW) }.

Lemma choose_bands_holds saved act es d bands :
  holds act es d -> (forall z, saved = Some z -> length (snap_active z) = OWNER_SLOTS) -> choose_bands saved d = good bands ->
  holds act es bands /\ forall z, saved = Some z -> SparseObjectBands.snapshot bands = Ok z.
Proof.
  intros H0 Hz E. unfold choose_bands in E. destruct saved as [z|]; [|by injection E as <-]. cinv E. cinv E. cinv E. case_decide as D; [done|]. injection E as <-.
  destruct (from_snapshot_image z c (Hz z eq_refl) Hc) as (Hwf & Him & _). apply snapshot_image in Him. split; [|by intros z' [= <-]].
  rewrite Him in Hc0. injection Hc0 as <-. eapply holds_of_image; [exact H0|done|exact Hc1|by subst].
Qed.

Lemma validate_sound s r bands rows : typed s -> validate_and_rebuild s = good (r, bands, rows) ->
  accepted s r bands rows /\ forall z, s_bands s = Some z -> SparseObjectBands.snapshot bands = Ok z.
Proof.
  intros T E. unfold validate_and_rebuild in E. cinv E. destruct c. cinv E. destruct c. cinv E. destruct c. cinv E. destruct c as [r0 es]. cinv E. destruct c as [rc derived]. cinv E.
  injection E as <- <- <-. pose proof (proj1 (check_lengths_good s) Hc) as (Hcap & Hcol & Hlen & _). apply check_handles_good in Hc0 as [Hnd Hids]; [|by rewrite length_replicate|apply T].
  apply check_targets_good in Hc1. apply rebuild_sound in Hc2; [|done|done]. apply from_dense_entries_holds in Hc3; [|apply T].
  apply (choose_bands_holds _ _ _ _ _ Hc3 (t_bands _ T)) in Hc4 as [Hh Hz]. split; [|done]. split; try done.
  - pose proof (t_handles _ T) as Hp. rewrite Forall_forall in Hids, Hp |- *. intros i Hi. destruct (Hids i Hi). specialize (Hp i Hi). simpl in Hp. lia.
  - by exists es.
Qed.

(** The columns of a loaded world. *)
Definition loaded (s : WorldSaveState) (r : ObjectRegistry.t) (bands : SparseObjectBands.t WorldObjectIdentity) (rows : list Z) (w : t) : t :=
  mk (s_units s) (s_orders s) (s_types s) (s_step_x s) (s_step_y s) r bands (s_handles s) rows (s_gens s) (s_live s)
     (s_capacity s) (s_frame s) (s_seconds s) (Random.new (random_state s)) (rules w) Coverage_default.

Lemma NO_ROW_nonneg : 0 <= NO_ROW.
Proof. unfold NO_ROW. ranges. lia. Qed.

Lemma accepted_wf s r bands rows w : typed s -> accepted s r bands rows -> Forall stats_ok (unit_stats (rules w)) -> world_wf (loaded s r bands rows w).
Proof.
  intros T A Hrules. destruct (proj1 (check_lengths_good s) (a_lengths _ _ _ _ A)) as (Hcap & Hcol & Hlen & L1 & L2 & L3 & L4 & L5 & L6). destruct (a_rebuilt _ _ _ _ A) as (es & R & Hh).
  pose proof (a_ids _ _ _ _ A) as Hids.
  destruct (index_handles_spec (take (s_live s) (s_handles s)) 0 (replicate (s_capacity s) NO_ROW)) as (I1 & I2 & _ & I4).
  - eapply sublist_NoDup; [apply A|apply sublist_take].
  - rewrite length_replicate. by apply Forall_take.
  - apply Forall_replicate. apply NO_ROW_nonneg.
  - rewrite <- (a_rows _ _ _ _ A) in I1, I2, I4. rewrite length_replicate in I1.
    split; cbn [loaded units unit_orders unit_type_id move_step_x move_step_y objects object_bands handle_of_row row_of_handle generations live capacity frame seconds random rules coverage];
      try done; try apply T; try apply A; try apply R; try apply Hh; try lia.
    + intros row i Hr Hi. apply (I4 row). by rewrite lookup_take_lt.
    + eapply holds_mirrored; [apply R|apply R|exact Hh].
    + by rewrite (h_active _ _ _ Hh), (r_active _ _ _ R).
Qed.

Lemma import_good s w : import_save_state s w =
  match validate_and_rebuild s with None => None | Some (Err e) => Some (Err e, w) | Some (Ok (r, bands, rows)) => Some (Ok tt, loaded s r bands rows w) end.
Proof. done. Qed.

(** ** No panics *)

Definition safe {A} (m : chk A) : Prop := m <> None.

Lemma safe_bind {A B} (m : chk A) (k : A -> chk B) : safe m -> (forall a, m = good a -> safe (k a)) -> safe (chk_bind m k).
Proof. intros Hm Hk. destruct m as [[a|e]|]; [by apply Hk|done|done]. Qed.
Lemma safe_index {A B} (o : option A) (k : A -> chk B) : is_Some o -> (forall a, o = Some a -> safe (k a)) -> safe (chk_bind (at_index o) k).
Proof. intros [a ->] Hk. by apply Hk. Qed.
Lemma safe_mismatch {E A} (r : result E A) : safe (mismatch r).
Proof. by destruct r. Qed.

Lemma check_length_safe name len n : safe (check_length name len n).
Proof. unfold check_length. by case_decide. Qed.
Lemma check_lengths_safe s : safe (check_lengths s).
Proof.
  unfold check_lengths. case_decide; [done|]. case_decide; [done|]. repeat (apply safe_bind; [apply check_length_safe|intros [] _]). apply check_length_safe.
Qed.
Lemma check_handles_safe cap ids : forall seen, length seen = cap -> Forall (fun i => 0 <= i) ids -> safe (check_handles cap seen ids).
Proof.
  induction ids as [|i ids IH]; intros seen Hl Hp; [done|]. apply Forall_cons in Hp as [Hi Hp]. cbn [check_handles]. case_decide; [done|].
  apply safe_index; [apply lookup_lt_is_Some_2; lia|]. intros [] _; [done|]. apply IH; [by rewrite length_insert|done].
Qed.
Lemma check_orders_safe cap row l : forall n, safe (check_orders cap row n l).
Proof. induction l as [|q l IH]; intros n; [done|]. cbn [check_orders]. case_match; [|apply IH]. case_match; [done|apply IH]. Qed.
Lemma check_targets_safe cap ls : forall row, safe (check_targets cap row ls).
Proof. induction ls as [|l ls IH]; intros row; [done|]. cbn [check_targets]. apply safe_bind; [apply check_orders_safe|intros [] _; apply IH]. Qed.

Lemma place_row_safe u live ts row : (row < UnitCols.len u)%nat -> UnitCols.wf u -> length ts = OWNER_SLOTS -> safe (place_row u live ts row).
Proof.
  intros Hr Hu Hl. unfold place_row, UnitCols.get_u8. rewrite !UnitCols.get_live by (done || apply who_field || apply o_field). apply safe_index; [by eexists|]. intros owner _.
  case_decide; [done|]. apply safe_index; [by eexists|]. intros index _. case_match; [done|]. apply safe_index; [apply lookup_lt_is_Some_2; unfold OWNER_SLOTS in *; lia|]. intros e _.
  case_decide; [done|]. fold (widened (Z.to_nat index) e). apply safe_index; [apply lookup_lt_is_Some_2, widened_length|]. intros [v|] _; done.
Qed.
Lemma place_rows_safe u live m : forall n ts, (n + m <= UnitCols.len u)%nat -> UnitCols.wf u -> placed u n ts -> safe (place_rows u live (seq n m) ts).
Proof.
  induction m as [|m IH]; intros n ts Hn Hu P; [done|]. cbn [seq place_rows]. apply safe_bind; [apply place_row_safe; [lia|done|apply P]|]. intros ts' E.
  apply IH; [lia|done|]. eapply place_row_placed; [lia|done|done|exact E].
Qed.

Section insert_safe.
Context (hs gs : list Z).

Lemma insert_units_safe owner rows : forall index r es, (owner < OWNER_SLOTS)%nat -> ObjectRegistry.wf r -> Forall (fun v => is_Some (ident_in hs gs Unit v)) rows ->
  safe (insert_units hs gs owner index rows r es).
Proof.
  induction rows as [|v rows IH]; intros index r es Ho Hwf Hi; [done|]. apply Forall_cons in Hi as [[i Hi] His]. destruct (insert_one owner Unit v r Hwf Ho) as (r1 & E1 & Hw1 & _).
  cbn [insert_units]. rewrite E1. apply safe_index; [by eexists|]. intros a [= <-]. case_decide; [done|]. simpl in Hi. unfold ident in Hi.
  apply safe_index; [destruct (hs !! Z.to_nat v); [by eexists|done]|]. intros h Eh. rewrite Eh in Hi. simpl in Hi.
  apply safe_index; [destruct (gs !! Z.to_nat h); [by eexists|done]|]. intros g _. by apply IH.
Qed.

Lemma insert_tables_safe tables : forall owner r es, (owner + length tables <= OWNER_SLOTS)%nat -> inserted hs gs r es ->
  Forall (fun e => forall v, Some v ∈ e -> is_Some (ident_in hs gs Unit v)) tables -> safe (insert_tables hs gs owner tables r es).
Proof.
  induction tables as [|e tables IH]; intros owner r es Ho I Hi; [done|]. cbn [length] in Ho. apply Forall_cons in Hi as [Hi His]. cbn [insert_tables]. case_match; [done|].
  apply safe_bind; [apply insert_units_safe; [lia|apply I|]|].
  - apply Forall_forall. intros v (x & Hx & Ev)%list_elem_of_omap. simpl in Ev. unfold Datatypes.id in Ev. subst x. by apply Hi.
  - intros [r1 es1] E. apply insert_units_sound in E as [I1 _]; [|lia|done]. apply IH; [lia|done|done].
Qed.

Lemma insert_builds_safe count owner rows : forall index seen r es, (owner < OWNER_SLOTS)%nat -> ObjectRegistry.wf r -> length seen = count -> Forall (fun v => 0 <= v) rows ->
  safe (insert_builds count owner index rows seen r es).
Proof.
  induction rows as [|v rows IH]; intros index seen r es Ho Hwf Hl Hp; [done|]. apply Forall_cons in Hp as [Hv Hp]. destruct (insert_one owner Build v r Hwf Ho) as (r1 & E1 & Hw1 & _).
  cbn [insert_builds]. case_decide; [done|]. apply safe_index; [apply lookup_lt_is_Some_2; lia|]. intros [] _; [done|]. rewrite E1. apply safe_index; [by eexists|]. intros a [= <-].
  case_decide; [done|]. apply IH; [done|done|by rewrite length_insert|done].
Qed.

Lemma insert_builds_seen count owner rows : forall index seen r es seen' r' es', insert_builds count owner index rows seen r es = good (seen', r', es') -> length seen' = length seen.
Proof.
  induction rows as [|v rows IH]; intros index seen r es seen' r' es' E; cbn [insert_builds] in E; [by injection E as <- _ _|]. case_decide; [done|]. cinv E. destruct c; [done|]. cinv E.
  destruct c as [o r1]. case_decide; [done|]. apply IH in E. by rewrite E, length_insert.
Qed.

Lemma insert_all_builds_safe count bs : forall owner seen r es, (owner + length bs <= OWNER_SLOTS)%nat -> inserted hs gs r es -> length seen = count -> Forall (Forall (fun v => 0 <= v)) bs ->
  safe (insert_all_builds count owner bs seen r es).
Proof.
  induction bs as [|rows bs IH]; intros owner seen r es Ho I Hl Hp; [done|]. cbn [length] in Ho. apply Forall_cons in Hp as [Hp Hps]. cbn [insert_all_builds]. case_decide; [done|].
  apply safe_bind; [apply insert_builds_safe; [lia|apply I|done|done]|]. intros [[seen1 r1] es1] E. pose proof (insert_builds_seen _ _ _ _ _ _ _ _ _ _ E) as Hs.
  apply (insert_builds_sound hs gs) in E as [I1 _]; [|lia|done]. apply IH; [lia|done|by rewrite Hs|done].
Qed.

End insert_safe.

Lemma rebuild_safe s : typed s -> Forall (Forall (fun v => 0 <= v)) (build_rows s) -> check_lengths s = good tt -> Forall (fun i => 0 <= i < Z.of_nat (s_capacity s)) (s_handles s) ->
  safe (rebuild_dense s).
Proof.
  intros T Hb Hl Hids. destruct (proj1 (check_lengths_good s) Hl) as (Hcap & Hcol & Hlen & _ & _ & _ & _ & L5 & L6). unfold rebuild_dense.
  apply safe_bind; [apply place_rows_safe; [lia|apply T|apply placed_0]|]. intros ts E. apply place_rows_placed in E as P; [|lia|apply T|apply placed_0]. cbn [Nat.add] in P.
  apply safe_bind.
  - apply insert_tables_safe; [rewrite (p_owners _ _ _ P); lia|split; [apply ObjectRegistry.new_wf|apply listing_new]|]. apply Forall_lookup. intros who e He v [k Hk]%list_elem_of_lookup.
    assert (Hc : cell_at ts who k = Some (Some v)) by (unfold cell_at; by rewrite He). apply (p_cells _ _ _ P) in Hc as (row & -> & Hr & _). simpl. unfold ident. rewrite Nat2Z.id.
    destruct (lookup_lt_is_Some_2 (s_handles s) row) as [i Hi]; [lia|]. rewrite Hi. simpl. pose proof (proj1 (Forall_lookup _ _) Hids _ _ Hi) as Hi2. simpl in Hi2.
    destruct (lookup_lt_is_Some_2 (s_gens s) (Z.to_nat i)) as [g Hg]; [lia|]. rewrite Hg. by eexists.
  - intros [r1 es1] E1. apply insert_tables_sound in E1 as (I1 & _); [|rewrite (p_owners _ _ _ P); lia|split; [apply ObjectRegistry.new_wf|apply listing_new]|intros; apply new_len].
    apply safe_bind; [eapply insert_all_builds_safe; [rewrite (t_builds _ T); lia|exact I1|apply length_replicate|done]|]. by intros [r2 es2] _.
Qed.

Lemma choose_bands_safe saved d : safe (choose_bands saved d).
Proof. unfold choose_bands. destruct saved; [|done]. repeat (apply safe_bind; [apply safe_mismatch|intros ? _]). by case_decide. Qed.

Lemma validate_safe s : typed s -> Forall (Forall (fun v => 0 <= v)) (build_rows s) -> safe (validate_and_rebuild s).
Proof.
  intros T Hb. unfold validate_and_rebuild. apply safe_bind; [apply check_lengths_safe|]. intros [] E1.
  apply safe_bind; [apply check_handles_safe; [apply length_replicate|apply T]|]. intros [] E2.
  apply safe_bind; [apply check_targets_safe|]. intros [] _. apply safe_bind; [apply rebuild_safe; [done|done|done|]|].
  - apply check_handles_good in E2 as [_ Hids]; [|apply length_replicate|apply T]. pose proof (t_handles _ T) as Hp. rewrite Forall_forall in Hids, Hp |- *. intros i Hi. destruct (Hids i Hi). specialize (Hp i Hi).
    simpl in Hp. lia.
  - intros [r es] _. apply safe_bind; [apply safe_mismatch|]. intros [rc d] _. apply safe_bind; [apply choose_bands_safe|]. by intros bands _.
Qed.
