(* ===== verification/SimSaveMain.v ===== *)
(** * Saving and loading a world: its theorems

    Every well-formed world whose orders and buildings the format can carry is
    saved, and the loaded game goes on as the saved one would have
    ([saved_game_resumes]); a load never panics, what it accepts is well formed
    and what it refuses changes nothing ([load_contract]); the sparse registry
    is always the one the dense bands give ([dense_equivalent]). *)

From stdpp Require Import strings.
From S2P Require Import Prelude SimArith SimKernels SimRandom SimObjects SimSparse SimSparseSpec SimCols SimPayload SimOrder SimWorld SimWorldSpec SimWorldTick SimWorldMain SimDigest SimPlay SimSave SimSaveSpec.
Import World.
#[local] Open Scope Z_scope.

(** ** Worlds the format can carry *)

Definition build_band (w : t) (who : nat) : list Z := default [] ((fun s => band s Build) <$> ObjectRegistry.slot who (objects w)).
Definition builds_of (w : t) : list (list Z) := build_band w <$> seq 0 OWNER_SLOTS.

Record savable (w : t) : Prop := {
  v_targets : Forall (Forall (target_ok (capacity w))) (unit_orders w);
  v_walls who : Dense.len (objects w) who Wall = 0%nat;
  v_builds who : (BANDED_SLOTS <= who)%nat -> Dense.len (objects w) who Build = 0%nat;
  v_distinct : NoDup (concat (builds_of w));
  v_range : Forall (fun v => 0 <= v < Z.of_nat (length (concat (builds_of w)))) (concat (builds_of w)) }.

Lemma concat_length {A} (ls : list (list A)) : length (concat ls) = sum_list_with length ls.
Proof. induction ls as [|l ls IH]; [done|]. simpl. rewrite length_app. by rewrite IH. Qed.

(** Reading a list of lists. *)
Definition cell_of {A} (ls : list (list A)) (i k : nat) : option A := l ← ls !! i; l !! k.

Lemma elem_of_concat_cells {A} (ls : list (list A)) v : v ∈ concat ls <-> exists i k, cell_of ls i k = Some v.
Proof.
  unfold cell_of. induction ls as [|l ls IH]; simpl; [split; [by intros ?%elem_of_nil|by intros (i & k & E)]|]. rewrite elem_of_app, IH, list_elem_of_lookup. split.
  - intros [[k E]|(i & k & E)]; [by exists 0%nat, k|by exists (S i), k].
  - intros ([|i] & k & E); [left; by exists k|right; by exists i, k].
Qed.

Lemma NoDup_concat_cells {A} (ls : list (list A)) :
  (forall i k j l v, cell_of ls i k = Some v -> cell_of ls j l = Some v -> i = j /\ k = l) -> NoDup (concat ls).
Proof.
  induction ls as [|l ls IH]; intros Hi; simpl; [constructor|]. apply NoDup_app. split; [|split].
  - apply NoDup_alt. intros i j v E1 E2. by apply (Hi 0%nat i 0%nat j v).
  - intros v [k Ek]%list_elem_of_lookup (i & k' & E)%elem_of_concat_cells. by destruct (Hi 0%nat k (S i) k' v Ek E).
  - apply IH. intros i k j l' v E1 E2. destruct (Hi (S i) k (S j) l' v E1 E2). split; [lia|done].
Qed.

Lemma sum_slots ss : Forall (fun s => SimObjects.walls s = []) ss ->
  sum_list_with (fun s => length (SimObjects.units s) + length (SimObjects.builds s) + length (SimObjects.walls s))%nat ss =
  (sum_list_with length (SimObjects.units <$> ss) + sum_list_with length (SimObjects.builds <$> ss))%nat.
Proof. induction 1 as [|s ss Hs _ IH]; [done|]. rewrite !fmap_cons. cbn [sum_list_with]. rewrite IH, Hs. simpl. lia. Qed.

Section save.
Context (w : t) (H : world_wf w).

Lemma band_at who b s : ObjectRegistry.slot who (objects w) = Some s -> forall k, band s b !! k = Dense.at_ (objects w) who b k.
Proof. intros E k. unfold Dense.at_. unfold ObjectRegistry.slot in E. by rewrite E. Qed.

Lemma slot_Some r who : ObjectRegistry.wf r -> (who < OWNER_SLOTS)%nat -> exists s, ObjectRegistry.slot who r = Some s.
Proof. intros Hr Hw. by apply Dense.slot_of. Qed.

Lemma dense_band_len r who b s : ObjectRegistry.slot who r = Some s -> Dense.len r who b = length (band s b).
Proof. unfold ObjectRegistry.slot, Dense.len. by intros ->. Qed.

Lemma registered_at P u r who k v : registered P u r ->
  Dense.at_ r who Unit k = Some v <-> exists row, v = Z.of_nat row /\ P row /\ who_of u row = Z.of_nat who /\ o_of u row = Z.of_nat k.
Proof.
  intros R. split; [apply R|]. intros (row & -> & Hp & E1 & E2). destruct (registered_row _ _ _ _ R Hp) as (who' & k' & E1' & E2' & E).
  assert (who = who') as -> by lia. assert (k = k') as -> by lia. done.
Qed.

(** A unit band holds distinct live rows, so it is no longer than the population. *)
Lemma unit_band_le_live who : (Dense.len (objects w) who Unit <= live w)%nat.
Proof.
  unfold Dense.len. destruct (ObjectRegistry.slots (objects w) !! who) as [s|] eqn:E; [|lia]. pose proof (w_registered _ H) as R.
  assert (Hat : forall k, band s Unit !! k = Dense.at_ (objects w) who Unit k) by (intros; unfold Dense.at_; by rewrite E).
  assert (Hn : length (Z.of_nat <$> seq 0 (live w)) = live w) by by rewrite length_fmap, length_seq. rewrite <- Hn. apply submseteq_length, NoDup_submseteq.
  - apply NoDup_alt. intros i j v E1 E2. rewrite Hat in E1, E2. apply (registered_at _ _ _ _ _ _ R) in E1, E2. destruct E1 as (x & -> & _ & _ & Ex), E2 as (y & Ey & _ & _ & Ey'). assert (x = y) as -> by lia. lia.
  - intros v [k Ek]%list_elem_of_lookup. rewrite Hat, (registered_at _ _ _ _ _ _ R) in Ek. destruct Ek as (row & -> & Hr & _). apply list_elem_of_fmap_2, elem_of_seq. simpl. lia.
Qed.

Lemma row_ident row : (row < live w)%nat -> is_Some (ident_in (handle_of_row w) (generations w) Unit (Z.of_nat row)).
Proof. intros Hr. pose proof (live_le _ H). destruct (ident_Some w row H) as (i & g & E); [lia|]. simpl. rewrite Nat2Z.id, E. by eexists. Qed.

Lemma placed_full ts : placed (units w) (live w) ts -> Forall (fun e => None ∉ e) ts.
Proof.
  intros P. apply Forall_lookup. intros who e He [k Hk]%list_elem_of_lookup. pose proof (w_registered _ H) as R.
  destruct (p_last _ _ _ P who e He) as [v Hv]; [by intros ->|].
  assert (Hc : cell_at ts who (length e - 1) = Some (Some v)) by (unfold cell_at; by rewrite He). apply (p_cells _ _ _ P), (registered_at _ _ _ _ _ _ R) in Hc.
  pose proof (Dense.at_lt _ _ _ _ _ Hc) as [Hlt _]. pose proof (lookup_lt_Some _ _ _ Hk) as Hke. destruct (Dense.at_Some (objects w) who Unit k) as [v' Hv']; [lia|].
  apply (registered_at _ _ _ _ _ _ R), (p_cells _ _ _ P) in Hv'. unfold cell_at in Hv'. rewrite He in Hv'. simpl in Hv'. congruence.
Qed.

Lemma build_rows_at who k : Dense.at_ (objects w) who Build k = rows ← builds_of w !! who; rows !! k.
Proof.
  unfold builds_of. rewrite list_lookup_fmap. destruct (decide (who < OWNER_SLOTS)%nat) as [Hw|Hw].
  - rewrite lookup_seq_lt by done. simpl. destruct (slot_Some (objects w) who (w_objects _ H) Hw) as [s Hs]. unfold build_band. rewrite Hs. simpl. symmetry. by apply (band_at who Build s).
  - rewrite (lookup_ge_None_2 (seq _ _)) by (rewrite length_seq; lia). simpl. apply Dense.at_None. unfold Dense.len. rewrite lookup_ge_None_2; [lia|].
    rewrite (proj1 (w_objects _ H)). unfold SimObjects.OWNER_SLOTS, OWNER_SLOTS in *. lia.
Qed.

Lemma save_typed z : SparseObjectBands.snapshot (object_bands w) = Ok z -> typed (save_of w z).
Proof.
  intros Ez. split; simpl; [apply H|done|done| |].
  - eapply Forall_impl; [apply (w_ids _ H)|]. simpl. lia.
  - intros z' [= <-]. apply snapshot_image in Ez as (<- & _). apply (wf_active _ (w_sparse _ H)).
Qed.

Lemma save_lengths z : check_lengths (save_of w z) = good tt.
Proof. apply check_lengths_good. simpl. pose proof (live_le _ H). pose proof (w_max _ H). split_and!; try apply H; lia. Qed.

Context (V : savable w).

Lemma rebuild_total z : SparseObjectBands.snapshot (object_bands w) = Ok z -> exists r es, rebuild_dense (save_of w z) = good (r, es).
Proof.
  intros Ez. pose proof (w_registered _ H) as R. unfold rebuild_dense. simpl s_units. simpl s_live. simpl s_handles. simpl s_gens.
  destruct (place_rows_total (units w) (live w) (live w) 0 (replicate OWNER_SLOTS [])) as [ts E]; [by rewrite (w_len _ H)|apply H|apply placed_0| | |].
  - intros row Hr. destruct (registered_row _ _ _ _ R Hr) as (who & k & E1 & E2 & E). pose proof (Dense.at_lt _ _ _ _ _ E) as [Hk Hw]. rewrite (proj1 (w_objects _ H)) in Hw.
    pose proof (unit_band_le_live who). exists who, k. split_and!; [done|done|done|lia].
  - intros row row' Hr Hr' E1 E2. destruct (registered_row _ _ _ _ R Hr) as (who & k & A1 & A2 & A), (registered_row _ _ _ _ R Hr') as (who' & k' & B1 & B2 & B).
    assert (who = who') as -> by lia. assert (k = k') as -> by lia. rewrite A in B. injection B as B. lia.
  - rewrite E. cbn [chk_bind good]. apply place_rows_placed in E as P; [|by rewrite (w_len _ H)|apply H|apply placed_0]. cbn [Nat.add] in P.
    destruct (insert_tables_total (handle_of_row w) (generations w) ts 0 ObjectRegistry.new []) as (r1 & es1 & E1).
    + rewrite (p_owners _ _ _ P). lia.
    + apply ObjectRegistry.new_wf.
    + intros. apply new_len.
    + by apply placed_full.
    + apply Forall_lookup. intros who e He v [k Hk]%list_elem_of_lookup. assert (Hc : cell_at ts who k = Some (Some v)) by (unfold cell_at; by rewrite He).
      apply (p_cells _ _ _ P) in Hc as (row & -> & Hr & _). by apply row_ident.
    + apply listing_new.
    + rewrite E1. cbn [chk_bind good]. apply insert_tables_sound in E1 as (I1 & L1 & _); [|rewrite (p_owners _ _ _ P); lia|split; [apply ObjectRegistry.new_wf|apply listing_new]|intros; apply new_len].
      change (build_rows (save_of w z)) with (builds_of w). rewrite <- concat_length.
      destruct (insert_all_builds_total (handle_of_row w) (generations w) (length (concat (builds_of w))) (builds_of w) 0 (replicate (length (concat (builds_of w))) false) r1 es1) as (r2 & es2 & E2).
      * done.
      * done.
      * intros w' _. rewrite (len_ext ObjectRegistry.new); [apply new_len|]. intros k. rewrite (L1 w' Build k). by rewrite decide_False by (intros [? _]; done).
      * apply length_replicate.
      * intros w' rows Hr Hb. pose proof (v_builds _ V w' Hb) as Hl. destruct rows as [|v rows]; [done|]. exfalso. pose proof (build_rows_at w' 0) as Hat. rewrite Hr in Hat. simpl in Hat.
        apply Dense.at_lt in Hat as [Hat _]. lia.
      * apply V.
      * eapply Forall_impl; [apply V|]. intros v Hv. cbv beta in Hv. split; [done|]. apply lookup_replicate. split; [done|lia].
      * rewrite E2. by do 2 eexists.
Qed.

Lemma rebuilt_at z r es : rebuilt (save_of w z) r es -> forall who b k, Dense.at_ r who b k = Dense.at_ (objects w) who b k.
Proof.
  intros R who b k. destruct b.
  - apply option_eq. intros v. rewrite (registered_at _ _ _ _ _ _ (w_registered _ H)). by rewrite (registered_at _ _ _ _ _ _ (r_registered _ _ _ R)).
  - rewrite (r_builds _ _ _ R). symmetry. apply build_rows_at.
  - rewrite (r_walls _ _ _ R). symmetry. apply Dense.at_None. rewrite (v_walls _ V). lia.
Qed.

Lemma rebuilt_bands z r es who b : rebuilt (save_of w z) r es -> dense_band r who b = dense_band (objects w) who b.
Proof.
  intros R. unfold dense_band. f_equal. pose proof (rebuilt_at _ _ _ R who b) as Hat. unfold Dense.at_ in Hat. unfold ObjectRegistry.slot.
  destruct (ObjectRegistry.slots r !! who) as [x|] eqn:E1, (ObjectRegistry.slots (objects w) !! who) as [y|] eqn:E2; simpl in *.
  - f_equal. by apply list_eq.
  - exfalso. apply lookup_lt_Some in E1. apply lookup_ge_None in E2. rewrite (proj1 (w_objects _ H)) in E2. rewrite (proj1 (r_wf _ _ _ R)) in E1. lia.
  - exfalso. apply lookup_lt_Some in E2. apply lookup_ge_None in E1. rewrite (proj1 (w_objects _ H)) in E2. rewrite (proj1 (r_wf _ _ _ R)) in E1. lia.
  - done.
Qed.

Lemma rebuilt_objects z r es : rebuilt (save_of w z) r es -> r = objects w.
Proof.
  intros R. assert (Ha : ObjectRegistry.active r = ObjectRegistry.active (objects w)) by (rewrite (r_active _ _ _ R); apply (actives_listed _ (w_objects _ H))).
  assert (Hs : ObjectRegistry.slots r = ObjectRegistry.slots (objects w)).
  { apply list_eq. intros who. pose proof (fun b => rebuilt_bands _ _ _ who b R) as Hb. unfold dense_band, ObjectRegistry.slot in Hb.
    destruct (ObjectRegistry.slots r !! who) as [[u b x]|], (ObjectRegistry.slots (objects w) !! who) as [[u' b' x']|].
    - pose proof (Hb Unit) as E1. pose proof (Hb Build) as E2. pose proof (Hb Wall) as E3. cbn in E1, E2, E3. congruence.
    - by specialize (Hb Unit).
    - by specialize (Hb Unit).
    - done. }
  destruct r, (objects w). simpl in *. by subst.
Qed.

(** The validation of a world's own save. *)
Lemma validate_own z : SparseObjectBands.snapshot (object_bands w) = Ok z ->
  exists bands rows, validate_and_rebuild (save_of w z) = good (objects w, bands, rows) /\ SparseObjectBands.snapshot bands = Ok z.
Proof.
  intros Ez. destruct (rebuild_total z Ez) as (r & es & Er). pose proof (save_typed z Ez) as T.
  pose proof (rebuild_sound _ _ _ T (w_len _ H) Er) as R. pose proof (rebuilt_objects _ _ _ R) as ->.
  pose proof (r_listing _ _ _ R) as L. simpl s_handles in L. simpl s_gens in L.
  pose proof (mirrored_holds _ _ _ _ _ (w_sparse _ H) (w_marks _ H) (w_objects _ H) (w_mirror _ H) L) as Hh.
  pose proof (mirrored_gapfree _ _ _ _ _ (w_sparse _ H) (w_marks _ H) (w_objects _ H) (w_mirror _ H) L) as G.
  assert (Hact : active_slots (save_of w z) = SparseObjectBands.active (object_bands w)) by (rewrite (w_active _ H); apply (actives_listed _ (w_objects _ H))).
  destruct (from_dense_entries_total (active_slots (save_of w z)) es (t_active _ T) G) as (rc & d & Ed & Hd).
  pose proof Hd as Hd'. rewrite Hact in Hd'. pose proof (holds_image _ _ _ _ _ Hh Hd' Ez) as Ed2.
  assert (Hsa : length (snap_active z) = SimSparse.OWNER_SLOTS) by by apply (t_bands _ T).
  destruct (from_snapshot_total z) as [s' Es']; [apply (image_snap_ok z (object_bands w) (w_sparse _ H)); by apply snapshot_image|done|].
  destruct (from_snapshot_image z s' Hsa Es') as (_ & Him & _). apply snapshot_image in Him. do 2 eexists. split; [|exact Him].
  unfold validate_and_rebuild. rewrite (save_lengths z). cbn [chk_bind good]. rewrite (proj2 (check_handles_good _ _ _ (length_replicate _ _) (t_handles _ T))).
  2: { simpl. split; [apply H|]. pose proof (w_ids _ H) as Hids. eapply Forall_impl; [exact Hids|]. intros i Hi. simpl in Hi. split; [lia|]. apply lookup_replicate. split; [done|lia]. }
  cbn [chk_bind good]. rewrite (proj2 (check_targets_good _ _ _)) by apply V. cbn [chk_bind good]. rewrite Er. cbn [chk_bind good]. rewrite Ed. cbn [chk_bind good mismatch].
  unfold choose_bands. change (s_bands (save_of w z)) with (Some z). cbv iota beta. rewrite Es'. cbn [chk_bind good mismatch]. rewrite Him. cbn [chk_bind good mismatch]. rewrite Ed2. cbn [chk_bind good mismatch].
  rewrite decide_False by (intros D; by apply D). reflexivity.
Qed.

Lemma check_supported_good owners : Forall (fun o => (o < OWNER_SLOTS)%nat) owners -> check_supported owners (objects w) = good tt.
Proof.
  induction 1 as [|o owners Ho _ IH]; [done|]. destruct (slot_Some (objects w) o (w_objects _ H) Ho) as [s Hs]. cbn [check_supported]. unfold dense_band. rewrite Hs.
  cbn [at_index fmap option_fmap option_map chk_bind]. rewrite decide_False; [exact IH|]. intros [D|[D1 D2]].
  - apply D. apply length_zero_iff_nil. rewrite <- (dense_band_len _ _ Wall _ Hs). apply V.
  - apply D2. apply length_zero_iff_nil. rewrite <- (dense_band_len _ _ Build _ Hs). by apply V.
Qed.

Lemma check_same_refl owners : Forall (fun o => (o < OWNER_SLOTS)%nat) owners -> check_same owners (objects w) (objects w) = good tt.
Proof.
  induction 1 as [|o owners Ho _ IH]; [done|]. destruct (slot_Some (objects w) o (w_objects _ H) Ho) as [s Hs]. cbn [check_same]. unfold dense_band. rewrite Hs.
  cbn [at_index fmap option_fmap option_map chk_bind]. rewrite decide_False; [exact IH|]. intros [D|[D|D]]; by apply D.
Qed.

(** Every live row stands once in the unit bands. *)
Lemma total_units : length (concat (SimObjects.units <$> ObjectRegistry.slots (objects w))) = live w.
Proof.
  set (ls := SimObjects.units <$> ObjectRegistry.slots (objects w)). pose proof (w_registered _ H) as R.
  assert (Hat : forall who k, cell_of ls who k = Dense.at_ (objects w) who Unit k).
  { intros. unfold ls, Dense.at_, cell_of. rewrite list_lookup_fmap. by destruct (ObjectRegistry.slots (objects w) !! who). }
  assert (Hp : concat ls ≡ₚ Z.of_nat <$> seq 0 (live w)); [|rewrite Hp; by rewrite length_fmap, length_seq].
  apply NoDup_Permutation.
  - apply NoDup_concat_cells. intros i k j l v. rewrite !Hat. rewrite !(registered_at _ _ _ _ _ _ R). intros (x & -> & _ & X1 & X2) (y & Ey & _ & Y1 & Y2). assert (x = y) as -> by lia. lia.
  - apply NoDup_fmap_2; [intros ? ? ?; lia|apply NoDup_seq].
  - intros v. rewrite elem_of_concat_cells. setoid_rewrite Hat. rewrite list_elem_of_fmap. split.
    + intros (who & k & E). apply (registered_at _ _ _ _ _ _ R) in E as (row & -> & Hr & _). exists row. split; [done|]. apply elem_of_seq. lia.
    + intros (row & -> & Hr%elem_of_seq). destruct (registered_row _ _ _ row R) as (who & k & _ & _ & E); [lia|]. by exists who, k.
Qed.

Lemma total_saved : ObjectRegistry.total_objects (objects w) = (live w + length (concat (builds_of w)))%nat.
Proof.
  rewrite <- total_units. unfold ObjectRegistry.total_objects, builds_of.
  assert (Hb : build_band w <$> seq 0 OWNER_SLOTS = SimObjects.builds <$> ObjectRegistry.slots (objects w)).
  { apply list_eq. intros who. rewrite !list_lookup_fmap. destruct (decide (who < OWNER_SLOTS)%nat) as [Hw|Hw].
    - rewrite lookup_seq_lt by done. simpl. unfold build_band. destruct (slot_Some (objects w) who (w_objects _ H) Hw) as [s Hs]. rewrite Hs. unfold ObjectRegistry.slot in Hs. by rewrite Hs.
    - rewrite (lookup_ge_None_2 (seq _ _)) by (rewrite length_seq; lia). rewrite lookup_ge_None_2; [done|]. rewrite (proj1 (w_objects _ H)). unfold SimObjects.OWNER_SLOTS, OWNER_SLOTS in *. lia. }
  rewrite Hb, !concat_length. assert (Hx : Forall (fun s => SimObjects.walls s = []) (ObjectRegistry.slots (objects w))).
  { apply Forall_lookup. intros who s Hs. apply length_zero_iff_nil. pose proof (v_walls _ V who) as Hv. unfold Dense.len in Hv. by rewrite Hs in Hv. }
  by apply sum_slots.
Qed.

(** A world the format can carry is saved. *)
Lemma export_total : exists z, SparseObjectBands.snapshot (object_bands w) = Ok z /\ export_save_state w = good (save_of w z).
Proof.
  destruct (dense_listing w H) as (es & _ & L). pose proof (mirrored_holds _ _ _ _ _ (w_sparse _ H) (w_marks _ H) (w_objects _ H) (w_mirror _ H) L) as Hh.
  destruct (holds_snapshot _ _ _ Hh) as [z Ez]. exists z. split; [done|]. destruct (validate_own z Ez) as (bands & rows & Ev & Eb). unfold export_save_state.
  rewrite check_supported_good by (apply Forall_seq; lia). cbn [chk_bind good]. rewrite Ez. cbn [mismatch chk_bind good]. rewrite Ev. cbn [chk_bind good].
  rewrite check_same_refl by (apply Forall_seq; lia). cbn [chk_bind good]. rewrite Eb. cbn [mismatch chk_bind good]. rewrite decide_False by (intros D; by apply D).
  change (build_rows (save_of w z)) with (builds_of w). rewrite <- concat_length. rewrite decide_False by (intros D; apply D, total_saved). done.
Qed.

End save.

(** Registries with one snapshot. *)
Lemma same_bands_snapshot z (s s' : Bands) : SimSparseSpec.wf s -> SimSparseSpec.wf s' -> SparseObjectBands.snapshot s = Ok z -> SparseObjectBands.snapshot s' = Ok z -> same_bands s s'.
Proof.
  intros Hs Hs' E%snapshot_image E'%snapshot_image. destruct (same_image z s s' Hs Hs' E E') as (Ha & Hr & Hb).
  assert (Hout : forall w b (x : Bands), SimSparseSpec.wf x -> ~ (w < SimSparse.OWNER_SLOTS)%nat -> SparseObjectBands.band_of w b x = get_band b new_owner).
  { intros w b x Hx Hw. unfold SparseObjectBands.band_of. rewrite list_lookup_total_alt, lookup_ge_None_2; [done|]. rewrite (wf_owners _ Hx). lia. }
  split; [done|done|by rewrite (wf_owners _ Hs), (wf_owners _ Hs')| |].
  - intros w b. destruct (decide (w < SimSparse.OWNER_SLOTS)%nat) as [Hw|Hw]; [by apply Hb|]. by rewrite !Hout.
  - intros w b. destruct (decide (w < SimSparse.OWNER_SLOTS)%nat) as [Hw|Hw]; [|by rewrite !Hout]. apply list_eq. intros k. rewrite !list_lookup_fmap. by apply (proj2 (Hb w b Hw)).
Qed.

Lemma loaded_same w z r bands rows w0 : world_wf w -> SparseObjectBands.snapshot (object_bands w) = Ok z -> SimSparseSpec.wf bands -> SparseObjectBands.snapshot bands = Ok z ->
  r = objects w -> rules w0 = rules w -> same_game w (loaded (save_of w z) r bands rows w0).
Proof. intros H Ez Hb Ez' -> Hr. split; try done; simpl; [by eapply same_bands_snapshot; [apply H|..]|by destruct (random w)]. Qed.

(** ** Checksums agree *)

Lemma same_bands_image z (s s' : Bands) : same_bands s s' -> SparseObjectBands.snapshot s = Ok z -> SparseObjectBands.snapshot s' = Ok z.
Proof.
  intros B (Ha & Hl & Hb)%snapshot_image. apply snapshot_image. split; [by rewrite (sb_active _ _ B)|]. split; [by rewrite (sb_owners _ _ B)|].
  intros w ow How. destruct (Hb w ow How) as [H3 R]. split; [done|]. intros b xs Hx. destruct (R b xs Hx) as [R1 R2]. split; [by rewrite (sb_mark _ _ B)|by rewrite (sb_slots _ _ B)].
Qed.

Lemma same_game_digest w w' : world_wf w -> same_game w w' -> is_Some (object_bands_digest w) -> digest w' = digest w.
Proof.
  intros H S Hd. unfold digest.
  assert (unit_sum w' = unit_sum w) as ->.
  { unfold unit_sum. rewrite (sg_live _ _ S). f_equal. apply list_fmap_ext. intros _ row _. unfold row_words. by rewrite (sg_handles _ _ S), (sg_units _ _ S), (sg_orders _ _ S). }
  assert (object_bands_digest w' = object_bands_digest w) as ->; [|by rewrite (sg_frame _ _ S), (sg_live _ _ S)].
  unfold object_bands_digest in *. destruct (SparseObjectBands.snapshot (object_bands w)) as [z|] eqn:E; [|by destruct Hd]. by rewrite (same_bands_image z _ _ (sg_bands _ _ S) E).
Qed.

(** (C7) Every well-formed world whose orders and buildings the format can carry is
    saved; loading the save succeeds in any world with the same rules and gives
    a well-formed world that is the saved one up to storage tokens, stale rows
    and counters, and whatever either can go on to do, the other can, to worlds
    with the same digest. *)
Theorem saved_game_resumes (w : t) (H : world_wf w) (V : savable w) :
  exists s, export_save_state w = good s /\
  forall w0, rules w0 = rules w -> exists w', import_save_state s w0 = Some (Ok tt, w') /\ world_wf w' /\ same_game w w' /\
    (forall v, rtc world_step w v -> exists v', rtc world_step w' v' /\ same_game v v' /\ digest v' = digest v) /\
    (forall v', rtc world_step w' v' -> exists v, rtc world_step w v /\ same_game v v' /\ digest v' = digest v).
Proof.
  destruct (export_total w H V) as (z & Ez & E). exists (save_of w z). split; [done|]. intros w0 Hr. destruct (validate_own w H V z Ez) as (bands & rows & Ev & Eb).
  destruct (validate_sound _ _ _ _ (save_typed w H z Ez) Ev) as [A _]. exists (loaded (save_of w z) (objects w) bands rows w0). split; [by rewrite import_good, Ev|].
  assert (H' : world_wf (loaded (save_of w z) (objects w) bands rows w0)) by (apply accepted_wf; [by apply save_typed|done|rewrite Hr; apply H]). split; [done|].
  assert (S : same_game w (loaded (save_of w z) (objects w) bands rows w0)) by (apply loaded_same; try done; apply H'). split; [done|]. split.
  - intros v R. destruct (same_game_steps _ _ _ H H' S R) as (v' & R' & Sv). exists v'. split; [done|]. split; [done|]. pose proof (steps_wf _ _ R H) as Hv.
    apply same_game_digest; [done|done|by apply bands_total].
  - intros v' R. destruct (same_game_steps _ w _ H' H (symmetry S) R) as (v & Rv & Sv). symmetry in Sv. exists v. split; [done|]. split; [done|]. pose proof (steps_wf _ _ Rv H) as Hv.
    apply same_game_digest; [done|done|by apply bands_total].
Qed.

(** (C15) Whatever a save holds, loading it does not panic.  If it is refused, the
    world is as it was; if it is accepted, the loaded world is well formed and
    has the columns, orders, handles, clock and random state of the save, its
    own rules, and, when the save carries a registry, that registry. *)
Theorem load_contract (s : WorldSaveState) (w : t) (T : typed s) (B : Forall (Forall (fun v => 0 <= v)) (build_rows s)) (R : Forall stats_ok (unit_stats (rules w))) :
  exists r w', import_save_state s w = Some (r, w') /\
  match r with
  | Err _ => w' = w
  | Ok _ =>
      world_wf w' /\ units w' = s_units s /\ unit_orders w' = s_orders s /\ unit_type_id w' = s_types s /\ move_step_x w' = s_step_x s /\ move_step_y w' = s_step_y s /\
      handle_of_row w' = s_handles s /\ generations w' = s_gens s /\ live w' = s_live s /\ capacity w' = s_capacity s /\ frame w' = s_frame s /\ seconds w' = s_seconds s /\
      Random.state (random w') = random_state s /\ rules w' = rules w /\
      (forall who, ObjectRegistry.is_active who (objects w') = default false (active_slots s !! who)) /\
      (forall who k, Dense.at_ (objects w') who Build k = rows ← build_rows s !! who; rows !! k) /\
      (forall z, s_bands s = Some z -> SparseObjectBands.snapshot (object_bands w') = Ok z)
  end.
Proof.
  pose proof (validate_safe s T B) as Hs. rewrite import_good. destruct (validate_and_rebuild s) as [[[[r bands] rows]|e]|] eqn:E; [| |done].
  - exists (Ok tt), (loaded s r bands rows w). split; [done|]. destruct (validate_sound s r bands rows T E) as [A Hz]. split; [by apply accepted_wf|].
    destruct (a_rebuilt _ _ _ _ A) as (es & Rb & _). split_and!; try done; simpl.
    + intros who. unfold ObjectRegistry.is_active. by rewrite (r_active _ _ _ Rb).
    + apply Rb.
  - exists (Err e), w. by split.
Qed.

(** In every well-formed world the sparse registry is the one the dense bands give. *)
Theorem dense_equivalent w (H : world_wf w) : object_bands_are_dense_equivalent w = Some true.
Proof.
  destruct (dense_listing w H) as (es & Ees & L). pose proof (mirrored_holds _ _ _ _ _ (w_sparse _ H) (w_marks _ H) (w_objects _ H) (w_mirror _ H) L) as H1.
  pose proof (mirrored_gapfree _ _ _ _ _ (w_sparse _ H) (w_marks _ H) (w_objects _ H) (w_mirror _ H) L) as G.
  assert (Hact : length (SparseObjectBands.active (object_bands w)) = SimSparse.OWNER_SLOTS) by apply (wf_active _ (w_sparse _ H)).
  destruct (from_dense_entries_total _ es Hact G) as (r & s & E & H2). destruct (holds_snapshot _ _ _ H1) as [z Ez].
  unfold object_bands_are_dense_equivalent, derive_object_bands_from_dense. rewrite Ees. cbn [chk_bind good]. rewrite (actives_listed _ (w_objects _ H)), <- (w_active _ H), E.
  cbn [chk_bind good mismatch]. rewrite Ez, (holds_image _ _ _ _ _ H1 H2 Ez). by rewrite bool_decide_true.
Qed.

(** ** A skirmish, saved *)

Module Saved.

Definition nothing_saved : SparseRegistrySnapshot WorldObjectIdentity := mkSnapshot [] [].

(** Three units under way and a building. *)
Definition fort : t := match register_non_unit 2 Build 0 Skirmish.marching with Some w => w | None => Skirmish.marching end.
Definition fort_bands : SparseRegistrySnapshot WorldObjectIdentity := match SparseObjectBands.snapshot (object_bands fort) with Ok z => z | Err _ => nothing_saved end.
Definition fort_save : WorldSaveState := save_of fort fort_bands.

Lemma fort_wf : world_wf fort.
Proof.
  unfold fort. destruct (register_non_unit 2 Build 0 Skirmish.marching) as [w|] eqn:E; [|exact Skirmish.marching_wf].
  apply (register_non_unit_wf 2 Build 0 Skirmish.marching w Skirmish.marching_wf); [unfold OWNER_SLOTS; lia|exact E].
Qed.

Lemma fort_snapshot : SparseObjectBands.snapshot (object_bands fort) = Ok fort_bands.
Proof. unfold fort_bands. destruct (SparseObjectBands.snapshot (object_bands fort)) as [z|e] eqn:E; [done|]. vm_compute in E. discriminate E. Qed.

Lemma fort_savable : savable fort.
Proof.
  split.
  - apply (check_targets_good _ _ 0). vm_compute. reflexivity.
  - intros who. do 10 (destruct who as [|who]; [vm_compute; reflexivity|]). vm_compute. reflexivity.
  - intros who Hw. unfold BANDED_SLOTS in Hw. do 8 (destruct who as [|who]; [exfalso; lia|]). do 2 (destruct who as [|who]; [vm_compute; reflexivity|]). vm_compute. reflexivity.
  - assert (concat (builds_of fort) = [0]) as -> by (vm_compute; reflexivity). apply NoDup_singleton.
  - assert (concat (builds_of fort) = [0]) as -> by (vm_compute; reflexivity). constructor; [done|constructor].
Qed.

Lemma dense_equivalent_witness : object_bands_are_dense_equivalent fort = Some true.
Proof. exact (dense_equivalent fort fort_wf). Defined.

Lemma load_contract_witness : exists w', import_save_state fort_save Skirmish.start = Some (Ok tt, w') /\ world_wf w' /\ live w' = 3%nat /\ row_of (mkHandle 2 0) w' = Some 2%nat.
Proof.
  destruct (load_contract fort_save Skirmish.start (save_typed fort fort_wf fort_bands fort_snapshot)) as (r & w' & E & C).
  - assert (build_rows fort_save = [[]; []; [0]; []; []; []; []; []; []; []]) as -> by (vm_compute; reflexivity).
    repeat (apply Forall_cons_2; [repeat (apply Forall_cons_2; [done|]); apply Forall_nil_2|]). apply Forall_nil_2.
  - apply Forall_nil_2.
  - assert (Er : fst <$> import_save_state fort_save Skirmish.start = Some (Ok tt)) by (vm_compute; reflexivity).
    assert (Ew : (fun x => row_of (mkHandle 2 0) x.2) <$> import_save_state fort_save Skirmish.start = Some (Some 2%nat)) by (vm_compute; reflexivity).
    rewrite E in Er, Ew. simpl in Er, Ew. injection Er as ->. injection Ew as Ew. exists w'. split; [exact E|]. split; [apply C|]. split; [|exact Ew].
    destruct C as (_ & _ & _ & _ & _ & _ & _ & _ & -> & _). vm_compute. reflexivity.
Defined.

Lemma saved_game_resumes_witness : exists s w', export_save_state fort = good s /\ import_save_state s Skirmish.start = Some (Ok tt, w') /\ same_game fort w' /\
  exists v v', step fort = Some v /\ rtc world_step w' v' /\ same_game v v' /\ digest v' = digest v.
Proof.
  destruct (saved_game_resumes fort fort_wf fort_savable) as (s & E & K). destruct (K Skirmish.start) as (w' & Ei & _ & S & G & _); [vm_compute; reflexivity|].
  destruct (step_framed fort fort_wf) as (v & Ev & _). destruct (G v) as (v' & R & Sv); [by apply rtc_once, ws_step|].
  exists s, w'. split; [exact E|]. split; [exact Ei|]. split; [exact S|]. exists v, v'. split; [exact Ev|]. split; [exact R|exact Sv].
Defined.

End Saved.
