(* ===== verification/SimBatch.v ===== *)
(** * Batches of worlds

    [crates/don-sim/src/batch.rs]: many independent worlds, stepped one after
    another or by worker threads.  The threads of [run_parallel] pull chunks of
    worlds from a queue behind a mutex and run each world through all its frames;
    those of [step_parallel] get one chunk each.

    A thread's accesses are to the queue, under the lock, and to the worlds of
    the chunk it holds, which [chunks_mut] makes disjoint; an execution is any
    interleaving of the threads' steps, one pop or one frame at a time
    ([Threads.step]).  Whatever the interleaving, it ends, and it ends with what
    the serial loop gives ([Threads.completes]).

    [None] is a panic, as in [SimWorld]. *)

From S2P Require Import Prelude SimArith SimKernels SimRandom SimObjects SimSparse SimSparseSpec SimCols SimLayout SimPayload SimOrder SimWorld SimWorldSpec SimWorldTick SimWorldMain SimDigest.
#[local] Open Scope nat_scope.

(** [slice::chunks(n)] for a positive [n]. *)
Fixpoint chunks_fuel {A} (fuel n : nat) (l : list A) : list (list A) :=
  match fuel, l with
  | S fuel, _ :: _ => take n l :: chunks_fuel fuel n (drop n l)
  | _, _ => []
  end.
Definition chunks {A} (n : nat) (l : list A) : list (list A) := chunks_fuel (length l) n l.

Lemma chunks_fuel_concat {A} fuel n (l : list A) : 0 < n -> length l <= fuel -> concat (chunks_fuel fuel n l) = l.
Proof.
  intros Hn. revert l. induction fuel as [|fuel IH]; intros l Hl; [by destruct l; simpl in *; [|lia]|]. destruct l as [|x l]; [done|].
  cbn [chunks_fuel concat]. rewrite IH; [apply take_drop|]. rewrite length_drop. simpl in *. lia.
Qed.

Lemma chunks_concat {A} n (l : list A) : 0 < n -> concat (chunks n l) = l.
Proof. intros Hn. by apply chunks_fuel_concat. Qed.

(** [for _ in 0..n { f }]. *)
Fixpoint repeat_step {W} (f : W -> option W) (n : nat) (w : W) : option W :=
  match n with O => Some w | S n => w ← f w; repeat_step f n w end.

(** ** Worker threads *)

Module Threads.
Section Threads.
Context {W : Type} (f : W -> option W) (frames : nat).

(** A thread is about to pull, has [n] frames to go on world [i] of its chunk
    with the worlds of [rest] after it, or has left its loop. *)
Inductive worker := Pulling | Running (i n : nat) (rest : list nat) | Finished.

#[local] Instance worker_eq_dec : EqDecision worker.
Proof. solve_decision. Defined.

Record state := mk { queue : list (list nat); workers : list worker; memory : list W }.

(** A thread given a chunk. *)
Definition start (part : list nat) : worker := match part with [] => Pulling | i :: rest => Running i frames rest end.

(** One step of thread [k]. *)
Definition step (k : nat) (s : state) : option state :=
  match workers s !! k with
  | Some Pulling =>
      match queue s with
      | [] => Some (mk [] (<[k := Finished]> (workers s)) (memory s))
      | part :: q => Some (mk q (<[k := start part]> (workers s)) (memory s))
      end
  | Some (Running i (S n) rest) =>
      w ← memory s !! i; w' ← f w;
      Some (mk (queue s) (<[k := Running i n rest]> (workers s)) (<[i := w']> (memory s)))
  | Some (Running _ O rest) => Some (mk (queue s) (<[k := start rest]> (workers s)) (memory s))
  | _ => None
  end.

Definition steps (s s' : state) : Prop := exists k, step k s = Some s'.
Definition all_finished (s : state) : Prop := Forall (fun x => x = Finished) (workers s).

(** ** The outcome does not change *)

(** How many frames of world [i] a thread, and the whole state, still owe. *)
Definition occurrences (i : nat) (l : list nat) : nat := length (List.filter (Nat.eqb i) l).
Definition owes (i : nat) (x : worker) : nat :=
  match x with
  | Running j n rest => (if i =? j then n else 0) + frames * occurrences i rest
  | _ => 0
  end.
Definition todo (i : nat) (s : state) : nat := sum_list_with (owes i) (workers s) + frames * occurrences i (concat (queue s)).

Definition outcome (s : state) (i : nat) : option W := w ← memory s !! i; repeat_step f (todo i s) w.

Lemma occurrences_app i l l' : occurrences i (l ++ l') = occurrences i l + occurrences i l'.
Proof. unfold occurrences. by rewrite List.filter_app, length_app. Qed.
Lemma occurrences_cons i j l : occurrences i (j :: l) = (if i =? j then 1 else 0) + occurrences i l.
Proof. unfold occurrences. simpl. by destruct (i =? j). Qed.

Lemma owes_start i part : owes i (start part) = frames * occurrences i part.
Proof. destruct part as [|j rest]; [unfold occurrences; simpl; lia|]. cbn [start owes]. rewrite occurrences_cons. destruct (i =? j); lia. Qed.

Lemma sum_insert (g : worker -> nat) (l : list worker) k x y : l !! k = Some x -> sum_list_with g (<[k := y]> l) + g x = sum_list_with g l + g y.
Proof.
  revert k. induction l as [|z l IH]; intros [|k] E; try done; simpl in *; [simplify_eq; lia|]. specialize (IH k E). lia.
Qed.

(** The outcome depends on the memory and on what is owed. *)
Lemma outcome_eq s s' i : memory s' = memory s -> todo i s' = todo i s -> outcome s' i = outcome s i.
Proof. unfold outcome. by intros -> ->. Qed.

Lemma step_outcome k s s' i : step k s = Some s' -> outcome s' i = outcome s i.
Proof.
  intros E. unfold step in E. destruct (workers s !! k) as [[|j [|n] rest|]|] eqn:Ek; try done.
  - destruct (queue s) as [|part q] eqn:Eq; simplify_eq; apply outcome_eq; try done; unfold todo; cbn [workers queue]; rewrite Eq.
    + pose proof (sum_insert (owes i) _ _ _ Finished Ek) as Sm. simpl in Sm |- *. lia.
    + pose proof (sum_insert (owes i) _ _ _ (start part) Ek) as Sm. rewrite owes_start in Sm. cbn [concat]. rewrite occurrences_app. simpl in Sm. lia.
  - simplify_eq. apply outcome_eq; [done|]. unfold todo; cbn [workers queue].
    pose proof (sum_insert (owes i) _ _ _ (start rest) Ek) as Sm. rewrite owes_start in Sm. cbn [owes] in Sm. destruct (i =? j); lia.
  - destruct (memory s !! j) as [w|] eqn:Ej; [|done]. cbn [mbind option_bind] in E. destruct (f w) as [w'|] eqn:Ef; [|done].
    cbn [mbind option_bind] in E. simplify_eq. pose proof (sum_insert (owes i) _ _ _ (Running j n rest) Ek) as Sm. cbn [owes] in Sm.
    unfold outcome. cbn [memory]. destruct (decide (i = j)) as [->|Hne].
    + rewrite list_lookup_insert_eq by (by eapply lookup_lt_Some). rewrite Ej. cbn [mbind option_bind]. rewrite Nat.eqb_refl in Sm.
      assert (todo j s = S (todo j (mk (queue s) (<[k:=Running j n rest]> (workers s)) (<[j:=w']> (memory s))))) as -> by (unfold todo; cbn [workers queue]; lia).
      cbn [repeat_step]. by rewrite Ef.
    + rewrite list_lookup_insert_ne by done. replace (i =? j) with false in Sm by (symmetry; by apply Nat.eqb_neq).
      destruct (memory s !! i); [|done]. cbn [mbind option_bind]. f_equal. unfold todo; cbn [workers queue]. lia.
Qed.

Lemma steps_outcome s s' i : rtc steps s s' -> outcome s' i = outcome s i.
Proof. induction 1 as [|s s1 s' [k E] _ IH]; [done|]. rewrite IH. by eapply step_outcome. Qed.

(** ** Every execution ends *)

Definition weight_of (x : worker) : nat := match x with Pulling => 1 | Running _ n rest => n + 2 + length rest * S frames | Finished => 0 end.
Definition weight (s : state) : nat := sum_list_with weight_of (workers s) + sum_list_with (fun part => 1 + length part * S frames) (queue s).

Lemma weight_start part : weight_of (start part) <= 1 + length part * S frames.
Proof. destruct part as [|i rest]; simpl; lia. Qed.

Lemma step_weight k s s' : step k s = Some s' -> weight s' < weight s.
Proof.
  intros E. unfold step in E. destruct (workers s !! k) as [[|j [|n] rest|]|] eqn:Ek; try done.
  - destruct (queue s) as [|part q] eqn:Eq; simplify_eq; unfold weight; cbn [workers queue]; rewrite Eq.
    + pose proof (sum_insert weight_of _ _ _ Finished Ek) as Sm. simpl in Sm |- *. lia.
    + pose proof (sum_insert weight_of _ _ _ (start part) Ek) as Sm. pose proof (weight_start part). simpl in Sm |- *. lia.
  - simplify_eq. unfold weight; cbn [workers queue]. pose proof (sum_insert weight_of _ _ _ (start rest) Ek) as Sm. pose proof (weight_start rest). simpl in Sm. lia.
  - destruct (memory s !! j) as [w|]; [|done]. cbn [mbind option_bind] in E. destruct (f w) as [w'|]; [|done]. cbn [mbind option_bind] in E. simplify_eq.
    unfold weight; cbn [workers queue]. pose proof (sum_insert weight_of _ _ _ (Running j n rest) Ek) as Sm. simpl in Sm. lia.
Qed.

Lemma nsteps_weight n s s' : nsteps steps n s s' -> n + weight s' <= weight s.
Proof. induction 1 as [|n s s1 s' [k E] _ IH]; [lia|]. apply step_weight in E. lia. Qed.

(** ** Every execution completes *)

Context (P : W -> Prop) (Hf : forall w, P w -> exists w', f w = Some w' /\ P w').

Definition indices (x : worker) : list nat := match x with Running i _ rest => i :: rest | _ => [] end.

Record good (s : state) : Prop := {
  g_memory : Forall P (memory s);
  g_queue : Forall (Forall (fun i => i < length (memory s))) (queue s);
  g_workers : Forall (fun x => Forall (fun i => i < length (memory s)) (indices x)) (workers s);
  g_finished : Finished ∈ workers s -> queue s = [];
  g_some : workers s <> [] \/ queue s = [] }.

Lemma indices_start part : indices (start part) = part.
Proof. by destruct part. Qed.

Lemma insert_finished (l : list worker) k x : Finished ∈ <[k := x]> l -> x <> Finished -> Finished ∈ l.
Proof.
  intros (j & Hj)%list_elem_of_lookup Hx. apply list_lookup_insert_Some in Hj as [(_ & E & _)|[_ Hj]]; [by subst|]. by eapply list_elem_of_lookup_2.
Qed.

Lemma insert_nonempty {A} (l : list A) k x : l <> [] -> <[k := x]> l <> [].
Proof. destruct l; [done|]. by destruct k. Qed.

Lemma start_unfinished part : start part <> Finished.
Proof. by destruct part. Qed.

Lemma step_good k s s' : good s -> step k s = Some s' -> good s'.
Proof.
  intros G E. destruct G as [Gm Gq Gw Gf Gs]. unfold step in E. destruct (workers s !! k) as [x|] eqn:Ek; [|done].
  assert (Hne : workers s <> []) by (intros En; by rewrite En in Ek). pose proof (proj1 (Forall_lookup _ _) Gw _ _ Ek) as Hx.
  destruct x as [|j [|n] rest|]; try done.
  - destruct (queue s) as [|part q] eqn:Eq; simplify_eq.
    + split; cbn [memory queue workers]; try done; [by apply Forall_insert|by right].
    + apply Forall_cons in Gq as [Hp Gq]. split; cbn [memory queue workers]; try done.
      * apply Forall_insert; [done|]. by rewrite indices_start.
      * intros Hfin. apply insert_finished in Hfin; [|apply start_unfinished]. by apply Gf in Hfin.
      * left. by apply insert_nonempty.
  - simplify_eq. apply Forall_cons in Hx as [_ Hx]. split; cbn [memory queue workers]; try done.
    + apply Forall_insert; [done|]. by rewrite indices_start.
    + intros Hfin. apply Gf. by eapply insert_finished; [|apply start_unfinished].
    + left. by apply insert_nonempty.
  - destruct (memory s !! j) as [w|] eqn:Ej; [|done]. cbn [mbind option_bind] in E. destruct (f w) as [w'|] eqn:Ef; [|done].
    cbn [mbind option_bind] in E. simplify_eq. split; cbn [memory queue workers]; rewrite ?length_insert; try done.
    + apply Forall_insert; [done|]. destruct (Hf w) as (w2 & E2 & H2); [by eapply Forall_lookup in Ej|]. congruence.
    + by apply Forall_insert.
    + intros Hfin. apply Gf. by eapply insert_finished.
    + left. by apply insert_nonempty.
Qed.

Lemma progress s : good s -> all_finished s \/ exists s', steps s s'.
Proof.
  intros G. assert (D : all_finished s \/ exists k x, workers s !! k = Some x /\ x <> Finished).
  { unfold all_finished. induction (workers s) as [|x l [IH|(k & y & Ek & Hy)]]; [by left| |right; by exists (S k), y].
    destruct (decide (x = Finished)) as [->|Hx]; [left; by constructor|right; by exists 0, x]. }
  destruct D as [A|(k & x & Ek & Hx)]; [by left|right]. pose proof (proj1 (Forall_lookup _ _) (g_workers _ G) _ _ Ek) as Hi.
  destruct x as [|j [|n] rest|]; [| | |done].
  - destruct (queue s) eqn:Eq; eexists; exists k; unfold step; by rewrite Ek, Eq.
  - eexists. exists k. unfold step. by rewrite Ek.
  - apply Forall_cons in Hi as [Hj _]. destruct (lookup_lt_is_Some_2 _ _ Hj) as [w Ew]. destruct (Hf w) as (w' & E & _); [by eapply Forall_lookup in Ew; [|apply G]|].
    eexists. exists k. unfold step. rewrite Ek, Ew. cbn [mbind option_bind]. by rewrite E.
Qed.

Lemma steps_good s s' : good s -> rtc steps s s' -> good s'.
Proof. intros G R. induction R as [|s s1 s' [k E] _ IH]; [done|]. apply IH. by eapply step_good. Qed.

Lemma step_length k s s' : step k s = Some s' -> length (memory s') = length (memory s).
Proof.
  unfold step. intros E. repeat case_match; simplify_eq; try done. destruct (memory s !! i); [|done]. cbn [mbind option_bind] in E.
  destruct (f _); [|done]. cbn [mbind option_bind] in E. simplify_eq. apply length_insert.
Qed.

Lemma finished_todo s i : good s -> all_finished s -> todo i s = 0.
Proof.
  intros G A. unfold todo. assert (queue s = []) as ->.
  { destruct (g_some _ G) as [Hne|]; [|done]. apply (g_finished _ G). unfold all_finished in A. destruct (workers s) as [|x l]; [done|].
    apply Forall_cons in A as [-> _]. apply list_elem_of_here. }
  unfold occurrences. cbn [concat List.filter length]. rewrite Nat.mul_0_r, Nat.add_0_r. unfold all_finished in A. induction A as [|x l -> _ IH]; [done|]. exact IH.
Qed.

(** From a good state, however the threads are interleaved: as long as a thread
    has work some thread can go on, an execution has at most [weight s] steps,
    and when all threads have left their loops every world has been through
    exactly the frames it was owed. *)
Lemma completes s :
  good s ->
  (forall s', rtc steps s s' -> (exists s2, steps s' s2) \/ all_finished s') /\
  (forall n s', nsteps steps n s s' -> n <= weight s) /\
  (forall s', rtc steps s s' -> all_finished s' -> length (memory s') = length (memory s) /\ forall i, memory s' !! i = outcome s i).
Proof.
  intros G. split_and!.
  - intros s' R. pose proof (steps_good _ _ G R) as G'. destruct (progress _ G'); tauto.
  - intros n s' R. apply nsteps_weight in R. lia.
  - intros s' R A. split; [clear A; induction R as [|s s1 s' [k E] _ IH]; [done|]; rewrite IH by (by eapply step_good); by eapply step_length|].
    intros i. rewrite <- (steps_outcome _ _ i R). unfold outcome. rewrite (finished_todo _ _ (steps_good _ _ G R) A). by destruct (memory s' !! i).
Qed.
End Threads.
End Threads.

(** ** The batch *)

(** [for w in &mut self.worlds { .. }]. *)
Fixpoint for_each {W} (f : W -> option W) (l : list W) : option (list W) :=
  match l with [] => Some [] | w :: l => w' ← f w; l' ← for_each f l; Some (w' :: l') end.

(** A call that returns, or that spawns threads and joins them. *)
Inductive run (W : Type) := Returns (r : option (list W)) | Spawns (frames : nat) (s : Threads.state (W := W)).
Arguments Returns {W} r.
Arguments Spawns {W} frames s.

(** The body of [run_parallel], [run_hot_parallel] and [LaneBatch::run_parallel]
    over their items. *)
Definition pull {W} (f : W -> option W) (frames threads : nat) (l : list W) : run W :=
  let threads := Nat.max threads 1 in
  if frames =? 0 then Returns (Some l)
  else if (threads =? 1) || (length l <? 2) then Returns (for_each (repeat_step f frames) l)
  else
    let grab := Nat.max (length l / (threads * 4)) 1 in
    Spawns frames (Threads.mk (chunks grab (seq 0 (length l))) (replicate threads Threads.Pulling) l).

Module Batch.
#[local] Open Scope Z_scope.

Definition t : Type := list World.t.

Definition GOLDEN : Z := 0x9E3779B97F4A7C15.
Definition with_capacity (n : nat) (base_seed : Z) (c : nat) : t :=
  (fun i => World.with_capacity c (Z.lxor base_seed (u64 (Z.of_nat i * GOLDEN)))) <$> seq 0 n.
Definition new (n : nat) (base_seed : Z) : t := with_capacity n base_seed MAX_UNITS.

Definition spawn_once (w : World.t) : option World.t := snd <$> World.spawn 0 w.
Definition populate (units_per_world : nat) (b : t) : option t := for_each (repeat_step spawn_once units_per_world) b.

Definition live_units (b : t) : nat := sum_list_with World.live b.

Definition step_serial (b : t) : option t := for_each World.step b.
Definition run_serial (frames : nat) (b : t) : option t := for_each (repeat_step World.step frames) b.

Definition div_ceil (a b : nat) : nat := ((a + b - 1) / b)%nat.
Definition step_parallel (threads : nat) (b : t) : run World.t :=
  let threads := Nat.max threads 1 in
  if ((threads =? 1) || (length b <? 2))%nat then Returns (step_serial b)
  else
    let chunk := div_ceil (length b) threads in
    Spawns 1 (Threads.mk [] (Threads.start 1 <$> chunks chunk (seq 0 (length b))) b).
Definition run_parallel (frames threads : nat) (b : t) : run World.t := pull World.step frames threads b.

Definition hot (w : World.t) : option World.t := Some (World.step_hot w).
Definition step_hot_serial (b : t) : option t := for_each hot b.
Definition run_hot_serial (frames : nat) (b : t) : option t := for_each (repeat_step hot frames) b.
Definition run_hot_parallel (frames threads : nat) (b : t) : run World.t := pull hot frames threads b.

(** [energise]: a step and a cooldown for every live row. *)
Definition energise_row (wi : nat) (w : World.t) (row : nat) : option World.t :=
  let k := i32 (Z.of_nat (wi * 7 + row * 13)) in
  w ← World.set_move_step row (Z.rem k 251 - 125) (Z.rem k 197 - 98) w;
  World.set_z f_hold_frames row (i16 (Z.rem k 23)) w.
Fixpoint energise_rows (wi : nat) (rows : list nat) (w : World.t) : option World.t :=
  match rows with [] => Some w | r :: rows => w ← energise_row wi w r; energise_rows wi rows w end.
Fixpoint energise_from (wi : nat) (b : t) : option t :=
  match b with [] => Some [] | w :: b => w' ← energise_rows wi (seq 0 (World.live w)) w; b' ← energise_from (S wi) b; Some (w' :: b') end.
Definition energise (b : t) : option t := energise_from 0 b.

Fixpoint digest_from (h : Z) (b : t) : option Z :=
  match b with [] => Some h | w :: b => d ← SimDigest.digest w; digest_from (mix h d) b end.
Definition digest (b : t) : option Z := digest_from FNV_BASIS b.

End Batch.

(** ** Parallel runs are serial runs *)

(** What a run comes to: the value returned; or, for threads, every execution
    bounded in length, able to go on while a thread has work, and ending with
    the value. *)
Definition yields {W} (f : W -> option W) (r : run W) (l' : list W) : Prop :=
  match r with
  | Returns r => r = Some l'
  | Spawns frames s =>
      (exists bound, forall n s', nsteps (Threads.steps f frames) n s s' -> n <= bound) /\
      (forall s', rtc (Threads.steps f frames) s s' ->
         (exists s2, Threads.steps f frames s' s2) \/ (Threads.all_finished s' /\ Threads.memory s' = l'))
  end.

Section Serial.
Context {W : Type} (f : W -> option W) (P : W -> Prop) (Hf : forall w, P w -> exists w', f w = Some w' /\ P w').

Lemma repeat_step_total n w : P w -> exists w', repeat_step f n w = Some w' /\ P w'.
Proof.
  revert w. induction n as [|n IH]; intros w Hw; [by exists w|]. cbn [repeat_step]. destruct (Hf w Hw) as (w1 & -> & H1). cbn [mbind option_bind]. by apply IH.
Qed.

Lemma for_each_total (g : W -> option W) (Hg : forall w, P w -> exists w', g w = Some w' /\ P w') l :
  Forall P l -> exists l', for_each g l = Some l' /\ Forall P l' /\ length l' = length l /\ forall i, l' !! i = w ← l !! i; g w.
Proof.
  induction 1 as [|w l Hw _ (l' & E & F & L & G)]; [by exists []|]. destruct (Hg w Hw) as (w' & Ew & Hw'). exists (w' :: l').
  cbn [for_each]. rewrite Ew. cbn [mbind option_bind]. rewrite E. split; [done|]. split; [by constructor|]. split; [simpl; lia|].
  intros [|i]; [simpl; by rewrite Ew|]. apply G.
Qed.

Lemma spawned_good (q : list (list nat)) (ws : list Threads.worker) (l : list W) :
  Forall P l -> concat q ++ concat (Threads.indices <$> ws) = seq 0 (length l) -> Threads.Finished ∉ ws -> ws <> [] \/ q = [] ->
  Threads.good P (Threads.mk q ws l).
Proof.
  intros Hl Hs Hn He. assert (A : Forall (fun i => i < length l) (concat q ++ concat (Threads.indices <$> ws))) by (rewrite Hs; apply Forall_seq; lia).
  apply Forall_app in A as [Aq Aw]. apply Forall_concat in Aq, Aw. split; cbn [Threads.memory Threads.queue Threads.workers]; try done.
  by apply Forall_fmap.
Qed.

(** Every world is owed [frames] frames at the start. *)
Lemma occurrences_seq i n : Threads.occurrences i (seq 0 n) = if i <? n then 1 else 0.
Proof.
  induction n as [|n IH]; [done|]. rewrite seq_S, Threads.occurrences_app, IH, Threads.occurrences_cons. cbn [Nat.add]. change (Threads.occurrences i []) with 0.
  destruct (Nat.ltb_spec i n), (Nat.eqb_spec i n), (Nat.ltb_spec i (S n)); lia.
Qed.

Lemma spawned_yields frames (q : list (list nat)) (ps : list (list nat)) (idle : nat) (l : list W) :
  Forall P l -> concat q ++ concat ps = seq 0 (length l) -> ps <> [] \/ 0 < idle \/ q = [] ->
  exists l', for_each (repeat_step f frames) l = Some l' /\ Forall P l' /\
    yields f (Spawns frames (Threads.mk q ((Threads.start frames <$> ps) ++ replicate idle Threads.Pulling) l)) l'.
Proof.
  intros Hl Hs He. destruct (for_each_total (repeat_step f frames) (repeat_step_total frames) l Hl) as (l' & E & F & L & G). exists l'. split_and!; [done|done|].
  set (s := Threads.mk _ _ _). assert (Gs : Threads.good P s).
  { apply spawned_good; [done| | |].
    - rewrite fmap_app, concat_app. assert (concat (Threads.indices <$> replicate idle Threads.Pulling) = []) as -> by (clear; induction idle; done).
      rewrite app_nil_r, <- Hs. f_equal. f_equal. rewrite <- list_fmap_compose. rewrite <- (list_fmap_id ps) at 2. apply list_fmap_ext. intros. apply Threads.indices_start.
    - rewrite elem_of_app, list_elem_of_fmap. intros [(p & E1 & _)|E1]; [by apply (Threads.start_unfinished frames p)|]. by apply elem_of_replicate in E1 as [? _].
    - destruct He as [He|[He|He]]; [left|left|by right]; [by destruct ps|]. destruct idle; [lia|]. by destruct ps. }
  assert (O : forall i, Threads.outcome f frames s i = l' !! i).
  { intros i. rewrite G. unfold Threads.outcome. change (Threads.memory s) with l. destruct (l !! i) as [w|] eqn:Ei; [|done]. cbn [mbind option_bind]. f_equal.
    unfold Threads.todo, s. cbn [Threads.workers Threads.queue]. rewrite sum_list_with_app.
    assert (sum_list_with (Threads.owes frames i) (replicate idle Threads.Pulling) = 0) as -> by (clear; induction idle; done).
    assert (sum_list_with (Threads.owes frames i) (Threads.start frames <$> ps) = frames * Threads.occurrences i (concat ps)) as ->.
    { clear. induction ps as [|p ps IH]; [unfold Threads.occurrences; simpl; lia|]. cbn [fmap list_fmap sum_list_with concat]. rewrite IH, Threads.owes_start, Threads.occurrences_app. lia. }
    apply (f_equal (Threads.occurrences i)) in Hs. rewrite Threads.occurrences_app, occurrences_seq in Hs. apply lookup_lt_Some in Ei.
    rewrite (proj2 (Nat.ltb_lt _ _) Ei) in Hs. nia. }
  destruct (Threads.completes f frames P Hf s Gs) as (C1 & C2 & C3). split; [by exists (Threads.weight frames s)|]. intros s' R.
  destruct (C1 s' R) as [?|A]; [by left|right]. split; [done|]. destruct (C3 s' R A) as [_ M]. apply list_eq. intros i. by rewrite M, O.
Qed.

Lemma pull_yields frames threads l : Forall P l -> exists l', for_each (repeat_step f frames) l = Some l' /\ Forall P l' /\ yields f (pull f frames threads l) l'.
Proof.
  intros Hl. destruct (for_each_total (repeat_step f frames) (repeat_step_total frames) l Hl) as (l1 & E1 & F1 & _). unfold pull.
  destruct (Nat.eqb_spec frames 0) as [->|Hf0].
  { exists l1. split_and!; [done|done|]. simpl. f_equal. clear F1 Hl. revert l1 E1. induction l as [|w l IH]; intros l1 E1; [by simplify_eq/=|].
    cbn [for_each repeat_step mbind option_bind] in E1. destruct (for_each _ l) as [l2|]; [|done]. cbn [mbind option_bind] in E1. simplify_eq. f_equal. exact (IH _ eq_refl). }
  destruct (_ || _)%bool; [by exists l1|].
  destruct (spawned_yields frames (chunks (Nat.max (length l / (Nat.max threads 1 * 4)) 1) (seq 0 (length l))) [] (Nat.max threads 1) l Hl) as (l' & E & F & Y).
  - rewrite app_nil_r. apply chunks_concat. lia.
  - right. left. lia.
  - by exists l'.
Qed.
End Serial.

Lemma step_total w : world_wf w -> exists w', World.step w = Some w' /\ world_wf w'.
Proof. intros H. destruct (step_framed w H) as (w' & E & F). exists w'. split; [done|]. apply F. Qed.

Lemma hot_total w : world_wf w -> exists w', Batch.hot w = Some w' /\ world_wf w'.
Proof. intros H. eexists. split; [done|]. apply hot_wf; [apply integrate_length|intros; apply length_map|done]. Qed.

Lemma step_parallel_yields threads b :
  Forall world_wf b -> exists b', Batch.step_serial b = Some b' /\ Forall world_wf b' /\ yields World.step (Batch.step_parallel threads b) b'.
Proof.
  intros Hb. unfold Batch.step_serial.
  assert (E1 : forall l : Batch.t, for_each World.step l = for_each (repeat_step World.step 1) l).
  { induction l as [|w l IH]; [done|]. cbn [for_each repeat_step]. rewrite IH. by destruct (World.step w). }
  destruct (for_each_total world_wf World.step step_total b Hb) as (b1 & Eb & F & _). unfold Batch.step_parallel.
  destruct (_ || _)%bool eqn:C; [by exists b1|]. apply orb_false_iff in C as [C1 C2]. apply Nat.eqb_neq in C1. apply Nat.ltb_ge in C2.
  destruct (spawned_yields World.step world_wf step_total 1 [] (chunks (Batch.div_ceil (length b) (Nat.max threads 1)) (seq 0 (length b))) 0 b Hb) as (b' & E & F' & Y).
  - simpl. apply chunks_concat. unfold Batch.div_ceil. apply Nat.div_str_pos. lia.
  - by right; right.
  - exists b'. rewrite E1. split_and!; [done|done|]. by rewrite app_nil_r in Y.
Qed.

(** (C6) Threads do not change the simulation.  For a batch of well-formed worlds, any
    number of frames and any number of threads: the serial run succeeds, and the
    parallel run comes to the same batch, whichever thread pulls which chunk and
    however their frames interleave; so does the parallel single step, and so do
    the element-wise runs. *)
Theorem parallel_is_serial (b : Batch.t) (frames threads : nat) (H : Forall world_wf b) :
  (exists b', Batch.run_serial frames b = Some b' /\ Forall world_wf b' /\ yields World.step (Batch.run_parallel frames threads b) b') /\
  (exists b', Batch.step_serial b = Some b' /\ Forall world_wf b' /\ yields World.step (Batch.step_parallel threads b) b') /\
  (exists b', Batch.run_hot_serial frames b = Some b' /\ Forall world_wf b' /\ yields Batch.hot (Batch.run_hot_parallel frames threads b) b').
Proof.
  split_and!.
  - exact (pull_yields World.step world_wf step_total frames threads b H).
  - by apply step_parallel_yields.
  - exact (pull_yields Batch.hot world_wf hot_total frames threads b H).
Qed.

Lemma parallel_is_serial_witness :
  exists b', Batch.run_serial 2 [Skirmish.marching; Skirmish.marching] = Some b' /\
    yields World.step (Batch.run_parallel 2 2 [Skirmish.marching; Skirmish.marching]) b'.
Proof.
  assert (H : Forall world_wf [Skirmish.marching; Skirmish.marching]) by exact (Forall_cons_2 _ _ _ Skirmish.marching_wf (Forall_cons_2 _ _ _ Skirmish.marching_wf (Forall_nil_2 _))).
  destruct (parallel_is_serial _ 2 2 H) as ((b' & E & _ & Y) & _). exists b'. split; [exact E|exact Y].
Defined.
