(* ===== verification/SimLanes.v ===== *)
(** * Lane-major stepping

    [crates/don-sim/src/interleave.rs]: the element-wise frame on groups of four
    worlds, transposed so that element [(row, lane)] is at [row * LANES + lane]
    and rows past a world's population are zero.  [LaneBatch] is compiled from a
    batch, run, and written back.

    The result is the batch that [run_hot_serial] gives, to the last column and
    the frame counter ([lanes_are_worlds]), also when the lanes are run by
    threads. *)

From S2P Require Import Prelude SimArith SimKernels SimRandom SimObjects SimSparse SimSparseSpec SimCols SimLayout SimPayload SimOrder SimWorld SimWorldSpec SimWorldTick SimWorldMain SimDigest SimBatch.
#[local] Open Scope Z_scope.

Definition LANES : nat := 4.

Record Group := mkGroup {
  rows : nat; glive : list nat; used : nat;
  pos_x : list Z; pos_y : list Z; step_x : list Z; step_y : list Z; cooldown : list Z }.

(** A kernel run on [v[..n]]. *)
Definition on_prefix (n : nat) (k : list Z -> list Z) (v : list Z) : list Z := k (take n v) ++ drop n v.

Definition Group_step (g : Group) : Group :=
  let n := (rows g * LANES)%nat in
  mkGroup (rows g) (glive g) (used g)
    (on_prefix n (fun v => integrate_wrap v (take n (step_x g)) MAP_SPAN) (pos_x g))
    (on_prefix n (fun v => integrate_wrap v (take n (step_y g)) MAP_SPAN) (pos_y g))
    (step_x g) (step_y g) (on_prefix n tick_down (cooldown g)).

Record LaneBatch := mkLanes { groups : list Group; frames_run : Z }.

(** One element of a lane. *)
Definition fill_row (lane : nat) (w : World.t) (g : Group) (row : nat) : option Group :=
  let k := (row * LANES + lane)%nat in
  x ← UnitCols.slice f_x_internal (World.units w) !! row;
  y ← UnitCols.slice f_y_internal (World.units w) !! row;
  sx ← World.move_step_x w !! row;
  sy ← World.move_step_y w !! row;
  c ← UnitCols.slice f_hold_frames (World.units w) !! row;
  Some (mkGroup (rows g) (glive g) (used g) (<[k := x]> (pos_x g)) (<[k := y]> (pos_y g)) (<[k := sx]> (step_x g)) (<[k := sy]> (step_y g)) (<[k := c]> (cooldown g))).
Fixpoint fill_rows (lane : nat) (w : World.t) (rs : list nat) (g : Group) : option Group :=
  match rs with [] => Some g | r :: rs => g ← fill_row lane w g r; fill_rows lane w rs g end.
Definition set_live (lane n : nat) (g : Group) : Group :=
  mkGroup (rows g) (<[lane := n]> (glive g)) (used g) (pos_x g) (pos_y g) (step_x g) (step_y g) (cooldown g).
Fixpoint fill (lane : nat) (ws : list World.t) (g : Group) : option Group :=
  match ws with
  | [] => Some g
  | w :: ws => g ← fill_rows lane w (seq 0 (World.live w)) (set_live lane (World.live w) g); fill (S lane) ws g
  end.

Definition max_live (ws : list World.t) : nat := fold_right Nat.max 0%nat (World.live <$> ws).
Definition blank (ws : list World.t) : Group :=
  let z := replicate (max_live ws * LANES) 0 in
  mkGroup (max_live ws) (replicate LANES 0%nat) (length ws) z z z z z.
Definition group_of (ws : list World.t) : option Group := fill 0 ws (blank ws).

Fixpoint groups_of (cs : list (list World.t)) : option (list Group) :=
  match cs with [] => Some [] | c :: cs => g ← group_of c; gs ← groups_of cs; Some (g :: gs) end.
Definition from_worlds (ws : list World.t) : option LaneBatch := gs ← groups_of (chunks LANES ws); Some (mkLanes gs 0).

Definition step_group (g : Group) : option Group := Some (Group_step g).
Definition lane_step (lb : LaneBatch) : option LaneBatch :=
  gs ← for_each step_group (groups lb); Some (mkLanes gs (u64 (frames_run lb + 1))).
Definition lane_run_serial (frames : nat) (lb : LaneBatch) : option LaneBatch :=
  gs ← for_each (repeat_step step_group frames) (groups lb); Some (mkLanes gs (u64 (frames_run lb + Z.of_nat frames))).
(** [run_parallel] returns at once, or starts threads over the groups and, once
    they are all done, adds the frames to the counter [ran] it had
    ([lane_join], after the scope). *)
Inductive lane_run := LaneReturns (r : option LaneBatch) | LaneSpawns (frames : nat) (s : Threads.state (W := Group)) (ran : Z).

Definition lane_run_parallel (frames threads : nat) (lb : LaneBatch) : lane_run :=
  let threads := Nat.max threads 1 in
  if (frames =? 0)%nat then LaneReturns (Some lb)
  else if ((threads =? 1) || (length (groups lb) <? 2))%nat then LaneReturns (lane_run_serial frames lb)
  else
    let grab := Nat.max (length (groups lb) / (threads * 4)) 1 in
    LaneSpawns frames (Threads.mk (chunks grab (seq 0 (length (groups lb)))) (replicate threads Threads.Pulling) (groups lb)) (frames_run lb).
Definition lane_join (frames : nat) (s : Threads.state (W := Group)) (ran : Z) : LaneBatch :=
  mkLanes (Threads.memory s) (u64 (ran + Z.of_nat frames)).

(** The run ends, whatever the interleaving, and always with [lb']. *)
Definition lane_yields (r : lane_run) (lb' : LaneBatch) : Prop :=
  match r with
  | LaneReturns r => r = Some lb'
  | LaneSpawns frames s ran =>
      (exists bound, forall n s', nsteps (Threads.steps step_group frames) n s s' -> n <= bound)%nat /\
      (forall s', rtc (Threads.steps step_group frames) s s' ->
         (exists s2, Threads.steps step_group frames s' s2) \/ (Threads.all_finished s' /\ lane_join frames s' ran = lb'))
  end.

(** [write_back], from the innermost loop out. *)
Definition write_row (g : Group) (lane : nat) (w : World.t) (row : nat) : option World.t :=
  let k := (row * LANES + lane)%nat in
  x ← pos_x g !! k; y ← pos_y g !! k;
  w ← World.set_pos row x y w;
  c ← cooldown g !! k;
  World.set_z f_hold_frames row c w.
Fixpoint write_rows (g : Group) (lane : nat) (rs : list nat) (w : World.t) : option World.t :=
  match rs with [] => Some w | r :: rs => w ← write_row g lane w r; write_rows g lane rs w end.
Definition write_world (ran : Z) (g : Group) (lane : nat) (w : World.t) : option World.t :=
  l ← glive g !! lane;
  if decide (l <> World.live w) then None
  else w ← write_rows g lane (seq 0 l) w; Some (World.advance_frames (i32 ran) w).
Fixpoint write_lanes (ran : Z) (g : Group) (gi : nat) (lanes : list nat) (b : list World.t) : option (list World.t) :=
  match lanes with
  | [] => Some b
  | lane :: lanes =>
      w ← b !! (gi * LANES + lane)%nat;
      w' ← write_world ran g lane w;
      write_lanes ran g gi lanes (<[(gi * LANES + lane)%nat := w']> b)
  end.
Fixpoint write_groups (ran : Z) (gi : nat) (gs : list Group) (b : list World.t) : option (list World.t) :=
  match gs with [] => Some b | g :: gs => b ← write_lanes ran g gi (seq 0 (used g)) b; write_groups ran (S gi) gs b end.
Definition write_back (lb : LaneBatch) (b : list World.t) : option (list World.t) := write_groups (frames_run lb) 0 (groups lb) b.

(** ** The columns of a group *)

Inductive Col := CX | CY | CSX | CSY | CC.

Definition arr_of (c : Col) (g : Group) : list Z :=
  match c with CX => pos_x g | CY => pos_y g | CSX => step_x g | CSY => step_y g | CC => cooldown g end.
Definition val (c : Col) (w : World.t) (row : nat) : Z :=
  match c with
  | CX => UnitCols.cell f_x_internal row (World.units w)
  | CY => UnitCols.cell f_y_internal row (World.units w)
  | CSX => nth row (World.move_step_x w) 0
  | CSY => nth row (World.move_step_y w) 0
  | CC => UnitCols.cell f_hold_frames row (World.units w)
  end.

Definition idx (row lane : nat) : nat := (row * LANES + lane)%nat.

Lemma idx_inj r l r' l' : (l < LANES)%nat -> (l' < LANES)%nat -> idx r l = idx r' l' -> r = r' /\ l = l'.
Proof. unfold idx, LANES. lia. Qed.

(** Every array has [rows * LANES] elements. *)
Definition shape (g : Group) : Prop := length (glive g) = LANES /\ forall c, length (arr_of c g) = (rows g * LANES)%nat.

Lemma slice_cell f row w : world_wf w -> is_field f -> (row < World.live w)%nat ->
  UnitCols.slice f (World.units w) !! row = Some (UnitCols.cell f row (World.units w)).
Proof. intros H Hf Hr. apply (UnitCols.get_live f row (World.units w)); [apply H|done|by rewrite (w_len _ H)]. Qed.

Lemma nth_Some (l : list Z) i : (i < length l)%nat -> l !! i = Some (nth i l 0).
Proof. intros Hi. destruct (lookup_lt_is_Some_2 l i Hi) as [z E]. rewrite E. f_equal. symmetry. by apply nth_lookup_Some. Qed.

Lemma fill_row_ok lane w g row :
  world_wf w -> (row < World.live w)%nat ->
  exists g', fill_row lane w g row = Some g' /\ rows g' = rows g /\ glive g' = glive g /\ used g' = used g /\
    forall c, arr_of c g' = <[idx row lane := val c w row]> (arr_of c g).
Proof.
  intros H Hr. unfold fill_row. rewrite !slice_cell by (done || field_tac). cbn [mbind option_bind].
  rewrite (nth_Some (World.move_step_x w)) by (by rewrite (w_step_x _ H)). rewrite (nth_Some (World.move_step_y w)) by (by rewrite (w_step_y _ H)).
  cbn [mbind option_bind]. eexists. split_and!; [done..|]. by intros [].
Qed.

Lemma shape_insert g g' k v : rows g' = rows g -> glive g' = glive g -> (forall c, arr_of c g' = <[k := v c]> (arr_of c g)) -> shape g -> shape g'.
Proof. intros Er El Ea [S1 S2]. split; [by rewrite El|]. intros c. by rewrite Ea, length_insert, Er, S2. Qed.

Lemma fill_rows_ok lane w rs g :
  world_wf w -> shape g -> (lane < LANES)%nat -> (World.live w <= rows g)%nat -> Forall (fun r => r < World.live w)%nat rs ->
  exists g', fill_rows lane w rs g = Some g' /\ shape g' /\ rows g' = rows g /\ glive g' = glive g /\ used g' = used g /\
    (forall c r, r ∈ rs -> arr_of c g' !! idx r lane = Some (val c w r)) /\
    (forall c r, r ∉ rs -> arr_of c g' !! idx r lane = arr_of c g !! idx r lane) /\
    (forall c r l, (l < LANES)%nat -> l <> lane -> arr_of c g' !! idx r l = arr_of c g !! idx r l).
Proof.
  intros H Sh Hlane Hle Hrs. revert g Sh Hle. induction Hrs as [|r rs Hr _ IH]; intros g Sh Hle.
  { exists g. split_and!; try done. intros c r Hin. by apply not_elem_of_nil in Hin. }
  cbn [fill_rows]. destruct (fill_row_ok lane w g r H Hr) as (g1 & -> & R1 & L1 & U1 & A1). cbn [mbind option_bind].
  pose proof (shape_insert _ _ _ _ R1 L1 A1 Sh) as Sh1. destruct (IH g1 Sh1) as (g' & E & Sh' & R' & L' & U' & I' & N' & O'); [by rewrite R1|].
  exists g'. split_and!; [done|done|congruence|congruence|congruence|..].
  - intros c x Hx. destruct (decide (x ∈ rs)) as [Hin|Hin]; [by apply I'|]. apply elem_of_cons in Hx as [->|]; [|done]. rewrite N' by done. rewrite A1.
    apply list_lookup_insert_eq. rewrite (proj2 Sh). unfold idx. nia.
  - intros c x Hx. rewrite not_elem_of_cons in Hx. destruct Hx as [Hne Hx]. rewrite N' by done. rewrite A1. apply list_lookup_insert_ne.
    intros E1. apply idx_inj in E1; [|done..]. by destruct E1.
  - intros c x l Hl Hne. rewrite O' by done. rewrite A1. apply list_lookup_insert_ne. intros E1. apply idx_inj in E1; [|done..]. by destruct E1.
Qed.

(** A lane holds a world. *)
Record holds (g : Group) (lane : nat) (w : World.t) : Prop := {
  h_live : glive g !! lane = Some (World.live w);
  h_val c row : (row < World.live w)%nat -> arr_of c g !! idx row lane = Some (val c w row) }.

Lemma fill_ok lane ws g :
  Forall world_wf ws -> shape g -> (lane + length ws <= LANES)%nat -> Forall (fun w => World.live w <= rows g)%nat ws ->
  exists g', fill lane ws g = Some g' /\ shape g' /\ rows g' = rows g /\ used g' = used g /\
    (forall j w, ws !! j = Some w -> holds g' (lane + j) w) /\
    (forall l w, (l < lane)%nat -> holds g l w -> holds g' l w).
Proof.
  intros Hws. revert lane g. induction Hws as [|w ws Hw _ IH]; intros lane g Sh Hlen Hle; [exists g; by split_and!|].
  apply Forall_cons in Hle as [Hle1 Hle]. simpl in Hlen. cbn [fill].
  assert (Sh0 : shape (set_live lane (World.live w) g)) by (destruct Sh as [S1 S2]; split; [cbn [set_live glive]; by rewrite length_insert|by intros []; apply (S2 CX) || apply (S2 CY) || apply (S2 CSX) || apply (S2 CSY) || apply (S2 CC)]).
  destruct (fill_rows_ok lane w (seq 0 (World.live w)) (set_live lane (World.live w) g)) as (g1 & -> & Sh1 & R1 & L1 & U1 & I1 & _ & O1);
    [done|done|lia|done|apply Forall_seq; lia|]. cbn [mbind option_bind].
  destruct (IH (S lane) g1 Sh1) as (g' & E & Sh' & R' & U' & I' & K'); [lia|by rewrite R1|]. cbn [set_live rows used glive] in R1, U1, L1.
  exists g'. split_and!; [done|done|congruence|congruence|..].
  - intros [|j] x Ex; simpl in Ex.
    + simplify_eq. rewrite Nat.add_0_r. apply K'; [lia|]. split; [rewrite L1; apply list_lookup_insert_eq; rewrite (proj1 Sh); lia|].
      intros c row Hr. apply I1. apply elem_of_seq. lia.
    + rewrite Nat.add_succ_r. by apply I'.
  - intros l x Hl Hx. apply K'; [lia|]. destruct Hx as [H1 H2]. split; [rewrite L1; rewrite list_lookup_insert_ne by lia; done|].
    intros c row Hr. rewrite O1 by lia. rewrite <- H2 by done. by destruct c.
Qed.

(** ** One frame, in both layouts *)

(** What the element-wise frame does to an element. *)
Definition element (f : field) (w : World.t) (row : nat) : Z :=
  let v := UnitCols.cell f row (World.units w) in
  if decide (World.live w <= row)%nat then v
  else if decide (f = f_x_internal) then wrap_portable MAP_SPAN v (nth row (World.move_step_x w) 0)
  else if decide (f = f_y_internal) then wrap_portable MAP_SPAN v (nth row (World.move_step_y w) 0)
  else if decide (f = f_hold_frames) then down_portable v
  else v.

Lemma for_zip_lookup h p v i a b : p !! i = Some a -> v !! i = Some b -> for_zip h p v !! i = Some (h a b).
Proof. revert p v. induction i as [|i IH]; intros [|x p] [|y v] Ep Ev; simplify_eq/=; [done|]. by apply IH. Qed.

Lemma nth_take_lt_nth (l : list Z) n i : (i < n)%nat -> nth i (take n l) 0 = nth i l 0.
Proof. intros Hi. by rewrite !nth_lookup, lookup_take_lt. Qed.

Lemma nth_zip h u f (l : list Z) row :
  UnitCols.wf u -> is_field f -> (row < UnitCols.len u)%nat -> (row < length l)%nat ->
  nth row (for_zip h (UnitCols.slice f u) l) 0 = h (UnitCols.cell f row u) (nth row l 0).
Proof.
  intros Hu Hf Hr Hl. apply nth_lookup_Some. apply for_zip_lookup; [by apply (UnitCols.get_live f row u)|by apply nth_Some].
Qed.

Lemma hot_element f row w : world_wf w -> is_field f -> (row < World.capacity w)%nat ->
  UnitCols.cell f row (World.units (World.step_hot w)) = element f w row.
Proof.
  intros H Hf Hr. pose proof (live_le _ H) as Hl. pose proof (w_cap _ H) as Hc. pose proof (w_len _ H) as Hn. pose proof (w_cols _ H) as Hu.
  unfold World.step_hot, World.hot. cbv zeta. cbn [World.set_clock World.set_units World.units]. unfold integrate_wrap, integrate_wrap_portable, tick_down, tick_down_portable.
  set (u := World.units w) in *. set (xs := for_zip _ (UnitCols.slice f_x_internal u) _).
  assert (Lx : length xs = World.live w) by (unfold xs; rewrite length_for_zip, UnitCols.length_slice by (done || field_tac); done).
  set (u1 := UnitCols.put_slice f_x_internal xs u). assert (W1 : UnitCols.wf u1) by (apply UnitCols.put_slice_wf; (done || field_tac || lia)).
  assert (K1 : UnitCols.cap u1 = World.capacity w) by (unfold u1; by rewrite UnitCols.cap_put_slice). assert (N1 : UnitCols.len u1 = World.live w) by (unfold u1; by rewrite UnitCols.len_put_slice).
  set (ys := for_zip _ (UnitCols.slice f_y_internal u1) _).
  assert (Ly : length ys = World.live w) by (unfold ys; rewrite length_for_zip, UnitCols.length_slice by (done || field_tac); done).
  set (u2 := UnitCols.put_slice f_y_internal ys u1). assert (W2 : UnitCols.wf u2) by (apply UnitCols.put_slice_wf; (done || field_tac || lia)).
  assert (K2 : UnitCols.cap u2 = World.capacity w) by (unfold u2; by rewrite UnitCols.cap_put_slice). assert (N2 : UnitCols.len u2 = World.live w) by (unfold u2; by rewrite UnitCols.len_put_slice).
  set (cs := map _ (UnitCols.slice f_hold_frames u2)).
  assert (Lc : length cs = World.live w) by (unfold cs; rewrite length_map, UnitCols.length_slice by (done || field_tac); done).
  assert (C1 : forall g, is_field g -> UnitCols.cell g row u1 = if decide (g = f_x_internal /\ row < World.live w)%nat then nth row xs 0 else UnitCols.cell g row u).
  { intros g Hg. unfold u1. rewrite UnitCols.cell_put_slice by (done || field_tac || lia). by rewrite Lx. }
  assert (C2 : forall g, is_field g -> UnitCols.cell g row u2 = if decide (g = f_y_internal /\ row < World.live w)%nat then nth row ys 0 else UnitCols.cell g row u1).
  { intros g Hg. unfold u2. rewrite UnitCols.cell_put_slice by (done || field_tac || lia). by rewrite Ly. }
  rewrite UnitCols.cell_put_slice by (done || field_tac || lia). rewrite Lc. unfold element. fold u.
  destruct (decide (World.live w <= row)%nat) as [G|G].
  { rewrite decide_False by lia. rewrite C2 by done. rewrite decide_False by lia. rewrite C1 by done. by rewrite decide_False by lia. }
  assert (Hlt : (row < World.live w)%nat) by lia.
  destruct (decide (f = f_hold_frames)) as [->|D3].
  { rewrite decide_True by done. rewrite !decide_False by done. apply nth_lookup_Some. unfold cs. change (map ?h ?l) with (h <$> l).
    rewrite list_lookup_fmap. change (UnitCols.slice f_hold_frames u2 !! row) with (UnitCols.get f_hold_frames row u2).
    rewrite UnitCols.get_live by (done || field_tac || lia). simpl. rewrite C2, decide_False, C1, decide_False by (done || field_tac || by intros [? _]). done. }
  rewrite decide_False by tauto. rewrite C2 by done. destruct (decide (f = f_y_internal)) as [->|D2].
  { rewrite decide_True by done. rewrite decide_False by done. unfold ys. rewrite nth_zip by (done || field_tac || (rewrite ?length_take, ?(w_step_y _ H); lia)).
    rewrite C1, decide_False by (done || field_tac || by intros [? _]). f_equal. rewrite nth_take_lt_nth by done. done. }
  rewrite decide_False by tauto. rewrite C1 by done. destruct (decide (f = f_x_internal)) as [->|D1].
  { rewrite decide_True by done. unfold xs. rewrite nth_zip by (done || field_tac || (rewrite ?length_take, ?(w_step_x _ H); lia)).
    f_equal. rewrite nth_take_lt_nth by done. done. }
  by rewrite decide_False by tauto.
Qed.

Lemma on_prefix_whole n k v : length v = n -> on_prefix n k v = k v.
Proof. intros Hv. unfold on_prefix. rewrite take_ge, drop_ge by lia. apply app_nil_r. Qed.

Lemma Group_step_arrays g : shape g ->
  pos_x (Group_step g) = for_zip (wrap_portable MAP_SPAN) (pos_x g) (step_x g) /\ pos_y (Group_step g) = for_zip (wrap_portable MAP_SPAN) (pos_y g) (step_y g) /\
  cooldown (Group_step g) = down_portable <$> cooldown g.
Proof.
  intros [_ Sh]. pose proof (Sh CX). pose proof (Sh CY). pose proof (Sh CSX). pose proof (Sh CSY). pose proof (Sh CC). cbn [arr_of] in *.
  unfold Group_step. cbn [pos_x pos_y cooldown]. rewrite !on_prefix_whole by done. rewrite !(take_ge (step_x g)), !(take_ge (step_y g)) by lia. done.
Qed.

Lemma Group_step_shape g : shape g -> shape (Group_step g).
Proof.
  intros Sh. destruct (Group_step_arrays g Sh) as (Ex & Ey & Ec). destruct Sh as [S1 S2]. split; [done|]. intros c. cbn [Group_step rows].
  destruct c; cbn [arr_of]; rewrite ?Ex, ?Ey, ?Ec, ?length_for_zip, ?length_fmap; [apply (S2 CX)|apply (S2 CY)|apply (S2 CSX)|apply (S2 CSY)|apply (S2 CC)].
Qed.

Lemma step_holds g lane w : world_wf w -> shape g -> holds g lane w -> holds (Group_step g) lane (World.step_hot w).
Proof.
  intros H Sh [H1 H2]. destruct (Group_step_arrays g Sh) as (Ex & Ey & Ec). split; [done|]. intros c row Hr. change (World.live (World.step_hot w)) with (World.live w) in Hr.
  pose proof (live_le _ H). assert (Hrc : (row < World.capacity w)%nat) by lia.
  destruct c; cbn [arr_of val]; rewrite ?Ex, ?Ey, ?Ec; try rewrite hot_element by (done || field_tac); unfold element; rewrite ?(decide_False (P := World.live w <= row)%nat) by lia.
  - rewrite decide_True by done. apply for_zip_lookup; [by apply (H2 CX)|by apply (H2 CSX)].
  - rewrite decide_False, decide_True by done. apply for_zip_lookup; [by apply (H2 CY)|by apply (H2 CSY)].
  - by apply (H2 CSX).
  - by apply (H2 CSY).
  - rewrite !decide_False, decide_True by done. rewrite list_lookup_fmap. pose proof (H2 CC row Hr) as E. cbn [arr_of val] in E. by rewrite E.
Qed.

(** [n] frames. *)
Fixpoint hot_n (n : nat) (w : World.t) : World.t := match n with O => w | S n => hot_n n (World.step_hot w) end.
Fixpoint group_n (n : nat) (g : Group) : Group := match n with O => g | S n => group_n n (Group_step g) end.

Lemma repeat_hot n w : repeat_step Batch.hot n w = Some (hot_n n w).
Proof. revert w. induction n as [|n IH]; intros w; [done|]. cbn [repeat_step hot_n]. exact (IH (World.step_hot w)). Qed.
Lemma repeat_group n g : repeat_step step_group n g = Some (group_n n g).
Proof. revert g. induction n as [|n IH]; intros g; [done|]. cbn [repeat_step group_n]. exact (IH (Group_step g)). Qed.

Lemma step_hot_wf w : world_wf w -> world_wf (World.step_hot w).
Proof. intros H. apply hot_wf; [apply integrate_length|intros; apply length_map|done]. Qed.

Lemma frames_hold n g lane w : world_wf w -> shape g -> holds g lane w -> shape (group_n n g) /\ holds (group_n n g) lane (hot_n n w).
Proof.
  revert g w. induction n as [|n IH]; intros g w H Sh Hh; [done|]. cbn [group_n hot_n]. apply IH; [by apply step_hot_wf|by apply Group_step_shape|by apply step_holds].
Qed.

Lemma group_n_used n g : used (group_n n g) = used g /\ glive (group_n n g) = glive g.
Proof. revert g. induction n as [|n IH]; intros g; [done|]. cbn [group_n]. destruct (IH (Group_step g)) as [-> ->]. done. Qed.

(** The three fields a frame touches, in the live rows. *)
Definition touched (w : World.t) (f : field) (row : nat) : Prop := (row < World.live w)%nat /\ (f = f_x_internal \/ f = f_y_internal \/ f = f_hold_frames).

Lemma hot_n_same n w :
  world_wf w ->
  hot_n n w = World.set_clock (World.frame (hot_n n w)) (World.seconds w) (World.set_units (World.units (hot_n n w)) w) /\
  world_wf (hot_n n w) /\
  (forall f row, is_field f -> (row < World.capacity w)%nat -> ~ touched w f row -> UnitCols.cell f row (World.units (hot_n n w)) = UnitCols.cell f row (World.units w)).
Proof.
  revert w. induction n as [|n IH]; intros w H; [by destruct w|]. cbn [hot_n]. destruct (IH (World.step_hot w) (step_hot_wf w H)) as (E & W & C).
  split; [rewrite E; by destruct w|]. split; [done|]. intros f row Hf Hr Ht. rewrite C; [|done|done|done]. rewrite hot_element by done.
  unfold element, touched in *. repeat case_decide; try done; exfalso; apply Ht; (split; [lia|tauto]).
Qed.

(** The frame counter: [n] increments are one wrapping addition of [n] truncated
    to 32 bits, the count itself kept in 64. *)
Lemma hot_n_frame n w : is_i32 (World.frame w) -> World.frame (hot_n n w) = i32 (World.frame w + i32 (u64 (Z.of_nat n))).
Proof.
  assert (M : forall z, i32 (u64 z) mod 2 ^ 32 = z mod 2 ^ 32).
  { intros z. rewrite wrap_s_mod by done. unfold wrap_u. apply Z.mod_mod_divide. by exists (2 ^ 32). }
  revert w. induction n as [|n IH]; intros w Hw; [change (i32 (u64 (Z.of_nat 0))) with 0; by rewrite Z.add_0_r, wrap_s_id|]. cbn [hot_n].
  rewrite IH by (by apply wrap_s_range). change (World.frame (World.step_hot w)) with (i32 (World.frame w + 1)).
  replace (Z.of_nat (S n)) with (1 + Z.of_nat n) by lia. apply wrap_s_congr.
  rewrite Z.add_mod, M, wrap_s_mod, <- Z.add_mod by done. rewrite (Z.add_mod (World.frame w)), M, <- Z.add_mod by done. f_equal. lia.
Qed.

(** ** Writing back *)

Definition new_cell (X : Col -> nat -> Z) (f : field) (row : nat) (v : Z) : Z :=
  if decide (f = f_x_internal) then X CX row else if decide (f = f_y_internal) then X CY row else if decide (f = f_hold_frames) then X CC row else v.

Lemma write_row_ok g lane w row X :
  UnitCols.wf (World.units w) -> (row < UnitCols.len (World.units w))%nat -> (forall c, arr_of c g !! idx row lane = Some (X c row)) ->
  exists u, write_row g lane w row = Some (World.set_units u w) /\ UnitCols.wf u /\ UnitCols.cap u = UnitCols.cap (World.units w) /\ UnitCols.len u = UnitCols.len (World.units w) /\
    forall f r, is_field f -> (r < UnitCols.cap (World.units w))%nat ->
      UnitCols.cell f r u = if decide (r = row) then new_cell X f r (UnitCols.cell f r (World.units w)) else UnitCols.cell f r (World.units w).
Proof.
  intros Hu Hr Ha. unfold write_row. fold (idx row lane). pose proof (Ha CX) as Ex. pose proof (Ha CY) as Ey. pose proof (Ha CC) as Ec. cbn [arr_of] in Ex, Ey, Ec.
  rewrite Ex. cbn [mbind option_bind]. rewrite Ey. cbn [mbind option_bind]. unfold World.set_pos.
  destruct (UnitCols.set_Some f_x_internal row (X CX row) (World.units w) Hr) as [u1 E1]. rewrite E1. cbn [mbind option_bind].
  destruct (UnitCols.set_dims _ _ _ _ _ E1) as [K1 N1]. pose proof (UnitCols.set_wf _ _ _ _ _ Hu E1) as W1.
  destruct (UnitCols.set_Some f_y_internal row (X CY row) u1) as [u2 E2]; [by rewrite N1|]. rewrite E2. cbn [mbind option_bind].
  destruct (UnitCols.set_dims _ _ _ _ _ E2) as [K2 N2]. pose proof (UnitCols.set_wf _ _ _ _ _ W1 E2) as W2.
  rewrite Ec. cbn [mbind option_bind]. unfold World.set_z. cbn [World.set_units World.units].
  destruct (UnitCols.set_Some f_hold_frames row (X CC row) u2) as [u3 E3]; [by rewrite N2, N1|]. rewrite E3. cbn [mbind option_bind].
  destruct (UnitCols.set_dims _ _ _ _ _ E3) as [K3 N3]. pose proof (UnitCols.set_wf _ _ _ _ _ W2 E3) as W3.
  exists u3. split_and!; [done|done|congruence|congruence|]. intros f r Hf Hrc.
  rewrite (UnitCols.cell_set f_hold_frames row (X CC row) u2 u3 f r) by (done || field_tac || lia).
  rewrite (UnitCols.cell_set f_y_internal row (X CY row) u1 u2 f r) by (done || field_tac || lia).
  rewrite (UnitCols.cell_set f_x_internal row (X CX row) (World.units w) u1 f r) by (done || field_tac || lia). unfold new_cell.
  destruct (decide (r = row)) as [->|Hne]; [|by rewrite !decide_False by tauto].
  destruct (decide (f = f_hold_frames)) as [->|]; [by rewrite decide_True by done|]. rewrite decide_False by tauto.
  destruct (decide (f = f_y_internal)) as [->|]; [by rewrite decide_True by done|]. rewrite decide_False by tauto.
  destruct (decide (f = f_x_internal)) as [->|]; [by rewrite decide_True by done|]. by rewrite decide_False by tauto.
Qed.

Lemma write_rows_ok g lane rs X w :
  UnitCols.wf (World.units w) -> NoDup rs -> Forall (fun r => r < UnitCols.len (World.units w))%nat rs -> (forall c r, r ∈ rs -> arr_of c g !! idx r lane = Some (X c r)) ->
  exists u, write_rows g lane rs w = Some (World.set_units u w) /\ UnitCols.wf u /\ UnitCols.cap u = UnitCols.cap (World.units w) /\ UnitCols.len u = UnitCols.len (World.units w) /\
    forall f r, is_field f -> (r < UnitCols.cap (World.units w))%nat ->
      UnitCols.cell f r u = if decide (r ∈ rs) then new_cell X f r (UnitCols.cell f r (World.units w)) else UnitCols.cell f r (World.units w).
Proof.
  intros Hu Hnd Hrs. revert w Hu Hrs. induction Hnd as [|r rs Hr _ IH]; intros w Hu Hrs Ha.
  { exists (World.units w). split_and!; try done. by destruct w. }
  apply Forall_cons in Hrs as [Hlt Hrs]. cbn [write_rows].
  destruct (write_row_ok g lane w r X Hu Hlt) as (u1 & -> & W1 & K1 & N1 & C1); [intros c; apply Ha, list_elem_of_here|]. cbn [mbind option_bind].
  destruct (IH (World.set_units u1 w)) as (u & E & W & K & N & C); [done|cbn [World.set_units World.units]; by rewrite N1|intros c x Hx; by apply Ha, list_elem_of_further|].
  cbn [World.set_units World.units] in *. exists u. split; [exact E|]. split_and!; [done|congruence|congruence|]. intros f x Hf Hx.
  rewrite C, C1 by (done || congruence). destruct (decide (x ∈ rs)) as [Hin|Hin].
  - rewrite (decide_True (P := x ∈ r :: rs)) by (by apply list_elem_of_further). by rewrite decide_False by (intros ->; done).
  - destruct (decide (x = r)) as [->|Hne]; [by rewrite decide_True by apply list_elem_of_here|].
    rewrite decide_False; [done|]. intros Hc. apply elem_of_cons in Hc. tauto.
Qed.

(** Stores are equal when their cells are. *)
Lemma cols_ext u u' :
  UnitCols.wf u -> UnitCols.wf u' -> UnitCols.cap u' = UnitCols.cap u -> UnitCols.len u' = UnitCols.len u ->
  (forall f r, is_field f -> (r < UnitCols.cap u)%nat -> UnitCols.cell f r u' = UnitCols.cell f r u) -> u' = u.
Proof.
  intros W W' K N C. assert (P : forall p, UnitCols.pool p u' = UnitCols.pool p u).
  { intros p. apply list_eq_same_length with (n := (UnitCols.cap u * planes p)%nat); [by rewrite (UnitCols.wf_pool u W)|by rewrite (UnitCols.wf_pool u' W'), K|].
    intros i x y Hi Ex Ey. set (c := UnitCols.cap u) in *. assert (Hc : (0 < c)%nat) by nia. pose proof (C (p, i / c)%nat (i mod c)%nat) as E. unfold UnitCols.cell in E. cbn [fst snd] in E.
    rewrite K in E. fold c in E. assert (Ei : (i / c * c + i mod c = i)%nat) by (pose proof (Nat.div_mod_eq i c); lia). rewrite Ei in E.
    rewrite (nth_lookup_Some _ _ 0 _ Ex), (nth_lookup_Some _ _ 0 _ Ey) in E. apply E; [|apply Nat.mod_upper_bound; lia].
    unfold is_field. cbn [fst snd]. apply Nat.Div0.div_lt_upper_bound. lia. }
  pose proof (P W4). pose proof (P W2). pose proof (P W1). destruct u, u'; simpl in *. congruence.
Qed.

Lemma write_world_ok ran g lane w n :
  world_wf w -> is_i32 (World.frame w) -> holds g lane (hot_n n w) -> ran = u64 (Z.of_nat n) -> write_world ran g lane w = Some (hot_n n w).
Proof.
  intros H Hf [H1 H2] Hr. destruct (hot_n_same n w H) as (E & Wn & Cn). set (wn := hot_n n w) in *.
  assert (L : World.live wn = World.live w) by (rewrite E; done). unfold write_world. rewrite H1. cbn [mbind option_bind]. rewrite L, decide_False by tauto.
  destruct (write_rows_ok g lane (seq 0 (World.live w)) (fun c r => val c wn r) w) as (u & -> & W & K & N & C).
  { apply H. } { apply NoDup_seq. } { rewrite (w_len _ H). apply Forall_seq. lia. } { intros c r Hin. apply H2. rewrite elem_of_seq in Hin. lia. }
  cbn [mbind option_bind]. f_equal. assert (u = World.units wn) as ->.
  { assert (Cap : World.capacity wn = World.capacity w) by (rewrite E; done). apply cols_ext; [apply Wn|done| | |].
    - by rewrite K, (w_cap _ Wn), Cap, (w_cap _ H).
    - by rewrite N, (w_len _ Wn), L, (w_len _ H).
    - intros f r Ff Hrc. rewrite (w_cap _ Wn), Cap in Hrc. rewrite C by (done || by rewrite (w_cap _ H)). unfold new_cell.
      destruct (decide (r ∈ seq 0 (World.live w))) as [Hin|Hin]; rewrite elem_of_seq in Hin.
      + destruct (decide (f = f_x_internal)) as [->|]; [done|]. destruct (decide (f = f_y_internal)) as [->|]; [done|]. destruct (decide (f = f_hold_frames)) as [->|]; [done|].
        symmetry. apply Cn; [done|done|]. unfold touched. tauto.
      + symmetry. apply Cn; [done|done|]. unfold touched. lia. }
  rewrite E. unfold World.advance_frames. cbn [World.set_clock World.set_units World.frame World.units World.seconds]. rewrite Hr.
  unfold wn. rewrite (hot_n_frame n w Hf). done.
Qed.

Lemma write_lanes_ok ran g gi n pre dn c rest :
  ran = u64 (Z.of_nat n) -> length pre = (gi * LANES)%nat -> Forall (fun w => world_wf w /\ is_i32 (World.frame w)) c ->
  (forall j w, c !! j = Some w -> holds g (length dn + j) (hot_n n w)) ->
  write_lanes ran g gi (seq (length dn) (length c)) (pre ++ dn ++ c ++ rest) = Some (pre ++ dn ++ (hot_n n <$> c) ++ rest).
Proof.
  intros Hr Hpre Hc. revert dn. induction Hc as [|w c [Hw Hf] _ IH]; intros dn Hh; [done|]. cbn [length seq write_lanes].
  assert (E : (gi * LANES + length dn = length (pre ++ dn))%nat) by (rewrite length_app; lia).
  assert (A : forall x, pre ++ dn ++ (x :: c) ++ rest = (pre ++ dn) ++ x :: (c ++ rest)) by (intros; by rewrite <- !app_assoc).
  rewrite A, E, list_lookup_middle by done. cbn [mbind option_bind]. pose proof (Hh 0%nat w eq_refl) as H0. rewrite Nat.add_0_r in H0.
  rewrite (write_world_ok ran g (length dn) w n) by done. cbn [mbind option_bind]. rewrite insert_app_r_alt, Nat.sub_diag by lia. cbn [insert list_insert].
  specialize (IH (dn ++ [hot_n n w])). rewrite length_app in IH. cbn [length] in IH. rewrite Nat.add_1_r in IH.
  transitivity (write_lanes ran g gi (seq (S (length dn)) (length c)) (pre ++ (dn ++ [hot_n n w]) ++ c ++ rest)); [f_equal; by rewrite <- !app_assoc|].
  rewrite IH; [by rewrite <- !app_assoc|]. intros j x Ex. replace (S (length dn) + j)%nat with (length dn + S j)%nat by lia. by apply Hh.
Qed.

Lemma max_live_ge ws : Forall (fun w => World.live w <= max_live ws)%nat ws.
Proof.
  unfold max_live. induction ws as [|w ws IH]; [done|]. cbn [fmap list_fmap fold_right]. constructor; [lia|]. eapply Forall_impl; [exact IH|]. simpl. intros; lia.
Qed.

Lemma group_of_ok ws : Forall world_wf ws -> (length ws <= LANES)%nat ->
  exists g, group_of ws = Some g /\ shape g /\ used g = length ws /\ forall j w, ws !! j = Some w -> holds g j w.
Proof.
  intros Hws Hl. destruct (fill_ok 0 ws (blank ws) Hws) as (g & E & Sh & _ & U & I & _); [|done|apply max_live_ge|by exists g].
  split; [done|]. intros c. destruct c; apply length_replicate.
Qed.

Lemma write_groups_ok ran n fuel ws :
  ran = u64 (Z.of_nat n) -> (length ws <= fuel)%nat -> Forall (fun w => world_wf w /\ is_i32 (World.frame w)) ws ->
  exists gs, groups_of (chunks_fuel fuel LANES ws) = Some gs /\
    forall gi pre, length pre = (gi * LANES)%nat -> write_groups ran gi (group_n n <$> gs) (pre ++ ws) = Some (pre ++ (hot_n n <$> ws)).
Proof.
  intros Hr. revert ws. induction fuel as [|fuel IH]; intros ws Hl Hws; [by destruct ws; simpl in *; [exists []|lia]|]. destruct ws as [|w0 ws0]; [by exists []|].
  set (ws := w0 :: ws0) in *. change (chunks_fuel (S fuel) LANES ws) with (take LANES ws :: chunks_fuel fuel LANES (drop LANES ws)). cbn [groups_of].
  assert (Hws1 : Forall world_wf ws) by (eapply Forall_impl; [exact Hws|]; by intros ? []).
  destruct (group_of_ok (take LANES ws)) as (g & -> & Sh & U & Hh); [by apply Forall_take|rewrite length_take; lia|]. cbn [mbind option_bind].
  destruct (IH (drop LANES ws)) as (gs & Eg & Hgs); [rewrite length_drop; unfold LANES; simpl in *; lia|by apply Forall_drop|]. rewrite Eg. cbn [mbind option_bind].
  eexists. split; [done|]. intros gi pre Hpre. cbn [fmap list_fmap write_groups]. destruct (group_n_used n g) as [-> _]. rewrite U.
  pose proof (write_lanes_ok ran (group_n n g) gi n pre [] (take LANES ws) (drop LANES ws) Hr Hpre) as Wl. cbn [length app] in Wl. rewrite take_drop in Wl.
  rewrite Wl; [|by apply Forall_take|].
  2: { intros j w Ew. simpl. apply frames_hold; [by eapply Forall_lookup in Ew; [|apply Forall_take, Hws1]|done|by apply Hh]. }
  cbn [mbind option_bind]. destruct (decide (length ws < LANES)%nat) as [Hlt|Hge].
  - assert (drop LANES ws = []) as Ed by (apply drop_ge; lia). rewrite Ed in *. rewrite app_nil_r.
    assert (take LANES ws = ws) as -> by (apply take_ge; lia). assert (gs = []) as -> by (destruct fuel; by simplify_eq/=). done.
  - rewrite app_assoc. rewrite (Hgs (S gi)) by (rewrite length_app, length_fmap, length_take; lia). f_equal.
    rewrite <- app_assoc. f_equal. rewrite <- fmap_app. f_equal. apply take_drop.
Qed.

Lemma for_each_pure {W} (h : W -> W) (f : W -> option W) l : (forall w, f w = Some (h w)) -> for_each f l = Some (h <$> l).
Proof. intros Hf. induction l as [|w l IH]; [done|]. cbn [for_each]. rewrite Hf. cbn [mbind option_bind]. by rewrite IH. Qed.

(** A threaded run leaves what the serial run leaves, counter included. *)
Lemma lane_parallel_serial frames threads gs ran :
  is_u64 ran -> lane_yields (lane_run_parallel frames threads (mkLanes gs ran)) (mkLanes (group_n frames <$> gs) (u64 (ran + Z.of_nat frames))).
Proof.
  intros Hran. destruct (pull_yields step_group (fun _ => True) (fun g _ => ex_intro _ (Group_step g) (conj eq_refl I)) frames threads gs) as (l' & E & _ & Y).
  { by apply Forall_true. }
  rewrite (for_each_pure (group_n frames)) in E by apply repeat_group. injection E as <-. unfold lane_run_parallel, pull in *. cbn [groups frames_run].
  destruct (Nat.eqb_spec frames 0) as [->|Hn].
  { cbn [lane_yields yields] in *. f_equal. f_equal; [congruence|by rewrite Z.add_0_r, wrap_u_id]. }
  destruct (_ || _).
  - cbn [lane_yields]. unfold lane_run_serial. cbn [groups frames_run]. by rewrite (for_each_pure (group_n frames)) by apply repeat_group.
  - destruct Y as [Hb Hs]. split; [exact Hb|]. intros s' R. destruct (Hs s' R) as [?|[A M]]; [by left|right]. split; [done|]. unfold lane_join. by rewrite M.
Qed.

(** (C14) Lane-major stepping is the element-wise stepping of every world.  A
    batch of well-formed worlds compiles to lanes, and running them for any
    number of frames ends in one and the same [LaneBatch], frame counter
    included: the serial run returns it, and [run_parallel] with any number of
    threads returns it or starts threads which, however they interleave, all
    finish within a bounded number of steps and leave it once [run_parallel] has
    added the frames to its counter.  Writing that [LaneBatch] back gives the
    batch [run_hot_serial] leaves: every column of every row, the padding never
    showing, and the worlds' frame counters. *)
Theorem lanes_are_worlds (b : Batch.t) (frames threads : nat) (H : Forall (fun w => world_wf w /\ is_i32 (World.frame w)) b) :
  exists lb lb' b', from_worlds b = Some lb /\ lane_run_serial frames lb = Some lb' /\ lane_yields (lane_run_parallel frames threads lb) lb' /\
    write_back lb' b = Some b' /\ Batch.run_hot_serial frames b = Some b'.
Proof.
  destruct (write_groups_ok (u64 (Z.of_nat frames)) frames (length b) b eq_refl (le_n _) H) as (gs & Eg & Hw).
  exists (mkLanes gs 0), (mkLanes (group_n frames <$> gs) (u64 (Z.of_nat frames))), (hot_n frames <$> b). split_and!.
  - unfold from_worlds, chunks. rewrite Eg. done.
  - unfold lane_run_serial. cbn [groups frames_run]. rewrite (for_each_pure (group_n frames)) by apply repeat_group. done.
  - by apply (lane_parallel_serial frames threads gs 0).
  - exact (Hw 0%nat [] eq_refl).
  - unfold Batch.run_hot_serial. by rewrite (for_each_pure (hot_n frames)) by apply repeat_hot.
Qed.

Lemma lanes_are_worlds_witness :
  let b := replicate 5 Skirmish.marching in
  exists lb lb' b', from_worlds b = Some lb /\ lane_run_serial 3 lb = Some lb' /\ lane_yields (lane_run_parallel 3 2 lb) lb' /\
    write_back lb' b = Some b' /\ Batch.run_hot_serial 3 b = Some b'.
Proof.
  assert (E : World.frame Skirmish.marching = 0) by (vm_compute; reflexivity).
  assert (H : Forall (fun w => world_wf w /\ is_i32 (World.frame w)) (replicate 5 Skirmish.marching)).
  { apply Forall_replicate. split; [exact Skirmish.marching_wf|]. rewrite E. split; vm_compute; congruence. }
  exact (lanes_are_worlds _ 3 2 H).
Defined.
