(* ===== verification/NetObfuscate.v ===== *)
(** * Multiplayer payload obfuscation

    [crates/don-net/src/obfuscate.rs]: the pad generator, the per-package
    obfuscation state, the XOR transform and the recovery of a key from
    ciphertext word frequencies. *)

From S2P Require Import Prelude SimRandom.

Definition LCG_A : Z := 0x0019660D.
Definition LCG_C : Z := 0x3C6EF35F.

(** [struct PadRandom { seed: u32 }]. *)
Record PadRandom := mkPadRandom { seed : Z }.

(** [PadRandom::in_range]: the product is taken at [u64]. *)
Definition in_range (lo hi : Z) (r : PadRandom) : Z * PadRandom :=
  if lo =? hi then (lo, r)
  else
    let '(lo, hi) := if hi <? lo then (hi, lo) else (lo, hi) in
    let s := u32 (u32 (r.(seed) * LCG_A) + LCG_C) in
    let low16 := Z.land s 0xFFFF in
    (i32 (lo + i32 (Z.shiftr (u64 (low16 * u64 (i32 (hi - lo)))) 16)), mkPadRandom s).

Definition pad_next (r : PadRandom) : nat * PadRandom :=
  let '(v, r') := in_range 0 2 r in (Z.to_nat v, r').

(** [struct Obfuscation { rng: Option<PadRandom> }]. *)
Record Obfuscation := mkObfuscation { rng : option PadRandom }.

Definition obf_none : Obfuscation := mkObfuscation None.
Definition obf_multiplayer (g : Z) : Obfuscation := mkObfuscation (Some (mkPadRandom g)).

Definition next_pad (o : Obfuscation) : nat * Obfuscation :=
  match o.(rng) with
  | Some r => let '(n, r') := pad_next r in (n, mkObfuscation (Some r'))
  | None => (0%nat, o)
  end.

Definition xor_key (g : Z) : Z := u16 (Z.shiftr g 8).

(** [xor_payload]: whole little-endian words; a trailing odd byte stays. *)
Fixpoint xor_payload (buf : bytes) (key : Z) : bytes :=
  match buf with
  | a :: b :: rest =>
      Z.lxor a (key mod 256) :: Z.lxor b (key / 256 mod 256) :: xor_payload rest key
  | _ => buf
  end.

(** The ciphertext words a payload contributes to the frequency count. *)
Fixpoint words (buf : bytes) : list Z :=
  match buf with
  | a :: b :: rest => (a + 256 * b) :: words rest
  | _ => []
  end.

(** [counts.entry(w).or_insert(0) += 1] over every word. *)
Definition count_words (ws : list Z) : gmap Z nat :=
  fold_left (fun (m : gmap Z nat) w => <[w := S (default 0%nat (m !! w))]> m) ws ∅.

(** [sort_by_key(|(w, c)| (Reverse(c), w))]: the order on the entries. *)
Definition key_le (x y : Z * nat) : Prop :=
  (y.2 < x.2)%nat \/ (x.2 = y.2 /\ x.1 <= y.1).

#[export] Instance key_le_dec x y : Decision (key_le x y).
Proof. unfold key_le. apply _. Defined.

Definition rank_xor_keys (payloads : list bytes) (n : nat) : list Z :=
  take n (map fst (merge_sort key_le (map_to_list (count_words (payloads ≫= words))))).

Definition recover_xor_key (payloads : list bytes) : Z :=
  default 0 (head (rank_xor_keys payloads 1)).

(** ** The pad stream *)

Lemma pad_next_val s : in_u 32 s ->
  pad_next (mkPadRandom s) =
  (Z.to_nat (((s * LCG_A + LCG_C) mod 2 ^ 16 * 2) / 2 ^ 16),
   mkPadRandom ((s * LCG_A + LCG_C) mod 2 ^ 32)).
Proof.
  intros Hs. unfold pad_next, in_range. change (0 =? 2) with false. change (2 <? 0) with false.
  cbn [seed]. assert (E : u32 (u32 (s * LCG_A) + LCG_C) = (s * LCG_A + LCG_C) mod 2 ^ 32).
  { unfold wrap_u. by rewrite Zplus_mod_idemp_l. }
  rewrite E. change 0xFFFF with (Z.ones 16). rewrite land_mask by lia.
  set (t := s * LCG_A + LCG_C).
  assert (Hm : (t mod 2 ^ 32) mod 2 ^ 16 = t mod 2 ^ 16).
  { change (2 ^ 32) with (2 ^ 16 * 2 ^ 16). rewrite Z.rem_mul_r by lia.
    rewrite Z.mul_comm, Z_mod_plus_full. apply Zmod_mod. }
  rewrite Hm. pose proof (Z.mod_pos_bound t (2 ^ 16)) as B.
  rewrite (wrap_s_id 32 (2 - 0)) by (ranges; lia).
  rewrite (wrap_u_id 64 (2 - 0)) by (ranges; lia). change (2 - 0) with 2.
  rewrite wrap_u_id by (ranges; lia).
  rewrite Z.shiftr_div_pow2 by lia.
  assert (0 <= t mod 2 ^ 16 * 2 / 2 ^ 16 < 2).
  { ranges. split; [apply Z.div_pos; lia|apply Z.div_lt_upper_bound; lia]. }
  rewrite (wrap_s_id 32 (t mod _ * 2 / _)) by (ranges; lia).
  by rewrite Z.add_0_l, wrap_s_id by (ranges; lia).
Qed.

Lemma pad_next_le s n r : in_u 32 s -> pad_next (mkPadRandom s) = (n, r) ->
  (n <= 1)%nat /\ in_u 32 r.(seed).
Proof.
  intros Hs. rewrite pad_next_val by done. intros [= <- <-]. split.
  - pose proof (Z.mod_pos_bound (s * LCG_A + LCG_C) (2 ^ 16)).
    assert ((s * LCG_A + LCG_C) mod 2 ^ 16 * 2 / 2 ^ 16 < 2); [|lia].
    ranges. apply Z.div_lt_upper_bound; lia.
  - apply (wrap_u_range 32). lia.
Qed.

(** Two seeds that agree on their low sixteen bits draw the same pads. *)
Definition low16_eq (a b : Z) : Prop := a mod 2 ^ 16 = b mod 2 ^ 16.

Lemma low16_step a b : low16_eq a b ->
  low16_eq ((a * LCG_A + LCG_C) mod 2 ^ 32) ((b * LCG_A + LCG_C) mod 2 ^ 32).
Proof.
  unfold low16_eq. intros H. change (2 ^ 32) with (2 ^ 16 * 2 ^ 16).
  rewrite !(Z.rem_mul_r _ (2 ^ 16) (2 ^ 16)) by lia.
  rewrite !(Z.mul_comm (2 ^ 16)), !Z_mod_plus_full, !Zmod_mod.
  rewrite <- (Zplus_mod_idemp_l (a * _)), <- (Zplus_mod_idemp_l (b * _)).
  rewrite <- (Zmult_mod_idemp_l a), <- (Zmult_mod_idemp_l b). by rewrite H.
Qed.

Lemma pad_next_low16 a b : in_u 32 a -> in_u 32 b -> low16_eq a b ->
  fst (pad_next (mkPadRandom a)) = fst (pad_next (mkPadRandom b)) /\
  low16_eq (snd (pad_next (mkPadRandom a))).(seed) (snd (pad_next (mkPadRandom b))).(seed).
Proof.
  intros Ha Hb H. rewrite !pad_next_val by done. cbn [fst snd seed]. split.
  - do 3 f_equal. unfold low16_eq in H.
    rewrite <- (Zplus_mod_idemp_l (a * _)), <- (Zplus_mod_idemp_l (b * _)).
    rewrite <- (Zmult_mod_idemp_l a), <- (Zmult_mod_idemp_l b). by rewrite H.
  - by apply low16_step.
Qed.

(** The pad generator of [don-net] and the simulation's [Random::get] are
    the same function wherever the retail 32-bit product does not wrap: on an
    ordered range of [i32] bounds at most [65536] wide, from the same state
    word, they draw the same value and leave the same state word. *)
Theorem pad_random_is_sim_random (lo hi s : Z)
  (Hlo : is_i32 lo) (Hhi : is_i32 hi) (Hlt : lo <= hi <= lo + 65536) (Hs : is_u32 s) :
  let '(v, r) := in_range lo hi (mkPadRandom s) in
  let '(w, q) := Random.get lo hi (Random.new (i32 s)) in
  v = w /\ r.(seed) = u32 (q.(Random.state)).
Proof.
  destruct (decide (lo = hi)) as [->|Hne].
  { unfold in_range, Random.get. rewrite Z.eqb_refl. split; [done|]. cbn [seed Random.state].
    rewrite wrap_u_wrap_s by lia. by rewrite wrap_u_id. }
  rewrite Random.get_ordered by lia. unfold in_range, Random.draw.
  replace (lo =? hi) with false by (symmetry; apply Z.eqb_neq; lia).
  replace (hi <? lo) with false by (symmetry; apply Z.ltb_ge; lia). cbn [seed].
  destruct (Random.advance_step (Random.new (i32 s))) as [Hu _].
  assert (E : u32 (u32 (s * LCG_A) + LCG_C) = u32 (fst (Random.advance (Random.new (i32 s))))).
  { rewrite Hu. unfold Random.step. cbn [Random.state]. unfold wrap_u.
    rewrite Zplus_mod_idemp_l, <- (Zplus_mod_idemp_l (i32 s * _)), <- (Zmult_mod_idemp_l (i32 s)).
    rewrite wrap_s_mod by lia. rewrite Zmult_mod_idemp_l, Zplus_mod_idemp_l. done. }
  rewrite E. set (n := fst (Random.advance _)) in *. split; [|done].
  pose proof (Random.low16_range n) as Hr. set (r16 := Z.land (u32 n) 0xFFFF) in *.
  rewrite !(wrap_s_id 32 (hi - lo)) by (ranges; lia).
  rewrite (wrap_u_id 64 (hi - lo)) by (ranges; lia).
  rewrite (wrap_u_id 64) by (ranges; nia).
  destruct (Random.get_scaled_lt r16 (hi - lo) Hr ltac:(lia)) as [-> _].
  rewrite Z.shiftr_div_pow2 by lia. change (2 ^ 16) with 65536. f_equal. lia.
Qed.

Lemma pad_random_is_sim_random_witness :
  in_range 3 1000 (mkPadRandom 77) = (646, mkPadRandom (u32 (77 * LCG_A + LCG_C))) /\
  (let '(v, r) := in_range 3 1000 (mkPadRandom 77) in
   let '(w, q) := Random.get 3 1000 (Random.new (i32 77)) in
   v = w /\ r.(seed) = u32 (q.(Random.state))).
Proof.
  split; [reflexivity|].
  apply (pad_random_is_sim_random 3 1000 77); first [by apply (bool_decide_unpack _); vm_compute | lia].
Defined.

(** Beyond [65536] the two ports of the one retail routine part ways: the
    [u64] product of [in_range] keeps the bits the retail [imul] drops. *)
Example in_range_wide_differs :
  fst (in_range 0 70000 (mkPadRandom 5)) <> fst (Random.get 0 70000 (Random.new 5)).
Proof. vm_compute. discriminate. Qed.

(** ** The XOR transform *)

Lemma length_xor_payload buf key : length (xor_payload buf key) = length buf.
Proof.
  revert buf. fix IH 1. intros [|a [|b rest]]; simpl; [done..|]. by rewrite IH.
Qed.

Lemma xor_payload_ok buf key : bytes_ok buf -> bytes_ok (xor_payload buf key).
Proof.
  revert buf. fix IH 1. intros [|a [|b rest]] H; simpl; [done..|].
  inversion_clear H as [|? ? Ha H1]. inversion_clear H1 as [|? ? Hb H2].
  constructor; [|constructor; [|by apply IH]];
    (apply lxor_range; [lia|done|apply Z.mod_pos_bound; lia]).
Qed.

Lemma xor_payload_comm buf k1 k2 :
  xor_payload (xor_payload buf k1) k2 =
  xor_payload (xor_payload buf k2) k1.
Proof.
  revert buf. fix IH 1. intros [|a [|b rest]]; simpl; [done..|]. rewrite IH.
  f_equal; [|f_equal]; rewrite !Z.lxor_assoc; f_equal; apply Z.lxor_comm.
Qed.

Lemma xor_payload_twice buf key : xor_payload (xor_payload buf key) key = buf.
Proof.
  revert buf. fix IH 1. intros [|a [|b rest]]; simpl; [done..|]. rewrite IH.
  by rewrite !Z.lxor_assoc, !Z.lxor_nilpotent, !Z.lxor_0_r.
Qed.

(** The XOR transform is its own inverse for every buffer and key, keeps
    the length, and never touches a trailing odd byte. *)
Theorem xor_payload_involutive (buf : bytes) (key : Z) :
  xor_payload (xor_payload buf key) key = buf /\
  length (xor_payload buf key) = length buf /\
  (Nat.Odd (length buf) -> last (xor_payload buf key) = last buf).
Proof.
  split; [apply xor_payload_twice|split; [apply length_xor_payload|]].
  revert buf. fix IH 1. intros [|a [|b rest]] Hodd; simpl; [done..|].
    specialize (IH rest).
    destruct rest as [|c rest]; [destruct Hodd as [m Hm]; simpl in Hm; lia|]. rewrite !last_cons_cons.
    destruct (xor_payload (c :: rest) key) as [|d l] eqn:E.
    { apply (f_equal length) in E. by rewrite length_xor_payload in E. }
    rewrite last_cons_cons. apply IH. destruct Hodd as [m Hm]. exists (m - 1)%nat.
    simpl in *. lia.
Qed.

(** ** Key recovery from word frequencies *)

Lemma count_words_acc ws (m : gmap Z nat) w :
  default 0%nat (fold_left (fun (m : gmap Z nat) w => <[w := S (default 0%nat (m !! w))]> m) ws m !! w)
  = (default 0%nat (m !! w) + length (filter (eq w) ws))%nat.
Proof.
  revert m; induction ws as [|x ws IH]; intros m; cbn [fold_left]; [simpl; lia|].
  rewrite IH. destruct (decide (w = x)) as [->|Hne].
  - rewrite lookup_insert_eq, filter_cons_True by done. simpl. lia.
  - rewrite lookup_insert_ne, filter_cons_False by congruence. done.
Qed.

Definition occurrences (ws : list Z) (w : Z) : nat := length (filter (eq w) ws).

(** The table holds each word that occurs, with its number of occurrences. *)
Lemma count_words_spec ws w n :
  count_words ws !! w = Some n <-> (n = occurrences ws w /\ w ∈ ws).
Proof.
  pose proof (count_words_acc ws ∅ w) as H. rewrite lookup_empty in H. simpl in H.
  fold (count_words ws) in H. fold (occurrences ws w) in H.
  assert (Hin : w ∈ ws <-> is_Some (count_words ws !! w)).
  { clear. unfold count_words.
    assert (G : forall m : gmap Z nat,
      (w ∈ ws \/ is_Some (m !! w)) <-> is_Some (fold_left
        (fun (m : gmap Z nat) w => <[w := S (default 0%nat (m !! w))]> m) ws m !! w)).
    { induction ws as [|x ws IH]; intros m; cbn [fold_left]; [rewrite elem_of_nil; tauto|].
      rewrite <- IH, lookup_insert_is_Some', elem_of_cons. intuition congruence. }
    rewrite <- (G ∅), lookup_empty. split; [tauto|]. intros [?|[? [=]]]; done. }
  rewrite Hin. destruct (count_words ws !! w); simpl in *; split.
  - intros [= ->]. eauto.
  - intros [-> _]. by f_equal.
  - done.
  - by intros [_ [? [=]]].
Qed.

#[export] Instance key_le_total : Total key_le.
Proof. intros [a n] [b m]. unfold key_le. simpl. lia. Qed.
#[export] Instance key_le_trans : Transitive key_le.
Proof. intros [a n] [b m] [c p]. unfold key_le. simpl. lia. Qed.

(** The head of the ranking is the word no other word outnumbers. *)
Lemma rank_head_modal payloads k :
  k ∈ (payloads ≫= words) ->
  (forall w, w ∈ (payloads ≫= words) -> w <> k ->
     (occurrences (payloads ≫= words) w < occurrences (payloads ≫= words) k)%nat) ->
  recover_xor_key payloads = k.
Proof.
  unfold recover_xor_key, rank_xor_keys. set (ws := payloads ≫= words). intros Hin Hmax.
  pose proof (merge_sort_Permutation key_le (map_to_list (count_words ws))) as Hp.
  pose proof (StronglySorted_merge_sort key_le (map_to_list (count_words ws))) as Hs.
  set (l := merge_sort key_le _) in *.
  assert (Hk : (k, occurrences ws k) ∈ l).
  { rewrite Hp, elem_of_map_to_list. by apply count_words_spec. }
  destruct l as [|[w n] l]; [by apply elem_of_nil in Hk|]. simpl.
  assert (Hw : (w, n) ∈ map_to_list (count_words ws)) by (rewrite <- Hp; left).
  apply elem_of_map_to_list, count_words_spec in Hw as [-> Hw].
  destruct (decide (w = k)) as [->|Hne]; [done|]. specialize (Hmax w Hw Hne).
  apply elem_of_cons in Hk as [[= -> _]|Hk]; [done|].
  apply StronglySorted_inv in Hs as [_ Hs].
  rewrite Forall_forall in Hs. specialize (Hs _ Hk). unfold key_le in Hs. simpl in Hs. lia.
Qed.

Lemma lxor_word a b key :
  is_u8 a -> is_u8 b -> is_u16 key ->
  Z.lxor a (key mod 256) + 256 * Z.lxor b (key / 256 mod 256) = Z.lxor (a + 256 * b) key.
Proof.
  intros Ha Hb Hk.
  assert (Hlo : is_u8 (key mod 256)) by (apply Z.mod_pos_bound; lia).
  assert (Hhi : key / 256 mod 256 = key / 256).
  { apply Z.mod_small. ranges. split; [apply Z.div_pos; lia|apply Z.div_lt_upper_bound; lia]. }
  rewrite Hhi.
  assert (J : forall lo hi, is_u8 lo -> lo + 256 * hi = Z.lor (hi * 2 ^ 8) lo)
    by (intros; rewrite lor_join by done; lia).
  assert (Ek : key = Z.lor ((key / 256) * 2 ^ 8) (key mod 256)).
  { rewrite <- J by done. pose proof (Z.div_mod key 256). lia. }
  rewrite Ek at 3. rewrite !J by first [done | by apply lxor_range].
  rewrite <- !Z.shiftl_mul_pow2 by lia. apply Z.bits_inj'. intros n Hn.
  rewrite !Z.lxor_spec, !Z.lor_spec, !Z.lxor_spec.
  destruct (Z.ltb_spec n 8).
  - rewrite !Z.shiftl_spec_low by lia. by rewrite !orb_false_l.
  - rewrite !Z.shiftl_spec_high, !Z.lxor_spec by lia.
    change 256 with (2 ^ 8) in Hlo |- *.
    rewrite <- (Z.mod_small a (2 ^ 8)) by done.
    rewrite !(Z.mod_pow2_bits_high _ 8 n) by lia. by rewrite !orb_false_r.
Qed.

Lemma words_xor buf key :
  bytes_ok buf -> is_u16 key -> words (xor_payload buf key) = map (fun w => Z.lxor w key) (words buf).
Proof.
  intros H Hk. revert buf H. fix IH 1. intros [|a [|b rest]] H; simpl; [done..|].
  inversion_clear H as [|? ? Ha H1]. inversion_clear H1 as [|? ? Hb H2].
  rewrite lxor_word by done. by rewrite IH.
Qed.

Lemma lxor_inj_r k : Inj (=) (=) (fun w => Z.lxor w k).
Proof.
  intros a b H. simpl in H. apply (f_equal (fun z => Z.lxor z k)) in H.
  by rewrite !Z.lxor_assoc, Z.lxor_nilpotent, !Z.lxor_0_r in H.
Qed.

Lemma occurrences_xor ws k w :
  occurrences (map (fun w => Z.lxor w k) ws) (Z.lxor w k) = occurrences ws w.
Proof.
  unfold occurrences. induction ws as [|x ws IH]; [done|]. simpl map. rewrite !filter_cons.
  destruct (decide (w = x)) as [->|Hne]; [rewrite decide_True by done; simpl; by rewrite IH|].
  rewrite decide_False; [done|]. by intros ?%(lxor_inj_r k).
Qed.

(** Key recovery is sound: when [0] is the strictly most frequent word
    of the plaintext packages, [recover_xor_key] on the packages as they were
    obfuscated under any [u16] key returns that key. *)
Theorem recover_xor_key_correct (plain : list bytes) (key : Z) :
  Forall bytes_ok plain -> is_u16 key ->
  0 ∈ (plain ≫= words) ->
  (forall w, w ∈ (plain ≫= words) -> w <> 0 ->
     (occurrences (plain ≫= words) w < occurrences (plain ≫= words) 0)%nat) ->
  recover_xor_key (map (fun p => xor_payload p key) plain) = key.
Proof.
  intros Hok Hk Hin Hmax.
  assert (E : map (fun p => xor_payload p key) plain ≫= words =
              map (fun w => Z.lxor w key) (plain ≫= words)).
  { clear Hin Hmax. induction Hok as [|p ps Hp Hps IH]; [done|].
    cbn [map mbind list_bind] in *. rewrite map_app, words_xor by done. by f_equal. }
  apply rank_head_modal; rewrite E.
  - rewrite <- (Z.lxor_0_l key) at 1. apply list_elem_of_fmap. eauto.
  - intros w (v & -> & Hv)%list_elem_of_fmap Hne.
    pose proof (occurrences_xor (plain ≫= words) key 0) as H0. rewrite Z.lxor_0_l in H0.
    rewrite H0, occurrences_xor. apply Hmax; [done|].
    intros ->. by rewrite Z.lxor_0_l in Hne.
Qed.

Lemma recover_xor_key_correct_witness :
  recover_xor_key [[0x34; 0x12; 0x34; 0x12; 0x35; 0x12; 9]] = 0x1234.
Proof.
  apply (recover_xor_key_correct [[0; 0; 0; 0; 1; 0; 9]] 0x1234).
  - by apply (bool_decide_unpack _); vm_compute.
  - by apply (bool_decide_unpack _); vm_compute.
  - by apply (bool_decide_unpack _); vm_compute.
  - intros w Hw Hne. simpl in Hw. repeat (apply elem_of_cons in Hw as [->|Hw]; [try done; vm_compute; lia|]).
    by apply elem_of_nil in Hw.
Defined.
