(* ===== verification/NetCommand.v ===== *)
(** * Commands and the package framings

    [crates/don-net/src/lib.rs] and the size table of
    [crates/don-net/src/opcodes.rs]: the length of a command, the command
    list of a package payload with its inter-command padding, the 18-byte
    record framing of a recorded game, the 8-byte network framing and the
    16-channel checksum command.

    Offsets and lengths ([usize]) are [nat]; bytes and fields are [Z]. *)

From S2P Require Import Prelude NetObfuscate.
From Stdlib Require String.
Import (notations) String.
Abbreviation string := String.string.

(** [enum NetMsgType] and its [as u8] cast. *)
Inductive NetMsgType :=
| NetMsgType_Generic
| NetMsgType_PlayerConnectionData
| NetMsgType_AllPlayerConnectionData
| NetMsgType_GameConnectionData
| NetMsgType_GameConnectionDataFull
| NetMsgType_Chat
| NetMsgType_Ping
| NetMsgType_CommandPackageData
| NetMsgType_Pause
| NetMsgType_Taunt
| NetMsgType_SyncSignal
| NetMsgType_DropStamp
| NetMsgType_TimeSync
| NetMsgType_DropVote
| NetMsgType_DropDecision
| NetMsgType_GameModSyncRequest
| NetMsgType_GameModSyncResponse
| NetMsgType_SyncFileBegin
| NetMsgType_SyncFileResponse
| NetMsgType_SyncFileData
| NetMsgType_SyncFileVerify
| NetMsgType_SyncFileEnd
| NetMsgType_SyncFileError
| NetMsgType_SyncDirError
| NetMsgType_SyncDirRequest
| NetMsgType_SyncDirInfo
| NetMsgType_GameSpyChallenge
| NetMsgType_PlayerStatusRequest
| NetMsgType_PlayerStatusResponse
| NetMsgType_DropFlag
| NetMsgType_Spline
| NetMsgType_GameConnectionScenario
| NetMsgType_GameConnectionModInfo.

Definition NetMsgType_u8 (t : NetMsgType) : Z :=
  match t with
  | NetMsgType_Generic => 0
  | NetMsgType_PlayerConnectionData => 1
  | NetMsgType_AllPlayerConnectionData => 2
  | NetMsgType_GameConnectionData => 3
  | NetMsgType_GameConnectionDataFull => 4
  | NetMsgType_Chat => 5
  | NetMsgType_Ping => 6
  | NetMsgType_CommandPackageData => 7
  | NetMsgType_Pause => 8
  | NetMsgType_Taunt => 9
  | NetMsgType_SyncSignal => 10
  | NetMsgType_DropStamp => 11
  | NetMsgType_TimeSync => 12
  | NetMsgType_DropVote => 13
  | NetMsgType_DropDecision => 14
  | NetMsgType_GameModSyncRequest => 15
  | NetMsgType_GameModSyncResponse => 16
  | NetMsgType_SyncFileBegin => 17
  | NetMsgType_SyncFileResponse => 18
  | NetMsgType_SyncFileData => 19
  | NetMsgType_SyncFileVerify => 20
  | NetMsgType_SyncFileEnd => 21
  | NetMsgType_SyncFileError => 22
  | NetMsgType_SyncDirError => 23
  | NetMsgType_SyncDirRequest => 24
  | NetMsgType_SyncDirInfo => 25
  | NetMsgType_GameSpyChallenge => 26
  | NetMsgType_PlayerStatusRequest => 27
  | NetMsgType_PlayerStatusResponse => 28
  | NetMsgType_DropFlag => 29
  | NetMsgType_Spline => 30
  | NetMsgType_GameConnectionScenario => 31
  | NetMsgType_GameConnectionModInfo => 32
  end.

Definition CHECKSUM_CHANNELS : list string :=
  ["units"; "builds"; "walls"; "ammo"; "deaths"; "groups"; "guys"; "leaders"; "cities"; "items"; "goods"; "world"; "rules"; "scenario_data"; "script_run_time"; "all"]%string.

(** [enum Error]. *)
Inductive Error :=
| UnknownOpcode (op : Z)
| Truncated (offset need have : nat)
| BadLength (offset : nat) (len : Z)
| Residual (consumed len : nat).

#[export] Instance Error_eq_dec : EqDecision Error.
Proof. solve_decision. Defined.

(** [opcodes.rs]: the fixed wire size, [None] for a variable-length command. *)
Definition COMMAND_SIZES : list (option nat) := [
   None; Some 1%nat; Some 5%nat; Some 13%nat; Some 17%nat; Some 13%nat;
   Some 17%nat; Some 22%nat; Some 26%nat; Some 10%nat; Some 10%nat; Some 25%nat;
   Some 1%nat; Some 1%nat; Some 5%nat; Some 9%nat; Some 13%nat; Some 21%nat;
   Some 9%nat; Some 9%nat; Some 13%nat; Some 5%nat; Some 17%nat; Some 21%nat;
   Some 9%nat; Some 25%nat; Some 17%nat; Some 1%nat; Some 25%nat; Some 1%nat;
   Some 13%nat; Some 13%nat; Some 9%nat; Some 9%nat; Some 25%nat; Some 1%nat;
   Some 1%nat; Some 13%nat; Some 13%nat; Some 9%nat; Some 9%nat; Some 9%nat;
   Some 9%nat; Some 17%nat; Some 17%nat; Some 17%nat; Some 13%nat; Some 13%nat;
   Some 15%nat; Some 11%nat; Some 9%nat; None; Some 5%nat; Some 1%nat;
   Some 1%nat; Some 1%nat; Some 5%nat; Some 65%nat; Some 6%nat; Some 5%nat;
   Some 5%nat; Some 5%nat; Some 1%nat; Some 1%nat; Some 1%nat; Some 5%nat;
   Some 5%nat; Some 17%nat; None; Some 9%nat; Some 5%nat; Some 7%nat;
   Some 10%nat; Some 33%nat; Some 11%nat; Some 53%nat; Some 2%nat; Some 2%nat;
   Some 521%nat; Some 9%nat; Some 3%nat; Some 2%nat].

(** [struct Command { opcode, bytes }]. *)
Record Command := mkCommand { opcode : Z; cmd_bytes : bytes }.

#[export] Instance Command_eq_dec : EqDecision Command.
Proof. solve_decision. Defined.

Definition MAX_COMMAND_PACKAGE_PAYLOAD : nat := 512.

(** The closure [need] of [wire_len]. *)
Definition need (buf : bytes) (n : nat) : result Error unit :=
  if (length buf <? n)%nat then Err (Truncated 0 n (length buf)) else Ok tt.

(** [Command::wire_len]. *)
Definition wire_len (buf : bytes) : result Error nat :=
  let? _ := need buf 1 in
  let op := byte_at buf 0 in
  if op =? 0x00 then
    let? _ := need buf 2 in
    Ok (3 + 2 * Z.to_nat (byte_at buf 1))%nat
  else if op =? 0x33 then
    let? _ := need buf 6 in
    Ok (6 + 8 * Z.to_nat (u16le buf 4))%nat
  else if op =? 0x44 then
    let? _ := need buf 17 in
    let n := i32le buf 13 in
    if (0 <=? n) && (n <=? 512) then Ok (19 + 2 * Z.to_nat n)%nat
    else Err (BadLength 0 n)
  else
    match COMMAND_SIZES !! Z.to_nat op with
    | Some (Some n) => Ok n
    | _ => Err (UnknownOpcode op)
    end.

(** The error mapping of [decode_commands]: offsets become payload offsets. *)
Definition at_offset (i : nat) (e : Error) : Error :=
  match e with
  | Truncated _ n h => Truncated i n h
  | BadLength _ len => BadLength i len
  | other => other
  end.

Definition decode_exit (payload : bytes) (i : nat) (out : list Command)
    : result Error (list Command) :=
  if (i =? length payload)%nat then Ok out else Err (Residual i (length payload)).

(** The loop of [decode_commands].  Every command is at least one byte, so
    [length payload] iterations reach the end; [decode_loop_unroll] shows that
    the bound is never what stops the loop. *)
Fixpoint decode_loop (fuel : nat) (payload : bytes) (i : nat) (obf : Obfuscation)
    (out : list Command) : result Error (list Command) * Obfuscation :=
  match fuel with
  | O => (decode_exit payload i out, obf)
  | S fuel =>
      if (i <? length payload)%nat then
        match map_err (at_offset i) (wire_len (drop i payload)) with
        | Err e => (Err e, obf)
        | Ok l =>
            if (length payload <? i + l)%nat
            then (Err (Truncated i l (length payload - i)), obf)
            else
              let c := mkCommand (byte_at payload i) (take l (drop i payload)) in
              let '(pad, obf') := next_pad obf in
              decode_loop fuel payload (i + (l + pad)) obf' (out ++ [c])
        end
      else (decode_exit payload i out, obf)
  end.

Definition decode_commands (payload : bytes) (obf : Obfuscation)
    : result Error (list Command) * Obfuscation :=
  decode_loop (length payload) payload 0 obf [].

(** [encode_commands]: appends to [out]; the pad bytes are zero. *)
Fixpoint encode_commands (cmds : list Command) (obf : Obfuscation) (out : bytes)
    : bytes * Obfuscation :=
  match cmds with
  | [] => (out, obf)
  | c :: cmds =>
      let '(pad, obf') := next_pad obf in
      encode_commands cmds obf' (out ++ cmd_bytes c ++ replicate pad 0)
  end.

(** ** The record framing of a recorded game *)

(** [struct PackageHeader]. *)
Record PackageHeader := mkPackageHeader {
  hd_stamp : Z; hd_play : Z; hd_valid : Z; hd_group : Z; hd_size : Z }.

#[export] Instance PackageHeader_eq_dec : EqDecision PackageHeader.
Proof. solve_decision. Defined.

Definition HEADER_WIRE_LEN : nat := 18.

Definition header_decode (buf : bytes) : option PackageHeader :=
  if (length buf <? HEADER_WIRE_LEN)%nat then None
  else
    let g := u32le buf in
    Some (mkPackageHeader (g 0%nat) (i32 (g 4%nat)) (i32 (g 8%nat)) (i32 (g 12%nat))
            (u16le buf 16)).

Definition header_encode (h : PackageHeader) (out : bytes) : bytes :=
  out ++ to_le 4 (hd_stamp h) ++ to_le 4 (hd_play h) ++ to_le 4 (hd_valid h)
      ++ to_le 4 (hd_group h) ++ to_le 2 (hd_size h).

Record PackageRecord := mkPackageRecord { header : PackageHeader; rec_payload : bytes }.

#[export] Instance PackageRecord_eq_dec : EqDecision PackageRecord.
Proof. solve_decision. Defined.

Definition record_decode (buf : bytes) : option (PackageRecord * nat) :=
  h ← header_decode buf;
  let n := (HEADER_WIRE_LEN + Z.to_nat (hd_size h))%nat in
  if (length buf <? n)%nat then None
  else Some (mkPackageRecord h (take (n - HEADER_WIRE_LEN) (drop HEADER_WIRE_LEN buf)), n).

Definition record_encode (r : PackageRecord) (out : bytes) : bytes :=
  header_encode (header r) out ++ rec_payload r.

(** [struct PackageStream { buf, pos }] and [Iterator::next]. *)
Record PackageStream := mkPackageStream { ps_buf : bytes; ps_pos : nat }.

Definition stream_new (buf : bytes) (start : nat) : PackageStream := mkPackageStream buf start.

Definition stream_next (s : PackageStream) : option PackageRecord * PackageStream :=
  if (length (ps_buf s) <=? ps_pos s)%nat then (None, s)
  else match record_decode (drop (ps_pos s) (ps_buf s)) with
       | None => (None, s)
       | Some (r, n) => (Some r, mkPackageStream (ps_buf s) (ps_pos s + n))
       end.

(** [.collect()] over the iterator; a record is at least 18 bytes, so
    [length buf] calls of [next] are enough. *)
Fixpoint stream_collect (fuel : nat) (s : PackageStream) : list PackageRecord * PackageStream :=
  match fuel with
  | O => ([], s)
  | S fuel =>
      match stream_next s with
      | (None, s') => ([], s')
      | (Some r, s') => let '(rs, s'') := stream_collect fuel s' in (r :: rs, s'')
      end
  end.

(** ** The network framing *)

Record NetCommandPackage := mkNetCommandPackage {
  np_stamp : Z; np_play : Z; np_payload : bytes }.

#[export] Instance NetCommandPackage_eq_dec : EqDecision NetCommandPackage.
Proof. solve_decision. Defined.

Definition NET_HEADER_LEN : nat := 8.

Definition net_package_decode (buf : bytes) : option NetCommandPackage :=
  if (length buf <? NET_HEADER_LEN)%nat
     || negb (byte_at buf 0 =? NetMsgType_u8 NetMsgType_CommandPackageData) then None
  else
    let stamp := u32le buf 1 in
    let play := i8 (byte_at buf 5) in
    let size := i16 (u16le buf 6) in
    if size <? 0 then None
    else
      let e := (NET_HEADER_LEN + Z.to_nat size)%nat in
      if (length buf <? e)%nat then None
      else Some (mkNetCommandPackage stamp play (take (e - NET_HEADER_LEN) (drop NET_HEADER_LEN buf))).

Definition net_package_encode (p : NetCommandPackage) (out : bytes) : bytes :=
  out ++ [NetMsgType_u8 NetMsgType_CommandPackageData] ++ to_le 4 (np_stamp p)
      ++ [u8 (np_play p)] ++ to_le 2 (i16 (Z.of_nat (length (np_payload p))))
      ++ np_payload p.

Definition from_record (r : PackageRecord) : NetCommandPackage :=
  mkNetCommandPackage (hd_stamp (header r)) (i8 (hd_play (header r))) (rec_payload r).

(** ** The checksum command *)

Record CheckSums := mkCheckSums { channels : list Z }.

#[export] Instance CheckSums_eq_dec : EqDecision CheckSums.
Proof. solve_decision. Defined.

Definition CHECKSUMS_WIRE_LEN : nat := 65.

Definition checksums_decode (c : Command) : option CheckSums :=
  if negb (opcode c =? 0x39) || negb (length (cmd_bytes c) =? CHECKSUMS_WIRE_LEN)%nat then None
  else Some (mkCheckSums (map (fun i => u32le (cmd_bytes c) (1 + 4 * i)) (seq 0 16))).

(** [iter().position(..)]. *)
Fixpoint position {A} (p : A -> bool) (l : list A) : option nat :=
  match l with
  | [] => None
  | x :: l => if p x then Some 0%nat else S <$> position p l
  end.

Definition channel (c : CheckSums) (name : string) : option Z :=
  i ← position (fun n => String.eqb n name) CHECKSUM_CHANNELS;
  channels c !! i.

(** ** The length function *)

Lemma need_ok buf n r : need buf n = Ok r -> (n <= length buf)%nat.
Proof. unfold need. destruct (Nat.ltb_spec (length buf) n); [done|lia]. Qed.

Lemma need_le buf n : (n <= length buf)%nat -> need buf n = Ok tt.
Proof. intros. unfold need. destruct (Nat.ltb_spec (length buf) n); [lia|done]. Qed.

(** Every fixed size is positive. *)
Lemma command_sizes_pos k n : COMMAND_SIZES !! k = Some (Some n) -> (1 <= n)%nat.
Proof.
  intros H. assert (F : Forall (fun o => match o with Some n => (1 <= n)%nat | None => True end)
    COMMAND_SIZES) by (unfold COMMAND_SIZES; repeat constructor).
  by apply (Forall_lookup_1 _ _ _ _ F H).
Qed.

Lemma wire_len_pos buf l : wire_len buf = Ok l -> (1 <= l)%nat /\ (1 <= length buf)%nat.
Proof.
  unfold wire_len. intros H. rinv H. apply need_ok in Hr. split; [|done].
  rinv_all H; subst; try lia. by eapply command_sizes_pos.
Qed.

(** A command is self-delimiting: its length is read off its own bytes. *)
Lemma wire_len_prefix a b b' :
  wire_len (a ++ b) = Ok (length a) -> wire_len (a ++ b') = Ok (length a).
Proof.
  intros H. pose proof (wire_len_pos _ _ H) as [Ha _]. revert H. unfold wire_len. cbv zeta.
  rewrite !(need_le _ 1) by (rewrite length_app; lia). cbn [rbind]. rewrite !(byte_at_app_l a _ 0) by lia.
  destruct (byte_at a 0 =? 0x00) eqn:E1.
  { intros H. rinv H. rinv H. rewrite need_le by (rewrite length_app; lia). cbn [rbind].
    rewrite !byte_at_app_l in * by lia. by f_equal. }
  destruct (byte_at a 0 =? 0x33) eqn:E2.
  { intros H. rinv H. rinv H. rewrite need_le by (rewrite length_app; lia). cbn [rbind].
    rewrite !le_at_app_l in * by lia. by f_equal. }
  destruct (byte_at a 0 =? 0x44) eqn:E3; [|done].
  intros H. rinv H. rinv H; [|done]. rinv H. rewrite need_le by (rewrite length_app; lia).
  cbn [rbind]. unfold i32le in *. rewrite !le_at_app_l in * by lia. rewrite Heqb0. by f_equal.
Qed.

(** ** The command list *)

(** A command as the codec produces it. *)
Definition command_ok (c : Command) : Prop :=
  wire_len (cmd_bytes c) = Ok (length (cmd_bytes c)) /\ opcode c = byte_at (cmd_bytes c) 0.

#[export] Instance command_ok_dec c : Decision (command_ok c).
Proof. unfold command_ok. apply _. Defined.

(** The specification of a payload: it is exactly the commands, in order,
    each followed by as many pad bytes as the generator draws. *)
Inductive tiles : bytes -> Obfuscation -> list Command -> Obfuscation -> Prop :=
| tiles_nil o : tiles [] o [] o
| tiles_cons c n pad rest o o' cs o'' :
    command_ok c -> next_pad o = (n, o') -> length pad = n ->
    tiles rest o' cs o'' ->
    tiles (cmd_bytes c ++ pad ++ rest) o (c :: cs) o''.

Lemma decode_loop_sound fuel payload i obf out cs o' :
  (length payload <= i + fuel)%nat ->
  decode_loop fuel payload i obf out = (Ok cs, o') ->
  exists cs', cs = out ++ cs' /\ tiles (drop i payload) obf cs' o'.
Proof.
  assert (X : forall i obf out cs o', (decode_exit payload i out, obf) = (Ok cs, o') ->
    exists cs', cs = out ++ cs' /\ tiles (drop i payload) obf cs' o').
  { clear. intros i obf out cs o' [= H ->]. unfold decode_exit in H.
    destruct (Nat.eqb_spec i (length payload)); [|done]. injection H as <-.
    exists []. rewrite app_nil_r, drop_ge by lia. by split; [|constructor]. }
  revert i obf out cs o'; induction fuel as [|fuel IH]; intros i obf out cs o' Hf; cbn [decode_loop];
    [apply X|].
  destruct (Nat.ltb_spec i (length payload)) as [Hi|Hi]; [|apply X].
  destruct (wire_len (drop i payload)) as [l|e] eqn:Hl; cbn [map_err]; [|done].
  pose proof (wire_len_pos _ _ Hl) as [Hl1 _].
  destruct (Nat.ltb_spec (length payload) (i + l)) as [|Hle]; [done|].
  destruct (next_pad obf) as [pad obf'] eqn:Hp. intros H.
  assert (Hpad : (i + (l + pad) <= length payload)%nat).
  { destruct (decide (i + (l + pad) <= length payload)%nat) as [|Hgt]; [done|exfalso].
    destruct fuel; cbn [decode_loop] in H; unfold decode_exit in H;
      [|destruct (Nat.ltb_spec (i + (l + pad)) (length payload)); [lia|]];
      destruct (Nat.eqb_spec (i + (l + pad)) (length payload)); simplify_eq; lia. }
  apply IH in H as (cs' & -> & Ht); [|lia].
  set (c := mkCommand _ _) in *. exists (c :: cs'). rewrite <- app_assoc. split; [done|].
  assert (E : drop i payload = cmd_bytes c ++ take pad (drop (i + l) payload)
                ++ drop (i + (l + pad)) payload).
  { rewrite <- (take_drop l (drop i payload)) at 1. cbn [c cmd_bytes]. f_equal.
    rewrite drop_drop, <- (take_drop pad (drop (i + l) payload)) at 1.
    by rewrite drop_drop, Nat.add_assoc. }
  assert (Hc : length (cmd_bytes c) = l) by (cbn [c cmd_bytes]; rewrite length_take, length_drop; lia).
  rewrite E. econstructor; [|done| |done].
  - split; [|cbn [opcode c]; rewrite <- byte_at_drop, E; apply byte_at_app_l; lia].
    rewrite Hc, <- (app_nil_r (cmd_bytes c)), <- Hc. rewrite E, <- Hc in Hl. by eapply wire_len_prefix.
  - rewrite length_take, length_drop. lia.
Qed.

Lemma decode_loop_complete fuel payload i obf out cs o' :
  (length payload <= i + fuel)%nat -> (i <= length payload)%nat ->
  tiles (drop i payload) obf cs o' ->
  decode_loop fuel payload i obf out = (Ok (out ++ cs), o').
Proof.
  revert i obf out cs o'; induction fuel as [|fuel IH]; intros i obf out cs o' Hf Hi Ht;
    cbn [decode_loop]; inversion Ht as [o Hb|c n pad rest o o1 cs' o2 [Hc Hop] Hp Hpl Hrest Hb]; subst.
  - unfold decode_exit. apply (f_equal length) in Hb. rewrite length_drop in Hb. simpl in Hb.
    destruct (Nat.eqb_spec i (length payload)); [by rewrite app_nil_r|lia].
  - apply (f_equal length) in Hb. rewrite !length_app, length_drop in Hb.
    apply wire_len_pos in Hc. lia.
  - apply (f_equal length) in Hb. rewrite length_drop in Hb. simpl in Hb.
    destruct (Nat.ltb_spec i (length payload)); [lia|]. unfold decode_exit.
    destruct (Nat.eqb_spec i (length payload)); [by rewrite app_nil_r|lia].
  - pose proof (wire_len_pos _ _ Hc) as [Hpos _].
    assert (Hlen : (i + (length (cmd_bytes c) + (length pad + length rest)) = length payload)%nat).
    { apply (f_equal length) in Hb. rewrite !length_app, length_drop in Hb. lia. }
    destruct (Nat.ltb_spec i (length payload)) as [_|]; [|lia].
    rewrite <- (app_nil_r (cmd_bytes c)) in Hc at 1. rewrite (wire_len_prefix _ _ _ Hc).
    cbn [map_err]. destruct (Nat.ltb_spec (length payload) (i + length (cmd_bytes c))); [lia|].
    rewrite Hp, take_app_length, <- (byte_at_drop payload i), <- Hb, byte_at_app_l by lia.
    replace (out ++ c :: cs') with ((out ++ [c]) ++ cs') by (by rewrite <- app_assoc).
    replace (mkCommand _ _) with c by (destruct c; simpl in *; congruence).
    apply IH; [lia..|].
    replace (drop _ payload) with rest; [done|].
    rewrite <- drop_drop, <- Hb, <- drop_drop, !drop_app_length. done.
Qed.

Lemma decode_commands_tiles payload obf cs o' :
  decode_commands payload obf = (Ok cs, o') <-> tiles payload obf cs o'.
Proof.
  unfold decode_commands. split; intros H.
  - apply decode_loop_sound in H as (cs' & -> & H); [|lia]. by rewrite drop_0 in H.
  - apply (decode_loop_complete _ _ _ _ []); [lia..|]. by rewrite drop_0.
Qed.

(** (C20) [decode_commands] accepts exactly the payloads that are a list of
    commands, each followed by the number of pad bytes the generator draws,
    with nothing left over; the commands it returns are those, in order, and
    it leaves the generator where that many draws leave it.  Both directions:
    nothing malformed is accepted and no well-formed payload is refused. *)
Theorem decode_commands_exact (payload : bytes) (obf : Obfuscation) (cs : list Command) (o' : Obfuscation) :
  decode_commands payload obf = (Ok cs, o') <-> tiles payload obf cs o'.
Proof. apply decode_commands_tiles. Qed.

(** The iteration bound is never observed: more of it changes nothing. *)
Lemma decode_loop_unroll fuel k payload i obf out :
  (length payload <= i + fuel)%nat ->
  decode_loop (fuel + k) payload i obf out = decode_loop fuel payload i obf out.
Proof.
  revert i obf out; induction fuel as [|fuel IH]; intros i obf out Hf.
  - destruct k; [done|]. simpl. destruct (Nat.ltb_spec i (length payload)); [lia|done].
  - cbn [Nat.add decode_loop]. destruct (Nat.ltb_spec i (length payload)); [|done].
    destruct (wire_len (drop i payload)) as [l|] eqn:Hl; [|done]. cbn [map_err].
    pose proof (wire_len_pos _ _ Hl) as [? _].
    destruct (length payload <? i + l)%nat; [done|].
    destruct (next_pad obf). apply IH. lia.
Qed.

(** What [encode_commands] appends. *)
Lemma encode_commands_acc cs obf out :
  encode_commands cs obf out =
  (out ++ fst (encode_commands cs obf []), snd (encode_commands cs obf [])).
Proof.
  revert obf out; induction cs as [|c cs IH]; intros obf out; simpl; [by rewrite app_nil_r|].
  destruct (next_pad obf) as [n o]. rewrite IH, (IH o (cmd_bytes c ++ _)). simpl. by rewrite <- !app_assoc.
Qed.

Lemma encode_tiles cs obf :
  Forall command_ok cs ->
  tiles (fst (encode_commands cs obf [])) obf cs (snd (encode_commands cs obf [])).
Proof.
  intros H; revert obf; induction H as [|c cs Hc Hcs IH]; intros obf; simpl; [constructor|].
  destruct (next_pad obf) as [n o] eqn:Hn. rewrite encode_commands_acc. cbn [fst snd].
  rewrite <- app_assoc. econstructor; [done..| |apply IH]. by rewrite length_replicate.
Qed.

Lemma tiles_commands_ok payload o cs o' : tiles payload o cs o' -> Forall command_ok cs.
Proof. induction 1; by constructor. Qed.

(** (C30) Round trip of the command list under any obfuscation state: decoding
    what [encode_commands] wrote returns the same commands and leaves both
    generators in the same state, so a peer stays in step over any number of
    packages. *)
Theorem encode_decode_commands (cs : list Command) (obf : Obfuscation) :
  Forall command_ok cs ->
  decode_commands (fst (encode_commands cs obf [])) obf =
  (Ok cs, snd (encode_commands cs obf [])).
Proof.
  intros H. unfold decode_commands. apply (decode_loop_complete _ _ _ _ []); [lia..|].
  rewrite drop_0. by apply encode_tiles.
Qed.

Lemma encode_decode_commands_witness :
  let cs := [mkCommand 0x4c [0x4c; 1]; mkCommand 0x00 [0; 1; 7; 2; 0]; mkCommand 0x0c [0x0c]] in
  decode_commands (fst (encode_commands cs (obf_multiplayer 12345) [])) (obf_multiplayer 12345) =
  (Ok cs, snd (encode_commands cs (obf_multiplayer 12345) [])).
Proof.
  intros cs. apply (encode_decode_commands cs (obf_multiplayer 12345)).
  by apply (bool_decide_unpack _); vm_compute.
Defined.

(** Re-encoding a decoded payload: a solo payload comes back byte for
    byte; an obfuscated one comes back with the same length and the same
    commands (the values of the pad bytes are not kept). *)
Theorem decode_reencode_commands (payload : bytes) (obf : Obfuscation) (cs : list Command) (o' : Obfuscation) :
  decode_commands payload obf = (Ok cs, o') ->
  let '(payload', o'') := encode_commands cs obf [] in
  length payload' = length payload /\ o'' = o' /\
  (rng obf = None -> payload' = payload) /\
  decode_commands payload' obf = (Ok cs, o').
Proof.
  intros H. unfold decode_commands in H. apply decode_loop_sound in H as (cs' & -> & H); [|lia].
  rewrite drop_0 in H. cbn [app]. pose proof (encode_tiles _ obf (tiles_commands_ok _ _ _ _ H)) as He.
  destruct (encode_commands cs' obf []) as [p o''] eqn:E. cbn [fst snd] in He.
  assert (G : length p = length payload /\ o'' = o' /\ (rng obf = None -> p = payload)).
  { clear He. revert p o'' E. induction H as [o|c n pad rest o o1 cs o2 Hc Hn Hl Ht IH]; intros p o'' E.
    - by injection E as <- <-.
    - simpl in E. rewrite Hn, encode_commands_acc in E. injection E as <- <-.
      destruct (IH _ _ (surjective_pairing _)) as (L & -> & S). repeat split.
      + autorewrite with don. rewrite L. lia.
      + intros Hr. unfold next_pad in Hn. rewrite Hr in Hn. injection Hn as <- <-.
        rewrite (S Hr). destruct pad; [by rewrite app_nil_r|done]. }
  destruct G as (L & -> & S). repeat split; [done..|].
  unfold decode_commands. apply (decode_loop_complete _ _ _ _ []); [lia..|]. by rewrite drop_0.
Qed.

Lemma decode_reencode_commands_witness :
  decode_commands [0x4c; 1; 0x0c] obf_none = (Ok [mkCommand 0x4c [0x4c; 1]; mkCommand 0x0c [0x0c]], obf_none) /\
  fst (encode_commands [mkCommand 0x4c [0x4c; 1]; mkCommand 0x0c [0x0c]] obf_none []) = [0x4c; 1; 0x0c].
Proof.
  split; [reflexivity|].
  apply (decode_reencode_commands [0x4c; 1; 0x0c] obf_none
    [mkCommand 0x4c [0x4c; 1]; mkCommand 0x0c [0x0c]] obf_none); reflexivity.
Defined.

(** ** Record and network framings *)

Definition header_ok (h : PackageHeader) : Prop :=
  is_u32 (hd_stamp h) /\ is_i32 (hd_play h) /\ is_i32 (hd_valid h) /\ is_i32 (hd_group h)
  /\ is_u16 (hd_size h).

#[export] Instance header_ok_dec h : Decision (header_ok h).
Proof. unfold header_ok. apply _. Defined.

Lemma header_decode_encode h rest :
  header_ok h -> header_decode (header_encode h [] ++ rest) = Some h.
Proof.
  intros (H1 & H2 & H3 & H4 & H5). unfold header_decode.
  change (length (header_encode h [] ++ rest) <? HEADER_WIRE_LEN)%nat with false. cbv zeta iota.
  transitivity (Some (mkPackageHeader (from_le (to_le 4 (hd_stamp h)))
    (i32 (from_le (to_le 4 (hd_play h)))) (i32 (from_le (to_le 4 (hd_valid h))))
    (i32 (from_le (to_le 4 (hd_group h)))) (from_le (to_le 2 (hd_size h))))); [reflexivity|].
  rewrite !(from_le_signed 4 32) by first [done | lia].
  rewrite (from_le_to_le_id 4 32), (from_le_to_le_id 2 16) by done. by destruct h.
Qed.

Lemma header_encode_decode buf h :
  bytes_ok buf -> header_decode buf = Some h ->
  header_encode h [] = take 18 buf /\ header_ok h /\ (18 <= length buf)%nat.
Proof.
  intros Hb. unfold header_decode, HEADER_WIRE_LEN.
  destruct (Nat.ltb_spec (length buf) 18) as [|Hl]; [done|]. intros [= <-].
  split; [|split; [|done]].
  - unfold header_encode. cbn [hd_stamp hd_play hd_valid hd_group hd_size app].
    rewrite !(to_le_wrap_s 4 32), !to_le_le_at by first [done | lia]. rewrite drop_0.
    rewrite (take_cut 18 4 14), (take_cut 14 4 10), (take_cut 10 4 6), (take_cut 6 4 2) by done.
    by rewrite !drop_drop.
  - repeat split; cbn [hd_stamp hd_play hd_valid hd_group hd_size];
      first [apply wrap_s_range; lia | by apply (le_at_ok 4) | by apply (le_at_ok 2)].
Qed.

Definition record_ok (r : PackageRecord) : Prop :=
  header_ok (header r) /\ hd_size (header r) = Z.of_nat (length (rec_payload r)) /\
  bytes_ok (rec_payload r).

#[export] Instance record_ok_dec r : Decision (record_ok r).
Proof. unfold record_ok. apply _. Defined.

Lemma length_header_encode h : length (header_encode h []) = 18%nat.
Proof. unfold header_encode. autorewrite with don. reflexivity. Qed.

Lemma record_decode_encode r rest :
  record_ok r ->
  record_decode (record_encode r [] ++ rest) = Some (r, length (record_encode r [])).
Proof.
  intros (Hh & Hs & _). unfold record_decode, record_encode, HEADER_WIRE_LEN. rewrite <- app_assoc.
  rewrite header_decode_encode by done. cbn [mbind option_bind].
  rewrite Hs, Nat2Z.id, !length_app, !length_header_encode.
  destruct (Nat.ltb_spec (18 + (length (rec_payload r) + length rest)) (18 + length (rec_payload r))); [lia|].
  rewrite Nat.add_sub_swap, Nat.sub_diag by lia. cbn [Nat.add].
  rewrite (drop_app_length' (header_encode _ _)) by (by rewrite length_header_encode).
  rewrite take_app_length. by destruct r.
Qed.

Lemma record_encode_decode buf r n :
  bytes_ok buf -> record_decode buf = Some (r, n) ->
  record_encode r [] = take n buf /\ record_ok r /\ (18 <= n <= length buf)%nat.
Proof.
  intros Hb. unfold record_decode, HEADER_WIRE_LEN.
  destruct (header_decode buf) as [h|] eqn:Hh; [|done]. cbn [mbind option_bind].
  destruct (Nat.ltb_spec (length buf) (18 + Z.to_nat (hd_size h))) as [|Hl]; [done|].
  intros [<- <-]%(inj Some)%pair_equal_spec.
  apply header_encode_decode in Hh as (He & Hok & H18); [|done].
  assert (Hsz : 0 <= hd_size h) by (destruct Hok as (_&_&_&_&Hz); ranges; lia).
  replace (18 + _ - 18)%nat with (Z.to_nat (hd_size h)) by lia.
  repeat split; try lia; cbn [header rec_payload]; try apply Hok.
  - unfold record_encode. cbn [header rec_payload]. by rewrite He, take_take_drop.
  - rewrite length_take, length_drop. lia.
  - by apply bytes_ok_take, bytes_ok_drop.
Qed.

Definition encode_records (rs : list PackageRecord) : bytes :=
  flat_map (fun r => record_encode r []) rs.

Lemma stream_collect_encode rs pre fuel :
  Forall record_ok rs -> (length rs <= fuel)%nat ->
  stream_collect fuel (mkPackageStream (pre ++ encode_records rs) (length pre)) =
  (rs, mkPackageStream (pre ++ encode_records rs) (length (pre ++ encode_records rs))).
Proof.
  intros H; revert pre fuel; induction H as [|r rs Hr Hrs IH]; intros pre fuel Hf.
  { unfold encode_records. rewrite app_nil_r. destruct fuel; [done|]. simpl.
    unfold stream_next. simpl. by rewrite Nat.leb_refl. }
  destruct fuel as [|fuel]; [simpl in Hf; lia|]. cbn [stream_collect]. unfold stream_next.
  cbn [ps_buf ps_pos encode_records flat_map]. fold (encode_records rs).
  assert (Hl : (18 <= length (record_encode r []))%nat).
  { unfold record_encode. rewrite length_app, length_header_encode. lia. }
  destruct (Nat.leb_spec (length (pre ++ record_encode r [] ++ encode_records rs)) (length pre)) as [Hle|_].
  { rewrite !length_app in Hle. lia. }
  rewrite drop_app_length, record_decode_encode by done. rewrite app_assoc, <- length_app.
  rewrite IH by (simpl in Hf; lia). done.
Qed.

Lemma length_encode_records rs : (18 * length rs <= length (encode_records rs))%nat.
Proof.
  induction rs as [|r rs IH]; [done|]. cbn [encode_records flat_map length].
  fold (encode_records rs). rewrite length_app. unfold record_encode at 1.
  rewrite length_app, length_header_encode. lia.
Qed.

(** The recorded-game command stream round trips: iterating a
    [PackageStream] placed after any prefix over the encodings of any list of
    records yields exactly those records in order and stops at the end of the
    buffer. *)
Theorem package_stream_roundtrip (pre : bytes) (rs : list PackageRecord) :
  Forall record_ok rs ->
  let buf := pre ++ encode_records rs in
  stream_collect (length buf) (stream_new buf (length pre)) =
  (rs, mkPackageStream buf (length buf)).
Proof.
  intros H. apply stream_collect_encode; [done|]. rewrite length_app.
  pose proof (length_encode_records rs). lia.
Qed.

Lemma package_stream_roundtrip_witness :
  let rs := [mkPackageRecord (mkPackageHeader 7 (-1) 1 0 2) [0x4c; 1];
             mkPackageRecord (mkPackageHeader 9 3 0 1 0) []] in
  let buf := [1; 2; 3] ++ encode_records rs in
  stream_collect (length buf) (stream_new buf 3) = (rs, mkPackageStream buf (length buf)).
Proof.
  apply (package_stream_roundtrip [1; 2; 3]
    [mkPackageRecord (mkPackageHeader 7 (-1) 1 0 2) [0x4c; 1];
     mkPackageRecord (mkPackageHeader 9 3 0 1 0) []]).
  by apply (bool_decide_unpack _); vm_compute.
Defined.

(** Every record the stream reader returns re-encodes to the exact bytes
    it was read from, and the reader moves past exactly those bytes. *)
Theorem stream_next_exact (s s' : PackageStream) (r : PackageRecord) :
  bytes_ok (ps_buf s) -> stream_next s = (Some r, s') ->
  ps_buf s' = ps_buf s /\ (ps_pos s + 18 <= ps_pos s' <= length (ps_buf s))%nat /\
  record_encode r [] = take (ps_pos s' - ps_pos s) (drop (ps_pos s) (ps_buf s)) /\
  record_ok r.
Proof.
  intros Hb. unfold stream_next.
  destruct (Nat.leb_spec (length (ps_buf s)) (ps_pos s)) as [|Hlt]; [done|].
  destruct (record_decode _) as [[r0 n]|] eqn:E; [|done]. intros [= -> <-].
  apply record_encode_decode in E as (He & Hok & Hn); [|by apply bytes_ok_drop].
  rewrite length_drop in Hn. cbn [ps_buf ps_pos].
  replace (ps_pos s + n - ps_pos s)%nat with n by lia. repeat split; try done; try apply Hok; lia.
Qed.

Lemma stream_next_exact_witness :
  let buf := record_encode (mkPackageRecord (mkPackageHeader 7 (-1) 1 0 2) [0x4c; 1]) [] in
  exists r s', stream_next (stream_new buf 0) = (Some r, s') /\ record_ok r.
Proof.
  intros buf. exists (mkPackageRecord (mkPackageHeader 7 (-1) 1 0 2) [0x4c; 1]), (mkPackageStream buf 20).
  split; [vm_compute; reflexivity|].
  apply (stream_next_exact (stream_new buf 0) (mkPackageStream buf 20)
           (mkPackageRecord (mkPackageHeader 7 (-1) 1 0 2) [0x4c; 1]));
    [by apply (bool_decide_unpack _); vm_compute | vm_compute; reflexivity].
Defined.

(** The network framing carries a payload of up to [i16::MAX] bytes. *)
Definition net_package_ok (p : NetCommandPackage) : Prop :=
  is_u32 (np_stamp p) /\ is_i8 (np_play p) /\ Z.of_nat (length (np_payload p)) < 32768.

#[export] Instance net_package_ok_dec p : Decision (net_package_ok p).
Proof. unfold net_package_ok. apply _. Defined.

Lemma net_package_decode_encode p rest :
  net_package_ok p -> net_package_decode (net_package_encode p [] ++ rest) = Some p.
Proof.
  intros (H1 & H2 & H3). unfold net_package_decode, net_package_encode, NET_HEADER_LEN.
  set (sz := i16 (Z.of_nat (length (np_payload p)))).
  assert (Hsz : sz = Z.of_nat (length (np_payload p))) by (apply wrap_s_id; ranges; lia).
  set (buf := ([] ++ _) ++ rest).
  change (u32le buf 1) with (from_le (to_le 4 (np_stamp p))).
  change (byte_at buf 5) with (u8 (np_play p)).
  change (u16le buf 6) with (from_le (to_le 2 sz)).
  change (drop 8 buf) with (np_payload p ++ rest).
  change (_ || _)%bool with false at 1. cbv zeta iota.
  rewrite (from_le_to_le_id 4 32), (from_le_signed 2 16), (wrap_s_of_u 8)
    by first [done | lia | rewrite Hsz; ranges; lia].
  rewrite Hsz. destruct (Z.ltb_spec (Z.of_nat (length (np_payload p))) 0); [lia|].
  rewrite Nat2Z.id. replace (length buf) with (8 + (length (np_payload p) + length rest))%nat
    by (unfold buf; autorewrite with don; simpl; lia).
  destruct (Nat.ltb_spec (8 + (length (np_payload p) + length rest)) (8 + length (np_payload p))); [lia|].
  replace (8 + length (np_payload p) - 8)%nat with (length (np_payload p)) by lia.
  rewrite take_app_length. by destruct p.
Qed.

(** A recorded package survives the network framing: for a payload the
    16-bit size field can carry, decoding the message built by [from_record]
    gives back the stamp, the payload and the low eight bits of the player
    slot, whatever bytes follow it. *)
Theorem record_over_network (r : PackageRecord) (rest : bytes) :
  record_ok r -> hd_size (header r) < 32768 ->
  net_package_decode (net_package_encode (from_record r) [] ++ rest) =
  Some (mkNetCommandPackage (hd_stamp (header r)) (i8 (hd_play (header r))) (rec_payload r)).
Proof.
  intros (Hh & Hs & _) Hlt. apply net_package_decode_encode. repeat split; cbn [from_record np_stamp np_play np_payload].
  - apply Hh.
  - apply Hh.
  - by apply wrap_s_range.
  - by apply wrap_s_range.
  - lia.
Qed.

Lemma record_over_network_witness :
  net_package_decode (net_package_encode (from_record
    (mkPackageRecord (mkPackageHeader 7 3 1 0 2) [0x4c; 1])) [] ++ [9]) =
  Some (mkNetCommandPackage 7 3 [0x4c; 1]).
Proof.
  apply (record_over_network (mkPackageRecord (mkPackageHeader 7 3 1 0 2) [0x4c; 1]) [9]);
    by apply (bool_decide_unpack _); vm_compute.
Defined.

(** ** Generators that agree on their low sixteen bits *)

Definition obf_equiv (a b : Obfuscation) : Prop :=
  match rng a, rng b with
  | None, None => True
  | Some x, Some y => in_u 32 (seed x) /\ in_u 32 (seed y) /\ low16_eq (seed x) (seed y)
  | _, _ => False
  end.

Lemma next_pad_equiv a b : obf_equiv a b ->
  fst (next_pad a) = fst (next_pad b) /\ obf_equiv (snd (next_pad a)) (snd (next_pad b)).
Proof.
  unfold obf_equiv, next_pad. destruct a as [[[x]|]], b as [[[y]|]]; cbn [rng seed]; try done.
  intros (Hx & Hy & He). destruct (pad_next_low16 x y Hx Hy He) as [H1 H2].
  destruct (pad_next (mkPadRandom x)) as [n rx] eqn:Ex, (pad_next (mkPadRandom y)) as [m ry] eqn:Ey.
  apply pad_next_le in Ex as [_ Ex], Ey as [_ Ey]; [|done..]. done.
Qed.

Lemma decode_loop_equiv fuel payload i a b out : obf_equiv a b ->
  fst (decode_loop fuel payload i a out) = fst (decode_loop fuel payload i b out).
Proof.
  revert i a b out; induction fuel as [|fuel IH]; intros i a b out H; [done|]. cbn [decode_loop].
  destruct (i <? length payload)%nat; [|done].
  destruct (map_err _ _) as [l|]; [|done]. destruct (length payload <? i + l)%nat; [done|].
  apply next_pad_equiv in H as [Hn H]. destruct (next_pad a) as [n a'], (next_pad b) as [m b'].
  cbn [fst snd] in *. subst. by apply IH.
Qed.

Lemma encode_commands_equiv cs a b out : obf_equiv a b ->
  fst (encode_commands cs a out) = fst (encode_commands cs b out).
Proof.
  revert a b out; induction cs as [|c cs IH]; intros a b out H; [done|]. cbn [encode_commands].
  apply next_pad_equiv in H as [Hn H]. destruct (next_pad a) as [n a'], (next_pad b) as [m b'].
  cbn [fst snd] in *. subst. by apply IH.
Qed.

(** The first [n] pads of a generator. *)
Fixpoint pads (n : nat) (o : Obfuscation) : list nat :=
  match n with
  | O => []
  | S n => let '(p, o') := next_pad o in p :: pads n o'
  end.

Lemma pads_equiv n a b : obf_equiv a b -> pads n a = pads n b.
Proof.
  revert a b; induction n as [|n IH]; intros a b H; [done|]. cbn [pads].
  apply next_pad_equiv in H as [Hn H]. destruct (next_pad a) as [? a'], (next_pad b) as [? b'].
  cbn [fst snd] in *. subst. f_equal. by apply IH.
Qed.

(** ** The checksum command *)

Definition checksums_ok (c : CheckSums) : Prop :=
  length (channels c) = 16%nat /\ Forall is_u32 (channels c).

Definition checksums_command (c : CheckSums) : Command :=
  mkCommand 0x39 (0x39 :: flat_map (to_le 4) (channels c)).

Lemma checksums_decode_command c :
  checksums_ok c ->
  checksums_decode (checksums_command c) = Some c /\ command_ok (checksums_command c).
Proof.
  intros [Hl H]. destruct c as [l]. unfold checksums_decode, checksums_command. cbn [channels] in *.
  do 16 (destruct l as [|? l]; [discriminate Hl|]). destruct l; [|discriminate Hl].
  repeat match goal with H : Forall _ (_ :: _) |- _ => apply Forall_cons in H as [? H] end.
  split; [|split; reflexivity].
  match goal with |- _ = Some (mkCheckSums ?l) =>
    transitivity (Some (mkCheckSums (map (fun z => from_le (to_le 4 z)) l))); [reflexivity|] end.
  cbn [map]. by rewrite !(from_le_to_le_id 4 32) by done.
Qed.
