(* ===== verification/NetStream.v ===== *)
(** * Locating the command stream of a recorded game

    [crates/don-net/src/stream.rs]: the backward dynamic program that finds
    the longest chain of record headers tiling the buffer to its last byte. *)

From S2P Require Import Prelude NetObfuscate NetCommand.

(** [struct StreamLocation { start, records }]. *)
Record StreamLocation := mkStreamLocation { start : nat; records : nat }.

(** The loop's state: the table [count] and [best = (length, offset)], whose
    offset is [usize::MAX] (here [None]) until a chain is found. *)
Record FindState := mkFindState { fs_count : list nat; fs_best : nat * option nat }.

(** The labelled block ['body]: [None] is [break 'body]. *)
Definition chain_len (buf : bytes) (count : list nat) (o : nat) : option nat :=
  let n := length buf in
  if 8 <=? u32le buf (o + 4) then None
  else
    let ln := Z.to_nat (u16le buf (o + 16)) in
    if (Z.to_nat 4000 <? ln)%nat then None
    else
      let next := (o + HEADER_WIRE_LEN + ln)%nat in
      if (n <? next)%nat then None
      else if (next =? n)%nat then Some 1%nat
      else
        match count !! next with
        | None | Some 0%nat => None
        | Some k =>
            let a := u32le buf o in
            let b := u32le buf next in
            if (b <? a) || (200 <? b - a) then None else Some (S k)
        end.

Definition find_body (buf : bytes) (o : nat) (st : FindState) : FindState :=
  match chain_len buf (fs_count st) o with
  | None => st
  | Some c =>
      mkFindState (<[o := c]> (fs_count st))
        (if (fst (fs_best st) <? c)%nat then (c, Some o) else fs_best st)
  end.

(** [loop { body; if o == 0 { break } o -= 1 }]. *)
Fixpoint find_loop (buf : bytes) (o : nat) (st : FindState) : FindState :=
  let st := find_body buf o st in
  match o with
  | O => st
  | S o' => find_loop buf o' st
  end.

Definition find_stream (buf : bytes) : option StreamLocation :=
  let n := length buf in
  if (n <? HEADER_WIRE_LEN)%nat then None
  else
    let st := find_loop buf (n - HEADER_WIRE_LEN)
                (mkFindState (replicate (n + 1) 0%nat) (0%nat, None)) in
    match snd (fs_best st) with
    | None => None
    | Some o => Some (mkStreamLocation o (fst (fs_best st)))
    end.

(** ** Specification: chains of records *)

Section Chains.
Context (buf : bytes).
Let n := length buf.

Definition rec_len (o : nat) : nat := Z.to_nat (u16le buf (o + 16)).
Definition next_of (o : nat) : nat := (o + HEADER_WIRE_LEN + rec_len o)%nat.

Definition plausible (o : nat) : Prop :=
  u32le buf (o + 4) < 8 /\ (rec_len o <= Z.to_nat 4000)%nat /\ (next_of o <= n)%nat.

(** [chain o k]: from [o], [k] plausible records follow each other with
    stamps that never go back and never leap by more than 200, and the last
    ends at the end of the buffer. *)
Inductive chain : nat -> nat -> Prop :=
| chain_last o : plausible o -> next_of o = n -> chain o 1
| chain_link o k :
    plausible o -> (next_of o < n)%nat -> chain (next_of o) k ->
    u32le buf o <= u32le buf (next_of o) <= u32le buf o + 200 ->
    chain o (S k).

Lemma chain_fits o k : chain o k -> (o + HEADER_WIRE_LEN <= n)%nat /\ (1 <= k)%nat.
Proof. intros H. destruct H as [o (_&_&H) _|o k (_&_&H) _ _ _]; unfold next_of in H; lia. Qed.

Lemma chain_det o k k' : chain o k -> chain o k' -> k = k'.
Proof.
  intros H; revert k'; induction H as [o Hp Hn|o k Hp Hn Hc IH Hs]; intros k' H'; inversion H'; subst;
    try done; try lia. f_equal. by apply IH.
Qed.

(** The table after the offsets from [o] up have been processed. *)
Definition table_ok (o : nat) (count : list nat) : Prop :=
  length count = (n + 1)%nat /\
  (forall p, (p < o)%nat -> (p <= n)%nat -> count !! p = Some 0%nat) /\
  (forall p k, (o <= p)%nat -> (chain p k <-> count !! p = Some k /\ k <> 0%nat)).

Definition best_ok (o : nat) (best : nat * option nat) : Prop :=
  match snd best with None => fst best = 0%nat | Some s => chain s (fst best) /\ (o <= s)%nat end /\
  forall p k, (o <= p)%nat -> chain p k ->
    (k <= fst best)%nat /\ (k = fst best -> exists s, snd best = Some s /\ (p <= s)%nat).

Definition find_inv (o : nat) (st : FindState) : Prop :=
  table_ok o (fs_count st) /\ best_ok o (fs_best st).

Lemma chain_len_spec o count k :
  table_ok (S o) count -> chain_len buf count o = Some k <-> chain o k.
Proof.
  intros (Hlen & _ & Ht). unfold chain_len. cbv zeta. fold (rec_len o).
  change (o + HEADER_WIRE_LEN + rec_len o)%nat with (next_of o). fold n.
  destruct (Z.leb_spec 8 (u32le buf (o + 4))) as [H1|H1].
  { split; [done|]. intros H; inversion H as [? (?&_)|? ? (?&_)]; lia. }
  destruct (Nat.ltb_spec (Z.to_nat 4000) (rec_len o)) as [H2|H2].
  { split; [done|]. intros H; inversion H as [? (_&?&_)|? ? (_&?&_)]; lia. }
  destruct (Nat.ltb_spec n (next_of o)) as [H3|H3].
  { split; [done|]. intros H; inversion H as [? (_&_&?)|? ? (_&_&?)]; lia. }
  destruct (Nat.eqb_spec (next_of o) n) as [H4|H4].
  { split; [intros [= <-]; by constructor|]. intros H; inversion H; subst; [done|lia]. }
  assert (Hnx : (S o <= next_of o)%nat) by (unfold next_of, HEADER_WIRE_LEN; lia).
  specialize (Ht (next_of o)).
  destruct (count !! next_of o) as [[|j]|] eqn:Ec.
  - split; [done|]. intros H; inversion H; subst; [lia|]. apply Ht in H6 as [[= <-] ?]; [done|lia].
  - assert (Hc : chain (next_of o) (S j)) by (apply Ht; [lia|done]).
    destruct (Z.ltb_spec (u32le buf (next_of o)) (u32le buf o)) as [H5|H5];
      [|destruct (Z.ltb_spec 200 (u32le buf (next_of o) - u32le buf o)) as [H6|H6]]; cbn [orb].
    1-2: split; [done|]; intros H; inversion H; subst; lia.
    split; [intros [= <-]; constructor; [done|lia|done|lia]|].
    intros H; inversion H as [|? k0 ? ? Hc0]; subst; [lia|]. by rewrite (chain_det _ _ _ Hc Hc0).
  - split; [done|]. intros H; inversion H; subst; [lia|]. apply Ht in H6 as [? ?]; [done|lia].
Qed.

Lemma find_body_inv o st :
  (o + HEADER_WIRE_LEN <= n)%nat -> find_inv (S o) st -> find_inv o (find_body buf o st).
Proof.
  intros Ho [Ht [Hb1 Hb2]]. pose proof (fun k => chain_len_spec o _ k Ht) as Hs.
  destruct Ht as (Hlen & Hz & Ht). unfold find_body.
  destruct (chain_len buf (fs_count st) o) as [c|] eqn:E.
  - assert (Hc : chain o c) by (by apply Hs). pose proof (chain_fits _ _ Hc) as [_ Hc1].
    split; cbn [fs_count fs_best].
    + split; [by rewrite length_insert|]. split.
      { intros p Hp Hpn. rewrite list_lookup_insert_ne by lia. apply Hz; lia. }
      intros p k Hp. destruct (decide (p = o)) as [->|Hne].
      * rewrite list_lookup_insert_eq by lia. split; [intros H|intros [[= <-] _]; done].
        rewrite (chain_det _ _ _ H Hc). split; [done|lia].
      * rewrite list_lookup_insert_ne by done. apply Ht. lia.
    + destruct (Nat.ltb_spec (fst (fs_best st)) c) as [Hlt|Hge]; split; cbn [fst snd].
      * by split.
      * intros p k Hp H. destruct (decide (p = o)) as [->|Hne].
        { rewrite (chain_det _ _ _ H Hc). split; [lia|]. intros _. eauto. }
        destruct (Hb2 p k ltac:(lia) H). split; lia.
      * destruct (snd (fs_best st)); [|done]. destruct Hb1. split; [done|lia].
      * intros p k Hp H. destruct (decide (p = o)) as [->|Hne]; [|apply Hb2; [lia|done]].
        rewrite (chain_det _ _ _ H Hc). split; [lia|]. intros ->.
        destruct (snd (fs_best st)) as [s|]; [|lia]. exists s. split; [done|lia].
  - assert (Hnone : forall k, ~ chain o k) by (by intros k ?%Hs).
    split; [split; [done|split]|split].
    + intros p Hp Hpn. apply Hz; lia.
    + intros p k Hp. destruct (decide (p = o)) as [->|Hne]; [|apply Ht; lia].
      split; [by intros ?%Hnone|]. rewrite Hz by lia. by intros [[= <-] ?].
    + destruct (snd (fs_best st)); [|done]. destruct Hb1. split; [done|lia].
    + intros p k Hp H. destruct (decide (p = o)) as [->|Hne]; [by apply Hnone in H|].
      apply Hb2; [lia|done].
Qed.

Lemma find_loop_inv o st :
  (o + HEADER_WIRE_LEN <= n)%nat -> find_inv (S o) st -> find_inv 0 (find_loop buf o st).
Proof.
  revert st; induction o as [|o IH]; intros st Ho H; cbn [find_loop];
    [by apply find_body_inv|]. apply IH; [lia|]. by apply find_body_inv.
Qed.

Lemma find_inv_init :
  (HEADER_WIRE_LEN <= n)%nat ->
  find_inv (S (n - HEADER_WIRE_LEN)) (mkFindState (replicate (n + 1) 0%nat) (0%nat, None)).
Proof.
  intros Hn. split; [split; [apply length_replicate|split]|split; [done|]]; cbn [fs_count fs_best].
  - intros p _ Hp. apply lookup_replicate_2. lia.
  - intros p k Hp. split.
    + intros [H _]%chain_fits. lia.
    + intros [[-> _]%lookup_replicate ?]. done.
  - intros p k Hp [H _]%chain_fits. lia.
Qed.
End Chains.

(** [find_stream] finds the longest chain: what it returns is a chain of
    [records] plausible records from [start] that tiles the buffer exactly to
    its end, no offset starts a longer one, among the longest it is the last
    to start, and [None] is returned only when there is no chain at all. *)
Theorem find_stream_longest (buf : bytes) :
  match find_stream buf with
  | Some l =>
      chain buf (start l) (records l) /\
      (forall o k, chain buf o k -> (k <= records l)%nat /\ (k = records l -> (o <= start l)%nat))
  | None => forall o k, ~ chain buf o k
  end.
Proof.
  unfold find_stream. cbv zeta. destruct (Nat.ltb_spec (length buf) HEADER_WIRE_LEN) as [H|H].
  { intros o k [? _]%chain_fits. lia. }
  destruct (find_loop_inv buf (length buf - HEADER_WIRE_LEN) _ ltac:(lia) (find_inv_init buf H))
    as [_ [Hb1 Hb2]].
  set (st := find_loop _ _ _) in *. clearbody st.
  destruct (snd (fs_best st)) as [s|] eqn:E; cbn [start records].
  - split; [apply Hb1|]. intros o k Hc. destruct (Hb2 o k ltac:(lia) Hc) as [H1 H2]. split; [done|].
    intros Heq. by destruct (H2 Heq) as (s' & [= <-] & ?).
  - intros o k Hc. destruct (Hb2 o k ltac:(lia) Hc) as [H1 _]. apply chain_fits in Hc. lia.
Qed.

(** Reading a chain with the record iterator. *)
Lemma chain_collect buf o k fuel :
  bytes_ok buf -> chain buf o k -> (k <= fuel)%nat ->
  exists rs, length rs = k /\
    stream_collect fuel (stream_new buf o) = (rs, mkPackageStream buf (length buf)).
Proof.
  intros Hb H; revert fuel.
  assert (Hn : forall o, plausible buf o ->
    exists r, stream_next (stream_new buf o) = (Some r, mkPackageStream buf (next_of buf o))).
  { clear o k H. intros o (_ & _ & Hle). unfold stream_next, stream_new, record_decode, header_decode.
    unfold next_of, rec_len, HEADER_WIRE_LEN in *. cbn [ps_buf ps_pos].
    destruct (Nat.leb_spec (length buf) o); [lia|]. rewrite length_drop.
    destruct (Nat.ltb_spec (length buf - o) 18); [lia|]. cbn [mbind option_bind hd_size].
    rewrite !le_at_drop.
    destruct (Nat.ltb_spec (length buf - o) (18 + Z.to_nat (u16le buf (o + 16)))); [lia|].
    eexists. by rewrite Nat.add_assoc. }
  induction H as [o Hp He|o k Hp Hlt Hc IH Hs]; intros fuel Hf; (destruct fuel as [|fuel]; [lia|]);
    destruct (Hn o Hp) as [r Hr]; cbn [stream_collect]; rewrite Hr.
  - exists [r]. split; [done|]. rewrite He. destruct fuel; [done|]. cbn [stream_collect].
    unfold stream_next. cbn [ps_buf ps_pos]. by rewrite Nat.leb_refl.
  - destruct (IH fuel ltac:(lia)) as (rs & Hl & Hrs). exists (r :: rs). split; [simpl; lia|].
    change (mkPackageStream buf (next_of buf o)) with (stream_new buf (next_of buf o)). by rewrite Hrs.
Qed.

Lemma chain_count_le buf o k : chain buf o k -> (k <= length buf)%nat.
Proof.
  intros H. assert (G : (o + k <= length buf)%nat); [|lia].
  induction H as [o Hp He|o k Hp Hlt Hc IH Hs]; unfold next_of, HEADER_WIRE_LEN in *; lia.
Qed.

(** What is located can be read: from [find_stream]'s offset the record
    iterator yields exactly [records] packages and stops at the last byte. *)
Theorem find_stream_reads (buf : bytes) (l : StreamLocation) :
  bytes_ok buf -> find_stream buf = Some l ->
  exists rs, length rs = records l /\
    stream_collect (length buf) (stream_new buf (start l)) = (rs, mkPackageStream buf (length buf)).
Proof.
  intros Hb H. assert (Hc : chain buf (start l) (records l)).
  { unfold find_stream in H. cbv zeta in H.
    destruct (Nat.ltb_spec (length buf) HEADER_WIRE_LEN) as [|H18]; [done|].
    destruct (find_loop_inv buf (length buf - HEADER_WIRE_LEN) _ ltac:(lia) (find_inv_init buf H18))
      as [_ [Hb1 _]].
    destruct (snd (fs_best _)) as [s|] in *; [|done]. injection H as <-. apply Hb1. }
  apply chain_collect; [done..|]. by eapply chain_count_le.
Qed.

Lemma find_stream_reads_witness :
  let buf := [255; 255; 255; 255; 255] ++
    encode_records [mkPackageRecord (mkPackageHeader 7 1 1 0 2) [0x4c; 1];
                    mkPackageRecord (mkPackageHeader 9 3 0 1 0) []] in
  find_stream buf = Some (mkStreamLocation 5 2) /\
  exists rs, length rs = 2%nat /\
    stream_collect (length buf) (stream_new buf 5) = (rs, mkPackageStream buf (length buf)).
Proof.
  intros buf. assert (H : find_stream buf = Some (mkStreamLocation 5 2)) by (vm_compute; reflexivity).
  split; [exact H|]. apply (find_stream_reads buf (mkStreamLocation 5 2)); [|exact H].
  by apply (bool_decide_unpack _); vm_compute.
Defined.
