(* ===== verification/NetText.v ===== *)
(** * Strings on the wire

    A Rust [String] is a list of Unicode scalar values.  This file models what
    the sources use of the standard library's text functions ([as_bytes],
    [from_utf8_lossy], [encode_utf16], [char::from_u32]) and the four
    fixed-width array routines of [crates/don-net/src/msg.rs]. *)

From S2P Require Import Prelude.

Abbreviation text := (list Z).

Definition is_scalar (c : Z) : bool :=
  ((0 <=? c) && (c <? 0xD800)) || ((0xE000 <=? c) && (c <? 0x110000)).

Definition text_ok (s : text) : Prop := Forall (fun c => is_scalar c = true) s.

#[export] Instance text_ok_dec s : Decision (text_ok s).
Proof. unfold text_ok. apply _. Defined.

Definition REPLACEMENT : Z := 0xFFFD.

(** [char::from_u32]. *)
Definition char_from_u32 (c : Z) : option Z := if is_scalar c then Some c else None.

(** [str::encode_utf16], one character at a time. *)
Definition utf16_char (c : Z) : list Z :=
  if c <? 0x10000 then [c]
  else [0xD800 + (c - 0x10000) / 1024; 0xDC00 + (c - 0x10000) mod 1024].
Definition encode_utf16 (s : text) : list Z := flat_map utf16_char s.

(** [str::as_bytes]. *)
Definition utf8_char (c : Z) : bytes :=
  if c <? 0x80 then [c]
  else if c <? 0x800 then [0xC0 + c / 64; 0x80 + c mod 64]
  else if c <? 0x10000 then [0xE0 + c / 4096; 0x80 + c / 64 mod 64; 0x80 + c mod 64]
  else [0xF0 + c / 262144; 0x80 + c / 4096 mod 64; 0x80 + c / 64 mod 64; 0x80 + c mod 64].
Definition as_bytes (s : text) : bytes := flat_map utf8_char s.

(** [String::from_utf8_lossy]: each maximal ill-formed part becomes one
    U+FFFD. *)
Definition between (lo hi b : Z) : bool := (lo <=? b) && (b <=? hi).
Definition is_cont (b : Z) : bool := between 0x80 0xBF b.

(** The second byte a three- or four-byte lead admits. *)
Definition second_ok (b0 b1 : Z) : bool :=
  if b0 =? 0xE0 then between 0xA0 0xBF b1
  else if b0 =? 0xED then between 0x80 0x9F b1
  else if b0 =? 0xF0 then between 0x90 0xBF b1
  else if b0 =? 0xF4 then between 0x80 0x8F b1
  else is_cont b1.

Fixpoint from_utf8_lossy (bs : bytes) : text :=
  match bs with
  | [] => []
  | b0 :: r1 =>
      if b0 <? 0x80 then b0 :: from_utf8_lossy r1
      else if between 0xC2 0xDF b0 then
        match r1 with
        | b1 :: r2 =>
            if is_cont b1 then ((b0 - 0xC0) * 64 + (b1 - 0x80)) :: from_utf8_lossy r2
            else REPLACEMENT :: from_utf8_lossy r1
        | [] => [REPLACEMENT]
        end
      else if between 0xE0 0xEF b0 then
        match r1 with
        | b1 :: r2 =>
            if second_ok b0 b1 then
              match r2 with
              | b2 :: r3 =>
                  if is_cont b2
                  then ((b0 - 0xE0) * 4096 + (b1 - 0x80) * 64 + (b2 - 0x80)) :: from_utf8_lossy r3
                  else REPLACEMENT :: from_utf8_lossy r2
              | [] => [REPLACEMENT]
              end
            else REPLACEMENT :: from_utf8_lossy r1
        | [] => [REPLACEMENT]
        end
      else if between 0xF0 0xF4 b0 then
        match r1 with
        | b1 :: r2 =>
            if second_ok b0 b1 then
              match r2 with
              | b2 :: r3 =>
                  if is_cont b2 then
                    match r3 with
                    | b3 :: r4 =>
                        if is_cont b3
                        then ((b0 - 0xF0) * 262144 + (b1 - 0x80) * 4096 + (b2 - 0x80) * 64
                              + (b3 - 0x80)) :: from_utf8_lossy r4
                        else REPLACEMENT :: from_utf8_lossy r3
                    | [] => [REPLACEMENT]
                    end
                  else REPLACEMENT :: from_utf8_lossy r2
              | [] => [REPLACEMENT]
              end
            else REPLACEMENT :: from_utf8_lossy r1
        | [] => [REPLACEMENT]
        end
      else REPLACEMENT :: from_utf8_lossy r1
  end.

(** ** The fixed-width arrays of [msg.rs] *)

(** [read_wide]: the loop over the units [i], with its two breaks. *)
Fixpoint read_wide_loop (b : bytes) (o : nat) (units : nat) : text :=
  match units with
  | O => []
  | S units =>
      if (length b <=? o + 1)%nat then []
      else
        let c := u16le b o in
        if c =? 0 then []
        else default REPLACEMENT (char_from_u32 c) :: read_wide_loop b (o + 2) units
  end.
Definition read_wide (b : bytes) (off units : nat) : text := read_wide_loop b off units.

(** [write_wide]: at most [units - 1] code units, then zero padding. *)
Definition write_wide (out : bytes) (s : text) (units : nat) : bytes :=
  let us := take (units - 1) (encode_utf16 s) in
  out ++ flat_map (to_le 2) us ++ flat_map (fun _ => [0; 0]) (seq (length us) (units - length us)).

(** [read_narrow]: clamp to the buffer, stop at the first NUL. *)
Fixpoint until_nul (l : bytes) : bytes :=
  match l with
  | [] => []
  | c :: l => if c =? 0 then [] else c :: until_nul l
  end.
Definition read_narrow (b : bytes) (off len : nat) : text :=
  let e := Nat.min (off + len) (length b) in
  let o := Nat.min off (length b) in
  from_utf8_lossy (until_nul (take (e - o) (drop o b))).

(** [write_narrow]: at most [len - 1] bytes, then zero padding. *)
Definition write_narrow (out : bytes) (s : text) (len : nat) : bytes :=
  let b := as_bytes s in
  let n := Nat.min (length b) (len - 1) in
  out ++ take n b ++ replicate (len - n) 0.

(** ** UTF-8 round trip *)

Ltac zdm := Z.to_euclidean_division_equations; lia.

Lemma is_scalar_range c : is_scalar c = true ->
  0 <= c < 0x110000 /\ ~ (0xD800 <= c < 0xE000).
Proof. unfold is_scalar. intros H. apply orb_true_iff in H as [H|H]; bool_hyps; lia. Qed.

Lemma between_spec lo hi b : between lo hi b = true <-> lo <= b <= hi.
Proof. unfold between. rewrite andb_true_iff, Z.leb_le, Z.leb_le. done. Qed.
Lemma between_true lo hi b : lo <= b <= hi -> between lo hi b = true.
Proof. by rewrite between_spec. Qed.
Lemma between_false lo hi b : ~ (lo <= b <= hi) -> between lo hi b = false.
Proof. rewrite <- between_spec. by destruct (between lo hi b). Qed.

Lemma utf8_char_ok c : is_scalar c = true -> bytes_ok (utf8_char c).
Proof.
  intros [H _]%is_scalar_range. unfold utf8_char.
  repeat match goal with |- context [if ?a <? ?b then _ else _] => destruct (Z.ltb_spec a b) end;
    repeat constructor; unfold in_u; change (2 ^ 8) with 256; zdm.
Qed.

Lemma second_ok_3 c : is_scalar c = true -> 0x800 <= c < 0x10000 ->
  second_ok (0xE0 + c / 4096) (0x80 + c / 64 mod 64) = true.
Proof.
  intros [_ H]%is_scalar_range Hc. unfold second_ok, is_cont.
  repeat match goal with |- context [if ?a =? ?b then _ else _] => destruct (Z.eqb_spec a b) end;
    apply between_true; zdm.
Qed.

Lemma second_ok_4 c : 0x10000 <= c < 0x110000 ->
  second_ok (0xF0 + c / 262144) (0x80 + c / 4096 mod 64) = true.
Proof.
  intros Hc. unfold second_ok, is_cont.
  repeat match goal with |- context [if ?a =? ?b then _ else _] => destruct (Z.eqb_spec a b) end;
    apply between_true; zdm.
Qed.

Lemma cont_true c : is_cont (0x80 + c mod 64) = true.
Proof. apply between_true. pose proof (Z.mod_pos_bound c 64). lia. Qed.

Lemma from_utf8_char c rest :
  is_scalar c = true -> from_utf8_lossy (utf8_char c ++ rest) = c :: from_utf8_lossy rest.
Proof.
  intros Hs. pose proof (is_scalar_range c Hs) as [Hc _]. unfold utf8_char.
  destruct (Z.ltb_spec c 0x80) as [H1|H1]; [|destruct (Z.ltb_spec c 0x800) as [H2|H2];
    [|destruct (Z.ltb_spec c 0x10000) as [H3|H3]]]; cbn [app from_utf8_lossy].
  - by rewrite (proj2 (Z.ltb_lt _ _) H1).
  - rewrite (proj2 (Z.ltb_ge _ _)) by zdm. rewrite between_true by zdm.
    rewrite cont_true. f_equal. zdm.
  - rewrite (proj2 (Z.ltb_ge _ _)) by zdm. rewrite between_false, between_true by zdm.
    rewrite second_ok_3, cont_true by first [done | lia]. f_equal. zdm.
  - rewrite (proj2 (Z.ltb_ge _ _)) by zdm.
    rewrite (between_false 0xC2), (between_false 0xE0), between_true by zdm.
    rewrite second_ok_4, !cont_true by lia. f_equal. zdm.
Qed.

Lemma from_utf8_as_bytes s : text_ok s -> from_utf8_lossy (as_bytes s) = s.
Proof.
  induction 1 as [|c s Hc Hs IH]; [done|]. unfold as_bytes in *. cbn [flat_map].
  by rewrite from_utf8_char, IH.
Qed.

Lemma as_bytes_ok s : text_ok s -> bytes_ok (as_bytes s).
Proof.
  induction 1 as [|c s Hc Hs IH]; [constructor|]. unfold as_bytes in *. cbn [flat_map].
  apply bytes_ok_app. split; [by apply utf8_char_ok|done].
Qed.

(** ** Fixed-width round trips *)

Lemma until_nul_app s rest : Forall (fun c => c <> 0) s -> until_nul (s ++ 0 :: rest) = s.
Proof.
  induction 1 as [|c s Hc Hs IH]; [done|]. cbn [app until_nul].
  destruct (Z.eqb_spec c 0); [done|]. by rewrite IH.
Qed.

Lemma as_bytes_nonzero s : text_ok s -> Forall (fun c => c <> 0) s ->
  Forall (fun c => c <> 0) (as_bytes s).
Proof.
  induction 1 as [|c s Hc Hs IH]; intros Hz; [constructor|]. apply Forall_cons in Hz as [Hz Hzs].
  unfold as_bytes in *. cbn [flat_map]. apply Forall_app. split; [|by apply IH].
  apply is_scalar_range in Hc as [Hc _]. unfold utf8_char.
  repeat match goal with |- context [if ?a <? ?b then _ else _] => destruct (Z.ltb_spec a b) end;
    repeat constructor; zdm.
Qed.

Definition narrow_ok (len : nat) (s : text) : Prop :=
  text_ok s /\ Forall (fun c => c <> 0) s /\ (length (as_bytes s) < len)%nat.

#[export] Instance narrow_ok_dec len s : Decision (narrow_ok len s).
Proof. unfold narrow_ok. apply _. Defined.

Lemma length_write_narrow out s len :
  (0 < len)%nat -> length (write_narrow out s len) = (length out + len)%nat.
Proof. intros. unfold write_narrow. autorewrite with don. lia. Qed.

Lemma read_write_narrow pre s len rest :
  narrow_ok len s -> read_narrow (write_narrow pre s len ++ rest) (length pre) len = s.
Proof.
  intros (Hs & Hz & Hl). unfold read_narrow.
  rewrite length_app, length_write_narrow by lia.
  rewrite Nat.min_l, (Nat.min_l (length pre)) by lia.
  replace (length pre + len - length pre)%nat with len by lia.
  unfold write_narrow. rewrite <- app_assoc, drop_app_length.
  rewrite Nat.min_l, firstn_all by lia.
  rewrite take_app_length' by (autorewrite with don; lia).
  destruct (len - length (as_bytes s))%nat eqn:E; [lia|]. cbn [replicate].
  rewrite until_nul_app by (by apply as_bytes_nonzero). by apply from_utf8_as_bytes.
Qed.

(** A wide string the array can carry: BMP characters only, since the reader
    decodes each code unit on its own. *)
Definition wide_ok (units : nat) (s : text) : Prop :=
  Forall (fun c => is_scalar c = true /\ c < 0x10000 /\ c <> 0) s /\ (length s < units)%nat.

#[export] Instance wide_ok_dec units s : Decision (wide_ok units s).
Proof. unfold wide_ok. apply _. Defined.

Lemma encode_utf16_bmp s :
  Forall (fun c => is_scalar c = true /\ c < 0x10000 /\ c <> 0) s -> encode_utf16 s = s.
Proof.
  induction 1 as [|c s (_ & Hc & _) Hs IH]; [done|]. unfold encode_utf16 in *. cbn [flat_map].
  rewrite IH. unfold utf16_char. by rewrite (proj2 (Z.ltb_lt _ _) Hc).
Qed.

Lemma length_flat_map_const {A B} (f : A -> list B) n l :
  (forall x, length (f x) = n) -> length (flat_map f l) = (n * length l)%nat.
Proof. intros H. induction l as [|x l IH]; simpl; [lia|]. rewrite length_app, H, IH. lia. Qed.

Lemma length_write_wide out s units :
  (0 < units)%nat -> length (write_wide out s units) = (length out + 2 * units)%nat.
Proof.
  intros. unfold write_wide. rewrite !length_app.
  rewrite (length_flat_map_const _ 2), (length_flat_map_const _ 2), length_seq, length_take
    by (intros; by rewrite ?length_to_le). lia.
Qed.

Lemma read_wide_loop_bmp pre s tail units :
  Forall (fun c => is_scalar c = true /\ c < 0x10000 /\ c <> 0) s -> (length s < units)%nat ->
  read_wide_loop (pre ++ flat_map (to_le 2) s ++ 0 :: 0 :: tail) (length pre) units = s.
Proof.
  intros H; revert pre units; induction H as [|c s (Hc & Hlt & Hz) Hs IH]; intros pre units Hu;
    (destruct units as [|units]; [simpl in Hu; lia|]); cbn [read_wide_loop flat_map].
  - destruct (Nat.leb_spec (length (pre ++ [] ++ 0 :: 0 :: tail)) (length pre + 1)) as [Hle|_].
    { rewrite length_app in Hle. simpl in Hle. lia. }
    change ([] ++ 0 :: 0 :: tail) with (to_le 2 0 ++ tail). rewrite le_at_app' by done. done.
  - destruct (Nat.leb_spec (length (pre ++ (to_le 2 c ++ flat_map (to_le 2) s) ++ 0 :: 0 :: tail))
      (length pre + 1)) as [Hle|_].
    { rewrite !length_app, length_to_le in Hle. simpl in Hle. lia. }
    pose proof (is_scalar_range c Hc) as [Hr _].
    rewrite <- app_assoc, le_at_app' by (done || (unfold in_u; simpl; lia)).
    destruct (Z.eqb_spec c 0); [done|]. unfold char_from_u32. rewrite Hc. cbn [default].
    rewrite app_assoc. replace (length pre + 2)%nat with (length (pre ++ to_le 2 c))
      by (autorewrite with don; done).
    unfold default. simpl. f_equal. apply IH. simpl in Hu. lia.
Qed.

Lemma read_write_wide pre s units rest :
  wide_ok units s -> read_wide (write_wide pre s units ++ rest) (length pre) units = s.
Proof.
  intros [Hs Hl]. unfold read_wide, write_wide. rewrite (encode_utf16_bmp s Hs).
  rewrite firstn_all2 by lia.
  destruct (units - length s)%nat eqn:E; [lia|]. cbn [seq flat_map].
  rewrite <- !app_assoc. cbn [app]. by apply read_wide_loop_bmp.
Qed.
