(* ===== verification/NetMsg.v ===== *)
(** * Game messages

    [crates/don-net/src/msg.rs]: the type byte with its reply flag, the
    dispatcher's jump table, and the codec of every [NetMsg] variant.
    [NetMsg_codec] is its [WireCodec] instance. *)

From S2P Require Import Prelude NetObfuscate NetCommand NetText.

(** [struct MsgType { id, response }]. *)
Record MsgType := mkMsgType { ty_id : Z; response : bool }.

#[export] Instance MsgType_eq_dec : EqDecision MsgType.
Proof. solve_decision. Defined.

Definition RESPONSE_FLAG : Z := 64.

Definition from_wire (b : Z) : MsgType :=
  mkMsgType (Z.land b (u8 (Z.lnot RESPONSE_FLAG))) (negb (Z.land b RESPONSE_FLAG =? 0)).

Definition to_wire (t : MsgType) : Z :=
  Z.lor (ty_id t) (if response t then RESPONSE_FLAG else 0).

Definition IPT_BASE : Z := 128.

Definition is_internal (b : Z) : bool := IPT_BASE <=? b.

(** [enum Dispatch]. *)
Inductive Dispatch := Handled | Ignored | Dead.

Definition DISPATCH_TARGET : list Z := [
   0x00950fc8; 0x00951201; 0x00951201; 0x00951201;
   0x00951201; 0x0095116a; 0x00951144; 0x009510e5;
   0x00951201; 0x00951271; 0x009511b8; 0x00951271;
   0x009511d9; 0x0095111e; 0x00951131; 0x00950fdc;
   0x00950fef; 0x00951007; 0x0095101d; 0x00951033;
   0x00951049; 0x0095105b; 0x0095106f; 0x009510ae;
   0x00951086; 0x0095109a; 0x009511a4; 0x00951201;
   0x00951201; 0x009511ed; 0x0095117e].

Definition DEFAULT_ARM : Z := 0x00951201.
Definition NOOP_ARM : Z := 0x00951271.

Definition dispatch (id : Z) : Dispatch :=
  match DISPATCH_TARGET !! Z.to_nat id with
  | None => Dead
  | Some t => if t =? DEFAULT_ARM then Dead else if t =? NOOP_ARM then Ignored else Handled
  end.

Definition MSG_SIZE : list (option Z) := [
   Some 513; None; None; None; None; Some 514;
   Some 9; None; Some 10; Some 2; Some 5; Some 13;
   Some 9; Some 3; Some 2; Some 2; Some 2; Some 525;
   Some 2; Some 259; Some 1; Some 521; Some 1; Some 1;
   Some 5; Some 529; Some 69; Some 1; Some 65; Some 5;
   None].

(** [enum NetMsg]. *)
Inductive NetMsg :=
| Generic (buffer : bytes)
| Chat (observer_to_all : Z) (message : text)
| Ping (cx cy : Z)
| CommandPackage (stamp play : Z) (payload : bytes)
| Pause (play pause_time requested_state : Z)
| Taunt (taunt : Z)
| SyncSignal (play : Z)
| DropStamp (play_from stamp play : Z)
| TimeSync (time_stamp_sent time_stamp_received : Z)
| DropVote (play vote : Z)
| DropDecision (vote : Z)
| DropFlag (pid : Z)
| GameModSyncRequest (desired : Z)
| GameModSyncResponse (required : Z)
| PlayerStatusRequest
| PlayerStatusResponse (player_id time_since_last_pulse : list Z)
| Raw (id : Z) (body : bytes).

#[export] Instance NetMsg_eq_dec : EqDecision NetMsg.
Proof. solve_decision. Defined.

(** [struct Framed { ty, msg }]. *)
Record Framed := mkFramed { ty : MsgType; msg : NetMsg }.

#[export] Instance Framed_eq_dec : EqDecision Framed.
Proof. solve_decision. Defined.

(** [enum MsgError]. *)
Inductive MsgError :=
| Empty
| Short (id : Z) (need have : nat)
| NegativeSize (n : Z)
| IsInternal (b : Z).

#[export] Instance MsgError_eq_dec : EqDecision MsgError.
Proof. solve_decision. Defined.

(** [NetMsg::id]. *)
Definition msg_id (m : NetMsg) : Z :=
  match m with
  | Generic _ => NetMsgType_u8 NetMsgType_Generic
  | Chat _ _ => NetMsgType_u8 NetMsgType_Chat
  | Ping _ _ => NetMsgType_u8 NetMsgType_Ping
  | CommandPackage _ _ _ => NetMsgType_u8 NetMsgType_CommandPackageData
  | Pause _ _ _ => NetMsgType_u8 NetMsgType_Pause
  | Taunt _ => NetMsgType_u8 NetMsgType_Taunt
  | SyncSignal _ => NetMsgType_u8 NetMsgType_SyncSignal
  | DropStamp _ _ _ => NetMsgType_u8 NetMsgType_DropStamp
  | TimeSync _ _ => NetMsgType_u8 NetMsgType_TimeSync
  | DropVote _ _ => NetMsgType_u8 NetMsgType_DropVote
  | DropDecision _ => NetMsgType_u8 NetMsgType_DropDecision
  | DropFlag _ => NetMsgType_u8 NetMsgType_DropFlag
  | GameModSyncRequest _ => NetMsgType_u8 NetMsgType_GameModSyncRequest
  | GameModSyncResponse _ => NetMsgType_u8 NetMsgType_GameModSyncResponse
  | PlayerStatusRequest => NetMsgType_u8 NetMsgType_PlayerStatusRequest
  | PlayerStatusResponse _ _ => NetMsgType_u8 NetMsgType_PlayerStatusResponse
  | Raw id _ => id
  end.

Definition u8_is (x : Z) (t : NetMsgType) : bool := x =? NetMsgType_u8 t.

(** The [match ty.id] of [NetMsg::decode]. *)
Definition decode_body (id : Z) (buf : bytes) : result MsgError NetMsg :=
  let need n := if (length buf <? n)%nat then Err (Short id n (length buf)) else Ok tt in
  if u8_is id NetMsgType_Generic then
    let? _ := need (Z.to_nat 513) in Ok (Generic (take 512 (drop 1 buf)))
  else if u8_is id NetMsgType_Chat then
    let? _ := need (Z.to_nat 514) in Ok (Chat (byte_at buf 1) (read_wide buf 2 256))
  else if u8_is id NetMsgType_Ping then
    let? _ := need 9%nat in Ok (Ping (i32le buf 1) (i32le buf 5))
  else if u8_is id NetMsgType_CommandPackageData then
    let? _ := need 8%nat in
    let size := i16 (u16le buf 6) in
    if size <? 0 then Err (NegativeSize size)
    else
      let e := (8 + Z.to_nat size)%nat in
      let? _ := need e in
      Ok (CommandPackage (u32le buf 1) (i8 (byte_at buf 5)) (take (e - 8) (drop 8 buf)))
  else if u8_is id NetMsgType_Pause then
    let? _ := need 10%nat in Ok (Pause (i32le buf 1) (u32le buf 5) (byte_at buf 9))
  else if u8_is id NetMsgType_Taunt then
    let? _ := need 2%nat in Ok (Taunt (byte_at buf 1))
  else if u8_is id NetMsgType_SyncSignal then
    let? _ := need 5%nat in Ok (SyncSignal (i32le buf 1))
  else if u8_is id NetMsgType_DropStamp then
    let? _ := need 13%nat in Ok (DropStamp (i32le buf 1) (i32le buf 5) (i32le buf 9))
  else if u8_is id NetMsgType_TimeSync then
    let? _ := need 9%nat in Ok (TimeSync (u32le buf 1) (u32le buf 5))
  else if u8_is id NetMsgType_DropVote then
    let? _ := need 3%nat in Ok (DropVote (byte_at buf 1) (i8 (byte_at buf 2)))
  else if u8_is id NetMsgType_DropDecision then
    let? _ := need 2%nat in Ok (DropDecision (i8 (byte_at buf 1)))
  else if u8_is id NetMsgType_DropFlag then
    let? _ := need 5%nat in Ok (DropFlag (i32le buf 1))
  else if u8_is id NetMsgType_GameModSyncRequest then
    let? _ := need 2%nat in Ok (GameModSyncRequest (byte_at buf 1))
  else if u8_is id NetMsgType_GameModSyncResponse then
    let? _ := need 2%nat in Ok (GameModSyncResponse (byte_at buf 1))
  else if u8_is id NetMsgType_PlayerStatusRequest then Ok PlayerStatusRequest
  else if u8_is id NetMsgType_PlayerStatusResponse then
    let? _ := need 65%nat in
    Ok (PlayerStatusResponse (map (fun i => u32le buf (1 + i * 4)) (seq 0 8))
                             (map (fun i => u32le buf (33 + i * 4)) (seq 0 8)))
  else Ok (Raw id (drop 1 buf)).

(** [NetMsg::decode]. *)
Definition msg_decode (buf : bytes) : result MsgError Framed :=
  match buf with
  | [] => Err Empty
  | b0 :: _ =>
      if is_internal b0 then Err (IsInternal b0)
      else
        let ty := from_wire b0 in
        let? m := decode_body (ty_id ty) buf in
        Ok (mkFramed ty m)
  end.

(** The [match self] of [NetMsg::encode_framed]. *)
Definition encode_body (m : NetMsg) (out : bytes) : bytes :=
  match m with
  | Generic buffer => out ++ buffer
  | Chat observer message => write_wide (out ++ [observer]) message 256
  | Ping cx cy => out ++ to_le 4 cx ++ to_le 4 cy
  | CommandPackage stamp play payload =>
      out ++ to_le 4 stamp ++ [u8 play] ++ to_le 2 (i16 (Z.of_nat (length payload))) ++ payload
  | Pause play time state => out ++ to_le 4 play ++ to_le 4 time ++ [state]
  | Taunt taunt => out ++ [taunt]
  | SyncSignal play => out ++ to_le 4 play
  | DropStamp from stamp play => out ++ to_le 4 from ++ to_le 4 stamp ++ to_le 4 play
  | TimeSync sent received => out ++ to_le 4 sent ++ to_le 4 received
  | DropVote play vote => out ++ [play] ++ [u8 vote]
  | DropDecision vote => out ++ [u8 vote]
  | DropFlag pid => out ++ to_le 4 pid
  | GameModSyncRequest desired => out ++ [desired]
  | GameModSyncResponse required => out ++ [required]
  | PlayerStatusRequest => out
  | PlayerStatusResponse ids times => out ++ flat_map (to_le 4) ids ++ flat_map (to_le 4) times
  | Raw _ body => out ++ body
  end.

Definition encode_framed (m : NetMsg) (response : bool) (out : bytes) : bytes :=
  encode_body m (out ++ [to_wire (mkMsgType (msg_id m) response)]).

Definition msg_encode (m : NetMsg) (out : bytes) : bytes := encode_framed m false out.

(** ** The type byte *)

(** Every id of the game's space with either reply flag survives the byte. *)
Lemma from_to_wire id r : 0 <= id < 64 ->
  from_wire (to_wire (mkMsgType id r)) = mkMsgType id r /\
  is_internal (to_wire (mkMsgType id r)) = false.
Proof.
  intros H. assert (Hin : In id (map Z.of_nat (seq 0 64))).
  { apply in_map_iff. exists (Z.to_nat id). rewrite in_seq. lia. }
  assert (F : Forall (fun i => forall r, from_wire (to_wire (mkMsgType i r)) = mkMsgType i r /\
      is_internal (to_wire (mkMsgType i r)) = false) (map Z.of_nat (seq 0 64))).
  { repeat (constructor; [by intros []|]). constructor. }
  rewrite List.Forall_forall in F. by apply F.
Qed.

(** ** Well-formed messages *)

(** The ids the decoder has a typed arm for. *)
Definition typed_ids : list Z := [0; 5; 6; 7; 8; 9; 10; 11; 12; 13; 14; 15; 16; 27; 28; 29].

(** The values each variant's fields can hold at their Rust types, a payload
    the 16-bit size carries, a message text the array carries, and a [Raw] id
    that no typed arm claims. *)
Definition msg_wf (m : NetMsg) : Prop :=
  match m with
  | Generic buffer => length buffer = 512%nat
  | Chat o s => is_u8 o /\ wide_ok 256 s
  | Ping cx cy => is_i32 cx /\ is_i32 cy
  | CommandPackage stamp play payload =>
      is_u32 stamp /\ is_i8 play /\ Z.of_nat (length payload) < 32768
  | Pause p t s => is_i32 p /\ is_u32 t /\ is_u8 s
  | Taunt t => is_u8 t
  | SyncSignal p => is_i32 p
  | DropStamp f s p => is_i32 f /\ is_i32 s /\ is_i32 p
  | TimeSync s r => is_u32 s /\ is_u32 r
  | DropVote p v => is_u8 p /\ is_i8 v
  | DropDecision v => is_i8 v
  | DropFlag p => is_i32 p
  | GameModSyncRequest d => is_u8 d
  | GameModSyncResponse r => is_u8 r
  | PlayerStatusRequest => True
  | PlayerStatusResponse ids times =>
      (length ids = 8%nat /\ length times = 8%nat) /\ Forall is_u32 ids /\ Forall is_u32 times
  | Raw id body => 0 <= id < 64 /\ id ∉ typed_ids
  end.

#[export] Instance msg_wf_dec m : Decision (msg_wf m).
Proof. destruct m; unfold msg_wf; apply _. Defined.

Lemma msg_id_range m : msg_wf m -> 0 <= msg_id m < 64.
Proof. destruct m; cbn; try lia. Qed.

Lemma msg_decode_framed m r :
  msg_wf m ->
  decode_body (msg_id m) (encode_framed m r []) = Ok m ->
  msg_decode (encode_framed m r []) = Ok (mkFramed (mkMsgType (msg_id m) r) m).
Proof.
  intros Hw Hb. destruct (from_to_wire (msg_id m) r (msg_id_range m Hw)) as [Hf Hi].
  assert (E : exists tail, encode_framed m r [] = to_wire (mkMsgType (msg_id m) r) :: tail).
  { unfold encode_framed. destruct m; cbn [encode_body app]; eauto. }
  destruct E as [tail E]. unfold msg_decode. rewrite E at 1. rewrite Hi, Hf. cbn [ty_id].
  by rewrite Hb.
Qed.

(** One array field read back. *)
Lemma u32_array_read l : length l = 8%nat -> Forall is_u32 l ->
  map (fun z => from_le (to_le 4 z)) l = l.
Proof.
  intros _ H. induction H as [|z l Hz Hl IH]; [done|]. cbn [map]. by rewrite (from_le_to_le_id 4 32), IH.
Qed.

(** The reads of a fixed layout compute; only the field values stay symbolic. *)
Ltac read_fields :=
  unfold i32le;
  rewrite ?(from_le_signed 4 32), ?(from_le_to_le_id 4 32), ?(wrap_s_of_u 8)
    by first [done | lia | tauto].
Ltac reads_as r := transitivity (@Ok MsgError NetMsg r); [reflexivity|]; by read_fields.

Lemma decode_body_package st p pl hd :
  is_u32 st -> is_i8 p -> Z.of_nat (length pl) < 32768 ->
  decode_body 7 (hd :: to_le 4 st ++ [u8 p] ++ to_le 2 (i16 (Z.of_nat (length pl))) ++ pl)
  = Ok (CommandPackage st p pl).
Proof.
  intros H1 H2 H3. set (sz := i16 (Z.of_nat (length pl))).
  assert (Hsz : sz = Z.of_nat (length pl)) by (apply wrap_s_id; ranges; lia).
  set (buf := hd :: _). unfold decode_body. cbv zeta.
  change (u8_is 7 NetMsgType_CommandPackageData) with true.
  change (u8_is 7 NetMsgType_Generic) with false. change (u8_is 7 NetMsgType_Chat) with false.
  change (u8_is 7 NetMsgType_Ping) with false. cbv iota.
  change (length buf <? 8)%nat with false. cbn [rbind].
  change (u16le buf 6) with (from_le (to_le 2 sz)). change (u32le buf 1) with (from_le (to_le 4 st)).
  change (byte_at buf 5) with (u8 p). change (drop 8 buf) with pl.
  rewrite (from_le_signed 2 16), (from_le_to_le_id 4 32), (wrap_s_of_u 8)
    by first [done | lia | rewrite Hsz; ranges; lia].
  rewrite Hsz, Nat2Z.id. destruct (Z.ltb_spec (Z.of_nat (length pl)) 0); [lia|].
  change (length buf) with (8 + length pl)%nat. rewrite Nat.ltb_irrefl. cbn [rbind].
  by replace (8 + length pl - 8)%nat with (length pl) by lia; rewrite firstn_all.
Qed.

Lemma decode_body_raw id buf : id ∉ typed_ids -> decode_body id buf = Ok (Raw id (drop 1 buf)).
Proof.
  intros H. unfold decode_body, u8_is.
  repeat match goal with |- context [id =? NetMsgType_u8 ?k] =>
    destruct (Z.eqb_spec id (NetMsgType_u8 k)) as [E|_];
      [exfalso; apply H; rewrite E; by apply (bool_decide_unpack _)|] end. done.
Qed.

Lemma decode_body_framed m r :
  msg_wf m -> decode_body (msg_id m) (encode_framed m r []) = Ok m.
Proof.
  destruct m as [b|o s|x y|st p pl|p t s|t|p|f s p|s t|p v|v|p|d|q| |ids times|id body]; intros Hw;
    cbn [msg_wf] in Hw; cbn [msg_id NetMsgType_u8].
  - set (buf := encode_framed _ _ _). change (decode_body 0 buf) with
      (rbind (if (length buf <? Z.to_nat 513)%nat then Err (Short 0 (Z.to_nat 513) (length buf)) else Ok tt)
         (fun _ => Ok (Generic (take 512 b)))).
    change (length buf) with (S (length b)). rewrite (firstn_all2 b) by lia. rewrite Hw. reflexivity.
  - set (buf := encode_framed _ _ _). change (decode_body 5 buf) with
      (rbind (if (length buf <? Z.to_nat 514)%nat then Err (Short 5 (Z.to_nat 514) (length buf)) else Ok tt)
         (fun _ => Ok (Chat (byte_at buf 1) (read_wide buf 2 256)))).
    destruct Hw as [Ho Hs]. unfold buf, encode_framed. cbn [encode_body].
    rewrite length_write_wide by lia. cbn [app length]. cbn [rbind Nat.add Nat.mul].
    change (_ <? Z.to_nat 514)%nat with false. cbn [rbind].
    do 2 f_equal.
    rewrite <- (app_nil_r (write_wide _ _ _)). apply (read_write_wide [_; o] s 256 []). done.
  - reads_as (Ping (i32 (from_le (to_le 4 x))) (i32 (from_le (to_le 4 y)))).
  - apply (decode_body_package st p pl); tauto.
  - reads_as (Pause (i32 (from_le (to_le 4 p))) (from_le (to_le 4 t)) s).
  - reflexivity.
  - reads_as (SyncSignal (i32 (from_le (to_le 4 p)))).
  - reads_as (DropStamp (i32 (from_le (to_le 4 f))) (i32 (from_le (to_le 4 s))) (i32 (from_le (to_le 4 p)))).
  - reads_as (TimeSync (from_le (to_le 4 s)) (from_le (to_le 4 t))).
  - reads_as (DropVote p (i8 (u8 v))).
  - reads_as (DropDecision (i8 (u8 v))).
  - reads_as (DropFlag (i32 (from_le (to_le 4 p)))).
  - reflexivity.
  - reflexivity.
  - reflexivity.
  - destruct Hw as [[L1 L2] [F1 F2]].
    do 8 (destruct ids as [|? ids]; [discriminate L1|]). destruct ids; [|discriminate L1].
    do 8 (destruct times as [|? times]; [discriminate L2|]). destruct times; [|discriminate L2].
    match goal with |- _ = Ok (PlayerStatusResponse ?a ?b) =>
      transitivity (@Ok MsgError NetMsg (PlayerStatusResponse (map (fun z => from_le (to_le 4 z)) a)
        (map (fun z => from_le (to_le 4 z)) b))); [reflexivity|] end.
    by rewrite !u32_array_read.
  - apply decode_body_raw. tauto.
Qed.

(** The codec interface is discharged by the message layer. *)
Definition decode_with_flag (buf : bytes) : result MsgError (NetMsg * bool) :=
  let? f := msg_decode buf in Ok (msg f, response (ty f)).

Lemma decode_with_flag_encode (m : NetMsg * bool) :
  msg_wf m.1 -> decode_with_flag (encode_framed m.1 m.2 []) = Ok m.
Proof.
  destruct m as [m r]. intros Hw. unfold decode_with_flag. cbn [fst snd] in *.
  by rewrite msg_decode_framed by (done || by apply decode_body_framed).
Qed.

#[export] Instance NetMsg_codec : WireCodec (NetMsg * bool) MsgError := {
  wire_encode m := encode_framed m.1 m.2 [];
  wire_decode := decode_with_flag;
  wire_wf m := msg_wf m.1;
  wire_decode_encode := decode_with_flag_encode;
}.

(** Game messages round trip: every variant with field values of its
    Rust types, sent with or without the reply flag, decodes to the same
    message under the same type byte. *)
Theorem msg_roundtrip (m : NetMsg) (r : bool) :
  msg_wf m ->
  msg_decode (encode_framed m r []) = Ok (mkFramed (mkMsgType (msg_id m) r) m).
Proof. intros H. apply msg_decode_framed; [done|]. by apply decode_body_framed. Qed.

Lemma msg_roundtrip_witness :
  msg_decode (encode_framed (DropStamp (-3) 70000 2) true []) =
  Ok (mkFramed (mkMsgType 11 true) (DropStamp (-3) 70000 2)).
Proof. apply (msg_roundtrip (DropStamp (-3) 70000 2) true). by apply (bool_decide_unpack _); vm_compute. Defined.

(** ** Sizes *)

Lemma short_iff {A} (id : Z) (n : nat) (buf : bytes) (k : unit -> result MsgError A) :
  (forall u, is_ok (k u) = true) ->
  let c := rbind (if (length buf <? n)%nat then Err (Short id n (length buf)) else Ok tt) k in
  ((length buf < n)%nat -> c = Err (Short id n (length buf))) /\
  ((n <= length buf)%nat -> is_ok c = true).
Proof. intros Hk. cbn zeta. destruct (Nat.ltb_spec (length buf) n); split; intros; (done || lia || apply Hk). Qed.

(** The recovered [sizeof] table and the codec agree: a typed message of
    fixed size encodes to exactly its [MSG_SIZE], and the decoder refuses a
    shorter packet of that id with [Short] naming that size and accepts any
    packet at least that long. *)
Theorem msg_sizes_agree (m : NetMsg) (r : bool) (n : Z) :
  msg_wf m -> msg_id m ∈ typed_ids -> MSG_SIZE !! Z.to_nat (msg_id m) = Some (Some n) ->
  Z.of_nat (length (encode_framed m r [])) = n /\
  forall buf, buf <> [] ->
    (Z.of_nat (length buf) < n ->
     decode_body (msg_id m) buf = Err (Short (msg_id m) (Z.to_nat n) (length buf))) /\
    (n <= Z.of_nat (length buf) -> is_ok (decode_body (msg_id m) buf) = true).
Proof.
  assert (R : forall n (buf : bytes) c e,
    ((length buf < Z.to_nat n)%nat -> c = Err e) /\ ((Z.to_nat n <= length buf)%nat -> @is_ok MsgError NetMsg c = true) ->
    0 <= n -> (Z.of_nat (length buf) < n -> c = Err e) /\ (n <= Z.of_nat (length buf) -> is_ok c = true)).
  { intros k buf c e [H1 H2] Hk. split; intros; [apply H1|apply H2]; lia. }
  destruct m as [b|o s|x y|st p pl|p t s|t|p|f s p|s t|p v|v|p|d|q| |ids times|id body];
    cbn [msg_id NetMsgType_u8 msg_wf]; intros Hw Hin Hn; try discriminate Hn;
    try (injection Hn as <-; split; [reflexivity|intros buf _; apply R; [|lia]; by apply short_iff]).
  - injection Hn as <-. split; [|intros buf _; apply R; [|lia]; by apply short_iff].
    change (length (encode_framed _ _ _)) with (S (length b)). by rewrite Hw.
  - injection Hn as <-. split; [|intros buf _; apply R; [|lia]; by apply short_iff].
    unfold encode_framed. cbn [encode_body]. by rewrite length_write_wide by lia.
  - injection Hn as <-. split; [reflexivity|]. intros [|b0 buf] Hb; [done|]. cbn [length]. split; [lia|done].
  - injection Hn as <-. split; [|intros buf _; apply R; [|lia]; by apply short_iff].
    destruct Hw as [[L1 L2] _]. unfold encode_framed. cbn [encode_body app length].
    by rewrite length_app, !(length_flat_map_const _ 4), L1, L2 by (intros; apply length_to_le).
  - by destruct Hw.
Qed.

Lemma msg_sizes_agree_witness :
  Z.of_nat (length (encode_framed (Pause 1 2 3) false [])) = 10 /\
  decode_body 8 [8; 1] = Err (Short 8 10 2).
Proof.
  split; [|apply (msg_sizes_agree (Pause 1 2 3) false 10)];
    first [by apply (bool_decide_unpack _); vm_compute | done
          | apply (msg_sizes_agree (Pause 1 2 3) false 10);
            first [by apply (bool_decide_unpack _); vm_compute | done]].
Defined.

(** ** The two package codecs *)

Lemma from_wire_package b0 : is_u8 b0 -> from_wire b0 = mkMsgType 7 false -> b0 = 7.
Proof.
  intros Hb H.
  assert (F : forallb (fun i => implb (bool_decide (from_wire i = mkMsgType 7 false)) (i =? 7))
                (map Z.of_nat (seq 0 256)) = true) by (vm_compute; reflexivity).
  rewrite forallb_forall in F. specialize (F b0). rewrite H, bool_decide_eq_true_2 in F by done.
  apply Z.eqb_eq, F, in_map_iff. exists (Z.to_nat b0). rewrite in_seq. ranges. lia.
Qed.

(** The stand-alone [NetCommandPackage] codec and the [NetMsg] codec are
    the same function on packages: on any packet the one decoder answers what
    the other does for an id-7 message without the reply flag (and nothing
    otherwise), and both encoders write the same bytes. *)
Theorem package_codecs_agree (buf out : bytes) (p : NetCommandPackage) :
  bytes_ok buf ->
  net_package_decode buf =
    match msg_decode buf with
    | Ok (mkFramed (mkMsgType 7 false) (CommandPackage s pl d)) => Some (mkNetCommandPackage s pl d)
    | _ => None
    end /\
  net_package_encode p out = msg_encode (CommandPackage (np_stamp p) (np_play p) (np_payload p)) out.
Proof.
  intros Hb. split; [|by unfold net_package_encode, msg_encode, encode_framed, encode_body;
                       rewrite <- !app_assoc].
  destruct buf as [|b0 buf]; [done|]. assert (Hb0 : is_u8 b0) by (by inversion Hb).
  unfold net_package_decode, msg_decode, NET_HEADER_LEN. change (byte_at (b0 :: buf) 0) with b0.
  destruct (Z.eqb_spec b0 (NetMsgType_u8 NetMsgType_CommandPackageData)) as [E|E].
  - rewrite E. change (is_internal _) with false. change (from_wire _) with (mkMsgType 7 false).
    cbn [ty_id NetMsgType_u8]. set (b := 7 :: buf). unfold decode_body. cbv zeta.
    change (u8_is 7 NetMsgType_CommandPackageData) with true.
    change (u8_is 7 NetMsgType_Generic) with false. change (u8_is 7 NetMsgType_Chat) with false.
    change (u8_is 7 NetMsgType_Ping) with false. cbv iota. cbn [negb]. rewrite orb_false_r.
    destruct (length b <? 8)%nat; [done|]. cbn [rbind].
    destruct (i16 (u16le b 6) <? 0); [done|]. cbn [rbind].
    by destruct (length b <? 8 + _)%nat.
  - cbn [negb]. rewrite orb_true_r. destruct (is_internal b0); [done|].
    destruct (from_wire b0) as [id r] eqn:Ew. destruct (decode_body _ _) as [m|]; [|done].
    cbn [rbind]. destruct r; [by repeat case_match|].
    destruct (decide (id = 7)) as [->|Hne]; [by apply from_wire_package in Ew|].
    by repeat case_match; simplify_eq.
Qed.

Lemma package_codecs_agree_witness :
  net_package_decode [7; 1; 0; 0; 0; 255; 1; 0; 12] = Some (mkNetCommandPackage 1 (-1) [12]) /\
  msg_decode [7; 1; 0; 0; 0; 255; 1; 0; 12] = Ok (mkFramed (mkMsgType 7 false) (CommandPackage 1 (-1) [12])).
Proof.
  assert (D : msg_decode [7; 1; 0; 0; 0; 255; 1; 0; 12] =
    Ok (mkFramed (mkMsgType 7 false) (CommandPackage 1 (-1) [12]))) by (vm_compute; reflexivity).
  split; [|exact D].
  destruct (package_codecs_agree [7; 1; 0; 0; 0; 255; 1; 0; 12] [] (mkNetCommandPackage 1 (-1) [12])) as [H _].
  - by apply (bool_decide_unpack _); vm_compute.
  - rewrite D in H. exact H.
Defined.
