(* ===== verification/NetInternal.v ===== *)
(** * The transport's control plane

    [crates/don-net/src/internal.rs]: the nine internal packets and their
    strict decoder.  [InternalPacket_codec] is the [WireCodec] instance. *)

From S2P Require Import Prelude NetText NetMsg.

Definition IPT_PLAYERLIST : Z := 128.
Definition IPT_DROPREQUEST : Z := 129.
Definition IPT_CANCELDROPREQUEST : Z := 130.
Definition IPT_PULSEPACKET : Z := 131.
Definition IPT_ADDPLAYER : Z := 132.
Definition IPT_DESTROYPLAYER : Z := 133.
Definition IPT_MIGRATEHOST : Z := 134.
Definition IPT_DSYNCMSG : Z := 135.
Definition IPT_READYFLAG : Z := 136.

Definition IPT_SIZE : list nat := [34; 5; 5; 1; 70; 5; 5; 5; 2]%nat.
Definition ADD_PLAYER_NAME_LEN : nat := 64.
Definition MAX_PLAYERS : nat := 8.

(** [enum InternalPacket]. *)
Inductive InternalPacket :=
| PlayerList (num_players : Z) (unique_ids : list Z)
| DropRequest (unique_id : Z)
| CancelDropRequest (unique_id : Z)
| Pulse
| AddPlayer (player_name : text) (unique_id : Z) (is_hosting : bool)
| DestroyPlayer (unique_id : Z)
| MigrateHost (new_host : Z)
| Dsync (frame : Z)
| ReadyFlag (ready : bool).

#[export] Instance InternalPacket_eq_dec : EqDecision InternalPacket.
Proof. solve_decision. Defined.

(** [enum InternalError]. *)
Inductive InternalError :=
| NotInternal (b : Z)
| UnknownType (b : Z)
| IShort (id : Z) (need have : nat)
| ITrailing (id : Z) (need have : nat)
| BadPlayerCount (count : Z)
| ZeroPlayerId (slot : nat)
| DuplicatePlayerId (id : Z)
| InvalidPlayerId (id : Z)
| InvalidBool (id value : Z).

#[export] Instance InternalError_eq_dec : EqDecision InternalError.
Proof. solve_decision. Defined.

Definition internal_id (p : InternalPacket) : Z :=
  match p with
  | PlayerList _ _ => IPT_PLAYERLIST
  | DropRequest _ => IPT_DROPREQUEST
  | CancelDropRequest _ => IPT_CANCELDROPREQUEST
  | Pulse => IPT_PULSEPACKET
  | AddPlayer _ _ _ => IPT_ADDPLAYER
  | DestroyPlayer _ => IPT_DESTROYPLAYER
  | MigrateHost _ => IPT_MIGRATEHOST
  | Dsync _ => IPT_DSYNCMSG
  | ReadyFlag _ => IPT_READYFLAG
  end.

Definition internal_wire_len (p : InternalPacket) : nat :=
  nth (Z.to_nat (internal_id p - IPT_BASE)) IPT_SIZE 0%nat.

(** The loop over the eight slots: the first [count] must be non-zero and
    distinct. *)
Fixpoint check_slots (count : nat) (seen ids : list Z) : result InternalError unit :=
  match ids with
  | [] => Ok tt
  | id :: ids =>
      if (length seen <? count)%nat then
        if id =? 0 then Err (ZeroPlayerId (length seen))
        else if existsb (Z.eqb id) seen then Err (DuplicatePlayerId id)
        else check_slots count (seen ++ [id]) ids
      else check_slots count (seen ++ [id]) ids
  end.

Definition decode_internal_body (id : Z) (buf : bytes) : result InternalError InternalPacket :=
  if id =? IPT_PLAYERLIST then
    let count := Z.to_nat (byte_at buf 1) in
    if (MAX_PLAYERS <? count)%nat then Err (BadPlayerCount (byte_at buf 1))
    else
      let ids := map (fun i => i32le buf (2 + i * 4)) (seq 0 MAX_PLAYERS) in
      let? _ := check_slots count [] ids in
      Ok (PlayerList (byte_at buf 1) ids)
  else if id =? IPT_DROPREQUEST then Ok (DropRequest (i32le buf 1))
  else if id =? IPT_CANCELDROPREQUEST then Ok (CancelDropRequest (i32le buf 1))
  else if id =? IPT_PULSEPACKET then Ok Pulse
  else if id =? IPT_ADDPLAYER then
    let unique_id := i32le buf 65 in
    if unique_id =? 0 then Err (InvalidPlayerId unique_id)
    else if 1 <? byte_at buf 69 then Err (InvalidBool id (byte_at buf 69))
    else Ok (AddPlayer (read_narrow buf 1 ADD_PLAYER_NAME_LEN) unique_id (negb (byte_at buf 69 =? 0)))
  else if id =? IPT_DESTROYPLAYER then
    let unique_id := i32le buf 1 in
    if unique_id =? 0 then Err (InvalidPlayerId unique_id) else Ok (DestroyPlayer unique_id)
  else if id =? IPT_MIGRATEHOST then Ok (MigrateHost (i32le buf 1))
  else if id =? IPT_DSYNCMSG then Ok (Dsync (i32le buf 1))
  else if id =? IPT_READYFLAG then
    if 1 <? byte_at buf 1 then Err (InvalidBool id (byte_at buf 1))
    else Ok (ReadyFlag (negb (byte_at buf 1 =? 0)))
  else Err (UnknownType id).

(** [InternalPacket::decode]. *)
Definition internal_decode (buf : bytes) : result InternalError InternalPacket :=
  let? id := ok_or (head buf) (NotInternal 0) in
  if id <? IPT_BASE then Err (NotInternal id)
  else
    let? need := ok_or (IPT_SIZE !! Z.to_nat (id - IPT_BASE)) (UnknownType id) in
    if (length buf <? need)%nat then Err (IShort id need (length buf))
    else if (need <? length buf)%nat then Err (ITrailing id need (length buf))
    else decode_internal_body id buf.

Definition u8_of_bool (b : bool) : Z := if b then 1 else 0.

(** [InternalPacket::encode]. *)
Definition internal_encode (p : InternalPacket) (out : bytes) : bytes :=
  let out := out ++ [internal_id p] in
  match p with
  | PlayerList n ids => out ++ [n] ++ flat_map (to_le 4) ids
  | DropRequest u | CancelDropRequest u | DestroyPlayer u => out ++ to_le 4 u
  | Pulse => out
  | AddPlayer name u h => write_narrow out name ADD_PLAYER_NAME_LEN ++ to_le 4 u ++ [u8_of_bool h]
  | MigrateHost h => out ++ to_le 4 h
  | Dsync f => out ++ to_le 4 f
  | ReadyFlag r => out ++ [u8_of_bool r]
  end.

(** [struct GenericSessionData] and its codec. *)
Record GenericSessionData := mkGenericSessionData { sd_ty : Z; validity_number : Z }.

Definition session_data_decode (b : bytes) : option GenericSessionData :=
  if (2 <=? length b)%nat then Some (mkGenericSessionData (byte_at b 0) (byte_at b 1)) else None.

Definition session_data_encode (d : GenericSessionData) (out : bytes) : bytes :=
  out ++ [sd_ty d] ++ [validity_number d].

(** ** The roster check *)

(** What a player list must satisfy: at most eight players, every active slot
    non-zero and no id twice among the active slots. *)
Definition roster_ok (n : Z) (ids : list Z) : Prop :=
  0 <= n <= 8 /\ Forall (fun i => i <> 0) (take (Z.to_nat n) ids) /\ NoDup (take (Z.to_nat n) ids).

Lemma check_slots_spec count seen ids :
  check_slots count seen ids = Ok tt <->
  (forall k id, ids !! k = Some id -> (length seen + k < count)%nat ->
     id <> 0 /\ id ∉ seen ++ take k ids).
Proof.
  revert seen; induction ids as [|x ids IH]; intros seen; cbn [check_slots].
  { split; [intros _ k id Hk; by rewrite lookup_nil in Hk|done]. }
  assert (Hshift : (forall k id, (x :: ids) !! k = Some id -> (length seen + k < count)%nat ->
      id <> 0 /\ id ∉ seen ++ take k (x :: ids)) <->
    ((length seen < count)%nat -> x <> 0 /\ x ∉ seen) /\
    (forall k id, ids !! k = Some id -> (length (seen ++ [x]) + k < count)%nat ->
      id <> 0 /\ id ∉ (seen ++ [x]) ++ take k ids)).
  { rewrite length_app. cbn [length]. split.
    - intros H. split.
      + intros Hl. specialize (H 0%nat x eq_refl ltac:(lia)). by rewrite app_nil_r in H.
      + intros k id Hk Hl. specialize (H (S k) id Hk ltac:(lia)). by rewrite <- app_assoc.
    - intros [H0 HS] [|k] id Hk Hl.
      + injection Hk as <-. rewrite app_nil_r. apply H0. lia.
      + cbn [take]. specialize (HS k id Hk ltac:(lia)). by rewrite <- app_assoc in HS. }
  rewrite Hshift. clear Hshift. destruct (Nat.ltb_spec (length seen) count) as [Hl|Hl].
  - destruct (Z.eqb_spec x 0) as [->|Hx]; [split; [done|]; intros [H0 _]; by destruct (H0 Hl)|].
    destruct (existsb (Z.eqb x) seen) eqn:Hd.
    + split; [done|]. intros [H0 _]. destruct (H0 Hl) as [_ Hn]. exfalso. apply Hn.
      apply existsb_exists in Hd as (y & Hy & ->%Z.eqb_eq). by apply list_elem_of_In.
    + rewrite IH. assert (Hn : x ∉ seen).
      { intros Hin. apply list_elem_of_In in Hin. apply not_true_iff_false in Hd. apply Hd.
        apply existsb_exists. exists x. split; [done|apply Z.eqb_refl]. }
      tauto.
  - rewrite IH. split; [intros H; split; [lia|done]|tauto].
Qed.

Lemma check_slots_roster n ids :
  0 <= n <= 8 -> check_slots (Z.to_nat n) [] ids = Ok tt <-> roster_ok n ids.
Proof.
  intros Hn. rewrite check_slots_spec. cbn [length app Nat.add]. unfold roster_ok. split.
  - intros H. split; [done|]. split.
    + apply Forall_lookup. intros k id Hk. apply lookup_take_Some in Hk as [Hk Hl]. by apply (H k id).
    + apply NoDup_alt. intros i j x Hi Hj.
      apply lookup_take_Some in Hi as [Hi Hli], Hj as [Hj Hlj].
      destruct (Nat.lt_trichotomy i j) as [Hlt|[|Hlt]]; [|done|]; exfalso.
      * apply (H j x Hj Hlj). apply list_elem_of_lookup. exists i. rewrite lookup_take_lt; done.
      * apply (H i x Hi Hli). apply list_elem_of_lookup. exists j. rewrite lookup_take_lt; done.
  - intros (_ & Hz & Hd) k id Hk Hl. split.
    + apply (Forall_lookup_1 _ _ k id Hz). by rewrite lookup_take_lt.
    + intros Hin. apply list_elem_of_lookup in Hin as [j Hj]. apply lookup_take_Some in Hj as [Hj Hjk].
      rewrite NoDup_alt in Hd. assert (j = k); [|lia].
      apply (Hd j k id); rewrite lookup_take_lt; done || lia.
Qed.

(** ** Round trip and strictness *)

Definition internal_wf (p : InternalPacket) : Prop :=
  match p with
  | PlayerList n ids => is_u8 n /\ length ids = 8%nat /\ Forall is_i32 ids /\ roster_ok n ids
  | DropRequest u | CancelDropRequest u => is_i32 u
  | Pulse => True
  | AddPlayer name u _ => narrow_ok 64 name /\ is_i32 u /\ u <> 0
  | DestroyPlayer u => is_i32 u /\ u <> 0
  | MigrateHost h => is_i32 h
  | Dsync f => is_i32 f
  | ReadyFlag _ => True
  end.

#[export] Instance internal_wf_dec p : Decision (internal_wf p).
Proof. destruct p; unfold internal_wf, roster_ok; apply _. Defined.

Lemma length_internal_encode p :
  internal_wf p -> length (internal_encode p []) = internal_wire_len p.
Proof.
  destruct p as [n ids|u|u| |name u h|u|h|f|r]; intros Hw; try reflexivity; cbn [internal_wf] in Hw.
  - unfold internal_encode. cbn [app length].
    rewrite (length_flat_map_const _ 4) by (intros; apply length_to_le).
    destruct Hw as (_ & -> & _). reflexivity.
  - unfold internal_encode. rewrite length_app, length_write_narrow by (unfold ADD_PLAYER_NAME_LEN; lia).
    reflexivity.
Qed.

Lemma internal_decode_exact p :
  internal_wf p ->
  internal_decode (internal_encode p []) = decode_internal_body (internal_id p) (internal_encode p []).
Proof.
  intros Hw. pose proof (length_internal_encode p Hw) as Hl.
  assert (Hh : head (internal_encode p []) = Some (internal_id p)) by (by destruct p).
  unfold internal_decode. rewrite Hh. cbn [ok_or rbind].
  assert (Hs : IPT_SIZE !! Z.to_nat (internal_id p - IPT_BASE) = Some (internal_wire_len p)) by (by destruct p).
  assert (Hb : (internal_id p <? IPT_BASE) = false) by (by destruct p).
  rewrite Hb, Hs. cbn [ok_or rbind]. by rewrite Hl, Nat.ltb_irrefl.
Qed.

Lemma decode_internal_framed p :
  internal_wf p -> decode_internal_body (internal_id p) (internal_encode p []) = Ok p.
Proof.
  destruct p as [n ids|u|u| |name u h|u|h|f|r]; cbn [internal_wf internal_id]; intros Hw.
  - destruct Hw as (Hn & Hl & Hi & Hr). pose proof Hr as [Hn8 _].
    do 8 (destruct ids as [|? ids]; [discriminate Hl|]). destruct ids; [|discriminate Hl].
    match type of Hr with roster_ok _ ?l => set (L := l) in * end.
    assert (Hids : map (fun i => i32le (internal_encode (PlayerList n L) []) (2 + i * 4)) (seq 0 MAX_PLAYERS) = L).
    { transitivity (map (fun z => i32 (from_le (to_le 4 z))) L); [reflexivity|].
      clear Hr. subst L. repeat match goal with H : Forall _ (_ :: _) |- _ => apply Forall_cons in H as [? H] end.
      cbn [map]. by rewrite !(from_le_signed 4 32) by first [done | lia]. }
    unfold decode_internal_body. change (IPT_PLAYERLIST =? IPT_PLAYERLIST) with true. cbv iota zeta.
    rewrite Hids. change (byte_at _ 1) with n. unfold MAX_PLAYERS.
    destruct (Nat.ltb_spec 8 (Z.to_nat n)); [lia|].
    by rewrite (proj2 (check_slots_roster n L Hn8) Hr).
  - transitivity (@Ok InternalError _ (DropRequest (i32 (from_le (to_le 4 u))))); [reflexivity|].
    by rewrite (from_le_signed 4 32) by first [done | lia].
  - transitivity (@Ok InternalError _ (CancelDropRequest (i32 (from_le (to_le 4 u))))); [reflexivity|].
    by rewrite (from_le_signed 4 32) by first [done | lia].
  - reflexivity.
  - destruct Hw as (Hname & Hu & Hz). unfold internal_encode.
    set (pre := [] ++ [internal_id (AddPlayer name u h)]).
    assert (Hlen : length (write_narrow pre name ADD_PLAYER_NAME_LEN) = 65%nat)
      by (by rewrite length_write_narrow by (unfold ADD_PLAYER_NAME_LEN; lia)).
    set (w := write_narrow _ _ _) in *.
    assert (Hu' : i32le (w ++ to_le 4 u ++ [u8_of_bool h]) 65 = u).
    { unfold i32le. rewrite <- Hlen, le_at_app. apply (wrap_s_of_u 32); [lia|done]. }
    assert (Hh : byte_at (w ++ to_le 4 u ++ [u8_of_bool h]) 69 = u8_of_bool h).
    { rewrite app_assoc. replace 69%nat with (length (w ++ to_le 4 u)) by (by rewrite length_app, Hlen).
      apply byte_at_app. }
    unfold decode_internal_body.
    change (IPT_ADDPLAYER =? IPT_PLAYERLIST) with false. change (IPT_ADDPLAYER =? IPT_DROPREQUEST) with false.
    change (IPT_ADDPLAYER =? IPT_CANCELDROPREQUEST) with false.
    change (IPT_ADDPLAYER =? IPT_PULSEPACKET) with false. change (IPT_ADDPLAYER =? IPT_ADDPLAYER) with true.
    cbv iota zeta. rewrite Hu', Hh. destruct (Z.eqb_spec u 0); [done|].
    replace (read_narrow _ 1 _) with name by (symmetry; by apply (read_write_narrow pre)).
    by destruct h.
  - destruct Hw as [Hu Hz].
    transitivity (if i32 (from_le (to_le 4 u)) =? 0 then Err (InvalidPlayerId (i32 (from_le (to_le 4 u))))
      else @Ok InternalError _ (DestroyPlayer (i32 (from_le (to_le 4 u))))); [reflexivity|].
    rewrite (from_le_signed 4 32) by first [done | lia]. by destruct (Z.eqb_spec u 0).
  - transitivity (@Ok InternalError _ (MigrateHost (i32 (from_le (to_le 4 h))))); [reflexivity|].
    by rewrite (from_le_signed 4 32) by first [done | lia].
  - transitivity (@Ok InternalError _ (Dsync (i32 (from_le (to_le 4 f))))); [reflexivity|].
    by rewrite (from_le_signed 4 32) by first [done | lia].
  - by destruct r.
Qed.

Lemma internal_decode_encode p : internal_wf p -> internal_decode (internal_encode p []) = Ok p.
Proof. intros H. rewrite internal_decode_exact by done. by apply decode_internal_framed. Qed.

#[export] Instance InternalPacket_codec : WireCodec InternalPacket InternalError := {
  wire_encode p := internal_encode p [];
  wire_decode := internal_decode;
  wire_wf := internal_wf;
  wire_decode_encode := internal_decode_encode;
}.

(** What a decoded packet guarantees to the session. *)
Definition internal_valid (p : InternalPacket) : Prop :=
  match p with
  | PlayerList n ids => length ids = 8%nat /\ roster_ok n ids
  | AddPlayer _ u _ => u <> 0
  | DestroyPlayer u => u <> 0
  | _ => True
  end.

Lemma internal_decode_inv buf p :
  internal_decode buf = Ok p ->
  exists id need, head buf = Some id /\ IPT_BASE <= id /\ IPT_SIZE !! Z.to_nat (id - IPT_BASE) = Some need /\
    length buf = need /\ decode_internal_body id buf = Ok p.
Proof.
  unfold internal_decode. intros H. destruct (head buf) as [id|]; [|done]. cbn [ok_or rbind] in H.
  destruct (Z.ltb_spec id IPT_BASE); [done|]. destruct (IPT_SIZE !! _) as [need|] eqn:E; [|done].
  cbn [ok_or rbind] in H. destruct (Nat.ltb_spec (length buf) need); [done|].
  destruct (Nat.ltb_spec need (length buf)); [done|]. exists id, need. repeat split; try done; lia.
Qed.

Lemma i32_reencode buf o :
  bytes_ok buf -> (o + 4 <= length buf)%nat -> to_le 4 (i32le buf o) = take 4 (drop o buf).
Proof. intros. unfold i32le. by rewrite (to_le_wrap_s 4 32), to_le_le_at by first [done | lia]. Qed.

Lemma head_cons buf (id : Z) : head buf = Some id -> buf = id :: drop 1 buf.
Proof. destruct buf; [done|]. by intros [= ->]. Qed.

(** A packet that is a type byte and one [i32]. *)
Lemma one_i32_reencode id buf :
  bytes_ok buf -> head buf = Some id -> length buf = 5%nat -> id :: to_le 4 (i32le buf 1) = buf.
Proof.
  intros Hb Hh Hl. rewrite i32_reencode by (done || lia). rewrite firstn_all2 by (rewrite length_drop; lia).
  symmetry. by apply head_cons.
Qed.

Lemma player_list_reencode id buf :
  bytes_ok buf -> head buf = Some id -> length buf = 34%nat ->
  id :: byte_at buf 1 :: flat_map (to_le 4) (map (fun i => i32le buf (2 + i * 4)) (seq 0 8)) = buf.
Proof.
  intros Hb Hh Hl. cbn [map seq flat_map Nat.mul Nat.add].
  rewrite !i32_reencode by (done || lia). rewrite app_nil_r.
  transitivity (id :: drop 1 buf); [|symmetry; by apply head_cons]. f_equal.
  rewrite <- (firstn_all2 (n:=33) (drop 1 buf)) by (rewrite length_drop; lia).
  rewrite (take_cut 33 1 32), <- byte_drop_cons by (done || lia). cbn [app]. f_equal.
  rewrite (take_cut 32 4 28), (take_cut 28 4 24), (take_cut 24 4 20), (take_cut 20 4 16),
    (take_cut 16 4 12), (take_cut 12 4 8), (take_cut 8 4 4) by done.
  by rewrite !drop_drop.
Qed.

(** Closes the branch of a packet that carries a single [i32]. *)
Ltac one Hsz Hd Hb :=
  injection Hsz as <-; cbv zeta in Hd; rinv_all Hd; subst; bool_hyps;
  repeat split; try done; by apply (one_i32_reencode _ _ Hb).

(** The strict decoder is sound: whatever it accepts has exactly the
    packet's [sizeof] and type byte, a player list it accepts names at most
    eight players, none with id zero and none twice, and no join or leave
    carries the id zero; and every packet but a join (whose name array has
    unused bytes) re-encodes to exactly the bytes received. *)
Theorem internal_decode_sound (buf : bytes) (p : InternalPacket) :
  bytes_ok buf -> internal_decode buf = Ok p ->
  length buf = internal_wire_len p /\ head buf = Some (internal_id p) /\ internal_valid p /\
  match p with AddPlayer _ _ _ => True | _ => internal_encode p [] = buf end.
Proof.
  intros Hb (id & need & Hh & Hbase & Hsz & Hlen & Hd)%internal_decode_inv.
  unfold decode_internal_body in Hd.
  destruct (Z.eqb_spec id IPT_PLAYERLIST) as [->|_].
  { injection Hsz as <-. cbv zeta in Hd. unfold MAX_PLAYERS in Hd.
    destruct (Nat.ltb_spec 8 (Z.to_nat (byte_at buf 1))) as [|H8]; [done|].
    destruct (check_slots _ _ _) as [[]|] eqn:Hc; [|done]. injection Hd as <-.
    pose proof (byte_at_ok buf 1 Hb) as B. repeat split; try done.
    - apply check_slots_roster in Hc; [by apply Hc|]. ranges. lia.
    - apply check_slots_roster in Hc; [by apply Hc|]. ranges. lia.
    - apply check_slots_roster in Hc; [by apply Hc|]. ranges. lia.
    - apply check_slots_roster in Hc; [by apply Hc|]. ranges. lia.
    - by apply (player_list_reencode IPT_PLAYERLIST buf). }
  destruct (Z.eqb_spec id IPT_DROPREQUEST) as [->|_]; [one Hsz Hd Hb|].
  destruct (Z.eqb_spec id IPT_CANCELDROPREQUEST) as [->|_]; [one Hsz Hd Hb|].
  destruct (Z.eqb_spec id IPT_PULSEPACKET) as [->|_].
  { injection Hsz as <-. injection Hd as <-. repeat split; try done.
    destruct buf as [|b [|]]; try done. by injection Hh as ->. }
  destruct (Z.eqb_spec id IPT_ADDPLAYER) as [->|_].
  { injection Hsz as <-. cbv zeta in Hd. rinv_all Hd; subst; bool_hyps. by repeat split. }
  destruct (Z.eqb_spec id IPT_DESTROYPLAYER) as [->|_]; [one Hsz Hd Hb|].
  destruct (Z.eqb_spec id IPT_MIGRATEHOST) as [->|_]; [one Hsz Hd Hb|].
  destruct (Z.eqb_spec id IPT_DSYNCMSG) as [->|_]; [one Hsz Hd Hb|].
  destruct (Z.eqb_spec id IPT_READYFLAG) as [->|_]; [|done].
  injection Hsz as <-. destruct buf as [|b0 [|b1 [|]]]; try done. injection Hh as ->.
  change (byte_at [IPT_READYFLAG; b1] 1) with b1 in *. rinv_all Hd; subst; bool_hyps. repeat split; try done.
  assert (Hb1 : is_u8 b1) by (inversion Hb as [|? ? _ Hb']; by inversion Hb').
  cbn. do 2 f_equal. destruct (Z.eqb_spec b1 0); cbn; ranges; lia.
Qed.

Lemma internal_decode_sound_witness :
  internal_decode [133; 4; 0; 0; 0] = Ok (DestroyPlayer 4) /\
  internal_encode (DestroyPlayer 4) [] = [133; 4; 0; 0; 0].
Proof.
  split; [reflexivity|].
  apply (internal_decode_sound [133; 4; 0; 0; 0] (DestroyPlayer 4)); [|reflexivity].
  by apply (bool_decide_unpack _); vm_compute.
Defined.

(** Control packets round trip: every packet the session sends decodes to
    itself and occupies exactly the [sizeof] the retail table gives it. *)
Theorem internal_roundtrip (p : InternalPacket) :
  internal_wf p ->
  internal_decode (internal_encode p []) = Ok p /\
  length (internal_encode p []) = internal_wire_len p.
Proof.
  intros H. split; [by apply internal_decode_encode|by apply length_internal_encode].
Qed.

Lemma internal_roundtrip_witness :
  internal_decode (internal_encode (AddPlayer [0x65; 0xE9; 0x1F600] 5 true) []) =
  Ok (AddPlayer [0x65; 0xE9; 0x1F600] 5 true).
Proof.
  apply (internal_roundtrip (AddPlayer [0x65; 0xE9; 0x1F600] 5 true)).
  by apply (bool_decide_unpack _); vm_compute.
Defined.
