(* ===== verification/NetExtension.v ===== *)
(** * Transport extensions and the game key

    [crates/don-net/src/extension.rs]: the two extension packets, and the
    class of game keys that drive the same package transform. *)

From S2P Require Import Prelude SimRandom NetObfuscate NetCommand.

Definition DON_EXT_BASE : Z := 0xF0.
Definition DON_EXT_GAMEKEY : Z := 0xF0.
Definition DON_EXT_MATCH_START : Z := 0xF1.
Definition DON_EXT_GAMEKEY_LEN : nat := 6.
Definition DON_EXT_MATCH_START_LEN : nat := 9.

(** [enum GameKeySource]. *)
Inductive GameKeySource := RetailGameInfoSeed | Configured.

#[export] Instance GameKeySource_eq_dec : EqDecision GameKeySource.
Proof. solve_decision. Defined.

Definition source_from_wire (v : Z) : option GameKeySource :=
  if v =? 1 then Some RetailGameInfoSeed else if v =? 2 then Some Configured else None.

Definition source_to_wire (s : GameKeySource) : Z :=
  match s with RetailGameInfoSeed => 1 | Configured => 2 end.

(** [enum DonExtension]. *)
Inductive DonExtension :=
| GameKey (seed : Z) (source : GameKeySource)
| MatchStart (epoch seed : Z).

#[export] Instance DonExtension_eq_dec : EqDecision DonExtension.
Proof. solve_decision. Defined.

(** [enum ExtensionError]. *)
Inductive ExtensionError :=
| NotExtension (b : Z)
| EUnknownType (b : Z)
| EShort (id : Z) (need have : nat)
| ETrailing (id : Z) (need have : nat)
| UnknownGameKeySource (v : Z).

#[export] Instance ExtensionError_eq_dec : EqDecision ExtensionError.
Proof. solve_decision. Defined.

Definition is_extension (b : Z) : bool := DON_EXT_BASE <=? b.

Definition ext_id (e : DonExtension) : Z :=
  match e with GameKey _ _ => DON_EXT_GAMEKEY | MatchStart _ _ => DON_EXT_MATCH_START end.

Definition ext_wire_len (e : DonExtension) : nat :=
  match e with GameKey _ _ => DON_EXT_GAMEKEY_LEN | MatchStart _ _ => DON_EXT_MATCH_START_LEN end.

(** [DonExtension::decode]. *)
Definition ext_decode (buf : bytes) : result ExtensionError DonExtension :=
  let? id := ok_or (head buf) (NotExtension 0) in
  if negb (is_extension id) then Err (NotExtension id)
  else
    let? need :=
      (if id =? DON_EXT_GAMEKEY then Ok DON_EXT_GAMEKEY_LEN
       else if id =? DON_EXT_MATCH_START then Ok DON_EXT_MATCH_START_LEN
       else Err (EUnknownType id)) in
    if (length buf <? need)%nat then Err (EShort id need (length buf))
    else if (need <? length buf)%nat then Err (ETrailing id need (length buf))
    else if id =? DON_EXT_GAMEKEY then
      let? source := ok_or (source_from_wire (byte_at buf 5)) (UnknownGameKeySource (byte_at buf 5)) in
      Ok (GameKey (u32le buf 1) source)
    else if id =? DON_EXT_MATCH_START then Ok (MatchStart (u32le buf 1) (u32le buf 5))
    else Err (EUnknownType id).

(** [DonExtension::encode]. *)
Definition ext_encode (e : DonExtension) (out : bytes) : bytes :=
  let out := out ++ [ext_id e] in
  match e with
  | GameKey seed source => out ++ to_le 4 seed ++ [source_to_wire source]
  | MatchStart epoch seed => out ++ to_le 4 epoch ++ to_le 4 seed
  end.

Definition GAME_KEY_WIRE_MASK : Z := 0x00FFFFFF.

Definition game_keys_are_wire_equivalent (a b : Z) : bool :=
  Z.land a GAME_KEY_WIRE_MASK =? Z.land b GAME_KEY_WIRE_MASK.

(** ** The extension codec *)

Definition ext_wf (e : DonExtension) : Prop :=
  match e with
  | GameKey seed _ => is_u32 seed
  | MatchStart epoch seed => is_u32 epoch /\ is_u32 seed
  end.

#[export] Instance ext_wf_dec e : Decision (ext_wf e).
Proof. destruct e; unfold ext_wf; apply _. Defined.

Lemma ext_decode_encode e : ext_wf e -> ext_decode (ext_encode e []) = Ok e.
Proof.
  destruct e as [s src|ep s]; cbn [ext_wf]; intros Hw.
  - transitivity (@Ok ExtensionError _ (GameKey (from_le (to_le 4 s)) src)); [by destruct src|].
    by rewrite (from_le_to_le_id 4 32).
  - transitivity (@Ok ExtensionError _ (MatchStart (from_le (to_le 4 ep)) (from_le (to_le 4 s)))); [done|].
    by rewrite !(from_le_to_le_id 4 32) by tauto.
Qed.

#[export] Instance DonExtension_codec : WireCodec DonExtension ExtensionError := {
  wire_encode e := ext_encode e [];
  wire_decode := ext_decode;
  wire_wf := ext_wf;
  wire_decode_encode := ext_decode_encode;
}.

Lemma source_wire v s : source_from_wire v = Some s -> source_to_wire s = v.
Proof.
  unfold source_from_wire. destruct (Z.eqb_spec v 1); [by intros [= <-]|].
  destruct (Z.eqb_spec v 2); by intros [= <-].
Qed.

(** The extension codec is a bijection onto what it accepts: it decodes
    what it encodes, and any bytes it accepts are exactly the encoding of the
    extension it returns (so no byte is ignored and none is missing). *)
Theorem ext_codec_exact (buf : bytes) (e : DonExtension) :
  bytes_ok buf -> ext_decode buf = Ok e <-> ext_wf e /\ ext_encode e [] = buf.
Proof.
  intros Hb. split; [|intros [Hw <-]; by apply ext_decode_encode].
  unfold ext_decode. destruct buf as [|id buf]; [done|]. cbn [head ok_or rbind].
  destruct (negb (is_extension id)); [done|].
  destruct (Z.eqb_spec id DON_EXT_GAMEKEY) as [->|_]; cbn [rbind];
    [|destruct (Z.eqb_spec id DON_EXT_MATCH_START) as [->|_]; cbn [rbind]; [|done]];
    set (b := _ :: buf) in *; intros H; rinv H; [done| |done|]; rinv H; try done;
    bool_hyps; apply Nat.ltb_ge in Heqb0, Heqb1; unfold DON_EXT_GAMEKEY_LEN, DON_EXT_MATCH_START_LEN in *.
  - rinv H. destruct (source_from_wire (byte_at b 5)) as [s|] eqn:Es; [|done].
    injection Hr as <-. injection H as <-. split; [by apply (le_at_ok 4)|].
    unfold ext_encode. cbn [app ext_id]. rewrite to_le_le_at by (done || lia).
    rewrite (source_wire _ _ Es), byte_drop_cons by lia.
    transitivity (DON_EXT_GAMEKEY :: drop 1 b); [f_equal|done].
    transitivity (take 5 (drop 1 b)); [|apply firstn_all2; rewrite length_drop; lia].
    rewrite (take_cut 5 4 1), drop_drop by done. done.
  - injection H as <-. split; [split; by apply (le_at_ok 4)|].
    unfold ext_encode. cbn [app ext_id]. rewrite !to_le_le_at by (done || lia).
    transitivity (DON_EXT_MATCH_START :: drop 1 b); [f_equal|done].
    transitivity (take 8 (drop 1 b)); [|apply firstn_all2; rewrite length_drop; lia].
    rewrite (take_cut 8 4 4), drop_drop by done. done.
Qed.

Lemma ext_codec_exact_witness :
  ext_decode [0xF1; 7; 0; 0; 0; 1; 2; 3; 4] = Ok (MatchStart 7 67305985) <->
  ext_wf (MatchStart 7 67305985) /\ ext_encode (MatchStart 7 67305985) [] = [0xF1; 7; 0; 0; 0; 1; 2; 3; 4].
Proof.
  apply (ext_codec_exact [0xF1; 7; 0; 0; 0; 1; 2; 3; 4]). by apply (bool_decide_unpack _); vm_compute.
Defined.

(** ** The pad stream determines the low half of its seed

    The pads are bit 15 of an LCG modulo [2^16].  [2^v] steps add an odd
    multiple of [2^v], so any state reaches any other; states with equal pad
    streams would stay equal half a period apart, where bit 15 is flipped. *)

Lemma mod_pow_low a k n : (k <= n)%nat -> (a mod 2 ^ Z.of_nat n) mod 2 ^ Z.of_nat k = a mod 2 ^ Z.of_nat k.
Proof.
  intros H. replace (Z.of_nat n) with (Z.of_nat k + Z.of_nat (n - k)) by lia.
  rewrite Z.pow_add_r by lia. rewrite Z.rem_mul_r by lia.
  by rewrite (Z.mul_comm (2 ^ _)), Z_mod_plus_full, Zmod_mod.
Qed.

Lemma mod_pow_weaken a b k n :
  (k <= n)%nat -> a mod 2 ^ Z.of_nat n = b mod 2 ^ Z.of_nat n -> a mod 2 ^ Z.of_nat k = b mod 2 ^ Z.of_nat k.
Proof. intros Hk H. rewrite <- (mod_pow_low a k n Hk), H. by apply mod_pow_low. Qed.

(** [2^v] steps add [2^v] modulo [2^(v+1)]. *)
Lemma jump_dbl v : (v <= 15)%nat ->
  fst (Random.dbl v) mod 2 ^ Z.of_nat (S v) = 1 mod 2 ^ Z.of_nat (S v) /\
  snd (Random.dbl v) mod 2 ^ Z.of_nat (S v) = 2 ^ Z.of_nat v.
Proof.
  intros H. assert (F : forallb (fun v => (fst (Random.dbl v) mod 2 ^ Z.of_nat (S v) =? 1 mod 2 ^ Z.of_nat (S v)) &&
    (snd (Random.dbl v) mod 2 ^ Z.of_nat (S v) =? 2 ^ Z.of_nat v)) (seq 0 16) = true) by (vm_compute; done).
  rewrite forallb_forall in F. specialize (F v). rewrite in_seq in F.
  specialize (F ltac:(lia)). by bool_hyps.
Qed.

Lemma jump v s : (v <= 15)%nat ->
  Random.iter_step (2 ^ v) s mod 2 ^ Z.of_nat (S v) = (s + 2 ^ Z.of_nat v) mod 2 ^ Z.of_nat (S v).
Proof.
  intros Hv. rewrite Random.iter_step_dbl. change (2 ^ 32) with (2 ^ Z.of_nat 32).
  rewrite mod_pow_low by lia. destruct (jump_dbl v Hv) as [Ha Hc].
  rewrite Zplus_mod, Hc, Zmult_mod, Ha, <- Zmult_mod, Z.mul_1_l. by rewrite Zplus_mod_idemp_l.
Qed.

Lemma low16_iter n a b : low16_eq a b -> low16_eq (Random.iter_step n a) (Random.iter_step n b).
Proof.
  revert a b; induction n as [|n IH]; intros a b H; cbn [Random.iter_step].
  - unfold low16_eq in *. change (2 ^ 32) with (2 ^ Z.of_nat 32). change (2 ^ 16) with (2 ^ Z.of_nat 16) in *.
    by rewrite !mod_pow_low by lia.
  - apply IH. by apply low16_step.
Qed.

(** Words that first differ at bit [v] agree one bit further once [2^v] is
    added to one of them. *)
Lemma flip_bit v s t :
  s mod 2 ^ Z.of_nat v = t mod 2 ^ Z.of_nat v ->
  s mod 2 ^ Z.of_nat (S v) <> t mod 2 ^ Z.of_nat (S v) ->
  (s + 2 ^ Z.of_nat v) mod 2 ^ Z.of_nat (S v) = t mod 2 ^ Z.of_nat (S v).
Proof.
  intros H E. rewrite Nat2Z.inj_succ, Z.pow_succ_r in * by lia.
  set (p := 2 ^ Z.of_nat v) in *. assert (0 < p) by lia. clearbody p. clear -H E H0.
  rewrite (Z.mul_comm 2 p), !Z.rem_mul_r in * by lia.
  replace (s + p) with (s + 1 * p) by lia. rewrite Z_mod_plus_full, Z.div_add by lia.
  assert ((s / p) mod 2 <> (t / p) mod 2) by (intros Heq; apply E; rewrite H, Heq; done).
  assert ((s / p + 1) mod 2 = (t / p) mod 2) as -> by (Z.to_euclidean_division_equations; lia).
  by rewrite H.
Qed.

(** A state reaches every state that agrees with it modulo [2^v] in a
    multiple of [2^v] steps. *)
Lemma reach j : (j <= 16)%nat -> forall s t,
  s mod 2 ^ Z.of_nat (16 - j) = t mod 2 ^ Z.of_nat (16 - j) ->
  exists m, low16_eq t (Random.iter_step (2 ^ (16 - j) * m) s).
Proof.
  induction j as [|j IH]; intros Hj s t H.
  { exists 0%nat. rewrite Nat.mul_0_r. cbn [Random.iter_step]. unfold low16_eq.
    change (2 ^ 32) with (2 ^ Z.of_nat 32). change (2 ^ 16) with (2 ^ Z.of_nat 16).
    rewrite mod_pow_low by lia. symmetry. exact H. }
  set (v := (16 - S j)%nat) in *. replace (16 - j)%nat with (S v) in IH by lia.
  destruct (decide (s mod 2 ^ Z.of_nat (S v) = t mod 2 ^ Z.of_nat (S v))) as [E|E].
  - destruct (IH ltac:(lia) s t E) as [m Hm]. exists (2 * m)%nat.
    replace (2 ^ v * (2 * m))%nat with (2 ^ S v * m)%nat by (rewrite Nat.pow_succ_r'; lia). done.
  - destruct (IH ltac:(lia) (Random.iter_step (2 ^ v) s) t) as [m Hm].
    { rewrite jump by lia. by apply flip_bit. }
    exists (1 + 2 * m)%nat. rewrite <- Random.iter_step_add in Hm.
    replace (2 ^ v * (1 + 2 * m))%nat with (2 ^ v + 2 ^ S v * m)%nat by (rewrite Nat.pow_succ_r'; lia). done.
Qed.

(** Bit 15 of the state, which is the pad drawn from it. *)
Definition top (s : Z) : Z := s mod 2 ^ 16 / 2 ^ 15.

Definition same_pads (a b : Z) : Prop :=
  forall k, top (Random.iter_step (S k) a) = top (Random.iter_step (S k) b).

Lemma same_pads_low16 a b c : low16_eq b c -> same_pads a b -> same_pads a c.
Proof.
  intros Hl H k. rewrite H. unfold top. f_equal. apply (low16_iter (S k) b c Hl).
Qed.

Lemma same_pads_multiple m s i :
  same_pads s (Random.iter_step m s) -> same_pads s (Random.iter_step (i * m) s).
Proof.
  intros H. induction i as [|i IH]; intros k.
  - cbn [Nat.mul]. rewrite <- Random.iter_step_add. done.
  - cbn [Nat.mul]. rewrite IH, Nat.add_comm, Random.iter_step_add, <- !Random.iter_step_add.
    replace (i * m + S k)%nat with (S (i * m + k)) by lia. rewrite H.
    rewrite <- !Random.iter_step_add. do 2 f_equal. lia.
Qed.

Lemma half_period q s : low16_eq (Random.iter_step (2 ^ 15 * (2 * q + 1)) s) (s + 2 ^ 15).
Proof.
  unfold low16_eq. change (2 ^ 16) with (2 ^ Z.of_nat 16). change (2 ^ 15) with (2 ^ Z.of_nat 15).
  revert s; induction q as [|q IH]; intros s.
  - rewrite Nat.mul_0_r, Nat.add_0_l, Nat.mul_1_r. apply (jump 15). lia.
  - replace (2 ^ 15 * (2 * S q + 1))%nat with (2 ^ 15 + (2 ^ 15 + 2 ^ 15 * (2 * q + 1)))%nat by lia.
    rewrite !Random.iter_step_add, IH. rewrite <- Zplus_mod_idemp_l, (jump 15), Zplus_mod_idemp_l by lia.
    rewrite <- (Z.add_assoc (Random.iter_step _ _)), <- Zplus_mod_idemp_l, (jump 15), Zplus_mod_idemp_l by lia.
    replace (s + 2 ^ Z.of_nat 15 + (2 ^ Z.of_nat 15 + 2 ^ Z.of_nat 15))
      with (s + 2 ^ Z.of_nat 15 + 1 * 2 ^ Z.of_nat 16) by lia.
    apply Z_mod_plus_full.
Qed.

Lemma half_period_flips s : ~ same_pads s (s + 2 ^ 15).
Proof.
  intros H. specialize (H 0%nat). cbn [Random.iter_step] in H. unfold top, Random.step in H.
  change (2 ^ 32) with (2 ^ Z.of_nat 32) in H. change (2 ^ 16) with (2 ^ Z.of_nat 16) in H.
  rewrite !mod_pow_low in H by lia. unfold Random.MUL, Random.ADD in H.
  change (2 ^ Z.of_nat 16) with 65536 in H. change (2 ^ 15) with 32768 in H.
  Z.to_euclidean_division_equations; lia.
Qed.

(** The largest power of two modulo which two words agree. *)
Lemma split_level s t n :
  s mod 2 ^ Z.of_nat n <> t mod 2 ^ Z.of_nat n ->
  exists v, (v < n)%nat /\ s mod 2 ^ Z.of_nat v = t mod 2 ^ Z.of_nat v /\
    s mod 2 ^ Z.of_nat (S v) <> t mod 2 ^ Z.of_nat (S v).
Proof.
  induction n as [|n IH]; intros H; [by rewrite !Z.mod_1_r in H|].
  destruct (decide (s mod 2 ^ Z.of_nat n = t mod 2 ^ Z.of_nat n)) as [E|E]; [by exists n; eauto|].
  destruct (IH E) as (v & Hv & H1 & H2). exists v. split; [lia|done].
Qed.

Lemma same_pads_inj s t : same_pads s t -> low16_eq s t.
Proof.
  intros H. destruct (decide (s mod 2 ^ 16 = t mod 2 ^ 16)) as [|Hne]; [done|exfalso].
  destruct (split_level s t 16 Hne) as (v & Hv & H1 & H2).
  destruct (reach (16 - S v) ltac:(lia) (Random.iter_step (2 ^ v) s) t) as [m Hm].
  { replace (16 - (16 - S v))%nat with (S v) by lia. rewrite jump by lia. by apply flip_bit. }
  replace (16 - (16 - S v))%nat with (S v) in Hm by lia.
  rewrite <- Random.iter_step_add in Hm.
  apply (same_pads_low16 _ _ _ Hm) in H. apply (same_pads_multiple _ _ (2 ^ (15 - v))) in H.
  replace (2 ^ (15 - v) * (2 ^ v + 2 ^ S v * m))%nat with (2 ^ 15 * (2 * m + 1))%nat in H.
  2:{ replace 15%nat with (15 - v + v)%nat at 1 by lia. rewrite Nat.pow_add_r, Nat.pow_succ_r'. lia. }
  apply (half_period_flips s). eapply same_pads_low16; [apply half_period|exact H].
Qed.

Lemma pads_step n a : in_u 32 a ->
  pads (S n) (obf_multiplayer a) = Z.to_nat (top (Random.step a)) :: pads n (obf_multiplayer (Random.step a)).
Proof.
  intros Ha. cbn [pads]. unfold next_pad, obf_multiplayer. cbn [rng]. rewrite pad_next_val by done.
  f_equal. unfold top, Random.step. change (2 ^ 32) with (2 ^ Z.of_nat 32).
  change (2 ^ 16) with (2 ^ Z.of_nat 16). rewrite mod_pow_low by lia. f_equal.
  change (2 ^ Z.of_nat 16) with (2 ^ 15 * 2) at 2. by rewrite Z.div_mul_cancel_r by lia.
Qed.

Lemma top_nonneg s : 0 <= top s.
Proof. apply Z.div_pos; [apply Z.mod_pos_bound|]; lia. Qed.

Lemma pads_same a b : in_u 32 a -> in_u 32 b ->
  (forall n, pads n (obf_multiplayer a) = pads n (obf_multiplayer b)) -> same_pads a b.
Proof.
  intros Ha Hb H k; revert a b Ha Hb H; induction k as [|k IH]; intros a b Ha Hb H.
  - specialize (H 1%nat). rewrite !pads_step in H by done. injection H as H.
    apply Z2Nat.inj in H; [|apply top_nonneg..]. cbn [Random.iter_step].
    unfold top in *. change (2 ^ 32) with (2 ^ Z.of_nat 32). change (2 ^ 16) with (2 ^ Z.of_nat 16) in *.
    by rewrite !mod_pow_low by lia.
  - apply (IH (Random.step a) (Random.step b)); [apply (wrap_u_range 32); lia..|].
    intros n. specialize (H (S n)). rewrite !pads_step in H by done. by injection H.
Qed.

(** [GAME_KEY_WIRE_MASK] is exactly right.  Two 32-bit game keys that
    agree under the mask have the same XOR key, decode every payload alike
    and encode every command list alike; and keys that differ under the mask
    are told apart by the XOR key or by some prefix of the pad stream, so no
    bit of the mask could be dropped. *)
Theorem game_key_class (a b : Z) :
  is_u32 a -> is_u32 b ->
  if game_keys_are_wire_equivalent a b then
    xor_key a = xor_key b /\
    (forall payload, fst (decode_commands payload (obf_multiplayer a)) =
                     fst (decode_commands payload (obf_multiplayer b))) /\
    (forall cs out, fst (encode_commands cs (obf_multiplayer a) out) =
                    fst (encode_commands cs (obf_multiplayer b) out))
  else ~ (xor_key a = xor_key b /\
          forall n, pads n (obf_multiplayer a) = pads n (obf_multiplayer b)).
Proof.
  intros Ha Hb. unfold game_keys_are_wire_equivalent, GAME_KEY_WIRE_MASK, xor_key, wrap_u.
  change 0x00FFFFFF with (Z.ones 24). rewrite !land_mask by lia.
  rewrite !Z.shiftr_div_pow2 by lia.
  destruct (Z.eqb_spec (a mod 2 ^ 24) (b mod 2 ^ 24)) as [E|E].
  - split; [Z.to_euclidean_division_equations; lia|].
    assert (Hq : obf_equiv (obf_multiplayer a) (obf_multiplayer b)).
    { split; [exact Ha|split; [exact Hb|]]. apply (mod_pow_weaken a b 16 24); [lia|exact E]. }
    split; intros; [by apply decode_loop_equiv|by apply encode_commands_equiv].
  - intros [Ex Hp]. apply E. apply pads_same, same_pads_inj in Hp; [|done..].
    unfold low16_eq in Hp. ranges. Z.to_euclidean_division_equations; lia.
Qed.

Lemma game_key_class_witness :
  xor_key 0x12345678 = xor_key 0x99345678 /\
  ~ (xor_key 0x12345678 = xor_key 0x12345679 /\
     forall n, pads n (obf_multiplayer 0x12345678) = pads n (obf_multiplayer 0x12345679)).
Proof.
  split.
  - apply (game_key_class 0x12345678 0x99345678); by apply (bool_decide_unpack _); vm_compute.
  - apply (game_key_class 0x12345678 0x12345679); by apply (bool_decide_unpack _); vm_compute.
Defined.
