(* ===== verification/NetRetail.v ===== *)
(** * The retail checksum package

    [crates/don-net/src/retail.rs]: validation of one obfuscated command
    package and extraction of its checksum command; [TurnPackage] is declared
    in [crates/don-net/src/session.rs]. *)

From S2P Require Import Prelude NetObfuscate NetCommand.

(** [struct TurnPackage]. *)
Record TurnPackage := mkTurnPackage { tp_stamp : Z; tp_play : Z; tp_payload : bytes }.

#[export] Instance TurnPackage_eq_dec : EqDecision TurnPackage.
Proof. solve_decision. Defined.

Definition CHECKSUM_OPCODE : Z := 0x39.

Record DecodedRetailChecksum := mkDecodedRetailChecksum {
  dr_stamp : Z;
  dr_play : Z;
  command_count : nat;
  opcodes : list Z;
  checksums : CheckSums;
}.

#[export] Instance DecodedRetailChecksum_eq_dec : EqDecision DecodedRetailChecksum.
Proof. solve_decision. Defined.

Inductive RetailChecksumError :=
| PayloadTooLarge (len : nat)
| CommandDecode (e : Error)
| MissingChecksum
| MultipleChecksums
| InvalidChecksumTotal (expected actual : Z).

#[export] Instance RetailChecksumError_eq_dec : EqDecision RetailChecksumError.
Proof. solve_decision. Defined.

(** [decoded.0[..15].iter().fold(0u32, wrapping_add)]. *)
Definition channel_total (c : CheckSums) : Z :=
  fold_left (fun sum v => u32 (sum + v)) (take 15 (channels c)) 0.

(** The [for command in &commands] loop over the checksum slot. *)
Fixpoint collect_checksums (cmds : list Command) (found : option CheckSums)
    : result RetailChecksumError (option CheckSums) :=
  match cmds with
  | [] => Ok found
  | c :: cmds =>
      if negb (opcode c =? CHECKSUM_OPCODE) then collect_checksums cmds found
      else
        let? decoded := ok_or (checksums_decode c) MissingChecksum in
        let expected := channel_total decoded in
        let actual := nth 15 (channels decoded) 0 in
        if negb (actual =? expected) then Err (InvalidChecksumTotal expected actual)
        else match found with
             | Some _ => Err MultipleChecksums
             | None => collect_checksums cmds (Some decoded)
             end
  end.

Definition decode_retail_checksum_package (p : TurnPackage) (game_key : Z)
    : result RetailChecksumError DecodedRetailChecksum :=
  if (Z.to_nat 512 <? length (tp_payload p))%nat then Err (PayloadTooLarge (length (tp_payload p)))
  else
    let plain := xor_payload (tp_payload p) (xor_key game_key) in
    let? commands := map_err CommandDecode (fst (decode_commands plain (obf_multiplayer game_key))) in
    let? found := collect_checksums commands None in
    let? c := ok_or found MissingChecksum in
    Ok (mkDecodedRetailChecksum (tp_stamp p) (tp_play p) (length commands) (map opcode commands) c).

(** ** Specification *)

Definition is_checksum (c : Command) : Prop := opcode c = CHECKSUM_OPCODE.

#[export] Instance is_checksum_dec c : Decision (is_checksum c).
Proof. unfold is_checksum. apply _. Defined.

(** A checksum set whose last word is the wrapping sum of the others. *)
Definition total_ok (c : CheckSums) : Prop := nth 15 (channels c) 0 = channel_total c.

#[export] Instance total_ok_dec c : Decision (total_ok c).
Proof. unfold total_ok. apply _. Defined.

(** The list holds exactly one checksum command, and it carries [c]. *)
Definition sole_checksum (cmds : list Command) (c : CheckSums) : Prop :=
  exists cmd, filter is_checksum cmds = [cmd] /\ checksums_decode cmd = Some c /\ total_ok c.

Lemma collect_checksums_some cmds c r :
  collect_checksums cmds (Some c) = Ok r <-> filter is_checksum cmds = [] /\ r = Some c.
Proof.
  induction cmds as [|x cmds IH]; cbn [collect_checksums].
  { split; [by intros [= <-]|by intros [_ ->]]. }
  rewrite filter_cons. unfold is_checksum at 1. destruct (Z.eqb_spec (opcode x) CHECKSUM_OPCODE) as [E|E].
  - rewrite decide_True by done. cbn [negb]. split; [|by intros [? _]].
    destruct (checksums_decode x); [|done]. cbn [ok_or rbind]. by destruct (negb _).
  - rewrite decide_False by done. apply IH.
Qed.

Lemma collect_checksums_none cmds c :
  collect_checksums cmds None = Ok (Some c) <-> sole_checksum cmds c.
Proof.
  unfold sole_checksum. induction cmds as [|x cmds IH]; cbn [collect_checksums].
  { split; [done|]. by intros (? & ? & _). }
  rewrite filter_cons. unfold is_checksum at 1. destruct (Z.eqb_spec (opcode x) CHECKSUM_OPCODE) as [E|E].
  - rewrite decide_True by done. cbn [negb]. destruct (checksums_decode x) as [d|] eqn:Hd; cbn [ok_or rbind].
    + destruct (Z.eqb_spec (nth 15 (channels d) 0) (channel_total d)) as [Ht|Ht]; cbn [negb].
      * rewrite collect_checksums_some. split.
        -- intros [-> [= <-]]. eauto.
        -- intros (cmd & [= <- ->] & Hc & _). split; [done|]. congruence.
      * split; [done|]. intros (cmd & [= <- _] & Hc & Ht'). simplify_eq.
    + split; [done|]. intros (cmd & [= <- _] & Hc & _). congruence.
  - rewrite decide_False by done. apply IH.
Qed.

(** (C18) A retail checksum package is accepted exactly when its payload fits
    512 bytes, de-XORs and tiles into commands under the game key, and those
    commands contain exactly one checksum command, of exact size, whose
    sixteenth channel is the wrapping sum of the other fifteen; the result
    reports the package's stamp and slot, all opcodes in order and those
    checksums. *)
Theorem retail_checksum_exact (p : TurnPackage) (key : Z) (d : DecodedRetailChecksum) :
  decode_retail_checksum_package p key = Ok d <->
  (length (tp_payload p) <= Z.to_nat 512)%nat /\
  exists cs o c,
    tiles (xor_payload (tp_payload p) (xor_key key)) (obf_multiplayer key) cs o /\
    sole_checksum cs c /\
    d = mkDecodedRetailChecksum (tp_stamp p) (tp_play p) (length cs) (map opcode cs) c.
Proof.
  unfold decode_retail_checksum_package.
  destruct (Nat.ltb_spec (Z.to_nat 512) (length (tp_payload p))) as [|Hl]; [split; [done|lia]|].
  split.
  - intros H. split; [done|]. apply rbind_Ok in H as (cs & Hcs & H).
    apply rbind_Ok in H as (f & Hf & H). apply rbind_Ok in H as (c & Hc & H). injection H as <-.
    destruct f as [c'|]; [injection Hc as ->|done].
    destruct (decode_commands _ _) as [r o] eqn:E. destruct r as [cs'|]; [injection Hcs as ->|done].
    exists cs, o, c. apply collect_checksums_none in Hf. repeat split; [|done].
    by apply decode_commands_tiles in E.
  - intros (_ & cs & o & c & Ht & Hs & ->). apply decode_commands_tiles in Ht. rewrite Ht.
    cbn [fst map_err rbind]. apply collect_checksums_none in Hs. by rewrite Hs.
Qed.

(** A package built as a peer builds it is accepted: any well-formed
    command list with one valid checksum command, padded and XORed under a
    key, decodes under that key to those commands' opcodes and those
    checksums. *)
Theorem retail_checksum_roundtrip (cs : list Command) (c : CheckSums) (key stamp play : Z) :
  Forall command_ok cs -> sole_checksum cs c ->
  let payload := xor_payload (fst (encode_commands cs (obf_multiplayer key) [])) (xor_key key) in
  (length payload <= Z.to_nat 512)%nat ->
  decode_retail_checksum_package (mkTurnPackage stamp play payload) key =
  Ok (mkDecodedRetailChecksum stamp play (length cs) (map opcode cs) c).
Proof.
  intros Hc Hs payload Hl. unfold decode_retail_checksum_package. cbn [tp_payload tp_stamp tp_play].
  destruct (Nat.ltb_spec (Z.to_nat 512) (length payload)); [lia|].
  subst payload. rewrite xor_payload_twice.
  rewrite (proj2 (decode_commands_tiles _ _ _ _) (encode_tiles cs _ Hc)). cbn [fst map_err rbind].
  apply collect_checksums_none in Hs. by rewrite Hs.
Qed.

Lemma retail_checksum_roundtrip_witness :
  let c := mkCheckSums [1; 2; 3; 4; 5; 6; 7; 8; 9; 10; 11; 12; 13; 14; 4294967295; 104] in
  let cs := [mkCommand 0x0c [0x0c]; checksums_command c] in
  let payload := xor_payload (fst (encode_commands cs (obf_multiplayer 0x5ac33d) [])) (xor_key 0x5ac33d) in
  decode_retail_checksum_package (mkTurnPackage 9 2 payload) 0x5ac33d =
  Ok (mkDecodedRetailChecksum 9 2 2 [0x0c; 0x39] c).
Proof.
  intros c cs. apply (retail_checksum_roundtrip cs c 0x5ac33d 9 2).
  - by apply (bool_decide_unpack _); vm_compute.
  - exists (checksums_command c). by repeat split; vm_compute.
  - apply (bool_decide_unpack _). vm_compute. exact I.
Defined.
