(* ===== verification/NetLockstep.v ===== *)
(** * The lockstep turn clock

    [crates/don-net/src/lockstep.rs]: one expected stamp, one package per
    participant, checksum comparison, deadline evidence and membership epochs.
    An operation returns its result and the runner after the call; a call may
    change the runner and still return an error (a deadline is recorded on the
    way to [TurnTimedOut]).  The pending table is a [BTreeMap], whose
    iteration order the evidence exposes.  [export_json] is not modelled. *)

From S2P Require Import Prelude BTree NetObfuscate NetCommand NetInternal NetRetail.

Inductive EpochCause := Initial | Drop | Reconnect | RosterChange.

Record ChecksumDifference := mkChecksumDifference {
  cd_channel : nat;
  reference_play : Z;
  reference : Z;
  divergent_play : Z;
  divergent : Z;
}.

Record PackageEvidence := mkPackageEvidence {
  pe_play : Z;
  payload_bytes : nat;
  payload_fnv1a64 : Z;
  pe_checksums : CheckSums;
}.

Record TurnEvidence := mkTurnEvidence {
  te_epoch : Z;
  te_stamp : Z;
  packages : list PackageEvidence;
  differences : list ChecksumDifference;
}.

Definition checksums_agree (t : TurnEvidence) : bool :=
  match differences t with [] => true | _ => false end.

Record TurnTimeoutEvidence := mkTurnTimeoutEvidence {
  to_epoch : Z;
  to_stamp : Z;
  to_deadline_ms : Z;
  observed_ms : Z;
  received : list Z;
  to_missing : list Z;
}.

Inductive LockstepEvidence :=
| EvEpoch (epoch : Z) (cause : EpochCause) (stamp : Z) (participants : list Z)
| EvTimeout (t : TurnTimeoutEvidence)
| EvTurn (t : TurnEvidence).

Inductive LockstepStatus :=
| Waiting (epoch stamp deadline_ms : Z) (missing : list Z)
| Ready (epoch stamp : Z) (plays : list Z)
| TimedOut (t : TurnTimeoutEvidence).

Inductive SubmitOutcome :=
| Accepted (missing : list Z)
| Duplicate.

Inductive LockstepError :=
| NoParticipants
| InvalidParticipant (play : Z)
| DuplicateParticipant (play : Z)
| ZeroTimeout
| UnexpectedStamp (expected actual : Z)
| UnexpectedPlay (play : Z)
| DuplicateConflict (stamp play : Z)
| Checksum (e : RetailChecksumError)
| TurnTimedOut (t : TurnTimeoutEvidence)
| TurnNotReady (stamp : Z) (missing : list Z)
| EpochOverflow
| StampOverflow.

Record PendingPackage := mkPendingPackage { pp_package : TurnPackage; pp_checksums : CheckSums }.

Record LockstepRunner := mkLockstepRunner {
  game_key : Z;
  timeout_ms : Z;
  epoch : Z;
  expected_stamp : Z;
  deadline_ms : Z;
  participants : list Z;
  pending : btree PendingPackage;
  timed_out : option TurnTimeoutEvidence;
  evidence : list LockstepEvidence;
}.

Module LockstepRunner.

(** The index loop of [normalize_participants], after the sort. *)
Fixpoint check_participants (prev : option Z) (ps : list Z) : result LockstepError unit :=
  match ps with
  | [] => Ok tt
  | play :: ps =>
      if (play <? 0) || (Z.of_nat MAX_PLAYERS <=? play) then Err (InvalidParticipant play)
      else if bool_decide (prev = Some play) then Err (DuplicateParticipant play)
      else check_participants (Some play) ps
  end.

Definition normalize_participants (ps : list Z) : result LockstepError (list Z) :=
  match ps with
  | [] => Err NoParticipants
  | _ => let ps := merge_sort Z.le ps in
         let? _ := check_participants None ps in Ok ps
  end.

Definition new (game_key : Z) (ps : list Z) (first_stamp now_ms timeout_ms : Z)
    : result LockstepError LockstepRunner :=
  if timeout_ms =? 0 then Err ZeroTimeout
  else
    let? participants := normalize_participants ps in
    Ok (mkLockstepRunner game_key timeout_ms 0 first_stamp
          (saturating_add_u64 now_ms timeout_ms) participants [] None
          [EvEpoch 0 Initial first_stamp participants]).

Definition missing (r : LockstepRunner) : list Z :=
  List.filter (fun play => negb (bt_contains play (pending r))) (participants r).

Definition set_timed_out (r : LockstepRunner) t ev : LockstepRunner :=
  mkLockstepRunner (game_key r) (timeout_ms r) (epoch r) (expected_stamp r) (deadline_ms r)
    (participants r) (pending r) t ev.

Definition observe_timeout (now_ms : Z) (r : LockstepRunner) : LockstepRunner :=
  if bool_decide (is_Some (timed_out r))
     || (length (pending r) =? length (participants r))%nat
     || (now_ms <? deadline_ms r)
  then r
  else
    let t := mkTurnTimeoutEvidence (epoch r) (expected_stamp r) (deadline_ms r) now_ms
               (bt_keys (pending r)) (missing r) in
    set_timed_out r (Some t) (evidence r ++ [EvTimeout t]).

(** [participants.binary_search(&play).is_ok()] on the sorted roster. *)
Definition is_participant (play : Z) (ps : list Z) : bool := existsb (Z.eqb play) ps.

Definition begin_epoch (ps : list Z) (cause : EpochCause) (now_ms : Z) (r : LockstepRunner)
    : result LockstepError Z * LockstepRunner :=
  match normalize_participants ps with
  | Err e => (Err e, r)
  | Ok participants =>
      match checked_add_u32 (epoch r) 1 with
      | None => (Err EpochOverflow, r)
      | Some epoch' =>
          (Ok epoch',
           mkLockstepRunner (game_key r) (timeout_ms r) epoch' (expected_stamp r)
             (saturating_add_u64 now_ms (timeout_ms r)) participants
             (bt_retain (fun play => is_participant play participants) (pending r))
             None
             (evidence r ++ [EvEpoch epoch' cause (expected_stamp r) participants]))
      end
  end.

Definition set_pending (r : LockstepRunner) (p : btree PendingPackage) : LockstepRunner :=
  mkLockstepRunner (game_key r) (timeout_ms r) (epoch r) (expected_stamp r) (deadline_ms r)
    (participants r) p (timed_out r) (evidence r).

Definition submit (package : TurnPackage) (now_ms : Z) (r : LockstepRunner)
    : result LockstepError SubmitOutcome * LockstepRunner :=
  let r := observe_timeout now_ms r in
  match timed_out r with
  | Some t => (Err (TurnTimedOut t), r)
  | None =>
      if negb (tp_stamp package =? expected_stamp r)
      then (Err (UnexpectedStamp (expected_stamp r) (tp_stamp package)), r)
      else if negb (is_participant (tp_play package) (participants r))
      then (Err (UnexpectedPlay (tp_play package)), r)
      else
        match bt_get (tp_play package) (pending r) with
        | Some existing =>
            if bool_decide (pp_package existing = package) then (Ok Duplicate, r)
            else (Err (DuplicateConflict (tp_stamp package) (tp_play package)), r)
        | None =>
            match decode_retail_checksum_package package (game_key r) with
            | Err e => (Err (Checksum e), r)
            | Ok decoded =>
                let r' := set_pending r (bt_insert (tp_play package)
                            (mkPendingPackage package (checksums decoded)) (pending r)) in
                (Ok (Accepted (missing r')), r')
            end
        end
  end.

Definition status (now_ms : Z) (r : LockstepRunner) : LockstepStatus * LockstepRunner :=
  if (length (pending r) =? length (participants r))%nat
  then (Ready (epoch r) (expected_stamp r) (bt_keys (pending r)), r)
  else
    let r := observe_timeout now_ms r in
    match timed_out r with
    | Some t => (TimedOut t, r)
    | None => (Waiting (epoch r) (expected_stamp r) (deadline_ms r) (missing r), r)
    end.

Definition fnv1a64 (bs : bytes) : Z :=
  fold_left (fun hash b => u64 (Z.lxor hash b * 0x100000001b3)) bs 0xcbf29ce484222325.

(** The channel loop of one package against the reference. *)
Definition package_differences (ref : Z) (rc : CheckSums) (kv : Z * PendingPackage)
    : list ChecksumDifference :=
  let '(play, p) := kv in
  if play =? ref then []
  else flat_map (fun ch =>
         let expected := nth ch (channels rc) 0 in
         let actual := nth ch (channels (pp_checksums p)) 0 in
         if negb (expected =? actual)
         then [mkChecksumDifference ch ref expected play actual] else [])
       (seq 0 (length CHECKSUM_CHANNELS)).

Definition package_evidence (p : PendingPackage) : PackageEvidence :=
  mkPackageEvidence (tp_play (pp_package p)) (length (tp_payload (pp_package p)))
    (fnv1a64 (tp_payload (pp_package p))) (pp_checksums p).

(** [None] is the panic of [expect("nonempty participants")]. *)
Definition commit_ready (now_ms : Z) (r : LockstepRunner)
    : option (result LockstepError TurnEvidence * LockstepRunner) :=
  let r := observe_timeout now_ms r in
  match timed_out r with
  | Some t => Some (Err (TurnTimedOut t), r)
  | None =>
      match missing r with
      | _ :: _ => Some (Err (TurnNotReady (expected_stamp r) (missing r)), r)
      | [] =>
          match checked_add_u32 (expected_stamp r) 1 with
          | None => Some (Err StampOverflow, r)
          | Some next_stamp =>
              match pending r with
              | [] => None
              | (ref, p0) :: _ =>
                  let turn := mkTurnEvidence (epoch r) (expected_stamp r)
                    (map package_evidence (bt_values (pending r)))
                    (flat_map (package_differences ref (pp_checksums p0)) (pending r)) in
                  Some (Ok turn,
                    mkLockstepRunner (game_key r) (timeout_ms r) (epoch r) next_stamp
                      (saturating_add_u64 now_ms (timeout_ms r)) (participants r) [] None
                      (evidence r ++ [EvTurn turn]))
              end
          end
      end
  end.

(** ** Calls, runs and reachable runners *)

Inductive call :=
| CallEpoch (ps : list Z) (cause : EpochCause) (now_ms : Z)
| CallSubmit (package : TurnPackage) (now_ms : Z)
| CallStatus (now_ms : Z)
| CallCommit (now_ms : Z).

(** The runner after a call; [None] is a panic. *)
Definition exec (c : call) (r : LockstepRunner) : option LockstepRunner :=
  match c with
  | CallEpoch ps cause now => Some (snd (begin_epoch ps cause now r))
  | CallSubmit p now => Some (snd (submit p now r))
  | CallStatus now => Some (snd (status now r))
  | CallCommit now => snd <$> commit_ready now r
  end.

(** The runners a program can hold, from any successful [new] by any calls. *)
Inductive reachable (first : Z) : LockstepRunner -> Prop :=
| reachable_new key ps now timeout r :
    is_u32 first -> new key ps first now timeout = Ok r -> reachable first r
| reachable_call c r r' : reachable first r -> exec c r = Some r' -> reachable first r'.

(** ** The roster *)

Definition roster_wf (ps : list Z) : Prop :=
  ps <> [] /\ StronglySorted Z.lt ps /\ Forall (fun p => 0 <= p < 8) ps.

Lemma check_participants_sorted prev ps :
  StronglySorted Z.le ps -> (forall x, prev = Some x -> Forall (Z.le x) ps) ->
  check_participants prev ps = Ok tt ->
  StronglySorted Z.lt ps /\ Forall (fun p => 0 <= p < 8) ps /\
  (forall x, prev = Some x -> Forall (Z.lt x) ps).
Proof.
  revert prev; induction ps as [|p ps IH]; intros prev Hs Hp H; cbn [check_participants] in H.
  { repeat split; constructor. }
  destruct ((p <? 0) || _) eqn:Hr; [done|]. destruct (bool_decide (prev = Some p)) eqn:Hd; [done|].
  bool_hyps. apply StronglySorted_inv in Hs as [Hs F].
  destruct (IH (Some p) Hs ltac:(by intros x [= <-]) H) as (S1 & S2 & S3).
  unfold MAX_PLAYERS in *. split; [|split].
  - constructor; [done|]. by apply S3.
  - constructor; [lia|done].
  - intros x Hx. specialize (Hp x Hx). apply Forall_cons in Hp as [Hxp _].
    assert (x < p). { assert (x <> p) by congruence. lia. }
    constructor; [done|]. specialize (S3 p eq_refl). eapply Forall_impl; [exact S3|]. intros; lia.
Qed.

Lemma normalize_wf ps qs :
  normalize_participants ps = Ok qs -> roster_wf qs /\ qs ≡ₚ ps.
Proof.
  unfold normalize_participants. destruct ps as [|p ps]; [done|]. intros H. rinv H. injection H as <-.
  pose proof (merge_sort_Permutation Z.le (p :: ps)) as Hp.
  split; [|done]. destruct r. apply check_participants_sorted in Hr as (H1 & H2 & _).
  - split; [|by split]. intros E. rewrite E in Hp. by apply Permutation_nil_cons in Hp.
  - apply (StronglySorted_merge_sort Z.le).
  - done.
Qed.

(** A roster is accepted exactly when it is a non-empty set of slots. *)
Lemma normalize_accepts ps :
  ps <> [] -> NoDup ps -> Forall (fun p => 0 <= p < 8) ps ->
  normalize_participants ps = Ok (merge_sort Z.le ps).
Proof.
  intros Hne Hd Hr. unfold normalize_participants. destruct ps as [|p ps]; [done|].
  pose proof (merge_sort_Permutation Z.le (p :: ps)) as Hp. set (q := merge_sort _ _) in *.
  assert (G : forall prev l, Forall (fun p => 0 <= p < 8) l -> NoDup l ->
    (forall x, prev = Some x -> x ∉ l) -> check_participants prev l = Ok tt).
  { clear. intros prev l; revert prev; induction l as [|a l IH]; intros prev F N X; [done|].
    cbn [check_participants]. apply Forall_cons in F as [Fa F]. apply NoDup_cons in N as [Na N].
    unfold MAX_PLAYERS. destruct (Z.ltb_spec a 0); [lia|]. destruct (Z.leb_spec (Z.of_nat 8) a); [lia|].
    cbn [orb]. rewrite bool_decide_eq_false_2; [apply IH; [done..|]; by intros x [= <-]|].
    intros ->. apply (X a eq_refl). left. }
  rewrite G; [done|by rewrite Hp|by rewrite Hp|done].
Qed.

(** ** The invariant *)

Definition turn_stamps (ev : list LockstepEvidence) : list Z :=
  flat_map (fun e => match e with EvTurn t => [te_stamp t] | _ => [] end) ev.
Definition epoch_ids (ev : list LockstepEvidence) : list Z :=
  flat_map (fun e => match e with EvEpoch n _ _ _ => [n] | _ => [] end) ev.

Definition pending_ok (r : LockstepRunner) : Prop :=
  bt_sorted (pending r) /\
  forall k p, bt_get k (pending r) = Some p ->
    k ∈ participants r /\ tp_play (pp_package p) = k /\ tp_stamp (pp_package p) = expected_stamp r /\
    exists d, decode_retail_checksum_package (pp_package p) (game_key r) = Ok d /\
              checksums d = pp_checksums p.

Definition timeout_ok (r : LockstepRunner) : Prop :=
  forall t, timed_out r = Some t ->
    missing r <> [] /\ to_missing t = missing r /\ to_epoch t = epoch r /\
    to_stamp t = expected_stamp r /\ to_deadline_ms t = deadline_ms r /\
    deadline_ms r <= observed_ms t /\ EvTimeout t ∈ evidence r.

Definition clock_ok (first : Z) (r : LockstepRunner) : Prop :=
  first <= expected_stamp r <= U32_MAX /\ 0 <= epoch r <= U32_MAX /\
  turn_stamps (evidence r) = seqZ first (expected_stamp r - first) /\
  epoch_ids (evidence r) = seqZ 0 (epoch r + 1).

Definition inv (first : Z) (r : LockstepRunner) : Prop :=
  roster_wf (participants r) /\ pending_ok r /\ timeout_ok r /\ clock_ok first r.

(** *** Completeness of a turn *)

Lemma missing_nil r : pending_ok r -> roster_wf (participants r) ->
  missing r = [] <-> bt_keys (pending r) = participants r.
Proof.
  intros [Hs Hp] (_ & Hr & _). unfold missing. split.
  - intros H. apply sorted_keys_ext; [done..|]. intros x. split.
    + intros [v Hv]%bt_get_keys. by apply Hp in Hv as [? _].
    + intros Hx. apply bt_get_keys. destruct (bt_get x (pending r)) eqn:E; [by eauto|exfalso].
      assert (Hin : In x (List.filter (fun play => negb (bt_contains play (pending r))) (participants r))).
      { apply filter_In. split; [by apply list_elem_of_In|]. unfold bt_contains. by rewrite E. }
      by rewrite H in Hin.
  - intros H. destruct (List.filter _ _) as [|x l] eqn:E; [done|exfalso].
    assert (Hin : In x (x :: l)) by (by left). rewrite <- E in Hin.
    apply filter_In in Hin as [Hin Hc]. unfold bt_contains in Hc.
    apply list_elem_of_In in Hin. rewrite <- H in Hin. apply bt_get_keys in Hin as [v Hv].
    by rewrite Hv in Hc.
Qed.

Lemma full_length r : pending_ok r -> roster_wf (participants r) ->
  length (pending r) = length (participants r) <-> bt_keys (pending r) = participants r.
Proof.
  intros [Hs Hp] (_ & Hr & _). split.
  - intros H. apply sorted_keys_ext; [done..|]. intros x.
    assert (Nk : NoDup (bt_keys (pending r))) by (by apply sorted_lt_NoDup).
    assert (Np : NoDup (participants r)) by (by apply sorted_lt_NoDup).
    assert (Hsub : bt_keys (pending r) ⊆+ participants r).
    { apply NoDup_submseteq; [done|]. intros y [v Hv]%bt_get_keys. by apply Hp in Hv as [? _]. }
    apply submseteq_length_Permutation in Hsub; [by rewrite Hsub|].
    unfold bt_keys. rewrite length_map. lia.
  - intros H. rewrite <- H. unfold bt_keys. by rewrite length_map.
Qed.

(** *** Preservation *)

Lemma turn_stamps_app a b : turn_stamps (a ++ b) = turn_stamps a ++ turn_stamps b.
Proof. apply flat_map_app. Qed.
Lemma epoch_ids_app a b : epoch_ids (a ++ b) = epoch_ids a ++ epoch_ids b.
Proof. apply flat_map_app. Qed.

Lemma seqZ_snoc m n : 0 <= n -> seqZ m (n + 1) = seqZ m n ++ [m + n].
Proof. intros. rewrite seqZ_app by lia. f_equal. Qed.

Lemma observe_timeout_fields now r :
  let r' := observe_timeout now r in
  game_key r' = game_key r /\ timeout_ms r' = timeout_ms r /\ epoch r' = epoch r /\
  expected_stamp r' = expected_stamp r /\ deadline_ms r' = deadline_ms r /\
  participants r' = participants r /\ pending r' = pending r /\ missing r' = missing r.
Proof. unfold observe_timeout. by destruct (_ || _)%bool. Qed.

Lemma observe_timeout_inv first now r : inv first r -> inv first (observe_timeout now r).
Proof.
  intros (Hr & Hp & Ht & Hc). unfold observe_timeout.
  destruct (_ || _)%bool eqn:Hb; [done|]. apply orb_false_iff in Hb as [Hb Hd].
  apply orb_false_iff in Hb as [_ Hn]. apply Nat.eqb_neq in Hn. apply Z.ltb_ge in Hd.
  split; [done|]. split; [done|]. split.
  - intros t [= <-]. cbn [to_missing to_epoch to_stamp to_deadline_ms observed_ms].
    split; [|do 5 (split; [done|]); cbn [set_timed_out evidence]; apply elem_of_app; right; left].
    intros Hm. apply Hn. apply (full_length r); [done..|]. by apply (missing_nil r).
  - destruct Hc as (H1 & H2 & H3 & H4). split; [done|]. split; [done|].
    cbn [set_timed_out evidence epoch expected_stamp]. rewrite turn_stamps_app, epoch_ids_app.
    cbn. by rewrite !app_nil_r.
Qed.

Lemma is_participant_spec play ps : is_participant play ps = true <-> play ∈ ps.
Proof.
  unfold is_participant. rewrite existsb_exists, list_elem_of_In. split.
  - by intros (x & Hx & ->%Z.eqb_eq).
  - intros H. exists play. split; [done|apply Z.eqb_refl].
Qed.

Lemma submit_inv first p now r : inv first r -> inv first (snd (submit p now r)).
Proof.
  intros H%(observe_timeout_inv first now). unfold submit. set (q := observe_timeout now r) in *. clearbody q.
  destruct (timed_out q) as [t|] eqn:Et; [done|].
  destruct (negb (tp_stamp p =? _)) eqn:Es; [done|]. destruct (negb (is_participant _ _)) eqn:Ei; [done|].
  destruct (bt_get (tp_play p) (pending q)) as [e|] eqn:Eg; [by destruct (bool_decide _)|].
  destruct (decode_retail_checksum_package p (game_key q)) as [d|] eqn:Ed; [|done]. cbn [snd].
  bool_hyps. apply is_participant_spec in Ei. destruct H as (Hr & [Hs Hp] & Ht & Hc).
  split; [done|]. split; [|split; [|done]].
  - split; [by apply bt_insert_sorted|]. cbn [set_pending pending participants expected_stamp game_key].
    intros k v. rewrite bt_get_insert by done. destruct (Z.eqb_spec k (tp_play p)) as [->|]; [|by apply Hp].
    intros [= <-]. cbn [pp_package pp_checksums]. eauto 10.
  - intros t Ht'. cbn in Ht'. congruence.
Qed.

Lemma begin_epoch_inv first ps cause now r :
  inv first r -> inv first (snd (begin_epoch ps cause now r)).
Proof.
  intros (Hr & [Hs Hp] & Ht & (Hc1 & Hc2 & Hc3 & Hc4)). unfold begin_epoch.
  destruct (normalize_participants ps) as [qs|] eqn:En; [|done].
  unfold checked_add_u32. destruct (Z.leb_spec (epoch r + 1) U32_MAX) as [Hle|]; [|done]. cbn [snd].
  apply normalize_wf in En as [Hq _]. split; [done|]. split; [|split].
  - split; [by apply bt_retain_sorted|]. cbn [pending participants expected_stamp game_key].
    intros k v. rewrite bt_get_retain. destruct (is_participant k qs) eqn:Ek; [|done].
    apply is_participant_spec in Ek. intros Hv. by apply Hp in Hv as (_ & ?).
  - by intros t.
  - split; [done|]. cbn [epoch evidence expected_stamp]. split; [lia|].
    rewrite turn_stamps_app, epoch_ids_app, Hc3, Hc4. cbn. rewrite app_nil_r. split; [done|].
    by rewrite (seqZ_snoc 0 (epoch r + 1)) by lia.
Qed.

Lemma commit_inv first now r :
  inv first r -> exists res r', commit_ready now r = Some (res, r') /\ inv first r'.
Proof.
  intros H%(observe_timeout_inv first now). unfold commit_ready.
  set (q := observe_timeout now r) in *. clearbody q.
  destruct (timed_out q) as [t|] eqn:Et; [by eauto|].
  destruct (missing q) as [|x l] eqn:Em; [|by eauto].
  unfold checked_add_u32. destruct (Z.leb_spec (expected_stamp q + 1) U32_MAX) as [Hle|]; [|by eauto].
  destruct H as (Hr & Hp & Ht & (Hc1 & Hc2 & Hc3 & Hc4)).
  destruct (pending q) as [|[ref p0] m] eqn:Eq.
  - exfalso. apply missing_nil in Em; [|done..]. rewrite Eq in Em. destruct Hr as [Hne _]. by apply Hne.
  - eexists _, _. split; [done|]. split; [done|]. split; [|split].
    + split; [constructor|]. by intros k v.
    + by intros t.
    + split; [cbn; lia|]. cbn [epoch evidence expected_stamp]. split; [done|].
      rewrite turn_stamps_app, epoch_ids_app, Hc3, Hc4. cbn. rewrite app_nil_r. split; [|done].
      replace (expected_stamp q + 1 - first) with (expected_stamp q - first + 1) by lia.
      rewrite seqZ_snoc by lia. do 2 f_equal. lia.
Qed.

Lemma status_inv first now r : inv first r -> inv first (snd (status now r)).
Proof.
  intros H. unfold status. destruct (_ =? _)%nat; [done|].
  apply (observe_timeout_inv first now) in H. by destruct (timed_out _).
Qed.

Lemma new_inv key ps first now tmo r :
  is_u32 first -> new key ps first now tmo = Ok r -> inv first r.
Proof.
  unfold new. intros Hf H. destruct (tmo =? 0); [done|].
  destruct (normalize_participants ps) as [qs|] eqn:En; [|done]. injection H as <-.
  apply normalize_wf in En as [Hq _]. split; [done|]. split; [|split].
  - split; [constructor|]. by intros k v.
  - by intros t.
  - split; [cbn; ranges; lia|]. split; [cbn; ranges; lia|]. cbn [evidence expected_stamp epoch].
    by rewrite Z.sub_diag.
Qed.

Lemma exec_inv first c r : inv first r -> exists r', exec c r = Some r' /\ inv first r'.
Proof.
  intros H. destruct c as [ps cause now|p now|now|now]; cbn [exec].
  - eexists. split; [done|]. by apply begin_epoch_inv.
  - eexists. split; [done|]. by apply submit_inv.
  - eexists. split; [done|]. by apply status_inv.
  - destruct (commit_inv first now r H) as (res & r' & -> & Hr). by exists r'.
Qed.

(** (C2) Every runner a program can reach, by any sequence of calls from any
    accepted [new], satisfies the turn invariant: the roster is a strictly
    increasing, non-empty list of slots; every pending package belongs to its
    slot and to the current stamp and carries checksums its own bytes decode
    to; a latched timeout names the current epoch, stamp, deadline and
    missing slots and is on record; the committed turns of the evidence are
    exactly the consecutive stamps from the first to the current one, and the
    epochs exactly 0, 1, ..., the current one.  And no call can panic. *)
Theorem reachable_turn_invariant (first : Z) (r : LockstepRunner) :
  reachable first r -> inv first r /\ forall c, is_Some (exec c r).
Proof.
  intros H. assert (Hi : inv first r).
  { induction H as [key ps now tmo r Hf Hn|c r r' Hr IH He]; [by eapply new_inv|].
    destruct (exec_inv first c r IH) as (r2 & He2 & H2). congruence. }
  split; [done|]. intros c. destruct (exec_inv first c r Hi) as (r' & -> & _). eauto.
Qed.

Lemma reachable_turn_invariant_witness :
  inv 5 (mkLockstepRunner 1 50 1 5 250 [0; 3] [] None
           [EvEpoch 0 Initial 5 [0; 2]; EvEpoch 1 Drop 5 [0; 3]]).
Proof.
  apply (reachable_turn_invariant 5).
  apply (reachable_call 5 (CallEpoch [3; 0] Drop 200)
    (mkLockstepRunner 1 50 0 5 150 [0; 2] [] None [EvEpoch 0 Initial 5 [0; 2]])); [|reflexivity].
  apply (reachable_new 5 1 [2; 0] 100 50); [|reflexivity].
  by apply (bool_decide_unpack _); vm_compute.
Defined.

(** ** Committing a turn *)

Lemma checksums_decode_length c d : checksums_decode c = Some d -> length (channels d) = 16%nat.
Proof. unfold checksums_decode. destruct (_ || _)%bool; [done|]. by intros [= <-]. Qed.

Lemma retail_checksum_channels p key d :
  decode_retail_checksum_package p key = Ok d -> length (channels (checksums d)) = 16%nat.
Proof.
  unfold decode_retail_checksum_package. destruct (_ <? _)%nat; [done|]. intros H.
  apply rbind_Ok in H as (cs & _ & H). apply rbind_Ok in H as (f & Hf & H).
  apply rbind_Ok in H as (c & Hc & H). injection H as <-. destruct f; [injection Hc as ->|done].
  apply collect_checksums_none in Hf as (cmd & _ & Hd & _). by eapply checksums_decode_length.
Qed.

(** No difference is reported for a package iff its channels are the
    reference's. *)
Lemma package_differences_nil ref rc play p :
  length (channels rc) = 16%nat -> length (channels (pp_checksums p)) = 16%nat -> play <> ref ->
  package_differences ref rc (play, p) = [] <-> pp_checksums p = rc.
Proof.
  intros L1 L2 Hne. unfold package_differences. destruct (Z.eqb_spec play ref); [done|].
  change (length CHECKSUM_CHANNELS) with 16%nat. split.
  - intros H. destruct rc as [a], (pp_checksums p) as [b]. cbn [channels] in *. f_equal.
    apply (nth_ext _ _ 0 0); [lia|]. intros i Hi. symmetry.
    destruct (Z.eqb_spec (nth i a 0) (nth i b 0)) as [|Hd]; [done|exfalso].
    assert (Hin : In (mkChecksumDifference i ref (nth i a 0) play (nth i b 0)) []); [|done].
    rewrite <- H. apply in_flat_map. exists i. rewrite in_seq. split; [lia|].
    destruct (Z.eqb_spec (nth i a 0) (nth i b 0)); [done|by left].
  - intros ->. induction (seq 0 16) as [|ch l IH]; [done|]. cbn [flat_map].
    by rewrite Z.eqb_refl.
Qed.

Lemma flat_map_nil {A B} (f : A -> list B) l : flat_map f l = [] <-> Forall (fun x => f x = []) l.
Proof.
  induction l as [|x l IH]; simpl; [split; [constructor|done]|]. rewrite Forall_cons. split.
  - intros [? ?]%app_eq_nil. tauto.
  - intros [-> ->%IH]. done.
Qed.

(** The pending table of a full turn, against the reference. *)
Lemma differences_nil r ref p0 m :
  pending_ok r -> pending r = (ref, p0) :: m ->
  flat_map (package_differences ref (pp_checksums p0)) (pending r) = [] <->
  forall k p, bt_get k (pending r) = Some p -> pp_checksums p = pp_checksums p0.
Proof.
  intros [Hs Hp] Eq. rewrite flat_map_nil.
  assert (L : forall k p, bt_get k (pending r) = Some p -> length (channels (pp_checksums p)) = 16%nat).
  { intros k p Hk. apply Hp in Hk as (_ & _ & _ & d & Hd & <-). by eapply retail_checksum_channels. }
  assert (H0 : bt_get ref (pending r) = Some p0) by (rewrite Eq; simpl; by rewrite Z.eqb_refl).
  split.
  - intros F k p Hk. destruct (decide (k = ref)) as [->|Hne]; [congruence|].
    rewrite Forall_forall in F. specialize (F (k, p) (bt_get_in _ _ _ Hk)).
    by apply package_differences_nil in F; [..|eapply L; exact H0|eapply L; exact Hk|].
  - intros F. apply Forall_forall. intros [k p] Hin. apply bt_in_get in Hin; [|done].
    destruct (decide (k = ref)) as [->|Hne]; [by simpl; rewrite Z.eqb_refl|].
    apply package_differences_nil; [by eapply L|by eapply L|done|by eapply F].
Qed.

Definition all_same (t : TurnEvidence) : Prop :=
  forall p q, p ∈ packages t -> q ∈ packages t -> pe_checksums p = pe_checksums q.

Lemma pending_plays r : pending_ok r ->
  map pe_play (map package_evidence (bt_values (pending r))) = bt_keys (pending r).
Proof.
  intros [Hs Hp]. unfold bt_values, bt_keys. rewrite !map_map. apply map_ext_in.
  intros [k p] Hin. apply list_elem_of_In, bt_in_get in Hin; [|done]. by apply Hp in Hin as (_ & ? & _).
Qed.

Lemma all_same_pending r ref p0 m :
  pending_ok r -> pending r = (ref, p0) :: m ->
  (forall p q, p ∈ map package_evidence (bt_values (pending r)) ->
               q ∈ map package_evidence (bt_values (pending r)) -> pe_checksums p = pe_checksums q) <->
  forall k p, bt_get k (pending r) = Some p -> pp_checksums p = pp_checksums p0.
Proof.
  intros [Hs Hp] Eq.
  assert (X : forall k p, bt_get k (pending r) = Some p ->
    package_evidence p ∈ map package_evidence (bt_values (pending r))).
  { intros k p Hk. apply list_elem_of_fmap. exists p. split; [done|].
    apply (list_elem_of_fmap_2 snd (pending r) (k, p)). by apply bt_get_in. }
  assert (H0 : bt_get ref (pending r) = Some p0) by (rewrite Eq; simpl; by rewrite Z.eqb_refl).
  split.
  - intros F k p Hk. by apply (F (package_evidence p) (package_evidence p0)); eapply X.
  - intros F p q Hp1 Hq1. apply list_elem_of_fmap in Hp1 as (a & -> & Ha), Hq1 as (b & -> & Hb).
    apply list_elem_of_fmap in Ha as ([k1 a'] & -> & Ha), Hb as ([k2 b'] & -> & Hb).
    apply bt_in_get in Ha, Hb; [|done..]. cbn. rewrite (F _ _ Ha), (F _ _ Hb). done.
Qed.

(** (C10) Committing a turn, on every branch.  It succeeds exactly when no
    deadline has fired, every participant has submitted and the stamp can
    advance; then the evidence gains this turn alone, with one package per
    participant in slot order, the clock moves by one stamp, the table is
    emptied, and the turn reports agreement exactly when all packages carry
    the same sixteen channels.  On failure the turn, its packages and the
    clock are left as they were. *)
Theorem commit_ready_spec (first now : Z) (r : LockstepRunner) :
  inv first r ->
  match commit_ready now r with
  | None => False
  | Some (Ok turn, r') =>
      timed_out (observe_timeout now r) = None /\ bt_keys (pending r) = participants r /\
      te_stamp turn = expected_stamp r /\ te_epoch turn = epoch r /\
      map pe_play (packages turn) = participants r /\
      (checksums_agree turn = true <-> all_same turn) /\
      expected_stamp r' = expected_stamp r + 1 /\ pending r' = [] /\
      participants r' = participants r /\ evidence r' = evidence r ++ [EvTurn turn]
  | Some (Err e, r') =>
      r' = observe_timeout now r /\
      (is_Some (timed_out r') \/ bt_keys (pending r) <> participants r \/ expected_stamp r = U32_MAX)
  end.
Proof.
  intros Hi. pose proof (observe_timeout_inv first now r Hi) as Hq.
  destruct (observe_timeout_fields now r) as (Fk & Ft & Fe & Fs & Fd & Fp & Fn & Fm).
  unfold commit_ready. set (q := observe_timeout now r) in *.
  assert (Ev : timed_out q = None -> evidence q = evidence r).
  { subst q. unfold observe_timeout. destruct (_ || _)%bool; [done|]. by intros [=]. }
  clearbody q. destruct Hq as (Hr & Hp & Ht & (Hc & _)).
  destruct (timed_out q) as [t|] eqn:Et; [split; [done|]; left; rewrite Et; eauto|].
  destruct (missing q) as [|x l] eqn:Em.
  2:{ split; [done|]. right; left. intros E. rewrite <- Fn, <- Fp in E.
      apply missing_nil in E; [congruence|done..]. }
  apply missing_nil in Em; [|done..]. unfold checked_add_u32.
  destruct (Z.leb_spec (expected_stamp q + 1) U32_MAX) as [Hle|]; [|split; [done|]; right; right; lia].
  destruct (pending q) as [|[ref p0] m] eqn:Eq.
  { destruct Hr as [Hne _]. simpl in Em. by rewrite <- Em in Hne. }
  rewrite <- Eq in *. rewrite <- Fp, <- Fn, <- Fs, <- Fe. cbn [te_stamp te_epoch packages pending expected_stamp participants evidence].
  rewrite pending_plays by done. repeat split; try done; [| |by rewrite Ev].
  - intros Ha p1 p2 H1 H2. cbn [packages] in *. revert p1 p2 H1 H2.
    apply (all_same_pending q ref p0 m Hp Eq), (differences_nil q ref p0 m Hp Eq).
    unfold checksums_agree in Ha. cbn [differences] in Ha. by destruct (flat_map _ _).
  - intros Ha. unfold checksums_agree. cbn [differences].
    rewrite (proj2 (differences_nil q ref p0 m Hp Eq)); [done|].
    by apply (all_same_pending q ref p0 m Hp Eq).
Qed.

(** A two-player match at stamp 5, used by the witnesses below. *)
Definition demo_sums : CheckSums := mkCheckSums [1; 2; 3; 4; 5; 6; 7; 8; 9; 10; 11; 12; 13; 14; 15; 120].
Definition demo_package (play : Z) : TurnPackage :=
  mkTurnPackage 5 play
    (xor_payload (fst (encode_commands [checksums_command demo_sums] (obf_multiplayer 99) [])) (xor_key 99)).
Definition demo_new : LockstepRunner :=
  mkLockstepRunner 99 50 0 5 150 [0; 2] [] None [EvEpoch 0 Initial 5 [0; 2]].
Definition demo_full : LockstepRunner :=
  snd (submit (demo_package 0) 110 (snd (submit (demo_package 2) 105 demo_new))).

Lemma demo_new_inv : inv 5 demo_new.
Proof.
  apply (new_inv 99 [2; 0] 5 100 50); [|reflexivity]. by apply (bool_decide_unpack _); vm_compute.
Qed.

Lemma commit_ready_spec_witness :
  inv 5 demo_full /\
  match commit_ready 120 demo_full with
  | Some (Ok turn, r') =>
      map pe_play (packages turn) = [0; 2] /\ checksums_agree turn = true /\ all_same turn /\
      expected_stamp r' = 6
  | _ => False
  end.
Proof.
  assert (Hi : inv 5 demo_full) by (unfold demo_full; repeat apply submit_inv; exact demo_new_inv).
  split; [exact Hi|]. pose proof (commit_ready_spec 5 120 demo_full Hi) as H.
  assert (E : exists turn r', commit_ready 120 demo_full = Some (Ok turn, r') /\ checksums_agree turn = true)
    by (eexists _, _; split; vm_compute; reflexivity).
  destruct E as (turn & r' & E & Ha). rewrite E in H |- *.
  destruct H as (_ & _ & _ & _ & Hp & Hs & He & _).
  split; [exact Hp|]. split; [exact Ha|]. split; [apply Hs; exact Ha|exact He].
Defined.

(** ** Order of submissions *)

(** What a submission does to the runner while the deadline is ahead. *)
Definition insert_valid (r : LockstepRunner) (p : TurnPackage) : option PendingPackage :=
  if negb (tp_stamp p =? expected_stamp r) || negb (is_participant (tp_play p) (participants r)) then None
  else match bt_get (tp_play p) (pending r) with
       | Some _ => None
       | None => match decode_retail_checksum_package p (game_key r) with
                 | Ok d => Some (mkPendingPackage p (checksums d))
                 | Err _ => None
                 end
       end.

Lemma submit_quiet p now r :
  timed_out r = None -> now < deadline_ms r ->
  snd (submit p now r) =
  match insert_valid r p with
  | Some v => set_pending r (bt_insert (tp_play p) v (pending r))
  | None => r
  end.
Proof.
  intros Ht Hd. unfold submit, insert_valid.
  assert (observe_timeout now r = r) as ->.
  { unfold observe_timeout. destruct (Z.ltb_spec now (deadline_ms r)); [|lia]. by rewrite orb_true_r. }
  rewrite Ht. destruct (negb (tp_stamp p =? _)); [done|]. cbn [orb].
  destruct (negb (is_participant _ _)); [done|].
  destruct (bt_get _ _) as [e|]; [by destruct (bool_decide _)|].
  by destruct (decode_retail_checksum_package _ _).
Qed.

Definition run_submits (ps : list (TurnPackage * Z)) (r : LockstepRunner) : LockstepRunner :=
  fold_left (fun r x => snd (submit x.1 x.2 r)) ps r.

(** The part of the state that submissions before the deadline leave alone. *)
Lemma submit_quiet_frame p now r :
  timed_out r = None -> now < deadline_ms r -> bt_sorted (pending r) ->
  timed_out (snd (submit p now r)) = None /\ deadline_ms (snd (submit p now r)) = deadline_ms r /\
  bt_sorted (pending (snd (submit p now r))).
Proof.
  intros Ht Hd Hs. rewrite submit_quiet by done. destruct (insert_valid r p); [|done].
  repeat split; [done..|]. by apply bt_insert_sorted.
Qed.

Lemma submit_comm a ta b tb r :
  timed_out r = None -> ta < deadline_ms r -> tb < deadline_ms r -> bt_sorted (pending r) ->
  tp_play a <> tp_play b ->
  snd (submit b tb (snd (submit a ta r))) = snd (submit a ta (snd (submit b tb r))).
Proof.
  intros Ht Ha Hb Hs Hne.
  destruct (submit_quiet_frame a ta r Ht Ha Hs) as (A1 & A2 & A3).
  destruct (submit_quiet_frame b tb r Ht Hb Hs) as (B1 & B2 & B3).
  rewrite (submit_quiet b tb (snd (submit a ta r))), (submit_quiet a ta (snd (submit b tb r))) by (done || lia).
  rewrite (submit_quiet a ta r), (submit_quiet b tb r) by done.
  assert (Ad : forall x y v, tp_play x <> tp_play y ->
    insert_valid (set_pending r (bt_insert (tp_play y) v (pending r))) x = insert_valid r x).
  { intros x y v Hxy. unfold insert_valid. cbn [set_pending expected_stamp participants pending game_key].
    rewrite bt_get_insert by done. by destruct (Z.eqb_spec (tp_play x) (tp_play y)). }
  destruct (insert_valid r a) as [va|] eqn:Ea, (insert_valid r b) as [vb|] eqn:Eb; rewrite ?Ad, ?Ea, ?Eb by done; try done.
  unfold set_pending. cbn. by rewrite bt_insert_comm.
Qed.

(** (C26) The order of arrival does not matter: delivering packages of distinct
    slots in any two orders before the deadline, valid or refused, leaves
    the same runner, hence the same evidence and the same next turn. *)
Theorem submit_order_irrelevant (ps qs : list (TurnPackage * Z)) (r : LockstepRunner) :
  Permutation ps qs ->
  timed_out r = None -> bt_sorted (pending r) ->
  Forall (fun x => x.2 < deadline_ms r) ps ->
  NoDup (map (fun x => tp_play x.1) ps) ->
  run_submits ps r = run_submits qs r.
Proof.
  intros P; revert r; induction P as [|[a ta] ps qs P IH|[a ta] [b tb] ps|ps qs xs P1 IH1 P2 IH2];
    intros r Ht Hs Hd Hn.
  - done.
  - apply Forall_cons in Hd as [Ha Hd]. cbn [map] in Hn. apply NoDup_cons in Hn as [_ Hn]. cbn in Ha |- *.
    destruct (submit_quiet_frame a ta r Ht Ha Hs) as (A1 & A2 & A3).
    apply IH; [done..| |done]. by rewrite A2.
  - apply Forall_cons in Hd as [Ha Hd]. apply Forall_cons in Hd as [Hb Hd]. cbn in Ha, Hb |- *.
    cbn [map] in Hn. apply NoDup_cons in Hn as [Hn _]. rewrite (submit_comm a ta b tb); [done..|].
    intros E. apply Hn. cbn. rewrite E. left.
  - rewrite IH1 by done. apply IH2; [done..| |].
    + by rewrite <- P1.
    + by rewrite <- P1.
Qed.

Lemma submit_order_irrelevant_witness :
  run_submits [(demo_package 0, 110); (demo_package 2, 105)] demo_new =
  run_submits [(demo_package 2, 105); (demo_package 0, 110)] demo_new.
Proof.
  apply (submit_order_irrelevant [(demo_package 0, 110); (demo_package 2, 105)]).
  - constructor.
  - reflexivity.
  - constructor.
  - by apply (bool_decide_unpack _); vm_compute.
  - by apply (bool_decide_unpack _); vm_compute.
Defined.

(** ** Deadlines and epochs *)

(** (C32) A missed deadline latches: once it is recorded, every submission and
    every commit is refused with that same record and changes nothing, however
    late or early it is made; only [begin_epoch] clears it, and that keeps the
    clock and every surviving participant's package. *)
Theorem timeout_latches (r : LockstepRunner) (t : TurnTimeoutEvidence) (p : TurnPackage) (now : Z)
    (ps : list Z) (cause : EpochCause) :
  timed_out r = Some t ->
  submit p now r = (Err (TurnTimedOut t), r) /\
  commit_ready now r = Some (Err (TurnTimedOut t), r) /\
  match begin_epoch ps cause now r with
  | (Err _, r') => r' = r
  | (Ok e, r') =>
      e = epoch r + 1 /\ timed_out r' = None /\ expected_stamp r' = expected_stamp r /\
      deadline_ms r' = Z.min (now + timeout_ms r) U64_MAX /\
      forall k, bt_get k (pending r') = if bool_decide (k ∈ ps) then bt_get k (pending r) else None
  end.
Proof.
  intros Ht. assert (Ho : observe_timeout now r = r).
  { unfold observe_timeout. rewrite Ht. by rewrite bool_decide_eq_true_2 by eauto. }
  unfold submit, commit_ready. rewrite Ho, Ht. split; [done|]. split; [done|].
  unfold begin_epoch. destruct (normalize_participants ps) as [qs|] eqn:En; [|done].
  unfold checked_add_u32. destruct (_ <=? _); [|done]. repeat split.
  cbn [pending]. intros k. rewrite bt_get_retain. apply normalize_wf in En as [_ Hp].
  destruct (is_participant k qs) eqn:Ek.
  - apply is_participant_spec in Ek. rewrite Hp in Ek. by rewrite bool_decide_eq_true_2.
  - rewrite bool_decide_eq_false_2; [done|]. rewrite <- Hp. intros Hk%is_participant_spec. congruence.
Qed.

Lemma timeout_latches_witness :
  submit (demo_package 0) 160 (snd (status 155 demo_new)) =
  (Err (TurnTimedOut (mkTurnTimeoutEvidence 0 5 150 155 [] [0; 2])), snd (status 155 demo_new)).
Proof.
  apply (timeout_latches (snd (status 155 demo_new)) (mkTurnTimeoutEvidence 0 5 150 155 [] [0; 2])
           (demo_package 0) 160 [0] Drop). vm_compute. reflexivity.
Defined.
End LockstepRunner.
