(* ===== verification/NetTransport.v ===== *)
(** * Datagram transports

    [crates/don-net/src/transport.rs]: the [Transport] trait as a type class
    with the laws its clients rely on, the in-process [LoopTransport] as an
    instance, and [TcpTransport]: frame construction and a round of [poll],
    with its skip of dead peers, its reads, the deframing loop, the host's relay
    and the removal of the dead.  What a socket's calls return is given: the
    outcomes of the reads of a round, and whether a write succeeds.  [accept],
    the retries inside [write_buffer] and the clock that ends [poll] are not
    modelled. *)

From S2P Require Import Prelude.

Inductive Dest := All | One (id : Z).

#[export] Instance Dest_eq_dec : EqDecision Dest.
Proof. solve_decision. Defined.

Record Datagram := mkDatagram { from : Z; dg_bytes : bytes }.

#[export] Instance Datagram_eq_dec : EqDecision Datagram.
Proof. solve_decision. Defined.

(** [trait Transport]; every method threads the transport, and [io::Result]
    carries an error type of the implementation's. *)
Class Transport (T E : Type) := {
  t_send : Dest -> bytes -> T -> result E unit * T;
  t_recv : T -> result E (option Datagram) * T;
  t_poll : T -> result E unit * T;
  t_peers : T -> list Z;
  t_local_id : T -> Z;
}.

(** What the trait's documentation promises and the session relies on: the
    local id never changes, [recv] pops one pending datagram and answers
    [None] only when none is pending, and sending does not touch what has
    been received.  [t_inbox] counts the pending datagrams. *)
Class TransportLaws (T E : Type) `{Transport T E} := {
  t_inbox : T -> nat;
  t_send_id : forall d b t, t_local_id (snd (t_send d b t)) = t_local_id t;
  t_recv_id : forall t, t_local_id (snd (t_recv t)) = t_local_id t;
  t_poll_id : forall t, t_local_id (snd (t_poll t)) = t_local_id t;
  t_send_inbox : forall d b t, t_inbox (snd (t_send d b t)) = t_inbox t;
  t_recv_some : forall t d t', t_recv t = (Ok (Some d), t') -> t_inbox t = S (t_inbox t');
  t_recv_none : forall t t', t_recv t = (Ok None, t') -> t_inbox t' = 0%nat;
}.

(** ** [LoopTransport] *)

Record LoopTransport := mkLoopTransport {
  lt_id : Z;
  inbox : list Datagram;
  outbox : list (Z * list bytes);
}.

Module LoopTransport.

Definition new (id : Z) : LoopTransport := mkLoopTransport id [] [].

Definition connect (peer : Z) (t : LoopTransport) : LoopTransport :=
  if existsb (fun pq => fst pq =? peer) (outbox t) then t
  else mkLoopTransport (lt_id t) (inbox t) (outbox t ++ [(peer, [])]).

(** The inner [drain] of [pump]. *)
Definition drain (f t : LoopTransport) : LoopTransport * LoopTransport :=
  let src := lt_id f in
  let dst := lt_id t in
  (mkLoopTransport src (inbox f)
     (map (fun pq => if fst pq =? dst then (fst pq, []) else pq) (outbox f)),
   mkLoopTransport dst
     (inbox t ++ flat_map (fun pq => if fst pq =? dst then map (mkDatagram src) (snd pq) else [])
                   (outbox f))
     (outbox t)).

Definition pump (a b : LoopTransport) : LoopTransport * LoopTransport :=
  let '(a, b) := drain a b in
  let '(b, a) := drain b a in
  (a, b).

Definition send (d : Dest) (b : bytes) (t : LoopTransport) : result unit unit * LoopTransport :=
  (Ok tt, mkLoopTransport (lt_id t) (inbox t)
    (map (fun pq => if bool_decide (d = All) || bool_decide (d = One (fst pq))
                    then (fst pq, snd pq ++ [b]) else pq) (outbox t))).

(** [inbox.pop_front()]. *)
Definition recv (t : LoopTransport) : result unit (option Datagram) * LoopTransport :=
  match inbox t with
  | [] => (Ok None, t)
  | d :: rest => (Ok (Some d), mkLoopTransport (lt_id t) rest (outbox t))
  end.

Definition poll (t : LoopTransport) : result unit unit * LoopTransport := (Ok tt, t).
Definition peers (t : LoopTransport) : list Z := map fst (outbox t).
Definition local_id (t : LoopTransport) : Z := lt_id t.

#[export] Instance transport : Transport LoopTransport unit := {
  t_send := send; t_recv := recv; t_poll := poll; t_peers := peers; t_local_id := local_id }.

Lemma recv_some t d t' : recv t = (Ok (Some d), t') -> length (inbox t) = S (length (inbox t')).
Proof. unfold recv. destruct (inbox t) as [|x l]; [done|]. by intros [= _ <-]. Qed.

Lemma recv_none t t' : recv t = (Ok None, t') -> length (inbox t') = 0%nat.
Proof. unfold recv. destruct (inbox t) as [|x l] eqn:E; [|done]. intros [= <-]. by rewrite E. Qed.

Lemma recv_id t : local_id (snd (recv t)) = local_id t.
Proof. unfold recv. by destruct (inbox t). Qed.

#[export] Instance laws : TransportLaws LoopTransport unit := {
  t_inbox t := length (inbox t);
  t_send_id _ _ _ := eq_refl;
  t_recv_id := recv_id;
  t_poll_id _ := eq_refl;
  t_send_inbox _ _ _ := eq_refl;
  t_recv_some := recv_some;
  t_recv_none := recv_none }.

(** The datagrams waiting on [t] for [dst], in order. *)
Definition queued (dst : Z) (t : LoopTransport) : list bytes :=
  flat_map (fun pq => if fst pq =? dst then snd pq else []) (outbox t).

Definition sends (ms : list (Dest * bytes)) (t : LoopTransport) : LoopTransport :=
  fold_left (fun t m => snd (send (fst m) (snd m) t)) ms t.

Definition reaches (dst : Z) (m : Dest * bytes) : list bytes :=
  if bool_decide (fst m = All) || bool_decide (fst m = One dst) then [snd m] else [].

Definition outbox_ok (t : LoopTransport) : Prop := NoDup (map fst (outbox t)).

Lemma outbox_ok_send d b t : outbox_ok t -> outbox_ok (snd (send d b t)).
Proof.
  unfold outbox_ok, send. cbn [snd outbox]. rewrite map_map. intros H.
  erewrite map_ext; [exact H|]. intros [p q]. by destruct (_ || _)%bool.
Qed.

Lemma queued_send dst d b t :
  outbox_ok t -> dst ∈ peers t -> queued dst (snd (send d b t)) = queued dst t ++ reaches dst (d, b).
Proof.
  unfold outbox_ok, peers, queued, send, reaches. cbn [snd fst outbox].
  induction (outbox t) as [|[p q] l IH]; intros Hn Hin; [by apply elem_of_nil in Hin|].
  cbn [map fst] in Hn, Hin. apply NoDup_cons in Hn as [Hp Hn]. cbn [map flat_map fst snd].
  set (c := bool_decide (d = All) || bool_decide (d = One p)).
  assert (Hf : fst (if c then (p, q ++ [b]) else (p, q)) = p) by (by destruct c).
  apply elem_of_cons in Hin as [->|Hin].
  - rewrite Hf. rewrite Z.eqb_refl.
    assert (Hrest : forall f, flat_map (fun pq : Z * list bytes => if fst pq =? p then f pq else @nil bytes) l = []).
    { intros f. clear -Hp. induction l as [|[p' q'] l IH]; [done|]. cbn [map fst] in Hp.
      apply not_elem_of_cons in Hp as [Hne Hp]. cbn [flat_map fst].
      destruct (Z.eqb_spec p' p); [congruence|]. by apply IH. }
    assert (Hrest2 : flat_map (fun pq : Z * list bytes => if fst pq =? p then snd pq else [])
       (map (fun pq => if bool_decide (d = All) || bool_decide (d = One (fst pq)) then (fst pq, snd pq ++ [b]) else pq) l) = []).
    { clear -Hp. induction l as [|[p' q'] l IH]; [done|]. cbn [map fst] in Hp.
      apply not_elem_of_cons in Hp as [Hne Hp]. cbn [map flat_map fst].
      destruct (_ || _)%bool; cbn [fst]; (destruct (Z.eqb_spec p' p); [congruence|by apply IH]). }
    rewrite Hrest2, Hrest, !app_nil_r. fold c. destruct c; cbn [snd]; [done|by rewrite app_nil_r].
  - assert (p <> dst) by (intros ->; by apply Hp).
    rewrite Hf. destruct (Z.eqb_spec p dst); [done|]. apply (IH Hn Hin).
Qed.

Lemma queued_sends dst ms t :
  outbox_ok t -> dst ∈ peers t -> queued dst (sends ms t) = queued dst t ++ flat_map (reaches dst) ms.
Proof.
  revert t; induction ms as [|[d b] ms IH]; intros t Ho Hp; cbn [sends fold_left flat_map fst snd].
  { by rewrite app_nil_r. }
  fold (sends ms (snd (send d b t))). rewrite IH; [|by apply outbox_ok_send|].
  - by rewrite queued_send, app_assoc.
  - unfold peers, send in *. cbn [snd outbox]. rewrite map_map.
    erewrite map_ext; [exact Hp|]. intros [p q]. by destruct (_ || _)%bool.
Qed.

Lemma connect_ok peer t : outbox_ok t -> outbox_ok (connect peer t) /\ peer ∈ peers (connect peer t).
Proof.
  unfold connect, outbox_ok, peers. intros H. destruct (existsb _ (outbox t)) eqn:E.
  - split; [done|]. apply existsb_exists in E as ([p q] & Hin & Hpq%Z.eqb_eq).
    apply list_elem_of_In, in_map_iff. by exists (p, q).
  - cbn [outbox]. rewrite map_app. cbn. split; [|apply elem_of_app; right; left].
    apply NoDup_app. split; [done|]. split; [|apply NoDup_singleton].
    intros x Hx ->%list_elem_of_singleton. apply not_true_iff_false in E. apply E.
    apply list_elem_of_In, in_map_iff in Hx as ([p q] & <- & Hin). apply existsb_exists.
    exists (p, q). split; [done|apply Z.eqb_refl].
Qed.

Lemma drain_spec f t :
  let '(f', t') := drain f t in
  inbox t' = inbox t ++ map (mkDatagram (lt_id f)) (queued (lt_id t) f) /\
  queued (lt_id t) f' = [] /\ outbox t' = outbox t /\ inbox f' = inbox f /\
  lt_id f' = lt_id f /\ lt_id t' = lt_id t.
Proof.
  unfold drain, queued. cbn [inbox outbox lt_id]. split; [f_equal|split; [|done]].
  - induction (outbox f) as [|[p q] l IH]; [done|]. cbn [flat_map fst snd]. rewrite map_app, IH.
    by destruct (p =? lt_id t).
  - induction (outbox f) as [|[p q] l IH]; [done|]. cbn [map flat_map fst snd].
    destruct (Z.eqb_spec p (lt_id t)) as [->|Hne]; cbn [fst snd]; [rewrite Z.eqb_refl|
      rewrite (proj2 (Z.eqb_neq _ _) Hne)]; by rewrite IH.
Qed.

Lemma lt_id_sends ms t : lt_id (sends ms t) = lt_id t.
Proof. revert t; induction ms as [|[d b] ms IH]; intros t; [done|]. exact (IH (snd (send d b t))). Qed.

(** The loop transport keeps its contract: of any sequence of sends, one
    pump delivers to a connected peer exactly the datagrams addressed to it or
    to all, whole, in order, once, stamped with the sender's id, behind what
    the peer had already received; nothing for that peer stays behind. *)
Theorem loop_delivery (a b : LoopTransport) (ms : list (Dest * bytes)) :
  outbox_ok a -> lt_id b ∈ peers a ->
  let '(a', b') := pump (sends ms a) b in
  inbox b' = inbox b ++ map (mkDatagram (lt_id a))
               (queued (lt_id b) a ++ flat_map (reaches (lt_id b)) ms) /\
  queued (lt_id b) a' = [].
Proof.
  intros Ho Hp. unfold pump.
  pose proof (drain_spec (sends ms a) b) as D1. destruct (drain (sends ms a) b) as [a1 b1].
  destruct D1 as (I1 & Q1 & O1 & J1 & F1 & T1).
  pose proof (drain_spec b1 a1) as D2. destruct (drain b1 a1) as [b2 a2].
  destruct D2 as (I2 & Q2 & O2 & J2 & F2 & T2).
  rewrite J2, I1, lt_id_sends, queued_sends by done. split; [done|].
  unfold queued in *. by rewrite O2.
Qed.

Lemma loop_delivery_witness :
  let a := connect 3 (connect 2 (new 1)) in
  let '(a', b') := pump (sends [(All, [7]); (One 3, [8]); (One 2, [9])] a) (new 2) in
  inbox b' = [mkDatagram 1 [7]; mkDatagram 1 [9]] /\ queued 2 a' = [].
Proof.
  apply (loop_delivery (connect 3 (connect 2 (new 1))) (new 2) [(All, [7]); (One 3, [8]); (One 2, [9])]);
    by apply (bool_decide_unpack _); vm_compute.
Defined.
End LoopTransport.

#[export] Existing Instance LoopTransport.transport.
#[export] Existing Instance LoopTransport.laws.

(** ** Stream framing of [TcpTransport] *)

Definition MAX_FRAME : Z := 512 * 1024.
Definition RELAYED_FRAME : Z := 2 ^ 31.

(** The bytes [write_frame] and [write_relayed_frame] hand to the socket. *)
Definition frame (payload : bytes) : bytes := to_le 4 (u32 (Z.of_nat (length payload))) ++ payload.

Definition relayed_frame (origin : Z) (payload : bytes) : bytes :=
  let wire_len := (4 + length payload)%nat in
  to_le 4 (Z.lor (u32 (Z.of_nat wire_len)) RELAYED_FRAME) ++ to_le 4 origin ++ payload.

(** [struct Peer] without its socket. *)
Record Peer := mkPeer { peer_id : Z; rx : bytes; identified : bool; dead : bool }.

(** What one pass of the deframing loop produced for the caller. *)
Record Delivery := mkDelivery { relay : list (Z * bytes); delivered : list Datagram }.

Module Tcp.

(** One iteration of the deframing loop: [inl p] is [break] with the peer as
    it then is, [inr (p, d)] an iteration that consumed a frame. *)
Definition deframe_step (is_host : bool) (p : Peer) : Peer + (Peer * Delivery) :=
  if (length (rx p) <? 4)%nat then inl p
  else
    let header := u32le (rx p) 0 in
    let relayed := negb (Z.land header RELAYED_FRAME =? 0) in
    let len := Z.land header (u32 (Z.lnot RELAYED_FRAME)) in
    if (MAX_FRAME + (if relayed then 4 else 0) <? len) || (relayed && (is_host || (len <? 4)))
    then inl (mkPeer (peer_id p) (rx p) (identified p) true)
    else
      let len := Z.to_nat len in
      if (length (rx p) <? 4 + len)%nat then inl p
      else
        let body := take len (drop 4 (rx p)) in
        let rx' := drop (4 + len) (rx p) in
        if negb (identified p) then
          if (length body =? 4)%nat
          then inr (mkPeer (i32le body 0) rx' true (dead p), mkDelivery [] [])
          else inr (mkPeer (peer_id p) rx' false true, mkDelivery [] [])
        else
          let '(f, body) := if relayed then (i32le body 0, drop 4 body) else (peer_id p, body) in
          inr (mkPeer (peer_id p) rx' true (dead p),
               mkDelivery (if is_host then [(peer_id p, body)] else []) [mkDatagram f body]).

(** The loop; a frame takes at least four bytes. *)
Fixpoint deframe (fuel : nat) (is_host : bool) (p : Peer) (out : Delivery) : Peer * Delivery :=
  match fuel with
  | O => (p, out)
  | S fuel =>
      match deframe_step is_host p with
      | inl p' => (p', out)
      | inr (p', d) => deframe fuel is_host p'
          (mkDelivery (relay out ++ relay d) (delivered out ++ delivered d))
      end
  end.

(** What [sock.read] returns: [Ok(n)] with the bytes read, none for a closed
    stream; [Interrupted]; another error.  A list of outcomes is what the reads
    of one round return before they would block. *)
Inductive Read := Bytes (chunk : bytes) | Interrupted | Failed.

Definition feed (p : Peer) (chunk : bytes) : Peer := mkPeer (peer_id p) (rx p ++ chunk) (identified p) (dead p).
Definition kill (p : Peer) : Peer := mkPeer (peer_id p) (rx p) (identified p) true.

(** The reading loop, left on [WouldBlock], a closed stream or an error. *)
Fixpoint read_loop (rs : list Read) (p : Peer) : Peer :=
  match rs with
  | [] => p
  | Bytes [] :: _ => kill p
  | Bytes chunk :: rs => read_loop rs (feed p chunk)
  | Interrupted :: rs => read_loop rs p
  | Failed :: _ => kill p
  end.

(** The body of [for p in self.peers.iter_mut()]. *)
Definition visit (is_host : bool) (rs : list Read) (p : Peer) : Peer * Delivery :=
  if dead p then (p, mkDelivery [] [])
  else let p := read_loop rs p in deframe (length (rx p)) is_host p (mkDelivery [] []).

(** One queued datagram written to the other peers; [wr i] tells whether the
    write to the [i]-th peer succeeds.  The frames written, by peer. *)
Fixpoint relay_one (wr : nat -> bool) (origin : Z) (body : bytes) (ps : list Peer) : list Peer * list (Z * bytes) :=
  match ps with
  | [] => ([], [])
  | p :: ps =>
      let '(ps', sent) := relay_one (fun i => wr (S i)) origin body ps in
      if dead p || negb (identified p) || (peer_id p =? origin) then (p :: ps', sent)
      else if wr 0%nat then (p :: ps', (peer_id p, relayed_frame origin body) :: sent)
      else (kill p :: ps', sent)
  end.
Fixpoint relay_all (wr : nat -> nat -> bool) (q : list (Z * bytes)) (ps : list Peer) : list Peer * list (Z * bytes) :=
  match q with
  | [] => (ps, [])
  | (origin, body) :: q =>
      let '(ps, sent) := relay_one (wr 0%nat) origin body ps in
      let '(ps, sent') := relay_all (fun k => wr (S k)) q ps in
      (ps, sent ++ sent')
  end.

(** [self.peers.retain(|p| !p.dead)]. *)
Definition retain (ps : list Peer) : list Peer := filter (fun p => dead p = false) ps.

(** A round of [poll] once the pending connections are accepted: the peers it
    leaves, the inbox, and the frames relayed.  [reads i] holds the outcomes of
    the reads from the [i]-th peer. *)
Definition poll_round (is_host : bool) (reads : nat -> list Read) (wr : nat -> nat -> bool) (ps : list Peer) (inbox : list Datagram) :
    list Peer * list Datagram * list (Z * bytes) :=
  let vs := imap (fun i p => visit is_host (reads i) p) ps in
  let '(ps, sent) := relay_all wr (flat_map (fun v => relay (snd v)) vs) (map fst vs) in
  (retain ps, inbox ++ flat_map (fun v => delivered (snd v)) vs, sent).

(** *** The stream is a concatenation of frames *)

Definition out_app (a b : Delivery) : Delivery :=
  mkDelivery (relay a ++ relay b) (delivered a ++ delivered b).

Lemma out_app_assoc a b c : out_app (out_app a b) c = out_app a (out_app b c).
Proof. unfold out_app. cbn. by rewrite !app_assoc. Qed.

(** What the loop emits does not depend on what was emitted before. *)
Lemma deframe_out fuel h p out :
  deframe fuel h p out =
  (fst (deframe fuel h p (mkDelivery [] [])), out_app out (snd (deframe fuel h p (mkDelivery [] [])))).
Proof.
  revert p out; induction fuel as [|fuel IH]; intros p out; cbn [deframe fst snd].
  { destruct out. unfold out_app. cbn. by rewrite !app_nil_r. }
  destruct (deframe_step h p) as [p'|[p' d]]; cbn [fst snd].
  { destruct out. unfold out_app. cbn. by rewrite !app_nil_r. }
  rewrite IH, (IH p' (mkDelivery ([] ++ _) _)). cbn [fst snd]. f_equal.
  unfold out_app. cbn [relay delivered app]. by rewrite !app_assoc.
Qed.

Lemma deframe_step_shrinks h p p' d :
  deframe_step h p = inr (p', d) -> (length (rx p') + 4 <= length (rx p))%nat.
Proof.
  unfold deframe_step. destruct (_ <? 4)%nat; [done|]. cbv zeta. destruct (_ || _)%bool; [done|].
  destruct (Nat.ltb_spec (length (rx p)) (4 + Z.to_nat (Z.land (u32le (rx p) 0) (u32 (Z.lnot RELAYED_FRAME)))));
    [done|].
  destruct (negb (identified p)).
  - destruct (_ =? 4)%nat; intros [= <- _]; cbn [rx]; rewrite length_drop; lia.
  - destruct (negb _); intros [= <- _]; cbn [rx]; rewrite length_drop; lia.
Qed.

Lemma deframe_fuel f1 f2 h p out :
  (length (rx p) <= f1)%nat -> (length (rx p) <= f2)%nat -> deframe f1 h p out = deframe f2 h p out.
Proof.
  revert f2 p out; induction f1 as [|f1 IH]; intros f2 p out H1 H2.
  - destruct f2 as [|f2]; [done|]. cbn [deframe]. unfold deframe_step.
    by destruct (Nat.ltb_spec (length (rx p)) 4); [|lia].
  - destruct f2 as [|f2].
    { cbn [deframe]. unfold deframe_step. by destruct (Nat.ltb_spec (length (rx p)) 4); [|lia]. }
    cbn [deframe]. destruct (deframe_step h p) as [p'|[p' d]] eqn:E; [done|].
    apply deframe_step_shrinks in E. apply IH; lia.
Qed.

Lemma le_at_prefix n a b : (n <= length a)%nat -> le_at n (a ++ b) 0 = le_at n a 0.
Proof. intros. by rewrite le_at_app_l by lia. Qed.

(** A complete frame at the front is read the same whatever follows. *)
Lemma deframe_step_feed h p p' d chunk :
  deframe_step h p = inr (p', d) -> deframe_step h (feed p chunk) = inr (feed p' chunk, d).
Proof.
  unfold deframe_step. cbn [feed rx identified peer_id dead].
  destruct (Nat.ltb_spec (length (rx p)) 4) as [|Hl]; [done|]. rewrite length_app.
  destruct (Nat.ltb_spec (length (rx p) + length chunk) 4) as [|_]; [lia|].
  rewrite le_at_prefix by done. cbv zeta. destruct (_ || _)%bool; [done|].
  set (len := Z.to_nat _). destruct (Nat.ltb_spec (length (rx p)) (4 + len)) as [|Hf]; [done|].
  destruct (Nat.ltb_spec (length (rx p) + length chunk) (4 + len)) as [|_]; [lia|].
  assert (Hb : take len (drop 4 (rx p ++ chunk)) = take len (drop 4 (rx p))).
  { rewrite drop_app_le by lia. rewrite take_app_le; [done|]. rewrite length_drop. lia. }
  assert (Hd : drop (4 + len) (rx p ++ chunk) = drop (4 + len) (rx p) ++ chunk) by (by rewrite drop_app_le).
  rewrite Hb, Hd. destruct (negb (identified p)).
  - destruct (_ =? 4)%nat; by intros [= <- <-].
  - destruct (negb _); by intros [= <- <-].
Qed.

(** A [break] leaves the buffer as it is; if it condemned the peer it does so
    again whatever follows. *)
Lemma deframe_step_break h p p' chunk :
  deframe_step h p = inl p' ->
  p' = p \/ (deframe_step h (feed p chunk) = inl (feed p' chunk) /\
             deframe_step h (feed p' chunk) = inl (feed p' chunk)).
Proof.
  unfold deframe_step. cbn [feed rx identified peer_id dead].
  destruct (Nat.ltb_spec (length (rx p)) 4) as [|Hl]; [intros [= <-]; by left|]. cbv zeta.
  destruct (_ || _)%bool eqn:Hb.
  - intros [= <-]. right. cbn [rx identified peer_id dead].
    rewrite length_app. destruct (Nat.ltb_spec (length (rx p) + length chunk) 4) as [|_]; [lia|].
    rewrite le_at_prefix by done. rewrite Hb. done.
  - destruct (_ <? _)%nat; [intros [= <-]; by left|].
    destruct (negb (identified p)); [by destruct (_ =? _)%nat|by destruct (negb _)].
Qed.

Lemma deframe_feed h n p out chunk :
  (length (rx p) <= n)%nat ->
  let '(p1, out1) := deframe n h p out in
  deframe (length (rx (feed p1 chunk))) h (feed p1 chunk) out1 =
  deframe (n + length chunk) h (feed p chunk) out.
Proof.
  revert p out; induction n as [|n IH]; intros p out Hn; cbn [deframe].
  { apply deframe_fuel; cbn [feed rx]; rewrite length_app; lia. }
  destruct (deframe_step h p) as [p'|[p' d]] eqn:E.
  - destruct (deframe_step_break h p p' chunk E) as [->|[E1 E2]].
    + apply deframe_fuel; cbn [feed rx]; rewrite length_app; lia.
    + cbn [Nat.add deframe]. rewrite E1. destruct (length (rx (feed p' chunk))); [done|].
      cbn [deframe]. by rewrite E2.
  - pose proof (deframe_step_shrinks _ _ _ _ E).
    cbn [Nat.add deframe]. rewrite (deframe_step_feed _ _ _ _ chunk E).
    apply (IH p' (mkDelivery (relay out ++ relay d) (delivered out ++ delivered d))). lia.
Qed.

(** *** A round sees its peers one by one *)

(** The view a peer has of the rounds it goes through: nothing once removed. *)
Definition round (h : bool) (st : option Peer * Delivery) (rs : list Read) : option Peer * Delivery :=
  match st with
  | (None, out) => (None, out)
  | (Some p, out) => let '(p', d) := visit h rs p in (if dead p' then None else Some p', out_app out d)
  end.
Definition rounds (h : bool) (rss : list (list Read)) (p : Peer) : option Peer * Delivery :=
  fold_left (round h) rss (Some p, mkDelivery [] []).

(** Writes that succeed leave the peers as they are. *)
Lemma relay_one_ok wr origin body ps : (forall i, wr i = true) -> fst (relay_one wr origin body ps) = ps.
Proof.
  revert wr. induction ps as [|p ps IH]; intros wr Hw; [done|]. cbn [relay_one]. specialize (IH (fun i => wr (S i)) (fun i => Hw (S i))).
  destruct (relay_one _ origin body ps) as [ps' sent]. cbn in IH. subst ps'. rewrite Hw. by destruct (_ || _).
Qed.
Lemma relay_all_ok wr q ps : (forall k i, wr k i = true) -> fst (relay_all wr q ps) = ps.
Proof.
  revert wr ps. induction q as [|[origin body] q IH]; intros wr ps Hw; [done|]. cbn [relay_all].
  pose proof (relay_one_ok (wr 0%nat) origin body ps (Hw 0%nat)) as E. destruct (relay_one _ _ _ _) as [ps1 sent]. cbn in E. subst ps1.
  specialize (IH (fun k => wr (S k)) ps (fun k => Hw (S k))). by destruct (relay_all _ _ _).
Qed.
(** With no write failing, a round is the round of each peer: the peers left
    are those that live on, in order, and the inbox gains what each delivered. *)
Lemma poll_round_peers h reads wr ps inbox : (forall k i, wr k i = true) -> Forall (fun p => dead p = false) ps ->
  let '(ps', inbox', _) := poll_round h reads wr ps inbox in
  let st := imap (fun i p => round h (Some p, mkDelivery [] []) (reads i)) ps in
  ps' = omap fst st /\ inbox' = inbox ++ flat_map (fun x => delivered (snd x)) st.
Proof.
  intros Hw Hps. unfold poll_round. set (vs := imap _ ps). pose proof (relay_all_ok wr (flat_map (fun v => relay (snd v)) vs) (map fst vs) Hw) as E.
  destruct (relay_all _ _ _) as [ps1 sent]. cbn in E. subst ps1 vs. clear Hw. split.
  - revert reads. induction Hps as [|p ps Hp _ IH]; intros reads; [done|]. specialize (IH (fun i => reads (S i))). rewrite !imap_cons. cbn [map round]. unfold retain in *.
    cbn [omap list_omap]. destruct (visit h (reads 0%nat) p) as [p' d]. cbn [fst snd]. destruct (dead p') eqn:Ed; cbn [fst].
    + rewrite filter_cons_False by congruence. exact IH.
    + rewrite filter_cons_True by done. f_equal. exact IH.
  - f_equal. clear Hps. revert reads. induction ps as [|p ps IH]; intros reads; [done|]. specialize (IH (fun i => reads (S i))). rewrite !imap_cons. cbn [flat_map round].
    destruct (visit h (reads 0%nat) p) as [p' d]. cbn [fst snd out_app delivered app]. f_equal. exact IH.
Qed.

(** *** The stream of a peer over many polls *)

(** The bytes the reads of a round bring, and whether they close the stream. *)
Fixpoint payload (rs : list Read) : bytes :=
  match rs with
  | [] | Bytes [] :: _ | Failed :: _ => []
  | Bytes chunk :: rs => chunk ++ payload rs
  | Interrupted :: rs => payload rs
  end.
Fixpoint closes (rs : list Read) : bool :=
  match rs with
  | [] => false
  | Bytes [] :: _ | Failed :: _ => true
  | Bytes _ :: rs | Interrupted :: rs => closes rs
  end.

Lemma read_loop_payload rs p : dead p = false -> read_loop rs p = if closes rs then kill (feed p (payload rs)) else feed p (payload rs).
Proof.
  revert p. assert (N : forall p, dead p = false -> p = feed p []) by (intros [] _; unfold feed; cbn; by rewrite app_nil_r).
  assert (K : forall p, kill p = kill (feed p [])) by (intros []; unfold kill, feed; cbn; by rewrite app_nil_r).
  induction rs as [|[[|c cs]| |] rs IH]; intros p Hd; cbn [read_loop payload closes]; [by apply N|apply K| |by apply IH|apply K].
  rewrite IH by done. assert (E : feed (feed p (c :: cs)) (payload rs) = feed p ((c :: cs) ++ payload rs)) by (unfold feed; cbn; by rewrite <- app_assoc).
  by rewrite E.
Qed.

(** The peer has said hello, or its stream does not begin with a complete
    frame that is no hello. *)
Definition greets (h : bool) (p : Peer) (stream : bytes) : Prop :=
  identified p = true \/ forall p' d, deframe_step h (feed p stream) = inr (p', d) -> dead p' = false.

(** Once a greeted peer is condemned, it is by a header, for good. *)
Lemma step_identified h p p' d : identified p = true -> deframe_step h p = inr (p', d) -> identified p' = true /\ dead p' = dead p.
Proof.
  unfold deframe_step. intros Hi. destruct (_ <? 4)%nat; [done|]. cbv zeta. destruct (_ || _)%bool; [done|]. destruct (_ <? _)%nat; [done|]. rewrite Hi. cbn [negb].
  destruct (if negb _ then _ else _) as [f b]. by intros [= <- _].
Qed.
Lemma step_unidentified h p p' d : deframe_step h p = inr (p', d) -> dead p' = false -> identified p' = true.
Proof.
  unfold deframe_step. destruct (_ <? 4)%nat; [done|]. cbv zeta. destruct (_ || _)%bool; [done|]. destruct (_ <? _)%nat; [done|].
  destruct (identified p); cbn [negb].
  - destruct (if negb _ then _ else _) as [f b]. by intros [= <- _].
  - destruct (_ =? 4)%nat; by intros [= <- _].
Qed.
Lemma deframe_condemned h n p out : dead p = false -> greets h p [] ->
  let '(p1, _) := deframe n h p out in dead p1 = true -> forall chunk, deframe_step h (feed p1 chunk) = inl (feed p1 chunk).
Proof.
  assert (F : forall q, feed q [] = q) by (intros []; unfold feed; cbn; by rewrite app_nil_r).
  revert p out. induction n as [|n IH]; intros p out Hd Hg; cbn [deframe]; [by rewrite Hd|].
  destruct (deframe_step h p) as [p'|[p' d]] eqn:E.
  - intros Hd' chunk. destruct (deframe_step_break h p p' chunk E) as [->|[_ E2]]; [by rewrite Hd in Hd'|done].
  - assert (dead p' = false /\ identified p' = true) as [Hd' Hi'].
    { destruct Hg as [Hi|Hg]; [destruct (step_identified _ _ _ _ Hi E) as [? ->]; by rewrite Hd|].
      rewrite F in Hg. split; [by eapply Hg|]. eapply step_unidentified; [done|by eapply Hg]. }
    apply IH; [done|by left].
Qed.

Lemma greets_feed h p a b : greets h p (a ++ b) -> greets h (feed p a) b /\ greets h (feed p a) [].
Proof.
  assert (A : feed (feed p a) b = feed p (a ++ b)) by (unfold feed; cbn; by rewrite <- app_assoc).
  assert (F : feed (feed p a) [] = feed p a) by (unfold feed; cbn; by rewrite app_nil_r).
  intros [Hi|Hg]; [by split; left|]. split; right; intros p' d E; [rewrite A in E; by eapply Hg|].
  rewrite F in E. pose proof (deframe_step_feed _ _ _ _ b E) as E'. rewrite A in E'. exact (Hg _ _ E').
Qed.
(** What a greeted peer has received leaves it greeted for the rest. *)
Lemma deframe_greets h n p out b : dead p = false -> greets h p b -> greets h p [] -> greets h (fst (deframe n h p out)) b.
Proof.
  intros Hd Hb H0. revert p out Hd Hb H0. induction n as [|n IH]; intros p out Hd Hb H0; cbn [deframe]; [done|].
  destruct (deframe_step h p) as [p'|[p' d]] eqn:E; cbn [fst].
  - destruct (deframe_step_break h p p' b E) as [->|[_ E2]]; [done|]. right. intros q d Eq. congruence.
  - assert (dead p' = false /\ identified p' = true) as [Hd' Hi'].
    { destruct H0 as [Hi|Hg]; [destruct (step_identified _ _ _ _ Hi E) as [? ->]; by rewrite Hd|].
      assert (F : feed p [] = p) by (destruct p; unfold feed; cbn; by rewrite app_nil_r). rewrite F in Hg. split; [by eapply Hg|]. eapply step_unidentified; [done|by eapply Hg]. }
    apply IH; [done|by left|by left].
Qed.

(** Being dead does not change what the loop does. *)
Lemma deframe_step_kill h p : deframe_step h (kill p) =
  match deframe_step h p with inl p' => inl (kill p') | inr (p', d) => inr (kill p', d) end.
Proof.
  unfold deframe_step. cbn [kill rx identified peer_id dead]. destruct (_ <? 4)%nat; [done|]. cbv zeta. destruct (_ || _)%bool; [done|].
  destruct (_ <? _)%nat; [done|]. destruct (identified p); cbn [negb]; [|by destruct (_ =? 4)%nat].
  by destruct (if negb _ then _ else _).
Qed.
Lemma deframe_kill n h p out : deframe n h (kill p) out = let '(p', d) := deframe n h p out in (kill p', d).
Proof.
  revert p out. induction n as [|n IH]; intros p out; [done|]. cbn [deframe]. rewrite deframe_step_kill. destruct (deframe_step h p) as [p'|[p' d]]; [done|]. apply IH.
Qed.

(** What the bytes [stream] make of a peer, when it is closed after them. *)
Definition finish (h : bool) (stream : bytes) (closed : bool) (p : Peer) : option Peer * Delivery :=
  let '(p', d) := deframe (length (rx (feed p stream))) h (feed p stream) (mkDelivery [] []) in
  (if closed || dead p' then None else Some p', d).

Lemma round_finish h rs p out : dead p = false ->
  round h (Some p, out) rs = (fst (finish h (payload rs) (closes rs) p), out_app out (snd (finish h (payload rs) (closes rs) p))).
Proof.
  intros Hd. unfold round, visit, finish. rewrite Hd, read_loop_payload by done. destruct (closes rs); cbn [orb].
  - rewrite deframe_kill. change (rx (kill (feed p (payload rs)))) with (rx (feed p (payload rs))). by destruct (deframe _ _ _ _).
  - by destruct (deframe _ _ _ _).
Qed.

Lemma rounds_dead h rss out : fold_left (round h) rss (None, out) = (None, out).
Proof. by induction rss. Qed.

Lemma rounds_finish h rss last_ p out :
  dead p = false -> Forall (fun rs => closes rs = false) rss -> greets h p (concat (map payload rss) ++ payload last_) ->
  fold_left (round h) (rss ++ [last_]) (Some p, out) =
  (fst (finish h (concat (map payload rss) ++ payload last_) (closes last_) p), out_app out (snd (finish h (concat (map payload rss) ++ payload last_) (closes last_) p))).
Proof.
  intros Hd Hc. revert p out Hd. induction Hc as [|rs rss Hrs _ IH]; intros p out Hd Hg; cbn [app map concat fold_left]; [by apply round_finish|].
  cbn [map concat] in Hg. rewrite <- app_assoc in *. set (rest := concat (map payload rss) ++ payload last_) in *.
  rewrite round_finish, Hrs by done. unfold finish at 1 2. cbn [orb]. destruct (greets_feed h p (payload rs) rest Hg) as [G1 G2].
  set (a := payload rs) in *. set (n := length (rx (feed p a))).
  pose proof (deframe_feed h n (feed p a) (mkDelivery [] []) rest (le_n _)) as W.
  pose proof (deframe_condemned h n (feed p a) (mkDelivery [] []) Hd G2) as C. pose proof (deframe_greets h n (feed p a) (mkDelivery [] []) rest Hd G1 G2) as G.
  destruct (deframe n h (feed p a) (mkDelivery [] [])) as [p1 d1]. cbn [fst snd] in *.
  assert (E : finish h (a ++ rest) (closes last_) p =
    (let '(p', d) := deframe (length (rx (feed p1 rest))) h (feed p1 rest) d1 in (if closes last_ || dead p' then None else Some p', d))).
  { unfold finish. rewrite W. assert (feed (feed p a) rest = feed p (a ++ rest)) as -> by (unfold feed; cbn; by rewrite <- app_assoc).
    replace (n + length rest)%nat with (length (rx (feed p (a ++ rest)))) by (unfold n; cbn; rewrite !length_app; lia). done. }
  rewrite E. clear E W. destruct (dead p1) eqn:Ed.
  - rewrite rounds_dead. specialize (C eq_refl rest). assert (deframe (length (rx (feed p1 rest))) h (feed p1 rest) d1 = (feed p1 rest, d1)) as ->.
    { generalize (length (rx (feed p1 rest))) as k. intros [|k]; [reflexivity|]. cbn [deframe]. by rewrite C. }
    cbn [feed dead]. by rewrite Ed, orb_true_r.
  - rewrite IH by done. unfold finish. rewrite (deframe_out _ _ _ d1). destruct (deframe _ _ (feed p1 rest) _) as [p2 d2]. cbn [fst snd].
    by rewrite out_app_assoc.
Qed.

(** (C37) Only the bytes count.  A live peer goes through any number of polls, in
    each of which its reads return chunks of any size, possibly interrupted,
    until they would block, the last perhaps by closing or failing; dead peers
    are skipped and removed.  If the peer has said hello, or its stream does not
    begin with a complete frame that is no hello, then two ways to cut the same
    bytes into reads and polls, both closed at the end or both open, deliver and
    relay the same datagrams in the same order and leave the same peer, or none. *)
Theorem poll_chunking (h : bool) (p : Peer) (rss rss' : list (list Read)) (last_ last' : list Read) :
  dead p = false ->
  Forall (fun rs => closes rs = false) rss -> Forall (fun rs => closes rs = false) rss' ->
  concat (map payload rss) ++ payload last_ = concat (map payload rss') ++ payload last' -> closes last_ = closes last' ->
  greets h p (concat (map payload rss) ++ payload last_) ->
  rounds h (rss ++ [last_]) p = rounds h (rss' ++ [last']) p.
Proof. intros Hd Hc Hc' Es El Hg. unfold rounds. rewrite !rounds_finish by (done || by rewrite <- Es). by rewrite Es, El. Qed.

Lemma poll_chunking_witness :
  let cut := [[Bytes [4; 0]; Interrupted; Bytes [0; 0; 9]]; []; [Bytes [0; 0; 0; 2; 0; 0]]; [Bytes [0; 5]]] in
  rounds true (cut ++ [[Bytes [6]; Bytes []]]) (mkPeer 0 [] false false) = (None, mkDelivery [(9, [5; 6])] [mkDatagram 9 [5; 6]]).
Proof.
  intros cut. rewrite (poll_chunking true (mkPeer 0 [] false false) cut [] [Bytes [6]; Bytes []] [Bytes [4; 0; 0; 0; 9; 0; 0; 0; 2; 0; 0; 0; 5; 6]; Failed]);
    [vm_compute; reflexivity|done|repeat constructor|constructor|reflexivity|reflexivity|].
  right. intros p' d. vm_compute. by intros [= <- _].
Defined.

(** A stream that begins with a frame that is no hello: read at once, the frames
    behind it are still deframed, a hello among them accepted and its datagrams
    delivered; read in two polls, the peer is gone after the first. *)
Lemma bad_hello_cut_visible :
  let p := mkPeer 0 [] false false in
  let bad := frame [1] in let more := frame (to_le 4 9) ++ frame [5; 6] in
  rounds true [[Bytes (bad ++ more)]] p = (None, mkDelivery [(9, [5; 6])] [mkDatagram 9 [5; 6]]) /\
  rounds true [[Bytes bad]; [Bytes more]] p = (None, mkDelivery [] []).
Proof. by vm_compute. Qed.

(** *** Frames are delivered whole *)

(** What a peer writes: a datagram of its own, or (the host) one it relays. *)
Inductive item := Direct (body : bytes) | Relayed (origin : Z) (body : bytes).

Definition item_frame (i : item) : bytes :=
  match i with Direct b => frame b | Relayed o b => relayed_frame o b end.

(** Bodies up to [MAX_FRAME]; only a client accepts relayed frames. *)
Definition item_ok (h : bool) (i : item) : Prop :=
  match i with
  | Direct b => Z.of_nat (length b) <= MAX_FRAME
  | Relayed o b => h = false /\ is_i32 o /\ Z.of_nat (length b) <= MAX_FRAME
  end.

Definition item_delivery (h : bool) (id : Z) (i : item) : Delivery :=
  match i with
  | Direct b => mkDelivery (if h then [(id, b)] else []) [mkDatagram id b]
  | Relayed o b => mkDelivery [] [mkDatagram o b]
  end.

Lemma header_flags x :
  0 <= x < 2 ^ 31 ->
  Z.land x RELAYED_FRAME = 0 /\ Z.land x (u32 (Z.lnot RELAYED_FRAME)) = x /\
  Z.lor x RELAYED_FRAME = x + 2 ^ 31 /\
  Z.land (x + 2 ^ 31) RELAYED_FRAME = 2 ^ 31 /\ Z.land (x + 2 ^ 31) (u32 (Z.lnot RELAYED_FRAME)) = x.
Proof.
  intros H. unfold RELAYED_FRAME. change (u32 (Z.lnot (2 ^ 31))) with (Z.ones 31).
  rewrite !land_mask by lia.
  assert (L : Z.lor x (2 ^ 31) = x + 2 ^ 31).
  { rewrite Z.lor_comm. rewrite <- (Z.mul_1_l (2 ^ 31)) at 1. rewrite lor_join by lia. lia. }
  assert (B : Z.land x (2 ^ 31) = 0).
  { apply Z.bits_inj'. intros n Hn. rewrite Z.land_spec, Z.bits_0, Z.pow2_bits_eqb by lia.
    destruct (Z.eqb_spec 31 n) as [<-|]; [|apply andb_false_r].
    rewrite <- (Z.mod_small x (2 ^ 31)) by done. by rewrite Z.mod_pow2_bits_high by lia. }
  split; [done|]. split; [by apply Z.mod_small|]. split; [done|]. split.
  - rewrite <- L, Z.land_lor_distr_l, B, Z.land_diag. done.
  - rewrite <- (Z.mul_1_l (2 ^ 31)) at 1. rewrite Z_mod_plus_full. by apply Z.mod_small.
Qed.

Lemma frame_step h p b rest :
  identified p = true -> rx p = frame b ++ rest -> Z.of_nat (length b) <= MAX_FRAME ->
  deframe_step h p = inr (mkPeer (peer_id p) rest true (dead p), item_delivery h (peer_id p) (Direct b)).
Proof.
  intros Hi Hr Hl. unfold deframe_step, MAX_FRAME in *. rewrite Hr, Hi.
  unfold frame. rewrite <- app_assoc. set (L := Z.of_nat (length b)) in *.
  assert (HL : u32 L = L) by (apply wrap_u_id; ranges; lia). rewrite HL.
  destruct (Nat.ltb_spec (length (to_le 4 L ++ b ++ rest)) 4) as [Hx|_];
    [rewrite length_app, length_to_le in Hx; lia|].
  replace (le_at 4 (to_le 4 L ++ b ++ rest) 0) with L
    by (symmetry; apply (le_at_app' 4 []); [done|ranges; lia]).
  destruct (header_flags L ltac:(ranges; lia)) as (-> & -> & _). cbv zeta. cbn [Z.eqb negb].
  destruct (Z.ltb_spec (512 * 1024 + 0) L); [lia|]. cbn [orb andb].
  unfold L. rewrite Nat2Z.id. rewrite !length_app, length_to_le.
  destruct (Nat.ltb_spec (4 + (length b + length rest)) (4 + length b)); [lia|].
  change (drop 4 (to_le 4 (Z.of_nat (length b)) ++ b ++ rest)) with (b ++ rest).
  rewrite take_app_length. rewrite <- drop_drop.
  change (drop 4 (to_le 4 (Z.of_nat (length b)) ++ b ++ rest)) with (b ++ rest).
  by rewrite drop_app_length.
Qed.

Lemma relayed_step p o b rest :
  identified p = true -> rx p = relayed_frame o b ++ rest -> is_i32 o -> Z.of_nat (length b) <= MAX_FRAME ->
  deframe_step false p = inr (mkPeer (peer_id p) rest true (dead p), item_delivery false (peer_id p) (Relayed o b)).
Proof.
  intros Hi Hr Ho Hl. unfold deframe_step, MAX_FRAME in *. rewrite Hr, Hi.
  unfold relayed_frame. cbv zeta. rewrite <- !app_assoc. set (L := Z.of_nat (4 + length b)).
  assert (HL : u32 L = L) by (apply wrap_u_id; unfold L; ranges; lia). rewrite HL.
  destruct (header_flags L ltac:(unfold L; ranges; lia)) as (_ & _ & -> & F1 & F2).
  set (buf := to_le 4 (L + 2 ^ 31) ++ to_le 4 o ++ b ++ rest).
  assert (Hlen : length buf = (8 + (length b + length rest))%nat) by (unfold buf; autorewrite with don; lia).
  destruct (Nat.ltb_spec (length buf) 4) as [Hx|_]; [lia|].
  replace (le_at 4 buf 0) with (L + 2 ^ 31)
    by (symmetry; apply (le_at_app' 4 []); [done|unfold L; ranges; lia]).
  rewrite F1, F2. change (negb (2 ^ 31 =? 0)) with true. cbv iota. cbn [orb andb].
  destruct (Z.ltb_spec (512 * 1024 + 4) L); [unfold L in *; lia|].
  destruct (Z.ltb_spec L 4); [unfold L in *; lia|]. cbn [orb].
  unfold L. rewrite Nat2Z.id, Hlen.
  destruct (Nat.ltb_spec (8 + (length b + length rest)) (4 + (4 + length b))); [lia|]. cbn [negb].
  assert (Hd : drop 4 buf = (to_le 4 o ++ b) ++ rest) by (unfold buf; rewrite <- app_assoc; reflexivity).
  rewrite <- (drop_drop _ (4 + length b) 4), !Hd.
  rewrite take_app_length', drop_app_length' by (by rewrite length_app, length_to_le).
  change (drop 4 (to_le 4 o ++ b)) with b. unfold i32le.
  replace (le_at 4 (to_le 4 o ++ b) 0) with (o mod 2 ^ 32) by (symmetry; apply (le_at_app 4 [])).
  change (o mod 2 ^ 32) with (u32 o). rewrite (wrap_s_of_u 32) by (done || lia). done.
Qed.

Definition deliveries (h : bool) (id : Z) (items : list item) : Delivery :=
  mkDelivery (flat_map (fun i => relay (item_delivery h id i)) items)
             (flat_map (fun i => delivered (item_delivery h id i)) items).

Lemma deframe_items h items p out fuel :
  identified p = true -> rx p = flat_map item_frame items -> Forall (item_ok h) items ->
  (length items <= fuel)%nat ->
  deframe fuel h p out =
  (mkPeer (peer_id p) [] true (dead p), out_app out (deliveries h (peer_id p) items)).
Proof.
  revert p out fuel; induction items as [|i items IH]; intros p out fuel Hi Hr Hok Hf.
  { destruct p as [id r ident d]. cbn in *. subst. destruct out as [a b].
    unfold out_app. cbn. rewrite !app_nil_r. by destruct fuel. }
  destruct fuel as [|fuel]; [simpl in Hf; lia|]. apply Forall_cons in Hok as [Ho Hok].
  cbn [flat_map] in Hr. cbn [deframe].
  assert (E : deframe_step h p = inr (mkPeer (peer_id p) (flat_map item_frame items) true (dead p),
      item_delivery h (peer_id p) i)).
  { destruct i as [b|o b]; cbn [item_ok item_frame] in *; [by apply frame_step|].
    destruct Ho as (-> & Ho & Hl). by apply relayed_step. }
  rewrite E, IH by (done || simpl in Hf; lia). cbn [peer_id dead]. f_equal.
  unfold out_app, deliveries. cbn [relay delivered flat_map]. by rewrite !app_assoc.
Qed.

(** Message boundaries and order are preserved over TCP: whatever datagrams an
    identified peer writes, of its own or (the host) relayed, of up to 512 KiB
    each, a poll that reads them in any chunks delivers whole, in order, each
    once, under the id of its true sender; the host queues its clients' datagrams
    for relay; the peer stays alive and no byte is left behind. *)
Theorem frames_delivered (h : bool) (items : list item) (rs : list Read) (p : Peer) :
  identified p = true -> dead p = false -> rx p = [] -> Forall (item_ok h) items -> payload rs = flat_map item_frame items -> closes rs = false ->
  visit h rs p = (mkPeer (peer_id p) [] true false, deliveries h (peer_id p) items).
Proof.
  intros Hi Hd Hr Hok Hp Hc. unfold visit. rewrite Hd, read_loop_payload, Hc, Hp by done.
  rewrite (deframe_items h items (feed p (flat_map item_frame items))); [by cbn; rewrite Hd|done|by cbn; rewrite Hr|done|].
  cbn. rewrite Hr. cbn [app]. clear. induction items as [|i items IH]; [done|]. cbn [flat_map length]. rewrite length_app.
  assert (1 <= length (item_frame i))%nat; [|lia].
  destruct i; cbn [item_frame]; unfold frame, relayed_frame; rewrite length_app, length_to_le; lia.
Qed.

Lemma frames_delivered_witness :
  visit false [Bytes (frame [1; 2]); Interrupted; Bytes (relayed_frame (-5) [3])] (mkPeer 9 [] true false) =
  (mkPeer 9 [] true false, mkDelivery [] [mkDatagram 9 [1; 2]; mkDatagram (-5) [3]]).
Proof.
  apply (frames_delivered false [Direct [1; 2]; Relayed (-5) [3]]); [reflexivity|reflexivity|reflexivity| |reflexivity|reflexivity].
  constructor; [|constructor; [|constructor]]; unfold item_ok, in_s, MAX_FRAME; cbn; repeat split; lia.
Defined.
End Tcp.
