(* ===== verification/NetSession.v ===== *)
(** * The session state machine

    [crates/don-net/src/session.rs]: membership, readiness, host authority,
    the match-start transaction and the store of command packages, over any
    [Transport].  An operation is a state and error computation on the
    session; as in the source, an error returned by [?] leaves the changes
    made before it. *)

From S2P Require Import Prelude BTree NetText NetObfuscate NetCommand NetMsg NetInternal.
From S2P Require Import NetExtension NetRetail NetTransport.

Definition TURN_TIMINGS_MS : list Z := [200; 125; 67; 50; 1].
Definition SPEED_NORMAL : nat := 2.

Record Player := mkPlayer {
  unique_id : Z;
  name : text;
  is_host : bool;
  is_local : bool;
  ready : bool;
  last_pulse_ms : Z;
  slot : nat;
}.

Record AnnouncedMatchStart := mkAnnouncedMatchStart { ms_from : Z; ms_epoch : Z; ms_seed : Z }.

#[export] Instance AnnouncedMatchStart_eq_dec : EqDecision AnnouncedMatchStart.
Proof. solve_decision. Defined.

Record AnnouncedGameKey := mkAnnouncedGameKey { gk_from : Z; gk_seed : Z; gk_source : GameKeySource }.

#[export] Instance AnnouncedGameKey_eq_dec : EqDecision AnnouncedGameKey.
Proof. solve_decision. Defined.

Record OwnedMsg := mkOwnedMsg { om_id : Z; om_response : bool; om_bytes : bytes }.

#[export] Instance OwnedMsg_eq_dec : EqDecision OwnedMsg.
Proof. solve_decision. Defined.

Inductive SetupRefusal :=
| Malformed (e : InternalError)
| MalformedExtension (e : ExtensionError)
| GameKeyFromNonHost (expected_host : option Z)
| MatchStartFromNonHost (expected_host : option Z)
| MatchStartBeforeAllReady
| MatchStartInvalidEpoch (epoch : Z)
| MatchStartConflict (current_epoch current_seed announced_epoch announced_seed : Z)
| SenderIdMismatch (announced : Z)
| UnexpectedHostClaim
| DuplicateAddConflict (id : Z)
| PlayerListFromNonHost
| PlayerListHostMismatch (expected : Z)
| HostMissingFromSlotZero
| LocalMissingFromRoster
| ReadyBeforeAdd
| DestroySenderMismatch (announced : Z).

Inductive Event :=
| PlayerJoined (id : Z)
| PlayerLeft (id : Z)
| AllReady
| ReadyChanged (id : Z) (ready : bool)
| SetupRefused (from : Z) (reason : SetupRefusal)
| Desync (id frame : Z)
| GameKeyAnnounced (from seed : Z) (source : GameKeySource)
| MatchStarted (m : AnnouncedMatchStart)
| Game (from : Z) (msg : OwnedMsg).

#[export] Instance SetupRefusal_eq_dec : EqDecision SetupRefusal.
Proof. solve_decision. Defined.
#[export] Instance Event_eq_dec : EqDecision Event.
Proof. solve_decision. Defined.

Inductive Role := Host | Client.

#[export] Instance Role_eq_dec : EqDecision Role.
Proof. solve_decision. Defined.

Inductive MatchStartError (E : Type) :=
| NotHost
| NotAllReady
| ZeroEpoch
| AlreadyStarted (current : AnnouncedMatchStart) (requested_epoch requested_seed : Z)
| MTransport (e : E).
Arguments NotHost {E}.
Arguments NotAllReady {E}.
Arguments ZeroEpoch {E}.
Arguments AlreadyStarted {E}.
Arguments MTransport {E}.

(** [io::Error] of [send_command_package]: its own [InvalidInput] or the
    transport's. *)
Inductive SendError (E : Type) :=
| InvalidInput (len : nat)
| STransport (e : E).
Arguments InvalidInput {E}.
Arguments STransport {E}.

Record Session (T : Type) := mkSession {
  transport : T;
  role : Role;
  local_name : text;
  players : list Player;
  events : list Event;
  turns : btree (btree TurnPackage);
  announced_to : list Z;
  all_ready_fired : bool;
  now_ms : Z;
  last_pulse_sent_ms : Z;
  pulse_interval_ms : Z;
  timeout_ms : Z;
  announced_game_key : option AnnouncedGameKey;
  announced_match_start : option AnnouncedMatchStart;
}.
Arguments mkSession {T}.
Arguments transport {T}.
Arguments role {T}.
Arguments local_name {T}.
Arguments players {T}.
Arguments events {T}.
Arguments turns {T}.
Arguments announced_to {T}.
Arguments all_ready_fired {T}.
Arguments now_ms {T}.
Arguments last_pulse_sent_ms {T}.
Arguments pulse_interval_ms {T}.
Arguments timeout_ms {T}.
Arguments announced_game_key {T}.
Arguments announced_match_start {T}.

Module Session.
Section Ops.
Context {T E : Type} `{TransportLaws T E}.

(** Field assignments. *)
Definition set_transport (t : T) (s : Session T) : Session T :=
  mkSession t (role s) (local_name s) (players s) (events s) (turns s) (announced_to s)
    (all_ready_fired s) (now_ms s) (last_pulse_sent_ms s) (pulse_interval_ms s) (timeout_ms s)
    (announced_game_key s) (announced_match_start s).
Definition set_role (r : Role) (s : Session T) : Session T :=
  mkSession (transport s) r (local_name s) (players s) (events s) (turns s) (announced_to s)
    (all_ready_fired s) (now_ms s) (last_pulse_sent_ms s) (pulse_interval_ms s) (timeout_ms s)
    (announced_game_key s) (announced_match_start s).
Definition set_players (ps : list Player) (s : Session T) : Session T :=
  mkSession (transport s) (role s) (local_name s) ps (events s) (turns s) (announced_to s)
    (all_ready_fired s) (now_ms s) (last_pulse_sent_ms s) (pulse_interval_ms s) (timeout_ms s)
    (announced_game_key s) (announced_match_start s).
Definition set_events (es : list Event) (s : Session T) : Session T :=
  mkSession (transport s) (role s) (local_name s) (players s) es (turns s) (announced_to s)
    (all_ready_fired s) (now_ms s) (last_pulse_sent_ms s) (pulse_interval_ms s) (timeout_ms s)
    (announced_game_key s) (announced_match_start s).
Definition set_turns (ts : btree (btree TurnPackage)) (s : Session T) : Session T :=
  mkSession (transport s) (role s) (local_name s) (players s) (events s) ts (announced_to s)
    (all_ready_fired s) (now_ms s) (last_pulse_sent_ms s) (pulse_interval_ms s) (timeout_ms s)
    (announced_game_key s) (announced_match_start s).
Definition set_announced_to (l : list Z) (s : Session T) : Session T :=
  mkSession (transport s) (role s) (local_name s) (players s) (events s) (turns s) l
    (all_ready_fired s) (now_ms s) (last_pulse_sent_ms s) (pulse_interval_ms s) (timeout_ms s)
    (announced_game_key s) (announced_match_start s).
Definition set_all_ready_fired (b : bool) (s : Session T) : Session T :=
  mkSession (transport s) (role s) (local_name s) (players s) (events s) (turns s) (announced_to s)
    b (now_ms s) (last_pulse_sent_ms s) (pulse_interval_ms s) (timeout_ms s)
    (announced_game_key s) (announced_match_start s).
Definition set_now_ms (n : Z) (s : Session T) : Session T :=
  mkSession (transport s) (role s) (local_name s) (players s) (events s) (turns s) (announced_to s)
    (all_ready_fired s) n (last_pulse_sent_ms s) (pulse_interval_ms s) (timeout_ms s)
    (announced_game_key s) (announced_match_start s).
Definition set_last_pulse_sent_ms (n : Z) (s : Session T) : Session T :=
  mkSession (transport s) (role s) (local_name s) (players s) (events s) (turns s) (announced_to s)
    (all_ready_fired s) (now_ms s) n (pulse_interval_ms s) (timeout_ms s)
    (announced_game_key s) (announced_match_start s).
Definition set_timeout_ms (n : Z) (s : Session T) : Session T :=
  mkSession (transport s) (role s) (local_name s) (players s) (events s) (turns s) (announced_to s)
    (all_ready_fired s) (now_ms s) (last_pulse_sent_ms s) (pulse_interval_ms s) n
    (announced_game_key s) (announced_match_start s).
Definition set_game_key (k : option AnnouncedGameKey) (s : Session T) : Session T :=
  mkSession (transport s) (role s) (local_name s) (players s) (events s) (turns s) (announced_to s)
    (all_ready_fired s) (now_ms s) (last_pulse_sent_ms s) (pulse_interval_ms s) (timeout_ms s)
    k (announced_match_start s).
Definition set_match_start (m : option AnnouncedMatchStart) (s : Session T) : Session T :=
  mkSession (transport s) (role s) (local_name s) (players s) (events s) (turns s) (announced_to s)
    (all_ready_fired s) (now_ms s) (last_pulse_sent_ms s) (pulse_interval_ms s) (timeout_ms s)
    (announced_game_key s) m.

(** The computation: [Result<A, E>] over a mutable session. *)
Definition M (A : Type) : Type := Session T -> result E A * Session T.
Definition ret {A} (a : A) : M A := fun s => (Ok a, s).
Definition bind {A B} (m : M A) (k : A -> M B) : M B :=
  fun s => match m s with (Ok a, s') => k a s' | (Err e, s') => (Err e, s') end.
Definition modify (f : Session T -> Session T) : M unit := fun s => (Ok tt, f s).
Definition gets {A} (f : Session T -> A) : M A := fun s => (Ok (f s), s).

Definition push_event (e : Event) (s : Session T) : Session T := set_events (events s ++ [e]) s.
Definition refuse (from : Z) (r : SetupRefusal) : M unit := modify (push_event (SetupRefused from r)).

Definition local_id (s : Session T) : Z := t_local_id (transport s).

Definition local_player (id : Z) (nm : text) (r : Role) : Player :=
  mkPlayer id nm (bool_decide (r = Host)) true false 0 0.

(** [Session::new]. *)
Definition new (t : T) (r : Role) (nm : text) : Session T :=
  mkSession t r nm [local_player (t_local_id t) nm r] [] [] [] false 0 0 1000 30000 None None.

(** [Session::reset_for_reuse]. *)
Definition reset_for_reuse (r : Role) (s : Session T) : Session T :=
  mkSession (transport s) r (local_name s) [local_player (local_id s) (local_name s) r] [] [] []
    false 0 0 (pulse_interval_ms s) (timeout_ms s) None None.

Definition find (id : Z) (s : Session T) : option Player :=
  List.find (fun p => unique_id p =? id) (players s).

Definition all_ready (s : Session T) : bool :=
  match players s with [] => false | _ => forallb ready (players s) end.

(** [players.iter_mut().find(f)] followed by an assignment to what it found. *)
Fixpoint update_first (f : Player -> bool) (g : Player -> Player) (ps : list Player) : list Player :=
  match ps with
  | [] => []
  | p :: ps => if f p then g p :: ps else p :: update_first f g ps
  end.

Definition with_ready (b : bool) (p : Player) : Player :=
  mkPlayer (unique_id p) (name p) (is_host p) (is_local p) b (last_pulse_ms p) (slot p).
Definition with_name (nm : text) (p : Player) : Player :=
  mkPlayer (unique_id p) nm (is_host p) (is_local p) (ready p) (last_pulse_ms p) (slot p).
Definition with_host (b : bool) (p : Player) : Player :=
  mkPlayer (unique_id p) (name p) b (is_local p) (ready p) (last_pulse_ms p) (slot p).
Definition with_pulse (n : Z) (p : Player) : Player :=
  mkPlayer (unique_id p) (name p) (is_host p) (is_local p) (ready p) n (slot p).
Definition with_slot (n : nat) (p : Player) : Player :=
  mkPlayer (unique_id p) (name p) (is_host p) (is_local p) (ready p) (last_pulse_ms p) n.

(** [transport.send]. *)
Definition send (d : Dest) (b : bytes) : M unit := fun s =>
  let '(r, t) := t_send d b (transport s) in (r, set_transport t s).

Definition emit_all (p : InternalPacket) : M unit := send All (internal_encode p []).
Definition emit_to (peer : Z) (p : InternalPacket) : M unit := send (One peer) (internal_encode p []).

(** The local player's ready flag, [false] when it has none. *)
Definition local_ready (s : Session T) : bool :=
  match List.find is_local (players s) with Some p => ready p | None => false end.

Definition republish_ready : M unit :=
  bind (gets local_ready) (fun r => emit_all (ReadyFlag r)).

Definition send_ready_flag (b : bool) : M unit :=
  bind (modify (fun s => set_players (update_first is_local (with_ready b) (players s)) s))
       (fun _ => emit_all (ReadyFlag b)).

Definition reset_ready_flags : M unit :=
  bind (modify (fun s => set_all_ready_fired false
                           (set_players (map (with_ready false) (players s)) s)))
       (fun _ => emit_all (ReadyFlag false)).

Definition send_dsync (frame : Z) : M unit := emit_all (Dsync frame).

(** [Session::start_match]. *)
Definition start_match (epoch seed : Z) (s : Session T)
    : result (MatchStartError E) AnnouncedMatchStart * Session T :=
  if negb (bool_decide (role s = Host)) then (Err NotHost, s)
  else if epoch =? 0 then (Err ZeroEpoch, s)
  else if negb (all_ready s) then (Err NotAllReady, s)
  else
    match announced_match_start s with
    | Some current =>
        if (ms_epoch current =? epoch) && (ms_seed current =? seed) then (Ok current, s)
        else (Err (AlreadyStarted current epoch seed), s)
    | None =>
        match send All (ext_encode (MatchStart epoch seed) []) s with
        | (Err e, s) => (Err (MTransport e), s)
        | (Ok _, s) =>
            let started := mkAnnouncedMatchStart (local_id s) epoch seed in
            (Ok started, push_event (MatchStarted started) (set_match_start (Some started) s))
        end
    end.

Definition announce_game_key_to (peer seed : Z) (src : GameKeySource) : M unit :=
  send (One peer) (ext_encode (GameKey seed src) []).
Definition announce_game_key (seed : Z) (src : GameKeySource) : M unit :=
  send All (ext_encode (GameKey seed src) []).
Definition announce_disconnect : M unit :=
  bind (gets local_id) (fun id => emit_all (DestroyPlayer id)).
Definition send_all (m : NetMsg) : M unit := send All (msg_encode m []).
Definition send_to (id : Z) (m : NetMsg) : M unit := send (One id) (msg_encode m []).

(** [self.turns.entry(stamp).or_default().insert(play, package)]. *)
Definition store_package (p : TurnPackage) (s : Session T) : Session T :=
  let m := default [] (bt_get (tp_stamp p) (turns s)) in
  set_turns (bt_insert (tp_stamp p) (bt_insert (tp_play p) p m) (turns s)) s.

Definition send_command_package (stamp play : Z) (payload : bytes) (s : Session T)
    : result (SendError E) unit * Session T :=
  if (MAX_COMMAND_PACKAGE_PAYLOAD <? length payload)%nat then (Err (InvalidInput (length payload)), s)
  else
    match send_all (CommandPackage stamp play payload) s with
    | (Err e, s) => (Err (STransport e), s)
    | (Ok _, s) => (Ok tt, store_package (mkTurnPackage stamp play payload) s)
    end.

Definition turn_ready (stamp : Z) (s : Session T) : bool :=
  match bt_get stamp (turns s) with
  | Some m => (length (players s) <=? length m)%nat
  | None => false
  end.

Definition package_for_turn (stamp play : Z) (s : Session T) : option TurnPackage :=
  m ← bt_get stamp (turns s); bt_get play m.

Definition take_turn (stamp : Z) (s : Session T) : list TurnPackage * Session T :=
  match bt_get stamp (turns s) with
  | Some m => (bt_values m, set_turns (bt_remove stamp (turns s)) s)
  | None => ([], s)
  end.

Definition drain_events (s : Session T) : list Event * Session T := (events s, set_events [] s).

Definition host_id (s : Session T) : option Z := unique_id <$> List.find is_host (players s).

(** [Session::handle_extension]. *)
Definition handle_extension (from : Z) (p : DonExtension) : M unit := fun s =>
  match p with
  | GameKey seed source =>
      if negb (bool_decide (host_id s = Some from)) then
        refuse from (GameKeyFromNonHost (host_id s)) s
      else
        let announcement := mkAnnouncedGameKey from seed source in
        if bool_decide (announced_game_key s = Some announcement) then (Ok tt, s)
        else (Ok tt, push_event (GameKeyAnnounced from seed source)
                       (set_game_key (Some announcement) s))
  | MatchStart epoch seed =>
      if negb (bool_decide (host_id s = Some from)) then
        refuse from (MatchStartFromNonHost (host_id s)) s
      else if negb (all_ready s) then refuse from MatchStartBeforeAllReady s
      else if epoch =? 0 then refuse from (MatchStartInvalidEpoch epoch) s
      else
        let announced := mkAnnouncedMatchStart from epoch seed in
        match announced_match_start s with
        | None => (Ok tt, push_event (MatchStarted announced) (set_match_start (Some announced) s))
        | Some current =>
            if bool_decide (current = announced) then (Ok tt, s)
            else refuse from (MatchStartConflict (ms_epoch current) (ms_seed current) epoch seed) s
        end
  end.

Definition same_id (id : Z) (p : Player) : bool := unique_id p =? id.

(** [self.players.retain], [self.announced_to.retain] and [PlayerLeft]. *)
Definition forget (id : Z) (s : Session T) : Session T :=
  push_event (PlayerLeft id)
    (set_announced_to (List.filter (fun peer => negb (peer =? id)) (announced_to s))
       (set_players (List.filter (fun p => negb (same_id id p)) (players s)) s)).

(** The host's answer to an announcement: the roster, then itself again. *)
Definition answer_roster : M unit := fun s =>
  let n := Nat.min (length (players s)) MAX_PLAYERS in
  let ids := map unique_id (take n (players s)) ++ replicate (MAX_PLAYERS - n) 0 in
  bind (emit_all (PlayerList (u8 (Z.of_nat n)) ids))
    (fun _ s => emit_all (AddPlayer (local_name s) (local_id s) true) s) s.

(** [InternalPacket::AddPlayer]. *)
Definition handle_add (from : Z) (player_name : text) (id : Z) (hosting : bool) : M unit := fun s =>
  if negb (id =? from) then refuse from (SenderIdMismatch id) s
  else if hosting && (bool_decide (role s = Host) ||
            match List.find is_host (players s) with
            | Some host => negb (unique_id host =? id)
            | None => false
            end)
  then refuse from UnexpectedHostClaim s
  else
    let answer : M unit := fun s =>
      if bool_decide (role s = Host) then answer_roster s else (Ok tt, s) in
    match List.find (same_id id) (players s) with
    | Some p =>
        if (negb (bool_decide (name p = [])) && negb (bool_decide (name p = player_name)))
           || negb (Bool.eqb (is_host p) hosting)
        then refuse from (DuplicateAddConflict id) s
        else
          let g p := with_host hosting (if bool_decide (name p = []) then with_name player_name p else p) in
          answer (set_players (update_first (same_id id) g (players s)) s)
    | None =>
        let p := mkPlayer id player_name hosting false false (now_ms s) (length (players s)) in
        bind republish_ready (fun _ => answer)
          (push_event (PlayerJoined id) (set_players (players s ++ [p]) s))
    end.

(** The slot loop of [PlayerList]: [grew] is whether a player was added. *)
Definition roster_slot (from : Z) (sl : nat) (id : Z) (st : bool * Session T) : bool * Session T :=
  let '(grew, s) := st in
  if id =? 0 then (grew, s)
  else
    match List.find (same_id id) (players s) with
    | Some _ =>
        (grew, set_players (update_first (same_id id)
                 (fun p => with_host (id =? from) (with_slot sl p)) (players s)) s)
    | None =>
        (true, push_event (PlayerJoined id)
                 (set_players (players s ++
                    [mkPlayer id [] (id =? from) (id =? local_id s) false (now_ms s) sl]) s))
    end.

Fixpoint roster_slots (from : Z) (sl : nat) (ids : list Z) (st : bool * Session T) : bool * Session T :=
  match ids with
  | [] => st
  | id :: ids => roster_slots from (S sl) ids (roster_slot from sl id st)
  end.

(** [players.sort_by_key(|p| p.slot)], a stable sort. *)
Fixpoint insert_by_slot (p : Player) (ps : list Player) : list Player :=
  match ps with
  | [] => [p]
  | q :: qs => if (slot p <=? slot q)%nat then p :: ps else q :: insert_by_slot p qs
  end.
Definition sort_by_slot (ps : list Player) : list Player := fold_right insert_by_slot [] ps.

Definition in_list (l : list Z) (x : Z) : bool := existsb (Z.eqb x) l.

(** [InternalPacket::PlayerList]. *)
Definition handle_roster (from n : Z) (ids : list Z) : M unit := fun s =>
  if bool_decide (role s = Host) then refuse from PlayerListFromNonHost s
  else
    let mismatch := match host_id s with
                    | Some expected => if negb (expected =? from) then Some expected else None
                    | None => None
                    end in
    match mismatch with
    | Some expected => refuse from (PlayerListHostMismatch expected) s
    | None =>
        let active := take (Z.to_nat n) ids in
        if negb (nth 0 ids 0 =? from) then refuse from HostMissingFromSlotZero s
        else if negb (in_list active (local_id s)) then refuse from LocalMissingFromRoster s
        else
          let '(grew, s) := roster_slots from 0 active (false, s) in
          bind (if grew then republish_ready else ret tt)
            (fun _ s =>
               let dropped := map unique_id
                 (List.filter (fun p => negb (is_local p) && negb (in_list active (unique_id p))) (players s)) in
               let s := fold_left (fun s id => forget id s) dropped s in
               (Ok tt, set_players (sort_by_slot (players s)) s)) s
    end.

(** [Session::handle_internal]. *)
Definition handle_internal (from : Z) (p : InternalPacket) : M unit := fun s =>
  match p with
  | AddPlayer nm id hosting => handle_add from nm id hosting s
  | PlayerList n ids => handle_roster from n ids s
  | ReadyFlag b =>
      match List.find (same_id from) (players s) with
      | Some p =>
          if negb (Bool.eqb (ready p) b) then
            (Ok tt, push_event (ReadyChanged from b)
                      (set_players (update_first (same_id from) (with_ready b) (players s)) s))
          else (Ok tt, s)
      | None => refuse from ReadyBeforeAdd s
      end
  | Pulse => (Ok tt, set_players (update_first (same_id from) (with_pulse (now_ms s)) (players s)) s)
  | Dsync frame => (Ok tt, push_event (Desync from frame) s)
  | DestroyPlayer id =>
      if negb (id =? from) then refuse from (DestroySenderMismatch id) s
      else
        let s := set_announced_to (List.filter (fun peer => negb (peer =? id)) (announced_to s)) s in
        if existsb (same_id id) (players s) then
          (Ok tt, push_event (PlayerLeft id)
                    (set_players (List.filter (fun p => negb (same_id id p)) (players s)) s))
        else (Ok tt, s)
  | MigrateHost new_host =>
      let s := set_players (map (fun p => with_host (unique_id p =? new_host) p) (players s)) s in
      (Ok tt, if new_host =? local_id s then set_role Host s else s)
  | DropRequest _ | CancelDropRequest _ => (Ok tt, s)
  end.

(** [Session::handle_game]. *)
Definition handle_game (d : Datagram) : M unit := fun s =>
  match msg_decode (dg_bytes d) with
  | Err _ => (Ok tt, s)
  | Ok f =>
      let s := match msg f with
               | CommandPackage stamp play payload => store_package (mkTurnPackage stamp play payload) s
               | _ => s
               end in
      (Ok tt, push_event (Game (from d) (mkOwnedMsg (ty_id (ty f)) (response (ty f)) (dg_bytes d))) s)
  end.

(** [Session::handle]. *)
Definition handle (d : Datagram) : M unit := fun s =>
  match dg_bytes d with
  | [] => (Ok tt, s)
  | first :: _ =>
      if is_extension first then
        match ext_decode (dg_bytes d) with
        | Ok p => handle_extension (from d) p s
        | Err e => refuse (from d) (MalformedExtension e) s
        end
      else if IPT_BASE <=? first then
        match internal_decode (dg_bytes d) with
        | Ok p => handle_internal (from d) p s
        | Err e => refuse (from d) (Malformed e) s
        end
      else handle_game d s
  end.

Definition reap_timeouts (s : Session T) : Session T :=
  let dropped := map unique_id
    (List.filter (fun p => negb (is_local p) &&
       (timeout_ms s <? saturating_sub (now_ms s) (last_pulse_ms p))) (players s)) in
  fold_left (fun s id => forget id s) dropped s.

(** [while let Some(d) = self.transport.recv()? { self.handle(d)? }].  Every
    turn of the loop takes one pending datagram, so one more than are pending
    is enough fuel. *)
Fixpoint recv_loop (fuel : nat) : M unit := fun s =>
  match fuel with
  | O => (Ok tt, s)
  | S fuel =>
      let '(r, t) := t_recv (transport s) in
      let s := set_transport t s in
      match r with
      | Err e => (Err e, s)
      | Ok None => (Ok tt, s)
      | Ok (Some d) => bind (handle d) (fun _ => recv_loop fuel) s
      end
  end.

(** The greeting of each peer not greeted yet. *)
Fixpoint greet (nm : text) (me : Z) (hosting b : bool) (fresh : list Z) : M unit :=
  match fresh with
  | [] => ret tt
  | peer :: fresh =>
      bind (emit_to peer (AddPlayer nm me hosting)) (fun _ =>
      bind (emit_to peer (ReadyFlag b)) (fun _ =>
      bind (modify (fun s => set_announced_to (announced_to s ++ [peer]) s)) (fun _ =>
      greet nm me hosting b fresh)))
  end.

Definition greet_fresh : M unit := fun s =>
  let fresh := List.filter (fun p => negb (in_list (announced_to s) p)) (t_peers (transport s)) in
  match fresh with
  | [] => (Ok tt, s)
  | _ => greet (local_name s) (local_id s) (bool_decide (role s = Host)) (local_ready s) fresh s
  end.

Definition pulse : M unit := fun s =>
  if pulse_interval_ms s <=? saturating_sub (now_ms s) (last_pulse_sent_ms s) then
    bind (emit_all Pulse) (fun _ => modify (fun s => set_last_pulse_sent_ms (now_ms s) s)) s
  else (Ok tt, s).

Definition transport_poll : M unit := fun s =>
  let '(r, t) := t_poll (transport s) in (r, set_transport t s).

(** The edge-triggered [AllReady] event. *)
Definition fire_all_ready (s : Session T) : Session T :=
  if all_ready s && negb (all_ready_fired s) then push_event AllReady (set_all_ready_fired true s)
  else if negb (all_ready s) then set_all_ready_fired false s
  else s.

(** [Session::poll]. *)
Definition poll (now : Z) : M unit :=
  bind (modify (set_now_ms now)) (fun _ =>
  bind greet_fresh (fun _ =>
  bind pulse (fun _ =>
  bind transport_poll (fun _ =>
  bind (fun s => recv_loop (S (t_inbox (transport s))) s) (fun _ =>
  modify (fun s => fire_all_ready (reap_timeouts s))))))).
End Ops.

Section Proofs.
Context {T E : Type} `{TransportLaws T E}.
Implicit Types s : Session T.

(** ** Effects of the computations *)

Definition preserves {A} (P : Session T -> Prop) (m : M (E:=E) A) : Prop :=
  forall s, P s -> P (snd (m s)).

Lemma preserves_bind {A B} P (m : M A) (k : A -> M B) :
  preserves P m -> (forall a, preserves P (k a)) -> preserves P (bind m k).
Proof.
  intros Hm Hk s Hs. unfold bind. specialize (Hm s Hs). destruct (m s) as [[a|e] s']; [|done].
  by apply Hk.
Qed.

Lemma preserves_modify P f : (forall s, P s -> P (f s)) -> preserves P (modify f).
Proof. intros Hf s Hs. by apply Hf. Qed.

Lemma preserves_send P d b :
  (forall t s, t_local_id t = t_local_id (transport s) -> t_inbox t = t_inbox (transport s) ->
     P s -> P (set_transport t s)) -> preserves P (send d b).
Proof.
  intros HP s Hs. unfold send. pose proof (t_send_id d b (transport s)) as Hid.
  pose proof (t_send_inbox d b (transport s)) as Hin.
  destruct (t_send d b (transport s)) as [r t]. by apply HP.
Qed.

(** A session seen without its transport. *)
Definition same_but_transport (s s' : Session T) : Prop :=
  s' = set_transport (transport s') s.

Lemma send_frame d b s : same_but_transport s (snd (send d b s)).
Proof. unfold send. by destruct (t_send d b (transport s)). Qed.

Lemma republish_frame s : same_but_transport s (snd (republish_ready s)).
Proof. apply send_frame. Qed.

Lemma answer_frame s : same_but_transport s (snd (answer_roster s)).
Proof.
  unfold answer_roster, bind. pose proof (send_frame All) as F.
  unfold emit_all. set (b := internal_encode (PlayerList _ _) []).
  pose proof (send_frame All b s) as F1. destruct (send All b s) as [[[]|e] s1]; cbn [snd] in *; [|done].
  pose proof (send_frame All (internal_encode (AddPlayer (local_name s1) (local_id s1) true) []) s1) as F2.
  destruct (send All _ s1) as [r s2]. cbn [snd] in *. unfold same_but_transport in *.
  rewrite F2. rewrite F1. done.
Qed.

(** ** The roster *)

Definition ids (ps : list Player) : list Z := map unique_id ps.

(** Nobody is listed twice and at most one player is the host. *)
Definition one_host (ps : list Player) : Prop :=
  exists h, forall p, In p ps -> is_host p = true -> unique_id p = h.
Definition roster_inv (s : Session T) : Prop := NoDup (ids (players s)) /\ one_host (players s).

Lemma in_update_first f g ps q :
  In q (update_first f g ps) -> In q ps \/ exists p, List.find f ps = Some p /\ q = g p.
Proof.
  induction ps as [|p ps IH]; simpl; [tauto|]. destruct (f p); simpl.
  - intros [<-|Hq]; [right; eauto|auto].
  - intros [<-|Hq]; [auto|]. destruct (IH Hq); auto.
Qed.

Lemma ids_update_first f g ps :
  (forall p, unique_id (g p) = unique_id p) -> ids (update_first f g ps) = ids ps.
Proof.
  intros Hg. induction ps as [|p ps IH]; [done|]. simpl. destruct (f p); cbn [ids map].
  - by rewrite Hg.
  - unfold ids in IH. by rewrite IH.
Qed.

(** An update that changes neither identity nor host flag of what it finds. *)
Lemma roster_update f g s :
  (forall p, unique_id (g p) = unique_id p) ->
  (forall p, List.find f (players s) = Some p -> is_host (g p) = is_host p) ->
  roster_inv s -> NoDup (ids (update_first f g (players s))) /\ one_host (update_first f g (players s)).
Proof.
  intros Hu Hh [Hn [h Ho]]. rewrite ids_update_first by done. split; [done|].
  exists h. intros q Hq Hqh. apply in_update_first in Hq as [Hq|(p & Hp & ->)]; [by apply Ho|].
  rewrite Hu. rewrite Hh in Hqh by done. apply find_some in Hp as [Hp _]. by apply Ho.
Qed.

Lemma roster_filter f ps :
  NoDup (ids ps) /\ one_host ps -> NoDup (ids (List.filter f ps)) /\ one_host (List.filter f ps).
Proof.
  intros [Hn [h Ho]]. split.
  - induction ps as [|p ps IH]; [constructor|]. cbn [ids map] in Hn. apply NoDup_cons in Hn as [Hp Hn].
    assert (IH' : NoDup (ids (List.filter f ps))) by (apply IH; [done|]; intros; apply Ho; [by right|done]).
    simpl. destruct (f p); [|done]. cbn [ids map]. constructor; [|done].
    intros Hin. apply Hp. apply list_elem_of_In, in_map_iff in Hin as (q & <- & Hq).
    apply filter_In in Hq as [Hq _]. apply list_elem_of_In, in_map_iff. eauto.
  - exists h. intros p Hp. apply filter_In in Hp as [Hp _]. by apply Ho.
Qed.

Lemma forget_roster id s : roster_inv s -> roster_inv (forget id s).
Proof. intros Hr. unfold roster_inv, forget. cbn. by apply roster_filter. Qed.

Lemma fold_forget_roster l s : roster_inv s -> roster_inv (fold_left (fun s id => forget id s) l s).
Proof. revert s; induction l as [|id l IH]; intros s Hs; [done|]. cbn. by apply IH, forget_roster. Qed.

Lemma insert_by_slot_perm p ps : Permutation (insert_by_slot p ps) (p :: ps).
Proof.
  induction ps as [|q ps IH]; simpl; [done|]. destruct (slot p <=? slot q)%nat; [done|].
  rewrite IH. apply Permutation_swap.
Qed.

Lemma sort_by_slot_perm ps : Permutation (sort_by_slot ps) ps.
Proof.
  induction ps as [|p ps IH]; [done|]. cbn [sort_by_slot fold_right].
  rewrite insert_by_slot_perm. by f_equiv.
Qed.

Lemma roster_perm ps qs :
  Permutation ps qs -> NoDup (ids ps) /\ one_host ps -> NoDup (ids qs) /\ one_host qs.
Proof.
  intros P [Hn [h Ho]]. split.
  - unfold ids. by rewrite <- (Permutation_map unique_id P).
  - exists h. intros p Hp. apply Ho. eapply Permutation_in; [symmetry; exact P|done].
Qed.

Lemma find_same_id_none id ps : List.find (same_id id) ps = None -> id ∉ ids ps.
Proof.
  intros Hf Hin. apply list_elem_of_In, in_map_iff in Hin as (p & <- & Hp).
  apply (find_none _ _ Hf) in Hp. unfold same_id in Hp. by rewrite Z.eqb_refl in Hp.
Qed.

Lemma roster_append p ps :
  NoDup (ids ps) /\ one_host ps -> unique_id p ∉ ids ps ->
  (is_host p = true -> forall q, In q ps -> is_host q = false) ->
  NoDup (ids (ps ++ [p])) /\ one_host (ps ++ [p]).
Proof.
  intros [Hn [h Ho]] Hp Hh. unfold ids. rewrite map_app. split.
  - apply NoDup_app. split; [done|]. split; [|apply NoDup_singleton].
    intros x Hx ->%list_elem_of_singleton. by apply Hp.
  - destruct (is_host p) eqn:Eh.
    + exists (unique_id p). intros q [Hq|[<-|[]]]%in_app_iff Hqh; [|done].
      by rewrite Hh in Hqh.
    + exists h. intros q [Hq|[<-|[]]]%in_app_iff Hqh; [by apply Ho|congruence].
Qed.

(** *** Each handler keeps the roster *)

Lemma roster_frame s s' : same_but_transport s s' -> roster_inv s -> roster_inv s'.
Proof. intros ->. done. Qed.

Lemma host_find_none ps : List.find is_host ps = None -> forall q, In q ps -> is_host q = false.
Proof. intros Hf q Hq. by apply (find_none _ _ Hf) in Hq. Qed.

Lemma answer_if_host_roster s :
  roster_inv s ->
  roster_inv (snd (if bool_decide (role s = Host) then answer_roster (E:=E) s else (Ok tt, s))).
Proof. intros Hr. destruct (bool_decide _); [|done]. eapply roster_frame; [apply answer_frame|done]. Qed.

Lemma handle_add_roster f nm id h s : roster_inv s -> roster_inv (snd (handle_add (E:=E) f nm id h s)).
Proof.
  intros Hr. unfold handle_add. destruct (negb (id =? f)); [done|].
  destruct (h && _) eqn:Eh; [done|]. cbv zeta.
  destruct (List.find (same_id id) (players s)) as [p|] eqn:Ef.
  - destruct (_ && _ || negb (eqb _ _))%bool eqn:Ec; [done|]. apply orb_false_iff in Ec as [_ Ec].
    apply negb_false_iff, eqb_prop in Ec.
    apply (answer_if_host_roster (set_players _ s)). apply roster_update; [| |done].
    + intros q. by destruct (bool_decide (name q = [])).
    + intros q Hq. rewrite Ef in Hq. injection Hq as <-. cbn. done.
  - set (s1 := push_event _ _).
    assert (H1 : roster_inv s1).
    { apply roster_append; [done|by apply find_same_id_none|]. cbn [is_host]. intros ->.
      cbn [andb] in Eh. apply orb_false_iff in Eh as [_ Eh].
      destruct (List.find is_host (players s)) as [q|] eqn:Eq; [|by apply host_find_none].
      exfalso. apply negb_false_iff, Z.eqb_eq in Eh. apply find_some in Eq as [Eq _].
      apply (find_same_id_none _ _ Ef). apply list_elem_of_In, in_map_iff. eauto. }
    unfold bind. pose proof (republish_frame s1) as F.
    destruct (republish_ready s1) as [[[]|e] s2]; cbn [snd] in *.
    + apply (answer_if_host_roster s2). by eapply roster_frame.
    + by eapply roster_frame.
Qed.

(** During the slot loop every host is the sender. *)
Definition hosted_by (f : Z) (s : Session T) : Prop :=
  NoDup (ids (players s)) /\ forall p, In p (players s) -> is_host p = true -> unique_id p = f.

Lemma roster_slot_hosted f sl id g s :
  hosted_by f s -> hosted_by f (snd (roster_slot f sl id (g, s))).
Proof.
  intros [Hn Ho]. unfold roster_slot. destruct (id =? 0); [done|].
  destruct (List.find (same_id id) (players s)) as [p|] eqn:Ef; cbn [snd].
  - split; cbn [set_players players].
    + rewrite ids_update_first by done. done.
    + intros q Hq Hh. apply in_update_first in Hq as [Hq|(p' & Hp & ->)]; [by apply Ho|].
      cbn in *. apply Z.eqb_eq in Hh. rewrite <- Hh. apply find_some in Hp as [_ Hp].
      unfold same_id in Hp. by apply Z.eqb_eq.
  - split; cbn [push_event set_events set_players players].
    + apply find_same_id_none in Ef. unfold ids. rewrite map_app. apply NoDup_app.
      split; [done|]. split; [|apply NoDup_singleton]. intros x Hx ->%list_elem_of_singleton. done.
    + intros q [Hq|[<-|[]]]%in_app_iff Hh; [by apply Ho|]. cbn in *. by apply Z.eqb_eq.
Qed.

Lemma roster_slots_hosted f sl l st : hosted_by f (snd st) -> hosted_by f (snd (roster_slots f sl l st)).
Proof.
  revert sl st; induction l as [|id l IH]; intros sl [g s] Hs; [done|]. cbn [roster_slots].
  apply IH. by apply roster_slot_hosted.
Qed.

Lemma handle_roster_roster f n l s : roster_inv s -> roster_inv (snd (handle_roster (E:=E) f n l s)).
Proof.
  intros Hr. unfold handle_roster. destruct (bool_decide (role s = Host)); [done|]. cbv zeta.
  set (mm := match host_id s with Some _ => _ | None => _ end).
  destruct mm as [x|] eqn:Em; [done|].
  destruct (negb (nth 0 l 0 =? f)); [done|]. destruct (negb (in_list _ _)); [done|].
  assert (Hh : hosted_by f s).
  { destruct Hr as [Hn [h Ho]]. split; [done|]. intros p Hp Hph. unfold mm, host_id in Em.
    destruct (List.find is_host (players s)) as [q|] eqn:Eq; cbn in Em.
    - apply find_some in Eq as [Hq Hqh]. destruct (Z.eqb_spec (unique_id q) f) as [<-|]; [|done].
      by rewrite (Ho p), (Ho q).
    - by rewrite (host_find_none _ Eq p Hp) in Hph. }
  pose proof (roster_slots_hosted f 0 (take (Z.to_nat n) l) (false, s) Hh) as H1.
  destruct (roster_slots f 0 _ (false, s)) as [grew s1]. cbn [snd] in H1.
  assert (R1 : roster_inv s1) by (destruct H1 as [Hn Ho]; split; [done|by exists f]).
  unfold bind. assert (F : same_but_transport s1 (snd ((if grew then republish_ready (E:=E) else ret tt) s1))).
  { destruct grew; [apply republish_frame|]. by destruct s1. }
  destruct ((if grew then republish_ready else ret tt) s1) as [[[]|e] s2]; cbn [snd] in *;
    [|by eapply roster_frame].
  set (d := map unique_id _). eapply (roster_perm _ _ (Permutation_sym (sort_by_slot_perm _))).
  apply fold_forget_roster. by eapply roster_frame.
Qed.

Lemma handle_internal_roster f p s : roster_inv s -> roster_inv (snd (handle_internal (E:=E) f p s)).
Proof.
  intros Hr. destruct p as [n l|u|u| |nm id h|id|h|fr|b]; cbn [handle_internal].
  - by apply handle_roster_roster.
  - done.
  - done.
  - by apply roster_update.
  - by apply handle_add_roster.
  - destruct (negb (id =? f)); [done|]. cbn [set_announced_to players].
    destruct (existsb _ _); [|done]. by apply roster_filter.
  - cbn [snd]. assert (Hm : roster_inv (set_players (map (fun p => with_host (unique_id p =? h) p) (players s)) s)).
    { destruct Hr as [Hn _]. split; cbn [set_players players].
      - unfold ids. rewrite map_map. exact Hn.
      - exists h. intros q Hq Hqh. apply in_map_iff in Hq as (p & <- & _). cbn in *. by apply Z.eqb_eq. }
    by destruct (h =? _).
  - done.
  - destruct (List.find _ _); [|done]. destruct (negb _); [|done]. by apply roster_update.
Qed.

Lemma handle_roster_inv d s : roster_inv s -> roster_inv (snd (handle (E:=E) d s)).
Proof.
  intros Hr. unfold handle. destruct (dg_bytes d) as [|b bs] eqn:Eb; [done|]. rewrite <- Eb.
  destruct (is_extension b).
  - destruct (ext_decode _) as [[seed src|ep seed]|e]; cbn [handle_extension]; [| |done].
    + destruct (negb _); [done|]. by destruct (bool_decide _).
    + destruct (negb _); [done|]. destruct (negb _); [done|]. destruct (ep =? 0); [done|].
      destruct (announced_match_start s); [by destruct (bool_decide _)|done].
  - destruct (IPT_BASE <=? b).
    + destruct (internal_decode _); [by apply handle_internal_roster|done].
    + unfold handle_game. destruct (msg_decode _) as [f|]; [|done]. cbn [snd]. by destruct (msg f).
Qed.

(** ** Public operations and reachable sessions *)

Inductive op :=
| OpPoll (now : Z)
| OpReadyFlag (b : bool)
| OpResetReadyFlags
| OpDsync (frame : Z)
| OpStartMatch (epoch seed : Z)
| OpGameKeyTo (peer seed : Z) (src : GameKeySource)
| OpGameKey (seed : Z) (src : GameKeySource)
| OpDisconnect
| OpSendAll (m : NetMsg)
| OpSendTo (id : Z) (m : NetMsg)
| OpPackage (stamp play : Z) (payload : bytes)
| OpTakeTurn (stamp : Z)
| OpDrainEvents
| OpReset (r : Role)
| OpTimeout (ms : Z).

Definition exec (o : op) (s : Session T) : Session T :=
  match o with
  | OpPoll now => snd (poll (E:=E) now s)
  | OpReadyFlag b => snd (send_ready_flag (E:=E) b s)
  | OpResetReadyFlags => snd (reset_ready_flags (E:=E) s)
  | OpDsync f => snd (send_dsync (E:=E) f s)
  | OpStartMatch e sd => snd (start_match (E:=E) e sd s)
  | OpGameKeyTo p sd src => snd (announce_game_key_to (E:=E) p sd src s)
  | OpGameKey sd src => snd (announce_game_key (E:=E) sd src s)
  | OpDisconnect => snd (announce_disconnect (E:=E) s)
  | OpSendAll m => snd (send_all (E:=E) m s)
  | OpSendTo id m => snd (send_to (E:=E) id m s)
  | OpPackage st pl b => snd (send_command_package (E:=E) st pl b s)
  | OpTakeTurn st => snd (take_turn st s)
  | OpDrainEvents => snd (drain_events s)
  | OpReset r => reset_for_reuse r s
  | OpTimeout ms => set_timeout_ms ms s
  end.

(** The sessions a program can hold.  Between calls the owner may do what it
    likes with the transport, which is a public field. *)
Inductive reachable : Session T -> Prop :=
| reachable_new t r nm : reachable (new t r nm)
| reachable_op o s : reachable s -> reachable (exec o s)
| reachable_wire t s : reachable s -> reachable (set_transport t s).

(** A property of the session that ignores the transport and the clock and
    that [handle] keeps is kept by [poll]. *)
Section PollFrame.
Context (P : Session T -> Prop).
Hypothesis P_transport : forall t s, P s -> P (set_transport t s).
Hypothesis P_handle : forall d s, P s -> P (snd (handle (E:=E) d s)).
Hypothesis P_announced : forall l s, P s -> P (set_announced_to l s).
Hypothesis P_now : forall n s, P s -> P (set_now_ms n s).
Hypothesis P_pulse : forall n s, P s -> P (set_last_pulse_sent_ms n s).
Hypothesis P_forget : forall id s, P s -> P (forget id s).
Hypothesis P_fired : forall b s, P s -> P (set_all_ready_fired b s).
Hypothesis P_all_ready : forall s, P s -> P (push_event AllReady s).

Lemma recv_loop_keeps fuel : preserves P (recv_loop fuel).
Proof.
  induction fuel as [|fuel IH]; intros s Hs; [done|]. cbn [recv_loop].
  destruct (t_recv (transport s)) as [[[d|]|e] t]; cbn [snd]; [|by apply P_transport..].
  apply (preserves_bind P (handle d) (fun _ => recv_loop fuel)); [intros s' Hs'; by apply P_handle|done|].
  by apply P_transport.
Qed.

Lemma send_keeps d b : preserves P (send d b).
Proof. apply preserves_send. intros t s _ _. apply P_transport. Qed.

Lemma greet_keeps nm me h b l : preserves P (greet nm me h b l).
Proof.
  induction l as [|x l IH]; cbn [greet]; [by intros s|].
  apply preserves_bind; [apply send_keeps|intros _]. apply preserves_bind; [apply send_keeps|intros _].
  apply preserves_bind; [apply preserves_modify; intros; by apply P_announced|intros _; done].
Qed.

Lemma fold_forget_keeps l s : P s -> P (fold_left (fun s id => forget id s) l s).
Proof. revert s; induction l as [|x l IH]; intros s Hs; [done|]. cbn. by apply IH, P_forget. Qed.

Lemma poll_keeps now : preserves P (poll now).
Proof.
  unfold poll. apply preserves_bind; [apply preserves_modify; intros; by apply P_now|intros _].
  apply preserves_bind; [|intros _].
  { intros s Hs. unfold greet_fresh. destruct (List.filter _ _) as [|x l]; [done|]. by apply greet_keeps. }
  apply preserves_bind; [|intros _].
  { intros s Hs. unfold pulse. destruct (_ <=? _); [|done]. revert s Hs.
    apply preserves_bind; [apply send_keeps|intros _]. apply preserves_modify. intros; by apply P_pulse. }
  apply preserves_bind; [|intros _].
  { intros s Hs. unfold transport_poll. destruct (t_poll (transport s)). by apply P_transport. }
  apply preserves_bind; [intros s Hs; by apply recv_loop_keeps|intros _].
  apply preserves_modify. intros s Hs.
  assert (Hr : P (reap_timeouts s)).
  { by apply fold_forget_keeps. }
  unfold fire_all_ready. destruct (_ && _); [by apply P_all_ready, P_fired|].
  destruct (negb _); [by apply P_fired|done].
Qed.
End PollFrame.

Lemma send_roster d b s : roster_inv s -> roster_inv (snd (send (E:=E) d b s)).
Proof. by apply (preserves_send roster_inv). Qed.

Lemma exec_roster o s : roster_inv s -> roster_inv (exec o s).
Proof.
  intros Hr. destruct o; cbn [exec].
  - apply (poll_keeps roster_inv); try done; [apply handle_roster_inv|apply forget_roster].
  - unfold send_ready_flag. revert s Hr. apply (preserves_bind roster_inv); [apply preserves_modify|intros u].
    + intros s Hs. by apply roster_update.
    + by apply preserves_send.
  - unfold reset_ready_flags. revert s Hr. apply (preserves_bind roster_inv); [apply preserves_modify|intros u].
    + intros s [Hn [h Ho]]. split; cbn.
      * unfold ids. by rewrite map_map.
      * exists h. intros q Hq Hh. apply in_map_iff in Hq as (p & <- & Hp). exact (Ho p Hp Hh).
    + by apply preserves_send.
  - by apply send_roster.
  - unfold start_match. destruct (negb _); [done|]. destruct (_ =? 0); [done|]. destruct (negb _); [done|].
    destruct (announced_match_start s) as [c|]; [by destruct (_ && _)%bool|].
    pose proof (preserves_send roster_inv All (ext_encode (MatchStart epoch seed) []) ltac:(done) s Hr) as Hs.
    by destruct (send All _ s) as [[[]|e] s1].
  - by apply send_roster.
  - by apply send_roster.
  - by apply send_roster.
  - by apply send_roster.
  - by apply send_roster.
  - unfold send_command_package. destruct (_ <? _)%nat; [done|].
    pose proof (preserves_send roster_inv All (msg_encode (CommandPackage stamp play payload) []) ltac:(done) s Hr) as Hs.
    unfold send_all. by destruct (send All _ s) as [[[]|e] s1].
  - unfold take_turn. by destruct (bt_get stamp (turns s)).
  - done.
  - split; [apply NoDup_singleton|]. exists (local_id s). by intros p [<-|[]].
  - done.
Qed.

(** (C28) The roster invariant of every reachable session, whatever datagrams
    arrive from whoever: no id is listed twice and at most one player holds
    the host flag. *)
Theorem session_roster_invariant (s : Session T) :
  reachable s ->
  NoDup (ids (players s)) /\
  forall p q, In p (players s) -> In q (players s) -> is_host p = true -> is_host q = true ->
    unique_id p = unique_id q.
Proof.
  intros Hs. assert (Hr : roster_inv s).
  { induction Hs as [t r nm|o s Hs IH|t s Hs IH].
    - split; [apply NoDup_singleton|]. exists (t_local_id t). by intros p [<-|[]].
    - by apply exec_roster.
    - done. }
  destruct Hr as [Hn [h Ho]]. split; [done|]. intros p q Hp Hq H1 H2. by rewrite (Ho p), (Ho q).
Qed.

(** ** What one datagram can change *)

(** Everything that membership and authority are made of. *)
Definition refused (s s' : Session T) : Prop :=
  exists f r, s' = push_event (SetupRefused f r) s.

Definition is_refusal (e : Event) : bool := match e with SetupRefused _ _ => true | _ => false end.
Definition is_game (e : Event) : bool := match e with Game _ _ => true | _ => false end.

(** [s'] has [s]'s events followed by events that satisfy [f]. *)
Definition appended (f : Event -> bool) (s s' : Session T) : Prop :=
  exists es, events s' = events s ++ es /\ forallb f es = true.

Lemma appended_refl f s : appended f s s.
Proof. exists []. by rewrite app_nil_r. Qed.

Lemma appended_trans f s1 s2 s3 : appended f s1 s2 -> appended f s2 s3 -> appended f s1 s3.
Proof.
  intros (a & Ha & Fa) (b & Hb & Fb). exists (a ++ b). rewrite Hb, Ha, app_assoc, forallb_app, Fa. done.
Qed.

Lemma appended_push f e s s' : f e = true -> events s' = events s ++ [e] -> appended f s s'.
Proof. intros Hf He. exists [e]. split; [done|]. simpl. by rewrite Hf. Qed.

Lemma appended_events f s s' : events s' = events s -> appended f s s'.
Proof. intros He. exists []. by rewrite app_nil_r. Qed.

(** What control traffic never touches: keys, starts and the turn store. *)
Definition same_match (s s' : Session T) : Prop :=
  announced_game_key s' = announced_game_key s /\
  announced_match_start s' = announced_match_start s /\ turns s' = turns s.

Definition control_event (e : Event) : bool := negb (is_refusal e) && negb (is_game e).

(** An accepted control packet. *)
Definition accepted (s s' : Session T) : Prop := same_match s s' /\ appended control_event s s'.

Lemma accepted_refl s : accepted s s.
Proof. split; [done|apply appended_refl]. Qed.

Lemma accepted_trans s1 s2 s3 : accepted s1 s2 -> accepted s2 s3 -> accepted s1 s3.
Proof.
  intros [(A1 & A2 & A3) A] [(B1 & B2 & B3) B]. split; [repeat split; congruence|].
  by eapply appended_trans.
Qed.

Lemma accepted_transport s s' : same_but_transport s s' -> accepted s s'.
Proof. intros ->. split; [done|by apply appended_events]. Qed.

Lemma accepted_players ps s : accepted s (set_players ps s).
Proof. split; [done|by apply appended_events]. Qed.

Lemma accepted_push e s : control_event e = true -> accepted s (push_event e s).
Proof. intros He. split; [done|by apply (appended_push _ e)]. Qed.

Lemma accepted_forget id s : accepted s (forget id s).
Proof. split; [done|by apply (appended_push _ (PlayerLeft id))]. Qed.

Lemma accepted_fold_forget l s : accepted s (fold_left (fun s id => forget id s) l s).
Proof.
  revert s; induction l as [|x l IH]; intros s; [apply accepted_refl|]. cbn.
  eapply accepted_trans; [apply accepted_forget|apply IH].
Qed.

Lemma accepted_roster_slots f sl l st : accepted (snd st) (snd (roster_slots f sl l st)).
Proof.
  revert sl st; induction l as [|id l IH]; intros sl [g s]; [apply accepted_refl|]. cbn [roster_slots].
  eapply accepted_trans; [|apply IH]. cbn [snd]. unfold roster_slot.
  destruct (id =? 0); [apply accepted_refl|].
  destruct (List.find _ _); cbn [snd]; [apply accepted_players|].
  eapply accepted_trans; [apply accepted_players|]. by apply accepted_push.
Qed.

(** A control packet is refused, leaving only that event, or accepted. *)
Lemma handle_internal_effect f p s :
  refused s (snd (handle_internal (E:=E) f p s)) \/ accepted s (snd (handle_internal (E:=E) f p s)).
Proof.
  assert (R : forall r, refused s (snd (refuse (E:=E) f r s))) by (intros r; by exists f, r).
  destruct p as [n l|u|u| |nm id h|id|h|fr|b]; cbn [handle_internal].
  - unfold handle_roster. destruct (bool_decide _); [left; apply R|]. cbv zeta.
    destruct (match host_id s with Some _ => _ | None => _ end); [left; apply R|].
    destruct (negb (nth 0 l 0 =? f)); [left; apply R|]. destruct (negb (in_list _ _)); [left; apply R|].
    right. pose proof (accepted_roster_slots f 0 (take (Z.to_nat n) l) (false, s)) as A1.
    destruct (roster_slots f 0 _ (false, s)) as [grew s1]. cbn [snd] in A1.
    eapply accepted_trans; [exact A1|]. unfold bind.
    assert (F : same_but_transport s1 (snd ((if grew then republish_ready (E:=E) else ret tt) s1))).
    { destruct grew; [apply republish_frame|]. by destruct s1. }
    apply accepted_transport in F. destruct ((if grew then republish_ready else ret tt) s1) as [[[]|e] s2]; cbn [snd] in *; [|done].
    eapply accepted_trans; [exact F|]. eapply accepted_trans; [apply accepted_fold_forget|apply accepted_players].
  - right. apply accepted_refl.
  - right. apply accepted_refl.
  - right. apply accepted_players.
  - unfold handle_add. destruct (negb (id =? f)); [left; apply R|].
    destruct (h && _); [left; apply R|]. cbv zeta.
    assert (A : forall s0, accepted s0 (snd (if bool_decide (role s0 = Host) then answer_roster (E:=E) s0 else (Ok tt, s0)))).
    { intros s0. destruct (bool_decide _); [apply accepted_transport, answer_frame|apply accepted_refl]. }
    destruct (List.find (same_id id) (players s)) as [p|].
    + destruct (_ && _ || negb (eqb _ _))%bool; [left; apply R|]. right.
      eapply accepted_trans; [apply accepted_players|apply A].
    + right. set (s1 := push_event _ _). assert (A1 : accepted s s1).
      { eapply accepted_trans; [apply accepted_players|]. by apply accepted_push. }
      eapply accepted_trans; [exact A1|]. unfold bind. pose proof (accepted_transport _ _ (republish_frame s1)) as F.
      destruct (republish_ready s1) as [[[]|e] s2]; cbn [snd] in *; [|done].
      eapply accepted_trans; [exact F|apply A].
  - destruct (negb (id =? f)); [left; apply R|]. right. destruct (existsb _ _); cbn [snd].
    + split; [done|by apply (appended_push _ (PlayerLeft id))].
    + split; [done|by apply appended_events].
  - right. cbn [snd]. destruct (_ =? _); (split; [done|by apply appended_events]).
  - right. by apply accepted_push.
  - destruct (List.find _ _) as [p|]; [|left; apply R]. right. destruct (negb _); [|apply accepted_refl].
    eapply accepted_trans; [apply accepted_players|by apply accepted_push].
Qed.

(** The cases of a datagram. *)
Lemma handle_cases d s :
  let s' := snd (handle (E:=E) d s) in
  refused s s' \/ accepted s s' \/
  (exists seed src, ext_decode (dg_bytes d) = Ok (GameKey seed src) /\ host_id s = Some (from d) /\
     s' = push_event (GameKeyAnnounced (from d) seed src)
            (set_game_key (Some (mkAnnouncedGameKey (from d) seed src)) s)) \/
  (exists epoch seed, ext_decode (dg_bytes d) = Ok (MatchStart epoch seed) /\ host_id s = Some (from d) /\
     all_ready s = true /\ epoch <> 0 /\ announced_match_start s = None /\
     s' = push_event (MatchStarted (mkAnnouncedMatchStart (from d) epoch seed))
            (set_match_start (Some (mkAnnouncedMatchStart (from d) epoch seed)) s)) \/
  (exists b bs f, dg_bytes d = b :: bs /\ b < IPT_BASE /\ msg_decode (dg_bytes d) = Ok f /\
     s' = push_event (Game (from d) (mkOwnedMsg (ty_id (ty f)) (response (ty f)) (dg_bytes d)))
            (match msg f with
             | CommandPackage stamp play payload => store_package (mkTurnPackage stamp play payload) s
             | _ => s end)).
Proof.
  cbv zeta. unfold handle. destruct (dg_bytes d) as [|b bs] eqn:Eb; [right; left; apply accepted_refl|].
  rewrite <- Eb. assert (R : forall r, refused s (snd (refuse (E:=E) (from d) r s))) by (intros r; by exists (from d), r).
  destruct (is_extension b).
  - destruct (ext_decode (dg_bytes d)) as [[seed src|ep seed]|e]; cbn [handle_extension]; [| |left; apply R].
    + destruct (negb (bool_decide (host_id s = _))) eqn:Eh; [left; apply R|]. bool_hyps. cbv zeta.
      destruct (bool_decide (announced_game_key s = _)); [right; left; apply accepted_refl|].
      right; right; left. eauto 10.
    + destruct (negb (bool_decide (host_id s = _))) eqn:Eh; [left; apply R|].
      destruct (negb (all_ready s)) eqn:Er; [left; apply R|]. bool_hyps.
      destruct (Z.eqb_spec ep 0) as [|Hep]; [left; apply R|]. cbv zeta.
      destruct (announced_match_start s) as [c|] eqn:Ec.
      * destruct (bool_decide (c = _)); [right; left; apply accepted_refl|left; apply R].
      * right; right; right; left. eauto 10.
  - destruct (Z.leb_spec IPT_BASE b) as [|Hlt].
    + destruct (internal_decode (dg_bytes d)) as [p|e]; [|left; apply R].
      destruct (handle_internal_effect (from d) p s); auto.
    + unfold handle_game. destruct (msg_decode (dg_bytes d)) as [f|] eqn:Em; [|right; left; apply accepted_refl].
      do 4 right. exists b, bs, f. done.
Qed.

(** A refused packet changes nothing: whenever handling a datagram reports
    [SetupRefused], the session is the old one with that event appended, so
    neither the roster, the role, the keys, the match start, the turn store
    nor the transport moved. *)
Theorem refusal_changes_nothing (d : Datagram) (s : Session T) (f : Z) (r : SetupRefusal) :
  events (snd (handle (E:=E) d s)) = events s ++ [SetupRefused f r] ->
  snd (handle (E:=E) d s) = push_event (SetupRefused f r) s.
Proof.
  intros He. destruct (handle_cases d s) as [(f' & r' & Hs)|[[_ (es & Hes & Hf)]|[(a & b & _ & _ & Hs)|
    [(a & b & _ & _ & _ & _ & _ & Hs)|(b & bs & m & _ & _ & _ & Hs)]]]].
  - rewrite Hs in He |- *. cbn in He. apply app_inv_head in He. by injection He as -> ->.
  - rewrite He in Hes. apply app_inv_head in Hes. by subst es.
  - rewrite Hs in He. cbn in He. by apply app_inv_head in He.
  - rewrite Hs in He. cbn in He. by apply app_inv_head in He.
  - rewrite Hs in He. cbn in He. destruct (msg m); cbn in He; by apply app_inv_head in He.
Qed.

(** (C29) Host authority: a datagram changes the announced game key only if it
    is a [GameKey] extension sent by the player who holds the host flag, and
    then to exactly that key; it sets the match start only if none is set, it
    is a [MatchStart] from that host with a non-zero epoch, and every player
    of the roster is ready; and once set no datagram changes it. *)
Theorem host_authority (d : Datagram) (s : Session T) :
  let s' := snd (handle (E:=E) d s) in
  (announced_game_key s' = announced_game_key s \/
   exists seed src, ext_decode (dg_bytes d) = Ok (GameKey seed src) /\ host_id s = Some (from d) /\
     announced_game_key s' = Some (mkAnnouncedGameKey (from d) seed src)) /\
  (announced_match_start s' = announced_match_start s \/
   exists epoch seed, ext_decode (dg_bytes d) = Ok (MatchStart epoch seed) /\ host_id s = Some (from d) /\
     all_ready s = true /\ epoch <> 0 /\ announced_match_start s = None /\
     announced_match_start s' = Some (mkAnnouncedMatchStart (from d) epoch seed)).
Proof.
  cbv zeta. destruct (handle_cases d s) as [(f' & r' & ->)|[[(Hk & Hm & _) _]|[(a & b & ? & ? & ->)|
    [(a & b & ? & ? & ? & ? & ? & ->)|(b & bs & m & _ & _ & _ & ->)]]]].
  - by split; left.
  - by split; left.
  - split; [right; eauto 10|by left].
  - split; [by left|right; eauto 10].
  - destruct (msg m); by split; left.
Qed.

(** The two protocols stay apart: a datagram whose first byte is 128 or
    more never surfaces as a game message and never enters the turn store;
    one below 128 never touches roster, role, keys, match start or transport. *)
Theorem protocols_separate (d : Datagram) (s : Session T) (b : Z) (bs : bytes) :
  dg_bytes d = b :: bs ->
  let s' := snd (handle (E:=E) d s) in
  (IPT_BASE <= b -> turns s' = turns s /\ appended (fun e => negb (is_game e)) s s') /\
  (b < IPT_BASE -> players s' = players s /\ role s' = role s /\ announced_to s' = announced_to s /\
     announced_game_key s' = announced_game_key s /\ announced_match_start s' = announced_match_start s /\
     transport s' = transport s).
Proof.
  intros Eb. cbv zeta. split.
  - intros Hb. destruct (handle_cases d s) as [(f' & r' & ->)|[[(_ & _ & Ht) (es & Hes & Hf)]|[(a & c & _ & _ & ->)|
      [(a & c & _ & _ & _ & _ & _ & ->)|(b' & bs' & m & E' & Hlt & _ & _)]]]].
    + split; [done|]. by apply (appended_push _ (SetupRefused f' r')).
    + split; [done|]. exists es. split; [done|]. apply forallb_forall. intros x Hx.
      rewrite forallb_forall in Hf. specialize (Hf x Hx). unfold control_event in Hf. by bool_hyps; apply negb_true_iff.
    + split; [done|]. by apply (appended_push _ (GameKeyAnnounced (from d) a c)).
    + split; [done|]. by apply (appended_push _ (MatchStarted (mkAnnouncedMatchStart (from d) a c))).
    + rewrite Eb in E'. injection E' as <- <-. lia.
  - intros Hb. unfold handle. rewrite Eb. unfold is_extension, DON_EXT_BASE, IPT_BASE in *.
    destruct (Z.leb_spec 0xF0 b); [lia|]. destruct (Z.leb_spec 128 b); [lia|].
    unfold handle_game. destruct (msg_decode _) as [f|]; [|done]. cbn [snd]. by destruct (msg f).
Qed.

(** ** The match start is a one-way gate *)

Lemma handle_keeps_start m d s :
  announced_match_start s = Some m -> announced_match_start (snd (handle (E:=E) d s)) = Some m.
Proof.
  intros Hm. destruct (handle_cases d s) as [(f' & r' & ->)|[[(_ & -> & _) _]|[(a & b & _ & _ & ->)|
    [(a & b & _ & _ & _ & _ & Hn & _)|(b & bs & f & _ & _ & _ & ->)]]]]; try done; [congruence|].
  by destruct (msg f).
Qed.

Lemma send_keeps_start d b s :
  announced_match_start (snd (send (E:=E) d b s)) = announced_match_start s.
Proof. unfold send. by destruct (t_send d b (transport s)). Qed.

(** Once a match start is recorded, no operation but a reset changes it,
    whatever arrives; [start_match] itself succeeds only on a host whose whole
    roster is ready, with a non-zero epoch, and asking again for the same
    start is answered without sending. *)
Theorem match_start_once (s : Session T) (o : op) (m : AnnouncedMatchStart) :
  announced_match_start s = Some m ->
  (forall r, o <> OpReset r) ->
  announced_match_start (exec o s) = Some m /\
  forall epoch seed, start_match (E:=E) epoch seed s =
    if negb (bool_decide (role s = Host)) then (Err NotHost, s)
    else if epoch =? 0 then (Err ZeroEpoch, s)
    else if negb (all_ready s) then (Err NotAllReady, s)
    else if (ms_epoch m =? epoch) && (ms_seed m =? seed) then (Ok m, s)
    else (Err (AlreadyStarted m epoch seed), s).
Proof.
  intros Hm Ho. split; [|intros; unfold start_match; by rewrite Hm].
  destruct o; cbn [exec]; try (unfold send_dsync, announce_game_key_to, announce_game_key, send_all, send_to, emit_all;
    by rewrite send_keeps_start).
  - apply (poll_keeps (fun s => announced_match_start s = Some m)); try done. intros; by apply handle_keeps_start.
  - unfold send_ready_flag, bind, modify, emit_all. by rewrite send_keeps_start.
  - unfold reset_ready_flags, bind, modify, emit_all. by rewrite send_keeps_start.
  - unfold start_match. rewrite Hm. destruct (negb _); [done|]. destruct (_ =? 0); [done|].
    destruct (negb _); [done|]. by destruct (_ && _)%bool.
  - unfold announce_disconnect, bind, gets, emit_all. by rewrite send_keeps_start.
  - unfold send_command_package. destruct (_ <? _)%nat; [done|].
    pose proof (send_keeps_start All (msg_encode (CommandPackage stamp play payload) []) s) as Hs.
    unfold send_all. destruct (send All _ s) as [[[]|e] s1]; cbn [snd] in *; by rewrite <- Hm, <- Hs.
  - unfold take_turn. by destruct (bt_get stamp (turns s)).
  - done.
  - by destruct (Ho r).
  - done.
Qed.

(** ** Polling drains the transport *)

Definition inbox_is (n : nat) (s : Session T) : Prop := t_inbox (transport s) = n.

Lemma send_inbox n d b : preserves (inbox_is n) (send d b).
Proof. apply preserves_send. unfold inbox_is. cbn. intros t s _ -> ?. done. Qed.

Lemma republish_inbox n : preserves (inbox_is n) republish_ready.
Proof. intros s Hs. by apply (send_inbox n All (internal_encode (ReadyFlag (local_ready s)) [])). Qed.

Lemma roster_slots_transport f sl l st :
  transport (snd (roster_slots f sl l st)) = transport (snd st).
Proof.
  revert sl st; induction l as [|id l IH]; intros sl [g s]; [done|]. cbn [roster_slots]. rewrite IH.
  unfold roster_slot. destruct (id =? 0); [done|]. by destruct (List.find _ _).
Qed.

Lemma fold_forget_transport l s : transport (fold_left (fun s id => forget id s) l s) = transport s.
Proof. revert s; induction l as [|x l IH]; intros s; [done|]. cbn. by rewrite IH. Qed.

Lemma answer_inbox n s :
  inbox_is n s ->
  inbox_is n (snd (if bool_decide (role s = Host) then answer_roster (E:=E) s else (Ok tt, s))).
Proof.
  intros Hs. destruct (bool_decide _); [|done]. unfold answer_roster. cbv zeta. revert Hs.
  apply preserves_bind; [apply send_inbox|]. intros _ s' Hs'. by apply send_inbox.
Qed.

Lemma handle_internal_inbox n f p : preserves (inbox_is n) (handle_internal (E:=E) f p).
Proof.
  intros s Hs. destruct p as [k l|u|u| |nm id h|id|h|fr|b]; cbn [handle_internal]; try done.
  - unfold handle_roster. destruct (bool_decide _); [done|]. cbv zeta.
    destruct (match host_id s with Some _ => _ | None => _ end); [done|].
    destruct (negb _); [done|]. destruct (negb _); [done|].
    pose proof (roster_slots_transport f 0 (take (Z.to_nat k) l) (false, s)) as Ht.
    destruct (roster_slots f 0 _ (false, s)) as [grew s1]. cbn [snd] in Ht.
    assert (H1 : inbox_is n s1) by (unfold inbox_is in *; by rewrite Ht).
    revert H1. apply preserves_bind.
    + destruct grew; [apply republish_inbox|by intros s'].
    + intros _ s' Hs'. unfold inbox_is in *. cbn. by rewrite fold_forget_transport.
  - unfold handle_add. destruct (negb (id =? f)); [done|]. destruct (h && _); [done|]. cbv zeta.
    destruct (List.find (same_id id) (players s)) as [p|].
    + destruct (_ && _ || negb (eqb _ _))%bool; [done|]. by apply (answer_inbox n (set_players _ s)).
    + set (s1 := push_event _ _). assert (H1 : inbox_is n s1) by done. revert H1. apply preserves_bind.
      * apply republish_inbox.
      * intros _ s' Hs'. by apply answer_inbox.
  - destruct (negb _); [done|]. by destruct (existsb _ _).
  - cbn [snd]. by destruct (_ =? _).
  - destruct (List.find _ _); [|done]. by destruct (negb _).
Qed.

Lemma handle_inbox n d : preserves (inbox_is n) (handle (E:=E) d).
Proof.
  intros s Hs. unfold handle. destruct (dg_bytes d) as [|b bs] eqn:Eb; [done|]. rewrite <- Eb.
  destruct (is_extension b).
  - destruct (ext_decode _) as [[seed src|ep seed]|e]; cbn [handle_extension]; [| |done].
    + destruct (negb _); [done|]. by destruct (bool_decide _).
    + destruct (negb _); [done|]. destruct (negb _); [done|]. destruct (ep =? 0); [done|].
      destruct (announced_match_start s); [by destruct (bool_decide _)|done].
  - destruct (IPT_BASE <=? b).
    + destruct (internal_decode _); [by apply handle_internal_inbox|done].
    + unfold handle_game. destruct (msg_decode _) as [f|]; [|done]. cbn [snd]. by destruct (msg f).
Qed.

(** With more fuel than pending datagrams the loop ends because the transport
    is empty (or failed), never because of the fuel. *)
Lemma recv_loop_drains fuel s :
  (t_inbox (transport s) < fuel)%nat ->
  (forall k, recv_loop (E:=E) (fuel + k) s = recv_loop fuel s) /\
  (fst (recv_loop (E:=E) fuel s) = Ok tt -> t_inbox (transport (snd (recv_loop (E:=E) fuel s))) = 0%nat).
Proof.
  revert s; induction fuel as [|fuel IH]; intros s Hf; [lia|]. cbn [Nat.add recv_loop].
  destruct (t_recv (transport s)) as [[[d|]|e] t] eqn:Er.
  - apply t_recv_some in Er. unfold bind.
    pose proof (handle_inbox (t_inbox t) d (set_transport t s) eq_refl) as Hh.
    destruct (handle d (set_transport t s)) as [[[]|e] s1]; cbn [snd fst] in *; [|by split].
    unfold inbox_is in Hh. apply IH. lia.
  - apply t_recv_none in Er. by split.
  - by split.
Qed.

(** [poll] terminates with the transport drained: the receive loop's
    result does not depend on the iteration bound, and a poll that succeeds
    has handled every pending datagram. *)
Theorem poll_drains (now : Z) (s : Session T) :
  (forall k, recv_loop (E:=E) (S (t_inbox (transport s)) + k) s =
             recv_loop (S (t_inbox (transport s))) s) /\
  (fst (poll (E:=E) now s) = Ok tt -> t_inbox (transport (snd (poll (E:=E) now s))) = 0%nat).
Proof.
  split; [apply recv_loop_drains; lia|].
  unfold poll, bind, modify. destruct (greet_fresh _) as [[[]|e] s1]; cbn [fst snd]; [|done].
  destruct (pulse s1) as [[[]|e] s2]; cbn [fst snd]; [|done].
  destruct (transport_poll s2) as [[[]|e] s3]; cbn [fst snd]; [|done].
  destruct (recv_loop_drains (S (t_inbox (transport s3))) s3 ltac:(lia)) as [_ Hd].
  destruct (recv_loop _ s3) as [[[]|e] s4]; cbn [fst snd] in *; [|done].
  intros _. specialize (Hd eq_refl). unfold fire_all_ready, reap_timeouts.
  set (q := fold_left _ _ _). assert (Hq : transport q = transport s4) by apply fold_forget_transport.
  destruct (_ && _)%bool; [cbn; by rewrite Hq|]. destruct (negb _); cbn; by rewrite Hq.
Qed.

(** ** The turn store *)

Definition store_ok (s : Session T) : Prop :=
  bt_sorted (turns s) /\ forall k m, bt_get k (turns s) = Some m -> bt_sorted m.

Lemma store_package_ok p s : store_ok s -> store_ok (store_package p s).
Proof.
  intros [Hs Hm]. unfold store_package, store_ok. cbn. split; [by apply bt_insert_sorted|].
  intros k m. rewrite bt_get_insert by done. destruct (k =? tp_stamp p); [|by apply Hm].
  intros [= <-]. apply bt_insert_sorted. destruct (bt_get (tp_stamp p) (turns s)) eqn:Eg; cbn; [by eapply Hm|constructor].
Qed.

Lemma handle_store d s : store_ok s -> store_ok (snd (handle (E:=E) d s)).
Proof.
  intros Hs. destruct (handle_cases d s) as [(f' & r' & ->)|[[(_ & _ & Ht) _]|[(a & b & _ & _ & ->)|
    [(a & b & _ & _ & _ & _ & _ & ->)|(b & bs & f & _ & _ & _ & ->)]]]]; try done.
  - unfold store_ok in *. by rewrite Ht.
  - destruct (msg f); try done. by apply (store_package_ok (mkTurnPackage _ _ _) s).
Qed.

Lemma send_turns d b s : turns (snd (send (E:=E) d b s)) = turns s.
Proof. unfold send. by destruct (t_send d b (transport s)). Qed.

Lemma exec_store o s : store_ok s -> store_ok (exec o s).
Proof.
  intros Hs. assert (Hsend : forall d b s, store_ok s -> store_ok (snd (send (E:=E) d b s))).
  { clear. intros d b s Hs. unfold store_ok in *. by rewrite send_turns. }
  destruct o; cbn [exec]; try (by apply Hsend).
  - apply (poll_keeps store_ok); try done. intros; by apply handle_store.
  - unfold start_match. destruct (negb _); [done|]. destruct (_ =? 0); [done|].
    destruct (negb _); [done|]. destruct (announced_match_start s) as [c|]; [by destruct (_ && _)%bool|].
    pose proof (Hsend All (ext_encode (MatchStart epoch seed) []) s Hs) as H1.
    by destruct (send All _ s) as [[[]|e] s1].
  - unfold send_command_package. destruct (_ <? _)%nat; [done|]. unfold send_all.
    pose proof (Hsend All (msg_encode (CommandPackage stamp play payload) []) s Hs) as H1.
    destruct (send All _ s) as [[[]|e] s1]; [by apply (store_package_ok (mkTurnPackage _ _ _))|done].
  - unfold take_turn. destruct (bt_get stamp (turns s)) eqn:Eg; [|done]. destruct Hs as [H1 H2].
    split; cbn [snd set_turns turns]; [by apply bt_remove_sorted|].
    intros k m. rewrite bt_get_remove by done. destruct (k =? stamp); [done|]. by apply H2.
  - done.
  - split; [constructor|by intros k m].
  - done.
Qed.

Lemma reachable_store s : reachable s -> store_ok s.
Proof.
  induction 1 as [t r nm|o s Hs IH|t s Hs IH]; [|by apply exec_store|done].
  split; [constructor|by intros k m].
Qed.

Lemma package_for_turn_store p s stamp play :
  store_ok s ->
  package_for_turn stamp play (store_package p s) =
  if (stamp =? tp_stamp p) && (play =? tp_play p) then Some p else package_for_turn stamp play s.
Proof.
  intros [Hs Hm]. unfold package_for_turn, store_package. cbn [set_turns turns].
  rewrite bt_get_insert by done. destruct (Z.eqb_spec stamp (tp_stamp p)) as [->|]; [|done]. cbn [mbind option_bind andb].
  assert (Hd : bt_sorted (default [] (bt_get (tp_stamp p) (turns s)))).
  { destruct (bt_get (tp_stamp p) (turns s)) eqn:Eg; cbn; [by eapply Hm|constructor]. }
  rewrite bt_get_insert by done. destruct (play =? tp_play p); [done|].
  by destruct (bt_get (tp_stamp p) (turns s)).
Qed.

(** The local package is stored only if it was sent: an oversized payload
    or a failing transport leaves the turn store as it was, and success makes
    exactly this package the one for its stamp and slot. *)
Theorem send_command_package_atomic (stamp play : Z) (payload : bytes) (s : Session T) :
  reachable s ->
  let '(res, s') := send_command_package (E:=E) stamp play payload s in
  match res with
  | Err (InvalidInput n) => (512 < n)%nat /\ s' = s
  | Err (STransport _) => turns s' = turns s
  | Ok _ => (length payload <= 512)%nat /\
      forall st pl, package_for_turn st pl s' =
        if (st =? stamp) && (pl =? play) then Some (mkTurnPackage stamp play payload)
        else package_for_turn st pl s
  end.
Proof.
  intros Hs%reachable_store. unfold send_command_package, MAX_COMMAND_PACKAGE_PAYLOAD.
  destruct (Nat.ltb_spec 512 (length payload)); [done|].
  unfold send_all. pose proof (send_frame All (msg_encode (CommandPackage stamp play payload) []) s) as F.
  destruct (send All _ s) as [[[]|e] s1]; cbn [snd] in F; rewrite F; [|done]. split; [done|].
  intros st pl. apply (package_for_turn_store (mkTurnPackage stamp play payload) (set_transport (transport s1) s)).
  exact Hs.
Qed.
End Proofs.

(** ** Witnesses over the loop transport *)

Definition demo : Session LoopTransport := new (E:=unit) (LoopTransport.new 101) Host [0x68].

Lemma session_roster_invariant_witness :
  NoDup (ids (players (exec (E:=unit) (OpPoll 5) demo))).
Proof. apply (session_roster_invariant (E:=unit)). apply reachable_op. apply reachable_new. Defined.

Lemma refusal_changes_nothing_witness :
  snd (handle (E:=unit) (mkDatagram 9 [136; 1]) demo) = push_event (SetupRefused 9 ReadyBeforeAdd) demo.
Proof. apply (refusal_changes_nothing (mkDatagram 9 [136; 1]) demo 9 ReadyBeforeAdd). reflexivity. Defined.

Lemma protocols_separate_witness :
  turns (snd (handle (E:=unit) (mkDatagram 9 [136; 1]) demo)) = turns demo.
Proof.
  refine (proj1 (proj1 (protocols_separate (E:=unit) (mkDatagram 9 [136; 1]) demo 136 [1] _) _));
    [reflexivity|unfold IPT_BASE; lia].
Defined.

Lemma match_start_once_witness :
  let s := snd (start_match (E:=unit) 3 77 (exec (E:=unit) (OpReadyFlag true) demo)) in
  announced_match_start (exec (E:=unit) (OpStartMatch 4 78) s) = Some (mkAnnouncedMatchStart 101 3 77).
Proof.
  intros s. apply (match_start_once (E:=unit) s (OpStartMatch 4 78) (mkAnnouncedMatchStart 101 3 77));
    [vm_compute; reflexivity|discriminate].
Defined.

Lemma send_command_package_atomic_witness :
  fst (send_command_package (E:=unit) 4 0 [0x0c] demo) = Ok tt /\
  package_for_turn 4 0 (snd (send_command_package (E:=unit) 4 0 [0x0c] demo)) = Some (mkTurnPackage 4 0 [0x0c]).
Proof.
  split; [reflexivity|].
  pose proof (send_command_package_atomic (E:=unit) 4 0 [0x0c] demo (reachable_new _ _ _)) as [_ Hp].
  apply Hp.
Defined.

(** The law of the transport holds of the loop, with two datagrams pending. *)
Lemma poll_drains_witness :
  let s := set_transport (mkLoopTransport 101 [mkDatagram 202 [136; 1]; mkDatagram 202 [131]] [(202, [])]) demo in
  t_inbox (transport s) = 2%nat /\ t_inbox (transport (snd (poll (E:=unit) 5 s))) = 0%nat.
Proof.
  intros s. split; [reflexivity|]. apply (proj2 (poll_drains (E:=unit) 5 s)). vm_compute. reflexivity.
Defined.

(** ** Two sessions over the loop *)

(** [settle] of the sources' tests, at the times [ts]: both sessions poll, then
    the loop pumps. *)
Fixpoint settle (ts : list Z) (a b : Session LoopTransport) : Session LoopTransport * Session LoopTransport :=
  match ts with
  | [] => (a, b)
  | now :: ts =>
      let a := snd (poll (E:=unit) now a) in
      let b := snd (poll (E:=unit) now b) in
      let '(ta, tb) := LoopTransport.pump (transport a) (transport b) in
      settle ts (set_transport ta a) (set_transport tb b)
  end.

Definition pair (h c : Z) (nh nc : text) : Session LoopTransport * Session LoopTransport :=
  (new (E:=unit) (LoopTransport.connect c (LoopTransport.new h)) Host nh, new (E:=unit) (LoopTransport.connect h (LoopTransport.new c)) Client nc).

(** Host and client meet, then ready one after the other. *)
Definition handshake (h c : Z) (nh nc : text) (host_first : bool) (ts1 ts2 ts3 : list Z) : Session LoopTransport * Session LoopTransport :=
  let ready := exec (E:=unit) (OpReadyFlag true) in
  let '(a, b) := pair h c nh nc in
  let '(a, b) := settle ts1 a b in
  let '(a, b) := if host_first then settle ts2 (ready a) b else settle ts2 a (ready b) in
  if host_first then settle ts3 a (ready b) else settle ts3 (ready a) b.

(** A session before its first pulse is due, over a loop transport with the one
    peer [peer]: its clock, inbox, queue to the peer, players, events, greeted
    peers, edge flag and announced match start. *)
Definition seat (me peer : Z) (r : Role) (nm : text) (t : Z) (inb : list Datagram) (q : list bytes) (ps : list Player) (es : list Event)
    (ann : list Z) (fired : bool) (ms : option AnnouncedMatchStart) : Session LoopTransport :=
  mkSession (mkLoopTransport me inb [(peer, q)]) r nm ps es [] ann fired t 0 1000 30000 None ms.

Definition early (t : Z) : Prop := 0 <= t < 1000.

Section Seat.
Context (me peer : Z) (r : Role) (nm : text).
#[local] Abbreviation seat := (seat me peer r nm).


Lemma seat_send d b t inb q ps es ann f ms : d = All \/ d = One peer ->
  send (E:=unit) d b (seat t inb q ps es ann f ms) = (Ok tt, seat t inb (q ++ [b]) ps es ann f ms).
Proof.
  intros Hd. unfold send. cbn. unfold LoopTransport.send. cbn.
  assert (bool_decide (d = All) || bool_decide (d = One peer) = true) as ->; [|done].
  destruct Hd as [->| ->]; [done|]. by rewrite (bool_decide_eq_true_2 (One peer = One peer)), orb_true_r.
Qed.

Definition after (x : result unit unit * Session LoopTransport) : result unit unit * Session LoopTransport :=
  match x with (Ok _, s) => (Ok tt, fire_all_ready (reap_timeouts s)) | x => x end.

Lemma poll_after t t0 inb inb' q q' ps es ann ann' f ms :
  early t -> greet_fresh (E:=unit) (seat t inb q ps es ann f ms) = (Ok tt, seat t inb' q' ps es ann' f ms) ->
  poll (E:=unit) t (seat t0 inb q ps es ann f ms) = after (recv_loop (E:=unit) (S (length inb')) (seat t inb' q' ps es ann' f ms)).
Proof.
  intros Ht G. unfold poll, bind at 1, modify at 1. change (set_now_ms t _) with (seat t inb q ps es ann f ms).
  unfold bind at 1. rewrite G. unfold bind at 1, pulse at 1. set (s := seat t inb' q' ps es ann' f ms).
  assert ((pulse_interval_ms s <=? saturating_sub (now_ms s) (last_pulse_sent_ms s)) = false) as ->.
  { cbn. unfold saturating_sub, early in *. apply Z.leb_gt. lia. }
  unfold bind at 1, transport_poll. cbn [t_poll LoopTransport.transport LoopTransport.poll].
  change (set_transport (transport s) s) with s. unfold after, bind. change (t_inbox (transport s)) with (length inb').
  by destruct (recv_loop _ _) as [[]].
Qed.
Lemma poll_greeted t t0 inb q ps es f ms : early t ->
  poll (E:=unit) t (seat t0 inb q ps es [peer] f ms) = after (recv_loop (E:=unit) (S (length inb)) (seat t inb q ps es [peer] f ms)).
Proof. intros Ht. apply poll_after; [done|]. unfold greet_fresh. cbn. by rewrite Z.eqb_refl. Qed.
Lemma poll_greets t t0 inb q ps es f ms : early t ->
  poll (E:=unit) t (seat t0 inb q ps es [] f ms) = after (recv_loop (E:=unit) (S (length inb))
    (seat t inb (q ++ [internal_encode (AddPlayer nm me (bool_decide (r = Host))) []; internal_encode (ReadyFlag (local_ready (seat t inb q ps es [] f ms))) []]) ps es [peer] f ms)).
Proof.
  intros Ht. apply poll_after; [done|]. set (lr := local_ready _).
  change (greet_fresh (seat t inb q ps es [] f ms)) with (greet (E:=unit) nm me (bool_decide (r = Host)) lr [peer] (seat t inb q ps es [] f ms)).
  cbn [greet]. unfold emit_to, bind at 1. rewrite seat_send by auto. unfold bind at 1. rewrite seat_send by auto. by rewrite <- app_assoc.
Qed.



End Seat.

(** ** The handshake *)

Section Meet.
Context (h c : Z) (nh nc : text).
Hypothesis Hh : is_i32 h.
Hypothesis Hc : is_i32 c.
Hypothesis Hh0 : h <> 0.
Hypothesis Hc0 : c <> 0.
Hypothesis Hhc : h <> c.
Hypothesis Hnh : narrow_ok 64 nh.
Hypothesis Hnc : narrow_ok 64 nc.

#[local] Abbreviation host := (seat h c Host nh).
#[local] Abbreviation client := (seat c h Client nc).





Ltac polled := first [rewrite poll_greeted by done | rewrite poll_greets by done]; cbn [map length].







End Meet.



Definition met : Session LoopTransport * Session LoopTransport := handshake 101 202 [0x68] [0x63] true [0; 10; 20] [30; 40] [50; 60; 70].

(** The lockstep gate of the session counts slots, not players: two packages
    from one peer satisfy it while the local player has sent nothing. *)
Example turn_ready_counts_slots :
  let b := snd met in
  let two := mkDatagram 101 (msg_encode (CommandPackage 9 0 []) []) in
  let also := mkDatagram 101 (msg_encode (CommandPackage 9 5 []) []) in
  let b := snd (handle (E:=unit) also (snd (handle (E:=unit) two b))) in
  turn_ready 9 b = true /\ package_for_turn 9 1 b = None /\ length (players b) = 2%nat.
Proof. vm_compute. repeat split; reflexivity. Qed.

(** Host migration is not authenticated: a client can name itself host and
    then announce a game key the other session accepts. *)
Example migrate_host_bypasses_authority :
  let a := fst met in
  let migrate := mkDatagram 202 (internal_encode (MigrateHost 202) []) in
  let key := mkDatagram 202 (ext_encode (GameKey 0x1234 Configured) []) in
  announced_game_key (snd (handle (E:=unit) key a)) = None /\
  announced_game_key (snd (handle (E:=unit) key (snd (handle (E:=unit) migrate a)))) =
    Some (mkAnnouncedGameKey 202 0x1234 Configured).
Proof. vm_compute. split; reflexivity. Qed.
End Session.
