(* ===== verification/BhsOpcode.v ===== *)
(** * The script virtual machine: opcodes

    [crates/don-bhs/src/opcode.rs]: the opcode table with the operand kinds
    of every opcode, and the encoded length of an instruction. *)

From S2P Require Import Prelude.
From Stdlib Require String.
Import (notations) String.
Abbreviation string := String.string.

Definition NUM_OP_CODES : nat := 73.

(** [enum OperandKind]; the constructors carry a prefix. *)
Inductive OperandKind :=
| KNone | KVarRef | KConstIndex | KCodeOffset | KScriptIndex | KFileIndex
| KBuiltinIndex | KArgCount | KTriggerIndex | KTypeTag | KRaw.

(** [struct OpDef]. *)
Record OpDef := mkOpDef {
  od_code : Z; od_name : string; od_operands : list OperandKind; od_handler_va : Z }.

(** The table [OPCODES], in the order of the source. *)
Definition OPCODES_operators : list OpDef := [
  mkOpDef 0x00 "OP_ASSIGN" [] 0x009e10e9;
  mkOpDef 0x01 "OP_EQ_OP" [] 0x009e11e5;
  mkOpDef 0x02 "OP_NE_OP" [] 0x009e11e5;
  mkOpDef 0x03 "OP_ADD_ASSIGN" [] 0x009e10e9;
  mkOpDef 0x04 "OP_ADD" [] 0x009e11e5;
  mkOpDef 0x05 "OP_LESS" [] 0x009e11e5;
  mkOpDef 0x06 "OP_GREA" [] 0x009e11e5;
  mkOpDef 0x07 "OP_LE_OP" [] 0x009e11e5;
  mkOpDef 0x08 "OP_GE_OP" [] 0x009e11e5;
  mkOpDef 0x09 "OP_UNA_NOT" [] 0x009e11bd;
  mkOpDef 0x0a "OP_AND_OP" [] 0x009e11e5;
  mkOpDef 0x0b "OP_OR_OP" [] 0x009e11e5;
  mkOpDef 0x0c "OP_MUL_ASSIGN" [] 0x009e10e9;
  mkOpDef 0x0d "OP_DIV_ASSIGN" [] 0x009e10e9;
  mkOpDef 0x0e "OP_SUB_ASSIGN" [] 0x009e10e9;
  mkOpDef 0x0f "OP_MUL" [] 0x009e11e5;
  mkOpDef 0x10 "OP_DIV" [] 0x009e11e5;
  mkOpDef 0x11 "OP_SUBT" [] 0x009e11e5;
  mkOpDef 0x12 "OP_INC_OP" [] 0x009e1127;
  mkOpDef 0x13 "OP_DEC_OP" [] 0x009e1127].

Definition OPCODES_operators2 : list OpDef := [
  mkOpDef 0x14 "OP_INC_OP_POST" [] 0x009e1159;
  mkOpDef 0x15 "OP_DEC_OP_POST" [] 0x009e1159;
  mkOpDef 0x16 "OP_UNA_NEGA" [] 0x009e11bd;
  mkOpDef 0x17 "OP_POW_OP" [] 0x009e11e5;
  mkOpDef 0x18 "OP_POW_ASSIGN" [] 0x009e10e9;
  mkOpDef 0x19 "OP_MOD_ASSIGN" [] 0x009e10e9;
  mkOpDef 0x1a "OP_LEFT_ASSIGN" [] 0x009e10e9;
  mkOpDef 0x1b "OP_RIGHT_ASSIGN" [] 0x009e10e9;
  mkOpDef 0x1c "OP_AND_ASSIGN" [] 0x009e10e9;
  mkOpDef 0x1d "OP_XOR_ASSIGN" [] 0x009e10e9;
  mkOpDef 0x1e "OP_OR_ASSIGN" [] 0x009e10e9;
  mkOpDef 0x1f "OP_MOD" [] 0x009e11e5;
  mkOpDef 0x20 "OP_LEFT_OP" [] 0x009e11e5;
  mkOpDef 0x21 "OP_RIGHT_OP" [] 0x009e11e5;
  mkOpDef 0x22 "OP_AND_BIT" [] 0x009e11e5;
  mkOpDef 0x23 "OP_XOR_BIT" [] 0x009e11e5;
  mkOpDef 0x24 "OP_OR_BIT" [] 0x009e11e5;
  mkOpDef 0x25 "OP_UNA_TILD" [] 0x009e11bd].

Definition OPCODES_values : list OpDef := [
  mkOpDef 0x26 "OP_PUSH" [KVarRef] 0x009e09e1;
  mkOpDef 0x27 "OP_POP" [] 0x009e0a30;
  mkOpDef 0x28 "OP_CREATE_SIMPLE" [KTypeTag] 0x009e0a64;
  mkOpDef 0x29 "OP_CREATE_ARRAY" [KTypeTag] 0x009e0aa4;
  mkOpDef 0x2a "OP_CREATE_ARRAY_DYN" [KTypeTag] 0x009e0ac2;
  mkOpDef 0x2b "OP_CREATE_ARRAY_INITER" [KRaw; KRaw] 0x009e0b47;
  mkOpDef 0x2c "OP_CREATE_STRUCT" [KRaw; KRaw] 0x009e0b67;
  mkOpDef 0x2d "OP_PUSH_ARRAY_INDEX" [] 0x009e0b87;
  mkOpDef 0x2e "OP_CREATE_ARRAY_INDEX" [] 0x009e0cc3;
  mkOpDef 0x2f "OP_PUSH_STRUCT_FIELD" [KRaw] 0x009e0dc5;
  mkOpDef 0x30 "OP_PUSH_ARRAY_LENGTH" [] 0x009e0e95;
  mkOpDef 0x31 "OP_SET_ARRAY_LENGTH" [] 0x009e0f0c;
  mkOpDef 0x32 "OP_INIT_COPY" [KVarRef] 0x009e0f62;
  mkOpDef 0x33 "OP_INIT" [KVarRef] 0x009e0f99;
  mkOpDef 0x34 "OP_CAST" [KTypeTag] 0x009e1597;
  mkOpDef 0x35 "OP_CAST_BOOL" [] 0x009e14e8].

Definition OPCODES_calls : list OpDef := [
  mkOpDef 0x36 "OP_CALL" [KScriptIndex] 0x009e12e3;
  mkOpDef 0x37 "OP_CALL_INCLUDE" [KScriptIndex; KFileIndex] 0x009e130f;
  mkOpDef 0x38 "OP_CALL_GAME" [KBuiltinIndex] 0x009e1343;
  mkOpDef 0x39 "OP_CALL_GAME_VARIED" [KBuiltinIndex; KArgCount] 0x009e136c;
  mkOpDef 0x3a "OP_CASE" [KConstIndex; KCodeOffset] 0x009e1259;
  mkOpDef 0x3b "OP_BREAK" [] 0x009e087e;
  mkOpDef 0x3c "OP_BIT_SET" [KTriggerIndex] 0x009e1022;
  mkOpDef 0x3d "OP_BIT_UNSET" [KTriggerIndex] 0x009e105f].

Definition OPCODES_control : list OpDef := [
  mkOpDef 0x3e "OP_RETURN" [] 0x009e1545;
  mkOpDef 0x3f "OP_JUMP" [KCodeOffset] 0x009e14c9;
  mkOpDef 0x40 "OP_JUMP_IF" [KCodeOffset] 0x009e139d;
  mkOpDef 0x41 "OP_JUMP_IF_NOT" [KCodeOffset] 0x009e13e5;
  mkOpDef 0x42 "OP_JUMP_IF_SC_TRUE" [KCodeOffset] 0x009e142d;
  mkOpDef 0x43 "OP_JUMP_IF_SC_FALSE" [KCodeOffset] 0x009e1477;
  mkOpDef 0x44 "OP_JUMP_IF_INITED" [KVarRef; KCodeOffset] 0x009e0fca;
  mkOpDef 0x45 "OP_JUMP_IF_BITSET" [KTriggerIndex; KCodeOffset] 0x009e109c;
  mkOpDef 0x46 "OP_MARKER" [] 0x009e0934;
  mkOpDef 0x47 "OP_SCRIPT_MARKER" [KRaw] 0x009e0f82;
  mkOpDef 0x48 "OP_ERROR_TOKEN" [] 0].

Definition OPCODES : list OpDef :=
  OPCODES_operators ++ OPCODES_operators2 ++ OPCODES_values ++ OPCODES_calls ++ OPCODES_control.

(** [decode]: [OPCODES.get(byte)]. *)
Definition decode (byte : Z) : option OpDef := OPCODES !! Z.to_nat byte.

Definition encoded_len (byte : Z) : option nat :=
  (fun d => 1 + 4 * length (od_operands d))%nat <$> decode byte.

Definition OP_POP : Z := 0x27.
Definition OP_EQ_OP : Z := 0x01.
Definition OP_ERROR_TOKEN : Z := 0x48.

(** ** The table *)

Lemma length_OPCODES : length OPCODES = NUM_OP_CODES.
Proof. reflexivity. Qed.

(** The table is dense: entry [n] describes opcode [n]. *)
Lemma OPCODES_dense : map od_code OPCODES = seqZ 0 73.
Proof. reflexivity. Qed.

Lemma decode_code b d : 0 <= b -> decode b = Some d -> od_code d = b.
Proof.
  intros Hb H. unfold decode in H.
  assert (Hl : map od_code OPCODES !! Z.to_nat b = Some (od_code d)) by (by rewrite list_lookup_fmap, H).
  rewrite OPCODES_dense, lookup_seqZ in Hl. lia.
Qed.

Lemma decode_valid b : is_Some (decode b) <-> b <= OP_ERROR_TOKEN.
Proof.
  unfold decode. rewrite lookup_lt_is_Some, length_OPCODES. unfold NUM_OP_CODES, OP_ERROR_TOKEN. lia.
Qed.
