(* ===== verification/BhsDisasm.v ===== *)
(** * The script virtual machine: variable references, disassembler, assembler

    [crates/don-bhs/src/disasm.rs] and [VarRef] of [crates/don-bhs/src/vm.rs].
    The disassembler's error strings are the constructors of [DisasmError]. *)

From S2P Require Import Prelude BhsOpcode.

(** [enum VarRef] of [vm.rs]. *)
Inductive VarRef := Const (i : Z) | Static (i : Z) | Local (i : Z).

#[export] Instance VarRef_eq_dec : EqDecision VarRef.
Proof. solve_decision. Defined.

Definition varref_decode (raw : Z) : VarRef :=
  if negb (Z.land raw 0x20000000 =? 0) then Const (Z.land raw 0xdfffffff)
  else if negb (Z.land raw 0x40000000 =? 0) then Static (Z.land raw 0xbfffffff)
  else Local raw.

Definition varref_encode (r : VarRef) : Z :=
  match r with
  | Const i => Z.lor i 0x20000000
  | Static i => Z.lor i 0x40000000
  | Local i => i
  end.

(** [struct Insn]. *)
Record Insn := mkInsn {
  in_offset : nat; in_op : Z; in_name : string; in_operands : list Z; in_len : nat }.

Inductive DisasmError := BadOpcodeAt (op : Z) (pc : nat) | TruncatedOperand (name : string) (pc : nat).

(** The loop of [disassemble]; every iteration consumes at least one byte. *)
Fixpoint disassemble_loop (fuel : nat) (code : bytes) (pc : nat) (out : list Insn)
    : result DisasmError (list Insn) :=
  match fuel with
  | O => Ok out
  | S fuel =>
      if (pc <? length code)%nat then
        let op := byte_at code pc in
        let? d := ok_or (decode op) (BadOpcodeAt op pc) in
        let n := length (od_operands d) in
        if (length code <? pc + 1 + 4 * n)%nat then Err (TruncatedOperand (od_name d) pc)
        else
          let ops := map (fun i => u32le code (pc + 1 + 4 * i)%nat) (seq 0 n) in
          disassemble_loop fuel code (pc + (1 + 4 * n))%nat
            (out ++ [mkInsn pc op (od_name d) ops (1 + 4 * n)])
      else Ok out
  end.

Definition disassemble (code : bytes) : result DisasmError (list Insn) :=
  disassemble_loop (length code) code 0 [].

(** [asm]: one opcode byte, then each operand as a little-endian [u32]. *)
Definition asm (items : list (Z * list Z)) : bytes :=
  flat_map (fun it => it.1 :: flat_map (to_le 4) it.2) items.

Definition asm_len (items : list (Z * list Z)) : nat :=
  list_sum (map (fun it => 1 + 4 * length it.2)%nat items).

(** ** Specification *)

(** An instruction with the operand count of its opcode and [u32] operands. *)
Definition item_ok (it : Z * list Z) : Prop :=
  is_u8 it.1 /\ Forall is_u32 it.2 /\ encoded_len it.1 = Some (1 + 4 * length it.2)%nat.

#[export] Instance item_ok_dec it : Decision (item_ok it).
Proof. unfold item_ok. apply _. Defined.

Lemma encoded_len_operands op n :
  encoded_len op = Some (1 + 4 * n)%nat <-> exists d, decode op = Some d /\ n = length (od_operands d).
Proof.
  unfold encoded_len. destruct (decode op) as [d|]; [|split; [done|by intros (? & ? & _)]].
  split; [intros [= H]; exists d; split; [done|lia]|by intros (? & [= <-] & ->)].
Qed.

(** What the disassembler reports for a list of items from offset [pc]. *)
Fixpoint listing (pc : nat) (items : list (Z * list Z)) : list Insn :=
  match items with
  | [] => []
  | (op, ops) :: items =>
      mkInsn pc op (default String.EmptyString (od_name <$> decode op)) ops (1 + 4 * length ops)
      :: listing (pc + (1 + 4 * length ops)) items
  end.

(** An index that leaves the tag bits clear. *)
Definition varref_ok (r : VarRef) : Prop :=
  match r with
  | Const i => is_u32 i /\ Z.testbit i 29 = false
  | Static i | Local i => is_u32 i /\ Z.testbit i 29 = false /\ Z.testbit i 30 = false
  end.

(** ** Variable references *)

Lemma land_pow2_test z k : 0 <= k -> (Z.land z (2 ^ k) =? 0) = negb (Z.testbit z k).
Proof.
  intros Hk. destruct (Z.testbit z k) eqn:E; simpl.
  - apply Z.eqb_neq. intros H0. assert (Z.testbit (Z.land z (2 ^ k)) k = true) as H1.
    { by rewrite Z.land_spec, E, Z.pow2_bits_true. }
    by rewrite H0, Z.bits_0 in H1.
  - apply Z.eqb_eq, Z.bits_inj'. intros n Hn. rewrite Z.land_spec, Z.bits_0, Z.pow2_bits_eqb by lia.
    destruct (Z.eqb_spec k n) as [<-|]; [by rewrite E|apply andb_false_r].
Qed.

Lemma testbit_high w z n : in_u w z -> w <= n -> Z.testbit z n = false.
Proof.
  intros Hz Hn. destruct (decide (w < 0)) as [Hw|Hw].
  { unfold in_u in Hz. rewrite Z.pow_neg_r in Hz by lia. lia. }
  rewrite <- (Z.mod_small z (2 ^ w)) by exact Hz. by rewrite Z.mod_pow2_bits_high by lia.
Qed.

(** Clearing one bit of a [u32]. *)
Lemma testbit_mask k n :
  0 <= k < 32 -> 0 <= n -> Z.testbit (Z.lxor (Z.ones 32) (2 ^ k)) n = (n <? 32) && negb (n =? k).
Proof.
  intros Hk Hn. rewrite Z.lxor_spec, Z.testbit_ones_nonneg, Z.pow2_bits_eqb by lia.
  rewrite (Z.eqb_sym k). destruct (Z.ltb_spec n 32), (Z.eqb_spec n k); simpl; lia || done.
Qed.

Lemma clear_set k z :
  0 <= k < 32 -> is_u32 z ->
  Z.lor (Z.land z (Z.lxor (Z.ones 32) (2 ^ k))) (2 ^ k) = Z.lor z (2 ^ k) /\
  (Z.testbit z k = true -> Z.lor z (2 ^ k) = z) /\
  (Z.testbit z k = false -> Z.land (Z.lor z (2 ^ k)) (Z.lxor (Z.ones 32) (2 ^ k)) = z).
Proof.
  intros Hk Hz. repeat split; [|intros Hb..]; apply Z.bits_inj'; intros n Hn;
    rewrite ?Z.lor_spec, ?Z.land_spec, ?Z.lor_spec, ?testbit_mask, ?Z.pow2_bits_eqb by lia;
    rewrite ?(Z.eqb_sym k);
    destruct (Z.eqb_spec n k) as [->|Hne]; rewrite ?Hb, ?orb_true_r, ?orb_false_r, ?andb_false_r; try done;
    destruct (Z.ltb_spec n 32); rewrite ?andb_true_r, ?andb_false_r; try done;
    by rewrite (testbit_high 32 z n).
Qed.

Lemma varref_decode_encode (r : VarRef) : varref_ok r -> varref_decode (varref_encode r) = r.
Proof.
  intros Hr. unfold varref_decode. change 0x20000000 with (2 ^ 29). change 0x40000000 with (2 ^ 30).
  change 0xdfffffff with (Z.lxor (Z.ones 32) (2 ^ 29)). change 0xbfffffff with (Z.lxor (Z.ones 32) (2 ^ 30)).
  rewrite !land_pow2_test, !negb_involutive by lia.
  destruct r as [i|i|i]; cbn [varref_encode varref_ok] in *;
    change 0x20000000 with (2 ^ 29); change 0x40000000 with (2 ^ 30).
  - destruct Hr as [Hi Hb]. rewrite Z.lor_spec, Z.pow2_bits_true, orb_true_r by lia.
    destruct (clear_set 29 i ltac:(lia) Hi) as (_ & _ & H). by rewrite H.
  - destruct Hr as (Hi & Hb & Hc). rewrite !Z.lor_spec, Hb, (Z.pow2_bits_true 30), orb_true_r by lia.
    rewrite Z.pow2_bits_false by lia. cbn [orb].
    destruct (clear_set 30 i ltac:(lia) Hi) as (_ & _ & H). by rewrite H.
  - destruct Hr as (Hi & Hb & Hc). by rewrite Hb, Hc.
Qed.

(** Decoding loses nothing, and an index that fits comes back. *)
Theorem varref_roundtrip (raw : Z) (r : VarRef) :
  is_u32 raw -> varref_ok r ->
  varref_encode (varref_decode raw) = raw /\ varref_decode (varref_encode r) = r.
Proof.
  intros Hraw Hr. split; [|by apply varref_decode_encode]. unfold varref_decode.
  change 0x20000000 with (2 ^ 29). change 0x40000000 with (2 ^ 30).
  change 0xdfffffff with (Z.lxor (Z.ones 32) (2 ^ 29)). change 0xbfffffff with (Z.lxor (Z.ones 32) (2 ^ 30)).
  rewrite !land_pow2_test, !negb_involutive by lia. destruct (Z.testbit raw 29) eqn:E29.
  { cbn [varref_encode]. change 0x20000000 with (2 ^ 29).
    destruct (clear_set 29 raw ltac:(lia) Hraw) as (-> & H & _). by apply H. }
  destruct (Z.testbit raw 30) eqn:E30; [|done].
  cbn [varref_encode]. change 0x40000000 with (2 ^ 30).
  destruct (clear_set 30 raw ltac:(lia) Hraw) as (-> & H & _). by apply H.
Qed.

(** ** The disassembler *)

Lemma length_operands ops : length (flat_map (to_le 4) ops) = (4 * length ops)%nat.
Proof.
  induction ops as [|o ops IH]; [done|]. cbn [flat_map length]. rewrite length_app, length_to_le, IH. lia.
Qed.

Lemma length_asm items : length (asm items) = asm_len items.
Proof.
  induction items as [|[op ops] items IH]; [done|].
  change (asm ((op, ops) :: items)) with (op :: flat_map (to_le 4) ops ++ asm items).
  change (asm_len ((op, ops) :: items)) with (1 + 4 * length ops + asm_len items)%nat.
  cbn [length]. rewrite length_app, length_operands, IH. lia.
Qed.

Lemma operands_read code pc ops :
  drop pc code = ops ->
  forall n, (4 * n <= length ops)%nat -> bytes_ok code ->
  flat_map (to_le 4) (map (fun i => u32le code (pc + 4 * i)%nat) (seq 0 n)) = take (4 * n) ops.
Proof.
  intros <- n Hn Hb. induction n as [|n IH]; [done|].
  rewrite seq_S, map_app, flat_map_app, IH by lia. cbn [map flat_map].
  rewrite app_nil_r, to_le_le_at by (rewrite ?length_drop in *; auto; lia).
  rewrite (take_cut (4 * S n) (4 * n) 4) by lia. rewrite drop_drop. done.
Qed.

Lemma operands_written pre ops post n :
  n = length ops -> Forall is_u32 ops ->
  map (fun i => u32le (pre ++ flat_map (to_le 4) ops ++ post) (length pre + 4 * i)%nat) (seq 0 n) = ops.
Proof.
  intros -> H. revert pre. induction H as [|o ops Ho Hops IH]; intros pre; [done|].
  cbn [length seq map flat_map]. f_equal.
  - rewrite <- app_assoc. apply (le_at_app' 4); [lia|exact Ho].
  - rewrite <- seq_shift, List.map_map.
    specialize (IH (pre ++ to_le 4 o)). rewrite length_app, length_to_le in IH. rewrite <- IH at 2.
    apply map_ext. intros i. rewrite <- !app_assoc. f_equal. lia.
Qed.

Lemma disassemble_loop_complete fuel items pre out :
  Forall item_ok items -> (length (asm items) <= fuel)%nat ->
  disassemble_loop fuel (pre ++ asm items) (length pre) out = Ok (out ++ listing (length pre) items).
Proof.
  intros H. revert fuel pre out. induction H as [|[op ops] items (Ho & Hops & (d & Hd & Hl)%encoded_len_operands) Hit IH];
    intros fuel pre out Hf; cbn [fst snd] in *.
  { cbn [asm flat_map listing]. rewrite !app_nil_r.
    destruct fuel; simpl; [done|]. by rewrite Nat.ltb_irrefl. }
  change (asm ((op, ops) :: items)) with (op :: flat_map (to_le 4) ops ++ asm items) in *.
  cbn [length] in Hf. rewrite length_app, length_operands in Hf. destruct fuel as [|fuel]; [lia|].
  cbn [disassemble_loop]. rewrite length_app. cbn [length]. rewrite length_app, length_operands.
  destruct (Nat.ltb_spec (length pre) (length pre + S (4 * length ops + length (asm items)))); [|lia].
  rewrite byte_at_app, Hd. cbn [ok_or rbind]. rewrite <- Hl.
  destruct (Nat.ltb_spec (length pre + S (4 * length ops + length (asm items)))
              (length pre + 1 + 4 * length ops)); [lia|].
  cbn [listing]. rewrite Hd. cbn [fmap option_fmap option_map default].
  pose proof (operands_written (pre ++ [op]) ops (asm items) _ eq_refl Hops) as W.
  rewrite length_app in W. cbn [length] in W. rewrite <- app_assoc in W. cbn [app] in W. rewrite W.
  specialize (IH fuel (pre ++ op :: flat_map (to_le 4) ops)
                (out ++ [mkInsn (length pre) op (od_name d) ops (1 + 4 * length ops)]) ltac:(lia)).
  rewrite length_app in IH. cbn [length] in IH. rewrite length_operands in IH.
  rewrite <- !app_assoc in IH. cbn [app] in IH. cbn [id].
  replace (length pre + (1 + 4 * length ops))%nat with (length pre + S (4 * length ops))%nat by lia.
  exact IH.
Qed.

Lemma disassemble_loop_sound fuel code pc out insns :
  bytes_ok code -> (length code <= pc + fuel)%nat -> (pc <= length code)%nat ->
  disassemble_loop fuel code pc out = Ok insns ->
  exists items, Forall item_ok items /\ drop pc code = asm items /\ insns = out ++ listing pc items.
Proof.
  intros Hb. revert pc out. induction fuel as [|fuel IH]; intros pc out Hf Hpc H; cbn [disassemble_loop] in H.
  { injection H as <-. exists []. cbn [listing]. rewrite drop_ge, app_nil_r by lia. by repeat constructor. }
  destruct (Nat.ltb_spec pc (length code)) as [Hlt|Hge].
  2:{ injection H as <-. exists []. cbn [listing]. rewrite drop_ge, app_nil_r by lia. by repeat constructor. }
  destruct (decode (byte_at code pc)) as [d|] eqn:Hd; [|done]. cbn [ok_or rbind] in H.
  set (n := length (od_operands d)) in *.
  destruct (Nat.ltb_spec (length code) (pc + 1 + 4 * n)); [done|].
  apply IH in H as (items & Hit & Hdrop & ->); [|lia..].
  set (ops := map _ _) in *.
  assert (Hlo : length ops = n) by (unfold ops; by rewrite length_map, length_seq).
  exists ((byte_at code pc, ops) :: items). split; [|split].
  - constructor; [|done]. split; [by apply byte_at_ok|]. cbn [snd fst]. split.
    + apply Forall_map, List.Forall_forall. intros i _. by apply (le_at_ok 4).
    + apply encoded_len_operands. exists d. by rewrite Hlo.
  - change (asm ((byte_at code pc, ops) :: items))
      with ([byte_at code pc] ++ flat_map (to_le 4) ops ++ asm items).
    rewrite <- Hdrop, byte_drop_cons by lia.
    unfold ops. rewrite (operands_read code (pc + 1) _ eq_refl n) by (rewrite ?length_drop; auto; lia).
    rewrite <- (take_drop 1 (drop pc code)) at 1. f_equal. rewrite drop_drop.
    rewrite <- (take_drop (4 * n) (drop (pc + 1) code)) at 1. f_equal. rewrite drop_drop. f_equal. lia.
  - cbn [listing]. rewrite Hd, Hlo. cbn [fmap option_fmap option_map default id]. by rewrite <- app_assoc.
Qed.

(** The linear sweep accepts exactly the code the assembler writes: code that
    disassembles is the assembly of well-formed instructions, and the listing
    gives each of them its offset, name, operands and length; and every list
    of well-formed instructions assembles to code that disassembles to it. *)
Theorem disassemble_exact (code : bytes) (insns : list Insn) :
  bytes_ok code ->
  disassemble code = Ok insns <->
  exists items, Forall item_ok items /\ code = asm items /\ insns = listing 0 items.
Proof.
  intros Hb. unfold disassemble. split.
  - intros H. apply disassemble_loop_sound in H as (items & ? & E & ->); [|done|lia..].
    exists items. by rewrite drop_0 in E.
  - intros (items & Hit & -> & ->). by apply (disassemble_loop_complete _ items [] []).
Qed.

Definition demo_items : list (Z * list Z) :=
  [(0x26, [varref_encode (Local 0)]); (0x26, [varref_encode (Const 2)]); (0x04, []); (0x38, [7]); (0x3e, [])].

Lemma disassemble_exact_witness :
  disassemble (asm demo_items) = Ok (listing 0 demo_items) /\
  map in_offset (listing 0 demo_items) = [0; 5; 10; 11; 16]%nat.
Proof.
  split; [|reflexivity]. apply (disassemble_exact (asm demo_items)); [by apply (bool_decide_unpack _); vm_compute|].
  exists demo_items. split; [|done].
  by apply (bool_decide_unpack _); vm_compute.
Defined.

Lemma varref_roundtrip_witness :
  varref_encode (varref_decode 0x40000007) = 0x40000007 /\ varref_decode (varref_encode (Const 2)) = Const 2.
Proof. apply varref_roundtrip; [unfold in_u; lia|]. repeat split; unfold in_u; lia. Defined.
