(* ===== verification/BhsStd.v ===== *)
(** * The script virtual machine: numbers and text of the standard library

    What [crates/don-bhs] uses of [f32], [i32] and [str].  An [f32] is a
    [spec_float] of 24 bits of precision and exponent bound 128, so all NaNs
    are one value.  Three routines are interface operations ([StdLib]): the
    precision of [f32::powf] is unspecified, [str::to_lowercase] is a Unicode
    table, and the shortest decimal of [f32::to_string] is a printer. *)

From S2P Require Import Prelude NetText.
From Stdlib Require Export SpecFloat.

Abbreviation f32 := spec_float.

Definition f32_add : f32 -> f32 -> f32 := SFadd 24 128.
Definition f32_sub : f32 -> f32 -> f32 := SFsub 24 128.
Definition f32_mul : f32 -> f32 -> f32 := SFmul 24 128.
Definition f32_div : f32 -> f32 -> f32 := SFdiv 24 128.

(** [i as f32]: rounded to nearest, ties to even. *)
Definition f32_of_i32 (i : Z) : f32 := binary_normalize 24 128 i 0 false.
Definition f32_zero : f32 := S754_zero false.
Definition f32_one : f32 := f32_of_i32 1.

(** The integer part of a finite value, toward zero. *)
Definition trunc_Z (m : positive) (e : Z) : Z :=
  if 0 <=? e then Z.pos m * 2 ^ e else Z.pos m / 2 ^ (- e).

(** [f as i32]: toward zero, saturating, NaN to zero. *)
Definition i32_of_f32 (f : f32) : Z :=
  match f with
  | S754_nan | S754_zero _ => 0
  | S754_infinity s => if s then I32_MIN else I32_MAX
  | S754_finite s m e =>
      Z.max I32_MIN (Z.min I32_MAX (if s then - trunc_Z m e else trunc_Z m e))
  end.

(** [f32::trunc]. *)
Definition f32_trunc (f : f32) : f32 :=
  match f with
  | S754_finite s m e =>
      if 0 <=? e then f
      else binary_normalize 24 128 (if s then - trunc_Z m e else trunc_Z m e) 0 s
  | _ => f
  end.

(** [f32::from_bits]. *)
Definition f32_of_bits (b : Z) : f32 :=
  let s := Z.testbit b 31 in
  let e := b / 2 ^ 23 mod 256 in
  let m := b mod 2 ^ 23 in
  if e =? 0 then match m with Z.pos p => S754_finite s p (-149) | _ => S754_zero s end
  else if e =? 255 then (if m =? 0 then S754_infinity s else S754_nan)
  else match m + 2 ^ 23 with Z.pos p => S754_finite s p (e - 150) | _ => S754_nan end.

Class StdLib := {
  powf : f32 -> f32 -> f32;
  to_lowercase : text -> text;
  f32_to_string : f32 -> text }.

(** ** Text *)

Definition digit (c : Z) : option Z := if between 0x30 0x39 c then Some (c - 0x30) else None.

(** A non-empty run of decimal digits, to its end. *)
Fixpoint digits_value (acc : Z) (s : text) : option Z :=
  match s with
  | [] => Some acc
  | c :: s => d ← digit c; digits_value (10 * acc + d) s
  end.

(** An optional leading sign. *)
Definition split_sign (s : text) : bool * text :=
  match s with
  | 0x2D :: r => (true, r)
  | 0x2B :: r => (false, r)
  | _ => (false, s)
  end.

(** [str::parse::<i32>]: an optional sign, then digits; [None] on anything
    else and on overflow. *)
Definition parse_i32 (s : text) : option Z :=
  let '(neg, ds) := split_sign s in
  match ds with
  | [] => None
  | _ => v ← digits_value 0 ds;
         let v := if neg then - v else v in
         if bool_decide (is_i32 v) then Some v else None
  end.

(** [i32::to_string]; ten digits are enough for a 32-bit magnitude. *)
Fixpoint dec_loop (fuel : nat) (n : Z) (acc : text) : text :=
  match fuel with
  | O => acc
  | S fuel =>
      let acc := 0x30 + n mod 10 :: acc in
      if n / 10 =? 0 then acc else dec_loop fuel (n / 10) acc
  end.
Definition i32_to_string (i : Z) : text :=
  if i <? 0 then 0x2D :: dec_loop 10 (- i) [] else dec_loop 10 i [].

(** [char::is_whitespace] and [str::trim]. *)
Definition is_whitespace (c : Z) : bool :=
  between 0x09 0x0D c || (c =? 0x20) || (c =? 0x85) || (c =? 0xA0) || (c =? 0x1680)
  || between 0x2000 0x200A c || (c =? 0x2028) || (c =? 0x2029) || (c =? 0x202F) || (c =? 0x205F)
  || (c =? 0x3000).
Fixpoint trim_start (s : text) : text :=
  match s with c :: r => if is_whitespace c then trim_start r else s | [] => [] end.
Definition trim (s : text) : text := reverse (trim_start (reverse (trim_start s))).

(** [to_ascii_lowercase] and [eq_ignore_ascii_case]. *)
Definition ascii_lower (c : Z) : Z := if between 0x41 0x5A c then c + 0x20 else c.
Definition eq_ignore_ascii_case (a b : text) : bool :=
  bool_decide (map ascii_lower a = map ascii_lower b).

(** [str]'s order: UTF-8 bytes compare as the characters do. *)
Fixpoint text_lt (a b : text) : bool :=
  match a, b with
  | _, [] => false
  | [], _ :: _ => true
  | x :: a, y :: b => (x <? y) || ((x =? y) && text_lt a b)
  end.

(** The longest run of digits: its value, its length and the rest. *)
Fixpoint digit_run (acc : Z) (n : nat) (s : text) : Z * nat * text :=
  match s with
  | c :: r => match digit c with Some d => digit_run (10 * acc + d) (S n) r | None => (acc, n, s) end
  | [] => (acc, n, s)
  end.

(** [m * 10^e], correctly rounded. *)
Definition f32_of_decimal (s : bool) (m e : Z) : f32 :=
  match m with
  | Z.pos p =>
      if 0 <=? e then binary_normalize 24 128 ((if s then -1 else 1) * (m * 10 ^ e)) 0 s
      else let '(q, ez, l) := SFdiv_core_binary 24 128 m 0 (10 ^ (- e)) 0 in
           binary_round_aux 24 128 s q ez l
  | _ => S754_zero s
  end.

(** [str::parse::<f32>]. *)
Definition parse_exponent (s : text) : option Z :=
  match s with
  | [] => Some 0
  | c :: r =>
      if ascii_lower c =? 0x65 then
        let '(neg, r) := split_sign r in
        match digit_run 0 0 r with
        | (v, S _, []) => Some (if neg : bool then - v else v)
        | _ => None
        end
      else None
  end.
Definition parse_f32 (t : text) : option f32 :=
  let '(s, r) := split_sign t in
  let w := map ascii_lower r in
  if bool_decide (w = [0x69; 0x6E; 0x66]) || bool_decide (w = [0x69; 0x6E; 0x66; 0x69; 0x6E; 0x69; 0x74; 0x79])
  then Some (S754_infinity s)
  else if bool_decide (w = [0x6E; 0x61; 0x6E]) then Some S754_nan
  else
    let '(m, n, r) := digit_run 0 0 r in
    let '(m, k, r) := match r with 0x2E :: r => digit_run m 0 r | _ => (m, O, r) end in
    if (n + k =? 0)%nat then None
    else e ← parse_exponent r; Some (f32_of_decimal s m (e - Z.of_nat k)).

(** ** Printing and parsing integers *)

Lemma digit_char d : 0 <= d < 10 -> digit (0x30 + d) = Some d.
Proof.
  intros. unfold digit. rewrite between_true by lia. f_equal. lia.
Qed.

Lemma dec_loop_value fuel n acc :
  0 <= n < 10 ^ Z.of_nat fuel -> digits_value 0 (dec_loop fuel n acc) = digits_value n acc.
Proof.
  revert n acc. induction fuel as [|fuel IH]; intros n acc Hn; cbn [dec_loop].
  { rewrite Z.pow_0_r in Hn. by replace n with 0 by lia. }
  rewrite Nat2Z.inj_succ, Z.pow_succ_r in Hn by lia.
  pose proof (Z.div_mod n 10 ltac:(lia)) as Hdm. pose proof (Z.mod_pos_bound n 10 ltac:(lia)) as Hm.
  assert (Hstep : digits_value (n / 10) (0x30 + n mod 10 :: acc) = digits_value n acc).
  { cbn [digits_value]. rewrite digit_char by lia. cbn. f_equal. lia. }
  destruct (Z.eqb_spec (n / 10) 0) as [E|E].
  - by rewrite <- Hstep, E.
  - rewrite IH, Hstep; [done|]. split; [apply Z.div_pos; lia|]. apply Z.div_lt_upper_bound; lia.
Qed.

Lemma dec_loop_head fuel n acc :
  0 <= n -> exists d s, dec_loop (S fuel) n acc = (0x30 + d) :: s /\ 0 <= d < 10.
Proof.
  revert n acc. induction fuel as [|fuel IH]; intros n acc Hn; cbn [dec_loop].
  - pose proof (Z.mod_pos_bound n 10 ltac:(lia)). destruct (n / 10 =? 0); eauto.
  - destruct (n / 10 =? 0); [pose proof (Z.mod_pos_bound n 10 ltac:(lia)); eauto|].
    apply IH, Z.div_pos; lia.
Qed.

Lemma parse_i32_to_string i : is_i32 i -> parse_i32 (i32_to_string i) = Some i.
Proof.
  intros Hi. unfold parse_i32, i32_to_string.
  assert (Hb : bool_decide (is_i32 i) = true) by (by apply bool_decide_eq_true).
  destruct (Z.ltb_spec i 0).
  - destruct (dec_loop_head 9 (- i) [] ltac:(lia)) as (d & s & E & Hd).
    pose proof (dec_loop_value 10 (- i) [] ltac:(ranges; lia)) as V. rewrite E in V |- *.
    cbn [split_sign]. rewrite V. cbn -[is_i32]. rewrite Z.opp_involutive, Hb. done.
  - destruct (dec_loop_head 9 i [] ltac:(lia)) as (d & s & E & Hd).
    pose proof (dec_loop_value 10 i [] ltac:(ranges; lia)) as V. rewrite E in V |- *.
    assert (Hc : split_sign ((0x30 + d) :: s) = (false, (0x30 + d) :: s)).
    { assert (d = 0 \/ d = 1 \/ d = 2 \/ d = 3 \/ d = 4 \/ d = 5 \/ d = 6 \/ d = 7 \/ d = 8 \/ d = 9) as Hc by lia.
      by repeat destruct Hc as [->|Hc]; [..|subst]. }
    rewrite Hc, V. cbn -[is_i32]. by rewrite Hb.
Qed.

Lemma parse_i32_range s i : parse_i32 s = Some i -> is_i32 i.
Proof.
  unfold parse_i32. destruct (split_sign s) as [neg [|c ds]]; [done|].
  destruct (digits_value 0 (c :: ds)) as [v|]; [|done]. cbn. by case_bool_decide; intros [= <-].
Qed.

(** A decimal integer has no space to trim. *)
Lemma trim_digits_ok s : Forall (fun c => is_whitespace c = false) s -> trim s = s.
Proof.
  intros H. assert (T : forall s, Forall (fun c => is_whitespace c = false) s -> trim_start s = s).
  { intros [|c r] Hs; [done|]. inversion_clear Hs as [|?? Hc _]. cbn [trim_start]. by rewrite Hc. }
  unfold trim. rewrite (T s H), T; [apply reverse_involutive|]. by apply Forall_reverse.
Qed.

Lemma i32_to_string_plain i : Forall (fun c => is_whitespace c = false) (i32_to_string i).
Proof.
  assert (D : forall n, 0 <= n mod 10 < 10) by (intros; apply Z.mod_pos_bound; lia).
  assert (W : forall d, 0 <= d < 10 -> is_whitespace (0x30 + d) = false).
  { intros d Hd. assert (d = 0 \/ d = 1 \/ d = 2 \/ d = 3 \/ d = 4 \/ d = 5 \/ d = 6 \/ d = 7 \/ d = 8 \/ d = 9) as Hc by lia.
    by repeat destruct Hc as [->|Hc]; [..|subst]. }
  assert (L : forall fuel n acc, Forall (fun c => is_whitespace c = false) acc ->
            Forall (fun c => is_whitespace c = false) (dec_loop fuel n acc)).
  { induction fuel as [|fuel IH]; intros n acc Ha; cbn [dec_loop]; [done|].
    destruct (n / 10 =? 0); [|apply IH]; constructor; auto. }
  unfold i32_to_string. destruct (i <? 0); [constructor; [done|]|]; by apply L.
Qed.

(** The library cut down to ASCII, for examples. *)
Module AsciiStd.
#[export] Instance ascii_std : StdLib :=
  {| powf a _ := a; to_lowercase := map ascii_lower; f32_to_string _ := [] |}.
End AsciiStd.
