(* ===== verification/SimEconomy.v ===== *)
(** * Income, commerce caps, rate ramps and attrition timing

    [crates/don-sim/src/mechanics.rs], second half.  [None] is a panic; the
    carry loop of [credit_resource] is a loop of at most [2^32] iterations,
    after which an [i32] accumulator has repeated, so not stopping by then is
    not stopping at all.  [f32] is the binary32 of [BhsStd.v]. *)

From S2P Require Import Prelude Loops SimArith SimDamage BhsStd.
#[local] Open Scope i32_scope.
#[local] Open Scope Z_scope.

Module Economy.
Import Mechanics.

Definition div200 (x : Z) : Z := x /t 200.

(** [cvttss2si]: out of range and NaN give [i32::MIN]. *)
Definition two31 : f32 := f32_of_bits 0x4f000000.
Definition cvttss2si (x : f32) : Z :=
  match x with
  | S754_nan => I32_MIN
  | _ => if SFleb two31 x || SFltb x (SFopp two31) then I32_MIN else i32_of_f32 x
  end.

(** [struct EconomyRules]. *)
Record EconomyRules := mkEconomyRules {
  gather_rate : Z; dutch_interest : Z; dutch_interest_cap : Z; rules_commerce_cap : list Z;
  egyptian_food_commerce : Z; french_timber_commerce : Z; inca_wealth_cap : Z; british_commerce : Z;
  unit_rate_base : Z; unit_rate_progression : Z; siege_attrition : Z; militia_attrition : Z;
  attrition_aged_up : Z; attrition : Z; assassin_attrition : Z; peace_attrition : Z }.

Definition shipped_economy : EconomyRules :=
  mkEconomyRules 450 5 50 [70; 100; 150; 200; 260; 320; 400; 500] 10 10 33 25 120 75 50 300 25 48 8 8.

Definition RES_FOOD : nat := 0.
Definition RES_TIMBER : nat := 1.
Definition RES_WEALTH : nat := 2.
Definition RES_KNOWLEDGE : nat := 3.

Definition resource_period (gather_rate : Z) : Z := wshl gather_rate 4.

(** [struct ResourceTickInput] and [struct ResourceTick]. *)
Record ResourceTickInput := mkResourceTickInput {
  res : nat; gross : Z; expense : Z; bonus : Z; in_commerce_cap : Z; stockpile : Z; interest_threshold : Z;
  interest_applies : bool; gather_bonus_pct : Z; difficulty : Z; game_flag_0x20_bit1 : bool;
  game_flag_0x2a_is_9 : bool; game_speed : Z }.
Record ResourceTick := mkResourceTick { displayed : Z; accumulated : option Z }.

(** Interest on the surplus, with its limit and the global ceiling. *)
Definition with_interest (i : ResourceTickInput) (r : EconomyRules) (income : Z) : Z :=
  let surplus := stockpile i -w interest_threshold i in
  let income :=
    if 0 <? surplus then
      let income := income +w wshl (div100 (dutch_interest r *w surplus)) 4 in
      let limit := wshl (dutch_interest_cap r) 4 +w in_commerce_cap i in
      if limit <? income then limit else income
    else income in
  if 0x3E70 <? income then 0x3E70 else income.

(** The multipliers after the displayed value is taken. *)
Definition multiplied (i : ResourceTickInput) (income : Z) : Z :=
  let income := if negb (gather_bonus_pct i =? 0) then div100 ((gather_bonus_pct i +w 100) *w income) else income in
  let income :=
    if (res i =? RES_KNOWLEDGE)%nat && (1 <? difficulty i) && (4 <? difficulty i) then
      if difficulty i <? 7 then income *w 3 /t 4 else income /t 2
    else income in
  let income := if game_flag_0x20_bit1 i || game_flag_0x2a_is_9 i then income *w 3 /t 2 else income in
  if 1 <? game_speed i then income *w game_speed i else income.

Definition resource_tick (i : ResourceTickInput) (r : EconomyRules) : ResourceTick :=
  let income := gross i -w expense i +w bonus i in
  if income <? 0 then mkResourceTick income None
  else
    let income := if in_commerce_cap i <? income then in_commerce_cap i else income in
    let income := if interest_applies i then with_interest i r income else income in
    mkResourceTick income (Some (multiplied i income)).

(** The carry loop: the state is [whole] and the accumulator. *)
Definition drain_body (period : Z) (s : Z * Z) : (Z * Z) + (Z * Z) :=
  let '(whole, acc) := s in
  if period <=? acc then inl (whole +w 1, acc -w period) else inr (whole, acc).

Definition credit_resource (income period acc : Z) : option (Z * Z) :=
  whole ← idiv income period;
  match iter_until (2 ^ 32)%positive (drain_body period) (whole, acc +w Z.rem income period) with
  | inr s => Some s
  | inl _ => None
  end.

(** [struct CommerceCapGates] and [commerce_cap]; the age is bounds-checked. *)
Record CommerceCapGates := mkCommerceCapGates { british : bool; resource_civ : bool }.

Definition commerce_cap (age res : nat) (r : EconomyRules) (g : CommerceCapGates) (wonder_bonus : Z) : option Z :=
  if (res =? RES_KNOWLEDGE)%nat then Some 999
  else if negb (age <? 8)%nat then None
  else
    cap ← rules_commerce_cap r !! age;
    let cap := if british g then div100 ((british_commerce r +w 100) *w cap) else cap in
    let civ_pct :=
      if (res =? RES_WEALTH)%nat then inca_wealth_cap r
      else if (res =? RES_TIMBER)%nat then french_timber_commerce r
      else if (res =? RES_FOOD)%nat then egyptian_food_commerce r
      else 0 in
    let cap := if negb (civ_pct =? 0) && resource_civ g then div100 ((civ_pct +w 100) *w cap) else cap in
    Some (cap +w wonder_bonus).

Definition ramped_rate (x count job_extra_time : Z) (r : EconomyRules) : Z :=
  let base := div100 (x *w unit_rate_base r) in
  let ramp := count *w job_extra_time *w unit_rate_progression r in
  let ceiling := base *w 3 in
  let v := ramp +w base in
  if (v <? 0) || (ceiling <? 0) then 0 else if ceiling <? v then ceiling else v.

Definition rate_after_game_option (v pct : Z) : Z := div200 ((200 -w pct) *w v).
Definition cost_ramp_ceiling (base_cost ramp_max_pct : Z) : Z := div100 (ramp_max_pct *w base_cost).
Definition clamp_cost_to_ramp_ceiling (cost ceiling : Z) : Z :=
  if negb (ceiling =? 0) && (ceiling <? cost) then ceiling else cost.

(** [struct AttritionPredicates] and [struct AttritionInput]. *)
Record AttritionPredicates := mkAttritionPredicates {
  siege_class : bool; has_ability_0x42 : bool; owner_prop_0x2fe : bool; unit_immune : bool }.
Record AttritionInput := mkAttritionInput {
  attrition_level : Z; unit_type_id : Z; unit_domain : Z; owner_attrition_mult : f32;
  attacker_age : Z; unit_owner_age : Z }.

(** The age-adjusted level. *)
Definition aged_level (i : AttritionInput) (r : EconomyRules) : Z :=
  let age_diff := attacker_age i -w unit_owner_age i in
  if 0 <=? age_diff then div100 ((attrition_aged_up r *w age_diff +w 100) *w attrition_level i +w 99)
  else attrition_level i.

Definition attrition_interval_scale (i : AttritionInput) (p : AttritionPredicates) (r : EconomyRules) : option Z :=
  if attrition_level i =? 0 then Some 0
  else if attrition r =? 0 then Some 0
  else if siege_class p && (100 <=? siege_attrition r) then Some 0
  else
    v ← (if siege_class p then (if 100 -w siege_attrition r =? 0 then None else Some (25600 /t (100 -w siege_attrition r)))
         else Some 0x100);
    vo ← (if has_ability_0x42 p then Some <$> idiv (v *w 100) (militia_attrition r +w 100)
          else
            let v := cvttss2si (f32_mul (f32_mul (f32_of_i32 v) (owner_attrition_mult i)) (f32_of_bits 0x3b800000)) in
            Some (if owner_prop_0x2fe p && unit_immune p then None else Some v));
    match vo with
    | None => Some 0
    | Some v =>
        let v := if (unit_type_id i =? 0x3D) || (unit_type_id i =? 0x3E) || (unit_type_id i =? 0x190) then v /t 2 else v in
        let v := if unit_domain i =? 2 then v /t 2 else v in
        idiv v (aged_level i r)
    end.

Definition attrition_period_frames (attrition_rule interval_scale : Z) : Z :=
  let t := div256 (attrition_rule *w interval_scale) in if 1 <? t then t else 1.

Definition merge_attrition_period (existing candidate : Z) : Z :=
  if (existing =? 0) || (candidate <? existing) then i16 candidate else existing.

(** [idiv_rem_trapping]. *)
Definition idiv_rem (num den : Z) : option Z :=
  if (den =? 0) || ((num =? I32_MIN) && (den =? -1)) then None else Some (Z.rem num den).

Definition attrition_fires (frame phase period : Z) : option bool :=
  if period =? 0 then Some false
  else m ← idiv_rem (frame +w phase) period; Some (m =? 0).

Definition attrition_recompute_due (frame phase : Z) : bool := Z.rem (frame +w phase) 32 =? 0.


(** ** Crediting income *)

(** The loop of [credit_resource] on an accumulator that is not negative. *)
Lemma drain_ends period whole acc :
  0 < period -> 0 <= acc <= I32_MAX -> is_i32 (whole + acc / period) -> is_i32 whole ->
  iter_until (2 ^ 32)%positive (drain_body period) (whole, acc) = inr (whole + acc / period, acc mod period).
Proof.
  intros Hp Ha Hw Hw0. set (fin := (whole + acc / period, acc mod period)).
  pose proof (iter_until_count
    (fun n s => 0 <= n /\ n * period <= acc /\ s = (whole + n, acc - n * period))
    (fun s => s = fin) (drain_body period) (2 ^ 32)) as C.
  assert (Step : forall n s, (0 <= n /\ n * period <= acc /\ s = (whole + n, acc - n * period)) ->
    match drain_body period s with
    | inl s' => 0 <= n + 1 /\ (n + 1) * period <= acc /\ s' = (whole + (n + 1), acc - (n + 1) * period)
    | inr r => r = fin
    end).
  { intros n s (Hn & Hle & ->). cbn [drain_body]. destruct (Z.leb_spec period (acc - n * period)) as [Hge|Hlt].
    - assert (n + 1 <= acc / period) by (apply Z.div_le_lower_bound; lia).
      unfold in_s, I32_MAX in *. rewrite wadd_small, wsub_small by (unfold in_s; lia). split; [lia|]. split; [lia|]. f_equal; lia.
    - unfold fin. assert (acc / period = n) as -> by (symmetry; apply Z.div_unique with (acc - n * period); lia).
      f_equal. symmetry. rewrite Z.mod_eq by lia. assert (acc / period = n) as -> by (symmetry; apply Z.div_unique with (acc - n * period); lia). lia. }
  specialize (C Step 0 (whole, acc)). destruct (iter_until _ _ _) as [s'|s'].
  - destruct C as (? & C & _); [split; [lia|]; split; [lia|]; f_equal; lia|]. unfold I32_MAX in Ha. nia.
  - f_equal. apply C. split; [lia|]. split; [lia|]. f_equal; lia.
Qed.

(** Crediting loses nothing: what was accumulated plus this frame's income is
    split into whole resources and a carry below the period. *)
Lemma credit_resource_exact income period acc :
  0 < period -> 0 <= income -> 0 <= acc -> acc + income <= I32_MAX ->
  credit_resource income period acc = Some ((acc + income) / period, (acc + income) mod period).
Proof.
  intros Hp Hi Ha Hm. unfold credit_resource. unfold I32_MAX in Hm.
  assert (E : idiv income period = Some (income / period)).
  { unfold idiv. replace ((period =? 0) || ((income =? I32_MIN) && (period =? -1))) with false by lia.
    by rewrite Z.quot_div_nonneg by lia. }
  rewrite E. cbn [mbind option_bind]. rewrite Z.rem_mod_nonneg by lia.
  pose proof (Z.mod_pos_bound income period Hp). pose proof (Z.mod_le income period Hi Hp).
  pose proof (Z.div_le_upper_bound income period income Hp ltac:(nia)). pose proof (Z.div_pos income period Hi Hp).
  rewrite wadd_small by (unfold in_s; lia).
  assert (Ed : income / period + (acc + income mod period) / period = (acc + income) / period).
  { rewrite (Z.div_mod income period) at 3 by lia.
    replace (acc + (period * (income / period) + income mod period)) with ((acc + income mod period) + income / period * period) by lia.
    rewrite Z.div_add by lia. lia. }
  pose proof (Z.div_le_upper_bound (acc + income) period (acc + income) Hp ltac:(nia)).
  pose proof (Z.div_pos (acc + income) period ltac:(lia) Hp).
  rewrite drain_ends; [|done|unfold I32_MAX; lia|rewrite Ed; unfold in_s; lia|unfold in_s; lia].
  rewrite Ed. by rewrite Zplus_mod_idemp_r.
Qed.

(** A run of frames: the credited total, and the accumulator after it. *)
Fixpoint credit_frames (period : Z) (incomes : list Z) (acc : Z) : option (Z * Z) :=
  match incomes with
  | [] => Some (0, acc)
  | income :: incomes =>
      '(whole, acc) ← credit_resource income period acc;
      '(rest, acc) ← credit_frames period incomes acc;
      Some (whole + rest, acc)
  end.

Definition total (l : list Z) : Z := fold_right Z.add 0 l.

(** (C33) Over any run of frames with incomes that are not negative and, with the
    period added, within an [i32], from an accumulator below the period, a player
    is credited exactly the incomes' sum divided by the period, and the
    accumulator holds the remainder: nothing is lost to rounding. *)
Theorem income_conserved period incomes acc :
  0 < period -> 0 <= acc < period -> Forall (fun x => 0 <= x /\ period + x <= I32_MAX) incomes ->
  credit_frames period incomes acc = Some ((acc + total incomes) / period, (acc + total incomes) mod period).
Proof.
  intros Hp Ha Hi. revert acc Ha. induction Hi as [|x l Hx _ IH]; intros acc Ha; cbn [credit_frames total fold_right].
  { rewrite Z.add_0_r, Z.div_small, Z.mod_small by lia. done. }
  rewrite credit_resource_exact by lia. cbn [mbind option_bind].
  pose proof (Z.mod_pos_bound (acc + x) period Hp). rewrite IH by lia. cbn [mbind option_bind]. fold (total l).
  assert (Z.div (acc + x) period * period + (acc + x) mod period = acc + x) by (pose proof (Z.div_mod (acc + x) period); lia).
  do 2 f_equal.
  - replace (acc + (x + total l)) with (((acc + x) mod period + total l) + (acc + x) / period * period) by lia.
    rewrite Z.div_add by lia. lia.
  - rewrite Zplus_mod_idemp_l. f_equal. lia.
Qed.

(** What the tick shows and accumulates: negative income is shown and not
    accumulated; otherwise the commerce cap bounds what is shown, but for
    interest, and then the global ceiling does. *)
Theorem resource_tick_spec i r :
  let income := gross i -w expense i +w bonus i in
  (income < 0 -> resource_tick i r = mkResourceTick income None) /\
  (0 <= income ->
     accumulated (resource_tick i r) = Some (multiplied i (displayed (resource_tick i r))) /\
     (interest_applies i = false -> displayed (resource_tick i r) = Z.min income (in_commerce_cap i)) /\
     (interest_applies i = true -> displayed (resource_tick i r) <= 0x3E70)).
Proof.
  intros income. unfold resource_tick. fold income. split.
  - intros H. by destruct (Z.ltb_spec income 0); [|lia].
  - intros H. destruct (Z.ltb_spec income 0); [lia|]. cbn [displayed accumulated]. split; [done|]. split; intros ->.
    + destruct (Z.ltb_spec (in_commerce_cap i) income); lia.
    + unfold with_interest. match goal with |- (if ?c <? ?x then _ else _) <= _ => destruct (Z.ltb_spec c x); lia end.
Qed.

(** ** Attrition *)

Lemma attrition_fires_spec frame phase period :
  0 < period -> is_i32 (frame + phase) ->
  attrition_fires frame phase period = Some ((frame + phase) mod period =? 0).
Proof.
  intros Hp Hr. unfold attrition_fires. destruct (Z.eqb_spec period 0); [lia|].
  rewrite wadd_small by done. unfold idiv_rem.
  replace ((period =? 0) || ((frame + phase =? I32_MIN) && (period =? -1))) with false by lia. cbn [mbind option_bind]. f_equal.
  apply Bool.eq_iff_eq_true. rewrite !Z.eqb_eq, Z.rem_divide, Z.mod_divide by lia. done.
Qed.

(** Attrition ticks exactly once in every period: among any [period]
    consecutive frames, whatever the unit's phase, there is exactly one on
    which it fires. *)
Theorem attrition_once_per_period frame phase period :
  0 < period -> is_i32 (frame + phase) -> is_i32 (frame + phase + period) ->
  exists k, 0 <= k < period /\ attrition_fires (frame + k) phase period = Some true /\
    forall k', 0 <= k' < period -> attrition_fires (frame + k') phase period = Some true -> k' = k.
Proof.
  intros Hp H1 H2. unfold in_s in *.
  set (k := (- (frame + phase)) mod period). pose proof (Z.mod_pos_bound (- (frame + phase)) period Hp) as Hk. fold k in Hk.
  assert (Fire : forall j, 0 <= j < period ->
    attrition_fires (frame + j) phase period = Some ((frame + j + phase) mod period =? 0)).
  { intros j Hj. apply attrition_fires_spec; [done|]. unfold in_s. lia. }
  assert (Dk : (frame + k + phase) mod period = 0).
  { unfold k. replace (frame + _ + phase) with (frame + phase + (- (frame + phase)) mod period) by lia.
    rewrite Zplus_mod_idemp_r. replace (frame + phase + - (frame + phase)) with 0 by lia. apply Z.mod_0_l. lia. }
  exists k. split; [done|]. split; [rewrite Fire by done; by rewrite Dk|].
  intros k' Hk'. rewrite Fire by done. intros [= D%Z.eqb_eq%Z.mod_divide]; [|lia]. apply Z.mod_divide in Dk; [|lia].
  assert ((period | k' - k)) as [q Hq].
  { replace (k' - k) with ((frame + k' + phase) - (frame + k + phase)) by lia. by apply Z.divide_sub_r. }
  assert (q = 0) by nia. lia.
Qed.

(** Merging sources keeps the fastest: from no period, the merged period is
    the least of the candidates, in whatever order they come. *)
Theorem merged_period_least candidates c :
  Forall (fun x => 1 <= x <= 32767) (c :: candidates) ->
  let m := fold_left merge_attrition_period (c :: candidates) 0 in
  In m (c :: candidates) /\ Forall (fun x => m <= x) (c :: candidates).
Proof.
  intros Hc. apply Forall_cons in Hc as [Hc Hl]. cbn [fold_left].
  assert (M0 : merge_attrition_period 0 c = c) by (unfold merge_attrition_period; cbn; apply wrap_s_id; [lia|unfold in_s; lia]).
  rewrite M0. clear M0. revert c Hc. induction Hl as [|x l Hx _ IH]; intros c Hc; cbn [fold_left].
  { split; [by left|]. constructor; [lia|constructor]. }
  assert (M : merge_attrition_period c x = Z.min c x).
  { unfold merge_attrition_period. destruct (Z.eqb_spec c 0); [lia|]. destruct (Z.ltb_spec x c); cbn [orb].
    - rewrite wrap_s_id by (unfold in_s; lia). lia.
    - lia. }
  rewrite M. destruct (IH (Z.min c x)) as [Hin Hle]; [lia|]. apply Forall_cons in Hle as [Hm Hle]. split.
  - destruct Hin as [<-|Hin]; [|by right; right]. destruct (Z.min_spec c x) as [[_ ->]|[_ ->]]; [by left|by right; left].
  - constructor; [lia|]. constructor; [lia|done].
Qed.

(** A period is at least one frame, and the rule's own number of frames at
    scale 1.0. *)
Lemma attrition_period_pos rule scale : 1 <= attrition_period_frames rule scale.
Proof. unfold attrition_period_frames. destruct (Z.ltb_spec 1 (div256 (rule *w scale))); lia. Qed.
Lemma attrition_period_unit rule : 1 <= rule <= 0x7fffff -> attrition_period_frames rule 0x100 = rule.
Proof.
  intros Hr. unfold attrition_period_frames, div256. rewrite wmul_small by (unfold in_s; lia).
  rewrite Z.quot_mul by lia. destruct (Z.ltb_spec 1 rule); lia.
Qed.

(** ** Caps and ramps *)

(** The ramp is clamped: the result is between 0 and three times the base. *)
Lemma ramped_rate_bounds x count extra r :
  0 <= ramped_rate x count extra r /\
  (0 <= div100 (x *w unit_rate_base r) *w 3 -> ramped_rate x count extra r <= div100 (x *w unit_rate_base r) *w 3).
Proof.
  unfold ramped_rate. destruct (_ || _) eqn:E; [split; lia|]. apply orb_false_iff in E as [E1 E2].
  match goal with |- context [if ?a <? ?b then _ else _] => destruct (Z.ltb_spec a b) end; split; lia.
Qed.

(** Knowledge has the fixed cap; another resource needs an age of the table. *)
Lemma commerce_cap_cases age res r g w :
  length (rules_commerce_cap r) = 8%nat ->
  (res = RES_KNOWLEDGE -> commerce_cap age res r g w = Some 999) /\
  (res <> RES_KNOWLEDGE -> (commerce_cap age res r g w = None <-> (8 <= age)%nat)).
Proof.
  intros Hl. unfold commerce_cap. split; [by intros ->|]. intros Hr. apply Nat.eqb_neq in Hr. rewrite Hr.
  destruct (Nat.ltb_spec age 8); cbn [negb]; [|by split].
  destruct (lookup_lt_is_Some_2 (rules_commerce_cap r) age) as [c ->]; [lia|]. cbn. split; [done|lia].
Qed.

(** ** Examples *)

Lemma income_conserved_witness : credit_frames 7200 [5000; 5000; 5000] 100 = Some (2, 700).
Proof.
  change (Some (2, 700)) with (Some ((100 + total [5000; 5000; 5000]) / 7200, (100 + total [5000; 5000; 5000]) mod 7200)).
  apply (income_conserved 7200); [lia|lia|]. repeat constructor; unfold I32_MAX; lia.
Defined.

Lemma attrition_once_per_period_witness :
  exists k, 0 <= k < 48 /\ attrition_fires (1000 + k) 7 48 = Some true.
Proof.
  destruct (attrition_once_per_period 1000 7 48) as (k & Hk & Hf & _); [lia|unfold in_s; lia|unfold in_s; lia|].
  by exists k.
Defined.

Lemma merged_period_least_witness : fold_left merge_attrition_period [48; 8; 20] 0 = 8.
Proof.
  destruct (merged_period_least [8; 20] 48) as [Hin Hle]; [repeat constructor; lia|]. vm_compute. reflexivity.
Defined.

(** With a rate that wraps to [i32::MIN] the carry loop does not stop. *)
Lemma drain_min_never_stops p whole acc :
  is_i32 acc -> exists s, iter_until p (drain_body I32_MIN) (whole, acc) = inl s.
Proof.
  intros Ha.
  pose proof (iter_until_count (fun _ s => is_i32 (snd s)) (fun _ => False) (drain_body I32_MIN) p) as C.
  assert (Step : forall (n : Z) (s : Z * Z), is_i32 (snd s) -> match drain_body I32_MIN s with inl s' => is_i32 (snd s') | inr _ => False end).
  { intros _ [w a] Hs. cbn [snd drain_body] in *. unfold in_s, I32_MIN in *. destruct (Z.leb_spec (-2147483648) a); [|lia].
    apply wsub_i32. }
  specialize (C (fun n s => Step n s) 0 (whole, acc) Ha). destruct (iter_until p _ _) as [s|]; [by exists s|done].
Qed.
End Economy.
