(* ===== verification/CcLex.v ===== *)
(** * The script compiler: lexer

    [crates/don-bhs-cc/src/lex.rs].  A [char] is its code point; the lexer is
    the source still to read with the position of its next character.  An
    outcome is [None] when the code would panic or a loop's bound is reached
    (neither happens, [lex_total]), and otherwise the [Result] the code
    returns.  Diagnostics are constructors, not their text, and line and
    column are unbounded. *)

From S2P Require Import Prelude NetText BhsStd.
From Stdlib Require Import Ascii.

(** The code point of an ASCII character. *)
Notation "'ch' c" :=
  (ltac:(let v := eval vm_compute in (Z.of_N (Ascii.N_of_ascii c%char)) in exact v)) (at level 10, c at level 9, only parsing).

(** [char::is_ascii_digit] and its kin. *)
Definition is_ascii_digit (c : Z) : bool := between 0x30 0x39 c.
Definition is_ascii_alphabetic (c : Z) : bool := between 0x41 0x5A c || between 0x61 0x7A c.
Definition is_ascii_alphanumeric (c : Z) : bool := is_ascii_alphabetic c || is_ascii_digit c.
Definition is_ascii_hexdigit (c : Z) : bool := is_ascii_digit c || between 0x41 0x46 c || between 0x61 0x66 c.

(** [str::from_utf8]: well-formed exactly when decoding loses nothing. *)
Definition from_utf8 (bs : bytes) : option text :=
  let s := from_utf8_lossy bs in if bool_decide (as_bytes s = bs) then Some s else None.

Record Pos := mkPos { line : Z; col : Z }.

(** [enum P]. *)
Inductive P :=
  | LParen | RParen | LBrace | RBrace | LBrack | RBrack | Semi | Comma | Dot | Colon
  | Assign | AddAssign | SubAssign | MulAssign | DivAssign | ModAssign | PowAssign | LeftAssign | RightAssign
  | AndAssign | XorAssign | OrAssign
  | Eq | Ne | Lt | Gt | Le | Ge
  | Plus | Minus | Star | Slash | Percent | Pow
  | AndAnd | OrOr | Not | Amp | Pipe | Caret | Tilde | Shl | Shr
  | Inc | Dec.
#[export] Instance P_eq_dec : EqDecision P.
Proof. solve_decision. Defined.

Definition as_str (p : P) : text :=
  match p with
  | LParen => [ch "("] | RParen => [ch ")"] | LBrace => [ch "{"] | RBrace => [ch "}"] | LBrack => [ch "["] | RBrack => [ch "]"]
  | Semi => [ch ";"] | Comma => [ch ","] | Dot => [ch "."] | Colon => [ch ":"]
  | Assign => [ch "="] | AddAssign => [ch "+"; ch "="] | SubAssign => [ch "-"; ch "="] | MulAssign => [ch "*"; ch "="]
  | DivAssign => [ch "/"; ch "="] | ModAssign => [ch "%"; ch "="] | PowAssign => [ch "*"; ch "*"; ch "="]
  | LeftAssign => [ch "<"; ch "<"; ch "="] | RightAssign => [ch ">"; ch ">"; ch "="]
  | AndAssign => [ch "&"; ch "="] | XorAssign => [ch "^"; ch "="] | OrAssign => [ch "|"; ch "="]
  | Eq => [ch "="; ch "="] | Ne => [ch "!"; ch "="] | Lt => [ch "<"] | Gt => [ch ">"]
  | Le => [ch "<"; ch "="] | Ge => [ch ">"; ch "="]
  | Plus => [ch "+"] | Minus => [ch "-"] | Star => [ch "*"] | Slash => [ch "/"] | Percent => [ch "%"] | Pow => [ch "*"; ch "*"]
  | AndAnd => [ch "&"; ch "&"] | OrOr => [ch "|"; ch "|"] | Not => [ch "!"] | Amp => [ch "&"] | Pipe => [ch "|"]
  | Caret => [ch "^"] | Tilde => [ch "~"] | Shl => [ch "<"; ch "<"] | Shr => [ch ">"; ch ">"]
  | Inc => [ch "+"; ch "+"] | Dec => [ch "-"; ch "-"]
  end.

(** [enum Tok] and [struct Token]. *)
Inductive Tok :=
  | Ident (s : text)
  | Int (v : Z)
  | Real (v : f32)
  | Str (s : text)
  | LocStr (s : text)
  | Punct (p : P)
  | Eof.
Record Token := mkToken { tok : Tok; tpos : Pos }.

Inductive LexMsg :=
  | UnterminatedComment | UnterminatedString | UnknownDollar (name : text) | DollarParen | DollarString | DollarOpen
  | HexEmpty | HexRange (hex : text) | BadReal (s : text) | IntRange (s : text) | UnexpectedChar (c : Z).
Record LexError := mkLexError { le_pos : Pos; le_msg : LexMsg }.

Definition decode_source (bs : bytes) : text :=
  match from_utf8 bs with Some s => s | None => bs end.

(** ** The lexer *)

(** Panicking or unbounded, failing, or done. *)
Definition outcome (E A : Type) : Type := option (result E A).
Definition obind {E A B} (c : outcome E A) (k : A -> outcome E B) : outcome E B :=
  match c with
  | None => None
  | Some (Err e) => Some (Err e)
  | Some (Ok x) => k x
  end.
Definition done {E A} (x : A) : outcome E A := Some (Ok x).
Definition fail {E A} (e : E) : outcome E A := Some (Err e).

Declare Scope outcome_scope.
Delimit Scope outcome_scope with outcome.
Notation "'run!' x := c 'in' k" := (obind c (fun x => k)) (at level 10, x name, k at level 200) : outcome_scope.
Notation "'run!' ' p := c 'in' k" := (obind c (fun p => k)) (at level 10, p strict pattern, k at level 200) : outcome_scope.
#[local] Open Scope outcome_scope.

(** [struct Lexer]: [src[i..]], and line and column. *)
Record Lexer := mkLexer { src : text; pos : Pos }.

(** The position after a character. *)
Definition after (c : Z) (p : Pos) : Pos :=
  if c =? 10 then mkPos (line p + 1) 1 else mkPos (line p) (col p + 1).

Definition peek (l : Lexer) : option Z := head (src l).
Definition peek_at (n : nat) (l : Lexer) : option Z := src l !! n.
Definition bump (l : Lexer) : option Z * Lexer :=
  match src l with
  | [] => (None, l)
  | c :: r => (Some c, mkLexer r (after c (pos l)))
  end.
Definition err {A} (p : Pos) (m : LexMsg) : outcome LexError A := fail (mkLexError p m).
(** [peek_at(n) == Some(c)], and the [matches!] tests. *)
Definition next_is (c : Z) (o : option Z) : bool := match o with Some d => d =? c | None => false end.
Definition next_sat (f : Z -> bool) (o : option Z) : bool := match o with Some d => f d | None => false end.

Definition is_ident_start (c : Z) : bool := is_ascii_alphabetic c || (c =? ch "_").
Definition is_ident_continue (c : Z) : bool := is_ascii_alphanumeric c || (c =? ch "_").

(** The [while let Some(c) = self.peek()] loops that read while [ok]. *)
Fixpoint scan (ok : Z -> bool) (s : text) (p : Pos) : text * Lexer :=
  match s with
  | [] => ([], mkLexer [] p)
  | c :: r => if ok c then let '(t, l) := scan ok r (after c p) in (c :: t, l) else ([], mkLexer s p)
  end.
Definition scan_while (ok : Z -> bool) (l : Lexer) : text * Lexer := scan ok (src l) (pos l).

(** The loop of a block comment, after its [/*]. *)
Fixpoint block_comment (start : Pos) (s : text) (p : Pos) : outcome LexError Lexer :=
  match s with
  | [] => err start UnterminatedComment
  | c :: r =>
      match r with
      | d :: r' => if (c =? ch "*") && (d =? ch "/") then done (mkLexer r' (after d (after c p)))
                   else block_comment start r (after c p)
      | [] => block_comment start r (after c p)
      end
  end.

Fixpoint skip_trivia (fuel : nat) (l : Lexer) : outcome LexError Lexer :=
  match fuel with
  | O => None
  | S fuel =>
      match peek l with
      | None => done l
      | Some c =>
          if is_whitespace c then skip_trivia fuel (snd (bump l))
          else if (c =? ch "/") && next_is (ch "/") (peek_at 1 l) then
            skip_trivia fuel (snd (scan_while (fun c => negb (c =? 10)) l))
          else if (c =? ch "/") && next_is (ch "*") (peek_at 1 l) then
            let start := pos l in
            let l := snd (bump (snd (bump l))) in
            run! l := block_comment start (src l) (pos l) in skip_trivia fuel l
          else done l
      end
  end.
(** One round per character is enough. *)
Definition skip (l : Lexer) : outcome LexError Lexer := skip_trivia (S (length (src l))) l.

Definition ident (l : Lexer) : Tok * Lexer := let '(s, l) := scan_while is_ident_continue l in (Ident s, l).

(** What an escaped character stands for. *)
Definition escaped (c : Z) : text :=
  if c =? ch "n" then [10] else if c =? ch "t" then [9] else if c =? ch "r" then [13] else if c =? ch "0" then [0]
  else if c =? ch "\" then [ch "\"] else if c =? 0x22 then [0x22] else [ch "\"; c].

(** The loop of [string], after the opening quote. *)
Fixpoint string_body (start : Pos) (s : text) (p : Pos) : outcome LexError (text * Lexer) :=
  match s with
  | [] => err start UnterminatedString
  | c :: r =>
      if c =? 0x22 then done ([], mkLexer r (after c p))
      else if c =? ch "\" then
        match r with
        | [] => err start UnterminatedString
        | e :: r => run! '(t, l) := string_body start r (after e (after c p)) in done (escaped e ++ t, l)
        end
      else run! '(t, l) := string_body start r (after c p) in done (c :: t, l)
  end.
Definition string (start : Pos) (l : Lexer) : outcome LexError (text * Lexer) :=
  let l := snd (bump l) in string_body start (src l) (pos l).

Definition dollar (p : Pos) (l : Lexer) : outcome LexError (Tok * Lexer) :=
  let l := snd (bump l) in
  let '(name, l) := scan_while is_ident_continue l in
  if negb (bool_decide (name = [ch "S"])) then err p (UnknownDollar name)
  else
    run! l := skip l in
    if negb (next_is (ch "(") (peek l)) then err p DollarParen
    else
      run! l := skip (snd (bump l)) in
      let spos := pos l in
      if negb (next_is 0x22 (peek l)) then err spos DollarString
      else
        run! '(s, l) := string spos l in
        run! l := skip l in
        if negb (next_is (ch ")") (peek l)) then err (pos l) DollarOpen
        else done (LocStr s, snd (bump l)).

(** [u32::from_str_radix(_, 16)]. *)
Definition hex_digit (c : Z) : Z :=
  if is_ascii_digit c then c - 0x30 else if between 0x41 0x46 c then c - 0x37 else c - 0x57.
Definition hex_value (s : text) : Z := fold_left (fun acc c => 16 * acc + hex_digit c) s 0.
Definition parse_hex_u32 (s : text) : option Z := if hex_value s <? 2 ^ 32 then Some (hex_value s) else None.
(** [str::parse::<i64>] of digits. *)
Definition parse_i64 (s : text) : option Z :=
  match s with
  | [] => None
  | _ => v ← digits_value 0 s; if v <? 2 ^ 63 then Some v else None
  end.

(** The digits loop: what is read, and whether it had a point. *)
Fixpoint number_run (is_real : bool) (s : text) (p : Pos) : text * bool * Lexer :=
  match s with
  | [] => ([], is_real, mkLexer [] p)
  | c :: r =>
      if is_ascii_digit c then
        let '(t, b, l) := number_run is_real r (after c p) in (c :: t, b, l)
      else if (c =? ch ".") && negb is_real && (next_sat is_ascii_digit (head r) || negb (next_sat is_ident_start (head r))) then
        let '(t, b, l) := number_run true r (after c p) in (c :: t, b, l)
      else ([], is_real, mkLexer s p)
  end.

Definition number (p : Pos) (l : Lexer) : outcome LexError (Tok * Lexer) :=
  if next_is (ch "0") (peek l) && (next_is (ch "x") (peek_at 1 l) || next_is (ch "X") (peek_at 1 l)) then
    let '(hex, l) := scan_while is_ascii_hexdigit (snd (bump (snd (bump l)))) in
    match hex with
    | [] => err p HexEmpty
    | _ => match parse_hex_u32 hex with
           | Some v => done (Int (i32 v), l)
           | None => err p (HexRange hex)
           end
    end
  else
    let '(s, is_real, l) := number_run false (src l) (pos l) in
    if is_real then match parse_f32 s with Some v => done (Real v, l) | None => err p (BadReal s) end
    else match parse_i64 s with Some v => done (Int v, l) | None => err p (IntRange s) end.

Definition if_next (c : Z) (yes no : P) (l : Lexer) : P * Lexer :=
  if next_is c (peek l) then (yes, snd (bump l)) else (no, l).
(** The [match self.peek()] of an operator with two longer forms. *)
Definition if_next2 (c1 : Z) (k1 : Lexer -> P * Lexer) (c2 : Z) (yes2 no : P) (l : Lexer) : P * Lexer :=
  if next_is c1 (peek l) then k1 (snd (bump l))
  else if next_is c2 (peek l) then (yes2, snd (bump l))
  else (no, l).

Definition punct (p : Pos) (l : Lexer) : outcome LexError (P * Lexer) :=
  match bump l with
  | (None, _) => None
  | (Some c, l) =>
      if c =? ch "(" then done (LParen, l) else if c =? ch ")" then done (RParen, l)
      else if c =? ch "{" then done (LBrace, l) else if c =? ch "}" then done (RBrace, l)
      else if c =? ch "[" then done (LBrack, l) else if c =? ch "]" then done (RBrack, l)
      else if c =? ch ";" then done (Semi, l) else if c =? ch "," then done (Comma, l)
      else if c =? ch "." then done (Dot, l) else if c =? ch ":" then done (Colon, l)
      else if c =? ch "=" then done (if_next (ch "=") Eq Assign l)
      else if c =? ch "!" then done (if_next (ch "=") Ne Not l)
      else if c =? ch "+" then done (if_next2 (ch "+") (pair Inc) (ch "=") AddAssign Plus l)
      else if c =? ch "-" then done (if_next2 (ch "-") (pair Dec) (ch "=") SubAssign Minus l)
      else if c =? ch "*" then done (if_next2 (ch "*") (if_next (ch "=") PowAssign Pow) (ch "=") MulAssign Star l)
      else if c =? ch "/" then done (if_next (ch "=") DivAssign Slash l)
      else if c =? ch "%" then done (if_next (ch "=") ModAssign Percent l)
      else if c =? ch "^" then done (if_next (ch "=") XorAssign Caret l)
      else if c =? ch "~" then done (Tilde, l)
      else if c =? ch "&" then done (if_next2 (ch "&") (pair AndAnd) (ch "=") AndAssign Amp l)
      else if c =? ch "|" then done (if_next2 (ch "|") (pair OrOr) (ch "=") OrAssign Pipe l)
      else if c =? ch "<" then done (if_next2 (ch "<") (if_next (ch "=") LeftAssign Shl) (ch "=") Le Lt l)
      else if c =? ch ">" then done (if_next2 (ch ">") (if_next (ch "=") RightAssign Shr) (ch "=") Ge Gt l)
      else err p (UnexpectedChar c)
  end.

(** One token, at a character [c]. *)
Definition token (c : Z) (l : Lexer) : outcome LexError (Tok * Lexer) :=
  let p := pos l in
  if is_ascii_digit c || ((c =? ch ".") && next_sat is_ascii_digit (peek_at 1 l)) then number p l
  else if c =? 0x22 then run! '(s, l) := string p l in done (Str s, l)
  else if c =? ch "$" then dollar p l
  else if is_ident_start c then done (ident l)
  else run! '(q, l) := punct p l in done (Punct q, l).

Fixpoint run (fuel : nat) (l : Lexer) : outcome LexError (list Token) :=
  match fuel with
  | O => None
  | S fuel =>
      run! l := skip l in
      match peek l with
      | None => done [mkToken Eof (pos l)]
      | Some c =>
          run! '(t, l') := token c l in
          run! out := run fuel l' in
          done (mkToken t (pos l) :: out)
      end
  end.

(** One round per character, and one for the end. *)
Definition lex (s : text) : outcome LexError (list Token) := run (S (length s)) (mkLexer s (mkPos 1 1)).
