(* ===== verification/CcLexSpec.v ===== *)
(** * The script compiler: what the lexer guarantees

    The lexer ends on every source, the positions it reports are those of the
    tokens, operators are read by maximal munch, and tokens in any of their
    spellings, with blanks and comments between them where they need any or not,
    read back as the same tokens. *)

From S2P Require Import Prelude NetText BhsStd CcLex.
From Stdlib Require Import Ascii.
#[local] Open Scope outcome_scope.
#[local] Open Scope Z_scope.

(** ** Progress *)

(** The position after reading [t]. *)
Definition advance (t : text) (p : Pos) : Pos := fold_left (fun p c => after c p) t p.

(** [l'] is [l] after reading [t]. *)
Definition moved (l : Lexer) (t : text) (l' : Lexer) : Prop := src l = t ++ src l' /\ pos l' = advance t (pos l).

Lemma advance_app s t p : advance (s ++ t) p = advance t (advance s p).
Proof. apply fold_left_app. Qed.

Lemma moved_nil l : moved l [] l.
Proof. done. Qed.
Lemma moved_trans l1 t1 l2 t2 l3 : moved l1 t1 l2 -> moved l2 t2 l3 -> moved l1 (t1 ++ t2) l3.
Proof. intros [E1 P1] [E2 P2]. split; [by rewrite E1, E2, app_assoc|]. by rewrite advance_app, <- P1. Qed.
Lemma moved_cons c r p t l : moved (mkLexer r (after c p)) t l -> moved (mkLexer (c :: r) p) (c :: t) l.
Proof. intros [E P']. cbn in *. split; [by rewrite E|done]. Qed.
Lemma moved_length l t l' : moved l t l' -> length (src l) = (length t + length (src l'))%nat.
Proof. intros [-> _]. apply length_app. Qed.

Lemma bump_moved l c : peek l = Some c -> moved l [c] (snd (bump l)).
Proof. destruct l as [[|d r] p]; [done|]. intros [= ->]. done. Qed.

Lemma scan_moved ok s p : moved (mkLexer s p) (fst (scan ok s p)) (snd (scan ok s p)).
Proof.
  revert p. induction s as [|c r IH]; intros p; cbn [scan]; [apply moved_nil|]. destruct (ok c); [|apply moved_nil].
  specialize (IH (after c p)). destruct (scan ok r (after c p)) as [t l]. by apply moved_cons.
Qed.
Lemma scan_while_moved ok l : moved l (fst (scan_while ok l)) (snd (scan_while ok l)).
Proof. destruct l as [s p]. apply scan_moved. Qed.

Lemma scan_nonempty ok l c : peek l = Some c -> ok c = true -> fst (scan_while ok l) <> [].
Proof.
  destruct l as [[|d r] p]; [done|]. intros [= ->] H. unfold scan_while. cbn [src scan pos]. rewrite H.
  destruct (scan ok r (after c p)); cbn; discriminate.
Qed.

(** An outcome that is not a panic and, when the code goes on, reads a [t]
    with [Q t]. *)
Definition reads {A} (l : Lexer) (Q : text -> Prop) (c : outcome LexError (A * Lexer)) : Prop :=
  match c with
  | None => False
  | Some (Err _) => True
  | Some (Ok (_, l')) => exists t, moved l t l' /\ Q t
  end.
Definition skips (l : Lexer) (Q : text -> Prop) (c : outcome LexError Lexer) : Prop :=
  match c with
  | None => False
  | Some (Err _) => True
  | Some (Ok l') => exists t, moved l t l' /\ Q t
  end.
Definition any_text (_ : text) : Prop := True.
Definition some_text (t : text) : Prop := t <> [].

Lemma reads_bind {A B} l (Q1 Q : text -> Prop) (c : outcome LexError (A * Lexer)) (k : A * Lexer -> outcome LexError (B * Lexer)) :
  reads l Q1 c -> (forall x l' t, moved l t l' -> Q1 t -> reads l' (fun u => Q (t ++ u)) (k (x, l'))) -> reads l Q (obind c k).
Proof.
  destruct c as [[[x l']|e]|]; cbn; [|done|done]. intros (t & Hm & Hq) H. specialize (H x l' t Hm Hq).
  destruct (k (x, l')) as [[[y l2]|e]|]; cbn in *; [|done|done]. destruct H as (u & Hu & Hq'). exists (t ++ u).
  split; [by eapply moved_trans|done].
Qed.
Lemma skips_bind {B} l (Q1 Q : text -> Prop) (c : outcome LexError Lexer) (k : Lexer -> outcome LexError (B * Lexer)) :
  skips l Q1 c -> (forall l' t, moved l t l' -> Q1 t -> reads l' (fun u => Q (t ++ u)) (k l')) -> reads l Q (obind c k).
Proof.
  destruct c as [[l'|e]|]; cbn; [|done|done]. intros (t & Hm & Hq) H. specialize (H l' t Hm Hq).
  destruct (k l') as [[[y l2]|e]|]; cbn in *; [|done|done]. destruct H as (u & Hu & Hq'). exists (t ++ u).
  split; [by eapply moved_trans|done].
Qed.
Lemma reads_done {A} l (Q : text -> Prop) (x : A) t l' : moved l t l' -> Q t -> reads l Q (done (x, l')).
Proof. intros. by exists t. Qed.

Lemma block_comment_skips start s p : skips (mkLexer s p) any_text (block_comment start s p).
Proof.
  revert p. induction s as [|c r IH]; intros p; cbn [block_comment]; [done|].
  assert (Step : skips (mkLexer (c :: r) p) any_text (block_comment start r (after c p))).
  { specialize (IH (after c p)). destruct (block_comment start r (after c p)) as [[l|e]|]; cbn in *; [|done|done].
    destruct IH as (t & Hm & _). exists (c :: t). split; [by apply moved_cons|done]. }
  destruct r as [|d r']; [done|]. destruct ((c =? 42) && (d =? 47)); [|done]. exists [c; d]. done.
Qed.

Lemma skip_trivia_skips fuel l : (length (src l) < fuel)%nat -> skips l any_text (skip_trivia fuel l).
Proof.
  revert l. induction fuel as [|fuel IH]; intros l Hf; [lia|]. cbn [skip_trivia].
  assert (Go : forall t l', moved l t l' -> t <> [] -> skips l any_text (skip_trivia fuel l')).
  { intros t l' Hm Ht. pose proof (moved_length _ _ _ Hm). destruct t as [|c t]; [done|]. cbn [length] in *.
    assert (skips l' any_text (skip_trivia fuel l')) as S by (apply IH; lia).
    destruct (skip_trivia fuel l') as [[l2|e]|]; cbn in *; [|done|done]. destruct S as (u & Hu & _). exists ((c :: t) ++ u).
    split; [by eapply moved_trans|done]. }
  destruct (peek l) as [c|] eqn:Hc; [|exists []; done].
  destruct (is_whitespace c); [by apply (Go [c]); [apply bump_moved|]|].
  destruct ((c =? 47) && next_is 47 (peek_at 1 l)) eqn:E.
  { apply andb_true_iff in E as [E _]. apply Z.eqb_eq in E as ->. eapply Go; [apply scan_while_moved|]. by eapply scan_nonempty. }
  clear E. destruct ((c =? 47) && next_is 42 (peek_at 1 l)) eqn:E; [|exists []; done].
  apply andb_true_iff in E as [_ E]. destruct l as [[|x [|y r]] p]; [done|done|].
  pose proof (block_comment_skips p r (after y (after x p))) as B. cbn in B |- *.
  destruct (block_comment p r (after y (after x p))) as [[l2|e]|]; cbn [obind]; [|done|done].
  destruct B as (t & Hm & _). apply (Go (x :: y :: t)); [|done]. by do 2 apply moved_cons.
Qed.
Lemma skip_skips l : skips l any_text (skip l).
Proof. apply skip_trivia_skips. lia. Qed.

Lemma string_body_reads start s p : reads (mkLexer s p) any_text (string_body start s p).
Proof.
  enough (H : forall n s p, (length s <= n)%nat -> reads (mkLexer s p) any_text (string_body start s p)) by (by eapply H).
  clear s p. induction n as [|n IH]; intros s p Hn; destruct s as [|c r]; cbn [length] in Hn; try lia; cbn [string_body]; try done.
  destruct (c =? 34); [by exists [c]|]. destruct (c =? 92).
  - destruct r as [|e r]; [done|]. cbn [length] in Hn. specialize (IH r (after e (after c p)) ltac:(lia)).
    destruct (string_body start r _) as [[[t l]|x]|]; cbn in *; [|done|done]. destruct IH as (u & Hu & _).
    exists (c :: e :: u). split; [by do 2 apply moved_cons|done].
  - specialize (IH r (after c p) ltac:(lia)). destruct (string_body start r _) as [[[t l]|x]|]; cbn in *; [|done|done].
    destruct IH as (u & Hu & _). exists (c :: u). split; [by apply moved_cons|done].
Qed.
Lemma string_reads start l c : peek l = Some c -> reads l some_text (string start l).
Proof.
  intros Hc. pose proof (bump_moved l c Hc) as Hb. unfold string. destruct (snd (bump l)) as [s p]. cbn [src pos].
  pose proof (string_body_reads start s p) as H. destruct (string_body start s p) as [[[t l2]|x]|]; cbn in *; [|done|done].
  destruct H as (u & Hu & _). exists ([c] ++ u). split; [by eapply moved_trans|done].
Qed.

Lemma dollar_reads p l c : peek l = Some c -> reads l some_text (dollar p l).
Proof.
  intros Hc. pose proof (bump_moved l c Hc) as Hb. unfold dollar.
  pose proof (scan_while_moved is_ident_continue (snd (bump l))) as Hs.
  destruct (scan_while is_ident_continue (snd (bump l))) as [name l1]. cbn [fst snd] in Hs.
  pose proof (moved_trans _ _ _ _ _ Hb Hs) as H1. destruct (negb _); [done|].
  assert (Start : forall t l', moved l1 t l' -> moved l ([c] ++ name ++ t) l').
  { intros t l' H. rewrite app_assoc. by eapply moved_trans. }
  clear Hs Hb. enough (R : reads l1 any_text (run! l := skip l1 in
    if negb (next_is 40 (peek l)) then err p DollarParen
    else run! l := skip (snd (bump l)) in
      if negb (next_is 34 (peek l)) then err (pos l) DollarString
      else run! '(s, l0) := string (pos l) l in
        run! l1 := skip l0 in
        if negb (next_is 41 (peek l1)) then err (pos l1) DollarOpen else done (LocStr s, snd (bump l1)))).
  { destruct (obind (skip l1) _) as [[[x l2]|e]|]; cbn in *; [|done|done]. destruct R as (t & Hm & _). eexists. split; [by apply Start|done]. }
  eapply skips_bind; [apply skip_skips|]. intros l2 t2 _ _. destruct (peek l2) as [d|] eqn:H2; cbn [next_is]; [|done].
  destruct (d =? 40); cbn [negb]; [|done].
  pose proof (bump_moved l2 d H2) as Hb2. destruct (skip (snd (bump l2))) as [[l3|e]|] eqn:E3; cbn [obind]; [|done|].
  2: { pose proof (skip_skips (snd (bump l2))) as S. by rewrite E3 in S. }
  pose proof (skip_skips (snd (bump l2))) as S. rewrite E3 in S. destruct S as (t3 & Hm3 & _).
  pose proof (moved_trans _ _ _ _ _ Hb2 Hm3) as Hm. destruct (peek l3) as [q|] eqn:H3; cbn [next_is]; [|done].
  destruct (q =? 34); cbn [negb]; [|done].
  assert (R : reads l3 any_text (run! '(s, l0) := string (pos l3) l3 in
    run! l4 := skip l0 in if negb (next_is 41 (peek l4)) then err (pos l4) DollarOpen else done (LocStr s, snd (bump l4)))).
  { eapply reads_bind; [by eapply string_reads|]. intros s l4 t4 _ _. eapply skips_bind; [apply skip_skips|].
    intros l5 t5 _ _. destruct (peek l5) as [z|] eqn:H5; cbn [next_is]; [|done]. destruct (z =? 41); cbn [negb]; [|done].
    eapply reads_done; [by apply bump_moved|done]. }
  destruct (obind (string (pos l3) l3) _) as [[[x l4]|e]|]; cbn in *; [|done|done]. destruct R as (u & Hu & _).
  exists (([d] ++ t3) ++ u). split; [by eapply moved_trans|done].
Qed.

Lemma number_run_moved b s p :
  let '(t, _, l) := number_run b s p in moved (mkLexer s p) t l.
Proof.
  revert b p. induction s as [|c r IH]; intros b p; cbn [number_run]; [apply moved_nil|].
  destruct (is_ascii_digit c).
  { specialize (IH b (after c p)). destruct (number_run b r (after c p)) as [[t b'] l]. by apply moved_cons. }
  destruct (_ && _ && _); [|apply moved_nil].
  specialize (IH true (after c p)). destruct (number_run true r (after c p)) as [[t b'] l]. by apply moved_cons.
Qed.

Lemma number_reads p l c :
  peek l = Some c -> is_ascii_digit c || ((c =? ch ".") && next_sat is_ascii_digit (peek_at 1 l)) = true ->
  reads l some_text (number p l).
Proof.
  intros Hc Hd. unfold number. destruct (next_is 48 (peek l) && _) eqn:E.
  - destruct l as [[|x [|y r]] q]; [done| |].
    { change (peek_at 1 _) with (@None Z) in E. cbn in E. rewrite andb_false_r in E. discriminate. }
    pose proof (scan_while_moved is_ascii_hexdigit (mkLexer r (after y (after x q)))) as Hs. cbn [snd bump src pos].
    destruct (scan_while is_ascii_hexdigit _) as [hex l']. cbn [fst snd] in Hs. destruct hex as [|h hex]; [done|].
    destruct (parse_hex_u32 _); [|done]. eapply (reads_done _ _ _ (x :: y :: h :: hex)); [by do 2 apply moved_cons|done].
  - clear E. destruct l as [[|x r] q]; [done|]. injection Hc as ->. cbn [src pos].
    pose proof (number_run_moved false (c :: r) q) as M.
    assert (N : fst (fst (number_run false (c :: r) q)) <> []).
    { cbn [number_run]. destruct (is_ascii_digit c); [destruct (number_run _ r _) as [[? ?] ?]; cbn; discriminate|]. cbn [orb] in Hd.
      apply andb_true_iff in Hd as [-> Hn]. cbn [negb andb]. assert (next_sat is_ascii_digit (head r) = true) as -> by (by destruct r).
      destruct (number_run _ r _) as [[? ?] ?]; cbn; discriminate. }
    destruct (number_run false (c :: r) q) as [[t b] l']. cbn [fst] in N.
    destruct b; [destruct (parse_f32 t)|destruct (parse_i64 t)]; try done; by eapply reads_done.
Qed.

Lemma if_next_moved c yes no l : exists t, moved l t (snd (if_next c yes no l)).
Proof.
  unfold if_next. destruct (peek l) as [d|] eqn:H; cbn [next_is]; [|exists []; done].
  destruct (d =? c); [|exists []; done]. exists [d]. by apply bump_moved.
Qed.
Lemma if_next2_moved c1 k1 c2 yes no l :
  (forall l', exists t, moved l' t (snd (k1 l'))) -> exists t, moved l t (snd (if_next2 c1 k1 c2 yes no l)).
Proof.
  intros Hk. unfold if_next2. destruct (peek l) as [d|] eqn:H; cbn [next_is]; [|exists []; done].
  pose proof (bump_moved l d H) as Hb. destruct (d =? c1).
  { destruct (Hk (snd (bump l))) as [t Ht]. exists ([d] ++ t). by eapply moved_trans. }
  destruct (d =? c2); [by exists [d]|exists []; done].
Qed.

Lemma punct_reads p l c : peek l = Some c -> reads l some_text (punct p l).
Proof.
  intros Hc. pose proof (bump_moved l c Hc) as Hb. destruct l as [[|x r] q]; [done|]. injection Hc as ->.
  cbn [snd bump src] in Hb. unfold punct, bump. cbn [src pos]. set (l1 := mkLexer r (after c q)) in *.
  assert (K : forall x : P * Lexer, (exists t, moved l1 t (snd x)) -> reads (mkLexer (c :: r) q) some_text (done x)).
  { intros [y l2] [t Ht]. cbn [snd] in Ht. exists ([c] ++ t). split; [by eapply moved_trans|done]. }
  repeat match goal with |- reads _ _ (if ?b then _ else _) => destruct b end; try done; apply K;
    try (exists []; done); try apply if_next_moved; apply if_next2_moved; intros l'; try (exists []; done); apply if_next_moved.
Qed.

Lemma token_reads l c : peek l = Some c -> reads l some_text (token c l).
Proof.
  intros Hc. unfold token. destruct (is_ascii_digit c || _) eqn:E; [by eapply number_reads|]. clear E.
  destruct (c =? 34).
  { eapply reads_bind; [by eapply string_reads|]. intros s l' t _ Ht. eapply (reads_done _ _ _ []); [done|]. by rewrite app_nil_r. }
  destruct (c =? 36); [by eapply dollar_reads|]. destruct (is_ident_start c) eqn:Ei.
  - unfold ident. pose proof (scan_while_moved is_ident_continue l) as Hs.
    assert (N : fst (scan_while is_ident_continue l) <> []).
    { apply (scan_nonempty _ _ c); [done|]. unfold is_ident_start, is_ident_continue, is_ascii_alphanumeric in *. destruct (is_ascii_alphabetic c), (is_ascii_digit c); done. }
    destruct (scan_while is_ident_continue l) as [s l']. by eapply reads_done.
  - eapply reads_bind; [by eapply punct_reads|]. intros s l' t _ Ht. eapply (reads_done _ _ _ []); [done|]. by rewrite app_nil_r.
Qed.

(** ** Totality and positions *)

(** The tokens of [l], one by one: what is read before each, its position and
    its text. *)
Inductive tokens_of (l : Lexer) : list Token -> Prop :=
  | tokens_end blank l' : moved l blank l' -> src l' = [] -> tokens_of l [mkToken Eof (pos l')]
  | tokens_more blank l1 t c l2 out :
      moved l blank l1 -> peek l1 = Some c -> token c l1 = done (t, l2) -> tokens_of l2 out ->
      tokens_of l (mkToken t (pos l1) :: out).

Lemma run_tokens fuel l :
  (length (src l) < fuel)%nat -> exists r, run fuel l = Some r /\ forall out, r = Ok out -> tokens_of l out.
Proof.
  revert l. induction fuel as [|fuel IH]; intros l Hf; [lia|]. cbn [run].
  pose proof (skip_skips l) as S. destruct (skip l) as [[l1|e]|]; cbn [obind] in *; [|by eexists|done].
  destruct S as (blank & Hm & _). pose proof (moved_length _ _ _ Hm). destruct (peek l1) as [c|] eqn:Hc.
  2: { eexists. split; [reflexivity|]. intros out [= <-]. eapply tokens_end; [done|]. by destruct l1 as [[|? ?] ?]. }
  pose proof (token_reads l1 c Hc) as T. destruct (token c l1) as [[[t l2]|e]|] eqn:Et; cbn [obind] in *; [|by eexists|done].
  destruct T as (u & Hu & Hn). pose proof (moved_length _ _ _ Hu). destruct u; [done|]. cbn [length] in *.
  destruct (IH l2) as (r & -> & Hr); [lia|]. destruct r as [out|e]; cbn [obind]; eexists; split; try reflexivity; [|done].
  intros ? [= <-]. eapply tokens_more; try done. by apply Hr.
Qed.

(** The lexer is total: on every source it returns its tokens or a
    diagnostic; it neither panics nor runs for ever. *)
Theorem lex_total s : exists r, lex s = Some r.
Proof. destruct (run_tokens (S (length s)) (mkLexer s (mkPos 1 1))) as (r & E & _); [cbn; lia|]. by exists r. Qed.

(** Where the tokens stand in the source, from offset [k]: each strictly after
    the one before, the end of file at the end and nowhere else. *)
Fixpoint placed (s : text) (k : nat) (toks : list Token) : Prop :=
  match toks with
  | [] => False
  | [t] => tok t = Eof /\ tpos t = advance s (mkPos 1 1)
  | t :: toks => tok t <> Eof /\ exists o o', (k <= o < o' /\ o' <= length s)%nat /\
      tpos t = advance (take o s) (mkPos 1 1) /\ placed s o' toks
  end.

Lemma token_not_eof c l t l' : token c l = done (t, l') -> t <> Eof.
Proof.
  unfold token, number, dollar, ident. intros H.
  repeat match type of H with
         | (if ?b then _ else _) = _ => destruct b
         | (match ?c with _ => _ end) = _ => destruct c
         | obind ?c _ = _ => destruct c as [[?|?]|]; cbn [obind] in H
         | done (match ?c with _ => _ end) = _ => destruct c
         | done (_, _) = done (_, _) => injection H as <- _
         end; done.
Qed.

Lemma tokens_placed s k l out :
  tokens_of l out -> (k <= length s)%nat -> l = mkLexer (drop k s) (advance (take k s) (mkPos 1 1)) -> placed s k out.
Proof.
  intros H. revert k. induction H as [l blank l' Hm He|l blank l1 t c l2 out Hm Hc Ht Hout IH]; intros k Hk ->.
  - destruct Hm as [E P']. cbn [src pos] in *. rewrite He, app_nil_r in E. cbn. split; [done|].
    by rewrite P', <- E, <- advance_app, take_drop.
  - pose proof (token_reads l1 c Hc) as R. rewrite Ht in R. destruct R as (u & Hu & Hn).
    destruct Hm as [E1 P1], Hu as [E2 P2]. cbn [src pos] in *.
    assert (Es : s = (take k s ++ blank ++ u) ++ src l2).
    { rewrite <- (take_drop k s) at 1. by rewrite E1, E2, <- !app_assoc. }
    assert (Hl : length (take k s) = k) by (rewrite length_take; lia).
    set (o := (k + length blank)%nat). set (o' := (o + length u)%nat).
    assert (To : take o s = take k s ++ blank).
    { rewrite Es at 1. rewrite !app_assoc, <- (app_assoc _ u). apply take_app_length'. rewrite length_app, Hl. done. }
    assert (To' : take o' s = take k s ++ blank ++ u).
    { rewrite Es at 1. apply take_app_length'. rewrite !length_app, Hl. unfold o', o. lia. }
    assert (Ho' : (o' <= length s)%nat).
    { rewrite Es, !length_app, Hl. unfold o', o. lia. }
    assert (Rest : placed s o' out).
    { apply IH; [done|]. destruct l2 as [s2 p2]. cbn [src pos] in *. f_equal.
      - rewrite Es at 1. symmetry. apply drop_app_length'. rewrite !length_app, Hl. unfold o', o. lia.
      - by rewrite P2, P1, To', !advance_app. }
    assert (Hne : out <> []) by (by intros ->).
    destruct out as [|t2 out]; [done|]. cbn [placed]. split; [by eapply token_not_eof|]. exists o, o'.
    assert (0 < length u)%nat by (destruct u; [done|cbn; lia]).
    split; [unfold o', o; lia|]. split; [|done]. by rewrite To, P1, advance_app.
Qed.

(** Diagnostics can be trusted: the tokens come out in source order, each at
    the line and column of its first character, and the end-of-file token
    once, last, at the end of the source. *)
Theorem lex_positions s out : lex s = Some (Ok out) -> placed s 0 out.
Proof.
  intros H. destruct (run_tokens (S (length s)) (mkLexer s (mkPos 1 1))) as (r & E & Hr); [cbn; lia|].
  unfold lex in H. rewrite E in H. injection H as ->. eapply tokens_placed; [by apply Hr|lia|done].
Qed.

(** ** Maximal munch *)

(** The operators that begin with [c]. *)
Definition all_P : list P :=
  [LParen; RParen; LBrace; RBrace; LBrack; RBrack; Semi; Comma; Dot; Colon; Assign; AddAssign; SubAssign; MulAssign; DivAssign;
   ModAssign; PowAssign; LeftAssign; RightAssign; AndAssign; XorAssign; OrAssign; Eq; Ne; Lt; Gt; Le; Ge; Plus; Minus; Star; Slash;
   Percent; Pow; AndAnd; OrOr; Not; Amp; Pipe; Caret; Tilde; Shl; Shr; Inc; Dec].
Definition starting (c : Z) : list P := List.filter (fun q => next_is c (head (as_str q))) all_P.

Lemma starting_spec c s q r : c :: s = as_str q ++ r -> In q (starting c).
Proof.
  intros E. apply List.filter_In. split; [destruct q; cbn; tauto|].
  assert (H : head (as_str q) = Some c) by (destruct q; cbn in E |- *; congruence). rewrite H. apply Z.eqb_refl.
Qed.

(** The operators a source that begins with the concrete [c] can begin with. *)
Ltac munch :=
  split; [reflexivity|]; let q := fresh "q" in let r := fresh "r" in let E := fresh "E" in let H := fresh "H" in
  intros q r E; pose proof (starting_spec _ _ _ _ E) as H; vm_compute in H;
  repeat (destruct H as [H|H]; [subst q; cbn in E; injection E; intros; cbn; lia || congruence|]); destruct H.

Ltac munched :=
  lazymatch goal with
  | |- context [if _ then _ else _] => idtac
  | |- mkLexError _ _ = _ /\ _ => split; [reflexivity|intros q r E; destruct q; cbn in E; congruence]
  | |- _ => munch
  end.

(** Operators are read by maximal munch: the operator returned is the longest
    whose spelling starts the source, and there is none exactly when the
    character is refused. *)
Theorem punct_maximal p l :
  peek l <> None ->
  match punct p l with
  | None => False
  | Some (Err e) => e = mkLexError p (UnexpectedChar (nth 0 (src l) 0)) /\ forall q r, src l <> as_str q ++ r
  | Some (Ok (q, l')) =>
      src l = as_str q ++ src l' /\ forall q' r, src l = as_str q' ++ r -> (length (as_str q') <= length (as_str q))%nat
  end.
Proof.
  destruct l as [[|c s] pl]; [done|]. intros _. unfold punct, bump. cbn [src pos].
  unfold if_next2, if_next, peek, bump. cbn [src].
  repeat match goal with |- context [if ?x =? ?k then _ else _] =>
    is_var x; destruct (Z.eqb_spec x k); [subst x|] end; cbn; munched.
  all: destruct s as [|d s]; cbn [head next_is src]; [cbn; munched|].
  all: repeat match goal with |- context [if ?x =? ?k then _ else _] =>
    is_var x; destruct (Z.eqb_spec x k); [subst x|] end; cbn [head next_is src snd]; cbn; munched.
  all: destruct s as [|e s]; cbn [head next_is src snd]; [cbn; munched|].
  all: match goal with |- context [if ?x =? 61 then _ else _] => destruct (Z.eqb_spec x 61); [subst x|] end; cbn; munched.
Qed.

(** ** Printing and reading back *)

(** A string between its quotes, and what it stands for. *)
Inductive quoted : text -> text -> Prop :=
  | quoted_nil : quoted [] []
  | quoted_char c b s : c <> 0x22 -> c <> ch "\" -> quoted b s -> quoted (c :: b) (c :: s)
  | quoted_escape e b s : quoted b s -> quoted (ch "\" :: e :: b) (escaped e ++ s).

(** Blanks and comments: whitespace, a line comment with its newline, a block
    comment closed where it says. *)
Fixpoint no_close (body : text) : Prop :=
  match body with
  | [] => True
  | c :: r => ~ (c = ch "*" /\ head r = Some (ch "/")) /\ no_close r
  end.
Inductive trivia : text -> Prop :=
  | trivia_nil : trivia []
  | trivia_ws c t : is_whitespace c = true -> trivia t -> trivia (c :: t)
  | trivia_line body t : Forall (fun c => c <> 10) body -> trivia t -> trivia (ch "/" :: ch "/" :: body ++ 10 :: t)
  | trivia_block body t : no_close body -> trivia t -> trivia (ch "/" :: ch "*" :: body ++ ch "*" :: ch "/" :: t).

(** The spellings of a token, when [rest] follows and nothing in it goes on with
    the token.  An integer is decimal, of 63 bits, or hexadecimal, of 32 bits
    taken as an [i32]; a real has a point and digits on at least one side, and is
    the nearest [f32] of the decimal.  After an integer a point would go on,
    unless a name follows the point; an operator is the longest there, and a point
    and a slash of their own begin no number and no comment. *)
Definition all_digits (s : text) : Prop := Forall (fun c => is_ascii_digit c = true) s.
Definition follows (ok : Z -> bool) (rest : text) : Prop := next_sat ok (head rest) = false.
Inductive spelled (rest : text) : Tok -> text -> Prop :=
  | spelled_ident c r : is_ident_start c = true -> Forall (fun c => is_ident_continue c = true) r -> follows is_ident_continue rest ->
      spelled rest (Ident (c :: r)) (c :: r)
  | spelled_int ds v : ds <> [] -> all_digits ds -> digits_value 0 ds = Some v -> v < 2 ^ 63 -> follows is_ascii_digit rest ->
      (head rest = Some (ch ".") -> next_sat is_ident_start (head (tail rest)) = true) ->
      (ds = [ch "0"] -> head rest <> Some (ch "x") /\ head rest <> Some (ch "X")) ->
      spelled rest (Int v) ds
  | spelled_hex x hex : x = ch "x" \/ x = ch "X" -> hex <> [] -> Forall (fun c => is_ascii_hexdigit c = true) hex -> hex_value hex < 2 ^ 32 ->
      follows is_ascii_hexdigit rest -> spelled rest (Int (i32 (hex_value hex))) (ch "0" :: x :: hex)
  | spelled_real ds fs m : ds ++ fs <> [] -> all_digits ds -> all_digits fs -> digits_value 0 (ds ++ fs) = Some m -> follows is_ascii_digit rest ->
      (fs = [] -> follows is_ident_start rest) ->
      spelled rest (Real (f32_of_decimal false m (- Z.of_nat (length fs)))) (ds ++ ch "." :: fs)
  | spelled_str b s : quoted b s -> spelled rest (Str s) (0x22 :: b ++ [0x22])
  | spelled_locstr b1 b2 b3 b s : trivia b1 -> trivia b2 -> trivia b3 -> quoted b s ->
      spelled rest (LocStr s) (ch "$" :: ch "S" :: b1 ++ ch "(" :: b2 ++ (0x22 :: b ++ [0x22]) ++ b3 ++ [ch ")"])
  | spelled_punct q : (forall q' r, as_str q ++ rest = as_str q' ++ r -> (length (as_str q') <= length (as_str q))%nat) ->
      (q = Dot -> follows is_ascii_digit rest) -> (q = Slash -> head rest <> Some (ch "/") /\ head rest <> Some (ch "*")) ->
      spelled rest (Punct q) (as_str q).

(** A text that spells the tokens, with trivia after each as far as they need it. *)
Inductive written : list Tok -> text -> Prop :=
  | written_nil : written [] []
  | written_cons t txt b toks s : spelled (b ++ s) t txt -> trivia b -> written toks s -> written (t :: toks) (txt ++ b ++ s).

(** A source that does not begin with trivia. *)
Definition solid (s : text) : Prop :=
  match s with
  | [] => True
  | c :: r => is_whitespace c = false /\ (c = ch "/" -> head r <> Some (ch "/") /\ head r <> Some (ch "*"))
  end.

Lemma ws_range c : is_whitespace c = true -> 0 <= c <= 32 \/ 133 <= c.
Proof. unfold is_whitespace, between. lia. Qed.
Lemma not_ws c : 33 <= c <= 126 -> is_whitespace c = false.
Proof. intros H. destruct (is_whitespace c) eqn:E; [|done]. apply ws_range in E. lia. Qed.

Lemma scan_to ok t s p : Forall (fun c => ok c = true) t -> follows ok s -> scan ok (t ++ s) p = (t, mkLexer s (advance t p)).
Proof.
  unfold follows. intros Ht Hc. revert p. induction Ht as [|d t Hd _ IH]; intros p; cbn [app scan]; [|rewrite Hd, IH; done].
  destruct s as [|c s]; [done|]. cbn in Hc. cbn [scan]. by rewrite Hc.
Qed.

Lemma block_to start body s p :
  no_close body -> block_comment start (body ++ ch "*" :: ch "/" :: s) p = done (mkLexer s (advance (body ++ [ch "*"; ch "/"]) p)).
Proof.
  revert p. induction body as [|c r IH]; intros p Hb; [done|]. destruct Hb as [Hc Hr].
  cbn [app block_comment]. specialize (IH (after c p) Hr). destruct r as [|d r]; cbn [app] in *.
  - rewrite IH. by rewrite andb_false_r.
  - destruct (Z.eqb_spec c 42), (Z.eqb_spec d 47); cbn [andb]; try (rewrite IH; done). subst. by destruct Hc.
Qed.

Lemma skip_solid fuel s p : (0 < fuel)%nat -> solid s -> skip_trivia fuel (mkLexer s p) = done (mkLexer s p).
Proof.
  intros Hf Hs. destruct fuel as [|fuel]; [lia|]. cbn [skip_trivia]. destruct s as [|c r]; [done|]. destruct Hs as [Hw Hs].
  unfold peek. cbn [src head]. rewrite Hw. unfold peek_at. cbn [src]. rewrite (lookup_cons c r 1). cbn.
  destruct (Z.eqb_spec c 47) as [->|]; [|done]. destruct (Hs eq_refl) as [H1 H2]. rewrite <- head_lookup.
  destruct (head r) as [d|]; cbn [next_is andb]; [|done]. destruct (Z.eqb_spec d 47), (Z.eqb_spec d 42); congruence.
Qed.

Lemma skip_trivia_to t s fuel p :
  trivia t -> solid s -> (length (t ++ s) < fuel)%nat -> skip_trivia fuel (mkLexer (t ++ s) p) = done (mkLexer s (advance t p)).
Proof.
  intros Ht Hs. revert fuel p. induction Ht as [|c t Hc _ IH|body t Hb _ IH|body t Hb _ IH]; intros fuel p Hf.
  - cbn [app] in *. apply skip_solid; [lia|done].
  - cbn [app length] in Hf. destruct fuel as [|fuel]; [lia|]. cbn [app skip_trivia]. unfold peek. cbn [src head]. rewrite Hc.
    cbn [bump src snd pos]. rewrite IH by lia. done.
  - destruct fuel as [|fuel]; [lia|]. rewrite length_app in Hf. cbn [length] in Hf. rewrite length_app in Hf. cbn [length] in Hf.
    cbn [app skip_trivia]. unfold peek. cbn [src head]. rewrite (not_ws 47) by lia. cbn [Z.eqb Pos.eqb andb].
    change (peek_at 1 _) with (Some 47). cbn [next_is Z.eqb Pos.eqb]. unfold scan_while. cbn [src pos].
    rewrite <- app_assoc. cbn [app]. change (47 :: 47 :: body ++ 10 :: t ++ s) with ((47 :: 47 :: body) ++ 10 :: t ++ s).
    rewrite (scan_to _ (47 :: 47 :: body)); [| |done]. 2: { repeat constructor. eapply Forall_impl; [exact Hb|]. intros c Hc. cbn. by destruct (Z.eqb_spec c 10). }
    cbn [snd]. destruct fuel as [|fuel]; [lia|]. cbn [skip_trivia]. unfold peek at 1. cbn [src head].
    change (is_whitespace 10) with true. cbn match. unfold bump. cbn [src snd pos]. rewrite IH by (rewrite length_app; lia).
    unfold done. do 3 f_equal. change (47 :: 47 :: body ++ 10 :: t) with ((47 :: 47 :: body) ++ [10] ++ t). by rewrite !advance_app.
  - destruct fuel as [|fuel]; [lia|]. rewrite length_app in Hf. cbn [length] in Hf. rewrite length_app in Hf. cbn [length] in Hf.
    cbn [app skip_trivia]. unfold peek. cbn [src head]. rewrite (not_ws 47) by lia. cbn [Z.eqb Pos.eqb andb].
    change (peek_at 1 _) with (Some 42). cbn [next_is Z.eqb Pos.eqb]. unfold bump. cbn [src snd pos]. rewrite <- app_assoc. cbn [app].
    rewrite block_to by done. cbn [obind done]. unfold done at 1. cbn [obind]. rewrite IH by (rewrite length_app; lia).
    unfold done. do 3 f_equal. change (47 :: 42 :: body ++ 42 :: 47 :: t) with ([47; 42] ++ body ++ [42; 47] ++ t). by rewrite !advance_app.
Qed.

Lemma ident_start_range c : is_ident_start c = true -> 65 <= c <= 122 /\ is_ident_continue c = true.
Proof. unfold is_ident_continue, is_ident_start, is_ascii_alphanumeric, is_ascii_alphabetic, is_ascii_digit, between. lia. Qed.
Lemma digit_range c : is_ascii_digit c = true <-> 48 <= c <= 57.
Proof. unfold is_ascii_digit, between. lia. Qed.

(** Reading back one token. *)
Definition read_back (t : Tok) (txt rest : text) (p : Pos) : Prop :=
  exists c r, txt = c :: r /\ 33 <= c <= 126 /\ token c (mkLexer (txt ++ rest) p) = done (t, mkLexer rest (advance txt p)).

Lemma ident_back c r rest p : is_ident_start c = true -> Forall (fun c => is_ident_continue c = true) r -> follows is_ident_continue rest ->
  read_back (Ident (c :: r)) (c :: r) rest p.
Proof.
  intros Hc Hr Hf. destruct (ident_start_range c Hc) as [Hrange Hcc]. exists c, r. split; [done|]. split; [lia|]. unfold token.
  assert (is_ascii_digit c = false) as -> by (unfold is_ascii_digit, between; lia).
  assert ((c =? 46) = false) as -> by lia. assert ((c =? 34) = false) as -> by lia. assert ((c =? 36) = false) as -> by lia.
  cbn [andb orb]. rewrite Hc. unfold ident, scan_while. cbn [src pos]. by rewrite (scan_to _ (c :: r)) by (try done; by apply Forall_cons).
Qed.

(** The digits loop on digits, at a point, and at the end. *)
Lemma number_run_digits b ds rest p : all_digits ds ->
  number_run b (ds ++ rest) p = let '(t, b', l) := number_run b rest (advance ds p) in (ds ++ t, b', l).
Proof.
  intros Hd. revert p. induction Hd as [|d ds Hd _ IH]; intros p; cbn [app]; [by destruct (number_run b rest _) as [[? ?] ?]|].
  cbn [number_run]. rewrite Hd, IH. change (advance (d :: ds) p) with (advance ds (after d p)). by destruct (number_run b rest _) as [[? ?] ?].
Qed.
Lemma number_run_end b rest p : follows is_ascii_digit rest -> (b = true \/ (head rest = Some 46 -> next_sat is_ident_start (head (tail rest)) = true)) ->
  number_run b rest p = ([], b, mkLexer rest p).
Proof.
  unfold follows. intros Hd Hp. destruct rest as [|c r]; [done|]. cbn in Hd. cbn [number_run]. rewrite Hd. destruct (Z.eqb_spec c 46) as [->|]; [|done].
  destruct Hp as [->|Hp]; [done|]. specialize (Hp eq_refl). cbn [tail] in Hp. rewrite Hp, orb_false_r. destruct b; [done|]. cbn [negb andb].
  destruct r as [|d r]; [done|]. cbn [head next_sat] in *. assert (is_ascii_digit d = false) as ->; [|done].
  destruct (ident_start_range d Hp). destruct (is_ascii_digit d) eqn:E; [|done]. apply digit_range in E. lia.
Qed.
Lemma number_run_point rest p : (next_sat is_ascii_digit (head rest) = true \/ follows is_ident_start rest) ->
  number_run false (46 :: rest) p = let '(t, b', l) := number_run true rest (after 46 p) in (46 :: t, b', l).
Proof.
  unfold follows. intros H. cbn [number_run]. change (is_ascii_digit 46) with false. change (46 =? 46) with true. cbn [negb andb].
  assert (next_sat is_ascii_digit (head rest) || negb (next_sat is_ident_start (head rest)) = true) as ->; [|done].
  destruct H as [->| ->]; [done|]. by rewrite orb_true_r.
Qed.

Lemma int_back ds v rest p : spelled rest (Int v) ds -> all_digits ds -> read_back (Int v) ds rest p.
Proof.
  intros H Hds. inversion H as [|? ? Hn _ Hv Hr Hf Hp Hx|x hex Hx Hn Hh Hr Hf|?|?|?|?]; subst.
  2:{ apply Forall_cons in Hds as [_ Hds]. apply Forall_cons in Hds as [Hd _]. apply digit_range in Hd. destruct Hx; subst; lia. }
  destruct ds as [|d r]; [done|]. pose proof (proj1 (proj1 (Forall_cons _ _ _) Hds)) as Hd. exists d, r. split; [done|]. pose proof (proj1 (digit_range d) Hd). split; [lia|].
  unfold token. rewrite Hd. cbn [orb]. unfold number.
  assert (X : next_is 48 (peek (mkLexer ((d :: r) ++ rest) p)) &&
    (next_is 120 (peek_at 1 (mkLexer ((d :: r) ++ rest) p)) || next_is 88 (peek_at 1 (mkLexer ((d :: r) ++ rest) p))) = false).
  { unfold peek, peek_at. cbn [src app head next_is]. destruct r as [|e r].
    - cbn [app]. destruct (Z.eqb_spec d 48) as [->|]; [|done]. destruct (Hx eq_refl) as [H1 H2]. rewrite (lookup_cons 48 rest 1), <- head_lookup.
      destruct (head rest) as [a|]; [|done]. cbn [next_is]. destruct (Z.eqb_spec a 120), (Z.eqb_spec a 88); congruence || done.
    - change ((d :: (e :: r) ++ rest) !! 1%nat) with (Some e). cbn [next_is]. apply Forall_cons in Hds as [_ Hds]. apply Forall_cons in Hds as [He _].
      apply digit_range in He. destruct (Z.eqb_spec e 120), (Z.eqb_spec e 88); lia. }
  rewrite X. cbn [src pos]. rewrite number_run_digits, number_run_end by (done || by right). rewrite app_nil_r. unfold parse_i64. rewrite Hv. cbn [mbind option_bind].
  by destruct (Z.ltb_spec v (2 ^ 63)); [|lia].
Qed.

Lemma hex_back x hex rest p : x = 120 \/ x = 88 -> hex <> [] -> Forall (fun c => is_ascii_hexdigit c = true) hex -> hex_value hex < 2 ^ 32 -> follows is_ascii_hexdigit rest ->
  read_back (Int (i32 (hex_value hex))) (48 :: x :: hex) rest p.
Proof.
  intros Hx Hn Hh Hr Hf. exists 48, (x :: hex). split; [done|]. split; [lia|]. unfold token. change (is_ascii_digit 48) with true. cbn [orb]. unfold number.
  unfold peek, peek_at. cbn [src app head next_is]. change ((48 :: x :: hex ++ rest) !! 1%nat) with (Some x). cbn [next_is]. change (48 =? 48) with true.
  assert ((x =? 120) || (x =? 88) = true) as -> by (destruct Hx as [->| ->]; done). cbn [andb bump src pos snd]. unfold scan_while. cbn [src pos].
  rewrite scan_to by done. destruct hex as [|h hex]; [done|]. unfold parse_hex_u32. by destruct (Z.ltb_spec (hex_value (h :: hex)) (2 ^ 32)); [|lia].
Qed.

(** Parsing the text of a real. *)
Lemma digit_run_digits ds acc n rest m : all_digits ds -> digits_value acc ds = Some m -> head rest = None \/ head rest = Some 46 ->
  digit_run acc n (ds ++ rest) = (m, (n + length ds)%nat, rest).
Proof.
  intros Hd. revert acc n. induction Hd as [|d ds Hd _ IH]; intros acc n Hv Hr; cbn [app length digits_value] in *.
  - injection Hv as ->. rewrite Nat.add_0_r. destruct rest as [|c r]; [done|]. cbn [digit_run]. destruct Hr as [|[= ->]]; done.
  - cbn [digit_run]. unfold digit in *. unfold is_ascii_digit in Hd. rewrite Hd in *. cbn in Hv. rewrite (IH _ _ Hv Hr). do 2 f_equal. lia.
Qed.
Lemma digits_value_total ds acc : all_digits ds -> exists m, digits_value acc ds = Some m.
Proof.
  intros Hd. revert acc. induction Hd as [|d ds Hd _ IH]; intros acc; cbn [digits_value]; [by eexists|]. unfold digit, is_ascii_digit in *. rewrite Hd. apply IH.
Qed.
Lemma digits_value_app ds fs acc m1 : digits_value acc ds = Some m1 -> digits_value acc (ds ++ fs) = digits_value m1 fs.
Proof.
  revert acc. induction ds as [|d ds IH]; intros acc; cbn [app digits_value]; [by intros [= ->]|]. destruct (digit d); cbn; [apply IH|done].
Qed.

Lemma parse_real ds fs m : ds ++ fs <> [] -> all_digits ds -> all_digits fs -> digits_value 0 (ds ++ fs) = Some m ->
  parse_f32 (ds ++ 46 :: fs) = Some (f32_of_decimal false m (- Z.of_nat (length fs))).
Proof.
  intros Hn Hd Hf Hm. destruct (digits_value_total ds 0 Hd) as [m1 E1]. rewrite (digits_value_app _ _ _ _ E1) in Hm. unfold parse_f32.
  assert (exists c r, ds ++ 46 :: fs = c :: r /\ 46 <= c <= 57) as (c & r & E & Hc).
  { destruct ds as [|d ds]; [by exists 46, fs|]. apply Forall_cons in Hd as [Hd _]. apply digit_range in Hd. exists d, (ds ++ 46 :: fs). split; [done|lia]. }
  assert (split_sign (ds ++ 46 :: fs) = (false, ds ++ 46 :: fs)) as ->.
  { rewrite E. unfold split_sign. repeat case_match; done || lia. }
  assert (L : map ascii_lower (ds ++ 46 :: fs) = c :: map ascii_lower r).
  { rewrite E. cbn [map]. f_equal. unfold ascii_lower, between. destruct (_ && _) eqn:Eb; lia. }
  rewrite L. rewrite !bool_decide_eq_false_2 by (intros [= -> _]; lia). cbn [orb].
  rewrite (digit_run_digits ds 0 0 (46 :: fs) m1) by (done || by right). rewrite <- (app_nil_r fs) at 1. rewrite (digit_run_digits fs m1 0 [] m) by (done || by left).
  cbn [Nat.add]. destruct (Nat.eqb_spec (length ds + length fs) 0) as [Hz|]; [|done]. destruct ds, fs; cbn in Hz; done || lia.
Qed.

Lemma real_back ds fs m rest p : ds ++ fs <> [] -> all_digits ds -> all_digits fs -> digits_value 0 (ds ++ fs) = Some m -> follows is_ascii_digit rest ->
  (fs = [] -> follows is_ident_start rest) ->
  read_back (Real (f32_of_decimal false m (- Z.of_nat (length fs)))) (ds ++ 46 :: fs) rest p.
Proof.
  intros Hn Hd Hf Hm Hr Hi.
  assert (N : number_run false ((ds ++ 46 :: fs) ++ rest) p = (ds ++ 46 :: fs, true, mkLexer rest (advance (ds ++ 46 :: fs) p))).
  { rewrite <- app_assoc. cbn [app]. rewrite number_run_digits by done. rewrite number_run_point.
    2:{ destruct fs as [|f fs]; [right; by apply Hi|left]. by apply Forall_cons in Hf as [Hf _]. }
    rewrite number_run_digits, number_run_end by (done || by left). rewrite app_nil_r. do 2 f_equal. rewrite advance_app. done. }
  assert (T : forall c r, ds ++ 46 :: fs = c :: r -> 46 <= c <= 57 ->
    number p (mkLexer ((ds ++ 46 :: fs) ++ rest) p) = done (Real (f32_of_decimal false m (- Z.of_nat (length fs))), mkLexer rest (advance (ds ++ 46 :: fs) p))).
  { intros c r E Hc. unfold number. assert (X : next_is 48 (peek (mkLexer ((ds ++ 46 :: fs) ++ rest) p)) &&
      (next_is 120 (peek_at 1 (mkLexer ((ds ++ 46 :: fs) ++ rest) p)) || next_is 88 (peek_at 1 (mkLexer ((ds ++ 46 :: fs) ++ rest) p))) = false).
    { unfold peek, peek_at. cbn [src]. destruct ds as [|d [|d2 ds]]; [done|cbn; by rewrite andb_false_r|].
      cbn [app head next_is]. change ((d :: d2 :: (ds ++ 46 :: fs) ++ rest) !! 1%nat) with (Some d2). cbn [next_is].
      apply Forall_cons in Hd as [_ Hd]. apply Forall_cons in Hd as [Hd _]. apply digit_range in Hd. destruct (Z.eqb_spec d2 120), (Z.eqb_spec d2 88); lia. }
    rewrite X. cbn [src pos]. rewrite N. by rewrite (parse_real ds fs m). }
  destruct ds as [|d ds].
  - exists 46, fs. split; [done|]. split; [lia|]. unfold token. change (is_ascii_digit 46) with false. change (46 =? 46) with true. cbn [orb andb].
    destruct fs as [|f fs]; [done|]. change (peek_at 1 _) with (Some f). cbn [next_sat]. rewrite (proj1 (proj1 (Forall_cons _ _ _) Hf)). by apply (T 46 (f :: fs)).
  - pose proof (proj1 (proj1 (Forall_cons _ _ _) Hd)) as H. pose proof (proj1 (digit_range d) H). exists d, (ds ++ 46 :: fs). split; [done|]. split; [lia|].
    unfold token. rewrite H. cbn [orb]. apply (T d (ds ++ 46 :: fs)); [done|lia].
Qed.

Lemma string_body_quoted start b s rest p : quoted b s -> string_body start (b ++ 0x22 :: rest) p = done (s, mkLexer rest (advance (b ++ [0x22]) p)).
Proof.
  intros Hq. revert p. induction Hq as [|c b s H1 H2 _ IH|e b s _ IH]; intros p; cbn [app string_body]; [done| |].
  - destruct (Z.eqb_spec c 34); [done|]. destruct (Z.eqb_spec c 92); [done|]. rewrite IH. done.
  - change (92 =? 34) with false. change (92 =? 92) with true. cbv iota. rewrite IH. done.
Qed.
Lemma string_quoted start b s rest p : quoted b s -> string start (mkLexer ((0x22 :: b ++ [0x22]) ++ rest) p) = done (s, mkLexer rest (advance (0x22 :: b ++ [0x22]) p)).
Proof.
  intros Hq. unfold string. cbn [app bump src snd pos]. rewrite <- app_assoc. cbn [app]. by rewrite (string_body_quoted start b s).
Qed.

Lemma str_back b v rest p : quoted b v -> read_back (Str v) (0x22 :: b ++ [0x22]) rest p.
Proof.
  intros Hq. exists 34, (b ++ [34]). split; [done|]. split; [lia|]. unfold token. change (is_ascii_digit 34) with false.
  change (34 =? 46) with false. change (34 =? 34) with true. cbn [andb orb]. by rewrite (string_quoted p b v).
Qed.

Lemma trivia_head b c r : trivia b -> is_ident_continue c = false -> follows is_ident_continue (b ++ c :: r).
Proof.
  intros Hb Hc. unfold follows. destruct Hb as [|w b Hw _|body b _ _|body b _ _]; cbn; try done.
  apply ws_range in Hw. unfold is_ident_continue, is_ascii_alphanumeric, is_ascii_alphabetic, is_ascii_digit, between. lia.
Qed.
Lemma skip_to b s p : trivia b -> solid s -> skip (mkLexer (b ++ s) p) = done (mkLexer s (advance b p)).
Proof. intros Hb Hs. unfold skip. cbn [src]. apply skip_trivia_to; [done|done|lia]. Qed.

Lemma locstr_back b1 b2 b3 b v rest p : trivia b1 -> trivia b2 -> trivia b3 -> quoted b v ->
  read_back (LocStr v) (ch "$" :: ch "S" :: b1 ++ ch "(" :: b2 ++ (0x22 :: b ++ [0x22]) ++ b3 ++ [ch ")"]) rest p.
Proof.
  intros H1 H2 H3 Hq. eexists 36, _. split; [reflexivity|]. split; [lia|]. unfold token. change (is_ascii_digit 36) with false.
  change (36 =? 46) with false. change (36 =? 34) with false. change (36 =? 36) with true. cbn [andb orb]. unfold dollar.
  set (q := 0x22 :: b ++ [0x22]).
  assert (E : (36 :: 83 :: b1 ++ 40 :: b2 ++ q ++ b3 ++ [41]) ++ rest = 36 :: [83] ++ b1 ++ 40 :: b2 ++ q ++ b3 ++ 41 :: rest).
  { cbn [app]. do 2 f_equal. rewrite <- !app_assoc. cbn [app]. do 2 f_equal. by rewrite <- !app_assoc. }
  rewrite E. cbn [bump src snd pos]. unfold scan_while. cbn [src pos].
  rewrite (scan_to is_ident_continue [83]) by (try (by apply Forall_cons); by apply trivia_head).
  change (bool_decide ([83] = [83])) with true. cbn [negb]. rewrite skip_to by done. unfold done at 1. cbn [obind]. unfold peek. cbn [src head next_is].
  change (40 =? 40) with true. cbn [negb bump src snd pos]. rewrite skip_to by done. unfold done at 1. cbn [obind src]. unfold q at 1. cbn [head app next_is].
  change (34 =? 34) with true. cbn [negb]. fold q. change (34 :: (b ++ [34]) ++ b3 ++ 41 :: rest) with (q ++ b3 ++ 41 :: rest).
  unfold q at 2. rewrite (string_quoted _ b v) by done. fold q. unfold done at 1. cbn [obind]. rewrite skip_to by done. unfold done at 1. cbn [obind src head next_is].
  change (41 =? 41) with true. cbn [negb bump src snd pos]. unfold done. do 3 f_equal.
  change (36 :: 83 :: b1 ++ 40 :: b2 ++ q ++ b3 ++ [41]) with ([36] ++ [83] ++ b1 ++ [40] ++ b2 ++ q ++ b3 ++ [41]). by rewrite !advance_app.
Qed.

Lemma as_str_inj q q' : as_str q = as_str q' -> q = q'.
Proof. destruct q, q'; intros E; first [reflexivity|discriminate E]. Qed.

Lemma punct_back q rest p :
  (forall q' r, as_str q ++ rest = as_str q' ++ r -> (length (as_str q') <= length (as_str q))%nat) -> (q = Dot -> follows is_ascii_digit rest) ->
  read_back (Punct q) (as_str q) rest p.
Proof.
  intros Hm Hd. set (l := mkLexer (as_str q ++ rest) p). assert (Hl : exists c r, as_str q = c :: r) by (destruct q; by eexists _, _). destruct Hl as (c & r & E).
  assert (P : punct p l = done (q, mkLexer rest (advance (as_str q) p))).
  { assert (Hpk : peek l = Some c) by (unfold peek, l; cbn [src]; by rewrite E). pose proof (punct_reads p l c Hpk) as R. pose proof (punct_maximal p l ltac:(by rewrite Hpk)) as M.
    destruct (punct p l) as [[[q' l']|e]|]; [| |done].
    - destruct M as [Es Mx]. destruct R as (t & [Et Ep] & _). cbn [src] in *.
      assert (length (as_str q') = length (as_str q)) as Hlen by (apply Nat.le_antisymm; [by eapply Hm|by eapply Mx]).
      assert (as_str q' = as_str q /\ src l' = rest) as [E1 E2] by (symmetry in Es; by apply app_inj_1 in Es).
      apply as_str_inj in E1 as ->. assert (t = as_str q) as -> by (rewrite Es in Et; by apply app_inv_tail in Et).
      destruct l' as [s' p']. cbn in *. by subst.
    - destruct M as [_ M]. by destruct (M q rest). }
  exists c, r. split; [done|]. assert (Hc : 33 <= c <= 126 /\ is_ascii_digit c = false /\ (c =? 34) = false /\ (c =? 36) = false /\ is_ident_start c = false /\ ((c =? 46) = true -> q = Dot /\ r = [])).
  { clear -E. destruct q; injection E as <- <-; (split; [lia|]); by repeat split. }
  destruct Hc as (H1 & H2 & H3 & H4 & H5 & H6). split; [done|]. unfold token. fold l. rewrite H2, H3, H4, H5. cbn [orb].
  assert ((c =? 46) && next_sat is_ascii_digit (peek_at 1 l) = false) as ->.
  { destruct (c =? 46) eqn:Ec; [|done]. destruct (H6 eq_refl) as [-> ->]. specialize (Hd eq_refl). unfold peek_at, l. cbn [src]. rewrite E. cbn [app andb].
    rewrite (lookup_cons c rest 1), <- head_lookup. exact Hd. }
  change (pos l) with p. by rewrite P.
Qed.

Lemma token_back t txt rest p : spelled rest t txt -> read_back t txt rest p.
Proof.
  intros H. destruct H; [by apply ident_back|apply int_back; [by apply spelled_int|done]|by apply hex_back|by apply real_back|by apply str_back|by apply locstr_back|by apply punct_back].
Qed.

Lemma solid_spelled t txt rest : spelled rest t txt -> solid (txt ++ rest).
Proof.
  intros H. destruct (token_back t txt rest (mkPos 1 1) H) as (c & r & E & Hc & _). rewrite E. cbn [app solid]. split; [by apply not_ws|]. intros ->.
  destruct H as [c' r' Hi _ _|ds v Hn Hd _ _ _ _ _| |ds fs m Hn Hd Hf _ _ _| | |q _ _ Hs]; cbn in E; try discriminate E.
  - injection E as -> _. vm_compute in Hi. discriminate.
  - rewrite E in Hd. apply Forall_cons in Hd as [Hd _]. vm_compute in Hd. discriminate.
  - destruct ds as [|d ds]; [discriminate E|]. injection E as -> _. apply Forall_cons in Hd as [Hd _]. vm_compute in Hd. discriminate.
  - destruct q; try discriminate E; injection E as <-; [split; cbn; congruence|]. by apply Hs.
Qed.
Lemma solid_written toks s : written toks s -> solid s.
Proof. intros H. destruct H; [done|]. by eapply solid_spelled. Qed.

Lemma run_written toks s fuel b p :
  written toks s -> trivia b -> (length (b ++ s) < fuel)%nat ->
  exists out, run fuel (mkLexer (b ++ s) p) = done out /\ map tok out = toks ++ [Eof].
Proof.
  intros H. revert fuel b p. induction H as [|t txt b' toks s Hp Hb' Hs IH]; intros fuel b p Hb Hf;
    (destruct fuel as [|fuel]; [lia|]); cbn [run].
  - rewrite skip_to by done. by eexists.
  - rewrite skip_to by (try done; by eapply solid_spelled). unfold done at 1. cbn [obind].
    destruct (token_back t txt (b' ++ s) (advance b p) Hp) as (c & r & E & _ & T).
    assert (peek (mkLexer (txt ++ b' ++ s) (advance b p)) = Some c) as -> by (unfold peek; cbn [src]; by rewrite E).
    rewrite T. unfold done at 1. cbn [obind].
    destruct (IH fuel b' (advance txt (advance b p)) Hb') as (out & Eo & Em).
    + rewrite !length_app, E in Hf. cbn [length] in Hf. rewrite length_app. lia.
    + rewrite Eo. unfold done at 1. cbn [obind]. eexists. split; [reflexivity|]. cbn. by rewrite Em.
Qed.

(** Spelling and reading back: tokens in any of their spellings, with whatever
    blanks and comments follow each as far as they need any, lex to exactly
    those tokens and the end of file. *)
Theorem lex_print b toks s :
  trivia b -> written toks s -> exists out, lex (b ++ s) = Some (Ok out) /\ map tok out = toks ++ [Eof].
Proof. intros Hb Hs. unfold lex. eapply run_written; [done|done|cbn; lia]. Qed.

(** *** Building spellings *)

(** No operator longer than [q] begins at [q]: decidable, so that a concrete text
    needs no proof. *)
Definition munches (q : P) (rest : text) : bool :=
  forallb (fun q' => negb (bool_decide (take (length (as_str q')) (as_str q ++ rest) = as_str q')) || (length (as_str q') <=? length (as_str q))%nat) all_P.
Lemma munches_spec q rest : munches q rest = true -> forall q' r, as_str q ++ rest = as_str q' ++ r -> (length (as_str q') <= length (as_str q))%nat.
Proof.
  intros Hm q' r E. unfold munches in Hm. rewrite List.forallb_forall in Hm. specialize (Hm q' ltac:(destruct q'; cbn; tauto)).
  rewrite E, take_app_length in Hm. rewrite bool_decide_eq_true_2 in Hm by done. by apply Nat.leb_le.
Qed.
Lemma punct_spelled q rest : munches q rest = true -> (match q with Dot => negb (next_sat is_ascii_digit (head rest)) | Slash => negb (next_is 47 (head rest) || next_is 42 (head rest)) | _ => true end) = true ->
  spelled rest (Punct q) (as_str q).
Proof.
  intros Hm Hq. apply spelled_punct; [by apply munches_spec| |].
  - intros ->. unfold follows. by destruct (next_sat is_ascii_digit (head rest)).
  - intros ->. destruct (head rest) as [c|]; [|done]. cbn [next_is] in Hq. destruct (Z.eqb_spec c 47), (Z.eqb_spec c 42); cbn in Hq; try done. split; congruence.
Qed.

(** Decoding: UTF-8 is read as such, and the fallback keeps one character per
    byte, so it never fails and never moves an offset. *)
Lemma decode_source_utf8 s : text_ok s -> decode_source (as_bytes s) = s.
Proof. intros H. unfold decode_source, from_utf8. rewrite from_utf8_as_bytes by done. by rewrite bool_decide_eq_true_2. Qed.
Lemma decode_source_latin1 bs : from_utf8 bs = None -> length (decode_source bs) = length bs.
Proof. intros H. unfold decode_source. by rewrite H. Qed.

(** ** Concrete sources *)

Lemma lex_positions_witness :
  exists out, lex [ch "a"; 10; ch "/"; ch "/"; 10; ch "b"] = Some (Ok out) /\ placed [ch "a"; 10; ch "/"; ch "/"; 10; ch "b"] 0 out /\
    map tpos out = [mkPos 1 1; mkPos 3 1; mkPos 3 2].
Proof.
  eexists. split; [vm_compute; reflexivity|]. split; [apply lex_positions; vm_compute; reflexivity|reflexivity].
Defined.

Lemma punct_maximal_witness :
  match punct (mkPos 1 1) (mkLexer [ch "<"; ch "<"; ch "="; ch "="] (mkPos 1 1)) with
  | Some (Ok (q, l)) => q = LeftAssign /\ [ch "<"; ch "<"; ch "="; ch "="] = as_str q ++ src l
  | _ => False
  end.
Proof.
  pose proof (punct_maximal (mkPos 1 1) (mkLexer [ch "<"; ch "<"; ch "="; ch "="] (mkPos 1 1)) ltac:(done)) as H.
  vm_compute in H |- *. split; [reflexivity|exact (proj1 H)].
Defined.

(** The text [x**7/***/1.5]: no blank is needed, and the comment is skipped. *)
Lemma lex_print_witness :
  exists out, lex ([32] ++ [ch "x"; ch "*"; ch "*"; ch "7"; ch "/"; ch "*"; ch "*"; ch "*"; ch "/"; ch "1"; ch "."; ch "5"]) = Some (Ok out) /\
    map tok out = [Ident [ch "x"]; Punct Pow; Int 7; Real (f32_of_decimal false 15 (-1)); Eof].
Proof.
  apply (lex_print [32] [Ident [ch "x"]; Punct Pow; Int 7; Real (f32_of_decimal false 15 (-1))]); [by apply trivia_ws, trivia_nil|].
  apply (written_cons _ [ch "x"] []); [by apply spelled_ident; [|apply Forall_nil|]|apply trivia_nil|].
  apply (written_cons _ [ch "*"; ch "*"] []); [by apply (punct_spelled Pow)|apply trivia_nil|].
  apply (written_cons _ [ch "7"] [ch "/"; ch "*"; ch "*"; ch "*"; ch "/"]).
  - by apply spelled_int; [|apply Forall_singleton|..].
  - apply (trivia_block [ch "*"] []); [split; [by intros [_ [=]]|done]|apply trivia_nil].
  - apply (written_cons _ [ch "1"; ch "."; ch "5"] [] [] []); [|apply trivia_nil|apply written_nil].
    by apply (spelled_real _ [ch "1"] [ch "5"] 15); [| apply Forall_singleton | apply Forall_singleton |..].
Defined.
