(* ===== verification/CcAst.v ===== *)
(** * The script compiler: syntax tree

    [crates/don-bhs-cc/src/ast.rs].  Constructors of [Expr] carry the prefix
    [E], those of [Stmt] the prefix [S], those of [Item] the prefix [I]. *)

From S2P Require Import Prelude NetText BhsStd CcLex.

Record TypeRef := mkTypeRef { t_name : text; array_depth : Z; t_pos : Pos }.

#[warnings="-register-all"]
Inductive Expr :=
  | EInt (v : Z) (p : Pos)
  | EReal (v : f32) (p : Pos)
  | EStr (s : text) (p : Pos)
  | ELocStr (s : text) (p : Pos)
  | EName (s : text) (p : Pos)
  | EArrayLit (items : list Expr) (p : Pos)
  | ECast (ty : TypeRef) (e : Expr) (p : Pos)
  | EUnary (op : P) (e : Expr) (p : Pos)
  | EPreIncDec (inc : bool) (e : Expr) (p : Pos)
  | EPostIncDec (inc : bool) (e : Expr) (p : Pos)
  | EBinary (op : P) (lhs rhs : Expr) (p : Pos)
  | EAssign (op : P) (target value : Expr) (p : Pos)
  | ECall (name : text) (args : list Expr) (p : Pos)
  | EMethodCall (recv : Expr) (name : text) (args : list Expr) (p : Pos)
  | EIndex (base index : Expr) (p : Pos)
  | EMember (base : Expr) (name : text) (p : Pos).

(** [Expr::pos]. *)
Definition expr_pos (e : Expr) : Pos :=
  match e with
  | EInt _ p | EReal _ p | EStr _ p | ELocStr _ p | EName _ p | EArrayLit _ p | ECast _ _ p | EUnary _ _ p
  | EPreIncDec _ _ p | EPostIncDec _ _ p | EBinary _ _ _ p | EAssign _ _ _ p | ECall _ _ p | EMethodCall _ _ _ p
  | EIndex _ _ p | EMember _ _ p => p
  end.

Record Field := mkField { f_ty : TypeRef; f_name : text; fixed_len : option Expr; f_pos : Pos }.
Record StructDef := mkStructDef { s_name : text; fields : list Field; s_pos : Pos }.
Record LabelDef := mkLabelDef { l_name : text; l_value : option Expr; l_pos : Pos }.
Record Param := mkParam { by_ref : bool; p_ty : option TypeRef; p_name : text; p_pos : Pos }.
Record ScriptSig := mkScriptSig {
  ret : option TypeRef; script_type : option text; sig_name : text; params : list Param; sig_pos : Pos }.

Inductive ArraySuffix := Dynamic | Sized (n : Expr).
Record Declarator := mkDeclarator { d_name : text; d_array : option ArraySuffix; d_init : option Expr; d_pos : Pos }.
Record VarDecl := mkVarDecl { is_static : bool; v_ty : option TypeRef; decls : list Declarator; v_pos : Pos }.
Record SwitchCase := mkSwitchCase { case_value : option Expr; case_pos : Pos }.

#[warnings="-register-all"]
Inductive Stmt :=
  | SEmpty (p : Pos)
  | SExpr (e : Expr)
  | SDecl (d : VarDecl)
  | SBlock (b : Block)
  | SIf (cond : Expr) (then_ : Stmt) (els : option Stmt) (p : Pos)
  | SWhile (cond : Expr) (body : Stmt) (p : Pos)
  | SDoWhile (body : Stmt) (cond : Expr) (p : Pos)
  | SFor (init : option Stmt) (cond step : option Expr) (body : Stmt) (p : Pos)
  | SSwitch (subject : Expr) (arms : list SwitchArm) (p : Pos)
  | SBreak (p : Pos)
  | SContinue (p : Pos)
  | SReturn (value : option Expr) (p : Pos)
  | SLabels (defs : list LabelDef) (p : Pos)
  | STrigger (name : option text) (cond : option Expr) (body : Stmt) (p : Pos)
  | SRunOnce (body : Block) (p : Pos)
  | SStruct (d : StructDef)
with Block := mkBlock (stmts : list Stmt) (p : Pos)
with SwitchArm := mkSwitchArm (labels : list SwitchCase) (body : list Stmt).

Record ScriptDef := mkScriptDef { sig : ScriptSig; body : option Block }.
Record MainScript := mkMainScript { m_type : text; m_ret : option TypeRef; m_body : Block; m_pos : Pos }.

Inductive Item :=
  | IInclude (path : text) (p : Pos)
  | ILabels (defs : list LabelDef) (p : Pos)
  | IStruct (d : StructDef)
  | IScript (d : ScriptDef)
  | IMain (m : MainScript)
  | IVar (d : VarDecl).
Record SourceFile := mkSourceFile { path : text; items : list Item }.
