(* ===== verification/CcParse.v ===== *)
(** * The script compiler: parser

    [crates/don-bhs-cc/src/parse.rs]: recursive descent with precedence
    climbing.  The parser is the tokens from the current one on; the last one
    is never passed.  The source limits its recursion by nothing but the native
    stack, so each function takes the depth there is room for, counting the calls
    and the loop rounds under way, and [None] is that depth exceeded: where it is
    the calls, the stack overflow of the code (a panic is [None] too).  A depth
    linear in the source is always enough, and where a smaller one is, the result
    is the same; nesting deeper than the stack overflows it ([CcParseSpec.v]).
    [parse_file_in] takes the depth; [parse_file] is for a stack with room for
    the source.  Diagnostics are constructors, and [array_depth], a [u8], wraps
    as in a release build: in a debug build the 256th pair of brackets of a type
    panics. *)

From S2P Require Import Prelude NetText BhsStd CcLex CcAst.
From Stdlib Require Import Ascii.
From Stdlib Require String.
Import (notations) String.
#[local] Open Scope list_scope.
#[local] Open Scope outcome_scope.
#[local] Open Scope Z_scope.

(** The text of an ASCII literal. *)
Notation "'tx' s" :=
  (ltac:(let v := eval vm_compute in (List.map (fun c => Z.of_N (N_of_ascii c)) (String.list_ascii_of_string s%string)) in exact v))
  (at level 10, s at level 9, only parsing).

Inductive ParseMsg :=
  | LexFailed (m : LexMsg)
  | Expected (p : P) (found : Tok)
  | ExpectedIdent (found : Tok)
  | IncludeString (found : Tok)
  | ExpectedDecl (found : Tok)
  | ExpectedBody (script : text) (found : Tok)
  | EntryShape | NameArray | HeadWords (n : nat) | ParamArray | UnterminatedBlock | ExpectedWhile | UnterminatedSwitch | TypeWords
  | KeywordExpr (name : text)
  | Unexpected (found : Tok).
Record ParseError := mkParseError { pe_pos : Pos; pe_msg : ParseMsg }.

Definition SCRIPT_TYPES : list text := [tx "ai"; tx "scenario"; tx "conquest"].
Definition is_script_type (s : text) : bool := existsb (fun k => eq_ignore_ascii_case k s) SCRIPT_TYPES.
Definition KEYWORDS : list text :=
  [tx "if"; tx "else"; tx "while"; tx "do"; tx "for"; tx "switch"; tx "case"; tx "default"; tx "break"; tx "continue";
   tx "return"; tx "static"; tx "struct"; tx "labels"; tx "trigger"; tx "run_once"; tx "include"; tx "ref"].
Definition is_keyword (s : text) : bool := existsb (fun k => bool_decide (map ascii_lower s = k)) KEYWORDS.

Module Parser.

(** ** Tokens *)

(** [t[i..]]. *)
Abbreviation toks := (list Token).
Definition parser (A : Type) : Type := toks -> outcome ParseError (A * toks).

Definition no_token : Token := mkToken Eof (mkPos 0 0).
Definition peek_at (n : nat) (ts : toks) : Tok := tok (nth (Nat.min n (length ts - 1)) ts no_token).
Definition peek (ts : toks) : Tok := peek_at 0 ts.
Definition pos (ts : toks) : Pos := tpos (nth 0 ts no_token).
Definition bump (ts : toks) : toks := match ts with _ :: (_ :: _) as r => r | _ => ts end.

Definition is_punct (p : P) (t : Tok) : bool := match t with Punct q => bool_decide (q = p) | _ => false end.
Definition is_ident (t : Tok) : bool := match t with Ident _ => true | _ => false end.
Definition is_kw (kw : text) (t : Tok) : bool := match t with Ident s => eq_ignore_ascii_case s kw | _ => false end.

Definition at_eof (ts : toks) : bool := match peek ts with Eof => true | _ => false end.
Definition at_ (p : P) (ts : toks) : bool := is_punct p (peek ts).
Definition at_n (n : nat) (p : P) (ts : toks) : bool := is_punct p (peek_at n ts).
Definition at_kw (kw : text) (ts : toks) : bool := is_kw kw (peek ts).
Definition is_ident_tok (n : nat) (ts : toks) : bool := is_ident (peek_at n ts).
Definition kw_at (n : nat) (ts : toks) : text := match peek_at n ts with Ident s => s | _ => [] end.

Definition err_at {A} (p : Pos) (m : ParseMsg) : outcome ParseError A := fail (mkParseError p m).
Definition err {A} (m : ParseMsg) (ts : toks) : outcome ParseError A := err_at (pos ts) m.

Definition eat (p : P) (ts : toks) : bool * toks := if at_ p ts then (true, bump ts) else (false, ts).
Definition eat_kw (kw : text) (ts : toks) : bool * toks := if at_kw kw ts then (true, bump ts) else (false, ts).
Definition expect (p : P) : parser unit := fun ts =>
  if at_ p ts then done (tt, bump ts) else err (Expected p (peek ts)) ts.
(** The error names the position after the token found. *)
Definition ident : parser text := fun ts =>
  match peek ts with
  | Ident s => done (s, bump ts)
  | other => err (ExpectedIdent other) (bump ts)
  end.

(** [while at("[") && at_n(1, "]")]. *)
Fixpoint brackets (ts : toks) (d : Z) : Z * toks :=
  match ts with
  | t1 :: (t2 :: r) as r1 =>
      if is_punct LBrack (tok t1) && is_punct RBrack (tok t2) then
        match r with [] => (u8 (d + 1), r1) | _ => brackets r (u8 (d + 1)) end
      else (d, ts)
  | _ => (d, ts)
  end.
Definition type_ref : parser TypeRef := fun ts =>
  let p := pos ts in
  run! '(name, ts) := ident ts in
  let '(d, ts) := brackets ts 0 in done (mkTypeRef name d p, ts).

(** ** Expressions *)

Definition is_assign_op (p : P) : bool :=
  match p with
  | Assign | AddAssign | SubAssign | MulAssign | DivAssign | ModAssign | PowAssign | LeftAssign | RightAssign
  | AndAssign | XorAssign | OrAssign => true
  | _ => false
  end.
Definition prec_of (p : P) : option Z :=
  match p with
  | OrOr => Some 1 | AndAnd => Some 2 | Pipe => Some 3 | Caret => Some 4 | Amp => Some 5
  | Eq | Ne => Some 6 | Lt | Gt | Le | Ge => Some 7 | Shl | Shr => Some 8 | Plus | Minus => Some 9
  | Star | Slash | Percent => Some 10 | Pow => Some 11
  | _ => None
  end.
Definition bin_prec (ts : toks) : option (P * Z) :=
  match peek ts with
  | Punct p => match prec_of p with Some n => Some (p, n) | None => None end
  | _ => None
  end.
(** [**] is right-associative. *)
Definition next_min (op : P) (prec : Z) : Z := if bool_decide (op = Pow) then prec else prec + 1.

Definition CAST_TYPES : list text := [tx "int"; tx "float"; tx "real"; tx "string"; tx "void"].
Definition is_cast_type (s : text) : bool := existsb (fun k => bool_decide (map ascii_lower s = k)) CAST_TYPES.
Definition at_cast (ts : toks) : bool :=
  at_ LParen ts && is_ident_tok 1 ts && at_n 2 RParen ts && is_cast_type (kw_at 1 ts).

(** Adjacent string literals. *)
Fixpoint more_strings (ts : toks) : text * toks :=
  match ts with
  | t :: (_ :: _) as r => match tok t with Str s => let '(u, ts) := more_strings r in (s ++ u, ts) | _ => ([], ts) end
  | _ => ([], ts)
  end.

(** [n] is the room on the native stack; out of it, [None]. *)
Fixpoint assign_expr (n : nat) (ts : toks) : outcome ParseError (Expr * toks) :=
  match n with
  | O => None
  | S n =>
      run! '(lhs, ts) := binary_expr n 0 ts in
      match peek ts with
      | Punct op =>
          if is_assign_op op then
            let p := pos ts in
            run! '(value, ts) := assign_expr n (bump ts) in
            done (EAssign op lhs value p, ts)
          else done (lhs, ts)
      | _ => done (lhs, ts)
      end
  end
with binary_expr (n : nat) (min_prec : Z) (ts : toks) : outcome ParseError (Expr * toks) :=
  match n with
  | O => None
  | S n => run! '(lhs, ts) := unary_expr n ts in binary_loop n min_prec lhs ts
  end
with binary_loop (n : nat) (min_prec : Z) (lhs : Expr) (ts : toks) : outcome ParseError (Expr * toks) :=
  match n with
  | O => None
  | S n =>
      match bin_prec ts with
      | Some (op, prec) =>
          if prec <? min_prec then done (lhs, ts)
          else
            let p := pos ts in
            run! '(rhs, ts) := binary_expr n (next_min op prec) (bump ts) in
            binary_loop n min_prec (EBinary op lhs rhs p) ts
      | None => done (lhs, ts)
      end
  end
with unary_expr (n : nat) (ts : toks) : outcome ParseError (Expr * toks) :=
  match n with
  | O => None
  | S n =>
      let p := pos ts in
      if at_cast ts then
        run! '(ty, ts) := type_ref (bump ts) in
        run! '(_, ts) := expect RParen ts in
        run! '(e, ts) := unary_expr n ts in
        done (ECast ty e p, ts)
      else
        match peek ts with
        | Punct Not | Punct Minus | Punct Tilde | Punct Plus =>
            run! '(e, ts') := unary_expr n (bump ts) in
            match peek ts with
            | Punct Plus => done (e, ts')
            | Punct op => done (EUnary op e p, ts')
            | _ => None
            end
        | Punct Inc | Punct Dec =>
            let inc := at_ Inc ts in
            run! '(e, ts) := unary_expr n (bump ts) in
            done (EPreIncDec inc e p, ts)
        | _ => postfix_expr n ts
        end
  end
with postfix_expr (n : nat) (ts : toks) : outcome ParseError (Expr * toks) :=
  match n with
  | O => None
  | S n => run! '(e, ts) := primary_expr n ts in postfix_loop n e ts
  end
with postfix_loop (n : nat) (e : Expr) (ts : toks) : outcome ParseError (Expr * toks) :=
  match n with
  | O => None
  | S n =>
      let p := pos ts in
      if at_ LBrack ts then
        run! '(index, ts) := assign_expr n (bump ts) in
        run! '(_, ts) := expect RBrack ts in
        postfix_loop n (EIndex e index p) ts
      else if at_ Dot ts then
        run! '(name, ts) := ident (bump ts) in
        if at_ LParen ts then
          run! '(args, ts) := call_args n ts in
          postfix_loop n (EMethodCall e name args p) ts
        else postfix_loop n (EMember e name p) ts
      else if at_ Inc ts || at_ Dec ts then
        let inc := at_ Inc ts in
        postfix_loop n (EPostIncDec inc e p) (bump ts)
      else done (e, ts)
  end
with call_args (n : nat) (ts : toks) : outcome ParseError (list Expr * toks) :=
  match n with
  | O => None
  | S n =>
      run! '(_, ts) := expect LParen ts in
      if at_ RParen ts then done ([], bump ts)
      else
        run! '(args, ts) := args_loop n ts in
        run! '(_, ts) := expect RParen ts in
        done (args, ts)
  end
with args_loop (n : nat) (ts : toks) : outcome ParseError (list Expr * toks) :=
  match n with
  | O => None
  | S n =>
      run! '(a, ts) := assign_expr n ts in
      if at_ Comma ts then
        run! '(args, ts) := args_loop n (bump ts) in done (a :: args, ts)
      else done ([a], ts)
  end
with array_items (n : nat) (ts : toks) : outcome ParseError (list Expr * toks) :=
  match n with
  | O => None
  | S n =>
      run! '(a, ts) := assign_expr n ts in
      if at_ Comma ts then
        let ts := bump ts in
        if at_ RBrack ts then done ([a], ts)
        else run! '(items, ts) := array_items n ts in done (a :: items, ts)
      else done ([a], ts)
  end
with primary_expr (n : nat) (ts : toks) : outcome ParseError (Expr * toks) :=
  match n with
  | O => None
  | S n =>
      let p := pos ts in
      match peek ts with
      | Int v => done (EInt v p, bump ts)
      | Real v => done (EReal v p, bump ts)
      | Str s => let '(u, ts) := more_strings (bump ts) in done (EStr (s ++ u) p, ts)
      | LocStr s => done (ELocStr s p, bump ts)
      | Punct LParen =>
          run! '(e, ts) := assign_expr n (bump ts) in
          run! '(_, ts) := expect RParen ts in
          done (e, ts)
      | Punct LBrack =>
          let ts := bump ts in
          run! '(items, ts) := if at_ RBrack ts then done ([], ts) else array_items n ts in
          run! '(_, ts) := expect RBrack ts in
          done (EArrayLit items p, ts)
      | Ident name =>
          if eq_ignore_ascii_case name (tx "true") then done (EInt 1 p, bump ts)
          else if eq_ignore_ascii_case name (tx "false") then done (EInt 0 p, bump ts)
          else if is_keyword name then err_at p (KeywordExpr name)
          else
            let ts := bump ts in
            if at_ LParen ts then
              run! '(args, ts) := call_args n ts in done (ECall name args p, ts)
            else done (EName name p, ts)
      | other => err_at p (Unexpected other)
      end
  end.
Definition expr (n : nat) : parser Expr := assign_expr n.

(** ** Declarations *)

Definition at_decl (ts : toks) : bool :=
  if at_kw (tx "static") ts || at_kw (tx "const") ts then true
  else if negb (is_ident_tok 0 ts) || is_keyword (kw_at 0 ts) then false
  else if is_ident_tok 1 ts && negb (is_keyword (kw_at 1 ts)) then true
  else at_n 1 LBrack ts && at_n 2 RBrack ts && is_ident_tok 3 ts.

Definition opt_expr (n : nat) (stop : P) : parser (option Expr) := fun ts =>
  if at_ stop ts then done (None, ts) else run! '(e, ts) := expr n ts in done (Some e, ts).
(** [= expr], if there. *)
Definition initialiser (n : nat) : parser (option Expr) := fun ts =>
  if at_ Assign ts then run! '(e, ts) := expr n (bump ts) in done (Some e, ts) else done (None, ts).

(** The round of [labels_block] after the opening brace. *)
Fixpoint labels_loop (n : nat) (ts : toks) : outcome ParseError (list LabelDef * toks) :=
  match n with
  | O => None
  | S n =>
      if at_ RBrace ts then done ([], bump ts)
      else if at_ Comma ts then labels_loop n (bump ts)
      else
        let p := pos ts in
        run! '(name, ts) := ident ts in
        run! '(value, ts) := initialiser n ts in
        let ts := if at_ Comma ts then bump ts else snd (eat Semi ts) in
        run! '(defs, ts) := labels_loop n ts in
        done (mkLabelDef name value p :: defs, ts)
  end.
Definition labels_block (n : nat) : parser (list LabelDef) := fun ts =>
  run! '(_, ts) := expect LBrace ts in labels_loop n ts.

(** [[n]] or [[]] after a field's name. *)
Definition field_len (n : nat) : parser (option Expr) := fun ts =>
  if at_ LBrack ts then
    run! '(len, ts) := opt_expr n RBrack (bump ts) in
    run! '(_, ts) := expect RBrack ts in
    done (len, ts)
  else done (None, ts).
(** The names of one field declaration. *)
Fixpoint field_names (n : nat) (ty : TypeRef) (fpos : Pos) (ts : toks) : outcome ParseError (list Field * toks) :=
  match n with
  | O => None
  | S n =>
      run! '(name, ts) := ident ts in
      run! '(len, ts) := field_len n ts in
      let f := mkField ty name len fpos in
      if at_ Comma ts then
        run! '(fs, ts) := field_names n ty fpos (bump ts) in done (f :: fs, ts)
      else done ([f], ts)
  end.
Fixpoint fields_loop (n : nat) (ts : toks) : outcome ParseError (list Field * toks) :=
  match n with
  | O => None
  | S n =>
      if at_ RBrace ts then done ([], ts)
      else if at_ Semi ts then fields_loop n (bump ts)
      else
        let fpos := pos ts in
        run! '(ty, ts) := type_ref ts in
        run! '(fs, ts) := field_names n ty fpos ts in
        run! '(_, ts) := expect Semi ts in
        run! '(more, ts) := fields_loop n ts in
        done (fs ++ more, ts)
  end.
Definition struct_def (n : nat) : parser StructDef := fun ts =>
  let p := pos ts in
  run! '(name, ts) := ident (bump ts) in
  run! '(_, ts) := expect LBrace ts in
  run! '(fs, ts) := fields_loop n ts in
  run! '(_, ts) := expect RBrace ts in
  done (mkStructDef name fs p, snd (eat Semi ts)).

Definition array_suffix (n : nat) : parser (option ArraySuffix) := fun ts =>
  if at_ LBrack ts then
    run! '(len, ts) := opt_expr n RBrack (bump ts) in
    run! '(_, ts) := expect RBrack ts in
    done (Some (match len with None => Dynamic | Some e => Sized e end), ts)
  else done (None, ts).
Fixpoint declarators (n : nat) (ts : toks) : outcome ParseError (list Declarator * toks) :=
  match n with
  | O => None
  | S n =>
      let dpos := pos ts in
      run! '(name, ts) := ident ts in
      run! '(array, ts) := array_suffix n ts in
      run! '(init, ts) := initialiser n ts in
      let d := mkDeclarator name array init dpos in
      if at_ Comma ts then
        run! '(ds, ts) := declarators n (bump ts) in done (d :: ds, ts)
      else done ([d], ts)
  end.
Definition finish_var_decl (n : nat) (is_static : bool) (head : list TypeRef) (p : Pos) : parser VarDecl := fun ts =>
  match head with
  | _ :: _ :: _ => err_at p TypeWords
  | _ =>
      run! '(ds, ts) := declarators n ts in
      run! '(_, ts) := expect Semi ts in
      done (mkVarDecl is_static (List.hd_error head) ds p, ts)
  end.

(** The leading [static] and [const] words. *)
Fixpoint qualifiers (n : nat) (is_static : bool) (ts : toks) : outcome ParseError (bool * toks) :=
  match n with
  | O => None
  | S n =>
      if at_kw (tx "static") ts then qualifiers n true (bump ts)
      else if at_kw (tx "const") ts then qualifiers n is_static (bump ts)
      else done (is_static, ts)
  end.
Definition var_decl_stmt (n : nat) : parser VarDecl := fun ts =>
  let p := pos ts in
  run! '(is_static, ts) := qualifiers n false ts in
  run! '(head, ts) :=
    if is_ident_tok 0 ts && (is_ident_tok 1 ts || (at_n 1 LBrack ts && at_n 2 RBrack ts))
    then run! '(ty, ts) := type_ref ts in done ([ty], ts)
    else done ([], ts) in
  finish_var_decl n is_static head p ts.

(** ** Statements *)

(** The last arm takes a label or a statement; [arms] in source order. *)
Definition add_label (l : SwitchCase) (arms : list SwitchArm) : list SwitchArm :=
  match last arms with
  | Some (mkSwitchArm ls []) => removelast arms ++ [mkSwitchArm (ls ++ [l]) []]
  | _ => arms ++ [mkSwitchArm [l] []]
  end.
Definition add_stmt (s : Stmt) (arms : list SwitchArm) : list SwitchArm :=
  match last arms with
  | Some (mkSwitchArm ls b) => removelast arms ++ [mkSwitchArm ls (b ++ [s])]
  | None => arms ++ [mkSwitchArm [] [s]]
  end.

Fixpoint stmt (n : nat) (ts : toks) : outcome ParseError (Stmt * toks) :=
  match n with
  | O => None
  | S n =>
      let p := pos ts in
      if at_ Semi ts then done (SEmpty p, bump ts)
      else if at_ LBrace ts then run! '(b, ts) := block n ts in done (SBlock b, ts)
      else if at_kw (tx "struct") ts then run! '(d, ts) := struct_def n ts in done (SStruct d, ts)
      else if at_kw (tx "labels") ts then run! '(defs, ts) := labels_block n (bump ts) in done (SLabels defs p, ts)
      else if at_kw (tx "if") ts then
        run! '(_, ts) := expect LParen (bump ts) in
        run! '(cond, ts) := expr n ts in
        run! '(_, ts) := expect RParen ts in
        run! '(then_, ts) := stmt n ts in
        if at_kw (tx "else") ts then
          run! '(els, ts) := stmt n (bump ts) in done (SIf cond then_ (Some els) p, ts)
        else done (SIf cond then_ None p, ts)
      else if at_kw (tx "while") ts then
        run! '(_, ts) := expect LParen (bump ts) in
        run! '(cond, ts) := expr n ts in
        run! '(_, ts) := expect RParen ts in
        run! '(body, ts) := stmt n ts in
        done (SWhile cond body p, ts)
      else if at_kw (tx "do") ts then
        run! '(body, ts) := stmt n (bump ts) in
        if negb (at_kw (tx "while") ts) then err ExpectedWhile ts
        else
          run! '(_, ts) := expect LParen (bump ts) in
          run! '(cond, ts) := expr n ts in
          run! '(_, ts) := expect RParen ts in
          run! '(_, ts) := expect Semi ts in
          done (SDoWhile body cond p, ts)
      else if at_kw (tx "for") ts then
        run! '(_, ts) := expect LParen (bump ts) in
        run! '(init, ts) :=
          if at_ Semi ts then done (None, bump ts)
          else if at_decl ts then run! '(d, ts) := var_decl_stmt n ts in done (Some (SDecl d), ts)
          else
            run! '(e, ts) := expr n ts in
            run! '(_, ts) := expect Semi ts in
            done (Some (SExpr e), ts) in
        run! '(cond, ts) := opt_expr n Semi ts in
        run! '(_, ts) := expect Semi ts in
        run! '(step, ts) := opt_expr n RParen ts in
        run! '(_, ts) := expect RParen ts in
        run! '(body, ts) := stmt n ts in
        done (SFor init cond step body p, ts)
      else if at_kw (tx "switch") ts then
        run! '(_, ts) := expect LParen (bump ts) in
        run! '(subject, ts) := expr n ts in
        run! '(_, ts) := expect RParen ts in
        run! '(_, ts) := expect LBrace ts in
        run! '(arms, ts) := switch_loop n p [] ts in
        run! '(_, ts) := expect RBrace ts in
        done (SSwitch subject arms p, ts)
      else if at_kw (tx "break") ts then run! '(_, ts) := expect Semi (bump ts) in done (SBreak p, ts)
      else if at_kw (tx "continue") ts then run! '(_, ts) := expect Semi (bump ts) in done (SContinue p, ts)
      else if at_kw (tx "return") ts then
        run! '(value, ts) := opt_expr n Semi (bump ts) in
        run! '(_, ts) := expect Semi ts in
        done (SReturn value p, ts)
      else if at_kw (tx "run_once") ts then run! '(body, ts) := block n (bump ts) in done (SRunOnce body p, ts)
      else if at_kw (tx "trigger") ts then
        let ts := bump ts in
        run! '(name, ts) := if is_ident_tok 0 ts then run! '(s, ts) := ident ts in done (Some s, ts) else done (None, ts) in
        run! '(cond, ts) :=
          if at_ LParen ts then
            run! '(c, ts) := opt_expr n RParen (bump ts) in
            run! '(_, ts) := expect RParen ts in
            done (c, ts)
          else done (None, ts) in
        run! '(body, ts) := stmt n ts in
        done (STrigger name cond body p, ts)
      else if at_decl ts then run! '(d, ts) := var_decl_stmt n ts in done (SDecl d, ts)
      else
        run! '(e, ts) := expr n ts in
        done (SExpr e, snd (eat Semi ts))
  end
with block (n : nat) (ts : toks) : outcome ParseError (Block * toks) :=
  match n with
  | O => None
  | S n =>
      let p := pos ts in
      run! '(_, ts) := expect LBrace ts in
      run! '(ss, ts) := stmts_loop n p ts in
      run! '(_, ts) := expect RBrace ts in
      done (mkBlock ss p, ts)
  end
with stmts_loop (n : nat) (p : Pos) (ts : toks) : outcome ParseError (list Stmt * toks) :=
  match n with
  | O => None
  | S n =>
      if at_ RBrace ts then done ([], ts)
      else if at_eof ts then err_at p UnterminatedBlock
      else
        run! '(s, ts) := stmt n ts in
        run! '(ss, ts) := stmts_loop n p ts in
        done (s :: ss, ts)
  end
with switch_loop (n : nat) (p : Pos) (arms : list SwitchArm) (ts : toks) : outcome ParseError (list SwitchArm * toks) :=
  match n with
  | O => None
  | S n =>
      if at_ RBrace ts then done (arms, ts)
      else if at_eof ts then err_at p UnterminatedSwitch
      else if at_kw (tx "case") ts || at_kw (tx "default") ts then
        let lpos := pos ts in
        let is_default := at_kw (tx "default") ts in
        let ts := bump ts in
        run! '(value, ts) := if is_default then done (None, ts) else run! '(e, ts) := expr n ts in done (Some e, ts) in
        run! '(_, ts) := expect Colon ts in
        switch_loop n p (add_label (mkSwitchCase value lpos) arms) ts
      else
        run! '(s, ts) := stmt n ts in
        switch_loop n p (add_stmt s arms) ts
  end.

(** ** File scope *)

(** One parameter. *)
Definition param : parser Param := fun ts =>
  let p := pos ts in
  let '(by_ref, ts) := eat_kw (tx "ref") ts in
  let ts := snd (eat_kw (tx "const") ts) in
  run! '(first, ts) := type_ref ts in
  run! '(ty, name, ts) :=
    if is_ident_tok 0 ts then run! '(s, ts) := ident ts in done (Some first, s, ts)
    else if negb (array_depth first =? 0) then err_at p ParamArray
    else done (None, t_name first, ts) in
  if at_ LBrack ts && at_n 1 RBrack ts then
    let ty := option_map (fun t => mkTypeRef (t_name t) (u8 (array_depth t + 1)) (t_pos t)) ty in
    done (mkParam by_ref ty name p, bump (bump ts))
  else done (mkParam by_ref ty name p, ts).
Fixpoint params_loop (n : nat) (ts : toks) : outcome ParseError (list Param * toks) :=
  match n with
  | O => None
  | S n =>
      run! '(q, ts) := param ts in
      if at_ Comma ts then
        run! '(qs, ts) := params_loop n (bump ts) in done (q :: qs, ts)
      else done ([q], ts)
  end.
Definition params (n : nat) : parser (list Param) := fun ts =>
  run! '(_, ts) := expect LParen ts in
  if at_ RParen ts then done ([], bump ts)
  else if at_kw (tx "void") ts && at_n 1 RParen ts then done ([], bump (bump ts))
  else
    run! '(ps, ts) := params_loop n ts in
    run! '(_, ts) := expect RParen ts in
    done (ps, ts).

(** Popping the name of an empty head panics. *)
Definition script_sig (n : nat) (head : list TypeRef) (p : Pos) : parser ScriptSig := fun ts =>
  match last head with
  | None => None
  | Some name_ty =>
      if negb (array_depth name_ty =? 0) then err_at p NameArray
      else
        run! '(ret, script_type) :=
          match removelast head with
          | [] => done (None, None)
          | [w] => if (array_depth w =? 0) && is_script_type (t_name w) then done (None, Some (t_name w)) else done (Some w, None)
          | [rt; st] => done (Some rt, Some (t_name st))
          | ws => err_at p (HeadWords (length ws))
          end in
        run! '(ps, ts) := params n ts in
        done (mkScriptSig ret script_type (t_name name_ty) ps p, ts)
  end.

(** The run of types at the head of an item. *)
Fixpoint head_loop (n : nat) (ts : toks) : outcome ParseError (list TypeRef * toks) :=
  match n with
  | O => None
  | S n =>
      run! '(t, ts) := type_ref ts in
      if is_ident_tok 0 ts then run! '(head, ts) := head_loop n ts in done (t :: head, ts)
      else done ([t], ts)
  end.
Definition script_or_var_item (n : nat) : parser Item := fun ts =>
  let p := pos ts in
  if negb (is_ident_tok 0 ts) then err (ExpectedDecl (peek ts)) ts
  else
    run! '(head, ts) := head_loop n ts in
    if at_ LParen ts then
      run! '(s, ts) := script_sig n head p ts in
      if at_ Semi ts then done (IScript (mkScriptDef s None), bump ts)
      else if at_ LBrace ts then run! '(b, ts) := block n ts in done (IScript (mkScriptDef s (Some b)), ts)
      else err (ExpectedBody (sig_name s) (peek ts)) ts
    else if at_ LBrace ts then
      run! '(script_type, ret) :=
        match head with
        | [t] => done (t_name t, None)
        | [r; t] => done (t_name t, Some r)
        | _ => err_at p EntryShape
        end in
      run! '(b, ts) := block n ts in
      done (IMain (mkMainScript script_type ret b p), ts)
    else run! '(d, ts) := finish_var_decl n false head p ts in done (IVar d, ts).

Definition item (n : nat) : parser Item := fun ts =>
  let p := pos ts in
  if at_kw (tx "include") ts then
    let ts := bump ts in
    match peek ts with
    | Str s => done (IInclude s p, snd (eat Semi (bump ts)))
    | other => err_at p (IncludeString other)
    end
  else if at_kw (tx "labels") ts then run! '(defs, ts) := labels_block n (bump ts) in done (ILabels defs p, ts)
  else if at_kw (tx "struct") ts then run! '(d, ts) := struct_def n ts in done (IStruct d, ts)
  else if at_kw (tx "static") ts || at_kw (tx "const") ts then run! '(d, ts) := var_decl_stmt n ts in done (IVar d, ts)
  else script_or_var_item n ts.

Fixpoint items_loop (n : nat) (ts : toks) : outcome ParseError (list Item) :=
  match n with
  | O => None
  | S n =>
      if at_eof ts then done []
      else if at_ Semi ts then items_loop n (bump ts)
      else
        run! '(i, ts) := item n ts in
        run! out := items_loop n ts in
        done (i :: out)
  end.

(** Enough depth for the longest chain of calls that read no token, at every
    token. *)
Definition bound (ts : toks) : nat := 16 * length ts + 16.
Definition parse_tokens (ts : toks) : outcome ParseError (list Item) := items_loop (bound ts) ts.

End Parser.

(** [parse_file] on a stack with room for [depth] calls and loop rounds. *)
Definition parse_file_in (depth : nat) (path : text) (source : text) : outcome ParseError SourceFile :=
  match lex source with
  | None => None
  | Some (Err e) => fail (mkParseError (le_pos e) (LexFailed (le_msg e)))
  | Some (Ok ts) => run! items := Parser.items_loop depth ts in done (mkSourceFile path items)
  end.
(** [parse_file] on a stack with room for the source. *)
Definition parse_file (path : text) (source : text) : outcome ParseError SourceFile :=
  match lex source with
  | None => None
  | Some (Err e) => fail (mkParseError (le_pos e) (LexFailed (le_msg e)))
  | Some (Ok ts) => run! items := Parser.parse_tokens ts in done (mkSourceFile path items)
  end.
