(* ===== verification/CcParseSpec.v ===== *)
(** * The script compiler: the parser ends

    On tokens that end with the end of file, as the lexer's do, every function
    of the parser returns within a depth linear in the tokens, having read at
    least one token where it reads any, and what it returns does not depend on
    the depth; so [parse_file] ends with one result on every stack that has room
    for the source.  On a smaller stack, nesting overflows it. *)

From S2P Require Import Prelude NetText BhsStd CcLex CcLexSpec CcAst CcParse.
From Stdlib Require Import Ascii.
From Stdlib Require String.
Import (notations) String.
#[local] Open Scope list_scope.
#[local] Open Scope outcome_scope.
Import Parser.

(** ** Reading tokens *)

(** Tokens that end with the end of file. *)
Definition ends (ts : toks) : Prop := exists t, last ts = Some t /\ tok t = Eof.

Lemma ends_length ts : ends ts -> (1 <= length ts)%nat.
Proof. intros (t & H & _). destruct ts; [done|cbn; lia]. Qed.

Lemma peek_cons t r : peek (t :: r) = tok t.
Proof. unfold peek, peek_at. by rewrite Nat.min_0_l. Qed.

Lemma bump_peek ts : ends ts -> peek ts <> Eof -> ends (bump ts) /\ (length (bump ts) < length ts)%nat.
Proof.
  intros (e & Hl & He) Hp. destruct ts as [|t [|t2 r]]; [done| |].
  - exfalso. apply Hp. rewrite peek_cons. by injection Hl as ->.
  - split; [by exists e|cbn; lia].
Qed.
Lemma bump_le ts : ends ts -> ends (bump ts) /\ (length (bump ts) <= length ts)%nat.
Proof. intros (e & Hl & He). destruct ts as [|t [|t2 r]]; [done|split; [by exists e|done]|]. split; [by exists e|cbn; lia]. Qed.

Lemma at_peek p ts : at_ p ts = true -> peek ts = Punct p.
Proof. unfold at_, is_punct. destruct (peek ts); try done. by intros ->%bool_decide_eq_true. Qed.
Lemma at_kw_peek kw ts : at_kw kw ts = true -> exists s, peek ts = Ident s.
Proof. unfold at_kw, is_kw. destruct (peek ts); try done. eauto. Qed.

Lemma bump_at p ts : ends ts -> at_ p ts = true -> ends (bump ts) /\ (length (bump ts) < length ts)%nat.
Proof. intros He H. apply bump_peek; [done|]. by rewrite (at_peek p). Qed.
Lemma bump_kw kw ts : ends ts -> at_kw kw ts = true -> ends (bump ts) /\ (length (bump ts) < length ts)%nat.
Proof. intros He H. apply bump_peek; [done|]. by destruct (at_kw_peek kw ts H) as [s ->]. Qed.
Lemma eat_le p ts : ends ts -> ends (snd (eat p ts)) /\ (length (snd (eat p ts)) <= length ts)%nat.
Proof. intros He. unfold eat. destruct (at_ p ts); [by apply bump_le|done]. Qed.
Lemma eat_kw_le kw ts : ends ts -> ends (snd (eat_kw kw ts)) /\ (length (snd (eat_kw kw ts)) <= length ts)%nat.
Proof. intros He. unfold eat_kw. destruct (at_kw kw ts); [by apply bump_le|done]. Qed.

(** The outcome is not [None], and what is left after it is at most [m]
    tokens that end with the end of file. *)
Definition lands {A} (m : nat) (c : outcome ParseError (A * toks)) : Prop :=
  match c with
  | None => False
  | Some (Err _) => True
  | Some (Ok (_, ts)) => ends ts /\ (length ts <= m)%nat
  end.

Lemma lands_bind {A B} m1 m (c : outcome ParseError (A * toks)) (k : A * toks -> outcome ParseError (B * toks)) :
  lands m1 c -> (forall x ts, ends ts -> (length ts <= m1)%nat -> lands m (k (x, ts))) -> lands m (obind c k).
Proof. destruct c as [[[x ts]|e]|]; cbn; [|done|done]. intros [H1 H2] H. by apply H. Qed.
Lemma lands_weaken {A} m1 m (c : outcome ParseError (A * toks)) : lands m1 c -> (m1 <= m)%nat -> lands m c.
Proof. destruct c as [[[x ts]|e]|]; cbn; [|done|done]. intros [? ?] ?. split; [done|lia]. Qed.
Lemma lands_done {A} m (x : A) ts : ends ts -> (length ts <= m)%nat -> lands m (done (x, ts)).
Proof. done. Qed.

Lemma expect_lands p ts : ends ts -> lands (length ts - 1) (expect p ts).
Proof.
  intros He. unfold expect. destruct (at_ p ts) eqn:E; [|done]. destruct (bump_at p ts He E). apply lands_done; [done|lia].
Qed.
Lemma ident_lands ts : ends ts -> lands (length ts - 1) (ident ts).
Proof.
  intros He. unfold ident. destruct (peek ts) eqn:E; try done. destruct (bump_peek ts He) as [? ?]; [by rewrite E|].
  apply lands_done; [done|lia].
Qed.
Lemma brackets_le ts d : ends ts -> ends (snd (brackets ts d)) /\ (length (snd (brackets ts d)) <= length ts)%nat.
Proof.
  enough (H : forall n ts d, (length ts <= n)%nat -> ends ts -> ends (snd (brackets ts d)) /\ (length (snd (brackets ts d)) <= length ts)%nat)
    by by eapply H.
  clear ts d. induction n as [|n IH]; intros ts d Hn He; destruct ts as [|t1 [|t2 r]]; cbn [length] in Hn; try lia; try done.
  cbn [brackets]. destruct (_ && _); [|done]. destruct r as [|t3 r]; [split; [|cbn; lia]|].
  - destruct He as (e & Hl & ?). by exists e.
  - destruct (IH (t3 :: r) (u8 (d + 1))) as [? ?]; [cbn [length] in *; lia| |split; [done|cbn [length] in *; lia]].
    destruct He as (e & Hl & ?). by exists e.
Qed.
Lemma type_ref_lands ts : ends ts -> lands (length ts - 1) (type_ref ts).
Proof.
  intros He. unfold type_ref. eapply lands_bind; [by apply ident_lands|]. intros name ts' He' Hl.
  pose proof (brackets_le ts' 0 He') as [? ?]. destruct (brackets ts' 0) as [d ts2]. cbn [snd] in *. apply lands_done; [done|lia].
Qed.
Lemma more_strings_le ts : ends ts -> ends (snd (more_strings ts)) /\ (length (snd (more_strings ts)) <= length ts)%nat.
Proof.
  induction ts as [|t r IH]; intros He; [done|]. cbn [more_strings]. destruct r as [|t2 r]; [done|].
  destruct (tok t); try done. assert (He' : ends (t2 :: r)) by (destruct He as (e & Hl & ?); by exists e).
  destruct (IH He') as [? ?]. destruct (more_strings (t2 :: r)) as [u ts']. cbn [snd length] in *. split; [done|lia].
Qed.

(** The next token, once read: the bump moved. *)
Ltac reading :=
  repeat match goal with
  | He : ends ?ts, H : at_ ?p ?ts = true |- _ =>
      lazymatch goal with _ : ends (bump ts) |- _ => fail | _ => idtac end;
      let A := fresh "He" in let B := fresh "Hl" in destruct (bump_at p ts He H) as [A B]
  | He : ends ?ts, H : at_kw ?p ?ts = true |- _ =>
      lazymatch goal with _ : ends (bump ts) |- _ => fail | _ => idtac end;
      let A := fresh "He" in let B := fresh "Hl" in destruct (bump_kw p ts He H) as [A B]
  | He : ends ?ts, H : peek ?ts = ?t |- _ =>
      lazymatch goal with _ : ends (bump ts) |- _ => fail | _ => idtac end;
      let A := fresh "He" in let B := fresh "Hl" in destruct (bump_peek ts He) as [A B]; [rewrite H; discriminate|]
  end.
(** Arithmetic on the numbers of tokens left. *)
Ltac size :=
  repeat match goal with
  | H : ends ?ts |- _ => lazymatch goal with _ : (1 <= length ts)%nat |- _ => fail | _ => pose proof (ends_length ts H) end
  end; lia.

(** Steps known to land, by [lands] hints; [walk] goes through a body. *)
Create HintDb lands.
#[export] Hint Resolve expect_lands ident_lands type_ref_lands : lands.
#[export] Hint Extern 1 (ends _) => assumption : lands.
#[export] Hint Extern 1 (_ <= _)%nat => size : lands.

Lemma obind_done {E A B} (x : A) (k : A -> outcome E B) : obind (done x) k = k x.
Proof. done. Qed.

Lemma obind_assoc {E A B C} (c : outcome E A) (k : A -> outcome E B) (k' : B -> outcome E C) :
  obind (obind c k) k' = obind c (fun x => obind (k x) k').
Proof. by destruct c as [[?|?]|]. Qed.

Ltac walk1 :=
  match goal with
  | |- lands _ (done _) => apply lands_done; [assumption|size]
  | |- lands _ (err _ _) => exact I
  | |- lands _ (err_at _ _) => exact I
  | |- lands _ (obind (done _) _) => rewrite obind_done; cbn beta iota
  | |- lands _ (obind (err_at _ _) _) => exact I
  | |- lands _ (obind (if ?b then _ else _) _) => let E := fresh "E" in destruct b eqn:E; reading
  | |- lands _ (obind (obind _ _) _) => rewrite obind_assoc
  | |- lands _ (obind _ _) => eapply lands_bind; [solve [eauto with lands]|intros ? ? ? ?; cbn beta iota]
  | |- lands _ (if ?b then _ else _) => let E := fresh "E" in destruct b eqn:E; reading
  | |- lands _ (let '(_, _) := ?c in _) => fail
  end.
Ltac walk := cbn beta iota zeta; repeat (walk1; cbn beta iota zeta).

(** ** Expressions *)

Abbreviation need ts k n := (16 * length ts + k <= n)%nat.

Record expr_ok (n : nat) : Prop := {
  ok_assign ts : ends ts -> need ts 6 n -> lands (length ts - 1) (assign_expr n ts);
  ok_binary m ts : ends ts -> need ts 5 n -> lands (length ts - 1) (binary_expr n m ts);
  ok_bloop m e ts : ends ts -> need ts 5 n -> lands (length ts) (binary_loop n m e ts);
  ok_unary ts : ends ts -> need ts 4 n -> lands (length ts - 1) (unary_expr n ts);
  ok_postfix ts : ends ts -> need ts 3 n -> lands (length ts - 1) (postfix_expr n ts);
  ok_ploop e ts : ends ts -> need ts 5 n -> lands (length ts) (postfix_loop n e ts);
  ok_args ts : ends ts -> need ts 1 n -> lands (length ts - 1) (call_args n ts);
  ok_aloop ts : ends ts -> need ts 7 n -> lands (length ts - 1) (args_loop n ts);
  ok_items ts : ends ts -> need ts 7 n -> lands (length ts - 1) (array_items n ts);
  ok_primary ts : ends ts -> need ts 2 n -> lands (length ts - 1) (primary_expr n ts) }.
#[export] Hint Resolve ok_assign ok_binary ok_bloop ok_unary ok_postfix ok_ploop ok_args ok_aloop ok_items ok_primary : lands.

(** A call in tail position. *)
Ltac tail_call := eapply lands_weaken; [solve [eauto with lands]|size].

Lemma expr_ok_all n : expr_ok n.
Proof.
  induction n as [|n IH]; [constructor; intros; size|]. constructor.
  - intros ts He Hn. cbn [assign_expr]. walk. destruct (peek ts0) eqn:Ep; walk.
  - intros m ts He Hn. cbn [binary_expr]. walk. tail_call.
  - intros m e ts He Hn. cbn [binary_loop]. destruct (bin_prec ts) as [[op prec]|] eqn:Eb; [|walk].
    assert (Hp : exists q, peek ts = Punct q) by (unfold bin_prec in Eb; destruct (peek ts); eauto; done). destruct Hp as [q Hp].
    reading. walk. tail_call.
  - intros ts He Hn. cbn [unary_expr]. cbn zeta. destruct (at_cast ts) eqn:Ec.
    + assert (at_ LParen ts = true) by (unfold at_cast in Ec; destruct (at_ LParen ts); done). reading. walk.
    + destruct (peek ts) as [| | | | |q|] eqn:Ep; try tail_call. reading. destruct q; try tail_call; walk.
  - intros ts He Hn. cbn [postfix_expr]. walk. tail_call.
  - intros e ts He Hn. cbn [postfix_loop]. walk; try tail_call. apply orb_true_iff in E1 as [E1|E1]; reading; tail_call.
  - intros ts He Hn. cbn [call_args]. walk.
  - intros ts He Hn. cbn [args_loop]. walk.
  - intros ts He Hn. cbn [array_items]. walk.
  - intros ts He Hn. cbn [primary_expr]. cbn zeta. destruct (peek ts) as [s| | |s| |q|] eqn:Ep; try (reading; walk; fail).
    + reading. pose proof (more_strings_le (bump ts) He0) as [? ?]. destruct (more_strings (bump ts)) as [u ts']. cbn [snd] in *. walk.
    + destruct q; try exact I; reading; walk.
Qed.
#[export] Hint Resolve expr_ok_all : lands.

Lemma expr_lands n ts : ends ts -> need ts 6 n -> lands (length ts - 1) (expr n ts).
Proof. intros. apply ok_assign; [apply expr_ok_all|done|done]. Qed.
#[export] Hint Resolve expr_lands : lands.

(** ** Declarations *)

Lemma opt_expr_lands n stop ts : ends ts -> need ts 6 n -> lands (length ts) (opt_expr n stop ts).
Proof. intros He Hn. unfold opt_expr. walk. Qed.
Lemma initialiser_lands n ts : ends ts -> need ts 1 n -> lands (length ts) (initialiser n ts).
Proof. intros He Hn. unfold initialiser. walk. Qed.
#[export] Hint Resolve opt_expr_lands initialiser_lands : lands.

Lemma labels_loop_lands n ts : ends ts -> need ts 1 n -> lands (length ts - 1) (labels_loop n ts).
Proof.
  revert ts. induction n as [|n IH]; intros ts He Hn; [size|]. cbn [labels_loop]. walk; [tail_call|].
  pose proof (eat_le Semi ts1 H1) as [? ?].
  assert (ends (if at_ Comma ts1 then bump ts1 else snd (eat Semi ts1)) /\
          (length (if at_ Comma ts1 then bump ts1 else snd (eat Semi ts1)) <= length ts1)%nat) as [? ?].
  { destruct (at_ Comma ts1); [by apply bump_le|done]. }
  eapply lands_bind; [apply IH; [done|size]|]. intros. walk.
Qed.
#[export] Hint Resolve labels_loop_lands : lands.
Lemma labels_block_lands n ts : ends ts -> need ts 1 n -> lands (length ts - 1) (labels_block n ts).
Proof. intros He Hn. unfold labels_block. walk. tail_call. Qed.

Lemma field_len_lands n ts : ends ts -> need ts 1 n -> lands (length ts) (field_len n ts).
Proof. intros He Hn. unfold field_len. walk. Qed.
Lemma array_suffix_lands n ts : ends ts -> need ts 1 n -> lands (length ts) (array_suffix n ts).
Proof. intros He Hn. unfold array_suffix. walk. Qed.
#[export] Hint Resolve labels_block_lands field_len_lands array_suffix_lands : lands.

Lemma field_names_lands n ty p ts : ends ts -> need ts 1 n -> lands (length ts - 1) (field_names n ty p ts).
Proof. revert ts. induction n as [|n IH]; intros ts He Hn; [size|]. cbn [field_names]. walk. Qed.
#[export] Hint Resolve field_names_lands : lands.
Lemma fields_loop_lands n ts : ends ts -> need ts 1 n -> lands (length ts) (fields_loop n ts).
Proof. revert ts. induction n as [|n IH]; intros ts He Hn; [size|]. cbn [fields_loop]. walk. tail_call. Qed.
#[export] Hint Resolve fields_loop_lands : lands.
Lemma struct_def_lands n ts s : ends ts -> peek ts = Ident s -> need ts 1 n -> lands (length ts - 1) (struct_def n ts).
Proof. intros He Hp Hn. unfold struct_def. reading. walk. pose proof (eat_le Semi ts3 H5) as [? ?]. walk. Qed.

Lemma declarators_lands n ts : ends ts -> need ts 1 n -> lands (length ts - 1) (declarators n ts).
Proof. revert ts. induction n as [|n IH]; intros ts He Hn; [size|]. cbn [declarators]. walk. Qed.
#[export] Hint Resolve declarators_lands : lands.
Lemma finish_var_decl_lands n b head p ts : ends ts -> need ts 1 n -> lands (length ts - 1) (finish_var_decl n b head p ts).
Proof. intros He Hn. unfold finish_var_decl. destruct head as [|? [|? ?]]; walk. Qed.
Lemma qualifiers_lands n b ts : ends ts -> need ts 1 n -> lands (length ts) (qualifiers n b ts).
Proof. revert b ts. induction n as [|n IH]; intros b ts He Hn; [size|]. cbn [qualifiers]. walk; tail_call. Qed.
#[export] Hint Resolve finish_var_decl_lands qualifiers_lands : lands.
Lemma var_decl_stmt_lands n ts : ends ts -> need ts 1 n -> lands (length ts - 1) (var_decl_stmt n ts).
Proof. intros He Hn. unfold var_decl_stmt. walk; try tail_call. Qed.
#[export] Hint Resolve var_decl_stmt_lands : lands.

(** ** Statements *)

Record stmt_ok (n : nat) : Prop := {
  ok_stmt ts : ends ts -> need ts 8 n -> lands (length ts - 1) (stmt n ts);
  ok_block ts : ends ts -> need ts 7 n -> lands (length ts - 1) (block n ts);
  ok_stmts p ts : ends ts -> need ts 9 n -> lands (length ts) (stmts_loop n p ts);
  ok_switch p arms ts : ends ts -> need ts 9 n -> lands (length ts) (switch_loop n p arms ts) }.
#[export] Hint Resolve ok_stmt ok_block ok_stmts ok_switch : lands.
#[export] Hint Extern 1 (lands _ (struct_def _ ?ts)) =>
  match goal with H : at_kw _ ts = true |- _ => destruct (at_kw_peek _ _ H); eapply struct_def_lands end : lands.

Lemma stmt_ok_all n : stmt_ok n.
Proof.
  induction n as [|n IH]; [constructor; intros; size|]. constructor.
  - intros ts He Hn. cbn [stmt]. walk.
    + apply negb_false_iff in E6. reading. walk.
    + pose proof (eat_le Semi ts0 H) as [? ?]. walk.
  - intros ts He Hn. cbn [block]. walk.
  - intros p ts He Hn. cbn [stmts_loop]. walk.
  - intros p arms ts He Hn. cbn [switch_loop]. walk; try tail_call.
    apply orb_true_iff in E1 as [E1|E1]; [|congruence]. reading. walk. tail_call.
Qed.
#[export] Hint Resolve stmt_ok_all : lands.

(** ** File scope *)

Lemma bump2_le ts : ends ts -> ends (bump (bump ts)) /\ (length (bump (bump ts)) <= length ts)%nat.
Proof. intros He. destruct (bump_le ts He) as [H ?]. destruct (bump_le _ H). split; [done|lia]. Qed.

Lemma param_lands ts : ends ts -> lands (length ts - 1) (param ts).
Proof.
  intros He. unfold param. pose proof (eat_kw_le (tx "ref") ts He) as [? ?]. destruct (eat_kw (tx "ref") ts) as [b ts1].
  cbn [snd] in *. pose proof (eat_kw_le (tx "const") ts1 H) as [? ?]. walk.
  - destruct (bump2_le ts2 H5). walk.
  - destruct (bump2_le ts0 H3). walk.
Qed.
#[export] Hint Resolve param_lands : lands.
Lemma params_loop_lands n ts : ends ts -> need ts 1 n -> lands (length ts - 1) (params_loop n ts).
Proof. revert ts. induction n as [|n IH]; intros ts He Hn; [size|]. cbn [params_loop]. walk. Qed.
#[export] Hint Resolve params_loop_lands : lands.
Lemma params_lands n ts : ends ts -> need ts 1 n -> lands (length ts - 1) (params n ts).
Proof. intros He Hn. unfold params. walk. destruct (bump2_le ts0 H). walk. Qed.
#[export] Hint Resolve params_lands : lands.

Lemma script_sig_lands n head p ts : head <> [] -> ends ts -> need ts 1 n -> lands (length ts - 1) (script_sig n head p ts).
Proof.
  intros Hh He Hn. unfold script_sig. destruct (last head) as [w|] eqn:El; [|by apply last_None in El].
  walk. destruct (removelast head) as [|w1 [|w2 [|w3 r]]]; walk.
Qed.

Lemma head_loop_lands n ts : ends ts -> need ts 1 n -> lands (length ts - 1) (head_loop n ts).
Proof. revert ts. induction n as [|n IH]; intros ts He Hn; [size|]. cbn [head_loop]. walk. Qed.
Lemma head_loop_some n ts head ts' : head_loop n ts = done (head, ts') -> head <> [] /\ is_ident_tok 0 ts' = false.
Proof.
  revert ts head ts'. induction n as [|n IH]; intros ts head ts'; [done|]. cbn [head_loop].
  destruct (type_ref ts) as [[[t ts1]|e]|]; cbn [obind]; [|done|done].
  destruct (is_ident_tok 0 ts1) eqn:E; [|by intros [= <- <-]].
  destruct (head_loop n ts1) as [[[h ts2]|e]|] eqn:E2; cbn [obind]; [|done|done]. intros [= <- <-]. by apply IH in E2 as [_ ?].
Qed.

Lemma script_or_var_item_lands n ts : ends ts -> need ts 10 n -> lands (length ts - 1) (script_or_var_item n ts).
Proof.
  intros He Hn. unfold script_or_var_item. walk. pose proof (head_loop_lands n ts He ltac:(lia)) as L.
  destruct (head_loop n ts) as [[[head ts1]|e]|] eqn:Eh; cbn [obind] in *; [|done|done]. destruct L as [He1 Hl1].
  apply head_loop_some in Eh as [Hh _]. walk.
  - eapply lands_bind; [apply script_sig_lands; [done|done|size]|]. intros s ts2 He2 Hl2. walk.
  - destruct head as [|t1 [|t2 [|t3 r]]]; walk.
Qed.
#[export] Hint Resolve script_or_var_item_lands : lands.

Lemma item_lands n ts : ends ts -> need ts 10 n -> lands (length ts - 1) (item n ts).
Proof.
  intros He Hn. unfold item. walk; try tail_call.
  destruct (peek (bump ts)) eqn:Ep; try exact I. reading. pose proof (eat_le Semi (bump (bump ts)) He1) as [? ?]. walk.
Qed.

Lemma items_loop_total n ts : ends ts -> need ts 11 n -> exists r, items_loop n ts = Some r.
Proof.
  revert ts. induction n as [|n IH]; intros ts He Hn; [size|]. cbn [items_loop].
  destruct (at_eof ts); [by eexists|]. destruct (at_ Semi ts) eqn:E; [reading; apply IH; [done|lia]|].
  pose proof (item_lands n ts He ltac:(lia)) as L. destruct (item n ts) as [[[i ts1]|e]|]; cbn [obind] in *; [|by eexists|done].
  destruct L as [He1 Hl1]. pose proof (ends_length ts He). destruct (IH ts1) as [[out|e] ->]; [done|lia| |]; by eexists.
Qed.

(** ** More depth changes nothing *)

(** What [c] returns, [c'] returns. *)
Definition upto {A} (c c' : option A) : Prop := forall r, c = Some r -> c' = Some r.

Lemma upto_refl {A} (c : option A) : upto c c.
Proof. by intros r. Qed.
Lemma upto_bind {E A B} (c c' : outcome E A) (k k' : A -> outcome E B) : upto c c' -> (forall x, upto (k x) (k' x)) -> upto (obind c k) (obind c' k').
Proof. intros Hc Hk r. destruct c as [[x|e]|]; cbn; [|intros [= <-]; by rewrite (Hc _ eq_refl)|done]. rewrite (Hc _ eq_refl). apply Hk. Qed.

Create HintDb upto.
#[export] Hint Resolve upto_refl : upto.
Ltac deeper1 :=
  match goal with
  | |- upto None _ => by intros ?
  | |- upto ?c ?c => apply upto_refl
  | |- upto (obind _ _) (obind _ _) => apply upto_bind; [|intros ?]
  | |- upto (let '_ := ?x in _) _ => destruct x
  | |- upto (if ?b then _ else _) _ => destruct b
  | |- upto (match ?x with _ => _ end) _ => destruct x
  | |- _ => solve [eauto with upto]
  end.
Ltac deeper := cbn beta iota zeta; repeat (deeper1; cbn beta iota zeta).
Ltac depth m := destruct m as [|m]; [lia|].

Record mono (n m : nat) : Prop := {
  mono_assign ts : upto (assign_expr n ts) (assign_expr m ts);
  mono_binary k ts : upto (binary_expr n k ts) (binary_expr m k ts);
  mono_bloop k e ts : upto (binary_loop n k e ts) (binary_loop m k e ts);
  mono_unary ts : upto (unary_expr n ts) (unary_expr m ts);
  mono_postfix ts : upto (postfix_expr n ts) (postfix_expr m ts);
  mono_ploop e ts : upto (postfix_loop n e ts) (postfix_loop m e ts);
  mono_args ts : upto (call_args n ts) (call_args m ts);
  mono_aloop ts : upto (args_loop n ts) (args_loop m ts);
  mono_items ts : upto (array_items n ts) (array_items m ts);
  mono_primary ts : upto (primary_expr n ts) (primary_expr m ts) }.
#[export] Hint Resolve mono_assign mono_binary mono_bloop mono_unary mono_postfix mono_ploop mono_args mono_aloop mono_items mono_primary : upto.

Lemma mono_all n m : (n <= m)%nat -> mono n m.
Proof.
  revert m. induction n as [|n IH]; intros m Hm; [by constructor|]. depth m. specialize (IH m ltac:(lia)).
  constructor; intros; cbn [assign_expr binary_expr binary_loop unary_expr postfix_expr postfix_loop call_args args_loop array_items primary_expr]; deeper.
Qed.
Lemma mono_expr n m ts : (n <= m)%nat -> upto (expr n ts) (expr m ts).
Proof. intros H. apply mono_assign. by apply mono_all. Qed.
#[export] Hint Resolve mono_expr : upto.
Lemma mono_opt_expr n m p ts : (n <= m)%nat -> upto (opt_expr n p ts) (opt_expr m p ts).
Proof. intros H. unfold opt_expr. deeper. Qed.
Lemma mono_initialiser n m ts : (n <= m)%nat -> upto (initialiser n ts) (initialiser m ts).
Proof. intros H. unfold initialiser. deeper. Qed.
#[export] Hint Resolve mono_opt_expr mono_initialiser : upto.
Lemma mono_field_len n m ts : (n <= m)%nat -> upto (field_len n ts) (field_len m ts).
Proof. intros H. unfold field_len. deeper. Qed.
Lemma mono_array_suffix n m ts : (n <= m)%nat -> upto (array_suffix n ts) (array_suffix m ts).
Proof. intros H. unfold array_suffix. deeper. Qed.
#[export] Hint Resolve mono_field_len mono_array_suffix : upto.
#[export] Hint Extern 3 (_ <= _)%nat => lia : upto.

Lemma mono_labels n : forall m ts, (n <= m)%nat -> upto (labels_loop n ts) (labels_loop m ts).
Proof. induction n as [|n IH]; intros m ts H; [done|]. depth m. cbn [labels_loop]. deeper. Qed.
Lemma mono_field_names n : forall m ty p ts, (n <= m)%nat -> upto (field_names n ty p ts) (field_names m ty p ts).
Proof. induction n as [|n IH]; intros m ty p ts H; [done|]. depth m. cbn [field_names]. deeper. Qed.
#[export] Hint Resolve mono_labels mono_field_names : upto.
Lemma mono_fields n : forall m ts, (n <= m)%nat -> upto (fields_loop n ts) (fields_loop m ts).
Proof. induction n as [|n IH]; intros m ts H; [done|]. depth m. cbn [fields_loop]. deeper. Qed.
Lemma mono_declarators n : forall m ts, (n <= m)%nat -> upto (declarators n ts) (declarators m ts).
Proof. induction n as [|n IH]; intros m ts H; [done|]. depth m. cbn [declarators]. deeper. Qed.
Lemma mono_qualifiers n : forall m b ts, (n <= m)%nat -> upto (qualifiers n b ts) (qualifiers m b ts).
Proof. induction n as [|n IH]; intros m b ts H; [done|]. depth m. cbn [qualifiers]. deeper. Qed.
#[export] Hint Resolve mono_fields mono_declarators mono_qualifiers : upto.
Lemma mono_labels_block n m ts : (n <= m)%nat -> upto (labels_block n ts) (labels_block m ts).
Proof. intros H. unfold labels_block. deeper. Qed.
Lemma mono_struct_def n m ts : (n <= m)%nat -> upto (struct_def n ts) (struct_def m ts).
Proof. intros H. unfold struct_def. deeper. Qed.
Lemma mono_finish n m b h p ts : (n <= m)%nat -> upto (finish_var_decl n b h p ts) (finish_var_decl m b h p ts).
Proof. intros H. unfold finish_var_decl. deeper. Qed.
#[export] Hint Resolve mono_labels_block mono_struct_def mono_finish : upto.
Lemma mono_var_decl n m ts : (n <= m)%nat -> upto (var_decl_stmt n ts) (var_decl_stmt m ts).
Proof. intros H. unfold var_decl_stmt. deeper. Qed.
#[export] Hint Resolve mono_var_decl : upto.

Record mono_stmts (n m : nat) : Prop := {
  mono_stmt ts : upto (stmt n ts) (stmt m ts);
  mono_block ts : upto (block n ts) (block m ts);
  mono_sloop p ts : upto (stmts_loop n p ts) (stmts_loop m p ts);
  mono_switch p arms ts : upto (switch_loop n p arms ts) (switch_loop m p arms ts) }.
#[export] Hint Resolve mono_stmt mono_block mono_sloop mono_switch : upto.
Lemma mono_stmts_all n m : (n <= m)%nat -> mono_stmts n m.
Proof.
  revert m. induction n as [|n IH]; intros m Hm; [by constructor|]. depth m. specialize (IH m ltac:(lia)).
  constructor; intros; cbn [stmt block stmts_loop switch_loop]; deeper.
Qed.
Lemma mono_params n : forall m ts, (n <= m)%nat -> upto (params_loop n ts) (params_loop m ts).
Proof. induction n as [|n IH]; intros m ts H; [done|]. depth m. cbn [params_loop]. deeper. Qed.
Lemma mono_head n : forall m ts, (n <= m)%nat -> upto (head_loop n ts) (head_loop m ts).
Proof. induction n as [|n IH]; intros m ts H; [done|]. depth m. cbn [head_loop]. deeper. Qed.
#[export] Hint Resolve mono_params mono_head mono_stmts_all : upto.
Lemma mono_script_sig n m h p ts : (n <= m)%nat -> upto (script_sig n h p ts) (script_sig m h p ts).
Proof. intros H. unfold script_sig, params. deeper. Qed.
#[export] Hint Resolve mono_script_sig : upto.
Lemma mono_item n m ts : (n <= m)%nat -> upto (item n ts) (item m ts).
Proof. intros H. pose proof (mono_stmts_all n m H). unfold item, script_or_var_item. deeper. Qed.
#[export] Hint Resolve mono_item : upto.
Lemma mono_items_loop n : forall m ts, (n <= m)%nat -> upto (items_loop n ts) (items_loop m ts).
Proof. induction n as [|n IH]; intros m ts H; [done|]. depth m. cbn [items_loop]. deeper. Qed.

(** ** The compiler's front end *)

Lemma tokens_end l out : tokens_of l out -> ends out.
Proof.
  induction 1 as [l blank l' _ _|l blank l1 t c l2 out _ _ _ _ IH]; [by eexists|].
  destruct IH as (e & Hl & He). exists e. split; [|done]. by destruct out.
Qed.
Lemma lex_ends s ts : lex s = Some (Ok ts) -> ends ts.
Proof.
  intros H. destruct (run_tokens (S (length s)) (mkLexer s (mkPos 1 1))) as (r & E & Hr); [cbn; lia|].
  unfold lex in H. rewrite E in H. injection H as ->. by eapply tokens_end, Hr.
Qed.

Lemma tokens_length l out : tokens_of l out -> (length out <= length (src l) + 1)%nat.
Proof.
  induction 1 as [l blank l' _ _|l blank l1 t c l2 out Hm Hc Ht _ IH]; cbn; [lia|]. apply moved_length in Hm.
  pose proof (token_reads l1 c Hc) as R. rewrite Ht in R. destruct R as (u & Hu & Hn). apply moved_length in Hu. destruct u; [done|]. cbn in Hu. lia.
Qed.

(** Enough room for a source. *)
Definition room (source : text) : nat := (16 * length source + 32)%nat.

(** (C27) Parsing ends.  On a stack with room for 16 calls and loop rounds per
    character of the source, and 32 more, [parse_file] returns a syntax tree or
    one diagnostic, whatever the source: it neither runs for ever nor panics (in
    the arithmetic of a release build).  The result does not depend on the stack:
    every smaller one on which it returns at all gives the same.  What remains is
    the overflow of a stack too small for the nesting
    ([deep_nesting_overflows]). *)
Theorem parse_file_total (depth : nat) (path source : text) :
  (room source <= depth)%nat ->
  exists r, parse_file_in depth path source = Some r /\ parse_file path source = Some r /\
    forall depth' r', parse_file_in depth' path source = Some r' -> r' = r.
Proof.
  intros Hd. unfold parse_file_in, parse_file, parse_tokens, lex.
  destruct (run_tokens (S (length source)) (mkLexer source (mkPos 1 1))) as (r & E & Hr); [cbn; lia|]. rewrite E. destruct r as [ts|e].
  2:{ eexists. split; [reflexivity|]. split; [reflexivity|]. by intros _ r' [= <-]. }
  specialize (Hr ts eq_refl). pose proof (tokens_length _ _ Hr) as Hl. cbn [src] in Hl. apply tokens_end in Hr.
  destruct (items_loop_total (bound ts) ts Hr) as [out Ei]; [unfold bound; lia|].
  assert (Eu : forall d o, items_loop d ts = Some o -> o = out).
  { intros d o Eo. pose proof (mono_items_loop d (d + bound ts) ts ltac:(lia) o Eo) as E1. pose proof (mono_items_loop (bound ts) (d + bound ts) ts ltac:(lia) out Ei). congruence. }
  rewrite (mono_items_loop (bound ts) depth ts ltac:(unfold bound, room in *; lia) out Ei), Ei. destruct out as [its|e]; (eexists; split; [reflexivity|]; split; [reflexivity|]);
    intros d r' Er; (destruct (items_loop d ts) as [o|] eqn:Eo; [|discriminate Er]); rewrite (Eu d o Eo) in Er; by injection Er as <-.
Qed.

Lemma parse_file_total_witness : exists r,
  parse_file_in 320 [] (tx "int scenario{;}") = Some r /\ parse_file [] (tx "int scenario{;}") = Some r /\ parse_file_in 7 [] (tx "int scenario{;}") = Some r /\
  parse_file_in 2 [] (tx "int scenario{;}") = None.
Proof.
  assert (R : (room (tx "int scenario{;}") <= 320)%nat) by (cbn; lia).
  destruct (parse_file_total 320 [] (tx "int scenario{;}") R) as (r & E1 & E2 & E3). exists r. split; [exact E1|]. split; [exact E2|].
  assert (E : exists x, parse_file_in 7 [] (tx "int scenario{;}") = Some x) by (eexists; vm_compute; reflexivity). destruct E as [x E].
  split; [rewrite E; f_equal; exact (E3 _ _ E)|vm_compute; reflexivity].
Defined.

(** Parentheses nested as deep as the stack overflow it. *)
Lemma parens_overflow n ps rest : Forall (fun t => tok t = Punct LParen) ps -> rest <> [] -> (n <= length ps)%nat -> assign_expr n (ps ++ rest) = None.
Proof.
  intros Hps Hr. revert n. induction Hps as [|p ps Hp Hps IH]; intros n Hn; cbn [length] in Hn; [by assert (n = 0%nat) as -> by lia|].
  destruct n as [|[|[|n]]]; [done..|]. cbn [app]. destruct Hps as [|p2 ps Hp2 Hps]; cbn [length] in Hn; [lia|].
  assert (B : bump (p :: (p2 :: ps) ++ rest) = (p2 :: ps) ++ rest) by done.
  assert (K : peek (p :: (p2 :: ps) ++ rest) = Punct LParen) by (by rewrite peek_cons).
  assert (C : at_cast (p :: (p2 :: ps) ++ rest) = false).
  { assert (peek_at 1 (p :: (p2 :: ps) ++ rest) = Punct LParen) as E by (by unfold peek_at; cbn).
    unfold at_cast, is_ident_tok. rewrite E. by rewrite andb_false_r. }
  cbn [assign_expr]. cbn [binary_expr]. cbn [unary_expr]. rewrite C, K. destruct n as [|[|n]]; [done..|]. cbn [postfix_expr primary_expr]. rewrite K, B, IH by (cbn; lia). done.
Qed.
Theorem deep_nesting_overflows (depth k : nat) : (depth <= k)%nat ->
  exists ts, lex (replicate k (ch "(")) = Some (Ok ts) /\ expr depth ts = None.
Proof.
  intros Hk. assert (W : written (replicate k (Punct LParen)) (replicate k (ch "("))).
  { clear. induction k as [|k IH]; [apply written_nil|]. apply (written_cons _ [ch "("] []); [|apply trivia_nil|exact IH].
    apply (spelled_punct _ LParen); [|done|done]. intros q' r E. destruct q'; cbn in E |- *; congruence || lia. }
  destruct (lex_print [] _ _ trivia_nil W) as (ts & El & Em). exists ts. split; [exact El|].
  assert (exists e, ts = take k ts ++ [e]) as [e Ee].
  { apply (f_equal length) in Em as Hn. rewrite length_map, length_app, length_replicate in Hn. cbn in Hn.
    destruct (drop k ts) as [|e [|]] eqn:Ed; apply (f_equal length) in Ed as Hd; rewrite length_drop in Hd; cbn in Hd; try lia. exists e. by rewrite <- Ed, take_drop. }
  rewrite Ee. apply parens_overflow; [|done|].
  - apply Forall_forall. intros t Ht. apply list_elem_of_In in Ht. assert (In (tok t) (replicate k (Punct LParen))) as Hin.
    { replace (replicate k (Punct LParen)) with (map tok (take k ts)); [by apply in_map|]. rewrite <- firstn_map, Em. apply take_app_length'. by rewrite length_replicate. }
    apply list_elem_of_In, elem_of_replicate in Hin. tauto.
  - rewrite length_take. apply (f_equal length) in Em. rewrite length_map, length_app, length_replicate in Em. cbn in Em. lia.
Qed.

(** A declaration at file scope that is not [static] or [const] is never
    accepted: after the words of its head the next token is not a name, so
    the branch that should finish it always fails. *)
Theorem file_scope_var_refused n ts d ts' : script_or_var_item n ts <> done (IVar d, ts').
Proof.
  unfold script_or_var_item. destruct (negb _); [done|].
  destruct (head_loop n ts) as [[[head ts1]|e]|] eqn:Eh; cbn [obind]; [|done|done]. apply head_loop_some in Eh as [_ Hi].
  destruct (at_ LParen ts1).
  { destruct (script_sig _ _ _ _) as [[[s ts2]|e]|]; cbn [obind]; [|done|done]. destruct (at_ Semi ts2); [done|].
    destruct (at_ LBrace ts2); [|done]. by destruct (block n ts2) as [[[b ts3]|e]|]. }
  destruct (at_ LBrace ts1).
  { destruct head as [|t1 [|t2 [|t3 r]]]; cbn [obind]; try done; by destruct (block n ts1) as [[[b ts3]|e]|]. }
  unfold finish_var_decl.
  assert (I0 : declarators n ts1 = None \/ exists e, declarators n ts1 = Some (Err e)).
  { destruct n as [|m]; [by left|]. right. cbn [declarators]. unfold ident. unfold is_ident_tok in Hi. fold (peek ts1) in Hi.
    destruct (peek ts1); try done; by eexists. }
  destruct head as [|t1 [|t2 r]]; [| |done]; (destruct I0 as [->|[e ->]]; done).
Qed.

(** [int x;] at file scope is refused. *)
Lemma file_scope_int_refused :
  parse_file [] (tx "int x;") = fail (mkParseError (mkPos 1 1) TypeWords).
Proof. vm_compute. reflexivity. Qed.

(** A written depth of 256 is stored as 0. *)
Lemma array_depth_wraps :
  fst (brackets (concat (replicate 256 [mkToken (Punct LBrack) (mkPos 1 1); mkToken (Punct RBrack) (mkPos 1 1)]) ++ [mkToken Eof (mkPos 1 1)]) 0) = 0%Z.
Proof. vm_compute. reflexivity. Qed.
