(* ===== verification/CcPrint.v ===== *)
(** * The script compiler: printing expressions and parsing them back

    A printer of [Expr] with the parentheses precedence requires and no
    others, and the proof that [assign_expr] reads its output back as the same
    tree.  It fixes the grammar precedence climbing implements: the binding
    powers, left associativity but for [**] and assignment, and what postfix
    and prefix operators apply to. *)

From S2P Require Import Prelude NetText BhsStd CcLex CcLexSpec CcAst CcParse CcParseSpec.
From Stdlib Require Import Ascii.
From Stdlib Require String.
Import (notations) String.
#[local] Open Scope list_scope.
#[local] Open Scope outcome_scope.
#[local] Open Scope Z_scope.
Import Parser.

(** ** The printer *)

(** C's table of binary operators, loosest first, with [**] above it. *)
Definition binary_table : list (list P) :=
  [[OrOr]; [AndAnd]; [Pipe]; [Caret]; [Amp]; [Eq; Ne]; [Lt; Gt; Le; Ge]; [Shl; Shr]; [Plus; Minus]; [Star; Slash; Percent]; [Pow]].
Fixpoint row (op : P) (t : list (list P)) (k : Z) : Z :=
  match t with
  | [] => 1
  | ops :: t => if existsb (fun q => bool_decide (q = op)) ops then k else row op t (k + 1)
  end.
Definition prec (op : P) : Z := row op binary_table 1.
(** Binding power: assignment, the eleven binary levels, prefix, postfix. *)
Definition level (e : Expr) : Z :=
  match e with
  | EAssign _ _ _ _ => 0
  | EBinary op _ _ _ => prec op
  | ECast _ _ _ | EUnary _ _ _ | EPreIncDec _ _ _ => 12
  | _ => 13
  end.
(** The levels of the operands of a binary operator: [**] associates to the
    right, the others to the left. *)
Definition left_level (op : P) (p : Z) : Z := if bool_decide (op = Pow) then p + 1 else p.
Definition right_level (op : P) (p : Z) : Z := if bool_decide (op = Pow) then p else p + 1.

Fixpoint join (l : list (list Tok)) : list Tok :=
  match l with
  | [] => []
  | [x] => x
  | x :: l => x ++ Punct Comma :: join l
  end.
Definition incdec (inc : bool) : P := if inc then Inc else Dec.

Fixpoint print (m : Z) (e : Expr) : list Tok :=
  let bare :=
    match e with
    | EInt v _ => [Int v]
    | EReal v _ => [Real v]
    | EStr s _ => [Str s]
    | ELocStr s _ => [LocStr s]
    | EName s _ => [Ident s]
    | EArrayLit items _ => Punct LBrack :: join (map (print 0) items) ++ [Punct RBrack]
    | ECast ty e _ => Punct LParen :: Ident (t_name ty) :: Punct RParen :: print 12 e
    | EUnary op e _ => Punct op :: print 12 e
    | EPreIncDec inc e _ => Punct (incdec inc) :: print 12 e
    | EPostIncDec inc e _ => print 13 e ++ [Punct (incdec inc)]
    | EBinary op l r _ =>
        print (left_level op (prec op)) l ++ Punct op :: print (right_level op (prec op)) r
    | EAssign op t v _ => print 1 t ++ Punct op :: print 0 v
    | ECall name args _ => Ident name :: Punct LParen :: join (map (print 0) args) ++ [Punct RParen]
    | EMethodCall recv name args _ =>
        print 13 recv ++ Punct Dot :: Ident name :: Punct LParen :: join (map (print 0) args) ++ [Punct RParen]
    | EIndex base index _ => print 13 base ++ Punct LBrack :: print 0 index ++ [Punct RBrack]
    | EMember base name _ => print 13 base ++ [Punct Dot; Ident name]
    end in
  if level e <? m then Punct LParen :: bare ++ [Punct RParen] else bare.

(** Trees the parser can produce: names are not keywords, casts go to scalar
    types, operators are of their kind. *)
Definition name_ok (s : text) : Prop :=
  eq_ignore_ascii_case s (tx "true") = false /\ eq_ignore_ascii_case s (tx "false") = false /\ is_keyword s = false.
Fixpoint expr_wf (e : Expr) : Prop :=
  match e with
  | EInt _ _ | EReal _ _ | EStr _ _ | ELocStr _ _ => True
  | EName s _ => name_ok s
  | EArrayLit items _ => fold_right (fun e acc => expr_wf e /\ acc) True items
  | ECast ty e _ => is_cast_type (t_name ty) = true /\ array_depth ty = 0 /\ expr_wf e
  | EUnary op e _ => (op = Not \/ op = Minus \/ op = Tilde) /\ expr_wf e
  | EPreIncDec _ e _ | EPostIncDec _ e _ => expr_wf e
  | EBinary op l r _ => is_Some (prec_of op) /\ expr_wf l /\ expr_wf r
  | EAssign op t v _ => is_assign_op op = true /\ expr_wf t /\ expr_wf v
  | ECall name args _ => name_ok name /\ fold_right (fun e acc => expr_wf e /\ acc) True args
  | EMethodCall recv _ args _ => expr_wf recv /\ fold_right (fun e acc => expr_wf e /\ acc) True args
  | EIndex base index _ => expr_wf base /\ expr_wf index
  | EMember base _ _ => expr_wf base
  end.

(** The tree without its positions. *)
Definition pos0 : Pos := mkPos 0 0.
Fixpoint strip (e : Expr) : Expr :=
  match e with
  | EInt v _ => EInt v pos0
  | EReal v _ => EReal v pos0
  | EStr s _ => EStr s pos0
  | ELocStr s _ => ELocStr s pos0
  | EName s _ => EName s pos0
  | EArrayLit items _ => EArrayLit (map strip items) pos0
  | ECast ty e _ => ECast (mkTypeRef (t_name ty) (array_depth ty) pos0) (strip e) pos0
  | EUnary op e _ => EUnary op (strip e) pos0
  | EPreIncDec inc e _ => EPreIncDec inc (strip e) pos0
  | EPostIncDec inc e _ => EPostIncDec inc (strip e) pos0
  | EBinary op l r _ => EBinary op (strip l) (strip r) pos0
  | EAssign op t v _ => EAssign op (strip t) (strip v) pos0
  | ECall name args _ => ECall name (map strip args) pos0
  | EMethodCall recv name args _ => EMethodCall (strip recv) name (map strip args) pos0
  | EIndex base index _ => EIndex (strip base) (strip index) pos0
  | EMember base name _ => EMember (strip base) name pos0
  end.

Fixpoint esize (e : Expr) : nat :=
  S match e with
    | EArrayLit items _ => list_sum (map esize items)
    | ECast _ e _ | EUnary _ e _ | EPreIncDec _ e _ | EPostIncDec _ e _ | EMember e _ _ => esize e
    | EBinary _ l r _ | EAssign _ l r _ | EIndex l r _ => esize l + esize r
    | ECall _ args _ => list_sum (map esize args)
    | EMethodCall recv _ args _ => esize recv + list_sum (map esize args)
    | _ => 0
    end.

(** Tokens at one position. *)
Definition pr (m : Z) (e : Expr) : toks := map (fun t => mkToken t pos0) (print m e).
Abbreviation tk t := (mkToken t pos0).

Lemma size_in e l : In e l -> (esize e <= list_sum (map esize l))%nat.
Proof.
  induction l as [|x l IH]; [done|]. intros [->|H]; cbn [map]; unfold list_sum; cbn [fold_right];
    [lia|]. apply IH in H. unfold list_sum in H. lia.
Qed.
Lemma wf_in e l : fold_right (fun e acc => expr_wf e /\ acc) True l -> In e l -> expr_wf e.
Proof. induction l as [|x l IH]; [done|]. intros [Hx Hl] [->|H]; [done|by apply IH]. Qed.

(** ** Shape of what is printed *)

Lemma prec_range op : 1 <= prec op <= 11.
Proof. destruct op; vm_compute; split; discriminate. Qed.
(** The parser's table and associativity are these. *)
Lemma prec_of_table op q : prec_of op = Some q -> q = prec op.
Proof. destruct op; vm_compute; congruence. Qed.
Lemma prec_pow op : is_Some (prec_of op) -> prec op = 11 -> op = Pow.
Proof. destruct op; vm_compute; intros [? ?]; done. Qed.
Lemma next_min_right op p : next_min op p = right_level op p.
Proof. done. Qed.
Lemma level_range e : 0 <= level e <= 13.
Proof. destruct e; cbn [level]; try lia. pose proof (prec_range op). lia. Qed.

(** Printed bare, or in parentheses. *)
Lemma pr_bare m e : m <= level e -> pr m e = pr 0 e.
Proof.
  intros H. unfold pr. f_equal. pose proof (level_range e).
  assert (E1 : (level e <? m) = false) by lia. assert (E2 : (level e <? 0) = false) by lia.
  destruct e; cbn [print]; by rewrite E1, E2.
Qed.
Lemma pr_paren m e : level e < m -> pr m e = tk (Punct LParen) :: pr 0 e ++ [tk (Punct RParen)].
Proof.
  intros H. unfold pr. pose proof (level_range e).
  assert (E1 : (level e <? m) = true) by lia. assert (E2 : (level e <? 0) = false) by lia.
  destruct e; cbn [print]; rewrite E1, E2; cbn [map]; by rewrite map_app.
Qed.
Lemma pr_cons m e : exists t r, pr m e = t :: r.
Proof.
  assert (H : exists t r, pr 0 e = t :: r).
  { unfold pr. enough (exists t r, print 0 e = t :: r) as (t & r & ->) by (by eexists _, _).
    assert (N : forall m e, exists t r, print m e = t :: r).
    { clear. intros m e. revert m. induction e; intros m; cbn [print];
        match goal with |- context [if ?b then _ else _] => destruct b end; try (by eexists _, _);
        repeat match goal with IH : forall m, exists t r, print m ?e = t :: r |- context [print ?k ?e] =>
          let t := fresh in let r := fresh in let E := fresh in destruct (IH k) as (t & r & E); rewrite E; clear IH end; by eexists _, _. }
    apply N. }
  destruct (Z.lt_ge_cases (level e) m); [rewrite pr_paren by done; eauto|by rewrite pr_bare by lia].
Qed.

Lemma pr_length m e : (1 <= length (pr m e))%nat.
Proof. destruct (pr_cons m e) as (t & r & ->). cbn. lia. Qed.

(** ** Reading it back *)

Lemma bump_cons t r : r <> [] -> bump (t :: r) = r.
Proof. by destruct r. Qed.
Lemma app_ne {A} (l r : list A) : r <> [] -> l ++ r <> [].
Proof. by destruct l, r. Qed.

(** What may follow an expression: after a postfix expression, no call and no
    string; after a prefix expression, no postfix operator either. *)
Definition after13 (ts : toks) : Prop := ts <> [] /\ peek ts <> Punct LParen /\ (forall s, peek ts <> Str s).
Definition after12 (ts : toks) : Prop :=
  after13 ts /\ peek ts <> Punct LBrack /\ peek ts <> Punct Dot /\ peek ts <> Punct Inc /\ peek ts <> Punct Dec.
(** After a binary expression with operator [op], no operator that binds
    tighter. *)
Definition looser (ts : toks) (k : Z) : Prop := forall op q, bin_prec ts = Some (op, q) -> q < k.
Definition after_binary (e : Expr) (ts : toks) : Prop :=
  match e with EBinary op _ _ _ => looser ts (right_level op (prec op)) | _ => True end.
Definition after0 (ts : toks) : Prop :=
  after12 ts /\ bin_prec ts = None /\ forall op, peek ts = Punct op -> is_assign_op op = false.

Lemma at_false p ts : peek ts <> Punct p -> at_ p ts = false.
Proof. intros H. destruct (at_ p ts) eqn:E; [|done]. by apply at_peek in E. Qed.
Lemma at_true p ts : peek ts = Punct p -> at_ p ts = true.
Proof. unfold at_, is_punct. intros ->. by apply bool_decide_eq_true. Qed.

(** The four readings of [e]: as postfix, prefix, binary and any expression,
    before [rest], with depth enough. *)
Definition reads13 (e : Expr) : Prop := forall n rest,
  after13 rest -> need (pr 13 e ++ rest) 3 n ->
  exists n', need rest 5 n' /\ postfix_expr n (pr 13 e ++ rest) = postfix_loop n' (strip e) rest.
Definition reads12 (e : Expr) : Prop := forall n rest,
  after12 rest -> need (pr 12 e ++ rest) 4 n -> unary_expr n (pr 12 e ++ rest) = done (strip e, rest).
Definition reads_binary (e : Expr) : Prop := forall m k n rest,
  k <= m -> 1 <= m <= 12 -> after12 rest -> (m <= level e -> after_binary e rest) -> need (pr m e ++ rest) 5 n ->
  exists n', need rest 5 n' /\ binary_expr n k (pr m e ++ rest) = binary_loop n' k (strip e) rest.
Definition reads0 (e : Expr) : Prop := forall n rest,
  after0 rest -> need (pr 0 e ++ rest) 6 n -> assign_expr n (pr 0 e ++ rest) = done (strip e, rest).

Lemma postfix_stops n e rest : after12 rest -> (1 <= n)%nat -> postfix_loop n e rest = done (e, rest).
Proof.
  intros ((_ & _ & _) & H1 & H2 & H3 & H4) Hn. destruct n as [|n]; [lia|]. cbn [postfix_loop]. by rewrite !at_false.
Qed.
Lemma binary_stops n k e rest : looser rest k -> (1 <= n)%nat -> binary_loop n k e rest = done (e, rest).
Proof.
  intros H Hn. destruct n as [|n]; [lia|]. cbn [binary_loop]. destruct (bin_prec rest) as [[op q]|] eqn:E; [|done].
  apply H in E. by rewrite (proj2 (Z.ltb_lt _ _) E).
Qed.

(** Tokens that start neither a cast nor a parenthesis of one. *)
Definition opens (ts : toks) : Prop := forall t1 t2 r, ts = t1 :: t2 :: r -> is_ident (tok t1) = true -> tok t2 <> Punct RParen.

Lemma opens_print m e rest : expr_wf e -> rest <> [] -> peek rest <> Punct RParen -> opens (pr m e ++ rest).
Proof.
  intros Hw Hr Hp. unfold pr. revert m rest Hw Hr Hp.
  assert (F : forall rest, rest <> [] -> peek rest <> Punct RParen -> forall t1, opens (t1 :: rest)).
  { intros rest Hr Hp t1 x y r E _. injection E as -> E. rewrite E, peek_cons in Hp. done. }
  assert (G : forall t l, is_ident (tok t) = false -> opens (t :: l)) by (intros t l H x y r [= -> _] H'; congruence).
  induction e; intros m rest Hw Hr Hp; cbn [print]; cbn [expr_wf] in Hw; match goal with |- context [if ?b then _ else _] => destruct b end;
    cbn [map app]; rewrite ?map_app, <- ?app_assoc; cbn [map app]; try (by apply G); try (by apply F);
    match goal with IH : forall m rest, _ -> _ -> _ -> opens _ |- _ => apply IH end; try tauto; try done; rewrite peek_cons; cbn [tok].
  - by destruct inc.
  - destruct Hw as [[? H] _]. by destruct op.
  - destruct Hw as [H _]. by destruct op.
Qed.

Lemma opens_low e rest : expr_wf e -> level e < 13 -> opens (pr 0 e ++ rest).
Proof.
  intros Hw Hl. assert (G : forall t l, is_ident (tok t) = false -> opens (t :: l)) by (intros t l H x y r [= -> _] H'; congruence).
  destruct e; cbn [level] in Hl; try lia; cbn [expr_wf] in Hw; unfold pr; cbn [print]; (destruct (_ <? 0); cbn [map app]; [by apply G|]);
    try (by apply G); rewrite ?map_app, <- ?app_assoc; cbn [map app]; apply opens_print; try tauto; try done; rewrite peek_cons; cbn [tok].
  - destruct Hw as [[? H] _]. by destruct op.
  - destruct Hw as [H _]. by destruct op.
Qed.

Lemma not_cast e rest :
  expr_wf e -> level e < 13 -> at_cast (tk (Punct LParen) :: pr 0 e ++ tk (Punct RParen) :: rest) = false.
Proof.
  intros Hw Hl. pose proof (opens_low e (tk (Punct RParen) :: rest) Hw Hl) as O. destruct (pr_cons 0 e) as (a & r & E). rewrite E in *.
  cbn [app] in *. assert (exists b r', r ++ tk (Punct RParen) :: rest = b :: r') as (b & r' & Eb) by (destruct r; eauto).
  rewrite Eb in *. specialize (O a b r' eq_refl). unfold at_cast, is_ident_tok, at_n, peek_at. cbn [length Nat.sub Nat.min nth].
  destruct (is_ident (tok a)); [|by rewrite andb_false_r]. specialize (O eq_refl).
  assert (is_punct RParen (tok b) = false) as ->; [|by rewrite !andb_false_r].
  unfold is_punct. destruct (tok b); try done. apply bool_decide_eq_false. congruence.
Qed.

Lemma after0_closing p rest : p = RParen \/ p = RBrack \/ p = Comma -> after0 (tk (Punct p) :: rest).
Proof.
  intros H. unfold after0, after12, after13. rewrite !peek_cons. cbn [tok].
  assert (bin_prec (tk (Punct p) :: rest) = None) as -> by (unfold bin_prec; rewrite peek_cons; destruct H as [->|[->| ->]]; done).
  split; [|split; [done|]]; [split; [split; [done|]|]|]; destruct H as [->|[->| ->]]; repeat split; try done; by intros ? [= <-].
Qed.

(** No expression begins with a closing bracket. *)
Lemma pr_first m e rest : expr_wf e -> peek (pr m e ++ rest) <> Punct RParen /\ peek (pr m e ++ rest) <> Punct RBrack.
Proof.
  unfold pr. revert m rest. induction e; intros m rest Hw; cbn [print]; cbn [expr_wf] in Hw;
    match goal with |- context [if ?b then _ else _] => destruct b end;
    cbn [map app]; rewrite ?map_app, <- ?app_assoc; cbn [map app]; rewrite ?peek_cons; cbn [tok]; try done;
    try (match goal with IH : forall m rest, expr_wf ?e -> _ |- _ => apply IH end; tauto).
  - destruct Hw as [[->|[->| ->]] _]; done.
  - by destruct inc.
Qed.

(** What each form prints. *)
Definition tks (l : list Tok) : toks := map (fun t => tk t) l.
Definition pr_args (l : list Expr) : toks := tks (join (map (print 0) l)).

Lemma pr0_index b i p : pr 0 (EIndex b i p) = pr 13 b ++ tk (Punct LBrack) :: pr 0 i ++ [tk (Punct RBrack)].
Proof. unfold pr. cbn. by rewrite !map_app; cbn; rewrite map_app. Qed.
Lemma pr0_member b s p : pr 0 (EMember b s p) = pr 13 b ++ [tk (Punct Dot); tk (Ident s)].
Proof. unfold pr. cbn. by rewrite map_app. Qed.
Lemma pr0_post inc b p : pr 0 (EPostIncDec inc b p) = pr 13 b ++ [tk (Punct (incdec inc))].
Proof. unfold pr. cbn. by rewrite map_app. Qed.
Lemma pr0_method b s l p :
  pr 0 (EMethodCall b s l p) = pr 13 b ++ tk (Punct Dot) :: tk (Ident s) :: tk (Punct LParen) :: pr_args l ++ [tk (Punct RParen)].
Proof. unfold pr, pr_args, tks. cbn. rewrite map_app. cbn. by rewrite map_app. Qed.
Lemma pr0_call s l p : pr 0 (ECall s l p) = tk (Ident s) :: tk (Punct LParen) :: pr_args l ++ [tk (Punct RParen)].
Proof. unfold pr, pr_args, tks. cbn. by rewrite map_app. Qed.
Lemma pr0_array l p : pr 0 (EArrayLit l p) = tk (Punct LBrack) :: pr_args l ++ [tk (Punct RBrack)].
Proof. unfold pr, pr_args, tks. cbn. by rewrite map_app. Qed.
Lemma pr0_binary op l r p :
  pr 0 (EBinary op l r p) = pr (left_level op (prec op)) l ++ tk (Punct op) :: pr (right_level op (prec op)) r.
Proof.
  unfold pr. cbn [print]. assert ((level (EBinary op l r p) <? 0) = false) as -> by (pose proof (level_range (EBinary op l r p)); lia).
  by rewrite map_app.
Qed.
Lemma pr0_assign op t v p : pr 0 (EAssign op t v p) = pr 1 t ++ tk (Punct op) :: pr 0 v.
Proof. unfold pr. cbn. by rewrite map_app. Qed.
Lemma pr_args_cons a b l : pr_args (a :: b :: l) = pr 0 a ++ tk (Punct Comma) :: pr_args (b :: l).
Proof. unfold pr_args, tks, pr. cbn [map join]. by rewrite map_app. Qed.
Lemma pr_args_one a : pr_args [a] = pr 0 a.
Proof. done. Qed.
Lemma pr_args_first a l rest : expr_wf a -> peek (pr_args (a :: l) ++ rest) <> Punct RParen /\ peek (pr_args (a :: l) ++ rest) <> Punct RBrack.
Proof. intros Ha. destruct l as [|b l]; [|rewrite pr_args_cons, <- app_assoc]; by apply pr_first. Qed.

(** The arithmetic of the depths. *)
Ltac depth :=
  repeat (rewrite ?length_app in *; cbn [length app] in *);
  repeat match goal with |- context [length (pr ?m ?e)] =>
           lazymatch goal with _ : (1 <= length (pr m e))%nat |- _ => fail | _ => pose proof (pr_length m e) end
         | H : context [length (pr ?m ?e)] |- _ =>
           lazymatch goal with _ : (1 <= length (pr m e))%nat |- _ => fail | _ => pose proof (pr_length m e) end end; lia.

(** One token of a known kind. *)
Ltac tok_step := rewrite ?peek_cons, ?bump_cons by (try apply app_ne; done); cbn [tok tpos].

Lemma expect_cons p t r : r <> [] -> tok t = Punct p -> expect p (t :: r) = done (tt, r).
Proof. intros Hr Ht. unfold expect. rewrite at_true by (by rewrite peek_cons). by rewrite bump_cons. Qed.
Lemma ident_cons s t r : r <> [] -> tok t = Ident s -> ident (t :: r) = done (s, r).
Proof. intros Hr Ht. unfold ident. rewrite peek_cons, Ht. by rewrite bump_cons. Qed.

Lemma paren13 e n rest :
  reads0 e -> after13 rest -> need (tk (Punct LParen) :: pr 0 e ++ tk (Punct RParen) :: rest) 3 n ->
  exists n', need rest 5 n' /\
    postfix_expr n (tk (Punct LParen) :: pr 0 e ++ tk (Punct RParen) :: rest) = postfix_loop n' (strip e) rest.
Proof.
  intros He (Hr & _) Hn. destruct n as [|[|n]]; [depth|depth|]. exists (S n). split; [depth|].
  cbn [postfix_expr primary_expr]. tok_step. rewrite He; [|by apply after0_closing; left|depth].
  rewrite obind_done, expect_cons by done. done.
Qed.

Lemma paren12 e n rest :
  expr_wf e -> level e < 13 -> reads0 e -> after12 rest -> need (tk (Punct LParen) :: pr 0 e ++ tk (Punct RParen) :: rest) 4 n ->
  unary_expr n (tk (Punct LParen) :: pr 0 e ++ tk (Punct RParen) :: rest) = done (strip e, rest).
Proof.
  intros Hw Hl He Hr Hn. destruct n as [|n]; [depth|]. cbn [unary_expr]. rewrite not_cast by done. tok_step.
  destruct (paren13 e n rest He) as (n' & Hn' & ->); [apply Hr|depth|]. apply postfix_stops; [done|lia].
Qed.

Lemma paren_binary e n k rest :
  expr_wf e -> level e < 13 -> reads0 e -> after12 rest -> need (tk (Punct LParen) :: pr 0 e ++ tk (Punct RParen) :: rest) 5 n ->
  exists n', need rest 5 n' /\
    binary_expr n k (tk (Punct LParen) :: pr 0 e ++ tk (Punct RParen) :: rest) = binary_loop n' k (strip e) rest.
Proof.
  intros Hw Hl He Hr Hn. destruct n as [|n]; [depth|]. exists n. split; [depth|]. cbn [binary_expr].
  rewrite paren12 by (done || depth). done.
Qed.

(** ** The cases *)

Definition readable (e : Expr) : Prop := reads13 e /\ reads12 e /\ reads_binary e /\ reads0 e.

Section Cases.
Context (e : Expr) (Hw : expr_wf e) (IH : forall e', (esize e' < esize e)%nat -> expr_wf e' -> readable e').

(** Lists of expressions. *)
Lemma args_read args n rest :
  args <> [] -> Forall readable args -> need (pr_args args ++ tk (Punct RParen) :: rest) 7 n ->
  args_loop n (pr_args args ++ tk (Punct RParen) :: rest) = done (map strip args, tk (Punct RParen) :: rest).
Proof.
  intros Hne Ha. revert n. induction Ha as [|a args Ha Hargs IHa]; intros n Hn; [done|]. destruct n as [|n]; [depth|].
  destruct Ha as (_ & _ & _ & R0). cbn [args_loop map]. destruct args as [|b args].
  - rewrite pr_args_one in *. rewrite R0; [|by apply after0_closing; left|depth]. rewrite obind_done, at_false; [done|by rewrite peek_cons].
  - rewrite pr_args_cons, <- app_assoc in *. cbn [app] in *. rewrite R0; [|by apply after0_closing; right; right|depth].
    rewrite obind_done, at_true by (by rewrite peek_cons). rewrite bump_cons by (by apply app_ne). rewrite IHa; [done|done|depth].
Qed.

Lemma items_read items n rest :
  items <> [] -> Forall readable items -> Forall expr_wf items -> need (pr_args items ++ tk (Punct RBrack) :: rest) 7 n ->
  array_items n (pr_args items ++ tk (Punct RBrack) :: rest) = done (map strip items, tk (Punct RBrack) :: rest).
Proof.
  intros Hne Ha Hi. revert n. induction Ha as [|a args Ha Hargs IHa]; intros n Hn; [done|]. destruct n as [|n]; [depth|].
  destruct Ha as (_ & _ & _ & R0). apply Forall_cons in Hi as [_ Hi]. cbn [array_items map]. destruct args as [|b args].
  - rewrite pr_args_one in *. rewrite R0; [|by apply after0_closing; right; left|depth]. rewrite obind_done, at_false; [done|by rewrite peek_cons].
  - rewrite pr_args_cons, <- app_assoc in *. cbn [app] in *. rewrite R0; [|by apply after0_closing; right; right|depth].
    rewrite obind_done, at_true by (by rewrite peek_cons). rewrite bump_cons by (by apply app_ne).
    rewrite at_false by (apply pr_args_first; by apply Forall_cons in Hi as [? _]). rewrite IHa; [done|done|done|depth].
Qed.

Lemma call_args_read args n rest :
  rest <> [] -> Forall readable args -> Forall expr_wf args -> need (tk (Punct LParen) :: pr_args args ++ tk (Punct RParen) :: rest) 1 n ->
  call_args n (tk (Punct LParen) :: pr_args args ++ tk (Punct RParen) :: rest) = done (map strip args, rest).
Proof.
  intros Hr Ha Hi Hn. destruct n as [|n]; [depth|]. cbn [call_args]. rewrite expect_cons by (try apply app_ne; done). rewrite obind_done.
  destruct args as [|a args].
  - cbn [pr_args map join tks app]. rewrite at_true by (by rewrite peek_cons). by rewrite bump_cons.
  - rewrite at_false by (apply pr_args_first; by apply Forall_cons in Hi as [? _]). rewrite args_read; [|done|done|depth].
    by rewrite obind_done, expect_cons.
Qed.

Lemma sub_readable l :
  (forall x, In x l -> (esize x < esize e)%nat) -> fold_right (fun e acc => expr_wf e /\ acc) True l -> Forall readable l /\ Forall expr_wf l.
Proof. intros Hs Hl. split; apply List.Forall_forall; intros x Hx; [apply IH; [by apply Hs|]|]; by eapply wf_in. Qed.
End Cases.

Ltac primary n := destruct n as [|[|n]]; [depth|depth|]; exists (S n); split; [depth|]; cbn [postfix_expr primary_expr]; tok_step.

Section Bare.
Context (e : Expr) (Hw : expr_wf e) (IH : forall e', (esize e' < esize e)%nat -> expr_wf e' -> readable e').

(** Postfix expressions. *)
Lemma bare13 : level e = 13 -> reads13 e.
Proof.
  intros Hl n rest Hr Hn. rewrite (pr_bare 13 e) in * by lia. pose proof (sub_readable e IH) as Sub.
  assert (Hr0 := Hr). destruct Hr as (Hr & Hp & Hs).
  destruct e as [v p|v p|s p|s p|s p|items p|ty e1 p|op e1 p|inc e1 p|inc e1 p|op e1 e2 p|op e1 e2 p|s args p|e1 s args p|e1 e2 p|e1 s p];
    cbn [level] in Hl; try lia; try (pose proof (prec_range op); lia); cbn [expr_wf strip esize] in *.
  - cbn [pr print map app level Z.ltb Z.compare] in *. primary n. done.
  - cbn [pr print map app level Z.ltb Z.compare] in *. primary n. done.
  - cbn [pr print map app level Z.ltb Z.compare] in *. primary n.
    assert (more_strings rest = ([], rest)) as ->; [|by rewrite app_nil_r].
    destruct rest as [|t [|t2 r]]; [done|done|]. cbn [more_strings]. rewrite peek_cons in Hs. destruct (tok t) eqn:Et; try done. by destruct (Hs s0).
  - cbn [pr print map app level Z.ltb Z.compare] in *. primary n. done.
  - cbn [pr print map app level Z.ltb Z.compare] in *. primary n. destruct Hw as (-> & -> & ->). by rewrite at_false.
  - rewrite pr0_array in *. cbn [app] in *. rewrite <- app_assoc in *. cbn [app] in *. primary n.
    destruct (Sub items) as [Ra Wa]; [|done|]. { intros x Hx. apply size_in in Hx. lia. }
    destruct items as [|a items].
    + cbn [pr_args map join tks app] in *. rewrite at_true by (by rewrite peek_cons). by rewrite obind_done, expect_cons.
    + rewrite at_false by (apply pr_args_first; by apply Forall_cons in Wa as [? _]).
      rewrite items_read; [|done|done|done|depth]. by rewrite obind_done, expect_cons.
  - destruct (IH e1) as (R13 & _); [lia|done|]. rewrite pr0_post in *. rewrite <- app_assoc in *. cbn [app] in *.
    assert (A : after13 (tk (Punct (incdec inc)) :: rest)) by (repeat split; rewrite ?peek_cons; by destruct inc).
    destruct (R13 n _ A) as (n1 & Hn1 & ->); [depth|]. destruct n1 as [|n1]; [depth|]. exists n1. split; [depth|]. cbn [postfix_loop].
    rewrite !at_false by (rewrite peek_cons; by destruct inc). unfold at_. rewrite !peek_cons. cbn [tok]. rewrite bump_cons by done. by destruct inc.
  - rewrite pr0_call in *. cbn [app] in *. rewrite <- app_assoc in *. cbn [app] in *. primary n.
    destruct Hw as [(-> & -> & ->) Hargs]. destruct (Sub args) as [Ra Wa]; [|done|]. { intros x Hx. apply size_in in Hx. lia. }
    rewrite at_true by (by rewrite peek_cons). rewrite call_args_read; [done|done|done|done|depth].
  - destruct Hw as [Hw1 Hargs]. destruct (IH e1) as (R13 & _); [lia|done|]. rewrite pr0_method, <- app_assoc in *. cbn [app] in *. rewrite <- app_assoc in *. cbn [app] in *.
    destruct (Sub args) as [Ra Wa]; [|done|]. { intros x Hx. apply size_in in Hx. lia. }
    match type of Hn with context [pr 13 e1 ++ ?r] => assert (A : after13 r) by (repeat split; rewrite ?peek_cons; done) end.
    destruct (R13 n _ A) as (n1 & Hn1 & ->); [done|]. destruct n1 as [|n1]; [depth|]. exists n1. split; [depth|]. cbn [postfix_loop].
    rewrite at_false by (by rewrite peek_cons). rewrite at_true by (by rewrite peek_cons). rewrite bump_cons by done.
    rewrite (ident_cons s) by done. rewrite obind_done, at_true by (by rewrite peek_cons). rewrite call_args_read; [done|done|done|done|depth].
  - destruct Hw as [Hw1 Hw2]. destruct (IH e1) as (R13 & _); [lia|done|]. destruct (IH e2) as (_ & _ & _ & R0); [lia|done|].
    rewrite pr0_index, <- app_assoc in *. cbn [app] in *. rewrite <- app_assoc in *. cbn [app] in *.
    match type of Hn with context [pr 13 e1 ++ ?r] => assert (A : after13 r) by (repeat split; rewrite ?peek_cons; done) end.
    destruct (R13 n _ A) as (n1 & Hn1 & ->); [done|]. destruct n1 as [|n1]; [depth|]. exists n1. split; [depth|]. cbn [postfix_loop].
    rewrite at_true by (by rewrite peek_cons). rewrite bump_cons by (by apply app_ne).
    rewrite R0; [|by apply after0_closing; right; left|depth]. by rewrite obind_done, expect_cons.
  - destruct (IH e1) as (R13 & _); [lia|done|]. rewrite pr0_member, <- app_assoc in *. cbn [app] in *.
    match type of Hn with context [pr 13 e1 ++ ?r] => assert (A : after13 r) by (repeat split; rewrite ?peek_cons; done) end.
    destruct (R13 n _ A) as (n1 & Hn1 & ->); [done|]. destruct n1 as [|n1]; [depth|]. exists n1. split; [depth|]. cbn [postfix_loop].
    rewrite at_false by (by rewrite peek_cons). rewrite at_true by (by rewrite peek_cons). rewrite bump_cons by done.
    rewrite (ident_cons s) by done. rewrite obind_done. by rewrite at_false.
Qed.
End Bare.

Lemma not_cast_peek ts : peek ts <> Punct LParen -> at_cast ts = false.
Proof. intros H. unfold at_cast. by rewrite at_false. Qed.

(** Tokens [unary_expr] hands on to [postfix_expr]. *)
Definition postfixed (ts : toks) : Prop :=
  at_cast ts = false /\ forall q, peek ts = Punct q -> q = LParen \/ q = LBrack.

Lemma postfixed_pr e rest : expr_wf e -> postfixed (pr 13 e ++ rest).
Proof.
  revert rest. induction e; intros rest Hw;
    match goal with |- context [pr 13 ?x] => destruct (Z.lt_ge_cases (level x) 13) as [L|L] end.
  all: try (rewrite pr_paren by done; cbn [app]; rewrite <- app_assoc; cbn [app]; split;
            [by apply not_cast|intros q; rewrite peek_cons; intros [= <-]; by left]).
  all: rewrite pr_bare by done; cbn [expr_wf] in Hw.
  all: try (rewrite ?pr0_call, ?pr0_array; cbn [pr print map app level Z.ltb Z.compare];
            split; [apply not_cast_peek; by rewrite peek_cons|intros q; rewrite peek_cons; intros [= <-]; by right]).
  all: try (exfalso; cbn [level] in L; lia).
  - rewrite pr0_post, <- app_assoc. by apply IHe.
  - exfalso. cbn [level] in L. pose proof (prec_range op). lia.
  - rewrite pr0_method, <- app_assoc. apply IHe, Hw.
  - rewrite pr0_index, <- app_assoc. apply IHe1, Hw.
  - rewrite pr0_member, <- app_assoc. by apply IHe.
Qed.

Lemma unary_postfix n ts : postfixed ts -> unary_expr (S n) ts = postfix_expr n ts.
Proof.
  intros [Hc Hp]. cbn [unary_expr]. rewrite Hc. destruct (peek ts) as [| | | | |q|]; try done. by destruct (Hp q eq_refl) as [->| ->].
Qed.

Section Prefix.
Context (e : Expr) (Hw : expr_wf e) (IH : forall e', (esize e' < esize e)%nat -> expr_wf e' -> readable e').

(** Prefix expressions. *)
Lemma bare12 : 12 <= level e -> reads12 e.
Proof.
  intros Hl n rest Hr Hn. destruct n as [|n]; [depth|]. destruct (Z.eq_dec (level e) 13) as [E13|].
  { pose proof (bare13 e Hw IH E13) as R. rewrite (pr_bare 12 e), <- (pr_bare 13 e) in * by lia.
    rewrite unary_postfix by (by apply postfixed_pr).
    destruct (R n rest) as (n1 & Hn1 & ->); [apply Hr|depth|]. apply postfix_stops; [done|lia]. }
  rewrite pr_bare in * by done.
  destruct e as [v p|v p|s p|s p|s p|items p|ty e1 p|op e1 p|inc e1 p|inc e1 p|op e1 e2 p|op e1 e2 p|s args p|e1 s args p|e1 e2 p|e1 s p];
    cbn [level] in *; try lia; try (pose proof (prec_range op); lia); cbn [expr_wf strip esize] in *.
  - destruct Hw as (Hc & Hd & Hw1). destruct (IH e1) as (_ & R12 & _); [lia|done|].
    assert (Ep : pr 0 (ECast ty e1 p) = tk (Punct LParen) :: tk (Ident (t_name ty)) :: tk (Punct RParen) :: pr 12 e1) by done.
    rewrite Ep in *. cbn [app] in *. destruct (pr_cons 12 e1) as (t1 & r1 & E1).
    assert (Ne : pr 12 e1 ++ rest <> []) by (by rewrite E1). cbn [unary_expr].
    assert (at_cast (tk (Punct LParen) :: tk (Ident (t_name ty)) :: tk (Punct RParen) :: pr 12 e1 ++ rest) = true) as ->.
    { unfold at_cast, at_n, is_ident_tok, kw_at, peek_at. rewrite E1. cbn [app length Nat.sub Nat.min nth tok]. by rewrite Hc. }
    rewrite bump_cons by done. unfold type_ref. rewrite (ident_cons (t_name ty)) by done. rewrite obind_done.
    assert (brackets (tk (Punct RParen) :: pr 12 e1 ++ rest) 0 = (0, tk (Punct RParen) :: pr 12 e1 ++ rest)) as ->.
    { rewrite E1. done. }
    rewrite obind_done, expect_cons by done. rewrite obind_done. rewrite R12 by (done || depth). by rewrite Hd.
  - destruct Hw as (Ho & Hw1). destruct (IH e1) as (_ & R12 & _); [lia|done|].
    assert (Ep : pr 0 (EUnary op e1 p) = tk (Punct op) :: pr 12 e1) by done. rewrite Ep in *. cbn [app] in *. cbn [unary_expr].
    assert (Ne : pr 12 e1 ++ rest <> []) by (destruct (pr_cons 12 e1) as (? & ? & ->); done).
    rewrite not_cast_peek by (rewrite peek_cons; destruct Ho as [->|[->| ->]]; done). rewrite !peek_cons, bump_cons by done. cbn [tok].
    rewrite R12 by (done || depth). destruct Ho as [->|[->| ->]]; done.
  - destruct (IH e1) as (_ & R12 & _); [lia|done|].
    assert (Ep : pr 0 (EPreIncDec inc e1 p) = tk (Punct (incdec inc)) :: pr 12 e1) by done. rewrite Ep in *. cbn [app] in *. cbn [unary_expr].
    assert (Ne : pr 12 e1 ++ rest <> []) by (destruct (pr_cons 12 e1) as (? & ? & ->); done).
    rewrite not_cast_peek by (rewrite peek_cons; destruct inc; done). unfold at_. rewrite !peek_cons, bump_cons by done. cbn [tok].
    rewrite R12 by (done || depth). by destruct inc.
Qed.

Lemma after12_op op q rest : prec_of op = Some q -> after12 (tk (Punct op) :: rest).
Proof. intros H. repeat split; rewrite ?peek_cons; cbn [tok]; try done; by destruct op. Qed.
Lemma after12_assign op rest : is_assign_op op = true -> after12 (tk (Punct op) :: rest).
Proof. intros H. repeat split; rewrite ?peek_cons; cbn [tok]; try done; by destruct op. Qed.

(** Binary expressions. *)
Lemma bare_binary m k n rest :
  k <= m -> 1 <= m <= 12 -> m <= level e -> after12 rest -> after_binary e rest -> need (pr 0 e ++ rest) 5 n ->
  exists n', need rest 5 n' /\ binary_expr n k (pr 0 e ++ rest) = binary_loop n' k (strip e) rest.
Proof.
  intros Hk Hm Hl Hr Hb Hn. destruct (Z.lt_ge_cases (level e) 12) as [L|L].
  2: { pose proof (bare12 L) as R. destruct n as [|n]; [depth|]. exists n. split; [depth|]. cbn [binary_expr].
       rewrite <- (pr_bare 12 e) in * by lia. rewrite R by (done || depth). done. }
  destruct e as [| | | | | | | | | |op l r p|op l r p| | | |]; cbn [level] in *; try lia. cbn [after_binary strip] in *.
  destruct Hw as ([q Hq] & Hwl & Hwr). pose proof (eq_sym (prec_of_table op q Hq)) as Hpq. cbn [esize] in IH.
  destruct (IH l) as (_ & _ & Rl & _); [lia|done|]. destruct (IH r) as (_ & _ & Rr & _); [lia|done|].
  pose proof (prec_range op) as Pr. rewrite pr0_binary, <- app_assoc in *. cbn [app] in *.
  assert (Ll : prec op <= left_level op (prec op) <= prec op + 1) by (unfold left_level; destruct (bool_decide _); lia).
  assert (Lr : prec op <= right_level op (prec op) <= prec op + 1) by (unfold right_level; destruct (bool_decide _); lia).
  assert (A : after12 (tk (Punct op) :: pr (right_level op (prec op)) r ++ rest)) by by eapply after12_op.
  assert (B : left_level op (prec op) <= level l -> after_binary l (tk (Punct op) :: pr (right_level op (prec op)) r ++ rest)).
  { intros Hle. destruct l as [| | | | | | | | | |op2 ? ? ?| | | | |]; try exact I. cbn [after_binary level] in *.
    intros op' q'. unfold bin_prec. rewrite peek_cons. cbn [tok]. rewrite Hq. intros [= <- <-]. destruct Hwl as [Ho2 _].
    unfold right_level. case_bool_decide as H2; [|lia]. subst op2. assert (P11 : prec Pow = 11) by done. unfold left_level in Hle.
    case_bool_decide as H3; [subst op; lia|].
    assert (prec op <> 11) by (intros H11; apply H3, prec_pow; [by exists q|done]). lia. }
  destruct (Rl (left_level op (prec op)) k n _ ltac:(lia) ltac:(lia) A B) as (n1 & Hn1 & ->); [done|].
  destruct n1 as [|n1]; [depth|]. exists n1. split; [depth|]. cbn [binary_loop].
  unfold bin_prec at 1. rewrite peek_cons. cbn [tok]. rewrite Hq. destruct (Z.ltb_spec q k); [lia|].
  rewrite bump_cons by (destruct (pr_cons (right_level op (prec op)) r) as (? & ? & ->); done). rewrite Hpq, next_min_right in *.
  destruct (Rr (right_level op q) (right_level op q) n1 rest ltac:(lia) ltac:(lia) Hr) as (n2 & Hn2 & ->).
  - intros Hle. destruct r as [| | | | | | | | | |op2 ? ? ?| | | | |]; try exact I. cbn [after_binary level] in *.
    intros op' q' Hbp. apply Hb in Hbp. unfold right_level at 1. case_bool_decide; lia.
  - depth.
  - rewrite binary_stops by (done || lia). done.
Qed.

Lemma bare0 : reads0 e.
Proof.
  intros n rest Hr Hn. destruct n as [|n]; [depth|]. destruct Hr as (Hr & Hb & Ha). destruct (Z.eq_dec (level e) 0) as [L|L].
  - destruct e as [| | | | | | | | | |op l r p|op l r p| | | |]; cbn [level] in L; try lia; [pose proof (prec_range op); lia|].
    destruct Hw as (Ho & Hwl & Hwr). cbn [esize] in IH. destruct (IH l) as (_ & _ & Rl & _); [lia|done|]. destruct (IH r) as (_ & _ & _ & Rr); [lia|done|].
    rewrite pr0_assign, <- app_assoc in *. cbn [app] in *. cbn [assign_expr strip].
    assert (Bp : bin_prec (tk (Punct op) :: pr 0 r ++ rest) = None) by (unfold bin_prec; rewrite peek_cons; cbn [tok]; by destruct op).
    destruct (Rl 1 0 n (tk (Punct op) :: pr 0 r ++ rest)) as (n1 & Hn1 & ->); [lia|lia|by apply after12_assign| |depth|].
    { intros _. destruct l; try exact I. cbn [after_binary]. intros op' q'. by rewrite Bp. }
    rewrite binary_stops by (lia || by intros op' q'; rewrite Bp). rewrite obind_done, peek_cons. cbn [tok]. rewrite Ho.
    rewrite bump_cons by (destruct (pr_cons 0 r) as (? & ? & ->); done). rewrite Rr; [done| |depth]. split; [done|done].
  - pose proof (level_range e). cbn [assign_expr].
    destruct (bare_binary 1 0 n rest) as (n1 & Hn1 & ->); [lia|lia|lia|done| |depth|].
    { destruct e; try exact I. cbn [after_binary]. intros op' q'. by rewrite Hb. }
    rewrite binary_stops by (lia || by intros op' q'; rewrite Hb). rewrite obind_done.
    destruct (peek rest) as [| | | | |q|] eqn:Ep; try done. by rewrite (Ha q eq_refl).
Qed.

Lemma readable_step : readable e.
Proof.
  pose proof bare0 as R0. split; [|split; [|split; [|done]]].
  - destruct (Z.eq_dec (level e) 13) as [|L]; [by apply bare13|]. pose proof (level_range e). intros n rest Hr Hn.
    rewrite pr_paren in * by lia. cbn [app] in *. rewrite <- app_assoc in *. by apply paren13.
  - destruct (Z.lt_ge_cases (level e) 12) as [L|L]; [|by apply bare12]. intros n rest Hr Hn.
    rewrite pr_paren in * by lia. cbn [app] in *. rewrite <- app_assoc in *. apply paren12; try done. lia.
  - intros m k n rest Hk Hm Hr Hb Hn. destruct (Z.lt_ge_cases (level e) m) as [L|L].
    + rewrite pr_paren in * by lia. cbn [app] in *. rewrite <- app_assoc in *. apply paren_binary; try done. lia.
    + rewrite pr_bare in * by done. apply (bare_binary m); try done. by apply Hb.
Qed.
End Prefix.

Lemma all_readable e : expr_wf e -> readable e.
Proof.
  remember (esize e) as k eqn:Ek. revert e Ek. induction (lt_wf k) as [k _ IH]. intros e -> Hw. apply readable_step; [done|].
  intros e' Hs He. by apply (IH (esize e')).
Qed.

(** (C8) The expression grammar is unambiguous and its precedence is what it says:
    every expression, printed with only the parentheses its operators'
    binding powers and associativity require, is parsed back as itself, up to
    positions, and nothing after it is touched. *)
Theorem expr_roundtrip e n rest :
  expr_wf e -> after0 rest -> (16 * length (pr 0 e ++ rest) + 6 <= n)%nat ->
  expr n (pr 0 e ++ rest) = done (strip e, rest).
Proof. intros Hw Hr Hn. by apply all_readable. Qed.

(** ** Concrete expressions *)

Definition nm (c : Z) : Expr := EName [c] pos0.
(** [a - (b - c) ** 2 ** d], with its one pair of parentheses. *)
Definition sample : Expr :=
  EBinary Minus (nm 97) (EBinary Pow (EBinary Minus (nm 98) (nm 99) pos0) (EBinary Pow (EInt 2 pos0) (nm 100) pos0) pos0) pos0.

Lemma expr_roundtrip_witness :
  print 0 sample =
    [Ident [97]; Punct Minus; Punct LParen; Ident [98]; Punct Minus; Ident [99]; Punct RParen; Punct Pow; Int 2; Punct Pow; Ident [100]] /\
  expr 300 (pr 0 sample ++ [tk (Punct Semi); tk Eof]) = done (sample, [tk (Punct Semi); tk Eof]).
Proof.
  split; [reflexivity|]. change sample with (strip sample) at 2. apply expr_roundtrip.
  - cbn. repeat split; try reflexivity; eexists; reflexivity.
  - repeat split; rewrite ?peek_cons; try discriminate; try reflexivity. intros op [= <-]. reflexivity.
  - vm_compute. lia.
Defined.
