(* ===== verification/CcSource.v ===== *)
(** * The script compiler: from source text to expressions

    Positions do not steer the parser: token lists that differ only in
    positions parse to trees that differ only in positions.  With the lexer's
    round trip this gives the one from text: an expression in any spelling of its
    tokens, with or without blanks and comments, is read back as itself. *)

From S2P Require Import Prelude NetText BhsStd CcLex CcLexSpec CcAst CcParse CcParseSpec CcPrint.
From Stdlib Require Import Ascii.
From Stdlib Require String.
Import (notations) String.
#[local] Open Scope list_scope.
#[local] Open Scope outcome_scope.
#[local] Open Scope Z_scope.
Import Parser.

(** ** Positions do not matter *)

Definition same (ts ts' : toks) : Prop := map tok ts = map tok ts'.

Lemma same_length ts ts' : same ts ts' -> length ts = length ts'.
Proof. intros H. by rewrite <- (length_map tok ts), H, length_map. Qed.
Lemma peek_at_same n ts ts' : same ts ts' -> peek_at n ts' = peek_at n ts.
Proof.
  intros H. unfold peek_at. rewrite (same_length _ _ H). change Eof with (tok no_token).
  rewrite <- !(map_nth tok). by rewrite H.
Qed.
Lemma peek_same ts ts' : same ts ts' -> peek ts' = peek ts.
Proof. apply peek_at_same. Qed.
Lemma at_same p ts ts' : same ts ts' -> at_ p ts' = at_ p ts.
Proof. intros H. unfold at_. by rewrite (peek_same _ _ H). Qed.
Lemma at_cast_same ts ts' : same ts ts' -> at_cast ts' = at_cast ts.
Proof. intros H. unfold at_cast, is_ident_tok, at_n, kw_at. by rewrite (at_same _ _ _ H), !(peek_at_same _ _ _ H). Qed.
Lemma bin_prec_same ts ts' : same ts ts' -> bin_prec ts' = bin_prec ts.
Proof. intros H. unfold bin_prec. by rewrite (peek_same _ _ H). Qed.
Lemma bump_same ts ts' : same ts ts' -> same (bump ts) (bump ts').
Proof. unfold same. destruct ts as [|t [|t2 r]], ts' as [|t' [|t2' r']]; cbn; intros [=]; congruence. Qed.

(** Outcomes that agree: both done with related results, or both refused with
    the same message. *)
Definition agree {A} (R : A -> A -> Prop) (c c' : outcome ParseError (A * toks)) : Prop :=
  match c, c' with
  | None, None => True
  | Some (Err e), Some (Err e') => pe_msg e = pe_msg e'
  | Some (Ok (x, ts)), Some (Ok (y, ts')) => R x y /\ same ts ts'
  | _, _ => False
  end.
Definition alike (e e' : Expr) : Prop := strip e = strip e'.
Definition alike_list (l l' : list Expr) : Prop := map strip l = map strip l'.
Definition alike_type (t t' : TypeRef) : Prop := t_name t = t_name t' /\ array_depth t = array_depth t'.

Lemma agree_bind {A B} (R : A -> A -> Prop) (R' : B -> B -> Prop) c c' k k' :
  agree R c c' -> (forall x y ts ts', R x y -> same ts ts' -> agree R' (k (x, ts)) (k' (y, ts'))) -> agree R' (obind c k) (obind c' k').
Proof. destruct c as [[[x ts]|e]|], c' as [[[y ts']|e']|]; cbn; try done. intros [H1 H2] H. by apply H. Qed.

Lemma expect_same p ts ts' : same ts ts' -> agree eq (expect p ts) (expect p ts').
Proof.
  intros H. unfold expect. rewrite (at_same _ _ _ H). destruct (at_ p ts); cbn; [split; [done|by apply bump_same]|].
  by rewrite (peek_same _ _ H).
Qed.
Lemma ident_same ts ts' : same ts ts' -> agree eq (ident ts) (ident ts').
Proof. intros H. unfold ident. rewrite (peek_same _ _ H). destruct (peek ts); cbn; try done. split; [done|by apply bump_same]. Qed.
Lemma brackets_same ts ts' d : same ts ts' -> fst (brackets ts d) = fst (brackets ts' d) /\ same (snd (brackets ts d)) (snd (brackets ts' d)).
Proof.
  enough (G : forall n ts ts' d, (length ts <= n)%nat -> same ts ts' ->
    fst (brackets ts d) = fst (brackets ts' d) /\ same (snd (brackets ts d)) (snd (brackets ts' d))) by by eapply G.
  clear ts ts' d. induction n as [|n IH]; intros ts ts' d Hn H; pose proof (same_length _ _ H);
    destruct ts as [|t1 [|t2 r]], ts' as [|t1' [|t2' r']]; cbn [length] in *; try lia; try done.
  unfold same in H. cbn [map] in H. injection H as E1 E2 E3. cbn [brackets]. rewrite E1, E2.
  destruct (_ && _); [|by split; [done|unfold same; cbn; congruence]].
  destruct r as [|t3 r], r' as [|t3' r']; try discriminate; [by split; [done|unfold same; cbn; congruence]|]. apply IH; [cbn [length] in *; lia|done].
Qed.
Lemma type_ref_same ts ts' : same ts ts' -> agree alike_type (type_ref ts) (type_ref ts').
Proof.
  intros H. unfold type_ref. eapply agree_bind; [by apply ident_same|]. intros x y ts1 ts1' -> H1. cbn beta iota.
  destruct (brackets_same ts1 ts1' 0 H1) as [E1 E2]. destruct (brackets ts1 0), (brackets ts1' 0). cbn in *. by subst.
Qed.
Lemma more_strings_same ts ts' : same ts ts' ->
  fst (more_strings ts) = fst (more_strings ts') /\ same (snd (more_strings ts)) (snd (more_strings ts')).
Proof.
  revert ts'. induction ts as [|t r IH]; intros ts' H; destruct ts' as [|t' r']; try done.
  assert (Hr : same r r') by (unfold same in *; cbn in H; congruence). assert (Ht : tok t = tok t') by (unfold same in *; cbn in H; congruence).
  cbn [more_strings]. destruct r as [|t2 r], r' as [|t2' r']; try done. rewrite <- Ht. destruct (tok t); try done.
  destruct (IH _ Hr) as [E1 E2]. destruct (more_strings (t2 :: r)), (more_strings (t2' :: r')). cbn in *. by subst.
Qed.

Create HintDb same.
#[export] Hint Resolve expect_same ident_same type_ref_same bump_same : same.

(** Bring the second run's tests to the first's, then step both. *)
Ltac sync :=
  repeat match goal with
  | H : same ?a ?b |- context [bump ?b] =>
      lazymatch goal with _ : same (bump a) (bump b) |- _ => fail | _ => pose proof (bump_same a b H) end
  | H : same ?a ?b |- context [at_ ?p ?b] => rewrite (at_same p a b H)
  | H : same ?a ?b |- context [peek ?b] => rewrite (peek_same a b H)
  | H : same ?a ?b |- context [bin_prec ?b] => rewrite (bin_prec_same a b H)
  | H : same ?a ?b |- context [at_cast ?b] => rewrite (at_cast_same a b H)
  end.
Ltac pace1 :=
  sync;
  match goal with
  | |- agree _ (done _) (done _) => split; [unfold alike, alike_list, alike_type in *; cbn; intuition congruence|solve [eauto with same]]
  | |- agree _ (err _ _) (err _ _) => reflexivity
  | |- agree _ (err_at _ _) (err_at _ _) => reflexivity
  | |- agree _ None None => exact I
  | |- agree _ (obind (done _) _) (obind (done _) _) => rewrite !obind_done; cbn beta iota
  | |- agree _ (obind (if ?b then _ else _) _) (obind (if ?b then _ else _) _) => destruct b
  | |- agree _ (obind _ _) (obind _ _) => eapply agree_bind; [solve [eauto with same]|intros ? ? ? ? ? ?; cbn beta iota]
  | |- agree _ (if ?b then _ else _) (if ?b then _ else _) => destruct b
  end.
Ltac pace := cbn beta iota zeta; repeat (pace1; cbn beta iota zeta).

Record runs_same (n : nat) : Prop := {
  same_assign ts ts' : same ts ts' -> agree alike (assign_expr n ts) (assign_expr n ts');
  same_binary m ts ts' : same ts ts' -> agree alike (binary_expr n m ts) (binary_expr n m ts');
  same_bloop m e e' ts ts' : alike e e' -> same ts ts' -> agree alike (binary_loop n m e ts) (binary_loop n m e' ts');
  same_unary ts ts' : same ts ts' -> agree alike (unary_expr n ts) (unary_expr n ts');
  same_postfix ts ts' : same ts ts' -> agree alike (postfix_expr n ts) (postfix_expr n ts');
  same_ploop e e' ts ts' : alike e e' -> same ts ts' -> agree alike (postfix_loop n e ts) (postfix_loop n e' ts');
  same_args ts ts' : same ts ts' -> agree alike_list (call_args n ts) (call_args n ts');
  same_aloop ts ts' : same ts ts' -> agree alike_list (args_loop n ts) (args_loop n ts');
  same_items ts ts' : same ts ts' -> agree alike_list (array_items n ts) (array_items n ts');
  same_primary ts ts' : same ts ts' -> agree alike (primary_expr n ts) (primary_expr n ts') }.
#[export] Hint Resolve same_assign same_binary same_bloop same_unary same_postfix same_ploop same_args same_aloop same_items same_primary : same.
#[export] Hint Extern 2 (alike _ _) => unfold alike, alike_list in *; cbn; congruence : same.

Lemma runs_same_all n : runs_same n.
Proof.
  induction n as [|n IH]; [by constructor|]. constructor.
  - intros ts ts' H. cbn [assign_expr]. pace. sync. destruct (peek ts0); pace.
  - intros m ts ts' H. cbn [binary_expr]. pace. eauto with same.
  - intros m e e' ts ts' He H. cbn [binary_loop]. sync. destruct (bin_prec ts) as [[op q]|]; pace. eauto with same.
  - intros ts ts' H. cbn [unary_expr]. cbn zeta. sync. destruct (at_cast ts); [pace|].
    destruct (peek ts) as [| | | | |q|]; try (eauto with same; fail). destruct q; pace; eauto with same.
  - intros ts ts' H. cbn [postfix_expr]. pace. eauto with same.
  - intros e e' ts ts' He H. cbn [postfix_loop]. pace; eauto with same.
  - intros ts ts' H. cbn [call_args]. pace.
  - intros ts ts' H. cbn [args_loop]. pace.
  - intros ts ts' H. cbn [array_items]. pace.
  - intros ts ts' H. cbn [primary_expr]. cbn zeta. sync. destruct (peek ts) as [s| | |s| |q|]; try (pace; fail).
    + destruct (more_strings_same (bump ts) (bump ts')) as [E1 E2]; [by apply bump_same|].
      destruct (more_strings (bump ts)), (more_strings (bump ts')). cbn in *. by subst.
    + destruct q; pace.
Qed.

(** ** From text *)

Lemma strip_strip e : strip (strip e) = strip e.
Proof.
  assert (L : forall l k, (forall e', (esize e' < k)%nat -> strip (strip e') = strip e') -> (list_sum (map esize l) < k)%nat ->
    map strip (map strip l) = map strip l).
  { intros l k IH Hk. rewrite map_map. apply map_ext_in. intros x Hx. apply IH. pose proof (size_in x l Hx). lia. }
  remember (esize e) as k eqn:Ek. revert e Ek. induction (lt_wf k) as [k _ IH0]. intros e ->.
  assert (IH : forall e', (esize e' < esize e)%nat -> strip (strip e') = strip e') by (intros e' H; by apply (IH0 (esize e'))).
  destruct e; cbn [strip esize] in *; f_equal; try (by apply IH; lia); eapply L; try exact IH; lia.
Qed.

(** (C9) Text to tree.  Any text that spells the tokens of an expression and a
    semicolon lexes, and the parser reads that expression, up to positions, and
    stops at the semicolon.  The text may use every spelling of a token
    ([spelled]): decimal and hexadecimal integers, reals with digits on one or
    both sides of the point (read as the nearest [f32]), strings with escapes,
    localised strings; blanks and comments may stand anywhere between tokens and
    are needed only where the next character would go on with the token.  The
    expression is one of those the parser can build ([expr_wf]) whose literals
    have a spelling: no negative or infinite number literal, say. *)
Theorem source_roundtrip e b s :
  expr_wf e -> trivia b -> written (print 0 e ++ [Punct Semi]) s ->
  exists ts e' rest, lex (b ++ s) = Some (Ok ts) /\ expr (bound ts) ts = done (e', rest) /\ strip e' = strip e /\
    map tok rest = [Punct Semi; Eof].
Proof.
  intros Hw Hb Hs. destruct (run_written _ s (S (length (b ++ s))) b (mkPos 1 1) Hs Hb ltac:(lia)) as (ts & El & Em).
  set (ts0 := pr 0 e ++ [tk (Punct Semi); tk Eof]).
  assert (Hsame : same ts0 ts).
  { unfold same, ts0, pr. rewrite map_app, map_map. cbn [map tok]. rewrite map_id, Em, <- app_assoc. done. }
  assert (R : expr (bound ts) ts0 = done (strip e, [tk (Punct Semi); tk Eof])).
  { apply all_readable; [done| |unfold bound; rewrite <- (same_length _ _ Hsame); unfold ts0; lia].
    repeat split; rewrite ?peek_cons; try done. by intros op [= <-]. }
  pose proof (same_assign _ (runs_same_all (bound ts)) ts0 ts Hsame) as A. unfold expr in *. rewrite R in A.
  destruct (assign_expr (bound ts) ts) as [[[e' rest]|err]|] eqn:Ee; try done. destruct A as [A1 A2].
  exists ts, e', rest. split; [exact El|]. split; [done|]. split; [|by rewrite <- A2].
  unfold alike in A1. by rewrite <- A1, strip_strip.
Qed.

(** The text [" x*1.5;"] is the product of [x] and 1.5. *)
Lemma source_roundtrip_witness :
  exists ts e' rest, lex ([32] ++ [ch "x"; ch "*"; ch "1"; ch "."; ch "5"; ch ";"]) = Some (Ok ts) /\
    expr (bound ts) ts = done (e', rest) /\
    strip e' = EBinary Star (EName [ch "x"] pos0) (EReal (f32_of_decimal false 15 (-1)) pos0) pos0 /\ map tok rest = [Punct Semi; Eof].
Proof.
  apply (source_roundtrip (EBinary Star (EName [ch "x"] pos0) (EReal (f32_of_decimal false 15 (-1)) pos0) pos0) [32]).
  - cbn. split; [by eexists|]. by repeat split.
  - by apply trivia_ws, trivia_nil.
  - apply (written_cons _ [ch "x"] []); [by apply spelled_ident; [|apply Forall_nil|]|apply trivia_nil|].
    apply (written_cons _ [ch "*"] []); [by apply (punct_spelled Star)|apply trivia_nil|].
    apply (written_cons _ [ch "1"; ch "."; ch "5"] []); [by apply (spelled_real _ [ch "1"] [ch "5"] 15); [|apply Forall_singleton|apply Forall_singleton|..]|apply trivia_nil|].
    apply (written_cons _ [ch ";"] [] [] []); [by apply (punct_spelled Semi)|apply trivia_nil|apply written_nil].
Defined.
