(* ===== verification/BhsValue.v ===== *)
(** * The script virtual machine: values and aggregates

    [crates/don-bhs/src/value.rs], with [zero_of] and [zero_like] of
    [vm.rs].  Aggregates are shared: an [Rc<RefCell<Obj>>] is an address of
    [h_objs] and a storage slot [Rc<RefCell<Value>>] an address of [h_cells];
    an [Rc] never dangles, so the defaults of [cell_at] and [obj_at] are never
    observed.  The recursive routines take the number of nested calls the
    machine stack can hold; [None] is the stack overflow of a deeper (or
    cyclic) value. *)

From S2P Require Import Prelude NetText BhsOpcode BhsStd.
From Stdlib Require String.
Import (notations) String.

(** [enum ScriptTy]. *)
Inductive ScriptTy :=
| TInt | TReal | TStr | TVoid | TAny | TParams | TGroup | TArray | TStringArray | TOffer.

#[export] Instance ScriptTy_eq_dec : EqDecision ScriptTy.
Proof. solve_decision. Defined.

Definition tag (t : ScriptTy) : Z :=
  match t with
  | TInt => 0x00057bad | TReal => 0x0012f35f | TStr => 0x00168174 | TVoid => 0x00084048
  | TAny => 0x0027b2c1 | TParams => 0x0064ea2a | TGroup => 0x0139fd8d | TArray => 0x00153c88
  | TStringArray => 0x0020d693 | TOffer => 0x1d0655f3
  end.

Definition from_tag (z : Z) : option ScriptTy :=
  if z =? 0x00057bad then Some TInt
  else if z =? 0x0012f35f then Some TReal
  else if z =? 0x00168174 then Some TStr
  else if z =? 0x00084048 then Some TVoid
  else if z =? 0x0027b2c1 then Some TAny
  else if z =? 0x0064ea2a then Some TParams
  else if z =? 0x0139fd8d then Some TGroup
  else if z =? 0x00153c88 then Some TArray
  else if z =? 0x0020d693 then Some TStringArray
  else if z =? 0x1d0655f3 then Some TOffer
  else None.

(** [enum Value]; [VObj] holds the address of the aggregate. *)
Inductive Value := VInt (i : Z) | VReal (f : f32) | VStr (s : text) | VObj (a : nat) | VNull.

#[export] Instance f32_eq_dec : EqDecision f32.
Proof. solve_decision. Defined.
#[export] Instance Value_eq_dec : EqDecision Value.
Proof. solve_decision. Defined.

(** [struct Obj]. *)
Record Obj := mkObj {
  o_data_type : Z; o_values : list nat; o_blank_base : option Value; o_is_array : bool }.

Record Heap := mkHeap { h_cells : list Value; h_objs : list Obj }.

(** [enum OpError]. *)
Inductive OpError :=
| DivideByZero | TypeMismatch (lhs rhs : Z) | BadOperand (m : string) | NotAnArray | IndexOutOfRange (i : Z).

#[export] Instance OpError_eq_dec : EqDecision OpError.
Proof. solve_decision. Defined.

Definition cell_at (h : Heap) (a : nat) : Value := default VNull (h_cells h !! a).
Definition obj_at (h : Heap) (a : nat) : Obj := default (mkObj 0 [] None false) (h_objs h !! a).

(** [cell(v)], once and for a list of values in order. *)
Definition cell (v : Value) (h : Heap) : nat * Heap :=
  (length (h_cells h), mkHeap (h_cells h ++ [v]) (h_objs h)).
Definition cells (vs : list Value) (h : Heap) : list nat * Heap :=
  (seq (length (h_cells h)) (length vs), mkHeap (h_cells h ++ vs) (h_objs h)).

(** [Rc::new(RefCell::new(o))]. *)
Definition new_obj (o : Obj) (h : Heap) : Value * Heap :=
  (VObj (length (h_objs h)), mkHeap (h_cells h) (h_objs h ++ [o])).

Definition set_cell (a : nat) (v : Value) (h : Heap) : Heap := mkHeap (<[a := v]> (h_cells h)) (h_objs h).
Definition set_obj (a : nat) (o : Obj) (h : Heap) : Heap := mkHeap (h_cells h) (<[a := o]> (h_objs h)).

(** [Value::array], through [Obj::new_array]. *)
Definition array (elem_type : Z) (base : Value) (count : nat) (h : Heap) : Value * Heap :=
  let '(cs, h) := cells (replicate count base) h in
  new_obj (mkObj elem_type cs (Some base) true) h.

(** [Value::strukt], through [Obj::new_struct]. *)
Definition strukt (data_type : Z) (fields : list Value) (h : Heap) : Value * Heap :=
  let '(cs, h) := cells fields h in
  new_obj (mkObj data_type cs None false) h.

(** [Obj::resize] on the aggregate at [a]. *)
Definition resize (a : nat) (count : nat) (grow_only : bool) (h : Heap) : result OpError unit * Heap :=
  let o := obj_at h a in
  match o_blank_base o with
  | None => (Err NotAnArray, h)
  | Some base =>
      if (length (o_values o) <? count)%nat then
        let '(cs, h) := cells (replicate (count - length (o_values o)) base) h in
        (Ok tt, set_obj a (mkObj (o_data_type o) (o_values o ++ cs) (Some base) (o_is_array o)) h)
      else if negb grow_only then
        (Ok tt, set_obj a (mkObj (o_data_type o) (take count (o_values o)) (Some base) (o_is_array o)) h)
      else (Ok tt, h)
  end.

Definition obj (v : Value) : option nat := match v with VObj a => Some a | _ => None end.

Definition data_type (h : Heap) (v : Value) : Z :=
  match v with
  | VInt _ => tag TInt | VReal _ => tag TReal | VStr _ => tag TStr
  | VObj a => o_data_type (obj_at h a)
  | VNull => 0
  end.

Definition ty (v : Value) : ScriptTy :=
  match v with VInt _ => TInt | VReal _ => TReal | VStr _ => TStr | VObj _ => TArray | VNull => TAny end.

(** Values that own no storage. *)
Definition scalar (v : Value) : bool := match v with VInt _ | VReal _ | VStr _ => true | VObj _ | VNull => false end.

Definition as_int (v : Value) : Z :=
  match v with
  | VInt i => i
  | VReal f => i32_of_f32 f
  | VStr s => default 0 (parse_i32 (trim s))
  | VObj _ | VNull => 0
  end.

Definition as_real (v : Value) : f32 :=
  match v with
  | VInt i => f32_of_i32 i
  | VReal f => f
  | VStr s => default f32_zero (parse_f32 (trim s))
  | VObj _ | VNull => f32_zero
  end.

Definition as_string `{StdLib} (v : Value) : result OpError text :=
  match v with
  | VInt i => Ok (i32_to_string i)
  | VReal f => Ok (f32_to_string f)
  | VStr s => Ok s
  | VObj _ => Err (BadOperand "ScriptObject::get_string is not recovered"%string)
  | VNull => Err (BadOperand "get_string on a null ScriptType*"%string)
  end.

Definition is_false (v : Value) : bool :=
  match v with
  | VInt i => i <=? 0
  | VReal f => SFleb f f32_zero
  | VStr s => bool_decide (s = [])
  | VObj _ => false
  | VNull => true
  end.
Definition is_true (v : Value) : bool := negb (is_false v).

(** [iter().map(|c| cell(f(c))).collect()] over the slots of an aggregate. *)
Fixpoint map_cells (f : Value -> Heap -> option (Value * Heap)) (cs : list nat) (h : Heap)
    : option (list nat * Heap) :=
  match cs with
  | [] => Some ([], h)
  | c :: cs =>
      '(v, h) ← f (cell_at h c) h;
      let '(a, h) := cell v h in
      '(l, h) ← map_cells f cs h;
      Some (a :: l, h)
  end.

(** [Value::duplicate]. *)
Fixpoint duplicate (depth : nat) (v : Value) (h : Heap) : option (Value * Heap) :=
  match v with
  | VObj a =>
      match depth with
      | O => None
      | S depth =>
          let o := obj_at h a in
          '(cs, h) ← map_cells (duplicate depth) (o_values o) h;
          Some (new_obj (mkObj (o_data_type o) cs (o_blank_base o) (o_is_array o)) h)
      end
  | _ => Some (v, h)
  end.

(** [zero_of] and [zero_like] of [vm.rs]. *)
Definition zero_of (z : Z) : Value :=
  match from_tag z with Some TReal => VReal f32_zero | Some TStr => VStr [] | _ => VInt 0 end.

Fixpoint zero_like (depth : nat) (v : Value) (h : Heap) : option (Value * Heap) :=
  match v with
  | VReal _ => Some (VReal f32_zero, h)
  | VStr _ => Some (VStr [], h)
  | VObj a =>
      match depth with
      | O => None
      | S depth =>
          let o := obj_at h a in
          '(cs, h) ← map_cells (zero_like depth) (o_values o) h;
          Some (new_obj (mkObj (o_data_type o) cs (o_blank_base o) (o_is_array o)) h)
      end
  | _ => Some (VInt 0, h)
  end.

(** ** Conversions *)

Lemma from_tag_tag t : from_tag (tag t) = Some t.
Proof. by destruct t. Qed.

Lemma tag_from_tag z t : from_tag z = Some t -> tag t = z.
Proof.
  unfold from_tag. repeat (match goal with |- context [z =? ?k] => destruct (Z.eqb_spec z k) as [->|_] end;
    [by intros [= <-]|]). done.
Qed.

(** An integer printed by [OP_CAST] to a string and cast back is itself. *)
Lemma cast_int_string `{StdLib} i : is_i32 i -> exists s, as_string (VInt i) = Ok s /\ as_int (VStr s) = i.
Proof.
  intros Hi. eexists; split; [reflexivity|]. unfold as_int.
  rewrite trim_digits_ok by apply i32_to_string_plain. by rewrite parse_i32_to_string.
Qed.

(** [as_int] is always an [i32]. *)
Lemma as_int_range v : (forall i, v = VInt i -> is_i32 i) -> is_i32 (as_int v).
Proof.
  assert (Z0 : is_i32 0) by (unfold in_s; lia).
  destruct v as [i|f|s| |]; simpl; intros Hv; try done; [by apply Hv| |].
  - destruct f as [|[]| |s m e]; simpl; unfold in_s, I32_MIN, I32_MAX; try lia.
  - destruct (parse_i32 (trim s)) as [i|] eqn:E; [|done]. by eapply parse_i32_range.
Qed.

(** ** Heaps *)

(** [h'] only has more cells and aggregates than [h]. *)
Definition extends (h h' : Heap) : Prop :=
  h_cells h `prefix_of` h_cells h' /\ h_objs h `prefix_of` h_objs h'.

#[export] Instance extends_preorder : PreOrder extends.
Proof. split; [done|]. intros x y z [? ?] [? ?]. split; by etrans. Qed.

Lemma extends_cell v h : extends h (snd (cell v h)).
Proof. split; simpl; [by apply prefix_app_r|done]. Qed.
Lemma extends_new_obj o h : extends h (snd (new_obj o h)).
Proof. split; simpl; [done|by apply prefix_app_r]. Qed.

Lemma extends_cell_lookup h h' a v : extends h h' -> h_cells h !! a = Some v -> h_cells h' !! a = Some v.
Proof. intros [? _] ?. by eapply prefix_lookup_Some. Qed.
Lemma extends_obj_lookup h h' a o : extends h h' -> h_objs h !! a = Some o -> h_objs h' !! a = Some o.
Proof. intros [_ ?] ?. by eapply prefix_lookup_Some. Qed.

(** ** Deep values *)

#[local] Set Warnings "-register-all".

(** A value read through the heap, [None] when it is deeper than [depth] (or
    an address dangles).  The prototype element is a pointer, not contents. *)
Inductive Tree :=
| Leaf (v : Value)
| Node (data_type : Z) (kids : list Tree) (blank_base : option Value) (is_array : bool).

Fixpoint read (depth : nat) (h : Heap) (v : Value) : option Tree :=
  match v with
  | VObj a =>
      match depth with
      | O => None
      | S depth =>
          o ← h_objs h !! a;
          kids ← mapM (fun c => v ← h_cells h !! c; read depth h v) (o_values o);
          Some (Node (o_data_type o) kids (o_blank_base o) (o_is_array o))
      end
  | _ => Some (Leaf v)
  end.

(** From these sizes on, [h2] has what [h1] has. *)
Definition includes_from (nc no : nat) (h1 h2 : Heap) : Prop :=
  (forall a v, (nc <= a)%nat -> h_cells h1 !! a = Some v -> h_cells h2 !! a = Some v) /\
  (forall a o, (no <= a)%nat -> h_objs h1 !! a = Some o -> h_objs h2 !! a = Some o).

(** [v] reads [t] in every heap that has what [h] has from [nc] and [no] on:
    no older cell or aggregate is part of it. *)
Definition owns (nc no depth : nat) (h : Heap) (v : Value) (t : Tree) : Prop :=
  forall h2, includes_from nc no h h2 -> read depth h2 v = Some t.

Lemma mapM_lookup_mono (f g : nat -> option Tree) cs ts :
  (forall c t, f c = Some t -> g c = Some t) -> mapM f cs = Some ts -> mapM g cs = Some ts.
Proof.
  intros Hfg H. apply mapM_Some. apply mapM_Some in H. eapply Forall2_impl; [exact H|]. naive_solver.
Qed.

Lemma read_extends depth h h' v t : extends h h' -> read depth h v = Some t -> read depth h' v = Some t.
Proof.
  intros He. revert v t. induction depth as [|depth IH]; intros v t; destruct v as [| | |a|]; try done.
  cbn [read]. destruct (h_objs h !! a) as [o|] eqn:Ho; [|done]. cbn.
  rewrite (extends_obj_lookup _ _ _ _ He Ho). cbn.
  destruct (mapM _ (o_values o)) as [ts|] eqn:Ek; [|done]. cbn. intros [= <-].
  erewrite mapM_lookup_mono; [done| |exact Ek].
  intros c t'. cbn. destruct (h_cells h !! c) as [w|] eqn:Hc; [|done]. cbn.
  rewrite (extends_cell_lookup _ _ _ _ He Hc). apply IH.
Qed.

(** ** Deep copies *)

Lemma extends_includes nc no h h' : extends h h' -> includes_from nc no h h'.
Proof. intros He. split; intros ???; [by apply extends_cell_lookup|by apply extends_obj_lookup]. Qed.

Lemma includes_trans nc no h1 h2 h3 :
  includes_from nc no h1 h2 -> includes_from nc no h2 h3 -> includes_from nc no h1 h3.
Proof. intros [? ?] [? ?]. split; eauto. Qed.

Lemma extends_sizes h h' :
  extends h h' -> (length (h_cells h) <= length (h_cells h') /\ length (h_objs h) <= length (h_objs h'))%nat.
Proof. intros [? ?]. split; by apply prefix_length. Qed.

Lemma map_cells_spec (f : Value -> Heap -> option (Value * Heap)) (g : Tree -> Tree) depth nc no :
  (forall v h t, read depth h v = Some t -> (nc <= length (h_cells h))%nat -> (no <= length (h_objs h))%nat ->
     exists v' h', f v h = Some (v', h') /\ extends h h' /\ owns nc no depth h' v' (g t)) ->
  forall cs h ts,
    mapM (fun c => v ← h_cells h !! c; read depth h v) cs = Some ts ->
    (nc <= length (h_cells h))%nat -> (no <= length (h_objs h))%nat ->
    exists l h', map_cells f cs h = Some (l, h') /\ extends h h' /\
      forall h2, includes_from nc no h' h2 -> mapM (fun c => v ← h_cells h2 !! c; read depth h2 v) l = Some (map g ts).
Proof.
  intros Hf cs. induction cs as [|c cs IH]; intros h ts H Hc Ho.
  { injection H as <-. exists [], h. done. }
  cbn [mapM] in H. destruct (h_cells h !! c) as [v|] eqn:Ec; [|done]. cbn in H.
  destruct (read depth h v) as [t|] eqn:Er; [|done]. cbn in H.
  destruct (mapM _ cs) as [ts'|] eqn:Em; [|done]. injection H as <-.
  destruct (Hf v h t Er Hc Ho) as (v' & h1 & Hd & He & Hown).
  assert (He2 : extends h (snd (cell v' h1))) by (etrans; [exact He|apply extends_cell]).
  pose proof (extends_sizes _ _ He2) as [S1 S2].
  destruct (IH (snd (cell v' h1)) ts') as (l & h3 & Hm & He3 & Hl); [|lia..|].
  { eapply mapM_lookup_mono; [|exact Em]. intros c' t'. cbn beta.
    destruct (h_cells h !! c') as [w|] eqn:Ew; [|done]. cbn [mbind option_bind].
    rewrite (extends_cell_lookup _ _ _ _ He2 Ew). cbn [mbind option_bind]. by apply read_extends. }
  exists (length (h_cells h1) :: l), h3. split; [|split].
  - cbn [map_cells]. unfold cell_at. rewrite Ec. cbn [default id]. rewrite Hd. cbn. cbn in Hm. by rewrite Hm.
  - by etrans.
  - intros h2 Hi. cbn [mapM map].
    assert (E3 : h_cells h3 !! length (h_cells h1) = Some v').
    { eapply extends_cell_lookup; [exact He3|]. simpl. by apply list_lookup_middle. }
    pose proof (extends_sizes _ _ He) as [S3 _].
    rewrite (proj1 Hi (length (h_cells h1)) v' ltac:(lia) E3). cbn [mbind option_bind].
    rewrite Hown by (eapply includes_trans; [|exact Hi]; apply extends_includes; etrans; [apply extends_cell|exact He3]).
    cbn. by rewrite (Hl h2 Hi).
Qed.

(** The object a deep copy ends with. *)
Lemma owns_new_obj nc no depth h dt cs bb arr kids :
  (no <= length (h_objs h))%nat ->
  (forall h2, includes_from nc no h h2 -> mapM (fun c => v ← h_cells h2 !! c; read depth h2 v) cs = Some kids) ->
  owns nc no (S depth) (snd (new_obj (mkObj dt cs bb arr) h)) (VObj (length (h_objs h))) (Node dt kids bb arr).
Proof.
  intros Hno Hk h2 Hi. cbn [read].
  assert (E : h_objs (snd (new_obj (mkObj dt cs bb arr) h)) !! length (h_objs h) = Some (mkObj dt cs bb arr)).
  { simpl. by apply list_lookup_middle. }
  rewrite (proj2 Hi _ _ Hno E). cbn [mbind option_bind o_values o_data_type o_blank_base o_is_array].
  rewrite (Hk h2); [done|]. eapply includes_trans; [|exact Hi]. apply extends_includes, extends_new_obj.
Qed.

Lemma map_id_trees (ts : list Tree) : map (fun t => t) ts = ts.
Proof. apply List.map_id. Qed.

Lemma duplicate_owns depth nc no v h t :
  read depth h v = Some t -> (nc <= length (h_cells h))%nat -> (no <= length (h_objs h))%nat ->
  exists v' h', duplicate depth v h = Some (v', h') /\ extends h h' /\ owns nc no depth h' v' t.
Proof.
  revert v h t. induction depth as [|depth IH]; intros v h t H Hc Ho.
  { destruct v; try done; injection H as <-; eexists _, h; repeat split; done. }
  destruct v as [i|f|s|a|]; [injection H as <-; eexists _, h; repeat split; done..| |injection H as <-; eexists _, h; repeat split; done].
  cbn [read] in H. destruct (h_objs h !! a) as [o|] eqn:Eo; [|done]. cbn in H.
  destruct (mapM _ (o_values o)) as [ts|] eqn:Em; [|done]. injection H as <-.
  destruct (map_cells_spec (duplicate depth) (fun t => t) depth nc no IH _ _ _ Em Hc Ho) as (l & h1 & Hm & He & Hl).
  cbn [duplicate]. unfold obj_at. rewrite Eo. cbn [default id]. rewrite Hm. cbn.
  eexists _, _. split; [reflexivity|]. split; [etrans; [exact He|apply (extends_new_obj _ h1)]|].
  pose proof (extends_sizes _ _ He) as [_ S]. rewrite map_id_trees in Hl.
  by apply owns_new_obj; [lia|].
Qed.

(** [duplicate] is a deep copy: of every value that is not too deep it makes a
    value with the same contents, it changes nothing that exists, and nothing
    that existed is part of the copy: whatever later happens to the old cells
    and aggregates, the copy reads the same. *)
Theorem duplicate_deep (depth : nat) (v : Value) (h : Heap) (t : Tree) :
  read depth h v = Some t ->
  exists v' h', duplicate depth v h = Some (v', h') /\
    extends h h' /\ read depth h' v = Some t /\ read depth h' v' = Some t /\
    forall h2, includes_from (length (h_cells h)) (length (h_objs h)) h' h2 -> read depth h2 v' = Some t.
Proof.
  intros H. destruct (duplicate_owns depth _ _ v h t H (le_n _) (le_n _)) as (v' & h' & Hd & He & Hown).
  exists v', h'. split; [done|]. split; [done|]. split; [by eapply read_extends|].
  split; [|exact Hown]. by apply Hown.
Qed.

Definition demo_heap : Heap := snd (strukt 77 [VInt 4; VStr [0x61]] (mkHeap [] [])).

Lemma duplicate_deep_witness :
  exists v' h', duplicate 3 (VObj 0) demo_heap = Some (v', h') /\
    read 3 (set_cell 0 (VInt 9) h') v' = Some (Node 77 [Leaf (VInt 4); Leaf (VStr [0x61])] None false).
Proof.
  destruct (duplicate_deep 3 (VObj 0) demo_heap (Node 77 [Leaf (VInt 4); Leaf (VStr [0x61])] None false))
    as (v' & h' & Hd & He & _ & _ & Hs); [reflexivity|].
  exists v', h'. split; [exact Hd|]. apply Hs. split; [|done].
  intros [|[|a]] w Ha; [simpl in Ha; lia..|]. simpl. by destruct (h_cells h').
Defined.

(** A new array shares one prototype among all its elements: an aggregate
    prototype is the same aggregate in every slot. *)
Lemma array_shares_base et base n h a :
  base = VObj a ->
  let '(v, h') := array et base n h in
  forall i c, o_values (obj_at h' (length (h_objs h))) !! i = Some c -> cell_at h' c = VObj a.
Proof.
  intros ->. simpl. intros i c. unfold obj_at. cbn [h_objs].
  rewrite list_lookup_middle by done. cbn [default o_values].
  rewrite length_replicate. intros [-> Hi]%lookup_seq. unfold cell_at. cbn [h_cells].
  rewrite lookup_app_r by lia. replace (_ - _)%nat with i by lia. by rewrite lookup_replicate_2 by lia.
Qed.
