(* ===== verification/BhsOps.v ===== *)
(** * The script virtual machine: operators

    [crates/don-bhs/src/ops.rs]: [do_operator] and its four receivers.  An
    opcode is its number; an operator on aggregates works on the heap, and
    [None] is the stack overflow of a comparison or copy deeper than
    [depth]. *)

From S2P Require Import Prelude NetText BhsOpcode BhsStd BhsValue.
From Stdlib Require String.
Import (notations) String.
#[local] Open Scope string_scope.
#[local] Open Scope Z_scope.

(** Case analysis on the opcode, along the chain of tests. *)
Ltac op_cases op :=
  repeat (match goal with |- context [op =? ?k] => destruct (Z.eqb_spec op k) as [?|?] end; cbn [orb]).

Section Ops.
Context `{StdLib}.

(** [b(x)]: a boolean as an integer value. *)
Definition vbool (x : bool) : Value := VInt (if x then 1 else 0).
Definition int_of_bool (x : bool) : Z := if x then 1 else 0.

(** The wrapping [i32] operations of [int_op]. *)
Definition int_div (x y : Z) : result OpError Z := if y =? 0 then Err DivideByZero else Ok (i32 (Z.quot x y)).
Definition int_rem (x y : Z) : result OpError Z := if y =? 0 then Err DivideByZero else Ok (i32 (Z.rem x y)).

(** The opcodes of [int_op] that never read the right operand. *)
Definition int_unary (a op : Z) : option Value :=
  if op =? 0x09 then Some (vbool (a <? 1))
  else if (op =? 0x0a) || (op =? 0x0b) then Some (vbool (0 <? a))
  else if (op =? 0x12) || (op =? 0x14) then Some (VInt (i32 (a + 1)))
  else if (op =? 0x13) || (op =? 0x15) then Some (VInt (i32 (a - 1)))
  else if op =? 0x16 then Some (VInt (i32 (- a)))
  else if op =? 0x25 then Some (VInt (Z.lnot a))
  else None.

Definition int_binary (a op r : Z) : result OpError Z :=
  let sh := Z.land (u32 r) 31 in
  if op =? 0x00 then Ok r
  else if op =? 0x01 then Ok (int_of_bool (a =? r))
  else if op =? 0x02 then Ok (int_of_bool (negb (a =? r)))
  else if (op =? 0x03) || (op =? 0x04) then Ok (i32 (a + r))
  else if op =? 0x05 then Ok (int_of_bool (a <? r))
  else if op =? 0x06 then Ok (int_of_bool (r <? a))
  else if op =? 0x07 then Ok (int_of_bool (a <=? r))
  else if op =? 0x08 then Ok (int_of_bool (r <=? a))
  else if (op =? 0x0c) || (op =? 0x0f) then Ok (i32 (a * r))
  else if (op =? 0x0d) || (op =? 0x10) then int_div a r
  else if (op =? 0x0e) || (op =? 0x11) then Ok (i32 (a - r))
  else if (op =? 0x17) || (op =? 0x18) then Ok (i32_of_f32 (powf (f32_of_i32 a) (f32_of_i32 r)))
  else if (op =? 0x19) || (op =? 0x1f) then int_rem a r
  else if (op =? 0x1a) || (op =? 0x20) then Ok (i32 (Z.shiftl a sh))
  else if (op =? 0x1b) || (op =? 0x21) then Ok (Z.shiftr a sh)
  else if (op =? 0x1c) || (op =? 0x22) then Ok (Z.land a r)
  else if (op =? 0x1d) || (op =? 0x23) then Ok (Z.lxor a r)
  else if (op =? 0x1e) || (op =? 0x24) then Ok (Z.lor a r)
  else Err (BadOperand "opcode not defined for int").

Definition int_op (a op : Z) (rhs : option Z) : result OpError Value :=
  match int_unary a op with
  | Some v => Ok v
  | None =>
      let? r := ok_or rhs (BadOperand "int binary opcode with no rhs") in
      let? z := int_binary a op r in Ok (VInt z)
  end.

Definition real_unary (a : f32) (op : Z) : option Value :=
  if op =? 0x09 then Some (vbool (SFleb a f32_zero))
  else if (op =? 0x0a) || (op =? 0x0b) then Some (vbool (SFltb f32_zero a))
  else if (op =? 0x12) || (op =? 0x14) then Some (VReal (f32_add a f32_one))
  else if (op =? 0x13) || (op =? 0x15) then Some (VReal (f32_sub a f32_one))
  else if op =? 0x16 then Some (VReal (SFopp a))
  else None.

Definition real_binary (a : f32) (op : Z) (r : f32) : result OpError Value :=
  if op =? 0x00 then Ok (VReal r)
  else if op =? 0x01 then Ok (vbool (SFeqb a r))
  else if op =? 0x02 then Ok (vbool (negb (SFeqb a r)))
  else if (op =? 0x03) || (op =? 0x04) then Ok (VReal (f32_add a r))
  else if op =? 0x05 then Ok (vbool (negb (SFltb r a) && negb (SFeqb r a)))
  else if op =? 0x06 then Ok (vbool (negb (SFltb a r) && negb (SFeqb a r)))
  else if op =? 0x07 then Ok (vbool (SFleb a r))
  else if op =? 0x08 then Ok (vbool (SFleb r a))
  else if (op =? 0x0c) || (op =? 0x0f) then Ok (VReal (f32_mul a r))
  else if (op =? 0x0d) || (op =? 0x10) then
    if SFeqb r f32_zero then Err DivideByZero else Ok (VReal (f32_div a r))
  else if (op =? 0x0e) || (op =? 0x11) then Ok (VReal (f32_sub a r))
  else if (op =? 0x17) || (op =? 0x18) then Ok (VReal (f32_trunc (powf a r)))
  else Err (BadOperand "opcode not defined for real").

Definition real_op (a : f32) (op : Z) (rhs : option f32) : result OpError Value :=
  match real_unary a op with
  | Some v => Ok v
  | None =>
      let? r := ok_or rhs (BadOperand "real binary opcode with no rhs") in
      real_binary a op r
  end.

Definition str_binary (a : text) (op : Z) (r : text) : result OpError Value :=
  let al := to_lowercase a in
  let rl := to_lowercase r in
  if op =? 0x00 then Ok (VStr r)
  else if op =? 0x01 then Ok (vbool (bool_decide (al = rl)))
  else if op =? 0x02 then Ok (vbool (negb (bool_decide (al = rl))))
  else if op =? 0x03 then Ok (VStr (a ++ r)%list)
  else if op =? 0x04 then Ok (VStr (a ++ r)%list)
  else if op =? 0x05 then Ok (vbool (text_lt al rl))
  else if op =? 0x06 then Ok (vbool (text_lt rl al))
  else if op =? 0x07 then Ok (vbool (text_lt al rl || bool_decide (al = rl)))
  else if op =? 0x08 then Ok (vbool (text_lt rl al || bool_decide (al = rl)))
  else if op =? 0x0a then Ok (vbool (negb (bool_decide (a = [])) && negb (bool_decide (r = []))))
  else if op =? 0x0b then Ok (vbool (negb (bool_decide (a = [])) || negb (bool_decide (r = []))))
  else Err (BadOperand "opcode not defined for string").

Definition str_op (a : text) (op : Z) (rhs : option Value) : result OpError Value :=
  if op =? 0x09 then Ok (vbool (bool_decide (a = [])))
  else
    let? rv := ok_or rhs (BadOperand "string binary opcode with no rhs") in
    match rv with
    | VStr r => str_binary a op r
    | _ => Err (BadOperand "string operator with non-string rhs")
    end.

(** [OP_ASSIGN] on an aggregate: [this]'s slots become fresh copies of
    [other]'s. *)
Fixpoint duplicate_all (depth : nat) (cs : list nat) (h : Heap) : option (list Value * Heap) :=
  match cs with
  | [] => Some ([], h)
  | c :: cs =>
      '(v, h) ← duplicate depth (cell_at h c) h;
      '(vs, h) ← duplicate_all depth cs h;
      Some (v :: vs, h)
  end.

Definition obj_assign (depth : nat) (this other : nat) (h : Heap) : option Heap :=
  '(src, h) ← duplicate_all depth (o_values (obj_at h other)) h;
  let '(cs, h) := cells src h in
  let t := obj_at h this in
  Some (set_obj this (mkObj (o_data_type t) cs (o_blank_base t) (o_is_array t)) h).

(** [zip(..).all(..)], stopping at the first pair that differs. *)
Fixpoint all_eq (eq : Value -> Value -> option bool) (h : Heap) (xs ys : list nat) : option bool :=
  match xs, ys with
  | x :: xs, y :: ys =>
      b ← eq (cell_at h x) (cell_at h y);
      if b : bool then all_eq eq h xs ys else Some false
  | _, _ => Some true
  end.

(** The guard at the head of [do_operator]. *)
Definition type_guard (h : Heap) (lhs : Value) (rhs : option Value) : result OpError unit :=
  match rhs with
  | Some r => if data_type h r =? data_type h lhs then Ok tt
              else Err (TypeMismatch (data_type h lhs) (data_type h r))
  | None => Ok tt
  end.

(** [do_operator], with [obj_op] in its place: the comparison of aggregates
    is the recursive call on their elements. *)
Fixpoint do_operator (depth : nat) (h : Heap) (lhs : Value) (op : Z) (rhs : option Value)
    : option (result OpError Value * Heap) :=
  match type_guard h lhs rhs with
  | Err e => Some (Err e, h)
  | Ok _ =>
      match lhs with
      | VInt a => Some (int_op a op (as_int <$> rhs), h)
      | VReal a => Some (real_op a op (as_real <$> rhs), h)
      | VStr a => Some (str_op a op rhs, h)
      | VNull => Some (Err (BadOperand "do_operator on a null ScriptType*"), h)
      | VObj this =>
          match rhs ≫= obj with
          | None =>
              Some ((if op =? 0x01 then Ok (vbool false)
                     else if op =? 0x02 then Ok (vbool true)
                     else Err (BadOperand "aggregate operator with no aggregate rhs")), h)
          | Some other =>
              match depth with
              | O => None
              | S depth =>
                  if op =? 0x00 then
                    h ← obj_assign depth this other h;
                    Some (Ok lhs, h)
                  else if (op =? 0x01) || (op =? 0x02) then
                    let elem x y :=
                      '(res, _) ← do_operator depth h x 0x01 (Some y);
                      Some (match res with Ok (VInt 1) => true | _ => false end) in
                    let xs := o_values (obj_at h this) in
                    let ys := o_values (obj_at h other) in
                    eq ← (if (length xs =? length ys)%nat then all_eq elem h xs ys else Some false);
                    Some (Ok (vbool (if op =? 0x01 then eq else negb eq)), h)
                  else Some (Err (BadOperand "opcode not defined for an aggregate"), h)
              end
          end
      end
  end.

Definition error_substitute (recv : Value) : Value :=
  match recv with VReal _ => VReal f32_zero | VStr _ => VStr [] | _ => VInt 0 end.

(** ** Integer operators *)

Lemma in_s_shiftr z : is_i32 z <-> Z.shiftr z 31 = 0 \/ Z.shiftr z 31 = -1.
Proof. rewrite Z.shiftr_div_pow2 by lia. ranges. Z.div_mod_to_equations. lia. Qed.

Lemma bitwise_range a r :
  is_i32 a -> is_i32 r ->
  is_i32 (Z.land a r) /\ is_i32 (Z.lxor a r) /\ is_i32 (Z.lor a r) /\ is_i32 (Z.lnot a).
Proof.
  rewrite !in_s_shiftr, Z.shiftr_land, Z.shiftr_lxor, Z.shiftr_lor.
  intros Ha Hr. repeat split; [destruct Ha as [-> | ->], Hr as [-> | ->]; vm_compute; auto..|].
  assert (E : Z.shiftr (Z.lnot a) 31 = Z.lnot (Z.shiftr a 31)) by (apply Z.bits_inj'; intros n Hn;
    rewrite Z.shiftr_spec, !Z.lnot_spec, Z.shiftr_spec by lia; done).
  rewrite E. destruct Ha as [-> | ->]; vm_compute; auto.
Qed.

Lemma shiftr_range a sh : is_i32 a -> 0 <= sh -> is_i32 (Z.shiftr a sh).
Proof.
  intros Ha Hs. rewrite Z.shiftr_div_pow2 by done.
  assert (0 < 2 ^ sh) by (apply Z.pow_pos_nonneg; lia). ranges. split.
  - apply Z.div_le_lower_bound; nia.
  - apply Z.div_lt_upper_bound; nia.
Qed.

Lemma i32_range z : is_i32 (i32 z).
Proof. by apply wrap_s_range. Qed.

Lemma i32_of_f32_range f : is_i32 (i32_of_f32 f).
Proof. apply (as_int_range (VReal f)). done. Qed.

Lemma vbool_range x : is_i32 (if x : bool then 1 else 0).
Proof. destruct x; unfold in_s; lia. Qed.

Lemma int_op_i32 (a op r : Z) :
  is_i32 a -> is_i32 r ->
  match int_op a op (Some r) with
  | Ok v => exists z, v = VInt z /\ is_i32 z
  | Err DivideByZero => r = 0 /\ op ∈ [0x0d; 0x10; 0x19; 0x1f]
  | Err e => e = BadOperand "opcode not defined for int" /\ ~ (0 <= op <= 0x25)
  end.
Proof.
  intros Ha Hr. destruct (bitwise_range a r Ha Hr) as (B1 & B2 & B3 & B4).
  assert (Hsh : 0 <= Z.land (u32 r) 31) by (apply Z.land_nonneg; lia).
  pose proof (shiftr_range a _ Ha Hsh) as B5.
  unfold int_op, int_unary. op_cases op; try (eexists; split; [reflexivity|]; auto using i32_range, vbool_range; fail).
  cbn [ok_or rbind]. unfold int_binary, int_div, int_rem, int_of_bool.
  op_cases op; cbn [rbind]; try (eexists; split; [reflexivity|]; auto using i32_range, vbool_range, i32_of_f32_range; fail);
    try (split; [done|lia]);
    destruct (Z.eqb_spec r 0); cbn [rbind]; try (eexists; split; [reflexivity|]; apply i32_range);
    subst op; split; try done; repeat (apply elem_of_cons; first [left; reflexivity|right]).
Qed.

(** Every operator opcode is defined on integers, the result is again an
    [i32], and the only failure is a division or remainder by zero. *)
Theorem int_op_total (a op r : Z) :
  is_i32 a -> is_i32 r ->
  match int_op a op (Some r) with
  | Ok v => exists z, v = VInt z /\ is_i32 z
  | Err DivideByZero => r = 0 /\ op ∈ [0x0d; 0x10; 0x19; 0x1f]
  | Err e => e = BadOperand "opcode not defined for int" /\ ~ (0 <= op <= 0x25)
  end.
Proof. apply int_op_i32. Qed.

(** ** Types *)

Lemma int_op_ok a op r v : int_op a op r = Ok v -> exists i, v = VInt i.
Proof.
  unfold int_op, int_unary. op_cases op; try (intros [= <-]; by eexists).
  intros H'. rinv_all H'. subst. by eexists.
Qed.

Lemma real_op_ok a op r v : real_op a op r = Ok v -> (exists i, v = VInt i) \/ (exists f, v = VReal f).
Proof.
  unfold real_op, real_unary. op_cases op; try (intros [= <-]; eauto).
  intros H'. destruct r as [r|]; [|done]. cbn [ok_or rbind] in H'. revert H'. unfold real_binary.
  op_cases op; try (destruct (SFeqb r f32_zero)); intros [= <-]; eauto.
Qed.

Lemma str_op_ok a op r v : str_op a op r = Ok v -> (exists i, v = VInt i) \/ (exists s, v = VStr s).
Proof.
  unfold str_op. destruct (Z.eqb_spec op 0x09); [intros [= <-]; eauto|].
  destruct r as [[| |r| |]|]; try done. cbn [ok_or rbind]. unfold str_binary.
  op_cases op; intros [= <-]; eauto.
Qed.

(** (C40) There is no promotion, for unary operators ([rhs = None]) and binary
    ones: an operand of another type than the receiver's is refused with both
    tags and nothing changes; a result is an integer or a value of the receiver's
    own kind; and only the assignment of an aggregate touches the heap. *)
Theorem do_operator_types (depth : nat) (h : Heap) (lhs : Value) (rhs : option Value) (op : Z) :
  (forall r, rhs = Some r -> data_type h r <> data_type h lhs ->
   do_operator depth h lhs op rhs = Some (Err (TypeMismatch (data_type h lhs) (data_type h r)), h)) /\
  forall v h', do_operator depth h lhs op rhs = Some (Ok v, h') ->
    (forall r, rhs = Some r -> data_type h r = data_type h lhs) /\
    (ty v = TInt \/ ty v = ty lhs) /\
    (op <> 0x00 \/ obj lhs = None \/ rhs = None -> h' = h).
Proof.
  split.
  - intros r -> Hne. assert (Hg : type_guard h lhs (Some r) = Err (TypeMismatch (data_type h lhs) (data_type h r))).
    { cbn. by destruct (Z.eqb_spec (data_type h r) (data_type h lhs)). }
    by destruct depth; cbn [do_operator]; rewrite Hg.
  - intros v h' Hd. destruct (type_guard h lhs rhs) as [u|e] eqn:Hg; [|by destruct depth; cbn [do_operator] in Hd; rewrite Hg in Hd].
    split. { intros r ->. cbn in Hg. by destruct (Z.eqb_spec (data_type h r) (data_type h lhs)). }
    destruct lhs as [i|f|s|this|].
    + destruct depth; cbn [do_operator] in Hd; rewrite Hg in Hd; injection Hd as Hv <-;
        (split; [|done]); apply int_op_ok in Hv as [? ->]; eauto.
    + destruct depth; cbn [do_operator] in Hd; rewrite Hg in Hd; injection Hd as Hv <-;
        (split; [|done]); apply real_op_ok in Hv as [[? ->]|[? ->]]; eauto.
    + destruct depth; cbn [do_operator] in Hd; rewrite Hg in Hd; injection Hd as Hv <-;
        (split; [|done]); apply str_op_ok in Hv as [[? ->]|[? ->]]; eauto.
    + destruct depth as [|depth]; cbn [do_operator] in Hd; rewrite Hg in Hd; destruct (rhs ≫= obj) as [other|] eqn:Eo.
      * done.
      * revert Hd. op_cases op; intros [= <- <-]; eauto.
      * destruct (Z.eqb_spec op 0x00) as [->|Hne].
        { destruct (obj_assign depth this other h) as [h1|]; [|done]. cbn in Hd. injection Hd as <- <-.
          split; [by right|]. intros [|[|E]]; [done|done|by rewrite E in Eo]. }
        destruct ((op =? 0x01) || (op =? 0x02)); [|done].
        destruct (if (_ =? _)%nat then all_eq _ _ _ _ else Some false) as [eq|]; [|done]. cbn in Hd. injection Hd as <- <-. eauto.
      * revert Hd. op_cases op; intros [= <- <-]; eauto.
    + by destruct depth; cbn [do_operator] in Hd; rewrite Hg in Hd.
Qed.

(** ** Assigning an aggregate *)

Lemma owns_extends nc no depth h h' v t : owns nc no depth h v t -> extends h h' -> owns nc no depth h' v t.
Proof. intros Ho He h2 Hi. apply Ho. eapply includes_trans; [by apply extends_includes|exact Hi]. Qed.

Lemma duplicate_all_spec depth nc no cs h ts :
  mapM (fun c => v ← h_cells h !! c; read depth h v) cs = Some ts ->
  (nc <= length (h_cells h))%nat -> (no <= length (h_objs h))%nat ->
  exists vs h', duplicate_all depth cs h = Some (vs, h') /\ extends h h' /\
    Forall2 (owns nc no depth h') vs ts.
Proof.
  revert h ts. induction cs as [|c cs IH]; intros h ts Hm Hc Ho.
  { injection Hm as <-. exists [], h. repeat split; [done..|constructor]. }
  cbn [mapM] in Hm. destruct (h_cells h !! c) as [v|] eqn:Ec; [|done]. cbn in Hm.
  destruct (read depth h v) as [t|] eqn:Er; [|done]. cbn in Hm.
  destruct (mapM _ cs) as [ts'|] eqn:Em; [|done]. injection Hm as <-.
  destruct (duplicate_owns depth nc no v h t Er Hc Ho) as (v' & h1 & Hd & He & Hown).
  pose proof (extends_sizes _ _ He) as [S1 S2].
  destruct (IH h1 ts') as (vs & h2 & Hds & He2 & Hvs); [|lia..|].
  { eapply mapM_lookup_mono; [|exact Em]. intros c' t'. cbn beta.
    destruct (h_cells h !! c') as [w|] eqn:Ew; [|done]. cbn [mbind option_bind].
    rewrite (extends_cell_lookup _ _ _ _ He Ew). by apply read_extends. }
  exists (v' :: vs), h2. split; [|split].
  - cbn [duplicate_all]. unfold cell_at. rewrite Ec. cbn [default id]. rewrite Hd. cbn. by rewrite Hds.
  - by etrans.
  - constructor; [by eapply owns_extends|done].
Qed.

(** Slots filled with owned values read those values. *)
Lemma mapM_cells nc no depth h vs ts h2 :
  (nc <= length (h_cells h))%nat ->
  Forall2 (owns nc no depth h) vs ts -> includes_from nc no (snd (cells vs h)) h2 ->
  mapM (fun c => v ← h_cells h2 !! c; read depth h2 v) (fst (cells vs h)) = Some ts.
Proof.
  intros Hc Hf Hi. apply mapM_Some, Forall2_same_length_lookup. cbn [cells fst].
  assert (Hl : length vs = length ts) by (by eapply Forall2_length).
  split; [by rewrite length_seq|]. intros i a t [-> Hlt]%lookup_seq Ht.
  destruct (lookup_lt_is_Some_2 vs i) as [v Hv]; [lia|].
  assert (Ev : h_cells h2 !! (length (h_cells h) + i)%nat = Some v).
  { apply (proj1 Hi); [lia|]. simpl. rewrite lookup_app_r by lia. by rewrite Nat.add_comm, Nat.add_sub. }
  rewrite Ev. cbn [mbind option_bind]. eapply (Forall2_lookup_lr _ _ _ _ _ _ Hf Hv Ht).
  eapply includes_trans; [|exact Hi]. apply extends_includes. split; simpl; [by apply prefix_app_r|done].
Qed.

(** (C31) [OP_ASSIGN] between aggregates of one type copies: the target keeps its
    identity, type and prototype and gets the contents of the source; later
    changes to anything that existed before the assignment, the source
    included, do not show through the target. *)
Theorem assign_copies (depth : nat) (h : Heap) (this other : nat) (o : Obj)
    (dt : Z) (kids : list Tree) (bb : option Value) (arr : bool) :
  h_objs h !! this = Some o -> o_data_type o = dt ->
  read (S depth) h (VObj other) = Some (Node dt kids bb arr) ->
  exists h', do_operator (S depth) h (VObj this) 0x00 (Some (VObj other)) = Some (Ok (VObj this), h') /\
    forall h2, includes_from (length (h_cells h)) (length (h_objs h)) h' h2 ->
      h_objs h2 !! this = h_objs h' !! this ->
      read (S depth) h2 (VObj this) = Some (Node dt kids (o_blank_base o) (o_is_array o)).
Proof.
  intros Ht Hdt Hr. cbn [read] in Hr. destruct (h_objs h !! other) as [q|] eqn:Hq; [|done]. cbn in Hr.
  destruct (mapM _ (o_values q)) as [ks|] eqn:Hm; [|done]. injection Hr as Hdq <- <- <-.
  destruct (duplicate_all_spec depth (length (h_cells h)) (length (h_objs h)) _ _ _ Hm (le_n _) (le_n _))
    as (vs & h1 & Hd & He & Hvs).
  pose proof (extends_sizes _ _ He) as [S1 _].
  pose proof (extends_obj_lookup _ _ _ _ He Ht) as Ht1.
  assert (Lt : (this < length (h_objs h))%nat) by (by eapply lookup_lt_Some).
  assert (Eq : obj_at h other = q) by (unfold obj_at; by rewrite Hq).
  assert (Et : obj_at h this = o) by (unfold obj_at; by rewrite Ht).
  eexists. split.
  - cbn [do_operator type_guard data_type]. rewrite Eq, Et, Hdt, Hdq, Z.eqb_refl. cbn [mbind option_bind obj Z.eqb].
    unfold obj_assign. rewrite Eq, Hd. cbn [mbind option_bind]. reflexivity.
  - intros h2 Hi Heq. set (new := mkObj _ _ _ _) in *.
    assert (Hnew : h_objs h2 !! this = Some new).
    { rewrite Heq. simpl. apply list_lookup_insert_eq. by eapply lookup_lt_Some. }
    assert (Ho : obj_at (snd (cells vs h1)) this = o).
    { unfold obj_at. cbn [snd cells h_objs]. by rewrite Ht1. }
    cbn [read]. rewrite Hnew. cbn [mbind option_bind]. subst new. cbn [cells snd] in Ho.
    cbn [o_values o_data_type o_blank_base o_is_array]. rewrite Ho.
    pose proof (mapM_cells (length (h_cells h)) (length (h_objs h)) depth h1 vs ks h2 S1 Hvs) as M.
    cbn [cells fst snd] in M. rewrite M; [by rewrite Hdt|].
    split; [exact (proj1 Hi)|]. intros a w Ha Hw. apply (proj2 Hi); [done|]. simpl in Hw |- *.
    rewrite list_lookup_insert_ne; [done|lia].
Qed.

End Ops.

(** ** Examples *)

Import AsciiStd.

(** The quotient that does not fit wraps, and a zero divisor is refused. *)
Lemma int_op_total_witness :
  (exists z, int_op (- 2 ^ 31) 0x10 (Some (-1)) = Ok (VInt z) /\ is_i32 z) /\
  int_op 7 0x10 (Some 0) = Err DivideByZero.
Proof.
  split; [|reflexivity].
  pose proof (int_op_total (- 2 ^ 31) 0x10 (-1) ltac:(unfold in_s; lia) ltac:(unfold in_s; lia)) as T.
  destruct (int_op (- 2 ^ 31) 0x10 (Some (-1))) as [v|e] eqn:E; [|vm_compute in E; discriminate].
  destruct T as (z & -> & Hz). by exists z.
Defined.

(** Two structs of one type; the second is overwritten after the assignment. *)
Definition two_structs : Heap :=
  snd (strukt 77 [VInt 4; VStr [0x61]] (snd (strukt 77 [VInt 0; VStr []] (mkHeap [] [])))).

Lemma assign_copies_witness :
  exists h', do_operator 3 two_structs (VObj 0) 0x00 (Some (VObj 1)) = Some (Ok (VObj 0), h') /\
    read 3 (set_cell 2 (VInt 9) h') (VObj 0) = Some (Node 77 [Leaf (VInt 4); Leaf (VStr [0x61])] None false).
Proof.
  destruct (assign_copies 2 two_structs 0 1 (mkObj 77 [0; 1]%nat None false) 77
    [Leaf (VInt 4); Leaf (VStr [0x61])] None false eq_refl eq_refl eq_refl) as (h' & Hd & Hs).
  exists h'. split; [exact Hd|]. apply Hs; [|done]. split; [|done].
  intros a w Ha Hw. simpl in Ha. simpl. rewrite list_lookup_insert_ne; [done|lia].
Defined.

Lemma do_operator_types_witness :
  do_operator 3 two_structs (VInt 1) 0x04 (Some (VStr [])) = Some (Err (TypeMismatch (tag TInt) (tag TStr)), two_structs) /\
  (exists h', do_operator 3 two_structs (VInt 1) 0x04 (Some (VInt 2)) = Some (Ok (VInt 3), h') /\ h' = two_structs) /\
  exists v h', do_operator 3 two_structs (VInt 1) 0x09 None = Some (Ok v, h') /\ ty v = TInt /\ h' = two_structs.
Proof.
  split; [by apply (proj1 (do_operator_types 3 two_structs (VInt 1) (Some (VStr [])) 0x04) (VStr []) eq_refl)|]. split.
  - eexists. split; [reflexivity|]. apply (proj2 (do_operator_types 3 two_structs (VInt 1) (Some (VInt 2)) 0x04) (VInt 3) two_structs); [reflexivity|by left].
  - eexists _, _. split; [reflexivity|]. by split.
Defined.
