(* ===== verification/BhsProgram.v ===== *)
(** * The script virtual machine: compiled programs

    [crates/don-bhs/src/program.rs]: scripts with their statics and trigger
    bits, script files, the global set of loaded files with its resolved
    links and type-name registry, and the checksum sidecar.  A [usize] that
    can be [usize::MAX] is a [Z]. *)

From S2P Require Import Prelude NetText BhsStd BhsValue.

Definition USIZE_MAX : Z := 18446744073709551615.

(** [v.get(i)] with a machine index. *)
Definition get_z {A} (l : list A) (z : Z) : option A :=
  if (0 <=? z) && (z <? Z.of_nat (length l)) then l !! Z.to_nat z else None.

(** The checksum sidecar. *)
Record ArrayWalkMeta := mkArrayWalkMeta { capacity : Z; grow : Z; aw_flags : Z }.

Inductive ValueWalkMeta := mkValueWalkMeta (scope ref_count : Z) (nested : ValueWalkNested)
with ValueWalkNested :=
| WScalar
| WObject (values : list (option ValueWalkMeta))
| WArray (blank_base : option ValueWalkMeta) (values : list (option ValueWalkMeta)).

Definition walk_scalar (scope ref_count : Z) : ValueWalkMeta := mkValueWalkMeta scope ref_count WScalar.

Record ScriptWalkMeta := mkScriptWalkMeta {
  sw_statics : list (option ValueWalkMeta);
  sw_params : ArrayWalkMeta; sw_refs : ArrayWalkMeta; sw_trigger_names : ArrayWalkMeta;
  sw_var_names : ArrayWalkMeta; sw_static_var_names : ArrayWalkMeta }.

Record ScriptFileWalkMeta := mkScriptFileWalkMeta {
  fw_code : ArrayWalkMeta; fw_scripts : ArrayWalkMeta; script_meta : list ScriptWalkMeta;
  fw_const_pool : list (option ValueWalkMeta); fw_linked_files : ArrayWalkMeta;
  linked_file_indices : list Z }.

Record ProgramWalkMeta := mkProgramWalkMeta { pw_files : list ScriptFileWalkMeta }.

(** [struct Script]. *)
Record Script := mkScript {
  sc_name : text; arity : nat; sc_params : list Z; refs : list Z; entry : Z; return_type : Z;
  script_type : Z; var_names : list text; static_var_names : list text; trigger_names : list text;
  statics : list (option Value); trigger_bits : bytes; trigger_count : Z }.

Definition set_statics (v : list (option Value)) (s : Script) : Script :=
  mkScript (sc_name s) (arity s) (sc_params s) (refs s) (entry s) (return_type s) (script_type s)
    (var_names s) (static_var_names s) (trigger_names s) v (trigger_bits s) (trigger_count s).
Definition set_trigger_bits (b : bytes) (s : Script) : Script :=
  mkScript (sc_name s) (arity s) (sc_params s) (refs s) (entry s) (return_type s) (script_type s)
    (var_names s) (static_var_names s) (trigger_names s) (statics s) b (trigger_count s).

Definition is_trigger_enabled (idx : Z) (s : Script) : bool :=
  if (idx <? 0) || (trigger_count s <? idx) then false
  else match get_z (trigger_bits s) (Z.shiftr idx 3) with
       | Some b => Z.testbit b (Z.land idx 7)
       | None => false
       end.

(** [if let Some(b) = self.trigger_bits.get_mut(idx >> 3) { .. }]. *)
Definition update_trigger_byte (f : Z -> Z) (idx : Z) (s : Script) : Script :=
  if trigger_count s <? idx then s
  else match get_z (trigger_bits s) (Z.shiftr idx 3) with
       | Some b => set_trigger_bits (<[Z.to_nat (Z.shiftr idx 3) := f b]> (trigger_bits s)) s
       | None => s
       end.

(** [*b &= !(1u8 << (idx & 7))] and [*b |= 1u8 << (idx & 7)]. *)
Definition trigger_bit_clear (idx : Z) (s : Script) : Script :=
  update_trigger_byte (fun b => Z.land b (u8 (Z.lnot (2 ^ Z.land idx 7)))) idx s.
Definition trigger_bit_set (idx : Z) (s : Script) : Script :=
  update_trigger_byte (fun b => Z.lor b (2 ^ Z.land idx 7)) idx s.

Definition enable_all_triggers (on : bool) (s : Script) : Script :=
  set_trigger_bits (map (fun _ => if on then 0xff else 0x00) (trigger_bits s)) s.

(** [iter().position(f)]. *)
Fixpoint position {A} (f : A -> bool) (l : list A) : option nat :=
  match l with
  | [] => None
  | x :: l => if f x then Some O else S <$> position f l
  end.

Definition find_trigger (name : text) (s : Script) : option nat :=
  position (fun n => eq_ignore_ascii_case n name) (trigger_names s).

(** [struct ScriptFile]. *)
Record ScriptFile := mkScriptFile {
  source_file : text; code : bytes; scripts : list Script; const_pool : list Value;
  linked_file_names : list text; line_to_op : list Z }.

Definition set_scripts (l : list Script) (f : ScriptFile) : ScriptFile :=
  mkScriptFile (source_file f) (code f) l (const_pool f) (linked_file_names f) (line_to_op f).

Definition file_find_script (name : text) (f : ScriptFile) : option nat :=
  position (fun s => eq_ignore_ascii_case (sc_name s) name) (scripts f).

(** [struct Program]. *)
Record Program := mkProgram {
  files : list ScriptFile; linked_files : list (list Z);
  global_type_names : list text; global_type_name_hashes : list Z;
  walk_meta : option ProgramWalkMeta }.

Definition set_files (l : list ScriptFile) (p : Program) : Program :=
  mkProgram l (linked_files p) (global_type_names p) (global_type_name_hashes p) (walk_meta p).
Definition put_walk_meta (m : option ProgramWalkMeta) (p : Program) : Program :=
  mkProgram (files p) (linked_files p) (global_type_names p) (global_type_name_hashes p) m.

Inductive ProgramMergeError := WalkMetaPresent | GlobalTypeNames.

Definition default_type_names : list text :=
  [[0x69; 0x6e; 0x74]; [0x66; 0x6c; 0x6f; 0x61; 0x74]; [0x73; 0x74; 0x72; 0x69; 0x6e; 0x67];
   [0x76; 0x6f; 0x69; 0x64]; [0x62; 0x6f; 0x6f; 0x6c]].

Definition program_default : Program :=
  mkProgram [] [] default_type_names [tag TInt; tag TReal; tag TStr; tag TVoid; 0x000a6192] None.

Definition single (file : ScriptFile) : Program :=
  mkProgram [file] [[]] (global_type_names program_default) (global_type_name_hashes program_default) None.

Definition append (p other : Program) : result ProgramMergeError (nat * Program) :=
  if bool_decide (is_Some (walk_meta p)) || bool_decide (is_Some (walk_meta other)) then Err WalkMetaPresent
  else if negb (bool_decide (global_type_names p = global_type_names program_default))
          || negb (bool_decide (global_type_names other = global_type_names program_default))
  then Err GlobalTypeNames
  else
    let base := length (files p) in
    let rebase i := if i =? USIZE_MAX then i else i + Z.of_nat base in
    Ok (base, mkProgram (files p ++ files other) (linked_files p ++ map (map rebase) (linked_files other))
                (global_type_names p) (global_type_name_hashes p) (walk_meta p)).

(** The backward file loop of [Program::find_script]: [n] files are left. *)
Fixpoint find_script_back (name : text) (fs : list ScriptFile) (n : nat) : option (nat * nat) :=
  match n with
  | O => None
  | S n =>
      match fs !! n ≫= file_find_script name with
      | Some i => Some (n, i)
      | None => find_script_back name fs n
      end
  end.
Definition find_script (name : text) (p : Program) : option (nat * nat) :=
  find_script_back name (files p) (length (files p)).

Definition set_walk_meta (m : ProgramWalkMeta) (p : Program) : Program :=
  let links i (_ : ScriptFile) :=
    match pw_files m !! i with
    | Some meta => map (fun ix => if ix <? 0 then USIZE_MAX else ix) (linked_file_indices meta)
    | None => []
    end in
  mkProgram (files p) (imap links (files p)) (global_type_names p) (global_type_name_hashes p) (Some m).

Definition resolved_links (file : Z) (p : Program) : option (list Z) := get_z (linked_files p) file.

Definition type_name (z : Z) (p : Program) : option text :=
  fst <$> List.find (fun nh => nh.2 =? z) (zip (global_type_names p) (global_type_name_hashes p)).

Definition register_global_type_name (name : text) (p : Program) : nat * Program :=
  match position (fun r => eq_ignore_ascii_case r name) (global_type_names p) with
  | Some i => (i, p)
  | None => (length (global_type_names p),
             mkProgram (files p) (linked_files p) (global_type_names p ++ [name])
               (global_type_name_hashes p ++ [0]) (walk_meta p))
  end.

(** ** Indexing *)

Lemma get_z_Some {A} (l : list A) z x : get_z l z = Some x <-> 0 <= z /\ l !! Z.to_nat z = Some x.
Proof.
  unfold get_z. split.
  - destruct ((0 <=? z) && (z <? Z.of_nat (length l))) eqn:E; [|done]. bool_hyps. intros H'. split; [lia|done].
  - intros [H0 H']. pose proof (lookup_lt_Some _ _ _ H').
    assert ((0 <=? z) && (z <? Z.of_nat (length l)) = true) as -> by lia. done.
Qed.

Lemma get_z_nat {A} (l : list A) n : get_z l (Z.of_nat n) = l !! n.
Proof.
  apply option_eq. intros x. rewrite get_z_Some, Nat2Z.id. intuition lia.
Qed.

Lemma position_Some {A} (f : A -> bool) l i :
  position f l = Some i <->
  (exists x, l !! i = Some x /\ f x = true) /\ (forall j y, (j < i)%nat -> l !! j = Some y -> f y = false).
Proof.
  revert i. induction l as [|x l IH]; intros i; cbn [position].
  { split; [done|]. intros [(? & ? & _) _]. by rewrite lookup_nil in *. }
  destruct (f x) eqn:Ef.
  - split.
    + intros [= <-]. split; [by exists x|]. intros j y Hj. lia.
    + intros [(y & Hy & Hf) Hmin]. destruct i as [|i]; [done|].
      specialize (Hmin O x ltac:(lia) eq_refl). congruence.
  - rewrite fmap_Some. split.
    + intros (j & Hj%IH & ->). destruct Hj as [Hx Hmin]. split; [done|].
      intros [|k] y Hk; simpl; [by intros [= <-]|]. apply Hmin. lia.
    + intros [(y & Hy & Hf) Hmin]. destruct i as [|i]; [simpl in Hy; congruence|].
      exists i. split; [|done]. apply IH. split; [by exists y|].
      intros j w Hj Hw. apply (Hmin (S j)); [lia|done].
Qed.

(** ** Trigger bits *)

Lemma land7 idx : Z.land idx 7 = idx mod 8.
Proof. change 7 with (Z.ones 3). by apply Z.land_ones. Qed.

Lemma trigger_addr i j : Z.shiftr i 3 = Z.shiftr j 3 -> Z.land i 7 = Z.land j 7 -> i = j.
Proof.
  rewrite !Z.shiftr_div_pow2, !land7 by lia. change (2 ^ 3) with 8. intros.
  rewrite (Z.div_mod i 8), (Z.div_mod j 8) by lia. congruence.
Qed.

Lemma testbit_set b k j : 0 <= k -> 0 <= j -> Z.testbit (Z.lor b (2 ^ k)) j = (j =? k) || Z.testbit b j.
Proof.
  intros. rewrite Z.lor_spec, Z.pow2_bits_eqb, orb_comm by lia. by rewrite Z.eqb_sym.
Qed.

Lemma testbit_clear b k j :
  0 <= k < 8 -> 0 <= j < 8 -> Z.testbit (Z.land b (u8 (Z.lnot (2 ^ k)))) j = negb (j =? k) && Z.testbit b j.
Proof.
  intros. unfold wrap_u. rewrite Z.land_spec, Z.mod_pow2_bits_low, Z.lnot_spec, Z.pow2_bits_eqb by lia.
  by rewrite Z.eqb_sym, andb_comm.
Qed.

Lemma is_trigger_enabled_update f idx j s :
  0 <= idx <= trigger_count s -> is_Some (get_z (trigger_bits s) (Z.shiftr idx 3)) ->
  is_trigger_enabled j (update_trigger_byte f idx s) =
  if (j <? 0) || (trigger_count s <? j) then false
  else if Z.shiftr j 3 =? Z.shiftr idx 3
       then Z.testbit (f (default 0 (get_z (trigger_bits s) (Z.shiftr idx 3)))) (Z.land j 7)
       else is_trigger_enabled j s.
Proof.
  intros Hi [b Hb]. unfold update_trigger_byte. rewrite Hb. destruct (Z.ltb_spec (trigger_count s) idx); [lia|].
  unfold is_trigger_enabled. cbn [set_trigger_bits trigger_count trigger_bits].
  destruct ((j <? 0) || (trigger_count s <? j)) eqn:Ej; [done|]. bool_hyps.
  apply get_z_Some in Hb as [Hz Hb]. assert (0 <= Z.shiftr j 3) by (by apply Z.shiftr_nonneg).
  destruct (Z.eqb_spec (Z.shiftr j 3) (Z.shiftr idx 3)) as [E|E].
  - assert (get_z (<[Z.to_nat (Z.shiftr idx 3):=f b]> (trigger_bits s)) (Z.shiftr j 3) = Some (f b)) as ->; [|done].
    apply get_z_Some. split; [lia|]. rewrite E. apply list_lookup_insert_eq. by eapply lookup_lt_Some.
  - assert (get_z (<[Z.to_nat (Z.shiftr idx 3):=f b]> (trigger_bits s)) (Z.shiftr j 3)
            = get_z (trigger_bits s) (Z.shiftr j 3)) as ->; [|done].
    apply option_eq. intros x. rewrite !get_z_Some, list_lookup_insert_ne; [done|lia].
Qed.

(** The bits a script can address. *)
Definition addressable (idx : Z) (s : Script) : bool :=
  (0 <=? idx) && (idx <=? trigger_count s) && bool_decide (is_Some (get_z (trigger_bits s) (Z.shiftr idx 3))).

Lemma not_addressable f idx s : addressable idx s = false -> update_trigger_byte f idx s = s.
Proof.
  unfold addressable, update_trigger_byte. destruct (Z.ltb_spec (trigger_count s) idx); [done|].
  destruct (get_z (trigger_bits s) (Z.shiftr idx 3)) as [b|] eqn:E; [|done].
  apply get_z_Some in E as [H0 _]. rewrite Z.shiftr_nonneg in H0. intros Ha.
  rewrite bool_decide_true, andb_true_r in Ha by done. lia.
Qed.

(** Setting or clearing one trigger changes exactly that trigger; an index
    out of range changes nothing. *)
Theorem trigger_bits_exact (idx j : Z) (s : Script) :
  if addressable idx s then
    is_trigger_enabled j (trigger_bit_set idx s) = (if j =? idx then true else is_trigger_enabled j s) /\
    is_trigger_enabled j (trigger_bit_clear idx s) = (if j =? idx then false else is_trigger_enabled j s)
  else trigger_bit_set idx s = s /\ trigger_bit_clear idx s = s.
Proof.
  destruct (addressable idx s) eqn:Ha; [|by split; apply not_addressable].
  unfold addressable in Ha. bool_hyps. match goal with H : is_Some _ |- _ => destruct H as [b Hb] end.
  assert (M : forall z, 0 <= Z.land z 7 < 8) by (intros; rewrite land7; apply Z.mod_pos_bound; lia).
  unfold trigger_bit_set, trigger_bit_clear.
  rewrite !is_trigger_enabled_update by (try done; lia). rewrite Hb. cbn [default id].
  pose proof (M idx). pose proof (M j). rewrite testbit_set, testbit_clear by lia.
  destruct (Z.eqb_spec j idx) as [->|Hne].
  { rewrite !Z.eqb_refl. assert ((idx <? 0) || (trigger_count s <? idx) = false) as -> by lia. done. }
  unfold is_trigger_enabled.
  destruct ((j <? 0) || (trigger_count s <? j)); [done|].
  destruct (Z.eqb_spec (Z.shiftr j 3) (Z.shiftr idx 3)) as [E|]; [|done].
  rewrite E, Hb. destruct (Z.eqb_spec (Z.land j 7) (Z.land idx 7)) as [E'|]; [|done].
  by destruct (Hne (trigger_addr _ _ E E')).
Qed.

(** ** The set of loaded files *)

Lemma find_script_back_spec name fs n :
  (n <= length fs)%nat ->
  match find_script_back name fs n with
  | Some (f, i) =>
      (f < n)%nat /\ fs !! f ≫= file_find_script name = Some i /\
      forall g, (f < g < n)%nat -> fs !! g ≫= file_find_script name = None
  | None => forall g, (g < n)%nat -> fs !! g ≫= file_find_script name = None
  end.
Proof.
  induction n as [|n IH]; intros Hn; cbn [find_script_back]; [intros g; lia|].
  destruct (fs !! n ≫= file_find_script name) as [i|] eqn:E; [repeat split; [lia|done|intros; lia]|].
  specialize (IH ltac:(lia)). destruct (find_script_back name fs n) as [[f i]|].
  - destruct IH as (H1 & H2 & H3). repeat split; [lia|done|]. intros g Hg.
    destruct (decide (g = n)) as [->|]; [done|]. apply H3. lia.
  - intros g Hg. destruct (decide (g = n)) as [->|]; [done|]. apply IH. lia.
Qed.

(** Merging two compiled units keeps every link and lets the later file win:
    a link of either unit resolves in the merged program to the file it named,
    and a script name is looked up in the appended unit first. *)
Theorem append_links (p q p' : Program) (base : nat) (name : text) :
  append p q = Ok (base, p') -> length (linked_files p) = length (files p) ->
  base = length (files p) /\ files p' = files p ++ files q /\
  (forall file, (file < length (files p))%nat -> resolved_links (Z.of_nat file) p' = resolved_links (Z.of_nat file) p) /\
  (forall file slot i, resolved_links (Z.of_nat file) q ≫= (.!! slot) = Some i -> 0 <= i < USIZE_MAX ->
     exists i', resolved_links (Z.of_nat (base + file)) p' ≫= (.!! slot) = Some i' /\
       get_z (files p') i' = get_z (files q) i) /\
  find_script name p' =
    match find_script name q with
    | Some (f, i) => Some ((base + f)%nat, i)
    | None => find_script name p
    end.
Proof.
  unfold append. destruct (_ || _); [done|]. destruct (_ || _); [done|]. intros [= <- <-] Hl.
  split; [done|]. split; [done|]. unfold resolved_links. cbn [linked_files files]. repeat split.
  - intros file Hf. rewrite !get_z_nat, lookup_app_l by lia. done.
  - intros file slot i. rewrite !get_z_nat. intros Hi Hr.
    rewrite lookup_app_r by lia. replace (_ - _)%nat with file by lia. rewrite list_lookup_fmap.
    destruct (linked_files q !! file) as [ls|]; [|done]. cbn in Hi |- *. rewrite list_lookup_fmap, Hi. cbn.
    eexists. split; [reflexivity|]. destruct (Z.eqb_spec i USIZE_MAX); [lia|].
    apply option_eq. intros x. rewrite !get_z_Some.
    replace (Z.to_nat (i + Z.of_nat (length (files p)))) with (length (files p) + Z.to_nat i)%nat by lia.
    rewrite lookup_app_r, Nat.add_comm, Nat.add_sub by lia. intuition lia.
  - unfold find_script. cbn [files].
    assert (Hback : forall n, (n <= length (files q))%nat ->
      find_script_back name (files p ++ files q) (length (files p) + n) =
      match find_script_back name (files q) n with
      | Some (f, i) => Some ((length (files p) + f)%nat, i)
      | None => find_script_back name (files p) (length (files p))
      end).
    { induction n as [|n IH]; intros Hn.
      - rewrite Nat.add_0_r. cbn [find_script_back].
        assert (G : forall m, (m <= length (files p))%nat ->
          find_script_back name (files p ++ files q) m = find_script_back name (files p) m).
        { induction m as [|m IHm]; intros Hm; [done|]. cbn [find_script_back].
          rewrite lookup_app_l, IHm by lia. done. }
        by apply G.
      - rewrite Nat.add_succ_r. cbn [find_script_back]. rewrite lookup_app_r, Nat.add_comm, Nat.add_sub by lia.
        destruct (files q !! n ≫= file_find_script name) as [i|]; [do 2 f_equal; lia|].
        rewrite Nat.add_comm. apply IH. lia. }
    rewrite length_app. by apply Hback.
Qed.

Definition demo_script (name : text) : Script := mkScript name 0 [] [] 0 (tag TInt) 0 [] [] [] [] [] 0.
Definition demo_file (name : text) : ScriptFile := mkScriptFile [] [] [demo_script name] [] [] [].

Lemma append_links_witness :
  let q := mkProgram [demo_file [0x62]; demo_file [0x61]] [[1]; []] (global_type_names program_default)
             (global_type_name_hashes program_default) None in
  exists p', append (single (demo_file [0x61])) q = Ok (1%nat, p') /\ find_script [0x41] p' = Some (2%nat, 0%nat).
Proof.
  intros q. eexists. split; [reflexivity|].
  destruct (append_links (single (demo_file [0x61])) q _ 1 [0x41] eq_refl eq_refl) as (_ & _ & _ & _ & ->).
  reflexivity.
Defined.
