(* ===== verification/BhsChunk.v ===== *)
(** * The script container

    [crates/don-bhs/src/chunk.rs]: the reader of compiled script files.  A
    container is a tag-0 root chunk of leaf chunks, each an eight-byte header
    and a payload; leaves fill in a [ScriptFile], and the files of a program
    are linked by name in load order.  A [usize] is a [Z], since a declared
    size can be any [u32]; [None] is a panic.  Sums of a position and a [u32]
    do not overflow a 64-bit [usize], so the [checked_add] and [checked_mul]
    failures, which report what a failed bound reports, do not occur. *)

From S2P Require Import Prelude NetText BhsStd BhsValue BhsProgram.
From Stdlib Require String.
Import (notations) String.
#[local] Open Scope string_scope.
#[local] Open Scope list_scope.
#[local] Open Scope Z_scope.

Definition HEADER_LEN : Z := 8.

Inductive ChunkError :=
| Truncated (at_ needed available : Z)
| InvalidChunkSize (at_ size : Z)
| RootSizeMismatch (declared actual : Z)
| BadRootTag (t : Z)
| ChildCountMismatch (declared actual : Z)
| LeafHasChildren (t children : Z)
| DuplicateSingletonTag (t : Z)
| UnsupportedTag (t : Z)
| UnsupportedConstantType (t : Z)
| UnresolvedLink (source linked : text)
| NonAsciiLinkName (s : text)
| NonAsciiStructTypeName (s : text)
| InvalidUtf16
| CountExceedsInput (what : String.string) (count input_len : Z)
| ContainerTooLarge (n : Z)
| ScriptIndexOutOfOrder (expected actual : Z)
| MissingCurrentScript
| IndexOutOfRange (what : String.string) (index count : Z)
| TrailingPayload (t remaining : Z).

Definition len {A} (l : list A) : Z := Z.of_nat (length l).

Record Header := mkHeader { hd_size : Z; hd_tag : Z; hd_children : Z }.

Definition header_at (b : bytes) (at_ : Z) : result ChunkError Header :=
  if at_ + HEADER_LEN <=? len b then
    Ok (mkHeader (u32le b (Z.to_nat at_)) (u16le b (Z.to_nat at_ + 4)) (u16le b (Z.to_nat at_ + 6)))
  else Err (Truncated at_ HEADER_LEN (Z.max 0 (len b - at_))).

(** ** The cursor *)

Record Cursor := mkCursor { cu_bytes : bytes; cu_at : Z; cu_base : Z }.

Definition cursor_new (b : bytes) (base : Z) : Cursor := mkCursor b 0 base.
Definition remaining (c : Cursor) : Z := len (cu_bytes c) - cu_at c.

Definition cu_take (n : Z) (c : Cursor) : result ChunkError (bytes * Cursor) :=
  if cu_at c + n <=? len (cu_bytes c) then
    Ok (take (Z.to_nat n) (drop (Z.to_nat (cu_at c)) (cu_bytes c)),
        mkCursor (cu_bytes c) (cu_at c + n) (cu_base c))
  else Err (Truncated (cu_base c + cu_at c) n (remaining c)).

Definition cu_u32 (c : Cursor) : result ChunkError (Z * Cursor) :=
  let? '(b, c) := cu_take 4 c in Ok (from_le b, c).

(** [chunks_exact(2)] as little-endian units. *)
Fixpoint units_of (b : bytes) : list Z :=
  match b with
  | lo :: hi :: b => from_le [lo; hi] :: units_of b
  | _ => []
  end.

(** [String::from_utf16]: a surrogate out of its pair is refused. *)
Definition is_high (u : Z) : bool := between 0xD800 0xDBFF u.
Definition is_low (u : Z) : bool := between 0xDC00 0xDFFF u.
Fixpoint from_utf16 (l : list Z) : option text :=
  match l with
  | [] => Some []
  | u :: r =>
      if is_high u then
        match r with
        | v :: r' => if is_low v then cons (0x10000 + (u - 0xD800) * 1024 + (v - 0xDC00)) <$> from_utf16 r' else None
        | [] => None
        end
      else if is_low u then None
      else cons u <$> from_utf16 r
  end.

Definition cu_string (c : Cursor) : result ChunkError (text * Cursor) :=
  let? '(count, c) := cu_u32 c in
  let? '(raw, c) := cu_take (2 * count) c in
  let? s := ok_or (from_utf16 (units_of raw)) InvalidUtf16 in
  Ok (s, c).

Definition cu_finish (t : Z) (c : Cursor) : result ChunkError unit :=
  if remaining c =? 0 then Ok tt else Err (TrailingPayload t (remaining c)).

(** [for _ in 0..n { out.push(read()?) }]. *)
Fixpoint cu_many {A} (read : Cursor -> result ChunkError (A * Cursor)) (n : nat) (c : Cursor)
    : result ChunkError (list A * Cursor) :=
  match n with
  | O => Ok ([], c)
  | S n =>
      let? '(x, c) := read c in
      let? '(xs, c) := cu_many read n c in
      Ok (x :: xs, c)
  end.

(** ** The loader *)

Record Loader := mkLoader {
  ld_file : ScriptFile; ld_type_names : list text; current_script : option nat; input_len : Z;
  saw_code : bool; saw_links : bool; saw_line_info : bool }.

Definition set_file (f : ScriptFile) (l : Loader) : Loader :=
  mkLoader f (ld_type_names l) (current_script l) (input_len l) (saw_code l) (saw_links l) (saw_line_info l).

Definition loader_new (source : text) (n : Z) : Loader :=
  mkLoader (mkScriptFile source [] [] [] [] []) [] None n false false false.

Definition bounded_count (what : String.string) (value : Z) (l : Loader) : result ChunkError Z :=
  if input_len l <? value then Err (CountExceedsInput what value (input_len l)) else Ok value.

(** Parameters: [SymType.type] and [is_ref as u8] of each. *)
Definition read_param (c : Cursor) : result ChunkError (Z * Z * Cursor) :=
  let? '(t, c) := cu_u32 c in
  let? '(r, c) := cu_u32 c in
  Ok (t, u8 r, c).

Definition load_script_info (c : Cursor) (l : Loader) : result ChunkError (Loader * Cursor) :=
  let f := ld_file l in
  let? '(i, c) := cu_u32 c in
  let? index := bounded_count "script index" i l in
  if negb (index =? len (scripts f)) then Err (ScriptIndexOutOfOrder (len (scripts f)) index)
  else
    let? '(name, c) := cu_string c in
    let? '(entry, c) := cu_u32 c in
    let? '(script_type, c) := cu_u32 c in
    let? '(return_type, c) := cu_u32 c in
    let? '(tc, c) := cu_u32 c in
    let? trigger_count := bounded_count "trigger count" tc l in
    let? '(pc, c) := cu_u32 c in
    let? param_count := bounded_count "parameter count" pc l in
    if remaining c / 8 <? param_count then
      Err (Truncated (cu_base c + cu_at c) (8 * param_count) (remaining c))
    else
      let? '(params, c) := cu_many read_param (Z.to_nat param_count) c in
      if I32_MAX <? trigger_count then Err (CountExceedsInput "trigger count" trigger_count (input_len l))
      else
        let s := mkScript name (Z.to_nat param_count) (map fst params) (map snd params) entry return_type script_type
                   [] [] (replicate (Z.to_nat trigger_count) []) []
                   (replicate (Z.to_nat ((trigger_count + 7) / 8)) 0xff) trigger_count in
        Ok (mkLoader (set_scripts (scripts f ++ [s]) f) (ld_type_names l) (Some (Z.to_nat index)) (input_len l)
              (saw_code l) (saw_links l) (saw_line_info l), c).

Definition load_const (c : Cursor) (l : Loader) : result ChunkError (Loader * Cursor) :=
  let f := ld_file l in
  let? '(t, c) := cu_u32 c in
  let? '(v, c) :=
    match from_tag t with
    | Some TInt => let? '(z, c) := cu_u32 c in Ok (VInt (i32 z), c)
    | Some TReal => let? '(z, c) := cu_u32 c in Ok (VReal (f32_of_bits z), c)
    | Some TStr => let? '(s, c) := cu_string c in Ok (VStr s, c)
    | _ => Err (UnsupportedConstantType t)
    end in
  Ok (set_file (mkScriptFile (source_file f) (code f) (scripts f) (const_pool f ++ [v])
                  (linked_file_names f) (line_to_op f)) l, c).

Definition set_trigger_names (n : list text) (s : Script) : Script :=
  mkScript (sc_name s) (arity s) (sc_params s) (refs s) (entry s) (return_type s) (script_type s)
    (var_names s) (static_var_names s) n (statics s) (trigger_bits s) (trigger_count s).

Definition load_trigger (c : Cursor) (l : Loader) : result ChunkError (Loader * Cursor) :=
  let f := ld_file l in
  let? '(i, c) := cu_u32 c in
  let? script := bounded_count "trigger script index" i l in
  let? '(t, c) := cu_u32 c in
  let? trigger := bounded_count "trigger index" t l in
  let? '(name, c) := cu_string c in
  let? target := ok_or (get_z (scripts f) script) (IndexOutOfRange "trigger script index" script (len (scripts f))) in
  let? _ := ok_or (get_z (trigger_names target) trigger)
              (IndexOutOfRange "trigger index" trigger (len (trigger_names target))) in
  Ok (set_file (set_scripts (<[Z.to_nat script :=
        set_trigger_names (<[Z.to_nat trigger := name]> (trigger_names target)) target]> (scripts f)) f) l, c).

Definition load_links (c : Cursor) (l : Loader) : result ChunkError (Loader * Cursor) :=
  let f := ld_file l in
  let? '(n, c) := cu_u32 c in
  let? count := bounded_count "linked file count" n l in
  let? '(links, c) := cu_many cu_string (Z.to_nat count) c in
  Ok (set_file (mkScriptFile (source_file f) (code f) (scripts f) (const_pool f) links (line_to_op f)) l, c).

Definition read_line (c : Cursor) : result ChunkError (Z * Cursor) :=
  let? '(z, c) := cu_u32 c in Ok (i32 z, c).

Definition load_line_info (c : Cursor) (l : Loader) : result ChunkError (Loader * Cursor) :=
  let f := ld_file l in
  let? '(n, c) := cu_u32 c in
  let? count := bounded_count "line-info count" n l in
  if remaining c / 4 <? count then Err (Truncated (cu_base c + cu_at c) (4 * count) (remaining c))
  else
    let? '(ls, c) := cu_many read_line (Z.to_nat count) c in
    Ok (set_file (mkScriptFile (source_file f) (code f) (scripts f) (const_pool f) (linked_file_names f) ls) l, c).

(** [names.resize(index + 1, String::new())] when shorter, then the slot. *)
Definition put_name (index : Z) (name : text) (names : list text) : list text :=
  <[Z.to_nat index := name]> (names ++ replicate (Z.to_nat (index + 1) - length names) []).

Definition set_var_names (n sn : list text) (s : Script) : Script :=
  mkScript (sc_name s) (arity s) (sc_params s) (refs s) (entry s) (return_type s) (script_type s)
    n sn (trigger_names s) (statics s) (trigger_bits s) (trigger_count s).

Definition load_variable (c : Cursor) (l : Loader) : option (result ChunkError (Loader * Cursor)) :=
  let f := ld_file l in
  match (let? '(raw, c) := cu_u32 c in let? '(name, c) := cu_string c in
         let? script := ok_or (current_script l) MissingCurrentScript in Ok (raw, name, script, c)) with
  | Err e => Some (Err e)
  | Ok (raw, name, script, c) =>
      target ← scripts f !! script;
      let put s := set_file (set_scripts (<[script := s]> (scripts f)) f) l in
      if negb (Z.land raw 0x40000000 =? 0) then
        let index := Z.land raw 0xbfffffff in
        if input_len l <? index then Some (Err (CountExceedsInput "static variable index" index (input_len l)))
        else Some (Ok (put (set_var_names (var_names target) (put_name index name (static_var_names target)) target), c))
      else
        if input_len l <? raw then Some (Err (CountExceedsInput "local variable index" raw (input_len l)))
        else Some (Ok (put (set_var_names (put_name raw name (var_names target)) (static_var_names target) target), c))
  end.

Definition is_ascii (s : text) : bool := forallb (fun c => c <? 0x80) s.

Definition load_struct_type (c : Cursor) (l : Loader) : result ChunkError (Loader * Cursor) :=
  let? '(name, c) := cu_string c in
  if negb (is_ascii name) then Err (NonAsciiStructTypeName name)
  else Ok (mkLoader (ld_file l) (ld_type_names l ++ [name]) (current_script l) (input_len l)
             (saw_code l) (saw_links l) (saw_line_info l), c).

(** The singleton leaves: code, links and line info. *)
Definition load_code (payload : bytes) (c : Cursor) (l : Loader) : result ChunkError (Loader * Cursor) :=
  let f := ld_file l in
  if saw_code l then Err (DuplicateSingletonTag 4)
  else Ok (mkLoader (mkScriptFile (source_file f) payload (scripts f) (const_pool f) (linked_file_names f) (line_to_op f))
             (ld_type_names l) (current_script l) (input_len l) true (saw_links l) (saw_line_info l),
           mkCursor (cu_bytes c) (len payload) (cu_base c)).
Definition saw_links_now (l : Loader) : Loader :=
  mkLoader (ld_file l) (ld_type_names l) (current_script l) (input_len l) (saw_code l) true (saw_line_info l).
Definition saw_line_info_now (l : Loader) : Loader :=
  mkLoader (ld_file l) (ld_type_names l) (current_script l) (input_len l) (saw_code l) (saw_links l) true.

(** The dispatch of [Loader::load], before the trailing-payload check. *)
Definition load_leaf (t : Z) (payload : bytes) (c : Cursor) (l : Loader) : option (result ChunkError (Loader * Cursor)) :=
  if t =? 0 then Some (Ok (l, c))
  else if t =? 2 then Some (load_script_info c l)
  else if t =? 3 then Some (load_const c l)
  else if t =? 4 then Some (load_code payload c l)
  else if t =? 5 then Some (load_trigger c l)
  else if t =? 6 then
    Some (if saw_links l then Err (DuplicateSingletonTag 6) else load_links c (saw_links_now l))
  else if t =? 7 then
    Some (if saw_line_info l then Err (DuplicateSingletonTag 7) else load_line_info c (saw_line_info_now l))
  else if t =? 8 then load_variable c l
  else if t =? 9 then Some (load_struct_type c l)
  else Some (Err (UnsupportedTag t)).

Definition load (t : Z) (payload : bytes) (base : Z) (l : Loader) : option (result ChunkError Loader) :=
  r ← load_leaf t payload (cursor_new payload base) l;
  Some (let? '(l, c) := r in let? _ := cu_finish t c in Ok l).

(** [Loader::finish]: the checksum sidecar of the file. *)
Definition shape (count : nat) : option ArrayWalkMeta :=
  if Z.of_nat count <=? I32_MAX then Some (mkArrayWalkMeta (Z.of_nat count) 0xffff 0) else None.

Definition script_shape (s : Script) : option ScriptWalkMeta :=
  ps ← shape (length (sc_params s)); rs ← shape (length (refs s)); ts ← shape (length (trigger_names s));
  vs ← shape (length (var_names s)); ss ← shape (length (static_var_names s));
  Some (mkScriptWalkMeta [] ps rs ts vs ss).

Record LoadedFile := mkLoadedFile { lf_file : ScriptFile; lf_meta : ScriptFileWalkMeta; lf_type_names : list text }.

Definition finish (l : Loader) : option LoadedFile :=
  let f := ld_file l in
  metas ← mapM script_shape (scripts f);
  cs ← shape (length (code f)); ss ← shape (length (scripts f)); ls ← shape (length (linked_file_names f));
  Some (mkLoadedFile f
          (mkScriptFileWalkMeta cs ss metas (map (fun _ => Some (walk_scalar 2 0)) (const_pool f)) ls [])
          (ld_type_names l)).

(** ** Files *)

(** The leaf loop of [load_file]; an iteration consumes a header. *)
Fixpoint load_leaves (fuel : nat) (b : bytes) (size at_ children : Z) (l : Loader)
    : option (result ChunkError (Z * Loader)) :=
  if at_ <? size then
    match fuel with
    | O => None
    | S fuel =>
        match header_at b at_ with
        | Err e => Some (Err e)
        | Ok h =>
            if hd_size h <? HEADER_LEN then Some (Err (InvalidChunkSize at_ (hd_size h)))
            else if negb (hd_children h =? 0) then Some (Err (LeafHasChildren (hd_tag h) (hd_children h)))
            else if size <? at_ + hd_size h then Some (Err (Truncated at_ (hd_size h) (size - at_)))
            else
              let payload := take (Z.to_nat (hd_size h - HEADER_LEN)) (drop (Z.to_nat (at_ + HEADER_LEN)) b) in
              match load (hd_tag h) payload (at_ + HEADER_LEN) l with
              | None => None
              | Some (Err e) => Some (Err e)
              | Some (Ok l) => load_leaves fuel b size (at_ + hd_size h) (children + 1) l
              end
        end
    end
  else Some (Ok (children, l)).

Definition load_file (b : bytes) (source : text) : option (result ChunkError LoadedFile) :=
  if I32_MAX <? len b then Some (Err (ContainerTooLarge (len b)))
  else
    match header_at b 0 with
    | Err e => Some (Err e)
    | Ok root =>
        if hd_size root <? HEADER_LEN then Some (Err (InvalidChunkSize 0 (hd_size root)))
        else if negb (hd_size root =? len b) then Some (Err (RootSizeMismatch (hd_size root) (len b)))
        else if negb (hd_tag root =? 0) then Some (Err (BadRootTag (hd_tag root)))
        else
          r ← load_leaves (length b) b (hd_size root) HEADER_LEN 0 (loader_new source (len b));
          match r with
          | Err e => Some (Err e)
          | Ok (children, l) =>
              if negb (children =? hd_children root) then Some (Err (ChildCountMismatch (hd_children root) children))
              else lf ← finish l; Some (Ok lf)
          end
    end.

(** [struct CompiledScriptFile]. *)
Record CompiledScriptFile := mkCompiledScriptFile { cs_source_file : text; cs_bytes : bytes }.

(** [iter().rposition(f)]. *)
Fixpoint rposition {A} (f : A -> bool) (l : list A) : option nat :=
  match l with
  | [] => None
  | x :: l => match rposition f l with
              | Some i => Some (S i)
              | None => if f x then Some O else None
              end
  end.

(** Resolving the included names against the files loaded so far. *)
Fixpoint resolve_links (source : text) (loaded : list ScriptFile) (names : list text) : result ChunkError (list nat) :=
  match names with
  | [] => Ok []
  | n :: names =>
      if negb (is_ascii n) then Err (NonAsciiLinkName n)
      else
        let? i := ok_or (rposition (fun f => eq_ignore_ascii_case (source_file f) n) loaded) (UnresolvedLink source n) in
        let? ixs := resolve_links source loaded names in
        Ok (i :: ixs)
  end.

Definition set_link_indices (ixs : list Z) (m : ScriptFileWalkMeta) : ScriptFileWalkMeta :=
  mkScriptFileWalkMeta (fw_code m) (fw_scripts m) (script_meta m) (fw_const_pool m) (fw_linked_files m) ixs.

(** [i32::try_from(index).expect(..)]. *)
Definition i32_of_usize (i : nat) : option Z := if Z.of_nat i <=? I32_MAX then Some (Z.of_nat i) else None.

Fixpoint load_each (inputs : list CompiledScriptFile) (fs : list ScriptFile) (ms : list ScriptFileWalkMeta)
    (names : list text) : option (result ChunkError (list ScriptFile * list ScriptFileWalkMeta * list text)) :=
  match inputs with
  | [] => Some (Ok (fs, ms, names))
  | i :: inputs =>
      r ← load_file (cs_bytes i) (cs_source_file i);
      match r with
      | Err e => Some (Err e)
      | Ok lf =>
          match resolve_links (cs_source_file i) fs (linked_file_names (lf_file lf)) with
          | Err e => Some (Err e)
          | Ok links =>
              links ← mapM i32_of_usize links;
              load_each inputs (fs ++ [lf_file lf]) (ms ++ [set_link_indices links (lf_meta lf)])
                (names ++ lf_type_names lf)
          end
      end
  end.

Definition load_program_files (inputs : list CompiledScriptFile) : option (result ChunkError Program) :=
  if I32_MAX <? len inputs then Some (Err (ContainerTooLarge (len inputs)))
  else
    match List.find (fun i => negb (is_ascii (cs_source_file i))) inputs with
    | Some i => Some (Err (NonAsciiLinkName (cs_source_file i)))
    | None =>
        r ← load_each inputs [] [] [];
        Some (let? '(fs, ms, names) := r in
              let p := fold_left (fun p n => snd (register_global_type_name n p)) names program_default in
              Ok (set_walk_meta (mkProgramWalkMeta ms) (set_files fs p)))
    end.

Definition load_program (b : bytes) (source : text) : option (result ChunkError Program) :=
  load_program_files [mkCompiledScriptFile source b].

(** ** The container a writer emits *)

Definition leaf : Type := Z * bytes.
Definition chunk_bytes (x : leaf) : bytes :=
  to_le 4 (HEADER_LEN + len x.2) ++ to_le 2 x.1 ++ to_le 2 0 ++ x.2.
Definition body_bytes (leaves : list leaf) : bytes := concat (map chunk_bytes leaves).
Definition root_bytes (leaves : list leaf) : bytes :=
  to_le 4 (HEADER_LEN + len (body_bytes leaves)) ++ to_le 2 0 ++ to_le 2 (len leaves) ++ body_bytes leaves.

Definition leaf_ok (x : leaf) : Prop := is_u16 x.1 /\ bytes_ok x.2.

#[export] Instance leaf_ok_dec x : Decision (leaf_ok x).
Proof. unfold leaf_ok, in_u. apply _. Defined.

(** The leaves loaded one after another; [at_] is where the next one is. *)
Fixpoint load_all (leaves : list leaf) (at_ : Z) (l : Loader) : option (result ChunkError Loader) :=
  match leaves with
  | [] => Some (Ok l)
  | x :: leaves =>
      r ← load x.1 x.2 (at_ + HEADER_LEN) l;
      match r with
      | Err e => Some (Err e)
      | Ok l => load_all leaves (at_ + len (chunk_bytes x)) l
      end
  end.

Lemma len_app {A} (a b : list A) : len (a ++ b) = len a + len b.
Proof. unfold len. rewrite length_app. lia. Qed.
Lemma len_nonneg {A} (a : list A) : 0 <= len a.
Proof. unfold len. lia. Qed.
Lemma len_chunk_bytes x : len (chunk_bytes x) = HEADER_LEN + len x.2.
Proof. unfold chunk_bytes, len. rewrite !length_app, !length_to_le. unfold HEADER_LEN. lia. Qed.
Lemma len_root_bytes leaves : len (root_bytes leaves) = HEADER_LEN + len (body_bytes leaves).
Proof. unfold root_bytes, len. rewrite !length_app, !length_to_le. unfold HEADER_LEN. lia. Qed.

(** The header of a chunk that follows [pre]. *)
Lemma header_at_chunk pre size t kids rest :
  is_u32 size -> is_u16 t -> is_u16 kids ->
  header_at (pre ++ to_le 4 size ++ to_le 2 t ++ to_le 2 kids ++ rest) (len pre) = Ok (mkHeader size t kids).
Proof.
  intros Hs Ht Hk. unfold header_at.
  destruct (Z.leb_spec (len pre + HEADER_LEN) (len (pre ++ to_le 4 size ++ to_le 2 t ++ to_le 2 kids ++ rest))) as [_|L].
  2: { exfalso. unfold len, HEADER_LEN in L. rewrite !length_app, !length_to_le in L. lia. }
  unfold len. rewrite Nat2Z.id. f_equal. f_equal.
  - by apply le_at_app'.
  - rewrite app_assoc. apply le_at_app'; [by rewrite length_app, length_to_le|done].
  - rewrite (app_assoc (to_le 4 size)), app_assoc.
    apply le_at_app'; [by rewrite !length_app, !length_to_le|done].
Qed.

Lemma payload_at pre x rest :
  take (length x.2) (drop (length pre + 8) (pre ++ chunk_bytes x ++ rest)) = x.2.
Proof.
  set (h := to_le 4 (HEADER_LEN + len x.2) ++ to_le 2 x.1 ++ to_le 2 0).
  assert (E : pre ++ chunk_bytes x ++ rest = (pre ++ h) ++ x.2 ++ rest) by (unfold chunk_bytes, h; by rewrite <- !app_assoc).
  assert (L : (length pre + 8)%nat = length (pre ++ h)) by (unfold h; by rewrite !length_app, !length_to_le).
  by rewrite E, L, drop_app_length, take_app_length.
Qed.

(** The leaf loop on framed leaves is [load_all], whatever it comes to. *)
Lemma load_leaves_framed leaves pre fuel k l :
  Forall leaf_ok leaves -> (length leaves <= fuel)%nat ->
  len (pre ++ body_bytes leaves) <= I32_MAX ->
  load_leaves fuel (pre ++ body_bytes leaves) (len (pre ++ body_bytes leaves)) (len pre) k l =
  (r ← load_all leaves (len pre) l; Some (let? l' := r in Ok (k + len leaves, l'))).
Proof.
  revert pre fuel k l. induction leaves as [|x leaves IH]; intros pre fuel k l Hok Hf Hl.
  { unfold body_bytes. cbn [map concat load_all]. rewrite app_nil_r.
    destruct fuel; cbn [load_leaves]; rewrite Z.ltb_irrefl; cbn; do 3 f_equal; unfold len; cbn; f_equal; lia. }
  destruct fuel as [|fuel]; [cbn in Hf; lia|]. apply Forall_cons in Hok as [[Ht Hb] Hok].
  assert (Hx : body_bytes (x :: leaves) = chunk_bytes x ++ body_bytes leaves) by done.
  rewrite Hx in *. rewrite !len_app, len_chunk_bytes in Hl.
  pose proof (len_nonneg pre). pose proof (len_nonneg x.2). pose proof (len_nonneg (body_bytes leaves)).
  assert (Hh : header_at (pre ++ chunk_bytes x ++ body_bytes leaves) (len pre) = Ok (mkHeader (HEADER_LEN + len x.2) x.1 0)).
  { unfold chunk_bytes. rewrite <- !app_assoc. apply header_at_chunk; [|done|unfold in_u; lia].
    unfold in_u, I32_MAX, HEADER_LEN in *. lia. }
  cbn [load_leaves]. rewrite Hh. cbn [hd_size hd_tag hd_children]. rewrite !len_app, len_chunk_bytes.
  unfold HEADER_LEN in *. destruct (Z.ltb_spec (len pre) (len pre + (8 + len x.2 + len (body_bytes leaves)))); [|lia].
  destruct (Z.ltb_spec (8 + len x.2) 8); [lia|]. cbn [negb Z.eqb].
  destruct (Z.ltb_spec (len pre + (8 + len x.2 + len (body_bytes leaves))) (len pre + (8 + len x.2))); [lia|].
  assert (Hp : take (Z.to_nat (8 + len x.2 - 8)) (drop (Z.to_nat (len pre + 8)) (pre ++ chunk_bytes x ++ body_bytes leaves)) = x.2).
  { replace (Z.to_nat (len pre + 8)) with (length pre + 8)%nat by (unfold len; lia).
    replace (Z.to_nat (8 + len x.2 - 8)) with (length x.2) by (unfold len; lia). apply payload_at. }
  rewrite Hp. cbn [load_all]. unfold HEADER_LEN. destruct (load x.1 x.2 (len pre + 8) l) as [[l'|e]|]; [|done..]. cbn [mbind option_bind].
  specialize (IH (pre ++ chunk_bytes x) fuel (k + 1) l' Hok ltac:(cbn in Hf; lia)).
  rewrite <- app_assoc, !len_app, len_chunk_bytes in IH. unfold HEADER_LEN in IH.
  rewrite Z.add_assoc in IH. rewrite len_chunk_bytes. unfold HEADER_LEN. rewrite !Z.add_assoc in *.
  rewrite IH by lia. destruct (load_all leaves _ l') as [[l''|]|]; [|done..]. cbn. do 3 f_equal. unfold len. cbn [length]. lia.
Qed.

(** Cutting a piece off. *)
Lemma drop_cut {A} (i n : nat) (l : list A) : drop i l = take n (drop i l) ++ drop (i + n) l.
Proof. by rewrite <- (take_drop n (drop i l)) at 1; rewrite drop_drop. Qed.

Lemma chunk_at b (i n : nat) :
  bytes_ok b -> (i + 8 + n <= length b)%nat -> u32le b i = 8 + Z.of_nat n -> u16le b (i + 6) = 0 ->
  drop i b = chunk_bytes (u16le b (i + 4), take n (drop (i + 8) b)) ++ drop (i + 8 + n) b.
Proof.
  intros Hb Hl Hs Hk. unfold chunk_bytes. cbn [fst snd].
  assert (Hn : len (take n (drop (i + 8) b)) = Z.of_nat n) by (unfold len; rewrite length_take, length_drop; lia).
  rewrite Hn. unfold HEADER_LEN. rewrite <- Hs, <- Hk. rewrite !to_le_le_at by (done || lia).
  rewrite <- !app_assoc.
  etransitivity; [apply (drop_cut i 4)|f_equal]. etransitivity; [apply (drop_cut (i + 4) 2)|f_equal].
  replace (i + 4 + 2)%nat with (i + 6)%nat by lia. etransitivity; [apply (drop_cut (i + 6) 2)|f_equal].
  replace (i + 6 + 2)%nat with (i + 8)%nat by lia. apply drop_cut.
Qed.

(** What the leaf loop accepts is framed leaves. *)
Lemma load_leaves_sound fuel b at_ k l k' l' :
  bytes_ok b -> 0 <= at_ <= len b -> load_leaves fuel b (len b) at_ k l = Some (Ok (k', l')) ->
  exists leaves, Forall leaf_ok leaves /\ drop (Z.to_nat at_) b = body_bytes leaves /\ k' = k + len leaves.
Proof.
  intros Hb. revert at_ k l. induction fuel as [|fuel IH]; intros at_ k l Ha H;
    cbn [load_leaves] in H; (destruct (Z.ltb_spec at_ (len b)) as [Hlt|Hge];
      [|injection H as <- <-; exists []; split; [constructor|]; unfold body_bytes; cbn;
        split; [apply drop_ge|]; unfold len in *; cbn; lia]); [done|].
  unfold header_at in H. destruct (Z.leb_spec (at_ + HEADER_LEN) (len b)) as [H8|]; [|done]. cbn [hd_size hd_tag hd_children] in H.
  destruct (Z.ltb_spec (u32le b (Z.to_nat at_)) HEADER_LEN) as [|Hs]; [done|].
  destruct (Z.eqb_spec (u16le b (Z.to_nat at_ + 6)) 0) as [Hk|]; [|done]. cbn [negb] in H.
  destruct (Z.ltb_spec (len b) (at_ + u32le b (Z.to_nat at_))) as [|He]; [done|].
  set (n := Z.to_nat (u32le b (Z.to_nat at_) - HEADER_LEN)) in *.
  destruct (load _ _ _ l) as [[l1|]|] eqn:El; [|done..].
  unfold HEADER_LEN in *. apply IH in H as (leaves & Hok & Hd & ->); [|lia]. clear El.
  exists ((u16le b (Z.to_nat at_ + 4), take n (drop (Z.to_nat at_ + 8) b)) :: leaves). split; [|split].
  - constructor; [|done]. split; [by apply (le_at_ok 2)|by apply bytes_ok_take, bytes_ok_drop].
  - unfold body_bytes in *. cbn [map concat]. rewrite <- Hd.
    replace (Z.to_nat (at_ + u32le b (Z.to_nat at_))) with (Z.to_nat at_ + 8 + n)%nat by lia.
    apply chunk_at; [done|unfold len in *; lia|lia|done].
  - unfold len. cbn [length]. lia.
Qed.

Lemma length_leaves leaves : (length leaves <= length (body_bytes leaves))%nat.
Proof.
  induction leaves as [|x leaves IH]; [done|]. unfold body_bytes in *. cbn [map concat length].
  pose proof (len_chunk_bytes x). pose proof (len_nonneg x.2). unfold len, HEADER_LEN in *. rewrite length_app. lia.
Qed.

(** The bytes of a root that was read. *)
Lemma root_at b leaves :
  bytes_ok b -> HEADER_LEN <= len b -> u32le b 0 = len b -> u16le b 4 = 0 -> u16le b 6 = len leaves ->
  drop 8 b = body_bytes leaves -> b = root_bytes leaves.
Proof.
  intros Hb Hl Hs Ht Hk Hd. unfold len, HEADER_LEN in Hl.
  assert (Hlen : HEADER_LEN + len (body_bytes leaves) = len b).
  { unfold len, HEADER_LEN. rewrite <- Hd, length_drop. lia. }
  unfold root_bytes. rewrite Hlen, <- Hs, <- Hk, <- Ht, <- Hd. rewrite !to_le_le_at by (done || lia).
  rewrite drop_0. etransitivity; [symmetry; apply (take_drop 4)|f_equal].
  etransitivity; [apply (drop_cut 4 2)|f_equal]. apply (drop_cut 6 2).
Qed.

Lemma load_leaves_root leaves source :
  Forall leaf_ok leaves -> len (root_bytes leaves) <= I32_MAX ->
  load_leaves (length (root_bytes leaves)) (root_bytes leaves) (len (root_bytes leaves)) HEADER_LEN 0
    (loader_new source (len (root_bytes leaves))) =
  (r ← load_all leaves HEADER_LEN (loader_new source (len (root_bytes leaves))); Some (let? l' := r in Ok (len leaves, l'))).
Proof.
  intros Hok Hl. set (pre := to_le 4 (HEADER_LEN + len (body_bytes leaves)) ++ to_le 2 0 ++ to_le 2 (len leaves)).
  assert (E : root_bytes leaves = pre ++ body_bytes leaves) by (unfold root_bytes, pre; by rewrite <- !app_assoc).
  assert (Lp : HEADER_LEN = len pre) by (unfold pre, len; by rewrite !length_app, !length_to_le).
  rewrite Lp, E in *. apply load_leaves_framed; [done| |done]. rewrite length_app. pose proof (length_leaves leaves). lia.
Qed.

(** (C19) The container format is exact: a file loads exactly when its bytes are a
    tag-0 root over whole leaf chunks, with the declared size and count, whose
    payloads load one after another and whose sidecar exists. *)
Theorem load_file_exact (b : bytes) (source : text) (lf : LoadedFile) :
  bytes_ok b ->
  load_file b source = Some (Ok lf) <->
  exists leaves l, Forall leaf_ok leaves /\ len leaves < 2 ^ 16 /\ len b <= I32_MAX /\ b = root_bytes leaves /\
    load_all leaves HEADER_LEN (loader_new source (len b)) = Some (Ok l) /\ finish l = Some lf.
Proof.
  intros Hb. split.
  - unfold load_file, header_at. rewrite Z.add_0_l. change (Z.to_nat 0) with 0%nat. rewrite !Nat.add_0_l.
    destruct (Z.ltb_spec I32_MAX (len b)) as [|Hmax]; [done|].
    destruct (Z.leb_spec HEADER_LEN (len b)) as [H8|]; [|done]. cbn [hd_size hd_tag hd_children].
    destruct (_ <? HEADER_LEN); [done|].
    destruct (Z.eqb_spec (u32le b 0) (len b)) as [Hs|]; [|done]. cbn [negb].
    destruct (Z.eqb_spec (u16le b 4) 0) as [Ht|]; [|done]. cbn [negb]. rewrite Hs.
    destruct (load_leaves _ b (len b) HEADER_LEN 0 _) as [[[k l]|]|] eqn:El; [|done..]. cbn [mbind option_bind].
    destruct (Z.eqb_spec k (u16le b 6)) as [Hk|]; [|done]. cbn [negb].
    destruct (finish l) as [lf'|] eqn:Ef; [|done]. intros [= ->].
    assert (R8 : 0 <= HEADER_LEN <= len b) by (unfold HEADER_LEN in *; lia).
    destruct (load_leaves_sound _ _ _ _ _ _ _ Hb R8 El) as (leaves & Hok & Hd & Hn).
    assert (Hkids : is_u16 (u16le b 6)) by (by apply (le_at_ok 2)). unfold in_u in Hkids.
    assert (Eb : b = root_bytes leaves) by (apply root_at; try done; lia). clear Hd.
    rewrite Eb in El. rewrite load_leaves_root in El by (rewrite <- ?Eb; done). rewrite <- Eb in El.
    destruct (load_all leaves HEADER_LEN (loader_new source (len b))) as [[l1|]|] eqn:Ea; [|done..].
    injection El as _ ->. exists leaves, l. do 3 (split; [done || lia|]). done.
  - intros (leaves & l & Hok & Hn & Hmax & -> & Ha & Ef). unfold load_file.
    destruct (Z.ltb_spec I32_MAX (len (root_bytes leaves))); [lia|].
    assert (Hh : header_at (root_bytes leaves) 0 = Ok (mkHeader (len (root_bytes leaves)) 0 (len leaves))).
    { rewrite len_root_bytes in *. pose proof (len_nonneg leaves). pose proof (len_nonneg (body_bytes leaves)).
      apply (header_at_chunk []); unfold in_u, HEADER_LEN, I32_MAX in *; lia. }
    rewrite Hh. cbn [hd_size hd_tag hd_children]. rewrite len_root_bytes at 1. pose proof (len_nonneg (body_bytes leaves)).
    unfold HEADER_LEN at 1 2. destruct (Z.ltb_spec (8 + len (body_bytes leaves)) 8); [lia|]. rewrite Z.eqb_refl. cbn [negb Z.eqb].
    rewrite load_leaves_root by done. rewrite Ha. cbn. rewrite Z.eqb_refl. cbn. by rewrite Ef.
Qed.

(** ** An example: the container of a script with one static *)

Definition string_bytes (s : text) : bytes := to_le 4 (len (encode_utf16 s)) ++ flat_map (to_le 2) (encode_utf16 s).
Definition words (l : list Z) : bytes := flat_map (to_le 4) l.

Definition counter_leaves : list leaf := [
  (2, words [0] ++ string_bytes [0x63; 0x6e; 0x74] ++ words [0; 0; tag TInt; 0; 0]);
  (3, words [tag TInt; 1]);
  (4, [0x47; 0; 0; 0; 0; 0x44; 0; 0; 0; 0x40; 0x18; 0; 0; 0; 0x26; 0; 0; 0; 0x20; 0x32; 0; 0; 0; 0x40;
       0x28; 0xad; 0x7b; 5; 0; 0x3e]);
  (8, words [0x40000000] ++ string_bytes [0x76])].

Lemma load_file_exact_witness :
  exists lf, load_file (root_bytes counter_leaves) [0x61] = Some (Ok lf) /\
    map sc_name (scripts (lf_file lf)) = [[0x63; 0x6e; 0x74]] /\ const_pool (lf_file lf) = [VInt 1] /\
    map static_var_names (scripts (lf_file lf)) = [[[0x76]]].
Proof.
  let r := eval vm_compute in (load_file (root_bytes counter_leaves) [0x61]) in
  match r with Some (Ok ?lf) => exists lf end.
  split; [|by split].
  apply (load_file_exact (root_bytes counter_leaves)); [by apply (bool_decide_unpack _); vm_compute|].
  let r := eval vm_compute in (load_all counter_leaves HEADER_LEN (loader_new [0x61] (len (root_bytes counter_leaves)))) in
  match r with Some (Ok ?l) => exists counter_leaves, l end.
  split; [by apply (bool_decide_unpack _); vm_compute|]. split; [by vm_compute|].
  split; [by vm_compute|]. split; [reflexivity|]. split; by vm_compute.
Defined.
