(* ===== verification/BhsVm.v ===== *)
(** * The script virtual machine

    [crates/don-bhs/src/vm.rs] and the host boundary of
    [crates/don-bhs/src/host.rs].  The state is the program, the heap of shared
    aggregates, the run stack (its top is the head of the list), the frames
    (the running one is the last, as in the [Vec], because a reference to a
    local names its frame by index) and the counters.  A computation
    panics, exhausts the machine stack, or returns a result with the state
    after it: a [VmError] returned by [?] keeps the changes made before it.

    Parameters: the registered builtins (a generated table), the host's
    [call], and [depth], the number of nested calls the machine stack holds.
    A diagnostic text is the constructor of [Message] that formats it. *)

From S2P Require Import Prelude Loops BTree NetText BhsOpcode BhsDisasm BhsStd BhsValue BhsOps BhsProgram.
From Stdlib Require String.
Import (notations) String.
#[local] Open Scope string_scope.
#[local] Open Scope Z_scope.

(** [struct BuiltinDecl] of [builtin_table.rs]. *)
Record BuiltinDecl := mkBuiltinDecl {
  bd_index : Z; bd_name : string; bd_arity : Z; bd_ret : ScriptTy; bd_params : list ScriptTy;
  bd_handler_va : Z }.

(** What running Rust code comes to. *)
Inductive comp (A : Type) := Comp (a : A) | Panic | StackOverflow.
Arguments Comp {A} a. Arguments Panic {A}. Arguments StackOverflow {A}.

(** [enum HostError] and [trait Host]: the one method the machine calls.  A
    host sees the aggregates its arguments refer to, so it gets the heap. *)
Inductive HostError := HUnimplemented | BadArgs (m : string).

Class Host (H : Type) := {
  host_call : BuiltinDecl -> list Value -> H -> Heap -> comp (result HostError Value * H * Heap) }.

(** [struct Coverage]. *)
Record Coverage := mkCoverage { implemented : btree Z; unimplemented : btree (string * Z) }.

Definition record_implemented (index : Z) (c : Coverage) : Coverage :=
  mkCoverage (bt_insert index (default 0 (bt_get index (implemented c)) + 1) (implemented c)) (unimplemented c).
Definition record_unimplemented (index : Z) (name : string) (c : Coverage) : Coverage :=
  let '(n, k) := default (name, 0) (bt_get index (unimplemented c)) in
  mkCoverage (implemented c) (bt_insert index (n, k + 1) (unimplemented c)).

(** [survey_err_return]. *)
Definition survey_err_return (ret : ScriptTy) : Value :=
  match ret with
  | TVoid => VNull
  | TReal => VReal (f32_of_i32 (-1))
  | TStr => VStr []
  | _ => VInt (-1)
  end.

(** [enum BoundRef] and [enum Slot]. *)
Inductive BoundRef :=
| BConst (file index : Z) | BStatic (file script index : Z) | BLocal (frame : nat) (index : Z).
Inductive Slot := SVal (v : Value) | SRef (r : BoundRef) | SCell (c : nat).

(** [struct Frame]. *)
Record Frame := mkFrame {
  fr_file : Z; fr_script : Z; bip : Z; locals : list (option Slot);
  expected_stack : nat; void_return : bool }.

Inductive VmError :=
| BadOpcode (op : Z) | CodeOverrun (at_ : Z) | StackUnderflow | BadVarRef (r : VarRef)
| BadBuiltinIndex (i : Z) | BadFileIndex (i : Z) | BadScriptIndex (i : Z)
| Unimplemented (what : string) | UnimplementedBuiltin (index : Z) (name : string)
| HostRejected (index : Z) (name reason : string) | BudgetExhausted.

Inductive Message :=
| MText (s : string)
| MTypes (lhs rhs : text + Z)
| MIndex (i : Z) (len : option Z)
| MField (i len : Z)
| MNegativeSize (n : Z)
| MWrongParams (stack expected : nat).

Record RuntimeError := mkRuntimeError { message : Message; re_bip : Z; re_op : Z }.

(** [impl From<OpError> for RuntimeError]; a type mismatch shows its tags. *)
Definition message_of (e : OpError) : Message :=
  match e with
  | DivideByZero => MText "Can't Divide 0"
  | TypeMismatch lhs rhs => MTypes (inr lhs) (inr rhs)
  | BadOperand m => MText m
  | NotAnArray => MText "variable is not an array"
  | IndexOutOfRange i => MIndex i None
  end.

Record RunOutcome := mkRunOutcome {
  ro_returned : option Value; ro_executed : Z; ro_err_count : Z; ro_error : option RuntimeError }.

Inductive MissingBuiltinPolicy := Fail | Survey.
Inductive Step := Continue | Abort (e : RuntimeError).

(** [struct Vm]. *)
Record Vm (H : Type) := mkVm {
  prog : Program; host : H; heap : Heap; stack : list Slot; frames : list Frame;
  returned : option Value; coverage : Coverage; bytecodes_executed : Z; err_count : Z;
  budget : Z; missing_builtin_policy : MissingBuiltinPolicy }.
Arguments mkVm {H}. Arguments prog {H}. Arguments host {H}. Arguments heap {H}. Arguments stack {H}.
Arguments frames {H}. Arguments returned {H}. Arguments coverage {H}. Arguments bytecodes_executed {H}.
Arguments err_count {H}. Arguments budget {H}. Arguments missing_builtin_policy {H}.

(** [resize(n, None)] when it grows. *)
Definition grow_to {A} (n : nat) (l : list (option A)) : list (option A) :=
  l ++ replicate (n - length l) None.

(** [get_mut(i)] followed by an assignment. *)
Definition update_z {A} (i : Z) (f : A -> A) (l : list A) : list A :=
  match get_z l i with Some x => <[Z.to_nat i := f x]> l | None => l end.

Module Vm.
Section Vm.
Context {std : StdLib} {H : Type} {hst : Host H} (builtin : Z -> option BuiltinDecl) (depth : nat).

(** ** State and errors *)

Definition set_prog (x : Program) (s : Vm H) : Vm H :=
  mkVm x (host s) (heap s) (stack s) (frames s) (returned s) (coverage s) (bytecodes_executed s)
    (err_count s) (budget s) (missing_builtin_policy s).
Definition set_heap (x : Heap) (s : Vm H) : Vm H :=
  mkVm (prog s) (host s) x (stack s) (frames s) (returned s) (coverage s) (bytecodes_executed s)
    (err_count s) (budget s) (missing_builtin_policy s).
Definition set_host (x : H) (s : Vm H) : Vm H :=
  mkVm (prog s) x (heap s) (stack s) (frames s) (returned s) (coverage s) (bytecodes_executed s)
    (err_count s) (budget s) (missing_builtin_policy s).
Definition set_stack (x : list Slot) (s : Vm H) : Vm H :=
  mkVm (prog s) (host s) (heap s) x (frames s) (returned s) (coverage s) (bytecodes_executed s)
    (err_count s) (budget s) (missing_builtin_policy s).
Definition set_frames (x : list Frame) (s : Vm H) : Vm H :=
  mkVm (prog s) (host s) (heap s) (stack s) x (returned s) (coverage s) (bytecodes_executed s)
    (err_count s) (budget s) (missing_builtin_policy s).
Definition set_returned (x : option Value) (s : Vm H) : Vm H :=
  mkVm (prog s) (host s) (heap s) (stack s) (frames s) x (coverage s) (bytecodes_executed s)
    (err_count s) (budget s) (missing_builtin_policy s).
Definition set_coverage (x : Coverage) (s : Vm H) : Vm H :=
  mkVm (prog s) (host s) (heap s) (stack s) (frames s) (returned s) x (bytecodes_executed s)
    (err_count s) (budget s) (missing_builtin_policy s).
Definition set_executed (x : Z) (s : Vm H) : Vm H :=
  mkVm (prog s) (host s) (heap s) (stack s) (frames s) (returned s) (coverage s) x
    (err_count s) (budget s) (missing_builtin_policy s).
Definition set_err_count (x : Z) (s : Vm H) : Vm H :=
  mkVm (prog s) (host s) (heap s) (stack s) (frames s) (returned s) (coverage s) (bytecodes_executed s)
    x (budget s) (missing_builtin_policy s).

Definition M (A : Type) : Type := Vm H -> comp (result VmError A * Vm H).
Definition ret {A} (a : A) : M A := fun s => Comp (Ok a, s).
Definition raise {A} (e : VmError) : M A := fun s => Comp (Err e, s).
Definition panic {A} : M A := fun _ => Panic.
Definition bind {A B} (c : M A) (k : A -> M B) : M B := fun s =>
  match c s with
  | Panic => Panic
  | StackOverflow => StackOverflow
  | Comp (Err e, s) => Comp (Err e, s)
  | Comp (Ok a, s) => k a s
  end.
Definition gets {A} (f : Vm H -> A) : M A := fun s => Comp (Ok (f s), s).
Definition modify (f : Vm H -> Vm H) : M unit := fun s => Comp (Ok tt, f s).
Definition lift {A} (r : result VmError A) : M A := fun s => Comp (r, s).
Definition unwrap {A} (o : option A) : M A := match o with Some a => ret a | None => panic end.
Definition require {A} (o : option A) (e : VmError) : M A := lift (ok_or o e).

Notation "'let!' x := c 'in' k" := (bind c (fun x => k))
  (at level 10, x name, c at level 100, k at level 200).
Notation "c ;;; k" := (bind c (fun _ => k)) (at level 100, k at level 200, right associativity).

(** [Vm::new]. *)
Definition new (p : Program) (host : H) (h : Heap) : Vm H :=
  mkVm p host h [] [] None (mkCoverage [] []) 0 0 50000000 Fail.
Definition with_budget (b : Z) (s : Vm H) : Vm H :=
  mkVm (prog s) (host s) (heap s) (stack s) (frames s) (returned s) (coverage s) (bytecodes_executed s)
    (err_count s) b (missing_builtin_policy s).
Definition with_missing_builtin_policy (x : MissingBuiltinPolicy) (s : Vm H) : Vm H :=
  mkVm (prog s) (host s) (heap s) (stack s) (frames s) (returned s) (coverage s) (bytecodes_executed s)
    (err_count s) (budget s) x.

(** [self.frames.last().unwrap()]. *)
Definition cur_frame : M Frame := fun s => unwrap (last (frames s)) s.
Definition set_last (f : Frame) (fs : list Frame) : list Frame := take (length fs - 1) fs ++ [f].
Definition set_cur (f : Frame) : M unit := modify (fun s => set_frames (set_last f (frames s)) s).

(** [self.prog.files[f.file]] and [.scripts[f.script]]. *)
Definition file_at (file : Z) : M ScriptFile := fun s => unwrap (get_z (files (prog s)) file) s.
Definition script_at (file script : Z) : M Script :=
  let! f := file_at file in unwrap (get_z (scripts f) script).
Definition update_script (file script : Z) (g : Script -> Script) : M unit :=
  modify (fun s => set_prog (set_files
    (update_z file (fun f => set_scripts (update_z script g (scripts f)) f) (files (prog s))) (prog s)) s).

(** [rte] and [rte_op]. *)
Definition rte (m : Message) (at_ op : Z) : M Step := fun s =>
  Comp (Ok (Abort (mkRuntimeError m at_ op)), set_err_count (err_count s + 1) s).
Definition rte_op (e : OpError) (at_ op : Z) : M Step := fun s =>
  let named z := match type_name z (prog s) with Some n => inl n | None => inr z end in
  let m := match e with
           | TypeMismatch lhs rhs => MTypes (named lhs) (named rhs)
           | other => message_of other
           end in
  rte m at_ op s.

(** ** Frames *)

Definition push_frame (file script : Z) : M unit :=
  let! s := gets id in
  let! file_ref := require (get_z (files (prog s)) file) (BadFileIndex file) in
  let! sc := require (get_z (scripts file_ref) script) (BadScriptIndex script) in
  let void := return_type sc =? tag TVoid in
  if (length (stack s) <? arity sc)%nat then raise StackUnderflow
  else
    let expected := (length (stack s) - arity sc + (if void then 0 else 1))%nat in
    modify (fun s => set_frames (frames s ++ [mkFrame file script (entry sc) [] expected void]) s).

(** ** Operands *)

Definition fetch_u8 : M Z :=
  let! f := cur_frame in
  let! sf := file_at (fr_file f) in
  let! b := require (get_z (code sf) (bip f)) (CodeOverrun (bip f)) in
  set_cur (mkFrame (fr_file f) (fr_script f) (bip f + 1) (locals f) (expected_stack f) (void_return f)) ;;;
  ret b.

(** [code.get(at..at + 4)] as a little-endian word. *)
Definition code_u32 (c : bytes) (at_ : Z) : option Z :=
  if (0 <=? at_) && (at_ + 4 <=? Z.of_nat (length c)) then Some (u32le c (Z.to_nat at_)) else None.

Definition get_bip : M Z := let! f := cur_frame in ret (bip f).
Definition set_bip (z : Z) : M unit :=
  let! f := cur_frame in
  set_cur (mkFrame (fr_file f) (fr_script f) z (locals f) (expected_stack f) (void_return f)).

Definition peek_u32 (at_ : Z) : M Z :=
  let! f := cur_frame in
  let! sf := file_at (fr_file f) in
  require (code_u32 (code sf) at_) (CodeOverrun at_).

Definition fetch_u32 : M Z :=
  let! at_ := get_bip in
  let! v := peek_u32 at_ in
  set_bip (at_ + 4) ;;;
  ret v.

Definition peek_op : M (option Z) :=
  let! f := cur_frame in
  let! sf := file_at (fr_file f) in
  ret (get_z (code sf) (bip f)).

(** ** Values *)

Definition bind_ref (r : VarRef) : M BoundRef :=
  let! f := cur_frame in
  match r with
  | Const i =>
      let! sf := file_at (fr_file f) in
      let! _ := require (get_z (const_pool sf) i) (BadVarRef r) in
      ret (BConst (fr_file f) i)
  | Static i =>
      let! sc := script_at (fr_file f) (fr_script f) in
      let! _ := require (get_z (statics sc) i) (BadVarRef r) in
      ret (BStatic (fr_file f) (fr_script f) i)
  | Local i =>
      let! _ := require (get_z (locals f) i) (BadVarRef r) in
      let! n := gets (fun s => length (frames s)) in
      ret (BLocal (n - 1) i)
  end.

(** What a local slot of some frame holds, if anything. *)
Definition local_at (fs : list Frame) (frame : nat) (i : Z) : option Slot :=
  f ← fs !! frame; o ← get_z (locals f) i; o.

(** [deref]; a chain of aliases longer than [fuel] exhausts the stack. *)
Fixpoint deref_in (fuel : nat) (s : Vm H) (x : Slot) : comp (result VmError Value) :=
  match x with
  | SVal v => Comp (Ok v)
  | SRef (BConst file i) =>
      match get_z (files (prog s)) file with
      | None => Panic
      | Some sf => Comp (ok_or (get_z (const_pool sf) i) (BadVarRef (Const i)))
      end
  | SRef (BStatic file script i) =>
      match sf ← get_z (files (prog s)) file; get_z (scripts sf) script with
      | None => Panic
      | Some sc => Comp (ok_or (default VNull <$> get_z (statics sc) i) (BadVarRef (Static i)))
      end
  | SRef (BLocal frame i) =>
      match local_at (frames s) frame i with
      | None => Comp (Err (BadVarRef (Local i)))
      | Some inner => match fuel with O => StackOverflow | S fuel => deref_in fuel s inner end
      end
  | SCell c => Comp (Ok (cell_at (heap s) c))
  end.
Definition deref (x : Slot) : M Value := fun s =>
  match deref_in depth s x with
  | Comp r => Comp (r, s)
  | Panic => Panic
  | StackOverflow => StackOverflow
  end.

Definition push (x : Slot) : M unit := modify (fun s => set_stack (x :: stack s) s).
Definition pop : M Slot := fun s =>
  match stack s with
  | [] => Comp (Err StackUnderflow, s)
  | x :: st => Comp (Ok x, set_stack st s)
  end.
Definition pop_value : M Value := let! x := pop in deref x.
Definition peek_value : M Value :=
  let! st := gets stack in
  let! x := require (head st) StackUnderflow in
  deref x.

(** The sidecar entry of one script, when a sidecar is attached. *)
Definition update_sidecar (file script : Z) (g : list (option ValueWalkMeta) -> list (option ValueWalkMeta))
    : M unit :=
  modify (fun s =>
    let on_script m := mkScriptWalkMeta (g (sw_statics m)) (sw_params m) (sw_refs m)
                         (sw_trigger_names m) (sw_var_names m) (sw_static_var_names m) in
    let on_file m := mkScriptFileWalkMeta (fw_code m) (fw_scripts m) (update_z script on_script (script_meta m))
                       (fw_const_pool m) (fw_linked_files m) (linked_file_indices m) in
    set_prog (put_walk_meta ((fun m => mkProgramWalkMeta (update_z file on_file (pw_files m)))
                <$> walk_meta (prog s)) (prog s)) s).

(** [set_slot]. *)
Definition set_slot (r : VarRef) (x : Slot) (meta : option ValueWalkMeta) : M unit :=
  let! f := cur_frame in
  match r with
  | Const _ => raise (BadVarRef r)
  | Static i =>
      let n := Z.to_nat (i + 1) in
      let! v := deref x in
      let! _ := script_at (fr_file f) (fr_script f) in
      update_script (fr_file f) (fr_script f)
        (fun sc => set_statics (<[Z.to_nat i := Some v]> (grow_to n (statics sc))) sc) ;;;
      update_sidecar (fr_file f) (fr_script f) (fun l => <[Z.to_nat i := meta]> (grow_to n l))
  | Local i =>
      set_cur (mkFrame (fr_file f) (fr_script f) (bip f)
        (<[Z.to_nat i := Some x]> (grow_to (Z.to_nat (i + 1)) (locals f))) (expected_stack f) (void_return f))
  end.

(** [store]: writing through a stack slot. *)
Definition keeps_scalar_meta (v : Value) : bool := match v with VObj _ | VNull => false | _ => true end.
Definition scalar_meta (m : option ValueWalkMeta) : bool :=
  match m with Some (mkValueWalkMeta _ _ WScalar) => true | _ => false end.

Definition store_static (file script i : Z) (v : Value) : M unit :=
  let! sc := script_at file script in
  let! _ := require (get_z (statics sc) i) (BadVarRef (Static i)) in
  update_script file script (fun sc => set_statics (<[Z.to_nat i := Some v]> (statics sc)) sc) ;;;
  update_sidecar file script (update_z i (fun m => if scalar_meta m && keeps_scalar_meta v then m else None)).

Fixpoint store_in (fuel : nat) (target : Slot) (v : Value) : M unit :=
  match target with
  | SRef (BConst _ i) => raise (BadVarRef (Const i))
  | SRef (BStatic file script i) => store_static file script i v
  | SRef (BLocal frame i) => fun s =>
      match local_at (frames s) frame i with
      | None => raise (BadVarRef (Local i)) s
      | Some (SVal _) =>
          modify (fun s => set_frames (alter (fun f =>
            mkFrame (fr_file f) (fr_script f) (bip f) (<[Z.to_nat i := Some (SVal v)]> (locals f))
              (expected_stack f) (void_return f)) frame (frames s)) s) s
      | Some alias => match fuel with O => StackOverflow | S fuel => store_in fuel alias v s end
      end
  | SCell c => modify (fun s => set_heap (set_cell c v (heap s)) s)
  | SVal _ => ret tt
  end.
Definition store : Slot -> Value -> M unit := store_in depth.

(** [close_frame]. *)
Definition close_frame : M Step :=
  let! s := gets id in
  let! f := unwrap (last (frames s)) in
  modify (fun s => set_frames (take (length (frames s) - 1) (frames s)) s) ;;;
  if negb (length (stack s) =? expected_stack f)%nat then
    rte (MWrongParams (length (stack s)) (expected_stack f)) (bip f) 0x3e
  else if (length (frames s) =? 1)%nat && negb (void_return f) then
    match stack s with
    | [] => modify (set_returned None) ;;; ret Continue
    | x :: st =>
        modify (set_stack st) ;;;
        let! v := deref x in
        modify (set_returned (Some v)) ;;;
        ret Continue
    end
  else ret Continue.

(** ** Instructions *)

(** [do_operator] on the machine's heap. *)
Definition operate (lhs : Value) (op : Z) (rhs : option Value) : M (result OpError Value) := fun s =>
  match do_operator depth (heap s) lhs op rhs with
  | None => StackOverflow
  | Some (r, h) => Comp (Ok r, set_heap h s)
  end.

(** An allocating routine on the machine's heap. *)
Definition alloc {A} (f : Heap -> option (A * Heap)) : M A := fun s =>
  match f (heap s) with None => StackOverflow | Some (a, h) => Comp (Ok a, set_heap h s) end.

Definition continue : M Step := ret Continue.

(** 0x26 [OP_PUSH]. *)
Definition op_push : M Step :=
  let! w := fetch_u32 in
  let! bound := bind_ref (varref_decode w) in
  let! _ := deref (SRef bound) in
  push (SRef bound) ;;; continue.

(** The assignment family: the target is on top. *)
Definition op_assign (here op : Z) : M Step :=
  let! target := pop in
  let! rhs := pop_value in
  let! cur := deref target in
  let! r := operate cur op (Some rhs) in
  match r with
  | Ok out => store target out ;;; push target ;;; continue
  | Err e => rte_op e here op
  end.

(** The binary operators: the right operand is on top. *)
Definition op_binary (here op : Z) : M Step :=
  let! rhs := pop_value in
  let! lhs := pop_value in
  let! r := operate lhs op (Some rhs) in
  match r with
  | Ok out => push (SVal out) ;;; continue
  | Err e => rte_op e here op
  end.

Definition op_unary (here op : Z) : M Step :=
  let! v := pop_value in
  let! r := operate v op None in
  match r with
  | Ok out => push (SVal out) ;;; continue
  | Err e => rte_op e here op
  end.

(** Pre- and post-increment; a following [OP_POP] is swallowed.  [post] is
    whether the value before is what is pushed. *)
Definition op_step_var (post : bool) (here op : Z) : M Step :=
  let! target := pop in
  let! cur := deref target in
  let! r := operate cur op None in
  match r with
  | Ok out =>
      store target out ;;;
      let! nxt := peek_op in
      (if bool_decide (nxt = Some OP_POP) then let! b := get_bip in set_bip (b + 1)
       else push (if post then SVal cur else target)) ;;;
      continue
  | Err e => rte_op e here op
  end.

Definition promoted_scalar_walk_meta (v : Value) : option ValueWalkMeta :=
  match v with VInt _ | VReal _ | VStr _ => Some (walk_scalar 3 0) | VObj _ | VNull => None end.

(** 0x32 [OP_INIT_COPY] and 0x33 [OP_INIT]. *)
Definition op_init_copy : M Step :=
  let! x := pop_value in
  let! v := alloc (duplicate depth x) in
  let! w := fetch_u32 in
  set_slot (varref_decode w) (SVal v) (promoted_scalar_walk_meta v) ;;; continue.
Definition op_init : M Step :=
  let! x := pop in
  let meta := match x with SVal v => promoted_scalar_walk_meta v | _ => None end in
  let! w := fetch_u32 in
  set_slot (varref_decode w) x meta ;;; continue.

(** 0x35 [OP_CAST_BOOL] and 0x34 [OP_CAST]. *)
Definition op_cast_bool : M Step :=
  let! v := pop_value in
  push (SVal (VInt (if is_true v then 1 else 0))) ;;; continue.
Definition op_cast : M Step :=
  let! v := pop_value in
  let! t := fetch_u32 in
  let! out := match from_tag t with
              | Some TInt => ret (VInt (as_int v))
              | Some TReal => ret (VReal (as_real v))
              | Some TStr => match as_string v with
                             | Ok s => ret (VStr s)
                             | Err _ => raise (Unimplemented "ScriptObject::get_string")
                             end
              | _ => ret v
              end in
  push (SVal out) ;;; continue.

(** 0x28, 0x29 and 0x2a: fresh values and arrays. *)
Definition op_create_simple : M Step :=
  let! t := fetch_u32 in push (SVal (zero_of t)) ;;; continue.
Definition op_create_array : M Step :=
  let! base := pop_value in
  let! t := fetch_u32 in
  let! v := alloc (fun h => Some (array t base 0 h)) in
  push (SVal v) ;;; continue.
Definition op_create_array_dyn (here op : Z) : M Step :=
  let! nv := pop_value in
  let n := as_int nv in
  let! base := pop_value in
  let! t := fetch_u32 in
  if n <? 0 then rte (MNegativeSize n) here op
  else
    let! v := alloc (fun h => Some (array t base (Z.to_nat n) h)) in
    push (SVal v) ;;; continue.

(** [for _ in 0..count { vals.push(self.pop_value()?.duplicate()) }]. *)
Fixpoint pop_duplicates (count : nat) : M (list Value) :=
  match count with
  | O => ret []
  | S count =>
      let! x := pop_value in
      let! v := alloc (duplicate depth x) in
      let! vs := pop_duplicates count in
      ret (v :: vs)
  end.

(** 0x2b [OP_CREATE_ARRAY_INITER] and 0x2c [OP_CREATE_STRUCT]. *)
Definition op_create_struct : M Step :=
  let! count := fetch_u32 in
  let! t := fetch_u32 in
  let! vals := pop_duplicates (Z.to_nat count) in
  let! v := alloc (fun h => Some (strukt t vals h)) in
  push (SVal v) ;;; continue.
Definition op_create_array_initer (here op : Z) : M Step :=
  let! count := fetch_u32 in
  let! t := fetch_u32 in
  let! vals := pop_duplicates (Z.to_nat count) in
  match vals with
  | [] => rte (MText "array initialiser with no elements") here op
  | first :: _ =>
      let! base := alloc (zero_like depth first) in
      let! v := alloc (fun h => let '(cs, h) := cells vals h in
                                Some (new_obj (mkObj t cs (Some base) true) h)) in
      push (SVal v) ;;; continue
  end.

(** Pushing the slot [i] of an aggregate, whose bound was checked. *)
Definition push_element (a : nat) (i : nat) : M Step :=
  let! h := gets heap in
  let! c := unwrap (o_values (obj_at h a) !! i) in
  push (SCell c) ;;; continue.

Definition not_an_array : Message := MText "variable is not an array".

(** 0x2d [OP_PUSH_ARRAY_INDEX]. *)
Definition op_push_array_index (here op : Z) : M Step :=
  let! iv := pop_value in
  let idx := as_int iv in
  let! base := pop_value in
  match obj base with
  | None => rte not_an_array here op
  | Some a =>
      let! h := gets heap in
      let len := i32 (Z.of_nat (length (o_values (obj_at h a)))) in
      if (len <=? idx) || (idx <? 0) then rte (MIndex idx (Some len)) here op
      else push_element a (Z.to_nat idx)
  end.

(** 0x2e [OP_CREATE_ARRAY_INDEX]: grows an array to hold the index. *)
Definition op_create_array_index (here op : Z) : M Step :=
  let! iv := pop_value in
  let idx := as_int iv in
  let! base := pop_value in
  let! h := gets heap in
  match obj base with
  | None => rte not_an_array here op
  | Some a =>
      if negb (o_is_array (obj_at h a)) then rte not_an_array here op
      else if idx <? 0 then rte (MIndex idx None) here op
      else if (length (o_values (obj_at h a)) <=? Z.to_nat idx)%nat then
        let! r := alloc (fun h => Some (resize a (Z.to_nat idx + 1) true h)) in
        match r with
        | Err e => rte_op e here op
        | Ok _ => push_element a (Z.to_nat idx)
        end
      else push_element a (Z.to_nat idx)
  end.

(** 0x2f [OP_PUSH_STRUCT_FIELD]. *)
Definition op_push_struct_field (here op : Z) : M Step :=
  let! base := pop_value in
  let! idx := fetch_u32 in
  match obj base with
  | None => rte (MText "variable is not a struct") here op
  | Some a =>
      let! h := gets heap in
      let len := Z.of_nat (length (o_values (obj_at h a))) in
      if len <=? idx then rte (MField idx len) here op
      else push_element a (Z.to_nat idx)
  end.

(** 0x30 [OP_PUSH_ARRAY_LENGTH] and 0x31 [OP_SET_ARRAY_LENGTH]. *)
Definition op_push_array_length (here op : Z) : M Step :=
  let! base := pop_value in
  match obj base with
  | Some a =>
      let! h := gets heap in
      push (SVal (VInt (i32 (Z.of_nat (length (o_values (obj_at h a))))))) ;;; continue
  | None => push (SVal (VInt 0)) ;;; rte not_an_array here op
  end.
Definition op_set_array_length (here op : Z) : M Step :=
  let! arr := pop_value in
  let! nv := pop_value in
  let n := as_int nv in
  let! h := gets heap in
  let! ok := match obj arr with
             | Some a =>
                 if negb (o_is_array (obj_at h a)) then ret false
                 else if n <? 0 then ret false
                 else let! r := alloc (fun h => Some (resize a (Z.to_nat n) false h)) in ret (is_ok r)
             | None => ret false
             end in
  push (SVal nv) ;;;
  if ok : bool then continue else rte not_an_array here op.

(** 0x36 [OP_CALL] and 0x37 [OP_CALL_INCLUDE]. *)
Definition op_call : M Step :=
  let! script := fetch_u32 in
  let! f := cur_frame in
  push_frame (fr_file f) script ;;; continue.
Definition op_call_include : M Step :=
  let! script := fetch_u32 in
  let! link := fetch_u32 in
  let! f := cur_frame in
  let! p := gets prog in
  let! links := require (resolved_links (fr_file f) p) (BadFileIndex (fr_file f)) in
  let! file := require (get_z links link) (BadFileIndex link) in
  push_frame file script ;;; continue.

(** [call_trigger_util]: builtins 15 to 17 act on the running script. *)
Definition trigger_util_value (decl : BuiltinDecl) (args : list Value) (sc : Script)
    : option (Value * Script) :=
  if bd_index decl =? 15 then Some (VNull, enable_all_triggers true sc)
  else if bd_index decl =? 16 then Some (VNull, enable_all_triggers false sc)
  else if bd_index decl =? 17 then
    match match head args with Some v => as_string v | None => Ok [] end with
    | Err _ => Some (VInt (-1), sc)
    | Ok name =>
        Some (VInt (match find_trigger name sc with
                    | Some i => if is_trigger_enabled (i32 (Z.of_nat i)) sc then 1 else 0
                    | None => -1
                    end), sc)
    end
  else None.
Definition call_trigger_util (decl : BuiltinDecl) (args : list Value) : M (option Value) := fun s =>
  match last (frames s) with
  | None => ret None s
  | Some f =>
      (let! sc := script_at (fr_file f) (fr_script f) in
       match trigger_util_value decl args sc with
       | None => ret None
       | Some (v, sc') => update_script (fr_file f) (fr_script f) (fun _ => sc') ;;; ret (Some v)
       end) s
  end.

Fixpoint pop_values (n : nat) : M (list Value) :=
  match n with
  | O => ret []
  | S n => let! v := pop_value in let! vs := pop_values n in ret (v :: vs)
  end.

Definition call_host (decl : BuiltinDecl) (args : list Value) : M (result HostError Value) := fun s =>
  match host_call decl args (host s) (heap s) with
  | Comp (r, hs, h) => Comp (Ok r, set_heap h (set_host hs s))
  | Panic => Panic
  | StackOverflow => StackOverflow
  end.

Definition push_ret (decl : BuiltinDecl) (v : Value) : M unit :=
  if bool_decide (bd_ret decl = TVoid) then ret tt else push (SVal v).

(** [call_builtin]. *)
Definition call_builtin (decl : BuiltinDecl) (argc : Z) : M unit :=
  let! args := pop_values (Z.to_nat argc) in
  let! t := call_trigger_util decl args in
  let covered := modify (fun s => set_coverage (record_implemented (bd_index decl) (coverage s)) s) in
  match t with
  | Some v => covered ;;; push_ret decl v
  | None =>
      let! r := call_host decl args in
      match r with
      | Ok v => covered ;;; push_ret decl v
      | Err HUnimplemented =>
          modify (fun s => set_coverage (record_unimplemented (bd_index decl) (bd_name decl) (coverage s)) s) ;;;
          let! policy := gets missing_builtin_policy in
          match policy with
          | Fail => raise (UnimplementedBuiltin (bd_index decl) (bd_name decl))
          | Survey => push_ret decl (survey_err_return (bd_ret decl))
          end
      | Err (BadArgs reason) => raise (HostRejected (bd_index decl) (bd_name decl) reason)
      end
  end.

(** 0x38 [OP_CALL_GAME] and 0x39 [OP_CALL_GAME_VARIED]. *)
Definition op_call_game : M Step :=
  let! idx := fetch_u32 in
  let! decl := require (builtin idx) (BadBuiltinIndex idx) in
  call_builtin decl (bd_arity decl) ;;; continue.
Definition op_call_game_varied : M Step :=
  let! idx := fetch_u32 in
  let! argc := fetch_u32 in
  let! decl := require (builtin idx) (BadBuiltinIndex idx) in
  call_builtin decl argc ;;; continue.

(** 0x3e [OP_RETURN]. *)
Definition op_return : M Step :=
  let! f := cur_frame in
  (if void_return f then ret tt
   else
     let! v := peek_value in
     let! d := alloc (duplicate depth v) in
     modify (fun s => set_stack (match stack s with _ :: st => SVal d :: st | [] => [] end) s)) ;;;
  close_frame.

(** A conditional jump reads its target only when taken. *)
Definition jump_or_skip (taken : bool) : M unit :=
  let! at_ := get_bip in
  if taken then let! t := peek_u32 at_ in set_bip t else set_bip (at_ + 4).

Definition op_jump : M Step := let! t := fetch_u32 in set_bip t ;;; continue.
Definition op_jump_if : M Step := let! v := pop_value in jump_or_skip (is_true v) ;;; continue.
Definition op_jump_if_not : M Step := let! v := pop_value in jump_or_skip (is_false v) ;;; continue.

(** 0x42 and 0x43: the short-circuit jumps keep the value when they jump. *)
Definition op_jump_sc (test : Value -> bool) : M Step :=
  let! x := pop in
  let! v := deref x in
  (if test v then push x else ret tt) ;;;
  jump_or_skip (test v) ;;; continue.

(** 0x3a [OP_CASE]. *)
Definition op_case (here op : Z) : M Step :=
  let! w := fetch_u32 in
  let ci := Z.land w 0xdfffffff in
  let! f := cur_frame in
  let! sf := file_at (fr_file f) in
  let! k := require (get_z (const_pool sf) ci) (BadVarRef (Const ci)) in
  let! subject := peek_value in
  let! r := operate subject OP_EQ_OP (Some k) in
  match r with
  | Err e => rte_op e here op
  | Ok eq =>
      jump_or_skip (is_true eq) ;;;
      (if is_true eq then let! _ := pop in ret tt else ret tt) ;;; continue
  end.

(** 0x44 [OP_JUMP_IF_INITED], the guard of a static initialiser. *)
Definition op_jump_if_inited : M Step :=
  let! raw := fetch_u32 in
  let! f := cur_frame in
  let! sc := script_at (fr_file f) (fr_script f) in
  let inited := match get_z (statics sc) (Z.land raw 0xbfffffff) with Some (Some _) => true | _ => false end in
  jump_or_skip inited ;;; continue.

(** 0x3c and 0x3d: the names are inverted, as in the machine. *)
Definition op_bit_set : M Step :=
  let! i := fetch_u32 in
  let! f := cur_frame in
  let! _ := script_at (fr_file f) (fr_script f) in
  update_script (fr_file f) (fr_script f) (trigger_bit_clear (i32 i)) ;;; continue.
Definition op_bit_unset : M Step :=
  let! i := fetch_u32 in
  let! f := cur_frame in
  let! _ := script_at (fr_file f) (fr_script f) in
  update_script (fr_file f) (fr_script f) (trigger_bit_set (i32 i)) ;;; continue.

(** 0x45 [OP_JUMP_IF_BITSET]: past the body when the trigger is disabled. *)
Definition op_jump_if_bitset : M Step :=
  let! i := fetch_u32 in
  let! f := cur_frame in
  let! sc := script_at (fr_file f) (fr_script f) in
  jump_or_skip (negb (is_trigger_enabled (i32 i) sc)) ;;; continue.

(** The groups of opcodes that share a handler. *)
Definition is_assign (op : Z) : bool :=
  (op =? 0x00) || (op =? 0x03) || ((0x0c <=? op) && (op <=? 0x0e)) || ((0x18 <=? op) && (op <=? 0x1e)).
Definition is_binary (op : Z) : bool :=
  (op =? 0x01) || (op =? 0x02) || ((0x04 <=? op) && (op <=? 0x08)) || (op =? 0x0a) || (op =? 0x0b)
  || ((0x0f <=? op) && (op <=? 0x11)) || (op =? 0x17) || ((0x1f <=? op) && (op <=? 0x24)).

(** The dispatch of [step]. *)
Definition execute (here op : Z) : M Step :=
  if op =? 0x26 then op_push
  else if op =? 0x27 then let! _ := pop in continue
  else if is_assign op then op_assign here op
  else if is_binary op then op_binary here op
  else if (op =? 0x09) || (op =? 0x16) || (op =? 0x25) then op_unary here op
  else if (op =? 0x12) || (op =? 0x13) then op_step_var false here op
  else if (op =? 0x14) || (op =? 0x15) then op_step_var true here op
  else if op =? 0x32 then op_init_copy
  else if op =? 0x33 then op_init
  else if op =? 0x35 then op_cast_bool
  else if op =? 0x34 then op_cast
  else if op =? 0x28 then op_create_simple
  else if op =? 0x29 then op_create_array
  else if op =? 0x2a then op_create_array_dyn here op
  else if op =? 0x2b then op_create_array_initer here op
  else if op =? 0x2c then op_create_struct
  else if op =? 0x2d then op_push_array_index here op
  else if op =? 0x2e then op_create_array_index here op
  else if op =? 0x2f then op_push_struct_field here op
  else if op =? 0x30 then op_push_array_length here op
  else if op =? 0x31 then op_set_array_length here op
  else if op =? 0x36 then op_call
  else if op =? 0x37 then op_call_include
  else if op =? 0x38 then op_call_game
  else if op =? 0x39 then op_call_game_varied
  else if op =? 0x3e then op_return
  else if op =? 0x3f then op_jump
  else if op =? 0x40 then op_jump_if
  else if op =? 0x41 then op_jump_if_not
  else if op =? 0x42 then op_jump_sc is_true
  else if op =? 0x43 then op_jump_sc is_false
  else if op =? 0x3a then op_case here op
  else if op =? 0x44 then op_jump_if_inited
  else if op =? 0x3c then op_bit_set
  else if op =? 0x3d then op_bit_unset
  else if op =? 0x45 then op_jump_if_bitset
  else if op =? 0x46 then continue
  else if op =? 0x47 then let! _ := fetch_u32 in continue
  else if op =? 0x3b then raise (Unimplemented "OP_BREAK (debugger breakpoint)")
  else raise (Unimplemented (default "?" (od_name <$> decode op))).

Definition step : M Step :=
  let! here := get_bip in
  let! op := fetch_u8 in
  if OP_ERROR_TOKEN <=? op then raise (BadOpcode op) else execute here op.

(** ** Runs *)

(** One iteration of the run loop: [inr] is the end of the run. *)
Definition run_body (before : Z) (s : Vm H)
    : Vm H + comp (result VmError (option RuntimeError) * Vm H) :=
  match frames s with
  | [] => inr (Comp (Ok None, s))
  | _ =>
      if budget s <? bytecodes_executed s - before then inr (Comp (Err BudgetExhausted, s))
      else
        match step s with
        | Panic => inr Panic
        | StackOverflow => inr StackOverflow
        | Comp (Err e, s) => inr (Comp (Err e, s))
        | Comp (Ok (Abort e), s) => inr (Comp (Ok (Some e), set_frames [] s))
        | Comp (Ok Continue, s) => inl (set_executed (bytecodes_executed s + 1) s)
        end
  end.

(** The loop ends within [budget + 3] iterations ([run_loop_ends]). *)
Definition run_loop (before : Z) : M (option RuntimeError) := fun s =>
  match iter_until (Z.to_pos (budget s + 3)) (run_body before) s with
  | inr r => r
  | inl s => Comp (Err BudgetExhausted, s)
  end.

Definition run_script_slots (file script : Z) (args : list Slot) : M RunOutcome :=
  let! before := gets bytecodes_executed in
  modify (set_returned None) ;;;
  modify (fun s => set_stack (args ++ stack s) s) ;;;
  push_frame file script ;;;
  let! error := run_loop before in
  let! s := gets id in
  modify (set_returned None) ;;;
  ret (mkRunOutcome (returned s) (bytecodes_executed s - before) (err_count s) error).

Definition run_script_index (file script : Z) (args : list Value) : M RunOutcome :=
  run_script_slots file script (map SVal args).

Definition run_script (file : Z) (name : text) : M RunOutcome :=
  let! s := gets id in
  let! f := require (get_z (files (prog s)) file) (BadFileIndex file) in
  let! idx := require (file_find_script name f) (BadScriptIndex USIZE_MAX) in
  run_script_index file (Z.of_nat idx) [].

(** [run_script_index_mut]: the arguments after the run are the contents of
    the cells they were passed in. *)
Definition run_script_index_mut (file script : Z) (args : list Value) : M (RunOutcome * list Value) :=
  let! s := gets id in
  let! _ := require (f ← get_z (files (prog s)) file; get_z (scripts f) script) (BadScriptIndex script) in
  let! cs := alloc (fun h => Some (cells args h)) in
  let! out := run_script_slots file script (map SCell cs) in
  let! h := gets heap in
  ret (out, map (cell_at h) cs).

End Vm.
End Vm.

(** [struct NullHost]: the host that implements nothing. *)
#[export] Instance NullHost : Host unit := {| host_call _ _ hs h := Comp (Err HUnimplemented, hs, h) |}.

(** The quick start of [lib.rs]: a static counter with a guarded initialiser,
    run on a machine whose standard library is cut down to ASCII. *)
Module Example.
Export AsciiStd.

Definition no_builtins : Z -> option BuiltinDecl := fun _ => None.

Definition tick_code : bytes := asm [
  (0x44, [varref_encode (Static 0); 19]);
  (0x26, [varref_encode (Const 0)]);
  (0x33, [varref_encode (Static 0)]);
  (0x26, [varref_encode (Static 0)]);
  (0x26, [varref_encode (Const 1)]);
  (0x04, []);
  (0x33, [varref_encode (Static 0)]);
  (0x26, [varref_encode (Static 0)]);
  (0x3e, [])].
Definition script_of (statics : list (option Value)) : Script :=
  mkScript [0x74; 0x69; 0x63; 0x6b] 0 [] [] 0 0 0 [] [] [] statics [] 0.
Definition file_of (c : bytes) (statics : list (option Value)) : ScriptFile :=
  mkScriptFile [] c [script_of statics] [VInt 0; VInt 1] [] [].
Definition machine (c : bytes) : Vm unit := Vm.new (single (file_of c [None])) tt (mkHeap [] []).

Lemma tick_counts :
  exists o1 s1 o2 s2,
    Vm.run_script no_builtins 8 0 [0x74; 0x69; 0x63; 0x6b] (machine tick_code) = Comp (Ok o1, s1) /\
    Vm.run_script no_builtins 8 0 [0x74; 0x69; 0x63; 0x6b] s1 = Comp (Ok o2, s2) /\
    ro_returned o1 = Some (VInt 1) /\ ro_returned o2 = Some (VInt 2).
Proof. eexists _, _, _, _. split; [vm_compute; reflexivity|]. split; [vm_compute; reflexivity|]. by split. Qed.
End Example.
