(* ===== verification/BhsBuiltins.v ===== *)
(** * The utility builtins and their host

    [crates/don-bhs/src/builtins.rs]: the four utility function sets over the
    methods of [trait Host] they use ([UtilMethods]), and [UtilHost].  The
    trigonometric functions of [f32] have unspecified precision, so they are
    operations of an interface ([Trig]).  [add(array, value)] copies the value
    while the array is mutably borrowed: [duplicate_locked] is [duplicate]
    with the address whose borrow panics. *)

From S2P Require Import Prelude NetText BhsOpcode BhsStd BhsValue BhsOps BhsVm.
From Stdlib Require String.
Import (notations) String.
#[local] Open Scope string_scope.
#[local] Open Scope list_scope.
#[local] Open Scope Z_scope.

(** ** Floats *)

Class Trig := { f32_sin : f32 -> f32; f32_cos : f32 -> f32; f32_tan : f32 -> f32;
                f32_asin : f32 -> f32; f32_acos : f32 -> f32; f32_atan : f32 -> f32 }.

Definition BHS_PI : f32 := f32_of_bits 0x40490fdb.
Definition BHS_HALF_TURN_DEGREES : f32 := f32_of_i32 180.
Definition deg_to_rad (x : f32) : f32 := f32_div (f32_mul x BHS_PI) BHS_HALF_TURN_DEGREES.
Definition rad_to_deg (x : f32) : f32 := f32_div (f32_mul x BHS_HALF_TURN_DEGREES) BHS_PI.

Definition minss (a b : f32) : f32 := if SFltb a b then a else b.
Definition maxss (a b : f32) : f32 := if SFltb b a then a else b.

(** [((x as f64) - 1.0) as f32]: widening is exact. *)
Definition f32_of_f64 (x : spec_float) : f32 :=
  match x with
  | S754_finite s m e => binary_normalize 24 128 (if s then Z.neg m else Z.pos m) e s
  | _ => x
  end.
Definition minus_one_wide (x : f32) : f32 := f32_of_f64 (SFsub 53 1024 x (binary_normalize 53 1024 1 0 false)).

(** ** The methods of [trait Host] the utilities call *)

Class UtilMethods (H : Type) := {
  game_random : Z -> Z -> H -> result HostError Z * H;
  game_random_step : H -> result HostError Z * H;
  game_random_seed : H -> result HostError Z;
  set_game_random_seed : Z -> H -> result HostError unit * H;
  reseed_from_clock : H -> result HostError unit * H;
  script_print : text -> bool -> H -> result HostError unit * H }.

(** ** Copying while an aggregate is mutably borrowed *)

Definition comp_bind {A B} (c : comp A) (k : A -> comp B) : comp B :=
  match c with Comp a => k a | Panic => Panic | StackOverflow => StackOverflow end.

Fixpoint map_cells_locked (f : Value -> Heap -> comp (Value * Heap)) (cs : list nat) (h : Heap) : comp (list nat * Heap) :=
  match cs with
  | [] => Comp ([], h)
  | c :: cs =>
      comp_bind (f (cell_at h c) h) (fun '(v, h) =>
      let '(a, h) := cell v h in
      comp_bind (map_cells_locked f cs h) (fun '(l, h) => Comp (a :: l, h)))
  end.

Fixpoint duplicate_locked (lock depth : nat) (v : Value) (h : Heap) : comp (Value * Heap) :=
  match v with
  | VObj a =>
      match depth with
      | O => StackOverflow
      | S depth =>
          if (a =? lock)%nat then Panic
          else
            let o := obj_at h a in
            comp_bind (map_cells_locked (duplicate_locked lock depth) (o_values o) h) (fun '(cs, h) =>
            Comp (new_obj (mkObj (o_data_type o) cs (o_blank_base o) (o_is_array o)) h))
      end
  | _ => Comp (v, h)
  end.

(** ** The dispatch *)

Section Dispatch.
Context {std : StdLib} {trig : Trig} {H : Type} {methods : UtilMethods H} (depth : nat).

Definition outcome : Type := comp (result HostError Value * H * Heap).

Definition UTIL_MAX_INDEX : Z := 30.
Definition arg (args : list Value) (i : nat) : Value := default VNull (args !! i).

Definition as_text (args : list Value) (e : HostError) : result HostError text :=
  match as_string (arg args 0) with Ok s => Ok s | Err _ => Err e end.

Definition rand_int (args : list Value) (host : H) (h : Heap) : outcome :=
  let '(r, host) := game_random (as_int (arg args 0)) (as_int (arg args 1)) host in
  Comp (let? z := r in Ok (VInt z), host, h).

Definition rand_real (host : H) (h : Heap) : outcome :=
  let '(r, host) := game_random_step host in
  Comp (let? s := r in Ok (VReal (minus_one_wide (f32_of_bits (Z.lor 0x3f800000 (Z.land s 0x007fffff))))), host, h).

Definition rand_seed (args : list Value) (host : H) (h : Heap) : outcome :=
  let n := as_int (arg args 0) in
  let '(r, host) := if n <? 0 then reseed_from_clock host else set_game_random_seed (u32 n) host in
  Comp (let? _ := r in Ok VNull, host, h).

Definition str_length (args : list Value) : result HostError Value :=
  let? s := as_text args (BadArgs "length: cannot convert value to string") in
  Ok (VInt (i32 (Z.of_nat (length (encode_utf16 s))))).

Definition char_at (args : list Value) : result HostError Value :=
  let? s := as_text args (BadArgs "char_at: cannot convert value to string") in
  let i := as_int (arg args 1) in
  let units := encode_utf16 s in
  if (i <? 0) || (Z.of_nat (length units) <=? i) then Ok (VInt 0)
  else Ok (VInt (u16 (nth (Z.to_nat i) units 0))).

Definition char_from_int (args : list Value) : result HostError Value :=
  let u := Z.land (u32 (as_int (arg args 0))) 0xffff in
  if between 0xd800 0xdfff u then Err HUnimplemented else Ok (VStr [u]).

Definition print (args : list Value) (newline : bool) (host : H) (h : Heap) : outcome :=
  match as_text args HUnimplemented with
  | Err e => Comp (Err e, host, h)
  | Ok s => let '(r, host) := script_print s newline host in Comp (let? _ := r in Ok VNull, host, h)
  end.

Definition set_values (a : nat) (vs : list nat) (h : Heap) : Heap :=
  let o := obj_at h a in set_obj a (mkObj (o_data_type o) vs (o_blank_base o) (o_is_array o)) h.

(** Pushing [cell(v)]; the result is the index of the new slot. *)
Definition push_cell (a : nat) (v : Value) (h : Heap) : Value * Heap :=
  let '(c, h) := cell v h in
  let vs := o_values (obj_at h a) ++ [c] in
  (VInt (i32 (i32 (Z.of_nat (length vs)) - 1)), set_values a vs h).

(** [a.obj().ok_or(BadArgs(m))?]. *)
Definition with_obj (args : list Value) (m : string) (host : H) (h : Heap) (k : nat -> outcome) : outcome :=
  match obj (arg args 0) with None => Comp (Err (BadArgs m), host, h) | Some a => k a end.

Definition add_blank (args : list Value) (host : H) (h : Heap) : outcome :=
  with_obj args "add: not an array" host h (fun a =>
    match o_blank_base (obj_at h a) with
    | None => Comp (Ok (VInt (-1)), host, h)
    | Some base => let '(i, h) := push_cell a base h in Comp (Ok i, host, h)
    end).

Definition add_value (args : list Value) (host : H) (h : Heap) : outcome :=
  let v := arg args 1 in
  with_obj args "add: not an array" host h (fun a =>
    let ok := match o_blank_base (obj_at h a) with
              | Some b => data_type h b =? data_type h v
              | None => false
              end in
    if negb ok then Comp (Ok (VInt (-1)), host, h)
    else comp_bind (duplicate_locked a depth v h) (fun '(d, h) =>
           let '(i, h) := push_cell a d h in Comp (Ok i, host, h))).

Definition remove_index (args : list Value) (host : H) (h : Heap) : outcome :=
  let i := as_int (arg args 1) in
  with_obj args "remove_index: not an array" host h (fun a =>
    let vs := o_values (obj_at h a) in
    if (i <? 0) || (Z.of_nat (length vs) <=? i) then Comp (Err (BadArgs "remove_index: out of range"), host, h)
    else
      let vs := delete (Z.to_nat i) vs in
      Comp (Ok (VInt (i32 (Z.of_nat (length vs)))), host, set_values a vs h)).

(** The linear scan; an error of the comparison counts as unequal. *)
Fixpoint find_in (v : Value) (h : Heap) (cs : list nat) (i : nat) : comp (option nat) :=
  match cs with
  | [] => Comp None
  | c :: cs =>
      match do_operator depth h (cell_at h c) OP_EQ_OP (Some v) with
      | None => StackOverflow
      | Some (Ok r, _) => if is_true r then Comp (Some i) else find_in v h cs (S i)
      | Some (Err _, _) => find_in v h cs (S i)
      end
  end.

Definition find_value (args : list Value) (host : H) (h : Heap) : outcome :=
  let v := arg args 1 in
  with_obj args "find: not an array" host h (fun a =>
    comp_bind (find_in v h (o_values (obj_at h a)) 0) (fun i =>
    Comp (Ok (VInt (match i with Some i => i32 (Z.of_nat i) | None => -1 end)), host, h))).

Definition clear_array (args : list Value) (host : H) (h : Heap) : outcome :=
  with_obj args "clear: not an array" host h (fun a => Comp (Ok VNull, host, set_values a [] h)).

Definition dispatch (decl : BuiltinDecl) (args : list Value) (host : H) (h : Heap) : outcome :=
  let f0 := as_real (arg args 0) in
  let i0 := as_int (arg args 0) in
  let pure r := Comp (r, host, h) in
  match bd_index decl with
  | 0 => pure (Ok (VReal (f32_sin (deg_to_rad f0))))
  | 1 => pure (Ok (VReal (f32_cos (deg_to_rad f0))))
  | 2 => pure (Ok (VReal (f32_tan (deg_to_rad f0))))
  | 3 => pure (Ok (VReal (rad_to_deg (f32_asin f0))))
  | 4 => pure (Ok (VReal (rad_to_deg (f32_acos f0))))
  | 5 => pure (Ok (VReal (rad_to_deg (f32_atan f0))))
  | 6 => pure (Ok (VReal (SFsqrt 24 128 f0)))
  | 7 => pure (Ok (VReal (SFabs f0)))
  | 8 => pure (Ok (VInt (i32 (Z.abs i0))))
  | 9 => rand_int args host h
  | 10 => rand_real host h
  | 11 => rand_seed args host h
  | 12 => pure (let? s := game_random_seed host in Ok (VInt (i32 s)))
  | 13 => pure (Ok (VReal (minss f0 (as_real (arg args 1)))))
  | 14 => pure (Ok (VReal (maxss f0 (as_real (arg args 1)))))
  | 15 | 16 | 17 => pure (Err HUnimplemented)
  | 18 => pure (str_length args)
  | 19 => pure (char_at args)
  | 20 => pure (char_from_int args)
  | 21 => pure (Err HUnimplemented)
  | 22 => print args false host h
  | 23 => print args true host h
  | 24 => add_blank args host h
  | 25 => add_value args host h
  | 26 | 28 => pure (Err HUnimplemented)
  | 27 => remove_index args host h
  | 29 => find_value args host h
  | 30 => clear_array args host h
  | _ => pure (Err HUnimplemented)
  end.

Definition call_util (decl : BuiltinDecl) (args : list Value) (host : H) (h : Heap) : option outcome :=
  if UTIL_MAX_INDEX <? bd_index decl then None else Some (dispatch decl args host h).

End Dispatch.

Definition implemented_indices : list Z :=
  filter (fun i => i ∉ [15; 16; 17; 21; 26; 28]) (map Z.of_nat (seq 0 31)).

(** ** [struct UtilHost] *)

Record UtilHost := mkUtilHost { seed : Z; output : list text }.

Module Util.

Definition default : UtilHost := mkUtilHost 0 [].
Definition with_seed (s : Z) : UtilHost := mkUtilHost s [].

Definition step (u : UtilHost) : Z * UtilHost :=
  let s := u32 (u32 (seed u * 1664525) + 1013904223) in (s, mkUtilHost s (output u)).

Definition random (lo hi : Z) (u : UtilHost) : Z * UtilHost :=
  if lo =? hi then (lo, u)
  else
    let '(lo, hi) := if lo <? hi then (lo, hi) else (hi, lo) in
    let '(s, u) := step u in
    let span := u32 (i32 (hi - lo)) in
    let scaled := Z.shiftr (u32 (Z.land s 0xffff * span)) 16 in
    (i32 (lo + i32 scaled), u).

Definition print_to (s : text) (newline : bool) (out : list text) : list text :=
  if newline then out ++ [s]
  else match last out with
       | Some l => take (length out - 1) out ++ [l ++ s]
       | None => out ++ [s]
       end.

#[global] Instance methods : UtilMethods UtilHost := {|
  game_random lo hi u := let '(z, u) := random lo hi u in (Ok z, u);
  game_random_step u := let '(s, u) := step u in (Ok s, u);
  game_random_seed u := Ok (seed u);
  set_game_random_seed s u := (Ok tt, mkUtilHost s (output u));
  reseed_from_clock u := (Err HUnimplemented, u);
  script_print s newline u := (Ok tt, mkUtilHost (seed u) (print_to s newline (output u))) |}.

(** [impl Host for UtilHost]: [depth] is what the machine stack holds. *)
Definition call `{StdLib, Trig} (depth : nat) (decl : BuiltinDecl) (args : list Value) (u : UtilHost) (h : Heap)
    : comp (result HostError Value * UtilHost * Heap) :=
  match call_util depth decl args u h with
  | Some r => r
  | None => Comp (Err HUnimplemented, u, h)
  end.
Definition host `{StdLib, Trig} (depth : nat) : Host UtilHost := {| host_call := call depth |}.

End Util.
