(* ===== verification/BhsHeapSafety.v ===== *)
(** * The script machine's storage stays well formed

    A value is live in a heap when the aggregate it names exists and an
    integer is an [i32]; a heap is well formed when everything it holds is
    live.  Every routine of [BhsValue.v] and [BhsOps.v] that allocates or
    mutates keeps that, and only adds storage. *)

From S2P Require Import Prelude BhsStd BhsValue BhsOps.

(** ** Live values *)

Definition value_ok (h : Heap) (v : Value) : Prop :=
  match v with
  | VInt i => is_i32 i
  | VObj a => (a < length (h_objs h))%nat
  | _ => True
  end.

Definition obj_ok (h : Heap) (o : Obj) : Prop :=
  Forall (fun c => c < length (h_cells h))%nat (o_values o) /\
  (forall b, o_blank_base o = Some b -> value_ok h b).

Definition heap_ok (h : Heap) : Prop := Forall (value_ok h) (h_cells h) /\ Forall (obj_ok h) (h_objs h).

(** The heap only grows. *)
Definition heap_le (h h' : Heap) : Prop :=
  (length (h_cells h) <= length (h_cells h') /\ length (h_objs h) <= length (h_objs h'))%nat.

#[export] Instance heap_le_preorder : PreOrder heap_le.
Proof. unfold heap_le. split; [split; lia|]. intros x y z ? ?. lia. Qed.

(** [heap_ok _ /\ heap_le _ _ /\ _] from the same facts about the parts. *)
Ltac ok_parts :=
  split; [assumption|split; [first [assumption|reflexivity|etrans; eassumption|etrans; [eassumption|etrans; eassumption]]|]];
  try done.

Lemma value_ok_mono h h' v : heap_le h h' -> value_ok h v -> value_ok h' v.
Proof. intros []. destruct v; simpl; lia || done. Qed.
Lemma obj_ok_mono h h' o : heap_le h h' -> obj_ok h o -> obj_ok h' o.
Proof.
  intros Hle [Hv Hb]. split; [|intros b E; eapply value_ok_mono; eauto].
  eapply Forall_impl; [exact Hv|]. intros c Hc. destruct Hle. simpl in *. lia.
Qed.

Lemma cell_at_ok h a : heap_ok h -> value_ok h (cell_at h a).
Proof.
  intros [Hc _]. unfold cell_at. destruct (h_cells h !! a) as [v|] eqn:E; [|done]. by eapply Forall_lookup_1 in Hc.
Qed.
Lemma obj_at_ok h a : heap_ok h -> obj_ok h (obj_at h a).
Proof.
  intros [_ Ho]. unfold obj_at. destruct (h_objs h !! a) as [o|] eqn:E; [by eapply Forall_lookup_1 in Ho|].
  split; [constructor|done].
Qed.

Lemma cells_ok vs h :
  heap_ok h -> Forall (value_ok h) vs ->
  let '(cs, h') := cells vs h in
  heap_ok h' /\ heap_le h h' /\ Forall (fun c => c < length (h_cells h'))%nat cs /\ h_objs h' = h_objs h.
Proof.
  intros [Hc Ho] Hv. simpl. assert (Hle : heap_le h (mkHeap (h_cells h ++ vs) (h_objs h))).
  { split; simpl; rewrite ?length_app; lia. }
  split; [split|split; [done|split; [|done]]]; simpl.
  - apply Forall_app; split; eapply Forall_impl; eauto using value_ok_mono.
  - eapply Forall_impl; eauto using obj_ok_mono.
  - apply Forall_seq. intros j Hj. rewrite length_app. lia.
Qed.

Lemma new_obj_ok o h :
  heap_ok h -> obj_ok h o -> let '(v, h') := new_obj o h in heap_ok h' /\ heap_le h h' /\ value_ok h' v.
Proof.
  intros [Hc Ho] Hn. simpl. assert (Hle : heap_le h (mkHeap (h_cells h) (h_objs h ++ [o]))).
  { split; simpl; rewrite ?length_app; lia. }
  split; [split|split; [done|]]; simpl.
  - eapply Forall_impl; eauto using value_ok_mono.
  - apply Forall_app; split; [eapply Forall_impl; eauto using obj_ok_mono|constructor; [by eapply obj_ok_mono|constructor]].
  - rewrite length_app. simpl. lia.
Qed.

Lemma set_obj_ok a o h : heap_ok h -> obj_ok h o -> heap_ok (set_obj a o h) /\ heap_le h (set_obj a o h).
Proof.
  intros [Hc Ho] Hn. assert (Hle : heap_le h (set_obj a o h)) by (split; simpl; rewrite ?length_insert; lia).
  split; [split|done]; simpl.
  - eapply Forall_impl; eauto using value_ok_mono.
  - apply Forall_insert; [eapply Forall_impl; eauto using obj_ok_mono|by eapply obj_ok_mono].
Qed.

Lemma set_cell_ok a v h : heap_ok h -> value_ok h v -> heap_ok (set_cell a v h) /\ heap_le h (set_cell a v h).
Proof.
  intros [Hc Ho] Hn. assert (Hle : heap_le h (set_cell a v h)) by (split; simpl; rewrite ?length_insert; lia).
  split; [split|done]; simpl.
  - apply Forall_insert; [eapply Forall_impl; eauto using value_ok_mono|by eapply value_ok_mono].
  - eapply Forall_impl; eauto using obj_ok_mono.
Qed.

Lemma array_ok et base n h :
  heap_ok h -> value_ok h base ->
  let '(v, h') := array et base n h in heap_ok h' /\ heap_le h h' /\ value_ok h' v.
Proof.
  intros Hh Hb. unfold array. pose proof (cells_ok (replicate n base) h Hh) as C.
  destruct (cells (replicate n base) h) as [cs h1]. destruct C as (H1 & H2 & H3 & _); [by apply Forall_replicate|].
  pose proof (new_obj_ok (mkObj et cs (Some base) true) h1 H1) as N. destruct (new_obj _ h1) as [v h2].
  destruct N as (N1 & N2 & N3); [|by ok_parts].
  split; [done|]. simpl. intros b [= <-]. by eapply value_ok_mono.
Qed.

Lemma strukt_ok dt vs h :
  heap_ok h -> Forall (value_ok h) vs ->
  let '(v, h') := strukt dt vs h in heap_ok h' /\ heap_le h h' /\ value_ok h' v.
Proof.
  intros Hh Hb. unfold strukt. pose proof (cells_ok vs h Hh Hb) as C.
  destruct (cells vs h) as [cs h1]. destruct C as (H1 & H2 & H3 & _).
  pose proof (new_obj_ok (mkObj dt cs None false) h1 H1) as N. destruct (new_obj _ h1) as [v h2].
  destruct N as (N1 & N2 & N3); [done|]. by ok_parts.
Qed.

Lemma resize_ok a n g h :
  heap_ok h -> let '(r, h') := resize a n g h in
  heap_ok h' /\ heap_le h h' /\
  (r = Ok tt -> g = true -> (a < length (h_objs h))%nat -> (n <= length (o_values (obj_at h' a)))%nat).
Proof.
  intros Hh. pose proof (obj_at_ok h a Hh) as Ho. unfold resize.
  destruct (o_blank_base (obj_at h a)) as [base|] eqn:Eb; [|split; [done|split; [done|done]]].
  destruct Ho as [Hv Hb]. specialize (Hb base Eb).
  destruct (Nat.ltb_spec (length (o_values (obj_at h a))) n) as [Hlt|Hge].
  - pose proof (cells_ok (replicate (n - length (o_values (obj_at h a))) base) h Hh) as C.
    destruct (cells _ h) as [cs h1] eqn:Ec. destruct C as (H1 & H2 & H3 & H4); [by apply Forall_replicate|].
    edestruct (set_obj_ok a) as [S1 S2]; [exact H1| |split; [exact S1|split; [by etrans|]]].
    + split; simpl; [apply Forall_app; split; [|done]|intros b [= <-]; by eapply value_ok_mono].
      eapply Forall_impl; [exact Hv|]. intros c Hc. destruct H2. simpl in *. lia.
    + intros _ _ Ha. unfold obj_at at 1. simpl. rewrite list_lookup_insert_eq by (rewrite H4; lia).
      simpl. rewrite length_app. unfold cells in Ec. injection Ec as <- _.
      rewrite length_seq, length_replicate. lia.
  - destruct g; simpl; [split; [done|split; [done|intros; lia]]|].
    edestruct (set_obj_ok a) as [S1 S2]; [exact Hh| |split; [exact S1|split; [done|done]]].
    split; simpl; [by apply Forall_take|by intros b [= <-]].
Qed.

(** A copying routine keeps the heap well formed. *)
Definition copier (f : Value -> Heap -> option (Value * Heap)) : Prop :=
  forall v h, heap_ok h -> value_ok h v ->
    match f v h with Some (v', h') => heap_ok h' /\ heap_le h h' /\ value_ok h' v' | None => True end.

Lemma map_cells_ok f : copier f -> forall cs h, heap_ok h ->
  match map_cells f cs h with
  | Some (l, h') => heap_ok h' /\ heap_le h h' /\ Forall (fun c => c < length (h_cells h'))%nat l
  | None => True
  end.
Proof.
  intros Hf cs. induction cs as [|c cs IH]; intros h Hh; cbn [map_cells]; [by ok_parts|].
  pose proof (Hf (cell_at h c) h Hh (cell_at_ok h c Hh)) as F. destruct (f (cell_at h c) h) as [[v h1]|]; [|done].
  destruct F as (F1 & F2 & F3). cbn [mbind option_bind].
  pose proof (cells_ok [v] h1 F1 ltac:(by constructor)) as (C1 & C2 & C3 & _).
  change (snd (cells [v] h1)) with (snd (cell v h1)) in *.
  destruct (cell v h1) as [a h2] eqn:Ec. injection Ec as <- <-.
  specialize (IH _ C1). destruct (map_cells f cs _) as [[l h3]|]; [|done]. destruct IH as (I1 & I2 & I3).
  cbn. split; [done|]. split; [by etrans; [|etrans]|].
  - constructor; [|done]. destruct I2. simpl in *. rewrite length_app in *. simpl in *. lia.
Qed.

Lemma copy_obj_ok f a h :
  copier f -> heap_ok h ->
  match ('(cs, h1) ← map_cells f (o_values (obj_at h a)) h;
         Some (new_obj (mkObj (o_data_type (obj_at h a)) cs (o_blank_base (obj_at h a)) (o_is_array (obj_at h a))) h1)) with
  | Some (v', h') => heap_ok h' /\ heap_le h h' /\ value_ok h' v'
  | None => True
  end.
Proof.
  intros Hf Hh. pose proof (map_cells_ok f Hf (o_values (obj_at h a)) h Hh) as M.
  destruct (map_cells f _ h) as [[l h1]|]; [|done]. destruct M as (M1 & M2 & M3). cbn [mbind option_bind].
  pose proof (obj_at_ok h a Hh) as [_ Hb].
  pose proof (new_obj_ok (mkObj (o_data_type (obj_at h a)) l (o_blank_base (obj_at h a)) (o_is_array (obj_at h a))) h1 M1) as N.
  destruct (new_obj _ h1) as [v h2]. destruct N as (N1 & N2 & N3); [|by ok_parts].
  split; [done|]. simpl. intros b E. eapply value_ok_mono; [exact M2|]. by apply Hb.
Qed.

Lemma duplicate_ok depth : copier (duplicate depth).
Proof.
  induction depth as [|depth IH]; intros v h Hh Hv; destruct v; try (by ok_parts).
  { done. } cbn [duplicate]. by apply copy_obj_ok.
Qed.

Lemma zero_like_ok depth : copier (zero_like depth).
Proof.
  induction depth as [|depth IH]; intros v h Hh Hv;
    destruct v; try (by ok_parts); try (by ok_parts; simpl; unfold in_s; lia).
  { done. } cbn [zero_like]. by apply copy_obj_ok.
Qed.

Lemma duplicate_all_ok depth cs h :
  heap_ok h ->
  match duplicate_all depth cs h with
  | Some (vs, h') => heap_ok h' /\ heap_le h h' /\ Forall (value_ok h') vs
  | None => True
  end.
Proof.
  revert h. induction cs as [|c cs IH]; intros h Hh; cbn [duplicate_all]; [by ok_parts|].
  pose proof (duplicate_ok depth (cell_at h c) h Hh (cell_at_ok h c Hh)) as D.
  destruct (duplicate depth _ h) as [[v h1]|]; [|done]. destruct D as (D1 & D2 & D3). cbn.
  specialize (IH h1 D1). destruct (duplicate_all depth cs h1) as [[vs h2]|]; [|done]. destruct IH as (I1 & I2 & I3). cbn.
  split; [done|]. split; [by etrans|]. constructor; [by eapply value_ok_mono|done].
Qed.

Lemma obj_assign_ok depth this other h :
  heap_ok h ->
  match obj_assign depth this other h with Some h' => heap_ok h' /\ heap_le h h' | None => True end.
Proof.
  intros Hh. unfold obj_assign. pose proof (duplicate_all_ok depth (o_values (obj_at h other)) h Hh) as D.
  destruct (duplicate_all depth _ h) as [[src h1]|]; [|done]. destruct D as (D1 & D2 & D3). cbn [mbind option_bind].
  pose proof (cells_ok src h1 D1 D3) as C. destruct (cells src h1) as [cs h2]. destruct C as (C1 & C2 & C3 & _).
  edestruct (set_obj_ok this) as [S1 S2]; [exact C1| |split; [exact S1|by etrans; [|etrans]]].
  split; simpl; [done|]. apply (obj_at_ok h2 this C1).
Qed.

Lemma int_op_value `{StdLib} h a op r v :
  is_i32 a -> (forall z, r = Some z -> is_i32 z) -> int_op a op r = Ok v -> value_ok h v.
Proof.
  intros Ha Hr Hv. destruct r as [z|].
  - pose proof (int_op_i32 a op z Ha (Hr z eq_refl)) as T. rewrite Hv in T. by destruct T as (w & -> & Hw).
  - revert Hv. unfold int_op, int_unary.
    destruct (bitwise_range a a Ha Ha) as (_ & _ & _ & Hn).
    op_cases op; intros [= <-]; simpl; auto using i32_range, vbool_range.
Qed.

Lemma int_value h v : (exists b : bool, v = vbool b) -> value_ok h v.
Proof. intros [[] ->]; simpl; unfold in_s; lia. Qed.

Ltac live_result := first [exact I|apply int_value; eexists; reflexivity].

Lemma real_op_value `{StdLib} h a op r v : real_op a op r = Ok v -> value_ok h v.
Proof.
  unfold real_op, real_unary. op_cases op; try (intros [= <-]; live_result).
  destruct r as [r|]; [|done]. cbn [ok_or rbind]. unfold real_binary.
  op_cases op; try (destruct (SFeqb r f32_zero)); intros [= <-]; live_result.
Qed.

Lemma str_op_value `{StdLib} h a op r v : str_op a op r = Ok v -> value_ok h v.
Proof.
  unfold str_op. destruct (Z.eqb_spec op 0x09); [intros [= <-]; live_result|].
  destruct r as [[| |r| |]|]; try done. cbn [ok_or rbind]. unfold str_binary.
  op_cases op; intros [= <-]; live_result.
Qed.

(** An operator keeps the heap well formed and yields a live value. *)
Lemma do_operator_ok `{StdLib} depth h lhs op rhs :
  heap_ok h -> value_ok h lhs -> (forall r, rhs = Some r -> value_ok h r) ->
  match do_operator depth h lhs op rhs with
  | Some (r, h') => heap_ok h' /\ heap_le h h' /\ (forall v, r = Ok v -> value_ok h' v)
  | None => True
  end.
Proof.
  intros Hh Hl Hr.
  assert (Pure : forall r : result OpError Value, (forall v, r = Ok v -> value_ok h v) ->
    heap_ok h /\ heap_le h h /\ (forall v, r = Ok v -> value_ok h v)) by (intros; by ok_parts).
  assert (I : forall z, as_int <$> rhs = Some z -> is_i32 z).
  { intros z. destruct rhs as [r|]; [|done]. intros [= <-]. apply as_int_range. intros i ->. apply (Hr _ eq_refl). }
  assert (B : forall b : bool, value_ok h (vbool b)) by (intros b; apply int_value; eauto).
  destruct depth as [|depth]; cbn [do_operator]; (destruct (type_guard h lhs rhs) as [_|e]; [|by apply Pure]);
    (destruct lhs as [a|f|s|this|]; [by apply Pure; intros v; apply int_op_value|by apply Pure; intros v; apply real_op_value
      |by apply Pure; intros v; apply str_op_value| |by apply Pure]);
    destruct (rhs ≫= obj) as [other|]; try done;
    try (apply Pure; intros v; op_cases op; intros [= <-]; by auto).
  destruct (op =? 0x00).
  { pose proof (obj_assign_ok depth this other h Hh) as A. destruct (obj_assign depth this other h) as [h'|]; [|done].
    destruct A as [A1 A2]. cbn. ok_parts. intros v [= <-]. by eapply value_ok_mono. }
  destruct (_ || _); [|by apply Pure].
  destruct (if (_ =? _)%nat then all_eq _ _ _ _ else Some false) as [eq|]; [|done]. cbn.
  apply Pure. by intros v [= <-].
Qed.
