(* ===== verification/BhsVmSafety.v ===== *)
(** * The script virtual machine never panics

    The invariant of the machine of [BhsVm.v] (every reference names storage
    that exists, every integer is an [i32], every running script exists) and
    the proof that each instruction keeps it and cannot panic, whatever the
    bytecode is.  The machine is assumed to be given a program and a host that
    hold only live values ([prog_ok], [HostLaws]): Rust's [Rc] cannot dangle. *)

From S2P Require Import Prelude Loops BTree NetText BhsOpcode BhsDisasm BhsStd BhsValue BhsOps BhsProgram BhsVm BhsHeapSafety.

Create HintDb vmdb.

(** ** The machine's invariant *)

Definition file_valid (p : Program) (file : Z) : Prop := is_Some (get_z (files p) file).
Definition script_valid (p : Program) (file script : Z) : Prop :=
  is_Some (f ← get_z (files p) file; get_z (scripts f) script).

Definition script_ok (h : Heap) (sc : Script) : Prop :=
  Forall (fun o => forall v, o = Some v -> value_ok h v) (statics sc).
Definition sfile_ok (h : Heap) (f : ScriptFile) : Prop :=
  bytes_ok (code f) /\ Forall (value_ok h) (const_pool f) /\ Forall (script_ok h) (scripts f).
Definition prog_ok (h : Heap) (p : Program) : Prop := Forall (sfile_ok h) (files p).

Definition slot_ok (p : Program) (h : Heap) (x : Slot) : Prop :=
  match x with
  | SVal v => value_ok h v
  | SRef (BConst file _) => file_valid p file
  | SRef (BStatic file script _) => script_valid p file script
  | SRef (BLocal _ _) => True
  | SCell c => (c < length (h_cells h))%nat
  end.
Definition frame_ok (p : Program) (h : Heap) (f : Frame) : Prop :=
  script_valid p (fr_file f) (fr_script f) /\
  Forall (fun o => forall x, o = Some x -> slot_ok p h x) (locals f).

(** A static is initialised: the guard [OP_JUMP_IF_INITED] tests. *)
Definition script_inited (sc : Script) (i : Z) : Prop := exists v, get_z (statics sc) i = Some (Some v).
Definition inited (p : Program) (file script i : Z) : Prop :=
  exists sc, (f ← get_z (files p) file; get_z (scripts f) script) = Some sc /\ script_inited sc i.

(** The program keeps its files and scripts, and statics stay initialised. *)
Definition shape_le (p p' : Program) : Prop :=
  (forall file, file_valid p file -> file_valid p' file) /\
  (forall file script, script_valid p file script -> script_valid p' file script) /\
  (forall file script i, inited p file script i -> inited p' file script i).

#[export] Instance shape_le_preorder : PreOrder shape_le.
Proof. split; [done|]. intros x y z (? & ? & ?) (? & ? & ?). split; [|split]; eauto. Qed.

Lemma slot_ok_mono p p' h h' x : shape_le p p' -> heap_le h h' -> slot_ok p h x -> slot_ok p' h' x.
Proof.
  intros (? & ? & _) Hh. destruct x as [v|[]|c]; simpl; eauto using value_ok_mono. destruct Hh. lia.
Qed.
Lemma frame_ok_mono p p' h h' f : shape_le p p' -> heap_le h h' -> frame_ok p h f -> frame_ok p' h' f.
Proof.
  intros Hp Hh [Hs Hl]. split; [by apply Hp|]. eapply Forall_impl; [exact Hl|]. eauto using slot_ok_mono.
Qed.
Lemma sfile_ok_mono h h' f : heap_le h h' -> sfile_ok h f -> sfile_ok h' f.
Proof.
  intros Hh (H1 & H2 & H3). split; [done|]. split; [eapply Forall_impl; eauto using value_ok_mono|].
  eapply Forall_impl; [exact H3|]. intros sc Hs. eapply Forall_impl; [exact Hs|]. eauto using value_ok_mono.
Qed.

Record wf {H} (s : Vm H) : Prop := mk_wf {
  wf_heap : heap_ok (heap s);
  wf_prog : prog_ok (heap s) (prog s);
  wf_stack : Forall (slot_ok (prog s) (heap s)) (stack s);
  wf_frames : Forall (frame_ok (prog s) (heap s)) (frames s);
  wf_returned : forall v, returned s = Some v -> value_ok (heap s) v }.

(** The state moved on: storage grew, the program kept its shape, the run
    loop's counters are as they were, and so is the bottom frame's account of
    the stack, as long as there is a frame. *)
Definition clock {H} (s : Vm H) : Z * Z := (budget s, bytecodes_executed s).
Definition account (f : Frame) : nat * bool := (expected_stack f, void_return f).
Definition bottom (fs : list Frame) : option (nat * bool) := account <$> head fs.
Definition evolves {H} (s s' : Vm H) : Prop :=
  heap_le (heap s) (heap s') /\ shape_le (prog s) (prog s') /\ clock s' = clock s /\
  (bottom (frames s') = bottom (frames s) \/ bottom (frames s') = None).

#[export] Instance evolves_preorder {H} : PreOrder (@evolves H).
Proof.
  split; [split; [reflexivity|split; [reflexivity|by split; [|left]]]|].
  intros x y z (? & ? & E1 & B1) (? & ? & E2 & B2). split; [by etrans|]. split; [by etrans|]. split; [by rewrite E2|].
  destruct B2 as [->|]; tauto.
Qed.

Ltac still := split; [first [assumption|reflexivity]|split; [reflexivity|split; [reflexivity|by left]]].

(** Replacing a frame by one with the same account. *)
Lemma bottom_alter g i fs : (forall f, account (g f) = account f) -> bottom (alter g i fs) = bottom fs.
Proof. intros Hg. destruct fs as [|f fs], i; cbn; [done|done|by rewrite Hg|done]. Qed.

Lemma bottom_set_last f0 f fs : last fs = Some f0 -> account f = account f0 -> bottom (Vm.set_last f fs) = bottom fs.
Proof.
  unfold Vm.set_last. destruct fs as [|a [|b fs]]; intros E Hf; [done| |done]. injection E as <-. cbn. by rewrite Hf.
Qed.

(** What a host may do to the aggregates it is shown. *)
Class HostLaws (H : Type) `{Host H} (builtin : Z -> option BuiltinDecl) := {
  host_call_ok : forall i decl args hs h,
    builtin i = Some decl -> heap_ok h -> Forall (value_ok h) args ->
    match host_call decl args hs h with
    | Panic => False
    | StackOverflow => True
    | Comp (r, _, h') => heap_ok h' /\ heap_le h h' /\ (forall v, r = Ok v -> value_ok h' v)
    end }.

Section Safety.
Context {std : StdLib} {H : Type} {hst : Host H}.
Context (builtin : Z -> option BuiltinDecl) (depth : nat) {laws : HostLaws H builtin}.
Implicit Types s : Vm H.
Abbreviation M := (Vm.M (H:=H)).

(** [c] run in [s] does not panic; it keeps the invariant; and if it returns
    a value, [Q] holds.  With [live], a frame is still running after it. *)
Definition okat {A} (live : bool) (s : Vm H) (c : M A) (Q : Vm H -> A -> Prop) : Prop :=
  match c s with
  | Panic => False
  | StackOverflow => True
  | Comp (r, s') =>
      wf s' /\ evolves s s' /\ (live = true -> frames s' <> []) /\
      match r with Ok a => Q s' a | Err _ => True end
  end.

Definition ready (s : Vm H) : Prop := wf s /\ frames s <> [].

Lemma okat_weaken {A} live s (c : M A) (P Q : Vm H -> A -> Prop) :
  okat true s c P -> (forall s' a, P s' a -> Q s' a) -> okat live s c Q.
Proof.
  unfold okat. destruct (c s) as [[[a|e] s']| |]; [| |done..]; intros (? & ? & F & ?) HPQ;
    (split; [done|]; split; [done|]; split; [intros _; by apply F|]; eauto).
Qed.

Lemma okat_bind {A B} live s (c : M A) (k : A -> M B) P Q :
  okat true s c P ->
  (forall s' a, ready s' -> evolves s s' -> P s' a -> okat live s' (k a) Q) ->
  okat live s (Vm.bind c k) Q.
Proof.
  unfold okat, Vm.bind. destruct (c s) as [[[a|e] s']| |]; [| |done..].
  - intros (W & E & F & HP) Hk. specialize (Hk s' a (conj W (F eq_refl)) E HP). destruct (k a s') as [[r s2]| |]; [|done..].
    destruct Hk as (? & ? & ? & ?). split; [done|]. split; [by etrans|]. done.
  - intros (W & E & F & _) _. split; [done|]. split; [done|]. split; [|done]. intros _. by apply F.
Qed.

Lemma okat_ret {A} live s (a : A) (Q : Vm H -> A -> Prop) : ready s -> Q s a -> okat live s (Vm.ret a) Q.
Proof. intros [W F] HQ. split; [done|]. split; [reflexivity|]. done. Qed.

Lemma okat_raise {A} live s e (Q : Vm H -> A -> Prop) : ready s -> okat live s (Vm.raise e) Q.
Proof. intros [W F]. split; [done|]. split; [reflexivity|]. done. Qed.

Lemma okat_gets {A} live s (f : Vm H -> A) : ready s -> okat live s (Vm.gets f) (fun s' a => s' = s /\ a = f s).
Proof. intros [W F]. split; [done|]. split; [reflexivity|]. done. Qed.

Lemma okat_require {A} live s (o : option A) e :
  ready s -> okat live s (Vm.require o e) (fun s' a => s' = s /\ o = Some a).
Proof. intros [W F]. unfold okat, Vm.require, Vm.lift. destruct o; (split; [done|]; split; [reflexivity|]; done). Qed.

Lemma okat_unwrap {A} live s (o : option A) :
  ready s -> is_Some o -> okat live s (Vm.unwrap o) (fun s' a => s' = s /\ o = Some a).
Proof. intros R [a ->]. by apply okat_ret. Qed.

(** A change of state that keeps heap and program. *)
Lemma okat_modify live s f :
  wf (f s) -> evolves s (f s) -> (live = true -> frames (f s) <> []) ->
  okat live s (Vm.modify f) (fun s' _ => s' = f s).
Proof. intros. split; [done|]. split; [done|]. done. Qed.

Lemma okat_cur_frame live s :
  ready s -> okat live s Vm.cur_frame (fun s' f => s' = s /\ last (frames s) = Some f /\ frame_ok (prog s) (heap s) f).
Proof.
  intros [W F]. unfold okat, Vm.cur_frame. destruct (last (frames s)) as [f|] eqn:E.
  - split; [done|]. split; [reflexivity|]. split; [done|]. split; [done|]. split; [done|].
    apply last_Some_elem_of in E. eapply Forall_forall in E; [exact E|apply W].
  - by apply last_None in E.
Qed.

Lemma set_last_nonempty f fs : Vm.set_last f fs <> [].
Proof. unfold Vm.set_last. intros E%app_nil. by destruct E. Qed.

Lemma okat_set_cur live s f0 f :
  ready s -> last (frames s) = Some f0 -> account f = account f0 -> frame_ok (prog s) (heap s) f ->
  okat live s (Vm.set_cur f) (fun s' _ => heap s' = heap s /\ prog s' = prog s /\ stack s' = stack s).
Proof.
  intros [W F] El Ea Hf. unfold okat, Vm.set_cur, Vm.modify. destruct W.
  split; [|split; [split; [reflexivity|split; [reflexivity|split; [done|left; by eapply bottom_set_last]]]|split; [intros _; apply set_last_nonempty|done]]].
  split; simpl; try done. unfold Vm.set_last. apply Forall_app. split; [by apply Forall_take|by constructor].
Qed.

Lemma okat_file_at live s file :
  ready s -> file_valid (prog s) file ->
  okat live s (Vm.file_at file) (fun s' sf => s' = s /\ get_z (files (prog s)) file = Some sf /\ sfile_ok (heap s) sf).
Proof.
  intros [W F] [sf E]. unfold okat, Vm.file_at. rewrite E. split; [done|]. split; [reflexivity|]. split; [done|].
  split; [done|]. split; [done|]. apply get_z_Some in E as [_ E]. eapply Forall_lookup_1; [apply W|exact E].
Qed.

Lemma script_file_valid p file script : script_valid p file script -> file_valid p file.
Proof. unfold script_valid, file_valid. destruct (get_z (files p) file); [by eexists|by intros [? [=]]]. Qed.

Lemma okat_script_at live s file script :
  ready s -> script_valid (prog s) file script ->
  okat live s (Vm.script_at file script) (fun s' sc => s' = s /\ script_ok (heap s) sc /\
    (f ← get_z (files (prog s)) file; get_z (scripts f) script) = Some sc).
Proof.
  intros R V. eapply okat_bind; [apply okat_file_at; [done|by eapply script_file_valid]|].
  intros s' sf R' _ (-> & E & Ok). unfold script_valid in V. rewrite E in V. cbn in V.
  eapply okat_weaken; [by apply okat_unwrap|]. cbn. intros s' sc [-> Es]. split; [done|].
  rewrite E. cbn. split; [|done]. apply get_z_Some in Es as [_ Es]. eapply Forall_lookup_1; [apply Ok|exact Es].
Qed.

(** Replacing a script keeps the shape of the program. *)
Lemma get_z_update {A} i (f : A -> A) l j :
  get_z (update_z i f l) j = (if i =? j then f else id) <$> get_z l j.
Proof.
  unfold update_z. destruct (get_z l i) as [x|] eqn:E.
  - apply get_z_Some in E as [H0 E]. apply option_eq. intros y. rewrite fmap_Some. setoid_rewrite get_z_Some.
    destruct (Z.eqb_spec i j) as [<-|Hne].
    + rewrite list_lookup_insert_eq by (by eapply lookup_lt_Some). split.
      * intros [_ [= <-]]. by exists x.
      * intros (z & [_ Hz] & ->). by simplify_eq.
    + split.
      * intros [Hj Hy]. rewrite list_lookup_insert_ne in Hy by lia. by exists y.
      * intros (z & [Hj Hz] & ->). rewrite list_lookup_insert_ne by lia. done.
  - destruct (Z.eqb_spec i j) as [<-|_]; [by rewrite E|]. by destruct (get_z l j).
Qed.

Lemma Forall_update_z {A} (P : A -> Prop) i f l :
  Forall P l -> (forall x, get_z l i = Some x -> P x -> P (f x)) -> Forall P (update_z i f l).
Proof.
  intros Hl Hf. unfold update_z. destruct (get_z l i) as [x|] eqn:E; [|done]. apply Forall_insert; [done|].
  apply Hf; [done|]. apply get_z_Some in E as [_ E]. by eapply Forall_lookup_1.
Qed.

(** A change of one script that keeps its statics live and initialised. *)
Definition script_update (h : Heap) (p : Program) (file script : Z) (g : Script -> Script) : Prop :=
  forall sc, (f ← get_z (files p) file; get_z (scripts f) script) = Some sc ->
    (script_ok h sc -> script_ok h (g sc)) /\ (forall i, script_inited sc i -> script_inited (g sc) i).

Lemma update_shape h file script g p :
  script_update h p file script g ->
  shape_le p (set_files (update_z file (fun f => set_scripts (update_z script g (scripts f)) f) (files p)) p).
Proof.
  intros Hg. unfold script_update in Hg.
  split; [intros f|split; [intros f sc|intros f sc i]]; unfold file_valid, script_valid, inited; cbn [files set_files];
    rewrite get_z_update; (destruct (get_z (files p) f) as [sf|] eqn:Ef; [cbn|try done]).
  - by eexists.
  - destruct (file =? f); [|done]. cbn [scripts set_scripts]. rewrite get_z_update. intros [x ->]. by eexists.
  - destruct (Z.eqb_spec file f) as [->|]; [|done]. cbn [scripts set_scripts]. rewrite get_z_update. intros (x & Ex & Hi).
    rewrite Ex. eexists. split; [done|]. destruct (Z.eqb_spec script sc) as [->|]; [|done].
    apply Hg; [|done]. rewrite Ef. done.
Qed.

Lemma okat_update_script live s file script g :
  ready s -> script_update (heap s) (prog s) file script g ->
  okat live s (Vm.update_script file script g) (fun s' _ => heap s' = heap s).
Proof.
  intros [W F] Hg. pose proof (update_shape _ _ _ _ _ Hg) as Hshape. unfold Vm.update_script.
  eapply okat_weaken; [apply okat_modify|by intros s' [] ->].
  - destruct W. split; simpl; try done.
    + apply Forall_update_z; [done|]. intros sf Ef (A & B & C). split; [done|]. split; [done|].
      cbn [scripts set_scripts]. apply Forall_update_z; [done|]. intros sc Es Hs. apply Hg; [|done]. by rewrite Ef.
    + eapply Forall_impl; [done|]. intros x. by apply slot_ok_mono.
    + eapply Forall_impl; [done|]. intros x. by apply frame_ok_mono.
  - split; [reflexivity|]. split; [exact Hshape|by split; [|left]].
  - done.
Qed.

Lemma okat_get_bip live s : ready s -> okat live s Vm.get_bip (fun s' _ => s' = s).
Proof.
  intros R. eapply okat_bind; [by apply okat_cur_frame|]. intros s' f R' _ (-> & _ & _). by apply okat_ret.
Qed.

Lemma okat_set_bip live s z :
  ready s -> okat live s (Vm.set_bip z) (fun s' _ => heap s' = heap s /\ prog s' = prog s /\ stack s' = stack s).
Proof.
  intros R. eapply okat_bind; [by apply okat_cur_frame|]. intros s' f R' _ (-> & El & Hf). by eapply okat_set_cur.
Qed.

Lemma okat_peek_u32 live s at_ : ready s -> okat live s (Vm.peek_u32 at_) (fun s' v => s' = s /\ is_u32 v).
Proof.
  intros R. eapply okat_bind; [by apply okat_cur_frame|]. intros s' f R' _ (-> & _ & Hf).
  eapply okat_bind; [apply okat_file_at; [done|eapply script_file_valid, Hf]|]. intros s' sf _ _ (-> & _ & Hs).
  eapply okat_weaken; [by apply okat_require|]. cbn. intros s' v [-> E]. split; [done|].
  unfold Vm.code_u32 in E. destruct (_ && _); [|done]. injection E as <-. apply (le_at_ok 4), Hs.
Qed.

Lemma okat_fetch_u32 live s :
  ready s -> okat live s Vm.fetch_u32 (fun s' v => is_u32 v /\ heap s' = heap s /\ prog s' = prog s /\ stack s' = stack s).
Proof.
  intros R. eapply okat_bind; [by apply okat_get_bip|]. intros s' b _ _ ->.
  eapply okat_bind; [by apply okat_peek_u32|]. intros s' v _ _ [-> Hv].
  eapply okat_bind; [by apply okat_set_bip|]. intros s' [] R' _ E. by apply okat_ret.
Qed.

Lemma okat_fetch_u8 live s : ready s -> okat live s Vm.fetch_u8 (fun s' _ => True).
Proof.
  intros R. eapply okat_bind; [by apply okat_cur_frame|]. intros s' f R' _ (-> & El & Hf).
  eapply okat_bind; [apply okat_file_at; [done|eapply script_file_valid, Hf]|]. intros s' sf _ _ (-> & _ & Hs).
  eapply okat_bind; [by apply okat_require|]. intros s' v _ _ [-> _].
  eapply okat_bind; [by eapply okat_set_cur|]. intros s' [] R2 _ _. by apply okat_ret.
Qed.

Lemma okat_peek_op live s : ready s -> okat live s Vm.peek_op (fun s' _ => s' = s).
Proof.
  intros R. eapply okat_bind; [by apply okat_cur_frame|]. intros s' f R' _ (-> & _ & Hf).
  eapply okat_bind; [apply okat_file_at; [done|eapply script_file_valid, Hf]|]. intros s' sf _ _ (-> & _ & Hs).
  by apply okat_ret.
Qed.

(** ** Storage *)

Definition vok s (v : Value) : Prop := value_ok (heap s) v.
Definition sok s (x : Slot) : Prop := slot_ok (prog s) (heap s) x.

Lemma vok_ev s s' v : evolves s s' -> vok s v -> vok s' v.
Proof. intros [? _]. by apply value_ok_mono. Qed.
Lemma sok_ev s s' x : evolves s s' -> sok s x -> sok s' x.
Proof. intros (? & ? & _). by apply slot_ok_mono. Qed.

Lemma okat_bind_ref live s r : ready s -> okat live s (Vm.bind_ref r) (fun s' b => s' = s /\ sok s (SRef b)).
Proof.
  intros R. eapply okat_bind; [by apply okat_cur_frame|]. intros s' f _ _ (-> & _ & Hf). destruct r as [i|i|i].
  - eapply okat_bind; [apply okat_file_at; [done|eapply script_file_valid, Hf]|]. intros s' sf _ _ (-> & _ & Hs).
    eapply okat_bind; [by apply okat_require|]. intros s' v _ _ [-> _]. apply okat_ret; [done|].
    split; [done|]. eapply script_file_valid, Hf.
  - eapply okat_bind; [apply okat_script_at; [done|apply Hf]|]. intros s' sc _ _ (-> & Hs).
    eapply okat_bind; [by apply okat_require|]. intros s' v _ _ [-> _]. apply okat_ret; [done|]. split; [done|]. apply Hf.
  - eapply okat_bind; [by apply okat_require|]. intros s' v _ _ [-> _].
    eapply okat_bind; [by apply okat_gets|]. intros s' n _ _ [-> _]. by apply okat_ret.
Qed.

Lemma local_at_ok s frame i x : wf s -> Vm.local_at (frames s) frame i = Some x -> sok s x.
Proof.
  intros W. unfold Vm.local_at. destruct (frames s !! frame) as [f|] eqn:Ef; [|done]. cbn.
  destruct (get_z (locals f) i) as [o|] eqn:Eo; [|done]. cbn. intros ->.
  destruct W as [_ _ _ Wf _]. eapply Forall_lookup_1 in Wf as [_ Wl]; [|exact Ef].
  apply get_z_Some in Eo as [_ Eo]. eapply Forall_lookup_1 in Wl; [|exact Eo]. by apply Wl.
Qed.

Lemma deref_in_ok fuel s x :
  wf s -> sok s x ->
  match Vm.deref_in fuel s x with Panic => False | StackOverflow => True | Comp r => forall v, r = Ok v -> vok s v end.
Proof.
  intros W. revert x. induction fuel as [|fuel IH]; intros x Hx;
    (destruct x as [v|[file i|file script i|frame i]|c]; cbn [Vm.deref_in];
     [by intros ? [= <-]
     |destruct Hx as [sf E]; rewrite E; intros v; destruct (get_z (const_pool sf) i) as [w|] eqn:Ew; [|done];
        intros [= <-]; apply get_z_Some in E as [_ E]; apply get_z_Some in Ew as [_ Ew];
        destruct W as [_ Wp _ _ _]; eapply Forall_lookup_1 in Wp as (_ & Wc & _); [|exact E]; by eapply Forall_lookup_1 in Wc
     |destruct Hx as [sc E]; rewrite E; intros v; destruct (get_z (statics sc) i) as [w|] eqn:Ew; [|done];
        intros [= <-]; destruct (get_z (files (prog s)) file) as [sf|] eqn:Es; [|done]; cbn in E;
        apply get_z_Some in Es as [_ Es]; apply get_z_Some in E as [_ E]; apply get_z_Some in Ew as [_ Ew];
        destruct W as [_ Wp _ _ _]; eapply Forall_lookup_1 in Wp as (_ & _ & Wc); [|exact Es];
        eapply Forall_lookup_1 in Wc; [|exact E]; eapply Forall_lookup_1 in Wc; [|exact Ew];
        destruct w; [by apply Wc|exact I]
     |destruct (Vm.local_at (frames s) frame i) as [y|] eqn:Ey; [|done]; try done
     |intros v [= <-]; by apply cell_at_ok, W]).
  apply IH. by eapply local_at_ok.
Qed.

Lemma okat_deref live s x : ready s -> sok s x -> okat live s (Vm.deref depth x) (fun s' v => s' = s /\ vok s v).
Proof.
  intros [W F] Hx. unfold okat, Vm.deref. pose proof (deref_in_ok depth s x W Hx) as D.
  destruct (Vm.deref_in depth s x) as [r| |]; [|done..]. split; [done|]. split; [reflexivity|]. split; [done|].
  destruct r; [|done]. split; [done|]. by apply D.
Qed.

Lemma okat_push live s x :
  ready s -> sok s x -> okat live s (Vm.push x) (fun s' _ => heap s' = heap s /\ prog s' = prog s).
Proof.
  intros [W F] Hx. eapply okat_weaken; [apply okat_modify|by intros s' [] ->]; [|still|done].
  destruct W. split; simpl; try done. by constructor.
Qed.

Lemma okat_pop live s : ready s -> okat live s Vm.pop (fun s' x => heap s' = heap s /\ prog s' = prog s /\ sok s' x).
Proof.
  intros [W F]. unfold okat, Vm.pop. destruct (stack s) as [|x st] eqn:E.
  - split; [done|]. split; [reflexivity|]. done.
  - destruct W as [W1 W2 W3 W4 W5]. rewrite E in W3. apply Forall_cons in W3 as [Wx Wst].
    split; [by split|]. split; [still|]. done.
Qed.

Lemma okat_pop_value live s : ready s -> okat live s (Vm.pop_value depth) (fun s' v => vok s' v).
Proof.
  intros R. eapply okat_bind; [by apply okat_pop|]. intros s' x R' _ (_ & _ & Hx).
  eapply okat_weaken; [by apply okat_deref|]. by intros s2 v [-> Hv].
Qed.

Lemma okat_peek_value live s : ready s -> okat live s (Vm.peek_value depth) (fun s' v => s' = s /\ vok s v).
Proof.
  intros R. eapply okat_bind; [by apply okat_gets|]. intros s' st _ _ [-> ->].
  eapply okat_bind; [by apply okat_require|]. intros s' x _ _ [-> Hx]. apply okat_deref; [done|].
  destruct R as [[_ _ Ws _ _] _]. destruct (stack s) as [|y st]; [done|]. injection Hx as ->.
  by apply Forall_cons in Ws as [? _].
Qed.

Lemma okat_update_sidecar live s file script g :
  ready s -> okat live s (Vm.update_sidecar file script g) (fun s' _ => heap s' = heap s).
Proof.
  intros [W F]. assert (L : forall m, shape_le (prog s) (put_walk_meta m (prog s))) by (split; [|split]; by intros).
  eapply okat_weaken; [apply okat_modify|by intros s' [] ->]; [|split; [reflexivity|split; [apply L|by split; [|left]]]|done].
  destruct W. split; simpl; try done.
Qed.

Lemma Forall_grow_insert {A} (P : A -> Prop) i n (x : A) l :
  Forall (fun o => forall y, o = Some y -> P y) l -> P x ->
  Forall (fun o => forall y, o = Some y -> P y) (<[i := Some x]> (grow_to n l)).
Proof.
  intros Hl Hx. apply Forall_insert; [|by intros y [= <-]].
  apply Forall_app. split; [done|]. by apply Forall_replicate.
Qed.

(** Writing a value leaves every initialised static initialised. *)
Lemma inited_insert sc i j v : script_inited sc j -> script_inited (set_statics (<[i := Some v]> (statics sc)) sc) j.
Proof.
  intros [w E]. apply get_z_Some in E as [Hj E]. unfold script_inited. cbn [statics set_statics].
  destruct (decide (i = Z.to_nat j)) as [->|Hne]; [exists v|exists w]; apply get_z_Some; (split; [done|]).
  - apply list_lookup_insert_eq. by eapply lookup_lt_Some.
  - by rewrite list_lookup_insert_ne.
Qed.
Lemma inited_grow_insert sc i n j v :
  script_inited sc j -> script_inited (set_statics (<[i := Some v]> (grow_to n (statics sc))) sc) j.
Proof.
  intros Hj. assert (Hg : script_inited (set_statics (grow_to n (statics sc)) sc) j); [|exact (inited_insert _ i j v Hg)].
  destruct Hj as [w E]. exists w. apply get_z_Some in E as [Hj E]. apply get_z_Some. split; [done|].
  cbn [statics set_statics]. unfold grow_to. by apply lookup_app_l_Some.
Qed.

Lemma okat_set_slot live s r x meta :
  ready s -> sok s x -> okat live s (Vm.set_slot depth r x meta) (fun s' _ => True).
Proof.
  intros R Hx. eapply okat_bind; [by apply okat_cur_frame|]. intros s' f _ _ (-> & El & Hf). destruct r as [i|i|i].
  - by apply okat_raise.
  - eapply okat_bind; [by apply okat_deref|]. intros s' v _ _ [-> Hv].
    eapply okat_bind; [apply okat_script_at; [done|apply Hf]|]. intros s' sc _ _ (-> & _).
    eapply okat_bind; [apply okat_update_script; [done|]|].
    + intros sc' _. split; [intros Hs; by apply Forall_grow_insert|intros j; by apply inited_grow_insert].
    + intros s' [] R' _ _. eapply okat_weaken; [by apply okat_update_sidecar|done].
  - eapply okat_weaken; [eapply okat_set_cur; [done..|]|done]. destruct Hf as [H1 H2]. split; [done|].
    by apply (Forall_grow_insert (slot_ok (prog s) (heap s))).
Qed.

Lemma okat_store_static live s file script i v :
  ready s -> script_valid (prog s) file script -> vok s v ->
  okat live s (Vm.store_static file script i v) (fun s' _ => True).
Proof.
  intros R Hs Hv. eapply okat_bind; [by apply okat_script_at|]. intros s' sc _ _ (-> & _).
  eapply okat_bind; [by apply okat_require|]. intros s' o _ _ [-> _].
  eapply okat_bind; [apply okat_update_script; [done|]|].
  - intros sc' _. split; [|intros j; by apply inited_insert]. intros Hs'. unfold script_ok. cbn [statics set_statics]. apply Forall_insert; [done|by intros y [= <-]].
  - intros s' [] R' _ _. eapply okat_weaken; [by apply okat_update_sidecar|done].
Qed.

(** A well-formed heap in place of the old one. *)
Lemma wf_set_heap s h : wf s -> heap_ok h -> heap_le (heap s) h -> wf (Vm.set_heap h s).
Proof.
  intros [W1 W2 W3 W4 W5] Hh Hle. split; simpl; [done| | | |].
  - eapply Forall_impl; [exact W2|]. intros f. by apply sfile_ok_mono.
  - eapply Forall_impl; [exact W3|]. intros x. by apply slot_ok_mono.
  - eapply Forall_impl; [exact W4|]. intros f. by apply frame_ok_mono.
  - intros v E. eapply value_ok_mono; [exact Hle|]. by apply W5.
Qed.

Lemma okat_store_local live s frame i v :
  ready s -> vok s v ->
  okat live s (Vm.modify (fun s => Vm.set_frames (alter (fun f =>
    mkFrame (fr_file f) (fr_script f) (bip f) (<[Z.to_nat i := Some (SVal v)]> (locals f))
      (expected_stack f) (void_return f)) frame (frames s)) s)) (fun s' _ => True).
Proof.
  intros [W F] Hv. eapply okat_weaken; [apply okat_modify|done]; [|split; [reflexivity|split; [reflexivity|split; [done|left; by apply bottom_alter]]]|].
  - destruct W. split; simpl; try done. apply Forall_alter; [done|]. intros f _ [H1 H2]. split; [done|].
    apply Forall_insert; [done|by intros x [= <-]].
  - intros _. simpl. intros E. apply (f_equal length) in E. rewrite length_alter in E. by destruct (frames s).
Qed.

Lemma okat_store_cell live s c v :
  ready s -> vok s v ->
  okat live s (Vm.modify (fun s => Vm.set_heap (set_cell c v (heap s)) s)) (fun s' _ => True).
Proof.
  intros [W F] Hv. edestruct (set_cell_ok c v (heap s)) as [S1 S2]; [apply W|done|].
  eapply okat_weaken; [apply okat_modify|done]; [by apply wf_set_heap|still|done].
Qed.

Lemma okat_store_in fuel s x v :
  ready s -> sok s x -> vok s v -> okat true s (Vm.store_in fuel x v) (fun s' _ => True).
Proof.
  intros R. revert x. induction fuel as [|fuel IH]; intros x Hx Hv;
    (destruct x as [w|[file i|file script i|frame i]|c]; cbn [Vm.store_in];
     [by apply okat_ret|by apply okat_raise|by apply okat_store_static
     |unfold okat; destruct (Vm.local_at (frames s) frame i) as [y|] eqn:Ey; [|by apply okat_raise]
     |]).
  2, 4: by apply okat_store_cell.
  - destruct y; [by apply okat_store_local|done..].
  - destruct y; [by apply okat_store_local|..]; apply IH; try done; eapply local_at_ok; eauto; apply R.
Qed.

(** ** Routines on the heap, diagnostics and frames *)

Definition fine {A} : Vm H -> A -> Prop := fun _ _ => True.

Lemma okat_alloc {A} live s (f : Heap -> option (A * Heap)) (P : Heap -> A -> Prop) :
  ready s ->
  match f (heap s) with Some (a, h) => heap_ok h /\ heap_le (heap s) h /\ P h a | None => True end ->
  okat live s (Vm.alloc f) (fun s' a => P (heap s') a).
Proof.
  intros [W F] Hf. unfold okat, Vm.alloc. destruct (f (heap s)) as [[a h]|]; [|done]. destruct Hf as (H1 & H2 & H3).
  split; [by apply wf_set_heap|]. split; [still|]. done.
Qed.

Lemma okat_duplicate live s v : ready s -> vok s v -> okat live s (Vm.alloc (duplicate depth v)) vok.
Proof. intros R Hv. apply (okat_alloc live s _ value_ok R). by apply duplicate_ok; [apply R|]. Qed.

Lemma okat_zero_like live s v : ready s -> vok s v -> okat live s (Vm.alloc (zero_like depth v)) vok.
Proof. intros R Hv. apply (okat_alloc live s _ value_ok R). by apply zero_like_ok; [apply R|]. Qed.

Lemma okat_array live s t base n :
  ready s -> vok s base -> okat live s (Vm.alloc (fun h => Some (array t base n h))) vok.
Proof. intros R Hv. apply (okat_alloc live s _ value_ok R). apply array_ok; [apply R|done]. Qed.

Lemma okat_strukt live s t vs :
  ready s -> Forall (vok s) vs -> okat live s (Vm.alloc (fun h => Some (strukt t vs h))) vok.
Proof. intros R Hv. apply (okat_alloc live s _ value_ok R). apply strukt_ok; [apply R|done]. Qed.

Lemma okat_array_of live s t vs base :
  ready s -> Forall (vok s) vs -> vok s base ->
  okat live s (Vm.alloc (fun h => let '(cs, h) := cells vs h in Some (new_obj (mkObj t cs (Some base) true) h))) vok.
Proof.
  intros R Hv Hb. apply (okat_alloc live s _ value_ok R). destruct R as [[W _ _ _ _] _].
  pose proof (cells_ok vs (heap s) W Hv) as C. destruct (cells vs (heap s)) as [cs h1]. destruct C as (H1 & H2 & H3 & _).
  pose proof (new_obj_ok (mkObj t cs (Some base) true) h1 H1) as N. destruct (new_obj _ h1) as [v h2].
  destruct N as (N1 & N2 & N3); [|by ok_parts]. split; [done|]. simpl. intros b [= <-]. by eapply value_ok_mono.
Qed.

Lemma okat_resize live s a n g :
  ready s -> vok s (VObj a) ->
  okat live s (Vm.alloc (fun h => Some (resize a n g h)))
    (fun s' r => r = Ok tt -> g = true -> (n <= length (o_values (obj_at (heap s') a)))%nat).
Proof.
  intros R Ha.
  apply (okat_alloc live s _ (fun h r => r = Ok tt -> g = true -> (n <= length (o_values (obj_at h a)))%nat) R).
  pose proof (resize_ok a n g (heap s)) as Z. destruct (resize a n g (heap s)) as [r h].
  destruct Z as (H1 & H2 & H3); [apply R|]. split; [done|]. split; [done|]. intros E1 E2. by apply H3.
Qed.

Lemma okat_operate live s lhs op rhs :
  ready s -> vok s lhs -> (forall r, rhs = Some r -> vok s r) ->
  okat live s (Vm.operate depth lhs op rhs) (fun s' r => forall v, r = Ok v -> vok s' v).
Proof.
  intros [W F] Hl Hr. unfold okat, Vm.operate. pose proof (do_operator_ok depth (heap s) lhs op rhs) as D.
  destruct (do_operator depth (heap s) lhs op rhs) as [[r h]|]; [|done].
  destruct D as (D1 & D2 & D3); [apply W|done|done|].
  split; [by apply wf_set_heap|]. split; [still|]. done.
Qed.

(** A change of counters only. *)
Lemma okat_counters live s f :
  ready s -> heap (f s) = heap s -> prog (f s) = prog s -> stack (f s) = stack s -> frames (f s) = frames s ->
  returned (f s) = returned s -> clock (f s) = clock s ->
  okat live s (Vm.modify f) (fun s' _ => heap s' = heap s /\ prog s' = prog s).
Proof.
  intros [[W1 W2 W3 W4 W5] F] E1 E2 E3 E4 E5 E6. eapply okat_weaken; [apply okat_modify|by intros s' [] ->].
  - split; by rewrite ?E1, ?E2, ?E3, ?E4, ?E5.
  - unfold evolves. rewrite E1, E2, E4, E6. still.
  - by rewrite E4.
Qed.

Lemma okat_rte live s m here op : ready s -> okat live s (Vm.rte m here op) fine.
Proof.
  intros [W F]. split; [|split; [still|done]]. destruct W. by split.
Qed.
Lemma okat_rte_op live s e here op : ready s -> okat live s (Vm.rte_op e here op) fine.
Proof. intros R. by apply (okat_rte live s). Qed.
Lemma okat_continue live s : ready s -> okat live s Vm.continue fine.
Proof. intros R. by apply okat_ret. Qed.

Lemma wf_ext (s s' : Vm H) :
  wf s -> heap s' = heap s -> prog s' = prog s -> stack s' = stack s -> returned s' = returned s ->
  Forall (frame_ok (prog s) (heap s)) (frames s') -> wf s'.
Proof. intros [W1 W2 W3 W4 W5] E1 E2 E3 E4 E5. split; by rewrite ?E1, ?E2, ?E3, ?E4. Qed.

(** [push_frame] checks its arguments, then adds a frame whose account is the
    stack after the call. *)
Lemma push_frame_wf s file script :
  wf s ->
  exists r s', Vm.push_frame file script s = Comp (r, s') /\ wf s' /\ heap s' = heap s /\ prog s' = prog s /\
    clock s' = clock s /\ stack s' = stack s /\
    match r with
    | Err _ => frames s' = frames s
    | Ok _ => exists sc f, (sf ← get_z (files (prog s)) file; get_z (scripts sf) script) = Some sc /\
        frames s' = frames s ++ [f] /\ void_return f = (return_type sc =? tag TVoid) /\
        (arity sc <= length (stack s))%nat /\
        (length (stack s) + (if void_return f then 0 else 1) = expected_stack f + arity sc)%nat
    end.
Proof.
  intros W. unfold Vm.push_frame, Vm.bind, Vm.gets, Vm.require, Vm.lift. cbn [id].
  destruct (get_z (files (prog s)) file) as [sf|] eqn:Ef; [|by eexists _, _]. cbn [ok_or].
  destruct (get_z (scripts sf) script) as [sc|] eqn:Es; [|by eexists _, _]. cbn [ok_or].
  destruct (Nat.ltb_spec (length (stack s)) (arity sc)); [by eexists _, _|]. eexists _, _. split; [reflexivity|].
  split; [|do 4 (split; [done|])].
  - apply (wf_ext s); try done. simpl. apply Forall_app. split; [apply W|]. constructor; [|done].
    split; [|constructor]. simpl. unfold script_valid. rewrite Ef. cbn. by rewrite Es.
  - eexists sc, _. cbn [mbind option_bind]. do 3 (split; [done|]). split; [lia|]. cbn. destruct (_ =? _); lia.
Qed.

Lemma bottom_app fs f : fs <> [] -> bottom (fs ++ [f]) = bottom fs.
Proof. by destruct fs. Qed.

Lemma okat_push_frame live s file script : ready s -> okat live s (Vm.push_frame file script) fine.
Proof.
  intros [W F]. unfold okat. destruct (push_frame_wf s file script W) as (r & s' & -> & W' & Eh & Ep & Ec & _ & Ef).
  assert (B : bottom (frames s') = bottom (frames s) /\ frames s' <> []).
  { destruct r; [destruct Ef as (? & f & _ & -> & _)|by rewrite Ef]. split; [by apply bottom_app|]. by destruct (frames s). }
  split; [done|]. split; [|by split; [intros _; apply B|destruct r]].
  unfold evolves. rewrite Eh, Ep. split; [reflexivity|]. split; [reflexivity|]. split; [done|]. left. apply B.
Qed.

(** ** Instructions *)

Lemma Forall_vok_ev s s' vs : evolves s s' -> Forall (vok s) vs -> Forall (vok s') vs.
Proof. intros E V. eapply Forall_impl; [exact V|]. intros v. by apply vok_ev. Qed.

Lemma some_vok s v : vok s v -> forall r, Some v = Some r -> vok s r.
Proof. by intros ? ? [= <-]. Qed.
Lemma none_vok s : forall r, None = Some r -> vok s r.
Proof. done. Qed.

Lemma vok_int s z : is_i32 z -> sok s (SVal (VInt z)).
Proof. done. Qed.
Lemma as_int_vok s v : vok s v -> is_i32 (as_int v).
Proof. intros Hv. apply as_int_range. by intros i ->. Qed.

Hint Resolve some_vok none_vok vok_int i32_range vbool_range as_int_vok : core.

(** Facts about live values hold in the states after. *)
Ltac carry E :=
  repeat match type of E with
  | evolves ?s ?s' => match goal with
    | V : vok s _ |- _ => apply (vok_ev _ _ _ E) in V
    | V : sok s _ |- _ => apply (sok_ev _ _ _ E) in V
    | V : Forall (vok s) _ |- _ => apply (Forall_vok_ev _ _ _ E) in V
    end
  end.

(** One operation of a handler: its lemma, then the facts it leaves. *)
Ltac run L :=
  eapply okat_bind; [eapply L; eauto|];
  let s' := fresh "s" in let x := fresh "x" in let R := fresh "R" in let E := fresh "E" in let P := fresh "P" in
  intros s' x R E P; cbn beta in P; carry E;
  repeat match type of P with
  | _ /\ _ => let P1 := fresh "P" in destruct P as [P1 P]; try subst s'
  end; try subst s'; try subst x; cbv zeta.
Ltac fin := try (by apply okat_continue); try (by apply okat_rte); try (by apply okat_rte_op); try (by apply okat_raise).

(** The result of an operator: a live value, or a diagnostic. *)
Ltac outcome :=
  match goal with r : result OpError Value |- _ => destruct r as [?|?]; [|by fin] end;
  match goal with P : forall w, Ok ?v = Ok w -> _ |- _ => specialize (P v eq_refl) end.

Lemma okat_op_push live s : ready s -> okat live s (Vm.op_push depth) fine.
Proof. intros R. run okat_fetch_u32. run okat_bind_ref. run okat_deref. run okat_push. fin. Qed.

Lemma okat_op_assign live s here op : ready s -> okat live s (Vm.op_assign depth here op) fine.
Proof.
  intros R. run okat_pop. run okat_pop_value. run okat_deref. run okat_operate. outcome.
 unfold Vm.store. run okat_store_in. run okat_push. fin.
Qed.

Lemma okat_op_binary live s here op : ready s -> okat live s (Vm.op_binary depth here op) fine.
Proof. intros R. run okat_pop_value. run okat_pop_value. run okat_operate. outcome. run okat_push. fin. Qed.

Lemma okat_op_unary live s here op : ready s -> okat live s (Vm.op_unary depth here op) fine.
Proof. intros R. run okat_pop_value. run okat_operate. outcome. run okat_push. fin. Qed.

Lemma okat_op_step_var live s post here op : ready s -> okat live s (Vm.op_step_var depth post here op) fine.
Proof.
  intros R. run okat_pop. run okat_deref. run okat_operate. outcome.
  unfold Vm.store. run okat_store_in. run okat_peek_op. eapply (okat_bind _ _ _ _ fine); [|by intros; fin].
  destruct (bool_decide _).
  - run okat_get_bip. eapply okat_weaken; [by apply okat_set_bip|done].
  - eapply okat_weaken; [apply okat_push; [done|]|done]. by destruct post.
Qed.

Lemma okat_op_init_copy live s : ready s -> okat live s (Vm.op_init_copy depth) fine.
Proof. intros R. run okat_pop_value. run okat_duplicate. run okat_fetch_u32. run okat_set_slot. fin. Qed.

Lemma okat_op_init live s : ready s -> okat live s (Vm.op_init depth) fine.
Proof. intros R. run okat_pop. run okat_fetch_u32. run okat_set_slot. fin. Qed.

Lemma okat_op_cast_bool live s : ready s -> okat live s (Vm.op_cast_bool depth) fine.
Proof. intros R. run okat_pop_value. run okat_push. fin. Qed.

Lemma okat_op_cast live s : ready s -> okat live s (Vm.op_cast depth) fine.
Proof.
  intros R. run okat_pop_value. run okat_fetch_u32. eapply (okat_bind _ _ _ _ vok).
  - destruct (from_tag _) as [[]|]; try (apply okat_ret; [done|]; try done; by eapply as_int_vok).
    destruct (as_string x); [by apply okat_ret|by apply okat_raise].
  - intros s2 v R2 _ Hv. run okat_push. fin.
Qed.

Lemma zero_of_vok s t : sok s (SVal (zero_of t)).
Proof. unfold zero_of. destruct (from_tag t) as [[]|]; simpl; unfold in_s; try lia; done. Qed.

Lemma okat_op_create_simple live s : ready s -> okat live s Vm.op_create_simple fine.
Proof. intros R. run okat_fetch_u32. pose proof (zero_of_vok s0 x). run okat_push. fin. Qed.

Lemma okat_op_create_array live s : ready s -> okat live s (Vm.op_create_array depth) fine.
Proof. intros R. run okat_pop_value. run okat_fetch_u32. run okat_array. run okat_push. fin. Qed.

Lemma okat_op_create_array_dyn live s here op : ready s -> okat live s (Vm.op_create_array_dyn depth here op) fine.
Proof.
  intros R. run okat_pop_value. run okat_pop_value. run okat_fetch_u32. destruct (_ <? 0); [fin|].
  run okat_array. run okat_push. fin.
Qed.

Lemma okat_pop_duplicates live s n :
  ready s -> okat live s (Vm.pop_duplicates depth n) (fun s' vs => Forall (vok s') vs).
Proof.
  revert live s. induction n as [|n IH]; intros live s R; cbn [Vm.pop_duplicates]; [by apply okat_ret|].
  run okat_pop_value. run okat_duplicate. run IH. apply okat_ret; [done|]. by constructor.
Qed.

Lemma okat_op_create_struct live s : ready s -> okat live s (Vm.op_create_struct depth) fine.
Proof. intros R. run okat_fetch_u32. run okat_fetch_u32. run okat_pop_duplicates. run okat_strukt. run okat_push. fin. Qed.

Lemma okat_op_create_array_initer live s here op : ready s -> okat live s (Vm.op_create_array_initer depth here op) fine.
Proof.
  intros R. run okat_fetch_u32. run okat_fetch_u32. run okat_pop_duplicates.
  match goal with vs : list Value |- _ => destruct vs as [|v vs]; [fin|] end.
  match goal with V : Forall _ (_ :: _) |- _ => pose proof (Forall_inv V) end.
  run okat_zero_like. run okat_array_of. run okat_push. fin.
Qed.

Lemma okat_push_element live s a i :
  ready s -> (i < length (o_values (obj_at (heap s) a)))%nat -> okat live s (Vm.push_element a i) fine.
Proof.
  intros R Hi. apply lookup_lt_is_Some in Hi. run @okat_gets. run @okat_unwrap.
  assert (sok s (SCell x)).
  { destruct (obj_at_ok (heap s) a) as [Hv _]; [apply R|]. exact (Forall_lookup_1 _ _ _ _ Hv P). }
  run okat_push. fin.
Qed.

(** [as i32] of a length is at most the length. *)
Lemma i32_le n : i32 (Z.of_nat n) <= Z.of_nat n.
Proof. unfold wrap_s. Z.div_mod_to_equations. lia. Qed.

Lemma okat_op_push_array_index live s here op : ready s -> okat live s (Vm.op_push_array_index depth here op) fine.
Proof.
  intros R. run okat_pop_value. run okat_pop_value. destruct (obj _) as [a|]; [|fin]. run @okat_gets.
  destruct (_ || _) eqn:Eb; [fin|]. apply okat_push_element; [done|]. bool_hyps.
  pose proof (i32_le (length (o_values (obj_at (heap s1) a)))). lia.
Qed.

Lemma vok_obj s v a : vok s v -> obj v = Some a -> vok s (VObj a).
Proof. by destruct v; intros V [= <-]. Qed.

Lemma okat_op_create_array_index live s here op : ready s -> okat live s (Vm.op_create_array_index depth here op) fine.
Proof.
  intros R. run okat_pop_value. run okat_pop_value. run @okat_gets. destruct (obj _) as [a|] eqn:Ea; [|fin].
  destruct (negb _); [fin|]. destruct (_ <? 0) eqn:Ei; [fin|].
  destruct (Nat.leb_spec (length (o_values (obj_at (heap s1) a))) (Z.to_nat (as_int x))).
  - assert (vok s1 (VObj a)) by (eapply vok_obj; eauto). run okat_resize. destruct x1 as [[]|e]; [|fin].
    specialize (P1 eq_refl eq_refl). apply okat_push_element; [done|lia].
  - by apply okat_push_element.
Qed.

Lemma okat_op_push_struct_field live s here op : ready s -> okat live s (Vm.op_push_struct_field depth here op) fine.
Proof.
  intros R. run okat_pop_value. run okat_fetch_u32. destruct (obj _) as [a|]; [|fin]. run @okat_gets.
  destruct (Z.leb_spec (Z.of_nat (length (o_values (obj_at (heap s1) a)))) x0); [fin|].
  apply okat_push_element; [done|]. unfold in_u in *. lia.
Qed.

Lemma okat_op_push_array_length live s here op : ready s -> okat live s (Vm.op_push_array_length depth here op) fine.
Proof.
  intros R. run okat_pop_value. destruct (obj _) as [a|]; [run @okat_gets; run okat_push; fin|].
  assert (is_i32 0) by (unfold in_s; lia). run okat_push. fin.
Qed.

Lemma okat_op_set_array_length live s here op : ready s -> okat live s (Vm.op_set_array_length depth here op) fine.
Proof.
  intros R. run okat_pop_value. run okat_pop_value. run @okat_gets. eapply (okat_bind _ _ _ _ fine).
  - destruct (obj x) as [a|] eqn:Ea; [|by apply okat_ret]. destruct (negb _); [by apply okat_ret|].
    destruct (_ <? 0); [by apply okat_ret|]. assert (vok s1 (VObj a)) by (by apply (vok_obj _ x)).
    run okat_resize. by apply okat_ret.
  - intros s2 ok R9 E9 _. carry E9. run okat_push. destruct ok; fin.
Qed.

(** ** Calls *)

Lemma okat_op_call live s : ready s -> okat live s Vm.op_call fine.
Proof. intros R. run okat_fetch_u32. run okat_cur_frame. run okat_push_frame. fin. Qed.

Lemma okat_op_call_include live s : ready s -> okat live s Vm.op_call_include fine.
Proof.
  intros R. run okat_fetch_u32. run okat_fetch_u32. run okat_cur_frame. run @okat_gets. run @okat_require.
  run @okat_require. run okat_push_frame. fin.
Qed.

Lemma okat_pop_values live s n : ready s -> okat live s (Vm.pop_values depth n) (fun s' vs => Forall (vok s') vs).
Proof.
  revert live s. induction n as [|n IH]; intros live s R; cbn [Vm.pop_values]; [by apply okat_ret|].
  run okat_pop_value. run IH. apply okat_ret; [done|]. by constructor.
Qed.

Lemma trigger_util_ok h decl args sc v sc' :
  Vm.trigger_util_value decl args sc = Some (v, sc') -> value_ok h v /\ statics sc' = statics sc.
Proof.
  unfold Vm.trigger_util_value. destruct (_ =? 15); [by intros [= <- <-]|].
  destruct (_ =? 16); [by intros [= <- <-]|]. destruct (_ =? 17); [|done].
  assert (B : forall b : bool, value_ok h (VInt (if b then 1 else 0))) by (intros; apply vbool_range).
  assert (N : value_ok h (VInt (-1))) by (simpl; unfold in_s; lia).
  destruct (match head args with Some _ => _ | None => _ end) as [name|]; [|by intros [= <- <-]].
  destruct (find_trigger name sc); intros [= <- <-]; eauto.
Qed.

Lemma okat_call_trigger_util live s decl args :
  ready s -> okat live s (Vm.call_trigger_util decl args) (fun s' o => forall v, o = Some v -> vok s' v).
Proof.
  intros R. unfold okat, Vm.call_trigger_util. pose proof (okat_cur_frame true s R) as C. unfold okat, Vm.cur_frame in C.
  destruct (last (frames s)) as [f|]; [|done]. destruct C as (_ & _ & _ & _ & _ & Hf).
  match goal with |- context [Vm.bind ?c ?k s] => change (okat live s (Vm.bind c k) (fun s' o => forall v, o = Some v -> vok s' v)) end.
  eapply okat_bind; [apply okat_script_at; [done|apply Hf]|]. intros s' sc _ _ (-> & Hs & Esc).
  destruct (Vm.trigger_util_value decl args sc) as [[v sc']|] eqn:E; [|by apply okat_ret].
  apply (trigger_util_ok (heap s)) in E as [Hv Hs'].
  assert (script_update (heap s) (prog s) (fr_file f) (fr_script f) (fun _ => sc')).
  { intros sc2 E2. rewrite Esc in E2. injection E2 as <-. unfold script_ok, script_inited. by rewrite Hs'. }
  run okat_update_script.
  apply okat_ret; [done|]. intros w [= <-]. unfold vok. by rewrite P.
Qed.

Lemma okat_call_host live s i decl args :
  builtin i = Some decl -> ready s -> Forall (vok s) args ->
  okat live s (Vm.call_host decl args) (fun s' r => forall v, r = Ok v -> vok s' v).
Proof.
  intros Hd [W F] Ha. unfold okat, Vm.call_host. pose proof (host_call_ok i decl args (host s) (heap s) Hd (wf_heap s W) Ha) as C.
  destruct (host_call decl args (host s) (heap s)) as [[[r hs] h]| |]; [|done..]. destruct C as (C1 & C2 & C3).
  split; [|split; [still|done]].
  destruct (wf_set_heap s h W C1 C2). by split.
Qed.

Lemma okat_push_ret live s decl v : ready s -> vok s v -> okat live s (Vm.push_ret decl v) fine.
Proof.
  intros R Hv. unfold Vm.push_ret. destruct (bool_decide _); [by apply okat_ret|].
  eapply okat_weaken; [by apply okat_push|done].
Qed.

Lemma survey_vok s t : vok s (survey_err_return t).
Proof. destruct t; simpl; unfold vok; simpl; unfold in_s; try lia; done. Qed.

Lemma okat_call_builtin live s i decl argc : builtin i = Some decl -> ready s -> okat live s (Vm.call_builtin depth decl argc) fine.
Proof.
  intros Hd R. run okat_pop_values. run okat_call_trigger_util. destruct x0 as [v|].
  { specialize (P0 v eq_refl). run okat_counters. by apply okat_push_ret. }
  run okat_call_host. destruct x0 as [v|[|reason]]; [| |fin].
  - specialize (P1 v eq_refl). run okat_counters. by apply okat_push_ret.
  - run okat_counters. run @okat_gets. destruct (missing_builtin_policy _); [fin|]. apply okat_push_ret; [done|apply survey_vok].
Qed.

Lemma okat_op_call_game live s : ready s -> okat live s (Vm.op_call_game builtin depth) fine.
Proof. intros R. run okat_fetch_u32. run @okat_require. run okat_call_builtin. fin. Qed.

Lemma okat_op_call_game_varied live s : ready s -> okat live s (Vm.op_call_game_varied builtin depth) fine.
Proof. intros R. run okat_fetch_u32. run okat_fetch_u32. run @okat_require. run okat_call_builtin. fin. Qed.

(** ** Control *)

Lemma okat_jump_or_skip live s taken :
  ready s -> okat live s (Vm.jump_or_skip taken) (fun s' _ => heap s' = heap s /\ prog s' = prog s).
Proof.
  intros R. run okat_get_bip. destruct taken; [run okat_peek_u32|];
    (eapply okat_weaken; [by apply okat_set_bip|]; by intros s' [] (? & ? & ?)).
Qed.

Lemma okat_op_jump live s : ready s -> okat live s Vm.op_jump fine.
Proof. intros R. run okat_fetch_u32. run okat_set_bip. fin. Qed.
Lemma okat_op_jump_if live s : ready s -> okat live s (Vm.op_jump_if depth) fine.
Proof. intros R. run okat_pop_value. run okat_jump_or_skip. fin. Qed.
Lemma okat_op_jump_if_not live s : ready s -> okat live s (Vm.op_jump_if_not depth) fine.
Proof. intros R. run okat_pop_value. run okat_jump_or_skip. fin. Qed.

Lemma okat_op_jump_sc live s test : ready s -> okat live s (Vm.op_jump_sc depth test) fine.
Proof.
  intros R. run okat_pop. run okat_deref. eapply (okat_bind _ _ _ _ fine).
  - destruct (test x0); [|by apply okat_ret]. eapply okat_weaken; [by apply okat_push|done].
  - intros s9 [] R9 _ _. run okat_jump_or_skip. fin.
Qed.

Lemma okat_op_case live s here op : ready s -> okat live s (Vm.op_case depth here op) fine.
Proof.
  intros R. run okat_fetch_u32. run okat_cur_frame.
  eapply okat_bind; [apply okat_file_at; [done|eapply script_file_valid; apply P3]|]. intros s' sf _ _ (-> & _ & _ & Hc & _).
  eapply okat_bind; [by apply @okat_require|]. intros s' k _ _ [-> Hk].
  assert (vok s0 k). { apply get_z_Some in Hk as [_ Hk]. by eapply Forall_lookup_1. }
  run okat_peek_value. run okat_operate. outcome. run okat_jump_or_skip. eapply (okat_bind _ _ _ _ fine); [|by intros; fin].
  destruct (is_true _); [|by apply okat_ret]. run okat_pop. by apply okat_ret.
Qed.

Lemma okat_op_jump_if_inited live s : ready s -> okat live s Vm.op_jump_if_inited fine.
Proof.
  intros R. run okat_fetch_u32. run okat_cur_frame. destruct P3 as [Hs _]. run okat_script_at. run okat_jump_or_skip. fin.
Qed.

Lemma update_trigger_byte_statics f idx sc : statics (update_trigger_byte f idx sc) = statics sc.
Proof. unfold update_trigger_byte. by repeat case_match. Qed.

Lemma trigger_update h p file script f idx : script_update h p file script (update_trigger_byte f idx).
Proof. intros sc _. unfold script_ok, script_inited. by rewrite update_trigger_byte_statics. Qed.
Hint Extern 1 (script_update _ _ _ _ _) => apply trigger_update : core.

Lemma okat_op_bit_set live s : ready s -> okat live s Vm.op_bit_set fine.
Proof.
  intros R. run okat_fetch_u32. run okat_cur_frame. destruct P3 as [Hs _]. run okat_script_at.
  run okat_update_script. fin.
Qed.
Lemma okat_op_bit_unset live s : ready s -> okat live s Vm.op_bit_unset fine.
Proof.
  intros R. run okat_fetch_u32. run okat_cur_frame. destruct P3 as [Hs _]. run okat_script_at.
  run okat_update_script. fin.
Qed.

Lemma okat_op_jump_if_bitset live s : ready s -> okat live s Vm.op_jump_if_bitset fine.
Proof.
  intros R. run okat_fetch_u32. run okat_cur_frame. destruct P3 as [Hs _]. run okat_script_at. run okat_jump_or_skip. fin.
Qed.

(** The last [OP_RETURN] leaves the stack its frame accounts for, less the
    value it hands to the host. *)
Definition settled (b : option (nat * bool)) (s' : Vm H) (r : Step) : Prop :=
  r = Continue -> frames s' = [] ->
  exists n void, b = Some (n, void) /\ length (stack s') = (n - if void then 0 else 1)%nat /\
    (void = false -> n <> O -> is_Some (returned s')).

(** [close_frame] may leave no frame, so it is the one without [live]. *)
Lemma okat_close_frame s : ready s -> okat false s (Vm.close_frame depth) (settled (bottom (frames s))).
Proof.
  intros [W F]. unfold okat, Vm.close_frame, Vm.bind, Vm.gets, Vm.modify. cbn [id].
  destruct (last (frames s)) as [f|] eqn:E; [|by apply last_None in E]. cbn [Vm.unwrap Vm.ret].
  set (s1 := Vm.set_frames _ s).
  assert (W1 : wf s1). { destruct W. split; simpl; try done. by apply Forall_take. }
  assert (E1 : evolves s s1).
  { split; [reflexivity|]. split; [reflexivity|]. split; [done|]. cbn.
    destruct (frames s) as [|a [|b fs]]; [done|by right|by left]. }
  assert (W2 : forall st, Forall (sok s1) st -> wf (Vm.set_stack st s1)) by (destruct W1; by split).
  assert (B : length (frames s) = 1%nat -> bottom (frames s) = Some (expected_stack f, void_return f)).
  { destruct (frames s) as [|a [|b fs]]; [done| |done]. by injection E as ->. }
  assert (Nil : frames s1 = [] -> length (frames s) = 1%nat).
  { intros E0%(f_equal length). cbn in E0. rewrite length_take in E0. destruct (frames s); [done|]. cbn in *. lia. }
  destruct (Nat.eqb_spec (length (stack s)) (expected_stack f)) as [El|]; cbn [negb];
    [|split; [by destruct W1; split|]; split; [done|]; done].
  destruct (Nat.eqb_spec (length (frames s)) 1) as [E2|E2]; cbn [andb];
    [|split; [done|]; split; [done|]; split; [done|]; intros _ F1; by apply Nil in F1].
  destruct (void_return f) eqn:Ev; cbn [negb].
  { split; [done|]. split; [done|]. split; [done|]. intros _ _. rewrite B by done. eexists _, _. split; [done|]. cbn. split; [lia|done]. }
  destruct (stack s) as [|x st] eqn:Es.
  { split; [by destruct W1; split|]. split; [done|]. split; [done|]. intros _ _. rewrite B by done.
    eexists _, _. split; [done|]. cbn in *. split; [rewrite Es; cbn; lia|]. intros _ ?. lia. }
  assert (Hst : Forall (sok s1) (x :: st)) by (rewrite <- Es; apply W1). apply Forall_cons in Hst as [Hx Hst].
  specialize (W2 st Hst). unfold Vm.deref.
  pose proof (deref_in_ok depth (Vm.set_stack st s1) x W2 Hx) as D. destruct (Vm.deref_in depth _ x) as [[v|e]| |]; [|done..].
  split; [destruct W2; split; try done; simpl; intros w [= <-]; by apply D|]. split; [done|]. split; [done|].
  intros _ _. rewrite B by done. eexists _, _. split; [done|]. cbn in *. split; [lia|]. by eexists.
Qed.

Lemma okat_op_return s : ready s -> okat false s (Vm.op_return depth) (settled (bottom (frames s))).
Proof.
  intros R. run okat_cur_frame. eapply (okat_bind _ _ _ _ fine).
  2: { intros s' [] R' (_ & _ & _ & B) _. destruct B as [<-|B]; [by apply okat_close_frame|].
       destruct R' as [_ F]. by destruct (frames s'). }
  destruct (void_return x); [by apply okat_ret|]. run okat_peek_value. run okat_duplicate.
  eapply okat_weaken; [apply okat_modify|done]; [|still|intros _; apply R2].
  match goal with R : ready ?t |- wf (Vm.set_stack _ ?t) => destruct R as [[W1 W2 W3 W4 W5] _] end.
  split; simpl; try done. destruct (stack _); [done|]. apply Forall_cons in W3 as [_ W3]. by constructor.
Qed.

(** ** The dispatch and the run *)

(** An instruction after which a frame is still running settles nothing. *)
Lemma okat_settled s c b : okat true s c fine -> okat false s c (settled b).
Proof.
  unfold okat. destruct (c s) as [[[r|e] s']| |]; [| |done..]; intros (? & ? & F & _);
    (split; [done|]; split; [done|]; split; [done|]); [|done]. intros _ F'. by apply F in F'.
Qed.

Hint Resolve okat_op_push okat_op_assign okat_op_binary okat_op_unary okat_op_step_var okat_op_init_copy okat_op_init
  okat_op_cast_bool okat_op_cast okat_op_create_simple okat_op_create_array okat_op_create_array_dyn
  okat_op_create_array_initer okat_op_create_struct okat_op_push_array_index okat_op_create_array_index
  okat_op_push_struct_field okat_op_push_array_length okat_op_set_array_length okat_op_call okat_op_call_include
  okat_op_call_game okat_op_call_game_varied okat_op_return okat_op_jump okat_op_jump_if okat_op_jump_if_not
  okat_op_jump_sc okat_op_case okat_op_jump_if_inited okat_op_bit_set okat_op_bit_unset okat_op_jump_if_bitset
  okat_continue okat_raise : vmdb.
Hint Extern 1 (okat false _ _ (settled _)) => apply okat_settled : vmdb.

Ltac dispatch :=
  match goal with
  | |- okat _ _ (if ?b then _ else _) _ => destruct b; [first [by auto with vmdb|idtac]|dispatch]
  | _ => by auto with vmdb
  end.

Lemma okat_execute s here op : ready s -> okat false s (Vm.execute builtin depth here op) (settled (bottom (frames s))).
Proof.
  intros R. unfold Vm.execute. dispatch.
  - apply okat_settled. run okat_pop. fin.
  - apply okat_settled. run okat_fetch_u32. fin.
Qed.

Lemma okat_step s : ready s -> okat false s (Vm.step builtin depth) (settled (bottom (frames s))).
Proof.
  intros R. run okat_get_bip. eapply okat_bind; [by apply okat_fetch_u8|]. intros s' op R' (_ & _ & _ & B) _.
  assert (bottom (frames s) = bottom (frames s')) as ->.
  { destruct B as [->|B]; [done|]. destruct R' as [_ F]. by destruct (frames s'). }
  destruct (_ <=? _); [by apply okat_settled, okat_raise|]. by apply okat_execute.
Qed.

(** Storage grew and the program kept its shape. *)
Definition later (s s' : Vm H) : Prop := heap_le (heap s) (heap s') /\ shape_le (prog s) (prog s').
#[local] Instance later_preorder : PreOrder later.
Proof. split; [split; reflexivity|]. intros x y z [] []. split; by etrans. Qed.

(** What holds at the end of a run that started with [before] bytecodes. *)
Definition run_end (before b : Z) (s : Vm H) (r : comp (result VmError (option RuntimeError) * Vm H)) : Prop :=
  match r with
  | Panic => False
  | StackOverflow => True
  | Comp (res, s') =>
      wf s' /\ later s s' /\ before <= bytecodes_executed s' <= before + b + 1 /\
      (is_ok res = true -> frames s' = []) /\
      (res = Ok None -> frames s <> [] -> settled (bottom (frames s)) s' Continue)
  end.
Definition run_inv (before b : Z) (s0 : Vm H) (n : Z) (s : Vm H) : Prop :=
  wf s /\ later s0 s /\ budget s = b /\ bytecodes_executed s = before + n /\ 0 <= n <= b + 1 /\
  (frames s0 <> [] -> settled (bottom (frames s0)) s Continue) /\
  (bottom (frames s) = bottom (frames s0) \/ bottom (frames s) = None).

Lemma run_body_inv before b s0 n s :
  run_inv before b s0 n s ->
  match Vm.run_body builtin depth before s with
  | inl s' => run_inv before b s0 (n + 1) s'
  | inr r => run_end before b s0 r
  end.
Proof.
  intros (W & Hle & Hb & He & Hn & Hs & B). unfold Vm.run_body. destruct (frames s) as [|f fs] eqn:Ef.
  { split; [done|]. split; [done|]. split; [lia|]. split; [done|]. by intros _. }
  destruct (Z.ltb_spec (budget s) (bytecodes_executed s - before)) as [Hlt|Hge].
  { split; [done|]. split; [done|]. split; [lia|]. done. }
  assert (R : ready s) by (split; [done|by rewrite Ef]).
  assert (B' : bottom (frames s) = bottom (frames s0)) by (rewrite Ef; by destruct B).
  pose proof (okat_step s R) as S. unfold okat in S. destruct (Vm.step builtin depth s) as [[[[|e]|e] s1]| |]; [| | |done..];
    destruct S as (W1 & (E1 & E2 & [= Eb Ex] & B1) & _ & S).
  - unfold run_inv. cbn. split; [by apply (wf_ext s1); try done; apply W1|]. split; [by etrans; [|split]|].
    rewrite B' in *. split; [lia|]. split; [lia|]. split; [lia|]. done.
  - split; [by apply (wf_ext s1)|]. split; [by etrans; [|split]|]. cbn. split; [lia|]. done.
  - split; [done|]. split; [by etrans; [|split]|]. split; [lia|]. done.
Qed.

Lemma run_inv_start before s :
  wf s -> 0 <= budget s -> bytecodes_executed s = before -> run_inv before (budget s) s 0 s.
Proof.
  intros W Hb He. split; [done|]. split; [done|]. split; [done|]. split; [lia|]. split; [lia|]. split; [|by left].
  by intros F _ F'.
Qed.

(** The loop stops by itself: the fuel [run_loop] gives it is enough. *)
Lemma run_loop_ends before s p :
  wf s -> 0 <= budget s -> bytecodes_executed s = before -> budget s + 2 <= Z.pos p ->
  exists r, iter_until p (Vm.run_body builtin depth before) s = inr r /\ run_end before (budget s) s r.
Proof.
  intros W Hb He Hp.
  pose proof (iter_until_count (run_inv before (budget s) s) (run_end before (budget s) s) _
    p (run_body_inv before (budget s) s) 0 s (run_inv_start before s W Hb He)) as C.
  destruct (iter_until _ _ s) as [s'|r]; [|by exists r]. destruct C as (_ & _ & _ & _ & C & _). lia.
Qed.

(** What holds after a run of a script from outside: [args] were pushed. *)
Definition run_result (s : Vm H) (file script : Z) (args : nat) (r : comp (result VmError RunOutcome * Vm H)) : Prop :=
  match r with
  | Panic => False
  | StackOverflow => True
  | Comp (res, s') =>
      wf s' /\ later s s' /\
      bytecodes_executed s <= bytecodes_executed s' <= bytecodes_executed s + budget s + 1 /\
      (forall out, res = Ok out ->
        frames s' = [] /\ returned s' = None /\ ro_err_count out = err_count s' /\
        ro_executed out = bytecodes_executed s' - bytecodes_executed s /\
        (forall v, ro_returned out = Some v -> value_ok (heap s') v) /\
        (ro_error out = None -> frames s = [] ->
         exists sc, (sf ← get_z (files (prog s)) file; get_z (scripts sf) script) = Some sc /\
           (length (stack s') + arity sc = length (stack s) + args)%nat /\
           (return_type sc <> tag TVoid -> is_Some (ro_returned out))))
  end.

(** The account of the frame [push_frame] made, after the run. *)
Lemma settled_call b sc (n a : nat) s' :
  settled (Some b) s' Continue -> frames s' = [] -> b.2 = (return_type sc =? tag TVoid) ->
  (a <= n)%nat -> (n + (if b.2 then 0 else 1) = b.1 + a)%nat ->
  (length (stack s') + a = n)%nat /\ (return_type sc <> tag TVoid -> is_Some (returned s')).
Proof.
  intros S F Hv Ha Hn. destruct (S eq_refl F) as (m & void & [= ->] & L & R). cbn in *.
  destruct void; (split; [lia|]); intros E; [by rewrite <- Z.eqb_neq, <- Hv in E|]. apply R; [done|lia].
Qed.

Lemma run_script_slots_ok s file script args :
  wf s -> 0 <= budget s -> Forall (sok s) args ->
  run_result s file script (length args) (Vm.run_script_slots builtin depth file script args s).
Proof.
  intros W Hb Ha. unfold Vm.run_script_slots, Vm.bind at 1 2 3, Vm.gets at 1, Vm.modify at 1 2. unfold Vm.bind at 1.
  set (s1 := Vm.set_stack _ _).
  assert (W1 : wf s1). { destruct W. split; simpl; try done. by apply Forall_app. }
  destruct (push_frame_wf s1 file script W1) as (r & s2 & E2 & W2 & Eh & Ep & [= Eb Ee] & _ & F2). rewrite E2.
  change (budget s1) with (budget s) in Eb. change (bytecodes_executed s1) with (bytecodes_executed s) in Ee.
  change (heap s1) with (heap s) in Eh. change (prog s1) with (prog s) in Ep. change (frames s1) with (frames s) in F2. change (prog s1) with (prog s) in F2.
  destruct r as [[]|e]; [|split; [done|]; unfold later; rewrite Eh, Ep; split; [split; reflexivity|]; split; [lia|done]].
  destruct F2 as (sc & f & Esc & F2 & Hv & Har & Hn). cbn in Har, Hn. rewrite length_app in Har, Hn.
  unfold Vm.bind, Vm.gets, Vm.modify, Vm.run_loop. rewrite Eb.
  destruct (run_loop_ends (bytecodes_executed s) s2 (Z.to_pos (budget s + 3)) W2) as (r & E3 & R3); [lia|done|lia|].
  rewrite E3. unfold run_end, later in R3. rewrite Eb, Eh, Ep in R3.
  destruct r as [[[err|e] s3]| |]; [| |done..]; destruct R3 as (W3 & L3 & N3 & F3 & S3); (split; [by destruct W3|]);
    (split; [done|]); (split; [cbn; lia|]); [|done].
  intros out [= <-]. cbn. do 4 (split; [by auto|]). split; [apply W3|]. intros -> F. exists sc. split; [done|].
  rewrite F2, F in S3. apply (settled_call (account f)); [by apply S3|by apply F3|done|lia|cbn; lia].
Qed.

Lemma sok_vals s vs : Forall (vok s) vs -> Forall (sok s) (map SVal vs).
Proof. intros V. by apply Forall_map. Qed.

(** ** What the machine guarantees *)

(** Whatever the bytecode is, one instruction of a running machine does
    not panic, keeps every reference live and every integer an [i32], keeps
    the program's files and scripts, and touches neither the budget nor the
    count of bytecodes. *)
Theorem step_safe s :
  wf s -> frames s <> [] ->
  match Vm.step builtin depth s with
  | Panic => False
  | StackOverflow => True
  | Comp (_, s') => wf s' /\ evolves s s'
  end.
Proof.
  intros W F. pose proof (okat_step s (conj W F)) as S. unfold okat in S.
  destruct (Vm.step builtin depth s) as [[r s']| |]; [|done..]. by destruct S as (? & ? & _).
Qed.


(** A static stays initialised across runs, so its guarded initialiser
    runs once: however a run ends, every static that held a value before it
    holds one after it. *)
Theorem statics_stay_inited s file script args res s' f sc i :
  wf s -> 0 <= budget s -> Forall (value_ok (heap s)) args ->
  Vm.run_script_index builtin depth file script args s = Comp (res, s') ->
  inited (prog s) f sc i -> inited (prog s') f sc i.
Proof.
  intros W Hb Ha E Hi. pose proof (run_script_slots_ok s file script (map SVal args) W Hb (sok_vals s args Ha)) as R.
  unfold Vm.run_script_index in E. rewrite E in R. destruct R as (_ & (_ & _ & _ & R) & _). by apply R.
Qed.

(** The run loop stops by itself: every iteration count above the budget
    gives the result [run_loop] gives. *)
Theorem run_loop_total s p :
  wf s -> 0 <= budget s -> budget s + 2 <= Z.pos p ->
  exists r, iter_until p (Vm.run_body builtin depth (bytecodes_executed s)) s = inr r /\
            Vm.run_loop builtin depth (bytecodes_executed s) s = r.
Proof.
  intros W Hb Hp. destruct (run_loop_ends (bytecodes_executed s) s p) as (r & E & _); try done. exists r. split; [done|].
  destruct (run_loop_ends (bytecodes_executed s) s (Z.to_pos (budget s + 3))) as (r' & E' & _); try done; [lia|].
  unfold Vm.run_loop. rewrite E'. by eapply iter_until_agree.
Qed.
End Safety.

#[export] Instance NullHost_laws builtin : HostLaws unit builtin.
Proof. split. intros i decl args hs h _ Hh _. cbn. split; [done|]. split; [reflexivity|]. done. Qed.

(** ** The quick start's machine is well formed *)

Import Example.

Definition started (c : bytes) : Vm unit := Vm.set_frames [mkFrame 0 0 0 [] 1 false] (Example.machine c).

Lemma machine_wf c : bytes_ok c -> wf (Example.machine c) /\ wf (started c).
Proof.
  intros Hc. assert (P : prog_ok (mkHeap [] []) (single (Example.file_of c [None]))).
  { apply Forall_singleton. split; [done|]. split; [by repeat constructor; unfold in_s; lia|].
    by apply Forall_singleton, Forall_singleton. }
  split; split; try done; try exact P; try (by constructor). apply Forall_singleton. split; [by eexists|constructor].
Qed.

Lemma tick_code_ok : bytes_ok Example.tick_code.
Proof. apply (bool_decide_unpack _). by vm_compute. Qed.

(** The first instruction of the quick start: the initialiser's guard. *)
Lemma step_safe_witness :
  match Vm.step Example.no_builtins 8 (started Example.tick_code) with
  | Comp (Ok Continue, s') => wf s' /\ evolves (started Example.tick_code) s' /\ map bip (frames s') = [9]
  | _ => False
  end.
Proof.
  pose proof (step_safe Example.no_builtins 8 (started Example.tick_code) (proj2 (machine_wf _ tick_code_ok)) ltac:(done)) as S.
  destruct (Vm.step Example.no_builtins 8 (started Example.tick_code)) as [[r s']| |] eqn:E; vm_compute in E; [|done..].
  injection E as <- <-. split; [apply S|]. split; [apply S|reflexivity].
Defined.


(** The machine after one run of the quick start, and after a second. *)
Definition ran : Vm unit :=
  match Vm.run_script_index no_builtins 8 0 0 [] (machine tick_code) with Comp (_, s) => s | _ => machine tick_code end.

Lemma ran_wf : wf ran.
Proof.
  pose proof (run_script_slots_ok no_builtins 8 (machine tick_code) 0 0 [] (proj1 (machine_wf _ tick_code_ok))
    ltac:(vm_compute; discriminate) ltac:(constructor)) as R.
  unfold ran, Vm.run_script_index. cbn [map].
  destruct (Vm.run_script_slots no_builtins 8 0 0 [] (machine tick_code)) as [[r s]| |]; [apply R|done|].
  apply machine_wf, tick_code_ok.
Qed.

Lemma statics_stay_inited_witness :
  exists res s', Vm.run_script_index no_builtins 8 0 0 [] ran = Comp (res, s') /\ inited (prog s') 0 0 0.
Proof.
  eexists _, _. split; [vm_compute; reflexivity|].
  eapply (statics_stay_inited no_builtins 8 ran 0 0 [] _ _ 0 0 0);
    [apply ran_wf|vm_compute; discriminate|constructor|vm_compute; reflexivity|].
  eexists. split; [vm_compute; reflexivity|]. eexists. vm_compute. reflexivity.
Defined.

Lemma run_loop_total_witness :
  exists r, iter_until 50000002 (Vm.run_body Example.no_builtins 8 0) (started Example.tick_code) = inr r /\
            Vm.run_loop Example.no_builtins 8 0 (started Example.tick_code) = r.
Proof.
  apply (run_loop_total Example.no_builtins 8 (started Example.tick_code) 50000002);
    [apply machine_wf, tick_code_ok|vm_compute; discriminate|vm_compute; discriminate].
Defined.
