(* ===== verification/BhsVmRefs.v ===== *)
(** * References of the script machine

    A local slot may hold a reference to another slot (a [ref] parameter), so
    an assignment follows the aliases to the storage they name.  What is
    written through a slot is what is read through it, and a slot that refers
    to itself exhausts the machine stack. *)

From S2P Require Import Prelude BTree NetText BhsOpcode BhsDisasm BhsStd BhsValue BhsOps BhsProgram BhsVm BhsHeapSafety BhsVmSafety.

Section Refs.
Context {std : StdLib} {H : Type} {hst : Host H}.
Implicit Types s : Vm H.

(** An aliasing slot of a frame: a slot that holds no value of its own. *)
Definition is_val (x : Slot) : bool := match x with SVal _ => true | _ => false end.
Definition keeps_aliases s s' : Prop :=
  forall frame i x, Vm.local_at (frames s) frame i = Some x -> is_val x = false ->
    Vm.local_at (frames s') frame i = Some x.

Lemma keeps_aliases_refl s s' : frames s' = frames s -> keeps_aliases s s'.
Proof. intros E frame i x. by rewrite E. Qed.

(** The frames after a value was written to a local that held one. *)
Definition put_local (frame : nat) (i : Z) (v : Value) s : Vm H :=
  Vm.set_frames (alter (fun f =>
    mkFrame (fr_file f) (fr_script f) (bip f) (<[Z.to_nat i := Some (SVal v)]> (locals f))
      (expected_stack f) (void_return f)) frame (frames s)) s.

Lemma local_at_Some (fs : list Frame) frame i x :
  Vm.local_at fs frame i = Some x <->
  exists f, fs !! frame = Some f /\ 0 <= i /\ locals f !! Z.to_nat i = Some (Some x).
Proof.
  unfold Vm.local_at. destruct (fs !! frame) as [f|]; cbn; [|by split; [|intros (? & ? & _)]].
  destruct (get_z (locals f) i) as [o|] eqn:E; cbn.
  - apply get_z_Some in E as [? E]. split; [intros ->; by exists f|]. intros (g & [= <-] & _ & E'). congruence.
  - split; [done|]. intros (g & [= <-] & ? & E'). assert (get_z (locals f) i = Some (Some x)) by (by apply get_z_Some). congruence.
Qed.

Lemma put_local_same s frame i v w :
  Vm.local_at (frames s) frame i = Some w -> Vm.local_at (frames (put_local frame i v s)) frame i = Some (SVal v).
Proof.
  rewrite !local_at_Some. intros (f & Ef & Hi & El). cbn. rewrite list_lookup_alter_eq, Ef. eexists. split; [done|].
  split; [done|]. cbn. rewrite list_lookup_insert_eq; [done|]. by eapply lookup_lt_Some.
Qed.

Lemma put_local_aliases s frame i v w :
  Vm.local_at (frames s) frame i = Some (SVal w) -> keeps_aliases s (put_local frame i v s).
Proof.
  intros Hw frame' i' x Hx Ha. apply local_at_Some in Hw as (f & Ef & Hi & El). apply local_at_Some in Hx as (f' & Ef' & Hi' & El').
  apply local_at_Some. cbn. destruct (decide (frame = frame')) as [<-|Hne].
  - rewrite Ef in Ef'. injection Ef' as <-. rewrite list_lookup_alter_eq, Ef. eexists. split; [done|]. split; [done|]. cbn.
    destruct (decide (Z.to_nat i = Z.to_nat i')) as [E|E]; [rewrite E in El; rewrite El in El'; by injection El' as <-|].
    by rewrite list_lookup_insert_ne.
  - rewrite list_lookup_alter_ne by done. eauto.
Qed.

(** What a store to a static leaves. *)
Lemma store_static_spec s file script i v :
  match Vm.store_static file script i v s with
  | Comp (Ok _, s') =>
      frames s' = frames s /\
      exists sc, (sf ← get_z (files (prog s')) file; get_z (scripts sf) script) = Some sc /\
                 get_z (statics sc) i = Some (Some v)
  | Comp (Err e, s') => s' = s /\ e = BadVarRef (Static i)
  | Panic => ~ script_valid (prog s) file script
  | StackOverflow => False
  end.
Proof.
  unfold Vm.store_static, Vm.script_at, Vm.file_at, Vm.bind, Vm.unwrap, Vm.ret, Vm.panic, script_valid.
  destruct (get_z (files (prog s)) file) as [sf|] eqn:Ef; [|by intros [? [=]]]. cbn [mbind option_bind].
  destruct (get_z (scripts sf) script) as [sc|] eqn:Es; [|by intros [? [=]]].
  unfold Vm.require, Vm.lift. destruct (get_z (statics sc) i) as [o|] eqn:Eo; [|done]. cbn.
  split; [done|]. rewrite get_z_update, Z.eqb_refl, Ef. cbn. rewrite get_z_update, Z.eqb_refl, Es. cbn.
  eexists. split; [reflexivity|]. cbn. apply get_z_Some in Eo as [Hi Eo]. apply get_z_Some. split; [done|].
  rewrite list_lookup_insert_eq; [done|]. by eapply lookup_lt_Some.
Qed.

(** A store through [x]: [fuel] calls for the store, one more for the read. *)
Definition store_spec (fuel : nat) s (x : Slot) (v : Value) (r : comp (result VmError unit * Vm H)) : Prop :=
  match r with
  | Comp (Ok _, s') =>
      keeps_aliases s s' /\
      if is_val x then s' = s else Vm.deref_in (S fuel) s' x = Comp (Ok v)
  | Comp (Err e, s') => s' = s /\ exists r, e = BadVarRef r
  | Panic => False
  | StackOverflow => True
  end.

Lemma store_static_ok fuel s file script i v :
  script_valid (prog s) file script -> store_spec fuel s (SRef (BStatic file script i)) v (Vm.store_static file script i v s).
Proof.
  intros Hs. pose proof (store_static_spec s file script i v) as S.
  destruct (Vm.store_static file script i v s) as [[[u|e] s']| |]; [| |done..].
  - destruct S as (F & sc & E & Ei). split; [by apply keeps_aliases_refl|]. cbn. rewrite E. by rewrite Ei.
  - destruct S as [-> ->]. split; [done|by eexists].
Qed.

Lemma store_cell_ok fuel s c v :
  (c < length (h_cells (heap s)))%nat ->
  store_spec fuel s (SCell c) v (Vm.modify (fun s => Vm.set_heap (set_cell c v (heap s)) s) s).
Proof.
  intros Hc. split; [by apply keeps_aliases_refl|]. cbn. unfold cell_at, set_cell. cbn.
  by rewrite list_lookup_insert_eq.
Qed.

Lemma store_local_ok fuel s frame i v w :
  Vm.local_at (frames s) frame i = Some (SVal w) ->
  store_spec fuel s (SRef (BLocal frame i)) v (Comp (Ok tt, put_local frame i v s)).
Proof.
  intros Hw. split; [by eapply put_local_aliases|]. cbn [is_val Vm.deref_in].
  rewrite (put_local_same _ _ _ _ _ Hw). by destruct fuel.
Qed.

Lemma store_in_ok fuel s x v :
  wf s -> slot_ok (prog s) (heap s) x -> store_spec fuel s x v (Vm.store_in fuel x v s).
Proof.
  intros W. revert x. induction fuel as [|fuel IH]; intros x Hx;
    (destruct x as [w|[file i|file script i|frame i]|c]; cbn [Vm.store_in];
     [split; [by apply keeps_aliases_refl|done]|split; [done|by eexists]|by apply store_static_ok
     |destruct (Vm.local_at (frames s) frame i) as [y|] eqn:Ey; [|split; [done|by eexists]]
     |by apply store_cell_ok]).
  - destruct y; [by eapply store_local_ok|done..].
  - destruct (is_val y) eqn:Ev; [destruct y; [by eapply store_local_ok|done..]|].
    assert (Hy : slot_ok (prog s) (heap s) y) by (by eapply local_at_ok). specialize (IH y Hy).
    destruct y; [done|..]; (destruct (Vm.store_in fuel _ v s) as [[[u|e] s']| |]; [|done..]);
      (destruct IH as [K D]; split; [done|]; cbn [is_val] in *; rewrite <- D;
       cbn [Vm.deref_in]; by rewrite (K _ _ _ Ey Ev)).
Qed.

(** (C17) Writing through a slot of the run stack, whatever chain of references
    it goes through, is seen by reading through it: a store that succeeds on a
    reference makes the slot read as the value stored; on a slot that holds a
    plain value it succeeds and changes nothing; it fails only on a reference
    that cannot be written, changing nothing.  It never panics; a chain longer
    than [depth] overflows the native stack. *)
Theorem store_deref depth s x v :
  wf s -> slot_ok (prog s) (heap s) x ->
  match Vm.store depth x v s with
  | Comp (Ok _, s') => if is_val x then s' = s else Vm.deref (S depth) x s' = Comp (Ok v, s')
  | Comp (Err e, s') => s' = s /\ exists r, e = BadVarRef r
  | Panic => False
  | StackOverflow => True
  end.
Proof.
  intros W Hx. pose proof (store_in_ok depth s x v W Hx) as S. unfold Vm.store, Vm.deref.
  destruct (Vm.store_in depth x v s) as [[[u|e] s']| |]; [|done..]. destruct S as [_ S].
  destruct (is_val x); [done|]. by rewrite S.
Qed.

(** A local that refers to itself cannot be read, at any stack size. *)
Lemma self_alias_overflows fuel s frame i :
  Vm.local_at (frames s) frame i = Some (SRef (BLocal frame i)) ->
  Vm.deref_in fuel s (SRef (BLocal frame i)) = StackOverflow.
Proof. intros E. induction fuel as [|fuel IH]; cbn [Vm.deref_in]; by rewrite E. Qed.

(** ** The guard of a static initialiser *)

Definition script_of_frame s (f : Frame) : option Script :=
  sf ← get_z (files (prog s)) (fr_file f); get_z (scripts sf) (fr_script f).
Definition jump_to (t : Z) (f : Frame) : Frame :=
  mkFrame (fr_file f) (fr_script f) t (locals f) (expected_stack f) (void_return f).

(** Reading an operand, and a conditional jump, of the running frame [f]. *)
Lemma cur_frame_spec s f : last (frames s) = Some f -> Vm.cur_frame s = Comp (Ok f, s).
Proof. intros E. unfold Vm.cur_frame. by rewrite E. Qed.

Lemma file_at_spec s file sf : get_z (files (prog s)) file = Some sf -> Vm.file_at file s = Comp (Ok sf, s).
Proof. intros E. unfold Vm.file_at. by rewrite E. Qed.

Lemma peek_u32_spec s f sf at_ v :
  last (frames s) = Some f -> get_z (files (prog s)) (fr_file f) = Some sf -> Vm.code_u32 (code sf) at_ = Some v ->
  Vm.peek_u32 at_ s = Comp (Ok v, s).
Proof.
  intros Ef Es Ev. unfold Vm.peek_u32, Vm.bind. rewrite (cur_frame_spec _ _ Ef), (file_at_spec _ _ _ Es).
  unfold Vm.require, Vm.lift. by rewrite Ev.
Qed.

Lemma get_bip_spec s f : last (frames s) = Some f -> Vm.get_bip s = Comp (Ok (bip f), s).
Proof. intros E. unfold Vm.get_bip, Vm.bind. by rewrite (cur_frame_spec _ _ E). Qed.

Lemma set_bip_spec s f t :
  last (frames s) = Some f ->
  Vm.set_bip t s = Comp (Ok tt, Vm.set_frames (Vm.set_last (jump_to t f) (frames s)) s).
Proof. intros E. unfold Vm.set_bip, Vm.bind. by rewrite (cur_frame_spec _ _ E). Qed.

Lemma fetch_u32_spec s f sf v :
  last (frames s) = Some f -> get_z (files (prog s)) (fr_file f) = Some sf ->
  Vm.code_u32 (code sf) (bip f) = Some v ->
  Vm.fetch_u32 s = Comp (Ok v, Vm.set_frames (Vm.set_last (jump_to (bip f + 4) f) (frames s)) s).
Proof.
  intros Ef Es Ev. unfold Vm.fetch_u32, Vm.bind. rewrite (get_bip_spec _ _ Ef), (peek_u32_spec _ _ _ _ _ Ef Es Ev).
  by rewrite (set_bip_spec _ _ _ Ef).
Qed.

Lemma last_set_last f fs : last (Vm.set_last f fs) = Some f.
Proof. unfold Vm.set_last. by rewrite last_snoc. Qed.

Lemma set_last_twice f g fs : fs <> [] -> Vm.set_last f (Vm.set_last g fs) = Vm.set_last f fs.
Proof.
  intros F. assert (L : (0 < length fs)%nat) by (destruct fs; cbn; [done|lia]).
  unfold Vm.set_last. rewrite length_app, length_take. cbn [length].
  rewrite take_app_le by (rewrite length_take; lia). rewrite take_take. do 2 f_equal. lia.
Qed.

(** The guard of a static initialiser: the body is skipped exactly when
    the static holds a value, and the jump touches nothing but the position. *)
Theorem jump_if_inited_spec s f sf sc raw t :
  last (frames s) = Some f -> get_z (files (prog s)) (fr_file f) = Some sf -> get_z (scripts sf) (fr_script f) = Some sc ->
  Vm.code_u32 (code sf) (bip f) = Some raw -> Vm.code_u32 (code sf) (bip f + 4) = Some t ->
  exists f', Vm.op_jump_if_inited s = Comp (Ok Continue, Vm.set_frames (Vm.set_last f' (frames s)) s) /\
    (script_inited sc (Z.land raw 0xbfffffff) -> f' = jump_to t f) /\
    (~ script_inited sc (Z.land raw 0xbfffffff) -> f' = jump_to (bip f + 8) f).
Proof.
  intros Ef Es Ec Er Et. unfold Vm.op_jump_if_inited, Vm.bind. rewrite (fetch_u32_spec _ _ _ _ Ef Es Er).
  set (s1 := Vm.set_frames _ s). assert (E1 : last (frames s1) = Some (jump_to (bip f + 4) f)) by apply last_set_last.
  rewrite (cur_frame_spec _ _ E1). unfold Vm.script_at, Vm.bind. cbn [fr_file fr_script jump_to].
  rewrite (file_at_spec s1 _ sf Es), Ec. cbn [Vm.unwrap Vm.ret].
  assert (Set2 : forall z, Vm.set_bip z s1 = Comp (Ok tt, Vm.set_frames (Vm.set_last (jump_to z f) (frames s)) s)).
  { intros z. rewrite (set_bip_spec _ _ _ E1). do 2 f_equal. unfold s1, Vm.set_frames. cbn [frames].
    rewrite set_last_twice; [done|]. intros E. by rewrite E in Ef. }
  assert (D : script_inited sc (Z.land raw 0xbfffffff) <->
    match get_z (statics sc) (Z.land raw 0xbfffffff) with Some (Some _) => true | _ => false end = true).
  { unfold script_inited. destruct (get_z (statics sc) _) as [[v|]|]; split; try done; [by eexists|by intros [? [=]]..]. }
  unfold Vm.jump_or_skip, Vm.bind. rewrite (get_bip_spec _ _ E1). cbn [bip jump_to].
  destruct (match get_z (statics sc) _ with Some (Some _) => true | _ => false end).
  - rewrite (peek_u32_spec s1 _ sf _ t E1 Es Et), Set2. eexists. split; [reflexivity|]. split; [done|]. tauto.
  - rewrite Set2. eexists. split; [reflexivity|]. split; [intros H1%D; done|]. intros _. do 1 f_equal. lia.
Qed.

End Refs.

(** ** Examples *)

Import Example.

(** [int x = 0; ref x = x; x]: the second initialiser aliases [x] to itself. *)
Definition self_ref_code : bytes := asm [
  (0x26, [varref_encode (Const 0)]); (0x33, [varref_encode (Local 0)]);
  (0x26, [varref_encode (Local 0)]); (0x33, [varref_encode (Local 0)]);
  (0x26, [varref_encode (Local 0)])].

Definition after_steps (n : nat) (s : Vm unit) : option (Vm unit) :=
  Nat.iter n (fun o => s ← o; match Vm.step no_builtins 8 s with Comp (Ok Continue, s') => Some s' | _ => None end) (Some s).

(** The bytecode reaches that state in four instructions, and the fifth
    exhausts the stack whatever its size. *)
Lemma self_ref_overflows :
  exists s, after_steps 4 (started self_ref_code) = Some s /\ forall depth, Vm.step no_builtins depth s = StackOverflow.
Proof.
  eexists. split; [vm_compute; reflexivity|]. intros depth. cbv -[Vm.deref_in].
  by rewrite (self_alias_overflows depth _ 0 0).
Qed.

(** A run that ends in a [VmError] keeps its frames, and the next run goes on
    with them: script 1 alone returns 0, but after script 0 stopped at its
    [OP_BREAK] the run of script 1 falls into the rest of script 0. *)
Definition two_scripts : Vm unit :=
  let script name at_ := mkScript [name] 0 [] [] at_ 0 0 [] [] [] [] [] 0 in
  let c := asm [(0x3b, []); (0x26, [varref_encode (Const 1)]); (0x3e, []); (0x26, [varref_encode (Const 0)]); (0x3e, [])] in
  Vm.new (single (mkScriptFile [] c [script 0x61 0; script 0x62 7] [VInt 0; VInt 1] [] [])) tt (mkHeap [] []).

Lemma stale_frames_resume :
  (exists o s, Vm.run_script_index no_builtins 8 0 1 [] two_scripts = Comp (Ok o, s) /\
     ro_returned o = Some (VInt 0) /\ ro_error o = None) /\
  exists e s1 o s2, Vm.run_script_index no_builtins 8 0 0 [] two_scripts = Comp (Err e, s1) /\
    Vm.run_script_index no_builtins 8 0 1 [] s1 = Comp (Ok o, s2) /\
    ro_returned o = None /\ is_Some (ro_error o).
Proof.
  split; [by eexists _, _; split; [vm_compute; reflexivity|]|].
  eexists _, _, _, _. split; [vm_compute; reflexivity|]. split; [vm_compute; reflexivity|]. by split; [|eexists].
Qed.

(** A [ref] parameter: local 0 of the callee names local 0 of the caller. *)
Definition ref_machine : Vm unit :=
  Vm.set_frames [mkFrame 0 0 0 [Some (SVal (VInt 5))] 1 false; mkFrame 0 0 0 [Some (SRef (BLocal 0 0))] 2 false]
    (machine tick_code).

Lemma ref_machine_wf : wf ref_machine.
Proof.
  destruct (machine_wf _ tick_code_ok) as [[W1 W2 W3 W4 W5] _]. split; try done.
  repeat constructor; try (by eexists); intros x [= <-]; cbn; [unfold in_s; lia|done].
Qed.

Lemma store_deref_witness :
  match Vm.store 4 (SRef (BLocal 1 0)) (VInt 7) ref_machine with
  | Comp (Ok _, s') =>
      Vm.deref 5 (SRef (BLocal 1 0)) s' = Comp (Ok (VInt 7), s') /\
      Vm.local_at (frames s') 0 0 = Some (SVal (VInt 7)) /\ Vm.local_at (frames s') 1 0 = Some (SRef (BLocal 0 0))
  | _ => False
  end.
Proof.
  pose proof (store_deref 4 ref_machine (SRef (BLocal 1 0)) (VInt 7) ref_machine_wf I) as S.
  split; [exact S|]. by split.
Defined.

(** The quick start before and after its static was initialised. *)
Definition at_guard (statics : list (option Value)) : Vm unit :=
  Vm.set_frames [mkFrame 0 0 1 [] 1 false] (Vm.new (single (file_of tick_code statics)) tt (mkHeap [] [])).

Lemma jump_if_inited_spec_witness :
  (exists s', Vm.op_jump_if_inited (at_guard [None]) = Comp (Ok Continue, s') /\ map bip (frames s') = [9]) /\
  (exists s', Vm.op_jump_if_inited (at_guard [Some (VInt 1)]) = Comp (Ok Continue, s') /\ map bip (frames s') = [19]).
Proof.
  split.
  - edestruct (jump_if_inited_spec (at_guard [None])) as (f' & E & _ & Ef); [reflexivity..|].
    eexists. split; [exact E|]. rewrite Ef; [reflexivity|]. by intros [v [=]].
  - edestruct (jump_if_inited_spec (at_guard [Some (VInt 1)])) as (f' & E & Ef & _); [reflexivity..|].
    eexists. split; [exact E|]. rewrite Ef; [reflexivity|]. by eexists.
Defined.
