(* ===== verification/BhsChunkSafety.v ===== *)
(** * Loading never panics, and what loads runs safely

    Whatever the bytes of the containers are, the loader of [BhsChunk.v]
    returns; the program it returns satisfies the machine's invariant of
    [BhsVmSafety.v], so running any of its scripts cannot panic either; and
    every include is resolved to an earlier file of that name. *)

From S2P Require Import Prelude NetText BhsDisasm BhsStd BhsValue BhsProgram BhsChunk BhsVm BhsHeapSafety BhsVmSafety.

(** ** The cursor stays inside its payload *)

Definition cursor_ok (c : Cursor) : Prop := bytes_ok (cu_bytes c) /\ 0 <= cu_at c <= len (cu_bytes c).
Definition advanced (c c' : Cursor) : Prop := cursor_ok c' /\ cu_bytes c' = cu_bytes c /\ cu_at c <= cu_at c'.

Lemma advanced_trans a b c : advanced a b -> advanced b c -> advanced a c.
Proof. intros (? & E1 & ?) (? & E2 & ?). split; [done|]. split; [by rewrite E2|lia]. Qed.
Lemma advanced_refl c : cursor_ok c -> advanced c c.
Proof. intros ?. by split. Qed.

Lemma cu_take_ok n c b c' :
  cursor_ok c -> 0 <= n -> cu_take n c = Ok (b, c') -> advanced c c' /\ bytes_ok b /\ len b = n.
Proof.
  intros [Hb Ha] Hn. unfold cu_take. destruct (Z.leb_spec (cu_at c + n) (len (cu_bytes c))); [|done].
  intros [= <- <-]. split; [split; [split; cbn; [done|lia]|cbn; split; [done|lia]]|].
  split; [by apply bytes_ok_take, bytes_ok_drop|]. unfold len in *. rewrite length_take, length_drop. lia.
Qed.

Lemma cu_u32_ok c z c' : cursor_ok c -> cu_u32 c = Ok (z, c') -> advanced c c' /\ is_u32 z.
Proof.
  intros Hc H. unfold cu_u32 in H. apply rbind_Ok in H as ([b c1] & Ht & [= <- <-]).
  apply cu_take_ok in Ht as (A & Hb & Hl); [|done|lia]. split; [done|].
  apply from_le_bound in Hb. unfold len in Hl. replace (length b) with 4%nat in Hb by lia. done.
Qed.

Lemma cu_string_ok c s c' : cursor_ok c -> cu_string c = Ok (s, c') -> advanced c c'.
Proof.
  intros Hc H. unfold cu_string in H. apply rbind_Ok in H as ([n c1] & Hn & H). apply cu_u32_ok in Hn as [A1 Hn]; [|done].
  apply rbind_Ok in H as ([b c2] & Ht & H). apply cu_take_ok in Ht as (A2 & _); [|apply A1|unfold in_u in Hn; lia].
  apply rbind_Ok in H as (u & _ & [= _ <-]). by eapply advanced_trans.
Qed.

Lemma cu_many_ok {A} (read : Cursor -> result ChunkError (A * Cursor)) n c xs c' :
  (forall c x c', cursor_ok c -> read c = Ok (x, c') -> advanced c c') ->
  cursor_ok c -> cu_many read n c = Ok (xs, c') -> advanced c c' /\ length xs = n.
Proof.
  intros Hr. revert c xs. induction n as [|n IH]; intros c xs Hc H; cbn [cu_many] in H.
  { injection H as <- <-. split; [by apply advanced_refl|done]. }
  apply rbind_Ok in H as ([x c1] & Hx & H). apply Hr in Hx; [|done].
  apply rbind_Ok in H as ([ys c2] & Hy & [= <- <-]). apply IH in Hy as [Ad L]; [|apply Hx].
  split; [by eapply advanced_trans|]. cbn. by rewrite L.
Qed.

Lemma read_param_ok c x c' : cursor_ok c -> read_param c = Ok (x, c') -> advanced c c'.
Proof.
  intros Hc H. unfold read_param in H. apply rbind_Ok in H as ([t c1] & Ht & H). apply cu_u32_ok in Ht as [A1 _]; [|done].
  apply rbind_Ok in H as ([r c2] & Hr & [= _ <-]). apply cu_u32_ok in Hr as [A2 _]; [|apply A1]. by eapply advanced_trans.
Qed.

Lemma read_line_ok c x c' : cursor_ok c -> read_line c = Ok (x, c') -> advanced c c'.
Proof.
  intros Hc H. unfold read_line in H. apply rbind_Ok in H as ([t c1] & Ht & [= _ <-]). by apply cu_u32_ok in Ht as [? _].
Qed.

(** ** The loader's invariant *)

Definition fits {A} (l : list A) : Prop := len l <= I32_MAX.
Definition script_small (s : Script) : Prop :=
  fits (sc_params s) /\ fits (refs s) /\ fits (trigger_names s) /\ fits (var_names s) /\ fits (static_var_names s) /\
  statics s = [].

(** [n] bytes were read: a script took at least a header. *)
Record loader_ok (n : Z) (l : Loader) : Prop := mk_loader_ok {
  lo_input : input_len l <= I32_MAX;
  lo_current : forall i, current_script l = Some i -> (i < length (scripts (ld_file l)))%nat;
  lo_scripts : Forall script_small (scripts (ld_file l));
  lo_count : HEADER_LEN * len (scripts (ld_file l)) <= n;
  lo_code : bytes_ok (code (ld_file l));
  lo_code_fits : fits (code (ld_file l));
  lo_links : fits (linked_file_names (ld_file l));
  lo_consts : Forall (value_ok (mkHeap [] [])) (const_pool (ld_file l)) }.

Lemma loader_ok_weaken n m l : n <= m -> loader_ok n l -> loader_ok m l.
Proof. intros H []. split; try done. lia. Qed.

(** What a leaf's handler comes to. *)
Definition leaf_result (n : Z) (r : option (result ChunkError (Loader * Cursor))) : Prop :=
  match r with None => False | Some (Err _) => True | Some (Ok (l', _)) => loader_ok n l' end.

Lemma bounded_count_ok what v l x : bounded_count what v l = Ok x -> x = v /\ v <= input_len l.
Proof. unfold bounded_count. destruct (Z.ltb_spec (input_len l) v); [done|]. by intros [= <-]. Qed.

Lemma params_ok n c xs c' : cursor_ok c -> cu_many read_param n c = Ok (xs, c') -> advanced c c' /\ length xs = n.
Proof. apply cu_many_ok, read_param_ok. Qed.
Lemma strings_ok n c xs c' : cursor_ok c -> cu_many cu_string n c = Ok (xs, c') -> advanced c c' /\ length xs = n.
Proof. apply cu_many_ok, cu_string_ok. Qed.
Lemma lines_ok n c xs c' : cursor_ok c -> cu_many read_line n c = Ok (xs, c') -> advanced c c' /\ length xs = n.
Proof. apply cu_many_ok, read_line_ok. Qed.

(** The next step of a handler that succeeded, in hypothesis [H]. *)
Ltac next H :=
  lazymatch type of H with
  | rbind (bounded_count _ _ _) _ = Ok _ =>
      let a := fresh "a" in let R := fresh "R" in
      apply rbind_Ok in H as (a & R & H); apply bounded_count_ok in R as [-> ?]
  | rbind (ok_or ?o _) _ = Ok _ => destruct o eqn:?; [|done]; cbn [ok_or rbind] in H
  | rbind (?read _) _ = Ok _ =>
      let a := fresh "a" in let c := fresh "c" in let R := fresh "R" in
      apply rbind_Ok in H as ([a c] & R & H);
      first [apply cu_u32_ok in R as [(? & ? & ?) ?]; [|assumption]
            |apply cu_string_ok in R as (? & ? & ?); [|assumption]
            |apply params_ok in R as [(? & ? & ?) ?]; [|assumption]
            |apply strings_ok in R as [(? & ? & ?) ?]; [|assumption]
            |apply lines_ok in R as [(? & ? & ?) ?]; [|assumption]]
  | (if _ then Err _ else _) = Ok _ =>
      let b := fresh "b" in match type of H with (if ?x then _ else _) = _ => destruct x eqn:?; [done|] end
  end.

Lemma remaining_le c : cursor_ok c -> remaining c <= len (cu_bytes c).
Proof. intros [_ ?]. unfold remaining. lia. Qed.

Lemma load_script_info_ok n c l :
  cursor_ok c -> fits (cu_bytes c) -> loader_ok n l -> leaf_result (n + HEADER_LEN) (Some (load_script_info c l)).
Proof.
  intros Hc Hf Hl. unfold leaf_result. destruct (load_script_info c l) as [[l' c']|] eqn:H; [|done].
  unfold load_script_info in H. repeat next H. injection H as <- <-. bool_hyps. subst.
  match goal with R : cursor_ok ?k, Hq : _ <= remaining ?k / 8 |- _ =>
    pose proof (remaining_le k R); assert (Ek : cu_bytes k = cu_bytes c) by congruence end.
  rewrite Ek in *. unfold fits, in_u in *. destruct Hl as [I1 I2 I3 I4 I5 I6 I7 I8].
  split; cbn [ld_file input_len current_script set_scripts scripts code linked_file_names const_pool]; try done.
  - intros i [= <-]. rewrite length_app. cbn. unfold len. lia.
  - apply Forall_app. split; [done|]. constructor; [|done].
    split; [|split; [|split; [|split; [|split]]]]; cbn; unfold fits, len in *; cbn; try done;
      rewrite ?length_map, ?length_replicate; Z.div_mod_to_equations; try lia.
  - rewrite len_app. unfold len in *. cbn. unfold HEADER_LEN in *. lia.
Qed.

Lemma load_const_ok n c l : cursor_ok c -> loader_ok n l -> leaf_result n (Some (load_const c l)).
Proof.
  intros Hc Hl. unfold leaf_result. destruct (load_const c l) as [[l' c']|] eqn:H; [|done].
  unfold load_const in H. next H. apply rbind_Ok in H as ([v c1] & Hv & [= <- <-]).
  assert (value_ok (mkHeap [] []) v).
  { destruct (from_tag a) as [[]|]; try done; (repeat next Hv); injection Hv as <- <-; try done. by apply wrap_s_range. }
  destruct Hl. split; cbn; try done. apply Forall_app. split; [done|]. by constructor.
Qed.

(** Changing a script in place. *)
Lemma scripts_ok_insert n l i s :
  loader_ok n l -> script_small s -> loader_ok n (set_file (set_scripts (<[i := s]> (scripts (ld_file l))) (ld_file l)) l).
Proof.
  intros [] Hs. split; cbn; try done.
  - intros j Hj. rewrite length_insert. auto.
  - by apply Forall_insert.
  - unfold len in *. by rewrite length_insert.
Qed.

Lemma load_trigger_ok n c l : cursor_ok c -> loader_ok n l -> leaf_result n (Some (load_trigger c l)).
Proof.
  intros Hc Hl. unfold leaf_result. destruct (load_trigger c l) as [[l' c']|] eqn:H; [|done].
  unfold load_trigger in H. repeat next H. injection H as <- <-. apply scripts_ok_insert; [done|].
  match goal with E : get_z (scripts _) _ = Some ?s |- _ =>
    apply get_z_Some in E as [_ E]; destruct (Forall_lookup_1 _ _ _ _ (lo_scripts _ _ Hl) E) as (? & ? & ? & ? & ? & ?) end.
  split; [|split; [|split; [|split; [|split]]]]; cbn; try done. unfold fits, len in *. by rewrite length_insert.
Qed.

Lemma load_links_ok n c l : cursor_ok c -> loader_ok n l -> leaf_result n (Some (load_links c l)).
Proof.
  intros Hc Hl. unfold leaf_result. destruct (load_links c l) as [[l' c']|] eqn:H; [|done].
  unfold load_links in H. repeat next H. injection H as <- <-. unfold in_u in *.
  destruct Hl. split; cbn; try done. unfold fits, len. lia.
Qed.

Lemma load_line_info_ok n c l : cursor_ok c -> loader_ok n l -> leaf_result n (Some (load_line_info c l)).
Proof.
  intros Hc Hl. unfold leaf_result. destruct (load_line_info c l) as [[l' c']|] eqn:H; [|done].
  unfold load_line_info in H. repeat next H. injection H as <- <-. destruct Hl. by split.
Qed.

(** An index with bit 30 clear that fits the input is below [2^30]. *)
Lemma index_small z : is_u32 z -> Z.testbit z 30 = false -> z <= I32_MAX -> z < 2 ^ 30.
Proof.
  intros Hz Hb Hm. destruct (Z.lt_ge_cases z (2 ^ 30)); [done|]. apply Z.testbit_false in Hb; [|lia].
  exfalso. ranges. Z.div_mod_to_equations. lia.
Qed.

Lemma land_u32 a b : is_u32 a -> 0 <= b -> is_u32 (Z.land a b).
Proof.
  unfold in_u. intros Ha Hb. assert (E : Z.land a b = Z.land a b mod 2 ^ 32).
  { rewrite <- Z.land_ones, <- Z.land_assoc, (Z.land_comm b), Z.land_assoc, Z.land_ones by lia. by rewrite Z.mod_small. }
  rewrite E. apply Z.mod_pos_bound. lia.
Qed.

Lemma put_name_fits index name names :
  0 <= index < 2 ^ 30 -> fits names -> fits (put_name index name names).
Proof.
  intros Hi Hn. unfold fits, put_name, len in *. rewrite length_insert, length_app, length_replicate. ranges. lia.
Qed.

Lemma load_variable_ok n c l : cursor_ok c -> loader_ok n l -> leaf_result n (load_variable c l).
Proof.
  intros Hc Hl. unfold leaf_result, load_variable.
  destruct (rbind (cu_u32 c) _) as [[[[raw name] script] c1]|] eqn:H; [|done].
  repeat next H. injection H as <- <- <- <-.
  match goal with E : current_script l = Some ?i |- _ => apply (lo_current _ _ Hl) in E;
    destruct (lookup_lt_is_Some_2 (scripts (ld_file l)) i E) as [s Es]; rewrite Es; cbn [mbind option_bind];
    destruct (Forall_lookup_1 _ _ _ _ (lo_scripts _ _ Hl) Es) as (? & ? & ? & ? & ? & ?) end.
  pose proof (lo_input _ _ Hl) as Hi. change 0x40000000 with (2 ^ 30). rewrite land_pow2_test by lia. rewrite negb_involutive.
  destruct (Z.testbit a 30) eqn:Eb.
  - destruct (Z.ltb_spec (input_len l) (Z.land a 0xbfffffff)); [done|]. apply scripts_ok_insert; [done|].
    assert (is_u32 (Z.land a 0xbfffffff)) by (apply land_u32; [done|lia]). assert (Z.testbit (Z.land a 0xbfffffff) 30 = false).
    { rewrite Z.land_spec. by rewrite andb_false_r. }
    split; [|split; [|split; [|split; [|split]]]]; cbn; try done. apply put_name_fits; [|done].
    split; [unfold in_u in *; lia|apply index_small; try done; lia].
  - destruct (Z.ltb_spec (input_len l) a); [done|]. apply scripts_ok_insert; [done|].
    split; [|split; [|split; [|split; [|split]]]]; cbn; try done. apply put_name_fits; [|done].
    split; [unfold in_u in *; lia|apply index_small; try done; lia].
Qed.

Lemma load_struct_type_ok n c l : cursor_ok c -> loader_ok n l -> leaf_result n (Some (load_struct_type c l)).
Proof.
  intros Hc Hl. unfold leaf_result. destruct (load_struct_type c l) as [[l' c']|] eqn:H; [|done].
  unfold load_struct_type in H. repeat next H. injection H as <- <-. destruct Hl. by split.
Qed.

Lemma load_code_ok n payload c l :
  bytes_ok payload -> fits payload -> loader_ok n l -> leaf_result n (Some (load_code payload c l)).
Proof. intros Hb Hf Hl. unfold leaf_result, load_code. destruct (saw_code l); [done|]. destruct Hl. by split. Qed.

Lemma leaf_result_weaken n m r : n <= m -> leaf_result n r -> leaf_result m r.
Proof. intros ?. destruct r as [[[l c]|]|]; [|done..]. by apply loader_ok_weaken. Qed.

Lemma cursor_new_ok b base : bytes_ok b -> cursor_ok (cursor_new b base).
Proof. intros ?. split; cbn; [done|]. pose proof (len_nonneg b). lia. Qed.

(** Every leaf is handled, and the loader stays well formed. *)
Lemma load_leaf_ok n t payload c l :
  cursor_ok c -> cu_bytes c = payload -> fits payload -> loader_ok n l ->
  leaf_result (n + HEADER_LEN) (load_leaf t payload c l).
Proof.
  intros Hc Ec Hf Hl. assert (Hb : bytes_ok payload) by (subst; apply Hc).
  assert (W : forall r, leaf_result n r -> leaf_result (n + HEADER_LEN) r).
  { intros r. apply leaf_result_weaken. unfold HEADER_LEN. lia. }
  unfold load_leaf. repeat case_match; try done; subst;
    first [by apply load_script_info_ok | apply W].
  - done.
  - by apply load_const_ok.
  - by apply load_code_ok.
  - by apply load_trigger_ok.
  - apply load_links_ok; [done|]. destruct Hl. by split.
  - apply load_line_info_ok; [done|]. destruct Hl. by split.
  - by apply load_variable_ok.
  - by apply load_struct_type_ok.
Qed.

Lemma load_ok n t payload base l :
  bytes_ok payload -> fits payload -> loader_ok n l ->
  match load t payload base l with None => False | Some (Err _) => True | Some (Ok l') => loader_ok (n + HEADER_LEN) l' end.
Proof.
  intros Hb Hf Hl. unfold load.
  pose proof (load_leaf_ok n t payload (cursor_new payload base) l (cursor_new_ok _ _ Hb) eq_refl Hf Hl) as R.
  destruct (load_leaf _ _ _ _) as [[[l' c']|]|]; [|done..]. cbn in *. by destruct (cu_finish t c').
Qed.

(** The leaf loop returns, and its position bounds the scripts read. *)
Lemma load_leaves_ok fuel b at_ k l :
  bytes_ok b -> fits b -> 0 <= at_ <= len b -> len b - at_ <= Z.of_nat fuel -> loader_ok at_ l ->
  match load_leaves fuel b (len b) at_ k l with
  | None => False | Some (Err _) => True | Some (Ok (_, l')) => loader_ok (len b) l'
  end.
Proof.
  intros Hb Hf. revert at_ k l. induction fuel as [|fuel IH]; intros at_ k l Ha Hfuel Hl; cbn [load_leaves];
    (destruct (Z.ltb_spec at_ (len b)) as [Hlt|Hge]; [|by eapply loader_ok_weaken; [|done]; lia]); [lia|].
  destruct (header_at b at_) as [h|]; [|done].
  destruct (Z.ltb_spec (hd_size h) HEADER_LEN) as [|Hs]; [done|]. destruct (negb _); [done|].
  destruct (Z.ltb_spec (len b) (at_ + hd_size h)); [done|]. unfold HEADER_LEN in Hs.
  set (payload := take _ _).
  assert (Hp : bytes_ok payload) by by apply bytes_ok_take, bytes_ok_drop.
  assert (Hpf : fits payload).
  { unfold fits, len, payload in *. rewrite length_take, length_drop. lia. }
  pose proof (load_ok at_ (hd_tag h) payload (at_ + HEADER_LEN) l Hp Hpf Hl) as R.
  destruct (load _ _ _ _) as [[l'|]|]; [|done..]. apply IH; [lia..|].
  eapply loader_ok_weaken; [|done]. unfold HEADER_LEN. lia.
Qed.

Lemma shape_ok {A} (l : list A) : fits l -> is_Some (shape (length l)).
Proof. unfold fits, len, shape. intros H. apply Z.leb_le in H. by rewrite H. Qed.

Lemma script_shape_ok s : script_small s -> is_Some (script_shape s).
Proof.
  intros (H1 & H2 & H3 & H4 & H5 & _). unfold script_shape.
  apply shape_ok in H1 as [? ->], H2 as [? ->], H3 as [? ->], H4 as [? ->], H5 as [? ->]. by eexists.
Qed.

Lemma finish_ok n l : n <= I32_MAX -> loader_ok n l -> exists lf, finish l = Some lf /\ lf_file lf = ld_file l.
Proof.
  intros Hn []. unfold finish.
  assert (is_Some (mapM script_shape (scripts (ld_file l)))) as [ms ->].
  { apply mapM_is_Some. eapply Forall_impl; [done|]. apply script_shape_ok. }
  apply shape_ok in lo_code_fits0 as [? ->], lo_links0 as [? ->].
  assert (Hs : fits (scripts (ld_file l))) by (unfold fits, HEADER_LEN in *; pose proof (len_nonneg (scripts (ld_file l))); lia).
  apply shape_ok in Hs as [? ->]. by eexists.
Qed.

(** A file as the machine needs it. *)
Definition file_small (f : ScriptFile) : Prop :=
  bytes_ok (code f) /\ Forall (value_ok (mkHeap [] [])) (const_pool f) /\ Forall script_small (scripts f) /\
  fits (linked_file_names f).

Lemma load_file_ok b source :
  bytes_ok b ->
  match load_file b source with
  | None => False | Some (Err _) => True | Some (Ok lf) => file_small (lf_file lf) end.
Proof.
  intros Hb. unfold load_file. destruct (Z.ltb_spec I32_MAX (len b)) as [|Hf]; [done|].
  unfold header_at. destruct (Z.leb_spec (0 + HEADER_LEN) (len b)) as [H8|]; [|done]. cbn [hd_size hd_tag hd_children].
  destruct (_ <? HEADER_LEN); [done|]. destruct (Z.eqb_spec (u32le b (Z.to_nat 0)) (len b)) as [->|]; [|done]. cbn [negb].
  destruct (negb _); [done|].
  assert (L0 : loader_ok HEADER_LEN (loader_new source (len b))) by (split; cbn; try done; by constructor).
  pose proof (load_leaves_ok (length b) b HEADER_LEN 0 (loader_new source (len b)) Hb Hf) as R.
  unfold HEADER_LEN in R, H8 at 1. specialize (R ltac:(lia) ltac:(unfold len; lia) L0). fold HEADER_LEN in R.
  destruct (load_leaves _ _ _ _ _ _) as [[[k l]|]|]; [|done..]. cbn [mbind option_bind].
  destruct (negb _); [done|]. destruct (finish_ok (len b) l Hf R) as (lf & -> & E). cbn. rewrite E. by destruct R.
Qed.

(** ** Programs *)

Lemma rposition_Some {A} (f : A -> bool) l i :
  rposition f l = Some i ->
  exists x, l !! i = Some x /\ f x = true /\ forall j y, (i < j)%nat -> l !! j = Some y -> f y = false.
Proof.
  assert (N : forall l, rposition f l = None -> forall j y, l !! j = Some y -> f y = false).
  { clear. induction l as [|x l IH]; [done|]. cbn. destruct (rposition f l); [done|].
    destruct (f x) eqn:Ex; [done|]. intros _ [|j] y; cbn; [by intros [= <-]|by apply IH]. }
  revert i. induction l as [|x l IH]; [done|]. cbn. intros i. destruct (rposition f l) as [j|] eqn:E.
  - intros [= <-]. destruct (IH j eq_refl) as (y & ? & ? & R). exists y. split; [done|]. split; [done|].
    intros [|k] z Hk; [lia|]. apply R. lia.
  - destruct (f x) eqn:Ex; [|done]. intros [= <-]. exists x. split; [done|]. split; [done|].
    intros [|k] z Hk; [lia|]. cbn. by apply N.
Qed.

Lemma rposition_lt {A} (f : A -> bool) l i : rposition f l = Some i -> (i < length l)%nat.
Proof. intros (x & H & _)%rposition_Some. by eapply lookup_lt_Some. Qed.

(** An include [n] of a file whose predecessors are [fs] has the index [i]. *)
Definition links_to (fs : list ScriptFile) (n : text) (i : nat) : Prop :=
  rposition (fun f => eq_ignore_ascii_case (source_file f) n) fs = Some i.

Lemma resolve_links_ok source fs names ixs :
  resolve_links source fs names = Ok ixs -> Forall2 (links_to fs) names ixs.
Proof.
  revert ixs. induction names as [|n names IH]; intros ixs H; cbn [resolve_links] in H; [injection H as <-; constructor|].
  destruct (negb _); [done|]. destruct (rposition _ fs) as [i|] eqn:E; [|done]. cbn [ok_or rbind] in H.
  apply rbind_Ok in H as (js & Hj & [= <-]). constructor; [done|by apply IH].
Qed.

(** Indices below the file count are [i32]s. *)
Lemma indices_i32 ixs : Forall (fun i => Z.of_nat i <= I32_MAX) ixs -> mapM i32_of_usize ixs = Some (map Z.of_nat ixs).
Proof.
  intros H. apply mapM_Some. induction H as [|i ixs Hi _ IH]; constructor; [|done].
  unfold i32_of_usize. apply Z.leb_le in Hi. by rewrite Hi.
Qed.

(** The files loaded so far and their sidecars: each include of the [k]-th
    names one of the first [k]. *)
Definition linked_so_far (fs : list ScriptFile) (ms : list ScriptFileWalkMeta) : Prop :=
  length ms = length fs /\
  forall k f m, fs !! k = Some f -> ms !! k = Some m ->
    exists ixs, linked_file_indices m = map Z.of_nat ixs /\ Forall2 (links_to (take k fs)) (linked_file_names f) ixs.

Lemma linked_snoc fs ms f m ixs :
  linked_so_far fs ms -> linked_file_indices m = map Z.of_nat ixs -> Forall2 (links_to fs) (linked_file_names f) ixs ->
  linked_so_far (fs ++ [f]) (ms ++ [m]).
Proof.
  intros [Hl H] Em Hf. split; [rewrite !length_app; cbn; lia|]. intros k f' m' Ef Em'.
  apply lookup_snoc_Some in Ef as [[Hk Ef]|[-> ->]].
  - apply lookup_snoc_Some in Em' as [[_ Em']|[-> _]]; [|lia]. rewrite take_app_le by lia. by apply (H k f' m').
  - apply lookup_snoc_Some in Em' as [[Hk' _]|[_ ->]]; [lia|]. rewrite take_app_length. by exists ixs.
Qed.

Definition inputs_ok (inputs : list CompiledScriptFile) : Prop := Forall (fun i => bytes_ok (cs_bytes i)) inputs.

Lemma load_each_ok inputs fs ms names :
  inputs_ok inputs -> len fs + len inputs <= I32_MAX -> Forall file_small fs -> linked_so_far fs ms ->
  match load_each inputs fs ms names with
  | None => False | Some (Err _) => True
  | Some (Ok (fs', ms', _)) => Forall file_small fs' /\ linked_so_far fs' ms'
  end.
Proof.
  intros Hi. revert fs ms names. induction Hi as [|i inputs Hb _ IH]; intros fs ms names Hn Hs Hl; cbn [load_each]; [done|].
  pose proof (load_file_ok (cs_bytes i) (cs_source_file i) Hb) as R.
  destruct (load_file _ _) as [[lf|]|]; [|done..]. cbn [mbind option_bind].
  destruct (resolve_links _ _ _) as [ixs|] eqn:E; [|done]. apply resolve_links_ok in E.
  unfold len in Hn. cbn [length] in Hn.
  assert (Hx : Forall (fun i => Z.of_nat i <= I32_MAX) ixs).
  { eapply Forall2_Forall_r; [done|]. apply Forall_true. intros n j ?%rposition_lt. lia. }
  rewrite (indices_i32 _ Hx). cbn [mbind option_bind]. apply IH.
  - rewrite len_app. unfold len. cbn. lia.
  - apply Forall_app. split; [done|]. by constructor.
  - by eapply linked_snoc.
Qed.

Lemma register_types names p : files (fold_left (fun p n => snd (register_global_type_name n p)) names p) = files p.
Proof.
  revert p. induction names as [|n names IH]; [done|]. intros p. cbn. rewrite IH. unfold register_global_type_name.
  by destruct (position _ _).
Qed.

(** What the loader returns: a program the machine can run whose includes are
    resolved. *)
Lemma load_program_files_ok inputs :
  inputs_ok inputs ->
  match load_program_files inputs with
  | None => False | Some (Err _) => True
  | Some (Ok p) => Forall file_small (files p) /\
      exists ms, walk_meta p = Some (mkProgramWalkMeta ms) /\ linked_so_far (files p) ms /\
        linked_files p = imap (fun i _ => match ms !! i with
          | Some m => map (fun ix => if ix <? 0 then USIZE_MAX else ix) (linked_file_indices m) | None => [] end) (files p)
  end.
Proof.
  intros Hi. unfold load_program_files. destruct (Z.ltb_spec I32_MAX (len inputs)) as [|Hn]; [done|].
  destruct (List.find _ _); [done|].
  assert (L0 : linked_so_far [] []) by (split; [done|]; intros k f m Hk; done).
  pose proof (load_each_ok inputs [] [] [] Hi) as R. unfold len at 1 in R. cbn [length] in R.
  specialize (R ltac:(lia) ltac:(constructor) L0).
  destruct (load_each _ _ _ _) as [[[[fs ms] names]|]|]; [|done..]. cbn [mbind option_bind rbind set_walk_meta set_files files walk_meta linked_files].
  destruct R as [Rs Rl]. split; [done|]. exists ms. done.
Qed.

Lemma script_small_ok h s : script_small s -> script_ok h s.
Proof. intros (_ & _ & _ & _ & _ & E). unfold script_ok. rewrite E. constructor. Qed.

Lemma files_small_ok h fs : Forall file_small fs -> heap_le (mkHeap [] []) h -> Forall (sfile_ok h) fs.
Proof.
  intros Hf Hh. eapply Forall_impl; [done|]. intros f (? & ? & ? & _). split; [done|]. split.
  - eapply Forall_impl; [done|]. intros v. by apply value_ok_mono.
  - eapply Forall_impl; [done|]. apply script_small_ok.
Qed.

(** The loader is total: whatever bytes the containers hold, no index, cast or
    expectation of it fails, and its loop ends. *)
Theorem load_never_panics inputs : inputs_ok inputs -> load_program_files inputs <> None.
Proof. intros Hi H. pose proof (load_program_files_ok inputs Hi) as R. by rewrite H in R. Qed.

(** Includes are resolved backwards: the [j]-th include of the [k]-th file is
    bound to the last earlier file whose name it is, ASCII case aside, and
    never to the file itself or a later one. *)
Theorem links_earlier inputs p (k j : nat) f name :
  inputs_ok inputs -> load_program_files inputs = Some (Ok p) ->
  files p !! k = Some f -> linked_file_names f !! j = Some name ->
  exists i g, (ixs ← resolved_links (Z.of_nat k) p; ixs !! j) = Some (Z.of_nat i) /\
    (i < k)%nat /\ files p !! i = Some g /\ eq_ignore_ascii_case (source_file g) name = true /\
    forall i' g', (i < i' < k)%nat -> files p !! i' = Some g' -> eq_ignore_ascii_case (source_file g') name = false.
Proof.
  intros Hi H Hk Hj. pose proof (load_program_files_ok inputs Hi) as R. rewrite H in R.
  destruct R as (_ & ms & _ & [Hlen Hl] & Elinks).
  destruct (lookup_lt_is_Some_2 ms k) as [m Em]; [rewrite Hlen; by eapply lookup_lt_Some|].
  destruct (Hl k f m Hk Em) as (ixs & Ei & HF). destruct (Forall2_lookup_l _ _ _ _ _ HF Hj) as (i & Ex & Hto).
  pose proof (rposition_lt _ _ _ Hto) as Hlt. rewrite length_take in Hlt.
  destruct (rposition_Some _ _ _ Hto) as (g & Eg & En & Hlast). exists i, g. rewrite lookup_take_Some in Eg.
  split; [|split; [lia|split; [apply Eg|split; [done|]]]].
  - unfold resolved_links. rewrite get_z_nat, Elinks, list_lookup_imap, Hk. cbn. rewrite Em, Ei, !list_lookup_fmap, Ex. cbn.
    destruct (Z.ltb_spec (Z.of_nat i) 0); [lia|done].
  - intros i' g' Hi' Eg'. apply (Hlast i'); [lia|]. apply lookup_take_Some. split; [done|lia].
Qed.

Lemma loaded_wf {H : Type} inputs p (host : H) h :
  inputs_ok inputs -> load_program_files inputs = Some (Ok p) -> heap_ok h -> wf (Vm.new p host h).
Proof.
  intros Hi Hp Hh. pose proof (load_program_files_ok inputs Hi) as R. rewrite Hp in R. destruct R as [R _].
  split; cbn; try done; try (by constructor). apply files_small_ok; [done|]. split; cbn; lia.
Qed.

(** (C16) What untrusted scripts can do: whatever bytes were loaded and whatever
    script is started with whatever arguments, the machine made from them does
    not panic, executes at most one bytecode more than its budget, stays well
    formed however the run ends, and after an [Ok] run has no frame left
    ([run_result]).  A native stack overflow, by a chain of references longer
    than [depth], is the one outcome without a result. *)
Theorem loaded_program_runs {std : StdLib} {H : Type} {hst : Host H}
    (builtin : Z -> option BuiltinDecl) (depth : nat) {laws : HostLaws H builtin} inputs p (host : H) h file script args :
  inputs_ok inputs -> load_program_files inputs = Some (Ok p) -> heap_ok h -> Forall (value_ok h) args ->
  run_result (Vm.new p host h) file script (length args)
    (Vm.run_script_index builtin depth file script args (Vm.new p host h)).
Proof.
  intros Hi Hp Hh Ha. unfold Vm.run_script_index. rewrite <- (length_map SVal args).
  apply (run_script_slots_ok builtin depth); [by eapply loaded_wf|done|by apply sok_vals].
Qed.

(** ** Examples *)

Import AsciiStd.

Definition counter_input : CompiledScriptFile := mkCompiledScriptFile [0x61] (root_bytes counter_leaves).
(** A file that includes [A] and [b]. *)
Definition including_input : CompiledScriptFile :=
  mkCompiledScriptFile [0x63] (root_bytes [(6, words [2] ++ string_bytes [0x41] ++ string_bytes [0x62])]).
Definition three_inputs : list CompiledScriptFile :=
  [counter_input; mkCompiledScriptFile [0x62] (root_bytes []); including_input].
(** A container whose last chunk claims more bytes than there are. *)
Definition cut_input : CompiledScriptFile :=
  mkCompiledScriptFile [0x61] (to_le 4 16 ++ to_le 2 0 ++ to_le 2 1 ++ to_le 4 0xffffffff ++ to_le 2 2 ++ to_le 2 0).

#[export] Instance inputs_ok_dec inputs : Decision (inputs_ok inputs).
Proof. unfold inputs_ok. apply _. Defined.

Lemma load_never_panics_witness :
  load_program_files [cut_input] <> None /\ load_program_files [cut_input] = Some (Err (Truncated 8 0xffffffff 8)).
Proof.
  split; [|by vm_compute]. apply (load_never_panics [cut_input]). apply (bool_decide_unpack _). by vm_compute.
Defined.

Lemma links_earlier_witness :
  exists p f, load_program_files three_inputs = Some (Ok p) /\ files p !! 2%nat = Some f /\
    exists i g, (ixs ← resolved_links 2 p; ixs !! 0%nat) = Some (Z.of_nat i) /\
      (i < 2)%nat /\ files p !! i = Some g /\ eq_ignore_ascii_case (source_file g) [0x41] = true.
Proof.
  let r := eval vm_compute in (load_program_files three_inputs) in
  match r with Some (Ok ?p) =>
    let f := eval vm_compute in (files p !! 2%nat) in match f with Some ?f => exists p, f end end.
  match goal with |- load_program_files _ = Some (Ok ?p) /\ _ => assert (E : load_program_files three_inputs = Some (Ok p)) by (by vm_compute) end.
  split; [exact E|]. split; [reflexivity|].
  destruct (links_earlier three_inputs _ 2 0 _ [0x41] ltac:(apply (bool_decide_unpack _); by vm_compute) E eq_refl eq_refl)
    as (i & g & ? & ? & ? & ? & _).
  exists i, g. split; [assumption|]. split; [assumption|]. split; assumption.
Defined.

Lemma loaded_program_runs_witness :
  exists p, load_program_files [counter_input] = Some (Ok p) /\
    run_result (Vm.new p tt (mkHeap [] [])) 0 0 0
      (Vm.run_script_index Example.no_builtins 8 0 0 [] (Vm.new p tt (mkHeap [] []))) /\
    exists o s', Vm.run_script_index Example.no_builtins 8 0 0 [] (Vm.new p tt (mkHeap [] [])) = Comp (Ok o, s') /\
      ro_executed o = 6 /\ map statics (flat_map scripts (files (prog s'))) = [[Some (VInt 1)]].
Proof.
  let r := eval vm_compute in (load_program_files [counter_input]) in match r with Some (Ok ?p) => exists p end.
  match goal with |- load_program_files _ = Some (Ok ?p) /\ _ => assert (E : load_program_files [counter_input] = Some (Ok p)) by (by vm_compute) end.
  split; [exact E|]. split.
  - apply (loaded_program_runs Example.no_builtins 8 [counter_input] _ tt (mkHeap [] []) 0 0 []); [|exact E|by split; constructor|constructor].
    apply (bool_decide_unpack _). by vm_compute.
  - eexists _, _. split; [vm_compute; reflexivity|by split].
Defined.
