(* ===== verification/BhsBuiltinSpec.v ===== *)
(** * What the utility builtins do

    The array builtins act on the elements of the array as list operations
    do; the random builtins draw from the simulation's stream; a script whose
    builtins are utilities other than [add(array, value)] cannot make the
    host panic, and that one panics only on an array reachable from the value
    added to it. *)

From S2P Require Import Prelude NetText SimRandom BhsOpcode BhsDisasm BhsStd BhsValue BhsOps BhsProgram BhsChunk BhsVm BhsBuiltins BhsHeapSafety BhsVmSafety BhsChunkSafety.
From Stdlib Require String.
Import (notations) String.
#[local] Open Scope string_scope.
#[local] Open Scope list_scope.
#[local] Open Scope Z_scope.

(** ** The borrowed copy *)

Inductive reaches (h : Heap) : Value -> nat -> Prop :=
| reaches_here a : reaches h (VObj a) a
| reaches_in b c a : c ∈ o_values (obj_at h b) -> reaches h (cell_at h c) a -> reaches h (VObj b) a.

Definition copier_extends (f : Value -> Heap -> option (Value * Heap)) : Prop :=
  forall v h v' h', f v h = Some (v', h') -> extends h h'.

Lemma map_cells_extends f cs h l h' : copier_extends f -> map_cells f cs h = Some (l, h') -> extends h h'.
Proof.
  intros Hf. revert h l. induction cs as [|c cs IH]; intros h l H; cbn [map_cells] in H; [by injection H as <- <-|].
  destruct (f (cell_at h c) h) as [[v h1]|] eqn:E; [|done]. cbn [mbind option_bind cell] in H.
  destruct (map_cells f cs _) as [[m h2]|] eqn:Em; [|done]. injection H as <- <-.
  etrans; [by eapply Hf|]. etrans; [apply (extends_cell v)|by eapply IH].
Qed.

Lemma duplicate_extends depth : copier_extends (duplicate depth).
Proof.
  induction depth as [|depth IH]; intros v h v' h' H; (destruct v; [by injection H as <- <-..| |by injection H as <- <-]); [done|].
  cbn [duplicate] in H. destruct (map_cells _ _ h) as [[cs h1]|] eqn:E; [|done]. injection H as <- <-.
  etrans; [by eapply map_cells_extends|apply (extends_new_obj _ h1)].
Qed.

(** Reading an old place in an extended heap. *)
Lemma cell_at_extends h h' c : extends h h' -> (c < length (h_cells h))%nat -> cell_at h' c = cell_at h c.
Proof.
  intros He [v Hc]%lookup_lt_is_Some_2. unfold cell_at. by rewrite Hc, (extends_cell_lookup _ _ _ _ He Hc).
Qed.
Lemma obj_at_extends h h' a : extends h h' -> (a < length (h_objs h))%nat -> obj_at h' a = obj_at h a.
Proof.
  intros He [v Hc]%lookup_lt_is_Some_2. unfold obj_at. by rewrite Hc, (extends_obj_lookup _ _ _ _ He Hc).
Qed.

Lemma reaches_back h h' v a : heap_ok h -> value_ok h v -> extends h h' -> reaches h' v a -> reaches h v a.
Proof.
  intros Hh Hv He R. induction R as [a|b c a Hc _ IH]; [constructor|]. simpl in Hv.
  rewrite (obj_at_extends _ _ _ He Hv) in Hc.
  assert (Hlt : (c < length (h_cells h))%nat).
  { destruct (obj_at_ok h b Hh) as [Ho _]. rewrite Forall_forall in Ho. by apply Ho. }
  rewrite (cell_at_extends _ _ _ He Hlt) in IH. apply reaches_in with c; [done|]. by apply IH, cell_at_ok.
Qed.

(** [duplicate_locked] is [duplicate] wherever it does not meet the lock. *)
Definition agrees (f : Value -> Heap -> option (Value * Heap)) (g : Value -> Heap -> comp (Value * Heap)) (lock : nat) : Prop :=
  forall v h, heap_ok h -> value_ok h v ->
    match g v h with Comp r => f v h = Some r | Panic => reaches h v lock | StackOverflow => f v h = None end.

Lemma map_cells_agrees f g lock cs h :
  copier f -> copier_extends f -> agrees f g lock -> heap_ok h -> Forall (fun c => c < length (h_cells h))%nat cs ->
  match map_cells_locked g cs h with
  | Comp r => map_cells f cs h = Some r
  | Panic => exists c, c ∈ cs /\ reaches h (cell_at h c) lock
  | StackOverflow => map_cells f cs h = None
  end.
Proof.
  intros Hf Hx Ha. revert h. induction cs as [|c cs IH]; intros h Hh Hcs; cbn [map_cells_locked map_cells]; [done|].
  apply Forall_cons in Hcs as [Hc Hcs].
  pose proof (Ha (cell_at h c) h Hh (cell_at_ok h c Hh)) as A. pose proof (Hf (cell_at h c) h Hh (cell_at_ok h c Hh)) as F.
  destruct (g (cell_at h c) h) as [[v h1]| |]; cbn [comp_bind].
  2: { exists c. split; [left|done]. } 2: { by rewrite A. }
  rewrite A in F |- *. destruct F as (F1 & F2 & F3). cbn [mbind option_bind cell].
  pose proof (cells_ok [v] h1 F1 ltac:(by constructor)) as (C1 & C2 & _). cbn [cells] in C1, C2.
  assert (Hcs' : Forall (fun c => c < length (h_cells h1 ++ [v]))%nat cs).
  { eapply Forall_impl; [done|]. intros x Hx'. destruct F2. rewrite length_app. simpl in *. lia. }
  specialize (IH (mkHeap (h_cells h1 ++ [v]) (h_objs h1)) C1 Hcs').
  destruct (map_cells_locked g cs _) as [[l h2]| |]; cbn [comp_bind]; [by rewrite IH| |by rewrite IH].
  destruct IH as (x & Hx' & R). exists x. split; [by right|].
  assert (He : extends h (mkHeap (h_cells h1 ++ [v]) (h_objs h1))).
  { etrans; [by eapply Hx|apply (extends_cell v)]. }
  rewrite Forall_forall in Hcs. rewrite (cell_at_extends _ _ _ He) in R by by apply Hcs.
  by eapply reaches_back; [| |exact He|]; [|apply cell_at_ok|].
Qed.

Lemma duplicate_locked_agrees lock depth : agrees (duplicate depth) (duplicate_locked lock depth) lock.
Proof.
  induction depth as [|depth IH]; intros v h Hh Hv; (destruct v as [| | |a|]; [done..| |done]); [done|].
  cbn [duplicate_locked duplicate]. destruct (Nat.eqb_spec a lock) as [->|]; [constructor|].
  pose proof (map_cells_agrees _ _ lock (o_values (obj_at h a)) h (duplicate_ok depth) (duplicate_extends depth) IH Hh) as M.
  specialize (M (proj1 (obj_at_ok h a Hh))).
  destruct (map_cells_locked _ _ _) as [[cs h1]| |]; cbn [comp_bind]; [by rewrite M| |by rewrite M].
  destruct M as (c & Hc & R). by eapply reaches_in.
Qed.

(** ** The heap after a builtin *)

(** The next draw is an [i32]. *)
Class UtilLaws (H : Type) `{UtilMethods H} := {
  random_i32 : forall lo hi u, is_i32 lo -> is_i32 hi -> forall z, fst (game_random lo hi u) = Ok z -> is_i32 z }.

Section Laws.
Context {std : StdLib} {trig : Trig} {H : Type} {methods : UtilMethods H} {laws : UtilLaws H} (depth : nat).
Implicit Types (h : Heap) (u : H).

(** What a call comes to; it panics only as [add(array, value)]. *)
Definition settles (decl : BuiltinDecl) (args : list Value) (h : Heap) (r : outcome (H:=H)) : Prop :=
  match r with
  | Panic => bd_index decl = 25 /\ exists a, obj (arg args 0) = Some a /\ reaches h (arg args 1) a
  | StackOverflow => True
  | Comp (r, _, h') => heap_ok h' /\ heap_le h h' /\ (forall v, r = Ok v -> value_ok h' v)
  end.

Lemma settles_pure decl args h u r :
  heap_ok h -> (forall v, r = Ok v -> value_ok h v) -> settles decl args h (Comp (r, u, h)).
Proof. intros Hh Hr. split; [done|]. split; [reflexivity|done]. Qed.

Lemma arg_ok args h i : Forall (value_ok h) args -> value_ok h (arg args i).
Proof.
  intros Ha. unfold arg. destruct (args !! i) as [v|] eqn:E; [|done]. by eapply Forall_lookup_1 in Ha.
Qed.

Lemma arg_i32 args h i : Forall (value_ok h) args -> is_i32 (as_int (arg args i)).
Proof. intros Ha. apply as_int_range. intros z E. pose proof (arg_ok args h i Ha) as Hv. by rewrite E in Hv. Qed.

Lemma set_values_ok a vs h :
  heap_ok h -> Forall (fun c => c < length (h_cells h))%nat vs -> heap_ok (set_values a vs h) /\ heap_le h (set_values a vs h).
Proof. intros Hh Hv. apply set_obj_ok; [done|]. split; [done|]. apply (obj_at_ok h a Hh). Qed.

Lemma push_cell_ok a v h :
  heap_ok h -> value_ok h v ->
  let '(i, h') := push_cell a v h in heap_ok h' /\ heap_le h h' /\ value_ok h' i.
Proof.
  intros Hh Hv. unfold push_cell. cbn [cell].
  pose proof (cells_ok [v] h Hh ltac:(by constructor)) as (C1 & C2 & C3 & _). cbn [cells] in C1, C2, C3.
  edestruct (set_values_ok a) as [S1 S2]; [exact C1| |split; [exact S1|split; [by etrans|by apply wrap_s_range]]].
  apply Forall_app. split; [apply (obj_at_ok _ a C1)|exact C3].
Qed.

Lemma settles_push decl args a v h h1 u :
  heap_le h h1 -> heap_ok h1 -> value_ok h1 v ->
  settles decl args h (let '(i, h2) := push_cell a v h1 in Comp (Ok i, u, h2)).
Proof.
  intros Hle Hh Hv. pose proof (push_cell_ok a v h1 Hh Hv) as P. destruct (push_cell a v h1) as [i h2].
  destruct P as (P1 & P2 & P3). split; [done|]. split; [by etrans|]. by intros w [= <-].
Qed.

Lemma add_value_ok decl args u h :
  bd_index decl = 25 -> heap_ok h -> Forall (value_ok h) args -> settles decl args h (add_value depth args u h).
Proof.
  intros Hd Hh Ha. unfold add_value, with_obj. destruct (obj (arg args 0)) as [a|] eqn:Eo; [|by apply settles_pure].
  destruct (negb _); [apply settles_pure; [done|]; intros v [= <-]; simpl; unfold in_s; lia|].
  pose proof (arg_ok args h 1 Ha) as Hv. pose proof (duplicate_locked_agrees a depth _ h Hh Hv) as D.
  pose proof (duplicate_ok depth _ h Hh Hv) as C.
  destruct (duplicate_locked a depth _ h) as [[d h1]| |]; cbn [comp_bind]; [|by split; [|exists a]|done].
  rewrite D in C. destruct C as (? & ? & ?). by apply settles_push.
Qed.

Lemma add_blank_ok decl args u h : heap_ok h -> settles decl args h (add_blank args u h).
Proof.
  intros Hh. unfold add_blank, with_obj. destruct (obj _) as [a|]; [|by apply settles_pure].
  destruct (o_blank_base (obj_at h a)) as [b|] eqn:Eb.
  - apply settles_push; [reflexivity|done|]. by apply (obj_at_ok h a Hh).
  - apply settles_pure; [done|]. intros v [= <-]. simpl. unfold in_s. lia.
Qed.

Lemma settles_set decl args a vs v h u :
  heap_ok h -> Forall (fun c => c < length (h_cells h))%nat vs -> value_ok h v ->
  settles decl args h (Comp (Ok v, u, set_values a vs h)).
Proof.
  intros Hh Hvs Hv. destruct (set_values_ok a vs h Hh Hvs). split; [done|]. split; [done|].
  intros w [= <-]. by eapply value_ok_mono.
Qed.

Lemma remove_index_ok decl args u h : heap_ok h -> settles decl args h (remove_index args u h).
Proof.
  intros Hh. unfold remove_index, with_obj. destruct (obj _) as [a|]; [|by apply settles_pure].
  destruct (_ || _); [by apply settles_pure|]. apply settles_set; [done| |by apply wrap_s_range].
  apply Forall_delete, (obj_at_ok h a Hh).
Qed.

Lemma clear_array_ok decl args u h : heap_ok h -> settles decl args h (clear_array args u h).
Proof.
  intros Hh. unfold clear_array, with_obj. destruct (obj _) as [a|]; [|by apply settles_pure]. by apply settles_set.
Qed.

Lemma find_in_no_panic v h cs i : find_in depth v h cs i <> Panic.
Proof.
  revert i. induction cs as [|c cs IH]; intros i; cbn [find_in]; [done|].
  destruct (do_operator _ _ _ _ _) as [[[r|] h']|]; [destruct (is_true r)|..]; by try apply IH.
Qed.

Lemma find_value_ok decl args u h : heap_ok h -> settles decl args h (find_value depth args u h).
Proof.
  intros Hh. unfold find_value, with_obj. destruct (obj _) as [a|]; [|by apply settles_pure].
  pose proof (find_in_no_panic (arg args 1) h (o_values (obj_at h a)) 0) as P.
  destruct (find_in _ _ _ _ _) as [i| |]; cbn [comp_bind]; [|done|done]. apply settles_pure; [done|].
  intros v [= <-]. simpl. destruct i; [by apply wrap_s_range|unfold in_s; lia].
Qed.

Lemma rand_int_ok decl args u h : heap_ok h -> Forall (value_ok h) args -> settles decl args h (rand_int args u h).
Proof.
  intros Hh Ha. unfold rand_int. pose proof (random_i32 _ _ u (arg_i32 args h 0 Ha) (arg_i32 args h 1 Ha)) as R.
  destruct (game_random _ _ u) as [[z|e] u']; apply settles_pure; try done. intros v [= <-]. by apply R.
Qed.

Lemma char_at_ok args h v : char_at args = Ok v -> value_ok h v.
Proof.
  unfold char_at. destruct (as_text _ _) as [s|]; [|done]. cbn [rbind].
  destruct (_ || _); intros [= <-]; simpl; [unfold in_s; lia|].
  match goal with |- is_i32 (u16 ?z) => pose proof (wrap_u_range 16 z ltac:(lia)) end. unfold in_u, in_s in *. lia.
Qed.

Lemma str_length_ok args h v : str_length args = Ok v -> value_ok h v.
Proof. unfold str_length. destruct (as_text _ _); [|done]. intros [= <-]. by apply wrap_s_range. Qed.

Lemma char_from_int_ok args h v : char_from_int args = Ok v -> value_ok h v.
Proof. unfold char_from_int. destruct (between _ _ _); [done|]. by intros [= <-]. Qed.

Lemma rand_real_ok decl args u h : heap_ok h -> settles decl args h (rand_real u h).
Proof.
  intros Hh. unfold rand_real. destruct (game_random_step u) as [[s|] u']; apply settles_pure; try done. by intros v [= <-].
Qed.

Lemma rand_seed_ok decl args u h : heap_ok h -> settles decl args h (rand_seed args u h).
Proof.
  intros Hh. unfold rand_seed.
  match goal with |- context [let '(_, _) := ?c in _] => destruct c as [[[]|] u'] end; apply settles_pure; try done.
  by intros v [= <-].
Qed.

Lemma print_ok decl args b u h : heap_ok h -> settles decl args h (print args b u h).
Proof.
  intros Hh. unfold print. destruct (as_text _ _) as [s|]; [|by apply settles_pure].
  destruct (script_print s b u) as [[[]|] u']; apply settles_pure; try done. by intros v [= <-].
Qed.

Lemma dispatch_ok decl args u h :
  heap_ok h -> Forall (value_ok h) args -> settles decl args h (dispatch depth decl args u h).
Proof.
  intros Hh Ha. assert (Pure : forall r, (forall v, r = Ok v -> value_ok h v) -> settles decl args h (Comp (r, u, h)))
    by (intros; by apply settles_pure).
  unfold dispatch. destruct (bd_index decl) as [|p|p] eqn:E; [by apply Pure; intros v [= <-]| |by apply Pure].
  do 5 (try destruct p as [p|p|]); try (by apply Pure; intros v [= <-]); try (by apply Pure);
    try (by apply rand_int_ok); try (by apply find_value_ok); try (by apply clear_array_ok);
    try (by apply remove_index_ok); try (by apply add_blank_ok); try (by apply add_value_ok);
    try (by apply rand_real_ok); try (by apply rand_seed_ok); try (by apply print_ok); apply Pure; intros v.
  - by apply char_at_ok.
  - by apply str_length_ok.
  - by apply char_from_int_ok.
  - destruct (game_random_seed u); [|done]. intros [= <-]. by apply wrap_s_range.
  - intros [= <-]. by apply wrap_s_range.
Qed.
End Laws.

(** ** The array builtins on the elements *)

Definition elems (h : Heap) (a : nat) : list Value := map (cell_at h) (o_values (obj_at h a)).

(** Everything but the slots of [a] is as it was. *)
Definition same_elsewhere (a : nat) (h h' : Heap) : Prop :=
  (forall b, b <> a -> (b < length (h_objs h))%nat -> obj_at h' b = obj_at h b) /\
  (forall c, (c < length (h_cells h))%nat -> cell_at h' c = cell_at h c) /\
  o_data_type (obj_at h' a) = o_data_type (obj_at h a) /\ o_blank_base (obj_at h' a) = o_blank_base (obj_at h a).

Lemma obj_at_set_eq a o h : (a < length (h_objs h))%nat -> obj_at (set_obj a o h) a = o.
Proof. intros Ha. unfold obj_at. cbn. by rewrite list_lookup_insert_eq. Qed.
Lemma obj_at_set_ne a b o h : b <> a -> obj_at (set_obj a o h) b = obj_at h b.
Proof. intros Hb. unfold obj_at. cbn. by rewrite list_lookup_insert_ne. Qed.

Lemma set_values_spec a vs h :
  (a < length (h_objs h))%nat ->
  elems (set_values a vs h) a = map (cell_at h) vs /\ same_elsewhere a h (set_values a vs h).
Proof.
  intros Ha. unfold elems, set_values. split; [by rewrite obj_at_set_eq|]. split; [|split; [done|]].
  - intros b Hb _. by apply obj_at_set_ne.
  - by rewrite obj_at_set_eq.
Qed.

Lemma same_elsewhere_extends a h h1 h2 :
  (a < length (h_objs h))%nat -> extends h h1 -> same_elsewhere a h1 h2 -> same_elsewhere a h h2.
Proof.
  intros Ha He (S1 & S2 & S3 & S4). pose proof (extends_sizes _ _ He) as [L1 L2].
  split; [|split; [|by rewrite S3, S4, (obj_at_extends _ _ _ He Ha)]].
  - intros b Hb Hl. rewrite S1 by lia. by apply obj_at_extends.
  - intros c Hc. rewrite S2 by lia. by apply cell_at_extends.
Qed.

Lemma elems_extends a h h1 : heap_ok h -> (a < length (h_objs h))%nat -> extends h h1 -> elems h1 a = elems h a.
Proof.
  intros Hh Ha He. unfold elems. rewrite (obj_at_extends _ _ _ He Ha). apply map_ext_in. intros c Hc.
  apply cell_at_extends; [done|]. destruct (obj_at_ok h a Hh) as [Ho _]. rewrite Forall_forall in Ho.
  by apply Ho, list_elem_of_In.
Qed.

Lemma push_cell_spec a v h h1 :
  heap_ok h -> (a < length (h_objs h))%nat -> extends h h1 -> Z.of_nat (length (elems h a)) < I32_MAX ->
  exists h', push_cell a v h1 = (VInt (Z.of_nat (length (elems h a))), h') /\
    elems h' a = elems h a ++ [v] /\ same_elsewhere a h h'.
Proof.
  intros Hh Ha He Hn. pose proof (extends_sizes _ _ He) as [L1 L2]. unfold push_cell. cbn [cell].
  set (h2 := mkHeap (h_cells h1 ++ [v]) (h_objs h1)).
  assert (He2 : extends h h2) by (etrans; [exact He|apply (extends_cell v)]).
  assert (Ha2 : (a < length (h_objs h2))%nat) by (cbn; lia).
  destruct (set_values_spec a (o_values (obj_at h2 a) ++ [length (h_cells h1)]) h2 Ha2) as [E S]. eexists. split; [|split].
  - f_equal. rewrite length_app. cbn [length].
    assert (El : length (o_values (obj_at h2 a)) = length (elems h a)).
    { rewrite (obj_at_extends _ _ _ He2 Ha). unfold elems. by rewrite length_map. }
    rewrite El. unfold I32_MAX in Hn. rewrite (wrap_s_id 32 (Z.of_nat _)), wrap_s_id by (unfold in_s; lia). f_equal. lia.
  - rewrite E, map_app. change (map (cell_at h2) (o_values (obj_at h2 a))) with (elems h2 a).
    rewrite (elems_extends _ _ _ Hh Ha He2). cbn. do 2 f_equal. unfold cell_at. cbn. by rewrite list_lookup_middle.
  - by eapply same_elsewhere_extends.
Qed.

(** Equality as [find] tests it. *)
Definition equals `{StdLib} (depth : nat) (h : Heap) (x v : Value) : bool :=
  match do_operator depth h x OP_EQ_OP (Some v) with Some (Ok r, _) => is_true r | _ => false end.

Lemma find_in_spec `{StdLib} depth v h cs k r :
  find_in depth v h cs k = Comp r ->
  match r with
  | Some j => exists i x, j = (k + i)%nat /\ map (cell_at h) cs !! i = Some x /\ equals depth h x v = true /\
      forall i' y, (i' < i)%nat -> map (cell_at h) cs !! i' = Some y -> equals depth h y v = false
  | None => Forall (fun x => equals depth h x v = false) (map (cell_at h) cs)
  end.
Proof.
  revert k. induction cs as [|c cs IH]; intros k Hf; cbn [find_in] in Hf; [injection Hf as <-; constructor|].
  assert (Next : forall k, equals depth h (cell_at h c) v = false -> find_in depth v h cs (S k) = Comp r ->
    match r with
    | Some j => exists i x, j = (k + i)%nat /\ map (cell_at h) (c :: cs) !! i = Some x /\ equals depth h x v = true /\
        forall i' y, (i' < i)%nat -> map (cell_at h) (c :: cs) !! i' = Some y -> equals depth h y v = false
    | None => Forall (fun x => equals depth h x v = false) (map (cell_at h) (c :: cs))
    end).
  { intros k' Hne Hn. apply IH in Hn. destruct r as [j|]; [|by constructor].
    destruct Hn as (i & x & -> & Hx & He & Hlt). exists (S i), x. split; [lia|]. split; [done|]. split; [done|].
    intros [|i'] y Hi Hy; [by injection Hy as <-|]. apply (Hlt i'); [lia|done]. }
  destruct (do_operator _ _ _ _ _) as [[[w|] h']|] eqn:Ed; [|by apply Next; [unfold equals; rewrite Ed|]|done].
  destruct (is_true w) eqn:Ew; [|by apply Next; [unfold equals; rewrite Ed|]].
  injection Hf as <-. exists 0%nat, (cell_at h c). split; [lia|]. split; [done|].
  split; [unfold equals; by rewrite Ed|]. intros i' y Hi. lia.
Qed.

Section Arrays.
Context {std : StdLib} {trig : Trig} {H : Type} {methods : UtilMethods H} (depth : nat).

Lemma with_obj_first a l m (u : H) h k : with_obj (VObj a :: l) m u h k = k a.
Proof. done. Qed.
Lemma arg_second x v : arg [x; v] 1 = v.
Proof. done. Qed.

(** The array builtins are the list operations on the elements of the array:
    both [add]s append and return the new index, [remove_index] deletes and
    returns the new length, [clear] empties; nothing but the slots of that
    array changes.  The element added is the prototype itself, or a copy of
    the value when its type is the prototype's. *)
Theorem array_builtins_spec (u : H) h a base v i :
  heap_ok h -> (a < length (h_objs h))%nat -> Z.of_nat (length (elems h a)) < I32_MAX ->
  o_blank_base (obj_at h a) = Some base -> value_ok h v ->
  (exists h', add_blank [VObj a] u h = Comp (Ok (VInt (Z.of_nat (length (elems h a)))), u, h') /\
     elems h' a = elems h a ++ [base] /\ same_elsewhere a h h') /\
  (forall d h1, duplicate depth v h = Some (d, h1) -> ~ reaches h v a -> data_type h base = data_type h v ->
     exists h', add_value depth [VObj a; v] u h = Comp (Ok (VInt (Z.of_nat (length (elems h a)))), u, h') /\
       elems h' a = elems h a ++ [d] /\ same_elsewhere a h h') /\
  (data_type h base <> data_type h v -> add_value depth [VObj a; v] u h = Comp (Ok (VInt (-1)), u, h)) /\
  (0 <= i < Z.of_nat (length (elems h a)) ->
     exists h', remove_index [VObj a; VInt i] u h = Comp (Ok (VInt (Z.of_nat (length (elems h a)) - 1)), u, h') /\
       elems h' a = delete (Z.to_nat i) (elems h a) /\ same_elsewhere a h h') /\
  (~ 0 <= i < Z.of_nat (length (elems h a)) ->
     remove_index [VObj a; VInt i] u h = Comp (Err (BadArgs "remove_index: out of range"), u, h)) /\
  (exists h', clear_array [VObj a] u h = Comp (Ok VNull, u, h') /\ elems h' a = [] /\ same_elsewhere a h h').
Proof.
  intros Hh Ha Hn Hb Hv. assert (Hlen : length (o_values (obj_at h a)) = length (elems h a)) by (unfold elems; by rewrite length_map).
  split; [|split; [|split; [|split; [|split]]]].
  - destruct (push_cell_spec a base h h Hh Ha ltac:(reflexivity) Hn) as (h' & E & ? & ?). exists h'.
    unfold add_blank. by rewrite with_obj_first, Hb, E.
  - intros d h1 Hd Hr Ht. pose proof (duplicate_locked_agrees a depth v h Hh Hv) as D.
    unfold add_value. rewrite with_obj_first, arg_second, Hb, Ht, Z.eqb_refl. cbn [negb].
    destruct (duplicate_locked a depth v h) as [[d' h1']| |]; [|done|by rewrite Hd in D].
    rewrite Hd in D. injection D as <- <-. cbn [comp_bind].
    destruct (push_cell_spec a d h h1 Hh Ha (duplicate_extends _ _ _ _ _ Hd) Hn) as (h' & E & ? & ?). exists h'. by rewrite E.
  - intros Ht. unfold add_value. rewrite with_obj_first, arg_second, Hb. apply Z.eqb_neq in Ht. by rewrite Ht.
  - intros Hi. unfold remove_index. rewrite with_obj_first, arg_second. cbn [as_int]. rewrite Hlen.
    assert ((i <? 0) || (Z.of_nat (length (elems h a)) <=? i) = false) as -> by lia.
    destruct (set_values_spec a (delete (Z.to_nat i) (o_values (obj_at h a))) h Ha) as [E S]. eexists. split; [|split; [|exact S]].
    + do 5 f_equal. rewrite length_delete by (apply lookup_lt_is_Some_2; lia). unfold I32_MAX in Hn.
      rewrite wrap_s_id by (unfold in_s; lia). lia.
    + rewrite E. unfold elems. apply list_fmap_delete.
  - intros Hi. unfold remove_index. rewrite with_obj_first, arg_second. cbn [as_int]. rewrite Hlen.
    assert ((i <? 0) || (Z.of_nat (length (elems h a)) <=? i) = true) as -> by lia. done.
  - destruct (set_values_spec a [] h Ha) as [E S]. eexists. by split.
Qed.

(** [find] returns the index of the first element equal to the value, as the
    equality opcode compares, and -1 when there is none. *)
Theorem find_value_first (u : H) h a v r :
  Z.of_nat (length (elems h a)) <= I32_MAX -> find_value depth [VObj a; v] u h = Comp r ->
  exists z, r = (Ok (VInt z), u, h) /\
    ((z = -1 /\ Forall (fun x => equals depth h x v = false) (elems h a)) \/
     (exists i x, z = Z.of_nat i /\ elems h a !! i = Some x /\ equals depth h x v = true /\
        forall i' y, (i' < i)%nat -> elems h a !! i' = Some y -> equals depth h y v = false)).
Proof.
  intros Hn. unfold find_value. rewrite with_obj_first, arg_second.
  destruct (find_in depth v h (o_values (obj_at h a)) 0) as [j| |] eqn:E; [|done|done]. cbn [comp_bind]. intros [= <-].
  apply find_in_spec in E. eexists. split; [reflexivity|]. destruct j as [j|]; [right|by left].
  destruct E as (i & x & -> & Hx & He & Hlt). exists i, x. split; [|by split; [|split]].
  cbn. apply wrap_s_id; [lia|]. apply lookup_lt_Some in Hx. unfold elems, I32_MAX in *. unfold in_s. lia.
Qed.
End Arrays.

(** ** The host and the simulation's stream *)

(** The host's seed word is the stream's state read as a [u32]. *)
Definition same_stream (u : UtilHost) (r : Random.t) : Prop := seed u = u32 (Random.state r).

Lemma step_same u r :
  same_stream u r -> fst (Util.step u) = u32 (fst (Random.advance r)) /\ same_stream (snd (Util.step u)) (snd (Random.advance r)).
Proof.
  unfold same_stream. intros E. destruct (Random.advance_step r) as [A _].
  assert (S : u32 (u32 (seed u * 1664525) + 1013904223) = u32 (fst (Random.advance r))).
  { rewrite A, E. unfold Random.step, Random.MUL, Random.ADD, wrap_u.
    by rewrite Zplus_mod_idemp_l, <- Zplus_mod_idemp_l, Zmult_mod_idemp_l, Zplus_mod_idemp_l. }
  by split.
Qed.

(** A script's dice are the simulation's: [rand_int] returns what the next
    [Random::get] of the simulation stream returns and leaves the stream in
    the same state, so scripts and systems can share one stream. *)
Theorem script_dice_are_sim_dice u r lo hi :
  is_i32 lo -> is_i32 hi -> same_stream u r ->
  fst (Util.random lo hi u) = fst (Random.get lo hi r) /\
  same_stream (snd (Util.random lo hi u)) (snd (Random.get lo hi r)) /\ output (snd (Util.random lo hi u)) = output u.
Proof.
  intros Hlo Hhi Hs. unfold Util.random, Random.get. destruct (Z.eqb_spec lo hi); [done|].
  assert (Sw : (if lo <? hi then (lo, hi) else (hi, lo)) = (if hi <? lo then (hi, lo) else (lo, hi)))
    by (destruct (Z.ltb_spec lo hi), (Z.ltb_spec hi lo); lia || done).
  rewrite Sw. destruct (if hi <? lo then (hi, lo) else (lo, hi)) as [a b].
  destruct (step_same u r Hs) as [E1 E2]. destruct (Util.step u) as [s u'] eqn:Eu. destruct (Random.advance r) as [s' r'].
  cbn [fst snd] in *. split; [|split; [done|by unfold Util.step in Eu; injection Eu as <- <-]].
  subst s. f_equal. rewrite Z.add_comm. do 3 f_equal.
  rewrite (wrap_u_wrap_s 32 (_ * _)) by lia. unfold wrap_u at 1 3. by rewrite Zmult_mod_idemp_r.
Qed.

#[export] Instance util_laws : UtilLaws UtilHost.
Proof.
  split. intros lo hi u Hlo Hhi z. cbn. unfold Util.random. destruct (lo =? hi); [by intros [= <-]|].
  destruct (if lo <? hi then _ else _) as [a b]. destruct (Util.step u) as [s u']. cbn. intros [= <-]. by apply wrap_s_range.
Qed.

Section UtilHost.
Context {std : StdLib} {trig : Trig} (depth : nat) (builtin : Z -> option BuiltinDecl).

(** No builtin of the table is [add(array, value)]. *)
Definition without_add_value : Prop := forall i d, builtin i = Some d -> bd_index d <> 25.

Lemma util_host_laws : without_add_value -> HostLaws UtilHost (H0 := Util.host depth) builtin.
Proof.
  intros Hb. split. intros i decl args u h Hd Hh Ha. cbn [host_call Util.host]. unfold Util.call, call_util.
  destruct (UTIL_MAX_INDEX <? bd_index decl); [by ok_parts|].
  pose proof (dispatch_ok depth decl args u h Hh Ha) as S. destruct (dispatch _ _ _ _ _) as [[[r u'] h']| |]; [done| |done].
  destruct S as [E _]. by apply Hb in Hd.
Qed.

(** Composition: whatever bytes were loaded, a script run over the utility
    host cannot panic, neither in the machine nor in the host, when the table
    registers every utility but [add(array, value)]. *)
Theorem util_script_contained inputs p u h file script args :
  without_add_value -> inputs_ok inputs -> load_program_files inputs = Some (Ok p) ->
  heap_ok h -> Forall (value_ok h) args ->
  run_result (Vm.new p u h) file script (length args)
    (@Vm.run_script_index std UtilHost (Util.host depth) builtin depth file script args (Vm.new p u h)).
Proof.
  intros Hb Hi Hp Hh Ha. unfold Vm.run_script_index. rewrite <- (length_map SVal args).
  apply (@run_script_slots_ok _ _ (Util.host depth) builtin depth (util_host_laws Hb)); [|done|by apply sok_vals].
  by eapply loaded_wf.
Qed.

(** [add(array, value)] panics only when the array it changes is part of the
    value it copies. *)
Theorem add_value_panic_reaches decl args u h :
  heap_ok h -> Forall (value_ok h) args -> Util.call depth decl args u h = Panic ->
  bd_index decl = 25 /\ exists a, obj (arg args 0) = Some a /\ reaches h (arg args 1) a.
Proof.
  intros Hh Ha. unfold Util.call, call_util. destruct (UTIL_MAX_INDEX <? bd_index decl); [done|].
  pose proof (dispatch_ok depth decl args u h Hh Ha) as S. intros E. by rewrite E in S.
Qed.
End UtilHost.

(** ** Examples *)

Import AsciiStd.

(** A stand-in for the trigonometric functions. *)
Definition zero_trig : Trig :=
  {| f32_sin _ := f32_zero; f32_cos _ := f32_one; f32_tan _ := f32_zero;
     f32_asin _ := f32_zero; f32_acos _ := f32_zero; f32_atan _ := f32_zero |}.
#[local] Existing Instance zero_trig.

Definition decl_of (i : Z) : BuiltinDecl := mkBuiltinDecl i "util" 2 TInt [TArray; TAny] 0.

(** An array of integers: its type tag is its elements'. *)
Definition int_array : Heap := snd (array (tag TInt) (VInt 0) 2 (mkHeap [] [])).

(** Adding an array of integers to itself passes the type test, because the
    array carries the tag of its elements, and panics. *)
Lemma add_self_panics : Util.call 8 (decl_of 25) [VObj 0; VObj 0] Util.default int_array = Panic.
Proof. reflexivity. Qed.

(** The same from bytecode: [int a[]; add(a, a);]. *)
Definition add_self_code : bytes := asm [
  (0x26, [varref_encode (Const 0)]);
  (0x29, [tag TInt]);
  (0x33, [varref_encode (Static 0)]);
  (0x26, [varref_encode (Static 0)]);
  (0x26, [varref_encode (Static 0)]);
  (0x38, [25]);
  (0x3e, [])].
Definition utilities (i : Z) : option BuiltinDecl := if between 0 30 i then Some (decl_of i) else None.

Lemma add_self_script_panics :
  @Vm.run_script_index _ UtilHost (Util.host 8) utilities 8 0 0 []
    (Vm.new (single (Example.file_of add_self_code [None])) Util.default (mkHeap [] [])) = Panic.
Proof. vm_compute. reflexivity. Qed.

#[local] Instance heap_ok_dec h : Decision (heap_ok h).
Proof.
  assert (V : forall v, Decision (value_ok h v)) by (intros []; simpl; unfold in_s; apply _).
  assert (O : forall o, Decision (obj_ok h o)).
  { intros o. unfold obj_ok. destruct (o_blank_base o) as [b|].
    - destruct (V b) as [Hb|Hb]; [|right; intros [_ F]; by apply Hb, F].
      destruct (decide (Forall (fun c => c < length (h_cells h))%nat (o_values o))); [left|right; by intros []].
      split; [done|]. by intros ? [= <-].
    - destruct (decide (Forall (fun c => c < length (h_cells h))%nat (o_values o))); [left|right; by intros []]. by split. }
  unfold heap_ok. apply _.
Defined.

Lemma int_array_ok : heap_ok int_array.
Proof. apply (bool_decide_unpack _). vm_compute. exact I. Qed.

Lemma array_builtins_spec_witness :
  exists h', add_value 8 [VObj 0; VInt 7] Util.default int_array = Comp (Ok (VInt 2), Util.default, h') /\
    elems h' 0 = [VInt 0; VInt 0; VInt 7] /\ same_elsewhere 0 int_array h'.
Proof.
  destruct (array_builtins_spec 8 Util.default int_array 0 (VInt 0) (VInt 7) 0 int_array_ok) as (_ & A & _);
    [cbn; lia|reflexivity|reflexivity|simpl; unfold in_s; lia|].
  apply (A (VInt 7) int_array); [reflexivity| |reflexivity]. intros R. inversion R.
Defined.

Lemma find_value_first_witness :
  exists z, find_value 8 [VObj 0; VInt 0] Util.default int_array = Comp (Ok (VInt z), Util.default, int_array) /\ z = 0.
Proof.
  destruct (find_value_first 8 Util.default int_array 0 (VInt 0) (Ok (VInt 0), Util.default, int_array))
    as (z & [= <-] & _); [vm_compute; discriminate|vm_compute; reflexivity|].
  exists 0. by split; [vm_compute|].
Defined.

Lemma script_dice_are_sim_dice_witness :
  fst (Util.random (-5) 7 (Util.with_seed 0x89abcdef)) = fst (Random.get (-5) 7 (Random.new (-1985229329))).
Proof.
  apply (script_dice_are_sim_dice (Util.with_seed 0x89abcdef) (Random.new (-1985229329)) (-5) 7);
    [unfold in_s; lia|unfold in_s; lia|reflexivity].
Defined.

Definition dice_only (i : Z) : option BuiltinDecl := if i =? 9 then Some (decl_of 9) else None.

Lemma util_script_contained_witness :
  exists p, load_program_files [counter_input] = Some (Ok p) /\
    run_result (Vm.new p Util.default (mkHeap [] [])) 0 0 0
      (@Vm.run_script_index _ UtilHost (Util.host 8) dice_only 8 0 0 [] (Vm.new p Util.default (mkHeap [] []))).
Proof.
  let r := eval vm_compute in (load_program_files [counter_input]) in match r with Some (Ok ?p) => exists p end.
  match goal with |- load_program_files _ = Some (Ok ?p) /\ _ => assert (E : load_program_files [counter_input] = Some (Ok p)) by (by vm_compute) end.
  split; [exact E|].
  apply (util_script_contained 8 dice_only [counter_input] _ Util.default (mkHeap [] []) 0 0 []);
    [| |exact E|by split; constructor|constructor].
  - intros i d. unfold dice_only. destruct (i =? 9); [|done]. by intros [= <-].
  - apply (bool_decide_unpack _). by vm_compute.
Defined.

Lemma add_value_panic_reaches_witness : exists a, obj (VObj 0) = Some a /\ reaches int_array (VObj 0) a.
Proof.
  apply (add_value_panic_reaches 8 (decl_of 25) [VObj 0; VObj 0] Util.default int_array int_array_ok);
    [repeat constructor|reflexivity].
Defined.
