(* ===== verification/CcSema.v ===== *)
(** * The script compiler: semantic analysis

    [crates/don-bhs-cc/src/sema.rs]: include resolution, the struct, label and
    script tables of a compilation unit, builtin resolution, with
    [parse_path] of [lib.rs].  A [PathBuf] is its root flag and components,
    which is what the standard library compares; the operating system's files
    are the class [FileSystem] and the registered builtins, a generated table,
    the variable [BUILTINS].  A diagnostic's text is the constructor of
    [DiagMsg] that formats it.  Integer overflow wraps, as in a release build;
    the quotient that overflows panics in every build ([None]). *)

From S2P Require Import Prelude NetText BhsOpcode BhsStd BhsValue BhsProgram BhsDisasm BhsVm CcLex CcAst CcParse.
From Stdlib Require Import Ascii.
From Stdlib Require String.
Import (notations) String.
#[local] Open Scope list_scope.
#[local] Open Scope outcome_scope.
#[local] Open Scope Z_scope.

(** The text of a string literal of the program. *)
Definition str_text (s : String.string) : text := map (fun c => Z.of_N (N_of_ascii c)) (String.list_ascii_of_string s).

(** ** Diagnostics *)

Inductive Severity := Note | Warning | Error.
#[export] Instance Severity_eq_dec : EqDecision Severity.
Proof. solve_decision. Defined.

(** The messages of [sema.rs], then those of [codegen.rs]. *)
Inductive DiagMsg :=
  | IncludeDepth (name : text) (max_depth : nat) | IncludeAgain (name : text) | IncludeUnresolved (name : text)
  | DuplicateField (field struct : text) | FieldLength | LabelNotConstant (name : text)
  | LabelRedefined (name : text) (prev v : Z) | ScriptTwice (name : text)
  | BreakOutside | ContinueOutside | VoidReturn | CaseNotConstant | EmptyArrayInit | EmptyArrayLit | TypeIdentity
  | ImplicitLocal (name : text) | UnaryOp (p : P) | BinaryOp (p : P) | UnresolvedField (name : text) | NotAssignment
  | ArrayMember | NotVariable | TriggerName (name : text) | ScriptArity (name : text) (takes given : nat)
  | NotIncluded (name : text) | BuiltinArity (name : text) (argc : nat) (arities : list Z) | UnknownFunction (name : text).

Record Diag := mkDiag { severity : Severity; dg_file : text; dg_pos : Pos; dg_msg : DiagMsg }.

(** ** Types *)

Inductive Ty := TyScalar (s : ScriptTy) | TyStruct (i : nat) | TyArray (inner : Ty) | TyUntyped.
#[export] Instance Ty_eq_dec : EqDecision Ty.
Proof. solve_decision. Defined.

Definition ty_tag (t : Ty) : Z :=
  match t with
  | TyScalar s => tag s
  | TyArray (TyScalar TStr) => tag TStringArray
  | TyArray _ => tag TArray
  | TyStruct _ => tag TAny
  | TyUntyped => tag TAny
  end.
Definition ty_is_array (t : Ty) : bool := match t with TyArray _ => true | _ => false end.

Definition scalar_from_name (name : text) : option ScriptTy :=
  let s := map ascii_lower name in
  if bool_decide (s = tx "int") then Some TInt
  else if bool_decide (s = tx "bool") then Some TInt
  else if bool_decide (s = tx "float") || bool_decide (s = tx "real") then Some TReal
  else if bool_decide (s = tx "string") then Some TStr
  else if bool_decide (s = tx "void") then Some TVoid
  else if bool_decide (s = tx "group") then Some TGroup
  else if bool_decide (s = tx "anytype") || bool_decide (s = tx "any") then Some TAny
  else if bool_decide (s = tx "offer") then Some TOffer
  else None.

(** ** The compilation unit *)

Record StructField := mkStructField { sf_name : text; sf_ty : Ty; sf_fixed_len : option Z }.
Record StructInfo := mkStructInfo { si_name : text; si_fields : list StructField; declared_in : nat }.

Definition field_index (name : text) (s : StructInfo) : option nat :=
  position (fun f => eq_ignore_ascii_case (sf_name f) name) (si_fields s).

Record ScriptInfo := mkScriptInfo {
  sn_name : text; sn_file : nat; index_in_file : nat; sn_arity : nat; sn_ret : Ty; sn_by_ref : list bool;
  sn_script_type : option text; has_body : bool }.

(** A path: whether it starts at the root, and its components. *)
Record Path := mkPath { rooted : bool; parts : list text }.
#[export] Instance Path_eq_dec : EqDecision Path.
Proof. solve_decision. Defined.
#[export] Instance Path_countable : Countable Path.
Proof. refine (inj_countable' (fun p => (rooted p, parts p)) (fun '(r, l) => mkPath r l) _). by intros []. Defined.

Record FileUnit := mkFileUnit { fu_path : Path; fu_ast : SourceFile; includes : list nat; script_names : list text }.

Record Unit := mkUnit {
  u_files : list FileUnit; u_structs : list StructInfo; u_labels : gmap text Z; u_scripts : list ScriptInfo;
  u_diags : list Diag }.

Definition set_u_files (x : list FileUnit) (u : Unit) : Unit :=
  mkUnit x (u_structs u) (u_labels u) (u_scripts u) (u_diags u).
Definition set_structs (x : list StructInfo) (u : Unit) : Unit :=
  mkUnit (u_files u) x (u_labels u) (u_scripts u) (u_diags u).
Definition set_labels (x : gmap text Z) (u : Unit) : Unit :=
  mkUnit (u_files u) (u_structs u) x (u_scripts u) (u_diags u).
Definition set_u_scripts (x : list ScriptInfo) (u : Unit) : Unit :=
  mkUnit (u_files u) (u_structs u) (u_labels u) x (u_diags u).
Definition set_u_diags (x : list Diag) (u : Unit) : Unit :=
  mkUnit (u_files u) (u_structs u) (u_labels u) (u_scripts u) x.
Definition push_diag (d : Diag) (u : Unit) : Unit := set_u_diags (u_diags u ++ [d]) u.

(** [Unit::errors]. *)
Definition is_error (d : Diag) : bool := bool_decide (severity d = Error).
Definition errors (u : Unit) : list Diag := List.filter is_error (u_diags u).

Definition struct_by_name (name : text) (u : Unit) : option nat :=
  position (fun s => eq_ignore_ascii_case (si_name s) name) (u_structs u).
Definition script_by_name (name : text) (u : Unit) : option ScriptInfo :=
  List.find (fun s => eq_ignore_ascii_case (sn_name s) name) (u_scripts u).

Definition resolve_type (t : option TypeRef) (u : Unit) : Ty :=
  match t with
  | None => TyScalar TInt
  | Some t =>
      let base :=
        match scalar_from_name (t_name t) with
        | Some s => TyScalar s
        | None => match struct_by_name (t_name t) u with Some i => TyStruct i | None => TyUntyped end
        end in
      Nat.iter (Z.to_nat (array_depth t)) TyArray base
  end.

(** ** Paths and the file system *)

Definition SLASH : Z := ch "/".
Definition BACKSLASH : Z := 0x5C.

(** [PathBuf::join] of one component, [Path::parent], [Path::file_stem],
    [Path::display]. *)
Definition join (p : Path) (seg : text) : Path := mkPath (rooted p) (parts p ++ [seg]).
Definition parent (p : Path) : option Path :=
  match parts p with [] => None | l => Some (mkPath (rooted p) (removelast l)) end.
Definition display (p : Path) : text :=
  (if rooted p then [SLASH] else []) ++
  match parts p with [] => [] | s :: l => fold_left (fun acc s => acc ++ SLASH :: s) l s end.
(** A name up to its last dot, unless that dot starts it. *)
Definition stem (name : text) : text :=
  match position (fun c => c =? ch ".") (reverse name) with
  | Some i => if bool_decide (i + 1 = length name)%nat then name else take (length name - i - 1) name
  | None => name
  end.
Definition file_stem (p : Path) : option text :=
  match last (parts p) with
  | Some name => if bool_decide (name = tx "..") || bool_decide (name = tx ".") then None else Some (stem name)
  | None => None
  end.

(** What the compiler asks of the operating system; [fs_read_dir] lists the
    entries that can be read and whose names are text. *)
Class FileSystem := {
  fs_is_file : Path -> bool;
  fs_is_dir : Path -> bool;
  fs_read_dir : Path -> option (list text);
  fs_read : Path -> result text bytes;
  fs_canonicalize : Path -> option Path }.

(** [str::split] on the characters [sep]. *)
Fixpoint split_on (sep : Z -> bool) (s : text) : list text :=
  match s with
  | [] => [[]]
  | c :: r =>
      match split_on sep r with
      | w :: ws => if sep c then [] :: w :: ws else (c :: w) :: ws
      | [] => [[]]
      end
  end.
Definition is_separator (c : Z) : bool := (c =? BACKSLASH) || (c =? SLASH).
Definition path_segments (game_relative : text) : list text :=
  List.filter (fun s => negb (bool_decide (s = [])) && negb (bool_decide (s = tx ".")))
    (split_on is_separator game_relative).

Section FileSystem.
Context {fs : FileSystem}.

Definition lands (last_ : bool) (p : Path) : bool := if last_ then fs_is_file p else fs_is_dir p.

(** The segment walk of [probe_under]. *)
Fixpoint walk_segments (at_ : Path) (segs : list text) : option Path :=
  match segs with
  | [] => Some at_
  | seg :: rest =>
      let last_ := match rest with [] => true | _ => false end in
      let direct := join at_ seg in
      if lands last_ direct then walk_segments direct rest
      else
        entries ← fs_read_dir at_;
        name ← List.find (fun name => eq_ignore_ascii_case name seg && lands last_ (join at_ name)) entries;
        walk_segments (join at_ name) rest
  end.
Definition probe_under (root : Path) (game_relative : text) : option Path :=
  match path_segments game_relative with
  | [] => None
  | segs => walk_segments root segs
  end.

(** [trait ContentProbe] with its two implementations. *)
Definition install_root (root : Path) (game_relative : text) : option Path := probe_under root game_relative.
Fixpoint install_roots (roots : list Path) (game_relative : text) : option Path :=
  match roots with
  | [] => None
  | r :: rs => match probe_under r game_relative with Some p => Some p | None => install_roots rs game_relative end
  end.

Definition DEFAULT_SCRIPT_INCLUDE_PATH : text :=
  [ch "."; BACKSLASH] ++ tx "scenario" ++ [BACKSLASH] ++ tx "scriptlibrary" ++ [BACKSLASH].
Definition SCRIPT_INCLUDE_PATH_SEPARATORS : list Z := [ch ","; ch ";"].
Definition MAX_INCLUDE_DEPTH : nat := 16.

Record IncludePath := mkIncludePath {
  content : text -> option Path; include_paths : list text; max_depth : nat }.

Definition default_include_path : IncludePath :=
  mkIncludePath (install_roots []) [DEFAULT_SCRIPT_INCLUDE_PATH] MAX_INCLUDE_DEPTH.
Definition with_roots (roots : list Path) : IncludePath :=
  mkIncludePath (install_roots roots) (include_paths default_include_path) (max_depth default_include_path).
Definition with_content (c : text -> option Path) : IncludePath :=
  mkIncludePath c (include_paths default_include_path) (max_depth default_include_path).
Definition with_include_path_pref (pref : text) (inc : IncludePath) : IncludePath :=
  mkIncludePath (content inc)
    (List.filter (fun s => negb (bool_decide (s = [])))
       (map trim (split_on (fun c => bool_decide (c ∈ SCRIPT_INCLUDE_PATH_SEPARATORS)) pref)))
    (max_depth inc).

(** [trim_end_matches]. *)
Fixpoint drop_while (f : Z -> bool) (s : text) : text :=
  match s with c :: r => if f c then drop_while f r else s | [] => [] end.
Definition trim_end (f : Z -> bool) (s : text) : text := reverse (drop_while f (reverse s)).

(** The loop over the include path entries. *)
Fixpoint try_entries (inc : IncludePath) (ds : list text) (name : text) : option Path :=
  match ds with
  | [] => None
  | d :: ds =>
      match content inc (trim_end is_separator d ++ SLASH :: name) with
      | Some p => Some p
      | None => try_entries inc ds name
      end
  end.
Definition resolve_from (inc : IncludePath) (from : option Path) (name : text) : option Path :=
  match p ← from; dir ← parent p; probe_under dir name with
  | Some p => Some p
  | None =>
      match content inc name with
      | Some p => Some p
      | None => try_entries inc (include_paths inc) name
      end
  end.
Definition resolve_root (inc : IncludePath) (name : text) : option Path := resolve_from inc None name.

(** [enum CompileError] and [parse_path] of [lib.rs]. *)
Inductive CompileError := Io (path error : text) | Parse (e : ParseError).

Definition parse_path (path : Path) : outcome CompileError SourceFile :=
  match fs_read path with
  | Err e => fail (Io (display path) e)
  | Ok bs =>
      match parse_file (display path) (decode_source bs) with
      | None => None
      | Some (Err e) => fail (Parse e)
      | Some (Ok ast) => done ast
      end
  end.

(** ** Loading a unit *)

Definition canon (p : Path) : Path := default p (fs_canonicalize p).

Definition includes_of (items : list Item) : list (text * Pos) :=
  omap (fun i => match i with IInclude path p => Some (path, p) | _ => None end) items.

(** [u.files[idx].includes.push(child)]. *)
Definition add_include (idx child : nat) (u : Unit) : Unit :=
  set_u_files (alter (fun f => mkFileUnit (fu_path f) (fu_ast f) (includes f ++ [child]) (script_names f)) idx (u_files u)) u.

(** [load]; [n] is [inc.max_depth - depth], so a depth that has reached the
    limit is [0]. *)
Fixpoint load (inc : IncludePath) (n : nat) (path : Path) (u : Unit) (seen : gmap Path nat)
    : outcome CompileError (nat * Unit * gmap Path nat) :=
  match seen !! canon path with
  | Some i => done (i, u, seen)
  | None =>
      run! ast := parse_path path in
      let idx := length (u_files u) in
      let go := fix go (l : list (text * Pos)) (u : Unit) (seen : gmap Path nat) :=
        match l with
        | [] => done (idx, u, seen)
        | (name, p) :: l =>
            match n with
            | O => go l (push_diag (mkDiag Error (display path) p (IncludeDepth name (max_depth inc))) u) seen
            | S n =>
                match resolve_from inc (Some path) name with
                | Some file =>
                    let already := bool_decide (is_Some (seen !! canon file)) in
                    run! '(child, u, seen) := load inc n file u seen in
                    let u := if already then push_diag (mkDiag Note (display path) p (IncludeAgain name)) u else u in
                    go l (add_include idx child u) seen
                | None => go l (push_diag (mkDiag Error (display path) p (IncludeUnresolved name)) u) seen
                end
            end
        end in
      go (includes_of (items ast)) (set_u_files (u_files u ++ [mkFileUnit path ast [] []]) u) (<[canon path := idx]> seen)
  end.

(** ** Structs *)

Definition collect_nested_structs (fi : nat) (stmts : list Stmt) : list (nat * StructDef) :=
  omap (fun s => match s with SStruct d => Some (fi, d) | _ => None end) stmts.
Definition block_stmts (b : Block) : list Stmt := let 'mkBlock l _ := b in l.
Definition item_structs (fi : nat) (it : Item) : list (nat * StructDef) :=
  match it with
  | IStruct s => [(fi, s)]
  | IScript d => match body d with Some b => collect_nested_structs fi (block_stmts b) | None => [] end
  | IMain m => collect_nested_structs fi (block_stmts (m_body m))
  | _ => []
  end.
Definition struct_defs (fs : list FileUnit) : list (nat * StructDef) :=
  concat (imap (fun fi f => flat_map (item_structs fi) (items (fu_ast f))) fs).

(** First pass: the names. *)
Definition register_struct (u : Unit) (d : nat * StructDef) : Unit :=
  if existsb (fun s => eq_ignore_ascii_case (si_name s) (s_name d.2)) (u_structs u) then u
  else set_structs (u_structs u ++ [mkStructInfo (s_name d.2) [] d.1]) u.

Definition path_text (u : Unit) (fi : nat) : text := default [] ((fun f => display (fu_path f)) <$> u_files u !! fi).

(** Second pass: the fields of one struct, with the diagnostics. *)
Definition add_field (fi : nat) (d : StructDef) (acc : Unit * list StructField) (f : Field) : Unit * list StructField :=
  let '(u, fs) := acc in
  if existsb (fun x => eq_ignore_ascii_case (sf_name x) (f_name f)) fs then
    (push_diag (mkDiag Error (path_text u fi) (f_pos f) (DuplicateField (f_name f) (s_name d))) u, fs)
  else
    let ty := resolve_type (Some (f_ty f)) u in
    let '(u, len) :=
      match fixed_len f with
      | Some (EInt n _) => (u, Some n)
      | Some e => (push_diag (mkDiag Error (path_text u fi) (expr_pos e) FieldLength) u, None)
      | None => (u, None)
      end in
    (u, fs ++ [mkStructField (f_name f) ty len]).
Definition fill_struct (u : Unit) (d : nat * StructDef) : Unit :=
  match struct_by_name (s_name d.2) u with
  | None => u
  | Some si =>
      match u_structs u !! si with
      | Some s =>
          if negb (bool_decide (si_fields s = [])) then u
          else
            let '(u, fs) := fold_left (add_field d.1 d.2) (fields d.2) (u, []) in
            set_structs (alter (fun s => mkStructInfo (si_name s) fs (declared_in s)) si (u_structs u)) u
      | None => u
      end
  end.
Definition collect_structs (u : Unit) : Unit :=
  let defs := struct_defs (u_files u) in
  fold_left fill_struct defs (fold_left register_struct defs u).

(** ** Labels *)

Definition I64_MIN : Z := - 2 ^ 63.

(** The operators of [const_int]: [None] is the quotient that overflows. *)
Definition const_binary (op : P) (a b : Z) : option (option Z) :=
  match op with
  | Plus => Some (Some (i64 (a + b)))
  | Minus => Some (Some (i64 (a - b)))
  | Star => Some (Some (i64 (a * b)))
  | Slash => if b =? 0 then Some None
             else if (a =? I64_MIN) && (b =? -1) then None else Some (Some (Z.quot a b))
  | Percent => if b =? 0 then Some None
               else if (a =? I64_MIN) && (b =? -1) then None else Some (Some (Z.rem a b))
  | Shl => Some (Some (i64 (Z.shiftl a (b mod 64))))
  | Shr => Some (Some (Z.shiftr a (b mod 64)))
  | Amp => Some (Some (Z.land a b))
  | Pipe => Some (Some (Z.lor a b))
  | Caret => Some (Some (Z.lxor a b))
  | _ => Some None
  end.
Definition const_unary (op : P) (a : Z) : option Z :=
  match op with
  | Minus => Some (i64 (- a))
  | Not => Some (if a =? 0 then 1 else 0)
  | Tilde => Some (Z.lnot a)
  | _ => None
  end.
(** Outer [None]: a panic; inner [None]: not a constant. *)
Fixpoint const_int (e : Expr) (env : gmap text Z) : option (option Z) :=
  match e with
  | EInt v _ => Some (Some v)
  | EName n _ => Some (env !! n)
  | EUnary op e _ =>
      match op with
      | Minus | Not | Tilde => a ← const_int e env; Some (a ≫= const_unary op)
      | _ => Some None
      end
  | EBinary op l r _ =>
      a ← const_int l env;
      match a with
      | None => Some None
      | Some a =>
          b ← const_int r env;
          match b with None => Some None | Some b => const_binary op a b end
      end
  | _ => Some None
  end.

(** The loop of [eval_labels]. *)
Fixpoint labels_from (next : Z) (defs : list LabelDef) (env : gmap text Z) (ds : list Diag) (file : text)
    : option (gmap text Z * list Diag) :=
  match defs with
  | [] => Some (env, ds)
  | d :: defs =>
      '(v, ds) ←
        match l_value d with
        | None => Some (next, ds)
        | Some e =>
            o ← const_int e env;
            Some match o with
                 | Some v => (v, ds)
                 | None => (next, ds ++ [mkDiag Error file (l_pos d) (LabelNotConstant (l_name d))])
                 end
        end;
      let ds :=
        match env !! l_name d with
        | Some prev => if prev =? v then ds else ds ++ [mkDiag Error file (l_pos d) (LabelRedefined (l_name d) prev v)]
        | None => ds
        end in
      labels_from (i64 (v + 1)) defs (<[l_name d := v]> env) ds file
  end.
Definition eval_labels (defs : list LabelDef) (env : gmap text Z) (ds : list Diag) (file : text)
    : option (gmap text Z * list Diag) := labels_from 1 defs env ds file.

(** The item loop of [collect_labels]. *)
Fixpoint collect_item_labels (path : text) (its : list Item) (u : Unit) : option Unit :=
  match its with
  | [] => Some u
  | ILabels defs _ :: its =>
      '(env, ds) ← eval_labels defs (u_labels u) (u_diags u) path;
      collect_item_labels path its (set_labels env (set_u_diags ds u))
  | _ :: its => collect_item_labels path its u
  end.
Fixpoint collect_file_labels (fs : list FileUnit) (u : Unit) : option Unit :=
  match fs with
  | [] => Some u
  | f :: fs => u ← collect_item_labels (display (fu_path f)) (items (fu_ast f)) u; collect_file_labels fs u
  end.
Definition collect_labels (u : Unit) : option Unit := collect_file_labels (u_files u) u.

(** ** Scripts *)

Definition entry_name (path : Path) : text := default (tx "main") (file_stem path).

(** Pass 1: the names of one file. *)
Definition add_name (n : text) (names : list text) : list text :=
  if existsb (fun x => eq_ignore_ascii_case x n) names then names else names ++ [n].
Definition name_item (path : Path) (names : list text) (it : Item) : list text :=
  match it with
  | IScript s => add_name (sig_name (sig s)) names
  | IMain _ => add_name (entry_name path) names
  | _ => names
  end.
Definition name_file (f : FileUnit) : FileUnit :=
  mkFileUnit (fu_path f) (fu_ast f) (includes f) (fold_left (name_item (fu_path f)) (items (fu_ast f)) []).

(** Pass 2: the table. *)
Definition script_info (u : Unit) (fi : nat) (f : FileUnit) (it : Item) : option (ScriptInfo * Pos) :=
  let info name ps ret ty has :=
    mkScriptInfo name fi (default O (position (fun n => eq_ignore_ascii_case n name) (script_names f)))
      (length ps) ret (map by_ref ps) ty has in
  match it with
  | IScript s =>
      Some (info (sig_name (sig s)) (params (sig s)) (resolve_type (ret (sig s)) u) (script_type (sig s))
              (bool_decide (is_Some (body s))), sig_pos (sig s))
  | IMain m =>
      Some (info (entry_name (fu_path f)) [] (resolve_type (m_ret m) u) (Some (m_type m)) true, m_pos m)
  | _ => None
  end.
Definition add_script (file : text) (acc : list ScriptInfo * list Diag) (ip : ScriptInfo * Pos) : list ScriptInfo * list Diag :=
  let '(scripts, ds) := acc in
  let '(info, p) := ip in
  match position (fun s => eq_ignore_ascii_case (sn_name s) (sn_name info)) scripts with
  | Some i =>
      match scripts !! i with
      | Some prev =>
          if has_body prev && has_body info then (scripts, ds ++ [mkDiag Error file p (ScriptTwice (sn_name info))])
          else if negb (has_body prev) then (<[i := info]> scripts, ds)
          else (scripts, ds)
      | None => (scripts, ds)
      end
  | None => (scripts ++ [info], ds)
  end.
Definition add_scripts (u : Unit) (acc : list ScriptInfo * list Diag) (ff : nat * FileUnit) : list ScriptInfo * list Diag :=
  fold_left (add_script (display (fu_path ff.2))) (omap (script_info u ff.1 ff.2) (items (fu_ast ff.2))) acc.
Definition collect_scripts (u : Unit) : Unit :=
  let u := set_u_files (map name_file (u_files u)) u in
  let '(scripts, ds) := fold_left (add_scripts u) (imap pair (u_files u)) ([], u_diags u) in
  set_u_scripts scripts (set_u_diags ds u).

Definition analyze (root : Path) (inc : IncludePath) : outcome CompileError Unit :=
  run! '(_, u, _) := load inc (max_depth inc) root (mkUnit [] [] ∅ [] []) ∅ in
  match collect_labels (collect_structs u) with
  | None => None
  | Some u => done (collect_scripts u)
  end.
End FileSystem.

(** ** Builtins *)

Section Builtins.
Variable BUILTINS : list BuiltinDecl.

Definition builtin_overloads (name : text) : list BuiltinDecl :=
  List.filter (fun b => eq_ignore_ascii_case (str_text (bd_name b)) name) BUILTINS.

Definition resolve_builtin (name : text) (argc : nat) : option BuiltinDecl :=
  let cands := builtin_overloads name in
  match List.find (fun d => bd_arity d =? Z.of_nat argc) cands with
  | Some d => Some d
  | None => List.find (fun d => bool_decide (last (bd_params d) = Some TParams) && (bd_arity d <=? Z.of_nat argc + 1)) cands
  end.
End Builtins.
