(* ===== verification/CcCodegen.v ===== *)
(** * The script compiler: code generation

    [crates/don-bhs-cc/src/codegen.rs].  The state is the generator of a file
    and that of the script being compiled; the unit and the file's index do
    not change and are variables.  A computation panics, exhausts the machine
    stack, or returns a result with the state after it ([comp]).  The
    recursion over syntax trees is taken to fit the machine stack; the one
    over types ([emit_default_value]) need not end and takes the number
    [depth] of nested calls the stack holds. *)

From S2P Require Import Prelude NetText BhsOpcode BhsDisasm BhsStd BhsValue BhsProgram BhsVm CcLex CcAst CcParse CcSema.
From Stdlib Require Import Ascii.
From Stdlib Require String.
Import (notations) String.
#[local] Open Scope list_scope.
#[local] Open Scope Z_scope.

(** [mod op]. *)
Module op.
Definition ASSIGN : Z := 0x00.
Definition EQ : Z := 0x01.
Definition NE : Z := 0x02.
Definition ADD_ASSIGN : Z := 0x03.
Definition ADD : Z := 0x04.
Definition LESS : Z := 0x05.
Definition GREA : Z := 0x06.
Definition LE : Z := 0x07.
Definition GE : Z := 0x08.
Definition UNA_NOT : Z := 0x09.
Definition MUL_ASSIGN : Z := 0x0c.
Definition DIV_ASSIGN : Z := 0x0d.
Definition SUB_ASSIGN : Z := 0x0e.
Definition MUL : Z := 0x0f.
Definition DIV : Z := 0x10.
Definition SUBT : Z := 0x11.
Definition INC : Z := 0x12.
Definition DEC : Z := 0x13.
Definition INC_POST : Z := 0x14.
Definition DEC_POST : Z := 0x15.
Definition UNA_NEGA : Z := 0x16.
Definition POW : Z := 0x17.
Definition POW_ASSIGN : Z := 0x18.
Definition MOD_ASSIGN : Z := 0x19.
Definition LEFT_ASSIGN : Z := 0x1a.
Definition RIGHT_ASSIGN : Z := 0x1b.
Definition AND_ASSIGN : Z := 0x1c.
Definition XOR_ASSIGN : Z := 0x1d.
Definition OR_ASSIGN : Z := 0x1e.
Definition MOD : Z := 0x1f.
Definition SHL : Z := 0x20.
Definition SHR : Z := 0x21.
Definition AND_BIT : Z := 0x22.
Definition XOR_BIT : Z := 0x23.
Definition OR_BIT : Z := 0x24.
Definition UNA_TILD : Z := 0x25.
Definition PUSH : Z := 0x26.
Definition POP : Z := 0x27.
Definition CREATE_SIMPLE : Z := 0x28.
Definition CREATE_ARRAY : Z := 0x29.
Definition CREATE_ARRAY_DYN : Z := 0x2a.
Definition CREATE_ARRAY_INITER : Z := 0x2b.
Definition CREATE_STRUCT : Z := 0x2c.
Definition PUSH_ARRAY_INDEX : Z := 0x2d.
Definition CREATE_ARRAY_INDEX : Z := 0x2e.
Definition PUSH_STRUCT_FIELD : Z := 0x2f.
Definition PUSH_ARRAY_LENGTH : Z := 0x30.
Definition SET_ARRAY_LENGTH : Z := 0x31.
Definition INIT_COPY : Z := 0x32.
Definition INIT : Z := 0x33.
Definition CAST : Z := 0x34.
Definition CAST_BOOL : Z := 0x35.
Definition CALL : Z := 0x36.
Definition CALL_INCLUDE : Z := 0x37.
Definition CALL_GAME : Z := 0x38.
Definition CASE : Z := 0x3a.
Definition BIT_CLEAR : Z := 0x3c.
Definition BIT_SET : Z := 0x3d.
Definition RETURN : Z := 0x3e.
Definition JUMP : Z := 0x3f.
Definition JUMP_IF : Z := 0x40.
Definition JUMP_IF_NOT : Z := 0x41.
Definition JUMP_IF_SC_TRUE : Z := 0x42.
Definition JUMP_IF_SC_FALSE : Z := 0x43.
Definition JUMP_IF_INITED : Z := 0x44.
Definition JUMP_IF_BITSET : Z := 0x45.
Definition SCRIPT_MARKER : Z := 0x47.
Definition ERROR_TOKEN : Z := 0x48.
End op.

(** [OP_CALL_GAME_VARIED], written as a number in the source. *)
Definition CALL_GAME_VARIED : Z := 0x39.

Definition ASSIGN_EMITS_VALUE_THEN_TARGET : bool := true.

(** [enum Slot]. *)
Inductive Place := PConst (i : Z) | PStatic (i : Z) | PLocal (i : Z).
Definition encode (s : Place) : Z :=
  match s with
  | PConst i => Z.lor i 0x20000000
  | PStatic i => Z.lor i 0x40000000
  | PLocal i => i
  end.

(** [enum ConstKey]; an [f32]'s bits identify it. *)
Inductive ConstKey := KeyI (i : Z) | KeyF (f : f32) | KeyS (s : text).
#[export] Instance ConstKey_eq_dec : EqDecision ConstKey.
Proof. solve_decision. Defined.

(** [struct FileGen]. *)
Record FileGen := mkFileGen {
  g_code : bytes; consts : list Value; const_index : list (ConstKey * Z); loc_consts : list Z;
  g_line_to_op : list Z; g_scripts : list Script; g_diags : list Diag; auto_casts : nat }.

(** [struct ScriptGen]; the innermost scope, break and continue target are the
    heads of their lists. *)
Record ScriptGen := mkScriptGen {
  g_locals : list text; g_statics : list text; local_ty : list Ty; static_tys : list Ty;
  scopes : list (gmap text Place); g_labels : gmap text Z; triggers : list text; g_trigger_bits : bytes;
  g_ret : Ty; fixups : list (nat * nat); label_pos : list (option Z);
  breaks : list nat; continues : list (option nat) }.

Definition set_code (c : bytes) (l : list Z) (f : FileGen) : FileGen :=
  mkFileGen c (consts f) (const_index f) (loc_consts f) l (g_scripts f) (g_diags f) (auto_casts f).
Definition set_g_scripts (x : list Script) (f : FileGen) : FileGen :=
  mkFileGen (g_code f) (consts f) (const_index f) (loc_consts f) (g_line_to_op f) x (g_diags f) (auto_casts f).
Definition set_g_diags (x : list Diag) (f : FileGen) : FileGen :=
  mkFileGen (g_code f) (consts f) (const_index f) (loc_consts f) (g_line_to_op f) (g_scripts f) x (auto_casts f).

Definition set_scopes (x : list (gmap text Place)) (g : ScriptGen) : ScriptGen :=
  mkScriptGen (g_locals g) (g_statics g) (local_ty g) (static_tys g) x (g_labels g) (triggers g)
    (g_trigger_bits g) (g_ret g) (fixups g) (label_pos g) (breaks g) (continues g).
Definition set_g_labels (x : gmap text Z) (g : ScriptGen) : ScriptGen :=
  mkScriptGen (g_locals g) (g_statics g) (local_ty g) (static_tys g) (scopes g) x (triggers g)
    (g_trigger_bits g) (g_ret g) (fixups g) (label_pos g) (breaks g) (continues g).
Definition set_fixups (x : list (nat * nat)) (g : ScriptGen) : ScriptGen :=
  mkScriptGen (g_locals g) (g_statics g) (local_ty g) (static_tys g) (scopes g) (g_labels g) (triggers g)
    (g_trigger_bits g) (g_ret g) x (label_pos g) (breaks g) (continues g).
Definition set_label_pos (x : list (option Z)) (g : ScriptGen) : ScriptGen :=
  mkScriptGen (g_locals g) (g_statics g) (local_ty g) (static_tys g) (scopes g) (g_labels g) (triggers g)
    (g_trigger_bits g) (g_ret g) (fixups g) x (breaks g) (continues g).
Definition set_loops (b : list nat) (c : list (option nat)) (g : ScriptGen) : ScriptGen :=
  mkScriptGen (g_locals g) (g_statics g) (local_ty g) (static_tys g) (scopes g) (g_labels g) (triggers g)
    (g_trigger_bits g) (g_ret g) (fixups g) (label_pos g) b c.

(** [struct Stats]. *)
Record Stats := mkStats { st_auto_casts : nat }.

(** ** The monad *)

Module Gen.
Definition M (A : Type) : Type := FileGen * ScriptGen -> comp (A * (FileGen * ScriptGen)).
Definition ret {A} (a : A) : M A := fun s => Comp (a, s).
Definition bind {A B} (c : M A) (k : A -> M B) : M B := fun s =>
  match c s with
  | Comp (a, s) => k a s
  | Panic => Panic
  | StackOverflow => StackOverflow
  end.
Definition panic {A} : M A := fun _ => Panic.
Definition lift {A} (c : comp A) : M A := fun s =>
  match c with Comp a => Comp (a, s) | Panic => Panic | StackOverflow => StackOverflow end.
Definition unwrap {A} (o : option A) : M A := match o with Some a => ret a | None => panic end.
Definition gets {A} (f : FileGen * ScriptGen -> A) : M A := fun s => Comp (f s, s).
Definition modify_f (f : FileGen -> FileGen) : M unit := fun s => Comp (tt, (f s.1, s.2)).
Definition modify_g (f : ScriptGen -> ScriptGen) : M unit := fun s => Comp (tt, (s.1, f s.2)).
Definition the_gen : M ScriptGen := gets snd.

Declare Scope gen_scope.
Delimit Scope gen_scope with gen.
Notation "'do!' x := c 'in' k" := (bind c (fun x => k))
  (at level 10, x name, c at level 100, k at level 200) : gen_scope.
Notation "c ;;; k" := (bind c (fun _ => k)) (at level 100, k at level 200, right associativity) : gen_scope.

(** [for x in l], [for x in l.iter().rev()]. *)
Definition iter {A} (f : A -> M unit) : list A -> M unit :=
  fix go l := match l with [] => ret tt | x :: l => bind (f x) (fun _ => go l) end.
Definition iter_rev {A} (f : A -> M unit) : list A -> M unit :=
  fix go l := match l with [] => ret tt | x :: l => bind (go l) (fun _ => f x) end.
(** The same over a list and what was computed for each element. *)
Definition iter2 {A B} (f : A -> B -> M unit) : list A -> list B -> M unit :=
  fix go l k := match l, k with x :: l, y :: k => bind (f x y) (fun _ => go l k) | _, _ => ret tt end.
Definition collect {A B} (f : A -> M B) : list A -> M (list B) :=
  fix go l := match l with [] => ret [] | x :: l => bind (f x) (fun y => bind (go l) (fun ys => ret (y :: ys))) end.
Definition when (b : bool) (c : M unit) : M unit := if b then c else ret tt.
Definition on_some {A} (o : option A) (f : A -> M unit) : M unit := match o with Some x => f x | None => ret tt end.
End Gen.
Import Gen.
#[local] Open Scope gen_scope.

(** ** Names and slots *)

Definition new_label : M nat :=
  do! g := the_gen in
  modify_g (set_label_pos (label_pos g ++ [None])) ;;; ret (length (label_pos g)).

Fixpoint lookup_in (name : text) (ss : list (gmap text Place)) : option Place :=
  match ss with
  | [] => None
  | s :: ss => match s !! map ascii_lower name with Some v => Some v | None => lookup_in name ss end
  end.
Definition lookup (name : text) (g : ScriptGen) : option Place := lookup_in name (scopes g).

Definition slot_ty (s : Place) (g : ScriptGen) : Ty :=
  match s with
  | PLocal i => default TyUntyped (get_z (local_ty g) i)
  | PStatic i => default TyUntyped (get_z (static_tys g) i)
  | PConst _ => TyUntyped
  end.

(** [self.scopes.last_mut().unwrap().insert(name.to_ascii_lowercase(), s)]. *)
Definition bind_name (name : text) (s : Place) (ss : list (gmap text Place)) : option (list (gmap text Place)) :=
  match ss with [] => None | sc :: ss => Some (<[map ascii_lower name := s]> sc :: ss) end.
Definition declare_local (name : text) (ty : Ty) : M Place :=
  do! g := the_gen in
  let s := PLocal (u32 (Z.of_nat (length (g_locals g)))) in
  do! ss := unwrap (bind_name name s (scopes g)) in
  modify_g (fun g => mkScriptGen (g_locals g ++ [name]) (g_statics g) (local_ty g ++ [ty]) (static_tys g) ss (g_labels g)
    (triggers g) (g_trigger_bits g) (g_ret g) (fixups g) (label_pos g) (breaks g) (continues g)) ;;; ret s.
Definition declare_static (name : text) (ty : Ty) : M Place :=
  do! g := the_gen in
  let s := PStatic (u32 (Z.of_nat (length (g_statics g)))) in
  do! ss := unwrap (bind_name name s (scopes g)) in
  modify_g (fun g => mkScriptGen (g_locals g) (g_statics g ++ [name]) (local_ty g) (static_tys g ++ [ty]) ss (g_labels g)
    (triggers g) (g_trigger_bits g) (g_ret g) (fixups g) (label_pos g) (breaks g) (continues g)) ;;; ret s.

Definition trigger_index (name : text) : M Z :=
  do! g := the_gen in
  match position (fun t => eq_ignore_ascii_case t name) (triggers g) with
  | Some i => ret (u32 (Z.of_nat i))
  | None =>
      let i := length (triggers g) in
      let bits := if (length (g_trigger_bits g) * 8 <=? i)%nat then g_trigger_bits g ++ [0xff] else g_trigger_bits g in
      do! b := unwrap (bits !! (i / 8)%nat) in
      modify_g (fun g => mkScriptGen (g_locals g) (g_statics g) (local_ty g) (static_tys g) (scopes g) (g_labels g)
        (triggers g ++ [name]) (<[(i / 8)%nat := Z.lor b (2 ^ Z.of_nat (i mod 8))]> bits)
        (g_ret g) (fixups g) (label_pos g) (breaks g) (continues g)) ;;;
      ret (u32 (Z.of_nat i))
  end.

Definition push_scope : M unit := modify_g (fun g => set_scopes (∅ :: scopes g) g).
Definition pop_scope : M unit := modify_g (fun g => set_scopes (tail (scopes g)) g).
Definition push_loop (b : nat) (c : option nat) : M unit :=
  modify_g (fun g => set_loops (b :: breaks g) (c :: continues g) g).
Definition pop_loop : M unit := modify_g (fun g => set_loops (tail (breaks g)) (tail (continues g)) g).

Definition array_inner (ty : Ty) : Ty := match ty with TyArray inner => inner | other => other end.

(** [bhs_type_hash]. *)
Definition HASH_T : list Z :=
  [127; 811; 1597; 2131; 2749; 4759; 5527; 5953; 8117; 9539; 10273; 10753; 11159; 12301;
   13217; 14207; 15413; 17681; 18661; 19013; 21089; 22051; 25111; 25801; 27457; 28057; 29581;
   30809; 32611; 34469; 36067; 37511; 38723; 40093; 41983; 43321; 45083; 47431; 49667; 50767;
   53453; 55469; 57193; 59369; 61987; 65071; 73421; 77849; 84223; 89009].
Definition hash_t (i : Z) : Z := nth (Z.to_nat (i mod 50)) HASH_T 0.
(** The loop from the last unit to the first; [units] is reversed and
    [index + 1] of them are left. *)
Fixpoint hash_loop (units : list Z) (hash : Z) : Z :=
  match units with
  | [] => hash
  | unit :: rest =>
      let index := Z.of_nat (length rest) in
      let c := ascii_lower unit in
      hash_loop rest (u32 (u32 (hash + u32 (hash_t c * u32 (index + 1))) + u32 (c * hash_t index)))
  end.
Definition bhs_type_hash (name : text) : Z := hash_loop (reverse (encode_utf16 name)) 0.

Definition script_type_tag (_ : option text) : Z := 0.

(** ** One file *)

Section FileGen.
Context (BUILTINS : list BuiltinDecl) (depth : nat) (unit_ : Unit) (file : nat).

Definition path_ : text := path_text unit_ file.
Definition diag (sev : Severity) (p : Pos) (m : DiagMsg) : M unit :=
  modify_f (fun f => set_g_diags (g_diags f ++ [mkDiag sev path_ p m]) f).

(** *** Emission *)

Definition here : M Z := gets (fun s => u32 (Z.of_nat (length (g_code s.1)))).
Definition emit (b : Z) (p : Pos) : M unit :=
  modify_f (fun f => set_code (g_code f ++ [b]) (g_line_to_op f ++ [i32 (line p)]) f).
Definition emit_u32 (v : Z) : M unit :=
  modify_f (fun f => set_code (g_code f ++ to_le 4 v) (g_line_to_op f) f).
Definition emit1 (b a : Z) (p : Pos) : M unit := emit b p ;;; emit_u32 a.
Definition emit2 (b a c : Z) (p : Pos) : M unit := emit b p ;;; emit_u32 a ;;; emit_u32 c.
(** [g.fixups.push((self.code.len(), label))]. *)
Definition fixup (label : nat) : M unit :=
  do! n := gets (fun s => length (g_code s.1)) in
  modify_g (fun g => set_fixups (fixups g ++ [(n, label)]) g).
Definition emit_jump (b : Z) (label : nat) (p : Pos) : M unit := emit b p ;;; fixup label ;;; emit_u32 0.
Definition emit_jump2 (b first : Z) (label : nat) (p : Pos) : M unit :=
  emit b p ;;; emit_u32 first ;;; fixup label ;;; emit_u32 0.
Definition place (label : nat) : M unit :=
  do! h := here in
  do! g := the_gen in
  if (label <? length (label_pos g))%nat then modify_g (set_label_pos (<[label := Some h]> (label_pos g))) else panic.

Definition const_key (v : Value) : ConstKey :=
  match v with
  | VInt i => KeyI i
  | VReal f => KeyF f
  | VStr s => KeyS s
  | _ => KeyI 0
  end.
Definition intern (v : Value) : M Z :=
  do! f := gets fst in
  match List.find (fun kv => bool_decide (kv.1 = const_key v)) (const_index f) with
  | Some (_, i) => ret i
  | None =>
      let i := u32 (Z.of_nat (length (consts f))) in
      modify_f (fun f => mkFileGen (g_code f) (consts f ++ [v]) (const_index f ++ [(const_key v, i)]) (loc_consts f)
        (g_line_to_op f) (g_scripts f) (g_diags f) (auto_casts f)) ;;;
      ret i
  end.
(** [if !self.loc_consts.contains(&c) { self.loc_consts.push(c) }]. *)
Definition note_loc (c : Z) : M unit :=
  modify_f (fun f => mkFileGen (g_code f) (consts f) (const_index f)
    (if existsb (Z.eqb c) (loc_consts f) then loc_consts f else loc_consts f ++ [c])
    (g_line_to_op f) (g_scripts f) (g_diags f) (auto_casts f)).
Definition count_cast : M unit :=
  modify_f (fun f => mkFileGen (g_code f) (consts f) (const_index f) (loc_consts f) (g_line_to_op f) (g_scripts f)
    (g_diags f) (S (auto_casts f))).
Definition push_const (v : Value) (p : Pos) : M unit := do! c := intern v in emit1 op.PUSH (encode (PConst c)) p.

Definition eval_labels_here (defs : list LabelDef) : M unit :=
  do! s := gets id in
  do! r := unwrap (eval_labels defs (g_labels s.2) (g_diags s.1) path_) in
  modify_g (set_g_labels r.1) ;;; modify_f (set_g_diags r.2).
Fixpoint hoist_label (s : Stmt) : M unit :=
  match s with
  | SLabels defs _ => eval_labels_here defs
  | SBlock b => let 'mkBlock l _ := b in iter hoist_label l
  | SRunOnce b _ => let 'mkBlock l _ := b in iter hoist_label l
  | _ => ret tt
  end.
Definition hoist_labels (l : list Stmt) : M unit := iter hoist_label l.

(** *** Types *)

Fixpoint retail_type_name (ty : Ty) : comp (option text) :=
  match ty with
  | TyScalar TInt => Comp (Some (tx "int"))
  | TyScalar TReal => Comp (Some (tx "float"))
  | TyScalar TStr => Comp (Some (tx "string"))
  | TyScalar TVoid => Comp (Some (tx "void"))
  | TyScalar _ => Comp None
  | TyStruct si => match u_structs unit_ !! si with Some s => Comp (Some (si_name s)) | None => Panic end
  | TyArray inner =>
      match retail_type_name inner with
      | Comp o => Comp ((fun name => name ++ tx "[]") <$> o)
      | Panic => Panic
      | StackOverflow => StackOverflow
      end
  | TyUntyped => Comp None
  end.
(** The field loop of [struct_unique_token]. *)
Fixpoint token_fields (fs : list StructField) (token : text) : comp (option text) :=
  match fs with
  | [] => Comp (Some token)
  | f :: fs =>
      match retail_type_name (if bool_decide (is_Some (sf_fixed_len f)) then TyArray (sf_ty f) else sf_ty f) with
      | Comp (Some name) => token_fields fs (token ++ name ++ [ch "^"])
      | Comp None => Comp None
      | Panic => Panic
      | StackOverflow => StackOverflow
      end
  end.
Definition struct_unique_token (si : nat) : comp (option text) :=
  match u_structs unit_ !! si with
  | None => Comp None
  | Some info => token_fields (si_fields info) (si_name info ++ [ch "$"])
  end.

Definition type_token (ty : Ty) : M (option text) :=
  match ty with
  | TyStruct si => lift (struct_unique_token si)
  | TyArray inner => do! o := lift (retail_type_name inner) in ret ((fun name => ch "@" :: name) <$> o)
  | _ => ret None
  end.
Definition resolved_type_tag (ty : Ty) (p : Pos) : M Z :=
  match ty with
  | TyScalar _ => ret (ty_tag ty)
  | _ =>
      do! token := type_token ty in
      match token with
      | Some token => ret (bhs_type_hash token)
      | None => diag Error p TypeIdentity ;;; ret 0
      end
  end.
Definition array_element_tag (ty : Ty) (p : Pos) : M Z := resolved_type_tag (array_inner ty) p.

Fixpoint emit_default_value (depth : nat) (ty : Ty) (p : Pos) : M unit :=
  match depth with
  | O => fun _ => StackOverflow
  | S depth =>
      match ty with
      | TyStruct si =>
          do! s := unwrap (u_structs unit_ !! si) in
          iter_rev (fun field =>
            match sf_fixed_len field with
            | Some n =>
                emit_default_value depth (sf_ty field) p ;;;
                push_const (VInt (i32 n)) p ;;;
                do! t := resolved_type_tag (sf_ty field) p in
                emit1 op.CREATE_ARRAY_DYN t p
            | None => emit_default_value depth (sf_ty field) p
            end) (si_fields s) ;;;
          do! t := resolved_type_tag ty p in
          emit2 op.CREATE_STRUCT (u32 (Z.of_nat (length (si_fields s)))) t p
      | TyArray inner =>
          emit_default_value depth inner p ;;;
          do! t := resolved_type_tag inner p in
          emit1 op.CREATE_ARRAY t p
      | _ =>
          do! t := resolved_type_tag ty p in
          emit1 op.CREATE_SIMPLE t p
      end
  end.

(** *** Static types of expressions *)

Definition struct_of_ty (t : option Ty) : option StructInfo :=
  match t with Some (TyStruct i) => u_structs unit_ !! i | _ => None end.
Definition is_array_ty (t : option Ty) : bool := match t with Some (TyArray _) => true | _ => false end.
Definition is_str (t : option Ty) : bool := match t with Some (TyScalar TStr) => true | _ => false end.

Fixpoint static_ty (g : ScriptGen) (e : Expr) : option Ty :=
  match e with
  | EStr _ _ | ELocStr _ _ => Some (TyScalar TStr)
  | EInt _ _ => Some (TyScalar TInt)
  | EReal _ _ => Some (TyScalar TReal)
  | ECast ty _ _ => Some (resolve_type (Some ty) unit_)
  | EBinary Plus l r _ =>
      if is_str (static_ty g l) || is_str (static_ty g r) then Some (TyScalar TStr) else static_ty g l
  | EName n _ => (fun s => slot_ty s g) <$> lookup n g
  | EIndex base _ _ => match static_ty g base with Some (TyArray inner) => Some inner | _ => None end
  | EMember base name _ =>
      let t := static_ty g base in
      if is_array_ty t then Some (TyScalar TInt)
      else
        s ← struct_of_ty t;
        i ← field_index name s;
        f ← si_fields s !! i;
        Some (if bool_decide (is_Some (sf_fixed_len f)) then TyArray (sf_ty f) else sf_ty f)
  | ECall name args _ =>
      match script_by_name name unit_ with
      | Some s => Some (sn_ret s)
      | None => (fun d => TyScalar (bd_ret d)) <$> resolve_builtin BUILTINS name (length args)
      end
  | _ => None
  end.
Definition struct_of (g : ScriptGen) (e : Expr) : option StructInfo := struct_of_ty (static_ty g e).
Definition is_array (g : ScriptGen) (e : Expr) : bool := is_array_ty (static_ty g e).
Definition is_struct_with_field (g : ScriptGen) (base : Expr) (name : text) : bool :=
  bool_decide (is_Some (s ← struct_of g base; field_index name s)).

(** The loop of [field_index]: a field name only one struct has. *)
Fixpoint unique_field (name : text) (ss : list StructInfo) (hit : option nat) : option nat :=
  match ss with
  | [] => hit
  | s :: ss =>
      match field_index name s with
      | Some i => match hit with Some _ => None | None => unique_field name ss (Some i) end
      | None => unique_field name ss hit
      end
  end.
Definition member_index (g : ScriptGen) (base : Expr) (name : text) : option nat :=
  match struct_of g base with
  | Some s => field_index name s
  | None => unique_field name (u_structs unit_) None
  end.

Definition call_leaves_value (name : text) (argc : nat) : bool :=
  if eq_ignore_ascii_case name (tx "enable_trigger") || eq_ignore_ascii_case name (tx "disable_trigger") then false
  else
    match script_by_name name unit_ with
    | Some s => negb (bool_decide (sn_ret s = TyScalar TVoid))
    | None =>
        match resolve_builtin BUILTINS name argc with
        | Some d => negb (bool_decide (bd_ret d = TVoid))
        | None => true
        end
    end.
Definition leaves_value (e : Expr) : bool :=
  match e with
  | ECall name args _ => call_leaves_value name (length args)
  | EMethodCall _ name args _ => call_leaves_value name (length args + 1)
  | _ => true
  end.

(** *** Expressions *)

Fixpoint preintern_expr_constants (e : Expr) : M unit :=
  match e with
  | EInt v _ => intern (VInt (i32 v)) ;;; ret tt
  | EReal v _ => intern (VReal v) ;;; ret tt
  | EStr s _ => intern (VStr s) ;;; ret tt
  | ELocStr s _ => do! c := intern (VStr s) in note_loc c
  | EName n _ =>
      do! g := the_gen in
      on_some (g_labels g !! n) (fun v => intern (VInt (i32 v)) ;;; ret tt)
  | EArrayLit items _ => iter preintern_expr_constants items
  | ECast _ e _ | EUnary _ e _ | EPreIncDec _ e _ | EPostIncDec _ e _ | EMember e _ _ => preintern_expr_constants e
  | EBinary _ l r _ => preintern_expr_constants l ;;; preintern_expr_constants r
  | EAssign _ t v _ => preintern_expr_constants t ;;; preintern_expr_constants v
  | ECall _ args _ => iter preintern_expr_constants args
  | EMethodCall recv _ args _ => preintern_expr_constants recv ;;; iter preintern_expr_constants args
  | EIndex base index _ => preintern_expr_constants base ;;; preintern_expr_constants index
  end.

Definition name_slot (n : text) (p : Pos) : M Place :=
  do! g := the_gen in
  match lookup n g with
  | Some s => ret s
  | None =>
      match g_labels g !! n with
      | Some v => do! c := intern (VInt (i32 v)) in ret (PConst c)
      | None => diag Note p (ImplicitLocal n) ;;; declare_local n (TyScalar TInt)
      end
  end.

Definition unary_op (p : P) : option Z :=
  match p with Not => Some op.UNA_NOT | Minus => Some op.UNA_NEGA | Tilde => Some op.UNA_TILD | _ => None end.
Definition binary_op (p : P) : option Z :=
  match p with
  | Eq => Some op.EQ | Ne => Some op.NE | Lt => Some op.LESS | Gt => Some op.GREA | Le => Some op.LE | Ge => Some op.GE
  | Plus => Some op.ADD | Minus => Some op.SUBT | Star => Some op.MUL | Slash => Some op.DIV | Percent => Some op.MOD
  | Pow => Some op.POW | Amp => Some op.AND_BIT | Pipe => Some op.OR_BIT | Caret => Some op.XOR_BIT
  | Shl => Some op.SHL | Shr => Some op.SHR
  | _ => None
  end.
Definition assign_op (p : P) : option Z :=
  match p with
  | Assign => Some op.ASSIGN | AddAssign => Some op.ADD_ASSIGN | SubAssign => Some op.SUB_ASSIGN
  | MulAssign => Some op.MUL_ASSIGN | DivAssign => Some op.DIV_ASSIGN | ModAssign => Some op.MOD_ASSIGN
  | PowAssign => Some op.POW_ASSIGN | LeftAssign => Some op.LEFT_ASSIGN | RightAssign => Some op.RIGHT_ASSIGN
  | AndAssign => Some op.AND_ASSIGN | XorAssign => Some op.XOR_ASSIGN | OrAssign => Some op.OR_ASSIGN
  | _ => None
  end.

(** The methods that recur through [expr] take it as an argument. *)
Definition member (expr : Expr -> M unit) (base : Expr) (name : text) (p : Pos) : M unit :=
  do! g := the_gen in
  if is_array g base || (eq_ignore_ascii_case name (tx "length") && negb (is_struct_with_field g base name)) then
    expr base ;;; emit op.PUSH_ARRAY_LENGTH p
  else
    expr base ;;;
    do! g := the_gen in
    match member_index g base name with
    | Some i => emit1 op.PUSH_STRUCT_FIELD (u32 (Z.of_nat i)) p
    | None => diag Error p (UnresolvedField name)
    end.

Definition binary (expr : Expr -> M unit) (p : P) (lhs rhs : Expr) (pos : Pos) : M unit :=
  if bool_decide (p = AndAnd) || bool_decide (p = OrOr) then
    do! l_end := new_label in
    expr lhs ;;;
    emit_jump (if bool_decide (p = AndAnd) then op.JUMP_IF_SC_FALSE else op.JUMP_IF_SC_TRUE) l_end pos ;;;
    expr rhs ;;;
    place l_end ;;;
    emit op.CAST_BOOL pos
  else
    expr lhs ;;;
    expr rhs ;;;
    do! g := the_gen in
    when (is_str (static_ty g lhs) && match static_ty g rhs with None => false | t => negb (is_str t) end)
      (emit1 op.CAST (tag TStr) pos ;;; count_cast) ;;;
    match binary_op p with
    | Some b => emit b pos
    | None => diag Error pos (BinaryOp p)
    end.

Definition lvalue (expr : Expr -> M unit) (e : Expr) : M unit :=
  match e with
  | EName _ _ | EMember _ _ _ => expr e
  | EIndex base index p => expr base ;;; expr index ;;; emit op.CREATE_ARRAY_INDEX p
  | _ => diag Error (expr_pos e) NotVariable ;;; expr e
  end.
Definition assign (expr : Expr -> M unit) (p : P) (target value : Expr) (pos : Pos) : M unit :=
  match assign_op p with
  | None => diag Error pos NotAssignment
  | Some b =>
      do! g := the_gen in
      let general :=
        (if ASSIGN_EMITS_VALUE_THEN_TARGET then expr value ;;; lvalue expr target
         else lvalue expr target ;;; expr value) ;;;
        emit b pos in
      match target with
      | EMember base name _ =>
          if is_array g base then
            if bool_decide (p = Assign) && eq_ignore_ascii_case name (tx "length") then
              expr value ;;; expr base ;;; emit op.SET_ARRAY_LENGTH pos
            else diag Error pos ArrayMember
          else general
      | _ => general
      end
  end.

(** The intrinsics [enable_trigger] and [disable_trigger]. *)
Definition trigger_intrinsic (enable : bool) (name : text) (arg : Expr) (p : Pos) : M unit :=
  let b := if enable then op.BIT_SET else op.BIT_CLEAR in
  match arg with
  | EStr s _ | ELocStr s _ => do! idx := trigger_index s in emit1 b idx p
  | EName n _ => do! idx := trigger_index n in emit1 b idx p
  | other => diag Error (expr_pos other) (TriggerName name)
  end.

(** After the arguments: the call itself. *)
Definition emit_call (name : text) (argc : nat) (p : Pos) : M unit :=
  match script_by_name name unit_ with
  | Some s =>
      when (negb (bool_decide (sn_arity s = argc))) (diag Error p (ScriptArity (sn_name s) (sn_arity s) argc)) ;;;
      if bool_decide (sn_file s = file) then emit1 op.CALL (u32 (Z.of_nat (index_in_file s))) p
      else
        match position (fun i => bool_decide (i = sn_file s)) (default [] (includes <$> u_files unit_ !! file)) with
        | Some li => emit2 op.CALL_INCLUDE (u32 (Z.of_nat (index_in_file s))) (u32 (Z.of_nat li)) p
        | None => diag Error p (NotIncluded (sn_name s))
        end
  | None =>
      match resolve_builtin BUILTINS name argc with
      | Some d =>
          if bd_arity d =? Z.of_nat argc then emit1 op.CALL_GAME (bd_index d) p
          else emit2 CALL_GAME_VARIED (bd_index d) (u32 (Z.of_nat argc)) p
      | None =>
          diag Error p
            match builtin_overloads BUILTINS name with
            | [] => UnknownFunction name
            | ds => BuiltinArity name argc (map bd_arity ds)
            end
      end
  end.
Definition call (expr : Expr -> M unit) (name : text) (recv : option Expr) (args : list Expr) (p : Pos) : M unit :=
  let enable := eq_ignore_ascii_case name (tx "enable_trigger") in
  let disable := eq_ignore_ascii_case name (tx "disable_trigger") in
  let general :=
    on_some recv preintern_expr_constants ;;;
    iter preintern_expr_constants args ;;;
    iter_rev expr args ;;;
    on_some recv expr ;;;
    emit_call name (length args + match recv with Some _ => 1 | None => 0 end) p in
  match recv, args with
  | None, [arg] => if enable || disable then trigger_intrinsic enable name arg p else general
  | _, _ => general
  end.

Fixpoint expr (e : Expr) : M unit :=
  match e with
  | EInt v p => push_const (VInt (i32 v)) p
  | EReal v p => push_const (VReal v) p
  | EStr s p => push_const (VStr s) p
  | ELocStr s p =>
      do! c := intern (VStr s) in
      note_loc c ;;;
      emit1 op.PUSH (encode (PConst c)) p
  | EName n p => do! s := name_slot n p in emit1 op.PUSH (encode s) p
  | EArrayLit items p =>
      iter preintern_expr_constants items ;;;
      iter_rev expr items ;;;
      do! g := the_gen in
      do! t := match t ← head items; static_ty g t with
               | Some t => resolved_type_tag t p
               | None => ret (tag TAny)
               end in
      when ((match items with [] => true | _ => false end)) (diag Error p EmptyArrayLit) ;;;
      emit2 op.CREATE_ARRAY_INITER (u32 (Z.of_nat (length items))) t p
  | ECast ty e p =>
      expr e ;;;
      do! t := resolved_type_tag (resolve_type (Some ty) unit_) p in
      emit1 op.CAST t p
  | EUnary o e p =>
      expr e ;;;
      match unary_op o with Some b => emit b p | None => diag Error p (UnaryOp o) end
  | EPreIncDec inc e p => expr e ;;; emit (if inc then op.INC else op.DEC) p
  | EPostIncDec inc e p => expr e ;;; emit (if inc then op.INC_POST else op.DEC_POST) p
  | EBinary o lhs rhs p => binary expr o lhs rhs p
  | EAssign o target value p => assign expr o target value p
  | ECall name args p => call expr name None args p
  | EMethodCall recv name args p => call expr name (Some recv) args p
  | EIndex base index p => expr base ;;; expr index ;;; emit op.PUSH_ARRAY_INDEX p
  | EMember base name p => member expr base name p
  end.

(** *** Declarations *)

Definition init_by_copy (e : Expr) : bool :=
  match e with
  | EInt _ _ | EReal _ _ | EStr _ _ | ELocStr _ _ | EName _ _ | EIndex _ _ _ | EMember _ _ _ => true
  | _ => false
  end.
Definition init_value (ty : Ty) (d : Declarator) : M bool :=
  match d_init d, d_array d with
  | Some (EArrayLit items p), _ =>
      iter preintern_expr_constants items ;;;
      iter_rev expr items ;;;
      when ((match items with [] => true | _ => false end)) (diag Error p EmptyArrayInit) ;;;
      do! t := array_element_tag ty p in
      emit2 op.CREATE_ARRAY_INITER (u32 (Z.of_nat (length items))) t p ;;; ret true
  | Some e, _ => expr e ;;; ret (init_by_copy e)
  | None, Some (Sized n) =>
      emit_default_value depth (array_inner ty) (d_pos d) ;;;
      expr n ;;;
      do! t := array_element_tag ty (d_pos d) in
      emit1 op.CREATE_ARRAY_DYN t (d_pos d) ;;; ret false
  | None, Some Dynamic =>
      emit_default_value depth (array_inner ty) (d_pos d) ;;;
      do! t := array_element_tag ty (d_pos d) in
      emit1 op.CREATE_ARRAY t (d_pos d) ;;; ret false
  | None, None => emit_default_value depth ty (d_pos d) ;;; ret false
  end.

Definition declarator (d : VarDecl) (x : Declarator) : M unit :=
  let base := resolve_type (v_ty d) unit_ in
  let ty := match d_array x with None => base | Some _ => TyArray base end in
  do! slot := if is_static d then declare_static (d_name x) ty else declare_local (d_name x) ty in
  do! skip := if is_static d then
                do! l := new_label in
                emit_jump2 op.JUMP_IF_INITED (encode slot) l (d_pos x) ;;; ret (Some l)
              else ret None in
  do! copy := init_value ty x in
  emit1 (if copy : bool then op.INIT_COPY else op.INIT) (encode slot) (d_pos x) ;;;
  on_some skip place.
Definition decl (d : VarDecl) : M unit := iter (declarator d) (decls d).

(** *** Statements *)

(** [name = value;] with a name that is not in scope. *)
Definition implicit_decl (g : ScriptGen) (e : Expr) : option (text * Expr) :=
  match e with
  | EAssign Assign (EName name _) value _ =>
      match lookup name g, g_labels g !! name with None, None => Some (name, value) | _, _ => None end
  | _ => None
  end.
Definition expr_stmt (e : Expr) : M unit :=
  do! g := the_gen in
  match implicit_decl g e with
  | Some (name, value) =>
      diag Note (expr_pos e) (ImplicitLocal name) ;;;
      do! slot := declare_local name (TyScalar TInt) in
      expr value ;;;
      emit1 op.INIT_COPY (encode slot) (expr_pos e)
  | None => expr e ;;; when (leaves_value e) (emit op.POP (expr_pos e))
  end.

Definition const_value (g : ScriptGen) (e : Expr) : option (option Value) :=
  match e with
  | EStr s _ | ELocStr s _ => Some (Some (VStr s))
  | EReal f _ => Some (Some (VReal f))
  | _ => option_map (option_map (fun v => VInt (i32 v))) (const_int e (g_labels g))
  end.

(** One label of an arm; the result is the label of the default arm. *)
Definition switch_case (arm_label : nat) (def : option nat) (c : SwitchCase) : M (option nat) :=
  match case_value c with
  | None => ret (Some arm_label)
  | Some e =>
      do! g := the_gen in
      do! o := unwrap (const_value g e) in
      match o with
      | Some v =>
          do! k := intern v in
          emit_jump2 op.CASE (Z.lor k 0x20000000) arm_label (case_pos c) ;;; ret def
      | None => diag Error (case_pos c) CaseNotConstant ;;; ret def
      end
  end.
Fixpoint switch_cases (arm_label : nat) (def : option nat) (cs : list SwitchCase) : M (option nat) :=
  match cs with
  | [] => ret def
  | c :: cs => do! def := switch_case arm_label def c in switch_cases arm_label def cs
  end.
Fixpoint switch_heads (arms : list SwitchArm) (ls : list nat) (def : option nat) : M (option nat) :=
  match arms, ls with
  | mkSwitchArm cs _ :: arms, l :: ls => do! def := switch_cases l def cs in switch_heads arms ls def
  | _, _ => ret def
  end.
Definition switch (stmt : Stmt -> M unit) (subject : Expr) (arms : list SwitchArm) (p : Pos) : M unit :=
  expr subject ;;;
  do! l_end := new_label in
  do! arm_labels := collect (fun _ => new_label) arms in
  do! def := switch_heads arms arm_labels None in
  emit op.POP p ;;;
  emit_jump op.JUMP (default l_end def) p ;;;
  do! g := the_gen in
  push_loop l_end (default None (head (continues g))) ;;;
  iter2 (fun arm l =>
    let 'mkSwitchArm _ body := arm in
    place l ;;; push_scope ;;; iter stmt body ;;; pop_scope) arms arm_labels ;;;
  pop_loop ;;;
  place l_end.

(** [format!("trigger@{}", pos.line)]. *)
Definition unnamed_trigger (p : Pos) : text := tx "trigger@" ++ dec_loop 20 (line p) [].

Fixpoint stmt (s : Stmt) : M unit :=
  match s with
  | SEmpty _ | SLabels _ _ | SStruct _ => ret tt
  | SExpr e => expr_stmt e
  | SDecl d => decl d
  | SBlock b => let 'mkBlock l _ := b in push_scope ;;; iter stmt l ;;; pop_scope
  | SIf cond then_ els p =>
      do! l_else := new_label in
      expr cond ;;;
      emit_jump op.JUMP_IF_NOT l_else p ;;;
      stmt then_ ;;;
      match els with
      | None => place l_else
      | Some e =>
          do! l_end := new_label in
          emit_jump op.JUMP l_end p ;;;
          place l_else ;;;
          stmt e ;;;
          place l_end
      end
  | SWhile cond body p =>
      do! l_top := new_label in
      do! l_end := new_label in
      place l_top ;;;
      expr cond ;;;
      emit_jump op.JUMP_IF_NOT l_end p ;;;
      push_loop l_end (Some l_top) ;;;
      stmt body ;;;
      pop_loop ;;;
      emit_jump op.JUMP l_top p ;;;
      place l_end
  | SDoWhile body cond p =>
      do! l_top := new_label in
      do! l_cont := new_label in
      do! l_end := new_label in
      place l_top ;;;
      push_loop l_end (Some l_cont) ;;;
      stmt body ;;;
      pop_loop ;;;
      place l_cont ;;;
      expr cond ;;;
      emit_jump op.JUMP_IF l_top p ;;;
      place l_end
  | SFor init cond step body p =>
      push_scope ;;;
      match init with Some i => stmt i | None => ret tt end ;;;
      do! l_top := new_label in
      do! l_step := new_label in
      do! l_end := new_label in
      place l_top ;;;
      on_some cond (fun c => expr c ;;; emit_jump op.JUMP_IF_NOT l_end p) ;;;
      push_loop l_end (Some l_step) ;;;
      stmt body ;;;
      pop_loop ;;;
      place l_step ;;;
      on_some step expr_stmt ;;;
      emit_jump op.JUMP l_top p ;;;
      place l_end ;;;
      pop_scope
  | SSwitch subject arms p => switch stmt subject arms p
  | SBreak p =>
      do! g := the_gen in
      match head (breaks g) with
      | Some l => emit_jump op.JUMP l p
      | None => diag Error p BreakOutside
      end
  | SContinue p =>
      do! g := the_gen in
      match default None (head (continues g)) with
      | Some l => emit_jump op.JUMP l p
      | None => diag Error p ContinueOutside
      end
  | SReturn value p =>
      do! g := the_gen in
      let is_void := bool_decide (g_ret g = TyScalar TVoid) in
      match value with
      | Some e => expr e ;;; when is_void (diag Error p VoidReturn ;;; emit op.POP p)
      | None => when (negb is_void) (emit_default_value depth (g_ret g) p)
      end ;;;
      emit op.RETURN p
  | STrigger name cond body p =>
      do! idx := trigger_index (default (unnamed_trigger p) name) in
      do! l_end := new_label in
      emit_jump2 op.JUMP_IF_BITSET idx l_end p ;;;
      on_some cond (fun c => expr c ;;; emit_jump op.JUMP_IF_NOT l_end p) ;;;
      push_scope ;;;
      stmt body ;;;
      pop_scope ;;;
      place l_end
  | SRunOnce b p =>
      do! idx := trigger_index [] in
      do! l_end := new_label in
      emit_jump2 op.JUMP_IF_BITSET idx l_end p ;;;
      emit1 op.BIT_CLEAR idx p ;;;
      push_scope ;;;
      let 'mkBlock l _ := b in
      iter stmt l ;;;
      pop_scope ;;;
      place l_end
  end.

(** *** Scripts *)

Definition new_script_gen (ret : Ty) : ScriptGen :=
  mkScriptGen [] [] [] [] [∅] (u_labels unit_) [] [] ret [] [] [] [].

Definition param_prologue (q : Param) : M unit :=
  do! slot := declare_local (p_name q) (resolve_type (p_ty q) unit_) in
  emit1 (if by_ref q then op.INIT else op.INIT_COPY) (encode slot) (p_pos q).

Definition is_return (s : option Stmt) : bool := match s with Some (SReturn _ _) => true | _ => false end.

(** Overwriting a slice of four bytes, and the loop over the fixups. *)
Definition write4 (at_ : nat) (z : Z) (c : bytes) : option bytes :=
  if (at_ + 4 <=? length c)%nat then Some (take at_ c ++ to_le 4 z ++ drop (at_ + 4) c) else None.
Fixpoint patch (fx : list (nat * nat)) (lp : list (option Z)) (c : bytes) : option bytes :=
  match fx with
  | [] => Some c
  | (at_, label) :: fx =>
      o ← lp !! label;
      c ← write4 at_ (default (u32 (Z.of_nat (length c))) o) c;
      patch fx lp c
  end.
Definition patch_jumps : M unit :=
  do! s := gets id in
  do! c := unwrap (patch (fixups s.2) (label_pos s.2) (g_code s.1)) in
  modify_f (set_code c (g_line_to_op s.1)) ;;; modify_g (set_fixups []).

(** The code of a script, up to the patched jumps. *)
Definition script_body (si : nat) (sg : ScriptSig) (b : Block) : M unit :=
  let 'mkBlock stmts b_pos := b in
  emit1 op.SCRIPT_MARKER (u32 (Z.of_nat si)) (sig_pos sg) ;;;
  iter param_prologue (params sg) ;;;
  hoist_labels stmts ;;;
  iter stmt stmts ;;;
  do! g := the_gen in
  when (negb (is_return (last stmts)))
    (when (negb (bool_decide (g_ret g = TyScalar TVoid))) (emit_default_value depth (g_ret g) b_pos) ;;;
     emit op.RETURN b_pos) ;;;
  patch_jumps.

Definition finish_script (si : nat) (entry : Z) (sg : ScriptSig) (b : Block) (ret_ : Ty) : M unit :=
  let 'mkBlock _ b_pos := b in
  do! return_type := resolved_type_tag ret_ b_pos in
  do! tags := collect (fun q => resolved_type_tag (resolve_type (p_ty q) unit_) (p_pos q)) (params sg) in
  do! g := the_gen in
  modify_f (fun f => set_g_scripts (alter (fun s =>
    mkScript (sc_name s) (length (params sg)) tags (map (fun q => if by_ref q then 1 else 0) (params sg)) entry
      return_type (script_type_tag (CcAst.script_type sg)) (g_locals g) (g_statics g) (triggers g) []
      (g_trigger_bits g) (i32 (Z.of_nat (length (triggers g))))) si (g_scripts f)) f).

Definition script (name : text) (sg : ScriptSig) (b : Block) (f : FileGen) : comp FileGen :=
  match position (fun s => eq_ignore_ascii_case (sc_name s) name) (g_scripts f) with
  | None => Comp f
  | Some si =>
      let entry := u32 (Z.of_nat (length (g_code f))) in
      let ret_ := resolve_type (CcAst.ret sg) unit_ in
      match (script_body si sg b ;;; finish_script si entry sg b ret_) (f, new_script_gen ret_) with
      | Comp (_, (f, _)) => Comp f
      | Panic => Panic
      | StackOverflow => StackOverflow
      end
  end.

Definition gen_item (it : Item) (f : FileGen) : comp FileGen :=
  match it with
  | IScript s => match body s with Some b => script (sig_name (sig s)) (sig s) b f | None => Comp f end
  | IMain m =>
      match u_files unit_ !! file with
      | None => Panic
      | Some fu =>
          let name := entry_name (fu_path fu) in
          script name (mkScriptSig (m_ret m) (Some (m_type m)) name [] (m_pos m)) (m_body m) f
      end
  | _ => Comp f
  end.
Fixpoint gen_items (its : list Item) (f : FileGen) : comp FileGen :=
  match its with
  | [] => Comp f
  | it :: its =>
      match gen_item it f with
      | Comp f => gen_items its f
      | Panic => Panic
      | StackOverflow => StackOverflow
      end
  end.

(** [Script { name, ..Default::default() }]. *)
Definition blank_script (name : text) : Script := mkScript name 0 [] [] 0 0 0 [] [] [] [] [] 0.

Definition run : comp (ScriptFile * FileGen) :=
  match u_files unit_ !! file with
  | None => Panic
  | Some fu =>
      match gen_items (items (fu_ast fu)) (mkFileGen [] [] [] [] [] (map blank_script (script_names fu)) [] 0) with
      | Comp f =>
          Comp (mkScriptFile path_ (g_code f) (g_scripts f) (consts f) (map (path_text unit_) (includes fu)) (g_line_to_op f), f)
      | Panic => Panic
      | StackOverflow => StackOverflow
      end
  end.
End FileGen.

(** ** The whole unit *)

Section Compile.
Context (BUILTINS : list BuiltinDecl) (depth : nat).

(** [i32::try_from(count)] and [shape]. *)
Definition to_i32 (n : nat) : option Z := if Z.of_nat n <=? I32_MAX then Some (Z.of_nat n) else None.
Definition shape (count : nat) : option ArrayWalkMeta :=
  (fun n => mkArrayWalkMeta n 0xffff 0) <$> to_i32 count.

Definition script_walk_meta (s : Script) : option ScriptWalkMeta :=
  ps ← shape (length (sc_params s));
  rs ← shape (length (refs s));
  ts ← shape (length (trigger_names s));
  vs ← shape (length (var_names s));
  ss ← shape (length (static_var_names s));
  Some (mkScriptWalkMeta [] ps rs ts vs ss).
Definition const_walk_meta (v : Value) : option (option ValueWalkMeta) :=
  match v with
  | VInt _ | VReal _ | VStr _ => Some (Some (walk_scalar 2 0))
  | VObj _ | VNull => None
  end.
Definition file_walk_meta (source : FileUnit) (f : ScriptFile) : option ScriptFileWalkMeta :=
  metas ← mapM script_walk_meta (scripts f);
  pool ← mapM const_walk_meta (const_pool f);
  links ← mapM to_i32 (includes source);
  if bool_decide (length links = length (linked_file_names f)) then
    c ← shape (length (code f));
    ss ← shape (length (scripts f));
    ls ← shape (length links);
    Some (mkScriptFileWalkMeta c ss metas pool ls links)
  else None.
Definition compiler_walk_meta (unit_ : Unit) (p : Program) : option ProgramWalkMeta :=
  if negb (length (u_files unit_) =? length (files p))%nat then None
  else mkProgramWalkMeta <$> mapM (fun sf => file_walk_meta sf.1 sf.2) (zip (u_files unit_) (files p)).

(** The file loop of [compile]; [fis] are the indices left. *)
Fixpoint compile_files (unit_ : Unit) (fis : list nat) (p : Program) (ds : list Diag) (n : nat)
    : comp (Program * list Diag * nat) :=
  match fis with
  | [] => Comp (p, ds, n)
  | fi :: fis =>
      match run BUILTINS depth unit_ fi with
      | Comp (sf, f) => compile_files unit_ fis (set_files (files p ++ [sf]) p) (ds ++ g_diags f) (n + auto_casts f)
      | Panic => Panic
      | StackOverflow => StackOverflow
      end
  end.

(** Code that refuses to run. *)
Definition poison_script (s : Script) : Script :=
  mkScript (sc_name s) (arity s) (sc_params s) (refs s) 0 (return_type s) (BhsProgram.script_type s) (var_names s)
    (static_var_names s) (trigger_names s) (statics s) (trigger_bits s) (trigger_count s).
Definition poison (f : ScriptFile) : ScriptFile :=
  mkScriptFile (source_file f) [op.ERROR_TOKEN] (map poison_script (scripts f)) (const_pool f) (linked_file_names f) [].

Definition compile (unit_ : Unit) : comp (Program * list Diag * Stats) :=
  match compile_files unit_ (seq 0 (length (u_files unit_))) program_default [] 0 with
  | Comp (p, ds, n) =>
      let p :=
        if existsb is_error (u_diags unit_ ++ ds) then set_files (map poison (files p)) p
        else match compiler_walk_meta unit_ p with
             | Some m => set_walk_meta m p
             | None => p
             end in
      Comp (p, ds, mkStats n)
  | Panic => Panic
  | StackOverflow => StackOverflow
  end.
End Compile.
