(* ===== verification/CcCodegenSpec.v ===== *)
(** * The script compiler: the code it writes

    What any run of the generator emits is a list of instructions whose code
    offsets are labels: the bytes, the fixups and the label positions of the
    state are functions of that list.  Patching turns it into instructions
    whose code offsets are starts of instructions of the same script. *)

From S2P Require Import Prelude NetText BhsOpcode BhsDisasm BhsStd BhsValue BhsProgram BhsVm CcLex CcAst CcParse CcSema CcCodegen.
#[local] Open Scope list_scope.
#[local] Open Scope Z_scope.
Import Gen.
#[local] Open Scope gen_scope.

(** ** Induction over syntax trees *)

Section ExprInd.
Variable Q : Expr -> Prop.
Hypothesis HInt : forall v p, Q (EInt v p).
Hypothesis HReal : forall v p, Q (EReal v p).
Hypothesis HStr : forall s p, Q (EStr s p).
Hypothesis HLocStr : forall s p, Q (ELocStr s p).
Hypothesis HName : forall s p, Q (EName s p).
Hypothesis HArrayLit : forall items p, Forall Q items -> Q (EArrayLit items p).
Hypothesis HCast : forall ty e p, Q e -> Q (ECast ty e p).
Hypothesis HUnary : forall op e p, Q e -> Q (EUnary op e p).
Hypothesis HPre : forall inc e p, Q e -> Q (EPreIncDec inc e p).
Hypothesis HPost : forall inc e p, Q e -> Q (EPostIncDec inc e p).
Hypothesis HBinary : forall op l r p, Q l -> Q r -> Q (EBinary op l r p).
Hypothesis HAssign : forall op t v p, Q t -> (forall base index q, t = EIndex base index q -> Q base /\ Q index) ->
  (forall base name q, t = EMember base name q -> Q base) -> Q v -> Q (EAssign op t v p).
Hypothesis HCall : forall name args p, Forall Q args -> Q (ECall name args p).
Hypothesis HMethodCall : forall recv name args p, Q recv -> Forall Q args -> Q (EMethodCall recv name args p).
Hypothesis HIndex : forall base index p, Q base -> Q index -> Q (EIndex base index p).
Hypothesis HMember : forall base name p, Q base -> Q (EMember base name p).

Fixpoint expr_tree_ind (e : Expr) : Q e.
Proof.
  assert (L : forall l, Forall Q l).
  { fix go 1. intros [|x l]; constructor; [apply expr_tree_ind|apply go]. }
  destruct e.
  - apply HInt. - apply HReal. - apply HStr. - apply HLocStr. - apply HName.
  - apply HArrayLit, L. - apply HCast, expr_tree_ind. - apply HUnary, expr_tree_ind.
  - apply HPre, expr_tree_ind. - apply HPost, expr_tree_ind.
  - apply HBinary; apply expr_tree_ind.
  - apply HAssign; try apply expr_tree_ind; destruct e1; intros ? ? ? [= <- <- <-]; try split; apply expr_tree_ind.
  - apply HCall, L. - apply HMethodCall; [apply expr_tree_ind|apply L].
  - apply HIndex; apply expr_tree_ind. - apply HMember, expr_tree_ind.
Qed.
End ExprInd.

Section StmtInd.
Variable Q : Stmt -> Prop.
Definition arm_all (a : SwitchArm) : Prop := let 'mkSwitchArm _ b := a in Forall Q b.
Hypothesis HEmpty : forall p, Q (SEmpty p).
Hypothesis HExpr : forall e, Q (SExpr e).
Hypothesis HDecl : forall d, Q (SDecl d).
Hypothesis HBlock : forall l p, Forall Q l -> Q (SBlock (mkBlock l p)).
Hypothesis HIf : forall c t e p, Q t -> (forall x, e = Some x -> Q x) -> Q (SIf c t e p).
Hypothesis HWhile : forall c b p, Q b -> Q (SWhile c b p).
Hypothesis HDoWhile : forall b c p, Q b -> Q (SDoWhile b c p).
Hypothesis HFor : forall i c st b p, (forall x, i = Some x -> Q x) -> Q b -> Q (SFor i c st b p).
Hypothesis HSwitch : forall e arms p, Forall arm_all arms -> Q (SSwitch e arms p).
Hypothesis HBreak : forall p, Q (SBreak p).
Hypothesis HContinue : forall p, Q (SContinue p).
Hypothesis HReturn : forall v p, Q (SReturn v p).
Hypothesis HLabels : forall d p, Q (SLabels d p).
Hypothesis HTrigger : forall n c b p, Q b -> Q (STrigger n c b p).
Hypothesis HRunOnce : forall l q p, Forall Q l -> Q (SRunOnce (mkBlock l q) p).
Hypothesis HStruct : forall d, Q (SStruct d).

Fixpoint stmt_tree_ind (s : Stmt) : Q s.
Proof.
  assert (L : forall l, Forall Q l).
  { fix go 1. intros [|x l]; constructor; [apply stmt_tree_ind|apply go]. }
  assert (A : forall l, Forall arm_all l).
  { fix go 1. intros [|[cs b] l]; constructor; [apply L|apply go]. }
  destruct s as [| | |[l q]|c t [e|] p| | |[i|] c st b p| | | | | | |[l q] p|].
  - apply HEmpty. - apply HExpr. - apply HDecl. - apply HBlock, L.
  - apply HIf; [apply stmt_tree_ind|intros ? [= <-]; apply stmt_tree_ind].
  - apply HIf; [apply stmt_tree_ind|discriminate].
  - apply HWhile, stmt_tree_ind. - apply HDoWhile, stmt_tree_ind.
  - apply HFor; [intros ? [= <-]; apply stmt_tree_ind|apply stmt_tree_ind].
  - apply HFor; [discriminate|apply stmt_tree_ind].
  - apply HSwitch, A. - apply HBreak. - apply HContinue. - apply HReturn. - apply HLabels.
  - apply HTrigger, stmt_tree_ind. - apply HRunOnce, L. - apply HStruct.
Qed.
End StmtInd.

(** ** Instructions with labels *)

Inductive operand := Imm (z : Z) | Lab (l : nat).
Definition item : Type := Z * list operand.

(** Label [l] stands for the position [lp] gives it; [0] before it has one. *)
Definition opval (lp : list (option Z)) (o : operand) : Z :=
  match o with Imm z => z | Lab l => default 0 (default None (lp !! l)) end.
Definition resolve (lp : list (option Z)) (its : list item) : list (Z * list Z) :=
  map (fun it => (it.1, map (opval lp) it.2)) its.
Definition item_size (it : item) : nat := (1 + 4 * length it.2)%nat.
Definition items_size (its : list item) : nat := list_sum (map item_size its).

(** The fixups of the operands from offset [at_] on, and of items. *)
Fixpoint fix_ops (at_ : nat) (ops : list operand) : list (nat * nat) :=
  match ops with
  | [] => []
  | Imm _ :: ops => fix_ops (at_ + 4) ops
  | Lab l :: ops => (at_, l) :: fix_ops (at_ + 4) ops
  end.
Fixpoint fixes (base : nat) (its : list item) : list (nat * nat) :=
  match its with
  | [] => []
  | it :: its => fix_ops (base + 1) it.2 ++ fixes (base + item_size it) its
  end.

(** The operands an opcode takes: labels where it wants code offsets. *)
Definition operand_ok (k : OperandKind) (o : operand) : Prop :=
  match o with Imm z => k <> KCodeOffset /\ is_u32 z | Lab _ => k = KCodeOffset end.
Definition shape_ok (it : item) : Prop :=
  exists d, decode it.1 = Some d /\ Forall2 operand_ok (od_operands d) it.2 /\ it.1 <> op.ERROR_TOKEN /\ is_u8 it.1.
Definition labs_below (n : nat) (it : item) : Prop :=
  Forall (fun o => match o with Lab l => (l < n)%nat | Imm _ => True end) it.2.

Lemma length_resolve lp its : length (asm (resolve lp its)) = items_size its.
Proof.
  rewrite length_asm. unfold asm_len, items_size, resolve. rewrite List.map_map. f_equal. apply map_ext.
  intros [o ops]. unfold item_size. cbn. by rewrite length_map.
Qed.
Lemma items_size_app a b : items_size (a ++ b) = (items_size a + items_size b)%nat.
Proof. unfold items_size. by rewrite map_app, list_sum_app. Qed.
Lemma asm_app a b : asm (a ++ b) = asm a ++ asm b.
Proof. apply flat_map_app. Qed.
Lemma resolve_app lp a b : resolve lp (a ++ b) = resolve lp a ++ resolve lp b.
Proof. apply map_app. Qed.
Lemma fixes_app base a b : fixes base (a ++ b) = fixes base a ++ fixes (base + items_size a) b.
Proof.
  revert base. induction a as [|it a IH]; intros base; cbn [fixes app]; [by rewrite Nat.add_0_r|].
  rewrite IH, <- app_assoc. do 3 f_equal. unfold items_size, list_sum. cbn [map fold_right]. lia.
Qed.
Lemma labs_below_mono n m it : (n <= m)%nat -> labs_below n it -> labs_below m it.
Proof. intros Hn H. eapply Forall_impl; [exact H|]. intros []; [done|]. cbn. lia. Qed.

(** ** Patching *)

Lemma write4_app pre z old post :
  length old = 4%nat -> write4 (length pre) z (pre ++ old ++ post) = Some (pre ++ to_le 4 z ++ post).
Proof.
  intros Ho. unfold write4. rewrite !length_app. destruct (Nat.leb_spec (length pre + 4) (length pre + (length old + length post))); [|lia].
  rewrite take_app_length. replace (drop _ _) with post; [done|].
  by rewrite <- Ho, <- length_app, app_assoc, drop_app_length.
Qed.

Definition placed (lp : list (option Z)) (l : nat) : Prop := exists p, lp !! l = Some (Some p).
Definition all_placed (lp : list (option Z)) (it : item) : Prop :=
  Forall (fun o => match o with Lab l => placed lp l | Imm _ => True end) it.2.

Lemma patch_ops lp ops pre post fx :
  Forall (fun o => match o with Lab l => placed lp l | Imm _ => True end) ops ->
  patch (fix_ops (length pre) ops ++ fx) lp (pre ++ flat_map (to_le 4) (map (opval []) ops) ++ post) =
  patch fx lp (pre ++ flat_map (to_le 4) (map (opval lp) ops) ++ post).
Proof.
  intros H. revert pre. induction H as [|o ops Ho H IH]; intros pre; [done|].
  assert (G : forall v, patch (fix_ops (length pre + 4) ops ++ fx) lp
      (pre ++ (to_le 4 v ++ flat_map (to_le 4) (map (opval []) ops)) ++ post) =
      patch fx lp (pre ++ (to_le 4 v ++ flat_map (to_le 4) (map (opval lp) ops)) ++ post)).
  { intros v. specialize (IH (pre ++ to_le 4 v)). rewrite length_app, length_to_le in IH.
    rewrite <- !app_assoc in *. exact IH. }
  destruct o as [z|l]; cbn [fix_ops map flat_map opval app]; [apply G|].
  destruct Ho as [q Hq]. cbn [patch]. rewrite Hq. cbn [mbind option_bind default id].
  rewrite <- app_assoc, write4_app by apply length_to_le. cbn [mbind option_bind]. rewrite <- G, <- app_assoc. done.
Qed.
Lemma patch_items lp its pre :
  Forall (all_placed lp) its ->
  patch (fixes (length pre) its) lp (pre ++ asm (resolve [] its)) = Some (pre ++ asm (resolve lp its)).
Proof.
  intros H. revert pre. induction H as [|[o ops] its Ho H IH]; intros pre; [done|].
  cbn [fixes resolve map fst snd]. unfold asm. cbn [flat_map fst snd].
  assert (E : forall x y : bytes, pre ++ (o :: x) ++ y = (pre ++ [o]) ++ x ++ y) by (intros; by rewrite <- app_assoc).
  rewrite !E. replace (length pre + 1)%nat with (length (pre ++ [o])) by (rewrite length_app; done).
  rewrite patch_ops by done. rewrite !app_assoc.
  specialize (IH (((pre ++ [o]) ++ flat_map (to_le 4) (map (opval lp) ops)))).
  replace (length pre + item_size (o, ops))%nat with (length ((pre ++ [o]) ++ flat_map (to_le 4) (map (opval lp) ops))); [exact IH|].
  rewrite !length_app, length_operands, length_map. unfold item_size. cbn. lia.
Qed.

(** ** What a run emits *)

Abbreviation state := (FileGen * ScriptGen)%type.
Abbreviation nlabels s := (length (label_pos (snd s))).
Abbreviation size_at s := (length (g_code (fst s))).

(** The index of interned constants describes the pool. *)
Definition pool_ok (f : FileGen) : Prop :=
  Forall (fun kv => exists n v, kv.2 = u32 (Z.of_nat n) /\ consts f !! n = Some v /\ const_key v = kv.1 /\ scalar v = true) (const_index f).

(** Every place a name in scope has fits an operand. *)
Definition place_ok (x : Place) : Prop := is_u32 (encode x).
Definition scopes_ok (ss : list (gmap text Place)) : Prop := Forall (map_Forall (fun _ x => place_ok x)) ss.
Definition tables_ok (s : state) : Prop := pool_ok s.1 /\ scopes_ok (scopes s.2).

(** From [s] to [s'] the instructions [its] are emitted; the labels of [L]
    were created and have no position yet, the other new ones stand at starts
    of instructions of [its] or at its end; constants only accumulate. *)
Record emits (L : list nat) (its : list item) (s s' : state) : Prop := {
  em_code : g_code s'.1 = g_code s.1 ++ asm (resolve [] its);
  em_fixups : fixups s'.2 = fixups s.2 ++ fixes (size_at s) its;
  em_shape : Forall shape_ok its;
  em_labs : Forall (labs_below (nlabels s')) its;
  em_len : (nlabels s <= nlabels s')%nat;
  em_keep l : (l < nlabels s)%nat -> label_pos s'.2 !! l = label_pos s.2 !! l;
  em_open l : l ∈ L -> (nlabels s <= l)%nat /\ label_pos s'.2 !! l = Some None;
  em_new l : (nlabels s <= l < nlabels s')%nat -> l ∉ L ->
    exists n, label_pos s'.2 !! l = Some (Some (u32 (Z.of_nat (size_at s + items_size (take n its)))));
  em_consts : consts s.1 `prefix_of` consts s'.1;
  em_tables : tables_ok s -> tables_ok s';
  em_scripts : g_scripts s'.1 = g_scripts s.1 }.

Lemma emits_refl s : emits [] [] s s.
Proof.
  constructor; rewrite ?app_nil_r; try done. - intros l Hl. by apply not_elem_of_nil in Hl. - intros. lia.
Qed.
Lemma emits_trans L L' a b s s1 s2 : emits L a s s1 -> emits L' b s1 s2 -> emits (L ++ L') (a ++ b) s s2.
Proof.
  intros [] []. constructor.
  - rewrite em_code1, em_code0, resolve_app, asm_app. by rewrite app_assoc.
  - rewrite em_fixups1, em_fixups0, fixes_app, em_code0, length_app, length_resolve. by rewrite app_assoc.
  - by apply Forall_app.
  - apply Forall_app. split; [|done]. eapply Forall_impl; [done|]. intros it. by apply labs_below_mono.
  - lia.
  - intros l Hl. rewrite em_keep1, em_keep0 by lia. done.
  - intros l [Hl|Hl]%elem_of_app.
    + destruct (em_open0 _ Hl) as [H1 H2]. split; [lia|]. rewrite em_keep1; [done|]. by eapply lookup_lt_Some.
    + destruct (em_open1 _ Hl). split; [lia|done].
  - intros l Hl [Ha Hb]%not_elem_of_app. destruct (decide (l < nlabels s1)%nat).
    + destruct (em_new0 l) as [k Hn]; [lia|done|]. exists (k `min` length a)%nat. rewrite em_keep1, Hn by lia.
      rewrite take_app_le by lia. destruct (decide (k <= length a)%nat); [by rewrite Nat.min_l by lia|].
      by rewrite Nat.min_r, firstn_all, take_ge by lia.
    + destruct (em_new1 l) as [k Hn]; [lia|done|]. exists (length a + k)%nat.
      rewrite Hn, take_app_add, items_size_app, em_code0, length_app, length_resolve. do 4 f_equal. lia.
  - by etrans.
  - auto.
  - congruence.
Qed.

(** ** Specifications of computations *)

(** What holds of the result and the state if the computation completes. *)
Definition wp {A} (c : M A) (s : state) (Q : A -> state -> Prop) : Prop :=
  match c s with Comp (a, s') => Q a s' | Panic | StackOverflow => True end.

Lemma wp_bind {A B} (c : M A) (k : A -> M B) s Q : wp c s (fun a s' => wp (k a) s' Q) -> wp (bind c k) s Q.
Proof. unfold wp, bind. by destruct (c s) as [[a s']| |]. Qed.
Lemma wp_mono {A} (c : M A) s (Q Q' : A -> state -> Prop) : wp c s Q -> (forall a s', Q a s' -> Q' a s') -> wp c s Q'.
Proof. unfold wp. destruct (c s) as [[a s']| |]; auto. Qed.

(** The targets of [break] and [continue], and that they are labels. *)
Definition loops (s : state) : list nat * list (option nat) * Ty := (breaks s.2, continues s.2, g_ret s.2).
Definition loops_below (n : nat) (x : list nat * list (option nat) * Ty) : Prop :=
  Forall (fun l => l < n)%nat x.1.1 /\ Forall (fun o => match o with Some l => (l < n)%nat | None => True end) x.1.2.
Definition loops_ok (s : state) : Prop := loops_below (nlabels s) (loops s) /\ tables_ok s.

Lemma loops_below_mono n m x : (n <= m)%nat -> loops_below n x -> loops_below m x.
Proof.
  intros Hn [H1 H2]. split; (eapply Forall_impl; [eassumption|]); [|intros [l|]]; cbn; lia || done.
Qed.

(** A computation that emits instructions, places every label it creates and
    gives back the loop targets; its result satisfies [V]. *)
Definition gens {A} (V : A -> Prop) (c : M A) : Prop :=
  forall s, loops_ok s -> wp c s (fun a s' => (exists its, emits [] its s s') /\ loops s' = loops s /\ V a).
Abbreviation any := (fun _ => True).

Lemma loops_ok_after its s s' : loops_ok s -> emits [] its s s' -> loops s' = loops s -> loops_ok s'.
Proof. unfold loops_ok. intros [H Hp] [] ->. split; [by eapply loops_below_mono|auto]. Qed.

Lemma gens_bind {A B} (V : A -> Prop) (W : B -> Prop) c k :
  gens V c -> (forall a, V a -> gens W (k a)) -> gens W (bind c k).
Proof.
  intros Hc Hk s Hs. apply wp_bind. eapply wp_mono; [by apply Hc|]. intros a s1 ((i1 & E1) & L1 & Ha).
  eapply wp_mono; [apply (Hk a Ha s1); by eapply loops_ok_after|]. intros b s2 ((i2 & E2) & L2 & Hb).
  split; [|split; [congruence|done]]. exists (i1 ++ i2). by apply (emits_trans [] []) with s1.
Qed.
Lemma gens_weaken {A} (V W : A -> Prop) c : gens V c -> (forall a, V a -> W a) -> gens W c.
Proof. intros Hc H s Hs. eapply wp_mono; [by apply Hc|]. intros a s' (? & ? & ?). auto. Qed.
Lemma gens_any {A} (V : A -> Prop) c : gens V c -> gens any c.
Proof. intros H. by eapply gens_weaken. Qed.
Lemma gens_ret {A} (V : A -> Prop) a : V a -> gens V (ret a).
Proof. intros Ha s Hs. split; [eexists; apply emits_refl|done]. Qed.
Lemma gens_gets {A} (f : state -> A) : gens any (gets f).
Proof. intros s Hs. split; [eexists; apply emits_refl|done]. Qed.
Lemma gens_panic {A} (V : A -> Prop) : gens V panic.
Proof. by intros s Hs. Qed.
Lemma gens_unwrap {A} (o : option A) : gens any (unwrap o).
Proof. destruct o; [by apply gens_ret|apply gens_panic]. Qed.
Lemma gens_lift {A} (c : comp A) : gens any (lift c).
Proof. intros s Hs. unfold wp, lift. destruct c; [split; [eexists; apply emits_refl|done]|done|done]. Qed.
Lemma gens_when b c : gens any c -> gens any (when b c).
Proof. destruct b; [done|]. intros _. by apply gens_ret. Qed.
Lemma gens_on_some {A} (o : option A) f : (forall x, o = Some x -> gens any (f x)) -> gens any (on_some o f).
Proof. intros H. destruct o; [by apply H|by apply gens_ret]. Qed.
Lemma gens_iter {A} (f : A -> M unit) l : Forall (fun x => gens any (f x)) l -> gens any (iter f l).
Proof. induction 1; cbn; [by apply gens_ret|]. eapply gens_bind; [eassumption|]. intros _ _. assumption. Qed.
Lemma gens_iter_rev {A} (f : A -> M unit) l : Forall (fun x => gens any (f x)) l -> gens any (iter_rev f l).
Proof. induction 1; cbn; [by apply gens_ret|]. eapply gens_bind; [eassumption|]. intros _ _. assumption. Qed.
Lemma gens_collect {A B} (f : A -> M B) l : (forall x, gens any (f x)) -> gens any (collect f l).
Proof.
  intros H. induction l; cbn; [by apply gens_ret|]. eapply gens_bind; [apply H|]. intros b _.
  eapply gens_bind; [exact IHl|]. intros bs _. by apply gens_ret.
Qed.

(** State changes that emit nothing. *)
Definition quiet (s s' : state) : Prop :=
  g_code s'.1 = g_code s.1 /\ fixups s'.2 = fixups s.2 /\ label_pos s'.2 = label_pos s.2 /\
  consts s'.1 = consts s.1 /\ const_index s'.1 = const_index s.1 /\ g_scripts s'.1 = g_scripts s.1 /\
  (scopes_ok (scopes s.2) -> scopes_ok (scopes s'.2)).
Lemma quiet_emits s s' : quiet s s' -> emits [] [] s s'.
Proof.
  intros (E1 & E2 & E3 & E4 & E5 & E6 & E7). constructor; unfold tables_ok, pool_ok; rewrite ?E1, ?E2, ?E3, ?E4, ?E5, ?app_nil_r; try done; [..|tauto].
  - intros l Hl. by apply not_elem_of_nil in Hl. - intros. lia.
Qed.
Lemma gens_modify_f f : (forall x g, quiet (x, g) (f x, g)) -> gens any (modify_f f).
Proof. intros H s Hs. split; [|done]. exists []. apply quiet_emits. destruct s. apply H. Qed.
Lemma gens_modify_g f : (forall x g, quiet (x, g) (x, f g) /\ loops (x, f g) = loops (x, g)) -> gens any (modify_g f).
Proof. intros H s Hs. destruct s as [x g]. destruct (H x g). split; [|done]. exists []. by apply quiet_emits. Qed.

Create HintDb gens.
#[export] Hint Resolve gens_gets gens_panic gens_unwrap gens_lift gens_when gens_iter gens_iter_rev : gens.
Ltac gens1 :=
  match goal with
  | |- gens _ (bind _ _) => eapply gens_bind; [|intros ? ?]
  | |- gens ?V (ret _) => is_evar V; apply (gens_ret any); exact I
  | |- gens _ (ret _) => apply gens_ret; try exact I
  | |- gens _ (modify_f _) => apply gens_modify_f; intros ? ?; repeat split; cbn; first [reflexivity|exact id]
  | |- gens _ (modify_g _) => apply gens_modify_g; intros ? ?; repeat split; cbn; first [reflexivity|exact id]
  | |- gens _ (when _ _) => apply gens_when
  | |- gens _ (on_some _ _) => apply gens_on_some; intros ? ?
  | |- gens _ (if ?b then _ else _) => destruct b
  | |- gens _ (match ?x with _ => _ end) => destruct x eqn:?
  | |- gens _ (let '(_, _) := ?x in _) => destruct x
  | _ => solve [eauto with gens]
  end.
Ltac gens := cbn beta iota zeta; repeat (gens1; cbn beta iota zeta).

(** ** Emission *)

Lemma emits_item it s s' :
  g_code s'.1 = g_code s.1 ++ asm (resolve [] [it]) -> fixups s'.2 = fixups s.2 ++ fixes (size_at s) [it] ->
  label_pos s'.2 = label_pos s.2 -> consts s'.1 = consts s.1 -> const_index s'.1 = const_index s.1 -> g_scripts s'.1 = g_scripts s.1 -> scopes s'.2 = scopes s.2 ->
  shape_ok it -> labs_below (nlabels s) it -> emits [] [it] s s'.
Proof.
  intros E1 E2 E3 E4 E5 E6 E7 Hs Hl. constructor; unfold tables_ok, pool_ok; rewrite ?E1, ?E2, ?E3, ?E4, ?E5, ?E7; try done; try (by repeat constructor).
  - intros l Hm. by apply not_elem_of_nil in Hm. - intros. lia.
Qed.

(** The checks of a shape, by evaluation. *)
Definition shape_of (b : Z) (ks : list OperandKind) : Prop :=
  is_u8 b /\ b <> op.ERROR_TOKEN /\ (od_operands <$> decode b) = Some ks.
Lemma shape_ok_of b ks ops : shape_of b ks -> Forall2 operand_ok ks ops -> shape_ok (b, ops).
Proof.
  intros (H1 & H2 & H3) Ho. unfold shape_ok. cbn [fst snd]. destruct (decode b) as [d|]; [|done]. injection H3 as <-. by exists d.
Qed.
Ltac shape := split; [apply (bool_decide_unpack _); vm_compute; exact I|split; [discriminate|reflexivity]].

Ltac operands := repeat (apply List.Forall2_cons; [first [reflexivity|by split]|]); apply List.Forall2_nil.

Lemma gens_emit b p : shape_of b [] -> gens any (emit b p).
Proof.
  intros Hb s Hs. split; [|done]. exists [(b, [])]. apply emits_item; cbn [fixes fix_ops app snd fst]; rewrite ?app_nil_r; try done.
  - eapply shape_ok_of; [done|operands].
  - by repeat constructor.
Qed.
Lemma gens_emit1 b k a p : shape_of b [k] -> k <> KCodeOffset -> is_u32 a -> gens any (emit1 b a p).
Proof.
  intros Hb Hk Ha s Hs. split; [|done]. exists [(b, [Imm a])]. apply emits_item; try done; cbn [fixes fix_ops app snd fst]; rewrite ?app_nil_r; try done.
  - cbn. by rewrite <- app_assoc.
  - eapply shape_ok_of; [done|operands].
  - by repeat constructor.
Qed.
Lemma gens_emit2 b k k' a c p :
  shape_of b [k; k'] -> k <> KCodeOffset -> k' <> KCodeOffset -> is_u32 a -> is_u32 c -> gens any (emit2 b a c p).
Proof.
  intros Hb Hk Hk' Ha Hc s Hs. split; [|done]. exists [(b, [Imm a; Imm c])].
  apply emits_item; try done; cbn [fixes fix_ops app snd fst]; rewrite ?app_nil_r; try done.
  - cbn. by rewrite <- !app_assoc.
  - eapply shape_ok_of; [done|operands].
  - by repeat constructor.
Qed.
Definition jumps (l : nat) (c : M unit) : Prop :=
  forall s, (l < nlabels s)%nat -> exists s', c s = Comp (tt, s') /\ (exists its, emits [] its s s') /\ loops s' = loops s.
Lemma jumps_emit_jump b l p : shape_of b [KCodeOffset] -> jumps l (emit_jump b l p).
Proof.
  intros Hb s Hl. eexists. split; [reflexivity|]. split; [|done]. exists [(b, [Lab l])].
  apply emits_item; try done; cbn [fixes fix_ops app snd fst]; rewrite ?app_nil_r; try done.
  - cbn. by rewrite <- app_assoc.
  - cbn. rewrite length_app. done.
  - eapply shape_ok_of; [done|operands].
  - by repeat constructor.
Qed.
Lemma jumps_emit_jump2 b k a l p : shape_of b [k; KCodeOffset] -> k <> KCodeOffset -> is_u32 a -> jumps l (emit_jump2 b a l p).
Proof.
  intros Hb Hk Ha s Hl. eexists. split; [reflexivity|]. split; [|done]. exists [(b, [Imm a; Lab l])].
  apply emits_item; try done; cbn [fixes fix_ops app snd fst]; rewrite ?app_nil_r; try done.
  - cbn. by rewrite <- !app_assoc.
  - cbn. rewrite !length_app. do 4 f_equal.
  - eapply shape_ok_of; [done|operands].
  - by repeat constructor.
Qed.

(** Labels: creating one opens it, placing it closes it. *)
Lemma emits_new_label L its s0 s :
  emits L its s0 s ->
  exists s', new_label s = Comp (nlabels s, s') /\ emits (nlabels s :: L) its s0 s' /\ loops s' = loops s /\ nlabels s' = S (nlabels s).
Proof.
  intros []. eexists. split; [reflexivity|]. cbn [fst snd label_pos set_label_pos]. rewrite length_app. split; [|split; [done|cbn; lia]].
  constructor; cbn [fst snd label_pos set_label_pos fixups]; rewrite ?length_app; try done; cbn [length].
  - eapply Forall_impl; [done|]. intros it. apply labs_below_mono. lia.
  - lia.
  - intros l Hl. rewrite lookup_app_l by lia. by apply em_keep0.
  - intros l [->|Hl]%elem_of_cons; [split; [lia|]; by rewrite lookup_app_r, Nat.sub_diag by lia|].
    destruct (em_open0 _ Hl) as [H1 H2]. split; [done|]. by apply lookup_app_l_Some.
  - intros l Hl [Hn HL]%not_elem_of_cons. rewrite lookup_app_l by lia. apply em_new0; [lia|done].
Qed.
Lemma emits_place L its s0 s l :
  emits L its s0 s -> l ∈ L ->
  exists s', place l s = Comp (tt, s') /\ emits (List.filter (fun x => negb (x =? l)%nat) L) its s0 s' /\ loops s' = loops s /\ nlabels s' = nlabels s.
Proof.
  intros [] HL. destruct (em_open0 _ HL) as [H1 H2]. pose proof (lookup_lt_Some _ _ _ H2) as Hlt.
  eexists. unfold place, here, gets, the_gen, bind, modify_g. cbn beta iota.
  unfold gets. cbn beta iota. destruct (Nat.ltb_spec l (nlabels s)); [|lia].
  split; [reflexivity|]. cbn [fst snd label_pos set_label_pos]. rewrite length_insert. split; [|done].
  assert (HF : forall x, x ∈ List.filter (fun x => negb (x =? l)%nat) L <-> x ∈ L /\ x <> l).
  { intros x. rewrite !list_elem_of_In, filter_In. rewrite negb_true_iff, Nat.eqb_neq. done. }
  constructor; cbn [fst snd label_pos set_label_pos fixups]; rewrite ?length_insert; try done.
  - intros x Hx. rewrite list_lookup_insert_ne by lia. by apply em_keep0.
  - intros x [Hx Hne]%HF. rewrite list_lookup_insert_ne by done. by apply em_open0.
  - intros x Hx HnL. destruct (decide (x = l)) as [->|Hne].
    + exists (length its). rewrite list_lookup_insert_eq by done. rewrite firstn_all, em_code0, length_app, length_resolve. done.
    + rewrite list_lookup_insert_ne by done. apply em_new0; [done|]. intros Hx'. apply HnL, HF. done.
Qed.

(** ** Following a computation that creates labels *)

(** Between [s0] and [s] only labels of [L] are open, and the loop targets are
    those of [s0] under the pushed ones. *)
Definition runs (L : list nat) (s0 s : state) : Prop := exists its, emits L its s0 s.
Lemma runs_refl s : runs [] s s.
Proof. eexists. apply emits_refl. Qed.
Lemma runs_len L s0 s : runs L s0 s -> (nlabels s0 <= nlabels s)%nat.
Proof. by intros [? []]. Qed.
Lemma runs_open L s0 s l : runs L s0 s -> l ∈ L -> (l < nlabels s)%nat.
Proof. intros [? []] H. destruct (em_open0 _ H) as [_ H']. by eapply lookup_lt_Some. Qed.

Definition pushed (s : state) (b : nat) (c : option nat) : list nat * list (option nat) * Ty :=
  (b :: breaks s.2, c :: continues s.2, g_ret s.2).

Section Flow.
Context {B : Type} (Q : B -> state -> Prop) (L : list nat) (s0 s : state) (R : runs L s0 s).
Lemma flow_gens {A} (V : A -> Prop) c k :
  gens V c -> loops_ok s ->
  (forall a s', V a -> runs L s0 s' -> loops s' = loops s -> (nlabels s <= nlabels s')%nat -> wp (k a) s' Q) -> wp (bind c k) s Q.
Proof.
  intros Hc Hs Hk. apply wp_bind. eapply wp_mono; [by apply Hc|]. intros a s' ((its & E) & Hl & Ha).
  apply Hk; [done| |done|by destruct E]. destruct R as [i E0]. exists (i ++ its). rewrite <- (app_nil_r L). by apply emits_trans with s.
Qed.
Lemma flow_new k :
  (forall s', runs (nlabels s :: L) s0 s' -> loops s' = loops s -> nlabels s' = S (nlabels s) -> wp (k (nlabels s)) s' Q) ->
  wp (bind new_label k) s Q.
Proof.
  intros Hk. destruct R as [i E0]. destruct (emits_new_label _ _ _ _ E0) as (s' & E & H1 & H2 & H3).
  apply wp_bind. unfold wp at 1. rewrite E. apply Hk; [by exists i|done|done].
Qed.
Lemma flow_jump l c k :
  jumps l c -> (l < nlabels s)%nat ->
  (forall s', runs L s0 s' -> loops s' = loops s -> (nlabels s <= nlabels s')%nat -> wp (k tt) s' Q) -> wp (bind c k) s Q.
Proof.
  intros Hc Hl Hk. destruct (Hc s Hl) as (s' & E & (its & Hi) & Hs). apply wp_bind. unfold wp at 1. rewrite E.
  apply Hk; [|done|by destruct Hi]. destruct R as [i E0]. exists (i ++ its). rewrite <- (app_nil_r L). by apply emits_trans with s.
Qed.
Lemma flow_place l k :
  l ∈ L ->
  (forall s', runs (List.filter (fun x => negb (x =? l)%nat) L) s0 s' -> loops s' = loops s -> nlabels s' = nlabels s -> wp (k tt) s' Q) ->
  wp (bind (place l) k) s Q.
Proof.
  intros Hl Hk. destruct R as [i E0]. destruct (emits_place _ _ _ _ _ E0 Hl) as (s' & E & H1 & H2 & H3).
  apply wp_bind. unfold wp at 1. rewrite E. apply Hk; [by exists i|done|done].
Qed.
Lemma flow_push b c k :
  loops s = loops s0 ->
  (forall s', runs L s0 s' -> loops s' = pushed s0 b c -> nlabels s' = nlabels s -> wp (k tt) s' Q) -> wp (bind (push_loop b c) k) s Q.
Proof.
  intros E Hk. apply wp_bind. apply Hk; [|unfold pushed; by injection E as <- <- <-|done]. destruct R as [i E0]. exists i.
  rewrite <- (app_nil_r L), <- (app_nil_r i). apply emits_trans with s; [done|]. by apply quiet_emits.
Qed.
Lemma flow_pop b c k :
  loops s = pushed s0 b c ->
  (forall s', runs L s0 s' -> loops s' = loops s0 -> nlabels s' = nlabels s -> wp (k tt) s' Q) -> wp (bind pop_loop k) s Q.
Proof.
  intros E Hk. apply wp_bind. apply Hk; [|unfold loops; cbn; injection E as E1 E2 E3; by rewrite E1, E2, E3|done].
  destruct R as [i E0]. exists i. rewrite <- (app_nil_r L), <- (app_nil_r i). apply emits_trans with s; [done|]. by apply quiet_emits.
Qed.
End Flow.

Lemma wp_last {A} (c : M A) s Q : wp (bind c ret) s Q -> wp c s Q.
Proof. unfold wp, bind. by destruct (c s) as [[a s']| |]. Qed.
Lemma flow_end {A} (V : A -> Prop) s0 s a : runs [] s0 s -> loops s = loops s0 -> V a ->
  wp (ret a) s (fun a s' => (exists its, emits [] its s0 s') /\ loops s' = loops s0 /\ V a).
Proof. done. Qed.
Lemma wp_if (b : bool) A (c c' : M A) s Q : wp c s Q -> wp c' s Q -> wp (if b then c else c') s Q.
Proof. by destruct b. Qed.

Lemma runs_tables L s0 s : runs L s0 s -> tables_ok s0 -> tables_ok s.
Proof. by intros [? []]. Qed.
Lemma loops_ok_same L s0 s : loops_ok s0 -> runs L s0 s -> loops s = loops s0 -> loops_ok s.
Proof.
  unfold loops_ok. intros [H Hp] R ->. split; [|by eapply runs_tables]. eapply loops_below_mono; [by eapply runs_len|done].
Qed.
Lemma wp_assoc {A B C} (c : M A) (k : A -> M B) (h : B -> M C) s Q :
  wp (bind c (fun a => bind (k a) h)) s Q -> wp (bind (bind c k) h) s Q.
Proof. unfold wp, bind. by destruct (c s) as [[a s']| |]. Qed.
Lemma wp_gets {A B} (f : state -> A) (k : A -> M B) s Q : wp (k (f s)) s Q -> wp (bind (gets f) k) s Q.
Proof. done. Qed.
Lemma wp_unit {A B} (a : A) (k : A -> M B) s Q : wp (k a) s Q -> wp (bind (ret a) k) s Q.
Proof. done. Qed.
Lemma loops_ok_push L s0 s b c :
  loops_ok s0 -> runs L s0 s -> loops s = pushed s0 b c -> (b < nlabels s)%nat ->
  (match c with Some l => (l < nlabels s)%nat | None => True end) -> loops_ok s.
Proof.
  unfold loops_ok. intros [H Hp] R -> Hb Hc. destruct (loops_below_mono _ _ _ (runs_len _ _ _ R) H) as [H1 H2].
  split; [|by eapply runs_tables]. split; cbn in *; by constructor.
Qed.

(** Membership in the open labels, and which stay open. *)
Ltac in_labels := solve [repeat (rewrite elem_of_cons; first [left; reflexivity|right])].
Ltac labels_left :=
  repeat match goal with
  | H : context [List.filter _ (_ :: _)] |- _ => cbn [List.filter] in H
  | H : context [(?x =? ?x)%nat] |- _ => rewrite Nat.eqb_refl in H
  | H : context [negb (?x =? ?y)%nat] |- _ => destruct (Nat.eqb_spec x y); [exfalso; lia|]
  | H : context [negb _] |- _ => cbn [negb] in H
  end.
(** The loop targets are labels in the current state. *)
Ltac loops_now :=
  match goal with
  | H : loops_ok ?s |- loops_ok ?s => exact H
  | H : loops_ok ?s0, R : runs _ ?s0 ?s |- loops_ok ?s =>
      first [apply (loops_ok_same _ s0 s H R); congruence
            |eapply (loops_ok_push _ s0 s _ _ H R); [eassumption|..]; cbn beta iota;
             solve [exact I|match goal with |- (?l < _)%nat => apply (runs_open _ _ _ l R); in_labels end|lia]]
  end.
Ltac same_loops := repeat match goal with E : loops ?s = _ |- loops ?s = _ => rewrite E end; reflexivity.
(** One step of a computation that creates labels. *)
Ltac flow1 :=
  lazymatch goal with
  | R : runs _ ?s0 ?s |- wp (bind (bind _ _) _) ?s _ => apply wp_assoc
  | R : runs _ ?s0 ?s |- wp (bind (ret _) _) ?s _ => apply wp_unit
  | R : runs _ ?s0 ?s |- wp (bind new_label _) ?s _ => apply (flow_new _ _ s0 s R); intros ? ? ? ?
  | R : runs _ ?s0 ?s |- wp (bind (place _) _) ?s _ => apply (flow_place _ _ s0 s R); [in_labels|intros ? ? ? ?; labels_left]
  | R : runs _ ?s0 ?s |- wp (bind (push_loop _ _) _) ?s _ => apply (flow_push _ _ s0 s R); [congruence|intros ? ? ? ?]
  | R : runs _ ?s0 ?s |- wp (bind pop_loop _) ?s _ => eapply (flow_pop _ _ s0 s R); [same_loops|intros ? ? ? ?]
  | R : runs _ ?s0 ?s |- wp (bind (emit_jump _ ?l _) _) ?s _ =>
      apply (flow_jump _ _ s0 s R l); [apply jumps_emit_jump; first [assumption|shape]|first [apply (runs_open _ _ _ l R); in_labels|lia]|intros ? ? ? ?]
  | R : runs _ ?s0 ?s |- wp (bind (emit_jump2 _ _ ?l _) _) ?s _ =>
      apply (flow_jump _ _ s0 s R l);
        [eapply jumps_emit_jump2; [first [eassumption|shape]|discriminate|eauto with gens]|first [apply (runs_open _ _ _ l R); in_labels|lia]|intros ? ? ? ?]
  | R : runs _ ?s0 ?s |- wp (bind _ _) ?s _ => eapply (flow_gens _ _ s0 s R); [solve [eauto with gens]|loops_now|intros ? ? ? ? ? ?]
  | R : runs _ ?s0 ?s |- wp (ret _) ?s _ => split; [exact R|split; [congruence|try exact I]]
  | |- gens _ _ => intros ? ?; match goal with |- wp _ ?s _ => pose proof (runs_refl s) end; apply wp_last
  end.
Ltac flow := repeat (flow1; cbn beta iota delta [on_some]).

(** ** The generator's functions *)

Lemma u32_ok z : is_u32 (u32 z).
Proof. by apply wrap_u_range. Qed.
Lemma lor_u32 a b : is_u32 a -> is_u32 b -> is_u32 (Z.lor a b).
Proof.
  intros Ha Hb. split; [apply Z.lor_nonneg; unfold in_u in *; lia|].
  rewrite <- (Z.mod_small a (2 ^ 32)), <- (Z.mod_small b (2 ^ 32)) by (unfold in_u in *; lia).
  rewrite <- !Z.land_ones, <- Z.land_lor_distr_l, Z.land_ones by lia. apply Z.mod_pos_bound. lia.
Qed.
Lemma tag_u32 t : is_u32 (tag t).
Proof. destruct t; unfold in_u; cbn; lia. Qed.
Lemma hash_u32 name : is_u32 (bhs_type_hash name).
Proof.
  unfold bhs_type_hash. generalize (reverse (encode_utf16 name)). intros l.
  enough (G : forall h, is_u32 h -> is_u32 (hash_loop l h)) by (apply G; unfold in_u; lia).
  induction l as [|u l IH]; intros h Hh; cbn [hash_loop]; [done|]. apply IH, u32_ok.
Qed.
#[export] Hint Resolve u32_ok lor_u32 tag_u32 hash_u32 : gens.

Lemma const_u32 i : is_u32 i -> place_ok (PConst i).
Proof. intros H. apply lor_u32; [done|]. unfold in_u. lia. Qed.
Lemma static_u32 i : is_u32 i -> place_ok (PStatic i).
Proof. intros H. apply lor_u32; [done|]. unfold in_u. lia. Qed.
#[export] Hint Resolve const_u32 static_u32 : gens.
#[export] Hint Extern 1 (in_u 32 (encode ?x)) => change (place_ok x) : gens.
#[export] Hint Extern 3 (shape_of _ _) => shape : gens.
#[export] Hint Extern 3 (_ <> KCodeOffset) => discriminate : gens.
#[export] Hint Resolve gens_emit gens_emit1 gens_emit2 : gens.

(** Names: a scope only gains places that fit. *)
Lemma scopes_push ss : scopes_ok ss -> scopes_ok (∅ :: ss).
Proof. intros H. constructor; [apply map_Forall_empty|done]. Qed.
Lemma scopes_tail ss : scopes_ok ss -> scopes_ok (tail ss).
Proof. intros H. destruct H; [constructor|done]. Qed.
Lemma scopes_bind name x ss ss' : bind_name name x ss = Some ss' -> place_ok x -> scopes_ok ss -> scopes_ok ss'.
Proof.
  destruct ss as [|sc ss]; [done|]. intros [= <-] Hx. unfold scopes_ok. rewrite !Forall_cons. intros [H1 H2].
  split; [by apply map_Forall_insert_2|done].
Qed.
Lemma lookup_place name ss x : scopes_ok ss -> lookup_in name ss = Some x -> place_ok x.
Proof.
  induction 1 as [|sc ss Hsc H IH]; [done|]. cbn [lookup_in]. destruct (sc !! _) eqn:E; [|done].
  intros [= <-]. by eapply Hsc.
Qed.
Lemma gens_push_scope : gens any push_scope.
Proof. apply gens_modify_g. intros x g. repeat split. apply scopes_push. Qed.
Lemma gens_pop_scope : gens any pop_scope.
Proof. apply gens_modify_g. intros x g. repeat split. apply scopes_tail. Qed.

(** A computation that reads the state first. *)
Lemma gens_state {A B} (f : state -> A) (k : A -> M B) V :
  (forall s, loops_ok s -> wp (k (f s)) s (fun a s' => (exists its, emits [] its s s') /\ loops s' = loops s /\ V a)) -> gens V (bind (gets f) k).
Proof. intros H s Hs. apply wp_bind. by apply H. Qed.

Lemma gens_declare_local name ty : gens place_ok (declare_local name ty).
Proof.
  apply gens_state. intros s Hs. unfold wp, bind. destruct (bind_name _ _ _) as [ss|] eqn:E; [|done]. cbn.
  split; [|split; [done|apply u32_ok]]. exists []. apply quiet_emits. repeat split. eapply scopes_bind; [done|apply u32_ok].
Qed.
Lemma gens_declare_static name ty : gens place_ok (declare_static name ty).
Proof.
  apply gens_state. intros s Hs. unfold wp, bind. destruct (bind_name _ _ _) as [ss|] eqn:E; [|done]. cbn.
  split; [|split; [done|apply static_u32, u32_ok]]. exists []. apply quiet_emits. repeat split.
  eapply scopes_bind; [done|apply static_u32, u32_ok].
Qed.
Lemma gens_trigger_index name : gens is_u32 (trigger_index name).
Proof. unfold trigger_index, the_gen. gens; apply u32_ok. Qed.
#[export] Hint Resolve gens_push_scope gens_pop_scope gens_declare_local gens_declare_static gens_trigger_index : gens.

Lemma const_key_inj v w : scalar v = true -> scalar w = true -> const_key v = const_key w -> v = w.
Proof. destruct v, w; try done; by intros _ _ [= <-]. Qed.
Lemma intern_spec v s :
  scalar v = true -> pool_ok s.1 -> exists n s', intern v s = Comp (u32 (Z.of_nat n), s') /\ s'.2 = s.2 /\ g_code s'.1 = g_code s.1 /\ g_scripts s'.1 = g_scripts s.1 /\
    consts s.1 `prefix_of` consts s'.1 /\ pool_ok s'.1 /\ consts s'.1 !! n = Some v.
Proof.
  intros Hv Hp. unfold intern, bind, gets. cbn beta iota. destruct (List.find _ _) as [[k i]|] eqn:E.
  - apply List.find_some in E as [Hin Hk]. apply bool_decide_eq_true in Hk. cbn in Hk.
    unfold pool_ok in Hp. rewrite List.Forall_forall in Hp. destruct (Hp _ Hin) as (n & w & Hi & Hw & Hkw & Hsw). cbn in *. subst.
    assert (w = v) as -> by (apply const_key_inj; done).
    exists n, s. split; [done|]. split; [done|]. split; [done|]. split; [done|]. split; [done|]. split; [by apply List.Forall_forall|done].
  - exists (length (consts s.1)). eexists. split; [reflexivity|]. repeat split; cbn [fst snd consts].
    + by apply prefix_app_r.
    + unfold pool_ok. cbn [const_index consts]. apply Forall_app. split.
      * eapply Forall_impl; [exact Hp|]. intros kv (n & w & H1 & H2 & H3). exists n, w. split; [done|]. split; [by apply lookup_app_l_Some|done].
      * repeat constructor. eexists _, v. split; [reflexivity|]. split; [by rewrite lookup_app_r, Nat.sub_diag|done].
    + by rewrite lookup_app_r, Nat.sub_diag.
Qed.
Lemma gens_intern v : scalar v = true -> gens is_u32 (intern v).
Proof.
  intros Hv s [Hl [Hp Hs]]. destruct (intern_spec v s Hv Hp) as (n & s' & E & E2 & Ec & Eg & Hpre & Hp' & _). unfold wp. rewrite E.
  split; [|split; [unfold loops; by rewrite E2|apply u32_ok]]. exists [].
  constructor; rewrite ?Ec, ?E2, ?Eg, ?app_nil_r; try done.
  - intros l Hm. by apply not_elem_of_nil in Hm. - intros. lia. - unfold tables_ok. by rewrite E2.
Qed.
#[export] Hint Resolve gens_intern : gens.
#[export] Hint Extern 1 (scalar _ = true) => first [assumption|reflexivity] : gens.

Section Generator.
Context (BUILTINS : list BuiltinDecl) (depth : nat) (unit_ : Unit) (file : nat).
Hypothesis HB : Forall (fun d => is_u32 (bd_index d)) BUILTINS.
Local Abbreviation diag := (diag unit_ file).
Local Abbreviation expr := (expr BUILTINS unit_ file).
Local Abbreviation stmt := (stmt BUILTINS depth unit_ file).

Lemma gens_diag sev p m : gens any (diag sev p m).
Proof. unfold CcCodegen.diag. gens. Qed.
Hint Resolve gens_diag : gens.
Lemma gens_note_loc c : gens any (note_loc c).
Proof. unfold note_loc. gens. Qed.
Lemma gens_push_const v p : scalar v = true -> gens any (push_const v p).
Proof. intros Hv. unfold push_const. gens. Qed.
Hint Resolve gens_note_loc gens_push_const : gens.
Lemma gens_eval_labels defs : gens any (eval_labels_here unit_ file defs).
Proof. unfold eval_labels_here. gens. Qed.
Hint Resolve gens_eval_labels : gens.
Lemma gens_resolved_type_tag ty p : gens is_u32 (resolved_type_tag unit_ file ty p).
Proof.
  unfold resolved_type_tag, type_token. destruct ty; gens; try apply tag_u32; try apply hash_u32; unfold in_u; lia.
Qed.
Hint Resolve gens_resolved_type_tag : gens.
Lemma gens_default_value d ty p : gens any (emit_default_value unit_ file d ty p).
Proof.
  revert ty. induction d as [|d IH]; intros ty; cbn [emit_default_value]; [by intros s Hs|].
  destruct ty; gens. apply gens_iter_rev, List.Forall_forall. intros f _. gens.
Qed.
Hint Resolve gens_default_value : gens.
Lemma gens_name_slot n p : gens place_ok (name_slot unit_ file n p).
Proof.
  apply gens_state. intros s Hs. destruct (lookup n s.2) eqn:E.
  - apply gens_ret; [|done]. by eapply lookup_place; [apply Hs|].
  - destruct (g_labels s.2 !! n) as [v|]; [|apply (fun H : gens place_ok (bind _ _) => H s Hs); gens].
    apply (fun H : gens place_ok (bind _ _) => H s Hs). gens.
Qed.
Hint Resolve gens_name_slot : gens.
Lemma gens_preintern e : gens any (preintern_expr_constants e).
Proof.
  induction e using expr_tree_ind; cbn [preintern_expr_constants]; gens.
Qed.
Hint Resolve gens_preintern : gens.
Lemma gens_preinterns l : gens any (iter preintern_expr_constants l).
Proof. apply gens_iter, List.Forall_forall. auto with gens. Qed.
Hint Resolve gens_preinterns : gens.

Lemma unary_shape p b : unary_op p = Some b -> shape_of b [].
Proof. destruct p; intros [= <-]; shape. Qed.
Lemma binary_shape p b : binary_op p = Some b -> shape_of b [].
Proof. destruct p; intros [= <-]; shape. Qed.
Lemma assign_shape p b : assign_op p = Some b -> shape_of b [].
Proof. destruct p; intros [= <-]; shape. Qed.

Hint Resolve unary_shape binary_shape assign_shape : gens.

Lemma gens_logic (c1 c2 : M unit) b pos :
  shape_of b [KCodeOffset] -> gens any c1 -> gens any c2 ->
  gens any (do! l := new_label in c1 ;;; emit_jump b l pos ;;; c2 ;;; place l ;;; emit op.CAST_BOOL pos).
Proof. intros Hb H1 H2. flow. Qed.
Lemma gens_binary (ex : Expr -> M unit) p l r pos :
  gens any (ex l) -> gens any (ex r) -> gens any (binary BUILTINS unit_ file ex p l r pos).
Proof.
  intros Hl Hr. unfold binary. destruct (_ || _).
  { apply gens_logic; [destruct (bool_decide _); shape|done|done]. }
  gens. unfold count_cast. gens.
Qed.
Lemma gens_lvalue (ex : Expr -> M unit) e :
  gens any (ex e) -> (forall base index q, e = EIndex base index q -> gens any (ex base) /\ gens any (ex index)) ->
  gens any (lvalue unit_ file ex e).
Proof.
  intros He Hi. destruct e; cbn [lvalue]; gens; try done; destruct (Hi _ _ _ eq_refl); done.
Qed.
Lemma gens_emit_call name argc p : gens any (emit_call BUILTINS unit_ file name argc p).
Proof.
  assert (HR : forall d, resolve_builtin BUILTINS name argc = Some d -> is_u32 (bd_index d)).
  { unfold resolve_builtin. rewrite List.Forall_forall in HB. intros d.
    assert (F : forall f, List.find f (builtin_overloads BUILTINS name) = Some d -> is_u32 (bd_index d)).
    { intros f [E _]%List.find_some. apply filter_In in E as [E _]. auto. }
    destruct (List.find _ _) as [d'|] eqn:E; [intros [= <-]; by eapply F|apply F]. }
  unfold emit_call. destruct (script_by_name _ _); [gens|]. destruct (resolve_builtin _ _ _) as [d|]; [|gens].
  specialize (HR d eq_refl). gens.
Qed.
Hint Resolve gens_emit_call : gens.
Lemma gens_call (ex : Expr -> M unit) name recv args p :
  (forall r, recv = Some r -> gens any (ex r)) -> Forall (fun e => gens any (ex e)) args ->
  gens any (call BUILTINS unit_ file ex name recv args p).
Proof.
  intros Hr Ha. unfold call.
  set (general := bind _ _). assert (G : gens any general).
  { unfold general. gens. }
  destruct recv as [r|]; [exact G|]. destruct args as [|a [|a' args]]; [exact G| |exact G]. destruct (_ || _); [|exact G].
  unfold trigger_intrinsic. gens; destruct (eq_ignore_ascii_case _ _); eauto with gens.
Qed.
Lemma gens_expr e : gens any (expr e).
Proof.
  induction e using expr_tree_ind; cbn [CcCodegen.expr]; gens.
  - destruct inc; eauto with gens.
  - destruct inc; eauto with gens.
  - by apply gens_binary.
  - assert (G : gens any (lvalue unit_ file expr e1)) by by apply gens_lvalue.
    unfold assign. destruct (assign_op op) eqn:E; [|gens]. destruct e1; gens.
  - by apply gens_call.
  - apply gens_call; [by intros ? [= <-]|done].
  - unfold member. gens.
Qed.
Hint Resolve gens_expr : gens.
Lemma gens_exprs l : gens any (iter_rev expr l).
Proof. apply gens_iter_rev, List.Forall_forall. auto with gens. Qed.
Hint Resolve gens_exprs : gens.

(** Declarations and statements. *)
Lemma gens_init_value ty d : gens any (init_value BUILTINS depth unit_ file ty d).
Proof. unfold init_value, array_element_tag. gens. Qed.
Hint Resolve gens_init_value : gens.
Lemma gens_init b a p : is_u32 a -> gens any (emit1 (if b : bool then op.INIT_COPY else op.INIT) a p).
Proof. destruct b; eauto with gens. Qed.
Hint Resolve gens_init : gens.
Lemma gens_declarator d x : gens any (declarator BUILTINS depth unit_ file d x).
Proof.
  unfold declarator. destruct (is_static d).
  - eapply gens_bind; [apply gens_declare_static|]. intros slot Hslot. change (is_u32 (encode slot)) in Hslot. flow.
  - eapply gens_bind; [apply gens_declare_local|]. intros slot Hslot. change (is_u32 (encode slot)) in Hslot. flow.
Qed.
Hint Resolve gens_declarator : gens.
Lemma gens_decl d : gens any (decl BUILTINS depth unit_ file d).
Proof. apply gens_iter, List.Forall_forall. auto with gens. Qed.
Lemma gens_expr_stmt e : gens any (expr_stmt BUILTINS unit_ file e).
Proof. unfold expr_stmt. gens. Qed.
Hint Resolve gens_decl gens_expr_stmt : gens.

(** *** Switches *)

(** Jumps to labels below [n]. *)
Definition gens_below {A} (n : nat) (V : A -> Prop) (c : M A) : Prop :=
  forall s, loops_ok s -> (n <= nlabels s)%nat -> wp c s (fun a s' => (exists its, emits [] its s s') /\ loops s' = loops s /\ V a).
Lemma gens_below_gens {A} n (V : A -> Prop) c : gens V c -> gens_below n V c.
Proof. intros H s Hs _. by apply H. Qed.
Lemma gens_below_bind {A B} n (V : A -> Prop) (W : B -> Prop) c k :
  gens_below n V c -> (forall a, V a -> gens_below n W (k a)) -> gens_below n W (bind c k).
Proof.
  intros Hc Hk s Hs Hn. apply wp_bind. eapply wp_mono; [by apply Hc|]. intros a s1 ((i1 & E1) & L1 & Ha).
  eapply wp_mono; [apply (Hk a Ha s1); [by eapply loops_ok_after|destruct E1; lia]|]. intros b s2 ((i2 & E2) & L2 & Hb).
  split; [|split; [congruence|done]]. exists (i1 ++ i2). by apply (emits_trans [] []) with s1.
Qed.
Lemma gens_below_jump n l (V : unit -> Prop) c : (l < n)%nat -> V tt -> jumps l c -> gens_below n V c.
Proof.
  intros Hl HV Hc s Hs Hn. destruct (Hc s) as (s' & E & Hi & Hs'); [lia|]. unfold wp. by rewrite E.
Qed.
Definition label_below (n : nat) (o : option nat) : Prop := match o with Some l => (l < n)%nat | None => True end.

Lemma gens_switch_case n l def c :
  (l < n)%nat -> label_below n def -> gens_below n (label_below n) (switch_case unit_ file l def c).
Proof.
  intros Hl Hd. unfold switch_case. destruct (case_value c) as [e|]; [|apply gens_below_gens; by apply gens_ret].
  eapply gens_below_bind; [apply gens_below_gens, gens_gets|]. intros g _.
  eapply (gens_below_bind n (fun o => forall v, o = Some v -> scalar v = true)).
  { apply gens_below_gens. unfold const_value. intros s Hs.
    assert (G : forall o : option (option Value), (forall w v, o = Some w -> w = Some v -> scalar v = true) ->
      wp (unwrap o) s (fun a s' => (exists its, emits [] its s s') /\ loops s' = loops s /\ forall v, a = Some v -> scalar v = true)).
    { intros [w|] Hw; [|done]. split; [eexists; apply emits_refl|]. split; [done|]. intros v. by apply Hw. }
    apply G. intros w v. destruct e; try (intros [= <-] [= <-]; done); (destruct (const_int _ _) as [[z|]|]; cbn; intros [= <-]; try done; by intros [= <-]). }
  intros [v|] Hv; [specialize (Hv v eq_refl)|clear Hv].
  - eapply gens_below_bind; [by apply gens_below_gens, gens_intern|]. intros k Hk. eapply (gens_below_bind n any).
    + eapply gens_below_jump; [exact Hl|done|]. eapply jumps_emit_jump2; [shape|discriminate|by apply const_u32].
    + intros _ _. apply gens_below_gens. by apply gens_ret.
  - apply gens_below_gens. gens.
Qed.
Lemma gens_switch_heads n arms ls def :
  Forall (fun l => l < n)%nat ls -> label_below n def -> gens_below n (label_below n) (switch_heads unit_ file arms ls def).
Proof.
  intros Hl. revert arms def. induction Hl as [|l ls Hl H IH]; intros [|[cs b] arms] def Hd; cbn [switch_heads];
    try (apply gens_below_gens; by apply gens_ret).
  eapply gens_below_bind; [|intros d Hd'; by apply IH]. revert def Hd. induction cs as [|c cs IHc]; intros def Hd; cbn [switch_cases].
  { apply gens_below_gens. by apply gens_ret. }
  eapply gens_below_bind; [by apply gens_switch_case|]. intros d Hd'. by apply IHc.
Qed.

Lemma runs_equiv L L' s0 s : (forall x, x ∈ L <-> x ∈ L') -> runs L s0 s -> runs L' s0 s.
Proof.
  intros HL [its []]. exists its. constructor; try done. - intros l Hl%HL. auto. - intros l Hl Hn. apply em_new0; [done|]. by rewrite HL.
Qed.
Lemma flow_collect {A B} (Q : B -> state -> Prop) L s0 s (arms : list A) k :
  runs L s0 s ->
  (forall s', runs (seq (nlabels s) (length arms) ++ L) s0 s' -> loops s' = loops s -> (nlabels s' = nlabels s + length arms)%nat ->
     wp (k (seq (nlabels s) (length arms))) s' Q) ->
  wp (bind (collect (fun _ => new_label) arms) k) s Q.
Proof.
  revert L s k. induction arms as [|a arms IH]; intros L s k R Hk; cbn [collect length seq app].
  { apply Hk; [done|done|cbn; lia]. }
  apply wp_assoc, (flow_new _ _ s0 s R). intros s1 R1 E1 N1. apply wp_assoc. eapply (IH (nlabels s :: L)); [exact R1|].
  intros s2 R2 E2 N2. rewrite N1 in *. apply wp_unit. apply Hk; [|congruence|cbn; lia].
  eapply runs_equiv; [|exact R2]. intros x. cbn [length seq app]. rewrite !elem_of_app, !elem_of_cons, elem_of_app. tauto.
Qed.
Lemma loops_ok_step L L' s0 s s' : loops_ok s -> runs L s0 s -> runs L' s0 s' -> loops s' = loops s -> (nlabels s <= nlabels s')%nat ->
  tables_ok s' -> loops_ok s'.
Proof. intros [H _] R R' E Hn Ht. split; [|done]. rewrite E. by eapply loops_below_mono. Qed.
Lemma flow_arms {B} (Q : B -> state -> Prop) (st : Stmt -> M unit) s0 arms h :
  tables_ok s0 -> Forall (arm_all (fun x => gens any (st x))) arms ->
  forall k L s, runs (seq k (length arms) ++ L) s0 s -> loops_ok s -> (forall l, l ∈ L -> (l < k)%nat) ->
  (forall s', runs L s0 s' -> loops s' = loops s -> (nlabels s <= nlabels s')%nat -> wp (h tt) s' Q) ->
  wp (bind (iter2 (fun arm l => let 'mkSwitchArm _ body := arm in place l ;;; push_scope ;;; iter st body ;;; pop_scope) arms (seq k (length arms))) h) s Q.
Proof.
  intros Ht. induction 1 as [|[cs b] arms Ha H IH]; intros k L s R Hs HL Hk; cbn [length seq iter2 app] in *.
  { apply wp_unit. by apply Hk. }
  apply wp_assoc, wp_assoc. apply (flow_place _ _ s0 s R); [left|]. intros s1 R1 E1 N1.
  assert (R1' : runs (seq (S k) (length arms) ++ L) s0 s1).
  { eapply runs_equiv; [|exact R1]. intros x. rewrite !list_elem_of_In, filter_In, negb_true_iff, Nat.eqb_neq, <- !list_elem_of_In.
    rewrite elem_of_cons, elem_of_app, elem_of_seq. split; [intros [[->|Hx] Hne]; [done|tauto]|].
    intros [Hx|Hx]; [split; [right; by left|lia]|]. specialize (HL x Hx). split; [tauto|lia]. }
  assert (Hs1 : loops_ok s1). { eapply loops_ok_step; [exact Hs|exact R|exact R1|done|lia|by eapply runs_tables]. }
  assert (G : gens any (push_scope ;;; iter st b ;;; pop_scope)).
  { gens. }
  eapply (flow_gens _ _ s0 s1 R1'); [exact G|done|]. intros _ s2 _ R2 E2 N2.
  apply (IH (S k) L s2 R2).
  - eapply loops_ok_step; [exact Hs1|exact R1'|exact R2|done|done|by eapply runs_tables].
  - intros l Hl. specialize (HL l Hl). lia.
  - intros s3 R3 E3 N3. apply Hk; [done|congruence|lia].
Qed.

Lemma gens_switch (st : Stmt -> M unit) e arms p :
  Forall (arm_all (fun x => gens any (st x))) arms -> gens any (switch BUILTINS unit_ file st e arms p).
Proof.
  intros Ha s Hs. pose proof (runs_refl s) as R0. apply wp_last. unfold switch. apply wp_assoc.
  eapply (flow_gens _ _ s s R0); [apply gens_expr|done|]. intros _ s1 _ R1 E1 N1. apply wp_assoc.
  apply (flow_new _ _ s s1 R1). intros s2 R2 E2 N2. apply wp_assoc. eapply flow_collect; [exact R2|]. intros s3 R3 E3 N3.
  set (n := length arms) in *. apply wp_assoc, wp_bind.
  assert (Hs3 : loops_ok s3) by (apply (loops_ok_same _ _ _ Hs R3); congruence).
  eapply wp_mono; [apply (gens_switch_heads (nlabels s3)); [|exact I|exact Hs3|done]|].
  { apply List.Forall_forall. intros x Hx%in_seq. lia. }
  intros def s4 ((its & Hi) & E4 & Hd). assert (R4 : runs (seq (nlabels s2) n ++ [nlabels s1]) s s4).
  { destruct R3 as [i0 Hi0]. exists (i0 ++ its). rewrite <- (app_nil_r (_ ++ [_])). by apply emits_trans with s3. }
  assert (N4 : (nlabels s3 <= nlabels s4)%nat) by by destruct Hi.
  apply wp_assoc. eapply (flow_gens _ _ s s4 R4); [eauto with gens|apply (loops_ok_same _ _ _ Hs R4); congruence|]. intros _ s5 _ R5 E5 N5.
  apply wp_assoc. apply (flow_jump _ _ s s5 R5 (default (nlabels s1) def)); [apply jumps_emit_jump; shape|destruct def; cbn in *; lia|].
  intros s6 R6 E6 N6. apply wp_assoc, wp_gets, wp_assoc. apply (flow_push _ _ s s6 R6); [congruence|]. intros s7 R7 E7 N7.
  apply wp_assoc. apply (flow_arms _ st s arms _ (proj2 Hs) Ha (nlabels s2) [nlabels s1] s7 R7).
  - eapply (loops_ok_push _ s s7 _ _ Hs R7); [exact E7|apply (runs_open _ _ _ _ R7), elem_of_app; right; left|].
    assert (E : continues s6.2 = continues s.2) by (assert (E : loops s6 = loops s) by congruence; by injection E).
    rewrite E. destruct Hs as [[_ Hc] _]. cbn in Hc. pose proof (runs_len _ _ _ R7). destruct Hc as [|[l|] cs Hl Hc]; cbn; [done|lia|done].
  - intros l ->%list_elem_of_singleton. lia.
  - intros s8 R8 E8 N8. apply wp_assoc. eapply (flow_pop _ _ s s8 R8); [same_loops|]. intros s9 R9 E9 N9.
    apply (flow_place _ _ s s9 R9); [left|]. intros s10 R10 E10 N10. cbn [List.filter] in R10. rewrite Nat.eqb_refl in R10.
    split; [exact R10|split; [congruence|done]].
Qed.

Lemma gens_jump_if (f : ScriptGen -> option nat) p m :
  (forall s l, loops_ok s -> f s.2 = Some l -> (l < nlabels s)%nat) ->
  gens any (do! g := the_gen in match f g with Some l => emit_jump op.JUMP l p | None => diag Error p m end).
Proof.
  intros Hf s Hs. apply wp_gets. destruct (f s.2) as [l|] eqn:E; [|by apply gens_diag].
  destruct (jumps_emit_jump op.JUMP l p ltac:(shape) s (Hf s l Hs E)) as (s' & E' & Hi & Hl). unfold wp. by rewrite E'.
Qed.

Lemma gens_stmt x : gens any (stmt x).
Proof.
  induction x using stmt_tree_ind; cbn [CcCodegen.stmt]; try solve [gens].
  - destruct e as [e|]; [specialize (H e eq_refl)|]; flow.
  - flow.
  - flow.
  - destruct i as [i|], c, st; try specialize (H i eq_refl); flow.
  - by apply gens_switch.
  - apply gens_jump_if. intros s l [[Hb _] _] E. cbn in Hb. destruct (breaks s.2); [done|]. injection E as ->. by inversion Hb.
  - apply (gens_jump_if (fun g => default None (head (continues g)))). intros s l [[_ Hc] _] E. cbn in Hc.
    destruct (continues s.2); [done|]. cbn in E. subst. by inversion Hc.
  - destruct c; flow.
  - flow.
Qed.
Lemma gens_hoist x : gens any (hoist_label unit_ file x).
Proof. induction x using stmt_tree_ind; cbn [hoist_label]; gens. Qed.
End Generator.

(** ** Scripts end in a return *)

Definition return_item : item := (op.RETURN, []).

(** Like [gens], and the last instruction is a return no label stands after. *)
Definition ends (c : M unit) : Prop :=
  forall s, loops_ok s -> wp c s (fun _ s' =>
    loops s' = loops s /\ exists its, emits [] (its ++ [return_item]) s s' /\
    forall l, (nlabels s <= l < nlabels s')%nat ->
      exists n, (n <= length its)%nat /\ label_pos s'.2 !! l = Some (Some (u32 (Z.of_nat (size_at s + items_size (take n its)))))).

Lemma new_label_at its s s' l : emits [] its s s' -> (nlabels s <= l < nlabels s')%nat ->
  exists n, (n <= length its)%nat /\ label_pos s'.2 !! l = Some (Some (u32 (Z.of_nat (size_at s + items_size (take n its))))).
Proof.
  intros [] Hl. destruct (em_new0 l Hl) as [n Hn]; [by apply not_elem_of_nil|]. exists (n `min` length its)%nat. split; [lia|].
  rewrite Hn. do 4 f_equal. destruct (decide (n <= length its)%nat); [by rewrite Nat.min_l|]. by rewrite Nat.min_r, firstn_all, take_ge by lia.
Qed.
Lemma ends_emit p : ends (emit op.RETURN p).
Proof.
  intros s Hs. split; [done|]. exists []. split; [|cbn; intros; lia].
  apply emits_item; cbn [fixes fix_ops app snd fst]; rewrite ?app_nil_r; try done; [|by repeat constructor].
  eapply shape_ok_of; [shape|operands].
Qed.
Lemma ends_bind {A} (V : A -> Prop) (c : M A) k : gens V c -> (forall a, V a -> ends (k a)) -> ends (bind c k).
Proof.
  intros Hc Hk s Hs. apply wp_bind. eapply wp_mono; [by apply Hc|]. intros a s1 ((i1 & E1) & L1 & Ha).
  eapply wp_mono; [apply (Hk a Ha s1); by eapply loops_ok_after|]. intros _ s2 (L2 & i2 & E2 & P2).
  split; [congruence|]. exists (i1 ++ i2). rewrite <- app_assoc. split; [by apply (emits_trans [] []) with s1|].
  intros l Hl. destruct (decide (l < nlabels s1)%nat) as [Hlt|Hge].
  - destruct (new_label_at i1 s s1 l E1) as (n & Hn & E); [lia|]. exists n. rewrite length_app. split; [lia|].
    destruct E2. rewrite em_keep0, E, take_app_le by lia. done.
  - destruct (P2 l) as (n & Hn & E); [lia|]. exists (length i1 + n)%nat. rewrite length_app. split; [lia|].
    destruct E1. rewrite E, take_app_add, items_size_app, em_code0, length_app, length_resolve. do 4 f_equal. lia.
Qed.
Lemma ends_mono c c' : (forall s, c s = c' s) -> ends c -> ends c'.
Proof. intros E H s Hs. unfold wp. rewrite <- E. by apply H. Qed.
Lemma iter_app {A} (f : A -> M unit) l k s : iter f (l ++ k) s = (iter f l ;;; iter f k) s.
Proof.
  revert s. induction l as [|x l IH]; intros s; cbn [app iter]; [done|]. unfold bind in *.
  destruct (f x s) as [[a s']| |]; [|done|done]. apply IH.
Qed.

Section Scripts.
Context (BUILTINS : list BuiltinDecl) (depth : nat) (unit_ : Unit) (file : nat).
Hypothesis HB : Forall (fun d => is_u32 (bd_index d)) BUILTINS.
Hint Resolve gens_expr gens_stmt gens_hoist gens_default_value gens_diag gens_resolved_type_tag : gens.

(** Everything of a script's body before the jumps are patched. *)
Definition script_code (si : nat) (sg : ScriptSig) (b : Block) : M unit :=
  let 'mkBlock stmts b_pos := b in
  emit1 op.SCRIPT_MARKER (u32 (Z.of_nat si)) (sig_pos sg) ;;;
  iter (param_prologue unit_) (params sg) ;;;
  hoist_labels unit_ file stmts ;;;
  iter (stmt BUILTINS depth unit_ file) stmts ;;;
  do! g := the_gen in
  when (negb (is_return (last stmts)))
    (when (negb (bool_decide (g_ret g = TyScalar TVoid))) (emit_default_value unit_ file depth (g_ret g) b_pos) ;;;
     emit op.RETURN b_pos).
Lemma script_body_split si sg b s : script_body BUILTINS depth unit_ file si sg b s = (script_code si sg b ;;; patch_jumps) s.
Proof.
  destruct b as [stmts bp]. cbn [script_body script_code]. unfold bind.
  repeat match goal with |- context [match ?c with Comp _ => _ | Panic => _ | StackOverflow => _ end] =>
    lazymatch c with match _ with _ => _ end => fail | _ => destruct c as [[? ?]| |] end end; reflexivity.
Qed.

Lemma gens_prologue q : gens any (param_prologue unit_ q).
Proof.
  unfold param_prologue. eapply gens_bind; [apply gens_declare_local|]. intros slot Hs. change (is_u32 (encode slot)) in Hs.
  destruct (by_ref q); eauto with gens.
Qed.
Lemma ends_return v p : ends (stmt BUILTINS depth unit_ file (SReturn v p)).
Proof.
  cbn [stmt]. eapply ends_bind; [apply (gens_gets snd)|]. intros g _. eapply ends_bind; [|intros _ _; apply ends_emit]. gens.
Qed.
Lemma ends_script_code si sg b : ends (script_code si sg b).
Proof.
  destruct b as [stmts bp]. cbn [script_code]. eapply ends_bind; [eauto with gens|]. intros _ _.
  eapply ends_bind; [apply gens_iter, List.Forall_forall; intros; apply gens_prologue|]. intros _ _.
  eapply ends_bind; [apply gens_iter, List.Forall_forall; intros; apply gens_hoist|]. intros _ _.
  assert (G : forall l, gens any (iter (stmt BUILTINS depth unit_ file) l)).
  { intros l. apply gens_iter, List.Forall_forall. intros. by apply gens_stmt. }
  destruct (is_return (last stmts)) eqn:E; cbn [negb when].
  - destruct (last stmts) as [[]|] eqn:El; try done. apply last_Some in El as [l ->].
    eapply (ends_mono (iter (stmt BUILTINS depth unit_ file) l ;;; stmt BUILTINS depth unit_ file (SReturn value p))).
    { intros s. unfold bind. rewrite iter_app. unfold bind. destruct (iter _ l s) as [[? s1]| |]; [|done|done].
      cbn [iter]. unfold bind. destruct (stmt _ _ _ _ _ s1) as [[[] s2]| |]; done. }
    eapply ends_bind; [apply G|]. intros _ _. apply ends_return.
  - eapply ends_bind; [apply G|]. intros _ _. eapply ends_bind; [apply (gens_gets snd)|]. intros g _.
    eapply ends_bind; [|intros _ _; apply ends_emit]. gens.
Qed.
End Scripts.
