(* ===== verification/CcCodeWf.v ===== *)
(** * The script compiler: compiled code is well formed

    Compiled code disassembles, every code offset in it is the start of an
    instruction of the same file, and it does not run off its end: whatever
    the source, or the output is the one-byte refusal. *)

From S2P Require Import Prelude NetText BhsOpcode BhsDisasm BhsStd BhsValue BhsProgram BhsVm CcLex CcAst CcParse CcSema CcCodegen CcCodegenSpec.
From Stdlib Require String.
#[local] Open Scope list_scope.
#[local] Open Scope Z_scope.
Import Gen.
#[local] Open Scope gen_scope.

(** ** Well-formed code *)

Definition insn_size (it : Z * list Z) : nat := (1 + 4 * length it.2)%nat.
(** Where the instructions of [its] start when the first is at [base]. *)
Fixpoint starts (base : nat) (its : list (Z * list Z)) : list nat :=
  match its with
  | [] => []
  | it :: its => base :: starts (base + insn_size it) its
  end.

(** A legal opcode with its operands; code offsets are among [ts]. *)
Definition operand_wf (ts : list nat) (k : OperandKind) (z : Z) : Prop :=
  is_u32 z /\ (k = KCodeOffset -> exists t, t ∈ ts /\ z = u32 (Z.of_nat t)).
Definition insn_wf (ts : list nat) (it : Z * list Z) : Prop :=
  is_u8 it.1 /\ it.1 <> op.ERROR_TOKEN /\ exists d, decode it.1 = Some d /\ Forall2 (operand_wf ts) (od_operands d) it.2.
Definition code_wf (base : nat) (its : list (Z * list Z)) : Prop :=
  Forall (insn_wf (starts base its)) its /\ (its = [] \/ last its = Some (op.RETURN, [])).

Lemma starts_app base a b : starts base (a ++ b) = starts base a ++ starts (base + asm_len a) b.
Proof.
  revert base. induction a as [|it a IH]; intros base; cbn [app starts]; [by rewrite Nat.add_0_r|].
  rewrite IH. change (asm_len (it :: a)) with (insn_size it + asm_len a)%nat. by rewrite Nat.add_assoc.
Qed.
Lemma insn_wf_mono ts ts' it : (forall t, t ∈ ts -> t ∈ ts') -> insn_wf ts it -> insn_wf ts' it.
Proof.
  intros Hts (H1 & H2 & d & H3 & H4). split; [done|]. split; [done|]. exists d. split; [done|].
  eapply Forall2_impl; [exact H4|]. intros k z [Hz Hk]. split; [done|]. intros E. destruct (Hk E) as (t & Ht & Et). eauto.
Qed.
Lemma code_wf_nil base : code_wf base [].
Proof. split; [constructor|by left]. Qed.
Lemma code_wf_app base a b : code_wf base a -> code_wf (base + asm_len a) b -> code_wf base (a ++ b).
Proof.
  intros [Ha La] [Hb Lb]. split.
  - rewrite starts_app. apply Forall_app. split; (eapply Forall_impl; [eassumption|]); intros it; apply insn_wf_mono; intros t Ht; apply elem_of_app; auto.
  - destruct Lb as [->|Lb]; [by rewrite app_nil_r|]. right. by rewrite last_app, Lb.
Qed.

(** The start of an item of a list of items with labels. *)
Lemma starts_resolve lp base its n : (n < length its)%nat -> (base + items_size (take n its))%nat ∈ starts base (resolve lp its).
Proof.
  revert base n. induction its as [|it its IH]; intros base n Hn; cbn [length] in Hn; [lia|]. cbn [resolve map starts].
  destruct n as [|n]; cbn [take].
  - unfold items_size. cbn. rewrite Nat.add_0_r. left.
  - right. replace (base + items_size (it :: take n its))%nat with ((base + item_size it) + items_size (take n its))%nat
      by (unfold items_size, list_sum; cbn [map fold_right]; lia).
    replace (insn_size (it.1, map (opval lp) it.2)) with (item_size it) by (unfold insn_size, item_size; cbn; by rewrite length_map).
    apply IH. lia.
Qed.

(** ** From labels to code *)

(** Once patched, what [emits] describes is well formed. *)
Lemma resolve_wf s s' its :
  nlabels s = 0%nat -> emits [] (its ++ [return_item]) s s' ->
  (forall l, (l < nlabels s')%nat -> exists n, (n <= length its)%nat /\ label_pos s'.2 !! l = Some (Some (u32 (Z.of_nat (size_at s + items_size (take n its)))))) ->
  code_wf (size_at s) (resolve (label_pos s'.2) (its ++ [return_item])).
Proof.
  intros Hn [] HP. split; [|right; by rewrite resolve_app, last_app].
  unfold resolve at 2. apply Forall_map, List.Forall_forall. intros [o ops] Hin. rewrite List.Forall_forall in em_shape, em_labs.
  destruct (em_shape _ Hin) as (d & Hd & H2 & He & Hu). specialize (em_labs _ Hin). cbn [fst snd] in *. split; [done|]. split; [done|].
  exists d. split; [done|]. unfold labs_below in em_labs. cbn [snd] in em_labs. clear Hin Hd. revert em_labs.
  induction H2 as [|k x ks xs Hk H2 IH]; intros Hl; cbn [map]; [constructor|]. inversion Hl; subst. constructor; [|by apply IH].
  destruct x as [z|l]; cbn [opval].
  - destruct Hk as [Hk Hz]. split; [done|]. by intros ->.
  - destruct (HP l) as (n & Hle & E); [done|]. rewrite E. cbn [default id]. split; [apply u32_ok|]. intros _.
    eexists. split; [|reflexivity]. replace (take n its) with (take n (its ++ [return_item])) by by rewrite take_app_le.
    apply starts_resolve. rewrite length_app. cbn. lia.
Qed.

Section Scripts.
Context (BUILTINS : list BuiltinDecl) (depth : nat) (unit_ : Unit) (file : nat).
Hypothesis HB : Forall (fun d => is_u32 (bd_index d)) BUILTINS.

(** Before a script: no labels, no fixups. *)
Definition fresh (s : state) : Prop := label_pos s.2 = [] /\ fixups s.2 = [] /\ loops_ok s.

Lemma script_body_spec si sg b s :
  fresh s -> wp (script_body BUILTINS depth unit_ file si sg b) s (fun _ s' =>
    exists its, g_code s'.1 = g_code s.1 ++ asm its /\ its <> [] /\ code_wf (size_at s) its /\
      pool_ok s'.1 /\ consts s.1 `prefix_of` consts s'.1 /\ g_scripts s'.1 = g_scripts s.1).
Proof.
  intros (Hl & Hf & Hs). unfold wp. rewrite script_body_split. change (wp (script_code BUILTINS depth unit_ file si sg b ;;; patch_jumps) s (fun _ s' =>
    exists its, g_code s'.1 = g_code s.1 ++ asm its /\ its <> [] /\ code_wf (size_at s) its /\
      pool_ok s'.1 /\ consts s.1 `prefix_of` consts s'.1 /\ g_scripts s'.1 = g_scripts s.1)).
  apply wp_bind. eapply wp_mono; [by apply ends_script_code|]. intros _ s1 (L1 & its & E & HP).
  assert (Hn : nlabels s = 0%nat) by by rewrite Hl.
  assert (W := resolve_wf s s1 its Hn E ltac:(intros l ?; apply HP; lia)).
  assert (P : patch (fixups s1.2) (label_pos s1.2) (g_code s1.1) = Some (g_code s.1 ++ asm (resolve (label_pos s1.2) (its ++ [return_item])))).
  { destruct E. rewrite em_fixups, Hf, em_code. apply patch_items. eapply Forall_impl; [exact em_labs|]. intros it Hit. eapply Forall_impl; [exact Hit|].
    intros [z|l] Hlt; [done|]. destruct (HP l) as (n & _ & El); [lia|]. by eexists. }
  unfold patch_jumps. apply wp_gets. unfold wp, bind. cbn [id]. rewrite P. cbn.
  exists (resolve (label_pos s1.2) (its ++ [return_item])). split; [done|]. split.
  { rewrite resolve_app. by destruct (resolve _ its). }
  split; [done|]. destruct E. split; [by apply em_tables, Hs|]. done.
Qed.

(** Computations that change only diagnostics. *)
Definition silent {A} (c : M A) : Prop := forall s, wp c s (fun _ s' => quiet s s' /\ s'.2 = s.2).
Lemma quiet_trans s1 s2 s3 : quiet s1 s2 -> quiet s2 s3 -> quiet s1 s3.
Proof.
  intros (A1 & A2 & A3 & A4 & A5 & A6 & A7) (B1 & B2 & B3 & B4 & B5 & B6 & B7). unfold quiet.
  rewrite B1, B2, B3, B4, B5, B6. auto 10.
Qed.
Lemma silent_bind {A B} (c : M A) (k : A -> M B) : silent c -> (forall a, silent (k a)) -> silent (bind c k).
Proof.
  intros Hc Hk s. apply wp_bind. eapply wp_mono; [apply Hc|]. intros a s1 [Q1 E1]. eapply wp_mono; [apply Hk|]. intros b s2 [Q2 E2].
  split; [by eapply quiet_trans|congruence].
Qed.
Lemma silent_ret {A} (a : A) : silent (ret a).
Proof. intros s. by repeat split. Qed.
Lemma silent_lift {A} (c : comp A) : silent (lift c).
Proof. intros s. unfold wp, lift. destruct c; [|done|done]. by repeat split. Qed.
Lemma silent_tag ty p : silent (resolved_type_tag unit_ file ty p).
Proof.
  assert (G : silent (do! token := type_token unit_ ty in
      match token with Some token => ret (bhs_type_hash token) | None => diag unit_ file Error p TypeIdentity ;;; ret 0 end)).
  { apply silent_bind.
    - unfold type_token. destruct ty; try apply silent_ret; [apply silent_lift|]. apply silent_bind; [apply silent_lift|intros; apply silent_ret].
    - intros [t|]; [apply silent_ret|]. apply silent_bind; [|intros; apply silent_ret]. intros s. by repeat split. }
  destruct ty; [apply silent_ret|exact G..].
Qed.
Lemma silent_collect {A B} (f : A -> M B) l : (forall x, silent (f x)) -> silent (collect f l).
Proof.
  intros H. induction l as [|x l IH]; cbn [collect]; [apply silent_ret|].
  apply silent_bind; [apply H|]. intros y. apply silent_bind; [exact IH|]. intros ys. apply silent_ret.
Qed.

(** ** Files *)

(** The entry of a script is the start of an instruction, or 0 when the file
    only declares it. *)
Definition entry_in (its : list (Z * list Z)) (s : Script) : Prop := exists t, t ∈ starts 0 its /\ entry s = u32 (Z.of_nat t).
Definition entry_wf (its : list (Z * list Z)) (s : Script) : Prop := entry s = 0 \/ entry_in its s.
Record gen_ok (its : list (Z * list Z)) (f : FileGen) : Prop := {
  go_code : g_code f = asm its;
  go_wf : code_wf 0 its;
  go_pool : pool_ok f;
  go_entries : Forall (entry_wf its) (g_scripts f) }.

Lemma finish_script_spec si entry_ sg b ret_ s :
  wp (finish_script unit_ file si entry_ sg b ret_) s (fun _ s' =>
    g_code s'.1 = g_code s.1 /\ consts s'.1 = consts s.1 /\ (pool_ok s.1 -> pool_ok s'.1) /\
    exists g, g_scripts s'.1 = alter g si (g_scripts s.1) /\ forall x, entry (g x) = entry_ /\ sc_name (g x) = sc_name x /\
      arity (g x) = length (params sg) /\ var_names (g x) = g_locals s.2 /\ forall t, ret_ = TyScalar t -> return_type (g x) = tag t).
Proof.
  destruct b as [stmts bp]. cbn [finish_script]. apply wp_bind.
  apply wp_mono with (Q := fun a s' => (quiet s s' /\ s'.2 = s.2) /\ forall t, ret_ = TyScalar t -> a = tag t).
  { pose proof (silent_tag ret_ bp s) as S. destruct ret_; try (eapply wp_mono; [exact S|]; by split). split; [exact S|]. by intros ? [= <-]. }
  intros t s1 [[Q1 R1] Ht].
  apply wp_bind. eapply wp_mono; [apply silent_collect; intros; apply silent_tag|]. intros ts s2 [Q2 R2]. apply wp_gets.
  destruct (quiet_trans _ _ _ Q1 Q2) as (E1 & _ & _ & E4 & E5 & E6 & _). unfold wp. cbn. split; [done|]. split; [done|].
  split; [unfold pool_ok; cbn; by rewrite E4, E5|]. rewrite E6. eexists. split; [reflexivity|]. intros x. cbn. rewrite R2, R1. by repeat split.
Qed.

Lemma entry_in_mono its its' s : entry_in its s -> entry_in (its ++ its') s.
Proof. intros (t & Ht & E). exists t. rewrite starts_app. split; [by apply elem_of_app; left|done]. Qed.
Lemma entry_wf_mono its its' s : entry_wf its s -> entry_wf (its ++ its') s.
Proof. intros [H|H]; [by left|]. right. by apply entry_in_mono. Qed.

(** The script a name stands for, among the scripts of the file. *)
Definition named (name : text) (ss : list Script) : option nat := position (fun s => eq_ignore_ascii_case (sc_name s) name) ss.
(** The [i]-th script starts at an instruction. *)
Definition entered (its : list (Z * list Z)) (ss : list Script) (i : nat) : Prop := forall s, ss !! i = Some s -> entry_in its s.
(** What a file gains: instructions, constants; scripts only change where [P]
    says, a script that starts at an instruction goes on doing so, and there is
    new code only when [P] holds somewhere. *)
Record gains (P : nat -> Prop) (its its' : list (Z * list Z)) (f f' : FileGen) : Prop := {
  ga_code : exists new, its' = its ++ new;
  ga_consts : consts f `prefix_of` consts f';
  ga_names : map sc_name (g_scripts f') = map sc_name (g_scripts f);
  ga_scripts i : ~ P i -> g_scripts f' !! i = g_scripts f !! i;
  ga_entered i : entered its (g_scripts f) i -> entered its' (g_scripts f') i;
  ga_new : its' = its \/ exists i, P i }.
Lemma gains_refl P its f : gains P its its f f.
Proof. split; [exists []; by rewrite app_nil_r|done|done|done|done|by left]. Qed.
Lemma gains_trans P i1 i2 i3 f1 f2 f3 : gains P i1 i2 f1 f2 -> gains P i2 i3 f2 f3 -> gains P i1 i3 f1 f3.
Proof.
  intros [[n1 ->] C1 N1 S1 T1 W1] [[n2 ->] C2 N2 S2 T2 W2]. split; [exists (n1 ++ n2); by rewrite app_assoc|by etrans|congruence| |by auto|].
  - intros i Hi. rewrite S2, S1 by done. done.
  - destruct W1 as [E1|]; [|by right]. destruct W2 as [E2|]; [|by right]. left. congruence.
Qed.
Lemma gains_weaken (P Q : nat -> Prop) its its' f f' : gains P its its' f f' -> (forall i, P i -> Q i) -> gains Q its its' f f'.
Proof. intros [????? W] H. split; [done..|auto|done|]. destruct W as [|[i Hi]]; [by left|right; eauto]. Qed.

Lemma script_spec name sg b f its f' :
  gen_ok its f -> script BUILTINS depth unit_ file name sg b f = Comp f' ->
  exists its', gen_ok its' f' /\ gains (fun i => named name (g_scripts f) = Some i) its its' f f' /\
    forall i, named name (g_scripts f) = Some i -> entered its' (g_scripts f') i.
Proof.
  intros [Hc Hw Hp He]. unfold script. fold (named name (g_scripts f)). destruct (named _ _) as [si|] eqn:En; [|intros [= <-]; exists its; split; [done|split; [apply gains_refl|done]]].
  set (ret_ := resolve_type _ _). set (s0 := (f, new_script_gen unit_ ret_)).
  assert (F : fresh s0).
  { split; [done|]. split; [done|]. split; [by split; constructor|]. split; [exact Hp|]. apply Forall_singleton, map_Forall_empty. }
  pose proof (script_body_spec si sg b s0 F) as B. unfold wp in B. unfold bind.
  destruct (script_body _ _ _ _ _ _ _ s0) as [[[] s1]| |]; [|done|done]. destruct B as (new & E1 & Hne & W & Hp1 & Hcs & Hs1).
  pose proof (finish_script_spec si (u32 (Z.of_nat (length (g_code f)))) sg b ret_ s1) as G. unfold wp in G.
  destruct (finish_script _ _ _ _ _ _ _ s1) as [[[] [f2 g2]]| |]; [|done|done]. destruct G as (E2 & Ec2 & Hp2 & g & Hs2 & Hg). cbn [fst snd] in *.
  intros [= <-]. exists (its ++ new). cbn [fst s0] in W, E1, Hcs, Hs1. rewrite Hc, length_asm in W.
  assert (Hsi : entered (its ++ new) (g_scripts f2) si).
  { intros x Hx. rewrite Hs2, Hs1, list_lookup_alter_eq in Hx. apply fmap_Some in Hx as (y & _ & ->). exists (length (g_code f)). destruct (Hg y) as [-> _]. split; [|done].
    rewrite starts_app, Hc, length_asm. apply elem_of_app. right. destruct new; [done|]. left. }
  assert (Hns : forall i, i <> si -> g_scripts f2 !! i = g_scripts f !! i) by (intros i Hi; rewrite Hs2, Hs1; by apply list_lookup_alter_ne).
  split; [|split; [|by intros i [= <-]]]; constructor.
  - by rewrite E2, E1, Hc, asm_app.
  - by apply code_wf_app.
  - auto.
  - apply List.Forall_forall. intros x (i & Hi)%list_elem_of_In%list_elem_of_lookup.
    destruct (decide (i = si)) as [->|Hi']; [right; by apply Hsi|]. rewrite Hns in Hi by done. apply entry_wf_mono.
    rewrite List.Forall_forall in He. apply He, list_elem_of_In. by eapply list_elem_of_lookup_2.
  - by exists new.
  - by rewrite Ec2.
  - rewrite Hs2, Hs1. apply list_eq. intros i. rewrite !list_lookup_fmap. destruct (decide (i = si)) as [->|Hi].
    + rewrite list_lookup_alter_eq. destruct (g_scripts f !! si) as [x|]; [|done]. cbn. by destruct (Hg x) as (_ & -> & _).
    + by rewrite list_lookup_alter_ne.
  - intros i Hi. apply Hns. by intros ->.
  - intros i Hi x Hx. destruct (decide (i = si)) as [->|Hd]; [by apply Hsi|]. rewrite Hns in Hx by done. by apply entry_in_mono, Hi.
  - right. by exists si.
Qed.

(** The script the generator compiles for an item of the file. *)
Definition script_of (fu : FileUnit) (it : Item) : option (text * ScriptSig * Block) :=
  match it with
  | IScript s => b ← body s; Some (sig_name (sig s), sig s, b)
  | IMain m => let name := entry_name (fu_path fu) in Some (name, mkScriptSig (m_ret m) (Some (m_type m)) name [] (m_pos m), m_body m)
  | _ => None
  end.
Lemma gen_item_script fu it f : u_files unit_ !! file = Some fu ->
  gen_item BUILTINS depth unit_ file it f =
  match script_of fu it with Some (name, sg, b) => script BUILTINS depth unit_ file name sg b f | None => Comp f end.
Proof. intros Hf. destruct it as [| | |x| |]; try done; cbn; [by destruct (body x)|by rewrite Hf]. Qed.
(** A script of [ss] that an item of [l] defines. *)
Definition redefined (fu : FileUnit) (l : list Item) (ss : list text) (i : nat) : Prop :=
  exists it name sg b, it ∈ l /\ script_of fu it = Some (name, sg, b) /\ position (fun n => eq_ignore_ascii_case n name) ss = Some i.
Lemma named_names name ss : named name ss = position (fun n => eq_ignore_ascii_case n name) (map sc_name ss).
Proof. unfold named. induction ss as [|s ss IH]; [done|]. cbn. by rewrite <- IH. Qed.

Lemma gen_items_spec fu l f its f' : u_files unit_ !! file = Some fu ->
  gen_ok its f -> gen_items BUILTINS depth unit_ file l f = Comp f' ->
  exists its', gen_ok its' f' /\ gains (redefined fu l (map sc_name (g_scripts f))) its its' f f' /\
    forall i, redefined fu l (map sc_name (g_scripts f)) i -> entered its' (g_scripts f') i.
Proof.
  intros Hf. revert f its. induction l as [|it l IH]; intros f its G; cbn [gen_items].
  { intros [= <-]. exists its. split; [done|split; [apply gains_refl|]]. intros i (it & ? & ? & ? & Hin & _). by apply elem_of_nil in Hin. }
  destruct (gen_item _ _ _ _ it f) as [f1| |] eqn:E; [|done|done]. intros H.
  set (names := map sc_name (g_scripts f)).
  assert (exists its1, gen_ok its1 f1 /\ gains (redefined fu (it :: l) names) its its1 f f1 /\ forall i, redefined fu [it] names i -> entered its1 (g_scripts f1) i)
    as (its1 & G1 & A1 & N1).
  { rewrite (gen_item_script fu) in E by done. destruct (script_of fu it) as [[[name sg] b]|] eqn:Es.
    2:{ injection E as <-. exists its. split; [done|split; [apply gains_refl|]]. intros i (it' & ? & ? & ? & ->%list_elem_of_singleton & Hit & _). congruence. }
    destruct (script_spec name sg b f its f1 G E) as (its1 & G1 & A1 & N1). exists its1. split; [done|]. split.
    - eapply gains_weaken; [exact A1|]. intros i Hi. exists it, name, sg, b. split; [left|]. split; [done|]. unfold names. by rewrite <- named_names.
    - intros i (it' & ? & ? & ? & ->%list_elem_of_singleton & Hit & Hi). simplify_eq. apply N1. by rewrite named_names. }
  destruct (IH f1 its1 G1 H) as (its' & G' & A' & N'). exists its'. split; [done|]. rewrite (ga_names _ _ _ _ _ A1) in A', N'. fold names in A', N'. split.
  - eapply gains_trans; [exact A1|]. eapply gains_weaken; [exact A'|]. intros i (it' & name & sg & b & Hin & Hr). exists it', name, sg, b. split; [by right|done].
  - intros i (it' & name & sg & b & Hin & Hr). apply elem_of_cons in Hin as [->|Hin].
    + apply (ga_entered _ _ _ _ _ A'), N1. exists it, name, sg, b. split; [left|done].
    + apply N'. by exists it', name, sg, b.
Qed.

(** The [i]-th script of the file has a body in it. *)
Definition bodied (fu : FileUnit) (i : nat) : Prop := redefined fu (items (fu_ast fu)) (script_names fu) i.
(** A file of compiled code with its scripts: one with a body starts at an
    instruction, one without at 0, and there is code only for a body. *)
Definition file_wf (fu : FileUnit) (sf : ScriptFile) : Prop :=
  exists its, code sf = asm its /\ code_wf 0 its /\ map sc_name (scripts sf) = script_names fu /\
    (forall i, bodied fu i -> entered its (scripts sf) i) /\
    (forall i s, ~ bodied fu i -> scripts sf !! i = Some s -> entry s = 0) /\
    Forall (entry_wf its) (scripts sf) /\ (its = [] \/ exists i, bodied fu i).

Lemma run_spec sf f :
  run BUILTINS depth unit_ file = Comp (sf, f) -> exists fu, u_files unit_ !! file = Some fu /\ file_wf fu sf.
Proof.
  unfold run. destruct (u_files unit_ !! file) as [fu|] eqn:Hfu; [|done]. destruct (gen_items _ _ _ _ _ _) as [f1| |] eqn:E; [|done|done].
  intros [= <- <-]. assert (G0 : gen_ok [] (mkFileGen [] [] [] [] [] (map blank_script (script_names fu)) [] 0)).
  { constructor; [done|apply code_wf_nil|constructor|]. apply Forall_map, List.Forall_forall. intros n _. by left. }
  destruct (gen_items_spec fu _ _ _ _ Hfu G0 E) as (its & [] & A & N). exists fu. split; [done|]. exists its. cbn [scripts code].
  assert (En : map sc_name (map blank_script (script_names fu)) = script_names fu) by (rewrite List.map_map; apply List.map_id).
  cbn [g_scripts] in A, N. rewrite En in A, N. do 2 (split; [done|]). split; [by rewrite (ga_names _ _ _ _ _ A)|]. split; [exact N|]. split; [|split; [done|]].
  - intros i s Hb Hs. rewrite (ga_scripts _ _ _ _ _ A i Hb) in Hs. cbn [g_scripts] in Hs. rewrite list_lookup_fmap in Hs.
    apply fmap_Some in Hs as (n & _ & ->). done.
  - destruct (ga_new _ _ _ _ _ A) as [->|]; [by left|by right].
Qed.
End Scripts.

(** ** Programs *)

Section Programs.
Context (BUILTINS : list BuiltinDecl) (depth : nat).
Hypothesis HB : Forall (fun d => is_u32 (bd_index d)) BUILTINS.

Lemma compile_files_spec unit_ fis p ds n p' ds' n' :
  compile_files BUILTINS depth unit_ fis p ds n = Comp (p', ds', n') ->
  exists new, files p' = files p ++ new /\ Forall2 (fun fi sf => exists fu, u_files unit_ !! fi = Some fu /\ file_wf fu sf) fis new.
Proof.
  revert p ds n. induction fis as [|fi fis IH]; intros p ds n; cbn [compile_files].
  { intros [= <- _ _]. exists []. rewrite app_nil_r. by split. }
  destruct (run _ _ _ _) as [[sf f]| |] eqn:E; [|done|done]. intros (new & -> & HF)%IH. exists (sf :: new). cbn. rewrite <- app_assoc. split; [done|].
  constructor; [|done]. by eapply run_spec.
Qed.

(** The refusal: one byte that is no instruction. *)
Definition refused (sf : ScriptFile) : Prop := code sf = [op.ERROR_TOKEN] /\ Forall (fun s => entry s = 0) (scripts sf).

Lemma set_walk_meta_files m p : files (set_walk_meta m p) = files p.
Proof. done. Qed.

Lemma Forall2_seq {A B} (P : A -> B -> Prop) (l : list A) k :
  Forall2 (fun i y => exists x, l !! i = Some x /\ P x y) (seq 0 (length l)) k -> Forall2 P l k.
Proof.
  intros HF. apply Forall2_same_length_lookup. pose proof (Forall2_length _ _ _ HF) as Hn. rewrite length_seq in Hn. split; [done|].
  intros i x y Hx Hy. eapply (Forall2_lookup_lr _ _ _ i i y) in HF as (x' & Hx' & Hp); [|apply lookup_seq; split; [done|by eapply lookup_lt_Some]|done].
  cbn in Hx'. by simplify_eq.
Qed.

Lemma compile_files_wf unit_ p ds st :
  compile BUILTINS depth unit_ = Comp (p, ds, st) ->
  length (files p) = length (u_files unit_) /\
  if existsb is_error (u_diags unit_ ++ ds) then Forall refused (files p) else Forall2 file_wf (u_files unit_) (files p).
Proof.
  unfold compile. destruct (compile_files _ _ _ _ _ _ _) as [[[p1 ds1] n1]| |] eqn:E; [|done|done].
  apply compile_files_spec in E as (new & En & HF%Forall2_seq). cbn in En.
  assert (length (files p1) = length (u_files unit_)) by (rewrite En; symmetry; by eapply Forall2_length). rewrite <- En in HF.
  intros [= <- <- <-]. destruct (existsb _ _).
  - cbn [files set_files]. rewrite length_map. split; [done|]. apply Forall_map, List.Forall_forall. intros sf _. split; [done|].
    cbn. apply Forall_map, List.Forall_forall. done.
  - destruct (compiler_walk_meta _ _); done.
Qed.
End Programs.

(** ** What the disassembler sees *)

#[export] Instance OperandKind_eq_dec : EqDecision OperandKind.
Proof. solve_decision. Defined.
(** The code offsets among the operands of an instruction. *)
Definition code_offsets (i : Insn) : list Z :=
  match decode (in_op i) with
  | Some d => map snd (filter (fun x => x.1 = KCodeOffset) (zip (od_operands d) (in_operands i)))
  | None => []
  end.
Definition offsets (insns : list Insn) : list Z := map (fun i => Z.of_nat (in_offset i)) insns.

Lemma listing_starts pc its : map in_offset (listing pc its) = starts pc its.
Proof. revert pc. induction its as [|[o ops] its IH]; intros pc; cbn; [done|]. by rewrite IH. Qed.

Lemma insn_wf_item ts it : insn_wf ts it -> item_ok it.
Proof.
  intros (Ho & _ & d & Hd & Hk). split; [done|]. split.
  - clear -Hk. induction Hk as [|k z ks zs [Hz _] _ IH]; by constructor.
  - apply encoded_len_operands. exists d. split; [done|]. symmetry. by eapply Forall2_length.
Qed.

Lemma listing_Forall (P : Insn -> Prop) pc its :
  (forall pc it, it ∈ its -> forall n, P (mkInsn pc it.1 n it.2 (insn_size it))) -> Forall P (listing pc its).
Proof.
  revert pc. induction its as [|[o ops] its IH]; intros pc HP; cbn; constructor.
  - apply (HP pc (o, ops)). left.
  - apply IH. intros pc' it Hit. apply HP. by right.
Qed.

Lemma last_listing pc its : in_op <$> last (listing pc its) = fst <$> last its.
Proof.
  revert pc. induction its as [|[o ops] [|it its] IH]; intros pc; [done|done|].
  cbn [listing]. destruct it as [o2 ops2]. rewrite !last_cons_cons. apply IH.
Qed.

Lemma starts_below base its t : t ∈ starts base its -> (t < base + asm_len its)%nat.
Proof.
  revert base. induction its as [|it its IH]; intros base; cbn [starts]; intros Ht; [by apply elem_of_nil in Ht|].
  change (asm_len (it :: its)) with (insn_size it + asm_len its)%nat. unfold insn_size in *.
  apply elem_of_cons in Ht as [->|Ht]; [lia|]. apply IH in Ht. lia.
Qed.

(** What a file of compiled code looks like to the disassembler, beside its
    source: no instruction when no script of it has a body, otherwise
    instructions of which the last is a return; no error token, and code offsets
    that are offsets of its instructions; its scripts in the order of the source,
    one with a body starting at an instruction and one without at 0. *)
Definition listed (fu : FileUnit) (sf : ScriptFile) : Prop := exists insns,
  disassemble (code sf) = Ok insns /\
  ((insns = [] /\ forall i, ~ bodied fu i) \/ (in_op <$> last insns = Some op.RETURN /\ exists i, bodied fu i)) /\
  Forall (fun i => in_op i <> op.ERROR_TOKEN /\ forall z, z ∈ code_offsets i -> z ∈ offsets insns) insns /\
  map sc_name (scripts sf) = script_names fu /\
  (forall i s, scripts sf !! i = Some s -> (bodied fu i -> entry s ∈ offsets insns) /\ (~ bodied fu i -> entry s = 0)).

Lemma offset_listed its t :
  Z.of_nat (asm_len its) <= 2 ^ 32 -> t ∈ starts 0 its -> u32 (Z.of_nat t) ∈ offsets (listing 0 its).
Proof.
  intros Hl Ht. pose proof (starts_below _ _ _ Ht). unfold u32, wrap_u. rewrite Z.mod_small by lia.
  unfold offsets. rewrite <- (listing_starts 0) in Ht. apply list_elem_of_fmap in Ht as (i & -> & Hi). apply list_elem_of_fmap. by exists i.
Qed.

(** A script with a body is a script of the file. *)
Lemma bodied_script fu sf i : map sc_name (scripts sf) = script_names fu -> bodied fu i -> is_Some (scripts sf !! i).
Proof.
  intros En (it & name & sg & b & _ & _ & Hp). apply position_Some in Hp as [(x & Hx & _) _]. rewrite <- En, list_lookup_fmap in Hx.
  destruct (scripts sf !! i); [done|discriminate].
Qed.
Lemma bodied_code fu sf its i : map sc_name (scripts sf) = script_names fu -> bodied fu i -> entered its (scripts sf) i -> its <> [].
Proof. intros En Hb He ->. destruct (bodied_script _ _ _ En Hb) as [s Hs]. destruct (He s Hs) as (t & Ht & _). by apply elem_of_nil in Ht. Qed.

Lemma file_wf_listed fu sf : file_wf fu sf -> Z.of_nat (length (code sf)) <= 2 ^ 32 -> listed fu sf.
Proof.
  intros (its & Ec & [Hw Hlast] & En & He & Hnb & _ & Hn) Hl. rewrite Ec, length_asm in Hl. exists (listing 0 its). rewrite Ec. split; [|split; [|split; [|split; [done|]]]].
  - unfold disassemble. apply (disassemble_loop_complete _ its [] []); [|lia]. eapply Forall_impl; [exact Hw|]. apply insn_wf_item.
  - destruct Hlast as [->|Hlast].
    + left. split; [done|]. intros i Hb. exact (bodied_code fu sf [] i En Hb (He i Hb) eq_refl).
    + right. rewrite last_listing, Hlast. split; [done|]. by destruct Hn as [->|].
  - apply listing_Forall. intros pc it Hit n. rewrite List.Forall_forall in Hw.
    destruct (Hw it) as (_ & H2 & d & Hd & Hk); [by apply list_elem_of_In|]. split; [done|]. cbn. unfold code_offsets. cbn. rewrite Hd.
    intros z ([k z'] & -> & [Hk' Hz]%list_elem_of_filter)%list_elem_of_fmap. cbn in *. subst k.
    assert (operand_wf (starts 0 its) KCodeOffset z') as [_ Hz'].
    { clear -Hk Hz. induction Hk as [|k z ks zs Hkz _ IH]; cbn in Hz; [by apply elem_of_nil in Hz|].
      apply elem_of_cons in Hz as [[= -> ->]|Hz]; [done|by apply IH]. }
    destruct (Hz' eq_refl) as (t & Ht & ->). by apply offset_listed.
  - intros i s Hs. split; [|by intros Hb; eapply Hnb]. intros Hb. destruct (He i Hb s Hs) as (t & Ht & ->). by apply offset_listed.
Qed.

(** (C11) What the compiler makes of the files of a source, once it returns a
    program: with an error among the diagnostics every file is the one-byte
    refusal with its entries at 0.  Without one, every file of at most 2^32
    bytes of code is [listed]: its code disassembles to the end, contains no
    error token, and every code offset in it is the offset of one of its
    instructions; its scripts are those of the source; when a script of it has a
    body the code ends in a return, every script with a body starts at an
    instruction and one without at 0; when none has (only declarations, labels
    or types), there is no code and the entries are 0. *)
Theorem compiled_code_listed BUILTINS depth unit_ p ds st :
  Forall (fun d => is_u32 (bd_index d)) BUILTINS ->
  compile BUILTINS depth unit_ = Comp (p, ds, st) ->
  length (files p) = length (u_files unit_) /\
  if existsb is_error (u_diags unit_ ++ ds) then Forall refused (files p)
  else Forall2 (fun fu sf => Z.of_nat (length (code sf)) <= 2 ^ 32 -> listed fu sf) (u_files unit_) (files p).
Proof.
  intros HB E. apply compile_files_wf in E as [El E]; [|done]. split; [done|]. destruct (existsb _ _); [done|].
  eapply Forall2_impl; [exact E|]. intros fu sf. apply file_wf_listed.
Qed.

(** Sources of one file, for the examples. *)
Module Demo.
Import (notations) String.
#[local] Open Scope string_scope.

Definition root : Path := mkPath true [str_text "t.bhs"].
Definition one_file (src : text) : FileSystem :=
  {| fs_is_file _ := false; fs_is_dir _ := false; fs_read_dir _ := None; fs_read _ := Ok src; fs_canonicalize p := Some p |}.
Definition no_unit : Unit := mkUnit [] [] ∅ [] [].
Definition unit_of (src : String.string) : Unit :=
  match @analyze (one_file (str_text src)) root (@default_include_path (one_file (str_text src))) with
  | Some (Ok u) => u
  | _ => no_unit
  end.
(** Loops, a switch and a call. *)
Definition sum : String.string :=
  "int twice(int n) { return n * 2; } int scenario { int i; int s = 0; for (i = 0; i < 5; i++) { if (i == 3) continue; s += i; } switch (s) { case 7: return twice(s); default: return 1; } }".
Definition broken : String.string := "int scenario { return nothing(1); }".
End Demo.

Lemma compiled_code_listed_witness : exists p ds st p' ds' st',
  compile [] 100 (Demo.unit_of Demo.sum) = Comp (p, ds, st) /\ Forall2 listed (u_files (Demo.unit_of Demo.sum)) (files p) /\
  compile [] 100 (Demo.unit_of Demo.broken) = Comp (p', ds', st') /\ Forall refused (files p').
Proof.
  assert (E : exists x, compile [] 100 (Demo.unit_of Demo.sum) = Comp x /\ existsb is_error (u_diags (Demo.unit_of Demo.sum) ++ x.1.2) = false
    /\ forallb (fun sf => Z.of_nat (length (code sf)) <=? 2 ^ 32) (files x.1.1) = true)
    by (eexists; split; [vm_compute; reflexivity|vm_compute; auto]).
  assert (E' : exists x, compile [] 100 (Demo.unit_of Demo.broken) = Comp x /\ existsb is_error (u_diags (Demo.unit_of Demo.broken) ++ x.1.2) = true)
    by (eexists; split; [vm_compute; reflexivity|vm_compute; auto]).
  destruct E as ([[p ds] st] & E & D & Hl), E' as ([[p' ds'] st'] & E' & D'). exists p, ds, st, p', ds', st'. split; [done|]. split; [|split; [done|]].
  - pose proof (compiled_code_listed [] 100 _ _ _ _ (List.Forall_nil _) E) as [_ W]. cbn [fst snd] in D. rewrite D in W.
    cbn [fst snd] in Hl. rewrite List.forallb_forall in Hl. apply Forall2_same_length_lookup in W as [Wl W]. apply Forall2_same_length_lookup. split; [exact Wl|].
    intros i fu sf Hi Hsf. apply (W i fu sf Hi Hsf), Z.leb_le, Hl, list_elem_of_In. by eapply list_elem_of_lookup_2.
  - pose proof (compiled_code_listed [] 100 _ _ _ _ (List.Forall_nil _) E') as [_ W]. cbn [fst snd] in D'. by rewrite D' in W.
Defined.
