(* ===== verification/CcRun.v ===== *)
(** * Compiled scripts on the machine

    The machine running a compiled program stays on the instructions the
    compiler laid out: every byte it decodes as an opcode is the start of an
    instruction, in every frame and whatever the host, the builtins and the
    arguments are.  The control state is the code and the entries of the
    program with the file and the offset of each frame; everything else a
    handler does leaves it as it was ([still]). *)

From S2P Require Import Prelude Loops NetText BhsOpcode BhsDisasm BhsStd BhsValue BhsOps BhsProgram BhsVm CcLex CcAst CcParse CcSema CcCodegen CcCodegenSpec CcCodeWf.
#[local] Open Scope list_scope.
#[local] Open Scope Z_scope.

(** The errors of a machine that has left the instructions of its program. *)
Definition derailed (e : VmError) : bool :=
  match e with BadOpcode _ | CodeOverrun _ => true | _ => false end.

Definition layout (p : Program) : list (bytes * list Z) := map (fun f => (code f, map entry (scripts f))) (files p).

Section Control.
Context {std : StdLib} {H : Type} {hst : Host H} (builtin : Z -> option BuiltinDecl) (depth : nat).
#[local] Abbreviation M := (@Vm.M H).
Implicit Type s : Vm H.

Definition view : Type := list (bytes * list Z) * list (Z * Z).
Definition ctl s : view := (layout (prog s), map (fun f => (fr_file f, bip f)) (frames s)).

(** From the control state [v], [c] keeps the layout, does not derail, and
    ends in a result and a control state that satisfy [Q]. *)
Definition cw {A} (v : view) (c : M A) (Q : A -> view -> Prop) : Prop :=
  forall s, ctl s = v ->
  match c s with
  | Comp (Ok a, s') => layout (prog s') = v.1 /\ Q a (ctl s')
  | Comp (Err e, s') => layout (prog s') = v.1 /\ derailed e = false
  | _ => True
  end.
(** A computation that leaves the control state alone. *)
Definition still {A} (c : M A) : Prop := forall v, cw v c (fun _ v' => v' = v).

Lemma cw_mono {A} v (c : M A) (P Q : A -> view -> Prop) :
  cw v c P -> (forall a v', v'.1 = v.1 -> P a v' -> Q a v') -> cw v c Q.
Proof.
  intros C HPQ s Es. specialize (C s Es). destruct (c s) as [[[a|e] s']| |]; [|done..]. destruct C as [C1 C2]. split; [done|].
  by apply HPQ.
Qed.
Lemma cw_bind {A B} v (c : M A) (k : A -> M B) P Q :
  cw v c P -> (forall a v', v'.1 = v.1 -> P a v' -> cw v' (k a) Q) -> cw v (Vm.bind c k) Q.
Proof.
  intros C K s Es. specialize (C s Es). unfold Vm.bind. destruct (c s) as [[[a|e] s']| |]; [|done..]. destruct C as [C1 C2].
  specialize (K a (ctl s') C1 C2 s' eq_refl). by rewrite <- C1.
Qed.
Lemma cw_step {A B} v (c : M A) (k : A -> M B) Q : still c -> (forall a, cw v (k a) Q) -> cw v (Vm.bind c k) Q.
Proof. intros C K. eapply cw_bind; [apply C|]. intros a v' _ ->. apply K. Qed.
Lemma cw_ret {A} v (a : A) (Q : A -> view -> Prop) : Q a v -> cw v (Vm.ret a) Q.
Proof. intros HQ s <-. by split. Qed.
Lemma cw_still {A} v (c : M A) (Q : A -> view -> Prop) : still c -> (forall a, Q a v) -> cw v c Q.
Proof. intros C HQ. eapply cw_mono; [apply C|]. intros a v' _ ->. apply HQ. Qed.

Lemma still_bind {A B} (c : M A) (k : A -> M B) : still c -> (forall a, still (k a)) -> still (Vm.bind c k).
Proof. intros C K v. apply cw_step; [done|]. intros a. apply K. Qed.
Lemma still_ret {A} (a : A) : still (Vm.ret a).
Proof. intros v. by apply cw_ret. Qed.
Lemma still_raise {A} e : derailed e = false -> still (@Vm.raise H A e).
Proof. intros He v s <-. by split. Qed.
Lemma still_panic {A} : still (@Vm.panic H A).
Proof. by intros v s Es. Qed.
Lemma still_gets {A} (f : Vm H -> A) : still (Vm.gets f).
Proof. intros v s <-. by split. Qed.
Lemma still_modify f : (forall s, ctl (f s) = ctl s) -> still (Vm.modify f).
Proof. intros Hf v s <-. pose proof (Hf s) as E. split; [by injection E|done]. Qed.
Lemma still_require {A} (o : option A) e : derailed e = false -> still (@Vm.require H A o e).
Proof. intros He. destruct o; [apply still_ret|by apply still_raise]. Qed.
Lemma still_unwrap {A} (o : option A) : still (@Vm.unwrap H A o).
Proof. destruct o; [apply still_ret|apply still_panic]. Qed.
Lemma still_state {A} (f : Vm H -> M A) : (forall s, still (f s)) -> still (fun s => f s s).
Proof. intros Hf v s Es. exact (Hf s v s Es). Qed.

Create HintDb still discriminated.
#[local] Hint Resolve still_ret still_panic still_gets still_require still_unwrap still_raise : still.
#[local] Hint Extern 1 (still (Vm.bind _ _)) => apply still_bind; [|intros ?] : still.
#[local] Hint Extern 1 (still (match ?x with _ => _ end)) => destruct x : still.
#[local] Hint Extern 1 (still (Vm.modify _)) => apply still_modify; done : still.
#[local] Hint Extern 1 (derailed _ = false) => reflexivity : still.
Ltac still := auto 30 with still nocore.

(** ** The machine's primitives *)

Lemma still_cur_frame : still (@Vm.cur_frame H).
Proof. apply (still_state (fun s => Vm.unwrap (last (frames s)))). still. Qed.
Lemma still_file_at file : still (@Vm.file_at H file).
Proof. apply (still_state (fun s => Vm.unwrap (get_z (files (prog s)) file))). still. Qed.
#[local] Hint Resolve still_cur_frame still_file_at : still.
Lemma still_script_at file script : still (@Vm.script_at H file script).
Proof. unfold Vm.script_at. still. Qed.
Lemma still_get_bip : still (@Vm.get_bip H).
Proof. unfold Vm.get_bip. still. Qed.
Lemma still_peek_op : still (@Vm.peek_op H).
Proof. unfold Vm.peek_op. still. Qed.
#[local] Hint Resolve still_script_at still_get_bip still_peek_op : still.
Lemma still_rte m a o : still (@Vm.rte H m a o).
Proof. by intros v s <-. Qed.
Lemma still_rte_op e a o : still (@Vm.rte_op H e a o).
Proof. by intros v s <-. Qed.
Lemma still_continue : still (@Vm.continue H).
Proof. apply still_ret. Qed.
#[local] Hint Resolve still_rte still_rte_op still_continue : still.
Lemma still_bind_ref r : still (@Vm.bind_ref H r).
Proof. unfold Vm.bind_ref. still. Qed.
Lemma deref_in_course n s x : match Vm.deref_in n s x with Comp (Err e) => derailed e = false | _ => True end.
Proof.
  revert x. induction n as [|n IH]; intros [w|[file i|file sc i|fr i]|c]; cbn [Vm.deref_in]; try done;
    try (by destruct (get_z (files (prog s)) file) as [sf|]; [destruct (get_z (const_pool sf) i)|]);
    try (by destruct (_ ≫= _) as [sc'|]; [destruct (get_z (statics sc') i)|]);
    destruct (Vm.local_at _ _ _); first [done|apply IH].
Qed.
Lemma still_deref x : still (@Vm.deref H depth x).
Proof.
  intros v s <-. unfold Vm.deref. pose proof (deref_in_course depth s x) as D.
  by destruct (Vm.deref_in depth s x) as [[w|e]| |].
Qed.
Lemma still_push x : still (@Vm.push H x).
Proof. unfold Vm.push. still. Qed.
Lemma still_pop : still (@Vm.pop H).
Proof. intros v s <-. unfold Vm.pop. by destruct (stack s). Qed.
#[local] Hint Resolve still_bind_ref still_deref still_push still_pop : still.
Lemma still_pop_value : still (@Vm.pop_value H depth).
Proof. unfold Vm.pop_value. still. Qed.
Lemma still_peek_value : still (@Vm.peek_value H depth).
Proof. unfold Vm.peek_value. still. Qed.
#[local] Hint Resolve still_pop_value still_peek_value : still.
Lemma still_operate lhs op rhs : still (Vm.operate depth lhs op rhs : M _).
Proof. intros v s <-. unfold Vm.operate. by destruct (do_operator _ _ _ _ _) as [[[]]|]. Qed.
Lemma still_alloc {A} f : still (@Vm.alloc H A f).
Proof. intros v s <-. unfold Vm.alloc. by destruct (f _) as [[]|]. Qed.
#[local] Hint Resolve still_operate still_alloc : still.

(** ** Storage *)

Lemma layout_update file script g p :
  (forall f sc, get_z (files p) file = Some f -> get_z (scripts f) script = Some sc -> entry (g sc) = entry sc) ->
  layout (set_files (update_z file (fun f => set_scripts (update_z script g (scripts f)) f) (files p)) p) = layout p.
Proof.
  intros Hg. unfold layout. cbn. unfold update_z at 1. destruct (get_z (files p) file) as [f|] eqn:Ef; [|done].
  pose proof Ef as [_ E]%get_z_Some. rewrite list_fmap_insert. apply list_insert_id. rewrite list_lookup_fmap, E. cbn. do 2 f_equal.
  unfold update_z. destruct (get_z (scripts f) script) as [sc|] eqn:Es; [|done].
  pose proof Es as [_ Es']%get_z_Some. rewrite list_fmap_insert, list_insert_id; [done|]. by rewrite list_lookup_fmap, Es', (Hg f).
Qed.
Lemma still_update_script file script g : (forall sc, entry (g sc) = entry sc) -> still (@Vm.update_script H file script g).
Proof. intros Hg. apply still_modify. intros s. unfold ctl. f_equal. by apply layout_update; auto. Qed.
Lemma still_update_sidecar file script g : still (@Vm.update_sidecar H file script g).
Proof. unfold Vm.update_sidecar. still. Qed.
#[local] Hint Extern 1 (still (Vm.update_script _ _ _)) => apply still_update_script; done : still.
#[local] Hint Resolve still_update_sidecar : still.

(** A change of the current frame that keeps its file. *)
Lemma last_split {A} (l : list A) x : last l = Some x -> exists l', l = l' ++ [x].
Proof. intros E. apply last_Some in E. exact E. Qed.
Lemma set_last_app (fs : list Frame) f g : Vm.set_last g (fs ++ [f]) = fs ++ [g].
Proof. unfold Vm.set_last. rewrite length_app. cbn. replace (length fs + 1 - 1)%nat with (length fs) by lia. by rewrite take_app_length. Qed.
Lemma still_set_cur s0 f f' v :
  last (frames s0) = Some f -> fr_file f' = fr_file f -> bip f' = bip f -> ctl s0 = v ->
  match Vm.set_cur f' s0 with Comp (_, s') => ctl s' = v | _ => True end.
Proof.
  intros E Ef Eb <-. apply last_split in E as [fs E]. unfold Vm.set_cur, Vm.modify, ctl. cbn.
  rewrite E, set_last_app, !map_app. cbn. by rewrite Ef, Eb.
Qed.
Lemma still_set_slot r x meta : still (@Vm.set_slot H depth r x meta).
Proof.
  unfold Vm.set_slot. destruct r as [i|i|i]; [| |]; try (still; fail).
  intros v s Es. unfold Vm.bind, Vm.cur_frame, Vm.unwrap. destruct (last (frames s)) as [f|] eqn:E; [|done]. cbn [Vm.ret].
  match goal with |- context [Vm.set_cur ?f' s] => pose proof (still_set_cur s f f' v E eq_refl eq_refl Es) as S end.
  cbn in S |- *. split; [|done]. by rewrite <- S.
Qed.
Lemma still_store_static file script i w : still (@Vm.store_static H file script i w).
Proof. unfold Vm.store_static. still. Qed.
Lemma map_alter_keep {A B} (g : A -> B) h i l : (forall x, g (h x) = g x) -> map g (alter h i l) = map g l.
Proof. intros Hg. revert i. induction l as [|x l IH]; intros [|i]; cbn; [done|done|by rewrite Hg|]. f_equal. apply IH. Qed.
Lemma still_store_in n x w : still (@Vm.store_in H n x w).
Proof.
  revert x. induction n as [|n IH]; intros [y|[file i|file sc i|fr i]|c]; cbn [Vm.store_in]; try (still; fail); try apply still_store_static.
  all: intros v s Es; destruct (Vm.local_at _ _ _) as [[y| |]|]; try (by apply IH); try done; try (by split; [rewrite <- Es|]).
  all: split; [by rewrite <- Es|]; rewrite <- Es; unfold ctl; f_equal; apply (map_alter_keep (fun f => (fr_file f, bip f))); done.
Qed.
#[local] Hint Resolve still_set_slot still_store_in : still.
Lemma still_store x w : still (@Vm.store H depth x w).
Proof. apply still_store_in. Qed.
#[local] Hint Resolve still_store : still.

Lemma trigger_entry f i sc : entry (update_trigger_byte f i sc) = entry sc.
Proof. unfold update_trigger_byte. by repeat case_match. Qed.
#[local] Hint Extern 1 (still (Vm.update_script _ _ _)) => apply still_update_script; intros; apply trigger_entry : still.
Lemma trigger_util_entry decl args sc v sc' : Vm.trigger_util_value decl args sc = Some (v, sc') -> entry sc' = entry sc.
Proof. unfold Vm.trigger_util_value. repeat case_match; intros; simplify_eq; done. Qed.
Lemma still_call_trigger_util decl args : still (Vm.call_trigger_util decl args : M _).
Proof.
  intros v s Es. unfold Vm.call_trigger_util. destruct (last (frames s)) as [f|]; [|by apply still_ret].
  unfold Vm.bind, Vm.script_at, Vm.file_at, Vm.bind, Vm.unwrap.
  destruct (get_z (files (prog s)) (fr_file f)) as [sf|] eqn:Ef; [|done]. cbn [Vm.ret].
  destruct (get_z (scripts sf) (fr_script f)) as [sc|] eqn:Esc; [|done]. cbn [Vm.ret].
  destruct (Vm.trigger_util_value decl args sc) as [[w sc']|] eqn:E; [|by apply still_ret]. apply trigger_util_entry in E.
  assert (layout (prog s) = v.1) as <- by (by rewrite <- Es). rewrite <- Es. unfold ctl. cbn. split; [|f_equal];
    (apply layout_update; intros f' sc1 E1 E2; congruence).
Qed.
Lemma still_pop_values n : still (@Vm.pop_values H depth n).
Proof. induction n; cbn [Vm.pop_values]; still. Qed.
Lemma still_pop_duplicates n : still (@Vm.pop_duplicates H depth n).
Proof. induction n; cbn [Vm.pop_duplicates]; still. Qed.
Lemma still_call_host decl args : still (Vm.call_host decl args : M _).
Proof. intros v s <-. unfold Vm.call_host. by destruct (host_call _ _ _ _) as [[[]]| |]. Qed.
Lemma still_push_ret decl v : still (@Vm.push_ret H decl v).
Proof. unfold Vm.push_ret. still. Qed.
#[local] Hint Resolve still_pop_values still_pop_duplicates still_call_host still_call_trigger_util still_push_ret : still.
Lemma still_call_builtin decl n : still (Vm.call_builtin depth decl n : M _).
Proof. unfold Vm.call_builtin. still. Qed.
Lemma still_push_element a i : still (@Vm.push_element H a i).
Proof. unfold Vm.push_element. still. Qed.
#[local] Hint Resolve still_call_builtin still_push_element : still.

(** ** Operands, jumps and calls *)

Lemma cw_push_frame v file script : cw v (Vm.push_frame file script) (fun _ v' =>
  exists c es e, get_z v.1 file = Some (c, es) /\ e ∈ es /\ v' = (v.1, v.2 ++ [(file, e)])).
Proof.
  intros s Es. unfold Vm.push_frame, Vm.bind, Vm.gets, Vm.require, Vm.lift. cbn [id].
  destruct (get_z (files (prog s)) file) as [sf|] eqn:Ef; [|by rewrite <- Es]. cbn [ok_or].
  destruct (get_z (scripts sf) script) as [sc|] eqn:Esc; [|by rewrite <- Es]. cbn [ok_or].
  subst v. destruct (_ <? _)%nat; [done|]. split; [done|]. apply get_z_Some in Ef as [Hf Ef]. apply get_z_Some in Esc as [_ Esc].
  exists (code sf), (map entry (scripts sf)), (entry sc). split; [|split].
  - apply get_z_Some. split; [done|]. cbn. unfold layout. by rewrite list_lookup_fmap, Ef.
  - apply list_elem_of_lookup. exists (Z.to_nat script). by rewrite list_lookup_fmap, Esc.
  - unfold ctl. cbn. by rewrite map_app.
Qed.

Section Code.
Context (L : list (bytes * list Z)) (fs : list (Z * Z)) (file : Z) (c : bytes) (es : list Z).
Hypothesis HL : get_z L file = Some (c, es).

(** The running frame is at [b]. *)
Definition at_ (b : Z) : view := (L, fs ++ [(file, b)]).

Lemma at_cur s b : ctl s = at_ b -> exists frs f sf,
  frames s = frs ++ [f] /\ fr_file f = file /\ bip f = b /\ map (fun f => (fr_file f, bip f)) frs = fs /\
  layout (prog s) = L /\ get_z (files (prog s)) file = Some sf /\ code sf = c.
Proof.
  intros [= E1 E2]. apply map_eq_app in E2 as (frs & l & E & Efs & E2). destruct l as [|f [|]]; try done. injection E2 as E3 E4.
  apply get_z_Some in HL as [Hz HL']. rewrite <- E1 in HL'. unfold layout in HL'.
  rewrite list_lookup_fmap in HL'. apply fmap_Some in HL' as (sf & Hsf & [= -> ->]).
  exists frs, f, sf. repeat split; try done. by apply get_z_Some.
Qed.

Ltac cur Es := let frs := fresh "frs" in let f := fresh "f" in let sf := fresh "sf" in
  apply at_cur in Es as (frs & f & sf & ? & Eff & Eb & ? & ? & Esf & Ec);
  unfold Vm.fetch_u8, Vm.peek_u32, Vm.peek_op, Vm.set_bip, Vm.get_bip, Vm.bind, Vm.cur_frame, Vm.file_at, Vm.unwrap;
  match goal with E : frames _ = _ |- _ => rewrite ?E, ?last_snoc end; cbn [Vm.ret]; rewrite ?Eff, ?Eb, ?Esf; cbn [Vm.ret]; rewrite ?Ec.

Lemma cw_set_bip b z : cw (at_ b) (Vm.set_bip z) (fun _ v => v = at_ z).
Proof.
  intros s Es. cur Es. cbn. split; [done|]. unfold ctl, at_. cbn. f_equal; [done|].
  match goal with E : frames _ = _ |- _ => rewrite E end. rewrite set_last_app, map_app. cbn. congruence.
Qed.
Lemma cw_get_bip b : cw (at_ b) Vm.get_bip (fun x v => x = b /\ v = at_ b).
Proof. intros s Es. pose proof Es as Es'. cur Es. by rewrite Es'. Qed.
Lemma cw_peek_u32 b a w : Vm.code_u32 c a = Some w -> cw (at_ b) (Vm.peek_u32 a) (fun x v => x = w /\ v = at_ b).
Proof. intros Hw s Es. pose proof Es as Es'. cur Es. unfold Vm.require, Vm.lift. cbn. rewrite Hw. cbn. by rewrite Es'. Qed.
Lemma cw_peek_op b : cw (at_ b) Vm.peek_op (fun x v => x = get_z c b /\ v = at_ b).
Proof. intros s Es. pose proof Es as Es'. cur Es. by rewrite Es'. Qed.
Lemma cw_fetch_u8 b x : get_z c b = Some x -> cw (at_ b) Vm.fetch_u8 (fun y v => y = x /\ v = at_ (b + 1)).
Proof.
  intros Hx s Es. cur Es. unfold Vm.require, Vm.lift. rewrite Hx. cbn. split; [done|]. split; [done|]. unfold ctl, at_. cbn. f_equal; [done|].
  match goal with E : frames _ = _ |- _ => rewrite E end. rewrite set_last_app, map_app. cbn. congruence.
Qed.
Lemma cw_fetch_u32 b w : Vm.code_u32 c b = Some w -> cw (at_ b) Vm.fetch_u32 (fun y v => y = w /\ v = at_ (b + 4)).
Proof.
  intros Hw. unfold Vm.fetch_u32. eapply cw_bind; [apply cw_get_bip|]. intros ? ? _ [-> ->].
  eapply cw_bind; [by apply cw_peek_u32|]. intros ? ? _ [-> ->]. eapply cw_bind; [apply cw_set_bip|]. intros [] ? _ ->. by apply cw_ret.
Qed.
Lemma cw_jump b taken t : Vm.code_u32 c b = Some t -> cw (at_ b) (Vm.jump_or_skip taken) (fun _ v => v = at_ (if taken : bool then t else b + 4)).
Proof.
  intros Hw. unfold Vm.jump_or_skip. eapply cw_bind; [apply cw_get_bip|]. intros ? ? _ [-> ->]. destruct taken; [|apply cw_set_bip].
  eapply cw_bind; [by apply cw_peek_u32|]. intros ? ? _ [-> ->]. apply cw_set_bip.
Qed.

(** ** Instructions *)

(** The step goes on from a control state in [T], or ends the run. *)
Definition goes (T : view -> Prop) (r : Step) (v : view) : Prop := r = Continue -> T v.

Lemma cw_continue v (T : view -> Prop) : T v -> cw v Vm.continue (goes T).
Proof. intros HT. apply cw_ret. by intros _. Qed.
Lemma cw_rte v T m a o : cw v (Vm.rte m a o) (goes T).
Proof. intros s <-. cbn. split; [done|]. by intros [=]. Qed.
Lemma cw_rte_op v T e a o : cw v (Vm.rte_op e a o) (goes T).
Proof. intros s <-. cbn. split; [done|]. by intros [=]. Qed.
Lemma cw_push_element v (T : view -> Prop) a i : T v -> cw v (Vm.push_element a i) (goes T).
Proof. intros HT. apply cw_still; [still|]. by intros r _. Qed.

(** A call leaves the caller after its operand. *)
Definition calls (z : Z) : view -> Prop := fun v => exists file' c' es' e,
  get_z L file' = Some (c', es') /\ e ∈ es' /\ v = (L, (fs ++ [(file, z)]) ++ [(file', e)]).
Lemma cw_call z file' script : cw (at_ z) (Vm.bind (Vm.push_frame file' script) (fun _ => Vm.continue)) (goes (calls z)).
Proof. eapply cw_bind; [apply cw_push_frame|]. intros ? ? _ (c' & es' & e & Hg & He & ->). apply cw_continue. by exists file', c', es', e. Qed.

(** Runs through a handler: fetches move on by a word, a jump takes its
    target or moves on, the rest is [still]. *)
Ltac walk := cbv zeta; repeat lazymatch goal with
  | |- cw _ (Vm.bind Vm.fetch_u32 _) _ => eapply cw_bind; [apply cw_fetch_u32; eassumption|]; intros ? ? _ [-> ->]
  | |- cw _ (Vm.bind Vm.peek_op _) _ => eapply cw_bind; [apply cw_peek_op|]; intros ? ? _ [-> ->]
  | |- cw _ (Vm.bind (Vm.jump_or_skip ?t) _) _ => eapply cw_bind; [apply (cw_jump _ t); eassumption|]; intros ? ? _ ->
  | |- cw _ (Vm.bind (Vm.push_frame _ _) _) _ => apply cw_call
  | |- cw _ (Vm.bind _ _) _ => apply cw_step; [by still|intros ?]
  | |- cw _ (match ?x with _ => _ end) _ => destruct x
  | |- cw _ Vm.continue _ => apply cw_continue
  | |- cw _ (Vm.rte _ _ _) _ => apply cw_rte
  | |- cw _ (Vm.rte_op _ _ _) _ => apply cw_rte_op
  | |- cw _ (Vm.push_element _ _) _ => apply cw_push_element
  end; try done.

Lemma cw_op_binary b here op : cw (at_ b) (Vm.op_binary depth here op) (goes (eq (at_ b))).
Proof. unfold Vm.op_binary. walk. Qed.
Lemma cw_op_unary b here op : cw (at_ b) (Vm.op_unary depth here op) (goes (eq (at_ b))).
Proof. unfold Vm.op_unary. walk. Qed.
Lemma cw_op_assign b here op : cw (at_ b) (Vm.op_assign depth here op) (goes (eq (at_ b))).
Proof. unfold Vm.op_assign. walk. Qed.
Lemma cw_op_cast_bool b : cw (at_ b) (Vm.op_cast_bool depth) (goes (eq (at_ b))).
Proof. unfold Vm.op_cast_bool. walk. Qed.
Lemma cw_op_push_array_index b here op : cw (at_ b) (Vm.op_push_array_index depth here op) (goes (eq (at_ b))).
Proof. unfold Vm.op_push_array_index. walk. Qed.
Lemma cw_op_create_array_index b here op : cw (at_ b) (Vm.op_create_array_index depth here op) (goes (eq (at_ b))).
Proof. unfold Vm.op_create_array_index. walk. Qed.
Lemma cw_op_push_array_length b here op : cw (at_ b) (Vm.op_push_array_length depth here op) (goes (eq (at_ b))).
Proof. unfold Vm.op_push_array_length. walk. Qed.
Lemma cw_op_set_array_length b here op : cw (at_ b) (Vm.op_set_array_length depth here op) (goes (eq (at_ b))).
Proof. unfold Vm.op_set_array_length. walk. Qed.
Lemma cw_pop b : cw (at_ b) (Vm.bind Vm.pop (fun _ => Vm.continue)) (goes (eq (at_ b))).
Proof. walk. Qed.

(** An increment swallows a [POP] that follows it. *)
Lemma cw_op_step_var b post here op :
  cw (at_ b) (Vm.op_step_var depth post here op) (goes (fun v => v = at_ (if bool_decide (get_z c b = Some OP_POP) then b + 1 else b))).
Proof.
  unfold Vm.op_step_var. walk.
  destruct (bool_decide _); [|by walk]. eapply (cw_bind _ _ _ (fun _ v => v = at_ (b + 1))); [|intros ? ? _ ->; by apply cw_continue].
  eapply cw_bind; [apply cw_get_bip|]. intros ? ? _ [-> ->]. apply cw_set_bip.
Qed.

Section OneWord.
Context (b w : Z) (Hw : Vm.code_u32 c b = Some w).
Lemma cw_op_push : cw (at_ b) (Vm.op_push depth) (goes (eq (at_ (b + 4)))).
Proof. unfold Vm.op_push. walk. Qed.
Lemma cw_op_init_copy : cw (at_ b) (Vm.op_init_copy depth) (goes (eq (at_ (b + 4)))).
Proof. unfold Vm.op_init_copy. walk. Qed.
Lemma cw_op_init : cw (at_ b) (Vm.op_init depth) (goes (eq (at_ (b + 4)))).
Proof. unfold Vm.op_init. walk. Qed.
Lemma cw_op_cast : cw (at_ b) (Vm.op_cast depth) (goes (eq (at_ (b + 4)))).
Proof. unfold Vm.op_cast. walk. Qed.
Lemma cw_op_create_simple : cw (at_ b) Vm.op_create_simple (goes (eq (at_ (b + 4)))).
Proof. unfold Vm.op_create_simple. walk. Qed.
Lemma cw_op_create_array : cw (at_ b) (Vm.op_create_array depth) (goes (eq (at_ (b + 4)))).
Proof. unfold Vm.op_create_array. walk. Qed.
Lemma cw_op_create_array_dyn here op : cw (at_ b) (Vm.op_create_array_dyn depth here op) (goes (eq (at_ (b + 4)))).
Proof. unfold Vm.op_create_array_dyn. walk. Qed.
Lemma cw_op_push_struct_field here op : cw (at_ b) (Vm.op_push_struct_field depth here op) (goes (eq (at_ (b + 4)))).
Proof. unfold Vm.op_push_struct_field. walk. Qed.
Lemma cw_op_call_game : cw (at_ b) (Vm.op_call_game builtin depth) (goes (eq (at_ (b + 4)))).
Proof. unfold Vm.op_call_game. walk. Qed.
Lemma cw_op_bit_set : cw (at_ b) Vm.op_bit_set (goes (eq (at_ (b + 4)))).
Proof. unfold Vm.op_bit_set. walk. Qed.
Lemma cw_op_bit_unset : cw (at_ b) Vm.op_bit_unset (goes (eq (at_ (b + 4)))).
Proof. unfold Vm.op_bit_unset. walk. Qed.
Lemma cw_op_line : cw (at_ b) (Vm.bind Vm.fetch_u32 (fun _ => Vm.continue)) (goes (eq (at_ (b + 4)))).
Proof. walk. Qed.


(** A jump goes to its target, or on. *)
Definition jumps (w z : Z) : view -> Prop := fun v => v = at_ w \/ v = at_ z.
Lemma jumps_if (t : bool) z : jumps w z (at_ (if t then w else z)).
Proof. destruct t; [by left|by right]. Qed.
Lemma cw_op_jump : cw (at_ b) Vm.op_jump (goes (jumps w (b + 4))).
Proof. unfold Vm.op_jump. walk. eapply cw_bind; [apply cw_set_bip|]. intros ? ? _ ->. apply cw_continue. by left. Qed.
Lemma cw_op_jump_if : cw (at_ b) (Vm.op_jump_if depth) (goes (jumps w (b + 4))).
Proof. unfold Vm.op_jump_if. walk. apply jumps_if. Qed.
Lemma cw_op_jump_if_not : cw (at_ b) (Vm.op_jump_if_not depth) (goes (jumps w (b + 4))).
Proof. unfold Vm.op_jump_if_not. walk. apply jumps_if. Qed.
Lemma cw_op_jump_sc test : cw (at_ b) (Vm.op_jump_sc depth test) (goes (jumps w (b + 4))).
Proof. unfold Vm.op_jump_sc. walk. apply jumps_if. Qed.

Lemma cw_op_call : cw (at_ b) Vm.op_call (goes (calls (b + 4))).
Proof. unfold Vm.op_call. walk. Qed.

Section TwoWords.
Context (w2 : Z) (Hw2 : Vm.code_u32 c (b + 4) = Some w2).
Lemma cw_op_create_struct : cw (at_ b) (Vm.op_create_struct depth) (goes (eq (at_ (b + 4 + 4)))).
Proof. unfold Vm.op_create_struct. walk. Qed.
Lemma cw_op_create_array_initer here op : cw (at_ b) (Vm.op_create_array_initer depth here op) (goes (eq (at_ (b + 4 + 4)))).
Proof. unfold Vm.op_create_array_initer. walk. Qed.
Lemma cw_op_call_game_varied : cw (at_ b) (Vm.op_call_game_varied builtin depth) (goes (eq (at_ (b + 4 + 4)))).
Proof. unfold Vm.op_call_game_varied. walk. Qed.
Lemma cw_op_call_include : cw (at_ b) Vm.op_call_include (goes (calls (b + 4 + 4))).
Proof. unfold Vm.op_call_include. walk. Qed.
End TwoWords.
End OneWord.

Section Guards.
Context (b w w2 : Z) (Hw : Vm.code_u32 c b = Some w) (Hw2 : Vm.code_u32 c (b + 4) = Some w2).
Lemma cw_op_case here op : cw (at_ b) (Vm.op_case depth here op) (goes (jumps w2 (b + 4 + 4))).
Proof. unfold Vm.op_case. walk; apply jumps_if. Qed.
Lemma cw_op_jump_if_inited : cw (at_ b) Vm.op_jump_if_inited (goes (jumps w2 (b + 4 + 4))).
Proof. unfold Vm.op_jump_if_inited. walk. apply jumps_if. Qed.
Lemma cw_op_jump_if_bitset : cw (at_ b) Vm.op_jump_if_bitset (goes (jumps w2 (b + 4 + 4))).
Proof. unfold Vm.op_jump_if_bitset. walk. apply jumps_if. Qed.
End Guards.

(** A return drops the frame. *)
Lemma cw_close_frame b : cw (at_ b) (Vm.close_frame depth) (goes (eq (L, fs))).
Proof.
  intros s Es. apply at_cur in Es as (frs & f & sf & E & _ & _ & Efs & El & _).
  unfold Vm.close_frame. unfold Vm.bind at 1, Vm.gets at 1. cbn [id]. unfold Vm.bind at 1. rewrite E, last_snoc. cbn [Vm.unwrap Vm.ret].
  unfold Vm.bind at 1, Vm.modify at 1. set (s1 := Vm.set_frames _ s).
  assert (E1 : ctl s1 = (L, fs)).
  { unfold ctl, s1. cbn. rewrite El, E, length_app. cbn. replace (length frs + 1 - 1)%nat with (length frs) by lia. by rewrite take_app_length, Efs. }
  refine ((_ : cw (L, fs) _ (goes (eq (L, fs)))) s1 E1). walk; by apply cw_ret.
Qed.
Lemma cw_op_return b : cw (at_ b) (Vm.op_return depth) (goes (eq (L, fs))).
Proof. unfold Vm.op_return. walk. apply cw_close_frame. Qed.
End Code.

(** ** Steps *)

(** The offset of an instruction. *)
Definition lands (its : list (Z * list Z)) (z : Z) : Prop := exists t, t ∈ starts 0 its /\ z = Z.of_nat t.

Lemma starts_split base its t :
  t ∈ starts base its -> exists a it r, its = a ++ it :: r /\ t = (base + asm_len a)%nat.
Proof.
  revert base. induction its as [|it its IH]; intros base; cbn [starts]; intros Ht; [by apply elem_of_nil in Ht|].
  apply elem_of_cons in Ht as [->|Ht]; [by exists [], it, its; rewrite Nat.add_0_r|].
  destruct (IH _ Ht) as (a & it' & r & -> & ->). exists (it :: a), it', r. split; [done|].
  change (asm_len (it :: a)) with (insn_size it + asm_len a)%nat. lia.
Qed.
Lemma lands_app a it r : lands (a ++ it :: r) (Z.of_nat (asm_len a)).
Proof. exists (asm_len a). split; [|done]. rewrite starts_app. apply elem_of_app. right. left. Qed.
Lemma asm_len_app a r : asm_len (a ++ r) = (asm_len a + asm_len r)%nat.
Proof. by rewrite <- !length_asm, asm_app, length_app. Qed.

(** What the machine reads at an instruction. *)
Lemma code_op a op ops r : get_z (asm (a ++ (op, ops) :: r)) (Z.of_nat (asm_len a)) = Some op.
Proof. by rewrite get_z_nat, asm_app, <- length_asm, lookup_app_r, Nat.sub_diag by lia. Qed.
Lemma code_operand a op ops r i w :
  Forall is_u32 ops -> ops !! i = Some w ->
  Vm.code_u32 (asm (a ++ (op, ops) :: r)) (Z.of_nat (asm_len a) + 1 + 4 * Z.of_nat i) = Some w.
Proof.
  intros Hops Hi. pose proof (lookup_lt_Some _ _ _ Hi) as Hl. unfold Vm.code_u32. rewrite length_asm, asm_len_app.
  change (asm_len ((op, ops) :: r)) with (1 + 4 * length ops + asm_len r)%nat.
  destruct (Z.leb_spec 0 (Z.of_nat (asm_len a) + 1 + 4 * Z.of_nat i)); [|lia]. cbn [andb].
  destruct (Z.leb_spec (Z.of_nat (asm_len a) + 1 + 4 * Z.of_nat i + 4) (Z.of_nat (asm_len a + (1 + 4 * length ops + asm_len r)))); [|lia].
  f_equal. rewrite asm_app. change (asm ((op, ops) :: r)) with ([op] ++ flat_map (to_le 4) ops ++ asm r).
  pose proof (operands_written (asm a ++ [op]) ops (asm r) _ eq_refl Hops) as W. rewrite <- app_assoc in W.
  apply (f_equal (fun l => l !! i)) in W. rewrite list_lookup_fmap, lookup_seq_lt in W by done. rewrite Hi in W. cbn in W.
  injection W as W. rewrite length_app, length_asm in W. cbn in W. rewrite <- W. f_equal. lia.
Qed.

(** The next instruction, unless this one is the last return. *)
Lemma next_lands a op ops r :
  code_wf 0 (a ++ (op, ops) :: r) -> op <> op.RETURN ->
  lands (a ++ (op, ops) :: r) (Z.of_nat (asm_len a) + 1 + 4 * Z.of_nat (length ops)) /\ r <> [].
Proof.
  intros [_ [E|E]] Hop; [by destruct a|]. destruct r as [|it r'].
  { rewrite last_snoc in E. by injection E. }
  split; [|done]. replace (a ++ (op, ops) :: it :: r') with ((a ++ [(op, ops)]) ++ it :: r') by (by rewrite <- app_assoc).
  replace (Z.of_nat (asm_len a) + 1 + 4 * Z.of_nat (length ops)) with (Z.of_nat (asm_len (a ++ [(op, ops)]))); [apply lands_app|].
  rewrite asm_len_app. unfold asm_len at 2. cbn. lia.
Qed.
Lemma insn_here a it r : code_wf 0 (a ++ it :: r) -> insn_wf (starts 0 (a ++ it :: r)) it.
Proof. intros [W _]. rewrite Forall_app in W. destruct W as [_ W]. by apply Forall_cons_1 in W as [W _]. Qed.
(** A [POP] that an increment swallows is not the last instruction. *)
Lemma pop_lands a op r :
  code_wf 0 (a ++ (op, []) :: r) -> op <> op.RETURN ->
  get_z (asm (a ++ (op, []) :: r)) (Z.of_nat (asm_len a) + 1) = Some OP_POP -> lands (a ++ (op, []) :: r) (Z.of_nat (asm_len a) + 1 + 1).
Proof.
  intros W Hop E. destruct (next_lands _ _ _ _ W Hop) as [_ Hr]. destruct r as [|[op2 ops2] r]; [done|].
  replace (a ++ (op, []) :: (op2, ops2) :: r) with ((a ++ [(op, [])]) ++ (op2, ops2) :: r) in * by (by rewrite <- app_assoc).
  assert (El : Z.of_nat (asm_len (a ++ [(op, [])])) = Z.of_nat (asm_len a) + 1) by (rewrite asm_len_app; unfold asm_len at 2; cbn; lia).
  rewrite <- El, code_op in E. injection E as ->. destruct (insn_here _ _ _ W) as (_ & _ & d & Hd & Hk). cbn in Hd. injection Hd as <-.
  cbn in Hk. apply Forall2_nil_inv_l in Hk. cbn in Hk. subst ops2.
  destruct (next_lands _ _ _ _ W) as [N _]; [done|]. rewrite El in N. cbn in N. by rewrite Z.add_0_r in N.
Qed.

Section Insn.
Context (L : list (bytes * list Z)) (fs : list (Z * Z)) (file : Z) (es : list Z) (a : list (Z * list Z)) (op : Z) (ops : list Z) (r : list (Z * list Z)).
#[local] Abbreviation its := (a ++ (op, ops) :: r).
Hypothesis HL : get_z L file = Some (asm its, es).
Hypothesis Hwf : code_wf 0 its.
Hypothesis Hsize : Z.of_nat (asm_len its) <= 2 ^ 32.

(** Where an instruction may leave the machine: at an instruction of the file,
    in a callee, or in the caller. *)
Definition course : view -> Prop := fun v => v = (L, fs) \/
  exists z, lands its z /\ (v = at_ L fs file z \/ calls L fs file z v).

Lemma target_lands k z : operand_wf (starts 0 its) k z -> k = KCodeOffset -> lands its z.
Proof.
  intros [_ Hk] E. destruct (Hk E) as (t & Ht & ->). exists t. split; [done|].
  apply starts_split in Ht as (a' & it & r' & Et & ->). unfold u32, wrap_u. apply Z.mod_small.
  rewrite Et, asm_len_app in Hsize. change (asm_len (it :: r')) with (insn_size it + asm_len r')%nat in Hsize. unfold insn_size in Hsize. lia.
Qed.


(** The places a handler leaves the machine in are on course. *)
Lemma course_next z : lands its z -> forall v, at_ L fs file z = v -> course v.
Proof. intros Hz v <-. right. exists z. auto. Qed.
Lemma course_jump w z : lands its w -> lands its z -> forall v, jumps L fs file w z v -> course v.
Proof. intros Hw Hz v [->| ->]; right; eauto. Qed.
Lemma course_call z : lands its z -> forall v, calls L fs file z v -> course v.
Proof. intros Hz v Hv. right. eauto. Qed.
Lemma course_return v : (L, fs) = v -> course v.
Proof. intros <-. by left. Qed.
Lemma course_step_var z b : lands its z -> (b = true -> lands its (z + 1)) -> forall v, v = at_ L fs file (if b : bool then z + 1 else z) -> course v.
Proof. intros Hz Hb v ->. right. destruct b; eauto. Qed.

End Insn.

Create HintDb course discriminated.
#[local] Hint Constants Opaque : course.
#[local] Hint Resolve cw_op_binary cw_op_unary cw_op_assign cw_op_cast_bool cw_op_push_array_index cw_op_create_array_index
  cw_op_push_array_length cw_op_set_array_length cw_pop cw_op_step_var cw_op_push cw_op_init_copy cw_op_init cw_op_cast
  cw_op_create_simple cw_op_create_array cw_op_create_array_dyn cw_op_push_struct_field cw_op_call_game cw_op_bit_set cw_op_bit_unset
  cw_op_line cw_op_jump cw_op_jump_if cw_op_jump_if_not cw_op_jump_sc cw_op_call cw_op_create_struct cw_op_create_array_initer
  cw_op_call_game_varied cw_op_call_include cw_op_case cw_op_jump_if_inited cw_op_jump_if_bitset cw_op_return : course.

Lemma cw_raise {A} v e (Q : A -> view -> Prop) : derailed e = false -> cw v (Vm.raise e) Q.
Proof. intros He s <-. by split. Qed.
Lemma cw_nop v : cw v Vm.continue (goes (eq v)).
Proof. by apply cw_continue. Qed.
#[local] Hint Resolve cw_nop : course.

(** The operands the table gives an opcode, the handler, and where it leads. *)
Ltac operands Hk := inv Hk; repeat match goal with F : Forall2 _ _ _ |- _ => inv F end.
Ltac execute :=
  unfold Vm.execute, Vm.is_assign, Vm.is_binary;
  cbn [Z.eqb Z.leb Z.compare Pos.eqb Pos.compare Pos.compare_cont orb andb CompOpp];
  first [by apply cw_raise|
  eapply cw_mono; [solve [eauto with course nocore]|];
  let rs := fresh in let v := fresh in let HT := fresh in let Hr := fresh in
  intros rs v _ HT Hr; specialize (HT Hr); clear Hr; revert v HT; cbv beta].
Ltac lead := first
  [ apply course_return
  | apply course_next | apply course_jump; [by eapply target_lands|] | apply course_call
  | apply course_step_var; [|intros ?%bool_decide_eq_true; by apply pop_lands] ].
Ltac next Hn := specialize (Hn ltac:(discriminate)); cbn [length] in Hn;
  lazymatch goal with |- lands _ ?z => lazymatch type of Hn with lands _ ?y => replace z with y by lia; exact Hn end end.

Lemma step_course L fs file es a op ops r :
  get_z L file = Some (asm (a ++ (op, ops) :: r), es) -> code_wf 0 (a ++ (op, ops) :: r) -> Z.of_nat (asm_len (a ++ (op, ops) :: r)) <= 2 ^ 32 ->
  cw (at_ L fs file (Z.of_nat (asm_len a))) (Vm.step builtin depth) (goes (course L fs file a op ops r)).
Proof.
  intros HL Hwf Hsize. set (its := a ++ (op, ops) :: r) in *.
  pose proof (insn_here _ _ _ Hwf) as (Ho & He & d & Hd & Hk). cbn [fst snd] in *.
  assert (Hu : Forall is_u32 ops). { clear -Hk. induction Hk as [|k z ks zs [Hz _] _ IH]; by constructor. }
  unfold Vm.step. eapply cw_bind; [eapply cw_get_bip; exact HL|]. intros ? ? _ [-> ->].
  eapply cw_bind; [eapply cw_fetch_u8; [exact HL|apply code_op]|]. intros ? ? _ [-> ->].
  assert (Hlt : op < OP_ERROR_TOKEN).
  { assert (op <= OP_ERROR_TOKEN) by (apply decode_valid; by eexists). unfold op.ERROR_TOKEN in He. change OP_ERROR_TOKEN with 0x48 in *. lia. }
  destruct (Z.leb_spec OP_ERROR_TOKEN op) as [|_]; [lia|].
  assert (Hin : op ∈ seqZ 0 72) by (apply elem_of_seqZ; change OP_ERROR_TOKEN with 72 in Hlt; unfold is_u8, in_u in Ho; lia).
  assert (Hn : op <> op.RETURN -> lands its (Z.of_nat (asm_len a) + 1 + 4 * Z.of_nat (length ops))) by (intros Hr; by apply next_lands).
  subst its.
  assert (Hw : forall w l, ops = w :: l -> Vm.code_u32 (asm (a ++ (op, ops) :: r)) (Z.of_nat (asm_len a) + 1) = Some w).
  { intros w l ->. pose proof (code_operand a op _ r 0 w Hu eq_refl) as W. by rewrite Z.add_0_r in W. }
  assert (Hw2 : forall w w2 l, ops = w :: w2 :: l -> Vm.code_u32 (asm (a ++ (op, ops) :: r)) (Z.of_nat (asm_len a) + 1 + 4) = Some w2).
  { intros w w2 l ->. exact (code_operand a op _ r 1 w2 Hu eq_refl). }
  apply list_elem_of_In in Hin. clear Hlt He Ho Hu. vm_compute in Hin.
  repeat (destruct Hin as [<-|Hin]); try done.
  all: vm_compute in Hd; injection Hd as <-; cbn [od_operands] in Hk; operands Hk.
  all: try specialize (Hw _ _ eq_refl); try specialize (Hw2 _ _ _ eq_refl); execute; lead; next Hn.
Qed.

(** ** Runs *)

Definition sized (its : list (Z * list Z)) : Prop := code_wf 0 its /\ Z.of_nat (asm_len its) <= 2 ^ 32.
(** An offset that is an instruction, or the start of no code at all. *)
Definition starts_at (its : list (Z * list Z)) (z : Z) : Prop := lands its z \/ (its = [] /\ z = 0).
(** A frame at such an offset of its file. *)
Definition on_insn (L : list (bytes * list Z)) (x : Z * Z) : Prop :=
  exists its es, get_z L x.1 = Some (asm its, es) /\ sized its /\ starts_at its x.2.
(** Files of well-formed code with their entries. *)
Definition laid (L : list (bytes * list Z)) : Prop :=
  Forall (fun x => exists its, x.1 = asm its /\ sized its /\ Forall (starts_at its) x.2) L.
Definition running (L : list (bytes * list Z)) (v : view) : Prop := v.1 = L /\ Forall (on_insn L) v.2.

Lemma laid_entry L file c es e : laid L -> get_z L file = Some (c, es) -> e ∈ es -> on_insn L (file, e).
Proof.
  intros HL E He. pose proof E as [_ E']%get_z_Some. apply (Forall_lookup_1 _ _ _ _ HL) in E' as (its & Ec & Hs & Hes).
  cbn in Ec, Hes. subst c. exists its, es. do 2 (split; [done|]). rewrite List.Forall_forall in Hes. by apply Hes, list_elem_of_In.
Qed.

(** The machine stands at the start of a file without code. *)
Definition codeless (L : list (bytes * list Z)) s : Prop :=
  exists fs file es, ctl s = (L, fs ++ [(file, 0)]) /\ get_z L file = Some ([], es).
(** The one way to derail: the end of the code of a file that has none. *)
Definition stop_ok (L : list (bytes * list Z)) (e : VmError) s : Prop := derailed e = true -> e = CodeOverrun 0 /\ codeless L s.

Lemma step_codeless L fs file es s : get_z L file = Some ([], es) -> ctl s = at_ L fs file 0 -> Vm.step builtin depth s = Comp (Err (CodeOverrun 0), s).
Proof.
  intros HL Es. destruct (at_cur L fs file [] es HL s 0 Es) as (frs & f & sf & Ef & Eff & Eb & _ & _ & Esf & Ec).
  unfold Vm.step, Vm.fetch_u8, Vm.get_bip, Vm.bind, Vm.cur_frame, Vm.file_at, Vm.unwrap. rewrite Ef, last_snoc. cbn [Vm.ret]. rewrite Ef, last_snoc. cbn [Vm.ret].
  rewrite Eff, Esf. cbn [Vm.ret]. rewrite Ec, Eb. done.
Qed.

(** One step of a machine on course, in code or at the start of none. *)
Lemma step_running L s : laid L -> running L (ctl s) -> frames s <> [] ->
  match Vm.step builtin depth s with
  | Comp (Ok rs, s') => layout (prog s') = L /\ (rs = Continue -> running L (ctl s'))
  | Comp (Err e, s') => layout (prog s') = L /\ stop_ok L e s'
  | _ => True
  end.
Proof.
  intros HL R Hne. destruct (ctl s) as [L' l] eqn:Es. destruct R as [E Hl]. cbn [fst snd] in *. subst L'.
  destruct (last l) as [[file z]|] eqn:E; [|apply last_None in E; subst l; injection Es as _ Es; by destruct (frames s)].
  apply last_Some in E as [fs ->]. apply Forall_app in Hl as [Hfs Hf]. apply Forall_singleton in Hf as (its & es & Hg & Hs & [(t & Ht & E)|[-> E]]); cbn in Hg, E; subst z.
  2:{ rewrite (step_codeless L fs file es s Hg Es). split; [by injection Es|]. intros _. split; [done|]. by exists fs, file, es. }
  apply starts_split in Ht as (a & [op ops] & r & -> & ->). destruct Hs as [Hwf Hsz]. cbn [Nat.add] in *.
  pose proof (step_course L fs file es a op ops r Hg Hwf Hsz s Es) as S. destruct (Vm.step builtin depth s) as [[[rs|e] s']| |]; [| |done..]; destruct S as [S1 S2].
  2:{ split; [done|]. intros De. by rewrite De in S2. }
  cbn in S1. split; [done|]. intros Hr. specialize (S2 Hr). split; [done|].
  destruct S2 as [->|(z & Hz & [->|(file' & c' & es' & e & Hg' & He & ->)])]; cbn; [done| |].
  - apply Forall_app. split; [done|]. apply Forall_singleton. exists (a ++ (op, ops) :: r), es. do 2 (split; [done|]). by left.
  - apply Forall_app. split; [apply Forall_app; split; [done|]|]; apply Forall_singleton.
    + exists (a ++ (op, ops) :: r), es. do 2 (split; [done|]). by left.
    + by eapply laid_entry.
Qed.

Definition run_course {A} (L : list (bytes * list Z)) (r : comp (result VmError A * Vm H)) : Prop :=
  match r with Comp (res, s') => layout (prog s') = L /\ forall e, res = Err e -> stop_ok L e s' | _ => True end.

Lemma run_body_course L before s :
  laid L -> running L (ctl s) ->
  match Vm.run_body builtin depth before s with inl s' => running L (ctl s') | inr r => run_course L r end.
Proof.
  intros HL R. unfold Vm.run_body. destruct (frames s) as [|f fs] eqn:Ef; [by destruct R; split|].
  destruct (_ <? _); [by destruct R; split; [|intros e [= <-]]|].
  assert (Hne : frames s <> []) by by rewrite Ef.
  pose proof (step_running L s HL R Hne) as S.
  destruct (Vm.step builtin depth s) as [[[[|e]|e] s']| |]; [| | |done..]; destruct S as [S1 S2].
  - by apply S2.
  - by split.
  - split; [done|]. by intros ? [= <-].
Qed.

Lemma run_loop_course L before s : laid L -> running L (ctl s) -> run_course L (Vm.run_loop builtin depth before s).
Proof.
  intros HL R. unfold Vm.run_loop.
  pose proof (iter_until_count (fun _ s => running L (ctl s)) (run_course L) (Vm.run_body builtin depth before)
    (Z.to_pos (budget s + 3)) (fun _ s => run_body_course L before s HL) 0 s R) as C.
  destruct (iter_until _ _ s) as [s'|r]; [|done]. destruct C as [C _]. split; [done|]. by intros e [= <-].
Qed.

Lemma run_script_course L s file script args :
  laid L -> layout (prog s) = L -> frames s = [] -> run_course L (Vm.run_script_index builtin depth file script args s).
Proof.
  intros HL El Ef. unfold Vm.run_script_index, Vm.run_script_slots, Vm.bind at 1 2 3, Vm.gets at 1, Vm.modify at 1 2.
  set (s1 := Vm.set_stack _ _). assert (E1 : ctl s1 = (L, [])) by (unfold ctl, s1; cbn; by rewrite El, Ef).
  pose proof (cw_push_frame _ file script s1 E1) as P. unfold Vm.bind at 1.
  destruct (Vm.push_frame file script s1) as [[[[]|e] s2]| |]; [| |done..]; destruct P as [P1 P2].
  2:{ split; [done|]. intros ? [= <-] De. by rewrite De in P2. }
  assert (R : running L (ctl s2)).
  { destruct P2 as (c & es & e & Hg & He & ->). split; [done|]. apply Forall_singleton. by eapply laid_entry. }
  pose proof (run_loop_course L (bytecodes_executed s) s2 HL R) as C. unfold Vm.bind at 1.
  destruct (Vm.run_loop _ _ _ s2) as [[[err|e] s3]| |]; [| |done..]; destruct C as [C1 C2]; split; try done.
  intros e' [= <-]. by apply C2.
Qed.
End Control.

(** The layout of a program compiled without errors. *)
Lemma compiled_laid us fs :
  Forall2 file_wf us fs -> Forall (fun sf => Z.of_nat (length (code sf)) <= 2 ^ 32) fs -> Forall (fun x => exists its, x.1 = asm its /\ sized its /\ Forall (starts_at its) x.2) (map (fun f => (code f, map entry (scripts f))) fs).
Proof.
  intros HF Hl. apply Forall_map. apply (Forall_lookup_2 _ _). intros i sf Hi. cbn.
  destruct (Forall2_lookup_r _ _ _ _ _ HF Hi) as (fu & _ & its & Ec & W & _ & _ & _ & He & _). apply (Forall_lookup_1 _ _ _ _ Hl) in Hi as Hsf.
  rewrite Ec, length_asm in Hsf. exists its. split; [done|]. split; [done|]. apply Forall_map. eapply Forall_impl; [exact He|]. intros sc [->|(t & Ht & ->)]; cbn.
  - destruct its as [|it its]; [by right|left]. by apply (lands_app [] it its).
  - left. exists t. split; [done|]. apply starts_below in Ht. unfold u32, wrap_u. rewrite Z.mod_small by lia. done.
Qed.

(** A machine at the start of a file without code is in a file of the source
    none of whose scripts has a body. *)
Lemma codeless_bodyless {H : Type} us p (s : Vm H) : Forall2 file_wf us (files p) -> codeless (layout p) s ->
  exists f fu, last (frames s) = Some f /\ bip f = 0 /\ us !! Z.to_nat (fr_file f) = Some fu /\ forall i, ~ bodied fu i.
Proof.
  intros HF (fs & file & es & [= El Ef] & Hg). apply map_eq_app in Ef as (frs & l & E & _ & E2). destruct l as [|f [|]]; try done. injection E2 as E3 E4.
  apply get_z_Some in Hg as [_ Hg]. unfold layout in Hg. rewrite list_lookup_fmap in Hg. apply fmap_Some in Hg as (sf & Hsf & [= Ec ->]).
  destruct (Forall2_lookup_r _ _ _ _ _ HF Hsf) as (fu & Hfu & its & Ec' & _ & En & He & _).
  exists f, fu. rewrite E, last_snoc, E3. do 3 (split; [done|]). intros i Hb. apply (bodied_code fu sf its i En Hb (He i Hb)).
  destruct its as [|it its]; [done|]. apply (f_equal length) in Ec'. rewrite <- Ec, length_asm in Ec'. change (asm_len (it :: its)) with (insn_size it + asm_len its)%nat in Ec'.
  unfold insn_size in Ec'. cbn in Ec'. lia.
Qed.

(** (C4) Whatever the host, the builtins, the arguments and the script started, a
    run of a program compiled without errors, of at most 2^32 bytes of code per
    file, on a machine that has no frame keeps the code and the entries and does
    not stop at a byte that is no opcode or past the end of the code, with one
    exception: it stops at offset 0 when the script started or called belongs to
    a file none of whose scripts has a body, which has no code.  The errors other
    than these two, the exhausted budget and the stack overflow remain
    possible. *)
Theorem compiled_run_on_course {std : StdLib} {H : Type} {hst : Host H} builtin depth BUILTINS depth' unit_ p ds st (s : Vm H) file script args :
  Forall (fun d => is_u32 (bd_index d)) BUILTINS ->
  compile BUILTINS depth' unit_ = Comp (p, ds, st) -> existsb is_error (u_diags unit_ ++ ds) = false ->
  Forall (fun sf => Z.of_nat (length (code sf)) <= 2 ^ 32) (files p) ->
  layout (prog s) = layout p -> frames s = [] ->
  match Vm.run_script_index builtin depth file script args s with
  | Comp (r, s') => layout (prog s') = layout p /\
      forall e, r = Err e -> derailed e = true ->
        e = CodeOverrun 0 /\ exists f fu, last (frames s') = Some f /\ bip f = 0 /\ u_files unit_ !! Z.to_nat (fr_file f) = Some fu /\ forall i, ~ bodied fu i
  | _ => True
  end.
Proof.
  intros HB E D Hf Hs Hfr. apply compile_files_wf in E as [_ E]; [|done]. rewrite D in E.
  pose proof (run_script_course builtin depth _ s file script args (compiled_laid _ _ E Hf) Hs Hfr) as C. unfold run_course in C.
  destruct (Vm.run_script_index builtin depth file script args s) as [[r s']| |]; [|done..]. destruct C as [C1 C2]. split; [done|].
  intros e Hr De. destruct (C2 e Hr De) as [-> C]. split; [done|]. by eapply codeless_bodyless.
Qed.

Import AsciiStd.
Lemma compiled_run_on_course_witness : exists p ds st out s',
  compile [] 100 (Demo.unit_of Demo.sum) = Comp (p, ds, st) /\
  Vm.run_script_index Example.no_builtins 8 0 1 [] (Vm.new p tt (mkHeap [] [])) = Comp (Ok out, s') /\
  ro_returned out = Some (VInt 14) /\ layout (prog s') = layout p.
Proof.
  assert (E : exists x y, compile [] 100 (Demo.unit_of Demo.sum) = Comp x /\
    Vm.run_script_index Example.no_builtins 8 0 1 [] (Vm.new x.1.1 tt (mkHeap [] [])) = Comp (Ok y.1, y.2) /\
    existsb is_error (u_diags (Demo.unit_of Demo.sum) ++ x.1.2) = false /\ ro_returned y.1 = Some (VInt 14) /\
    forallb (fun sf => Z.of_nat (length (code sf)) <=? 2 ^ 32) (files x.1.1) = true).
  { eexists _, (_, _). split; [vm_compute; reflexivity|]. split; [vm_compute; reflexivity|]. vm_compute. auto. }
  destruct E as ([[p ds] st] & [out s'] & E & Er & D & Ho & Hl). cbn [fst snd] in *. exists p, ds, st, out, s'. do 3 (split; [done|]).
  pose proof (compiled_run_on_course Example.no_builtins 8 [] 100 _ p ds st (Vm.new p tt (mkHeap [] [])) 0 1 [] (List.Forall_nil _) E D) as W.
  rewrite Er in W. apply W; [|done|done].
  apply List.Forall_forall. rewrite List.forallb_forall in Hl. intros sf Hsf. by apply Z.leb_le, Hl.
Defined.
