(* ===== verification/CcEval.v ===== *)
(** * The script language: what a scalar script means

    A reference semantics, independent of bytecode, for the scripts the
    correctness theorem of the compiler is about: expressions over integers,
    floats and strings without side effects; assignments and increments as
    statements; declarations of scalar locals; blocks, conditionals, loops,
    jumps out of them, and returns.  Names are compared without case and
    resolve to the innermost declaration, then to a label.

    [None] is outside the language (or out of fuel); an operator that fails
    gives the error it fails with. *)

From S2P Require Import Prelude NetText BhsStd BhsValue BhsOps CcLex CcAst CcSema.
From Stdlib Require String.
Import (notations) String.
#[local] Open Scope string_scope.
#[local] Open Scope list_scope.
#[local] Open Scope Z_scope.

(** ** Operators *)

Definition scalar_tag (v : Value) : Z := tag (ty v).

Section Operators.
Context {std : StdLib}.

Definition int_bin (p : P) (a b : Z) : option (result OpError Value) :=
  let sh := Z.land (u32 b) 31 in
  match p with
  | Eq => Some (Ok (vbool (a =? b)))
  | Ne => Some (Ok (vbool (negb (a =? b))))
  | Lt => Some (Ok (vbool (a <? b)))
  | Gt => Some (Ok (vbool (b <? a)))
  | Le => Some (Ok (vbool (a <=? b)))
  | Ge => Some (Ok (vbool (b <=? a)))
  | Plus => Some (Ok (VInt (i32 (a + b))))
  | Minus => Some (Ok (VInt (i32 (a - b))))
  | Star => Some (Ok (VInt (i32 (a * b))))
  | Slash => Some (if b =? 0 then Err DivideByZero else Ok (VInt (i32 (Z.quot a b))))
  | Percent => Some (if b =? 0 then Err DivideByZero else Ok (VInt (i32 (Z.rem a b))))
  | Pow => Some (Ok (VInt (i32_of_f32 (powf (f32_of_i32 a) (f32_of_i32 b)))))
  | Amp => Some (Ok (VInt (Z.land a b)))
  | Pipe => Some (Ok (VInt (Z.lor a b)))
  | Caret => Some (Ok (VInt (Z.lxor a b)))
  | Shl => Some (Ok (VInt (i32 (Z.shiftl a sh))))
  | Shr => Some (Ok (VInt (Z.shiftr a sh)))
  | _ => None
  end.
(** On a NaN the ordered comparisons of floats are "not the opposite". *)
Definition real_bin (p : P) (a b : f32) : option (result OpError Value) :=
  match p with
  | Eq => Some (Ok (vbool (SFeqb a b)))
  | Ne => Some (Ok (vbool (negb (SFeqb a b))))
  | Lt => Some (Ok (vbool (negb (SFltb b a) && negb (SFeqb b a))))
  | Gt => Some (Ok (vbool (negb (SFltb a b) && negb (SFeqb a b))))
  | Le => Some (Ok (vbool (SFleb a b)))
  | Ge => Some (Ok (vbool (SFleb b a)))
  | Plus => Some (Ok (VReal (f32_add a b)))
  | Minus => Some (Ok (VReal (f32_sub a b)))
  | Star => Some (Ok (VReal (f32_mul a b)))
  | Slash => Some (if SFeqb b f32_zero then Err DivideByZero else Ok (VReal (f32_div a b)))
  | Pow => Some (Ok (VReal (f32_trunc (powf a b))))
  | Percent | Amp | Pipe | Caret | Shl | Shr => Some (Err (BadOperand "opcode not defined for real"))
  | _ => None
  end.
Definition str_bin (p : P) (a b : text) : option (result OpError Value) :=
  let al := to_lowercase a in
  let bl := to_lowercase b in
  match p with
  | Eq => Some (Ok (vbool (bool_decide (al = bl))))
  | Ne => Some (Ok (vbool (negb (bool_decide (al = bl)))))
  | Lt => Some (Ok (vbool (text_lt al bl)))
  | Gt => Some (Ok (vbool (text_lt bl al)))
  | Le => Some (Ok (vbool (text_lt al bl || bool_decide (al = bl))))
  | Ge => Some (Ok (vbool (text_lt bl al || bool_decide (al = bl))))
  | Plus => Some (Ok (VStr (a ++ b)))
  | Minus | Star | Slash | Percent | Pow | Amp | Pipe | Caret | Shl | Shr =>
      Some (Err (BadOperand "opcode not defined for string"))
  | _ => None
  end.

(** Operands of different types are refused: nothing is converted. *)
Definition binop (p : P) (a b : Value) : option (result OpError Value) :=
  match a, b with
  | VInt x, VInt y => int_bin p x y
  | VReal x, VReal y => real_bin p x y
  | VStr x, VStr y => str_bin p x y
  | _, _ => Some (Err (TypeMismatch (scalar_tag a) (scalar_tag b)))
  end.

Definition no_rhs (kind : String.string) : OpError := BadOperand (String.append kind " binary opcode with no rhs").
Definition unop (p : P) (v : Value) : option (result OpError Value) :=
  match p, v with
  | Not, VInt a => Some (Ok (vbool (a <? 1)))
  | Not, VReal a => Some (Ok (vbool (SFleb a f32_zero)))
  | Not, VStr a => Some (Ok (vbool (bool_decide (a = []))))
  | Minus, VInt a => Some (Ok (VInt (i32 (- a))))
  | Minus, VReal a => Some (Ok (VReal (SFopp a)))
  | Tilde, VInt a => Some (Ok (VInt (Z.lnot a)))
  | Tilde, VReal _ => Some (Err (no_rhs "real"))
  | (Minus | Tilde), VStr _ => Some (Err (no_rhs "string"))
  | _, _ => None
  end.
Definition step_by_one (inc : bool) (v : Value) : result OpError Value :=
  match v with
  | VInt a => Ok (VInt (i32 (if inc then a + 1 else a - 1)))
  | VReal a => Ok (VReal (if inc then f32_add a f32_one else f32_sub a f32_one))
  | _ => Err (no_rhs "string")
  end.

(** What an assignment leaves in its target: the value itself, or the
    operator it abbreviates. *)
Definition base_op (p : P) : option P :=
  match p with
  | AddAssign => Some Plus | SubAssign => Some Minus | MulAssign => Some Star | DivAssign => Some Slash
  | ModAssign => Some Percent | PowAssign => Some Pow | LeftAssign => Some Shl | RightAssign => Some Shr
  | AndAssign => Some Amp | XorAssign => Some Caret | OrAssign => Some Pipe
  | _ => None
  end.
Definition assign_value (p : P) (cur v : Value) : option (result OpError Value) :=
  match p with
  | Assign => Some (if scalar_tag v =? scalar_tag cur then Ok v else Err (TypeMismatch (scalar_tag cur) (scalar_tag v)))
  | _ => b ← base_op p; binop b cur v
  end.

Definition cast_value (t : ScriptTy) (v : Value) : option Value :=
  match t with
  | TInt => Some (VInt (as_int v))
  | TReal => Some (VReal (as_real v))
  | TStr => match as_string v with Ok s => Some (VStr s) | Err _ => None end
  | _ => None
  end.
End Operators.

(** ** Environments *)

(** The scopes, innermost first; a variable has its declared type. *)
Definition env : Type := list (gmap text (Ty * Value)).

Fixpoint find_var (n : text) (e : env) : option (Ty * Value) :=
  match e with
  | [] => None
  | sc :: e => match sc !! map ascii_lower n with Some x => Some x | None => find_var n e end
  end.
Fixpoint set_var (n : text) (v : Value) (e : env) : env :=
  match e with
  | [] => []
  | sc :: e =>
      match sc !! map ascii_lower n with
      | Some (t, _) => <[map ascii_lower n := (t, v)]> sc :: e
      | None => sc :: set_var n v e
      end
  end.
Definition declare (n : text) (t : Ty) (v : Value) (e : env) : env :=
  match e with [] => [] | sc :: e => <[map ascii_lower n := (t, v)]> sc :: e end.

(** The scalar type a type name stands for. *)
Definition scalar_type (t : option TypeRef) : option ScriptTy :=
  match t with
  | None => Some TInt
  | Some t =>
      if array_depth t =? 0 then
        match scalar_from_name (t_name t) with Some TInt => Some TInt | Some TReal => Some TReal | Some TStr => Some TStr | _ => None end
      else None
  end.
Definition zero_value (t : ScriptTy) : Value := match t with TReal => VReal f32_zero | TStr => VStr [] | _ => VInt 0 end.

(** ** Expressions *)

Definition is_string (t : option Ty) : bool := match t with Some (TyScalar TStr) => true | _ => false end.

Section Eval.
Context {std : StdLib} (labels : gmap text Z).

(** The type of an expression as far as it is written down. *)
Fixpoint type_of (rho : env) (e : Expr) : option Ty :=
  match e with
  | EStr _ _ | ELocStr _ _ => Some (TyScalar TStr)
  | EInt _ _ => Some (TyScalar TInt)
  | EReal _ _ => Some (TyScalar TReal)
  | ECast t _ _ => TyScalar <$> scalar_type (Some t)
  | EBinary Plus l r _ => if is_string (type_of rho l) || is_string (type_of rho r) then Some (TyScalar TStr) else type_of rho l
  | EName n _ => fst <$> find_var n rho
  | _ => None
  end.

(** A value that meets a string on its left is written out. *)
Definition coerced (lt rt : option Ty) : bool := is_string lt && bool_decide (is_Some rt) && negb (is_string rt).
Definition coerce (lt rt : option Ty) (v : Value) : Value :=
  if coerced lt rt then default v (cast_value TStr v) else v.

Definition and_then {A B} (x : option (result OpError A)) (k : A -> option (result OpError B)) : option (result OpError B) :=
  match x with
  | Some (Ok a) => k a
  | Some (Err e) => Some (Err e)
  | None => None
  end.

Fixpoint eval (rho : env) (e : Expr) : option (result OpError Value) :=
  match e with
  | EInt v _ => Some (Ok (VInt (i32 v)))
  | EReal v _ => Some (Ok (VReal v))
  | EStr s _ | ELocStr s _ => Some (Ok (VStr s))
  | EName n _ =>
      match find_var n rho with
      | Some (_, v) => Some (Ok v)
      | None => (fun z => Ok (VInt (i32 z))) <$> labels !! n
      end
  | EUnary p e _ => and_then (eval rho e) (unop p)
  | ECast t e _ => and_then (eval rho e) (fun v => Ok <$> (t ← scalar_type (Some t); cast_value t v))
  | EBinary p l r _ =>
      and_then (eval rho l) (fun a =>
        match p with
        | AndAnd => if is_false a then Some (Ok (vbool false)) else and_then (eval rho r) (fun b => Some (Ok (vbool (is_true b))))
        | OrOr => if is_true a then Some (Ok (vbool true)) else and_then (eval rho r) (fun b => Some (Ok (vbool (is_true b))))
        | _ => and_then (eval rho r) (fun b => binop p a (coerce (type_of rho l) (type_of rho r) b))
        end)
  | _ => None
  end.

(** ** Statements *)

(** How a statement ends. *)
Inductive flow := FNext | FBreak | FContinue | FReturn (v : option Value).
Definition result_of : Type := option (result OpError (env * flow)).

(** An expression as a statement. *)
Definition perform (e : Expr) (rho : env) : option (result OpError env) :=
  match e with
  | EAssign p (EName n _) value _ =>
      and_then (eval rho value) (fun v =>
        match find_var n rho with
        | Some (_, cur) => and_then (assign_value p cur v) (fun w => Some (Ok (set_var n w rho)))
        | None => None
        end)
  | EPreIncDec inc (EName n _) _ | EPostIncDec inc (EName n _) _ =>
      match find_var n rho with
      | Some (_, cur) => and_then (Some (step_by_one inc cur)) (fun w => Some (Ok (set_var n w rho)))
      | None => None
      end
  | e => and_then (eval rho e) (fun _ => Some (Ok rho))
  end.

Definition declare_one (t : option TypeRef) (d : Declarator) (rho : env) : option (result OpError env) :=
  match scalar_type t, d_array d with
  | Some t, None =>
      match d_init d with
      | Some e => and_then (eval rho e) (fun v => Some (Ok (declare (d_name d) (TyScalar t) v rho)))
      | None => Some (Ok (declare (d_name d) (TyScalar t) (zero_value t) rho))
      end
  | _, _ => None
  end.
Fixpoint declare_all (t : option TypeRef) (ds : list Declarator) (rho : env) : option (result OpError env) :=
  match ds with
  | [] => Some (Ok rho)
  | d :: ds => and_then (declare_one t d rho) (declare_all t ds)
  end.

(** Statements in order, up to the first that does not fall through. *)
Definition in_order (ex : Stmt -> env -> result_of) : list Stmt -> env -> result_of :=
  fix go l rho :=
    match l with
    | [] => Some (Ok (rho, FNext))
    | x :: l => and_then (ex x rho) (fun '(rho, f) => match f with FNext => go l rho | _ => Some (Ok (rho, f)) end)
    end.
(** The innermost scope ends. *)
Definition leave (r : result_of) : result_of := and_then r (fun '(rho, f) => Some (Ok (tail rho, f))).

(** A loop whose condition is tested first, with what is done between two
    passes. *)
Fixpoint loop (fuel : nat) (cond : env -> option (result OpError bool)) (body : env -> result_of)
    (next : env -> option (result OpError env)) (rho : env) : result_of :=
  match fuel with
  | O => None
  | S fuel =>
      and_then (cond rho) (fun go =>
        if go : bool then
          and_then (body rho) (fun '(rho, f) =>
            match f with
            | FNext | FContinue => and_then (next rho) (loop fuel cond body next)
            | FBreak => Some (Ok (rho, FNext))
            | FReturn v => Some (Ok (rho, FReturn v))
            end)
        else Some (Ok (rho, FNext)))
  end.
(** The same with the condition tested last. *)
Fixpoint loop_last (fuel : nat) (cond : env -> option (result OpError bool)) (body : env -> result_of) (rho : env) : result_of :=
  match fuel with
  | O => None
  | S fuel =>
      and_then (body rho) (fun '(rho, f) =>
        match f with
        | FNext | FContinue =>
            and_then (cond rho) (fun go => if go : bool then loop_last fuel cond body rho else Some (Ok (rho, FNext)))
        | FBreak => Some (Ok (rho, FNext))
        | FReturn v => Some (Ok (rho, FReturn v))
        end)
  end.
Definition test (e : Expr) (rho : env) : option (result OpError bool) :=
  and_then (eval rho e) (fun v => Some (Ok (is_true v))).

Fixpoint exec (fuel : nat) (x : Stmt) (rho : env) : result_of :=
  match fuel with
  | O => None
  | S fuel =>
      match x with
      | SEmpty _ | SStruct _ => Some (Ok (rho, FNext))
      | SExpr e => and_then (perform e rho) (fun rho => Some (Ok (rho, FNext)))
      | SDecl d => if is_static d then None else and_then (declare_all (v_ty d) (decls d) rho) (fun rho => Some (Ok (rho, FNext)))
      | SBlock (mkBlock l _) => leave (in_order (exec fuel) l (∅ :: rho))
      | SIf c t e _ =>
          and_then (test c rho) (fun go =>
            if go : bool then exec fuel t rho
            else match e with Some e => exec fuel e rho | None => Some (Ok (rho, FNext)) end)
      | SWhile c b _ => loop fuel (test c) (exec fuel b) (fun rho => Some (Ok rho)) rho
      | SDoWhile b c _ => loop_last fuel (test c) (exec fuel b) rho
      | SFor init c st b _ =>
          leave (and_then (match init with Some i => exec fuel i (∅ :: rho) | None => Some (Ok (∅ :: rho, FNext)) end)
            (fun '(rho, f) =>
              match f with
              | FNext =>
                  loop fuel (match c with Some c => test c | None => fun _ => Some (Ok true) end) (exec fuel b)
                    (match st with Some e => perform e | None => fun rho => Some (Ok rho) end) rho
              | _ => None
              end))
      | SBreak _ => Some (Ok (rho, FBreak))
      | SContinue _ => Some (Ok (rho, FContinue))
      | SReturn (Some e) _ => and_then (eval rho e) (fun v => Some (Ok (rho, FReturn (Some v))))
      | SReturn None _ => Some (Ok (rho, FReturn None))
      | _ => None
      end
  end.

(** ** Scripts *)

(** The parameters, by value. *)
Fixpoint bind_params (ps : list Param) (args : list Value) (rho : env) : option env :=
  match ps, args with
  | [], [] => Some rho
  | p :: ps, v :: args =>
      t ← scalar_type (p_ty p);
      if by_ref p then None else bind_params ps args (declare (p_name p) (TyScalar t) v rho)
  | _, _ => None
  end.

(** What a script without a type, or of a scalar type or void, returns. *)
Definition returns_void (t : option TypeRef) : option bool :=
  match scalar_type t, t with
  | Some _, _ => Some false
  | None, Some r => if (array_depth r =? 0) && bool_decide (scalar_from_name (t_name r) = Some TVoid) then Some true else None
  | None, None => None
  end.
Definition default_return (t : option TypeRef) : option Value := zero_value <$> scalar_type t.

(** A script called with [args]: the value it returns, if it is not void. *)
Definition run_script (fuel : nat) (sg : ScriptSig) (stmts : list Stmt) (args : list Value) : option (result OpError (option Value)) :=
  void ← returns_void (ret sg);
  rho ← bind_params (params sg) args [∅];
  and_then (in_order (exec fuel) stmts rho) (fun '(_, f) =>
    match f with
    | FReturn (Some v) => if void : bool then None else Some (Ok (Some v))
    | FReturn None | FNext => Some (Ok (default_return (ret sg)))
    | FBreak | FContinue => None
    end).
End Eval.

(** ** More fuel changes no result *)

Definition below {A} (r r' : option (result OpError A)) : Prop := forall y, r = Some y -> r' = Some y.
Lemma below_then {A B} (r r' : option (result OpError A)) (k k' : A -> option (result OpError B)) :
  below r r' -> (forall a, below (k a) (k' a)) -> below (and_then r k) (and_then r' k').
Proof.
  intros Hr Hk y. destruct r as [[a|e]|]; cbn; [| |done].
  - rewrite (Hr _ eq_refl). apply Hk.
  - by rewrite (Hr _ eq_refl).
Qed.
Lemma below_refl {A} (r : option (result OpError A)) : below r r.
Proof. by intros y. Qed.
Lemma in_order_below (ex ex' : Stmt -> env -> result_of) l : (forall x rho, below (ex x rho) (ex' x rho)) -> forall rho, below (in_order ex l rho) (in_order ex' l rho).
Proof.
  intros H. induction l as [|x l IH]; intros rho; [apply below_refl|]. apply below_then; [apply H|]. intros [rho' f]. destruct f; [apply IH|apply below_refl..].
Qed.
Lemma loop_below n n' cond (body body' : env -> result_of) next : (n <= n')%nat -> (forall rho, below (body rho) (body' rho)) ->
  forall rho, below (loop n cond body next rho) (loop n' cond body' next rho).
Proof.
  intros Hn Hb. revert n' Hn. induction n as [|n IH]; intros [|n'] Hn rho; try (by intros y); [lia|]. cbn [loop].
  apply below_then; [apply below_refl|]. intros [|]; [|apply below_refl]. apply below_then; [apply Hb|]. intros [rho' f].
  assert (Hl : forall rho, below (loop n cond body next rho) (loop n' cond body' next rho)) by (intros; apply IH; lia).
  destruct f; try apply below_refl; (apply below_then; [apply below_refl|exact Hl]).
Qed.
Lemma loop_last_below n n' cond (body body' : env -> result_of) : (n <= n')%nat -> (forall rho, below (body rho) (body' rho)) ->
  forall rho, below (loop_last n cond body rho) (loop_last n' cond body' rho).
Proof.
  intros Hn Hb. revert n' Hn. induction n as [|n IH]; intros [|n'] Hn rho; try (by intros y); [lia|]. cbn [loop_last].
  apply below_then; [apply Hb|]. intros [rho' f].
  destruct f; try apply below_refl; (apply below_then; [apply below_refl|]); intros [|]; try apply below_refl; apply IH; lia.
Qed.
Lemma exec_below {std : StdLib} labels n : forall n', (n <= n')%nat -> forall x rho, below (exec labels n x rho) (exec labels n' x rho).
Proof.
  induction n as [|n IH]; intros [|n'] Hn x rho; try (by intros y); [lia|]. assert (IH' := IH n' ltac:(lia)).
  destruct x as [| | |[l q]|c t e p|c b p|b c p|i c s b p| | | | | | | |]; cbn [exec]; try apply below_refl.
  - apply below_then; [by apply in_order_below|]. intros [rho' f]. apply below_refl.
  - apply below_then; [apply below_refl|]. intros [|]; [apply IH'|]. destruct e; [apply IH'|apply below_refl].
  - apply loop_below; [lia|apply IH'].
  - apply loop_last_below; [lia|apply IH'].
  - apply below_then; [|intros [rho' f]; apply below_refl]. apply below_then; [destruct i; [apply IH'|apply below_refl]|].
    intros [rho' f]. destruct f; try apply below_refl. apply loop_below; [lia|apply IH'].
Qed.
(** A result is one for every larger fuel. *)
Lemma run_script_more {std : StdLib} labels n n' sg stmts args r :
  (n <= n')%nat -> run_script labels n sg stmts args = Some r -> run_script labels n' sg stmts args = Some r.
Proof.
  intros Hn. unfold run_script. destruct (returns_void (ret sg)); [|done]. destruct (bind_params (params sg) args [∅]) as [rho|]; [|done]. cbn [mbind option_bind].
  apply below_then; [|intros [rho' f]; apply below_refl]. apply in_order_below. by apply exec_below.
Qed.

(** ** The language the semantics covers *)

(** Names are declared before they are used, declarations stand directly in
    blocks (or open a [for]), and a declaration's initialiser does not mention
    the name it declares. *)
Section Language.
Context (labels : gmap text Z).

Definition scope : Type := list (gset text).
Definition in_scope (sc : scope) (n : text) : bool := existsb (fun s => bool_decide (map ascii_lower n ∈ s)) sc.

Definition is_binop (p : P) : bool :=
  match p with
  | Eq | Ne | Lt | Gt | Le | Ge | Plus | Minus | Star | Slash | Percent | Pow | Amp | Pipe | Caret | Shl | Shr => true
  | _ => false
  end.
Fixpoint ok_expr (known : text -> bool) (e : Expr) : bool :=
  match e with
  | EInt _ _ | EReal _ _ | EStr _ _ | ELocStr _ _ => true
  | EName n _ => known n
  | EUnary p e _ => match p with Not | Minus | Tilde => ok_expr known e | _ => false end
  | ECast t e _ => bool_decide (is_Some (scalar_type (Some t))) && ok_expr known e
  | EBinary p l r _ => (is_binop p || bool_decide (p = AndAnd) || bool_decide (p = OrOr)) && ok_expr known l && ok_expr known r
  | _ => false
  end.
Definition known (sc : scope) (n : text) : bool := in_scope sc n || bool_decide (is_Some (labels !! n)).

Definition ok_effect (sc : scope) (e : Expr) : bool :=
  match e with
  | EAssign p (EName n _) value _ =>
      (bool_decide (p = Assign) || bool_decide (is_Some (base_op p))) && in_scope sc n && ok_expr (known sc) value
  | EPreIncDec _ (EName n _) _ | EPostIncDec _ (EName n _) _ => in_scope sc n
  | e => ok_expr (known sc) e
  end.

Definition declares (n : text) (sc : scope) : scope :=
  match sc with [] => [] | s :: sc => ({[map ascii_lower n]} ∪ s) :: sc end.
Definition ok_declarator (t : option TypeRef) (sc : scope) (d : Declarator) : bool :=
  bool_decide (is_Some (scalar_type t)) && bool_decide (d_array d = None) &&
  match d_init d with
  | Some e => ok_expr (fun n => negb (bool_decide (map ascii_lower n = map ascii_lower (d_name d))) && known sc n) e
  | None => true
  end.
Fixpoint ok_declarators (t : option TypeRef) (sc : scope) (ds : list Declarator) : bool :=
  match ds with
  | [] => true
  | d :: ds => ok_declarator t sc d && ok_declarators t (declares (d_name d) sc) ds
  end.
Definition is_decl (x : Stmt) : bool := match x with SDecl _ => true | _ => false end.
(** The scope after a statement. *)
Definition scope_after (sc : scope) (x : Stmt) : scope :=
  match x with SDecl d => fold_left (fun sc d => declares (d_name d) sc) (decls d) sc | _ => sc end.

Definition ok_list (ok : scope -> Stmt -> bool) : scope -> list Stmt -> bool :=
  fix go sc l := match l with [] => true | x :: l => ok sc x && go (scope_after sc x) l end.
Fixpoint ok_stmt (sc : scope) (x : Stmt) : bool :=
  match x with
  | SEmpty _ | SStruct _ | SBreak _ | SContinue _ | SReturn None _ => true
  | SExpr e => ok_effect sc e
  | SDecl d => negb (is_static d) && ok_declarators (v_ty d) sc (decls d)
  | SBlock (mkBlock l _) => ok_list ok_stmt (∅ :: sc) l
  | SIf c t e _ =>
      ok_expr (known sc) c && negb (is_decl t) && ok_stmt sc t &&
      match e with Some e => negb (is_decl e) && ok_stmt sc e | None => true end
  | SWhile c b _ | SDoWhile b c _ => ok_expr (known sc) c && negb (is_decl b) && ok_stmt sc b
  | SFor init c st b _ =>
      match init with Some i => ok_stmt (∅ :: sc) i | None => true end &&
      (let sc := match init with Some i => scope_after (∅ :: sc) i | None => ∅ :: sc end in
       match c with Some c => ok_expr (known sc) c | None => true end &&
       match st with Some e => ok_effect sc e | None => true end &&
       negb (is_decl b) && ok_stmt sc b)
  | SReturn (Some e) _ => ok_expr (known sc) e
  | _ => false
  end.
Definition ok_params (ps : list Param) : bool :=
  forallb (fun p => negb (by_ref p) && bool_decide (is_Some (scalar_type (p_ty p)))) ps.
Definition ok_script (sg : ScriptSig) (stmts : list Stmt) : bool :=
  ok_params (params sg) && bool_decide (is_Some (returns_void (ret sg))) &&
  ok_list ok_stmt (fold_left (fun sc p => declares (p_name p) sc) (params sg) [∅]) stmts.
End Language.
