(* ===== verification/CcMachine.v ===== *)
(** * The machine on the code of one frame

    What the handlers of the machine do to the running frame when they are
    used on scalars: the offset, the locals and the operands of a frame are a
    configuration, and each lemma gives the configuration an instruction leads
    to ([step1]) or that it stops the run with a diagnostic ([stops]). *)

From S2P Require Import Prelude Loops NetText BhsOpcode BhsDisasm BhsStd BhsValue BhsOps BhsProgram BhsVm CcLex CcAst CcParse CcSema CcCodegen CcRun CcEval.
#[local] Open Scope list_scope.
#[local] Open Scope Z_scope.

(** The diagnostic of a failed operator. *)
Definition op_message (p : Program) (e : OpError) : Message :=
  let named z := match type_name z p with Some n => inl n | None => inr z end in
  match e with TypeMismatch lhs rhs => MTypes (named lhs) (named rhs) | other => message_of other end.

Lemma bind_ok {H A B} (c : @Vm.M H A) (k : A -> @Vm.M H B) s a s' : c s = Comp (Ok a, s') -> Vm.bind c k s = k a s'.
Proof. unfold Vm.bind. by intros ->. Qed.

Section Machine.
Context {std : StdLib} {H : Type} {hst : Host H} (builtin : Z -> option BuiltinDecl) (d : nat).
Context (m : Vm H) (fs : list Frame) (file script : Z) (expected : nat) (void : bool) (sf : ScriptFile).
Hypothesis Hfile : get_z (files (prog m)) file = Some sf.

(** ** Configurations *)

Record config := mkConfig { at_bip : Z; at_locals : list (option Slot); at_stack : list Slot }.
(** The machine in a configuration, after [n.1] bytecodes of a budget of [n.2]. *)
Definition load (n : Z * Z) (c : config) : Vm H :=
  mkVm (prog m) (host m) (heap m) (at_stack c) (fs ++ [mkFrame file script (at_bip c) (at_locals c) expected void])
    (returned m) (coverage m) n.1 (err_count m) n.2 (missing_builtin_policy m).

Definition step1 (c c' : config) : Prop := forall n, Vm.step builtin (S d) (load n c) = Comp (Ok Continue, load n c').
Definition stops (c : config) (e : OpError) : Prop := forall n, exists r s',
  Vm.step builtin (S d) (load n c) = Comp (Ok (Abort r), s') /\ message r = op_message (prog m) e.

(** The instruction at an offset of the file. *)
Definition insn_at (b : Z) (op : Z) (ops : list Z) : Prop :=
  get_z (code sf) b = Some op /\ forall i w, ops !! i = Some w -> Vm.code_u32 (code sf) (b + 1 + 4 * Z.of_nat i) = Some w.

(** The value a slot stands for: a constant or a local is read where it is. *)
Definition holds (ls : list (option Slot)) (x : Slot) (v : Value) : Prop :=
  match x with
  | SVal w => w = v
  | SRef (BConst f i) => f = file /\ get_z (const_pool sf) i = Some v
  | SRef (BLocal fr i) => fr = length fs /\ get_z ls i = Some (Some (SVal v))
  | _ => False
  end.

(** ** Primitives *)

Section Prims.
Context (n : Z * Z) (b : Z) (ls : list (option Slot)) (st : list Slot).
Abbreviation here := (load n (mkConfig b ls st)).

Lemma run_cur_frame : Vm.cur_frame here = Comp (Ok (mkFrame file script b ls expected void), here).
Proof. unfold Vm.cur_frame. cbn. by rewrite last_snoc. Qed.
Lemma run_file_at : Vm.file_at file here = Comp (Ok sf, here).
Proof. unfold Vm.file_at. cbn. by rewrite Hfile. Qed.
Lemma run_get_bip : Vm.get_bip here = Comp (Ok b, here).
Proof. unfold Vm.get_bip. by rewrite (bind_ok _ _ _ _ _ run_cur_frame). Qed.
Lemma run_set_cur b' ls' : Vm.set_cur (mkFrame file script b' ls' expected void) here = Comp (Ok tt, load n (mkConfig b' ls' st)).
Proof. unfold Vm.set_cur, Vm.modify, load. cbn [frames at_bip at_locals at_stack]. by rewrite set_last_app. Qed.
Lemma run_set_bip b' : Vm.set_bip b' here = Comp (Ok tt, load n (mkConfig b' ls st)).
Proof. unfold Vm.set_bip. rewrite (bind_ok _ _ _ _ _ run_cur_frame). apply run_set_cur. Qed.
Lemma run_fetch_u8 op : get_z (code sf) b = Some op -> Vm.fetch_u8 here = Comp (Ok op, load n (mkConfig (b + 1) ls st)).
Proof.
  intros E. unfold Vm.fetch_u8. rewrite (bind_ok _ _ _ _ _ run_cur_frame). cbn [fr_file fr_script bip locals expected_stack void_return].
  rewrite (bind_ok _ _ _ _ _ run_file_at). unfold Vm.require, Vm.lift. rewrite E. cbn [ok_or]. unfold Vm.bind at 1.
  by rewrite (bind_ok _ _ _ _ _ (run_set_cur _ _)).
Qed.
Lemma run_peek_u32 a w : Vm.code_u32 (code sf) a = Some w -> Vm.peek_u32 a here = Comp (Ok w, here).
Proof.
  intros E. unfold Vm.peek_u32. rewrite (bind_ok _ _ _ _ _ run_cur_frame). cbn [fr_file]. rewrite (bind_ok _ _ _ _ _ run_file_at).
  unfold Vm.require, Vm.lift. by rewrite E.
Qed.
Lemma run_fetch_u32 w : Vm.code_u32 (code sf) b = Some w -> Vm.fetch_u32 here = Comp (Ok w, load n (mkConfig (b + 4) ls st)).
Proof.
  intros E. unfold Vm.fetch_u32. rewrite (bind_ok _ _ _ _ _ run_get_bip), (bind_ok _ _ _ _ _ (run_peek_u32 _ _ E)).
  by rewrite (bind_ok _ _ _ _ _ (run_set_bip _)).
Qed.
Lemma run_peek_op : Vm.peek_op here = Comp (Ok (get_z (code sf) b), here).
Proof. unfold Vm.peek_op. rewrite (bind_ok _ _ _ _ _ run_cur_frame). cbn [fr_file]. by rewrite (bind_ok _ _ _ _ _ run_file_at). Qed.
Lemma run_jump taken t :
  Vm.code_u32 (code sf) b = Some t -> Vm.jump_or_skip taken here = Comp (Ok tt, load n (mkConfig (if taken : bool then t else b + 4) ls st)).
Proof.
  intros E. unfold Vm.jump_or_skip. rewrite (bind_ok _ _ _ _ _ run_get_bip). destruct taken; [|apply run_set_bip].
  rewrite (bind_ok _ _ _ _ _ (run_peek_u32 _ _ E)). apply run_set_bip.
Qed.
Lemma run_push x : Vm.push x here = Comp (Ok tt, load n (mkConfig b ls (x :: st))).
Proof. done. Qed.
Lemma run_deref x v : holds ls x v -> Vm.deref (S d) x here = Comp (Ok v, here).
Proof.
  unfold Vm.deref. destruct x as [w|[f i| |fr i]|]; cbn [holds]; try done.
  - by intros ->.
  - intros [-> E]. cbn. by rewrite Hfile, E.
  - intros [-> E]. cbn. unfold Vm.local_at. rewrite lookup_app_r, Nat.sub_diag by lia. cbn. rewrite E. cbn. by destruct d.
Qed.
Lemma run_pop x : Vm.pop (load n (mkConfig b ls (x :: st))) = Comp (Ok x, here).
Proof. done. Qed.
Lemma run_pop_value x v : holds ls x v -> Vm.pop_value (S d) (load n (mkConfig b ls (x :: st))) = Comp (Ok v, here).
Proof. intros Hx. unfold Vm.pop_value. rewrite (bind_ok _ _ _ _ _ (run_pop x)). by apply run_deref. Qed.
Lemma run_operate a op o r : do_operator (S d) (heap m) a op o = Some (r, heap m) -> Vm.operate (S d) a op o here = Comp (Ok r, here).
Proof. intros E. unfold Vm.operate. cbn [heap load]. by rewrite E. Qed.
Lemma run_rte_op e at_ op : exists r s', Vm.rte_op e at_ op here = Comp (Ok (Abort r), s') /\ message r = op_message (prog m) e.
Proof. eexists _, _. split; [reflexivity|]. by destruct e. Qed.
End Prims.

(** ** Instructions *)

Lemma step_exec n b ls st op ops :
  insn_at b op ops -> op < OP_ERROR_TOKEN ->
  Vm.step builtin (S d) (load n (mkConfig b ls st)) = Vm.execute builtin (S d) b op (load n (mkConfig (b + 1) ls st)).
Proof.
  intros [E _] Hop. unfold Vm.step. rewrite (bind_ok _ _ _ _ _ (run_get_bip _ _ _ _)), (bind_ok _ _ _ _ _ (run_fetch_u8 _ _ _ _ _ E)).
  destruct (Z.leb_spec OP_ERROR_TOKEN op); [lia|done].
Qed.
(** The word after the opcode, and the one after that. *)
Lemma word0 b op w ops : insn_at b op (w :: ops) -> Vm.code_u32 (code sf) (b + 1) = Some w.
Proof. intros [_ E]. pose proof (E O w eq_refl) as W. by rewrite Z.add_0_r in W. Qed.
Lemma word1 b op w w' ops : insn_at b op (w :: w' :: ops) -> Vm.code_u32 (code sf) (b + 1 + 4) = Some w'.
Proof. intros [_ E]. exact (E 1%nat w' eq_refl). Qed.

(** One primitive of a handler. *)
Ltac run1 :=
  first
  [ erewrite (bind_ok Vm.fetch_u32); [|by eapply run_fetch_u32]
  | erewrite (bind_ok Vm.peek_op); [|apply run_peek_op]
  | erewrite (bind_ok Vm.get_bip); [|apply run_get_bip]
  | erewrite (bind_ok (Vm.set_bip _)); [|apply run_set_bip]
  | erewrite (bind_ok Vm.cur_frame); [|apply run_cur_frame]
  | erewrite (bind_ok (Vm.file_at _)); [|apply run_file_at]
  | erewrite (bind_ok (Vm.set_cur _)); [|apply run_set_cur]
  | erewrite (bind_ok (Vm.jump_or_skip _)); [|by eapply run_jump]
  | erewrite (bind_ok (Vm.push _)); [|apply run_push]
  | erewrite (bind_ok (Vm.deref _ _)); [|by eapply run_deref]
  | erewrite (bind_ok (Vm.operate _ _ _ _)); [|by eapply run_operate]
  | erewrite (bind_ok Vm.pop); [|apply run_pop]
  | erewrite (bind_ok (Vm.pop_value _)); [|by eapply run_pop_value] ].
Ltac enter I := erewrite step_exec; [|exact I|reflexivity]; let W := fresh in try pose proof (word0 _ _ _ _ I) as W; let W' := fresh in try pose proof (word1 _ _ _ _ _ I) as W'.
Ltac run := cbv beta zeta; repeat (run1; cbv beta iota zeta).

Section Insns.
Context (b : Z) (ls : list (option Slot)) (st : list Slot).

Lemma pop_step x : insn_at b op.POP [] -> step1 (mkConfig b ls (x :: st)) (mkConfig (b + 1) ls st).
Proof. intros I n. enter I. change (Vm.execute _ _ _ _) with (Vm.bind (@Vm.pop H) (fun _ => Vm.continue)). by run. Qed.

Lemma push_const_step i w v :
  insn_at b op.PUSH [w] -> varref_decode w = Const i -> get_z (const_pool sf) i = Some v ->
  step1 (mkConfig b ls st) (mkConfig (b + 5) ls (SRef (BConst file i) :: st)).
Proof.
  intros I Ew Ev n. enter I. change (Vm.execute _ _ _ _) with (@Vm.op_push H (S d)). unfold Vm.op_push. run. rewrite Ew.
  assert (R : forall k, Vm.bind_ref (Const i) (load n (mkConfig k ls st)) = Comp (Ok (BConst file i), load n (mkConfig k ls st))).
  { intros k. unfold Vm.bind_ref. run. cbn [fr_file]. run. unfold Vm.require, Vm.lift. by rewrite Ev. }
  erewrite (bind_ok (Vm.bind_ref _)); [|apply R]. erewrite (bind_ok (Vm.deref _ _)); [|by eapply (run_deref _ _ _ _ _ v)].
  run. unfold Vm.continue, Vm.ret. do 4 f_equal. lia.
Qed.

Lemma push_local_step i w v :
  insn_at b op.PUSH [w] -> varref_decode w = Local i -> get_z ls i = Some (Some (SVal v)) ->
  step1 (mkConfig b ls st) (mkConfig (b + 5) ls (SRef (BLocal (length fs) i) :: st)).
Proof.
  intros I Ew Ev n. enter I. change (Vm.execute _ _ _ _) with (@Vm.op_push H (S d)). unfold Vm.op_push. run. rewrite Ew.
  assert (R : forall k, Vm.bind_ref (Local i) (load n (mkConfig k ls st)) = Comp (Ok (BLocal (length fs) i), load n (mkConfig k ls st))).
  { intros k. unfold Vm.bind_ref. run. cbn [locals]. unfold Vm.require, Vm.lift. rewrite Ev. cbn [ok_or]. unfold Vm.bind at 1.
    unfold Vm.gets, Vm.bind, Vm.ret. cbn [frames load]. rewrite length_app. cbn. do 4 f_equal. lia. }
  erewrite (bind_ok (Vm.bind_ref _)); [|apply R]. erewrite (bind_ok (Vm.deref _ _)); [|by eapply (run_deref _ _ _ _ _ v)].
  run. unfold Vm.continue, Vm.ret. do 4 f_equal. lia.
Qed.

(** Operators on what two slots hold. *)
Definition operated (op : Z) (a : Value) (o : option Value) (c : config) (next : Value -> config) : Prop :=
  forall r, do_operator (S d) (heap m) a op o = Some (r, heap m) ->
  match r with Ok v => step1 c (next v) | Err e => stops c e end.

Lemma binary_step op x y u v :
  insn_at b op [] -> Vm.is_binary op = true -> holds ls x u -> holds ls y v ->
  operated op u (Some v) (mkConfig b ls (y :: x :: st)) (fun w => mkConfig (b + 1) ls (SVal w :: st)).
Proof.
  intros I Hb Hx Hy r Hr.
  assert (E : forall n, Vm.step builtin (S d) (load n (mkConfig b ls (y :: x :: st))) =
    (match r with Ok out => Vm.bind (Vm.push (SVal out)) (fun _ => Vm.continue) | Err e => Vm.rte_op e b op end) (load n (mkConfig (b + 1) ls st))).
  { intros n. erewrite step_exec; [|exact I|].
    2:{ unfold Vm.is_binary in Hb. unfold OP_ERROR_TOKEN. lia. }
    assert (Vm.execute builtin (S d) b op = Vm.op_binary (S d) b op) as ->.
    { unfold Vm.execute. rewrite Hb. unfold Vm.is_binary in Hb. unfold Vm.is_assign.
      destruct (Z.eqb_spec op 0x26) as [->|]; [done|]. destruct (Z.eqb_spec op 0x27) as [->|]; [done|].
      destruct ((op =? 0x00) || (op =? 0x03) || ((0x0c <=? op) && (op <=? 0x0e)) || ((0x18 <=? op) && (op <=? 0x1e))) eqn:Ea; [exfalso; lia|done]. }
    unfold Vm.op_binary. run. by destruct r. }
  destruct r as [w|e]; intros n; rewrite E; [by run|apply run_rte_op].
Qed.
Lemma unary_step op x u :
  insn_at b op [] -> (op =? 0x09) || (op =? 0x16) || (op =? 0x25) = true -> holds ls x u ->
  operated op u None (mkConfig b ls (x :: st)) (fun w => mkConfig (b + 1) ls (SVal w :: st)).
Proof.
  intros I Hb Hx r Hr.
  assert (E : forall n, Vm.step builtin (S d) (load n (mkConfig b ls (x :: st))) =
    (match r with Ok out => Vm.bind (Vm.push (SVal out)) (fun _ => Vm.continue) | Err e => Vm.rte_op e b op end) (load n (mkConfig (b + 1) ls st))).
  { intros n. erewrite step_exec; [|exact I|unfold OP_ERROR_TOKEN; lia].
    assert (Vm.execute builtin (S d) b op = Vm.op_unary (S d) b op) as ->.
    { apply orb_true_iff in Hb as [[->%Z.eqb_eq| ->%Z.eqb_eq]%orb_true_iff| ->%Z.eqb_eq]; reflexivity. }
    unfold Vm.op_unary. run. by destruct r. }
  destruct r as [w|e]; intros n; rewrite E; [by run|apply run_rte_op].
Qed.

Lemma cast_bool_step x v :
  insn_at b op.CAST_BOOL [] -> holds ls x v -> step1 (mkConfig b ls (x :: st)) (mkConfig (b + 1) ls (SVal (vbool (is_true v)) :: st)).
Proof. intros I Hx n. enter I. change (Vm.execute _ _ _ _) with (@Vm.op_cast_bool H (S d)). unfold Vm.op_cast_bool. by run. Qed.

Lemma cast_step t x v w :
  insn_at b op.CAST [tag t] -> holds ls x v -> cast_value t v = Some w ->
  step1 (mkConfig b ls (x :: st)) (mkConfig (b + 5) ls (SVal w :: st)).
Proof.
  intros I Hx Hw n. enter I. change (Vm.execute _ _ _ _) with (Vm.op_cast (S d) : @Vm.M H _). unfold Vm.op_cast. run.
  replace (b + 5) with (b + 1 + 4) by lia. assert (from_tag (tag t) = Some t) as -> by (by destruct t).
  destruct t; try done; cbn [cast_value] in Hw; [| |destruct (as_string v); [|done]]; injection Hw as <-;
    (erewrite (bind_ok (Vm.ret _)); [|reflexivity]); by run.
Qed.

Lemma create_simple_step t :
  insn_at b op.CREATE_SIMPLE [tag t] -> step1 (mkConfig b ls st) (mkConfig (b + 5) ls (SVal (zero_value t) :: st)).
Proof.
  intros I n. enter I. change (Vm.execute _ _ _ _) with (@Vm.op_create_simple H). unfold Vm.op_create_simple. run.
  replace (b + 5) with (b + 1 + 4) by lia. by destruct t.
Qed.
Lemma marker_step w : insn_at b op.SCRIPT_MARKER [w] -> step1 (mkConfig b ls st) (mkConfig (b + 5) ls st).
Proof.
  intros I n. enter I. change (Vm.execute _ _ _ _) with (Vm.bind (@Vm.fetch_u32 H) (fun _ => Vm.continue)). run.
  by replace (b + 5) with (b + 1 + 4) by lia.
Qed.

(** Jumps. *)
Lemma jump_step t : insn_at b op.JUMP [t] -> step1 (mkConfig b ls st) (mkConfig t ls st).
Proof. intros I n. enter I. change (Vm.execute _ _ _ _) with (@Vm.op_jump H). unfold Vm.op_jump. by run. Qed.
Lemma jump_if_step t x v :
  insn_at b op.JUMP_IF [t] -> holds ls x v -> step1 (mkConfig b ls (x :: st)) (mkConfig (if is_true v then t else b + 5) ls st).
Proof.
  intros I Hx n. enter I. change (Vm.execute _ _ _ _) with (@Vm.op_jump_if H (S d)). unfold Vm.op_jump_if. run.
  by replace (b + 5) with (b + 1 + 4) by lia.
Qed.
Lemma jump_if_not_step t x v :
  insn_at b op.JUMP_IF_NOT [t] -> holds ls x v -> step1 (mkConfig b ls (x :: st)) (mkConfig (if is_true v then b + 5 else t) ls st).
Proof.
  intros I Hx n. enter I. change (Vm.execute _ _ _ _) with (@Vm.op_jump_if_not H (S d)). unfold Vm.op_jump_if_not. run.
  replace (b + 5) with (b + 1 + 4) by lia. unfold is_true. by destruct (is_false v).
Qed.
(** The short-circuit jumps keep the operand when they are taken. *)
Lemma jump_sc_step (and_ : bool) t x v :
  insn_at b (if and_ then op.JUMP_IF_SC_FALSE else op.JUMP_IF_SC_TRUE) [t] -> holds ls x v ->
  step1 (mkConfig b ls (x :: st))
    (if (if and_ then is_false v else is_true v) then mkConfig t ls (x :: st) else mkConfig (b + 5) ls st).
Proof.
  intros I Hx n. replace (b + 5) with (b + 1 + 4) by lia.
  assert (E : forall test, Vm.op_jump_sc (S d) test (load n (mkConfig (b + 1) ls (x :: st))) =
    Comp (Ok Continue, load n (if test v then mkConfig t ls (x :: st) else mkConfig (b + 1 + 4) ls st))).
  { intros test. unfold Vm.op_jump_sc. apply word0 in I. run. destruct (test v); run; [done|].
    erewrite (bind_ok (Vm.ret _)); [|reflexivity]. by run. }
  destruct and_; erewrite step_exec; [|exact I|reflexivity| |exact I|reflexivity]; [apply (E is_false)|apply (E is_true)].
Qed.

(** Storing: a local that is initialised may be new. *)
Definition init_local (i : Z) (v : Value) : list (option Slot) :=
  <[Z.to_nat i := Some (SVal v)]> (grow_to (Z.to_nat (i + 1)) ls).
Lemma run_set_slot n k i v meta :
  Vm.set_slot (S d) (Local i) (SVal v) meta (load n (mkConfig k ls st)) = Comp (Ok tt, load n (mkConfig k (init_local i v) st)).
Proof. unfold Vm.set_slot. run. cbn [fr_file fr_script bip locals expected_stack void_return]. apply run_set_cur. Qed.
Lemma run_duplicate n k v : scalar v = true ->
  Vm.alloc (duplicate (S d) v) (load n (mkConfig k ls st)) = Comp (Ok v, load n (mkConfig k ls st)).
Proof. intros Hv. unfold Vm.alloc. by destruct v. Qed.

Lemma init_copy_step i w x v :
  insn_at b op.INIT_COPY [w] -> varref_decode w = Local i -> holds ls x v -> scalar v = true ->
  step1 (mkConfig b ls (x :: st)) (mkConfig (b + 5) (init_local i v) st).
Proof.
  intros I Ew Hx Hv n. enter I. change (Vm.execute _ _ _ _) with (@Vm.op_init_copy H (S d)). unfold Vm.op_init_copy. run.
  erewrite (bind_ok (Vm.alloc _)); [|by apply run_duplicate]. run. rewrite Ew.
  erewrite (bind_ok (Vm.set_slot _ _ _ _)); [|apply run_set_slot]. by replace (b + 5) with (b + 1 + 4) by lia.
Qed.
Lemma init_step i w v :
  insn_at b op.INIT [w] -> varref_decode w = Local i -> step1 (mkConfig b ls (SVal v :: st)) (mkConfig (b + 5) (init_local i v) st).
Proof.
  intros I Ew n. enter I. change (Vm.execute _ _ _ _) with (@Vm.op_init H (S d)). unfold Vm.op_init. run. rewrite Ew.
  erewrite (bind_ok (Vm.set_slot _ _ _ _)); [|apply run_set_slot]. by replace (b + 5) with (b + 1 + 4) by lia.
Qed.

Definition store_local (i : Z) (v : Value) : list (option Slot) := <[Z.to_nat i := Some (SVal v)]> ls.
Lemma run_store n k i u v : get_z ls i = Some (Some (SVal u)) ->
  Vm.store (S d) (SRef (BLocal (length fs) i)) v (load n (mkConfig k ls st)) = Comp (Ok tt, load n (mkConfig k (store_local i v) st)).
Proof.
  intros Hi. unfold Vm.store. cbn [Vm.store_in]. unfold Vm.local_at. cbn [frames load]. rewrite lookup_app_r, Nat.sub_diag by lia.
  cbn. rewrite Hi. cbn. unfold Vm.modify, Vm.set_frames, load. cbn [frames at_bip at_locals at_stack].
  rewrite alter_app_r_alt by lia. by rewrite Nat.sub_diag.
Qed.
Lemma assign_step op i x u v :
  insn_at b op [] -> Vm.is_assign op = true -> get_z ls i = Some (Some (SVal u)) -> holds ls x v ->
  operated op u (Some v) (mkConfig b ls (SRef (BLocal (length fs) i) :: x :: st))
    (fun w => mkConfig (b + 1) (store_local i w) (SRef (BLocal (length fs) i) :: st)).
Proof.
  intros I Hb Hi Hx r Hr.
  assert (Ht : holds ls (SRef (BLocal (length fs) i)) u) by done.
  assert (E : forall n, Vm.step builtin (S d) (load n (mkConfig b ls (SRef (BLocal (length fs) i) :: x :: st))) =
    (match r with
     | Ok out => Vm.bind (Vm.store (S d) (SRef (BLocal (length fs) i)) out) (fun _ => Vm.bind (Vm.push (SRef (BLocal (length fs) i))) (fun _ => Vm.continue))
     | Err e => Vm.rte_op e b op end) (load n (mkConfig (b + 1) ls st))).
  { intros n. erewrite step_exec; [|exact I|unfold Vm.is_assign in Hb; unfold OP_ERROR_TOKEN; lia].
    assert (Vm.execute builtin (S d) b op = Vm.op_assign (S d) b op) as ->.
    { unfold Vm.execute. rewrite Hb. unfold Vm.is_assign in Hb.
      destruct (Z.eqb_spec op 0x26) as [->|]; [done|]. by destruct (Z.eqb_spec op 0x27) as [->|]. }
    unfold Vm.op_assign. run. by destruct r. }
  destruct r as [w|e]; intros n; rewrite E; [|apply run_rte_op].
  erewrite (bind_ok (Vm.store _ _ _)); [|by eapply run_store]. done.
Qed.
(** An increment as a statement: the [POP] after it is swallowed. *)
Lemma step_var_step op i u :
  insn_at b op [] -> insn_at (b + 1) op.POP [] -> 0x12 <= op <= 0x15 -> get_z ls i = Some (Some (SVal u)) ->
  operated op u None (mkConfig b ls (SRef (BLocal (length fs) i) :: st)) (fun w => mkConfig (b + 1 + 1) (store_local i w) st).
Proof.
  intros I [Ip _] Hb Hi r Hr.
  assert (Ht : holds ls (SRef (BLocal (length fs) i)) u) by done.
  assert (E : forall n, Vm.step builtin (S d) (load n (mkConfig b ls (SRef (BLocal (length fs) i) :: st))) =
    match r with
    | Ok out => Comp (Ok Continue, load n (mkConfig (b + 1 + 1) (store_local i out) st))
    | Err e => Vm.rte_op e b op (load n (mkConfig (b + 1) ls st)) end).
  { intros n. erewrite step_exec; [|exact I|unfold OP_ERROR_TOKEN; lia].
    assert (exists post, Vm.execute builtin (S d) b op = Vm.op_step_var (S d) post b op) as [post ->].
    { assert (op = 0x12 \/ op = 0x13 \/ op = 0x14 \/ op = 0x15) as [->|[->|[->| ->]]] by lia; eexists; reflexivity. }
    unfold Vm.op_step_var. run. destruct r as [w|e]; [|done]. erewrite (bind_ok (Vm.store _ _ _)); [|by eapply run_store].
    run. rewrite Ip. rewrite bool_decide_eq_true_2 by done. erewrite (bind_ok (Vm.bind Vm.get_bip _)); [|run; apply run_set_bip]. done. }
  destruct r as [w|e]; intros n; rewrite E; [done|apply run_rte_op].
Qed.
End Insns.
End Machine.

(** ** The opcodes compute the operators *)

Section Operators.
Context {std : StdLib} (d : nat) (h : Heap).

Lemma guard_ok a b : data_type h b = data_type h a -> type_guard h a (Some b) = Ok tt.
Proof. intros E. unfold type_guard. by rewrite E, Z.eqb_refl. Qed.
Ltac cases := repeat match goal with |- context [if ?b then _ else _] => destruct b end.

Lemma binop_opcode p o a b r :
  binary_op p = Some o -> scalar a = true -> scalar b = true -> binop p a b = Some r ->
  do_operator (S d) h a o (Some b) = Some (r, h).
Proof.
  intros Ho Ha Hb Hr. destruct a as [x|x|x| |], b as [y|y|y| |]; try done; cbn [binop] in Hr.
  - destruct p; try done; injection Ho as <-; injection Hr as <-; cbn; unfold int_op; cbn; unfold int_div, int_rem; cases; reflexivity.
  - by injection Hr as <-. - by injection Hr as <-. - by injection Hr as <-.
  - destruct p; try done; injection Ho as <-; injection Hr as <-; cbn; unfold real_op; cbn; cases; reflexivity.
  - by injection Hr as <-. - by injection Hr as <-. - by injection Hr as <-.
  - destruct p; try done; injection Ho as <-; injection Hr as <-; reflexivity.
Qed.
Lemma assign_opcode p o a b r :
  assign_op p = Some o -> scalar a = true -> scalar b = true -> assign_value p a b = Some r ->
  do_operator (S d) h a o (Some b) = Some (r, h).
Proof.
  intros Ho Ha Hb Hr. destruct a as [x|x|x| |], b as [y|y|y| |]; try done.
  - destruct p; try done; injection Ho as <-; injection Hr as <-; cbn; unfold int_op; cbn; unfold int_div, int_rem; cases; reflexivity.
  - destruct p; try done; by injection Hr as <-. - destruct p; try done; by injection Hr as <-. - destruct p; try done; by injection Hr as <-.
  - destruct p; try done; injection Ho as <-; injection Hr as <-; cbn; unfold real_op; cbn; cases; reflexivity.
  - destruct p; try done; by injection Hr as <-. - destruct p; try done; by injection Hr as <-. - destruct p; try done; by injection Hr as <-.
  - destruct p; try done; injection Ho as <-; injection Hr as <-; reflexivity.
Qed.
Lemma unop_opcode p o a r :
  unary_op p = Some o -> unop p a = Some r -> do_operator (S d) h a o None = Some (r, h).
Proof. intros Ho Hr. destruct p; try done; injection Ho as <-; destruct a; try done; by injection Hr as <-. Qed.
Lemma step_opcode (post inc : bool) a :
  scalar a = true ->
  do_operator (S d) h a (if post then if inc then op.INC_POST else op.DEC_POST else if inc then op.INC else op.DEC) None =
  Some (step_by_one inc a, h).
Proof. intros Ha. destruct post, inc, a; done. Qed.

(** Scalars give scalars. *)
Lemma binop_scalar p a b v : binop p a b = Some (Ok v) -> scalar v = true.
Proof.
  destruct a, b; cbn [binop]; try done.
  - destruct p; try done; cbn; try (by intros [= <-]); case_match; by intros [= <-].
  - destruct p; try done; cbn; try (by intros [= <-]); case_match; by intros [= <-].
  - destruct p; try done; cbn; by intros [= <-].
Qed.
Lemma unop_scalar p a v : unop p a = Some (Ok v) -> scalar v = true.
Proof. destruct p, a; try done; by intros [= <-]. Qed.
Lemma assign_scalar p a b v : scalar b = true -> assign_value p a b = Some (Ok v) -> scalar v = true.
Proof.
  intros Hb. destruct p; cbn; try done; try apply binop_scalar. case_match; [|done]. by intros [= <-].
Qed.
Lemma step_scalar inc a v : step_by_one inc a = Ok v -> scalar v = true.
Proof. destruct a; try done; by intros [= <-]. Qed.
Lemma cast_scalar t a v : cast_value t a = Some v -> scalar v = true.
Proof. destruct t; try done; cbn; [by intros [= <-]|by intros [= <-]|]. case_match; [|done]. by intros [= <-]. Qed.
End Operators.

(** The encodings the machine decodes. *)
Lemma small_bits i n : 0 <= i < 2 ^ 29 -> 29 <= n -> Z.testbit i n = false.
Proof. intros Hi Hn. by apply (testbit_high 29). Qed.
Lemma decode_const i : 0 <= i < 2 ^ 29 -> varref_decode (encode (PConst i)) = Const i.
Proof. intros Hi. apply (varref_decode_encode (Const i)). split; [unfold in_u; lia|]. by apply small_bits. Qed.
Lemma decode_local i : 0 <= i < 2 ^ 29 -> varref_decode (encode (PLocal i)) = Local i.
Proof. intros Hi. apply (varref_decode_encode (Local i)). split; [unfold in_u; lia|]. split; by apply small_bits. Qed.
