(* ===== verification/CcLink.v ===== *)
(** * Compiled code in the program it ends up in

    What connects a run of the generator with a run of the machine: the final
    positions of the labels and the final pool of constants extend those of
    the generator's states ([linked]), the instructions stand where they were
    emitted ([has]), and the locals of the frame hold the variables in scope
    ([related]). *)

From S2P Require Import Prelude Loops NetText BhsOpcode BhsDisasm BhsStd BhsValue BhsOps BhsProgram BhsVm CcLex CcAst CcParse CcSema CcCodegen CcCodegenSpec CcCodeWf CcRun CcEval CcMachine.
#[local] Open Scope list_scope.
#[local] Open Scope Z_scope.
Import Gen.

(** ** The generator's states *)

(** Labels keep their positions, constants their indices. *)
Record after (s s' : state) : Prop := {
  af_labels l p : label_pos s.2 !! l = Some (Some p) -> label_pos s'.2 !! l = Some (Some p);
  af_consts : consts s.1 `prefix_of` consts s'.1;
  af_locals : (length (g_locals s.2) <= length (g_locals s'.2))%nat;
  af_size : (size_at s <= size_at s')%nat }.
#[export] Instance after_preorder : PreOrder after.
Proof.
  split; [by intros s; constructor; auto|]. intros s1 s2 s3 [] []. constructor; [auto|by etrans|lia|lia].
Qed.

(** What names mean, and where jumps out of loops lead. *)
Definition names (g : ScriptGen) :=
  (scopes g, g_locals g, local_ty g, g_labels g, breaks g, continues g, g_ret g).

Lemma emits_after its s s' : emits [] its s s' -> (length (g_locals s.2) <= length (g_locals s'.2))%nat -> after s s'.
Proof.
  intros [] Hl. constructor; [|done|done|rewrite em_code, length_app; lia].
  intros l p E. rewrite em_keep; [done|]. by eapply lookup_lt_Some.
Qed.
Lemma emits_names its s s' : emits [] its s s' -> names s'.2 = names s.2 -> after s s'.
Proof. intros E N. eapply emits_after; [done|]. injection N as N. assert (g_locals s'.2 = g_locals s.2) as -> by congruence. done. Qed.

(** ** The final program *)

Section Link.
Context (sf : ScriptFile) (lp : list (option Z)).

Record linked (s : state) : Prop := {
  ln_labels l p : label_pos s.2 !! l = Some (Some p) -> lp !! l = Some (Some p);
  ln_consts : consts s.1 `prefix_of` const_pool sf;
  ln_pool : Z.of_nat (length (const_pool sf)) <= 2 ^ 29;
  ln_locals : Z.of_nat (length (g_locals s.2)) <= 2 ^ 29;
  ln_size : Z.of_nat (size_at s) < 2 ^ 32 }.
Lemma linked_after s s' : after s s' -> linked s' -> linked s.
Proof. intros [] []. constructor; [auto|by etrans|done|lia|lia]. Qed.

(** Instructions at an offset. *)
Fixpoint has (b : Z) (its : list (Z * list Z)) : Prop :=
  match its with
  | [] => True
  | it :: its => insn_at sf b it.1 it.2 /\ has (b + Z.of_nat (insn_size it)) its
  end.
Lemma has_app b x y : has b (x ++ y) <-> has b x /\ has (b + Z.of_nat (asm_len x)) y.
Proof.
  revert b. induction x as [|it x IH]; intros b; cbn [app has]; [rewrite Z.add_0_r; tauto|].
  rewrite IH. change (asm_len (it :: x)) with (insn_size it + asm_len x)%nat. rewrite Nat2Z.inj_add, Z.add_assoc. tauto.
Qed.
(** The code of a file has the instructions it was assembled from. *)
Lemma has_code pre its post :
  Forall (fun it => Forall is_u32 it.2) its -> code sf = asm (pre ++ its ++ post) -> has (Z.of_nat (asm_len pre)) its.
Proof.
  intros Hu E. revert pre E. induction Hu as [|[op ops] its Hops Hu IH]; intros pre E; cbn [has]; [done|]. split.
  - unfold insn_at. rewrite E. cbn [app]. split; [apply code_op|]. intros i w. by apply code_operand.
  - replace (Z.of_nat (asm_len pre) + Z.of_nat (insn_size (op, ops))) with (Z.of_nat (asm_len (pre ++ [(op, ops)]))).
    + apply IH. by rewrite <- app_assoc.
    + rewrite asm_len_app. unfold asm_len at 2, insn_size. cbn. lia.
Qed.

(** The code emitted between two states. *)
Definition code_of (s : state) (its : list item) : Prop := has (Z.of_nat (size_at s)) (resolve lp its).
Lemma asm_len_resolve its : asm_len (resolve lp its) = items_size its.
Proof. by rewrite <- length_asm, length_resolve. Qed.
Lemma emits_size L its s s' : emits L its s s' -> size_at s' = (size_at s + items_size its)%nat.
Proof. intros []. by rewrite em_code, length_app, length_resolve. Qed.
Lemma code_of_app L its its' s s' : emits L its s s' -> code_of s (its ++ its') <-> code_of s its /\ code_of s' its'.
Proof.
  intros E. unfold code_of. rewrite resolve_app, has_app, asm_len_resolve, (emits_size _ _ _ _ E), Nat2Z.inj_add. done.
Qed.
Lemma code_of_nil s : code_of s [].
Proof. done. Qed.
Lemma code_of_one s op ops : code_of s [(op, ops)] -> insn_at sf (Z.of_nat (size_at s)) op (map (opval lp) ops).
Proof. by intros [H _]. Qed.
End Link.

(** ** Variables *)

(** A place is a local of the declared type whose slot holds the value. *)
Definition var_at (tys : list Ty) (ls : list (option Slot)) (x : Place) (tv : Ty * Value) : Prop :=
  exists i, x = PLocal (Z.of_nat i) /\ tys !! i = Some tv.1 /\ ls !! i = Some (Some (SVal tv.2)) /\ scalar tv.2 = true.
Definition scope_at (tys : list Ty) (ls : list (option Slot)) (sc : gmap text Place) (m : gmap text (Ty * Value)) : Prop :=
  forall n, option_Forall2 (var_at tys ls) (sc !! n) (m !! n).
Definition related (g : ScriptGen) (rho : env) (ls : list (option Slot)) : Prop :=
  Forall2 (scope_at (local_ty g) ls) (scopes g) rho.

(** Different names have different slots, all of them allocated. *)
Record slots_ok (g : ScriptGen) : Prop := {
  sl_types : length (local_ty g) = length (g_locals g);
  sl_local k sc n x : scopes g !! k = Some sc -> sc !! n = Some x -> exists i, x = PLocal (Z.of_nat i) /\ (i < length (g_locals g))%nat;
  sl_inj k k' sc sc' n n' x : scopes g !! k = Some sc -> scopes g !! k' = Some sc' -> sc !! n = Some x -> sc' !! n' = Some x -> k = k' /\ n = n' }.

(** The names in scope. *)
Definition in_names (g : ScriptGen) (sc : scope) : Prop := Forall2 (fun (m : gmap text Place) s => forall n, n ∈ s <-> is_Some (m !! n)) (scopes g) sc.

Lemma lookup_in_scope g sc n : in_names g sc -> in_scope sc n = true -> is_Some (lookup n g).
Proof.
  unfold in_names, lookup, in_scope. induction 1 as [|m s ms sc Hm H IH]; cbn; [done|]. rewrite orb_true_iff, bool_decide_eq_true.
  intros [Hn|Hn]; [apply Hm in Hn as [x ->]; by eexists|]. destruct (m !! _); [by eexists|auto].
Qed.

Lemma find_related g rho ls n :
  related g rho ls ->
  match lookup n g with
  | Some x => exists tv, find_var n rho = Some tv /\ var_at (local_ty g) ls x tv
  | None => find_var n rho = None
  end.
Proof.
  unfold related, lookup. induction 1 as [|m e ms rho Hm H IH]; cbn [lookup_in find_var]; [done|].
  specialize (Hm (map ascii_lower n)). destruct (m !! _) as [x|], (e !! _) as [tv|]; inv Hm; [by exists tv|exact IH].
Qed.
Lemma related_names g g' rho ls : names g' = names g -> related g rho ls -> related g' rho ls.
Proof. intros N. unfold related. assert (local_ty g' = local_ty g /\ scopes g' = scopes g) as [-> ->] by (unfold names in N; split; congruence). done. Qed.

(** Assigning to a variable changes the slot of that variable only. *)
Lemma scope_at_other tys ls sc m i v :
  (forall n x, sc !! n = Some x -> x <> PLocal (Z.of_nat i)) -> scope_at tys ls sc m -> scope_at tys (<[i := v]> ls) sc m.
Proof.
  intros Hne Hs n. specialize (Hs n). destruct (sc !! n) as [x|] eqn:E; inv Hs as [? tv Hv|]; constructor.
  destruct Hv as (j & -> & Ht & Hl & Hsc). exists j. split; [done|]. split; [done|]. split; [|done].
  rewrite list_lookup_insert_ne; [done|]. intros ->. by eapply Hne.
Qed.
Lemma related_assign g rho ls n i v :
  slots_ok g -> related g rho ls -> lookup n g = Some (PLocal (Z.of_nat i)) -> scalar v = true ->
  related g (set_var n v rho) (<[i := Some (SVal v)]> ls).
Proof.
  intros [_ Hloc Hinj] R E Hv. unfold related, lookup in *. 
  enough (G : forall ms es, Forall2 (scope_at (local_ty g) ls) ms es -> forall k0, (forall k sc, ms !! k = Some sc -> scopes g !! (k0 + k)%nat = Some sc) ->
    lookup_in n ms = Some (PLocal (Z.of_nat i)) -> Forall2 (scope_at (local_ty g) (<[i := Some (SVal v)]> ls)) ms (set_var n v es)).
  { by apply (G _ _ R 0%nat). }
  clear R E. induction 1 as [|m e ms es Hm H IH]; intros k0 Hk E; [done|]. cbn [lookup_in set_var] in *.
  pose proof (Hk O m eq_refl) as Hk0. rewrite Nat.add_0_r in Hk0.
  assert (Hk' : forall k sc, ms !! k = Some sc -> scopes g !! (S k0 + k)%nat = Some sc).
  { intros k sc Hs. specialize (Hk (S k) sc Hs). by rewrite <- Nat.add_succ_comm in Hk. }
  assert (Hrest : forall k sc, ms !! k = Some sc -> forall n' x, sc !! n' = Some x -> m !! map ascii_lower n = Some (PLocal (Z.of_nat i)) -> x <> PLocal (Z.of_nat i)).
  { intros k sc Hs n' x Hx Hmn ->. destruct (Hinj _ _ _ _ _ _ _ (Hk' _ _ Hs) Hk0 Hx Hmn). lia. }
  pose proof (Hm (map ascii_lower n)) as Hmn. destruct (m !! map ascii_lower n) as [x|] eqn:Em; inv Hmn as [? tv Hv'|].
  - destruct tv as [t u]. constructor.
    + intros n'. destruct (decide (n' = map ascii_lower n)) as [->|Hne].
      * rewrite lookup_insert_eq, Em. constructor. destruct Hv' as (j & [= Ej] & Ht & Hl & Hsc). apply (inj Z.of_nat) in Ej as <-.
        exists i. split; [done|]. split; [done|]. split; [|done]. apply list_lookup_insert_eq. by eapply lookup_lt_Some.
      * rewrite lookup_insert_ne by done. specialize (Hm n'). destruct (m !! n') as [x|] eqn:Ex; inv Hm as [? tv Hv''|]; constructor.
        destruct Hv'' as (j & -> & Ht & Hl & Hsc). exists j. split; [done|]. split; [done|]. split; [|done].
        rewrite list_lookup_insert_ne; [done|]. intros ->. by destruct (Hinj _ _ _ _ _ _ _ Hk0 Hk0 Ex Em).
    + rewrite Forall2_lookup in H |- *. intros k. specialize (H k). destruct (ms !! k) as [sc|] eqn:Es; inv H as [? es' Hs|]; constructor.
      apply scope_at_other; [|done]. intros n' x Hx. by eapply Hrest.
  - constructor; [|by apply (IH (S k0))]. apply scope_at_other; [|done]. intros n' x Hx ->.
    assert (exists k sc n2, ms !! k = Some sc /\ sc !! n2 = Some (PLocal (Z.of_nat i))) as (k & sc & n2 & Hs & Hn2).
    { clear -E. induction ms as [|m ms IH]; [done|]. cbn [lookup_in] in E. destruct (m !! _) as [x|] eqn:Ex.
      - injection E as ->. by exists 0%nat, m, (map ascii_lower n).
      - destruct (IH E) as (k & sc & n2 & ? & ?). by exists (S k), sc, n2. }
    destruct (Hinj _ _ _ _ _ _ _ Hk0 (Hk' _ _ Hs) Hx Hn2). lia.
Qed.

(** A declaration takes the next slot. *)
Section Declare.
Context (g g' : ScriptGen) (name : text) (t : Ty).
Abbreviation slot := (length (g_locals g)).
Hypothesis Hscopes : bind_name name (PLocal (Z.of_nat slot)) (scopes g) = Some (scopes g').
Hypothesis Htys : local_ty g' = local_ty g ++ [t].
Hypothesis Hlocals : g_locals g' = g_locals g ++ [name].
Hypothesis Hok : slots_ok g.

Lemma declare_split : exists sc ss, scopes g = sc :: ss /\ scopes g' = <[map ascii_lower name := PLocal (Z.of_nat slot)]> sc :: ss.
Proof. destruct (scopes g) as [|sc ss]; [done|]. injection Hscopes as E. by exists sc, ss. Qed.
(** Every place of the new scopes is the new slot or an old place. *)
Lemma declare_places k sc n x : scopes g' !! k = Some sc -> sc !! n = Some x ->
  (k = 0%nat /\ n = map ascii_lower name /\ x = PLocal (Z.of_nat slot)) \/ exists sc0, scopes g !! k = Some sc0 /\ sc0 !! n = Some x.
Proof.
  destruct declare_split as (sc0 & ss & E & ->). rewrite E. destruct k as [|k]; cbn; [|by eauto]. intros [= <-].
  destruct (decide (n = map ascii_lower name)) as [->|Hne].
  - rewrite lookup_insert_eq. intros [= <-]. by left.
  - rewrite lookup_insert_ne by done. right. eauto.
Qed.
Lemma declare_slots : slots_ok g'.
Proof.
  destruct Hok as [Ht Hl Hi]. constructor.
  - rewrite Htys, Hlocals, !length_app. cbn. lia.
  - intros k sc n x Hk Hx. rewrite Hlocals, length_app. cbn. destruct (declare_places k sc n x Hk Hx) as [(_ & _ & ->)|(sc0 & H1 & H2)].
    + exists slot. split; [done|lia].
    + destruct (Hl _ _ _ _ H1 H2) as (i & -> & ?). exists i. split; [done|lia].
  - intros k k' sc sc' n n' x Hk Hk' Hx Hx'.
    pose proof (declare_places k sc n x Hk Hx) as P. pose proof (declare_places k' sc' n' x Hk' Hx') as P'.
    destruct P as [(-> & -> & ->)|(s0 & H1 & H2)], P' as [(-> & -> & E)|(s0' & H1' & H2')]; [done|..].
    + destruct (Hl _ _ _ _ H1' H2') as (i & [= Ei] & ?). lia.
    + subst x. destruct (Hl _ _ _ _ H1 H2) as (i & [= Ei] & ?). lia.
    + by eapply Hi.
Qed.
Lemma related_declare rho ls v :
  related g rho ls -> scalar v = true -> related g' (declare name t v rho) (<[slot := Some (SVal v)]> (grow_to (slot + 1) ls)).
Proof.
  intros R Hv. destruct declare_split as (m & ss & E & E'). unfold related in *. rewrite E', Htys. rewrite E in R.
  assert (Hpool : forall x tv, (exists i, x = PLocal (Z.of_nat i) /\ (i < slot)%nat) -> var_at (local_ty g) ls x tv ->
    var_at (local_ty g ++ [t]) (<[slot := Some (SVal v)]> (grow_to (slot + 1) ls)) x tv).
  { intros x tv (j & -> & Hj) (i & [= Ei] & H1 & H2 & H3). apply (inj Z.of_nat) in Ei as <-. exists j. split; [done|].
    split; [by apply lookup_app_l_Some|]. split; [|done]. rewrite list_lookup_insert_ne by lia. by apply lookup_app_l_Some. }
  assert (Hsub : forall k (sc : gmap text Place) e, scopes g !! k = Some sc -> scope_at (local_ty g) ls sc e ->
    scope_at (local_ty g ++ [t]) (<[slot := Some (SVal v)]> (grow_to (slot + 1) ls)) sc e).
  { intros k sc e Hk Hs n. specialize (Hs n). destruct (sc !! n) as [x|] eqn:Ex; inv Hs; constructor.
    apply Hpool; [|done]. by eapply (sl_local _ Hok). }
  inv R as [|? e ? es Hm Hss]. cbn [declare]. constructor.
  - intros n. destruct (decide (n = map ascii_lower name)) as [->|Hne].
    + rewrite !lookup_insert_eq. constructor. exists slot. split; [done|]. cbn [fst snd]. split; [|split; [|done]].
      * rewrite lookup_app_r; rewrite (sl_types _ Hok); [by rewrite Nat.sub_diag|lia].
      * apply list_lookup_insert_eq. unfold grow_to. rewrite length_app, length_replicate. lia.
    + rewrite !lookup_insert_ne by done. apply (Hsub 0%nat m e); [by rewrite E|done].
  - apply Forall2_lookup. intros k. rewrite Forall2_lookup in Hss. specialize (Hss k).
    destruct (ss !! k) as [sc|] eqn:Ek; inv Hss; constructor. apply (Hsub (S k)); [by rewrite E|done].
Qed.
End Declare.

(** A scope begins and ends. *)
Lemma related_push g g' rho ls :
  scopes g' = ∅ :: scopes g -> local_ty g' = local_ty g -> related g rho ls -> related g' (∅ :: rho) ls.
Proof. intros E Et R. unfold related. rewrite E, Et. constructor; [|done]. intros n. rewrite !lookup_empty. constructor. Qed.
Lemma related_pop g g' rho ls :
  scopes g' = tail (scopes g) -> local_ty g' = local_ty g -> related g rho ls -> related g' (tail rho) ls.
Proof. intros E Et R. unfold related in *. rewrite E, Et. by destruct R. Qed.
(** Slots allocated since do not matter to the names of before. *)
Lemma related_types g g' rho ls tys :
  scopes g' = scopes g -> local_ty g' = local_ty g ++ tys -> slots_ok g -> related g' rho ls <-> related g rho ls.
Proof.
  intros E Et Hok. unfold related. rewrite E, Et. rewrite !Forall2_lookup. apply forall_proper. intros k.
  destruct (scopes g !! k) as [sc|] eqn:Ek; [|split; intros F; inv F; constructor]. assert (G : forall e, scope_at (local_ty g ++ tys) ls sc e <-> scope_at (local_ty g) ls sc e).
  2:{ split; intros F; inv F as [? e Hs|]; constructor; by apply G. }
  intros e. unfold scope_at. apply forall_proper. intros n. destruct (sc !! n) as [x|] eqn:Ex; [|split; intros F; inv F; constructor].
  destruct (sl_local _ Hok _ _ _ _ Ek Ex) as (i & -> & Hi). rewrite <- (sl_types _ Hok) in Hi.
  split; intros F; inv F as [? tv Hv|]; constructor; destruct Hv as (j & [= Ej] & H1 & H2); apply (inj Z.of_nat) in Ej as <-; exists i;
    (split; [done|]); (split; [|done]); [by rewrite lookup_app_l in H1|by apply lookup_app_l_Some].
Qed.
