(* ===== verification/CcFollow.v ===== *)
(** * Following the compiler and the machine together

    A computation of the generator is followed from state to state while the
    instructions it emits, and what they do when they run in the final
    program, accumulate ([tracks], [does]); a run of the machine is compared
    with the result of an evaluation ([good]). *)

From S2P Require Import Prelude Loops NetText BhsOpcode BhsDisasm BhsStd BhsValue BhsOps BhsProgram BhsVm CcLex CcAst CcParse CcSema CcCodegen CcCodegenSpec CcCodeWf CcRun CcEval CcMachine CcLink.
#[local] Open Scope list_scope.
#[local] Open Scope Z_scope.
Import Gen.
#[local] Open Scope gen_scope.

(** ** Runs that compute what an evaluation says *)

Section Good.
Context {C : Type} (step : C -> C -> Prop) (stop : C -> OpError -> Prop).

(** From [c] the machine comes to a configuration that satisfies [post], or
    stops with the error of the evaluation. *)
Definition good {A} (c : C) (r : option (result OpError A)) (post : A -> C -> Prop) : Prop :=
  match r with
  | Some (Ok a) => exists c', rtc step c c' /\ post a c'
  | Some (Err e) => exists c', rtc step c c' /\ stop c' e
  | None => True
  end.

Lemma good_ok {A} c a (post : A -> C -> Prop) : post a c -> good c (Some (Ok a)) post.
Proof. intros H. by exists c. Qed.
Lemma good_step {A} c c' r (post : A -> C -> Prop) : step c c' -> good c' r post -> good c r post.
Proof. intros H. destruct r as [[a|e]|]; [..|done]; intros (c'' & Hr & Hp); exists c''; (split; [by eapply rtc_l|done]). Qed.
Lemma good_steps {A} c c' r (post : A -> C -> Prop) : rtc step c c' -> good c' r post -> good c r post.
Proof. induction 1; [done|]. intros. eapply good_step; eauto. Qed.
Lemma good_then {A B} c r (k : A -> option (result OpError B)) P Q :
  good c r P -> (forall a c', P a c' -> good c' (k a) Q) -> good c (and_then r k) Q.
Proof.
  intros Hr Hk. destruct r as [[a|e]|]; cbn; [|done|done]. destruct Hr as (c' & Hc & Ha). eapply good_steps; [done|]. by apply Hk.
Qed.
Lemma good_mono {A} c r (P Q : A -> C -> Prop) : good c r P -> (forall a c', P a c' -> Q a c') -> good c r Q.
Proof. intros Hr H. destruct r as [[a|e]|]; [|done|done]. destruct Hr as (c' & Hc & Ha). exists c'. auto. Qed.
Lemma good_trail {A} c r (P Q : A -> C -> Prop) :
  good c r P -> (forall a c', P a c' -> exists c'', rtc step c' c'' /\ Q a c'') -> good c r Q.
Proof.
  intros Hr H. destruct r as [[a|e]|]; [|done|done]. destruct Hr as (c' & Hc & Ha). destruct (H a c' Ha) as (c'' & Hc' & Hq).
  exists c''. split; [by etrans|done].
Qed.
(** One instruction whose result is that of the evaluation. *)
Lemma good_op {A} c (r : option (result OpError A)) next :
  (forall x, r = Some x -> match x with Ok a => step c (next a) | Err e => stop c e end) -> good c r (fun a c' => r = Some (Ok a) /\ c' = next a).
Proof.
  intros H. destruct r as [[a|e]|]; [..|done]; specialize (H _ eq_refl); [exists (next a)|by exists c].
  split; [by apply rtc_once|done].
Qed.
End Good.

(** ** The generator *)

Abbreviation same s := (fun _ s' => names s'.2 = names s.2).

Section Follow.
Context (sf : ScriptFile) (lp : list (option Z)).

(** From [s0] to [s] the instructions [its] were emitted; linked, they give [F]. *)
Record tracks (L : list nat) (its : list item) (s0 s : state) (F : Prop) : Prop := {
  tr_emits : emits L its s0 s;
  tr_after : after s0 s;
  tr_sem : linked sf lp s -> code_of sf lp s0 its -> F }.

(** A computation that places the labels it creates: what holds of the state
    after it, and of the code it emits. *)
Definition does {A} (c : M A) (s : state) (P G : A -> state -> Prop) : Prop :=
  wp c s (fun a s' => P a s' /\ exists its, tracks [] its s s' (G a s')).

Lemma tracks_refl s : tracks [] [] s s True.
Proof. split; [apply emits_refl|done|done]. Qed.
Lemma tracks_mono L its s0 s (F F' : Prop) : tracks L its s0 s F -> (F -> F') -> tracks L its s0 s F'.
Proof. intros [] H. split; auto. Qed.
Lemma tracks_mono_linked L its s0 s (F F' : Prop) : tracks L its s0 s F -> (linked sf lp s -> F -> F') -> tracks L its s0 s F'.
Proof. intros [] H. split; auto. Qed.
Lemma tracks_app L i s0 s F L' i' s' G :
  tracks L i s0 s F -> tracks L' i' s s' G -> tracks (L ++ L') (i ++ i') s0 s' (F /\ G).
Proof.
  intros [E A S] [E' A' S']. split; [by eapply emits_trans|by etrans|]. intros Hl Hc. rewrite (code_of_app _ _ _ _ _ _ _ E) in Hc.
  destruct Hc as [H1 H2]. split; [|auto]. apply S; [by eapply linked_after|done].
Qed.

Section Rules.
Context {B : Type} (Q : B -> state -> Prop) (L : list nat) (i : list item) (s0 s : state) (F : Prop) (T : tracks L i s0 s F).

Lemma follow_does {A} (c : M A) k P G :
  does c s P G -> (forall a s' i', P a s' -> tracks L i' s0 s' (F /\ G a s') -> (nlabels s <= nlabels s')%nat -> wp (k a) s' Q) -> wp (bind c k) s Q.
Proof.
  intros Hc Hk. apply wp_bind. eapply wp_mono; [exact Hc|]. intros a s' (HP & its & HG). apply (Hk a s' (i ++ its)); [done| |].
  - rewrite <- (app_nil_r L). by apply tracks_app with s.
  - by destruct (tr_emits _ _ _ _ _ HG).
Qed.
Lemma follow_new k :
  (forall s', tracks (nlabels s :: L) i s0 s' F -> names s'.2 = names s.2 -> size_at s' = size_at s ->
     nlabels s' = S (nlabels s) -> wp (k (nlabels s)) s' Q) ->
  wp (bind new_label k) s Q.
Proof.
  intros Hk. destruct T as [E A S]. destruct (emits_new_label _ _ _ _ E) as (s' & Es & H1 & H2 & H3).
  apply wp_bind. unfold wp at 1. rewrite Es. apply Hk; [|injection Es as <-; done..].
  assert (Ha : after s s').
  { injection Es as <-. constructor; cbn; try done. intros l p Hp. by apply lookup_app_l_Some. }
  split; [done|by etrans|]. intros Hl Hc. apply S; [by eapply linked_after|done].
Qed.
Lemma follow_place l k :
  l ∈ L ->
  (forall s', tracks (List.filter (fun x => negb (x =? l)%nat) L) i s0 s' (F /\ opval lp (Lab l) = Z.of_nat (size_at s')) ->
     names s'.2 = names s.2 -> size_at s' = size_at s -> nlabels s' = nlabels s -> wp (k tt) s' Q) ->
  wp (bind (place l) k) s Q.
Proof.
  intros Hl Hk. destruct T as [E A S]. destruct (em_open _ _ _ _ E _ Hl) as [_ Ho].
  destruct (emits_place _ _ _ _ _ E Hl) as (s' & Es & H1 & H2 & H3). apply wp_bind. unfold wp at 1. rewrite Es.
  unfold place, here, gets, the_gen, bind, modify_g in Es. cbn beta iota in Es. unfold gets in Es. cbn beta iota in Es.
  pose proof (lookup_lt_Some _ _ _ Ho) as Hlt. destruct (Nat.ltb_spec l (nlabels s)); [|lia]. injection Es as <-.
  set (s' := (_, _)) in *. assert (Ha : after s s').
  { constructor; cbn; try done. intros l' p Hp. rewrite list_lookup_insert_ne; [done|congruence]. }
  apply Hk; [|done..]. split; [done|by etrans|]. intros Hn Hc. split; [apply S; [by eapply linked_after|done]|].
  assert (E' : lp !! l = Some (Some (u32 (Z.of_nat (size_at s))))) by (apply (ln_labels _ _ _ Hn); cbn; by apply list_lookup_insert_eq).
  cbn [opval]. rewrite E'. cbn. pose proof (ln_size _ _ _ Hn). unfold u32, wrap_u. rewrite Z.mod_small; [done|]. cbn in *. lia.
Qed.
End Rules.

(** ** Emission *)

Lemma does_item it (c : M unit) s s' (P : unit -> state -> Prop) :
  c s = Comp (tt, s') -> emits [] [it] s s' -> names s'.2 = names s.2 -> P tt s' ->
  does c s P (fun _ s' => size_at s' = (size_at s + item_size it)%nat /\ insn_at sf (Z.of_nat (size_at s)) it.1 (map (opval lp) it.2)).
Proof.
  intros Ec E Hn HP. unfold does, wp. rewrite Ec. split; [done|]. exists [it]. split; [done|by eapply emits_names|].
  intros _ Hc. split; [|by apply code_of_one]. rewrite (emits_size _ _ _ _ E). unfold items_size. cbn. lia.
Qed.

Lemma does_emit b p s : shape_of b [] ->
  does (emit b p) s (same s) (fun _ s' => size_at s' = (size_at s + 1)%nat /\ insn_at sf (Z.of_nat (size_at s)) b []).
Proof.
  intros Hb. eapply (does_item (b, [])); [reflexivity| |done|done].
  apply emits_item; cbn [fixes fix_ops app snd fst]; rewrite ?app_nil_r; try done.
  - eapply shape_ok_of; [done|operands].
  - by repeat constructor.
Qed.
Lemma does_emit1 b k a p s : shape_of b [k] -> k <> KCodeOffset -> is_u32 a ->
  does (emit1 b a p) s (same s) (fun _ s' => size_at s' = (size_at s + 5)%nat /\ insn_at sf (Z.of_nat (size_at s)) b [a]).
Proof.
  intros Hb Hk Ha. eapply (does_item (b, [Imm a])); [reflexivity| |done|done].
  apply emits_item; try done; cbn [fixes fix_ops app snd fst]; rewrite ?app_nil_r; try done.
  - cbn. by rewrite <- app_assoc.
  - eapply shape_ok_of; [done|operands].
  - by repeat constructor.
Qed.
Lemma does_jump b l p s : shape_of b [KCodeOffset] -> (l < nlabels s)%nat ->
  does (emit_jump b l p) s (same s) (fun _ s' => size_at s' = (size_at s + 5)%nat /\ insn_at sf (Z.of_nat (size_at s)) b [opval lp (Lab l)]).
Proof.
  intros Hb Hl. eapply (does_item (b, [Lab l])); [reflexivity| |done|done].
  apply emits_item; try done; cbn [fixes fix_ops app snd fst]; rewrite ?app_nil_r; try done.
  - cbn. by rewrite <- app_assoc.
  - cbn. rewrite length_app. done.
  - eapply shape_ok_of; [done|operands].
  - by repeat constructor.
Qed.

(** A change of state that emits nothing. *)
Lemma does_quiet {A} (c : M A) s a s' (P : A -> state -> Prop) :
  c s = Comp (a, s') -> quiet s s' -> (length (g_locals s.2) <= length (g_locals s'.2))%nat -> P a s' ->
  does c s P (fun _ s' => size_at s' = size_at s).
Proof.
  intros Ec Hq Hl HP. unfold does, wp. rewrite Ec. split; [done|]. exists []. apply quiet_emits in Hq.
  split; [done|by eapply emits_after|]. intros _ _. rewrite (emits_size _ _ _ _ Hq). cbn. lia.
Qed.
Lemma does_intern v s : scalar v = true -> tables_ok s ->
  does (intern v) s (fun c s' => names s'.2 = names s.2 /\ is_u32 c)
    (fun c s' => size_at s' = size_at s /\ varref_decode (encode (PConst c)) = Const c /\ get_z (const_pool sf) c = Some v).
Proof.
  intros Hv [Hp Hsc].
  destruct (intern_spec v s Hv Hp) as (n & s' & E & E2 & Ec & Eg & Hpre & Hp' & En). unfold does, wp. rewrite E, E2.
  split; [split; [done|apply u32_ok]|]. exists [].
  assert (Hem : emits [] [] s s').
  { constructor; rewrite ?Ec, ?E2, ?Eg, ?app_nil_r; try done.
    - intros l Hm. by apply not_elem_of_nil in Hm. - intros. lia. - unfold tables_ok. by rewrite E2. }
  split; [done|eapply emits_names; [done|by rewrite E2]|]. intros Hl _. rewrite Ec. split; [done|].
  pose proof (ln_pool _ _ _ Hl). assert (Hn : const_pool sf !! n = Some v) by (eapply prefix_lookup_Some; [exact En|exact (ln_consts _ _ _ Hl)]).
  pose proof (lookup_lt_Some _ _ _ Hn). assert (Z.of_nat n < 2 ^ 29) by lia.
  assert (u32 (Z.of_nat n) = Z.of_nat n) as -> by (unfold u32, wrap_u; apply Z.mod_small; lia).
  split; [apply decode_const; lia|]. by rewrite get_z_nat.
Qed.
End Follow.

(** Following a computation: [begin], one [follow] or [follow_label] per
    call, [finish]. *)
Ltac begin :=
  unfold does; apply wp_last;
  lazymatch goal with |- wp (bind _ _) ?s (fun _ _ => _ /\ exists _, tracks ?sf ?lp _ _ _ _ _) => pose proof (tracks_refl sf lp s) end.
Ltac flat := repeat lazymatch goal with |- wp (bind (bind _ _) _) _ _ => apply wp_assoc end.
Tactic Notation "follow_here" tactic3(tac) :=
  lazymatch goal with
  | T : tracks _ _ ?L ?i ?s0 ?s ?F |- wp (bind _ _) ?s _ => eapply (follow_does _ _ _ L i s0 s F T); [solve [tac]|]
  end.
Tactic Notation "follow" tactic3(tac) := flat; follow_here tac.
Ltac follow_label :=
  flat; lazymatch goal with
  | T : tracks _ _ ?L ?i ?s0 ?s ?F |- wp (bind new_label _) ?s _ => apply (follow_new _ _ _ L i s0 s F T)
  | T : tracks _ _ ?L ?i ?s0 ?s ?F |- wp (bind (place _) _) ?s _ => apply (follow_place _ _ _ L i s0 s F T); [in_labels|]
  end.
Ltac finish :=
  lazymatch goal with
  | T : tracks _ _ _ ?i ?s0 ?s _ |- wp (ret _) ?s _ => split; [try congruence|exists i; eapply tracks_mono; [exact T|]]
  end.
Ltac finish_linked :=
  lazymatch goal with
  | T : tracks _ _ _ ?i ?s0 ?s _ |- wp (ret _) ?s _ => split; [try congruence|exists i; eapply tracks_mono_linked; [exact T|]]
  end.
