(* ===== verification/CcCorrectExpr.v ===== *)
(** * Compiled expressions compute what they mean

    The code of an expression, run in a frame whose locals hold the variables,
    pushes the value the reference semantics gives, or stops with its error. *)

From S2P Require Import Prelude Loops NetText BhsOpcode BhsDisasm BhsStd BhsValue BhsOps BhsProgram BhsVm CcLex CcAst CcParse CcSema CcCodegen CcCodegenSpec CcCodeWf CcRun CcEval CcMachine CcLink CcFollow.
#[local] Open Scope list_scope.
#[local] Open Scope Z_scope.
Import Gen.
#[local] Open Scope gen_scope.

(** ** Names *)

(** The names of [kn] mean something, and their variables are where the
    generator placed them. *)
Definition resolves (kn : text -> bool) (g : ScriptGen) : Prop :=
  length (local_ty g) = length (g_locals g) /\
  forall n, kn n = true -> is_Some (lookup n g) \/ is_Some (g_labels g !! n).
Definition reads (kn : text -> bool) (g : ScriptGen) (rho : env) (ls : list (option Slot)) : Prop :=
  forall n, kn n = true ->
    match lookup n g with
    | Some x => exists tv, find_var n rho = Some tv /\ var_at (local_ty g) ls x tv
    | None => find_var n rho = None
    end.

Lemma names_eq g g' : names g' = names g ->
  scopes g' = scopes g /\ g_locals g' = g_locals g /\ local_ty g' = local_ty g /\ g_labels g' = g_labels g /\
  breaks g' = breaks g /\ continues g' = continues g /\ g_ret g' = g_ret g.
Proof. unfold names. intros N. repeat split; congruence. Qed.
Lemma resolves_names kn g g' : names g' = names g -> resolves kn g -> resolves kn g'.
Proof. intros (E1 & E2 & E3 & E4 & _)%names_eq. unfold resolves, lookup. by rewrite E1, E2, E3, E4. Qed.
Lemma reads_names kn g g' rho ls : names g' = names g -> reads kn g rho ls -> reads kn g' rho ls.
Proof. intros (E1 & E2 & E3 & E4 & _)%names_eq. unfold reads, lookup. by rewrite E1, E3. Qed.

(** The type the generator sees is the one that is written down. *)
Lemma scalar_resolved t u x : scalar_type t = Some x -> resolve_type t u = TyScalar x.
Proof.
  destruct t as [t|]; cbn; [|by intros [= <-]]. destruct (Z.eqb_spec (array_depth t) 0) as [->|]; [|done].
  destruct (scalar_from_name _) as [[]|]; try done; by intros [= <-].
Qed.
Lemma is_str_string t : is_str t = is_string t.
Proof. done. Qed.
Lemma static_type BUILTINS u kn g rho ls e :
  reads kn g rho ls -> ok_expr kn e = true -> static_ty BUILTINS u g e = type_of rho e.
Proof.
  intros R. induction e using expr_tree_ind; cbn [ok_expr static_ty type_of]; intros Hok; try done.
  - specialize (R _ Hok). destruct (lookup s g) as [x|]; [|by rewrite R]. destruct R as (tv & -> & i & -> & Ht & _).
    cbn. by rewrite get_z_nat, Ht.
  - apply andb_true_iff in Hok as [[x Hx]%bool_decide_eq_true Hok]. rewrite Hx. cbn [fmap option_fmap option_map]. f_equal. by apply scalar_resolved.
  - apply andb_true_iff in Hok as [[_ H1]%andb_true_iff H2]. rewrite IHe1, IHe2 by done. done.
Qed.

Section Expressions.
Context {std : StdLib} {H : Type} {hst : Host H} (builtin : Z -> option BuiltinDecl) (d : nat).
Context (m : Vm H) (fs : list Frame) (file script : Z) (expected : nat) (void : bool) (sf : ScriptFile) (lp : list (option Z)).
Hypothesis Hfile : get_z (files (prog m)) file = Some sf.
Context (BUILTINS : list BuiltinDecl) (unit_ : Unit) (fi : nat).
Abbreviation runs_to := (step1 builtin d m fs file script expected void).
Abbreviation stops_at := (stops builtin d m fs file script expected void).
Abbreviation at_ s ls st := (mkConfig (Z.of_nat (size_at s)) ls st).
Abbreviation is_good := (good runs_to stops_at).

(** The code from [s] to [s'] pushes the value of [ev]; with [fresh] it is a
    value of its own, not a reference to a local or a constant. *)
Definition computes (kn : text -> bool) (s s' : state) (ev : env -> option (result OpError Value)) (fresh : bool) : Prop :=
  forall rho ls st, reads kn s.2 rho ls ->
  is_good (at_ s ls st) (ev rho) (fun v c' => exists x,
    c' = at_ s' ls (x :: st) /\ holds fs file sf ls x v /\ scalar v = true /\ (fresh = true -> x = SVal v)).

Lemma at_add (s s' : state) k : size_at s' = (size_at s + k)%nat -> Z.of_nat (size_at s') = Z.of_nat (size_at s) + Z.of_nat k.
Proof. intros ->. apply Nat2Z.inj_add. Qed.
Lemma local_bound kn (s : state) i t : linked sf lp s -> resolves kn s.2 -> local_ty s.2 !! i = Some t -> varref_decode (encode (PLocal (Z.of_nat i))) = Local (Z.of_nat i).
Proof. intros Hl [Ht _] E%lookup_lt_Some. apply decode_local. pose proof (ln_locals _ _ _ Hl). rewrite Ht in E. lia. Qed.

(** *** Constants and variables *)

Lemma does_push_const kn v p s : scalar v = true -> tables_ok s ->
  does sf lp (push_const v p) s (same s) (fun _ s' => computes kn s s' (fun _ => Some (Ok v)) false).
Proof.
  intros Hv Ht. unfold push_const. begin.
  follow (by apply does_intern). intros c s1 i1 [N1 Hc] T1 _.
  follow ltac:(eapply does_emit1; [shape|discriminate|by apply const_u32]). intros [] s2 i2 N2 T2 _.
  finish. intros ((_ & Es1 & Ed & Ev) & Es2 & I) rho ls st R. rewrite Es1 in I.
  eapply good_step; [by eapply push_const_step|]. apply good_ok. eexists. split; [by rewrite (at_add _ _ _ Es2), Es1|]. by repeat split.
Qed.
Lemma does_note_loc c s : does sf lp (note_loc c) s (same s) (fun _ s' => size_at s' = size_at s).
Proof. by eapply does_quiet. Qed.
Lemma does_loc_str kn v p s : tables_ok s ->
  does sf lp (do! c := intern (VStr v) in note_loc c ;;; emit1 op.PUSH (encode (PConst c)) p) s (same s)
    (fun _ s' => computes kn s s' (fun _ => Some (Ok (VStr v))) false).
Proof.
  intros Ht. begin. follow (by apply does_intern). intros c s1 i1 [N1 Hc] T1 _.
  follow (apply does_note_loc). intros [] s2 i2 N2 T2 _.
  follow (eapply does_emit1; [shape|discriminate|by apply const_u32]). intros [] s3 i3 N3 T3 _.
  finish. intros (((_ & Es1 & Ed & Ev) & Es2) & Es3 & I) rho ls st R. rewrite Es2, Es1 in I.
  eapply good_step; [by eapply push_const_step|]. apply good_ok. eexists.
  split; [by rewrite (at_add _ _ _ Es3), Es2, Es1|]. by repeat split.
Qed.
Lemma does_push_local kn n p s i : tables_ok s -> resolves kn s.2 -> kn n = true -> lookup n s.2 = Some i ->
  does sf lp (emit1 op.PUSH (encode i) p) s (same s) (fun _ s' => size_at s' = (size_at s + 5)%nat /\
    forall rho ls st, reads kn s.2 rho ls -> exists k t v, i = PLocal (Z.of_nat k) /\ find_var n rho = Some (t, v) /\
      ls !! k = Some (Some (SVal v)) /\ scalar v = true /\ local_ty s.2 !! k = Some t /\
      runs_to (at_ s ls st) (at_ s' ls (SRef (BLocal (length fs) (Z.of_nat k)) :: st))).
Proof.
  intros [_ Ht] Hr Hn El. begin. follow (eapply does_emit1; [shape|discriminate|by eapply lookup_place]). intros [] s1 i1 N1 T1 _.
  split; [done|]. exists i1. destruct T1 as [E1 A1 S1]. split; [done|done|]. intros Hl Hc. destruct (S1 Hl Hc) as (_ & Es & I).
  split; [done|]. intros rho ls st R. specialize (R n Hn). rewrite El in R. destruct R as ([t v] & Hf & k & -> & Hk & Hls & Hs).
  exists k, t, v. do 4 (split; [done|]). split; [done|]. rewrite (at_add _ _ _ Es). eapply push_local_step; [done|exact I| |by rewrite get_z_nat].
  eapply local_bound; [by eapply linked_after|done|done].
Qed.
Lemma does_name kn n p s : tables_ok s -> resolves kn s.2 -> kn n = true ->
  does sf lp (do! x := name_slot unit_ fi n p in emit1 op.PUSH (encode x) p) s (same s)
    (fun _ s' => computes kn s s' (fun rho => eval (g_labels s.2) rho (EName n p)) false).
Proof.
  intros Ht Hr Hn. unfold name_slot. begin. flat. apply wp_gets. destruct (lookup n s.2) as [x|] eqn:El.
  - apply wp_unit. follow (by apply (does_push_local kn n)). intros [] s1 i1 N1 T1 _. finish.
    intros (_ & Es & S) rho ls st R. destruct (S rho ls st R) as (k & t & v & -> & Hf & Hls & Hs & _ & St).
    eapply good_step; [exact St|]. cbn [eval]. rewrite Hf. apply good_ok. eexists. split; [done|]. split; [|done]. cbn. by rewrite get_z_nat.
  - destruct (proj2 Hr n Hn) as [[? ?]|[v Hv]]; [congruence|]. rewrite Hv.
    follow (by apply (does_intern _ _ (VInt (i32 v)))). intros c s1 i1 [N1 Hc] T1 _. apply wp_unit.
    follow (eapply does_emit1; [shape|discriminate|by apply const_u32]). intros [] s2 i2 N2 T2 _.
    finish. intros ((_ & Es1 & Ed & Ev) & Es2 & I) rho ls st R. rewrite Es1 in I. specialize (R n Hn). rewrite El in R.
    cbn [eval]. rewrite R, Hv. eapply good_step; [by eapply push_const_step|]. apply good_ok. eexists.
    split; [by rewrite (at_add _ _ _ Es2), Es1|]. by repeat split.
Qed.
(** *** Operators *)

Definition compiles (kn : text -> bool) (e : Expr) : Prop :=
  forall s, tables_ok s -> resolves kn s.2 ->
  does sf lp (expr BUILTINS unit_ fi e) s (same s)
    (fun _ s' => computes kn s s' (fun rho => eval (g_labels s.2) rho e) (negb (init_by_copy e))).

Lemma tracks_tables L i s0 s F : tracks sf lp L i s0 s F -> tables_ok s0 -> tables_ok s.
Proof. intros [[] _ _]. done. Qed.
(** The code of an expression, in a state with the same names. *)
Lemma computes_names kn (s0 s s' : state) ev b : names s.2 = names s0.2 ->
  computes kn s s' ev b -> forall rho ls st, reads kn s0.2 rho ls ->
  is_good (at_ s ls st) (ev rho) (fun v c' => exists x,
    c' = at_ s' ls (x :: st) /\ holds fs file sf ls x v /\ scalar v = true /\ (b = true -> x = SVal v)).
Proof. intros N C rho ls st R. apply C. by eapply reads_names. Qed.

(** An operator's instruction, the value of which is pushed. *)
Lemma good_operated op u o (s' : state) c ls st b r :
  operated builtin d m fs file script expected void op u o c (fun w => at_ s' ls (SVal w :: st)) ->
  (forall x, r = Some x -> do_operator (S d) (heap m) u op o = Some (x, heap m)) -> (forall v, r = Some (Ok v) -> scalar v = true) ->
  is_good c r (fun v c' => exists x,
    c' = at_ s' ls (x :: st) /\ holds fs file sf ls x v /\ scalar v = true /\ (b = true -> x = SVal v)).
Proof.
  intros Ho Hd Hs. eapply good_mono; [apply good_op|].
  - intros x Hx. exact (Ho x (Hd x Hx)).
  - intros w c' [Hw ->]. eexists. split; [done|]. split; [done|]. split; [by apply Hs|done].
Qed.

Lemma compiles_unary kn p e pos : compiles kn e -> ok_expr kn (EUnary p e pos) = true -> compiles kn (EUnary p e pos).
Proof.
  intros IH Hok s Ht Hr. cbn [expr]. begin. follow (by apply IH). intros [] s1 i1 N1 T1 _.
  assert (exists o, unary_op p = Some o /\ (o =? 0x09) || (o =? 0x16) || (o =? 0x25) = true) as (o & Eo & Ho) by (destruct p; try done; by eexists).
  rewrite Eo. follow (apply does_emit; by eapply unary_shape). intros [] s2 i2 N2 T2 _. finish.
  intros ((_ & C) & Es & I) rho ls st R. cbn [eval]. eapply good_then; [by apply C|]. intros v c' (x & -> & Hx & Hv & _).
  eapply good_operated; [|intros r; by apply unop_opcode|intros w; apply unop_scalar].
  rewrite (at_add _ _ _ Es). by eapply unary_step.
Qed.
Lemma does_resolved_tag t p s : does sf lp (resolved_type_tag unit_ fi (TyScalar t) p) s (fun a s' => a = tag t /\ s' = s) (fun _ _ => True).
Proof. split; [done|]. exists []. split; [apply emits_refl|done|done]. Qed.
Lemma compiles_cast kn t e pos : compiles kn e -> ok_expr kn (ECast t e pos) = true -> compiles kn (ECast t e pos).
Proof.
  cbn [ok_expr]. intros IH [[y Hy]%bool_decide_eq_true Hok]%andb_true_iff s Ht Hr. cbn [expr]. begin.
  follow (by apply IH). intros [] s1 i1 N1 T1 _. rewrite (scalar_resolved _ unit_ _ Hy).
  follow (apply does_resolved_tag). intros ? ? i2 [-> ->] T2 _.
  follow (eapply does_emit1; [shape|discriminate|apply tag_u32]). intros [] s3 i3 N3 T3 _. finish.
  intros (((_ & C) & _) & Es & I) rho ls st R. cbn [eval]. rewrite Hy. eapply good_then; [by apply C|]. intros v c' (x & -> & Hx & Hv & _).
  cbn [mbind option_bind]. destruct (cast_value y v) as [w|] eqn:Ew; [|done]. cbn [fmap option_fmap option_map].
  eapply good_step; [by eapply cast_step|]. apply good_ok. eexists. split; [by rewrite (at_add _ _ _ Es)|].
  split; [done|]. split; [by eapply cast_scalar|done].
Qed.

Lemma compiles_logic kn p l r pos : compiles kn l -> compiles kn r -> p = AndAnd \/ p = OrOr -> compiles kn (EBinary p l r pos).
Proof.
  intros IHl IHr Hp s Ht Hr. cbn [expr]. unfold binary.
  assert (bool_decide (p = AndAnd) || bool_decide (p = OrOr) = true) as -> by by destruct Hp as [->| ->].
  set (jump := if bool_decide _ then _ else _). assert (Hj : shape_of jump [KCodeOffset]) by (unfold jump; destruct (bool_decide _); shape).
  begin. follow_label. intros s1 T1 N1 Z1 L1.
  follow (apply IHl; [by eapply tracks_tables|by eapply resolves_names]). intros [] s2 i2 N2 T2 L2.
  follow (apply does_jump; [done|lia]). intros [] s3 i3 N3 T3 L3.
  assert (names s3.2 = names s.2) as N3' by congruence.
  follow (apply IHr; [by eapply tracks_tables|by eapply resolves_names]). intros [] s4 i4 N4 T4 L4.
  follow_label. intros s5 T5 N5 Z5 L5. cbn [List.filter] in T5. rewrite Nat.eqb_refl in T5. cbn [negb] in T5.
  follow (apply does_emit; shape). intros [] s6 i6 N6 T6 L6. finish.
  intros (((((_ & C1) & E3 & I3) & C4) & E5) & E6 & I6) rho ls st R. cbn [eval].
  rewrite (proj1 (proj2 (proj2 (proj2 (names_eq _ _ N1))))) in C1. rewrite (proj1 (proj2 (proj2 (proj2 (names_eq _ _ N3'))))) in C4.
  pose proof (computes_names _ _ _ _ _ _ N1 C1 rho ls st R) as G1. rewrite Z1 in G1.
  eapply good_then; [exact G1|]. intros a c' (x & -> & Hx & Ha & _).
  assert (Hend : forall y w, holds fs file sf ls y w ->
    is_good (at_ s5 ls (y :: st)) (Some (Ok (vbool (is_true w)))) (fun v c' => exists x,
      c' = at_ s6 ls (x :: st) /\ holds fs file sf ls x v /\ scalar v = true /\ (negb (init_by_copy (EBinary p l r pos)) = true -> x = SVal v))).
  { intros y w Hy. eapply good_step; [by eapply cast_bool_step|]. apply good_ok. eexists. split; [by rewrite (at_add _ _ _ E6)|].
    split; [done|]. split; [by unfold vbool|done]. }
  assert (Hmid : is_good (at_ s3 ls st) (and_then (eval (g_labels s.2) rho r) (fun b => Some (Ok (vbool (is_true b))))) (fun v c' => exists x,
      c' = at_ s6 ls (x :: st) /\ holds fs file sf ls x v /\ scalar v = true /\ (negb (init_by_copy (EBinary p l r pos)) = true -> x = SVal v))).
  { eapply good_then; [by apply (computes_names _ _ _ _ _ _ N3' C4)|]. intros b c' (y & -> & Hy & _). rewrite <- Z5. by apply Hend. }
  rewrite E5 in I3. pose proof (at_add _ _ _ E3) as A3. change (Z.of_nat 5) with 5 in A3.
  destruct Hp as [->| ->]; cbn beta iota.
  - pose proof (jump_sc_step builtin d m fs file script expected void sf Hfile _ ls st true _ x a I3 Hx) as J. cbn beta iota in J.
    destruct (is_false a) eqn:Ef; (eapply good_step; [exact J|]); [|by rewrite <- A3].
    replace (vbool false) with (vbool (is_true a)) by (unfold is_true; by rewrite Ef). by apply Hend.
  - pose proof (jump_sc_step builtin d m fs file script expected void sf Hfile _ ls st false _ x a I3 Hx) as J. cbn beta iota in J.
    destruct (is_true a) eqn:Ef; (eapply good_step; [exact J|]); [|by rewrite <- A3].
    replace (vbool true) with (vbool (is_true a)) by by rewrite Ef. by apply Hend.
Qed.
Lemma does_count_cast s : does sf lp count_cast s (same s) (fun _ s' => size_at s' = size_at s).
Proof. by eapply does_quiet. Qed.
(** A value that meets a string on its left is written out. *)
Lemma does_coerce (b : bool) pos s :
  does sf lp (when b (emit1 op.CAST (tag TStr) pos ;;; count_cast)) s (same s) (fun _ s' => forall ls st x v,
    holds fs file sf ls x v -> scalar v = true -> exists y, let w := if b then default v (cast_value TStr v) else v in
      rtc runs_to (at_ s ls (x :: st)) (at_ s' ls (y :: st)) /\ holds fs file sf ls y w /\ scalar w = true).
Proof.
  destruct b; cbn [when]; begin.
  - follow (eapply does_emit1; [shape|discriminate|apply tag_u32]). intros [] s1 i1 N1 T1 _.
    follow (apply does_count_cast). intros [] s2 i2 N2 T2 _. finish.
    intros ((_ & E1 & I1) & E2) ls st x v Hx Hv. cbn beta iota zeta.
    assert (exists w, cast_value TStr v = Some w) as [w Ew].
    { cbn. destruct v; try done; cbn; by eexists. }
    exists (SVal w). rewrite Ew. cbn [default]. split; [|split; [done|by eapply cast_scalar]].
    apply rtc_once. rewrite E2, (at_add _ _ _ E1). by eapply cast_step.
  - apply wp_unit. finish. intros _ ls st x v Hx Hv. exists x. by repeat split.
Qed.
Lemma compiles_binary kn p l r pos : compiles kn l -> compiles kn r -> ok_expr kn (EBinary p l r pos) = true -> is_binop p = true ->
  compiles kn (EBinary p l r pos).
Proof.
  cbn [ok_expr]. intros IHl IHr [[_ Hl]%andb_true_iff Hr']%andb_true_iff Hp s Ht Hr. cbn [expr]. unfold binary.
  assert (bool_decide (p = AndAnd) || bool_decide (p = OrOr) = false) as -> by by destruct p.
  assert (exists o, binary_op p = Some o /\ Vm.is_binary o = true) as (o & Eo & Ho) by (destruct p; try done; by eexists).
  begin. follow (by apply IHl). intros [] s1 i1 N1 T1 _.
  follow (apply IHr; [by eapply tracks_tables|by eapply resolves_names]). intros [] s2 i2 N2 T2 _.
  flat. apply wp_gets. set (b := _ && _). follow (apply does_coerce). intros [] s3 i3 N3 T3 _. rewrite Eo.
  follow (apply does_emit; by eapply binary_shape). intros [] s4 i4 N4 T4 _. finish.
  intros ((((_ & C1) & C2) & C3) & E4 & I4) rho ls st R.
  rewrite (proj1 (proj2 (proj2 (proj2 (names_eq _ _ N1))))) in C2.
  assert (Hb : b = coerced (type_of rho l) (type_of rho r)).
  { unfold b. assert (R2 : reads kn s2.2 rho ls) by (eapply reads_names; [|exact R]; congruence).
    rewrite (static_type _ _ _ _ _ _ _ R2 Hl), (static_type _ _ _ _ _ _ _ R2 Hr'). unfold coerced. rewrite is_str_string.
    rewrite <- andb_assoc. f_equal. by destruct (type_of rho r). }
  assert (G : is_good (at_ s ls st) (and_then (eval (g_labels s.2) rho l) (fun a => and_then (eval (g_labels s.2) rho r)
      (fun b => binop p a (coerce (type_of rho l) (type_of rho r) b)))) (fun v c' => exists x,
      c' = at_ s4 ls (x :: st) /\ holds fs file sf ls x v /\ scalar v = true /\ (negb (init_by_copy (EBinary p l r pos)) = true -> x = SVal v))).
  { eapply good_then; [by apply C1|]. intros u c' (x & -> & Hx & Hu & _).
    eapply good_then; [by apply (computes_names _ _ _ _ _ _ N1 C2)|]. intros v c' (y & -> & Hy & Hv & _).
    destruct (C3 ls (x :: st) y v Hy Hv) as (z & Hz & Hzw & Hws). eapply good_steps; [exact Hz|]. rewrite Hb in *. fold (coerce (type_of rho l) (type_of rho r) v) in *.
    eapply good_operated; [|intros w; by apply binop_opcode|intros w; apply binop_scalar].
    rewrite (at_add _ _ _ E4). by eapply binary_step. }
  cbn [eval]. destruct p; try done; exact G.
Qed.
(** *** Every expression of the language *)
Lemma compiles_expr kn e : ok_expr kn e = true -> compiles kn e.
Proof.
  induction e using expr_tree_ind; try done; intros Hok.
  - intros s Ht Hr. by apply does_push_const.
  - intros s Ht Hr. by apply does_push_const.
  - intros s' Ht Hr. by apply does_push_const.
  - intros s' Ht Hr. by apply does_loc_str.
  - intros s' Ht Hr. by apply does_name.
  - apply compiles_cast; [|done]. apply IHe. cbn [ok_expr] in Hok. by apply andb_true_iff in Hok as [_ ?].
  - apply compiles_unary; [|done]. apply IHe. cbn in Hok. by destruct op.
  - pose proof Hok as [[[[H1|H1]%orb_true_iff|H1]%orb_true_iff Hl]%andb_true_iff Hr]%andb_true_iff.
    + apply compiles_binary; auto.
    + apply compiles_logic; auto. left. by apply bool_decide_eq_true in H1.
    + apply compiles_logic; auto. right. by apply bool_decide_eq_true in H1.
Qed.
End Expressions.
