(* ===== verification/CcCorrectStmt.v ===== *)
(** * Compiled statements do what they mean

    The code of a statement, run in a frame whose locals hold the variables,
    leads to where the statement leaves: past it, to the end or the next pass
    of the loop around it, or to a return. *)

From S2P Require Import Prelude Loops NetText BhsOpcode BhsDisasm BhsStd BhsValue BhsOps BhsProgram BhsVm CcLex CcAst CcParse CcSema CcCodegen CcCodegenSpec CcCodeWf CcRun CcEval CcMachine CcLink CcFollow CcCorrectExpr.
#[local] Open Scope list_scope.
#[local] Open Scope Z_scope.
Import Gen.
#[local] Open Scope gen_scope.

(** ** Loops on any machine *)

Section Loop.
Context {C : Type} (step : C -> C -> Prop) (stop : C -> OpError -> Prop) {L : Type} (R : env -> L -> Prop).
Context (top inside fall again past : L -> C) (leaves : option Value -> C -> Prop).
Context (cond : env -> option (result OpError bool)) (body : env -> result_of) (next : env -> option (result OpError env)).

(** Where the body leaves, and where the loop does. *)
Definition body_post (r : env * flow) (c : C) : Prop :=
  match r.2 with
  | FNext => exists l, R r.1 l /\ c = fall l
  | FContinue => exists l, R r.1 l /\ c = again l
  | FBreak => exists l, R r.1 l /\ c = past l
  | FReturn v => leaves v c
  end.
Definition loop_post (r : env * flow) (c : C) : Prop :=
  match r.2 with
  | FNext => exists l, R r.1 l /\ c = past l
  | FReturn v => leaves v c
  | FBreak | FContinue => False
  end.

Hypothesis Hbody : forall rho l, R rho l -> good step stop (inside l) (body rho) body_post.

Lemma good_loop :
  (forall rho l, R rho l -> good step stop (top l) (cond rho) (fun b c => c = (if b : bool then inside else past) l)) ->
  (forall rho l, R rho l -> good step stop (fall l) (next rho) (fun rho' c => exists l', R rho' l' /\ c = top l')) ->
  (forall rho l, R rho l -> good step stop (again l) (next rho) (fun rho' c => exists l', R rho' l' /\ c = top l')) ->
  forall n rho l, R rho l -> good step stop (top l) (loop n cond body next rho) loop_post.
Proof.
  intros Hc Hf Ha n. induction n as [|n IH]; intros rho l HR; cbn [loop]; [done|].
  eapply good_then; [by apply Hc|]. intros [|] c ->; [|apply good_ok; by exists l].
  eapply good_then; [by apply Hbody|]. intros [rho' f] c. unfold body_post. cbn [fst snd]. destruct f.
  - intros (l' & HR' & ->). eapply good_then; [by apply Hf|]. intros rho2 c (l2 & HR2 & ->). by apply IH.
  - intros (l' & HR' & ->). apply good_ok. by exists l'.
  - intros (l' & HR' & ->). eapply good_then; [by apply Ha|]. intros rho2 c (l2 & HR2 & ->). by apply IH.
  - intros Hv. by apply good_ok.
Qed.
(** The condition last: it is tested where the body falls through. *)
Lemma good_loop_last :
  (forall rho l, R rho l -> good step stop (fall l) (cond rho) (fun b c => c = (if b : bool then inside else past) l)) ->
  (forall l, again l = fall l) ->
  forall n rho l, R rho l -> good step stop (inside l) (loop_last n cond body rho) loop_post.
Proof.
  intros Hc Ha n. induction n as [|n IH]; intros rho l HR; cbn [loop_last]; [done|].
  assert (Hback : forall rho' l', R rho' l' -> good step stop (fall l')
    (and_then (cond rho') (fun go => if go : bool then loop_last n cond body rho' else Some (Ok (rho', FNext)))) loop_post).
  { intros rho' l' HR'. eapply good_then; [by apply Hc|]. intros [|] c ->; [by apply IH|apply good_ok; by exists l']. }
  eapply good_then; [by apply Hbody|]. intros [rho' f] c. unfold body_post. cbn [fst snd]. destruct f.
  - intros (l' & HR' & ->). by apply Hback.
  - intros (l' & HR' & ->). apply good_ok. by exists l'.
  - intros (l' & HR' & ->). rewrite Ha. by apply Hback.
  - intros Hv. by apply good_ok.
Qed.
End Loop.

(** ** What a statement leaves of the generator's state *)

Definition ctx (g : ScriptGen) := (g_labels g, breaks g, continues g, g_ret g).
Definition typed (g : ScriptGen) : Prop := length (local_ty g) = length (g_locals g).

(** Locals are only added, the enclosing scopes stay. *)
Record grows (g g' : ScriptGen) : Prop := {
  gr_ctx : ctx g' = ctx g;
  gr_types : local_ty g `prefix_of` local_ty g';
  gr_typed : typed g -> typed g';
  gr_tail : tail (scopes g') = tail (scopes g) }.
#[export] Instance grows_preorder : PreOrder grows.
Proof. split; [by intros g|]. intros g1 g2 g3 [] []. split; [congruence|by etrans|auto|congruence]. Qed.
Lemma names_grows g g' : names g' = names g -> grows g g'.
Proof.
  intros (E1 & E2 & E3 & E4 & E5 & E6 & E7)%names_eq. split; [unfold ctx; congruence|by rewrite E3|unfold typed; by rewrite E2, E3|congruence].
Qed.
Lemma names_slots g g' : names g' = names g -> slots_ok g -> slots_ok g'.
Proof. intros (E1 & E2 & E3 & _)%names_eq []. split; rewrite ?E1, ?E2, ?E3; done. Qed.
Lemma names_ctx g g' : names g' = names g -> ctx g' = ctx g.
Proof. intros (_ & _ & _ & E4 & E5 & E6 & E7)%names_eq. unfold ctx. congruence. Qed.

(** Names in the same scopes have the same variables. *)
Lemma related_grows g g' rho ls :
  slots_ok g -> scopes g' = scopes g -> local_ty g `prefix_of` local_ty g' -> related g' rho ls <-> related g rho ls.
Proof. intros Hs E [tys Et]. by eapply related_types. Qed.
Lemma in_names_scopes g g' sc : scopes g' = scopes g -> in_names g sc -> in_names g' sc.
Proof. unfold in_names. by intros ->. Qed.

Lemma known_resolves g sc : typed g -> in_names g sc -> resolves (known (g_labels g) sc) g.
Proof.
  intros Ht Hn. split; [done|]. intros n [Hk|Hk%bool_decide_eq_true]%orb_true_iff; [left|by right]. by eapply lookup_in_scope.
Qed.
Lemma related_reads kn g rho ls : related g rho ls -> reads kn g rho ls.
Proof. intros R n _. by apply find_related. Qed.

Section Statements.
Context {std : StdLib} {H : Type} {hst : Host H} (builtin : Z -> option BuiltinDecl) (d : nat).
Context (m : Vm H) (fs : list Frame) (file script : Z) (expected : nat) (void : bool) (sf : ScriptFile) (lp : list (option Z)).
Hypothesis Hfile : get_z (files (prog m)) file = Some sf.
Context (BUILTINS : list BuiltinDecl) (depth : nat) (unit_ : Unit) (fi : nat).
Abbreviation runs_to := (step1 builtin d m fs file script expected void).
Abbreviation stops_at := (stops builtin d m fs file script expected void).
Abbreviation at_ s ls st := (mkConfig (Z.of_nat (size_at s)) ls st).
Abbreviation is_good := (good runs_to stops_at).
Abbreviation holds_ := (holds fs file sf).
Abbreviation expr_ := (expr BUILTINS unit_ fi).

(** *** Expressions in statements *)

(** The code from [s] to [s'] pushes the value of [e]. *)
Definition pushes (s s' : state) (e : Expr) : Prop :=
  forall rho ls st, related s.2 rho ls ->
  is_good (at_ s ls st) (eval (g_labels s.2) rho e) (fun v c' => exists x,
    c' = at_ s' ls (x :: st) /\ holds_ ls x v /\ scalar v = true /\ (init_by_copy e = false -> x = SVal v)).
Lemma does_expr sc e s : ok_expr (known (g_labels s.2) sc) e = true -> tables_ok s -> typed s.2 -> in_names s.2 sc ->
  does sf lp (expr_ e) s (same s) (fun _ s' => pushes s s' e).
Proof.
  intros Hok Ht Hty Hn. pose proof (compiles_expr builtin d m fs file script expected void sf lp Hfile BUILTINS unit_ fi _ e Hok s Ht (known_resolves _ _ Hty Hn)) as W.
  eapply wp_mono; [exact W|]. intros [] s' (N & its & T). split; [done|]. exists its. eapply tracks_mono; [exact T|].
  intros C rho ls st R. eapply good_mono; [apply C; by apply related_reads|]. intros v c (x & -> & Hx & Hv & Hf).
  exists x. do 3 (split; [done|]). intros Hi. apply Hf. by rewrite Hi.
Qed.

Lemma wp_unassoc {A B D} (c : M A) (k : A -> M B) (h : B -> M D) s Q :
  wp (bind (bind c k) h) s Q -> wp (bind c (fun a => bind (k a) h)) s Q.
Proof. unfold wp, bind. by destruct (c s) as [[a s']| |]. Qed.

(** A condition: fall through when it holds, jump to [l] when it does not. *)
Lemma does_test sc e l p s : ok_expr (known (g_labels s.2) sc) e = true -> tables_ok s -> typed s.2 -> in_names s.2 sc -> (l < nlabels s)%nat ->
  does sf lp (expr_ e ;;; emit_jump op.JUMP_IF_NOT l p) s (same s) (fun _ s' => forall rho ls st, related s.2 rho ls ->
    is_good (at_ s ls st) (test (g_labels s.2) e rho) (fun b c => c = if b : bool then at_ s' ls st else mkConfig (opval lp (Lab l)) ls st)).
Proof.
  intros Hok Ht Hty Hn Hl. begin. follow (by eapply does_expr). intros [] s1 i1 N1 T1 L1.
  follow (apply does_jump; [shape|lia]). intros [] s2 i2 N2 T2 L2. finish.
  intros ((_ & C) & E2 & I) rho ls st R. unfold test. eapply good_then; [by apply C|]. intros v c (x & -> & Hx & _).
  eapply good_step; [by eapply jump_if_not_step|]. apply good_ok. rewrite (at_add _ _ _ E2). by destruct (is_true v).
Qed.

(** *** Expressions as statements *)

Definition performs (s s' : state) (e : Expr) : Prop :=
  slots_ok s.2 -> forall rho ls st, related s.2 rho ls ->
  is_good (at_ s ls st) (perform (g_labels s.2) e rho) (fun rho' c => exists ls', c = at_ s' ls' st /\ related s.2 rho' ls').

(** A variable is pushed as a reference to its local. *)
Lemma does_variable sc n q s : in_scope sc n = true -> tables_ok s -> typed s.2 -> in_names s.2 sc ->
  does sf lp (expr_ (EName n q)) s (same s) (fun _ s' => forall rho ls st, related s.2 rho ls -> exists k t v,
    lookup n s.2 = Some (PLocal (Z.of_nat k)) /\ find_var n rho = Some (t, v) /\ ls !! k = Some (Some (SVal v)) /\ scalar v = true /\
    runs_to (at_ s ls st) (at_ s' ls (SRef (BLocal (length fs) (Z.of_nat k)) :: st))).
Proof.
  intros Hsc Ht Hty Hn. pose proof (known_resolves _ _ Hty Hn) as Hr. assert (Hkn : known (g_labels s.2) sc n = true) by (unfold known; by rewrite Hsc).
  destruct (lookup_in_scope _ _ _ Hn Hsc) as [x El]. cbn [expr]. unfold name_slot. begin. flat. apply wp_gets. rewrite El. apply wp_unit.
  follow (by apply (does_push_local builtin d m fs file script expected void sf lp Hfile (known (g_labels s.2) sc) n)). intros [] s1 i1 N1 T1 _.
  finish. intros (_ & Z1 & S1) rho ls st R. destruct (S1 rho ls st) as (k & t & v & -> & Hf & Hls & Hv & _ & St); [by apply related_reads|].
  by exists k, t, v.
Qed.
Lemma does_assign sc p n q value pos s b :
  assign_op p = Some b -> in_scope sc n = true -> ok_expr (known (g_labels s.2) sc) value = true -> tables_ok s -> typed s.2 -> in_names s.2 sc ->
  does sf lp (expr_ value ;;; expr_ (EName n q) ;;; emit b pos ;;; emit op.POP pos) s (same s) (fun _ s' => performs s s' (EAssign p (EName n q) value pos)).
Proof.
  intros Eb Hsc Hok Ht Hty Hn. assert (Hb : Vm.is_assign b = true) by (destruct p; try done; by injection Eb as <-).
  begin. follow (by eapply does_expr). intros [] s1 i1 N1 T1 _. pose proof (names_eq _ _ N1) as (E1 & E2 & E3 & E4 & _).
  follow (eapply does_variable; [done|by eapply tracks_tables|by apply (gr_typed _ _ (names_grows _ _ N1))|by eapply in_names_scopes]).
  intros [] s2 i2 N2 T2 _. follow (apply does_emit; by eapply assign_shape). intros [] s3 i3 N3 T3 _.
  follow (apply does_emit; shape). intros [] s4 i4 N4 T4 _. finish.
  intros ((((_ & C1) & S2) & Z3 & I3) & Z4 & I4) Hs rho ls st R. cbn [perform]. eapply good_then; [by apply C1|].
  intros v c (y & -> & Hy & Hv & _). destruct (S2 rho ls (y :: st)) as (k & t & cur & El & Hf & Hls & Hcur & St); [by eapply related_names|].
  rewrite Hf. eapply good_step; [exact St|]. eapply good_then.
  { apply (good_op _ _ _ _ (fun w => mkConfig (Z.of_nat (size_at s2) + 1) (store_local ls (Z.of_nat k) w) (SRef (BLocal (length fs) (Z.of_nat k)) :: st))).
    intros r Er. eapply assign_step; [exact Hfile|exact I3|exact Hb|by rewrite get_z_nat|exact Hy|]. by eapply assign_opcode. }
  intros w c [Ew ->]. rewrite (at_add _ _ _ Z3) in I4.
  eapply good_step; [by eapply pop_step|]. apply good_ok. eexists. split; [by rewrite (at_add _ _ _ Z4), (at_add _ _ _ Z3)|].
  unfold store_local. rewrite Nat2Z.id. apply related_assign; [done|done| |by eapply assign_scalar, Ew]. unfold lookup in *. by rewrite <- E1.
Qed.
Lemma does_step (post inc : bool) sc n q pos s :
  in_scope sc n = true -> tables_ok s -> typed s.2 -> in_names s.2 sc ->
  does sf lp (expr_ (EName n q) ;;; emit (if post then if inc then op.INC_POST else op.DEC_POST else if inc then op.INC else op.DEC) pos ;;; emit op.POP pos)
    s (same s) (fun _ s' => performs s s' (if post then EPostIncDec inc (EName n q) pos else EPreIncDec inc (EName n q) pos)).
Proof.
  intros Hsc Ht Hty Hn. begin. follow (by eapply does_variable). intros [] s1 i1 N1 T1 _.
  follow (apply does_emit; destruct post, inc; shape). intros [] s2 i2 N2 T2 _.
  follow (apply does_emit; shape). intros [] s3 i3 N3 T3 _. finish.
  intros (((_ & S1) & Z2 & I2) & Z3 & I3) Hs rho ls st R.
  destruct (S1 rho ls st R) as (k & t & cur & El & Hf & Hls & Hcur & St).
  assert (G : is_good (at_ s ls st) (and_then (Some (step_by_one inc cur)) (fun w => Some (Ok (set_var n w rho))))
    (fun rho' c => exists ls', c = at_ s3 ls' st /\ related s.2 rho' ls')).
  2:{ destruct post; cbn [perform]; by rewrite Hf. }
  eapply good_step; [exact St|]. eapply good_then.
  { apply (good_op _ _ _ _ (fun w => mkConfig (Z.of_nat (size_at s1) + 1 + 1) (store_local ls (Z.of_nat k) w) st)).
    intros r [= <-]. eapply step_var_step; [exact Hfile|exact I2|by rewrite (at_add _ _ _ Z2) in I3|destruct post, inc; done|by rewrite get_z_nat|].
    by apply step_opcode. }
  intros w c [[= Ew] ->]. apply good_ok. eexists. split; [by rewrite (at_add _ _ _ Z3), (at_add _ _ _ Z2)|].
  unfold store_local. rewrite Nat2Z.id. apply related_assign; [done|done|done|by eapply step_scalar].
Qed.
Lemma does_value sc e pos s :
  ok_expr (known (g_labels s.2) sc) e = true -> tables_ok s -> typed s.2 -> in_names s.2 sc ->
  does sf lp (expr_ e ;;; emit op.POP pos) s (same s) (fun _ s' => performs s s' e).
Proof.
  intros Hok Ht Hty Hn. begin. follow (by eapply does_expr). intros [] s1 i1 N1 T1 _.
  follow (apply does_emit; shape). intros [] s2 i2 N2 T2 _. finish.
  intros ((_ & C) & Z2 & I2) Hs rho ls st R.
  assert (G : is_good (at_ s ls st) (and_then (eval (g_labels s.2) rho e) (fun _ => Some (Ok rho)))
    (fun rho' c => exists ls', c = at_ s2 ls' st /\ related s.2 rho' ls')).
  2:{ destruct e; try done. }
  eapply good_then; [by apply C|]. intros v c (x & -> & _). eapply good_step; [by eapply pop_step|]. apply good_ok.
  eexists. split; [by rewrite (at_add _ _ _ Z2)|done].
Qed.
Lemma does_expr_stmt sc e s : ok_effect (g_labels s.2) sc e = true -> tables_ok s -> typed s.2 -> in_names s.2 sc ->
  does sf lp (expr_stmt BUILTINS unit_ fi e) s (same s) (fun _ s' => performs s s' e).
Proof.
  intros Hok Ht Hty Hn. unfold expr_stmt, does. apply wp_gets.
  assert (Hnone : implicit_decl s.2 e = None).
  { destruct e as [| | | | | | | | | | |p [] v q| | | |]; try done. cbn [ok_effect] in Hok. apply andb_true_iff in Hok as [[_ Hsc]%andb_true_iff _].
    destruct (lookup_in_scope _ _ _ Hn Hsc) as [x El]. cbn. rewrite El. by destruct p. }
  rewrite Hnone. destruct e as [| | | | | | | |inc [] pos|inc [] pos| |p [] value pos| | | |]; try done;
    cbn [leaves_value when expr_pos]; try (by eapply does_value).
  - apply wp_assoc. by apply (does_step false inc sc).
  - apply wp_assoc. by apply (does_step true inc sc).
  - cbn [ok_effect] in Hok. apply andb_true_iff in Hok as [[Hp Hsc]%andb_true_iff Hok].
    assert (exists b, assign_op p = Some b) as [b Eb] by (destruct p; try done; by eexists).
    cbn [expr]. unfold assign. rewrite Eb. cbn [lvalue]. apply wp_assoc, wp_gets, wp_assoc, wp_assoc. by eapply does_assign.
Qed.

(** *** Declarations *)

Lemma does_default t p s :
  does sf lp (emit_default_value unit_ fi depth (TyScalar t) p) s (same s)
    (fun _ s' => forall ls st, runs_to (at_ s ls st) (at_ s' ls (SVal (zero_value t) :: st))).
Proof.
  destruct depth as [|dp]; [done|]. cbn [emit_default_value resolved_type_tag]. begin. flat. apply wp_unit.
  follow (eapply does_emit1; [shape|discriminate|apply tag_u32]). intros [] s1 i1 N1 T1 _. finish.
  intros (_ & Z1 & I1) ls st. rewrite (at_add _ _ _ Z1). by eapply create_simple_step.
Qed.
Lemma does_declare_local name t s :
  does sf lp (declare_local name t) s (fun x s' => x = PLocal (u32 (Z.of_nat (length (g_locals s.2)))) /\
    ctx s'.2 = ctx s.2 /\ local_ty s'.2 = local_ty s.2 ++ [t] /\ g_locals s'.2 = g_locals s.2 ++ [name] /\ bind_name name x (scopes s.2) = Some (scopes s'.2))
    (fun _ s' => size_at s' = size_at s).
Proof.
  destruct (bind_name name (PLocal (u32 (Z.of_nat (length (g_locals s.2))))) (scopes s.2)) as [ss|] eqn:E.
  - eapply does_quiet.
    + unfold declare_local, bind, the_gen, gets. cbn beta iota. rewrite E. reflexivity.
    + repeat split; try done. cbn. eapply scopes_bind; [done|apply u32_ok].
    + cbn. rewrite length_app. lia.
    + done.
  - unfold does, wp, declare_local, bind, the_gen, gets. cbn beta iota. by rewrite E.
Qed.

(** Names other than the one declared mean what they meant. *)
Lemma declared_reads labels g g' name x t sc rho ls :
  bind_name name x (scopes g) = Some (scopes g') -> local_ty g' = local_ty g ++ [t] -> related g rho ls ->
  reads (fun n => negb (bool_decide (map ascii_lower n = map ascii_lower name)) && known labels sc n) g' rho ls.
Proof.
  intros Eb Et R n [Hne%negb_true_iff%bool_decide_eq_false _]%andb_true_iff. pose proof (find_related _ _ _ n R) as F.
  unfold lookup in *. destruct (scopes g) as [|m0 ss]; [done|]. injection Eb as <-. cbn [lookup_in] in *. rewrite lookup_insert_ne by done.
  destruct (match m0 !! _ with Some _ => _ | None => _ end) as [y|]; [|done].
  destruct F as (tv & Hf & i & -> & Ht & Hl & Hs). exists tv. split; [done|]. exists i. rewrite Et. split; [done|]. split; [by apply lookup_app_l_Some|done].
Qed.
Lemma declared_resolves g g' name x t sc :
  bind_name name x (scopes g) = Some (scopes g') -> local_ty g' = local_ty g ++ [t] -> g_locals g' = g_locals g ++ [name] -> g_labels g' = g_labels g ->
  typed g -> in_names g sc -> resolves (fun n => negb (bool_decide (map ascii_lower n = map ascii_lower name)) && known (g_labels g) sc n) g'.
Proof.
  intros Eb Et Eg El Hty Hn. split; [rewrite Et, Eg, !length_app; unfold typed in Hty; cbn; lia|]. rewrite El.
  intros n [Hne%negb_true_iff%bool_decide_eq_false Hk]%andb_true_iff. destruct (proj2 (known_resolves _ _ Hty Hn) n Hk) as [Hl|Hl]; [left|by right].
  unfold lookup in *. destruct (scopes g) as [|m0 ss]; [done|]. injection Eb as <-. cbn [lookup_in] in *. by rewrite lookup_insert_ne.
Qed.

(** The value a declared variable starts with. *)
Definition initial (labels : gmap text Z) (t : ScriptTy) (x : Declarator) (rho : env) : option (result OpError Value) :=
  match d_init x with Some e => eval labels rho e | None => Some (Ok (zero_value t)) end.
Lemma does_init_value t x s (kn : text -> bool) :
  d_array x = None -> (forall e, d_init x = Some e -> ok_expr kn e = true) -> tables_ok s -> resolves kn s.2 ->
  does sf lp (init_value BUILTINS depth unit_ fi (TyScalar t) x) s (fun _ s' => names s'.2 = names s.2)
    (fun copy s' => forall rho ls st, reads kn s.2 rho ls ->
      is_good (at_ s ls st) (initial (g_labels s.2) t x rho) (fun v c => exists y, c = at_ s' ls (y :: st) /\ holds_ ls y v /\ scalar v = true /\ (copy = false -> y = SVal v))).
Proof.
  intros Ha Hi Ht Hr. unfold init_value, initial. rewrite Ha. destruct (d_init x) as [e|].
  - specialize (Hi e eq_refl).
    assert (G : does sf lp (expr_ e ;;; ret (init_by_copy e)) s (fun _ s' => names s'.2 = names s.2)
      (fun copy s' => forall rho ls st, reads kn s.2 rho ls ->
        is_good (at_ s ls st) (eval (g_labels s.2) rho e) (fun v c => exists y, c = at_ s' ls (y :: st) /\ holds_ ls y v /\ scalar v = true /\ (copy = false -> y = SVal v)))).
    2:{ destruct e; done. }
    begin. follow (by apply (compiles_expr builtin d m fs file script expected void sf lp Hfile BUILTINS unit_ fi kn)). intros [] s1 i1 N1 T1 _. apply wp_unit.
    finish. intros (_ & C) rho ls st R. eapply good_mono; [by apply C|]. intros v c (y & -> & Hy & Hv & Hf). exists y.
    do 3 (split; [done|]). intros E. apply Hf. by rewrite E.
  - begin. follow (apply does_default). intros [] s1 i1 N1 T1 _. apply wp_unit. finish. intros (_ & S1) rho ls st R.
    eapply good_step; [apply S1|]. apply good_ok. eexists. split; [done|]. split; [done|]. split; [by destruct t|done].
Qed.
Lemma bind_in_names g g' name x sc : bind_name name x (scopes g) = Some (scopes g') -> in_names g sc -> in_names g' (declares name sc).
Proof.
  unfold in_names. destruct (scopes g) as [|m0 ss]; [done|]. intros [= <-] Hn. inv Hn as [|? s ? sc' Hm Hs].
  constructor; [|done]. intros n. rewrite elem_of_union, elem_of_singleton. destruct (decide (n = map ascii_lower name)) as [->|Hne].
  - rewrite lookup_insert_eq. split; [by eexists|by left].
  - rewrite lookup_insert_ne by done. rewrite <- Hm. tauto.
Qed.
(** One declared variable: it takes the next slot. *)
Definition declares_as (ev : env -> option (result OpError env)) (s s' : state) : Prop :=
  slots_ok s.2 -> slots_ok s'.2 /\ forall rho ls st, related s.2 rho ls ->
  is_good (at_ s ls st) (ev rho) (fun rho' c => exists ls', c = at_ s' ls' st /\ related s'.2 rho' ls').
Lemma small_u32 n : Z.of_nat n < 2 ^ 29 -> u32 (Z.of_nat n) = Z.of_nat n.
Proof. intros Hn. unfold u32, wrap_u. apply Z.mod_small. lia. Qed.
Lemma does_declarator sc v x s :
  is_static v = false -> ok_declarator (g_labels s.2) (v_ty v) sc x = true -> tables_ok s -> typed s.2 -> in_names s.2 sc ->
  does sf lp (declarator BUILTINS depth unit_ fi v x) s (fun _ s' => grows s.2 s'.2 /\ in_names s'.2 (declares (d_name x) sc))
    (fun _ s' => declares_as (declare_one (g_labels s.2) (v_ty v) x) s s').
Proof.
  intros Hst Hok Ht Hty Hn. unfold ok_declarator in Hok.
  apply andb_true_iff in Hok as [[[t Et]%bool_decide_eq_true Ha%bool_decide_eq_true]%andb_true_iff Hi].
  unfold declarator. rewrite Ha, Hst, (scalar_resolved _ unit_ _ Et). cbv zeta. begin.
  follow (apply does_declare_local). intros x1 s1 i1 (Ex & Ec & Ety & Eg & Eb) T1 _. flat. apply wp_unit.
  assert (El : g_labels s1.2 = g_labels s.2) by (unfold ctx in Ec; congruence).
  follow (eapply does_init_value; [done|intros e Ee; rewrite Ee in Hi; exact Hi|by eapply tracks_tables|by eapply declared_resolves]).
  intros copy s2 i2 N2 T2 _. pose proof (names_eq _ _ N2) as (Esc & Eloc & Etys & _).
  follow (eapply (does_emit1 _ _ _ KVarRef); [destruct copy; shape|discriminate|subst x1; apply u32_ok]). intros [] s3 i3 N3 T3 _.
  cbn [on_some]. apply wp_unit. assert (N : names s3.2 = names s1.2) by congruence. finish_linked.
  - pose proof (names_grows _ _ N) as G. split.
    + etrans; [|exact G]. split; [done|rewrite Ety; by apply prefix_app_r|unfold typed; rewrite Ety, Eg, !length_app; cbn; lia|].
      destruct (scopes s.2); [done|]. by injection Eb as <-.
    + eapply in_names_scopes; [apply (names_eq _ _ N)|by eapply bind_in_names].
  - intros Hl (((_ & Z1) & S2) & Z3 & I3) Hs. pose proof (ln_locals _ _ _ Hl) as Hb. pose proof (names_eq _ _ N) as (F1 & F2 & F3 & _).
    rewrite F2, Eg, length_app in Hb. cbn in Hb. rewrite small_u32 in Ex by lia. subst x1.
    assert (Eb3 : bind_name (d_name x) (PLocal (Z.of_nat (length (g_locals s.2)))) (scopes s.2) = Some (scopes s3.2)) by by rewrite F1.
    split; [eapply declare_slots; [exact Eb3|..]; rewrite ?F2, ?F3; done|]. intros rho ls st R.
    assert (G : is_good (at_ s ls st) (and_then (initial (g_labels s.2) t x rho) (fun v => Some (Ok (declare (d_name x) (TyScalar t) v rho))))
      (fun rho' c => exists ls', c = at_ s3 ls' st /\ related s3.2 rho' ls')).
    2:{ unfold declare_one. rewrite Et, Ha. unfold initial in G. by destruct (d_init x). }
    rewrite <- Z1, <- El. eapply good_then; [apply S2; rewrite ?El; by eapply declared_reads|].
    intros w c (y & -> & Hy & Hw & Hcopy). pose proof (decode_local (Z.of_nat (length (g_locals s.2))) ltac:(lia)) as Hd.
    assert (St : runs_to (at_ s2 ls (y :: st)) (at_ s3 (init_local ls (Z.of_nat (length (g_locals s.2))) w) st)).
    { rewrite (at_add _ _ _ Z3). destruct copy; [by eapply init_copy_step|]. rewrite Hcopy by done. by eapply init_step. }
    eapply good_step; [exact St|]. apply good_ok. eexists. split; [done|]. unfold init_local.
    rewrite Nat2Z.id. replace (Z.to_nat _) with (length (g_locals s.2) + 1)%nat by lia.
    eapply related_declare; [exact Eb3|..]; rewrite ?F2, ?F3; done.
Qed.
Lemma does_decl sc v s :
  is_static v = false -> ok_declarators (g_labels s.2) (v_ty v) sc (decls v) = true -> tables_ok s -> typed s.2 -> in_names s.2 sc ->
  does sf lp (decl BUILTINS depth unit_ fi v) s
    (fun _ s' => grows s.2 s'.2 /\ in_names s'.2 (fold_left (fun sc x => declares (d_name x) sc) (decls v) sc))
    (fun _ s' => declares_as (declare_all (g_labels s.2) (v_ty v) (decls v)) s s').
Proof.
  intros Hst. unfold decl. generalize (decls v). intros ds. revert sc s. induction ds as [|x ds IH]; intros sc s Hok Ht Hty Hn; cbn [iter fold_left].
  - split; [done|]. exists []. eapply tracks_mono; [apply tracks_refl|]. intros _ Hs. split; [done|]. intros rho ls st R. apply good_ok. eauto.
  - cbn [ok_declarators] in Hok. apply andb_true_iff in Hok as [Hx Hok]. begin.
    follow (by apply does_declarator). intros [] s1 i1 (G1 & N1) T1 _.
    assert (El : g_labels s1.2 = g_labels s.2) by (pose proof (gr_ctx _ _ G1) as E; unfold ctx in E; congruence).
    follow (eapply IH; [by rewrite El|by eapply tracks_tables|by apply (gr_typed _ _ G1)|done]). intros [] s2 i2 (G2 & N2) T2 _.
    split; [split; [by etrans|done]|]. exists i2. eapply tracks_mono; [exact T2|]. intros ((_ & S1) & S2) Hs.
    destruct (S1 Hs) as [Hs1 R1]. destruct (S2 Hs1) as [Hs2 R2]. split; [done|]. intros rho ls st R. cbn [declare_all].
    eapply good_then; [by apply R1|]. intros rho1 c (ls1 & -> & R'). rewrite <- El. by apply R2.
Qed.
End Statements.
