(* ===== verification/CcCorrectFlow.v ===== *)
(** * Compiled statements: control flow

    The theorem on statements ([compiles_all]), by induction on the tree: the
    code of a statement arrives where the reference semantics leaves. *)

From S2P Require Import Prelude Loops NetText BhsOpcode BhsDisasm BhsStd BhsValue BhsOps BhsProgram BhsVm CcLex CcAst CcParse CcSema CcCodegen CcCodegenSpec CcCodeWf CcRun CcEval CcMachine CcLink CcFollow CcCorrectExpr CcCorrectStmt.
#[local] Open Scope list_scope.
#[local] Open Scope Z_scope.
Import Gen.
#[local] Open Scope gen_scope.

(** ** Staying in scope *)

(** The same scopes, perhaps more locals; the loops around may differ. *)
Record ext (g g' : ScriptGen) : Prop := {
  ex_scopes : scopes g' = scopes g;
  ex_types : local_ty g `prefix_of` local_ty g';
  ex_typed : typed g -> typed g';
  ex_labels : g_labels g' = g_labels g;
  ex_ret : g_ret g' = g_ret g }.
#[export] Instance ext_preorder : PreOrder ext.
Proof. split; [by intros g|]. intros g1 g2 g3 [] []. split; [congruence|by etrans|auto|congruence|congruence]. Qed.
Lemma names_ext g g' : names g' = names g -> ext g g'.
Proof. intros (E1 & E2 & E3 & E4 & E5 & E6 & E7)%names_eq. split; [done|by rewrite E3|unfold typed; by rewrite E2, E3|done|done]. Qed.
Lemma grows_ext g g' : grows g g' -> scopes g' = scopes g -> ext g g'.
Proof. intros [E ? ? _] Hs. unfold ctx in E. split; [done|done|done|congruence|congruence]. Qed.
Lemma ext_grows g g' : ext g g' -> breaks g' = breaks g -> continues g' = continues g -> grows g g'.
Proof. intros [] Hb Hc. split; [unfold ctx; congruence|done|done|congruence]. Qed.
Lemma ext_related g g' rho ls : ext g g' -> slots_ok g -> related g' rho ls <-> related g rho ls.
Proof. intros [] Hs. by apply related_grows. Qed.

(** Entering and leaving a loop. *)
Definition sans_loops (g : ScriptGen) := (scopes g, g_locals g, local_ty g, g_labels g, g_ret g).
Lemma sans_ext g g' : sans_loops g' = sans_loops g -> ext g g'.
Proof. unfold sans_loops. intros E. split; [congruence|replace (local_ty g') with (local_ty g) by congruence; done| |congruence|congruence]. unfold typed. congruence. Qed.
Lemma sans_slots g g' : sans_loops g' = sans_loops g -> slots_ok g -> slots_ok g'.
Proof.
  unfold sans_loops. intros E []. assert (scopes g' = scopes g /\ g_locals g' = g_locals g /\ local_ty g' = local_ty g) as (E1 & E2 & E3) by (repeat split; congruence).
  split; rewrite ?E1, ?E2, ?E3; done.
Qed.
Lemma loops_of_ctx (s s' : state) : ctx s'.2 = ctx s.2 -> loops s' = loops s.
Proof. unfold ctx, loops. congruence. Qed.

Section Flow.
Context {std : StdLib} {H : Type} {hst : Host H} (builtin : Z -> option BuiltinDecl) (d : nat).
Context (m : Vm H) (fs : list Frame) (file script : Z) (expected : nat) (void : bool) (sf : ScriptFile) (lp : list (option Z)).
Hypothesis Hfile : get_z (files (prog m)) file = Some sf.
Context (BUILTINS : list BuiltinDecl) (depth : nat) (unit_ : Unit) (fi : nat).
Abbreviation runs_to := (step1 builtin d m fs file script expected void).
Abbreviation stops_at := (stops builtin d m fs file script expected void).
Abbreviation at_ s ls st := (mkConfig (Z.of_nat (size_at s)) ls st).
Abbreviation is_good := (good runs_to stops_at).
Abbreviation holds_ := (holds fs file sf).
Abbreviation expr_ := (expr BUILTINS unit_ fi).
Abbreviation stmt_ := (stmt BUILTINS depth unit_ fi).

(** ** Where a statement arrives *)

(** At a return instruction, with the value to return on the stack; a script
    without a type to return pushes nothing. *)
Definition at_return (t : Ty) (v : option Value) (st : list Slot) (c : config) : Prop :=
  insn_at sf (at_bip c) op.RETURN [] /\
  match v, t with
  | Some _, TyScalar TVoid => True
  | Some w, _ => exists x, at_stack c = x :: st /\ holds_ (at_locals c) x w /\ scalar w = true
  | None, TyScalar TVoid => at_stack c = st
  | None, TyScalar t => exists x, at_stack c = x :: st /\ holds_ (at_locals c) x (zero_value t)
  | None, _ => True
  end.
Definition arrives (keeps : env -> list (option Slot) -> Prop) (s s' : state) (st : list Slot) (r : env * flow) (c : config) : Prop :=
  match r.2 with
  | FNext => exists ls, c = at_ s' ls st /\ related s'.2 r.1 ls
  | FBreak => exists ls, keeps r.1 ls /\ forall l, head (breaks s.2) = Some l -> c = mkConfig (opval lp (Lab l)) ls st
  | FContinue => exists ls, keeps r.1 ls /\ forall l, head (continues s.2) = Some (Some l) -> c = mkConfig (opval lp (Lab l)) ls st
  | FReturn v => at_return (g_ret s.2) v st c
  end.
Definition runs_as (x : Stmt) (s s' : state) : Prop :=
  slots_ok s.2 -> slots_ok s'.2 /\ forall fuel rho ls st, related s.2 rho ls ->
  is_good (at_ s ls st) (exec (g_labels s.2) fuel x rho) (arrives (related s.2) s s' st).

Definition keeps_names (sc : scope) (x : Stmt) (g g' : ScriptGen) : Prop :=
  grows g g' /\ in_names g' (scope_after sc x) /\ (is_decl x = false -> scopes g' = scopes g).
(** A state in which statements are compiled. *)
Record ready (sc : scope) (s : state) : Prop := {
  rd_loops : loops_ok s;
  rd_typed : typed s.2;
  rd_names : in_names s.2 sc;
  rd_ret : exists t, g_ret s.2 = TyScalar t }.
Definition compiles_stmt (x : Stmt) : Prop :=
  forall sc s, ok_stmt (g_labels s.2) sc x = true -> ready sc s ->
  does sf lp (stmt_ x) s (fun _ s' => keeps_names sc x s.2 s'.2) (fun _ s' => runs_as x s s').

Lemma stays sc x g g' : ext g g' -> breaks g' = breaks g -> continues g' = continues g -> in_names g sc -> is_decl x = false -> keeps_names sc x g g'.
Proof.
  intros E Hb Hc Hn Hd. split; [by apply ext_grows|]. split; [|intros _; apply E].
  assert (scope_after sc x = sc) as -> by by destruct x. eapply in_names_scopes; [apply E|done].
Qed.
Lemma stays_names sc x g g' : names g' = names g -> in_names g sc -> is_decl x = false -> keeps_names sc x g g'.
Proof. intros N Hn Hd. pose proof (names_eq _ _ N) as (_ & _ & _ & _ & Hb & Hc & _). apply stays; auto using names_ext. Qed.

Ltac begin0 :=
  unfold does;
  lazymatch goal with |- wp _ ?s (fun _ _ => _ /\ exists _, tracks ?sf ?lp _ _ _ _ _) => pose proof (tracks_refl sf lp s) end.

(** *** Simple statements *)

Lemma compiles_nothing x : (forall g fuel rho, exec g (S fuel) x rho = Some (Ok (rho, FNext))) -> stmt_ x = ret tt -> is_decl x = false -> compiles_stmt x.
Proof.
  intros Hx Es Hd sc s _ [_ _ Hn _]. rewrite Es. split; [by apply stays_names|]. exists []. eapply tracks_mono; [apply tracks_refl|].
  intros _ Hs. split; [done|]. intros [|fuel] rho ls st R; [done|]. rewrite Hx. apply good_ok. by exists ls.
Qed.
Lemma compiles_expr_stmt e : compiles_stmt (SExpr e).
Proof.
  intros sc s Hok [[_ Ht] Hty Hn _]. cbn [stmt]. begin. follow (by eapply does_expr_stmt). intros [] s1 i1 N1 T1 _. finish; [by apply stays_names|].
  intros (_ & P) Hs. split; [by eapply names_slots|]. intros [|fuel] rho ls st R; [done|]. cbn [exec].
  eapply good_then; [by apply P|]. intros rho' c (ls' & -> & R'). apply good_ok. exists ls'. split; [done|]. by eapply related_names.
Qed.
Lemma compiles_decl v : compiles_stmt (SDecl v).
Proof.
  intros sc s Hok [[_ Ht] Hty Hn _]. cbn [ok_stmt] in Hok. apply andb_true_iff in Hok as [Hst%negb_true_iff Hok]. cbn [stmt].
  begin. follow (by eapply does_decl). intros [] s1 i1 (G1 & N1) T1 _. finish; [by split|].
  intros (_ & S1) Hs. destruct (S1 Hs) as [Hs1 R1]. split; [done|]. intros [|fuel] rho ls st R; [done|]. cbn [exec]. rewrite Hst.
  eapply good_then; [by apply R1|]. intros rho' c (ls' & -> & R'). apply good_ok. by exists ls'.
Qed.
Lemma does_diag sev p msg s : does sf lp (diag unit_ fi sev p msg) s (same s) (fun _ s' => size_at s' = size_at s).
Proof. by eapply does_quiet. Qed.
Lemma compiles_break p : compiles_stmt (SBreak p).
Proof.
  intros sc s Hok [[[Hb _] Ht] Hty Hn _]. cbn [stmt]. begin. flat. apply wp_gets. destruct (head (breaks s.2)) as [l|] eqn:El.
  - assert (Hl : (l < nlabels s)%nat) by (cbn in Hb; destruct (breaks s.2); [done|]; injection El as ->; by inv Hb).
    follow (apply does_jump; [shape|done]). intros [] s1 i1 N1 T1 _. finish; [by apply stays_names|].
    intros (_ & Z1 & I1) Hs. split; [by eapply names_slots|]. intros [|fuel] rho ls st R; [done|]. cbn [exec].
    eapply good_step; [by eapply jump_step|]. apply good_ok. exists ls. split; [done|]. intros l'. rewrite El. by intros [= <-].
  - follow (apply does_diag). intros [] s1 i1 N1 T1 _. finish; [by apply stays_names|].
    intros (_ & Z1) Hs. split; [by eapply names_slots|]. intros [|fuel] rho ls st R; [done|]. cbn [exec]. apply good_ok. exists ls. split; [done|].
    intros l'. by rewrite El.
Qed.
Lemma compiles_continue p : compiles_stmt (SContinue p).
Proof.
  intros sc s Hok [[[_ Hb] Ht] Hty Hn _]. cbn [stmt]. begin. flat. apply wp_gets. destruct (default None (head (continues s.2))) as [l|] eqn:El.
  - assert (Ec : head (continues s.2) = Some (Some l)) by (destruct (head (continues s.2)) as [[]|]; cbn in El; congruence).
    assert (Hl : (l < nlabels s)%nat) by (cbn in Hb; destruct (continues s.2); [done|]; injection Ec as ->; by inv Hb).
    follow (apply does_jump; [shape|done]). intros [] s1 i1 N1 T1 _. finish; [by apply stays_names|].
    intros (_ & Z1 & I1) Hs. split; [by eapply names_slots|]. intros [|fuel] rho ls st R; [done|]. cbn [exec].
    eapply good_step; [by eapply jump_step|]. apply good_ok. exists ls. split; [done|]. intros l'. rewrite Ec. by intros [= <-].
  - follow (apply does_diag). intros [] s1 i1 N1 T1 _. finish; [by apply stays_names|].
    intros (_ & Z1) Hs. split; [by eapply names_slots|]. intros [|fuel] rho ls st R; [done|]. cbn [exec]. apply good_ok. exists ls. split; [done|].
    intros l' E'. by rewrite E' in El.
Qed.
Lemma compiles_return_value e p : compiles_stmt (SReturn (Some e) p).
Proof.
  intros sc s Hok [[_ Ht] Hty Hn [t Et]]. cbn [stmt]. begin. flat. apply wp_gets. rewrite Et.
  follow (by eapply does_expr). intros [] s1 i1 N1 T1 _.
  destruct (bool_decide_reflect (TyScalar t = TyScalar TVoid)) as [Ev|Ev]; cbn [when].
  - follow (apply does_diag). intros [] s2 i2 N2 T2 _. follow (apply does_emit; shape). intros [] s3 i3 N3 T3 _.
    follow (apply does_emit; shape). intros [] s4 i4 N4 T4 _. finish; [apply stays_names; [congruence|done|done]|].
    intros ((((_ & C) & Z2) & Z3 & I3) & Z4 & I4) Hs. split; [eapply names_slots; [|done]; congruence|]. intros [|fuel] rho ls st R; [done|]. cbn [exec].
    eapply good_then; [by apply C|]. intros v c (x & -> & _). rewrite <- Z2. eapply good_step; [by eapply pop_step|]. apply good_ok.
    injection Ev as ->. unfold arrives, at_return. cbn [fst snd]. rewrite Et. cbn. split; [by rewrite (at_add _ _ _ Z3) in I4|done].
  - apply wp_unit. follow (apply does_emit; shape). intros [] s2 i2 N2 T2 _. finish; [apply stays_names; [congruence|done|done]|].
    intros ((_ & C) & Z2 & I2) Hs. split; [eapply names_slots; [|done]; congruence|]. intros [|fuel] rho ls st R; [done|]. cbn [exec].
    eapply good_then; [by apply C|]. intros v c (x & -> & Hx & Hv & _). apply good_ok.
    unfold arrives, at_return. rewrite Et. cbn. split; [done|]. assert (exists y, x :: st = y :: st /\ holds_ ls y v /\ scalar v = true) by by exists x.
    by destruct t.
Qed.
Lemma compiles_return_none p : compiles_stmt (SReturn None p).
Proof.
  intros sc s Hok [[_ Ht] Hty Hn [t Et]]. cbn [stmt]. begin. flat. apply wp_gets. rewrite Et.
  destruct (bool_decide_reflect (TyScalar t = TyScalar TVoid)) as [Ev|Ev]; cbn [when negb].
  - flat. apply wp_unit. follow (apply does_emit; shape). intros [] s2 i2 N2 T2 _. finish; [apply stays_names; [congruence|done|done]|].
    intros (_ & Z2 & I2) Hs. split; [eapply names_slots; [|done]; congruence|]. intros [|fuel] rho ls st R; [done|]. cbn [exec]. apply good_ok.
    injection Ev as ->. unfold arrives, at_return. cbn [fst snd]. rewrite Et. done.
  - follow (by apply (does_default builtin d m fs file script expected void sf lp Hfile)). intros [] s1 i1 N1 T1 _.
    follow (apply does_emit; shape). intros [] s2 i2 N2 T2 _. finish; [apply stays_names; [congruence|done|done]|].
    intros ((_ & S1) & Z2 & I2) Hs. split; [eapply names_slots; [|done]; congruence|]. intros [|fuel] rho ls st R; [done|]. cbn [exec].
    eapply good_step; [apply S1|]. apply good_ok. unfold arrives, at_return. rewrite Et. cbn. split; [done|].
    assert (exists x, SVal (zero_value t) :: st = x :: st /\ holds_ ls x (zero_value t)) by by eexists.
    by destruct t.
Qed.

(** *** Conditionals *)

(** A state reached from a ready one in the same scope is ready. *)
Lemma ready_after sc L i s0 s F : ready sc s0 -> tracks sf lp L i s0 s F -> ext s0.2 s.2 -> loops s = loops s0 -> ready sc s.
Proof.
  intros [Hl Hty Hn [t Et]] T E El. split.
  - eapply loops_ok_same; [done| |done]. exists i. apply T.
  - by apply E.
  - eapply in_names_scopes; [apply E|done].
  - exists t. rewrite <- Et. apply E.
Qed.
Lemma names_loops (s s' : state) : names s'.2 = names s.2 -> loops s' = loops s.
Proof. intros (_ & _ & _ & _ & E5 & E6 & E7)%names_eq. unfold loops. congruence. Qed.
(** Arriving, seen from another state in the same scope, with what follows. *)
Lemma arrives_ext (s0 s1 s s' : state) st r c : ext s0.2 s1.2 -> loops s1 = loops s0 -> slots_ok s0.2 ->
  (forall ls, rtc runs_to (at_ s ls st) (at_ s' ls st)) -> ext s.2 s'.2 -> slots_ok s.2 ->
  arrives (related s1.2) s1 s st r c -> exists c', rtc runs_to c c' /\ arrives (related s0.2) s0 s' st r c'.
Proof.
  intros E El Hs Ez E' Hs'. unfold loops in El. assert (breaks s1.2 = breaks s0.2 /\ continues s1.2 = continues s0.2 /\ g_ret s1.2 = g_ret s0.2) as (E1 & E2 & E3) by (repeat split; congruence).
  destruct r as [rho f]. unfold arrives. cbn [fst snd]. destruct f; rewrite ?E1, ?E2, ?E3.
  - intros (ls & -> & R). eexists. split; [apply Ez|]. exists ls. split; [done|]. by apply (ext_related _ _ _ _ E').
  - intros (ls & R & Hl). exists c. split; [done|]. exists ls. split; [|done]. by apply (ext_related _ _ _ _ E).
  - intros (ls & R & Hl). exists c. split; [done|]. exists ls. split; [|done]. by apply (ext_related _ _ _ _ E).
  - intros Hv. by exists c.
Qed.
Lemma kept sc x (s s' : state) : keeps_names sc x s.2 s'.2 -> is_decl x = false -> ext s.2 s'.2 /\ loops s' = loops s.
Proof. intros (G & _ & Hs) Hd. split; [by apply grows_ext; auto|]. apply loops_of_ctx, G. Qed.
Lemma stays_loops sc x (s s' : state) : ext s.2 s'.2 -> loops s' = loops s -> in_names s.2 sc -> is_decl x = false -> keeps_names sc x s.2 s'.2.
Proof. intros E El Hn Hd. unfold loops in El. apply stays; [done|congruence|congruence|done|done]. Qed.

Lemma compiles_if c t p : compiles_stmt t -> compiles_stmt (SIf c t None p).
Proof.
  intros IH sc s Hok Hrd. cbn [ok_stmt] in Hok. apply andb_true_iff in Hok as [[[Hc Hd%negb_true_iff]%andb_true_iff Ht]%andb_true_iff _].
  cbn [stmt]. begin0. follow_label. intros s1 T1 N1 Z1 L1. pose proof (names_ext _ _ N1) as X1. pose proof (names_loops _ _ N1) as Q1.
  pose proof (ready_after _ _ _ _ _ _ Hrd T1 X1 Q1) as Hr1. apply wp_unassoc.
  follow_here (apply (does_test builtin d m fs file script expected void sf lp Hfile BUILTINS unit_ fi sc); [by rewrite (ex_labels _ _ X1)|apply Hr1|apply Hr1|apply Hr1|lia]).
  intros [] s2 i2 N2 T2 L2. assert (N2' : names s2.2 = names s.2) by congruence. pose proof (names_ext _ _ N2') as X2. pose proof (names_loops _ _ N2') as Q2.
  follow (apply (IH sc); [by rewrite (ex_labels _ _ X2)|exact (ready_after _ _ _ _ _ _ Hrd T2 X2 Q2)]). intros [] s3 i3 K3 T3 L3.
  destruct (kept _ _ _ _ K3 Hd) as [X3 Q3]. apply wp_last. follow_label. intros s4 T4 N4 Z4 L4.
  cbn [List.filter] in T4. rewrite Nat.eqb_refl in T4. pose proof (names_ext _ _ N4) as X4. pose proof (names_loops _ _ N4) as Q4.
  finish; [apply stays_loops; [by repeat (etrans; [eassumption|])|congruence|apply Hrd|done]|].
  intros (((_ & C2) & S3) & E4) Hs. assert (Hs2 : slots_ok s2.2) by by eapply names_slots. destruct (S3 Hs2) as [Hs3 R3].
  split; [by eapply names_slots|]. intros [|fuel] rho ls st R; [done|]. cbn [exec]. rewrite (ex_labels _ _ X1) in C2. rewrite (ex_labels _ _ X2) in R3.
  rewrite Z1 in C2. eapply good_then; [apply C2; by eapply related_names|]. intros [|] cf ->.
  - eapply good_trail; [apply R3; by eapply related_names|]. intros r cf Ha. eapply (arrives_ext s s2 s3 s4); try done. intros ls'. by rewrite Z4.
  - apply good_ok. exists ls. rewrite E4. split; [done|]. eapply (ext_related s.2); [|done|done]. by repeat (etrans; [eassumption|]).
Qed.
Ltac exts := repeat (etrans; [eassumption|]); reflexivity.
Lemma compiles_if_else c t e p : compiles_stmt t -> compiles_stmt e -> compiles_stmt (SIf c t (Some e) p).
Proof.
  intros IHt IHe sc s Hok Hrd. cbn [ok_stmt] in Hok.
  apply andb_true_iff in Hok as [[[Hc Hd%negb_true_iff]%andb_true_iff Ht]%andb_true_iff [Hde%negb_true_iff He]%andb_true_iff].
  cbn [stmt]. begin0. follow_label. intros s1 T1 N1 Z1 L1. pose proof (names_ext _ _ N1) as X1. pose proof (names_loops _ _ N1) as Q1.
  pose proof (ready_after _ _ _ _ _ _ Hrd T1 X1 Q1) as Hr1. apply wp_unassoc.
  follow_here (apply (does_test builtin d m fs file script expected void sf lp Hfile BUILTINS unit_ fi sc); [by rewrite (ex_labels _ _ X1)|apply Hr1|apply Hr1|apply Hr1|lia]).
  intros [] s2 i2 N2 T2 L2. assert (N2' : names s2.2 = names s.2) by congruence. pose proof (names_ext _ _ N2') as X2. pose proof (names_loops _ _ N2') as Q2.
  follow (apply (IHt sc); [by rewrite (ex_labels _ _ X2)|exact (ready_after _ _ _ _ _ _ Hrd T2 X2 Q2)]). intros [] s3 i3 K3 T3 L3.
  destruct (kept _ _ _ _ K3 Hd) as [X3 Q3]. follow_label. intros s4 T4 N4 Z4 L4.
  follow (apply does_jump; [shape|lia]). intros [] s5 i5 N5 T5 L5. follow_label. intros s6 T6 N6 Z6 L6. labels_left.
  assert (X36 : ext s3.2 s6.2) by (apply names_ext; congruence). assert (Q36 : loops s6 = loops s3) by (apply names_loops; congruence).
  assert (X6 : ext s.2 s6.2) by exts. assert (Q6 : loops s6 = loops s) by congruence.
  follow (apply (IHe sc); [by rewrite (ex_labels _ _ X6)|exact (ready_after _ _ _ _ _ _ Hrd T6 X6 Q6)]). intros [] s7 i7 K7 T7 L7.
  destruct (kept _ _ _ _ K7 Hde) as [X7 Q7]. apply wp_last. follow_label. intros s8 T8 N8 Z8 L8. labels_left.
  pose proof (names_ext _ _ N8) as X8. pose proof (names_loops _ _ N8) as Q8.
  finish; [apply stays_loops; [clear X36; exts|congruence|apply Hrd|done]|].
  intros ((((((_ & C2) & S3) & Z5 & I5) & E6) & S7) & E8) Hs. assert (Hs2 : slots_ok s2.2) by by eapply names_slots. destruct (S3 Hs2) as [Hs3 R3].
  assert (Hs6 : slots_ok s6.2) by (eapply names_slots; [|exact Hs3]; congruence). destruct (S7 Hs6) as [Hs7 R7].
  split; [by eapply names_slots|]. intros [|fuel] rho ls st R; [done|]. cbn [exec]. rewrite (ex_labels _ _ X1) in C2. rewrite (ex_labels _ _ X2) in R3. rewrite (ex_labels _ _ X6) in R7.
  rewrite Z1 in C2. eapply good_then; [apply C2; by eapply related_names|]. intros [|] cf ->.
  - eapply good_trail; [apply R3; by eapply related_names|]. intros r cf Ha. eapply (arrives_ext s s2 s3 s8); try done.
    + intros ls'. apply rtc_once. rewrite <- E8, <- Z4. by eapply jump_step.
    + clear X6. exts.
  - rewrite E6. eapply good_trail; [apply R7; by eapply (ext_related s.2)|]. intros r cf Ha. eapply (arrives_ext s s6 s7 s8); try done. intros ls'. by rewrite Z8.
Qed.
(** *** Loops *)

Lemma does_push_loop b c s : does sf lp (push_loop b c) s
  (fun _ s' => sans_loops s'.2 = sans_loops s.2 /\ breaks s'.2 = b :: breaks s.2 /\ continues s'.2 = c :: continues s.2) (fun _ s' => size_at s' = size_at s).
Proof. by eapply does_quiet. Qed.
Lemma does_pop_loop s : does sf lp pop_loop s
  (fun _ s' => sans_loops s'.2 = sans_loops s.2 /\ breaks s'.2 = tail (breaks s.2) /\ continues s'.2 = tail (continues s.2)) (fun _ s' => size_at s' = size_at s).
Proof. by eapply does_quiet. Qed.
(** Inside a loop the state is ready. *)
Lemma ready_inside sc L i s0 s b c F : ready sc s0 -> tracks sf lp L i s0 s F -> ext s0.2 s.2 ->
  breaks s.2 = b :: breaks s0.2 -> continues s.2 = Some c :: continues s0.2 -> (b < nlabels s)%nat -> (c < nlabels s)%nat -> ready sc s.
Proof.
  intros [Hl Hty Hn [t Et]] T E Eb Ec Hb Hc. split.
  - eapply (loops_ok_push _ s0 s b (Some c)); [done|exists i; apply T| |done|done]. unfold loops, pushed. rewrite Eb, Ec. f_equal. apply E.
  - by apply E.
  - eapply in_names_scopes; [apply E|done].
  - exists t. rewrite <- Et. apply E.
Qed.

(** The body of a loop of [s], compiled from [s1] to [s2]. *)
Lemma body_good (s s1 s2 : state) x fuel st be bs co cs :
  ext s.2 s1.2 -> ext s1.2 s2.2 -> slots_ok s.2 -> slots_ok s1.2 -> breaks s1.2 = be :: bs -> continues s1.2 = Some co :: cs ->
  (forall fuel rho ls st, related s1.2 rho ls -> is_good (at_ s1 ls st) (exec (g_labels s1.2) fuel x rho) (arrives (related s1.2) s1 s2 st)) ->
  forall rho ls, related s.2 rho ls ->
  is_good (at_ s1 ls st) (exec (g_labels s.2) fuel x rho)
    (body_post (related s.2) (fun ls => at_ s2 ls st) (fun ls => mkConfig (opval lp (Lab co)) ls st) (fun ls => mkConfig (opval lp (Lab be)) ls st)
       (fun v => at_return (g_ret s.2) v st)).
Proof.
  intros E1 E2 Hs Hs1 Eb Ec Hx rho ls R. rewrite <- (ex_labels _ _ E1). eapply good_mono; [apply Hx; by apply (ext_related _ _ _ _ E1)|].
  intros [rho' f] c. unfold arrives, body_post. cbn [fst snd]. rewrite Eb, Ec, (ex_ret _ _ E1). destruct f; [| | |done].
  - intros (ls' & -> & R'). exists ls'. split; [|done]. eapply (ext_related s.2 s2.2); [by etrans|done|done].
  - intros (ls' & R' & Hc). exists ls'. split; [by apply (ext_related _ _ _ _ E1)|by apply Hc].
  - intros (ls' & R' & Hc). exists ls'. split; [by apply (ext_related _ _ _ _ E1)|by apply Hc].
Qed.
Lemma loop_arrives (s s' : state) st be r c : ext s.2 s'.2 -> slots_ok s.2 -> opval lp (Lab be) = Z.of_nat (size_at s') ->
  loop_post (related s.2) (fun ls => mkConfig (opval lp (Lab be)) ls st) (fun v => at_return (g_ret s.2) v st) r c -> arrives (related s.2) s s' st r c.
Proof.
  intros E Hs Ep. destruct r as [rho f]. unfold loop_post, arrives. cbn [fst snd]. destruct f; [|done..].
  intros (ls & R & ->). exists ls. rewrite Ep. split; [done|]. by apply (ext_related _ _ _ _ E).
Qed.

Lemma compiles_while c b p : compiles_stmt b -> compiles_stmt (SWhile c b p).
Proof.
  intros IH sc s Hok Hrd. cbn [ok_stmt] in Hok. apply andb_true_iff in Hok as [[Hc Hd%negb_true_iff]%andb_true_iff Hb].
  cbn [stmt]. begin0. follow_label. intros s1 T1 N1 Z1 L1. follow_label. intros s2 T2 N2 Z2 L2. follow_label. intros s3 T3 N3 Z3 L3. labels_left.
  assert (N3' : names s3.2 = names s.2) by congruence. pose proof (names_ext _ _ N3') as X3. pose proof (names_loops _ _ N3') as Q3.
  pose proof (ready_after _ _ _ _ _ _ Hrd T3 X3 Q3) as Hr3. apply wp_unassoc.
  follow_here (apply (does_test builtin d m fs file script expected void sf lp Hfile BUILTINS unit_ fi sc); [by rewrite (ex_labels _ _ X3)|apply Hr3|apply Hr3|apply Hr3|lia]).
  intros [] s4 i4 N4 T4 L4. follow (apply does_push_loop). intros [] s5 i5 (K5 & B5 & C5) T5 L5.
  assert (N4' : names s4.2 = names s.2) by congruence. pose proof (names_eq _ _ N4') as (_ & _ & _ & _ & Eb & Ec & _). rewrite Eb in B5. rewrite Ec in C5.
  assert (X5 : ext s.2 s5.2) by (etrans; [by apply names_ext|by apply sans_ext]).
  follow (apply (IH sc); [by rewrite (ex_labels _ _ X5)|eapply (ready_inside _ _ _ _ _ _ _ _ Hrd T5 X5 B5 C5); lia]). intros [] s6 i6 K6 T6 L6.
  destruct (kept _ _ _ _ K6 Hd) as [X6 Q6]. follow (apply does_pop_loop). intros [] s7 i7 (K7 & B7 & C7) T7 L7.
  follow (apply does_jump; [shape|lia]). intros [] s8 i8 N8 T8 L8. apply wp_last. follow_label. intros s9 T9 N9 Z9 L9. labels_left.
  assert (N9' : names s9.2 = names s7.2) by congruence. assert (X9 : ext s.2 s9.2).
  { etrans; [exact X5|]. etrans; [exact X6|]. etrans; [by apply sans_ext|by apply names_ext]. }
  unfold loops in Q6. assert (breaks s6.2 = breaks s5.2 /\ continues s6.2 = continues s5.2) as [B6 C6] by (split; congruence).
  pose proof (names_eq _ _ N9') as (_ & _ & _ & _ & B9 & C9 & _).
  finish; [apply stays; [done|by rewrite B9, B7, B6, B5|by rewrite C9, C7, C6, C5|apply Hrd|done]|].
  intros (((((((_ & E3) & C4) & Z5) & S6) & Z7) & Z8 & I8) & E9) Hs.
  assert (Hs5 : slots_ok s5.2) by (eapply sans_slots; [done|by eapply names_slots]). destruct (S6 Hs5) as [Hs6 R6].
  split; [eapply names_slots; [done|by eapply sans_slots]|]. intros [|fuel] rho ls st R; [done|]. cbn [exec].
  replace (size_at s) with (size_at s3) by congruence.
  eapply good_mono; [|intros r cf; by apply (loop_arrives s s9 st (nlabels s1))]. rewrite (ex_labels _ _ X3) in C4.
  eapply (good_loop _ _ _ (fun ls => at_ s3 ls st) (fun ls => at_ s5 ls st)); [|..|done].
  - eapply body_good; [exact X5|exact X6|done|done|exact B5|exact C5|exact R6].
  - intros rho' ls' R'. eapply good_mono; [apply C4; by eapply related_names|]. intros [|] cf ->; by rewrite ?Z5.
  - intros rho' ls' R'. eapply good_step; [rewrite <- Z7; by eapply jump_step|]. apply good_ok. exists ls'. by rewrite E3.
  - intros rho' ls' R'. apply good_ok. exists ls'. by rewrite E3.
Qed.
Lemma compiles_do_while b c p : compiles_stmt b -> compiles_stmt (SDoWhile b c p).
Proof.
  intros IH sc s Hok Hrd. cbn [ok_stmt] in Hok. apply andb_true_iff in Hok as [[Hc Hd%negb_true_iff]%andb_true_iff Hb].
  cbn [stmt]. begin0. follow_label. intros s1 T1 N1 Z1 L1. follow_label. intros s2 T2 N2 Z2 L2. follow_label. intros s3 T3 N3 Z3 L3.
  follow_label. intros s4 T4 N4 Z4 L4. labels_left. assert (N4' : names s4.2 = names s.2) by congruence.
  pose proof (names_eq _ _ N4') as (_ & _ & _ & _ & Eb & Ec & _).
  follow (apply does_push_loop). intros [] s5 i5 (K5 & B5 & C5) T5 L5. rewrite Eb in B5. rewrite Ec in C5.
  assert (X5 : ext s.2 s5.2) by (etrans; [by apply names_ext|by apply sans_ext]).
  follow (apply (IH sc); [by rewrite (ex_labels _ _ X5)|eapply (ready_inside _ _ _ _ _ _ _ _ Hrd T5 X5 B5 C5); lia]). intros [] s6 i6 K6 T6 L6.
  destruct (kept _ _ _ _ K6 Hd) as [X6 Q6]. follow (apply does_pop_loop). intros [] s7 i7 (K7 & B7 & C7) T7 L7.
  follow_label. intros s8 T8 N8 Z8 L8. labels_left.
  unfold loops in Q6. assert (breaks s6.2 = breaks s5.2 /\ continues s6.2 = continues s5.2) as [B6 C6] by (split; congruence).
  pose proof (names_eq _ _ N8) as (_ & _ & _ & _ & B8 & C8 & _). rewrite B7, B6, B5 in B8. rewrite C7, C6, C5 in C8. cbn [tail] in B8, C8.
  assert (X8 : ext s.2 s8.2). { etrans; [exact X5|]. etrans; [exact X6|]. etrans; [by apply sans_ext|by apply names_ext]. }
  assert (Q8 : loops s8 = loops s) by (unfold loops; rewrite B8, C8, (ex_ret _ _ X8); done).
  pose proof (ready_after _ _ _ _ _ _ Hrd T8 X8 Q8) as Hr8.
  follow (eapply does_expr; [done|by rewrite (ex_labels _ _ X8)|apply Hr8|apply Hr8|apply Hr8]). intros [] s9 i9 N9 T9 L9.
  follow (apply does_jump; [shape|lia]). intros [] s10 i10 N10 T10 L10. apply wp_last. follow_label. intros s11 T11 N11 Z11 L11. labels_left.
  assert (N11' : names s11.2 = names s8.2) by congruence. assert (X11 : ext s.2 s11.2) by (etrans; [exact X8|by apply names_ext]).
  pose proof (names_eq _ _ N11') as (_ & _ & _ & _ & B11 & C11 & _).
  finish; [apply stays; [done|congruence|congruence|apply Hrd|done]|].
  intros ((((((((_ & E4) & Z5) & S6) & Z7) & E8) & C9) & Z10 & I10) & E11) Hs.
  assert (Hs5 : slots_ok s5.2) by (eapply sans_slots; [done|by eapply names_slots]). destruct (S6 Hs5) as [Hs6 R6].
  split; [eapply names_slots; [done|]; eapply names_slots; [done|by eapply sans_slots]|]. intros [|fuel] rho ls st R; [done|]. cbn [exec].
  replace (size_at s) with (size_at s5) by congruence.
  eapply good_mono; [|intros r cf; by apply (loop_arrives s s11 st (nlabels s2))].
  eapply (good_loop_last _ _ _ (fun ls => at_ s5 ls st) (fun ls => at_ s6 ls st)); [..|done].
  - eapply body_good; [exact X5|exact X6|done|done|exact B5|exact C5|exact R6].
  - intros rho' ls' R'. unfold test. replace (size_at s6) with (size_at s8) by congruence. rewrite <- (ex_labels _ _ X8).
    eapply good_then; [apply C9; by apply (ext_related s.2)|]. intros v cf (x & -> & Hx & _). eapply good_step; [by eapply jump_if_step|].
    apply good_ok. rewrite E4, Z5, E11, Z11, (at_add _ _ _ Z10). by destruct (is_true v).
  - intros ls'. cbn beta. rewrite E8. do 2 f_equal. congruence.
Qed.

(** *** Scopes *)

(** Around the innermost scope. *)
Definition outer (g : ScriptGen) : ScriptGen := set_scopes (tail (scopes g)) g.
Definition unscoped (g : ScriptGen) := (g_locals g, local_ty g, ctx g).
Lemma does_push_scope s : does sf lp push_scope s (fun _ s' => scopes s'.2 = ∅ :: scopes s.2 /\ unscoped s'.2 = unscoped s.2) (fun _ s' => size_at s' = size_at s).
Proof. eapply does_quiet; [reflexivity| |done|done]. repeat split. apply scopes_push. Qed.
Lemma does_pop_scope s : does sf lp pop_scope s (fun _ s' => scopes s'.2 = tail (scopes s.2) /\ unscoped s'.2 = unscoped s.2) (fun _ s' => size_at s' = size_at s).
Proof. eapply does_quiet; [reflexivity| |done|done]. repeat split. apply scopes_tail. Qed.
Lemma unscoped_eq g g' : unscoped g' = unscoped g -> g_locals g' = g_locals g /\ local_ty g' = local_ty g /\ ctx g' = ctx g.
Proof. unfold unscoped. intros E. repeat split; congruence. Qed.
Lemma slots_push g g' : scopes g' = ∅ :: scopes g -> unscoped g' = unscoped g -> slots_ok g -> slots_ok g'.
Proof.
  intros E (E1 & E2 & _)%unscoped_eq [Ht Hl Hi]. split; [by rewrite E1, E2|rewrite E1|]; rewrite E.
  - intros [|k] sc n x; cbn; [intros [= <-]; by rewrite lookup_empty|]. by apply Hl.
  - intros k k' sc sc' n n' x Hk Hk' Hx Hx'. destruct k as [|k]; [injection Hk as <-; by rewrite lookup_empty in Hx|].
    destruct k' as [|k']; [injection Hk' as <-; by rewrite lookup_empty in Hx'|].
    by destruct (Hi k k' sc sc' n n' x Hk Hk' Hx Hx') as [-> ->].
Qed.
Lemma slots_tail g g' : scopes g' = tail (scopes g) -> unscoped g' = unscoped g -> slots_ok g -> slots_ok g'.
Proof.
  intros E (E1 & E2 & _)%unscoped_eq [Ht Hl Hi]. assert (Et : forall k, tail (scopes g) !! k = scopes g !! S k) by (intros k; by destruct (scopes g)).
  split; [by rewrite E1, E2|rewrite E1|]; rewrite E.
  - intros k sc n x. rewrite Et. by apply Hl.
  - intros k k' sc sc' n n' x. rewrite !Et. intros A B C D. destruct (Hi _ _ _ _ _ _ _ A B C D). split; [lia|done].
Qed.
Lemma names_push g g' sc : scopes g' = ∅ :: scopes g -> in_names g sc -> in_names g' (∅ :: sc).
Proof. unfold in_names. intros -> Hn. constructor; [|done]. intros n. rewrite lookup_empty. split; [set_solver|by intros [? ?]]. Qed.
(** A list of statements; declarations extend the scope as they come. *)
Definition list_runs_as (l : list Stmt) (s s' : state) : Prop :=
  slots_ok s.2 -> slots_ok s'.2 /\ forall fuel rho ls st, related s.2 rho ls ->
  is_good (at_ s ls st) (in_order (exec (g_labels s.2) fuel) l rho) (arrives (fun rho ls => related (outer s.2) (tail rho) ls) s s' st).

Lemma grows_loops (s s' : state) : grows s.2 s'.2 -> loops s' = loops s.
Proof. intros [E _ _ _]. by apply loops_of_ctx. Qed.
Lemma outer_related g g' rho ls : grows g g' -> slots_ok g -> related (outer g') rho ls <-> related (outer g) rho ls.
Proof. intros [] Hs. apply related_grows; [|done|done]. by apply (slots_tail g). Qed.
Lemma compiles_list l : Forall compiles_stmt l -> forall sc s, ok_list (ok_stmt (g_labels s.2)) sc l = true -> ready sc s ->
  does sf lp (iter stmt_ l) s (fun _ s' => grows s.2 s'.2) (fun _ s' => list_runs_as l s s').
Proof.
  induction 1 as [|x l Hx Hl IH]; intros sc s Hok Hrd; cbn [iter].
  - split; [done|]. exists []. eapply tracks_mono; [apply tracks_refl|]. intros _ Hs. split; [done|]. intros fuel rho ls st R. cbn [in_order].
    apply good_ok. by exists ls.
  - cbn [ok_list] in Hok. apply andb_true_iff in Hok as [Hox Hol]. begin. follow (by apply (Hx sc)). intros [] s1 i1 (G1 & N1 & D1) T1 _.
    assert (El : g_labels s1.2 = g_labels s.2) by (pose proof (gr_ctx _ _ G1) as E; unfold ctx in E; congruence).
    assert (Hr1 : ready (scope_after sc x) s1).
    { destruct Hrd as [Hlo Hty Hn [t Et]]. split; [|by apply G1|done|].
      - eapply loops_ok_same; [done|exists i1; apply T1|by apply grows_loops].
      - exists t. pose proof (gr_ctx _ _ G1) as E. unfold ctx in E. congruence. }
    follow (apply (IH (scope_after sc x)); [by rewrite El|done]). intros [] s2 i2 G2 T2 _. finish; [by etrans|].
    intros ((_ & S1) & S2) Hs. destruct (S1 Hs) as [Hs1 R1]. destruct (S2 Hs1) as [Hs2 R2]. split; [done|].
    intros fuel rho ls st R. cbn [in_order]. eapply good_then; [by apply R1|]. intros [rho' f] c Ha. pose proof (grows_loops _ _ G1) as Q.
    unfold loops in Q. assert (breaks s1.2 = breaks s.2 /\ continues s1.2 = continues s.2 /\ g_ret s1.2 = g_ret s.2) as (E1 & E2 & E3) by (repeat split; congruence).
    unfold arrives in Ha. cbn [fst snd] in Ha. destruct f.
    + destruct Ha as (ls' & -> & R'). rewrite <- El. eapply good_mono; [by apply R2|]. intros [rho2 f2] c. unfold arrives. cbn [fst snd]. rewrite E1, E2, E3.
      destruct f2; [done| | |done]; intros (ls2 & K & Hc); exists ls2; (split; [|done]); by apply (outer_related _ _ _ _ G1).
    + destruct Ha as (ls' & R' & Hc). apply good_ok. exists ls'. split; [|done]. cbn [fst]. by apply (related_pop s.2).
    + destruct Ha as (ls' & R' & Hc). apply good_ok. exists ls'. split; [|done]. cbn [fst]. by apply (related_pop s.2).
    + by apply good_ok.
Qed.
(** The scope of [s1] to [s2], opened after [s], ends. *)
Lemma leave_good (s s1 s2 s3 : state) st c r :
  loops s1 = loops s -> scopes s1.2 = ∅ :: scopes s.2 -> unscoped s1.2 = unscoped s.2 -> size_at s3 = size_at s2 -> scopes s3.2 = tail (scopes s2.2) -> unscoped s3.2 = unscoped s2.2 ->
  is_good c r (arrives (fun rho ls => related (outer s1.2) (tail rho) ls) s1 s2 st) ->
  is_good c (leave r) (arrives (related s.2) s s3 st).
Proof.
  intros Q Hs1 Hu1 Z3 Hs3 Hu3 G. eapply good_then; [exact G|]. intros [rho f] c' Ha. apply good_ok.
  unfold loops in Q. assert (breaks s1.2 = breaks s.2 /\ continues s1.2 = continues s.2 /\ g_ret s1.2 = g_ret s.2) as (E1 & E2 & E3) by (repeat split; congruence).
  assert (Ho : forall ls, related (outer s1.2) (tail rho) ls -> related s.2 (tail rho) ls).
  { intros ls. unfold related, outer. cbn. rewrite Hs1. destruct (unscoped_eq _ _ Hu1) as (_ & -> & _). done. }
  unfold arrives in *. cbn [fst snd] in *. rewrite E1, E2, E3 in Ha. destruct f; [| | |done].
  - destruct Ha as (ls & -> & R). exists ls. rewrite Z3. split; [done|]. eapply related_pop; [done| |done]. by destruct (unscoped_eq _ _ Hu3) as (_ & -> & _).
  - destruct Ha as (ls & R & Hc). exists ls. split; [by apply Ho|done].
  - destruct Ha as (ls & R & Hc). exists ls. split; [by apply Ho|done].
Qed.
(** Opening and closing a scope around something that grows. *)
Lemma ready_push sc s s1 i : ready sc s -> (exists F, tracks sf lp [] i s s1 F) -> scopes s1.2 = ∅ :: scopes s.2 -> unscoped s1.2 = unscoped s.2 -> ready (∅ :: sc) s1.
Proof.
  intros [Hl Hty Hn [t Et]] [F T] E U. destruct (unscoped_eq _ _ U) as (E1 & E2 & E3). split.
  - eapply loops_ok_same; [done|exists i; apply T|by apply loops_of_ctx].
  - unfold typed. by rewrite E1, E2.
  - by eapply names_push.
  - exists t. unfold ctx in E3. congruence.
Qed.
Lemma scoped_ext g g1 g2 g3 :
  scopes g1 = ∅ :: scopes g -> unscoped g1 = unscoped g -> grows g1 g2 -> scopes g3 = tail (scopes g2) -> unscoped g3 = unscoped g2 -> ext g g3 /\ ctx g3 = ctx g.
Proof.
  intros E1 U1 [Gc Gt Gy Gl] E3 U3. destruct (unscoped_eq _ _ U1) as (A1 & A2 & A3). destruct (unscoped_eq _ _ U3) as (B1 & B2 & B3).
  assert (Ec : ctx g3 = ctx g) by congruence. split; [|done]. unfold ctx in Ec. split; [rewrite E3, Gl, E1; done| | |congruence|congruence].
  - by rewrite B2, <- A2.
  - unfold typed in *. rewrite B1, B2. rewrite A1, A2 in Gy. done.
Qed.
Lemma compiles_block l q : Forall compiles_stmt l -> compiles_stmt (SBlock (mkBlock l q)).
Proof.
  intros IH sc s Hok Hrd. cbn [ok_stmt] in Hok. cbn [stmt]. begin. follow (apply does_push_scope). intros [] s1 i1 (E1 & U1) T1 _.
  destruct (unscoped_eq _ _ U1) as (_ & _ & C1). assert (El : g_labels s1.2 = g_labels s.2) by (unfold ctx in C1; congruence).
  follow (apply (compiles_list l IH (∅ :: sc)); [by rewrite El|by eapply ready_push; eauto]). intros [] s2 i2 G2 T2 _.
  follow (apply does_pop_scope). intros [] s3 i3 (E3 & U3) T3 _. destruct (scoped_ext _ _ _ _ E1 U1 G2 E3 U3) as [X C].
  finish; [by apply stays_loops; [done|apply loops_of_ctx|apply Hrd|]|].
  intros (((_ & Z1) & S2) & Z3) Hs. destruct (S2 (slots_push _ _ E1 U1 Hs)) as [Hs2 R2]. split; [by eapply slots_tail|].
  intros [|fuel] rho ls st R; [done|]. cbn [exec]. eapply (leave_good s s1 s2 s3); [by apply loops_of_ctx|done..|].
  rewrite <- Z1, <- El. apply R2. destruct (unscoped_eq _ _ U1) as (_ & Et & _). by eapply related_push.
Qed.
(** *** Counting loops *)

Definition for_loop (cond step : option Expr) (body : Stmt) (p : Pos) : M unit :=
  do! l_top := new_label in
  do! l_step := new_label in
  do! l_end := new_label in
  place l_top ;;;
  on_some cond (fun c => expr_ c ;;; emit_jump op.JUMP_IF_NOT l_end p) ;;;
  push_loop l_end (Some l_step) ;;;
  stmt_ body ;;;
  pop_loop ;;;
  place l_step ;;;
  on_some step (expr_stmt BUILTINS unit_ fi) ;;;
  emit_jump op.JUMP l_top p ;;;
  place l_end.
Definition for_init (init : option Stmt) : M unit := match init with Some i => stmt_ i | None => ret tt end.
Lemma stmt_for init c st b p s :
  stmt_ (SFor init c st b p) s = (push_scope ;;; for_init init ;;; for_loop c st b p ;;; pop_scope) s.
Proof.
  cbn [stmt]. unfold for_init, for_loop, bind.
  repeat match goal with |- context [match ?x with Comp _ => _ | Panic => _ | StackOverflow => _ end] =>
    lazymatch x with match _ with _ => _ end => fail | _ => destruct x as [[? ?]| |] end end; reflexivity.
Qed.

Definition cond_of (labels : gmap text Z) (c : option Expr) : env -> option (result OpError bool) :=
  match c with Some c => test labels c | None => fun _ => Some (Ok true) end.
Definition step_of (labels : gmap text Z) (e : option Expr) : env -> option (result OpError env) :=
  match e with Some e => perform labels e | None => fun rho => Some (Ok rho) end.
Lemma does_cond sc c l p s : match c with Some c => ok_expr (known (g_labels s.2) sc) c = true | None => True end -> ready sc s -> (l < nlabels s)%nat ->
  does sf lp (on_some c (fun c => expr_ c ;;; emit_jump op.JUMP_IF_NOT l p)) s (same s) (fun _ s' => forall rho ls st, related s.2 rho ls ->
    is_good (at_ s ls st) (cond_of (g_labels s.2) c rho) (fun b c => c = if b : bool then at_ s' ls st else mkConfig (opval lp (Lab l)) ls st)).
Proof.
  intros Hok [[_ Ht] Hty Hn _] Hl. destruct c as [c|]; cbn [on_some cond_of]; [by eapply does_test|].
  split; [done|]. exists []. eapply tracks_mono; [apply tracks_refl|]. intros _ rho ls st R. by apply good_ok.
Qed.
Lemma does_step_of sc e s : match e with Some e => ok_effect (g_labels s.2) sc e = true | None => True end -> ready sc s ->
  does sf lp (on_some e (expr_stmt BUILTINS unit_ fi)) s (same s) (fun _ s' => slots_ok s.2 -> forall rho ls st, related s.2 rho ls ->
    is_good (at_ s ls st) (step_of (g_labels s.2) e rho) (fun rho' c => exists ls', c = at_ s' ls' st /\ related s.2 rho' ls')).
Proof.
  intros Hok [[_ Ht] Hty Hn _]. destruct e as [e|]; cbn [on_some step_of]; [by eapply does_expr_stmt|].
  split; [done|]. exists []. eapply tracks_mono; [apply tracks_refl|]. intros _ Hs rho ls st R. apply good_ok. by exists ls.
Qed.
Lemma does_for_loop sc c st b p s :
  match c with Some c => ok_expr (known (g_labels s.2) sc) c = true | None => True end ->
  match st with Some e => ok_effect (g_labels s.2) sc e = true | None => True end ->
  is_decl b = false -> ok_stmt (g_labels s.2) sc b = true -> compiles_stmt b -> ready sc s ->
  does sf lp (for_loop c st b p) s (fun _ s' => ext s.2 s'.2 /\ loops s' = loops s) (fun _ s' => slots_ok s.2 -> slots_ok s'.2 /\
    forall fuel rho ls st', related s.2 rho ls ->
    is_good (at_ s ls st') (loop fuel (cond_of (g_labels s.2) c) (exec (g_labels s.2) fuel b) (step_of (g_labels s.2) st) rho)
      (fun r cf => (r.2 = FNext \/ exists v, r.2 = FReturn v) /\ arrives (related s.2) s s' st' r cf)).
Proof.
  intros Hc Hst Hd Hb IH Hrd. unfold for_loop. begin0.
  follow_label. intros s1 T1 N1 Z1 L1. follow_label. intros s2 T2 N2 Z2 L2. follow_label. intros s3 T3 N3 Z3 L3.
  follow_label. intros s4 T4 N4 Z4 L4. labels_left. assert (N4' : names s4.2 = names s.2) by congruence.
  pose proof (names_ext _ _ N4') as X4. pose proof (names_loops _ _ N4') as Q4. pose proof (ready_after _ _ _ _ _ _ Hrd T4 X4 Q4) as Hr4.
  follow (apply (does_cond sc); [by rewrite (ex_labels _ _ X4)|done|lia]). intros [] s5 i5 N5 T5 L5.
  follow (apply does_push_loop). intros [] s6 i6 (K6 & B6 & C6) T6 L6. assert (N5' : names s5.2 = names s.2) by congruence.
  pose proof (names_eq _ _ N5') as (_ & _ & _ & _ & Eb & Ec & _). rewrite Eb in B6. rewrite Ec in C6.
  assert (X6 : ext s.2 s6.2) by (etrans; [by apply names_ext|by apply sans_ext]).
  follow (apply (IH sc); [by rewrite (ex_labels _ _ X6)|eapply (ready_inside _ _ _ _ _ _ _ _ Hrd T6 X6 B6 C6); lia]). intros [] s7 i7 K7 T7 L7.
  destruct (kept _ _ _ _ K7 Hd) as [X7 Q7]. follow (apply does_pop_loop). intros [] s8 i8 (K8 & B8 & C8) T8 L8.
  follow_label. intros s9 T9 N9 Z9 L9. labels_left. unfold loops in Q7. assert (breaks s7.2 = breaks s6.2 /\ continues s7.2 = continues s6.2) as [B7 C7] by (split; congruence).
  pose proof (names_eq _ _ N9) as (_ & _ & _ & _ & B9 & C9 & _). rewrite B8, B7, B6 in B9. rewrite C8, C7, C6 in C9. cbn [tail] in B9, C9.
  assert (X9 : ext s.2 s9.2). { etrans; [exact X6|]. etrans; [exact X7|]. etrans; [by apply sans_ext|by apply names_ext]. }
  assert (Q9 : loops s9 = loops s) by (unfold loops; rewrite B9, C9, (ex_ret _ _ X9); done).
  follow (apply (does_step_of sc); [by rewrite (ex_labels _ _ X9)|exact (ready_after _ _ _ _ _ _ Hrd T9 X9 Q9)]). intros [] s10 i10 N10 T10 L10.
  follow (apply does_jump; [shape|lia]). intros [] s11 i11 N11 T11 L11. apply wp_last. follow_label. intros s12 T12 N12 Z12 L12. labels_left.
  assert (N12' : names s12.2 = names s9.2) by congruence. assert (X12 : ext s.2 s12.2) by (etrans; [exact X9|by apply names_ext]).
  finish; [split; [done|]; rewrite <- Q9; by apply names_loops|].
  intros (((((((((_ & E4) & C5) & Z6) & S7) & Z8) & E9) & S10) & Z11 & I11) & E12) Hs.
  assert (Hs6 : slots_ok s6.2) by (eapply sans_slots; [done|by eapply names_slots]). destruct (S7 Hs6) as [Hs7 R7].
  assert (Hs9 : slots_ok s9.2) by (eapply names_slots; [done|by eapply sans_slots]).
  split; [by eapply names_slots|]. intros fuel rho ls st' R. replace (size_at s) with (size_at s4) by congruence.
  rewrite (ex_labels _ _ X4) in C5. rewrite (ex_labels _ _ X9) in S10.
  eapply good_mono; [eapply (good_loop _ _ _ (fun ls => at_ s4 ls st') (fun ls => at_ s6 ls st')); [|..|done]|].
  - eapply body_good; [exact X6|exact X7|done|done|exact B6|exact C6|exact R7].
  - intros rho' ls' R'. eapply good_mono; [apply C5; by eapply related_names|]. intros [|] cf ->; by rewrite ?Z6.
  - intros rho' ls' R'. replace (size_at s7) with (size_at s9) by congruence. eapply good_trail; [apply (S10 Hs9); by apply (ext_related s.2)|].
    intros rho2 cf (ls2 & -> & R2). eexists. split; [apply rtc_once; by eapply jump_step|]. exists ls2. split; [by apply (ext_related _ _ _ _ X9)|by rewrite E4].
  - intros rho' ls' R'. rewrite E9. eapply good_trail; [apply (S10 Hs9); by apply (ext_related s.2)|].
    intros rho2 cf (ls2 & -> & R2). eexists. split; [apply rtc_once; by eapply jump_step|]. exists ls2. split; [by apply (ext_related _ _ _ _ X9)|by rewrite E4].
  - intros r cf Hp. split; [|by eapply loop_arrives]. unfold loop_post in Hp. destruct r.2; try done; [by left|right; by eexists].
Qed.
Lemma wp_eq {A} (c c' : M A) s Q : c s = c' s -> wp c' s Q -> wp c s Q.
Proof. unfold wp. by intros ->. Qed.
Lemma does_for_init sc init s :
  match init with Some i => ok_stmt (g_labels s.2) sc i = true /\ compiles_stmt i | None => True end -> ready sc s ->
  does sf lp (for_init init) s
    (fun _ s' => grows s.2 s'.2 /\ in_names s'.2 (match init with Some i => scope_after sc i | None => sc end))
    (fun _ s' => slots_ok s.2 -> slots_ok s'.2 /\ forall fuel rho ls st, related s.2 rho ls ->
       is_good (at_ s ls st) (match init with Some i => exec (g_labels s.2) fuel i rho | None => Some (Ok (rho, FNext)) end)
         (fun r c => r.2 = FNext -> exists ls', c = at_ s' ls' st /\ related s'.2 r.1 ls')).
Proof.
  intros Hi Hrd. destruct init as [i|]; cbn [for_init].
  - destruct Hi as [Hok IH]. begin. follow (by apply (IH sc)). intros [] s1 i1 (G1 & N1 & _) T1 _. finish; [done|].
    intros (_ & S1) Hs. destruct (S1 Hs) as [Hs1 R1]. split; [done|]. intros fuel rho ls st R. eapply good_mono; [by apply R1|].
    intros [rho' f] c Ha. cbn. intros ->. exact Ha.
  - split; [split; [done|apply Hrd]|]. exists []. eapply tracks_mono; [apply tracks_refl|]. intros _ Hs. split; [done|].
    intros fuel rho ls st R. apply good_ok. intros _. by exists ls.
Qed.
Lemma compiles_for init c st b p : (forall i, init = Some i -> compiles_stmt i) -> compiles_stmt b -> compiles_stmt (SFor init c st b p).
Proof.
  intros IHi IHb sc s Hok Hrd. cbn [ok_stmt] in Hok. apply andb_true_iff in Hok as [Hi Hok].
  set (sc2 := match init with Some i => scope_after (∅ :: sc) i | None => ∅ :: sc end) in *. cbv zeta in Hok.
  apply andb_true_iff in Hok as [[[Hc Hst]%andb_true_iff Hd%negb_true_iff]%andb_true_iff Hb].
  unfold does. eapply wp_eq; [apply stmt_for|]. begin. follow (apply does_push_scope). intros [] s1 i1 (E1 & U1) T1 _.
  destruct (unscoped_eq _ _ U1) as (_ & Ety & C1). assert (El : g_labels s1.2 = g_labels s.2) by (unfold ctx in C1; congruence).
  assert (Hr1 : ready (∅ :: sc) s1) by (eapply ready_push; eauto).
  follow (apply (does_for_init (∅ :: sc)); [destruct init as [i|]; [split; [by rewrite El|by apply IHi]|done]|done]). intros [] s2 i2 (G2 & N2) T2 _.
  assert (El2 : g_labels s2.2 = g_labels s.2) by (pose proof (gr_ctx _ _ G2) as E; unfold ctx in *; congruence).
  assert (Hr2 : ready sc2 s2).
  { destruct Hr1 as [Hlo Hty Hn [t Et]]. destruct Hrd as [Hlo0 _ _ _]. split; [|by apply G2|done|].
    - eapply (loops_ok_same _ s); [done|exists i2; apply T2|]. etrans; [by apply grows_loops|by apply loops_of_ctx].
    - exists t. pose proof (gr_ctx _ _ G2) as E. unfold ctx in E. congruence. }
  follow (apply (does_for_loop sc2); [rewrite El2; by destruct c|rewrite El2; by destruct st|done|by rewrite El2|done|done]). intros [] s3 i3 (X3 & Q3) T3 _.
  follow (apply does_pop_scope). intros [] s4 i4 (E4 & U4) T4 _.
  assert (G13 : grows s1.2 s3.2). { etrans; [exact G2|]. unfold loops in Q3. apply ext_grows; [done|congruence|congruence]. }
  destruct (scoped_ext _ _ _ _ E1 U1 G13 E4 U4) as [X C]. finish; [by apply stays_loops; [done|apply loops_of_ctx|apply Hrd|]|].
  intros ((((_ & Z1) & S2) & S3) & Z4) Hs. destruct (S2 (slots_push _ _ E1 U1 Hs)) as [Hs2 R2]. destruct (S3 Hs2) as [Hs3 R3].
  split; [by eapply slots_tail|]. intros [|fuel] rho ls st' R. { done. }
  cbn [exec]. eapply (leave_good s s1 s3 s4); [by apply loops_of_ctx|done..|]. rewrite <- Z1. rewrite El in R2. rewrite El2 in R3.
  eapply good_then.
  { pose proof (R2 fuel (∅ :: rho) ls st') as G. destruct init as [i|]; apply G; by eapply related_push. }
  intros [rho' f] cf Hf. destruct f; try done. destruct (Hf eq_refl) as (ls' & -> & R'). cbn [fst] in R'.
  eapply good_mono; [by apply R3|]. intros [rho2 f2] cf [Hn Ha]. unfold loops in Q3. pose proof (grows_loops _ _ G2) as Q2. unfold loops in Q2.
  assert (g_ret s2.2 = g_ret s1.2) as Er by congruence. unfold arrives in *. cbn [fst snd] in *. rewrite Er in Ha.
  by destruct f2; [|destruct Hn as [|[? ?]]..|].
Qed.

(** Every statement of the language. *)
Lemma compiles_all x : compiles_stmt x.
Proof.
  induction x using stmt_tree_ind; try (intros sc s Hok; discriminate Hok).
  - by apply compiles_nothing.
  - apply compiles_expr_stmt.
  - apply compiles_decl.
  - by apply compiles_block.
  - destruct e as [e|]; [apply compiles_if_else; auto|by apply compiles_if].
  - by apply compiles_while.
  - by apply compiles_do_while.
  - by apply compiles_for.
  - apply compiles_break.
  - apply compiles_continue.
  - destruct v; [apply compiles_return_value|apply compiles_return_none].
  - by apply compiles_nothing.
Qed.
End Flow.
