(* ===== verification/CcCorrectScript.v ===== *)
(** * Compiled scripts return what they mean

    The run loop: a path of configurations that ends in a return from the frame
    it started with, or in a diagnostic, is a run that ends so, within any budget
    that allows its bytecodes ([Run]).  Then the code of a whole script: the
    marker, the parameters, the statements and the return the compiler adds
    ([Script]). *)

From S2P Require Import Prelude Loops NetText BhsOpcode BhsDisasm BhsStd BhsValue BhsOps BhsProgram BhsVm CcLex CcAst CcParse CcSema CcCodegen CcCodegenSpec CcCodeWf CcRun CcEval CcMachine CcLink CcFollow CcCorrectExpr CcCorrectStmt CcCorrectFlow.
#[local] Open Scope list_scope.
#[local] Open Scope Z_scope.

(** ** Loops that end *)

Lemma iter_until_nat {X R} (f : X -> X + R) p x : iter_until p f x = Nat.iter (Pos.to_nat p) (advance f) (inl x).
Proof. rewrite iter_until_iter. apply Pos2Nat.inj_iter. Qed.
(** [k] iterations that go on and one that ends. *)
Lemma iter_until_ends {X R} (f : X -> X + R) (path : nat -> X) k r p :
  (forall i, (i < k)%nat -> f (path i) = inl (path (S i))) -> f (path k) = inr r -> (k < Pos.to_nat p)%nat -> iter_until p f (path 0%nat) = inr r.
Proof.
  intros Hs Hr Hp. rewrite iter_until_nat. assert (E : forall i y, Nat.iter (S i) (advance f) y = advance f (Nat.iter i (advance f) y)) by done.
  assert (G : forall i, (i <= k)%nat -> Nat.iter i (advance f) (inl (path 0%nat)) = inl (path i)).
  { induction i as [|i IH]; intros Hi; [done|]. rewrite E, IH by lia. apply Hs. lia. }
  assert (D : forall j, Nat.iter j (advance f) (inr r) = inr r) by (induction j as [|j IH]; [done|]; by rewrite E, IH).
  replace (Pos.to_nat p) with ((Pos.to_nat p - S k) + S k)%nat by lia. rewrite Nat.iter_add, E, G by lia. cbn [advance]. rewrite Hr. apply D.
Qed.

Section Run.
Context {std : StdLib} {H : Type} {hst : Host H} (builtin : Z -> option BuiltinDecl) (d : nat).
Context (m : Vm H) (file script : Z) (expected : nat) (void : bool) (sf : ScriptFile).
Hypothesis Hfile : get_z (files (prog m)) file = Some sf.
Abbreviation runs_to := (step1 builtin d m [] file script expected void).
Abbreviation stops_at := (stops builtin d m [] file script expected void).
Abbreviation load_ := (load m [] file script expected void).

(** ** The return *)

(** The machine without frames. *)
Definition over (n : Z * Z) (st : list Slot) (v : option Value) : Vm H :=
  mkVm (prog m) (host m) (heap m) st [] v (coverage m) n.1 (err_count m) n.2 (missing_builtin_policy m).
Lemma return_step c x v st n : insn_at sf (at_bip c) op.RETURN [] -> at_stack c = x :: st -> holds [] file sf (at_locals c) x v -> scalar v = true ->
  expected = S (length st) -> Vm.step builtin (S d) (load m [] file script expected false n c) = Comp (Ok Continue, over n st (Some v)).
Proof.
  destruct c as [b ls st0]. cbn [at_bip at_stack at_locals]. intros I -> Hx Hv Hexp. erewrite step_exec; [|exact Hfile|exact I|reflexivity].
  change (Vm.execute _ _ _ _) with (@Vm.op_return H (S d)). unfold Vm.op_return. erewrite (bind_ok Vm.cur_frame); [|apply run_cur_frame].
  cbn [void_return]. unfold Vm.peek_value.
  erewrite (bind_ok (Vm.bind (Vm.bind (Vm.gets stack) _) _)).
  2:{ erewrite (bind_ok (Vm.bind (Vm.gets stack) _)).
      2:{ erewrite (bind_ok (Vm.gets stack)); [|reflexivity]. erewrite (bind_ok (Vm.require _ _)); [|reflexivity]. by eapply run_deref. }
      erewrite (bind_ok (Vm.alloc _)); [|by apply run_duplicate]. reflexivity. }
  unfold Vm.close_frame, Vm.bind, Vm.gets, Vm.unwrap, Vm.modify. cbn. rewrite Hexp, Nat.eqb_refl. cbn. by destruct d.
Qed.
Lemma return_void_step c st n : insn_at sf (at_bip c) op.RETURN [] -> at_stack c = st ->
  expected = length st -> Vm.step builtin (S d) (load m [] file script expected true n c) = Comp (Ok Continue, over n st (returned m)).
Proof.
  destruct c as [b ls st0]. cbn [at_bip at_stack at_locals]. intros I -> Hexp. erewrite step_exec; [|exact Hfile|exact I|reflexivity].
  change (Vm.execute _ _ _ _) with (@Vm.op_return H (S d)). unfold Vm.op_return. erewrite (bind_ok Vm.cur_frame); [|apply run_cur_frame].
  cbn [void_return]. erewrite (bind_ok (Vm.ret _)); [|reflexivity].
  unfold Vm.close_frame, Vm.bind, Vm.gets, Vm.unwrap, Vm.modify. cbn. rewrite Hexp, Nat.eqb_refl. cbn. done.
Qed.

(** ** The loop *)

(** What a script that returns leaves: no frame, the stack without the
    arguments, the value if there is one. *)
Definition returns (st : list Slot) (v : option Value) (c : config) : Prop :=
  forall n, Vm.step builtin (S d) (load_ n c) = Comp (Ok Continue, over n st v).

Lemma run_path c0 c k x : nsteps runs_to k c0 c -> exists path : nat -> Vm H,
  path 0%nat = load_ x c0 /\ path k = load_ (x.1 + Z.of_nat k, x.2) c /\
  (forall before i, x.1 - before + Z.of_nat k <= x.2 -> (i < k)%nat -> Vm.run_body builtin (S d) before (path i) = inl (path (S i))).
Proof.
  intros Hn. revert x. induction Hn as [c|k c0 c1 c Hs Hn IH]; intros x.
  - exists (fun _ => load_ x c). split; [done|]. split; [|intros; lia]. f_equal. destruct x. cbn. f_equal. lia.
  - destruct (IH (x.1 + 1, x.2)) as (path & P0 & Pk & Ps). exists (fun i => match i with O => load_ x c0 | S i => path i end).
    split; [done|]. split; [rewrite Pk; do 2 f_equal; cbn; lia|]. intros before [|i] Hb Hi.
    + unfold Vm.run_body. cbn [frames load app]. destruct (Z.ltb_spec (budget (load_ x c0)) (bytecodes_executed (load_ x c0) - before)) as [L|_]; [cbn in L; lia|].
      rewrite Hs, P0. done.
    + apply Ps; [cbn; lia|lia].
Qed.
Lemma run_returns c0 c st v before : rtc runs_to c0 c -> returns st v c -> exists k, forall x, x.1 - before + Z.of_nat k <= x.2 -> 0 <= x.1 - before ->
  Vm.run_loop builtin (S d) before (load_ x c0) = Comp (Ok None, over (x.1 + Z.of_nat k, x.2) st v).
Proof.
  intros [k Hk]%rtc_nsteps Hr. exists (S k). intros x Hx Hb. destruct (run_path _ _ _ x Hk) as (path & P0 & Pk & Ps).
  set (end_ := over (x.1 + Z.of_nat (S k), x.2) st v). set (path' := fun i => if (i <=? k)%nat then path i else end_).
  assert (E : forall s, s = load_ x c0 -> Vm.run_loop builtin (S d) before s = Comp (Ok None, end_)); [|by apply E].
  intros s Es. unfold Vm.run_loop. replace s with (path' 0%nat) by by rewrite Es.
  erewrite (iter_until_ends (Vm.run_body builtin (S d) before) path' (S k)); [reflexivity| | |].
  - intros i Hi. unfold path'. destruct (Nat.leb_spec i k); [|lia]. destruct (Nat.leb_spec (S i) k) as [Hle|Hgt].
    + apply Ps; lia.
    + replace i with k by lia. rewrite Pk. unfold Vm.run_body. cbn [frames load app].
      destruct (Z.ltb_spec (budget (load_ (x.1 + Z.of_nat k, x.2) c)) (bytecodes_executed (load_ (x.1 + Z.of_nat k, x.2) c) - before)) as [L|_]; [cbn in L; lia|].
      rewrite Hr. unfold end_, over, Vm.set_executed. cbn. do 2 f_equal. lia.
  - unfold path'. destruct (Nat.leb_spec (S k) k); [lia|]. done.
  - unfold path'. cbn [Nat.leb]. rewrite P0. cbn [budget load snd]. lia.
Qed.
Lemma run_stops c0 c e before : rtc runs_to c0 c -> stops_at c e -> exists k, forall x, x.1 - before + Z.of_nat k <= x.2 -> 0 <= x.1 - before ->
  exists r s', Vm.run_loop builtin (S d) before (load_ x c0) = Comp (Ok (Some r), s') /\ message r = op_message (prog m) e /\ frames s' = [].
Proof.
  intros [k Hk]%rtc_nsteps Hr. exists k. intros x Hx Hb. destruct (run_path _ _ _ x Hk) as (path & P0 & Pk & Ps).
  destruct (Hr (x.1 + Z.of_nat k, x.2)) as (r & s' & Es & Hm). exists r, (Vm.set_frames [] s'). split; [|done].
  assert (E : forall s, s = load_ x c0 -> Vm.run_loop builtin (S d) before s = Comp (Ok (Some r), Vm.set_frames [] s')); [|by apply E].
  intros s Ex. unfold Vm.run_loop. replace s with (path 0%nat) by congruence.
  erewrite (iter_until_ends (Vm.run_body builtin (S d) before) path k); [reflexivity| | |].
  - intros i Hi. by apply Ps.
  - rewrite Pk. unfold Vm.run_body. cbn [frames load app].
    destruct (Z.ltb_spec (budget (load_ (x.1 + Z.of_nat k, x.2) c)) (bytecodes_executed (load_ (x.1 + Z.of_nat k, x.2) c) - before)) as [L|_]; [cbn in L; lia|].
    by rewrite Es.
  - rewrite P0. cbn [budget load snd]. lia.
Qed.
End Run.

Import Gen.
#[local] Open Scope gen_scope.

(** ** Syntax *)

Lemma returns_void_spec r v u : returns_void r = Some v -> exists t, resolve_type r u = TyScalar t /\
  if v : bool then t = TVoid /\ scalar_type r = None else t <> TVoid /\ scalar_type r = Some t.
Proof.
  unfold returns_void. destruct (scalar_type r) as [t|] eqn:E.
  - intros [= <-]. exists t. split; [by apply scalar_resolved|]. split; [|done]. intros ->. destruct r as [r|]; [|done]. cbn in E.
    destruct (_ =? 0); [|done]. by destruct (scalar_from_name _) as [[]|].
  - destruct r as [r|]; [|done]. destruct ((array_depth r =? 0) && _) eqn:Ev; [|done]. intros [= <-].
    apply andb_true_iff in Ev as [Hd%Z.eqb_eq Hn%bool_decide_eq_true]. exists TVoid. split; [|done]. cbn. by rewrite Hd, Hn.
Qed.

Lemma declares_cons ds : forall (m0 : gset text) sc, exists m1 sc1, fold_left (fun sc x => declares (d_name x) sc) ds (m0 :: sc) = m1 :: sc1.
Proof. induction ds as [|x ds IH]; intros m0 sc; [by eexists _, _|]. cbn [fold_left declares]. apply IH. Qed.
(** Statements of the language declare no labels. *)
Lemma hoist_nothing unit_ fi labels x : forall sc s, ok_stmt labels sc x = true -> hoist_label unit_ fi x s = Comp (tt, s).
Proof.
  induction x using stmt_tree_ind; intros sc s Hok; try done. cbn [hoist_label ok_stmt] in *. revert sc s Hok.
  generalize (∅ : gset text). induction H as [|x l Hx Hl IH]; intros m0 sc s Hok; [done|]. cbn [iter ok_list] in *.
  apply andb_true_iff in Hok as [Ho Hok]. unfold bind. rewrite (Hx _ s Ho).
  assert (exists m1 sc1, scope_after (m0 :: sc) x = m1 :: sc1) as (m1 & sc1 & E).
  { destruct x; try (by eexists _, _). apply declares_cons. }
  rewrite E in Hok. by eapply IH.
Qed.
Lemma hoist_list unit_ fi labels l : forall sc s, ok_list (ok_stmt labels) sc l = true -> hoist_labels unit_ fi l s = Comp (tt, s).
Proof.
  unfold hoist_labels. induction l as [|x l IH]; intros sc s Hok; [done|]. cbn [iter ok_list] in *. apply andb_true_iff in Hok as [Ho Hok].
  unfold bind. rewrite (hoist_nothing _ _ _ _ _ _ Ho). by eapply IH.
Qed.
(** A list that ends in a return does not fall through. *)
Lemma last_returns {std : StdLib} labels fuel l : is_return (last l) = true ->
  forall rho rho', in_order (exec labels fuel) l rho <> Some (Ok (rho', FNext)).
Proof.
  induction l as [|x l IH]; [done|]. intros Hr rho rho'. cbn [in_order]. destruct l as [|y l].
  - cbn in Hr. destruct x; try done. destruct fuel as [|fuel]; [done|]. cbn [exec]. destruct value as [e|]; [|done].
    by destruct (eval _ _ _) as [[]|].
  - rewrite last_cons_cons in Hr. destruct (exec _ _ _ _) as [[[rho1 f]|]|]; cbn [and_then]; [|done|done]. destruct f; [|done..]. by apply IH.
Qed.

Section Script.
Context {std : StdLib} {H : Type} {hst : Host H} (builtin : Z -> option BuiltinDecl) (d : nat).
Context (m : Vm H) (fs : list Frame) (file script : Z) (expected : nat) (void : bool) (sf : ScriptFile) (lp : list (option Z)).
Hypothesis Hfile : get_z (files (prog m)) file = Some sf.
Context (BUILTINS : list BuiltinDecl) (depth : nat) (unit_ : Unit) (fi : nat).
Abbreviation runs_to := (step1 builtin d m fs file script expected void).
Abbreviation stops_at := (stops builtin d m fs file script expected void).
Abbreviation at_ s ls st := (mkConfig (Z.of_nat (size_at s)) ls st).
Abbreviation is_good := (good runs_to stops_at).
Abbreviation holds_ := (holds fs file sf).

(** ** Parameters *)

Definition binds (ps : list Param) (s s' : state) : Prop :=
  slots_ok s.2 -> slots_ok s'.2 /\ forall args rho rho' ls st, related s.2 rho ls -> Forall (fun v => scalar v = true) args ->
  bind_params ps args rho = Some rho' -> exists ls', rtc runs_to (at_ s ls (map SVal args ++ st)) (at_ s' ls' st) /\ related s'.2 rho' ls'.
Lemma does_param sc q t s : by_ref q = false -> scalar_type (p_ty q) = Some t -> typed s.2 -> in_names s.2 sc ->
  does sf lp (param_prologue unit_ q) s (fun _ s' => grows s.2 s'.2 /\ in_names s'.2 (declares (p_name q) sc))
    (fun _ s' => slots_ok s.2 -> slots_ok s'.2 /\ forall v rho ls st, related s.2 rho ls -> scalar v = true ->
       exists ls', runs_to (at_ s ls (SVal v :: st)) (at_ s' ls' st) /\ related s'.2 (declare (p_name q) (TyScalar t) v rho) ls').
Proof.
  intros Hq Et Hty Hn. unfold param_prologue. rewrite (scalar_resolved _ unit_ _ Et), Hq. begin.
  follow (apply does_declare_local). intros x1 s1 i1 (Ex & Ec & Ety & Eg & Eb) T1 _.
  follow (eapply (does_emit1 _ _ _ KVarRef); [shape|discriminate|subst x1; apply u32_ok]). intros [] s2 i2 N2 T2 _.
  pose proof (names_eq _ _ N2) as (F1 & F2 & F3 & _). finish_linked.
  - split.
    + etrans; [|by apply names_grows]. split; [done|rewrite Ety; by apply prefix_app_r|unfold typed in *; rewrite Ety, Eg, !length_app; cbn; lia|].
      destruct (scopes s.2); [done|]. by injection Eb as <-.
    + eapply in_names_scopes; [done|by eapply bind_in_names].
  - intros Hl ((_ & Z1) & Z2 & I2) Hs. pose proof (ln_locals _ _ _ Hl) as Hb. rewrite F2, Eg, length_app in Hb. cbn in Hb.
    rewrite small_u32 in Ex by lia. subst x1.
    assert (Eb2 : bind_name (p_name q) (PLocal (Z.of_nat (length (g_locals s.2)))) (scopes s.2) = Some (scopes s2.2)) by by rewrite F1.
    split; [eapply declare_slots; [exact Eb2|..]; rewrite ?F2, ?F3; done|]. intros v rho ls st R Hv. eexists. split.
    + rewrite (at_add _ _ _ Z2), <- Z1. eapply init_copy_step; [exact Hfile|exact I2|apply decode_local; lia|done|done].
    + unfold init_local. rewrite Nat2Z.id. replace (Z.to_nat _) with (length (g_locals s.2) + 1)%nat by lia.
      eapply related_declare; [exact Eb2|..]; rewrite ?F2, ?F3; done.
Qed.
Lemma does_params ps : forall sc s, ok_params ps = true -> tables_ok s -> typed s.2 -> in_names s.2 sc ->
  does sf lp (iter (param_prologue unit_) ps) s
    (fun _ s' => grows s.2 s'.2 /\ in_names s'.2 (fold_left (fun sc p => declares (p_name p) sc) ps sc)) (fun _ s' => binds ps s s').
Proof.
  induction ps as [|q ps IH]; intros sc s Hok Ht Hty Hn; cbn [iter fold_left].
  - split; [done|]. exists []. eapply tracks_mono; [apply tracks_refl|]. intros _ Hs. split; [done|].
    intros [|v args] rho rho' ls st R _; cbn [bind_params]; [|done]. intros [= <-]. by exists ls.
  - cbn [ok_params forallb] in Hok. apply andb_true_iff in Hok as [[Hq%negb_true_iff [t Et]%bool_decide_eq_true]%andb_true_iff Hok]. begin.
    follow (by eapply does_param). intros [] s1 i1 (G1 & N1) T1 _.
    follow (apply (IH (declares (p_name q) sc)); [done|by eapply tracks_tables|by apply (gr_typed _ _ G1)|done]). intros [] s2 i2 (G2 & N2) T2 _.
    finish; [split; [by etrans|done]|]. intros ((_ & S1) & S2) Hs. destruct (S1 Hs) as [Hs1 R1]. destruct (S2 Hs1) as [Hs2 R2]. split; [done|].
    intros [|v args] rho rho' ls st R Ha; cbn [bind_params]; [done|]. rewrite Et, Hq. cbn [mbind option_bind]. intros Hb.
    inv Ha as [|? ? Hv Ha']. destruct (R1 v rho ls (map SVal args ++ st) R Hv) as (ls1 & St & Rel1).
    destruct (R2 args _ rho' ls1 st Rel1 Ha' Hb) as (ls2 & St2 & Rel2). exists ls2. split; [|done]. by eapply rtc_l.
Qed.
(** ** The whole script *)

(** At the return, with the value on what was on the stack before the arguments. *)
Definition ends_with (st : list Slot) (ov : option Value) (c : config) : Prop :=
  insn_at sf (at_bip c) op.RETURN [] /\
  match ov with
  | Some w => exists x, at_stack c = x :: st /\ holds_ (at_locals c) x w /\ scalar w = true
  | None => at_stack c = st
  end.
(** The return the compiler adds. *)
Lemma does_epilogue (needed : bool) t p s :
  does sf lp (when needed (when (negb (bool_decide (TyScalar t = TyScalar TVoid))) (emit_default_value unit_ fi depth (TyScalar t) p) ;;; emit op.RETURN p)) s (same s)
    (fun _ s' => needed = true -> forall ls st, exists c, rtc runs_to (at_ s ls st) c /\ ends_with st (if bool_decide (t = TVoid) then None else Some (zero_value t)) c).
Proof.
  destruct needed; cbn [when].
  2:{ split; [done|]. exists []. by eapply tracks_mono; [apply tracks_refl|]. }
  begin. destruct (bool_decide_reflect (TyScalar t = TyScalar TVoid)) as [Ev|Ev]; cbn [negb when].
  - flat. apply wp_unit. follow (apply does_emit; shape). intros [] s1 i1 N1 T1 _. finish. intros (_ & Z1 & I1) _ ls st. injection Ev as ->.
    eexists. split; [done|]. by split.
  - follow (by apply (does_default builtin d m fs file script expected void sf lp Hfile)). intros [] s1 i1 N1 T1 _.
    follow (apply does_emit; shape). intros [] s2 i2 N2 T2 _. finish. intros ((_ & S1) & Z2 & I2) _ ls st. eexists. split; [apply rtc_once, S1|].
    split; [done|]. rewrite bool_decide_eq_false_2 by congruence. eexists. split; [done|]. split; [done|]. by destruct t.
Qed.

Lemma does_script si sg stmts bp (f : FileGen) v t :
  let s0 := (f, new_script_gen unit_ (TyScalar t)) in
  ok_script (u_labels unit_) sg stmts = true -> pool_ok f -> resolve_type (CcAst.ret sg) unit_ = TyScalar t -> returns_void (CcAst.ret sg) = Some v ->
  does sf lp (script_code BUILTINS depth unit_ fi si sg (mkBlock stmts bp)) s0 (fun _ _ => True) (fun _ s' =>
    forall fuel args st, Forall (fun v => scalar v = true) args ->
    is_good (at_ s0 [] (map SVal args ++ st)) (run_script (u_labels unit_) fuel sg stmts args)
      (fun ov c => ends_with st ov c /\ (ov = None <-> v = true))).
Proof.
  intros s0 Hok Hp Hres Hv. unfold ok_script in Hok. apply andb_true_iff in Hok as [[Hps _]%andb_true_iff Hl].
  assert (Ht0 : tables_ok s0) by (split; [done|apply Forall_singleton, map_Forall_empty]).
  assert (Hn0 : in_names s0.2 [∅]). { constructor; [|constructor]. intros n. rewrite lookup_empty. split; [set_solver|by intros [? ?]]. }
  cbn [script_code]. begin. follow (eapply does_emit1; [shape|discriminate|apply u32_ok]). intros [] s1 i1 N1 T1 _.
  pose proof (names_eq _ _ N1) as (E1 & _). pose proof (names_grows _ _ N1) as G01.
  follow (apply (does_params (params sg) [∅]); [done|by eapply tracks_tables|by apply G01|by eapply in_names_scopes]). intros [] s2 i2 (G12 & N2) T2 _.
  assert (G02 : grows s0.2 s2.2) by by etrans. pose proof (gr_ctx _ _ G02) as C2. assert (El : g_labels s2.2 = u_labels unit_) by (unfold ctx in C2; cbn in C2; congruence).
  flat. apply wp_bind. unfold wp at 1. rewrite (hoist_list _ _ _ _ _ _ Hl).
  assert (Hr2 : ready (fold_left (fun sc p => declares (p_name p) sc) (params sg) [∅]) s2).
  { split; [|by apply G02|done|exists t; unfold ctx in C2; cbn in C2; congruence].
    eapply (loops_ok_same _ s0); [split; [by split; constructor|done]|exists i2; apply T2|by apply loops_of_ctx]. }
  follow (apply (compiles_list builtin d m fs file script expected void sf lp BUILTINS depth unit_ fi stmts
    (proj2 (List.Forall_forall _ _) (fun x _ => compiles_all builtin d m fs file script expected void sf lp Hfile BUILTINS depth unit_ fi x))
    (fold_left (fun sc p => declares (p_name p) sc) (params sg) [∅])); [by rewrite El|done]). intros [] s3 i3 G3 T3 _.
  assert (Er : g_ret s3.2 = TyScalar t) by (pose proof (gr_ctx _ _ G3) as C3; unfold ctx in C2, C3; cbn in C2; congruence).
  flat. apply wp_gets. rewrite Er. follow (apply does_epilogue). intros [] s4 i4 N4 T4 _. finish; [done|].
  intros ((((_ & Z1 & I1) & S2) & S3) & S4) fuel args st Ha.
  assert (Hs1 : slots_ok s1.2).
  { eapply names_slots; [exact N1|]. split; [done|..].
    - intros [|[|k]] sc n x; cbn; try done. intros [= <-]. by rewrite lookup_empty.
    - intros [|[|k]] k' sc sc' n n' x; cbn; try done. intros [= <-] _. by rewrite lookup_empty. }
  destruct (S2 Hs1) as [Hs2 R2]. destruct (S3 Hs2) as [Hs3 R3]. unfold run_script. rewrite Hv. cbn [mbind option_bind].
  destruct (bind_params (params sg) args [∅]) as [rho|] eqn:Eb; [|done]. cbn [mbind option_bind].
  eapply good_step; [by eapply marker_step|]. pose proof (at_add s0 s1 5 Z1) as A1. change (Z.of_nat 5) with 5 in A1. rewrite <- A1.
  destruct (R2 args [∅] rho [] st) as (ls & St & Rel); [|done|done|].
  { eapply related_names; [exact N1|]. constructor; [|constructor]. intros n. rewrite !lookup_empty. constructor. }
  eapply good_steps; [exact St|]. rewrite El in R3.
  destruct (in_order (exec (u_labels unit_) fuel) stmts rho) as [[[rho' f']|e]|] eqn:Ei; [| |done]; pose proof (R3 fuel rho ls st Rel) as G; rewrite Ei in G; [|exact G].
  destruct G as (c & Hc & Harr). eapply good_steps; [exact Hc|]. cbn [and_then]. unfold arrives in Harr. cbn [snd fst] in Harr.
  destruct (returns_void_spec _ _ unit_ Hv) as (t' & Et' & Hvt). assert (t' = t) as -> by congruence.
  assert (Hdef : default_return (CcAst.ret sg) = (if bool_decide (t = TVoid) then None else Some (zero_value t)) /\ (default_return (CcAst.ret sg) = None <-> v = true)).
  { unfold default_return. destruct v; destruct Hvt as [Hvt ->]; [by subst|]. rewrite bool_decide_eq_false_2 by done. by split. }
  destruct Hdef as [Hdef Hdv].
  assert (Er2 : g_ret s2.2 = TyScalar t) by (unfold ctx in C2; cbn in C2; congruence). rewrite Er2 in Harr.
  destruct f' as [| | |[w|]]; try done.
  - destruct Harr as (ls' & -> & _). destruct (negb (is_return (last stmts))) eqn:En; [|apply negb_false_iff in En; by destruct (last_returns _ _ _ En _ _ Ei)].
    destruct (S4 eq_refl ls' st) as (c & Hc' & He). eapply good_steps; [exact Hc'|]. apply good_ok. by rewrite Hdef at 1.
  - destruct v; [done|]. destruct Hvt as [Hne _]. apply good_ok. destruct Harr as [I H']. split; [|done]. split; [done|]. by destruct t.
  - apply good_ok. split; [|done]. destruct Harr as [I H']. rewrite Hdef. split; [done|].
    destruct t; try (by rewrite bool_decide_eq_true_2); rewrite bool_decide_eq_false_2 by done; destruct H' as (x & Hx & Hh); by exists x.
Qed.
End Script.
