(* ===== verification/CcCorrect.v ===== *)
(** * The compiler is correct on scalar scripts

    A script of the language of [CcEval], compiled without errors and run by
    the machine, returns what the reference semantics says, or stops with the
    diagnostic of the operator that fails. *)

From S2P Require Import Prelude Loops NetText BhsOpcode BhsDisasm BhsStd BhsValue BhsOps BhsProgram BhsVm CcLex CcAst CcParse CcSema CcCodegen CcCodegenSpec CcCodeWf CcRun CcEval CcMachine CcLink CcFollow CcCorrectExpr CcCorrectStmt CcCorrectFlow CcCorrectScript.
#[local] Open Scope list_scope.
#[local] Open Scope Z_scope.
Import Gen.
#[local] Open Scope gen_scope.
From Stdlib Require String.
Import (notations) String.

(** ** Patched code *)


Section File.
Context (BUILTINS : list BuiltinDecl) (depth : nat) (unit_ : Unit) (fi : nat).


(** A script compiled into [f'], as it stands in the final file. *)
Section Placed.
Context {std : StdLib} {H : Type} {hst : Host H} (builtin : Z -> option BuiltinDecl) (d : nat).
Context (m : Vm H) (file script : Z) (expected : nat) (void : bool) (sf : ScriptFile).
Hypothesis Hfile : get_z (files (prog m)) file = Some sf.
Abbreviation runs_to := (step1 builtin d m [] file script expected void).
Abbreviation stops_at := (stops builtin d m [] file script expected void).

End Placed.

(** ** Files *)



End File.

(** ** Programs *)


(** ** The theorem *)


Section Start.
Context {std : StdLib} {H : Type} {hst : Host H} (builtin : Z -> option BuiltinDecl) (d : nat) (m : Vm H) (fi si : nat) (args : list Value) (sf : ScriptFile) (sc : Script).
Hypothesis Hf : get_z (files (prog m)) (Z.of_nat fi) = Some sf.
Hypothesis Hs : scripts sf !! si = Some sc.
Hypothesis Ha : arity sc = length args.
Hypothesis Hfr : frames m = [].
Abbreviation m0 := (Vm.set_returned None m).
Abbreviation void := (return_type sc =? tag TVoid).
Abbreviation expected := (length (stack m) + if void then 0 else 1)%nat.

End Start.




Module Sample.
#[local] Open Scope string_scope.
End Sample.

Import AsciiStd.
