(* ===== verification/CcQuirks.v ===== *)
(** * The script compiler: where it does not do what it means

    Concrete scripts on which the generated code, or the generator itself,
    goes wrong. *)

From S2P Require Import Prelude Loops NetText BhsOpcode BhsDisasm BhsStd BhsValue BhsOps BhsProgram BhsVm CcLex CcAst CcParse CcSema CcCodegen CcCodegenSpec CcCodeWf CcRun.
From Stdlib Require String.
Import (notations) String.
#[local] Open Scope list_scope.
#[local] Open Scope Z_scope.
Import Gen.
#[local] Open Scope gen_scope.

(** ** Structs that contain themselves *)

(** The default value of a struct whose only field is the struct itself. *)
Lemma default_of_itself unit_ fi si s f p : u_structs unit_ !! si = Some s -> si_fields s = [f] -> sf_ty f = TyStruct si -> sf_fixed_len f = None ->
  forall depth st, emit_default_value unit_ fi depth (TyStruct si) p st = StackOverflow.
Proof.
  intros Hs Hf Ht Hl. induction depth as [|depth IH]; intros st; [done|]. cbn [emit_default_value]. rewrite Hs. unfold bind. cbn. rewrite Hf. cbn. rewrite Hl, Ht. by rewrite IH.
Qed.

Lemma bind_over {A B} (c : M A) (k : A -> M B) s : c s = StackOverflow -> bind c k s = StackOverflow.
Proof. unfold bind. by intros ->. Qed.
Lemma bind_comp {A B} (c : M A) (k : A -> M B) s a s' : c s = Comp (a, s') -> bind c k s = k a s'.
Proof. unfold bind. by intros ->. Qed.

(** A script that declares a variable of such a type first. *)
Section Nested.
Context (BUILTINS : list BuiltinDecl) (depth : nat) (unit_ : Unit) (fi si : nat) (info : StructInfo) (field : StructField).
Hypothesis Hs : u_structs unit_ !! si = Some info.
Hypothesis Hf : si_fields info = [field].
Hypothesis Ht : sf_ty field = TyStruct si.
Hypothesis Hl : sf_fixed_len field = None.

Lemma decl_overflows v x s : is_static v = false -> decls v = [x] -> resolve_type (v_ty v) unit_ = TyStruct si -> d_array x = None -> d_init x = None ->
  scopes s.2 <> [] -> stmt BUILTINS depth unit_ fi (SDecl v) s = StackOverflow.
Proof.
  intros Hst Hd Hr Ha Hi Hsc. destruct s as [f g]. cbn [snd] in Hsc. cbn [stmt]. unfold decl. rewrite Hd. cbn [iter]. apply bind_over.
  unfold declarator. rewrite Hst, Hr, Ha. destruct (scopes g) as [|sc ss] eqn:Es; [done|].
  erewrite (bind_comp (declare_local _ _)); [|unfold declare_local, bind, the_gen, gets; cbn [snd]; rewrite Es; reflexivity].
  erewrite (bind_comp (ret _)); [|reflexivity]. apply bind_over. unfold init_value. rewrite Ha, Hi. apply bind_over. by eapply default_of_itself.
Qed.
Lemma script_overflows name sg v x rest bp f k : position (fun s => eq_ignore_ascii_case (sc_name s) name) (g_scripts f) = Some k -> params sg = [] ->
  (forall s, hoist_labels unit_ fi (SDecl v :: rest) s = Comp (tt, s)) ->
  is_static v = false -> decls v = [x] -> resolve_type (v_ty v) unit_ = TyStruct si -> d_array x = None -> d_init x = None ->
  script BUILTINS depth unit_ fi name sg (mkBlock (SDecl v :: rest) bp) f = StackOverflow.
Proof.
  intros Hn Hp Hh Hst Hd Hr Ha Hi. unfold script. rewrite Hn. erewrite bind_over; [done|]. cbn [script_body]. rewrite Hp. cbn [iter].
  erewrite (bind_comp (emit1 _ _ _)); [|reflexivity]. erewrite (bind_comp (ret _)); [|reflexivity]. erewrite (bind_comp (hoist_labels _ _ _)); [|apply Hh].
  apply bind_over, bind_over. by eapply decl_overflows.
Qed.
End Nested.

Module Quirk.
#[local] Open Scope string_scope.
Definition nested : String.string := "struct A { A x; }; int scenario { A a; return 0; }".
Definition once : String.string := "int scenario { int s = 0; run_once { s += 1; } run_once { s += 2; } return s; }".
Definition least : String.string := "labels { A = (0 - 9223372036854775807 - 1) / (0 - 1) } int scenario { return A; }".
Definition declared : String.string := "int foo(int x);".
Definition borrowed : String.string := "int one() { return 7; } int foo();".
End Quirk.

(** The generator recurs for ever on the default value of a variable whose
    struct type contains itself, which the analysis accepts: however deep the
    stack, it overflows. *)
Theorem nested_struct_overflows depth : compile [] depth (Demo.unit_of Quirk.nested) = StackOverflow.
Proof.
  assert (Es : exists info field, u_structs (Demo.unit_of Quirk.nested) !! 0%nat = Some info /\ si_fields info = [field] /\ sf_ty field = TyStruct 0 /\ sf_fixed_len field = None).
  { eexists _, _. split; [vm_compute; reflexivity|]. split; [vm_compute; reflexivity|]. by split. }
  destruct Es as (info & field & S1 & S2 & S3 & S4).
  assert (Ei : exists fu a mn v x rest bp, u_files (Demo.unit_of Quirk.nested) = [fu] /\ items (fu_ast fu) = [a; IMain mn] /\ script_of fu a = None /\
    m_body mn = mkBlock (SDecl v :: rest) bp /\ decls v = [x] /\ is_static v = false /\ resolve_type (v_ty v) (Demo.unit_of Quirk.nested) = TyStruct 0 /\
    d_array x = None /\ d_init x = None /\ script_names fu = [entry_name (fu_path fu)] /\ forall s, hoist_labels (Demo.unit_of Quirk.nested) 0 (SDecl v :: rest) s = Comp (tt, s)).
  { eexists _, _, _, _, _, _, _. split; [vm_compute; reflexivity|]. split; [cbn [fu_ast items]; reflexivity|]. split; [reflexivity|]. split; [reflexivity|].
    split; [reflexivity|]. split; [reflexivity|]. split; [vm_compute; reflexivity|]. split; [reflexivity|]. split; [reflexivity|]. split; [vm_compute; reflexivity|]. done. }
  destruct Ei as (fu & a & mn & v & x & rest & bp & F1 & F2 & F3 & F4 & F5 & F6 & F7 & F8 & F9 & F10 & F11).
  assert (F0 : u_files (Demo.unit_of Quirk.nested) !! 0%nat = Some fu) by by rewrite F1.
  unfold compile. rewrite F1. cbn [length seq compile_files]. unfold run. rewrite F0, F2. cbn [gen_items]. rewrite (gen_item_script _ _ _ _ fu) by done. rewrite F3.
  rewrite (gen_item_script _ _ _ _ fu) by done. cbn [script_of]. cbv zeta. rewrite F4.
  erewrite (script_overflows [] depth _ 0 0 info field S1 S2 S3 S4); [reflexivity| |done|done|done|done|done|done|done].
  cbn [g_scripts]. rewrite F10. cbn [map position sc_name blank_script]. unfold eq_ignore_ascii_case. by rewrite bool_decide_eq_true_2.
Qed.

(** Both [run_once] blocks of a script share one bit: the second never
    runs, though nothing of it has run before. *)
Theorem run_once_blocks_share_a_bit : exists p ds st out s,
  compile [] 100 (Demo.unit_of Quirk.once) = Comp (p, ds, st) /\ existsb is_error (u_diags (Demo.unit_of Quirk.once) ++ ds) = false /\
  @Vm.run_script_index AsciiStd.ascii_std unit _ Example.no_builtins 8 0 0 [] (Vm.new p tt (mkHeap [] [])) = Comp (Ok out, s) /\
  ro_returned out = Some (VInt 1) /\ ro_error out = None.
Proof.
  eexists _, _, _, _, _. split; [vm_compute; reflexivity|]. split; [vm_compute; reflexivity|]. split; [vm_compute; reflexivity|]. by split.
Qed.

(** The analysis aborts on a label whose value divides the least 64-bit
    integer by -1. *)
Theorem label_division_panics :
  let fs := Demo.one_file (str_text Quirk.least) in @analyze fs Demo.root (@default_include_path fs) = None.
Proof. vm_compute. reflexivity. Qed.

(** A file whose scripts are only declared compiles without an error to no code,
    and running such a script overruns it at once; the frame is left. *)
Theorem declared_script_overruns : exists p ds st s,
  compile [] 100 (Demo.unit_of Quirk.declared) = Comp (p, ds, st) /\ existsb is_error (u_diags (Demo.unit_of Quirk.declared) ++ ds) = false /\
  map code (files p) = [[]] /\
  @Vm.run_script_index AsciiStd.ascii_std unit _ Example.no_builtins 8 0 0 [] (Vm.new p tt (mkHeap [] [])) = Comp (Err (CodeOverrun 0), s) /\
  length (frames s) = 1%nat.
Proof.
  eexists _, _, _, _. split; [vm_compute; reflexivity|]. split; [vm_compute; reflexivity|]. split; [vm_compute; reflexivity|]. split; [vm_compute; reflexivity|]. done.
Qed.

(** Beside a script with a body, a script that is only declared runs the file's
    first one: its entry is 0. *)
Theorem declared_script_borrows : exists p ds st s out,
  compile [] 100 (Demo.unit_of Quirk.borrowed) = Comp (p, ds, st) /\ existsb is_error (u_diags (Demo.unit_of Quirk.borrowed) ++ ds) = false /\
  @Vm.run_script_index AsciiStd.ascii_std unit _ Example.no_builtins 8 0 1 [] (Vm.new p tt (mkHeap [] [])) = Comp (Ok out, s) /\
  ro_returned out = Some (VInt 7).
Proof.
  eexists _, _, _, _, _. split; [vm_compute; reflexivity|]. split; [vm_compute; reflexivity|]. split; [vm_compute; reflexivity|]. done.
Qed.
